(* ===== verification/_CoqProject ===== *)
-Q . S2P
Prelude.v
Text.v
Util.v
Metric.v
Oid.v
Ber.v
F64.v
Stats.v
GateBus.v
GateRegistry.v
Windows.v
Interpolate.v
GnmiPath.v
GnmiMatcher.v
GnmiNotification.v
GnmiTarget.v
GnmiService.v
GnmiReplica.v
GnmiChannel.v
GnmiSync.v
GnmiRun.v
Packs.v
AfterGraph.v
ClockGroups.v
OrdMap.v
Usm.v
UsmProofs.v
SnmpAgent.v
SnmpSink.v
Traps.v
TrapProofs.v
TrapRun.v
SnmpV3.v
V3Proofs.v
V3Security.v
Responder.v
ResponderProofs.v
ResponderAnswers.v
Durations.v
SinkIo.v
Rounding.v
FloatText.v
Binary64.v
ParseDuration.v
Generators.v
CsvReplay.v
Timing.v
CompileAfter.v
CivilDate.v
TextEncoders.v
Syslog.v
ScheduleLoop.v
ScheduleProofs.v
GatedLoop.v
GatedProofs.v
GatedSpec.v
