(* ===== verification/Prelude.v ===== *)
(** * Sonda: a verification library for a synthetic telemetry generator

    ** The program

    Sonda reads scenario files that describe signals (metrics, logs,
    histograms), compiles them, and emits them through encoders and sinks at a
    configured rate. The engine is the crate [sonda-core]; [sonda] is its
    command line, [sonda-server] an HTTP server that runs scenarios posted to
    it, [sonda-wasm] a binding. The parts that this library covers interact as
    follows.

    - The compiler interpolates environment variables, expands metric packs
      into entries, orders the entries along their [after:] and [while:]
      clauses, computes when the signal an entry waits for crosses its
      threshold, adds the crossings up to start offsets, and gives every chain
      a clock group. The generator of an entry gives its value at every tick;
      a capture that is replayed is checked against its declared silences.
    - A running entry publishes its values on a gate bus. Entries with a
      [while:] or [after:] clause subscribe and receive edges through a
      single-slot channel. In the server, a registry resolves clauses that
      refer to scenarios of other requests, and parks those whose upstream is
      missing.
    - The schedule loop plays an entry's ticks on a grid of deadlines, silences
      it in gaps and speeds it up in bursts, and drains what each tick queued
      into the entry's sink under its error policy; the statistics count the
      ticks and remember the last value of each series. A gated entry runs the
      loop in segments, between pauses its gate and its debounces decide, and
      marks its series stale when the gate closes.
    - The SNMP encoder renders series as object identifiers and BER messages.
      The SNMP sinks of all runs on one address publish into one agent's table,
      from which a responder answers a poller's requests; the trap sinks of a
      launch on a destination are a device, which reports its interfaces. The
      gNMI encoder renders series as paths. The gNMI sinks on one address
      publish into one target's table, which broadcasts what changes; a matcher
      selects the series a subscription asks for, and a producer per
      subscription keeps its client up to date.

    ** Conventions (this file and [Text])

    Rust's [Result] is [result] with [let?] for the question mark; a computation
    that can panic is an [option] with [let!], and theorems that say a function
    never panics say that it returns [Some]. Machine integers are [Z] with
    their bounds as predicates ([is_u32], [is_u64]) and wrap-around written
    out. A [str] is the [string] of its UTF-8 bytes. A [BTreeMap] is a sorted
    association list ([bt_insert], [bt_get] in [Metric]) or a [gmap]; a
    [HashMap] is a [gmap], and where the code iterates over one the order is an
    argument that the theorems quantify over. [f64] values are their bits
    ([F64]), compared as IEEE 754 says; arithmetic is that of the standard
    library's specification floats ([Durations]), of which [Rounding] proves
    that it rounds the exact result and [Binary64] that it is exact on whole
    numbers up to [2 ^ 53]. A double in a theorem is [num n] when it is a whole
    number, or any finite pattern. A duration is its nanoseconds. What a loop reads from outside (clocks, cancellation, edges
    of a gate) is an environment that answers the [n]-th reading; the theorems
    hold for every environment, or say what they ask of it. The responder reads
    the clock as a function of the octets written, and the clock of the engine
    once for the checks of a request and once for its answer. The class [LawfulCmp] is what a sort expects of a comparison; its
    instances are those of strings, label lists and event keys.

    ** Files, sources and theorems

    - [Text]: splitting, joining, decimal printing and parsing.
    - [Util] (src/sonda-core/src/util.rs): [splitmix64] is a bijection of the
      64-bit words and [splitmix64_inverse] its inverse; the values of a random
      cardinality spike are distinct and their index is recovered.
    - [Metric] (src/sonda-core/src/model/metric.rs): names, labels, events.
    - [Oid] (src/sonda-core/src/encoder/snmp/oid.rs): [decode_ber_body] accepts
      exactly the canonical bodies; text and template round trips; bounds,
      injectivity and the pruning test of rendered instances. The header
      comment of that source and [first_arcs_encodable] disagree on a first arc
      of 2; [decoded_oid_not_parsable] shows the difference.
    - [Ber] (src/sonda-core/src/encoder/snmp/ber.rs): the back-patching TLV
      writer, minimal integers, varbind lists and whole messages round-trip.
    - [F64], [GateBus] (src/sonda-core/src/schedule/gate_bus.rs): the state is
      a bus, a store of slots indexed by creation, and receivers; histories are
      lists of events and [bus_reach] the reachable states. The fast path of
      [tick] changes nothing, views of a gate converge, [AfterFired] is
      delivered once. [Slot] models [send], [try_recv] and the drop of the
      sender as atomic steps, as a relation on states with a ghost history, and
      proves the channel correct under every interleaving.
    - [Stats] (src/sonda-core/src/schedule/stats.rs): snapshots of the current
      values and drains of the series to close.
    - [GateRegistry] (src/sonda-server/src/gate_registry.rs): a [World] holds
      what lies behind an [Arc]; sweeps, unregistration, cancellation, and the
      composition of the first two when an upstream restarts.
    - [Windows], [Durations] (src/sonda-core/src/schedule/mod.rs): one-shot gaps,
      spikes and dynamic labels; the periodic windows in binary64 seconds.
    - [SinkIo] (src/sonda-core/src/sink/mod.rs, schedule/core_loop.rs and
      schedule/runner.rs): the [Sink] trait as a class, the queue of a tick, its
      draining and error policy, and the close markers. Warnings are limited
      and account for every error; a close marks every active series once.
    - [ScheduleLoop], [ScheduleProofs] (src/sonda-core/src/schedule/core_loop.rs):
      [iteration] is one turn of [run_schedule_loop_with_initial_tick]. Recorded
      rows are never lost, a run on time plays exactly its grid, every tick is
      counted once, time does not go back, a run with a duration ends. Four
      examples show where the code departs from its comments or its purpose:
      the rate of a resumed segment, and what gaps do after bursts and to late
      rows.
    - [GatedLoop], [GatedProofs] (src/sonda-core/src/schedule/core_loop.rs):
      [gated_loop], a turn of its body per state, and the inductive
      [lifecycle]. Nothing is emitted behind a closed gate, the gate reopens a
      scenario after its delay, the state shown is the state, ticks go on
      across pauses, a run that ends well leaves no series unmarked. Four
      examples: a resumed segment measures the duration anew, a lost upstream
      and a reopening can be forgotten, and the state shown with
      [if_unresolved: closed].
    - [GatedSpec]: the abstract machine of a gated scenario, [life_step], a
      function without timers, counters or I/O. The gated loop refines it: on
      the history its waits and drains read off the environment at their places
      ([met], [debounced], [drained_to]), the bodies of the loop are those of
      [life_run] ([body_lives]).
    - [OrdMap], [SnmpAgent] (src/sonda-core/src/sink/snmp/agent.rs): sorted maps,
      and the agent's table over them with the invariant [agent_ok].
    - [SnmpSink] (src/sonda-core/src/sink/snmp/mod.rs, encoder/snmp/mod.rs): sinks
      over one agent. The table is the ledger of the live sinks' claims, and a
      launch neither removes nor takes over another's instances over any run
      ([launches_isolated]); only a sink that joined to overwrite changes their
      values.
    - [Traps], [TrapProofs], [TrapRun] (src/sonda-core/src/sink/snmp/trap.rs):
      notifications round-trip and INFORMs are sent until they are acknowledged,
      within their time. [reach] is the sinks of a process with their history,
      newest first, from which [wanted] reads the link trap a reading calls for;
      writes send exactly those, and coldStart is sent once per device. What a
      socket will receive and when a token is cancelled are fields of a sink.
    - [Usm], [UsmProofs] (src/sonda-core/src/sink/snmp/usm.rs): the users of
      SNMPv3, their keys, the engine, its clock and its salts, encryption and
      authentication. Hashes, HMAC, DES and AES are the class [Crypto]; its documented
      behaviour (lengths of digests and blocks, decryption undoes
      encryption) is [CryptoLaws], and [toy_crypto] an instance. Keys are localized as RFC 3414
      and RFC 3826 say, decryption undoes encryption, salts do not repeat.
    - [SnmpV3], [V3Proofs], [V3Security] (src/sonda-core/src/encoder/snmp/v3.rs,
      sink/snmp/usm.rs): the messages of SNMPv3, read and written, and the
      checks of a request. A request passes exactly when its user, level,
      digest and time window do; a response reads back under the user's keys.
    - [Responder], [ResponderProofs], [ResponderAnswers]
      (src/sonda-core/src/sink/snmp/responder.rs): SNMPv1, SNMPv2c and SNMPv3
      requests, from the datagram to the response or report. Every response
      answers its request, Get and GetNext answer what the table holds, a manager
      that asks GetNext for each name it is answered with is answered every
      instance once and then its own name ([walk_visits_view]), the fast path of GetBulk is its loop, warnings per peer
      are limited. [response_over_budget]: a long community makes a response
      exceed [max_message_size]; [report_over_budget]: so does the user name a
      report gives back.
    - [Interpolate] (src/sonda-core/src/compiler/env_interpolate.rs): the byte
      scanner computes what a text means ([meaning]), said of its characters,
      escapes and references apart from the code: replaced in one pass, or the
      first fault with its line and column. The environment is a lookup
      function. [columns_count_bytes_in_references] shows the two units in which
      columns count.
    - [GnmiPath], [GnmiMatcher] (src/sonda-core/src/encoder/gnmi/path.rs and
      proto.rs, src/sonda-core/src/sink/gnmi/matcher.rs): paths and templates
      round-trip and their parsers end; the greedy alignment with wildcards is
      equivalent to the existence of an alignment, an inductive relation.
    - [GnmiNotification] (src/sonda-core/src/sink/gnmi/notification.rs): the value
      of an encoded notification, found and replaced. The protobuf primitives of
      prost are the class [Prost], their documented behaviour [ProstLaws].
    - [GnmiTarget] (src/sonda-core/src/sink/gnmi/target.rs): the table of series,
      with owners, versions, recycled identifiers and what a publish or a release
      broadcasts.
    - [GnmiService] (src/sonda-core/src/sink/gnmi/service.rs): the plan of a
      subscription, the cache of matches, the queue with its delivery index, and
      one function per turn of a producer ([serve]).
    - [GnmiReplica], [GnmiChannel], [GnmiSync], [GnmiRun]: what a client holds
      after reading its messages, the invariants of queue, table and broadcast
      channel, and the system of sinks, producer and client taking steps in any
      order. A client of ON_CHANGE subscriptions converges to the table
      ([on_change_converges]), and the producer alone gets it there from any
      state, also after the channel has overrun it ([on_change_catches_up]).
      [sample_overtaken_by_change] shows two values of one series queued.
    - [Packs] (src/sonda-core/src/packs/mod.rs and extend.rs): validation,
      selectors, overrides, expansion and extension. Generators, sinks and the
      other encoders are types the section abstracts over: the code only moves
      their values. An extension is refused exactly for a fault
      ([extend_fault]) and otherwise deviates every metric it addresses at once
      ([deviate], said metric by metric).
    - [AfterGraph], [ClockGroups] (src/sonda-core/src/compiler/compile_after.rs):
      the topological sort succeeds exactly on files without cycles, the cycle
      reported is one, the faults of references are those [order_fault] spells
      out, and clock groups are those of the connected chains.

    - [Rounding], [Binary64]: binary64 numbers as multiples of the least
      positive one ([units], [value]); rounding is monotone and exact where it
      can be, and add, subtract, multiply, divide and convert round the exact
      result. [FloatText]: a number as Rust prints it, the shortest text that
      reads back ([parse_show_f64]), and as it parses it.
    - [ParseDuration] (src/sonda-core/src/config/validate.rs,
      compiler/compile_after.rs): whole numbers of a unit parse exactly, and
      whole milliseconds that are formatted and parsed lose at most a
      microsecond, which some do ([millis_truncated]).
    - [Generators] (src/sonda-core/src/generator/, config/aliases.rs): the values
      of every generator, jitter, and the aliases rewritten to core generators.
      Random values and noise stay within their bounds as rounded;
      [uniform_exceeds_max] passes the maximum by rounding.
    - [CsvReplay] (src/sonda-core/src/generator/csv_replay.rs, csv_header.rs,
      mod.rs): columns of a capture with their blanks, [create_generator], and
      the check of a capture. What the check accepts replays faithfully on its
      grid, and its search is the exhaustive one; the grid of the schedule loop
      differs ([check_and_loop_disagree]).
    - [Timing] (src/sonda-core/src/compiler/timing.rs): the crossing of each
      generator, related to its values by [crosses]. The crossing of a ramp is
      where the ramp is at the threshold, to one part in [2 ^ 51] for whole
      numbers. Falling and very narrow ramps, dips and steps that wrap are where
      the relation fails ([falling_ramp], [narrow_ramp], [dip_crossing],
      [step_second_lap]).
    - [CompileAfter] (src/sonda-core/src/compiler/compile_after.rs): the pass over
      [AfterGraph], [Timing] and [ClockGroups]. Its offsets add up along the
      chains ([offset_rule]) and are written ([written]); it refuses a file
      exactly when it has a fault, and for one it has ([refused], which spells
      out the fault of each error); and a crossing is the first tick of the
      generator that runs, where it is exact ([exact_crossing]).
    - [CivilDate], [TextEncoders], [Syslog] (src/sonda-core/src/encoder/mod.rs,
      prometheus.rs, influx.rs, syslog.rs): timestamps, and the encoders that
      write a line per event. The date of a day is that of the Gregorian
      calendar, counted day by day ([civil_is_calendar],
      [rfc3339_is_calendar]); Prometheus and syslog lines are read back by
      readers of their formats ([prometheus_reads_back], [syslog_reads_back]),
      while a newline in a label breaks an InfluxDB line
      ([influx_line_breaks]).

    ** Fuel

    Loops that are not structural take fuel. A parser, a search or a loop over
    a queue returns [None] when it runs out, and a theorem or lemma says that
    the fuel given is enough; the numeric loops have a bound of their own.
    Decimal digits of a 64-bit number: 20. [signed_span] drops at most 7 of 8
    octets; [unxorshift] learns at least a bit a turn, so 64 turns are enough;
    Newton's iteration takes the 5 steps of the code. A pass of the gap chase
    that moves puts a window behind it, so one more than there are windows.
    Scanners and path parsers consume a byte per step: one more than the length
    of the text. [aligns] moves the end of a run once per series element and
    between two moves goes over the wanted elements once: [aligns_fuel]. Kahn's
    queue takes each entry once, the depth-first search greys one entry per
    call: one more than there are entries. A flood pushes no more than the
    adjacency lists hold: [flood_fuel]. The agent's merge of two sorted lists
    and the collection of varbinds and companions take one entry or at least
    one octet a step, and their fuel is the length of what is left
    ([bulk_loop_view], [companions_collect_ok]). Extending a key adds a digest
    of at least 16 octets a turn, so as many turns as octets are needed. A field of a protobuf message
    takes an octet at least, and a free series identifier is among one more than
    are held ([with_value_correct], [publish_correct]). The shortest decimal of
    a double is looked for over at most [SHORTEST_FUEL] powers of ten, more than
    a double has digits ([show_magnitude_reads]), and the search for the end of
    a window halves a distance a 64-bit word holds: [SEARCH_FUEL]. The schedule and gated loops
    run for ever in the code, so their fuel is an argument the theorems
    quantify over: [recorded_rows_kept], [instants_ordered] and
    [every_tick_counted] hold of every prefix of a run, [emits_only_when_open],
    [body_lives] and [state_in_sync] of every reachable turn;
    [run_ends] says how many iterations are enough and [walk_total] how many
    steps the walk over a silence takes.

    ** Not modelled

    The parsing, validation and normalization of scenario files
    and the pass that resolves packs by name; the generators of log lines, the
    expansion of captures with several columns and the sine (an argument); the threads that launch and stop
    scenarios, and the callbacks the runners of each signal give to the loop
    (an argument here); the choice of an encoder from a configuration, and the
    JSON, remote write, OTLP and SNMP values, which other crates serialize; sockets, the packet
    information of the responder, the host name and the random start of the
    salts (arguments), and the configuration of the sinks; of gNMI the handlers of tonic, Get, TLS and the
    encoding of whole notifications (paths and JSON texts are arguments); the
    other sinks and their retries; file and network I/O, the command line, the HTTP routes and the bindings. Of the
    modelled files, logging other than the rate-limited warnings, the waiting
    half of the asynchronous receives, poisoned locks and the drop of the last
    owner of a sender held by the registry are left out.

    ** Assumptions of the gNMI and trap theorems

    The versions of a series and the number of its publishers are unbounded,
    and the counter of series identifiers does not wrap in [GnmiChannel] and
    [GnmiRun]; [publish_correct] covers the search for a free one. A publisher's
    notification carries the path of its series. Convergence is stated for
    subscriptions that are all ON_CHANGE and not JSON_IETF: a sampled list may
    be overtaken. The trap sinks of a process send one after the other: a wait
    for an acknowledgement is one step of [reach].

    ** Plan

    Next come the retry policy; the launch of several scenarios with their
    start delays over [GatedLoop] (src/sonda-core/src/schedule/launch.rs and
    multi_runner.rs); the expansion pass of
    src/sonda-core/src/compiler/expand.rs, a client of [Packs]; the validation
    of configurations; the ledger of the gNMI sinks over [GnmiTarget]; and the
    routes of the server over [GateRegistry]. *)

From Stdlib Require Import ZArith Lia.
From stdpp Require Import prelude gmap strings list numbers.

#[global] Open Scope Z_scope.

(** ** Results and panics

    Rust's [Result<A, E>] is [result A E]; a computation that can panic (index
    out of range, subtraction overflow, [expect] on [None]) is an [option]
    whose [None] is the panic. *)

Inductive result (A E : Type) : Type :=
| Ok (a : A)
| Err (e : E).

Arguments Ok {A E} a.
Arguments Err {A E} e.

Declare Scope sonda_scope.
Delimit Scope sonda_scope with sonda.
#[global] Open Scope sonda_scope.

(** The [?] operator: continue on [Ok], return the error otherwise. *)
Notation "'let?' p ':=' c 'in' k" :=
  (match c with Ok p => k | Err e => Err e end)
  (at level 10, p pattern, c at level 200, k at level 200)
  : sonda_scope.

(** Sequencing of computations that can panic. *)
Notation "'let!' p ':=' c 'in' k" :=
  (match c with Some p => k | None => None end)
  (at level 10, p pattern, c at level 200, k at level 200)
  : sonda_scope.

Definition ok_or {A E : Type} (o : option A) (e : E) : result A E :=
  match o with Some a => Ok a | None => Err e end.

Definition map_err {A E F : Type} (f : E -> F) (r : result A E) : result A F :=
  match r with Ok a => Ok a | Err e => Err (f e) end.

#[export] Instance result_eq_dec {A E} `{EqDecision A, EqDecision E} :
  EqDecision (result A E).
Proof. solve_decision. Defined.

(** ** Automation *)

Create HintDb sonda.

(** Turn boolean tests of integers in the context and the goal into
    propositions [lia] reads. *)
Ltac zbool :=
  repeat match goal with
  | H : (_ && _)%bool = true |- _ => apply andb_true_iff in H; destruct H
  | H : (_ || _)%bool = false |- _ => apply orb_false_iff in H; destruct H
  | H : (_ <? _) = true |- _ => apply Z.ltb_lt in H
  | H : (_ <? _) = false |- _ => apply Z.ltb_ge in H
  | H : (_ <=? _) = true |- _ => apply Z.leb_le in H
  | H : (_ <=? _) = false |- _ => apply Z.leb_gt in H
  | H : (_ =? _) = true |- _ => apply Z.eqb_eq in H
  | H : (_ =? _) = false |- _ => apply Z.eqb_neq in H
  | H : negb _ = true |- _ => apply negb_true_iff in H
  | H : negb _ = false |- _ => apply negb_false_iff in H
  | |- (_ <? _) = true => apply Z.ltb_lt
  | |- (_ <? _) = false => apply Z.ltb_ge
  | |- (_ <=? _) = true => apply Z.leb_le
  | |- (_ <=? _) = false => apply Z.leb_gt
  | |- (_ =? _) = true => apply Z.eqb_eq
  | |- (_ =? _) = false => apply Z.eqb_neq
  end.

(** Decide an integer comparison in an [if] the arithmetic context settles. *)
Ltac zif :=
  match goal with
  | |- context [if (?a <? ?b) then _ else _] =>
      first [ rewrite (proj2 (Z.ltb_lt a b)) by lia
            | rewrite (proj2 (Z.ltb_ge a b)) by lia ]
  | |- context [if (?a <=? ?b) then _ else _] =>
      first [ rewrite (proj2 (Z.leb_le a b)) by lia
            | rewrite (proj2 (Z.leb_gt a b)) by lia ]
  | |- context [if (?a =? ?b) then _ else _] =>
      first [ rewrite (proj2 (Z.eqb_eq a b)) by lia
            | rewrite (proj2 (Z.eqb_neq a b)) by lia ]
  end.

(** Split the scrutinee of the first [match] or [if] of the goal, keeping its
    equation. *)
Ltac split_match :=
  match goal with
  | |- context [match ?x with _ => _ end] =>
      lazymatch x with context [match _ with _ => _ end] => fail | _ => idtac end;
      let H := fresh "Hm" in destruct x eqn:H
  end.

(** The same in a hypothesis. *)
Ltac split_match_in H :=
  match type of H with
  | context [match ?x with _ => _ end] =>
      lazymatch x with context [match _ with _ => _ end] => fail | _ => idtac end;
      let E := fresh "Hm" in destruct x eqn:E
  end.

(** ** Machine integers

    An unsigned [w]-bit integer is a [Z] in [0, 2^w); [usize] is 64 bits. *)

Abbreviation u32_max := 4294967295.
Abbreviation u64_max := 18446744073709551615.
Abbreviation two64 := 18446744073709551616.

Definition is_u8 (b : Z) : Prop := 0 <= b < 256.
Definition is_u32 (x : Z) : Prop := 0 <= x <= u32_max.
Definition is_u64 (x : Z) : Prop := 0 <= x <= u64_max.
Definition is_i64 (x : Z) : Prop := -9223372036854775808 <= x <= 9223372036854775807.

(** [x << k] on a 64-bit unsigned integer, for [k < 64]: bits shifted out are
    lost. *)
Definition u64_shl (x k : Z) : Z := Z.shiftl x k mod two64.

(** [x.leading_zeros()] of a 64-bit unsigned integer. *)
Definition leading_zeros64 (x : Z) : Z :=
  if x =? 0 then 64 else 63 - Z.log2 x.

(** [a.div_ceil(b)]. *)
Definition div_ceil (a b : Z) : Z := (a + b - 1) / b.

(** [a.saturating_sub(b)] and [a.saturating_add(b)] on unsigned integers. *)
Definition sat_sub (a b : Z) : Z := Z.max 0 (a - b).
Definition u64_sat_add (a b : Z) : Z := Z.min u64_max (a + b).

(** A property of bytes decided by running it on all 256 of them. *)
Definition all_bytes : list Z := seqZ 0 256.

Lemma byte_forall (P : Z -> bool) (b : Z) :
  forallb P all_bytes = true -> is_u8 b -> P b = true.
Proof.
  intros HP Hb. rewrite forallb_forall in HP. apply HP.
  apply list_elem_of_In. unfold all_bytes. apply elem_of_seqZ.
  unfold is_u8 in Hb. lia.
Qed.

(** Add the instance at [b] of a boolean fact that holds of every byte. *)
Ltac by_bytes P b H :=
  assert (H : P b = true) by
    (apply (byte_forall P b); [vm_compute; reflexivity | try assumption; unfold is_u8; lia]);
  cbv beta in H.

(** ** Bytes as positional numerals *)

(** [v.to_be_bytes()] of an unsigned [8 * n]-bit integer. *)
Fixpoint be_bytes (n : nat) (v : Z) : list Z :=
  match n with
  | O => []
  | S n => (v / 256 ^ Z.of_nat n) mod 256 :: be_bytes n v
  end.

(** The unsigned integer of a big-endian byte string. *)
Definition be_val (l : list Z) : Z := fold_left (fun acc b => acc * 256 + b) l 0.

Lemma be_bytes_length n v : length (be_bytes n v) = n.
Proof. induction n; simpl; congruence. Qed.

Lemma be_bytes_u8 n v : Forall is_u8 (be_bytes n v).
Proof.
  induction n; simpl; constructor; auto.
  unfold is_u8. pose proof (Z.mod_pos_bound (v / 256 ^ Z.of_nat n) 256). lia.
Qed.

Lemma pow256_pos n : 0 < 256 ^ Z.of_nat n.
Proof. apply Z.pow_pos_nonneg; lia. Qed.

Lemma pow256_S n : 256 ^ Z.of_nat (S n) = 256 * 256 ^ Z.of_nat n.
Proof. rewrite Nat2Z.inj_succ, Z.pow_succ_r by lia. reflexivity. Qed.

Lemma be_fold_acc l acc :
  fold_left (fun acc b => acc * 256 + b) l acc
  = acc * 256 ^ Z.of_nat (length l) + be_val l.
Proof.
  unfold be_val. revert acc. induction l as [|b l IH]; intros acc; [simpl; lia|].
  cbn [fold_left length]. rewrite (IH (acc * 256 + b)), (IH (0 * 256 + b)), pow256_S.
  ring.
Qed.

Lemma be_val_cons b l :
  be_val (b :: l) = b * 256 ^ Z.of_nat (length l) + be_val l.
Proof.
  unfold be_val at 1. cbn [fold_left]. rewrite be_fold_acc. f_equal.
Qed.

Lemma be_val_app l1 l2 :
  be_val (l1 ++ l2) = be_val l1 * 256 ^ Z.of_nat (length l2) + be_val l2.
Proof. unfold be_val at 1. rewrite fold_left_app. apply be_fold_acc. Qed.

Lemma be_val_bound l :
  Forall is_u8 l -> 0 <= be_val l < 256 ^ Z.of_nat (length l).
Proof.
  induction 1 as [|b l Hb Hl IH]; [unfold be_val; simpl; lia|].
  rewrite be_val_cons. cbn [length]. rewrite pow256_S.
  unfold is_u8 in Hb. pose proof (pow256_pos (length l)). nia.
Qed.

Lemma be_val_bytes n v : be_val (be_bytes n v) = v mod 256 ^ Z.of_nat n.
Proof.
  induction n as [|n IH]; [simpl; unfold be_val; simpl; by rewrite Z.mod_1_r|].
  cbn [be_bytes]. rewrite be_val_cons, be_bytes_length, IH, pow256_S.
  rewrite (Z.mul_comm 256 (256 ^ Z.of_nat n)).
  pose proof (pow256_pos n). rewrite Z.rem_mul_r by lia. lia.
Qed.

Lemma be_val_bytes_small n v :
  0 <= v < 256 ^ Z.of_nat n -> be_val (be_bytes n v) = v.
Proof. intros H. rewrite be_val_bytes. by apply Z.mod_small. Qed.

Lemma be_bytes_mod n v : be_bytes n (v mod 256 ^ Z.of_nat n) = be_bytes n v.
Proof.
  enough (Hg : forall k, (n <= k)%nat ->
    be_bytes n (v mod 256 ^ Z.of_nat k) = be_bytes n v) by (apply Hg; lia).
  induction n as [|n IH]; intros k Hk; [done|]. cbn [be_bytes].
  rewrite IH by lia. f_equal.
  replace (Z.of_nat k) with (Z.of_nat n + Z.of_nat (k - n)) by lia.
  rewrite Z.pow_add_r by lia. pose proof (pow256_pos n) as Hp.
  pose proof (pow256_pos (k - n)) as Hq.
  rewrite Z.rem_mul_r by lia.
  replace (v mod 256 ^ Z.of_nat n
           + 256 ^ Z.of_nat n * ((v / 256 ^ Z.of_nat n) mod 256 ^ Z.of_nat (k - n)))
    with (((v / 256 ^ Z.of_nat n) mod 256 ^ Z.of_nat (k - n)) * 256 ^ Z.of_nat n
          + v mod 256 ^ Z.of_nat n) by ring.
  rewrite Z.div_add_l, (Z.div_small (v mod _)), Z.add_0_r by
    (try apply Z.mod_pos_bound; lia).
  replace (Z.of_nat (k - n)) with (1 + Z.of_nat (k - n - 1)) by lia.
  rewrite Z.pow_add_r, Z.rem_mul_r by
    (try apply Z.pow_nonzero; try apply Z.pow_pos_nonneg; lia).
  rewrite Z.pow_1_r, (Z.mul_comm 256), Z.mod_add, Z.mod_mod by lia. done.
Qed.

(** Dropping leading bytes of a big-endian numeral keeps its low bytes. *)
Lemma skipn_be_bytes k n v :
  (k <= n)%nat -> drop k (be_bytes n v) = be_bytes (n - k) v.
Proof.
  revert k. induction n as [|n IH]; intros [|k] Hk; simpl; try done; try lia.
  apply IH. lia.
Qed.

(** The loop [fold(0, |acc, b| (acc << 8) | b)] over at most eight bytes. *)
Lemma shift_or_byte acc b :
  0 <= acc -> is_u8 b -> Z.lor (Z.shiftl acc 8) b = acc * 256 + b.
Proof.
  intros Ha Hb. unfold is_u8 in Hb.
  replace (acc * 256) with (Z.shiftl acc 8) by (by rewrite Z.shiftl_mul_pow2).
  symmetry. rewrite <- Z.lxor_lor; [apply Z.add_nocarry_lxor|].
  all: apply Z.bits_inj'; intros n Hn; rewrite Z.bits_0, Z.land_spec.
  all: destruct (Z.ltb_spec n 8).
  1,3: rewrite Z.shiftl_spec_low by lia; done.
  all: rewrite (Z.bits_above_log2 b n), andb_false_r; [done|lia|].
  all: destruct (Z.eqb_spec b 0) as [->|]; [simpl; lia|].
  all: apply Z.log2_lt_pow2; [lia|].
  all: apply Z.lt_le_trans with (2 ^ 8); [lia|apply Z.pow_le_mono_r; lia].
Qed.

Definition shift_or_fold (l : list Z) : Z :=
  fold_left (fun acc b => Z.lor (u64_shl acc 8) b) l 0.

Lemma shift_or_fold_val l :
  Forall is_u8 l -> (length l <= 8)%nat -> shift_or_fold l = be_val l.
Proof.
  intros Hl Hn. unfold shift_or_fold, be_val.
  enough (Hg : forall acc k, 0 <= acc < 256 ^ Z.of_nat k ->
    (k + length l <= 8)%nat ->
    fold_left (fun acc b => Z.lor (u64_shl acc 8) b) l acc
    = fold_left (fun acc b => acc * 256 + b) l acc)
    by (apply (Hg 0 0%nat); simpl; lia).
  clear Hn. induction Hl as [|b l Hb Hl IH]; intros acc k Ha Hk; [done|].
  cbn [fold_left length] in *.
  assert (Hs : acc * 256 < two64).
  { change two64 with (256 ^ Z.of_nat 7 * 256).
    assert (256 ^ Z.of_nat k <= 256 ^ Z.of_nat 7) by (apply Z.pow_le_mono_r; lia). lia. }
  unfold u64_shl at 2.
  rewrite Z.shiftl_mul_pow2, Z.mod_small by (change (2 ^ 8) with 256; lia).
  rewrite <- (Z.shiftl_mul_pow2 acc 8), shift_or_byte by (done || lia).
  apply (IH _ (S k)); [|lia]. rewrite pow256_S. unfold is_u8 in Hb. lia.
Qed.

(** ** Lawful comparisons

    Rust's [Ord::cmp]: a three-way comparison that is a total order. The class
    is what a sort promises its result against; the instances below are those
    of [then_with] on two keys and of [Iterator::cmp]. *)

Class LawfulCmp {A : Type} (cmp : A -> A -> comparison) : Prop := {
  cmp_eq_iff a b : cmp a b = Eq <-> a = b;
  cmp_antisym a b : cmp b a = CompOpp (cmp a b);
  cmp_lt_trans a b c : cmp a b = Lt -> cmp b c = Lt -> cmp a c = Lt;
}.

(** [o.then_with(o')]. *)
Definition then_with (o o' : comparison) : comparison :=
  match o with Eq => o' | _ => o end.

Definition pair_cmp {A B : Type} (ca : A -> A -> comparison) (cb : B -> B -> comparison)
    (x y : A * B) : comparison := then_with (ca x.1 y.1) (cb x.2 y.2).

(** [Iterator::cmp]: lexicographic, the shorter one first. *)
Fixpoint iter_cmp {A : Type} (c : A -> A -> comparison) (l l' : list A) : comparison :=
  match l, l' with
  | [], [] => Eq
  | [], _ :: _ => Lt
  | _ :: _, [] => Gt
  | a :: l, a' :: l' => then_with (c a a') (iter_cmp c l l')
  end.

Lemma cmp_refl {A} (c : A -> A -> comparison) `{!LawfulCmp c} a : c a a = Eq.
Proof. by apply cmp_eq_iff. Qed.

#[export] Instance pair_cmp_lawful {A B} (ca : A -> A -> comparison) (cb : B -> B -> comparison)
  `{!LawfulCmp ca, !LawfulCmp cb} : LawfulCmp (pair_cmp ca cb).
Proof.
  split.
  - intros [a b] [a' b']. unfold pair_cmp. simpl. destruct (ca a a') eqn:E; simpl.
    + apply (cmp_eq_iff (cmp := ca)) in E as ->. rewrite (cmp_eq_iff (cmp := cb)).
      naive_solver.
    + split; [done|]. intros [= -> ->]. by rewrite cmp_refl in E.
    + split; [done|]. intros [= -> ->]. by rewrite cmp_refl in E.
  - intros [a b] [a' b']. unfold pair_cmp. simpl.
    rewrite (cmp_antisym (cmp := ca) a a'), (cmp_antisym (cmp := cb) b b').
    by destruct (ca a a').
  - intros [a b] [a' b'] [a2 b2]. unfold pair_cmp. simpl.
    destruct (ca a a') eqn:E1; simpl; [|intros _|done].
    + apply (cmp_eq_iff (cmp := ca)) in E1 as ->.
      destruct (ca a' a2); simpl; [apply cmp_lt_trans|done..].
    + destruct (ca a' a2) eqn:E2; simpl; [|intros _|done].
      * intros _. apply (cmp_eq_iff (cmp := ca)) in E2 as ->. by rewrite E1.
      * by rewrite (cmp_lt_trans _ _ _ E1 E2).
Qed.

#[export] Instance iter_cmp_lawful {A} (c : A -> A -> comparison) `{!LawfulCmp c} :
  LawfulCmp (iter_cmp c).
Proof.
  split.
  - induction a as [|a l IH]; intros [|a' l']; simpl; try done.
    destruct (c a a') eqn:E; simpl.
    + apply (cmp_eq_iff (cmp := c)) in E as ->. rewrite IH. split; [by intros ->|by intros [= ->]].
    + split; [done|]. intros [= -> ->]. by rewrite cmp_refl in E.
    + split; [done|]. intros [= -> ->]. by rewrite cmp_refl in E.
  - induction a as [|a l IH]; intros [|a' l']; simpl; try done.
    rewrite (cmp_antisym (cmp := c) a a'), (IH l'). by destruct (c a a').
  - induction a as [|a l IH]; intros [|a' l'] [|a2 l2]; simpl; try done.
    destruct (c a a') eqn:E1; simpl; [|intros _|done].
    + apply (cmp_eq_iff (cmp := c)) in E1 as ->.
      destruct (c a' a2); simpl; [apply IH|done..].
    + destruct (c a' a2) eqn:E2; simpl; [|intros _|done].
      * intros _. apply (cmp_eq_iff (cmp := c)) in E2 as ->. by rewrite E1.
      * by rewrite (cmp_lt_trans _ _ _ E1 E2).
Qed.

(** The order a comparison of keys induces: what [sort_by] sorts by. *)
Definition cmp_le {A K : Type} (c : K -> K -> comparison) (key : A -> K) (a b : A) : Prop :=
  c (key a) (key b) <> Gt.

#[export] Instance cmp_le_dec {A K} (c : K -> K -> comparison) (key : A -> K) a b :
  Decision (cmp_le c key a b).
Proof. unfold cmp_le. apply _. Defined.

#[export] Instance cmp_le_total {A K} (c : K -> K -> comparison) (key : A -> K) `{!LawfulCmp c} :
  Total (cmp_le c key).
Proof.
  intros a b. unfold cmp_le. rewrite (cmp_antisym (cmp := c) (key a) (key b)).
  destruct (c (key a) (key b)); simpl; auto.
Qed.

#[export] Instance cmp_le_trans {A K} (c : K -> K -> comparison) (key : A -> K)
  `{!LawfulCmp c} : Transitive (cmp_le c key).
Proof.
  intros a b d. unfold cmp_le. intros H1 H2.
  destruct (c (key a) (key b)) eqn:E1; [|clear H1|done].
  - by apply (cmp_eq_iff (cmp := c)) in E1 as ->.
  - destruct (c (key b) (key d)) eqn:E2; [|clear H2|done].
    + apply (cmp_eq_iff (cmp := c)) in E2 as <-. by rewrite E1.
    + by rewrite (cmp_lt_trans _ _ _ E1 E2).
Qed.

Lemma cmp_le_antisym {A K} (c : K -> K -> comparison) (key : A -> K) `{!LawfulCmp c} a b :
  cmp_le c key a b -> cmp_le c key b a -> key a = key b.
Proof.
  unfold cmp_le. rewrite (cmp_antisym (cmp := c) (key a) (key b)).
  destruct (c (key a) (key b)) eqn:E; simpl; try done. intros _ _. by apply cmp_eq_iff in E.
Qed.
