(* ===== verification/Text.v ===== *)
(** * Text: Rust string slices

    A Rust [str] is modelled as the [string] of its UTF-8 bytes. The file holds
    the standard-library operations the components use (splitting on a
    character, joining, prefix and suffix stripping, the decimal [Display] and
    [FromStr] of unsigned integers) and their laws: [split_join],
    [parse_show_dec] and [show_parse_dec]. *)

From Stdlib Require Import ZArith Lia Ascii.
From stdpp Require Import prelude strings list numbers.
From S2P Require Import Prelude.

(** ** Characters *)

(** The byte of a character. *)
Definition code (c : ascii) : Z := Z.of_N (N_of_ascii c).

(** The bytes of a string, [s.bytes()]. *)
Fixpoint bytes_of (s : string) : list Z :=
  match s with
  | EmptyString => []
  | String c s => code c :: bytes_of s
  end.

Definition is_ascii_digit (c : ascii) : bool := (48 <=? code c) && (code c <=? 57).
Definition is_ascii_uppercase (c : ascii) : bool := (65 <=? code c) && (code c <=? 90).
Definition is_ascii_lowercase (c : ascii) : bool := (97 <=? code c) && (code c <=? 122).
Definition is_ascii_alphabetic (c : ascii) : bool :=
  is_ascii_uppercase c || is_ascii_lowercase c.
Definition is_ascii_alphanumeric (c : ascii) : bool :=
  is_ascii_alphabetic c || is_ascii_digit c.

(** [s.chars().all(p)], for a predicate no byte of a multi-byte character
    satisfies. *)
Fixpoint str_all (p : ascii -> bool) (s : string) : bool :=
  match s with
  | EmptyString => true
  | String c s => p c && str_all p s
  end.

(** [s.contains(c)]. *)
Fixpoint str_contains (c : ascii) (s : string) : bool :=
  match s with
  | EmptyString => false
  | String c' s => Ascii.eqb c' c || str_contains c s
  end.

(** [s.starts_with(c)]. *)
Definition str_starts_with (c : ascii) (s : string) : bool :=
  match s with
  | EmptyString => false
  | String c' _ => Ascii.eqb c' c
  end.

(** [s.strip_prefix(c)]. *)
Definition strip_prefix_char (c : ascii) (s : string) : option string :=
  match s with
  | String c' s => if Ascii.eqb c' c then Some s else None
  | EmptyString => None
  end.

(** [s.strip_suffix(suffix)]. *)
Fixpoint strip_suffix (suffix s : string) : option string :=
  if String.eqb s suffix then Some EmptyString
  else match s with
       | EmptyString => None
       | String c s => match strip_suffix suffix s with
                       | Some p => Some (String c p)
                       | None => None
                       end
       end.

(** ** Splitting and joining *)

(** [s.split(c)]: never empty, the empty string splits into one empty piece. *)
Fixpoint split_on (c : ascii) (s : string) : list string :=
  match s with
  | EmptyString => [EmptyString]
  | String c' s =>
      if Ascii.eqb c' c then EmptyString :: split_on c s
      else match split_on c s with
           | p :: ps => String c' p :: ps
           | [] => [String c' EmptyString]
           end
  end.

(** [s.split_once(c)]. *)
Fixpoint split_once (c : ascii) (s : string) : option (string * string) :=
  match s with
  | EmptyString => None
  | String c' s =>
      if Ascii.eqb c' c then Some (EmptyString, s)
      else match split_once c s with
           | Some (a, b) => Some (String c' a, b)
           | None => None
           end
  end.

(** [pieces.join(sep)]. *)
Fixpoint join (sep : string) (ps : list string) : string :=
  match ps with
  | [] => EmptyString
  | [p] => p
  | p :: ps => p +:+ sep +:+ join sep ps
  end.

Lemma app_cons_str c (s t : string) : String c s +:+ t = String c (s +:+ t).
Proof. done. Qed.

Lemma app_empty_r (s : string) : s +:+ "" = s.
Proof. induction s as [|c s IH]; [done|]. rewrite !app_cons_str. f_equal. exact IH. Qed.

Lemma app_assoc_str (s1 s2 s3 : string) : (s1 +:+ s2) +:+ s3 = s1 +:+ s2 +:+ s3.
Proof. induction s1 as [|c s IH]; [done|]. rewrite !app_cons_str. f_equal. exact IH. Qed.

Lemma length_app_str (s1 s2 : string) :
  String.length (s1 +:+ s2) = (String.length s1 + String.length s2)%nat.
Proof. induction s1 as [|c s IH]; [done|]. rewrite app_cons_str. simpl. by rewrite IH. Qed.

Lemma bytes_of_length s : length (bytes_of s) = String.length s.
Proof. induction s; simpl; congruence. Qed.

Lemma code_u8 c : is_u8 (code c).
Proof.
  unfold is_u8, code. pose proof (N_ascii_bounded c). lia.
Qed.

Lemma bytes_of_u8 s : Forall is_u8 (bytes_of s).
Proof. induction s; simpl; constructor; auto using code_u8. Qed.

Lemma code_inj c d : code c = code d -> c = d.
Proof.
  unfold code. intros H. apply N2Z.inj in H.
  by rewrite <- (ascii_N_embedding c), <- (ascii_N_embedding d), H.
Qed.

Lemma bytes_of_inj s t : bytes_of s = bytes_of t -> s = t.
Proof.
  revert t. induction s as [|c s IH]; intros [|d t]; simpl; try done.
  intros [= Hc Hs]. by rewrite (code_inj _ _ Hc), (IH _ Hs).
Qed.

Lemma str_contains_app c s t :
  str_contains c (s +:+ t) = str_contains c s || str_contains c t.
Proof.
  induction s as [|c' s IH]; [done|]. rewrite app_cons_str. simpl.
  by rewrite IH, orb_assoc.
Qed.

Lemma split_once_app c a b :
  str_contains c a = false -> split_once c (a +:+ String c b) = Some (a, b).
Proof.
  induction a as [|d a IH]; cbn [split_once str_contains]; intros H; rewrite ?app_cons_str;
    cbn [split_once].
  - change ("" +:+ String c b) with (String c b). cbn [split_once]. by rewrite Ascii.eqb_refl.
  - apply orb_false_iff in H as [-> H]. by rewrite IH.
Qed.

Lemma split_once_spec c s a b :
  split_once c s = Some (a, b) -> str_contains c a = false /\ s = a +:+ String c b.
Proof.
  induction s as [|d s IH] in a |- *; cbn [split_once]; [done|].
  destruct (Ascii.eqb d c) eqn:E.
  - intros [= <- <-]. apply Ascii.eqb_eq in E as ->. done.
  - destruct (split_once c s) as [[a' b']|]; [|done]. intros [= <- <-].
    destruct (IH a' eq_refl) as [H ->]. cbn [str_contains]. by rewrite E, H.
Qed.

Lemma split_once_none c s : str_contains c s = false -> split_once c s = None.
Proof.
  induction s as [|d s IH]; [done|]. cbn [str_contains split_once].
  intros [-> H]%orb_false_iff. by rewrite IH.
Qed.

Lemma split_on_nonempty c s : split_on c s <> [].
Proof.
  destruct s as [|c' s]; simpl; [done|].
  destruct (Ascii.eqb c' c); [done|]. by destruct (split_on c s).
Qed.

(** A piece without the separator, followed by a separator, is split off. *)
Lemma split_on_app c p s :
  str_contains c p = false ->
  split_on c (p +:+ String c s) = p :: split_on c s.
Proof.
  induction p as [|c' p IH]; simpl; intros Hc.
  - by rewrite Ascii.eqb_refl.
  - apply orb_false_iff in Hc as [Hc' Hc]. by rewrite Hc', (IH Hc).
Qed.

Lemma split_on_none c p : str_contains c p = false -> split_on c p = [p].
Proof.
  induction p as [|c' p IH]; simpl; intros Hc; [done|].
  apply orb_false_iff in Hc as [Hc' Hc]. by rewrite Hc', (IH Hc).
Qed.

(** Splitting undoes joining when no piece holds the separator. *)
Lemma split_join c ps :
  ps <> [] -> Forall (fun p => str_contains c p = false) ps ->
  split_on c (join (String c "") ps) = ps.
Proof.
  intros Hne Hps. induction Hps as [|p ps Hp Hps IH]; [done|].
  destruct ps as [|q ps]; [by apply split_on_none|].
  change (join (String c "") (p :: q :: ps))
    with (p +:+ String c "" +:+ join (String c "") (q :: ps)).
  replace (p +:+ String c "" +:+ join (String c "") (q :: ps))
    with (p +:+ String c (join (String c "") (q :: ps))) by done.
  rewrite split_on_app by done. by rewrite IH.
Qed.

(** Joining undoes splitting. *)
Lemma join_split c s : join (String c "") (split_on c s) = s.
Proof.
  induction s as [|c' s IH]; [done|]. simpl.
  destruct (Ascii.eqb_spec c' c) as [->|Hne].
  - pose proof (split_on_nonempty c s). destruct (split_on c s) eqn:E; [done|].
    rewrite <- IH. done.
  - pose proof (split_on_nonempty c s). destruct (split_on c s) as [|p ps] eqn:E; [done|].
    rewrite <- IH. by destruct ps.
Qed.

Lemma split_on_no_sep c s : Forall (fun p => str_contains c p = false) (split_on c s).
Proof.
  induction s as [|c' s IH]; simpl; [by repeat constructor|].
  destruct (Ascii.eqb_spec c' c) as [->|Hne]; [by constructor|].
  destruct (split_on c s) as [|p ps]; constructor.
  - simpl. by rewrite (proj2 (Ascii.eqb_neq c' c) Hne).
  - done.
  - inversion IH; subst. simpl. by rewrite (proj2 (Ascii.eqb_neq c' c) Hne).
  - by inversion IH.
Qed.

(** ** Decimal numerals *)

Definition digit_char (d : Z) : ascii := ascii_of_N (Z.to_N (48 + d)).
Definition digit_val (c : ascii) : Z := code c - 48.

(** Decimal digits of [n], most significant first, before [acc]. *)
Fixpoint dec_digits (fuel : nat) (n : Z) (acc : string) : string :=
  match fuel with
  | O => acc
  | S fuel =>
      if n <? 10 then String (digit_char n) acc
      else dec_digits fuel (n / 10) (String (digit_char (n mod 10)) acc)
  end.

(** [Display] of an unsigned integer of at most 64 bits: twenty digits are
    enough. *)
Definition show_dec (n : Z) : string := dec_digits 20 n "".

(** The digit loop of [uN::from_str]: an error on a non-digit or past [limit]. *)
Fixpoint parse_digits (limit acc : Z) (s : string) : option Z :=
  match s with
  | EmptyString => Some acc
  | String c s =>
      if is_ascii_digit c then
        let acc := acc * 10 + digit_val c in
        if acc <=? limit then parse_digits limit acc s else None
      else None
  end.

(** [s.parse::<uN>()] for the unsigned type whose greatest value is [limit]:
    an optional [+], then at least one digit. *)
Definition parse_unsigned (limit : Z) (s : string) : option Z :=
  match s with
  | EmptyString => None
  | String c rest =>
      if Ascii.eqb c "+"%char then
        match rest with
        | EmptyString => None
        | _ => parse_digits limit 0 rest
        end
      else parse_digits limit 0 s
  end.

Lemma code_digit_char d : 0 <= d < 10 -> code (digit_char d) = 48 + d.
Proof.
  intros Hd. unfold code, digit_char. rewrite N_ascii_embedding; lia.
Qed.

Lemma digit_char_digit d : 0 <= d < 10 -> is_ascii_digit (digit_char d) = true.
Proof.
  intros Hd. unfold is_ascii_digit. rewrite code_digit_char by done.
  apply andb_true_iff. split; zbool; lia.
Qed.

Lemma digit_val_char d : 0 <= d < 10 -> digit_val (digit_char d) = d.
Proof. intros Hd. unfold digit_val. rewrite code_digit_char by done. lia. Qed.

Lemma digit_char_val c : is_ascii_digit c = true -> digit_char (digit_val c) = c.
Proof.
  intros H. unfold is_ascii_digit in H. zbool. apply code_inj.
  unfold digit_val. rewrite code_digit_char; lia.
Qed.

Lemma digit_val_range c : is_ascii_digit c = true -> 0 <= digit_val c < 10.
Proof. unfold is_ascii_digit, digit_val. intros H. zbool. lia. Qed.

Lemma pow10_S f : 10 ^ Z.of_nat (S f) = 10 * 10 ^ Z.of_nat f.
Proof. rewrite Nat2Z.inj_succ, Z.pow_succ_r by lia. done. Qed.

Lemma parse_dec_digits limit f n acc :
  (0 < f)%nat -> 0 <= n < 10 ^ Z.of_nat f -> n <= limit ->
  parse_digits limit 0 (dec_digits f n acc) = parse_digits limit n acc.
Proof.
  revert n acc. induction f as [|f IH]; intros n acc Hf Hn Hl; [lia|].
  cbn [dec_digits]. rewrite pow10_S in Hn. destruct (Z.ltb_spec n 10).
  - cbn [parse_digits]. rewrite digit_char_digit, digit_val_char by lia. zif.
    f_equal.
  - pose proof (Z.mod_pos_bound n 10). pose proof (Z_div_mod_eq_full n 10).
    assert (0 < n / 10 < 10 ^ Z.of_nat f)
      by (split; [apply Z.div_str_pos|apply Z.div_lt_upper_bound]; lia).
    rewrite IH by (try lia; destruct f; simpl in *; lia).
    cbn [parse_digits]. rewrite digit_char_digit, digit_val_char by lia.
    replace (n / 10 * 10 + n mod 10) with n by lia. by zif.
Qed.

(** A second digit of fuel changes nothing once there is enough. *)
Lemma dec_digits_fuel f g n acc :
  (0 < f)%nat -> (0 < g)%nat ->
  0 <= n < 10 ^ Z.of_nat f -> n < 10 ^ Z.of_nat g ->
  dec_digits f n acc = dec_digits g n acc.
Proof.
  revert g n acc. induction f as [|f IH]; intros [|g] n acc Hf Hg Hn Hm; try lia.
  cbn [dec_digits]. destruct (Z.ltb_spec n 10); [done|].
  rewrite pow10_S in Hn, Hm.
  assert (0 < n / 10 < 10 ^ Z.of_nat f)
    by (split; [apply Z.div_str_pos|apply Z.div_lt_upper_bound]; lia).
  assert (n / 10 < 10 ^ Z.of_nat g) by (apply Z.div_lt_upper_bound; lia).
  apply IH; try lia.
  - destruct f; simpl in *; lia.
  - destruct g; simpl in *; lia.
Qed.

Lemma dec_digits_step n d acc :
  0 < n < 10 ^ 19 -> 0 <= d < 10 ->
  dec_digits 20 (n * 10 + d) acc = dec_digits 20 n (String (digit_char d) acc).
Proof.
  intros Hn Hd.
  change (dec_digits 20 (n * 10 + d) acc) with
    (if n * 10 + d <? 10 then String (digit_char (n * 10 + d)) acc
     else dec_digits 19 ((n * 10 + d) / 10)
            (String (digit_char ((n * 10 + d) mod 10)) acc)).
  zif. rewrite Z.div_add_l, Z.div_small, Z.add_0_r by lia.
  rewrite Z.add_comm, Z.mod_add, Z.mod_small by lia.
  apply dec_digits_fuel; [lia|lia|change (10 ^ Z.of_nat 19) with (10 ^ 19); lia|].
  change (10 ^ Z.of_nat 20) with (10 * 10 ^ 19). lia.
Qed.

(** Reading digits after a positive prefix gives back the digits' text. *)
Lemma show_parse_digits limit s a n acc :
  limit < 10 ^ 19 -> 0 < a ->
  parse_digits limit a s = Some n ->
  dec_digits 20 n acc = dec_digits 20 a (s +:+ acc).
Proof.
  intros Hl. revert a. induction s as [|c s IH]; intros a Ha Hp; simpl in Hp.
  - by injection Hp as ->.
  - destruct (is_ascii_digit c) eqn:Hd; [|done].
    pose proof (digit_val_range c Hd).
    destruct (Z.leb_spec (a * 10 + digit_val c) limit); [|done].
    rewrite (IH (a * 10 + digit_val c)), dec_digits_step, digit_char_val by (done || lia).
    done.
Qed.

Lemma parse_digits_range limit a s n :
  0 <= a <= limit -> parse_digits limit a s = Some n -> 0 <= n <= limit.
Proof.
  revert a. induction s as [|c s IH]; intros a Ha Hp; simpl in Hp.
  - by injection Hp as ->.
  - destruct (is_ascii_digit c) eqn:Hd; [|done].
    pose proof (digit_val_range c Hd).
    destruct (Z.leb_spec (a * 10 + digit_val c) limit); [|done].
    apply (IH (a * 10 + digit_val c)); [lia|done].
Qed.

Lemma dec_digits_all f n acc :
  0 <= n -> str_all is_ascii_digit acc = true ->
  str_all is_ascii_digit (dec_digits f n acc) = true.
Proof.
  revert n acc. induction f as [|f IH]; intros n acc Hn Ha; [done|].
  cbn [dec_digits]. destruct (Z.ltb_spec n 10).
  - simpl. by rewrite digit_char_digit.
  - apply IH; [apply Z.div_pos; lia|]. simpl.
    rewrite digit_char_digit; [done|apply Z.mod_pos_bound; lia].
Qed.

Lemma show_dec_digits n : 0 <= n -> str_all is_ascii_digit (show_dec n) = true.
Proof. intros Hn. by apply dec_digits_all. Qed.

Lemma dec_digits_cons f n acc : (0 < f)%nat -> exists c s, dec_digits f n acc = String c s.
Proof.
  revert n acc. induction f as [|f IH]; intros n acc Hf; [lia|]. cbn [dec_digits].
  destruct (n <? 10); [eauto|]. destruct f; [eauto|]. apply IH. lia.
Qed.

Lemma show_dec_nonempty n : show_dec n <> EmptyString.
Proof.
  unfold show_dec. destruct (dec_digits_cons 20 n "" ltac:(lia)) as (c & s & ->). done.
Qed.

Lemma digits_no_char c s :
  is_ascii_digit c = false -> str_all is_ascii_digit s = true ->
  str_contains c s = false.
Proof.
  intros Hc. induction s as [|d s IH]; simpl; [done|].
  intros [Hd Hs]%andb_true_iff. rewrite (IH Hs), orb_false_r.
  destruct (Ascii.eqb_spec d c) as [->|]; congruence.
Qed.

(** [FromStr] reads back what [Display] writes. *)
Lemma parse_show_dec limit n :
  0 <= n <= limit -> n < 10 ^ 20 -> parse_unsigned limit (show_dec n) = Some n.
Proof.
  intros Hn Hb. unfold parse_unsigned.
  destruct (show_dec n) as [|c s] eqn:E; [by apply show_dec_nonempty in E|].
  pose proof (show_dec_digits n ltac:(lia)) as Hd. rewrite E in Hd. simpl in Hd.
  apply andb_true_iff in Hd as [Hd _].
  destruct (Ascii.eqb_spec c "+"%char) as [->|]; [done|].
  rewrite <- E. unfold show_dec.
  rewrite parse_dec_digits; [done|lia|change (10 ^ Z.of_nat 20) with (10 ^ 20); lia|lia].
Qed.

(** A digit string without a leading zero is the [Display] of its value. *)
Lemma show_parse_dec limit s n :
  limit < 10 ^ 19 -> str_all is_ascii_digit s = true ->
  (str_starts_with "0" s = true -> String.length s = 1%nat) ->
  parse_unsigned limit s = Some n -> show_dec n = s.
Proof.
  intros Hl Hd Hz Hp. destruct s as [|c s]; [done|]. simpl in Hd.
  apply andb_true_iff in Hd as [Hc Hs]. unfold parse_unsigned in Hp.
  destruct (Ascii.eqb_spec c "+"%char) as [->|Hplus]; [done|].
  cbn [parse_digits] in Hp. rewrite Hc in Hp.
  pose proof (digit_val_range c Hc).
  destruct (Z.leb_spec (0 * 10 + digit_val c) limit); [|done].
  destruct (Z.eqb_spec (digit_val c) 0) as [Hv|Hv].
  - assert (c = "0"%char) as ->.
    { rewrite <- (digit_char_val c Hc), Hv. done. }
    destruct s as [|c' s]; [|specialize (Hz eq_refl); simpl in Hz; lia].
    rewrite Hv in Hp. simpl in Hp. by injection Hp as <-.
  - replace (0 * 10 + digit_val c) with (digit_val c) in Hp by lia.
    unfold show_dec. rewrite (show_parse_digits limit s (digit_val c)) by (done || lia).
    rewrite app_empty_r. cbn [dec_digits]. zif. by rewrite digit_char_val.
Qed.

Lemma dec_digits_leading f n acc :
  (0 < f)%nat -> 0 < n < 10 ^ Z.of_nat f ->
  str_starts_with "0" (dec_digits f n acc) = false.
Proof.
  revert n acc. induction f as [|f IH]; intros n acc Hf Hn; [lia|].
  cbn [dec_digits]. rewrite pow10_S in Hn. destruct (Z.ltb_spec n 10).
  - simpl. apply Ascii.eqb_neq. intros Hc. apply (f_equal code) in Hc.
    rewrite code_digit_char in Hc by lia. unfold code in Hc. simpl in Hc. lia.
  - assert (0 < n / 10 < 10 ^ Z.of_nat f)
      by (split; [apply Z.div_str_pos|apply Z.div_lt_upper_bound]; lia).
    apply IH; [|done]. destruct f; simpl in *; lia.
Qed.

(** A number's text starts with [0] only when it is the text of zero. *)
Lemma show_dec_no_leading_zero n :
  0 <= n < 10 ^ 20 -> str_starts_with "0" (show_dec n) = true ->
  (1 <? String.length (show_dec n))%nat = true -> False.
Proof.
  intros Hn. destruct (Z.eqb_spec n 0) as [->|]; [done|]. unfold show_dec.
  rewrite dec_digits_leading; [done|lia|change (10 ^ Z.of_nat 20) with (10 ^ 20); lia].
Qed.
