(* ===== verification/Util.v ===== *)
(** * Util: SplitMix64 and its inverse, hexadecimal values (util.rs)

    The mixing function behind every seeded generator and behind the [random]
    cardinality spike, with the inverse that tells whether a spike holds a
    value. Words are 64 bits and every product, sum and difference wraps. *)

From Stdlib Require Import ZArith Lia Ascii Znumtheory.
From stdpp Require Import prelude strings list.
From S2P Require Import Prelude Text.

Definition wrapping_add (a b : Z) : Z := (a + b) mod two64.
Definition wrapping_sub (a b : Z) : Z := (a - b) mod two64.
Definition wrapping_mul (a b : Z) : Z := (a * b) mod two64.

Definition SPLITMIX64_GAMMA : Z := 0x9e3779b97f4a7c15.
Definition SPLITMIX64_MIX1 : Z := 0xbf58476d1ce4e5b9.
Definition SPLITMIX64_MIX2 : Z := 0x94d049bb133111eb.

(** [x ^ (x >> shift)]. *)
Definition xorshift (x shift : Z) : Z := Z.lxor x (Z.shiftr x shift).

(** [splitmix64]. *)
Definition splitmix64 (z : Z) : Z :=
  let z := wrapping_add z SPLITMIX64_GAMMA in
  let z := wrapping_mul (xorshift z 30) SPLITMIX64_MIX1 in
  let z := wrapping_mul (xorshift z 27) SPLITMIX64_MIX2 in
  xorshift z 31.

(** The loop of [unxorshift]; [fuel] bounds its turns. *)
Fixpoint unxorshift_loop (fuel : nat) (z shift x known : Z) : Z :=
  match fuel with
  | O => x
  | S fuel =>
      if known <? 64
      then unxorshift_loop fuel z shift (Z.lxor z (Z.shiftr x shift)) (known + shift)
      else x
  end.

(** [unxorshift]: at least one bit per turn, so at most 64 turns. *)
Definition unxorshift (z shift : Z) : Z := unxorshift_loop 64 z shift z shift.

(** The five steps of Newton's iteration in [inverse_of_odd]. *)
Fixpoint newton (steps : nat) (a x : Z) : Z :=
  match steps with
  | O => x
  | S steps => newton steps a (wrapping_mul x (wrapping_sub 2 (wrapping_mul a x)))
  end.

(** [inverse_of_odd]. *)
Definition inverse_of_odd (a : Z) : Z := newton 5 a a.

Definition SPLITMIX64_MIX1_INVERSE : Z := inverse_of_odd SPLITMIX64_MIX1.
Definition SPLITMIX64_MIX2_INVERSE : Z := inverse_of_odd SPLITMIX64_MIX2.

(** [splitmix64_inverse]. *)
Definition splitmix64_inverse (z : Z) : Z :=
  let z := wrapping_mul (unxorshift z 31) SPLITMIX64_MIX2_INVERSE in
  let z := wrapping_mul (unxorshift z 27) SPLITMIX64_MIX1_INVERSE in
  wrapping_sub (unxorshift z 30) SPLITMIX64_GAMMA.

(** [random_spike_hash]. *)
Definition random_spike_hash (seed index : Z) : Z := splitmix64 (Z.lxor seed index).

(** [random_spike_index]. *)
Definition random_spike_index (seed hash : Z) : Z := Z.lxor (splitmix64_inverse hash) seed.

Definition hex_char (d : Z) : ascii :=
  ascii_of_N (Z.to_N (if d <? 10 then 48 + d else 87 + d)).

(** The [n] low hexadecimal digits of [v], the last one in front of [acc]. *)
Fixpoint hex_digits (n : nat) (v : Z) (acc : string) : string :=
  match n with
  | O => acc
  | S n => hex_digits n (v / 16) (String (hex_char (v mod 16)) acc)
  end.

(** [format!("{:016x}", v)] of a [u64]. *)
Definition show_hex16 (v : Z) : string := hex_digits 16 v "".

(** [random_spike_value]. *)
Definition random_spike_value (prefix : string) (seed index : Z) : string :=
  prefix +:+ show_hex16 (random_spike_hash seed index).

(** [constant_time_eq]. *)
Definition constant_time_eq (a b : list Z) : bool :=
  if negb (length a =? length b)%nat then false
  else fold_left (fun acc xy => Z.lor acc (Z.lxor xy.1 xy.2)) (zip a b) 0 =? 0.

(** ** Words as bits *)

Lemma u64_bits x : is_u64 x <-> 0 <= x /\ forall n, 64 <= n -> Z.testbit x n = false.
Proof.
  unfold is_u64. split.
  - intros [H0 H1]. split; [done|]. intros n Hn.
    destruct (Z.eq_dec x 0) as [->|]; [apply Z.bits_0|].
    apply Z.bits_above_log2; [done|]. apply Z.log2_lt_pow2; [lia|].
    assert (2 ^ 64 <= 2 ^ n) by (apply Z.pow_le_mono_r; lia).
    change (2 ^ 64) with two64 in *. lia.
  - intros [H0 Hb]. split; [done|]. assert (x mod 2 ^ 64 = x) as Hm.
    { apply Z.bits_inj'. intros n Hn. destruct (Z.ltb_spec n 64).
      - by rewrite Z.mod_pow2_bits_low.
      - rewrite Z.mod_pow2_bits_high by lia. by rewrite Hb. }
    pose proof (Z.mod_pos_bound x (2 ^ 64)). change (2 ^ 64) with two64 in *. lia.
Qed.

Lemma lxor_u64 a b : is_u64 a -> is_u64 b -> is_u64 (Z.lxor a b).
Proof.
  intros [Ha Hab]%u64_bits [Hb Hbb]%u64_bits. apply u64_bits.
  split; [by apply Z.lxor_nonneg|]. intros n Hn. by rewrite Z.lxor_spec, Hab, Hbb.
Qed.

Lemma shiftr_u64 a s : 0 <= s -> is_u64 a -> is_u64 (Z.shiftr a s).
Proof.
  intros Hs [Ha Hab]%u64_bits. apply u64_bits. split; [by apply Z.shiftr_nonneg|].
  intros n Hn. rewrite Z.shiftr_spec by lia. apply Hab. lia.
Qed.

Lemma wrap_u64 x : is_u64 (x mod two64).
Proof. unfold is_u64. pose proof (Z.mod_pos_bound x two64). lia. Qed.

Lemma wrap_id x : is_u64 x -> x mod two64 = x.
Proof. unfold is_u64. intros. apply Z.mod_small. lia. Qed.

#[export] Hint Resolve lxor_u64 shiftr_u64 wrap_u64 : sonda.

Lemma xorshift_u64 x s : 0 <= s -> is_u64 x -> is_u64 (xorshift x s).
Proof. unfold xorshift. auto with sonda. Qed.

(** ** The xor-shift and its inverse *)

(** Once the [known] high bits of [x] are those of [y], the loop ends with [y]. *)
Lemma unxorshift_loop_spec fuel y shift x known :
  0 < shift -> is_u64 y -> 64 <= known + Z.of_nat fuel ->
  (forall n, 64 - known <= n -> 0 <= n -> Z.testbit x n = Z.testbit y n) ->
  unxorshift_loop fuel (xorshift y shift) shift x known = y.
Proof.
  intros Hs Hy. induction fuel as [|fuel IH] in x, known |- *; intros Hf Hb; cbn.
  - apply Z.bits_inj'. intros n Hn. apply Hb; lia.
  - destruct (Z.ltb_spec known 64) as [Hk|Hk].
    + apply IH; [lia|]. intros n Hn Hn0. unfold xorshift.
      rewrite !Z.lxor_spec, !Z.shiftr_spec by done.
      rewrite (Hb (n + shift)) by lia. by destruct (Z.testbit y n), (Z.testbit y (n + shift)).
    + apply Z.bits_inj'. intros n Hn. apply Hb; lia.
Qed.

Lemma unxorshift_xorshift y shift :
  0 < shift < 64 -> is_u64 y -> unxorshift (xorshift y shift) shift = y.
Proof.
  intros Hs Hy. apply unxorshift_loop_spec; [lia|done|lia|].
  intros n Hn Hn0. unfold xorshift. rewrite Z.lxor_spec, Z.shiftr_spec by done.
  apply u64_bits in Hy as [_ Hy]. rewrite (Hy (n + shift)) by lia. by rewrite xorb_false_r.
Qed.

(** The other way round: the [known] high bits of [x ^ (x >> shift)] are those
    of [z]. *)
Lemma xorshift_unxorshift_loop fuel z shift x known :
  0 < shift -> is_u64 z -> is_u64 x -> 64 <= known + Z.of_nat fuel ->
  (forall n, 64 - known <= n -> 0 <= n -> Z.testbit (xorshift x shift) n = Z.testbit z n) ->
  xorshift (unxorshift_loop fuel z shift x known) shift = z /\
  is_u64 (unxorshift_loop fuel z shift x known).
Proof.
  intros Hs Hz. induction fuel as [|fuel IH] in x, known |- *; intros Hx Hf Hb; cbn.
  - split; [|done]. apply Z.bits_inj'. intros n Hn. apply Hb; lia.
  - destruct (Z.ltb_spec known 64) as [Hk|Hk].
    2: { split; [|done]. apply Z.bits_inj'. intros n Hn. apply Hb; lia. }
    apply IH; [apply lxor_u64; [done|]; apply shiftr_u64; [lia|done]|lia|].
    intros n Hn Hn0. specialize (Hb (n + shift) ltac:(lia) ltac:(lia)).
    unfold xorshift in *. rewrite !Z.lxor_spec, !Z.shiftr_spec in * by lia.
    rewrite Z.lxor_spec, Z.shiftr_spec by lia. rewrite <- Hb.
    by destruct (Z.testbit z n), (Z.testbit x (n + shift)), (Z.testbit x (n + shift + shift)).
Qed.

Lemma xorshift_unxorshift z shift :
  0 < shift < 64 -> is_u64 z ->
  xorshift (unxorshift z shift) shift = z /\ is_u64 (unxorshift z shift).
Proof.
  intros Hs Hz. apply xorshift_unxorshift_loop; [lia|done|done|lia|].
  intros n Hn Hn0. unfold xorshift. rewrite Z.lxor_spec, Z.shiftr_spec by done.
  apply u64_bits in Hz as [_ Hz]. rewrite (Hz (n + shift)) by lia. by rewrite xorb_false_r.
Qed.

(** ** The inverse of an odd number *)

(** One step doubles the number of correct bits, up to the 64 there are. *)
Lemma newton_step a x k :
  0 <= k -> (2 ^ Z.min k 64 | 1 - a * x) ->
  (2 ^ Z.min (2 * k) 64 | 1 - a * wrapping_mul x (wrapping_sub 2 (wrapping_mul a x))).
Proof.
  intros Hk [e He]. unfold wrapping_mul, wrapping_sub.
  set (y := (x * ((2 - (a * x) mod two64) mod two64)) mod two64).
  assert (Hy : exists q, y = x * (2 - a * x) + q * two64).
  { exists (x * (2 - a * x) / two64 * -1 + 0). subst y.
    rewrite Zmult_mod_idemp_r. rewrite (Z.mul_comm x), Zmult_mod, Zminus_mod.
    rewrite Z.mod_mod by done. rewrite <- Zminus_mod, <- Zmult_mod, (Z.mul_comm _ x).
    rewrite Z.mod_eq by done. ring. }
  destruct Hy as [q ->].
  replace (1 - a * (x * (2 - a * x) + q * two64)) with ((1 - a * x) * (1 - a * x) - a * q * two64) by ring.
  apply Z.divide_sub_r.
  - rewrite He. exists (e * e * 2 ^ (2 * Z.min k 64 - Z.min (2 * k) 64)).
    replace (e * 2 ^ Z.min k 64 * (e * 2 ^ Z.min k 64))
      with (e * e * (2 ^ Z.min k 64 * 2 ^ Z.min k 64)) by ring.
    rewrite <- Z.pow_add_r by lia. rewrite <- (Z.mul_assoc (e * e)), <- Z.pow_add_r by lia.
    f_equal. f_equal. lia.
  - apply Z.divide_mul_r. change two64 with (2 ^ 64).
    exists (2 ^ (64 - Z.min (2 * k) 64)). rewrite <- Z.pow_add_r by lia. f_equal. lia.
Qed.

Lemma newton_divides n a x k :
  0 <= k -> (2 ^ Z.min k 64 | 1 - a * x) ->
  (2 ^ Z.min (2 ^ Z.of_nat n * k) 64 | 1 - a * newton n a x).
Proof.
  induction n as [|n IH] in x, k |- *; intros Hk Hd.
  - change (2 ^ Z.of_nat 0) with 1. by rewrite Z.mul_1_l.
  - cbn [newton]. replace (2 ^ Z.of_nat (S n) * k) with (2 ^ Z.of_nat n * (2 * k)).
    + apply IH; [lia|]. by apply newton_step.
    + rewrite Nat2Z.inj_succ, Z.pow_succ_r by lia. ring.
Qed.

(** An odd number is its own inverse modulo 8. *)
Lemma odd_square a : Z.odd a = true -> (2 ^ Z.min 3 64 | 1 - a * a).
Proof.
  intros Ho. apply Z.odd_spec in Ho as [m ->]. change (2 ^ Z.min 3 64) with 8.
  assert (exists j, m * (m + 1) = 2 * j) as [j Hj].
  { destruct (Z.Even_or_Odd m) as [[i ->]|[i ->]].
    - exists (i * (2 * i + 1)). ring.
    - exists ((2 * i + 1) * (i + 1)). ring. }
  exists (- j). replace (1 - (2 * m + 1) * (2 * m + 1)) with (- (4 * (m * (m + 1)))) by ring.
  rewrite Hj. ring.
Qed.

(** [inverse_of_odd] is the inverse modulo 2^64 of every odd number: its
    five steps of Newton's iteration are enough. *)
Theorem inverse_of_odd_correct a (Ho : Z.odd a = true) :
  wrapping_mul a (inverse_of_odd a) = 1.
Proof.
  pose proof (newton_divides 5 a a 3 ltac:(lia) (odd_square a Ho)) as [q Hq].
  change (2 ^ Z.min (2 ^ Z.of_nat 5 * 3) 64) with two64 in Hq.
  unfold wrapping_mul, inverse_of_odd.
  replace (a * newton 5 a a) with (1 + (- q) * two64) by lia.
  by rewrite Z.mod_add.
Qed.

Lemma inverse_of_odd_correct_witness : wrapping_mul 3 (inverse_of_odd 3) = 1.
Proof. apply (inverse_of_odd_correct 3). reflexivity. Defined.

Lemma mix1_inverse : wrapping_mul SPLITMIX64_MIX1 SPLITMIX64_MIX1_INVERSE = 1.
Proof. vm_compute. reflexivity. Qed.

Lemma mix2_inverse : wrapping_mul SPLITMIX64_MIX2 SPLITMIX64_MIX2_INVERSE = 1.
Proof. vm_compute. reflexivity. Qed.

Lemma wrapping_mul_cancel x m m' :
  is_u64 x -> wrapping_mul m m' = 1 -> wrapping_mul (wrapping_mul x m) m' = x.
Proof.
  unfold wrapping_mul. intros Hx Hm. rewrite Zmult_mod_idemp_l, <- Z.mul_assoc, <- Zmult_mod_idemp_r, Hm.
  rewrite Z.mul_1_r. by apply wrap_id.
Qed.

Lemma wrapping_mul_comm a b : wrapping_mul a b = wrapping_mul b a.
Proof. unfold wrapping_mul. by rewrite Z.mul_comm. Qed.

Lemma wrapping_add_sub x g : is_u64 x -> wrapping_sub (wrapping_add x g) g = x.
Proof.
  unfold wrapping_add, wrapping_sub. intros Hx. rewrite Zminus_mod_idemp_l.
  replace (x + g - g) with x by ring. by apply wrap_id.
Qed.

Lemma wrapping_sub_add x g : is_u64 x -> wrapping_add (wrapping_sub x g) g = x.
Proof.
  unfold wrapping_add, wrapping_sub. intros Hx. rewrite Zplus_mod_idemp_l.
  replace (x - g + g) with x by ring. by apply wrap_id.
Qed.

Lemma wrapping_mul_u64 a b : is_u64 (wrapping_mul a b).
Proof. apply wrap_u64. Qed.

#[export] Hint Resolve xorshift_u64 wrapping_mul_u64 : sonda.

Lemma splitmix64_left z : is_u64 z -> splitmix64_inverse (splitmix64 z) = z.
Proof.
  intros Hz. unfold splitmix64, splitmix64_inverse.
  assert (is_u64 (wrapping_add z SPLITMIX64_GAMMA)) by apply wrap_u64.
  rewrite unxorshift_xorshift by (lia || apply wrapping_mul_u64).
  rewrite (wrapping_mul_cancel _ _ _ (xorshift_u64 _ 27 ltac:(lia) (wrapping_mul_u64 _ _)) mix2_inverse).
  rewrite unxorshift_xorshift by (lia || apply wrapping_mul_u64).
  rewrite (wrapping_mul_cancel _ _ _ (xorshift_u64 _ 30 ltac:(lia) H) mix1_inverse).
  rewrite unxorshift_xorshift by (lia || done). by apply wrapping_add_sub.
Qed.

Lemma splitmix64_right z : is_u64 z -> splitmix64 (splitmix64_inverse z) = z.
Proof.
  intros Hz. unfold splitmix64, splitmix64_inverse.
  destruct (xorshift_unxorshift z 31 ltac:(lia) Hz) as [E1 H1].
  set (y1 := wrapping_mul (unxorshift z 31) SPLITMIX64_MIX2_INVERSE).
  destruct (xorshift_unxorshift y1 27 ltac:(lia) (wrapping_mul_u64 _ _)) as [E2 H2].
  set (y2 := wrapping_mul (unxorshift y1 27) SPLITMIX64_MIX1_INVERSE).
  destruct (xorshift_unxorshift y2 30 ltac:(lia) (wrapping_mul_u64 _ _)) as [E3 H3].
  rewrite wrapping_sub_add, E3 by done. subst y2.
  rewrite wrapping_mul_cancel, E2 by (done || (rewrite wrapping_mul_comm; exact mix1_inverse)).
  subst y1. rewrite wrapping_mul_cancel by (done || (rewrite wrapping_mul_comm; exact mix2_inverse)).
  exact E1.
Qed.

(** [splitmix64] and [splitmix64_inverse] are inverse bijections of the
    64-bit words. *)
Theorem splitmix64_bijection z (Hz : is_u64 z) :
  splitmix64_inverse (splitmix64 z) = z /\ splitmix64 (splitmix64_inverse z) = z.
Proof. split; [by apply splitmix64_left|by apply splitmix64_right]. Qed.

Lemma splitmix64_bijection_witness :
  splitmix64 0 = 16294208416658607535 /\ splitmix64_inverse (splitmix64 42) = 42.
Proof.
  split; [vm_compute; reflexivity|]. apply (splitmix64_bijection 42). unfold is_u64. lia.
Defined.

(** ** Hexadecimal values *)

Lemma hex_char_inj d d' : 0 <= d < 16 -> 0 <= d' < 16 -> hex_char d = hex_char d' -> d = d'.
Proof.
  intros Hd Hd' E. apply (f_equal code) in E. unfold hex_char, code in E.
  rewrite !N_ascii_embedding, !Z2N.id in E.
  all: destruct (Z.ltb_spec d 10), (Z.ltb_spec d' 10); lia.
Qed.

Lemma hex_digits_inj n v v' acc acc' :
  hex_digits n v acc = hex_digits n v' acc' ->
  v mod 16 ^ Z.of_nat n = v' mod 16 ^ Z.of_nat n /\ acc = acc'.
Proof.
  induction n as [|n IH] in v, v', acc, acc' |- *; cbn [hex_digits]; intros E.
  - by rewrite !Z.mod_1_r.
  - apply IH in E as [Hd [= Hc ->]]. split; [|done].
    apply hex_char_inj in Hc; [|apply Z.mod_pos_bound; done..].
    rewrite Nat2Z.inj_succ, Z.pow_succ_r by lia.
    assert (0 < 16 ^ Z.of_nat n) by (apply Z.pow_pos_nonneg; lia).
    rewrite !Z.rem_mul_r by lia. by rewrite Hd, Hc.
Qed.

Lemma show_hex16_inj v v' : is_u64 v -> is_u64 v' -> show_hex16 v = show_hex16 v' -> v = v'.
Proof.
  intros Hv Hv' [E _]%hex_digits_inj. change (16 ^ Z.of_nat 16) with two64 in E.
  by rewrite !wrap_id in E.
Qed.

Lemma lxor_cancel a b : Z.lxor (Z.lxor a b) a = b.
Proof. by rewrite Z.lxor_comm, <- Z.lxor_assoc, Z.lxor_nilpotent, Z.lxor_0_l. Qed.

Lemma splitmix64_u64 z : is_u64 (splitmix64 z).
Proof. unfold splitmix64. apply xorshift_u64; [lia|apply wrapping_mul_u64]. Qed.

Lemma random_spike_index_hash seed i :
  is_u64 seed -> is_u64 i -> random_spike_index seed (random_spike_hash seed i) = i.
Proof.
  intros Hs Hi. unfold random_spike_index, random_spike_hash.
  rewrite splitmix64_left by auto with sonda. apply lxor_cancel.
Qed.

Lemma random_spike_value_eq prefix seed i j :
  is_u64 seed -> is_u64 i -> is_u64 j ->
  random_spike_value prefix seed i = random_spike_value prefix seed j <-> i = j.
Proof.
  intros Hs Hi Hj. split; [|by intros ->]. unfold random_spike_value.
  intros E%(inj (String.append prefix)). apply show_hex16_inj in E; [|apply splitmix64_u64..].
  rewrite <- (random_spike_index_hash seed i), <- (random_spike_index_hash seed j) by done.
  by rewrite E.
Qed.

(** A [random] spike has as many values as its cardinality. Under one seed
    two indices that give the same label value are the same index, and
    [random_spike_index] recovers the index from the number behind the value. *)
Theorem random_spike_value_injective prefix seed i j
    (Hs : is_u64 seed) (Hi : is_u64 i) (Hj : is_u64 j) :
  (random_spike_value prefix seed i = random_spike_value prefix seed j <-> i = j) /\
  random_spike_index seed (random_spike_hash seed i) = i.
Proof. split; [by apply random_spike_value_eq|by apply random_spike_index_hash]. Qed.

Lemma random_spike_value_injective_witness :
  random_spike_value "pod-" 7 0 = "pod-63cbe1e459320dd7"%string /\
  random_spike_index 7 (random_spike_hash 7 3) = 3.
Proof.
  split; [vm_compute; reflexivity|].
  apply (random_spike_value_injective "pod-" 7 3 0); unfold is_u64; lia.
Defined.

(** ** Comparison in constant time *)

Lemma fold_lor_zero (l : list (Z * Z)) acc :
  fold_left (fun acc xy => Z.lor acc (Z.lxor xy.1 xy.2)) l acc = 0 <->
  acc = 0 /\ Forall (fun xy => xy.1 = xy.2) l.
Proof.
  induction l as [|[x y] l IH] in acc |- *; cbn; [naive_solver|].
  rewrite IH, Z.lor_eq_0_iff, Z.lxor_eq_0_iff, Forall_cons. cbn. tauto.
Qed.

(** [constant_time_eq] is equality. *)
Lemma constant_time_eq_iff a b : constant_time_eq a b = true <-> a = b.
Proof.
  unfold constant_time_eq. destruct (Nat.eqb_spec (length a) (length b)) as [El|El]; cbn.
  2: { split; [done|]. by intros ->. }
  rewrite Z.eqb_eq, fold_lor_zero. split.
  - intros [_ H]. revert b El H. induction a as [|x a IH]; intros [|y b] El H; try done.
    cbn in *. apply Forall_cons_1 in H as [Hx H]. cbn in Hx. f_equal; [done|].
    apply IH; [congruence|done].
  - intros ->. split; [done|]. induction b as [|y b IH]; [constructor|]. cbn. constructor; [done|].
    by apply IH.
Qed.
