(* ===== verification/Metric.v ===== *)
(** * Metric: label sets and validated names (model/metric.rs)

    [Labels] is a [BTreeMap<String, String>]: an association list kept strictly
    sorted by key, which is what its iterator yields. [from_pairs] validates
    every key and resolves duplicates by last write. *)

From Stdlib Require Import ZArith Lia Ascii Sorted.
From stdpp Require Import prelude strings list gmap.
From S2P Require Import Prelude Text.

(** ** Names *)

(** [is_valid_label_key]: [[a-zA-Z_][a-zA-Z0-9_]*]. *)
Definition is_valid_label_key (s : string) : bool :=
  match s with
  | EmptyString => false
  | String c rest =>
      (is_ascii_alphabetic c || Ascii.eqb c "_"%char)
      && str_all (fun c => is_ascii_alphanumeric c || Ascii.eqb c "_"%char) rest
  end.

(** [is_valid_metric_name]: [[a-zA-Z_:][a-zA-Z0-9_:]*]. *)
Definition is_valid_metric_name (s : string) : bool :=
  match s with
  | EmptyString => false
  | String c rest =>
      (is_ascii_alphabetic c || Ascii.eqb c "_"%char || Ascii.eqb c ":"%char)
      && str_all (fun c => is_ascii_alphanumeric c || Ascii.eqb c "_"%char
                           || Ascii.eqb c ":"%char) rest
  end.

(** [ValidatedMetricName::new]; the error carries the refused name. *)
Definition validated_metric_name (name : string) : result string string :=
  if negb (is_valid_metric_name name) then Err name else Ok name.

Lemma label_key_no_char c s :
  is_ascii_alphanumeric c = false -> c <> "_"%char ->
  is_valid_label_key s = true -> str_contains c s = false.
Proof.
  intros Hc Hu. destruct s as [|d s]; [done|]. simpl.
  intros [Hd Hs]%andb_true_iff. apply orb_false_iff. split.
  - apply Ascii.eqb_neq. intros ->. apply orb_true_iff in Hd as [Hd|Hd].
    + unfold is_ascii_alphanumeric in Hc. by rewrite Hd in Hc.
    + by apply Ascii.eqb_eq in Hd.
  - induction s as [|e s IH]; [done|]. simpl in *.
    apply andb_true_iff in Hs as [He Hs]. rewrite (IH Hs), orb_false_r.
    apply Ascii.eqb_neq. intros ->. rewrite Hc in He. simpl in He.
    by apply Ascii.eqb_eq in He.
Qed.

(** ** Ordered maps with string keys

    Rust orders strings by their bytes, which is [String.compare]. *)

Definition str_lt (s t : string) : Prop := String.compare s t = Lt.

Lemma ascii_compare_trans a b c :
  Ascii.compare a b = Lt -> Ascii.compare b c = Lt -> Ascii.compare a c = Lt.
Proof. unfold Ascii.compare. rewrite !N.compare_lt_iff. lia. Qed.

#[export] Instance str_lt_trans : Transitive str_lt.
Proof.
  unfold str_lt. intros s t u. revert t u.
  induction s as [|a s IH]; intros [|b t] [|c u]; simpl; try done.
  destruct (Ascii.compare a b) eqn:Hab; try done.
  - apply Ascii.compare_eq_iff in Hab as ->.
    destruct (Ascii.compare b c) eqn:Hbc; try done. apply IH.
  - intros _. destruct (Ascii.compare b c) eqn:Hbc; try done.
    + apply Ascii.compare_eq_iff in Hbc as ->. by rewrite Hab.
    + by rewrite (ascii_compare_trans _ _ _ Hab Hbc).
Qed.

Lemma str_compare_refl s : String.compare s s = Eq.
Proof.
  induction s as [|c s IH]; simpl; [done|].
  unfold Ascii.compare. by rewrite N.compare_refl.
Qed.

#[export] Instance str_lt_irrefl : Irreflexive str_lt.
Proof.
  intros s. unfold complement, str_lt. by rewrite str_compare_refl.
Qed.

Section btree.
Context {V : Type}.
Implicit Types (m : list (string * V)) (k : string) (v : V).

(** [map.insert(k, v)]: overwrite in place or insert in order. *)
Fixpoint bt_insert k v m : list (string * V) :=
  match m with
  | [] => [(k, v)]
  | (k', v') :: m =>
      match String.compare k k' with
      | Eq => (k, v) :: m
      | Lt => (k, v) :: (k', v') :: m
      | Gt => (k', v') :: bt_insert k v m
      end
  end.

(** [map.get(k)], as the scan of the iterator for an equal key. *)
Fixpoint bt_get k m : option V :=
  match m with
  | [] => None
  | (k', v') :: m => if String.eqb k' k then Some v' else bt_get k m
  end.

(** The keys are strictly increasing, so distinct. *)
Definition bt_sorted m : Prop := StronglySorted str_lt (map fst m).

Lemma bt_insert_Forall P k v m :
  P k -> Forall P (map fst m) -> Forall P (map fst (bt_insert k v m)).
Proof.
  intros Hk. induction m as [|[k' v'] m IH]; simpl; intros Hm; [by constructor|].
  inversion Hm; subst. destruct (String.compare k k'); simpl; constructor; auto.
Qed.

Lemma bt_insert_sorted k v m : bt_sorted m -> bt_sorted (bt_insert k v m).
Proof.
  unfold bt_sorted. induction m as [|[k' v'] m IH]; simpl; intros Hs;
    [by repeat constructor|].
  inversion Hs as [|? ? Hs' Hf]; subst.
  destruct (String.compare k k') eqn:Hc; simpl.
  - apply String.compare_eq_iff in Hc as ->. by constructor.
  - constructor; [done|]. constructor; [done|].
    eapply Forall_impl; [exact Hf|]. intros x Hx. by trans k'.
  - constructor; [by apply IH|]. apply bt_insert_Forall; [|done].
    unfold str_lt. rewrite String.compare_antisym, Hc. done.
Qed.

Lemma bt_get_insert k k' v m :
  bt_get k' (bt_insert k v m) = if String.eqb k k' then Some v else bt_get k' m.
Proof.
  induction m as [|[k0 v0] m IH]; simpl; [done|].
  destruct (String.compare k k0) eqn:Hc; simpl.
  - apply String.compare_eq_iff in Hc as ->. by destruct (String.eqb k0 k').
  - done.
  - rewrite IH. destruct (String.eqb_spec k0 k') as [->|]; [|done].
    destruct (String.eqb_spec k k') as [->|]; [|done].
    by rewrite str_compare_refl in Hc.
Qed.
End btree.

#[export] Hint Resolve bt_insert_sorted : sonda.

(** ** Labels *)

Record Labels := mk_labels { inner : list (string * string) }.

(** [Labels::iter]. *)
Definition labels_iter (l : Labels) : list (string * string) := inner l.

(** [Labels::insert]. *)
Definition labels_insert (l : Labels) (key value : string) : Labels :=
  mk_labels (bt_insert key value (inner l)).

(** The loop of [from_pairs] over the pairs left, from the map built so far;
    the error is the refused key. *)
Fixpoint from_pairs_loop (pairs acc : list (string * string)) : result Labels string :=
  match pairs with
  | [] => Ok (mk_labels acc)
  | (key, value) :: pairs =>
      if negb (is_valid_label_key key) then Err key
      else from_pairs_loop pairs (bt_insert key value acc)
  end.

(** [Labels::from_pairs]. *)
Definition from_pairs (pairs : list (string * string)) : result Labels string :=
  from_pairs_loop pairs [].

(** What a label set promises: sorted distinct keys, all of them label keys. *)
Definition labels_ok (l : Labels) : Prop :=
  bt_sorted (inner l) /\ Forall (fun k => is_valid_label_key k = true) (map fst (inner l)).

(** The value [from_pairs] gives a key: that of its last pair. *)
Fixpoint last_value (k : string) (pairs : list (string * string)) : option string :=
  match pairs with
  | [] => None
  | (k', v) :: pairs =>
      match last_value k pairs with
      | Some v' => Some v'
      | None => if String.eqb k' k then Some v else None
      end
  end.

Lemma from_pairs_loop_spec pairs acc l :
  labels_ok (mk_labels acc) ->
  from_pairs_loop pairs acc = Ok l ->
  labels_ok l /\
  forall k, bt_get k (inner l)
            = match last_value k pairs with Some v => Some v | None => bt_get k acc end.
Proof.
  revert acc. induction pairs as [|[key value] pairs IH]; simpl; intros acc Hok Hl.
  - by injection Hl as <-.
  - destruct (is_valid_label_key key) eqn:Hk; [|done]. simpl in Hl.
    destruct Hok as [Hs Hf]. simpl in *.
    destruct (IH (bt_insert key value acc)) as [Hl' Hg];
      [split; simpl; [by apply bt_insert_sorted|by apply bt_insert_Forall]|done|].
    split; [done|]. intros k. rewrite Hg, bt_get_insert.
    destruct (last_value k pairs); [done|]. by destruct (String.eqb key k).
Qed.

(** A successful [from_pairs] yields a strictly sorted map of valid
    keys in which every key has the value of its last pair. *)
Theorem from_pairs_correct pairs l (Hp : from_pairs pairs = Ok l) :
  labels_ok l /\ forall k, bt_get k (labels_iter l) = last_value k pairs.
Proof.
  destruct (from_pairs_loop_spec pairs [] l) as [Hok Hg]; [|done|].
  - split; [constructor|constructor].
  - split; [done|]. intros k. unfold labels_iter. rewrite Hg. by destruct (last_value k pairs).
Qed.

Lemma from_pairs_correct_witness :
  bt_get "a" [("a"%string, "3"%string); ("z"%string, "2"%string)] = Some "3"%string.
Proof.
  exact (proj2 (from_pairs_correct [("z", "2"); ("a", "1"); ("a", "3")]%string
    (mk_labels [("a", "3"); ("z", "2")]%string) eq_refl) "a"%string).
Defined.

#[export] Instance Labels_eq_dec : EqDecision Labels.
Proof. solve_decision. Defined.

#[export] Instance Labels_countable : Countable Labels.
Proof. refine (inj_countable' inner mk_labels _). by intros []. Defined.

(** ** Events *)

(** The series key [MetricKey]: the name and the full label set. *)
Abbreviation MetricKey := (string * Labels)%type.

(** [MetricEvent]; a timestamp is a number of nanoseconds. *)
Record MetricEvent := mk_event {
  ev_name : string;
  ev_value : Z;
  ev_labels : Labels;
  ev_timestamp : Z;
}.

(** [MetricEvent::with_timestamp]. *)
Definition with_timestamp (name : string) (value : Z) (labels : Labels) (timestamp : Z)
  : result MetricEvent string :=
  let? validated := validated_metric_name name in
  Ok (mk_event validated value labels timestamp).

(** [MetricEvent::from_parts]. *)
Definition from_parts (name : string) (value : Z) (labels : Labels) (timestamp : Z) : MetricEvent :=
  mk_event name value labels timestamp.

Definition event_key (e : MetricEvent) : MetricKey := (ev_name e, ev_labels e).

(** ** The order of series *)

#[export] Instance str_cmp_lawful : LawfulCmp String.compare.
Proof.
  split.
  - intros a b. split; [apply String.compare_eq_iff|]. intros ->. apply str_compare_refl.
  - intros a b. apply String.compare_antisym.
  - apply str_lt_trans.
Qed.

(** [a.labels.iter().cmp(b.labels.iter())]. *)
Definition labels_cmp (a b : Labels) : comparison :=
  iter_cmp (pair_cmp String.compare String.compare) (labels_iter a) (labels_iter b).

#[export] Instance labels_cmp_lawful : LawfulCmp labels_cmp.
Proof.
  unfold labels_cmp. split; intros.
  - rewrite cmp_eq_iff. destruct a, b; cbn. split; congruence.
  - apply cmp_antisym.
  - by eapply cmp_lt_trans.
Qed.
