(* ===== verification/Oid.v ===== *)
(** * Oid: SNMP object identifiers (encoder/snmp/oid.rs)

    [Oid] with its dotted text form ([parse], [display]) and its BER content
    octets ([write_ber_body], [decode_ber_body]); [OidTemplate] with [parse],
    [display], [render] and [can_render_under]. *)

From Stdlib Require Import ZArith Lia Ascii.
From stdpp Require Import prelude strings list numbers.
From S2P Require Import Prelude Text Metric.

(** ** Object identifiers *)

(** The most arcs an OID may have (RFC 2578). *)
Definition MAX_ARCS : nat := 128.

Record Oid := mk_oid { arcs : list Z }.

#[export] Instance Oid_eq_dec : EqDecision Oid.
Proof. solve_decision. Defined.

Inductive OidParseError :=
| LeadingDot (text : string)
| EmptyArc (text : string)
| OneArc (text : string)
| BadArc (oid arc : string)
| NotEncodable (text : string).

#[export] Instance OidParseError_eq_dec : EqDecision OidParseError.
Proof. solve_decision. Defined.

(** [first_arcs_encodable]. *)
Definition first_arcs_encodable (arcs : list Z) : bool :=
  match arcs with
  | first :: second :: _ =>
      if (first =? 0) || (first =? 1) then second <? 40
      else if first =? 2 then second <=? u32_max - 80
      else false
  | _ => false
  end.

(** The loop of [Oid::parse] over the pieces left, after the arcs read. *)
Fixpoint parse_arcs (text : string) (pieces : list string) (read : list Z)
  : result (list Z) OidParseError :=
  match pieces with
  | [] => Ok read
  | arc :: pieces =>
      if String.eqb arc "" then Err (EmptyArc text)
      else if negb (str_all is_ascii_digit arc) then Err (BadArc text arc)
      else match parse_unsigned u32_max arc with
           | None => Err (BadArc text arc)
           | Some value => parse_arcs text pieces (read ++ [value])
           end
  end.

(** [Oid::parse]. *)
Definition oid_parse (text : string) : result Oid OidParseError :=
  if str_starts_with "." text then Err (LeadingDot text)
  else
    let? arcs := parse_arcs text (split_on "." text) [] in
    if (length arcs <? 2)%nat then Err (OneArc text)
    else if negb (first_arcs_encodable arcs) then Err (NotEncodable text)
    else Ok (mk_oid arcs).

(** [Oid::from_arcs]. *)
Definition from_arcs (arcs : list Z) : option Oid :=
  if (length arcs <? 2)%nat || negb (first_arcs_encodable arcs) then None
  else Some (mk_oid arcs).

(** [slice.starts_with(needle)]. *)
Fixpoint arcs_start_with (l needle : list Z) {struct needle} : bool :=
  match needle, l with
  | [], _ => true
  | _ :: _, [] => false
  | x :: needle, y :: l => (x =? y) && arcs_start_with l needle
  end.

(** [Oid::is_prefix_of]. *)
Definition is_prefix_of (self other : Oid) : bool :=
  arcs_start_with (arcs other) (arcs self).

(** [fmt::Display for Oid]: the first arc, then each other after a dot. *)
Definition oid_display (oid : Oid) : string :=
  match arcs oid with
  | [] => ""
  | first :: rest => fold_left (fun s arc => s +:+ "." +:+ show_dec arc) rest (show_dec first)
  end.

(** ** BER content octets *)

(** [first_subidentifier]: the first two arcs folded. *)
Definition first_subidentifier (arcs : list Z) : Z :=
  default 0 (arcs !! 0%nat) * 40 + default 0 (arcs !! 1%nat).

(** [subidentifier_len]. *)
Definition subidentifier_len (value : Z) : Z :=
  let bits := 64 - leading_zeros64 value in
  Z.max (div_ceil bits 7) 1.

(** The loop [for i in (0..len).rev()] of [write_subidentifier], from the top
    [n] septets. *)
Fixpoint write_septets (n : nat) (value : Z) (out : list Z) : list Z :=
  match n with
  | O => out
  | S i =>
      let septet := Z.land (Z.shiftr value (7 * Z.of_nat i)) 127 in
      write_septets i value
        (out ++ [if (i =? 0)%nat then septet else Z.lor septet 128])
  end.

(** [write_subidentifier]. *)
Definition write_subidentifier (value : Z) (out : list Z) : list Z :=
  write_septets (Z.to_nat (subidentifier_len value)) value out.

(** [ber_body_len]. *)
Definition ber_body_len (arcs : list Z) : Z :=
  subidentifier_len (first_subidentifier arcs)
  + foldr Z.add 0 (map subidentifier_len (drop 2 arcs)).

(** [write_ber_body]. *)
Definition write_ber_body (arcs out : list Z) : list Z :=
  fold_left (fun out arc => write_subidentifier arc out) (drop 2 arcs)
            (write_subidentifier (first_subidentifier arcs) out).

(** [u32::try_from] of an unsigned value. *)
Definition u32_try_from (v : Z) : option Z := if v <=? u32_max then Some v else None.

(** What [decode_ber_body] pushes for a complete subidentifier. *)
Definition push_subidentifier (first : bool) (value : Z) (arcs : list Z) : option (list Z) :=
  if first then
    let (a, b) := if value <=? 39 then (0, value)
                  else if value <=? 79 then (1, value - 40)
                  else (2, value - 80) in
    let! b := u32_try_from b in
    Some (arcs ++ [a; b])
  else
    let! v := u32_try_from value in
    Some (arcs ++ [v]).

(** The loop of [decode_ber_body] over the octets left, and its last check. *)
Fixpoint decode_loop (body : list Z) (value : Z) (started first : bool) (arcs : list Z)
  : option (list Z) :=
  match body with
  | [] => if started then None else Some arcs
  | octet :: body =>
      if negb started && (octet =? 128) then None
      else
        let value := Z.lor (u64_shl value 7) (Z.land octet 127) in
        if u32_max + 80 <? value then None
        else if negb (Z.land octet 128 =? 0) then decode_loop body value true first arcs
        else
          let! arcs := push_subidentifier first value arcs in
          decode_loop body 0 false false arcs
  end.

(** [decode_ber_body]: the arcs it leaves, or [None] when malformed. *)
Definition decode_ber_body (body : list Z) : option (list Z) :=
  match body with
  | [] => None
  | _ => decode_loop body 0 false true []
  end.

(** [Oid::from_ber_body]. *)
Definition from_ber_body (body : list Z) : option Oid :=
  let! arcs := decode_ber_body body in Some (mk_oid arcs).

(** ** Index arcs and templates *)

(** [index_arc]: the canonical decimal [u32] a label value is read as. *)
Definition index_arc (value : string) : option Z :=
  let digits := negb (String.eqb value "") && str_all is_ascii_digit value in
  if negb digits || ((1 <? String.length value)%nat && str_starts_with "0" value)
  then None
  else parse_unsigned u32_max value.

Record Placeholder := mk_placeholder { ph_name : string; ph_string : bool }.

#[export] Instance Placeholder_eq_dec : EqDecision Placeholder.
Proof. solve_decision. Defined.

(** [Placeholder::min_arcs]. *)
Definition min_arcs (p : Placeholder) : nat := if ph_string p then 2 else 1.

Record OidTemplate := mk_template { object : Oid; placeholders : list Placeholder }.

#[export] Instance OidTemplate_eq_dec : EqDecision OidTemplate.
Proof. solve_decision. Defined.

Inductive OidTemplateError :=
| Object (template : string) (source : OidParseError)
| NoObject (template : string)
| Unsupported (template placeholder : string)
| NotTrailing (template arc : string)
| BadPlaceholder (template arc : string)
| ScalarWithoutZero (template : string)
| TemplateTooManyArcs (template : string) (arcs : nat).

#[export] Instance OidTemplateError_eq_dec : EqDecision OidTemplateError.
Proof. solve_decision. Defined.

(** The placeholder an arc of a template is, if it is one. *)
Definition parse_placeholder (text arc : string)
  : result (option Placeholder) OidTemplateError :=
  let inner := let! a := strip_prefix_char "{" arc in strip_suffix "}" a in
  match inner with
  | Some inner =>
      if str_contains ":" inner then
        match strip_suffix ":str" inner with
        | Some name =>
            if is_valid_label_key name then Ok (Some (mk_placeholder name true))
            else Err (Unsupported text arc)
        | None => Err (Unsupported text arc)
        end
      else if is_valid_label_key inner then Ok (Some (mk_placeholder inner false))
      else Err (BadPlaceholder text arc)
  | None =>
      if str_contains "{" arc || str_contains "}" arc then Err (BadPlaceholder text arc)
      else Ok None
  end.

(** The loop of [OidTemplate::parse] over the arcs left. *)
Fixpoint parse_template_arcs (text : string) (pieces literal : list string)
  (phs : list Placeholder) : result (list string * list Placeholder) OidTemplateError :=
  match pieces with
  | [] => Ok (literal, phs)
  | arc :: pieces =>
      let? placeholder := parse_placeholder text arc in
      match placeholder with
      | Some p => parse_template_arcs text pieces literal (phs ++ [p])
      | None =>
          if negb (bool_decide (phs = [])) then Err (NotTrailing text arc)
          else parse_template_arcs text pieces (literal ++ [arc]) phs
      end
  end.

(** The fewest arcs a list of placeholders renders as. *)
Definition sum_min_arcs (phs : list Placeholder) : nat := foldr Nat.add 0%nat (map min_arcs phs).

(** [OidTemplate::parse]. *)
Definition template_parse (text : string) : result OidTemplate OidTemplateError :=
  let? (literal, phs) := parse_template_arcs text (split_on "." text) [] [] in
  if bool_decide (literal = []) then Err (NoObject text)
  else if bool_decide (phs = []) && negb (bool_decide (list.last literal = Some "0"))
  then Err (ScalarWithoutZero text)
  else
    let literal := if bool_decide (phs = []) then removelast literal else literal in
    let? object := map_err (Object text) (oid_parse (join "." literal)) in
    let index := sum_min_arcs phs in
    let n := (length (arcs object) + Nat.max index 1)%nat in
    if (MAX_ARCS <? n)%nat then Err (TemplateTooManyArcs text n)
    else Ok (mk_template object phs).

(** [OidTemplate::has_string_index]. *)
Definition has_string_index (t : OidTemplate) : bool := existsb ph_string (placeholders t).

(** [OidTemplate::index_arcs], the [as u8] cast included. *)
Definition index_arcs (t : OidTemplate) : Z :=
  Z.of_nat (Nat.max (sum_min_arcs (placeholders t)) 1) mod 256.

Inductive TemplateArc :=
| Literal (arc : Z)
| Label (name : string)
| StringLabel (name : string).

(** [OidTemplate::arcs]. *)
Definition template_arcs (t : OidTemplate) : list TemplateArc :=
  map Literal (arcs (object t))
  ++ (if bool_decide (placeholders t = []) then [Literal 0] else [])
  ++ map (fun p => if ph_string p then StringLabel (ph_name p) else Label (ph_name p))
         (placeholders t).

(** [OidTemplate::can_render_under]. *)
Definition can_render_under (t : OidTemplate) (prefix : Oid) : bool :=
  let object := arcs (object t) in
  let wanted := arcs prefix in
  if bool_decide (placeholders t = []) then
    (length wanted <=? length object + 1)%nat && arcs_start_with (object ++ [0]) wanted
  else if (length wanted <=? length object)%nat then arcs_start_with object wanted
  else
    arcs_start_with wanted object
    && (has_string_index t
        || (length wanted <=? length object + length (placeholders t))%nat).

Inductive RenderError :=
| MissingLabel (name : string)
| NotAnArc (name value : string)
| EmptyString_ (name : string)
| TooManyArcs (name : string) (arcs : nat).

#[export] Instance RenderError_eq_dec : EqDecision RenderError.
Proof. solve_decision. Defined.

(** The loop of [OidTemplate::render] over the placeholders left. *)
Fixpoint render_loop (phs : list Placeholder) (labels : Labels) (out : list Z)
  : result (list Z) RenderError :=
  match phs with
  | [] => Ok out
  | p :: phs =>
      let name := ph_name p in
      let? value := ok_or (bt_get name (labels_iter labels)) (MissingLabel name) in
      if negb (ph_string p) then
        let? arc := ok_or (index_arc value) (NotAnArc name value) in
        render_loop phs labels (out ++ [arc])
      else if String.eqb value "" then Err (EmptyString_ name)
      else
        let after := sum_min_arcs phs in
        let n := (length out + 1 + String.length value + after)%nat in
        if (MAX_ARCS <? n)%nat then Err (TooManyArcs name n)
        else render_loop phs labels
               (out ++ [Z.of_nat (String.length value)] ++ bytes_of value)
  end.

(** [OidTemplate::render]: the arcs it leaves in its output. *)
Definition render (t : OidTemplate) (labels : Labels) : result (list Z) RenderError :=
  render_loop (placeholders t) labels
    (arcs (object t) ++ (if bool_decide (placeholders t = []) then [0] else [])).

(** [fmt::Display for OidTemplate]. *)
Definition template_display (t : OidTemplate) : string :=
  fold_left
    (fun s p => s +:+ ".{" +:+ ph_name p +:+ (if ph_string p then ":str" else "") +:+ "}")
    (placeholders t)
    (oid_display (object t) +:+ (if bool_decide (placeholders t = []) then ".0" else "")).

(** ** Base-128 subidentifiers *)

(** The octets [write_septets] appends, as a list. *)
Fixpoint septets (n : nat) (value : Z) : list Z :=
  match n with
  | O => []
  | S i =>
      let septet := (value / 128 ^ Z.of_nat i) mod 128 in
      (if (i =? 0)%nat then septet else septet + 128) :: septets i value
  end.

(** The canonical octets of a subidentifier. *)
Definition subidentifier (value : Z) : list Z :=
  septets (Z.to_nat (subidentifier_len value)) value.

(** The greatest value the decoder lets a subidentifier reach. *)
Abbreviation subid_max := 4294967375.

Lemma pow128_pos n : 0 < 128 ^ Z.of_nat n.
Proof. apply Z.pow_pos_nonneg; lia. Qed.

Lemma pow128_S n : 128 ^ Z.of_nat (S n) = 128 * 128 ^ Z.of_nat n.
Proof. rewrite Nat2Z.inj_succ, Z.pow_succ_r by lia. done. Qed.

Lemma lor_high_bit s : 0 <= s < 128 -> Z.lor s 128 = s + 128.
Proof.
  intros Hs. by_bytes (fun s => (128 <=? s) || (Z.lor s 128 =? s + 128)) s H.
  apply orb_true_iff in H as [H|H]; zbool; lia.
Qed.

Lemma high_bit_test o : is_u8 o -> (Z.land o 128 =? 0) = (o <? 128).
Proof.
  intros Ho. by_bytes (fun o => Bool.eqb (Z.land o 128 =? 0) (o <? 128)) o H.
  by apply Bool.eqb_prop in H.
Qed.

Lemma land_low_bits o : is_u8 o -> Z.land o 127 = o mod 128.
Proof. intros _. change 127 with (Z.ones 7). by rewrite Z.land_ones. Qed.

Lemma shift_or_septet v o :
  0 <= v <= subid_max -> is_u8 o ->
  Z.lor (u64_shl v 7) (Z.land o 127) = v * 128 + o mod 128.
Proof.
  intros Hv Ho. unfold u64_shl. rewrite Z.shiftl_mul_pow2 by lia.
  change (2 ^ 7) with 128. rewrite Z.mod_small by lia. rewrite land_low_bits by done.
  replace (v * 128) with (Z.shiftl v 7) by (by rewrite Z.shiftl_mul_pow2).
  symmetry. pose proof (Z.mod_pos_bound o 128).
  assert (Hl : Z.land (Z.shiftl v 7) (o mod 128) = 0).
  { change 128 with (2 ^ 7). rewrite <- Z.land_ones, Z.land_comm, <- Z.land_assoc by lia.
    rewrite (Z.land_comm (Z.ones 7)), Z.land_ones, Z.shiftl_mul_pow2, Z.mod_mul by lia.
    apply Z.land_0_r. }
  rewrite <- Z.lxor_lor by done. by apply Z.add_nocarry_lxor.
Qed.

Lemma septet_val v i :
  0 <= v -> Z.land (Z.shiftr v (7 * Z.of_nat i)) 127 = (v / 128 ^ Z.of_nat i) mod 128.
Proof.
  intros Hv. change 127 with (Z.ones 7). rewrite Z.land_ones, Z.shiftr_div_pow2 by lia.
  by rewrite Z.pow_mul_r by lia.
Qed.

Lemma write_septets_app n v out :
  0 <= v -> write_septets n v out = out ++ septets n v.
Proof.
  intros Hv. revert out. induction n as [|i IH]; intros out; [by rewrite app_nil_r|].
  cbn [write_septets septets]. rewrite IH, <- app_assoc. cbn [app]. do 2 f_equal.
  rewrite septet_val by done. pose proof (Z.mod_pos_bound (v / 128 ^ Z.of_nat i) 128).
  destruct (i =? 0)%nat; [done|]. by rewrite lor_high_bit by lia.
Qed.

Lemma write_subidentifier_app v out :
  0 <= v -> write_subidentifier v out = out ++ subidentifier v.
Proof. apply write_septets_app. Qed.

Lemma septets_length n v : length (septets n v) = n.
Proof. induction n; simpl; congruence. Qed.

Lemma septets_u8 n v : Forall is_u8 (septets n v).
Proof.
  induction n as [|i IH]; simpl; constructor; [|done].
  unfold is_u8. pose proof (Z.mod_pos_bound (v / 128 ^ Z.of_nat i) 128).
  destruct (i =? 0)%nat; lia.
Qed.

(** The length formula counts exactly the base-128 digits. *)
Lemma subidentifier_len_spec n v :
  (0 < n)%nat -> 0 <= v < 128 ^ Z.of_nat n -> v <= u64_max ->
  (n = 1%nat \/ 128 ^ Z.of_nat (n - 1) <= v) ->
  subidentifier_len v = Z.of_nat n.
Proof.
  intros Hn Hv Hmax Hlow. unfold subidentifier_len, leading_zeros64, div_ceil.
  destruct (Z.eqb_spec v 0) as [->|Hz].
  - destruct Hlow as [->|Hlow]; [done|]. pose proof (pow128_pos (n - 1)). lia.
  - replace (64 - (63 - Z.log2 v) + 7 - 1) with (Z.log2 v + 7) by lia.
    change 128 with (2 ^ 7) in Hv, Hlow. rewrite <- Z.pow_mul_r in Hv, Hlow by lia.
    assert (Z.log2 v < 7 * Z.of_nat n) by (apply Z.log2_lt_pow2; lia).
    assert (7 * Z.of_nat (n - 1) <= Z.log2 v).
    { destruct Hlow as [->|Hlow]; [simpl; apply Z.log2_nonneg|].
      apply Z.log2_le_pow2; lia. }
    replace ((Z.log2 v + 7) / 7) with (Z.of_nat n); [lia|].
    apply Z.div_unique with (Z.log2 v + 7 - 7 * Z.of_nat n); lia.
Qed.

(** Every value a [u64] holds has such a digit count. *)
Lemma subidentifier_len_exists v :
  0 <= v <= u64_max ->
  exists n, (0 < n)%nat /\ v < 128 ^ Z.of_nat n /\
            (n = 1%nat \/ 128 ^ Z.of_nat (n - 1) <= v) /\
            subidentifier_len v = Z.of_nat n.
Proof.
  intros Hv.
  assert (Hex : exists n, (0 < n)%nat /\ v < 128 ^ Z.of_nat n /\
            (n = 1%nat \/ 128 ^ Z.of_nat (n - 1) <= v)).
  { destruct (Z.eqb_spec v 0) as [->|Hz]; [exists 1%nat; simpl; lia|].
    exists (S (Z.to_nat (Z.log2 v / 7))).
    pose proof (Z.log2_nonneg v). pose proof (Z.div_pos (Z.log2 v) 7).
    pose proof (Z_div_mod_eq_full (Z.log2 v) 7). pose proof (Z.mod_pos_bound (Z.log2 v) 7).
    split; [lia|]. change 128 with (2 ^ 7). rewrite <- !Z.pow_mul_r by lia. split.
    - apply Z.lt_le_trans with (2 ^ (Z.succ (Z.log2 v)));
        [apply Z.log2_spec; lia|apply Z.pow_le_mono_r; lia].
    - right. apply Z.le_trans with (2 ^ Z.log2 v);
        [apply Z.pow_le_mono_r; lia|apply Z.log2_spec; lia]. }
  destruct Hex as (n & Hn & Hlt & Hlow). exists n.
  repeat split; try done. apply subidentifier_len_spec; try done; lia.
Qed.

(** ** Decoding *)

(** The decoder reads the septets of [v] after the prefix [v / 128^n] and then
    pushes [v]. *)
Lemma decode_septets n v rest started first acc :
  (0 < n)%nat -> 0 <= v <= subid_max ->
  (started = true \/
   v < 128 ^ Z.of_nat n /\ (n = 1%nat \/ 128 ^ Z.of_nat (n - 1) <= v)) ->
  decode_loop (septets n v ++ rest) (v / 128 ^ Z.of_nat n) started first acc
  = (let! acc := push_subidentifier first v acc in decode_loop rest 0 false false acc).
Proof.
  revert started. induction n as [|i IH]; intros started Hn Hv Hs; [lia|].
  cbn [septets app decode_loop].
  pose proof (pow128_pos i) as Hp. rewrite pow128_S in *.
  set (q := v / 128 ^ Z.of_nat i) in *.
  assert (Hq : 0 <= q <= v)
    by (subst q; split; [apply Z.div_pos|apply Z.div_le_upper_bound]; nia).
  assert (Hd : v / (128 * 128 ^ Z.of_nat i) = q / 128)
    by (subst q; rewrite Z.div_div, Z.mul_comm by lia; done).
  rewrite Hd. pose proof (Z_div_mod_eq_full q 128) as Hqd.
  pose proof (Z.mod_pos_bound q 128 ltac:(lia)) as Hqm.
  pose proof (Z.div_pos q 128 ltac:(lia) ltac:(lia)).
  set (o := if (i =? 0)%nat then q mod 128 else q mod 128 + 128).
  assert (Ho : is_u8 o /\ o mod 128 = q mod 128 /\ (o <? 128) = (i =? 0)%nat).
  { subst o. unfold is_u8. destruct (i =? 0)%nat; repeat split; try lia; zbool; try lia.
    - by rewrite Z.mod_mod.
    - replace (q mod 128 + 128) with (q mod 128 + 1 * 128) by lia.
      by rewrite Z.mod_add, Z.mod_mod. }
  destruct Ho as (Ho8 & Hom & Hob).
  assert (Hno : negb started && (o =? 128) = false).
  { destruct started; [done|]. destruct Hs as [Hs|[Hlt Hs]]; [done|].
    simpl. apply Z.eqb_neq. subst o.
    destruct (Nat.eqb_spec i 0) as [->|Hi]; [lia|].
    destruct Hs as [Hs|Hs]; [lia|]. replace (S i - 1)%nat with i in Hs by lia.
    assert (q < 128) by (subst q; apply Z.div_lt_upper_bound; lia).
    assert (1 <= q) by (subst q; apply Z.div_le_lower_bound; lia).
    rewrite Z.mod_small; lia. }
  rewrite Hno, shift_or_septet, Hom, high_bit_test, Hob by (done || lia).
  replace (q / 128 * 128 + q mod 128) with q by lia.
  change (u32_max + 80) with subid_max. zif.
  destruct (Nat.eqb_spec i 0) as [->|Hi]; simpl.
  - subst q. simpl. by rewrite Z.div_1_r.
  - subst q. apply IH; [lia|lia|]. by left.
Qed.

(** The same from the start of a subidentifier. *)
Lemma decode_subidentifier v rest first acc :
  0 <= v <= subid_max ->
  decode_loop (subidentifier v ++ rest) 0 false first acc
  = (let! acc := push_subidentifier first v acc in decode_loop rest 0 false false acc).
Proof.
  intros Hv. unfold subidentifier.
  destruct (subidentifier_len_exists v) as (n & Hn & Hlt & Hlow & ->); [lia|].
  rewrite Nat2Z.id, <- (decode_septets n v rest false) by (try right; done).
  by rewrite Z.div_small by lia.
Qed.

Lemma decode_rest l acc :
  Forall is_u32 l ->
  decode_loop (concat (map subidentifier l)) 0 false false acc = Some (acc ++ l).
Proof.
  intros Hl. revert acc. induction Hl as [|x l Hx Hl IH]; intros acc; simpl.
  - by rewrite app_nil_r.
  - unfold is_u32 in Hx. rewrite decode_subidentifier by lia.
    unfold push_subidentifier, u32_try_from. zif. rewrite IH, <- app_assoc. done.
Qed.

(** Arcs a BER body can hold: the first pair folds, every arc fits. *)
Definition ber_arcs (l : list Z) : Prop :=
  match l with
  | first :: second :: rest =>
      (first = 0 \/ first = 1) /\ 0 <= second < 40 /\ Forall is_u32 rest
      \/ first = 2 /\ is_u32 second /\ Forall is_u32 rest
  | _ => False
  end.

(** The body [write_ber_body] writes, as a list. *)
Definition ber_body (l : list Z) : list Z :=
  subidentifier (first_subidentifier l) ++ concat (map subidentifier (drop 2 l)).

Lemma write_ber_body_app l out :
  Forall is_u32 l -> write_ber_body l out = out ++ ber_body l.
Proof.
  intros Hl. unfold write_ber_body, ber_body.
  assert (H0 : 0 <= first_subidentifier l).
  { unfold first_subidentifier. destruct Hl as [|x l Hx [|y l' Hy Hl]];
      simpl; unfold is_u32 in *; lia. }
  rewrite write_subidentifier_app, app_assoc by done.
  assert (Hd : Forall is_u32 (drop 2 l)) by by apply Forall_drop.
  generalize (out ++ subidentifier (first_subidentifier l)) as acc.
  induction Hd as [|x d Hx Hd IH]; intros acc; simpl; [by rewrite app_nil_r|].
  unfold is_u32 in Hx. by rewrite IH, write_subidentifier_app, <- app_assoc by lia.
Qed.

Lemma ber_arcs_u32 l : ber_arcs l -> Forall is_u32 l.
Proof.
  destruct l as [|a [|b l]]; simpl; try done. unfold is_u32.
  intros [(Ha & Hb & Hl)|(Ha & Hb & Hl)]; repeat constructor; try lia; done.
Qed.

Lemma first_subidentifier_max l : ber_arcs l -> 0 <= first_subidentifier l <= subid_max.
Proof.
  destruct l as [|a [|b l]]; simpl; try done. unfold first_subidentifier, is_u32. simpl. lia.
Qed.

Lemma subidentifier_nonempty v : 0 <= v <= u64_max -> subidentifier v <> [].
Proof.
  intros Hv. unfold subidentifier.
  destruct (subidentifier_len_exists v Hv) as ([|n] & Hn & _ & _ & ->); [lia|].
  rewrite Nat2Z.id. done.
Qed.

(** Decoding undoes encoding. *)
Lemma decode_encode l : ber_arcs l -> decode_ber_body (ber_body l) = Some l.
Proof.
  intros Hl. pose proof (first_subidentifier_max l Hl) as Hmax.
  assert (Hne : ber_body l <> []).
  { unfold ber_body. intros [E _]%app_nil. revert E. apply subidentifier_nonempty. lia. }
  unfold decode_ber_body. destruct (ber_body l) as [|o os] eqn:E; [done|].
  rewrite <- E. unfold ber_body. rewrite decode_subidentifier by lia.
  destruct l as [|a [|b l]]; simpl in Hl; try done.
  unfold push_subidentifier, first_subidentifier, u32_try_from in *. simpl in *.
  unfold is_u32 in Hl.
  destruct Hl as [([->| ->] & Hb & Hl)|(-> & Hb & Hl)].
  - zif. replace (0 * 40 + b) with b by lia. zif. rewrite decode_rest by done. done.
  - destruct (Z.leb_spec (1 * 40 + b) 39); [lia|]. zif.
    replace (1 * 40 + b - 40) with b by lia. zif. rewrite decode_rest by done. done.
  - destruct (Z.leb_spec (2 * 40 + b) 39); [lia|].
    destruct (Z.leb_spec (2 * 40 + b) 79); [lia|].
    replace (2 * 40 + b - 80) with b by lia. zif. rewrite decode_rest by done. done.
Qed.

(** ** The decoder accepts only canonical octets *)

(** A started subidentifier ends: its octets are the low septets of the value
    pushed. *)
Lemma decode_started_inv body p first acc res :
  Forall is_u8 body -> 1 <= p <= subid_max ->
  decode_loop body p true first acc = Some res ->
  exists n v rest acc',
    (0 < n)%nat /\ body = septets n v ++ rest /\ v / 128 ^ Z.of_nat n = p /\
    0 <= v <= subid_max /\ Forall is_u8 rest /\
    push_subidentifier first v acc = Some acc' /\
    decode_loop rest 0 false false acc' = Some res.
Proof.
  intros Hb. revert p. induction Hb as [|o body Ho Hb IH]; intros p Hp Hd; [done|].
  cbn [decode_loop negb andb] in Hd.
  rewrite shift_or_septet, high_bit_test in Hd by (done || lia).
  change (u32_max + 80) with subid_max in Hd.
  pose proof (Z.mod_pos_bound o 128 ltac:(lia)) as Hm.
  destruct (Z.ltb_spec subid_max (p * 128 + o mod 128)); [done|].
  assert (Hq : (p * 128 + o mod 128) / 128 = p).
  { rewrite Z.div_add_l, (Z.div_small (o mod 128)) by lia. lia. }
  assert (Hr : (p * 128 + o mod 128) mod 128 = o mod 128).
  { rewrite Z.add_comm, Z.mod_add, Z.mod_mod by lia. done. }
  unfold is_u8 in Ho. destruct (Z.ltb_spec o 128); simpl in Hd.
  - destruct (push_subidentifier first (p * 128 + o mod 128) acc) as [acc'|] eqn:E; [|done].
    exists 1%nat, (p * 128 + o mod 128), body, acc'.
    repeat split; try done; try lia. cbn [septets Nat.eqb app].
    simpl. rewrite Z.div_1_r, Hr, Z.mod_small by lia. done.
  - destruct (IH (p * 128 + o mod 128)) as (n & v & rest & acc' & Hn & -> & Hv & ?);
      [lia|done|].
    exists (S n), v, rest, acc'. pose proof (pow128_pos n).
    split; [lia|]. split; [|split; [|done]].
    + cbn [septets app]. f_equal. rewrite Hv, Hr.
      destruct (Nat.eqb_spec n 0); [lia|].
      replace o with (o - 128 + 1 * 128) at 2 by lia.
      rewrite Z.mod_add, Z.mod_small by lia. lia.
    + rewrite pow128_S, Z.mul_comm, <- Z.div_div by lia. by rewrite Hv.
Qed.

(** A whole subidentifier is canonical. *)
Lemma decode_fresh_inv o body first acc res :
  Forall is_u8 (o :: body) ->
  decode_loop (o :: body) 0 false first acc = Some res ->
  exists v rest acc',
    o :: body = subidentifier v ++ rest /\ 0 <= v <= subid_max /\ Forall is_u8 rest /\
    push_subidentifier first v acc = Some acc' /\
    decode_loop rest 0 false false acc' = Some res.
Proof.
  intros Hall Hd. inversion Hall as [|? ? Ho Hb]; subst.
  cbn [decode_loop negb andb] in Hd.
  destruct (Z.eqb_spec o 128) as [|Hne]; [done|].
  rewrite shift_or_septet, high_bit_test in Hd by (done || lia).
  change (u32_max + 80) with subid_max in Hd. unfold is_u8 in Ho.
  pose proof (Z.mod_pos_bound o 128 ltac:(lia)) as Hm.
  replace (0 * 128 + o mod 128) with (o mod 128) in Hd by lia.
  destruct (Z.ltb_spec subid_max (o mod 128)); [lia|].
  destruct (Z.ltb_spec o 128); simpl in Hd.
  - rewrite Z.mod_small in Hd by lia.
    destruct (push_subidentifier first o acc) as [acc'|] eqn:E; [|done].
    exists o, body, acc'. repeat split; try done; try lia.
    unfold subidentifier. rewrite (subidentifier_len_spec 1) by (simpl; lia).
    simpl. by rewrite Z.div_1_r, Z.mod_small by lia.
  - assert (Ho' : o mod 128 = o - 128).
    { replace o with (o - 128 + 1 * 128) at 1 by lia. rewrite Z.mod_add, Z.mod_small; lia. }
    rewrite Ho' in Hd.
    destruct (decode_started_inv body (o - 128) first acc res)
      as (n & v & rest & acc' & Hn & -> & Hv & Hmax & Hrest); [done|lia|done|].
    exists v, rest, acc'. pose proof (pow128_pos n) as Hpos.
    pose proof (Z_div_mod_eq_full v (128 ^ Z.of_nat n)).
    pose proof (Z.mod_pos_bound v (128 ^ Z.of_nat n) ltac:(lia)).
    split; [|done]. unfold subidentifier.
    rewrite (subidentifier_len_spec (S n)).
    + rewrite Nat2Z.id. cbn [septets app]. f_equal.
      destruct (Nat.eqb_spec n 0); [lia|]. rewrite Hv, Z.mod_small; lia.
    + lia.
    + rewrite pow128_S. nia.
    + lia.
    + right. replace (S n - 1)%nat with n by lia. nia.
Qed.

Lemma push_rest_inv v acc acc' :
  0 <= v -> push_subidentifier false v acc = Some acc' -> acc' = acc ++ [v] /\ is_u32 v.
Proof.
  unfold push_subidentifier, u32_try_from, is_u32. intros Hv.
  destruct (Z.leb_spec v u32_max); [|done]. intros [= <-]. split; [done|lia].
Qed.

Lemma decode_rest_inv k body acc res :
  (length body <= k)%nat -> Forall is_u8 body ->
  decode_loop body 0 false false acc = Some res ->
  exists l, res = acc ++ l /\ body = concat (map subidentifier l) /\ Forall is_u32 l.
Proof.
  revert body acc. induction k as [|k IH]; intros [|o body] acc Hk Hb Hd; simpl in Hk; try lia.
  1,2: exists []; simpl in *; rewrite app_nil_r; injection Hd as ->; repeat split; constructor.
  destruct (decode_fresh_inv o body false acc res)
    as (v & rest & acc' & E & Hv & Hr & Hp & Hd'); [done|done|].
  apply push_rest_inv in Hp as [-> Hu]; [|lia].
  assert (Hlen : (length rest <= k)%nat).
  { apply (f_equal length) in E. rewrite length_app in E. simpl in E.
    assert (subidentifier v <> []) as Hn by (apply subidentifier_nonempty; lia).
    destruct (subidentifier v); [done|]. simpl in E. lia. }
  destruct (IH rest (acc ++ [v])) as (l & -> & -> & Hl); [done|done|done|].
  exists (v :: l). rewrite <- app_assoc. repeat split; [done|by constructor].
Qed.

Lemma push_first_inv v acc :
  0 <= v <= subid_max -> push_subidentifier true v [] = Some acc ->
  exists a b, acc = [a; b] /\ a * 40 + b = v /\
    ((a = 0 \/ a = 1) /\ 0 <= b < 40 \/ a = 2 /\ is_u32 b).
Proof.
  unfold push_subidentifier, u32_try_from, is_u32. intros Hv.
  destruct (Z.leb_spec v 39); [|destruct (Z.leb_spec v 79)].
  - zif. intros [= <-]. exists 0, v. split; [done|lia].
  - zif. intros [= <-]. exists 1, (v - 40). split; [done|lia].
  - zif. intros [= <-]. exists 2, (v - 80). split; [done|lia].
Qed.

Lemma decode_canonical body l :
  Forall is_u8 body -> decode_ber_body body = Some l -> ber_arcs l /\ ber_body l = body.
Proof.
  intros Hb Hd. unfold decode_ber_body in Hd. destruct body as [|o body]; [done|].
  destruct (decode_fresh_inv o body true [] l)
    as (v & rest & acc' & E & Hv & Hr & Hp & Hd'); [done|done|].
  apply push_first_inv in Hp as (a & b & -> & Hab & Hcase); [|done].
  destruct (decode_rest_inv (length rest) rest [a; b] l) as (r & -> & -> & Hru); [done..|].
  split.
  - simpl. unfold is_u32 in *. intuition (subst; auto).
  - unfold ber_body, first_subidentifier. simpl. by rewrite Hab.
Qed.

(** ** Properties of OIDs *)

(** C16: the BER decoder accepts exactly the canonical content octets of an
    object identifier and returns the arcs they encode: a body decodes to [l]
    if and only if [l] is a list of arcs BER can hold and the body is what
    [write_ber_body] writes for it. *)
Theorem decode_ber_body_iff body l :
  Forall is_u8 body ->
  decode_ber_body body = Some l <-> ber_arcs l /\ write_ber_body l [] = body.
Proof.
  intros Hb. split.
  - intros Hd. destruct (decode_canonical body l Hb Hd) as [Ha He]. split; [done|].
    by rewrite write_ber_body_app by (by apply ber_arcs_u32).
  - intros [Ha <-]. rewrite write_ber_body_app by (by apply ber_arcs_u32).
    by apply decode_encode.
Qed.

Lemma decode_ber_body_iff_witness :
  decode_ber_body [43; 6; 1; 4; 1; 191; 8] = Some [1; 3; 6; 1; 4; 1; 8072] <->
  ber_arcs [1; 3; 6; 1; 4; 1; 8072] /\
  write_ber_body [1; 3; 6; 1; 4; 1; 8072] [] = [43; 6; 1; 4; 1; 191; 8].
Proof.
  apply decode_ber_body_iff. repeat constructor; unfold is_u8; lia.
Defined.

Lemma subidentifier_length v :
  0 <= v <= u64_max -> Z.of_nat (length (subidentifier v)) = subidentifier_len v.
Proof.
  intros Hv. unfold subidentifier. rewrite septets_length, Z2Nat.id; [done|].
  unfold subidentifier_len. lia.
Qed.

Lemma ber_body_len_app l out :
  Forall is_u32 l ->
  Z.of_nat (length (write_ber_body l out)) = Z.of_nat (length out) + ber_body_len l.
Proof.
  intros Hl. rewrite write_ber_body_app, length_app by done. unfold ber_body, ber_body_len.
  rewrite length_app, !Nat2Z.inj_add, subidentifier_length.
  - do 2 f_equal. assert (Hd : Forall is_u32 (drop 2 l)) by by apply Forall_drop.
    induction Hd as [|x d Hx Hd IH]; [done|]. simpl. unfold is_u32 in Hx.
    by rewrite length_app, Nat2Z.inj_add, subidentifier_length, IH by lia.
  - unfold first_subidentifier. destruct Hl as [|x l Hx [|y l' Hy Hl]];
      simpl; unfold is_u32 in *; lia.
Qed.

(** [ber_body_len] is the number of octets [write_ber_body] appends, so the
    length written ahead of an OBJECT IDENTIFIER's body is the body's. *)
Theorem ber_body_len_correct l out :
  Forall is_u32 l ->
  Z.of_nat (length (write_ber_body l out)) = Z.of_nat (length out) + ber_body_len l.
Proof. apply ber_body_len_app. Qed.

Lemma ber_body_len_correct_witness :
  Z.of_nat (length (write_ber_body [1; 3; 6; 8072] [0])) = 1 + ber_body_len [1; 3; 6; 8072].
Proof. apply (ber_body_len_correct _ [0]). repeat constructor; unfold is_u32; lia. Defined.

(** *** Text *)

Lemma oid_display_join l : oid_display (mk_oid l) = join "." (map show_dec l).
Proof.
  unfold oid_display. simpl. destruct l as [|a l]; [done|].
  enough (Hg : forall s, fold_left (fun s arc => s +:+ "." +:+ show_dec arc) l s
    = join "." (s :: map show_dec l)) by apply Hg.
  induction l as [|b l IH]; intros s; [done|].
  cbn [fold_left map]. rewrite IH. cbn [map].
  destruct (map show_dec l) as [|x xs]; [done|].
  change (join "." (s :: show_dec b :: x :: xs))
    with (s +:+ "." +:+ (show_dec b +:+ "." +:+ join "." (x :: xs))).
  change (join "." ((s +:+ "." +:+ show_dec b) :: x :: xs))
    with ((s +:+ "." +:+ show_dec b) +:+ "." +:+ join "." (x :: xs)).
  by rewrite !app_assoc_str.
Qed.

Lemma show_dec_no_dot l :
  Forall is_u32 l -> Forall (fun p => str_contains "." p = false) (map show_dec l).
Proof.
  induction 1 as [|x l Hx Hl IH]; simpl; constructor; [|done].
  apply digits_no_char; [done|]. apply show_dec_digits. unfold is_u32 in Hx. lia.
Qed.

Lemma parse_arcs_show text l read :
  Forall is_u32 l -> parse_arcs text (map show_dec l) read = Ok (read ++ l).
Proof.
  intros Hl. revert read. induction Hl as [|x l Hx Hl IH]; intros read; simpl.
  - by rewrite app_nil_r.
  - unfold is_u32 in Hx. rewrite (proj2 (String.eqb_neq _ _) (show_dec_nonempty x)).
    rewrite show_dec_digits, parse_show_dec by lia. simpl. by rewrite IH, <- app_assoc.
Qed.

Lemma join_digits_start l :
  Forall is_u32 l -> l <> [] -> str_starts_with "." (join "." (map show_dec l)) = false.
Proof.
  intros Hl Hne. destruct Hl as [|x l Hx Hl]; [done|]. unfold is_u32 in Hx.
  pose proof (show_dec_digits x ltac:(lia)) as Hd. simpl.
  destruct (show_dec x) as [|c s] eqn:E; [by apply show_dec_nonempty in E|].
  simpl in Hd. apply andb_true_iff in Hd as [Hd _].
  assert (Hc : Ascii.eqb c "." = false)
    by (apply Ascii.eqb_neq; intros ->; done).
  by destruct (map show_dec l).
Qed.

(** [parse] of a text that joins the decimal arcs of [l]. *)
Lemma oid_parse_text text l :
  text = join "." (map show_dec l) -> Forall is_u32 l -> l <> [] ->
  oid_parse text
  = if (length l <? 2)%nat then Err (OneArc text)
    else if negb (first_arcs_encodable l) then Err (NotEncodable text)
    else Ok (mk_oid l).
Proof.
  intros Ht Hl Hne.
  assert (Hs : str_starts_with "." text = false) by (subst text; by apply join_digits_start).
  assert (Hp : split_on "." text = map show_dec l).
  { subst text. apply split_join; [by destruct l|by apply show_dec_no_dot]. }
  unfold oid_parse. rewrite Hs, Hp, parse_arcs_show by done. done.
Qed.

(** Reading back the text of an OID: [parse] of the [Display] of any two or
    more [u32] arcs returns the same OID when the first two arcs are ones
    [from_arcs] accepts, and [NotEncodable] otherwise. *)
Theorem oid_parse_display l :
  Forall is_u32 l -> (2 <= length l)%nat ->
  oid_parse (oid_display (mk_oid l))
  = match from_arcs l with
    | Some o => Ok o
    | None => Err (NotEncodable (oid_display (mk_oid l)))
    end.
Proof.
  intros Hl Hn. rewrite (oid_parse_text _ l) by
    (try apply oid_display_join; try done; intros ->; simpl in Hn; lia).
  unfold from_arcs. rewrite (proj2 (Nat.ltb_ge (length l) 2)) by done. simpl.
  by destruct (first_arcs_encodable l).
Qed.

Lemma oid_parse_display_witness :
  oid_parse (oid_display (mk_oid [1; 3; 6; 1])) = Ok (mk_oid [1; 3; 6; 1]).
Proof.
  apply (oid_parse_display [1; 3; 6; 1]).
  - repeat constructor; unfold is_u32; lia.
  - simpl; lia.
Defined.

(** [from_ber_body] accepts OIDs that [parse] refuses: whenever the first
    arc is 2 and the second is above [u32::MAX - 80], the encoded arcs decode,
    yet the decoded OID's text is [NotEncodable]. *)
Theorem decoded_oid_not_parsable b rest :
  u32_max - 80 < b <= u32_max -> Forall is_u32 rest ->
  from_ber_body (write_ber_body (2 :: b :: rest) []) = Some (mk_oid (2 :: b :: rest)) /\
  oid_parse (oid_display (mk_oid (2 :: b :: rest)))
  = Err (NotEncodable (oid_display (mk_oid (2 :: b :: rest)))).
Proof.
  intros Hb Hr.
  assert (Ha : ber_arcs (2 :: b :: rest)) by (right; unfold is_u32; repeat split; lia || done).
  pose proof (ber_arcs_u32 _ Ha) as Hu. split.
  - unfold from_ber_body. rewrite write_ber_body_app by done. simpl app.
    by rewrite decode_encode.
  - rewrite (oid_parse_text _ (2 :: b :: rest)) by (done || apply oid_display_join).
    replace (first_arcs_encodable (2 :: b :: rest)) with false; [done|].
    symmetry. simpl. zbool. lia.
Qed.

Lemma decoded_oid_not_parsable_witness :
  from_ber_body (write_ber_body [2; 4294967295; 1] []) = Some (mk_oid [2; 4294967295; 1]).
Proof.
  apply (decoded_oid_not_parsable 4294967295 [1]); [lia|].
  repeat constructor; unfold is_u32; lia.
Defined.

Lemma index_arc_canonical value n :
  index_arc value = Some n -> is_u32 n /\ value = show_dec n.
Proof.
  unfold index_arc, is_u32. intros H.
  destruct (String.eqb_spec value "") as [|Hne]; [by subst|]. simpl in H.
  destruct (str_all is_ascii_digit value) eqn:Hd; [|done]. simpl in H.
  destruct ((1 <? String.length value)%nat && str_starts_with "0" value) eqn:Hz; [done|].
  split.
  - unfold parse_unsigned in H. destruct value as [|c s]; [done|].
    destruct (Ascii.eqb c "+"); [destruct s; [done|]|];
      by apply parse_digits_range in H.
  - symmetry. apply (show_parse_dec u32_max); try done.
    intros Hs. rewrite Hs, andb_true_r in Hz. apply Nat.ltb_ge in Hz.
    destruct value; simpl in *; [done|]. lia.
Qed.

(** [index_arc] accepts exactly the [Display] text of each [u32], so two
    distinct label values never read as the same arc. *)
Theorem index_arc_iff value n :
  index_arc value = Some n <-> is_u32 n /\ value = show_dec n.
Proof.
  split; [apply index_arc_canonical|]. unfold index_arc, is_u32. intros [Hn ->].
  rewrite (proj2 (String.eqb_neq _ _) (show_dec_nonempty n)).
  rewrite show_dec_digits, parse_show_dec by lia. simpl.
  destruct (1 <? String.length (show_dec n))%nat eqn:Hlen; [|done]. simpl.
  destruct (str_starts_with "0" (show_dec n)) eqn:Hs; [|done]. exfalso.
  revert Hs Hlen. apply show_dec_no_leading_zero. lia.
Qed.

(** ** Properties of templates *)

(** What [OidTemplate::parse] establishes of a template. *)
Definition template_ok (t : OidTemplate) : Prop :=
  Forall is_u32 (arcs (object t)) /\ (2 <= length (arcs (object t)))%nat /\
  first_arcs_encodable (arcs (object t)) = true /\
  Forall (fun p => is_valid_label_key (ph_name p) = true) (placeholders t) /\
  (length (arcs (object t)) + Nat.max (sum_min_arcs (placeholders t)) 1 <= MAX_ARCS)%nat.

Lemma parse_unsigned_u32 s n : parse_unsigned u32_max s = Some n -> is_u32 n.
Proof.
  unfold parse_unsigned, is_u32. destruct s as [|c s]; [done|].
  destruct (Ascii.eqb c "+"); [destruct s; [done|]|]; by apply parse_digits_range.
Qed.

Lemma parse_arcs_u32 text pieces read l :
  Forall is_u32 read -> parse_arcs text pieces read = Ok l -> Forall is_u32 l.
Proof.
  revert read. induction pieces as [|arc pieces IH]; simpl; intros read Hr Hp.
  - by injection Hp as <-.
  - destruct (String.eqb arc ""); [done|]. destruct (negb _); [done|].
    destruct (parse_unsigned u32_max arc) as [v|] eqn:Hv; [|done].
    apply (IH (read ++ [v])); [|done]. apply Forall_app. split; [done|].
    repeat constructor; by apply parse_unsigned_u32 in Hv as [].
Qed.

Lemma oid_parse_ok text o :
  oid_parse text = Ok o ->
  Forall is_u32 (arcs o) /\ (2 <= length (arcs o))%nat /\ first_arcs_encodable (arcs o) = true.
Proof.
  unfold oid_parse. destruct (str_starts_with "." text); [done|].
  destruct (parse_arcs text (split_on "." text) []) as [l|] eqn:E; [|done].
  destruct (Nat.ltb_spec (length l) 2); [done|].
  destruct (first_arcs_encodable l) eqn:Hf; [|done]. intros [= <-]. simpl.
  repeat split; try done. by apply parse_arcs_u32 in E.
Qed.

Lemma parse_placeholder_valid text arc p :
  parse_placeholder text arc = Ok (Some p) -> is_valid_label_key (ph_name p) = true.
Proof.
  unfold parse_placeholder. intros H.
  repeat (split_match_in H; try done); by injection H as <-.
Qed.

Lemma parse_template_arcs_valid text pieces literal phs res :
  Forall (fun p => is_valid_label_key (ph_name p) = true) phs ->
  parse_template_arcs text pieces literal phs = Ok res ->
  Forall (fun p => is_valid_label_key (ph_name p) = true) res.2.
Proof.
  revert literal phs. induction pieces as [|arc pieces IH]; simpl; intros literal phs Hv Hp.
  - by injection Hp as <-.
  - destruct (parse_placeholder text arc) as [[p|]|] eqn:E; [| |done].
    + eapply IH; [|exact Hp]. apply Forall_app. split; [done|].
      repeat constructor. by apply parse_placeholder_valid in E.
    + destruct (negb _); [done|]. by eapply IH.
Qed.

Lemma template_parse_ok text t : template_parse text = Ok t -> template_ok t.
Proof.
  unfold template_parse.
  destruct (parse_template_arcs text (split_on "." text) [] []) as [[literal phs]|] eqn:E;
    [|done].
  apply parse_template_arcs_valid in E; [|constructor]. simpl in E.
  destruct (bool_decide (literal = [])); [done|].
  destruct (bool_decide (phs = []) && _); [done|].
  destruct (oid_parse _) as [o|] eqn:Ho; [|done]. simpl.
  destruct (Nat.ltb_spec MAX_ARCS (length (arcs o) + Nat.max (sum_min_arcs phs) 1)); [done|].
  intros [= <-]. apply oid_parse_ok in Ho as (Hu & Hl & Hf).
  unfold template_ok. simpl. repeat split; done.
Qed.

(** *** Text *)

(** A placeholder as [Display] writes it. *)
Definition ph_text (p : Placeholder) : string :=
  "{" +:+ ph_name p +:+ (if ph_string p then ":str" else "") +:+ "}".

(** The pieces between the dots of a template's text. *)
Definition template_pieces (t : OidTemplate) : list string :=
  map show_dec (arcs (object t))
  ++ (if bool_decide (placeholders t = []) then ["0"] else [])
  ++ map ph_text (placeholders t).

Lemma join_app sep ps qs :
  ps <> [] -> qs <> [] -> join sep (ps ++ qs) = join sep ps +:+ sep +:+ join sep qs.
Proof.
  intros Hp Hq. induction ps as [|p ps IH]; [done|]. destruct ps as [|p' ps].
  - simpl. destruct qs; done.
  - change (join sep ((p :: p' :: ps) ++ qs)) with (p +:+ sep +:+ join sep ((p' :: ps) ++ qs)).
    change (join sep (p :: p' :: ps)) with (p +:+ sep +:+ join sep (p' :: ps)).
    rewrite IH by done. by rewrite !app_assoc_str.
Qed.

Lemma template_display_pieces t :
  arcs (object t) <> [] -> template_display t = join "." (template_pieces t).
Proof.
  intros Hne. unfold template_display, template_pieces. destruct t as [[o] phs]. simpl in *.
  rewrite oid_display_join. destruct phs as [|p phs].
  - simpl. rewrite join_app; [done| |done]. by destruct o.
  - rewrite !bool_decide_eq_false_2 by done. rewrite app_nil_l, app_empty_r.
    rewrite join_app by (by destruct o).
    generalize (join "." (map show_dec o)) as s. generalize p. clear p Hne.
    induction phs as [|q phs IH]; intros p s.
    + simpl. done.
    + change (map ph_text (p :: q :: phs)) with (ph_text p :: map ph_text (q :: phs)).
      change (join "." (ph_text p :: map ph_text (q :: phs)))
        with (ph_text p +:+ "." +:+ join "." (map ph_text (q :: phs))).
      rewrite <- !app_assoc_str, (app_assoc_str _ "." (join _ _)), <- IH.
      rewrite app_assoc_str. done.
Qed.

Lemma strip_suffix_app suf s : strip_suffix suf (s +:+ suf) = Some s.
Proof.
  induction s as [|c s IH].
  - simpl. destruct suf as [|c suf]; simpl; [done|].
    by rewrite Ascii.eqb_refl, String.eqb_refl.
  - rewrite app_cons_str. cbn [strip_suffix].
    destruct (String.eqb_spec (String c (s +:+ suf)) suf) as [E|]; [|by rewrite IH].
    apply (f_equal String.length) in E. simpl in E. rewrite length_app_str in E. lia.
Qed.

Lemma parse_ph_text text p :
  is_valid_label_key (ph_name p) = true -> parse_placeholder text (ph_text p) = Ok (Some p).
Proof.
  intros Hv. unfold parse_placeholder, ph_text. destruct p as [name str]. simpl in *.
  assert (Hc : str_contains ":" name = false) by (by apply (label_key_no_char ":")).
  set (suf := if str then ":str" else "").
  assert (Hi : strip_suffix "}" ("" +:+ name +:+ suf +:+ "}") = Some (name +:+ suf)).
  { change ("" +:+ name +:+ suf +:+ "}") with (name +:+ suf +:+ "}").
    rewrite <- app_assoc_str. apply strip_suffix_app. }
  rewrite Hi. subst suf. clear Hi. destruct str.
  - rewrite str_contains_app, orb_true_r, strip_suffix_app, Hv. done.
  - rewrite app_empty_r, Hc, Hv. done.
Qed.

Lemma parse_literal text s :
  s <> "" -> str_all is_ascii_digit s = true -> parse_placeholder text s = Ok None.
Proof.
  intros Hne Hd. unfold parse_placeholder. destruct s as [|c s]; [done|].
  assert (Hc : forall d, is_ascii_digit d = false -> str_contains d (String c s) = false)
    by (intros d Hd'; by apply digits_no_char).
  rewrite !Hc by done. simpl in Hd. apply andb_true_iff in Hd as [Hd _]. simpl.
  destruct (Ascii.eqb_spec c "{") as [->|]; done.
Qed.

Lemma parse_template_literals text ls rest literal :
  Forall (fun s => s <> "" /\ str_all is_ascii_digit s = true) ls ->
  parse_template_arcs text (ls ++ rest) literal []
  = parse_template_arcs text rest (literal ++ ls) [].
Proof.
  intros Hl. revert literal. induction Hl as [|s ls [Hs Hd] Hl IH]; intros literal.
  - by rewrite app_nil_r.
  - cbn [app parse_template_arcs]. rewrite parse_literal by done. simpl.
    by rewrite IH, <- app_assoc.
Qed.

Lemma parse_template_phs text ps literal phs :
  Forall (fun p => is_valid_label_key (ph_name p) = true) ps ->
  parse_template_arcs text (map ph_text ps) literal phs = Ok (literal, phs ++ ps).
Proof.
  intros Hp. revert phs. induction Hp as [|p ps Hv Hp IH]; intros phs; simpl.
  - by rewrite app_nil_r.
  - rewrite parse_ph_text by done. by rewrite IH, <- app_assoc.
Qed.

Lemma digits_shown l :
  Forall is_u32 l ->
  Forall (fun s => s <> "" /\ str_all is_ascii_digit s = true) (map show_dec l).
Proof.
  induction 1 as [|x l Hx Hl IH]; simpl; constructor; [|done].
  split; [apply show_dec_nonempty|apply show_dec_digits]. unfold is_u32 in Hx. lia.
Qed.

Lemma template_pieces_no_dot t :
  template_ok t -> Forall (fun s => str_contains "." s = false) (template_pieces t).
Proof.
  intros (Hu & _ & _ & Hv & _). unfold template_pieces.
  rewrite !Forall_app. repeat split; [by apply show_dec_no_dot| |].
  - case_bool_decide; repeat constructor.
  - induction Hv as [|p phs Hp Hv IH]; simpl; constructor; [|done].
    unfold ph_text. rewrite !str_contains_app, (label_key_no_char "." (ph_name p)) by done.
    by destruct (ph_string p).
Qed.

Lemma template_parse_pieces t text :
  template_ok t ->
  parse_template_arcs text (template_pieces t) [] []
  = Ok (map show_dec (arcs (object t))
        ++ (if bool_decide (placeholders t = []) then ["0"] else []), placeholders t).
Proof.
  intros (Hu & Hl & Hf & Hv & Hb). unfold template_pieces.
  rewrite parse_template_literals by (by apply digits_shown). simpl.
  rewrite parse_template_literals by
    (case_bool_decide; constructor; [by split|constructor]).
  by rewrite parse_template_phs.
Qed.

Lemma template_parse_display t : template_ok t -> template_parse (template_display t) = Ok t.
Proof.
  intros Hok. pose proof Hok as (Hu & Hl & Hf & Hv & Hb).
  assert (Hne : arcs (object t) <> []) by (intros E; rewrite E in Hl; simpl in Hl; lia).
  assert (Hs : split_on "." (template_display t) = template_pieces t).
  { rewrite template_display_pieces by done. apply split_join.
    - unfold template_pieces. by destruct (arcs (object t)).
    - by apply template_pieces_no_dot. }
  unfold template_parse. rewrite Hs, template_parse_pieces by done.
  rewrite bool_decide_eq_false_2 by (by destruct (arcs (object t))).
  destruct t as [[o] phs]. simpl in *.
  assert (Hlit : (if bool_decide (phs = [])
                  then removelast (map show_dec o ++ (if bool_decide (phs = []) then ["0"] else []))
                  else map show_dec o ++ (if bool_decide (phs = []) then ["0"] else []))
                 = map show_dec o).
  { case_bool_decide; [by rewrite removelast_last|by rewrite app_nil_r]. }
  assert (Hz : bool_decide (phs = [])
               && negb (bool_decide (list.last (map show_dec o ++
                    (if bool_decide (phs = []) then ["0"] else [])) = Some "0")) = false).
  { case_bool_decide; [|done]. rewrite last_snoc. done. }
  rewrite Hz, Hlit, (oid_parse_text _ o) by done.
  rewrite (proj2 (Nat.ltb_ge (length o) 2)), Hf by done. simpl.
  rewrite (proj2 (Nat.ltb_ge MAX_ARCS _)) by done. done.
Qed.

(** A template that parses prints to a text that parses to the same
    template. *)
Theorem template_roundtrip text t :
  template_parse text = Ok t -> template_parse (template_display t) = Ok t.
Proof. intros H. by apply template_parse_display, (template_parse_ok text). Qed.

Lemma template_roundtrip_witness :
  template_parse
    (template_display (mk_template (mk_oid [1; 3; 6]) [mk_placeholder "ifName" true]))
  = Ok (mk_template (mk_oid [1; 3; 6]) [mk_placeholder "ifName" true]).
Proof. apply (template_roundtrip "01.3.6.{ifName:str}"). reflexivity. Defined.

(** *** Rendering *)

Lemma arcs_start_with_iff l needle :
  arcs_start_with l needle = true <-> exists rest, l = needle ++ rest.
Proof.
  revert l. induction needle as [|x needle IH]; intros l; simpl.
  - split; intros _; [by exists l|done].
  - destruct l as [|y l].
    + split; [done|]. by intros [rest [=]].
    + rewrite andb_true_iff, Z.eqb_eq, IH. split.
      * intros [-> [rest ->]]. by exists rest.
      * intros [rest [= -> ->]]. split; [done|]. by exists rest.
Qed.

Lemma u8_u32 l : Forall is_u8 l -> Forall is_u32 l.
Proof. apply Forall_impl. unfold is_u8, is_u32. lia. Qed.

(** What the rendering loop appends. *)
Lemma render_loop_spec phs labels out res :
  render_loop phs labels out = Ok res ->
  exists idx, res = out ++ idx /\ Forall is_u32 idx /\
    (sum_min_arcs phs <= length idx)%nat /\
    (existsb ph_string phs = false -> length idx = length phs) /\
    (length out + sum_min_arcs phs <= MAX_ARCS -> length res <= MAX_ARCS)%nat.
Proof.
  revert out. induction phs as [|p phs IH]; intros out Hr; cbn [render_loop] in Hr.
  - injection Hr as <-. exists []. rewrite app_nil_r. unfold sum_min_arcs. simpl.
    repeat split; [constructor|lia|lia].
  - change (sum_min_arcs (p :: phs)) with (min_arcs p + sum_min_arcs phs)%nat.
    unfold min_arcs. cbn [existsb].
    destruct (bt_get (ph_name p) (labels_iter labels)) as [value|]; [|done]. simpl in Hr.
    destruct (ph_string p); simpl in Hr.
    + destruct (String.eqb_spec value "") as [|Hne]; [done|].
      destruct (Nat.ltb_spec MAX_ARCS
        (length out + 1 + String.length value + sum_min_arcs phs)) as [|Hle]; [done|].
      apply IH in Hr as (idx & -> & Hu & Hm & _ & Hb).
      exists (Z.of_nat (String.length value) :: bytes_of value ++ idx).
      rewrite <- !app_assoc. cbn [app length]. rewrite !length_app. cbn [length].
      rewrite length_app, bytes_of_length.
      repeat split; try done.
      * constructor; [|apply Forall_app; split; [apply u8_u32, bytes_of_u8|done]].
        unfold is_u32, MAX_ARCS in *. lia.
      * destruct value; [done|]. simpl. lia.
      * intros _. rewrite !length_app in Hb. simpl in Hb. rewrite bytes_of_length in Hb. lia.
    + destruct (index_arc value) as [arc|] eqn:Ha; [|done]. simpl in Hr.
      apply IH in Hr as (idx & -> & Hu & Hm & He & Hb). exists (arc :: idx).
      rewrite <- app_assoc. repeat split; try done.
      * constructor; [|done]. by apply index_arc_canonical in Ha as [].
      * simpl. lia.
      * intros Hs. simpl. by rewrite He.
      * intros Hle. rewrite !length_app in *. simpl in *. lia.
Qed.

(** A rendered instance OID extends the template's object, has at most
    [MAX_ARCS] arcs, each a [u32], and at least [index_arcs] of them beyond the
    object, exactly that many when no placeholder is a string index. *)
Theorem render_bounds t labels out :
  template_ok t -> render t labels = Ok out ->
  arcs_start_with out (arcs (object t)) = true /\ Forall is_u32 out /\
  (length out <= MAX_ARCS)%nat /\
  Z.of_nat (length (arcs (object t))) + index_arcs t <= Z.of_nat (length out) /\
  (has_string_index t = false ->
   Z.of_nat (length out) = Z.of_nat (length (arcs (object t))) + index_arcs t).
Proof.
  intros (Hu & Hl & _ & _ & Hb) Hr. unfold render in Hr.
  apply render_loop_spec in Hr as (idx & -> & Hui & Hm & He & Hle).
  unfold index_arcs, has_string_index. rewrite Z.mod_small by (unfold MAX_ARCS in *; lia).
  assert (Hsum : existsb ph_string (placeholders t) = false ->
                 sum_min_arcs (placeholders t) = length (placeholders t)).
  { generalize (placeholders t). intros phs. unfold sum_min_arcs.
    induction phs as [|p phs IH]; simpl; [done|]. unfold min_arcs at 1.
    destruct (ph_string p); simpl; [done|]. intros H. by rewrite IH. }
  split; [apply arcs_start_with_iff; rewrite <- app_assoc; by eexists|].
  split; [repeat (apply Forall_app; split); try done;
          case_bool_decide; repeat constructor; unfold is_u32; lia|].
  rewrite !length_app in *. case_bool_decide as Hp.
  - rewrite Hp in *. unfold sum_min_arcs in *. simpl in *. rewrite (He eq_refl) in *. repeat split; lia.
  - destruct (placeholders t) as [|p phs] eqn:E; [done|].
    assert (1 <= sum_min_arcs (p :: phs))%nat
      by (unfold sum_min_arcs, min_arcs; simpl; destruct (ph_string p); lia).
    simpl length in *. repeat split; try lia.
    intros Hs. rewrite He, Hsum by done. simpl. lia.
Qed.

Lemma render_bounds_witness : (length [1; 3; 6; 2; 97; 98] <= MAX_ARCS)%nat.
Proof.
  destruct (render_bounds (mk_template (mk_oid [1; 3; 6]) [mk_placeholder "if" true])
              (mk_labels [("if", "ab")]) [1; 3; 6; 2; 97; 98]) as (_ & _ & H & _).
  - unfold template_ok; simpl. repeat split; try (repeat constructor; unfold is_u32; lia).
  - reflexivity.
  - exact H.
Defined.

(** [can_render_under] misses nothing: if some label set renders to an
    instance under [prefix], it answers [true]. *)
Theorem can_render_under_complete t labels out prefix :
  render t labels = Ok out -> arcs_start_with out (arcs prefix) = true ->
  can_render_under t prefix = true.
Proof.
  intros Hr Hp. apply arcs_start_with_iff in Hp as [k Hk]. unfold render in Hr.
  apply render_loop_spec in Hr as (idx & Ho & _ & _ & He & _).
  unfold can_render_under, has_string_index. set (w := arcs prefix) in *.
  set (ob := arcs (object t)) in *. case_bool_decide as Hph.
  - rewrite Hph in *. rewrite (nil_length_inv idx), app_nil_r in Ho by (by apply He).
    rewrite Hk in Ho. apply andb_true_iff. split.
    + apply (f_equal length) in Ho. rewrite !length_app in Ho. simpl in Ho.
      apply Nat.leb_le. lia.
    + apply arcs_start_with_iff. by exists k.
  - rewrite app_nil_r in Ho. destruct (Nat.leb_spec (length w) (length ob)).
    + apply arcs_start_with_iff. exists (drop (length w) ob).
      rewrite <- (take_drop (length w) ob) at 1. f_equal.
      rewrite <- (take_app_le ob idx), <- Ho, Hk, take_app_length by done. done.
    + apply andb_true_iff. split.
      * apply arcs_start_with_iff. exists (drop (length ob) w).
        rewrite <- (take_drop (length ob) w) at 1. f_equal.
        rewrite <- (take_app_le w k), <- Hk, Ho, take_app_length by lia. done.
      * destruct (existsb ph_string (placeholders t)) eqn:Hs; [done|]. simpl.
        rewrite Hk in Ho. apply (f_equal length) in Ho. rewrite !length_app, He in Ho by done.
        apply Nat.leb_le. lia.
Qed.

Lemma can_render_under_complete_witness :
  can_render_under (mk_template (mk_oid [1; 3; 6]) [mk_placeholder "if" true])
    (mk_oid [1; 3; 6; 2; 97]) = true.
Proof.
  apply (can_render_under_complete _ (mk_labels [("if", "ab")]) [1; 3; 6; 2; 97; 98]);
    reflexivity.
Defined.

(** An instance OID determines the index: two label sets a template renders
    to the same OID agree on the value of every placeholder's label. *)
Theorem render_injective t l1 l2 out :
  render t l1 = Ok out -> render t l2 = Ok out ->
  Forall (fun p => bt_get (ph_name p) (labels_iter l1) = bt_get (ph_name p) (labels_iter l2))
         (placeholders t).
Proof.
  unfold render. generalize (arcs (object t) ++ (if bool_decide (placeholders t = [])
    then [0] else [])) as o.
  induction (placeholders t) as [|p phs IH]; intros o H1 H2; [constructor|].
  cbn [render_loop] in H1, H2.
  destruct (bt_get (ph_name p) (labels_iter l1)) as [v1|] eqn:E1; [|done].
  destruct (bt_get (ph_name p) (labels_iter l2)) as [v2|] eqn:E2; [|done].
  simpl in H1, H2. destruct (ph_string p); simpl in H1, H2.
  - destruct (String.eqb v1 ""); [done|]. destruct (String.eqb v2 ""); [done|].
    destruct (MAX_ARCS <? _)%nat; [done|]. destruct (MAX_ARCS <? _)%nat; [done|].
    pose proof H1 as (i1 & R1 & _)%render_loop_spec.
    pose proof H2 as (i2 & R2 & _)%render_loop_spec.
    rewrite R1 in R2. rewrite <- !app_assoc in R2. apply app_inv_head in R2.
    simpl in R2. injection R2 as Hlen Hb. apply Nat2Z.inj in Hlen.
    apply app_inj_1 in Hb as [Hb ->]; [|by rewrite !bytes_of_length].
    apply bytes_of_inj in Hb as ->. constructor; [by rewrite E1, E2|].
    exact (IH _ H1 H2).
  - destruct (index_arc v1) as [a1|] eqn:A1; [|done].
    destruct (index_arc v2) as [a2|] eqn:A2; [|done]. simpl in H1, H2.
    pose proof H1 as (i1 & R1 & _)%render_loop_spec.
    pose proof H2 as (i2 & R2 & _)%render_loop_spec.
    rewrite R1 in R2. rewrite <- !app_assoc in R2. apply app_inv_head in R2.
    injection R2 as -> _. apply index_arc_canonical in A1 as [_ ->], A2 as [_ ->].
    constructor; [by rewrite E1, E2|]. exact (IH _ H1 H2).
Qed.

Lemma render_injective_witness :
  Forall (fun p => bt_get (ph_name p) [("if", "7"); ("x", "a")] = bt_get (ph_name p) [("if", "7")])
    [mk_placeholder "if" false].
Proof.
  apply (render_injective (mk_template (mk_oid [1; 3]) [mk_placeholder "if" false])
           (mk_labels [("if", "7"); ("x", "a")]) (mk_labels [("if", "7")]) [1; 3; 7]);
    reflexivity.
Defined.
