(* ===== verification/Ber.v ===== *)
(** * Ber: the ASN.1 BER subset of SNMPv1 and SNMPv2c (encoder/snmp/ber.rs)

    Writers take the [Vec<u8>] they append to and return it; a writer that can
    panic returns an [option]. A [Reader] is the rest of its input: a reading
    operation maps it to a result and the input left, errors included. *)

From Stdlib Require Import ZArith Lia.
From stdpp Require Import prelude list numbers.
From S2P Require Import Prelude Oid.

(** ** Tags *)

Inductive Tag :=
| TInteger | TOctetString | TNull | TOid | TSequence | TIpAddress | TCounter32 | TGauge32
| TTimeTicks | TOpaque | TCounter64 | TNoSuchObject | TNoSuchInstance | TEndOfMibView
| TGetRequest | TGetNextRequest | TResponse | TSetRequest | TGetBulkRequest
| TInformRequest | TTrapV2 | TReport.

#[export] Instance Tag_eq_dec : EqDecision Tag.
Proof. solve_decision. Defined.

Inductive BerError :=
| Truncated
| BadLength
| BadTag (tag : Z)
| Overflow
| BadOid
| UnsupportedVersion (version : Z).

#[export] Instance BerError_eq_dec : EqDecision BerError.
Proof. solve_decision. Defined.

(** [Tag::byte]. *)
Definition tag_byte (t : Tag) : Z :=
  match t with
  | TInteger => 0x02
  | TOctetString => 0x04
  | TNull => 0x05
  | TOid => 0x06
  | TSequence => 0x30
  | TIpAddress => 0x40
  | TCounter32 => 0x41
  | TGauge32 => 0x42
  | TTimeTicks => 0x43
  | TOpaque => 0x44
  | TCounter64 => 0x46
  | TNoSuchObject => 0x80
  | TNoSuchInstance => 0x81
  | TEndOfMibView => 0x82
  | TGetRequest => 0xA0
  | TGetNextRequest => 0xA1
  | TResponse => 0xA2
  | TSetRequest => 0xA3
  | TGetBulkRequest => 0xA5
  | TInformRequest => 0xA6
  | TTrapV2 => 0xA7
  | TReport => 0xA8
  end.

(** [Tag::from_byte]. *)
Definition tag_from_byte (b : Z) : result Tag BerError :=
  match b with
  | 0x02 => Ok TInteger
  | 0x04 => Ok TOctetString
  | 0x05 => Ok TNull
  | 0x06 => Ok TOid
  | 0x30 => Ok TSequence
  | 0x40 => Ok TIpAddress
  | 0x41 => Ok TCounter32
  | 0x42 => Ok TGauge32
  | 0x43 => Ok TTimeTicks
  | 0x44 => Ok TOpaque
  | 0x46 => Ok TCounter64
  | 0x80 => Ok TNoSuchObject
  | 0x81 => Ok TNoSuchInstance
  | 0x82 => Ok TEndOfMibView
  | 0xA0 => Ok TGetRequest
  | 0xA1 => Ok TGetNextRequest
  | 0xA2 => Ok TResponse
  | 0xA3 => Ok TSetRequest
  | 0xA5 => Ok TGetBulkRequest
  | 0xA6 => Ok TInformRequest
  | 0xA7 => Ok TTrapV2
  | 0xA8 => Ok TReport
  | other => Err (BadTag other)
  end.

(** [Tag::is_pdu]. *)
Definition is_pdu (t : Tag) : bool :=
  match t with
  | TGetRequest | TGetNextRequest | TResponse | TSetRequest | TGetBulkRequest
  | TInformRequest | TTrapV2 | TReport => true
  | _ => false
  end.

(** ** Writers *)

(** [length_len]. *)
Definition length_len (len : Z) : Z :=
  if len <? 0x80 then 1
  else 1 + div_ceil (64 - leading_zeros64 len) 8.

(** [tlv_len]. *)
Definition tlv_len (body_len : Z) : Z := 1 + length_len body_len + body_len.

(** The last [octets] of [len.to_be_bytes()]. *)
Definition low_octets (len octets : Z) : list Z :=
  drop (8 - Z.to_nat octets) (be_bytes 8 len).

(** [write_length]. *)
Definition write_length (out : list Z) (len : Z) : list Z :=
  if len <? 0x80 then out ++ [len]
  else
    let octets := length_len len - 1 in
    out ++ [Z.lor 0x80 octets] ++ low_octets len octets.

(** [write_header]. *)
Definition write_header (out : list Z) (tag : Tag) (len : Z) : list Z :=
  write_length (out ++ [tag_byte tag]) len.

(** [out.copy_within(src..stop, dest)]: the range moved over the elements from
    [dest] on; [None] is its out-of-range panic. *)
Definition copy_within (out : list Z) (src stop dest : nat) : option (list Z) :=
  if (src <=? stop)%nat && (stop <=? length out)%nat
     && (dest + (stop - src) <=? length out)%nat
  then Some (take dest out ++ take (stop - src) (drop src out)
             ++ drop (dest + (stop - src)) out)
  else None.

(** [out[at..at + bytes.len()].copy_from_slice(bytes)]. *)
Definition copy_from_slice (out : list Z) (at_ : nat) (bytes : list Z) : option (list Z) :=
  if (at_ + length bytes <=? length out)%nat
  then Some (take at_ out ++ bytes ++ drop (at_ + length bytes) out)
  else None.

(** [out[at] = b]. *)
Definition set_at (out : list Z) (at_ : nat) (b : Z) : option (list Z) :=
  if (at_ <? length out)%nat then Some (<[at_ := b]> out) else None.

(** [write_tlv]: push the tag and a placeholder length, append the body, then
    patch the length in, moving the body when it needs the long form. [body] is
    the closure; [None] is a panic. *)
Definition write_tlv (out : list Z) (tag : Tag) (body : list Z -> option (list Z))
  : option (list Z) :=
  let out := out ++ [tag_byte tag] in
  let at_ := length out in
  let out := out ++ [0] in
  let! out := body out in
  if (length out <? at_ + 1)%nat then None
  else
    let len := Z.of_nat (length out - at_ - 1) in
    if len <? 0x80 then set_at out at_ len
    else
      let octets := length_len len - 1 in
      let stop := length out in
      let out := out ++ repeat 0 (Z.to_nat octets) in
      let! out := copy_within out (at_ + 1) stop (at_ + 1 + Z.to_nat octets) in
      let! out := set_at out at_ (Z.lor 0x80 octets) in
      copy_from_slice out (at_ + 1) (low_octets len octets).

(** [write_tlv] with a closure that also leaves a value: the closure is called
    once, on the buffer with the tag and a placeholder length pushed. *)
Definition write_tlv_with {A : Type} (out : list Z) (tag : Tag)
  (body : list Z -> option (list Z * A)) : option (list Z * A) :=
  let! (_, x) := body ((out ++ [tag_byte tag]) ++ [0]) in
  let! out := write_tlv out tag (fun out => let! (out, _) := body out in Some out) in
  Some (out, x).

(** Whether the first of two content octets of an integer is redundant. *)
Definition redundant (b0 b1 : Z) : bool :=
  ((b0 =? 0x00) && (Z.land b1 0x80 =? 0)) || ((b0 =? 0xFF) && negb (Z.land b1 0x80 =? 0)).

(** The loop [while start < 7] of [signed_span]; [fuel] octets are left to
    consider. *)
Fixpoint signed_span_loop (fuel : nat) (bytes : list Z) (start : nat) : nat :=
  match fuel with
  | O => start
  | S fuel =>
      match bytes !! start, bytes !! S start with
      | Some b0, Some b1 =>
          if negb (redundant b0 b1) then start else signed_span_loop fuel bytes (S start)
      | _, _ => start
      end
  end.

(** [v.to_be_bytes()] of an [i64]. *)
Definition i64_be_bytes (v : Z) : list Z := be_bytes 8 (v mod two64).

(** [signed_span]. *)
Definition signed_span (v : Z) : list Z * nat :=
  let bytes := i64_be_bytes v in
  (bytes, signed_span_loop 7 bytes 0).

(** [i64_len]. *)
Definition i64_len (v : Z) : Z :=
  let (_, start) := signed_span v in tlv_len (Z.of_nat (8 - start)).

(** [write_i64]. *)
Definition write_i64 (out : list Z) (tag : Tag) (v : Z) : list Z :=
  let (bytes, start) := signed_span v in
  write_header out tag (Z.of_nat (8 - start)) ++ drop start bytes.

(** [write_u64]; the index [bytes[start]] is in range, [start] being at most 7. *)
Definition write_u64 (out : list Z) (tag : Tag) (v : Z) : list Z :=
  let bytes := be_bytes 8 v in
  let start := Z.to_nat (Z.min (leading_zeros64 v / 8) 7) in
  let pad := negb (Z.land (default 0 (bytes !! start)) 0x80 =? 0) in
  let out := write_header out tag (Z.of_nat (8 - start) + (if pad then 1 else 0)) in
  (if pad then out ++ [0] else out) ++ drop start bytes.

(** [write_octets]. *)
Definition write_octets (out : list Z) (tag : Tag) (bytes : list Z) : list Z :=
  write_header out tag (Z.of_nat (length bytes)) ++ bytes.

(** [write_integer], [write_counter32], [write_gauge32], [write_timeticks],
    [write_counter64]. *)
Definition write_integer (out : list Z) (v : Z) : list Z := write_i64 out TInteger v.
Definition write_counter32 (out : list Z) (v : Z) : list Z := write_u64 out TCounter32 v.
Definition write_gauge32 (out : list Z) (v : Z) : list Z := write_u64 out TGauge32 v.
Definition write_timeticks (out : list Z) (v : Z) : list Z := write_u64 out TTimeTicks v.
Definition write_counter64 (out : list Z) (v : Z) : list Z := write_u64 out TCounter64 v.

(** [write_opaque_float] of the single whose bits are [v]. *)
Definition write_opaque_float (out : list Z) (v : Z) : list Z :=
  write_header out TOpaque 7 ++ [0x9F; 0x78; 0x04] ++ be_bytes 4 v.

(** [write_opaque_double] of the double whose bits are [v]. *)
Definition write_opaque_double (out : list Z) (v : Z) : list Z :=
  write_header out TOpaque 11 ++ [0x9F; 0x79; 0x08] ++ be_bytes 8 v.

(** [write_ipaddress]. *)
Definition write_ipaddress (out : list Z) (v : Z) : list Z :=
  write_octets out TIpAddress (be_bytes 4 v).

(** [write_string]. *)
Definition write_string (out bytes : list Z) : list Z := write_octets out TOctetString bytes.

(** [write_null]. *)
Definition write_null (out : list Z) : list Z := out ++ [tag_byte TNull; 0].

(** [write_oid]. *)
Definition write_oid (out : list Z) (oid : Oid) : list Z :=
  write_ber_body (arcs oid) (write_header out TOid (ber_body_len (arcs oid))).

(** [varbind_len]. *)
Definition varbind_len (oid : Oid) (value_len : Z) : Z :=
  tlv_len (tlv_len (ber_body_len (arcs oid)) + value_len).

(** [write_varbind]. *)
Definition write_varbind (out : list Z) (oid : Oid) (value : list Z) : list Z :=
  let body := tlv_len (ber_body_len (arcs oid)) + Z.of_nat (length value) in
  let out := write_header out TSequence body in
  write_oid out oid ++ value.

(** ** Readers *)

(** The definite length of a TLV after its first length octet. *)
Definition read_length (first : Z) (rest : list Z) : result (Z * list Z) BerError :=
  if first <? 0x80 then Ok (first, rest)
  else
    let octets := Z.land first 0x7F in
    if (octets =? 0) || (4 <? octets) then Err BadLength
    else if Z.of_nat (length rest) <? octets then Err Truncated
    else Ok (shift_or_fold (take (Z.to_nat octets) rest), drop (Z.to_nat octets) rest).

(** [Reader::raw_tlv]: the identifier octet and the body. *)
Definition raw_tlv (input : list Z) : result (Z * list Z) BerError * list Z :=
  match input with
  | [] => (Err Truncated, input)
  | tag :: rest =>
      if Z.land tag 0x1F =? 0x1F then (Err (BadTag tag), input)
      else match rest with
           | [] => (Err Truncated, input)
           | first :: rest =>
               match read_length first rest with
               | Err e => (Err e, input)
               | Ok (len, rest) =>
                   if Z.of_nat (length rest) <? len then (Err Truncated, input)
                   else (Ok (tag, take (Z.to_nat len) rest), drop (Z.to_nat len) rest)
               end
           end
  end.

(** Sequencing of reading operations. *)
Notation "'let^' p ';' s ':=' c 'in' k" :=
  (match c with
   | (Ok p, s) => k
   | (Err e, s) => (Err e, s)
   end)
  (at level 10, p pattern, s name, c at level 200, k at level 200) : sonda_scope.

(** [Reader::tlv]. *)
Definition tlv (input : list Z) : result (Tag * list Z) BerError * list Z :=
  let^ (tag, body); rest := raw_tlv input in
  match tag_from_byte tag with
  | Ok t => (Ok (t, body), rest)
  | Err e => (Err e, rest)
  end.

(** [Reader::expect]. *)
Definition expect (tag : Tag) (input : list Z) : result (list Z) BerError * list Z :=
  let^ (found, body); rest := raw_tlv input in
  if negb (found =? tag_byte tag) then (Err (BadTag found), rest) else (Ok body, rest).

(** [decode_i64]. *)
Definition decode_i64 (body : list Z) : result Z BerError :=
  match body with
  | [] => Err BadLength
  | b0 :: _ =>
      if (length body <=? 8)%nat then
        let fill := if negb (Z.land b0 0x80 =? 0) then 0xFF else 0 in
        let u := be_val (repeat fill (8 - length body) ++ body) in
        Ok (if u <? 2 ^ 63 then u else u - 2 ^ 64)
      else Err Overflow
  end.

(** [decode_u64]. *)
Definition decode_u64 (body : list Z) : result Z BerError :=
  match body with
  | [] => Err BadLength
  | _ =>
      let significant := match body with 0 :: ((_ :: _) as rest) => rest | _ => body end in
      if (8 <? length significant)%nat then Err Overflow
      else Ok (shift_or_fold significant)
  end.

(** [Reader::i64]. *)
Definition read_i64 (tag : Tag) (input : list Z) : result Z BerError * list Z :=
  let^ body; rest := expect tag input in (decode_i64 body, rest).

(** [Reader::u64]. *)
Definition read_u64 (tag : Tag) (input : list Z) : result Z BerError * list Z :=
  let^ body; rest := expect tag input in (decode_u64 body, rest).

(** [Reader::octets]. *)
Definition read_octets (tag : Tag) (input : list Z) : result (list Z) BerError * list Z :=
  expect tag input.

(** [Reader::oid]. *)
Definition read_oid (input : list Z) : result Oid BerError * list Z :=
  let^ body; rest := expect TOid input in (ok_or (from_ber_body body) BadOid, rest).

(** [Reader::null]. *)
Definition read_null (input : list Z) : result unit BerError * list Z :=
  let^ body; rest := expect TNull input in
  (match body with [] => Ok tt | _ => Err BadLength end, rest).

(** ** Messages *)

Record Message := mk_message {
  version : Z;
  community : list Z;
  pdu : Tag;
  request_id : Z;
  error_status : Z;
  error_index : Z;
  varbinds : list Z;
}.

#[export] Instance Message_eq_dec : EqDecision Message.
Proof. solve_decision. Defined.

(** The fields of a PDU and the body of its varbind list. *)
Definition decode_pdu_fields (pdu_body : list Z) : result (Z * Z * Z * list Z) BerError :=
  fst (
    let^ request_id; fields := read_i64 TInteger pdu_body in
    let^ error_status; fields := read_i64 TInteger fields in
    let^ error_index; fields := read_i64 TInteger fields in
    let^ varbinds; fields := expect TSequence fields in
    (match fields with
     | [] => Ok (request_id, error_status, error_index, varbinds)
     | _ => Err BadLength
     end, fields)).

(** [Message::decode]. *)
Definition message_decode (datagram : list Z) : result Message BerError :=
  let (r, outer) := expect TSequence datagram in
  let? body := r in
  if negb (bool_decide (outer = [])) then Err BadLength
  else
    let (r, message) := read_i64 TInteger body in
    let? version := r in
    if negb ((0 <=? version) && (version <=? 1)) then Err (UnsupportedVersion version)
    else
      let (r, message) := read_octets TOctetString message in
      let? community := r in
      let (r, message) := tlv message in
      let? (pdu, pdu_body) := r in
      if negb (is_pdu pdu) then Err (BadTag (tag_byte pdu))
      else if negb (bool_decide (message = [])) then Err BadLength
      else
        let? (request_id, error_status, error_index, varbinds) :=
          decode_pdu_fields pdu_body in
        Ok (mk_message version community pdu request_id error_status error_index varbinds).

Record VarBind := mk_varbind { vb_oid : list Z; vb_value_tag : Z; vb_value : list Z }.

#[export] Instance VarBind_eq_dec : EqDecision VarBind.
Proof. solve_decision. Defined.

(** [VarBinds::read_one]. *)
Definition read_one (input : list Z) : result VarBind BerError * list Z :=
  let^ body; rest := expect TSequence input in
  (fst (let^ oid; fields := expect TOid body in
        let^ (value_tag, value); fields := raw_tlv fields in
        (match fields with
         | [] => Ok (mk_varbind oid value_tag value)
         | _ => Err BadLength
         end, fields)), rest).

(** [VarBinds::next]. *)
Definition varbinds_next (input : list Z) : option (result VarBind BerError) * list Z :=
  match input with
  | [] => (None, input)
  | _ => let (r, rest) := read_one input in (Some r, rest)
  end.

(** [VarBind::name]. *)
Definition vb_name (vb : VarBind) : result Oid BerError :=
  ok_or (from_ber_body (vb_oid vb)) BadOid.

(** [message_len]. *)
Definition message_len (version : Z) (community : list Z)
  (request_id error_status error_index varbinds_len : Z) : Z :=
  let pdu_body := i64_len request_id + i64_len error_status + i64_len error_index
                  + tlv_len varbinds_len in
  tlv_len (i64_len version + tlv_len (Z.of_nat (length community)) + tlv_len pdu_body).

(** [write_message]; [varbinds] is the closure that appends the list's body. *)
Definition write_message (out : list Z) (version : Z) (community : list Z) (pdu : Tag)
  (request_id error_status error_index : Z) (varbinds : list Z -> option (list Z))
  : option (list Z) :=
  write_tlv out TSequence (fun out =>
    let out := write_i64 out TInteger version in
    let out := write_octets out TOctetString community in
    write_tlv out pdu (fun out =>
      let out := write_i64 out TInteger request_id in
      let out := write_i64 out TInteger error_status in
      let out := write_i64 out TInteger error_index in
      write_tlv out TSequence varbinds)).

(** ** Lengths *)

(** The octets of a definite length, as a list. *)
Definition length_octets (len : Z) : list Z :=
  if len <? 0x80 then [len]
  else let k := Z.to_nat (length_len len - 1) in (128 + Z.of_nat k) :: be_bytes k len.

(** A whole TLV, as a list. *)
Definition tlv_bytes (tag : Tag) (body : list Z) : list Z :=
  tag_byte tag :: length_octets (Z.of_nat (length body)) ++ body.

#[global] Arguments tlv_bytes : simpl never.

(** A length of 128 or more takes the fewest octets that hold it. *)
Lemma length_len_long len :
  128 <= len <= u64_max ->
  exists k, (1 <= k <= 8)%nat /\ length_len len = 1 + Z.of_nat k /\
            256 ^ Z.of_nat (k - 1) <= len < 256 ^ Z.of_nat k.
Proof.
  intros Hl. unfold length_len, leading_zeros64, div_ceil. zif. zif.
  set (b := Z.log2 len).
  assert (Hb : 2 ^ b <= len < 2 ^ Z.succ b) by (apply Z.log2_spec; lia).
  assert (Hr : 7 <= b < 64).
  { split; [change 7 with (Z.log2 128); apply Z.log2_le_mono; lia|].
    apply Z.log2_lt_pow2; [lia|]. change (2 ^ 64) with two64. lia. }
  replace (64 - (63 - b) + 8 - 1) with (b + 8) by lia.
  pose proof (Z_div_mod_eq_full (b + 8) 8). pose proof (Z.mod_pos_bound (b + 8) 8).
  exists (Z.to_nat ((b + 8) / 8)). rewrite Z2Nat.id by lia. split; [lia|]. split; [done|].
  change 256 with (2 ^ 8). rewrite <- !Z.pow_mul_r by lia. split.
  - apply Z.le_trans with (2 ^ b); [apply Z.pow_le_mono_r; lia|lia].
  - apply Z.lt_le_trans with (2 ^ Z.succ b); [lia|apply Z.pow_le_mono_r; lia].
Qed.

Lemma length_len_pos len : 1 <= length_len len.
Proof.
  unfold length_len, div_ceil, leading_zeros64. destruct (len <? 128); [lia|].
  pose proof (Z.log2_nonneg len). destruct (len =? 0); [done|].
  pose proof (Z.div_pos (64 - (63 - Z.log2 len) + 8 - 1) 8). lia.
Qed.

Lemma long_form_byte k : (1 <= k <= 8)%nat -> Z.lor 128 (Z.of_nat k) = 128 + Z.of_nat k.
Proof.
  intros Hk. rewrite Z.lor_comm, lor_high_bit by lia. lia.
Qed.

Lemma low_octets_be len k :
  (k <= 8)%nat -> low_octets len (Z.of_nat k) = be_bytes k len.
Proof.
  intros Hk. unfold low_octets. rewrite Nat2Z.id, skipn_be_bytes by lia.
  f_equal. lia.
Qed.

Lemma write_length_app out len :
  0 <= len <= u64_max -> write_length out len = out ++ length_octets len.
Proof.
  intros Hl. unfold write_length, length_octets.
  destruct (Z.ltb_spec len 128); [done|].
  destruct (length_len_long len) as (k & Hk & -> & _); [lia|].
  replace (1 + Z.of_nat k - 1) with (Z.of_nat k) by lia.
  rewrite Nat2Z.id, low_octets_be, long_form_byte by lia. done.
Qed.

Lemma length_octets_length len :
  0 <= len <= u64_max -> Z.of_nat (length (length_octets len)) = length_len len.
Proof.
  intros Hl. unfold length_octets. destruct (Z.ltb_spec len 128).
  - unfold length_len. by zif.
  - destruct (length_len_long len) as (k & Hk & -> & _); [lia|].
    simpl length. rewrite be_bytes_length. lia.
Qed.

Lemma tlv_bytes_length tag body :
  Z.of_nat (length body) <= u64_max ->
  Z.of_nat (length (tlv_bytes tag body)) = tlv_len (Z.of_nat (length body)).
Proof.
  intros Hl. unfold tlv_bytes, tlv_len. cbn [length]. rewrite length_app.
  rewrite <- length_octets_length by lia. lia.
Qed.

Lemma write_header_app out tag len :
  0 <= len <= u64_max -> write_header out tag len = out ++ tag_byte tag :: length_octets len.
Proof.
  intros Hl. unfold write_header. rewrite write_length_app by done. by rewrite <- app_assoc.
Qed.

Lemma write_octets_app out tag bytes :
  Z.of_nat (length bytes) <= u64_max -> write_octets out tag bytes = out ++ tlv_bytes tag bytes.
Proof.
  intros Hl. unfold write_octets. rewrite write_header_app by lia. by rewrite <- app_assoc.
Qed.

(** ** The TLV writer *)

(** A writer that appends [b] and does not panic. *)
Definition appends (w : list Z -> option (list Z)) (b : list Z) : Prop :=
  forall out, w out = Some (out ++ b).

Lemma set_at_app l1 x l2 y :
  set_at (l1 ++ x :: l2) (length l1) y = Some (l1 ++ y :: l2).
Proof.
  unfold set_at. rewrite length_app. simpl.
  rewrite (proj2 (Nat.ltb_lt _ _)) by lia. by rewrite insert_app_r_alt, Nat.sub_diag by done.
Qed.

Lemma copy_within_shift l b k :
  copy_within (l ++ b ++ repeat 0 k) (length l) (length l + length b) (length l + k)
  = Some (l ++ take k (b ++ repeat 0 k) ++ b).
Proof.
  unfold copy_within. rewrite !length_app, repeat_length.
  rewrite !(proj2 (Nat.leb_le _ _)) by lia. simpl. f_equal.
  replace (length l + length b - length l)%nat with (length b) by lia.
  rewrite take_app_add, drop_app_length, take_app_length, <- app_assoc.
  rewrite (drop_ge (l ++ b ++ repeat 0 k)), app_nil_r; [done|].
  rewrite !length_app, repeat_length. lia.
Qed.

Lemma copy_from_slice_mid l1 l2 l3 bytes :
  length bytes = length l2 ->
  copy_from_slice (l1 ++ l2 ++ l3) (length l1) bytes = Some (l1 ++ bytes ++ l3).
Proof.
  intros Hn. unfold copy_from_slice. rewrite !length_app.
  rewrite (proj2 (Nat.leb_le _ _)) by lia. rewrite take_app_length, Hn, drop_app_add.
  by rewrite drop_app_length.
Qed.

Lemma write_tlv_app tag body b :
  appends body b -> Z.of_nat (length b) <= u64_max ->
  appends (fun out => write_tlv out tag body) (tlv_bytes tag b).
Proof.
  intros Hb Hl out. unfold write_tlv. rewrite Hb.
  set (o1 := out ++ [tag_byte tag]).
  replace ((o1 ++ [0]) ++ b) with (o1 ++ 0%Z :: b) by (by rewrite <- app_assoc).
  rewrite (length_app o1 (0%Z :: b)) at 1. simpl length at 2.
  rewrite (proj2 (Nat.ltb_ge _ _)) by lia.
  replace (length (o1 ++ 0%Z :: b) - length o1 - 1)%nat with (length b)
    by (rewrite length_app; simpl; lia).
  unfold tlv_bytes, length_octets. destruct (Z.ltb_spec (Z.of_nat (length b)) 128).
  - rewrite set_at_app. subst o1. by rewrite <- app_assoc.
  - destruct (length_len_long (Z.of_nat (length b))) as (k & Hk & -> & _); [lia|].
    replace (1 + Z.of_nat k - 1) with (Z.of_nat k) by lia. rewrite !Nat2Z.id.
    replace ((o1 ++ 0%Z :: b) ++ repeat 0 k) with ((o1 ++ [0]) ++ b ++ repeat 0 k)
      by (by rewrite <- !app_assoc).
    replace (length o1 + 1)%nat with (length (o1 ++ [0%Z])) by (rewrite length_app; done).
    replace (length (o1 ++ 0%Z :: b)) with (length (o1 ++ [0%Z]) + length b)%nat
      by (rewrite !length_app; simpl; lia).
    rewrite copy_within_shift, <- app_assoc. simpl app.
    rewrite set_at_app, long_form_byte, low_octets_be by lia.
    replace (length (o1 ++ [0%Z])) with (length (o1 ++ [(128 + Z.of_nat k)%Z]))
      by (rewrite !length_app; done).
    replace (o1 ++ (128 + Z.of_nat k) :: take k (b ++ repeat 0 k) ++ b)
      with ((o1 ++ [128 + Z.of_nat k]) ++ take k (b ++ repeat 0 k) ++ b)
      by (by rewrite <- app_assoc).
    rewrite copy_from_slice_mid.
    + subst o1. by rewrite <- !app_assoc.
    + rewrite be_bytes_length, length_take, length_app, repeat_length. lia.
Qed.

Lemma write_tlv_with_app {A} tag (body : list Z -> option (list Z * A)) b x out :
  (forall out, body out = Some (out ++ b, x)) -> Z.of_nat (length b) <= u64_max ->
  write_tlv_with out tag body = Some (out ++ tlv_bytes tag b, x).
Proof.
  intros Hb Hl. unfold write_tlv_with. rewrite Hb.
  rewrite (write_tlv_app tag _ b); [done| |done]. intros o. by rewrite Hb.
Qed.

(** Back-patching is invisible: [write_tlv] never panics and appends the
    tag, the minimal definite length of the body and the body, which is what
    writing the header first would append. *)
Theorem write_tlv_correct out tag body b :
  appends body b -> Z.of_nat (length b) <= u64_max ->
  write_tlv out tag body = Some (write_header out tag (Z.of_nat (length b)) ++ b).
Proof.
  intros Hb Hl. rewrite (write_tlv_app tag body b) by done.
  rewrite write_header_app by lia. unfold tlv_bytes. by rewrite <- app_assoc.
Qed.

Lemma write_tlv_correct_witness :
  write_tlv [9] TSequence (fun out => Some (out ++ repeat 7 200))
  = Some (write_header [9] TSequence 200 ++ repeat 7 200).
Proof.
  apply (write_tlv_correct [9] TSequence _ (repeat 7 200)); [done|].
  rewrite repeat_length. lia.
Defined.

(** ** The TLV reader *)

Lemma tag_byte_u8 t : is_u8 (tag_byte t).
Proof. unfold is_u8. destruct t; simpl; lia. Qed.

Lemma tag_byte_low t : (Z.land (tag_byte t) 0x1F =? 0x1F) = false.
Proof. by destruct t. Qed.

Lemma tag_from_byte_byte t : tag_from_byte (tag_byte t) = Ok t.
Proof. by destruct t. Qed.

Lemma read_length_octets len rest :
  0 <= len <= u32_max ->
  exists first more, length_octets len = first :: more /\
    read_length first (more ++ rest) = Ok (len, rest).
Proof.
  intros Hl. unfold length_octets, read_length.
  destruct (Z.ltb_spec len 128).
  - exists len, []. split; [done|]. by zif.
  - destruct (length_len_long len) as (k & Hk & -> & Hr); [lia|].
    replace (1 + Z.of_nat k - 1) with (Z.of_nat k) by lia. rewrite Nat2Z.id.
    assert (Hk4 : (k <= 4)%nat).
    { destruct (decide (k <= 4)%nat); [done|].
      assert (256 ^ 4 <= 256 ^ Z.of_nat (k - 1)) by (apply Z.pow_le_mono_r; lia).
      change (256 ^ 4) with 4294967296 in *. lia. }
    exists (128 + Z.of_nat k), (be_bytes k len). split; [done|]. zif.
    assert (Z.land (128 + Z.of_nat k) 127 = Z.of_nat k) as ->.
    { rewrite land_low_bits by (unfold is_u8; lia).
      replace (128 + Z.of_nat k) with (Z.of_nat k + 1 * 128) by lia.
      rewrite Z.mod_add, Z.mod_small; lia. }
    rewrite (proj2 (Z.eqb_neq _ 0)), (proj2 (Z.ltb_ge 4 _)) by lia. simpl.
    rewrite length_app, be_bytes_length. zif. rewrite Nat2Z.id.
    rewrite <- (be_bytes_length k len) at 1 3.
    rewrite take_app_length, drop_app_length.
    rewrite shift_or_fold_val, be_val_bytes_small; [done|lia|apply be_bytes_u8|].
    rewrite be_bytes_length. lia.
Qed.

Lemma raw_tlv_bytes tag body rest :
  Z.of_nat (length body) <= u32_max ->
  raw_tlv (tlv_bytes tag body ++ rest) = (Ok (tag_byte tag, body), rest).
Proof.
  intros Hl. unfold tlv_bytes. rewrite <- app_comm_cons, <- app_assoc.
  destruct (read_length_octets (Z.of_nat (length body)) (body ++ rest))
    as (first & more & E & Hr); [lia|].
  unfold raw_tlv. rewrite tag_byte_low, E, <- app_comm_cons, Hr.
  rewrite length_app. zif. rewrite Nat2Z.id. by rewrite take_app_length, drop_app_length.
Qed.

Lemma expect_bytes tag body rest :
  Z.of_nat (length body) <= u32_max ->
  expect tag (tlv_bytes tag body ++ rest) = (Ok body, rest).
Proof. intros Hl. unfold expect. rewrite raw_tlv_bytes by done. by rewrite Z.eqb_refl. Qed.

Lemma tlv_read_bytes tag body rest :
  Z.of_nat (length body) <= u32_max ->
  tlv (tlv_bytes tag body ++ rest) = (Ok (tag, body), rest).
Proof.
  intros Hl. unfold tlv. rewrite raw_tlv_bytes by done. by rewrite tag_from_byte_byte.
Qed.

(** ** Integers *)

(** The two's-complement value of content octets. *)
Definition sval (l : list Z) : Z :=
  match l with
  | [] => 0
  | b0 :: _ => if b0 <? 128 then be_val l else be_val l - 256 ^ Z.of_nat (length l)
  end.

(** The content octets [write_i64] writes. *)
Definition i64_content (v : Z) : list Z := let (bytes, start) := signed_span v in drop start bytes.

(** The content octets [write_u64] writes. *)
Definition u64_content (v : Z) : list Z :=
  let bytes := be_bytes 8 v in
  let start := Z.to_nat (Z.min (leading_zeros64 v / 8) 7) in
  let pad := negb (Z.land (default 0 (bytes !! start)) 0x80 =? 0) in
  (if pad then [0] else []) ++ drop start bytes.

Lemma be_val_fill fill n l :
  be_val (repeat fill n ++ l) = be_val (repeat fill n) * 256 ^ Z.of_nat (length l) + be_val l.
Proof. apply be_val_app. Qed.

Lemma be_val_zeros n : be_val (repeat 0 n) = 0.
Proof. induction n as [|n IH]; [done|]. cbn [repeat]. rewrite be_val_cons, IH. lia. Qed.

Lemma be_val_ones n : be_val (repeat 255 n) = 256 ^ Z.of_nat n - 1.
Proof.
  induction n as [|n IH]; [done|]. cbn [repeat].
  rewrite be_val_cons, IH, repeat_length, pow256_S. lia.
Qed.

(** The sign octet decides the half of the range. *)
Lemma be_val_half b0 l :
  is_u8 b0 -> Forall is_u8 l ->
  if b0 <? 128 then be_val (b0 :: l) < 128 * 256 ^ Z.of_nat (length l)
  else 128 * 256 ^ Z.of_nat (length l) <= be_val (b0 :: l).
Proof.
  intros H0 Hl. rewrite be_val_cons. pose proof (be_val_bound l Hl).
  pose proof (pow256_pos (length l)). unfold is_u8 in H0.
  destruct (Z.ltb_spec b0 128); nia.
Qed.

Lemma decode_i64_sval l :
  Forall is_u8 l -> (1 <= length l <= 8)%nat -> decode_i64 l = Ok (sval l).
Proof.
  intros Hl Hn. destruct Hl as [|b0 l H0 Hl]; [simpl in Hn; lia|].
  unfold decode_i64, sval. rewrite (proj2 (Nat.leb_le _ 8)) by lia.
  rewrite high_bit_test by done. pose proof (be_val_half b0 l H0 Hl) as Hh.
  pose proof (be_val_bound (b0 :: l) (Forall_cons_2 _ _ _ H0 Hl)) as Hb.
  assert (Hp : 256 ^ Z.of_nat (8 - length (b0 :: l)) * 256 ^ Z.of_nat (length (b0 :: l)) = 2 ^ 64).
  { rewrite <- Z.pow_add_r by lia.
    replace (Z.of_nat (8 - length (b0 :: l)) + Z.of_nat (length (b0 :: l))) with 8 by lia.
    done. }
  set (n := length (b0 :: l)) in *. rewrite be_val_fill. fold n.
  assert (Hs : 256 ^ Z.of_nat n = 256 * 256 ^ Z.of_nat (length l)) by (subst n; apply pow256_S).
  pose proof (pow256_pos (8 - n)). pose proof (pow256_pos (length l)).
  change (2 ^ 64) with (2 * 2 ^ 63) in *.
  destruct (Z.ltb_spec b0 128); simpl negb; cbv iota.
  - rewrite be_val_zeros. f_equal. destruct (Z.ltb_spec (0 * 256 ^ Z.of_nat n + be_val (b0 :: l)) (2 ^ 63)); nia.
  - rewrite be_val_ones. f_equal.
    destruct (Z.ltb_spec ((256 ^ Z.of_nat (8 - n) - 1) * 256 ^ Z.of_nat n + be_val (b0 :: l)) (2 ^ 63)); nia.
Qed.

(** Dropping a redundant octet keeps the value. *)
Lemma sval_redundant b0 b1 l :
  is_u8 b0 -> is_u8 b1 -> redundant b0 b1 = true -> sval (b0 :: b1 :: l) = sval (b1 :: l).
Proof.
  intros H0 H1. unfold redundant. rewrite high_bit_test by done. unfold is_u8 in *.
  intros [[Hb Hh]%andb_true_iff|[Hb Hh]%andb_true_iff]%orb_true_iff; zbool; subst b0;
    unfold sval; cbn [length]; rewrite be_val_cons; cbn [length]; zif.
  - zif. lia.
  - rewrite (proj2 (Z.ltb_ge b1 128)) by lia. rewrite !pow256_S. lia.
Qed.

(** Without a redundant first octet the value needs every octet. *)
Lemma sval_needs b0 b1 l :
  is_u8 b0 -> is_u8 b1 -> Forall is_u8 l -> redundant b0 b1 = false ->
  let h := 128 * 256 ^ Z.of_nat (length l) in
  sval (b0 :: b1 :: l) < - h \/ h <= sval (b0 :: b1 :: l).
Proof.
  intros H0 H1 Hl. unfold redundant. rewrite high_bit_test by done. unfold is_u8 in *.
  intros [Ha Hb]%orb_false_iff. unfold sval. rewrite !be_val_cons. cbn [length].
  rewrite !pow256_S. pose proof (be_val_bound l Hl). pose proof (pow256_pos (length l)).
  destruct (Z.eqb_spec b0 0), (Z.eqb_spec b0 255), (Z.ltb_spec b1 128);
    simpl in Ha, Hb; try done; destruct (Z.ltb_spec b0 128); subst; try lia; nia.
Qed.

Lemma sval_range b0 l :
  is_u8 b0 -> Forall is_u8 l ->
  - (128 * 256 ^ Z.of_nat (length l)) <= sval (b0 :: l) < 128 * 256 ^ Z.of_nat (length l).
Proof.
  intros H0 Hl. unfold sval. pose proof (be_val_half b0 l H0 Hl).
  pose proof (be_val_bound (b0 :: l) (Forall_cons_2 _ _ _ H0 Hl)) as Hb.
  cbn [length] in *. rewrite pow256_S in *. destruct (b0 <? 128); lia.
Qed.

(** The span keeps the value, and stops only at an octet that is needed. *)
Lemma signed_span_loop_spec fuel bytes start :
  Forall is_u8 bytes -> length bytes = 8%nat -> (start + fuel = 7)%nat ->
  let s := signed_span_loop fuel bytes start in
  (start <= s <= 7)%nat /\ sval (drop s bytes) = sval (drop start bytes) /\
  (s = 7%nat \/ exists b0 b1, bytes !! s = Some b0 /\ bytes !! S s = Some b1 /\
                              redundant b0 b1 = false).
Proof.
  intros Hb Hn. revert start. induction fuel as [|fuel IH]; intros start Hs; simpl.
  - split; [lia|]. split; [done|]. left. lia.
  - destruct (lookup_lt_is_Some_2 bytes start) as [b0 E0]; [lia|].
    destruct (lookup_lt_is_Some_2 bytes (S start)) as [b1 E1]; [lia|].
    rewrite E0, E1. destruct (redundant b0 b1) eqn:Hr; simpl.
    + destruct (IH (S start)) as (H1 & H2 & H3); [lia|]. split; [lia|]. split; [|done].
      rewrite H2, (drop_S bytes b0 start), (drop_S bytes b1 (S start)) by done.
      symmetry. apply sval_redundant; [| |done]; by eapply Forall_lookup_1.
    + split; [lia|]. split; [done|]. right. by exists b0, b1.
Qed.

Lemma i64_be_bytes_sval v : is_i64 v -> sval (i64_be_bytes v) = v.
Proof.
  intros Hv. unfold is_i64 in Hv. unfold i64_be_bytes.
  assert (Hl : Forall is_u8 (be_bytes 7 (v mod two64))) by apply be_bytes_u8.
  assert (Hval : be_val (be_bytes 8 (v mod two64)) = v mod two64).
  { apply be_val_bytes_small. pose proof (Z.mod_pos_bound v two64). simpl. lia. }
  change (be_bytes 8 (v mod two64)) with
    ((v mod two64 / 256 ^ Z.of_nat 7) mod 256 :: be_bytes 7 (v mod two64)) in *.
  set (b0 := (v mod two64 / 256 ^ Z.of_nat 7) mod 256) in *.
  assert (H0 : is_u8 b0) by (subst b0; unfold is_u8;
    pose proof (Z.mod_pos_bound (v mod two64 / 256 ^ Z.of_nat 7) 256); lia).
  pose proof (be_val_half b0 _ H0 Hl) as Hh. unfold sval. rewrite Hval in *.
  cbn [length]. rewrite be_bytes_length in *.
  change (128 * 256 ^ Z.of_nat 7) with 9223372036854775808 in Hh.
  change (256 ^ Z.of_nat 8) with two64.
  destruct (Z.leb_spec 0 v).
  - rewrite Z.mod_small in * by lia. destruct (b0 <? 128); lia.
  - assert (v mod two64 = v + two64) as Hm.
    { symmetry. apply Z.mod_unique with (-1); lia. }
    rewrite Hm in *. destruct (b0 <? 128); lia.
Qed.

Lemma i64_be_bytes_props v : Forall is_u8 (i64_be_bytes v) /\ length (i64_be_bytes v) = 8%nat.
Proof. split; [apply be_bytes_u8|apply be_bytes_length]. Qed.

Lemma i64_content_spec v :
  is_i64 v ->
  sval (i64_content v) = v /\ Forall is_u8 (i64_content v) /\
  (1 <= length (i64_content v) <= 8)%nat /\
  length (i64_content v) = (8 - (signed_span v).2)%nat.
Proof.
  intros Hv. unfold i64_content, signed_span. cbn [snd].
  destruct (i64_be_bytes_props v) as [Hb Hn].
  destruct (signed_span_loop_spec 7 (i64_be_bytes v) 0 Hb Hn eq_refl) as (Hs & Hval & _).
  rewrite length_drop, Hn. split; [|split; [by apply Forall_drop|lia]].
  rewrite Hval, drop_0. by apply i64_be_bytes_sval.
Qed.

Lemma write_i64_app out tag v :
  is_i64 v -> write_i64 out tag v = out ++ tlv_bytes tag (i64_content v).
Proof.
  intros Hv. destruct (i64_content_spec v Hv) as (_ & _ & Hl & Hs).
  unfold write_i64, i64_content, tlv_bytes in *. destruct (signed_span v) as [bytes start].
  simpl in *. rewrite Hs, write_header_app by lia. by rewrite <- app_assoc.
Qed.

Lemma read_i64_bytes tag v rest :
  is_i64 v -> read_i64 tag (tlv_bytes tag (i64_content v) ++ rest) = (Ok v, rest).
Proof.
  intros Hv. destruct (i64_content_spec v Hv) as (Hval & Hb & Hl & _).
  unfold read_i64. rewrite expect_bytes by lia. by rewrite decode_i64_sval, Hval.
Qed.

(** Integers round-trip: for every [i64], the octets [write_i64] appends
    read back as the same value, whatever follows them. *)
Theorem i64_roundtrip tag v rest :
  is_i64 v -> read_i64 tag (write_i64 [] tag v ++ rest) = (Ok v, rest).
Proof. intros Hv. rewrite write_i64_app by done. by apply read_i64_bytes. Qed.

Lemma i64_roundtrip_witness :
  read_i64 TInteger (write_i64 [] TInteger (-129) ++ [5; 0]) = (Ok (-129), [5; 0]).
Proof. apply i64_roundtrip. unfold is_i64; lia. Defined.

(** Integers are minimal: no content octets that decode to [v] are shorter
    than those [write_i64] writes. *)
Theorem i64_content_minimal v body :
  is_i64 v -> Forall is_u8 body -> decode_i64 body = Ok v ->
  (length (i64_content v) <= length body)%nat.
Proof.
  intros Hv Hbody Hd. destruct Hbody as [|c0 body H0 Hbody]; [done|].
  destruct (decide (length (c0 :: body) <= 8)%nat) as [Hl|Hl].
  2: { unfold decode_i64 in Hd. by rewrite (proj2 (Nat.leb_gt _ 8)) in Hd by lia. }
  rewrite decode_i64_sval in Hd; [|by constructor|simpl in *; lia].
  assert (Hd' : sval (c0 :: body) = v) by congruence. clear Hd.
  pose proof (sval_range c0 body H0 Hbody) as Hr. rewrite Hd' in Hr.
  destruct (i64_content_spec v Hv) as (Hval & Hbc & Hlc & Hs).
  unfold i64_content, signed_span in *. cbn [snd] in Hs.
  destruct (i64_be_bytes_props v) as [Hb Hn].
  destruct (signed_span_loop_spec 7 (i64_be_bytes v) 0 Hb Hn eq_refl) as (Hs7 & _ & Hneed).
  set (s := signed_span_loop 7 (i64_be_bytes v) 0) in *.
  destruct Hneed as [H7|(b0 & b1 & E0 & E1 & Hr1)]; [rewrite Hs, H7; simpl; lia|].
  destruct (decide (length (drop s (i64_be_bytes v)) <= length (c0 :: body))%nat); [done|].
  exfalso. rewrite (drop_S _ b0 s), (drop_S _ b1 (S s)) in Hval, Hbc, n by done.
  generalize dependent (drop (S (S s)) (i64_be_bytes v)). intros d Hval Hbc Hlong.
  apply Forall_cons_1 in Hbc as [Hb0 [Hb1 Hbt]%Forall_cons_1].
  pose proof (sval_needs b0 b1 d Hb0 Hb1 Hbt Hr1) as Hn2. cbv zeta in Hn2.
  rewrite Hval in Hn2. cbn [length] in Hlong.
  assert (256 ^ Z.of_nat (length body) <= 256 ^ Z.of_nat (length d))
    by (apply Z.pow_le_mono_r; lia).
  lia.
Qed.

Lemma i64_content_minimal_witness :
  (length (i64_content (-129)) <= length [255; 255; 127]%Z)%nat.
Proof.
  apply (i64_content_minimal (-129) [255; 255; 127]); [unfold is_i64; lia| |reflexivity].
  repeat constructor; unfold is_u8; lia.
Defined.

(** ** Unsigned integers *)

Lemma u64_start_bound v :
  is_u64 v ->
  let start := Z.to_nat (Z.min (leading_zeros64 v / 8) 7) in
  (start <= 7)%nat /\ v < 256 ^ Z.of_nat (8 - start).
Proof.
  intros Hv. unfold is_u64 in Hv. cbv zeta. unfold leading_zeros64.
  destruct (Z.eqb_spec v 0) as [->|Hz]; [split; [simpl; lia|done]|].
  pose proof (Z.log2_spec v ltac:(lia)) as Hlog. pose proof (Z.log2_nonneg v).
  assert (Z.log2 v < 64) by (apply Z.log2_lt_pow2; [lia|change (2 ^ 64) with two64; lia]).
  set (b := Z.log2 v) in *. pose proof (Z_div_mod_eq_full (63 - b) 8).
  pose proof (Z.mod_pos_bound (63 - b) 8). split; [lia|].
  change 256 with (2 ^ 8). rewrite <- Z.pow_mul_r by lia.
  apply Z.lt_le_trans with (2 ^ Z.succ b); [lia|apply Z.pow_le_mono_r; lia].
Qed.

(** The content is nonempty, at most nine octets, and its sign octet is clear. *)
Lemma u64_content_spec v :
  is_u64 v ->
  exists b0 l, u64_content v = b0 :: l /\ b0 < 128 /\ Forall is_u8 (b0 :: l) /\
    (length l <= 8)%nat /\ be_val (b0 :: l) = v /\ (length l = 8%nat -> b0 = 0).
Proof.
  intros Hv. pose proof (u64_start_bound v Hv) as [Hs Hlt]. unfold u64_content.
  set (start := Z.to_nat (Z.min (leading_zeros64 v / 8) 7)) in *.
  assert (Hd : drop start (be_bytes 8 v) = be_bytes (8 - start) v)
    by (apply skipn_be_bytes; lia).
  assert (Hval : be_val (be_bytes (8 - start) v) = v).
  { apply be_val_bytes_small. unfold is_u64 in Hv. lia. }
  destruct (lookup_lt_is_Some_2 (be_bytes 8 v) start) as [b0 E0];
    [rewrite be_bytes_length; lia|].
  assert (H0 : is_u8 b0) by (eapply Forall_lookup_1; [apply be_bytes_u8|done]).
  replace (default 0 (be_bytes 8 v !! start)) with b0 by (by rewrite E0).
  rewrite high_bit_test by done. pose proof (be_bytes_u8 (8 - start) v) as Hu.
  pose proof (be_bytes_length (8 - start) v) as Hlen.
  destruct (Z.ltb_spec b0 128); simpl negb; cbv iota; rewrite Hd.
  - rewrite <- Hd, (drop_S _ b0 start) in Hu, Hval, Hlen by done. rewrite <- Hd.
    rewrite (drop_S _ b0 start) by done. cbn [length] in Hlen.
    exists b0, (drop (S start) (be_bytes 8 v)).
    repeat split; try done; lia.
  - exists 0, (be_bytes (8 - start) v). repeat split; try lia.
    + constructor; [unfold is_u8; lia|done].
    + by rewrite be_val_cons, Hval.
Qed.

Lemma write_u64_app out tag v :
  is_u64 v -> write_u64 out tag v = out ++ tlv_bytes tag (u64_content v).
Proof.
  intros Hv. pose proof (u64_start_bound v Hv) as [Hs _].
  unfold write_u64, u64_content, tlv_bytes.
  set (start := Z.to_nat (Z.min (leading_zeros64 v / 8) 7)) in *.
  rewrite length_app, length_drop, be_bytes_length.
  destruct (negb _); rewrite write_header_app by lia; simpl length.
  - rewrite <- !app_assoc. simpl. do 3 f_equal. f_equal. lia.
  - rewrite <- app_assoc. simpl. do 4 f_equal. lia.
Qed.

Lemma decode_u64_content v : is_u64 v -> decode_u64 (u64_content v) = Ok v.
Proof.
  intros Hv. destruct (u64_content_spec v Hv) as (b0 & l & -> & Hb & Hu & Hl & Hval & H8).
  assert (Hgo : forall s, Forall is_u8 s -> (length s <= 8)%nat -> be_val s = v ->
    (if (8 <? length s)%nat then Err Overflow else Ok (shift_or_fold s)) = Ok v).
  { intros s Hs Hn He. rewrite (proj2 (Nat.ltb_ge 8 (length s))) by done.
    by rewrite shift_or_fold_val, He. }
  unfold decode_u64. destruct (decide (b0 = 0)) as [->|Hne].
  - apply Forall_cons_1 in Hu as [H0 Hu]. destruct l as [|b1 l].
    + apply Hgo; [by constructor|simpl; lia|done].
    + apply Hgo; [done|done|]. by rewrite be_val_cons in Hval.
  - assert (length l <> 8%nat) by (intros E; by apply H8 in E).
    destruct b0; [done| |]; (apply Hgo; [done|simpl; lia|done]).
Qed.

(** Unsigned integers round-trip and never read as negative: for every
    [u64], the octets [write_u64] appends read back as the same value through
    [Reader::u64], and their two's-complement value is also that value. *)
Theorem u64_roundtrip tag v rest :
  is_u64 v ->
  read_u64 tag (write_u64 [] tag v ++ rest) = (Ok v, rest) /\ sval (u64_content v) = v.
Proof.
  intros Hv. destruct (u64_content_spec v Hv) as (b0 & l & E & Hb & Hu & Hl & Hval & _).
  split.
  - rewrite write_u64_app, app_nil_l by done. unfold read_u64.
    rewrite expect_bytes by (rewrite E; simpl; lia). by rewrite decode_u64_content.
  - rewrite E. unfold sval. by zif.
Qed.

Lemma u64_roundtrip_witness :
  read_u64 TCounter64 (write_u64 [] TCounter64 9223372036854775808 ++ [1])
  = (Ok 9223372036854775808, [1]).
Proof. apply u64_roundtrip. unfold is_u64; lia. Defined.

(** ** What a read consumes *)

(** A TLV that is read is a prefix of the input: [raw_tlv] splits the input
    into a header of two to six octets, the body it returns and the rest, and on
    an error leaves the input as it was. *)
Theorem raw_tlv_consumes input :
  match raw_tlv input with
  | (Ok (tag, body), rest) =>
      exists header, input = tag :: header ++ body ++ rest /\ (1 <= length header <= 5)%nat
  | (Err _, rest) => rest = input
  end.
Proof.
  unfold raw_tlv. destruct input as [|tag input]; [done|].
  destruct (Z.land tag 31 =? 31); [done|]. destruct input as [|first input]; [done|].
  unfold read_length. destruct (Z.ltb_spec first 128).
  - destruct (Z.ltb_spec (Z.of_nat (length input)) first); [done|].
    exists [first]. simpl. rewrite take_drop. split; [done|lia].
  - destruct (Z.eqb_spec (Z.land first 127) 0); [done|].
    destruct (Z.ltb_spec 4 (Z.land first 127)); [done|]. simpl.
    destruct (Z.ltb_spec (Z.of_nat (length input)) (Z.land first 127)); [done|].
    destruct (_ <? shift_or_fold _); [done|].
    exists (first :: take (Z.to_nat (Z.land first 127)) input).
    simpl. rewrite !take_drop. split; [done|]. rewrite length_take.
    pose proof (Z.land_nonneg first 127). lia.
Qed.

(** What is read does not depend on what follows it. *)
Lemma raw_tlv_split input tag body rest :
  raw_tlv input = (Ok (tag, body), rest) ->
  exists header, input = header ++ body ++ rest /\
    forall rest', raw_tlv (header ++ body ++ rest') = (Ok (tag, body), rest').
Proof.
  unfold raw_tlv. destruct input as [|t input]; [done|].
  destruct (Z.land t 31 =? 31) eqn:Et; [done|]. destruct input as [|first input]; [done|].
  assert (Hgo : forall len l hdr, (Z.of_nat (length l) <? len) = false ->
    (Ok (t, take (Z.to_nat len) l), drop (Z.to_nat len) l) = (@Ok _ BerError (tag, body), rest) ->
    hdr ++ l = hdr ++ body ++ rest /\ t = tag /\
    forall rest', (Z.of_nat (length (body ++ rest')) <? len) = false /\
      take (Z.to_nat len) (body ++ rest') = body /\ drop (Z.to_nat len) (body ++ rest') = rest').
  { intros len l hdr Hl [= -> Hb Hr]. zbool. assert (Hlb : length body = Z.to_nat len)
      by (rewrite <- Hb, length_take; lia).
    split; [by rewrite <- Hb, <- Hr, take_drop|]. split; [done|]. intros rest'.
    rewrite length_app. split; [zbool; lia|]. rewrite <- Hlb.
    by rewrite take_app_length, drop_app_length. }
  unfold read_length. destruct (Z.ltb_spec first 128) as [Hf|Hf].
  - destruct (Z.of_nat (length input) <? first) eqn:El; [done|]. intros H.
    destruct (Hgo first input [t; first] El H) as (E & -> & Hr).
    exists [tag; first]. split; [done|]. intros rest'. cbn [app].
    rewrite Et, (proj2 (Z.ltb_lt first 128)) by done.
    by destruct (Hr rest') as (-> & -> & ->).
  - destruct (Z.eqb_spec (Z.land first 127) 0) as [|H0]; [done|].
    destruct (Z.ltb_spec 4 (Z.land first 127)) as [|H4]; [done|]. cbn [orb].
    destruct (Z.ltb_spec (Z.of_nat (length input)) (Z.land first 127)) as [|Hi]; [done|].
    set (k := Z.to_nat (Z.land first 127)) in *.
    destruct (_ <? shift_or_fold _) eqn:El; [done|]. intros H'.
    assert (Hn : length (take k input) = k).
    { rewrite length_take. pose proof (Z.land_nonneg first 127). lia. }
    destruct (Hgo _ _ (t :: first :: take k input) El H') as (E & -> & Hr).
    exists (tag :: first :: take k input). split.
    { rewrite <- E. cbn [app]. by rewrite take_drop. }
    intros rest'. cbn [app]. rewrite Et, (proj2 (Z.ltb_ge first 128)) by done.
    rewrite (proj2 (Z.eqb_neq _ 0)), (proj2 (Z.ltb_ge 4 _)) by done. cbn [orb].
    rewrite (proj2 (Z.ltb_ge _ _)) by (rewrite length_app; pose proof (Z.land_nonneg first 127); lia).
    fold k. replace (take k (take k input ++ body ++ rest')) with (take k input)
      by (by rewrite <- Hn at 2; rewrite take_app_length).
    replace (drop k (take k input ++ body ++ rest')) with (body ++ rest')
      by (by rewrite <- Hn at 1; rewrite drop_app_length).
    destruct (Hr rest') as (-> & -> & ->). done.
Qed.

Lemma expect_split tag input body rest :
  expect tag input = (Ok body, rest) ->
  exists header, input = header ++ body ++ rest /\
    forall rest', expect tag (header ++ body ++ rest') = (Ok body, rest').
Proof.
  unfold expect. destruct (raw_tlv input) as [[[t b]|] r] eqn:E; [|done].
  destruct (negb (t =? tag_byte tag)) eqn:Et; [done|]. intros [= -> ->].
  apply raw_tlv_split in E as (h & -> & Hr). exists h. split; [done|]. intros rest'.
  by rewrite Hr, Et.
Qed.

(** ** OIDs and varbinds *)

Lemma ber_body_length l :
  Forall is_u32 l -> Z.of_nat (length (ber_body l)) = ber_body_len l.
Proof.
  intros Hl. pose proof (ber_body_len_app l [] Hl) as H.
  rewrite write_ber_body_app in H by done. simpl in H. lia.
Qed.

Lemma write_oid_app out oid :
  Forall is_u32 (arcs oid) -> ber_body_len (arcs oid) <= u64_max ->
  write_oid out oid = out ++ tlv_bytes TOid (ber_body (arcs oid)).
Proof.
  intros Ho Hl. pose proof (ber_body_length _ Ho) as Hlen. unfold write_oid, tlv_bytes.
  rewrite write_ber_body_app, write_header_app by (done || lia).
  rewrite <- Hlen, <- app_assoc. done.
Qed.

(** A varbind's TLV, as a list. *)
Definition varbind_bytes (oid : Oid) (value : list Z) : list Z :=
  tlv_bytes TSequence (tlv_bytes TOid (ber_body (arcs oid)) ++ value).

Lemma write_varbind_app out oid value :
  Forall is_u32 (arcs oid) ->
  tlv_len (ber_body_len (arcs oid)) + Z.of_nat (length value) <= u64_max ->
  write_varbind out oid value = out ++ varbind_bytes oid value.
Proof.
  intros Ho Hl. pose proof (ber_body_length _ Ho) as Hlen.
  pose proof (length_len_pos (ber_body_len (arcs oid))).
  unfold tlv_len in Hl. unfold write_varbind, varbind_bytes.
  rewrite write_oid_app, write_header_app by (unfold tlv_len; done || lia).
  unfold tlv_bytes at 2. rewrite length_app, Nat2Z.inj_add, tlv_bytes_length, Hlen by lia.
  rewrite <- !app_assoc. done.
Qed.

Lemma tlv_bytes_longer tag body : (length body <= length (tlv_bytes tag body))%nat.
Proof. unfold tlv_bytes. cbn [length]. rewrite length_app. lia. Qed.

Lemma read_one_bytes oid tag value rest :
  Z.of_nat (length (varbind_bytes oid (tlv_bytes tag value))) <= u32_max ->
  read_one (varbind_bytes oid (tlv_bytes tag value) ++ rest)
  = (Ok (mk_varbind (ber_body (arcs oid)) (tag_byte tag) value), rest).
Proof.
  intros Hl. unfold varbind_bytes in *.
  set (ob := ber_body (arcs oid)) in *. set (b := tlv_bytes TOid ob ++ tlv_bytes tag value) in *.
  pose proof (tlv_bytes_longer TSequence b). pose proof (tlv_bytes_longer TOid ob).
  pose proof (tlv_bytes_longer tag value).
  assert (length b = length (tlv_bytes TOid ob) + length (tlv_bytes tag value))%nat
    by (subst b; apply length_app).
  unfold read_one. rewrite expect_bytes by lia. subst b. rewrite expect_bytes by lia.
  rewrite <- (app_nil_r (tlv_bytes tag value)), raw_tlv_bytes by lia. done.
Qed.

Lemma varbinds_next_bytes oid value rest :
  varbinds_next (varbind_bytes oid value ++ rest)
  = let (r, rest) := read_one (varbind_bytes oid value ++ rest) in (Some r, rest).
Proof. done. Qed.

(** The iterator [VarBinds] run to its end, stopping at the first error; each
    varbind read takes at least two octets, so as many steps as octets do. *)
Fixpoint varbinds_collect (fuel : nat) (input : list Z) : result (list VarBind) BerError :=
  match fuel with
  | O => Ok []
  | S fuel =>
      match varbinds_next input with
      | (None, _) => Ok []
      | (Some (Err e), _) => Err e
      | (Some (Ok vb), rest) =>
          let? vbs := varbinds_collect fuel rest in Ok (vb :: vbs)
      end
  end.

(** The body of a varbind list, written entry by entry with [write_varbind];
    each value is a tag and its content octets. *)
Definition write_varbinds (vbs : list (Oid * Tag * list Z)) (out : list Z) : list Z :=
  fold_left (fun out '(oid, tag, value) => write_varbind out oid (tlv_bytes tag value)) vbs out.

Lemma write_varbinds_app vbs out :
  Forall (fun '(oid, tag, value) => ber_arcs (arcs oid) /\
    tlv_len (ber_body_len (arcs oid)) + Z.of_nat (length (tlv_bytes tag value)) <= u32_max) vbs ->
  write_varbinds vbs out
  = out ++ concat (map (fun '(oid, tag, value) => varbind_bytes oid (tlv_bytes tag value)) vbs).
Proof.
  intros Hv. unfold write_varbinds. revert out.
  induction Hv as [|[[oid tag] value] vbs [Ha Hl] Hv IH]; intros out; [by rewrite app_nil_r|].
  cbn [fold_left map concat]. rewrite IH, write_varbind_app, <- app_assoc; [done| |lia].
  by apply ber_arcs_u32.
Qed.

(** A varbind list round-trips: reading the octets [write_varbind] wrote
    for a list of entries yields, in order, each entry's name octets, value tag
    and value, and every name decodes to its OID. *)
Theorem varbinds_roundtrip vbs :
  Forall (fun '(oid, tag, value) => ber_arcs (arcs oid) /\
    Z.of_nat (length (varbind_bytes oid (tlv_bytes tag value))) <= u32_max) vbs ->
  exists read, varbinds_collect (S (length vbs)) (write_varbinds vbs []) = Ok read /\
    Forall2 (fun '(oid, tag, value) vb =>
      vb_name vb = Ok oid /\ vb_value_tag vb = tag_byte tag /\ vb_value vb = value) vbs read.
Proof.
  intros Hv. rewrite write_varbinds_app, app_nil_l.
  2: { eapply Forall_impl; [|exact Hv]. intros [[oid tag] value] [Ha Hl]. split; [done|].
       unfold varbind_bytes in Hl. pose proof (tlv_bytes_longer TSequence
         (tlv_bytes TOid (ber_body (arcs oid)) ++ tlv_bytes tag value)) as H.
       rewrite length_app in H. pose proof (tlv_bytes_longer TOid (ber_body (arcs oid))).
       rewrite <- ber_body_length, <- tlv_bytes_length with (tag := TOid)
         by (try apply ber_arcs_u32; done || lia). lia. }
  induction Hv as [|[[oid tag] value] vbs [Ha Hl] Hv IH]; [by exists []|].
  cbn [map concat length]. destruct IH as (read & Hr & Hf).
  exists (mk_varbind (ber_body (arcs oid)) (tag_byte tag) value :: read). split.
  - set (rest := concat _) in *.
    change (varbinds_collect (S (S (length vbs)))) with (fun input =>
      match varbinds_next input with
      | (None, _) => Ok []
      | (Some (Err e), _) => Err e
      | (Some (Ok vb), rest) =>
          let? vbs' := varbinds_collect (S (length vbs)) rest in Ok (vb :: vbs')
      end). cbv beta.
    rewrite varbinds_next_bytes, read_one_bytes by done. by rewrite Hr.
  - constructor; [|done]. simpl. unfold vb_name, from_ber_body. simpl.
    rewrite decode_encode by done. by destruct oid.
Qed.

Lemma varbinds_roundtrip_witness :
  exists read, varbinds_collect 2 (write_varbinds [(mk_oid [1; 3; 6], TInteger, [5])] [])
               = Ok read /\ length read = 1%nat.
Proof.
  destruct (varbinds_roundtrip [(mk_oid [1; 3; 6], TInteger, [5])]) as (read & Hr & Hf).
  - constructor; [|constructor]. split; [|vm_compute; discriminate].
    left. repeat split; try lia. repeat constructor; unfold is_u32; lia.
  - exists read. split; [exact Hr|]. symmetry. exact (Forall2_length Hf).
Defined.

(** ** Messages *)

(** A whole message, as a list. *)
Definition pdu_bytes (pdu : Tag) (request_id error_status error_index : Z) (vbs : list Z) :=
  tlv_bytes pdu
    (tlv_bytes TInteger (i64_content request_id)
     ++ tlv_bytes TInteger (i64_content error_status)
     ++ tlv_bytes TInteger (i64_content error_index)
     ++ tlv_bytes TSequence vbs).

Definition message_bytes (m : Message) : list Z :=
  tlv_bytes TSequence
    (tlv_bytes TInteger (i64_content (version m))
     ++ tlv_bytes TOctetString (community m)
     ++ pdu_bytes (pdu m) (request_id m) (error_status m) (error_index m) (varbinds m)).

(** The messages [write_message] is used for: integers are [i64]s, the version
    one of the two, the tag a PDU's. *)
Definition message_ok (m : Message) : Prop :=
  (version m = 0 \/ version m = 1) /\ is_pdu (pdu m) = true /\
  is_i64 (request_id m) /\ is_i64 (error_status m) /\ is_i64 (error_index m).

Lemma decode_pdu_fields_bytes r s i vbs :
  is_i64 r -> is_i64 s -> is_i64 i -> Z.of_nat (length vbs) <= u32_max ->
  decode_pdu_fields (tlv_bytes TInteger (i64_content r) ++ tlv_bytes TInteger (i64_content s)
                     ++ tlv_bytes TInteger (i64_content i) ++ tlv_bytes TSequence vbs)
  = Ok (r, s, i, vbs).
Proof.
  intros Hr Hs Hi Hv. unfold decode_pdu_fields.
  rewrite read_i64_bytes, read_i64_bytes, read_i64_bytes by done.
  rewrite <- (app_nil_r (tlv_bytes TSequence vbs)), expect_bytes by done. done.
Qed.

Lemma message_decode_bytes m :
  message_ok m -> Z.of_nat (length (message_bytes m)) <= u32_max ->
  message_decode (message_bytes m) = Ok m.
Proof.
  destruct m as [v c p r s i vbs]. unfold message_ok, message_bytes, pdu_bytes.
  cbn [version community pdu request_id error_status error_index varbinds].
  intros (Hver & Hp & Hr & Hs & Hi).
  set (vb := tlv_bytes TInteger (i64_content v)). set (cb := tlv_bytes TOctetString c).
  set (fb := _ ++ _ ++ _ ++ tlv_bytes TSequence vbs).
  set (body := vb ++ cb ++ tlv_bytes p fb). intros Hl.
  pose proof (tlv_bytes_longer TSequence body).
  pose proof (tlv_bytes_longer TOctetString c) as Hc. fold cb in Hc.
  pose proof (tlv_bytes_longer p fb). pose proof (tlv_bytes_longer TSequence vbs).
  assert (Hb : (length cb + length (tlv_bytes p fb) <= length body)%nat)
    by (subst body; rewrite !length_app; lia).
  assert (Hf : (length vbs <= length fb)%nat)
    by (subst fb; rewrite !length_app; lia).
  unfold message_decode. rewrite <- (app_nil_r (tlv_bytes TSequence body)).
  rewrite expect_bytes by lia. rewrite bool_decide_eq_true_2 by done. simpl negb; cbv iota.
  subst body vb. rewrite read_i64_bytes by (unfold is_i64; lia).
  replace ((0 <=? v) && (v <=? 1)) with true
    by (symmetry; apply andb_true_iff; split; zbool; lia). simpl negb; cbv iota.
  unfold read_octets. subst cb. rewrite expect_bytes by lia.
  rewrite <- (app_nil_r (tlv_bytes p fb)), tlv_read_bytes by lia.
  rewrite Hp, bool_decide_eq_true_2 by done. simpl negb; cbv iota.
  subst fb. by rewrite decode_pdu_fields_bytes by (done || lia).
Qed.

Lemma write_message_app m w :
  message_ok m -> appends w (varbinds m) ->
  Z.of_nat (length (message_bytes m)) <= u32_max ->
  appends (fun out => write_message out (version m) (community m) (pdu m) (request_id m)
                        (error_status m) (error_index m) w) (message_bytes m).
Proof.
  intros (Hver & Hp & Hr & Hs & Hi) Hw Hl. unfold write_message.
  unfold message_bytes in *. set (body := _ ++ _ ++ pdu_bytes _ _ _ _ _) in *.
  pose proof (tlv_bytes_longer TSequence body). apply write_tlv_app; [|lia].
  intros out. subst body. rewrite !length_app in *. unfold pdu_bytes in *.
  set (fb := _ ++ _ ++ _ ++ tlv_bytes TSequence (varbinds m)) in *.
  pose proof (tlv_bytes_longer (pdu m) fb).
  pose proof (tlv_bytes_longer TOctetString (community m)).
  assert (Hv : is_i64 (version m)) by (unfold is_i64; lia).
  rewrite write_i64_app, write_octets_app by (done || lia).
  rewrite (write_tlv_app (pdu m) _ fb).
  - by rewrite <- !app_assoc.
  - intros out'. rewrite !write_i64_app by done.
    rewrite (write_tlv_app TSequence w (varbinds m)) by
      (done || (subst fb; rewrite !length_app in *;
                pose proof (tlv_bytes_longer TSequence (varbinds m)); lia)).
    subst fb. by rewrite <- !app_assoc.
  - lia.
Qed.

Lemma i64_len_content v : is_i64 v -> tlv_len (Z.of_nat (length (i64_content v))) = i64_len v.
Proof.
  intros Hv. destruct (i64_content_spec v Hv) as (_ & _ & _ & ->). unfold i64_len.
  by destruct (signed_span v).
Qed.

Lemma message_len_bytes m :
  message_ok m -> Z.of_nat (length (message_bytes m)) <= u32_max ->
  Z.of_nat (length (message_bytes m))
  = message_len (version m) (community m) (request_id m) (error_status m) (error_index m)
      (Z.of_nat (length (varbinds m))).
Proof.
  intros (Hver & Hp & Hr & Hs & Hi). unfold message_bytes, pdu_bytes, message_len.
  assert (Hv : is_i64 (version m)) by (unfold is_i64; lia).
  set (fb := _ ++ _ ++ _ ++ tlv_bytes TSequence (varbinds m)).
  set (body := _ ++ _ ++ tlv_bytes (pdu m) fb). intros Hl.
  pose proof (tlv_bytes_longer TSequence body).
  assert (Hb : length body = (length (tlv_bytes TInteger (i64_content (version m)))
      + (length (tlv_bytes TOctetString (community m)) + length (tlv_bytes (pdu m) fb)))%nat)
    by (subst body; by rewrite !length_app).
  pose proof (tlv_bytes_longer TInteger (i64_content (version m))).
  pose proof (tlv_bytes_longer TOctetString (community m)).
  pose proof (tlv_bytes_longer (pdu m) fb).
  assert (Hf : length fb = (length (tlv_bytes TInteger (i64_content (request_id m)))
      + (length (tlv_bytes TInteger (i64_content (error_status m)))
      + (length (tlv_bytes TInteger (i64_content (error_index m)))
      + length (tlv_bytes TSequence (varbinds m)))))%nat)
    by (subst fb; by rewrite !length_app).
  pose proof (tlv_bytes_longer TInteger (i64_content (request_id m))).
  pose proof (tlv_bytes_longer TInteger (i64_content (error_status m))).
  pose proof (tlv_bytes_longer TInteger (i64_content (error_index m))).
  pose proof (tlv_bytes_longer TSequence (varbinds m)).
  rewrite tlv_bytes_length by lia. f_equal.
  rewrite Hb, !Nat2Z.inj_add, !tlv_bytes_length, i64_len_content by (done || lia).
  rewrite <- Z.add_assoc. do 3 f_equal.
  rewrite Hf, !Nat2Z.inj_add, !tlv_bytes_length, !i64_len_content by (done || lia). lia.
Qed.

(** C37: messages round-trip: for a message of version 0 or 1 and any varbind
    list the closure appends, [write_message] never panics, appends exactly
    [message_len] octets, and decoding those octets gives the message back. *)
Theorem message_roundtrip out m w :
  message_ok m -> appends w (varbinds m) ->
  Z.of_nat (length (message_bytes m)) <= u32_max ->
  exists bytes,
    write_message out (version m) (community m) (pdu m) (request_id m)
      (error_status m) (error_index m) w = Some (out ++ bytes) /\
    Z.of_nat (length bytes)
    = message_len (version m) (community m) (request_id m) (error_status m) (error_index m)
        (Z.of_nat (length (varbinds m))) /\
    message_decode bytes = Ok m.
Proof.
  intros Hok Hw Hl. exists (message_bytes m). split; [by apply write_message_app|].
  split; [by apply message_len_bytes|by apply message_decode_bytes].
Qed.

Lemma message_roundtrip_witness :
  exists bytes,
    write_message [] 1 [112; 117] TGetRequest 7 0 0 (fun out => Some (out ++ [48; 0]))
    = Some bytes /\
    message_decode bytes = Ok (mk_message 1 [112; 117] TGetRequest 7 0 0 [48; 0]).
Proof.
  destruct (message_roundtrip [] (mk_message 1 [112; 117] TGetRequest 7 0 0 [48; 0])
              (fun out => Some (out ++ [48; 0]))) as (bytes & Hw & _ & Hd).
  - repeat split; simpl; try lia; auto.
  - done.
  - vm_compute. discriminate.
  - exists bytes. split; [exact Hw|exact Hd].
Defined.

(** Any other version is refused before anything after it is parsed: the
    error is [UnsupportedVersion] whatever octets follow the version. *)
Theorem message_decode_version v rest :
  is_i64 v -> v < 0 \/ 1 < v ->
  Z.of_nat (length (tlv_bytes TInteger (i64_content v) ++ rest)) <= u32_max ->
  message_decode (tlv_bytes TSequence (tlv_bytes TInteger (i64_content v) ++ rest))
  = Err (UnsupportedVersion v).
Proof.
  intros Hv Hr Hl. unfold message_decode.
  rewrite <- (app_nil_r (tlv_bytes TSequence _)), expect_bytes by done.
  rewrite bool_decide_eq_true_2 by done. simpl negb; cbv iota.
  rewrite read_i64_bytes by done.
  replace ((0 <=? v) && (v <=? 1)) with false; [done|].
  symmetry. apply andb_false_iff. destruct Hr; [left|right]; zbool; lia.
Qed.

Lemma message_decode_version_witness :
  message_decode (tlv_bytes TSequence (tlv_bytes TInteger (i64_content 3) ++ [7; 7]))
  = Err (UnsupportedVersion 3).
Proof.
  apply message_decode_version; [unfold is_i64; lia|lia|vm_compute; discriminate].
Defined.
