(* ===== verification/F64.v ===== *)
(** * F64: Rust's [f64] by its bits

    A double is its 64-bit pattern. Comparisons are those of IEEE 754: false on
    a NaN, and otherwise the order of the sign-magnitude integers the patterns
    spell ([key]), the two zeros being equal. [f64_compare_spec] ties them to
    the standard library's specification of binary64, [SFcompare], through the
    decoding [to_sf]. *)

From Stdlib Require Import ZArith Lia.
From Corelib Require Import Floats.SpecFloat.
From stdpp Require Import prelude numbers.
From S2P Require Import Prelude.

Abbreviation f64 := Z.

(** Exponent all ones, significand zero: positive infinity. *)
Abbreviation inf_bits := 9218868437227405312.
Abbreviation sign_bit := 9223372036854775808.

(** [f64::NAN]. *)
Definition f64_nan : f64 := 9221120237041090560.

Definition sign (x : f64) : bool := sign_bit <=? x.
Definition magnitude (x : f64) : Z := if sign x then x - sign_bit else x.

(** [x.is_nan()]. *)
Definition is_nan (x : f64) : bool := inf_bits <? magnitude x.

(** [x.is_finite()]. *)
Definition is_finite (x : f64) : bool := magnitude x <? inf_bits.

(** The sign-magnitude integer of a pattern. *)
Definition key (x : f64) : Z := if sign x then - magnitude x else magnitude x.

(** [a < b], [a > b], [a <= b], [a >= b], [a == b]. *)
Definition f64_lt (a b : f64) : bool := negb (is_nan a) && negb (is_nan b) && (key a <? key b).
Definition f64_gt (a b : f64) : bool := f64_lt b a.
Definition f64_le (a b : f64) : bool := negb (is_nan a) && negb (is_nan b) && (key a <=? key b).
Definition f64_ge (a b : f64) : bool := f64_le b a.
Definition f64_eq (a b : f64) : bool := negb (is_nan a) && negb (is_nan b) && (key a =? key b).

(** [a.to_bits() == b.to_bits()]. *)
Definition bit_eq (a b : f64) : bool := a =? b.

(** ** Agreement with the binary64 specification *)

(** The specification float of a pattern. *)
Definition to_sf (x : f64) : spec_float :=
  let s := sign x in
  let m := magnitude x in
  let e := m / 2 ^ 52 in
  let f := m mod 2 ^ 52 in
  if e =? 2047 then if f =? 0 then S754_infinity s else S754_nan
  else if e =? 0 then
    match f with Zpos p => S754_finite s p (-1074) | _ => S754_zero s end
  else match f + 2 ^ 52 with Zpos p => S754_finite s p (e - 1075) | _ => S754_nan end.

(** The comparison the boolean operators are cases of. *)
Definition f64_compare (a b : f64) : option comparison :=
  if is_nan a || is_nan b then None else Some (key a ?= key b).

Lemma magnitude_bound x : is_u64 x -> 0 <= magnitude x < sign_bit.
Proof. unfold is_u64, magnitude, sign. destruct (Z.leb_spec sign_bit x); lia. Qed.

(** The four shapes of a decoded pattern, in terms of its magnitude. *)
Lemma to_sf_cases x :
  is_u64 x ->
  (is_nan x = true /\ to_sf x = S754_nan) \/
  (is_nan x = false /\ magnitude x = inf_bits /\ to_sf x = S754_infinity (sign x)) \/
  (is_nan x = false /\ magnitude x = 0 /\ to_sf x = S754_zero (sign x)) \/
  (is_nan x = false /\ exists p e, to_sf x = S754_finite (sign x) p e /\
     0 < magnitude x < inf_bits /\
     (e = -1074 /\ magnitude x = Zpos p /\ Zpos p < 2 ^ 53 \/
      -1074 < e /\ 2 ^ 52 <= Zpos p < 2 ^ 53 /\
      magnitude x = (e + 1074) * 2 ^ 52 + Zpos p)).
Proof.
  intros Hx. pose proof (magnitude_bound x Hx) as Hm. unfold to_sf, is_nan.
  pose proof (Z_div_mod_eq_full (magnitude x) (2 ^ 52)) as Hd.
  pose proof (Z.mod_pos_bound (magnitude x) (2 ^ 52) ltac:(lia)) as Hr.
  set (e := magnitude x / 2 ^ 52) in *. set (f := magnitude x mod 2 ^ 52) in *.
  change (2 ^ 52) with 4503599627370496 in *. change (2 ^ 53) with 9007199254740992.
  destruct (Z.eqb_spec e 2047) as [He|He].
  - destruct (Z.eqb_spec f 0).
    + right; left. split; [zbool; lia|]. split; [lia|done].
    + left. split; [zbool; lia|done].
  - right; right. destruct (Z.eqb_spec e 0) as [He0|He0].
    + destruct f as [|p|p] eqn:Hf; [left|right|lia].
      * split; [zbool; lia|]. split; [lia|done].
      * split; [zbool; lia|]. exists p, (-1074). split; [done|]. split; [lia|]. left. lia.
    + right. split; [zbool; lia|].
      destruct (f + 4503599627370496) as [|p|p] eqn:Hf; [lia| |lia].
      exists p, (e - 1075). split; [done|]. split; [lia|].
      destruct (decide (e = 1)); [left|right]; lia.
Qed.

(** Two finite magnitudes compare as exponent, then significand. *)
Lemma finite_compare m1 m2 p1 p2 e1 e2 :
  (e1 = -1074 /\ m1 = Zpos p1 /\ Zpos p1 < 2 ^ 53 \/
   -1074 < e1 /\ 2 ^ 52 <= Zpos p1 < 2 ^ 53 /\ m1 = (e1 + 1074) * 2 ^ 52 + Zpos p1) ->
  (e2 = -1074 /\ m2 = Zpos p2 /\ Zpos p2 < 2 ^ 53 \/
   -1074 < e2 /\ 2 ^ 52 <= Zpos p2 < 2 ^ 53 /\ m2 = (e2 + 1074) * 2 ^ 52 + Zpos p2) ->
  match e1 ?= e2 with Eq => Pos.compare_cont Eq p1 p2 | Lt => Lt | Gt => Gt end = (m1 ?= m2).
Proof.
  intros H1 H2. change (Pos.compare_cont Eq p1 p2) with (Zpos p1 ?= Zpos p2).
  change (2 ^ 52) with 4503599627370496 in *. change (2 ^ 53) with 9007199254740992 in *.
  destruct (Z.compare_spec e1 e2).
  - subst e2. destruct (Z.compare_spec (Zpos p1) (Zpos p2)); symmetry.
    + apply Z.compare_eq_iff. lia.
    + apply Z.compare_lt_iff. lia.
    + apply Z.compare_gt_iff. lia.
  - symmetry. apply Z.compare_lt_iff. lia.
  - symmetry. apply Z.compare_gt_iff. lia.
Qed.

Lemma compare_opp a b : (- a ?= - b) = CompOpp (a ?= b).
Proof.
  destruct (Z.compare_spec a b); simpl; [apply Z.compare_eq_iff|apply Z.compare_gt_iff|
    apply Z.compare_lt_iff]; lia.
Qed.

(** The comparison of patterns is the specification's comparison of the floats
    they encode. *)
Lemma f64_compare_spec a b :
  is_u64 a -> is_u64 b -> f64_compare a b = SFcompare (to_sf a) (to_sf b).
Proof.
  intros Ha Hb. unfold f64_compare, key.
  destruct (to_sf_cases a Ha)
    as [(-> & ->)|[(-> & Hma & ->)|[(-> & Hma & ->)|(-> & pa & ea & -> & Hma & Hea)]]];
  destruct (to_sf_cases b Hb)
    as [(-> & ->)|[(-> & Hmb & ->)|[(-> & Hmb & ->)|(-> & pb & eb & -> & Hmb & Heb)]]];
  cbn [orb]; try done; unfold SFcompare.
  all: try (destruct (sign a), (sign b); f_equal;
            first [apply Z.compare_lt_iff; lia | apply Z.compare_gt_iff; lia
                  | apply Z.compare_eq_iff; lia]).
  f_equal. pose proof (finite_compare _ _ _ _ _ _ Hea Heb) as Hc.
  destruct (sign a), (sign b).
  - rewrite compare_opp, <- Hc. by destruct (ea ?= eb).
  - apply Z.compare_lt_iff. lia.
  - apply Z.compare_gt_iff. lia.
  - by rewrite <- Hc.
Qed.

(** The boolean operators as cases of the comparison. *)
Lemma f64_lt_compare a b :
  f64_lt a b = match f64_compare a b with Some Lt => true | _ => false end.
Proof.
  unfold f64_lt, f64_compare. destruct (is_nan a), (is_nan b); done.
Qed.

Lemma f64_lt_irrefl a : f64_lt a a = false.
Proof. unfold f64_lt. rewrite Z.ltb_irrefl. apply andb_false_r. Qed.

Lemma f64_lt_asym a b : f64_lt a b = true -> f64_lt b a = false.
Proof.
  unfold f64_lt. intros H. zbool. rewrite (proj2 (Z.ltb_ge (key b) (key a))) by lia.
  apply andb_false_r.
Qed.

Lemma f64_lt_trans a b c : f64_lt a b = true -> f64_lt b c = true -> f64_lt a c = true.
Proof.
  unfold f64_lt. destruct (is_nan a), (is_nan b), (is_nan c); simpl; try done.
  rewrite !Z.ltb_lt. lia.
Qed.
