(* ===== verification/Stats.v ===== *)
(** * Stats: the live statistics of a scenario (schedule/stats.rs)

    [ScenarioStats] with its operations. The [HashMap] of current values and
    the [HashSet] of series are [gmap] and [gset]; what iterates over the map
    takes the order of its values as an argument, and the theorems hold for
    every order. [Instant::now()] and the wall clock are arguments. *)

From Stdlib Require Import ZArith Lia Sorted.
From stdpp Require Import prelude strings list gmap sorting.
From S2P Require Import Prelude Text Metric F64.

(** [DEGRADED_STALENESS_NANOS]. *)
Definition DEGRADED_STALENESS_NANOS : Z := 30 * 1000000000.

Inductive ScenarioState := Pending | Running | Paused | Held | Unresolved | Finished.

#[export] Instance ScenarioState_eq_dec : EqDecision ScenarioState.
Proof. solve_decision. Defined.

(** [ScenarioState::operational_states]. *)
Definition operational_states : list ScenarioState := [Pending; Running; Paused; Held; Unresolved].

(** [ScenarioState::as_label]. *)
Definition as_label (s : ScenarioState) : string :=
  match s with
  | Pending => "pending" | Running => "running" | Paused => "paused"
  | Held => "held" | Unresolved => "unresolved" | Finished => "finished"
  end.

(** [ScenarioStats], its fields in the source's order. *)
Record ScenarioStats := mk_stats {
  total_events : Z;
  bytes_emitted : Z;
  current_rate : f64;
  errors : Z;
  rejected_events : Z;
  in_gap : bool;
  in_burst : bool;
  in_cardinality_spike : bool;
  consecutive_failures : Z;
  total_sink_failures : Z;
  last_sink_error : option string;
  last_successful_write_at : option Z;
  current_values : gmap MetricKey MetricEvent;
  state : ScenarioState;
  close_emit_series : gset MetricKey;
  last_emit_ts : option Z;
  track_close_series : bool;
  last_state_transition_at : option Z;
  cumulative_resolution_attempts : Z;
}.

(** [ScenarioStats::default]. *)
Definition default_stats : ScenarioStats :=
  mk_stats 0 0 0 0 0 false false false 0 0 None None ∅ Pending ∅ None false None 0.

Definition set_values (s : ScenarioStats) (m : gmap MetricKey MetricEvent) : ScenarioStats :=
  mk_stats (total_events s) (bytes_emitted s) (current_rate s) (errors s) (rejected_events s)
    (in_gap s) (in_burst s) (in_cardinality_spike s) (consecutive_failures s)
    (total_sink_failures s) (last_sink_error s) (last_successful_write_at s) m (state s)
    (close_emit_series s) (last_emit_ts s) (track_close_series s) (last_state_transition_at s)
    (cumulative_resolution_attempts s).

Definition set_close (s : ScenarioStats) (series : gset MetricKey) (ts : option Z) (track : bool)
  : ScenarioStats :=
  mk_stats (total_events s) (bytes_emitted s) (current_rate s) (errors s) (rejected_events s)
    (in_gap s) (in_burst s) (in_cardinality_spike s) (consecutive_failures s)
    (total_sink_failures s) (last_sink_error s) (last_successful_write_at s) (current_values s)
    (state s) series ts track (last_state_transition_at s) (cumulative_resolution_attempts s).

(** [ScenarioStats::push_metric]. *)
Definition push_metric (s : ScenarioStats) (event : MetricEvent) : ScenarioStats :=
  let s :=
    if track_close_series s
    then set_close s ({[ event_key event ]} ∪ close_emit_series s) (Some (ev_timestamp event)) true
    else s in
  set_values s (<[event_key event := event]> (current_values s)).

(** [ScenarioStats::enable_close_series_tracking]. *)
Definition enable_close_series_tracking (s : ScenarioStats) : ScenarioStats :=
  set_close s (close_emit_series s) (last_emit_ts s) true.

(** [ScenarioStats::transition_state] at the instant [now]. *)
Definition transition_state (s : ScenarioStats) (new_state : ScenarioState) (now : Z)
  : ScenarioStats :=
  mk_stats (total_events s) (bytes_emitted s) (current_rate s) (errors s) (rejected_events s)
    (in_gap s) (in_burst s) (in_cardinality_spike s) (consecutive_failures s)
    (total_sink_failures s) (last_sink_error s) (last_successful_write_at s) (current_values s)
    new_state (close_emit_series s) (last_emit_ts s) (track_close_series s) (Some now)
    (cumulative_resolution_attempts s).

(** [s.cumulative_resolution_attempts.saturating_add(1)], stored. *)
Definition count_resolution_attempt (s : ScenarioStats) : ScenarioStats :=
  mk_stats (total_events s) (bytes_emitted s) (current_rate s) (errors s) (rejected_events s)
    (in_gap s) (in_burst s) (in_cardinality_spike s) (consecutive_failures s)
    (total_sink_failures s) (last_sink_error s) (last_successful_write_at s) (current_values s)
    (state s) (close_emit_series s) (last_emit_ts s) (track_close_series s)
    (last_state_transition_at s) (u64_sat_add (cumulative_resolution_attempts s) 1).

(** [ScenarioStats::drain_close_emit_series]. *)
Definition drain_close_emit_series (s : ScenarioStats)
  : (gset MetricKey * option Z) * ScenarioStats :=
  ((close_emit_series s, last_emit_ts s), set_close s ∅ None (track_close_series s)).

Definition event_le : relation MetricEvent :=
  cmp_le (pair_cmp String.compare labels_cmp) event_key.

(** [ScenarioStats::current_values_snapshot]; [values] is what
    [current_values.values()] yields. *)
Definition current_values_snapshot (values : list MetricEvent) : list MetricEvent :=
  merge_sort event_le values.

(** An order in which the map's iterator can yield its values. *)
Definition values_of (s : ScenarioStats) (values : list MetricEvent) : Prop :=
  values ≡ₚ (map_to_list (current_values s)).*2.

(** [ScenarioStats::is_degraded]. *)
Definition is_degraded (s : ScenarioStats) (now_unix_nanos : Z) : bool :=
  if total_sink_failures s =? 0 then false
  else match last_successful_write_at s with
       | None => true
       | Some last => DEGRADED_STALENESS_NANOS <? sat_sub now_unix_nanos last
       end.

(** ** Current values *)

(** The last event of a series in a history. *)
Definition latest (k : MetricKey) (evs : list MetricEvent) : option MetricEvent :=
  list.last (filter (fun e => event_key e = k) evs).

Definition push_all (s : ScenarioStats) (evs : list MetricEvent) : ScenarioStats :=
  fold_left push_metric evs s.

Lemma push_metric_values s e :
  current_values (push_metric s e) = <[event_key e := e]> (current_values s).
Proof. unfold push_metric. by destruct (track_close_series s). Qed.

Lemma push_all_snoc s evs e : push_all s (evs ++ [e]) = push_metric (push_all s evs) e.
Proof. unfold push_all. by rewrite fold_left_app. Qed.

Lemma push_all_lookup s evs k :
  current_values s = ∅ -> current_values (push_all s evs) !! k = latest k evs.
Proof.
  intros Hs. induction evs as [|e evs IH] using rev_ind;
    [cbn; by rewrite Hs, lookup_empty|].
  rewrite push_all_snoc, push_metric_values. unfold latest. rewrite list.filter_app.
  cbn. destruct (decide (event_key e = k)) as [<-|Hne].
  - by rewrite lookup_insert_eq, last_snoc.
  - by rewrite lookup_insert_ne, app_nil_r.
Qed.

Lemma latest_key k evs e : latest k evs = Some e -> event_key e = k.
Proof.
  unfold latest. intros H. apply last_Some in H as [l' H].
  assert (Hin : e ∈ filter (fun e => event_key e = k) evs) by (rewrite H; set_solver).
  by apply list_elem_of_filter in Hin as [? _].
Qed.

Lemma values_of_elem s values e :
  values_of s values -> e ∈ values <-> exists k, current_values s !! k = Some e.
Proof.
  intros ->. rewrite list_elem_of_fmap. split.
  - intros ([k e'] & -> & H). exists k. by apply elem_of_map_to_list.
  - intros (k & H). exists (k, e). split; [done|]. by apply elem_of_map_to_list.
Qed.

(** Series are filed under their own key. *)
Definition keyed (s : ScenarioStats) : Prop :=
  forall k e, current_values s !! k = Some e -> event_key e = k.

Lemma values_of_keys s values :
  keyed s -> values_of s values -> NoDup (event_key <$> values).
Proof.
  intros Hk Hv. rewrite Hv.
  replace (event_key <$> (map_to_list (current_values s)).*2)
    with (map_to_list (current_values s)).*1; [apply NoDup_fst_map_to_list|].
  rewrite <- list_fmap_compose. apply list_fmap_ext. intros i [k e] Hi. cbn.
  symmetry. apply Hk. apply elem_of_map_to_list. by eapply list_elem_of_lookup_2.
Qed.

(** The order of the snapshot, strictly: by name, then by label pairs. *)
Definition event_lt (a b : MetricEvent) : Prop :=
  pair_cmp String.compare labels_cmp (event_key a) (event_key b) = Lt.

Lemma sorted_strict l :
  NoDup (event_key <$> l) -> StronglySorted event_le l -> StronglySorted event_lt l.
Proof.
  induction 2 as [|e l Hs IH Hf]; [constructor|]. rewrite fmap_cons in H.
  apply NoDup_cons in H as [Hn Hd]. constructor; [by apply IH|].
  rewrite Forall_forall in Hf |- *. intros e' He'. specialize (Hf e' He').
  unfold event_le, cmp_le, event_lt in *.
  destruct (pair_cmp _ _ _ _) eqn:E; [|done..].
  apply cmp_eq_iff in E. exfalso. apply Hn. rewrite E. by apply list_elem_of_fmap_2.
Qed.

(** The snapshot of the current values is deterministic and right. After
    any history of pushes and in whatever order the hash map yields its values,
    it holds exactly the last event of every series pushed, strictly ordered by
    name and then by label pairs, and two snapshots are equal. *)
Theorem snapshot_correct evs values values'
    (Hv : values_of (push_all default_stats evs) values)
    (Hv' : values_of (push_all default_stats evs) values') :
  current_values_snapshot values = current_values_snapshot values' /\
  StronglySorted event_lt (current_values_snapshot values) /\
  forall e, e ∈ current_values_snapshot values <-> latest (event_key e) evs = Some e.
Proof.
  assert (forall k, current_values (push_all default_stats evs) !! k = latest k evs) as Hl.
  { intros k. by apply push_all_lookup. }
  assert (keyed (push_all default_stats evs)) as Hk.
  { intros k e. rewrite Hl. apply latest_key. }
  assert (forall v, current_values_snapshot v ≡ₚ v) as Hp.
  { intros v. apply merge_sort_Permutation. }
  assert (forall v, StronglySorted event_le (current_values_snapshot v)) as Hs.
  { intros v. unfold current_values_snapshot, event_le. apply StronglySorted_merge_sort; apply _. }
  assert (Hnd : NoDup (event_key <$> current_values_snapshot values)).
  { rewrite Hp. by eapply values_of_keys. }
  split; [|split].
  - apply (StronglySorted_unique_strong event_le); auto.
    + intros e1 e2 H1 H2 L1 L2. rewrite Hp in H1, H2.
      apply (values_of_elem _ _ _ Hv) in H1 as [k1 H1].
      apply (values_of_elem _ _ _ Hv') in H2 as [k2 H2].
      pose proof (cmp_le_antisym _ _ _ _ L1 L2) as E.
      rewrite (Hk _ _ H1), (Hk _ _ H2) in E. subst. rewrite H1 in H2. by injection H2.
    + rewrite !Hp. unfold values_of in *. by rewrite Hv, Hv'.
  - by apply sorted_strict.
  - intros e. rewrite Hp, (values_of_elem _ _ _ Hv). split.
    + intros [k H]. pose proof (Hk _ _ H) as <-. by rewrite <- Hl.
    + intros H. exists (event_key e). by rewrite Hl.
Qed.

Definition demo_events : list MetricEvent :=
  [mk_event "b" 1 (mk_labels []) 10; mk_event "a" 2 (mk_labels []) 11;
   mk_event "b" 3 (mk_labels []) 12].

Lemma snapshot_correct_witness :
  let values := (map_to_list (current_values (push_all default_stats demo_events))).*2 in
  current_values_snapshot values = current_values_snapshot (reverse values) /\
  mk_event "b" 3 (mk_labels []) 12 ∈ current_values_snapshot values.
Proof.
  cbn zeta.
  destruct (snapshot_correct demo_events
    (map_to_list (current_values (push_all default_stats demo_events))).*2
    (reverse (map_to_list (current_values (push_all default_stats demo_events))).*2))
    as (He & _ & Hin).
  - unfold values_of. reflexivity.
  - unfold values_of. apply reverse_Permutation.
  - split; [exact He|]. apply Hin. reflexivity.
Defined.

(** ** Close-emit series *)

Lemma push_metric_close s e :
  track_close_series s = true ->
  close_emit_series (push_metric s e) = {[ event_key e ]} ∪ close_emit_series s /\
  last_emit_ts (push_metric s e) = Some (ev_timestamp e) /\
  track_close_series (push_metric s e) = true.
Proof. intros H. unfold push_metric. by rewrite H. Qed.

Lemma push_all_close s evs :
  track_close_series s = true ->
  close_emit_series (push_all s evs) = list_to_set (event_key <$> evs) ∪ close_emit_series s /\
  last_emit_ts (push_all s evs) =
    match list.last evs with Some e => Some (ev_timestamp e) | None => last_emit_ts s end /\
  track_close_series (push_all s evs) = true.
Proof.
  intros Ht. induction evs as [|e evs IH] using rev_ind.
  - cbn. split; [set_solver|done].
  - destruct IH as (IH1 & IH2 & IH3). rewrite push_all_snoc.
    destruct (push_metric_close (push_all s evs) e IH3) as (-> & -> & ->).
    split; [|by rewrite last_snoc]. rewrite IH1, fmap_app, list_to_set_app_L. set_solver.
Qed.

(** A close drains exactly the series of its own round. Of a tracked
    scenario, the drain after the pushes that follow an earlier drain returns
    the set of their series, with the timestamp of the last of them, and leaves
    an empty set that is still tracked; of an untracked one the set never
    grows. *)
Theorem drain_rounds s evs1 evs2 :
  let s1 := (drain_close_emit_series (push_all s evs1)).2 in
  let '((series, ts), s2) := drain_close_emit_series (push_all s1 evs2) in
  if track_close_series s then
    series = list_to_set (event_key <$> evs2) /\
    ts = ev_timestamp <$> list.last evs2 /\
    close_emit_series s2 = ∅ /\ track_close_series s2 = true
  else
    close_emit_series (push_all s evs1) = close_emit_series s /\ series = ∅ /\ ts = None.
Proof.
  assert (Hoff : forall s evs, track_close_series s = false ->
    close_emit_series (push_all s evs) = close_emit_series s /\
    last_emit_ts (push_all s evs) = last_emit_ts s /\
    track_close_series (push_all s evs) = false).
  { clear. intros s evs Ht. induction evs as [|e evs IH] using rev_ind; [done|].
    rewrite push_all_snoc. unfold push_metric. destruct IH as (? & ? & H). by rewrite H. }
  cbn. destruct (track_close_series s) eqn:Ht.
  - destruct (push_all_close s evs1 Ht) as (_ & _ & H3).
    destruct (push_all_close (set_close (push_all s evs1) ∅ None true) evs2 eq_refl)
      as (H4 & H5 & H6).
    rewrite H3 in *. rewrite H4, H5, H6. cbn. split; [set_solver|].
    split; [by destruct (list.last evs2)|done].
  - destruct (Hoff s evs1 Ht) as (H1 & _ & H3).
    destruct (Hoff (set_close (push_all s evs1) ∅ None false) evs2 eq_refl) as (H4 & H5 & _).
    rewrite H3, H4, H5. done.
Qed.

(** A degraded scenario has failed, and nothing was delivered in the last
    thirty seconds. *)
Lemma is_degraded_iff s now :
  is_degraded s now = true <->
  total_sink_failures s <> 0 /\
  forall last, last_successful_write_at s = Some last -> last + DEGRADED_STALENESS_NANOS < now.
Proof.
  unfold is_degraded, sat_sub. destruct (Z.eqb_spec (total_sink_failures s) 0); [naive_solver|].
  unfold DEGRADED_STALENESS_NANOS. destruct (last_successful_write_at s) as [last|].
  - rewrite Z.ltb_lt. split; [intros H; split; [done|intros ? [= <-]; lia]|].
    intros [_ H]. specialize (H last eq_refl). lia.
  - naive_solver.
Qed.
