(* ===== verification/GateBus.v ===== *)
(** * GateBus: the [while:] / [after:] runtime channel (schedule/gate_bus.rs)

    The edge slots behind the [Arc]s are a store [slots], indexed by the order
    of their creation; a sender and a receiver of one channel hold the same
    index, so what one writes the other reads. A bus operation runs under the
    bus's lock and is one function on the bus state and the store.

    [Module Slot] refines the receiver's [try_recv] into the atomic accesses it
    is made of, interleaved with those of the sender. *)

From Stdlib Require Import ZArith Lia.
From stdpp Require Import prelude list numbers.
From S2P Require Import Prelude F64.

(** ** Edges and slots *)

Inductive GateEdge := AfterFired | WhileOpen | WhileClose | UpstreamGone.

#[export] Instance GateEdge_eq_dec : EqDecision GateEdge.
Proof. solve_decision. Defined.

Definition EDGE_EMPTY : Z := 0.
Definition EDGE_AFTER_FIRED : Z := 1.
Definition EDGE_WHILE_OPEN : Z := 2.
Definition EDGE_WHILE_CLOSE : Z := 3.
Definition EDGE_UPSTREAM_GONE : Z := 4.

(** [encode_edge]. *)
Definition encode_edge (e : GateEdge) : Z :=
  match e with
  | AfterFired => EDGE_AFTER_FIRED
  | WhileOpen => EDGE_WHILE_OPEN
  | WhileClose => EDGE_WHILE_CLOSE
  | UpstreamGone => EDGE_UPSTREAM_GONE
  end.

(** [decode_edge]. *)
Definition decode_edge (raw : Z) : option GateEdge :=
  if raw =? EDGE_AFTER_FIRED then Some AfterFired
  else if raw =? EDGE_WHILE_OPEN then Some WhileOpen
  else if raw =? EDGE_WHILE_CLOSE then Some WhileClose
  else if raw =? EDGE_UPSTREAM_GONE then Some UpstreamGone
  else None.

Record EdgeSlot := mk_slot { edge : Z; sender_dropped : bool }.

(** [EdgeSlot::new]. *)
Definition new_slot : EdgeSlot := mk_slot EDGE_EMPTY false.

Abbreviation slots := (list EdgeSlot).

(** [GateEdgeSender::send] into slot [tx]. *)
Definition send (st : slots) (tx : nat) (e : GateEdge) : slots :=
  alter (fun s => mk_slot (encode_edge e) (sender_dropped s)) tx st.

(** [SenderShared::drop], when the last sender of the slot goes. *)
Definition drop_sender (st : slots) (tx : nat) : slots :=
  alter (fun s => mk_slot (edge s) true) tx st.

Record EdgeReceiver := mk_receiver { slot : nat; drained_after_close : bool }.

(** What [EdgeReceiver::try_recv] makes of the octet swapped out and of the
    dropped flag read after it: the edge, and the new [drained_after_close]. *)
Definition try_recv_outcome (raw : Z) (sender_gone drained : bool) : option GateEdge * bool :=
  match decode_edge raw with
  | Some e => (Some e, if sender_gone then true else drained)
  | None =>
      if drained then (None, drained)
      else if sender_gone then (Some UpstreamGone, true)
      else (None, drained)
  end.

(** [EdgeReceiver::try_recv] with no other access between its two atomics; the
    index of a receiver is that of a slot, so the store has it. *)
Definition edge_try_recv (st : slots) (rx : EdgeReceiver)
  : option GateEdge * slots * EdgeReceiver :=
  match st !! slot rx with
  | None => (None, st, rx)
  | Some s =>
      let st := <[slot rx := mk_slot EDGE_EMPTY (sender_dropped s)]> st in
      let (r, drained) :=
        try_recv_outcome (edge s) (sender_dropped s) (drained_after_close rx) in
      (r, st, mk_receiver (slot rx) drained)
  end.

(** [gate_edge_channel]: a new slot and the receiver's end; the sender's end is
    the slot's index. *)
Definition gate_edge_channel (st : slots) : slots * nat * EdgeReceiver :=
  (st ++ [new_slot], length st, mk_receiver (length st) false).

Record GateReceiver := mk_gate_receiver {
  after_rx : option EdgeReceiver;
  while_rx : option EdgeReceiver;
}.

(** [GateReceiver::from_while_rx]. *)
Definition from_while_rx (rx : EdgeReceiver) : GateReceiver := mk_gate_receiver None (Some rx).

(** [GateReceiver::try_recv]: after, then while. *)
Definition try_recv (st : slots) (g : GateReceiver) : option GateEdge * slots * GateReceiver :=
  let '(r, st, after) :=
    match after_rx g with
    | None => (None, st, None)
    | Some rx => let '(r, st, rx) := edge_try_recv st rx in (r, st, Some rx)
    end in
  match r with
  | Some e => (Some e, st, mk_gate_receiver after (while_rx g))
  | None =>
      match while_rx g with
      | None => (None, st, mk_gate_receiver after None)
      | Some rx =>
          let '(r, st, rx) := edge_try_recv st rx in
          (r, st, mk_gate_receiver after (Some rx))
      end
  end.

(** ** The bus *)

Inductive WhileOp := WLessThan | WGreaterThan.
Inductive AfterOpDir := ALessThan | AGreaterThan.

Record WhileSpec := mk_while { w_op : WhileOp; w_threshold : f64 }.
Record AfterSpec := mk_after { a_op : AfterOpDir; a_threshold : f64 }.
Record SubscriptionSpec := mk_spec { after : option AfterSpec; while_ : option WhileSpec }.
Record InitialState := mk_initial {
  after_already_fired : bool;
  while_gate_open : option bool;
  current_value : f64;
}.

(** [strict_eval]. *)
Definition strict_eval (value : f64) (op : WhileOp) (threshold : f64) : bool :=
  if is_nan value then false
  else match op with
       | WLessThan => f64_lt value threshold
       | WGreaterThan => f64_gt value threshold
       end.

(** [after_eval]. *)
Definition after_eval (value : f64) (op : AfterOpDir) (threshold : f64) : bool :=
  if is_nan value then false
  else match op with
       | ALessThan => f64_lt value threshold
       | AGreaterThan => f64_gt value threshold
       end.

Record Subscription := mk_sub {
  spec : SubscriptionSpec;
  after_tx : option nat;
  while_tx : option nat;
  after_fired : bool;
  prev_while_open : option bool;
}.

Record GateBus := mk_bus { subs : list Subscription; last_value : f64; has_value : bool }.

(** [GateBus::new]. *)
Definition new_bus : GateBus := mk_bus [] f64_nan false.

(** Send through a sender that may be absent. *)
Definition send_opt (st : slots) (tx : option nat) (e : GateEdge) : slots :=
  match tx with Some tx => send st tx e | None => st end.

Definition open_edge (open : bool) : GateEdge := if open then WhileOpen else WhileClose.

(** A channel when the spec asks for one. *)
Definition channel_if {A : Type} (wanted : option A) (st : slots)
  : slots * option nat * option EdgeReceiver :=
  match wanted with
  | Some _ => let '(st, tx, rx) := gate_edge_channel st in (st, Some tx, Some rx)
  | None => (st, None, None)
  end.

(** [GateBus::subscribe]. *)
Definition subscribe (bus : GateBus) (st : slots) (sp : SubscriptionSpec)
  : GateBus * slots * GateReceiver * InitialState :=
  let current := if has_value bus then last_value bus else f64_nan in
  let '(st, a_tx, a_rx) := channel_if (after sp) st in
  let '(st, w_tx, w_rx) := channel_if (while_ sp) st in
  let fired := match after sp with
               | Some a => after_eval current (a_op a) (a_threshold a)
               | None => false
               end in
  let open := (fun w => strict_eval current (w_op w) (w_threshold w)) <$> while_ sp in
  let sub := mk_sub sp a_tx w_tx fired open in
  let st := if fired then send_opt st a_tx AfterFired else st in
  (mk_bus (subs bus ++ [sub]) (last_value bus) (has_value bus), st,
   mk_gate_receiver a_rx w_rx, mk_initial fired open current).

(** [GateBus::subscribe_with_while_sender]. *)
Definition subscribe_with_while_sender (bus : GateBus) (st : slots) (sp : WhileSpec) (tx : nat)
  : GateBus * slots * InitialState :=
  let '(st, current, open) :=
    if has_value bus then
      let v := last_value bus in
      let open := strict_eval v (w_op sp) (w_threshold sp) in
      (send st tx (open_edge open), v, Some open)
    else (st, f64_nan, None) in
  let sub := mk_sub (mk_spec None (Some sp)) None (Some tx) false open in
  (mk_bus (subs bus ++ [sub]) (last_value bus) (has_value bus), st,
   mk_initial false open current).

(** The [after:] part of one subscription's turn in [GateBus::tick]: the
    subscription and the edge sent. *)
Definition tick_after (curr : f64) (sub : Subscription) : bool * option GateEdge :=
  match after (spec sub) with
  | Some a =>
      if negb (after_fired sub) && after_eval curr (a_op a) (a_threshold a)
      then (true, Some AfterFired) else (after_fired sub, None)
  | None => (after_fired sub, None)
  end.

(** The [while:] part. *)
Definition tick_while (curr : f64) (sub : Subscription) : option bool * option GateEdge :=
  match while_ (spec sub) with
  | Some w =>
      let now_open := strict_eval curr (w_op w) (w_threshold w) in
      if negb (bool_decide (prev_while_open sub = Some now_open))
      then (Some now_open, Some (open_edge now_open)) else (prev_while_open sub, None)
  | None => (prev_while_open sub, None)
  end.

(** One subscription's turn in the loop of [GateBus::tick]. *)
Definition tick_sub (curr : f64) (sub : Subscription) (st : slots) : Subscription * slots :=
  let (fired, a_edge) := tick_after curr sub in
  let (open, w_edge) := tick_while curr sub in
  let st := match a_edge with Some e => send_opt st (after_tx sub) e | None => st end in
  let st := match w_edge with Some e => send_opt st (while_tx sub) e | None => st end in
  (mk_sub (spec sub) (after_tx sub) (while_tx sub) fired open, st).

Fixpoint tick_subs (curr : f64) (l : list Subscription) (st : slots)
  : list Subscription * slots :=
  match l with
  | [] => ([], st)
  | sub :: l =>
      let (sub, st) := tick_sub curr sub st in
      let (l, st) := tick_subs curr l st in
      (sub :: l, st)
  end.

(** [GateBus::tick], with its fast path. *)
Definition tick (bus : GateBus) (st : slots) (curr : f64) : GateBus * slots :=
  let unchanged := has_value bus && bit_eq (last_value bus) curr in
  if unchanged then (mk_bus (subs bus) curr true, st)
  else let (l, st) := tick_subs curr (subs bus) st in (mk_bus l curr true, st).

(** [GateBus::broadcast_upstream_gone]. *)
Definition broadcast_upstream_gone (bus : GateBus) (st : slots) : slots :=
  fold_left (fun st sub =>
    send_opt (send_opt st (while_tx sub) UpstreamGone) (after_tx sub) UpstreamGone)
    (subs bus) st.


(** ** Slots: basic facts *)

Lemma decode_encode_edge e : decode_edge (encode_edge e) = Some e.
Proof. by destruct e. Qed.

Lemma decode_empty : decode_edge EDGE_EMPTY = None.
Proof. reflexivity. Qed.

Lemma send_length st tx e : length (send st tx e) = length st.
Proof. apply length_alter. Qed.

Lemma send_opt_length st tx e : length (send_opt st tx e) = length st.
Proof. destruct tx; [apply send_length|done]. Qed.

Lemma send_same st tx e s :
  st !! tx = Some s -> send st tx e !! tx = Some (mk_slot (encode_edge e) (sender_dropped s)).
Proof. intros H. unfold send. rewrite list_lookup_alter_eq, H. done. Qed.

Lemma send_other st tx e i : tx <> i -> send st tx e !! i = st !! i.
Proof. intros H. unfold send. by apply list_lookup_alter_ne. Qed.

Lemma send_opt_other st tx e i : tx <> Some i -> send_opt st tx e !! i = st !! i.
Proof. intros H. destruct tx; [apply send_other; congruence|done]. Qed.

(** ** The bus invariant *)

(** The value a subscription made now is evaluated against. *)
Definition bus_value (bus : GateBus) : f64 :=
  if has_value bus then last_value bus else f64_nan.

(** What a subscription remembers agrees with the value [v]. *)
Definition while_synced (v : f64) (sub : Subscription) : Prop :=
  forall w, while_ (spec sub) = Some w ->
    prev_while_open sub = Some (strict_eval v (w_op w) (w_threshold w)).

Definition after_synced (v : f64) (sub : Subscription) : Prop :=
  forall a, after (spec sub) = Some a ->
    after_eval v (a_op a) (a_threshold a) = true -> after_fired sub = true.

Definition sub_synced (v : f64) (sub : Subscription) : Prop :=
  while_synced v sub /\ after_synced v sub.

(** Once a value is published, every subscription agrees with the last one. *)
Definition bus_ok (bus : GateBus) : Prop :=
  has_value bus = true -> Forall (sub_synced (last_value bus)) (subs bus).

(** [GateBus::tick] without its fast path: the loop over the subscriptions. *)
Definition tick_slow (bus : GateBus) (st : slots) (curr : f64) : GateBus * slots :=
  let (l, st) := tick_subs curr (subs bus) st in (mk_bus l curr true, st).

(** *** One turn of the loop *)

Lemma tick_sub_synced curr sub st : sub_synced curr (fst (tick_sub curr sub st)).
Proof.
  unfold tick_sub.
  destruct (tick_after curr sub) as [fired ae] eqn:Ea.
  destruct (tick_while curr sub) as [open we] eqn:Ew.
  cbn [fst]. split.
  - intros w Hw. cbn in *. unfold tick_while in Ew. rewrite Hw in Ew.
    case_bool_decide; cbn in Ew; congruence.
  - intros a Ha He. cbn in *. unfold tick_after in Ea. rewrite Ha, He in Ea.
    destruct (after_fired sub) eqn:Ef; cbn in Ea; congruence.
Qed.

Lemma tick_sub_idle curr sub st : sub_synced curr sub -> tick_sub curr sub st = (sub, st).
Proof.
  intros [Hw Ha]. unfold tick_sub.
  assert (tick_after curr sub = (after_fired sub, None)) as ->.
  { unfold tick_after. destruct (after (spec sub)) as [a|] eqn:E; [|done].
    destruct (after_fired sub) eqn:Ef; [done|]. cbn.
    destruct (after_eval curr _ _) eqn:He; [|done].
    rewrite (Ha a E He) in Ef. done. }
  assert (tick_while curr sub = (prev_while_open sub, None)) as ->.
  { unfold tick_while. destruct (while_ (spec sub)) as [w|] eqn:E; [|done].
    rewrite (Hw w E). rewrite bool_decide_eq_true_2 by done. done. }
  by destruct sub.
Qed.

Lemma tick_subs_idle curr l st : Forall (sub_synced curr) l -> tick_subs curr l st = (l, st).
Proof.
  induction l as [|sub l IH] in st |- *; intros H; [done|].
  apply Forall_cons_1 in H as [H Hl]. cbn. by rewrite tick_sub_idle, IH.
Qed.

Lemma tick_subs_synced curr l st : Forall (sub_synced curr) (fst (tick_subs curr l st)).
Proof.
  induction l as [|sub l IH] in st |- *; [constructor|]. cbn.
  pose proof (tick_sub_synced curr sub st) as H. destruct (tick_sub curr sub st) as [sub' st'].
  specialize (IH st'). destruct (tick_subs curr l st') as [l' st'']. by constructor.
Qed.

Lemma tick_eq_slow bus st curr : bus_ok bus -> tick bus st curr = tick_slow bus st curr.
Proof.
  intros Hok. unfold tick, tick_slow. destruct (has_value bus) eqn:Hv; [|done]. cbn.
  destruct (bit_eq (last_value bus) curr) eqn:E; [|done].
  apply Z.eqb_eq in E. subst curr. rewrite tick_subs_idle by auto. done.
Qed.

Lemma new_bus_ok : bus_ok new_bus.
Proof. intros H. done. Qed.

Lemma tick_ok bus st curr : bus_ok bus -> bus_ok (fst (tick bus st curr)).
Proof.
  intros Hok. rewrite tick_eq_slow by done. unfold tick_slow.
  pose proof (tick_subs_synced curr (subs bus) st) as H.
  destruct (tick_subs curr (subs bus) st) as [l st']. intros _. done.
Qed.

Lemma subscribe_ok bus st sp : bus_ok bus -> bus_ok (subscribe bus st sp).1.1.1.
Proof.
  intros Hok. unfold subscribe.
  destruct (channel_if (after sp) st) as [[st1 a_tx] a_rx].
  destruct (channel_if (while_ sp) st1) as [[st2 w_tx] w_rx].
  cbn. intros Hv. cbn in *. apply Forall_app_2; [by apply Hok|].
  rewrite Hv. constructor; [|constructor]. split.
  - intros w Hw. cbn in *. by rewrite Hw.
  - intros a Ha He. cbn in *. by rewrite Ha.
Qed.

Lemma subscribe_with_while_sender_ok bus st sp tx :
  bus_ok bus -> bus_ok (subscribe_with_while_sender bus st sp tx).1.1.
Proof.
  intros Hok. unfold subscribe_with_while_sender.
  destruct (has_value bus) eqn:Hv; intros Hv'; cbn in *; [|done].
  apply Forall_app_2; [by apply Hok|]. constructor; [|constructor]. split.
  - intros w Hw. cbn in *. congruence.
  - intros a Ha. done.
Qed.

(** The states of a bus and of the slots that its operations, and the
    receivers', can reach. *)
Inductive bus_reach : GateBus -> slots -> Prop :=
| reach_new st : bus_reach new_bus st
| reach_channel bus st : bus_reach bus st -> bus_reach bus (gate_edge_channel st).1.1
| reach_recv bus st g : bus_reach bus st -> bus_reach bus (try_recv st g).1.2
| reach_drop bus st tx : bus_reach bus st -> bus_reach bus (drop_sender st tx)
| reach_subscribe bus st sp :
    bus_reach bus st ->
    bus_reach (subscribe bus st sp).1.1.1 (subscribe bus st sp).1.1.2
| reach_subscribe_sender bus st w tx :
    bus_reach bus st -> (tx < length st)%nat ->
    bus_reach (subscribe_with_while_sender bus st w tx).1.1
              (subscribe_with_while_sender bus st w tx).1.2
| reach_tick bus st v : bus_reach bus st -> bus_reach (tick bus st v).1 (tick bus st v).2
| reach_gone bus st : bus_reach bus st -> bus_reach bus (broadcast_upstream_gone bus st).

Lemma bus_reach_ok bus st : bus_reach bus st -> bus_ok bus.
Proof.
  induction 1; auto using new_bus_ok, tick_ok, subscribe_ok, subscribe_with_while_sender_ok.
Qed.

(** The fast path of [tick] changes nothing: on a bus that any sequence of
    subscriptions, publishes and receives has reached, a publish that skips the
    loop because its bits equal the last ones gives the bus and the slots that
    the loop over the subscriptions would have given. *)
Theorem tick_fast_path bus st curr (Hr : bus_reach bus st) :
  tick bus st curr = tick_slow bus st curr.
Proof. apply tick_eq_slow. by eapply bus_reach_ok. Qed.

(** ** A subscriber's view of the gate

    One subscriber, from its subscription on: the bus and the slots, its
    receiver, and what it made of the edges it received (the state of the
    [while:] gate it believes in, and how often it saw [AfterFired]). Other
    subscriptions come and go between its steps. *)

Inductive Event :=
| ETick (v : f64)
| ERecv
| ESubscribe (sp : SubscriptionSpec)
| ESubscribeSender (w : WhileSpec).

Record Client := mk_client {
  c_bus : GateBus; c_slots : slots; c_rx : GateReceiver;
  c_view : option bool; c_fired : nat;
}.

Definition client_start (bus : GateBus) (st : slots) (sp : SubscriptionSpec) : Client :=
  let '(bus, st, g, init) := subscribe bus st sp in
  mk_client bus st g (while_gate_open init) 0.

Definition observe_view (r : option GateEdge) (view : option bool) : option bool :=
  match r with
  | Some WhileOpen => Some true
  | Some WhileClose => Some false
  | _ => view
  end.

Definition observe_fired (r : option GateEdge) (n : nat) : nat :=
  match r with Some AfterFired => S n | _ => n end.

Definition client_step (c : Client) (ev : Event) : Client :=
  match ev with
  | ETick v =>
      let (bus, st) := tick (c_bus c) (c_slots c) v in
      mk_client bus st (c_rx c) (c_view c) (c_fired c)
  | ERecv =>
      let '(r, st, g) := try_recv (c_slots c) (c_rx c) in
      mk_client (c_bus c) st g (observe_view r (c_view c)) (observe_fired r (c_fired c))
  | ESubscribe sp =>
      let '(bus, st, _, _) := subscribe (c_bus c) (c_slots c) sp in
      mk_client bus st (c_rx c) (c_view c) (c_fired c)
  | ESubscribeSender w =>
      let '(st, tx, _) := gate_edge_channel (c_slots c) in
      let '(bus, st, _) := subscribe_with_while_sender (c_bus c) st w tx in
      mk_client bus st (c_rx c) (c_view c) (c_fired c)
  end.

Definition client_run (c : Client) (evs : list Event) : Client := fold_left client_step evs c.

(** The values published, the one the bus held at the subscription first. *)
Definition published (evs : list Event) : list f64 :=
  omap (fun ev => match ev with ETick v => Some v | _ => None end) evs.

(** *** Frame: what a bus operation leaves alone *)

(** The subscription has no sender into slot [i]. *)
Definition untouched (i : nat) (sub : Subscription) : Prop :=
  after_tx sub <> Some i /\ while_tx sub <> Some i.

Lemma tick_sub_tx curr sub st :
  spec (tick_sub curr sub st).1 = spec sub /\
  after_tx (tick_sub curr sub st).1 = after_tx sub /\
  while_tx (tick_sub curr sub st).1 = while_tx sub.
Proof. unfold tick_sub. destruct (tick_after _ _), (tick_while _ _). done. Qed.

Lemma tick_sub_length curr sub st : length (tick_sub curr sub st).2 = length st.
Proof.
  unfold tick_sub. destruct (tick_after _ _) as [? [?|]], (tick_while _ _) as [? [?|]]; cbn;
    by rewrite ?send_opt_length.
Qed.

Lemma tick_sub_frame curr sub st i :
  untouched i sub -> (tick_sub curr sub st).2 !! i = st !! i.
Proof.
  intros [Ha Hw]. unfold tick_sub.
  destruct (tick_after _ _) as [? [?|]], (tick_while _ _) as [? [?|]]; cbn;
    by rewrite ?send_opt_other by done.
Qed.

Lemma tick_subs_frame curr l st i :
  Forall (untouched i) l ->
  (tick_subs curr l st).2 !! i = st !! i /\ Forall (untouched i) (tick_subs curr l st).1.
Proof.
  induction l as [|sub l IH] in st |- *; intros H; [by split|].
  apply Forall_cons_1 in H as [H Hl]. cbn.
  pose proof (tick_sub_frame curr sub st i H) as Hf.
  pose proof (tick_sub_tx curr sub st) as (_ & Ha & Hw).
  destruct (tick_sub curr sub st) as [sub' st']. destruct (IH st' Hl) as [IH1 IH2].
  destruct (tick_subs curr l st') as [l' st'']. cbn in *. split; [congruence|].
  constructor; [|done]. unfold untouched in *. by rewrite Ha, Hw.
Qed.

Lemma tick_subs_length curr l st : length (tick_subs curr l st).2 = length st.
Proof.
  induction l as [|sub l IH] in st |- *; [done|]. cbn.
  pose proof (tick_sub_length curr sub st) as Hl. destruct (tick_sub curr sub st) as [sub' st'].
  specialize (IH st'). destruct (tick_subs curr l st'). cbn in *. congruence.
Qed.

Lemma tick_subs_app curr l1 l2 st :
  tick_subs curr (l1 ++ l2) st =
  let (r1, st) := tick_subs curr l1 st in
  let (r2, st) := tick_subs curr l2 st in (r1 ++ r2, st).
Proof.
  induction l1 as [|sub l1 IH] in st |- *; cbn.
  - by destruct (tick_subs curr l2 st).
  - destruct (tick_sub curr sub st) as [sub' st']. rewrite IH.
    destruct (tick_subs curr l1 st') as [? st2]. by destruct (tick_subs curr l2 st2).
Qed.

Lemma channel_if_frame {A} (wanted : option A) st i s :
  st !! i = Some s -> (channel_if wanted st).1.1 !! i = Some s.
Proof. destruct wanted; cbn; [apply lookup_app_l_Some|done]. Qed.

Lemma channel_if_tx {A} (wanted : option A) st tx :
  (channel_if wanted st).1.2 = Some tx -> (length st <= tx < length (channel_if wanted st).1.1)%nat.
Proof. destruct wanted; cbn; [|done]. intros [= <-]. rewrite length_app. cbn. lia. Qed.

(** *** The invariant of a run *)

(** A channel between the subscription and the receiver: both ends or none, an
    open slot that the receiver has not drained after a close, and [P] of the
    octet in it. *)
Definition chan_inv (st : slots) (tx : option nat) (rx : option EdgeReceiver) (P : Z -> Prop)
  : Prop :=
  match tx, rx with
  | None, None => True
  | Some i, Some r =>
      r = mk_receiver i false /\ exists e, st !! i = Some (mk_slot e false) /\ P e
  | _, _ => False
  end.

Definition while_slot (view open : option bool) (e : Z) : Prop :=
  (e = EDGE_EMPTY /\ view = open) \/ (exists o, e = encode_edge (open_edge o) /\ open = Some o).

Definition after_slot (count : nat) (fired : bool) (e : Z) : Prop :=
  (e = EDGE_EMPTY /\ count = if fired then 1%nat else 0%nat) \/
  (e = EDGE_AFTER_FIRED /\ count = 0%nat /\ fired = true).

(** The subscription [sub] is ours, and its channels are. *)
Definition sub_inv (sp : SubscriptionSpec) (fired : bool) (c : Client)
    (l1 : list Subscription) (sub : Subscription) (l2 : list Subscription) : Prop :=
  subs (c_bus c) = l1 ++ sub :: l2 /\ spec sub = sp /\
  after_fired sub = fired /\ while_synced (bus_value (c_bus c)) sub /\
  (is_Some (while_tx sub) <-> is_Some (while_ sp)) /\
  (is_Some (after_tx sub) <-> is_Some (after sp)) /\
  chan_inv (c_slots c) (after_tx sub) (after_rx (c_rx c)) (after_slot (c_fired c) fired) /\
  chan_inv (c_slots c) (while_tx sub) (while_rx (c_rx c))
    (while_slot (c_view c) (prev_while_open sub)) /\
  (forall i, after_tx sub = Some i -> while_tx sub <> Some i) /\
  (forall i, after_tx sub = Some i \/ while_tx sub = Some i ->
     Forall (untouched i) l1 /\ Forall (untouched i) l2).

Record client_inv (sp : SubscriptionSpec) (fired : bool) (c : Client) : Prop := {
  inv_bus : bus_ok (c_bus c);
  inv_sub : exists l1 sub l2, sub_inv sp fired c l1 sub l2;
}.

(** [chan_inv] depends on the store at the channel's own slot only. *)
Lemma chan_inv_frame st st' tx rx P :
  (forall i e, tx = Some i -> st !! i = Some e -> st' !! i = Some e) ->
  chan_inv st tx rx P -> chan_inv st' tx rx P.
Proof.
  intros Hf. destruct tx as [i|], rx as [r|]; cbn; [|done..].
  intros [-> (e & He & HP)]. split; [done|]. exists e. eauto.
Qed.

Lemma chan_inv_impl st tx rx (P Q : Z -> Prop) :
  (forall e, P e -> Q e) -> chan_inv st tx rx P -> chan_inv st tx rx Q.
Proof.
  intros HPQ. destruct tx as [i|], rx as [r|]; cbn; [|done..].
  intros [-> (e & He & HP)]. eauto.
Qed.

Lemma chan_inv_send st tx rx P (Q : Z -> Prop) e :
  Q (encode_edge e) -> chan_inv st tx rx P -> chan_inv (send_opt st tx e) tx rx Q.
Proof.
  intros HQ. destruct tx as [i|], rx as [r|]; cbn; [|done..].
  intros [-> (e' & He & _)]. split; [done|]. exists (encode_edge e).
  by erewrite send_same by done.
Qed.

Lemma chan_inv_send_other st tx rx P tx' e :
  (forall i, tx' = Some i -> tx <> Some i) ->
  chan_inv st tx rx P -> chan_inv (send_opt st tx' e) tx rx P.
Proof.
  intros Hne. apply chan_inv_frame. intros i s -> Hs.
  rewrite send_opt_other; [done|]. intros ->. by eapply Hne.
Qed.

(** A receive on a channel that satisfies [chan_inv]. *)
Lemma chan_inv_recv st i P :
  chan_inv st (Some i) (Some (mk_receiver i false)) P ->
  exists e, P e /\
    edge_try_recv st (mk_receiver i false) =
      (decode_edge e, <[i := mk_slot EDGE_EMPTY false]> st, mk_receiver i false) /\
    forall Q : Z -> Prop, Q EDGE_EMPTY ->
      chan_inv (<[i := mk_slot EDGE_EMPTY false]> st) (Some i) (Some (mk_receiver i false)) Q.
Proof.
  intros [_ (e & He & HP)]. exists e. split; [done|]. split.
  - unfold edge_try_recv. cbn. rewrite He. cbn. unfold try_recv_outcome.
    by destruct (decode_edge e).
  - intros Q HQ. cbn. split; [done|]. exists EDGE_EMPTY. split; [|done].
    apply list_lookup_insert_eq. by eapply lookup_lt_Some.
Qed.

(** A published value fires the [after:] clause. *)
Definition after_hit (sp : SubscriptionSpec) (v : f64) : bool :=
  match after sp with Some a => after_eval v (a_op a) (a_threshold a) | None => false end.

(** The turn of the subscription itself in a publish. *)
Lemma tick_sub_chans curr sub st g view count sub' st' :
  tick_sub curr sub st = (sub', st') ->
  chan_inv st (after_tx sub) (after_rx g) (after_slot count (after_fired sub)) ->
  chan_inv st (while_tx sub) (while_rx g) (while_slot view (prev_while_open sub)) ->
  (forall i, after_tx sub = Some i -> while_tx sub <> Some i) ->
  after_fired sub' = after_fired sub || after_hit (spec sub) curr /\
  chan_inv st' (after_tx sub) (after_rx g) (after_slot count (after_fired sub')) /\
  chan_inv st' (while_tx sub) (while_rx g) (while_slot view (prev_while_open sub')).
Proof.
  intros E Ha Hw Hne. unfold tick_sub in E.
  destruct (tick_after curr sub) as [fired ae] eqn:Ea.
  destruct (tick_while curr sub) as [open we] eqn:Ew. injection E as <- <-. cbn.
  assert (forall i, while_tx sub = Some i -> after_tx sub <> Some i) as Hne' by naive_solver.
  set (st1 := match ae with Some e => send_opt st (after_tx sub) e | None => st end).
  assert (fired = after_fired sub || after_hit (spec sub) curr /\
    chan_inv st1 (after_tx sub) (after_rx g) (after_slot count fired)) as [Hf Ha1].
  { subst st1. unfold tick_after, after_hit in *. destruct (after (spec sub)) as [a|] eqn:Es.
    2: { injection Ea as <- <-. by rewrite orb_false_r. }
    destruct (after_fired sub) eqn:Ef; cbn in Ea; [by injection Ea as <- <-|].
    destruct (after_eval _ _ _); injection Ea as <- <-; split; try done.
    destruct (after_tx sub) as [i|] eqn:Etx, (after_rx g) as [r|]; cbn in Ha |- *; try done.
    destruct Ha as [-> (e & He & [[-> ->]|(_ & _ & ?)])]; [|done]. split; [done|].
    exists EDGE_AFTER_FIRED. erewrite send_same by done. split; [done|]. right. done. }
  assert (chan_inv st1 (while_tx sub) (while_rx g) (while_slot view (prev_while_open sub))) as Hw1.
  { subst st1. destruct ae; [by apply chan_inv_send_other|done]. }
  split; [done|]. split.
  - destruct we; [by apply chan_inv_send_other|done].
  - unfold tick_while in Ew. destruct (while_ (spec sub)) as [w|]; [|by injection Ew as <- <-].
    destruct (negb _); injection Ew as <- <-; [|done].
    eapply chan_inv_send; [|done]. right. eauto.
Qed.

Lemma inv_tick sp fired c v :
  client_inv sp fired c -> client_inv sp (fired || after_hit sp v) (client_step c (ETick v)).
Proof.
  intros [Hok (l1 & sub & l2 & Hl & Hsp & Hf & Hs & Hiw & Hia & Ha & Hw & Hne & Hfr)]. cbn.
  pose proof (tick_ok (c_bus c) (c_slots c) v Hok) as Hok'.
  destruct (tick (c_bus c) (c_slots c) v) as [bus st] eqn:Et. cbn in *.
  rewrite tick_eq_slow in Et by done. unfold tick_slow in Et.
  rewrite Hl, tick_subs_app in Et. cbn in Et.
  pose proof (fun i => tick_subs_frame v l1 (c_slots c) i) as F1.
  destruct (tick_subs v l1 (c_slots c)) as [r1 st1].
  pose proof (tick_sub_synced v sub st1) as Hs'. pose proof (tick_sub_tx v sub st1) as (T1 & T2 & T3).
  destruct (tick_sub v sub st1) as [sub' st2] eqn:Es.
  pose proof (fun i => tick_subs_frame v l2 st2 i) as F2.
  destruct (tick_subs v l2 st2) as [r2 st3]. injection Et as <- <-. cbn in *.
  destruct (tick_sub_chans v sub st1 (c_rx c) (c_view c) (c_fired c) sub' st2 Es)
    as (Hf' & Ha' & Hw'); [| |done|].
  - rewrite Hf. eapply chan_inv_frame; [|done]. intros i e Hi.
    by rewrite (proj1 (F1 i (proj1 (Hfr i (or_introl Hi))))).
  - eapply chan_inv_frame; [|done]. intros i e Hi.
    by rewrite (proj1 (F1 i (proj1 (Hfr i (or_intror Hi))))).
  - split; [done|]. exists r1, sub', r2. unfold sub_inv. cbn. rewrite T1, T2, T3.
    rewrite Hf, Hsp in Hf'. split_and!; try done; [by destruct Hs'| | |].
    + rewrite <- Hf'. eapply chan_inv_frame; [|done]. intros i e Hi.
      by rewrite (proj1 (F2 i (proj2 (Hfr i (or_introl Hi))))).
    + eapply chan_inv_frame; [|done]. intros i e Hi.
      by rewrite (proj1 (F2 i (proj2 (Hfr i (or_intror Hi))))).
    + intros i Hi. destruct (Hfr i Hi). split; [apply F1|apply F2]; done.
Qed.

Lemma decode_while_slot view open e :
  while_slot view open e -> observe_view (decode_edge e) view = open /\
  observe_fired (decode_edge e) = observe_fired None.
Proof. intros [[-> ->]|([] & -> & ->)]; done. Qed.

Lemma decode_after_slot n fired e :
  after_slot n fired e ->
  observe_fired (decode_edge e) n = (if fired then 1%nat else 0%nat) /\
  observe_view (decode_edge e) = observe_view None.
Proof. intros [[-> ->]|(-> & -> & ->)]; done. Qed.

(** What a receive does to the subscriber's beliefs: it takes the [after:]
    edge first, and a [None] means that both slots were empty. *)
Lemma try_recv_chans st a w g view n fired open :
  chan_inv st a (after_rx g) (after_slot n fired) ->
  chan_inv st w (while_rx g) (while_slot view open) ->
  (forall i, a = Some i -> w <> Some i) ->
  let '(r, st', g') := try_recv st g in
  chan_inv st' a (after_rx g') (after_slot (observe_fired r n) fired) /\
  chan_inv st' w (while_rx g') (while_slot (observe_view r view) open) /\
  (r = None -> (is_Some w -> view = open) /\
               (is_Some a -> n = if fired then 1%nat else 0%nat)).
Proof.
  intros Ha Hw Hne. destruct g as [ar wr]. unfold try_recv. cbn in *.
  destruct a as [i|], ar as [r|]; try done; cbn in Ha.
  - destruct Ha as [-> Ha].
    destruct (chan_inv_recv st i _ (conj eq_refl Ha)) as (e & He & -> & Hset).
    destruct (decode_after_slot _ _ _ He) as [Hc Hv].
    destruct (decode_edge e) as [x|] eqn:Ed.
    + cbn [after_rx while_rx]. rewrite Hv. split; [apply Hset; left; done|]. split; [|done].
      eapply chan_inv_frame; [|done]. intros j s -> Hj.
      rewrite list_lookup_insert_ne; [done|]. intros <-. by eapply Hne.
    + cbn in Hc. destruct w as [j|], wr as [r|]; try done; cbn in Hw.
      * destruct Hw as [-> Hw]. assert (i <> j) as Hij by (intros ->; by eapply Hne).
        rewrite <- (list_lookup_insert_ne st i j (mk_slot EDGE_EMPTY false)) in Hw by done.
        destruct (chan_inv_recv _ j _ (conj eq_refl Hw)) as (e' & He' & -> & Hset').
        destruct (decode_while_slot _ _ _ He') as [Hv' Hc']. cbn [after_rx while_rx].
        rewrite Hc'. split; [|split].
        -- eapply chan_inv_frame; [|apply Hset; left; done]. intros k s [= <-] Hk.
           by rewrite list_lookup_insert_ne by done.
        -- apply Hset'. left. done.
        -- intros En. rewrite En in Hv'. done.
      * cbn. split; [apply Hset; left; done|]. split; [done|]. intros _. split; [|done].
        by intros [? ?].
  - destruct w as [j|], wr as [r|]; try done; cbn in Hw. destruct Hw as [-> Hw].
    destruct (chan_inv_recv _ j _ (conj eq_refl Hw)) as (e' & He' & -> & Hset').
    destruct (decode_while_slot _ _ _ He') as [Hv' Hc']. cbn [after_rx while_rx].
    split; [done|]. split; [apply Hset'; left; done|].
    intros En. rewrite En in Hv'. split; [done|]. intros [? ?]; done.
Qed.

Lemma sub_inv_recv sp fired c l1 sub l2 :
  sub_inv sp fired c l1 sub l2 -> sub_inv sp fired (client_step c ERecv) l1 sub l2.
Proof.
  intros (Hl & Hsp & Hf & Hs & Hiw & Hia & Ha & Hw & Hne & Hfr). cbn.
  pose proof (try_recv_chans _ _ _ _ _ _ _ _ Ha Hw Hne) as H.
  destruct (try_recv (c_slots c) (c_rx c)) as [[r st] g]. destruct H as (Ha' & Hw' & _). done.
Qed.

Lemma client_step_recv c :
  client_step c ERecv =
  let r := try_recv (c_slots c) (c_rx c) in
  mk_client (c_bus c) r.1.2 r.2 (observe_view r.1.1 (c_view c)) (observe_fired r.1.1 (c_fired c)).
Proof. cbn. by destruct (try_recv _ _) as [[? ?] ?]. Qed.

Lemma inv_recv sp fired c : client_inv sp fired c -> client_inv sp fired (client_step c ERecv).
Proof.
  intros [Hok (l1 & sub & l2 & H)]. split; [by rewrite client_step_recv|].
  exists l1, sub, l2. by apply sub_inv_recv.
Qed.

(** A bus with one more subscription whose senders are not those of the slots
    that were there. *)
Definition extends (bus : GateBus) (st : slots) (bus' : GateBus) (st' : slots) : Prop :=
  bus_value bus' = bus_value bus /\
  exists new, subs bus' = subs bus ++ [new] /\
    forall i s, st !! i = Some s -> st' !! i = Some s /\ untouched i new.

Lemma channel_if_fresh {A} (wanted : option A) st i s :
  st !! i = Some s -> (channel_if wanted st).1.2 <> Some i.
Proof.
  intros Hi Htx. apply channel_if_tx in Htx. apply lookup_lt_Some in Hi. lia.
Qed.

Lemma subscribe_extends bus st sp :
  extends bus st (subscribe bus st sp).1.1.1 (subscribe bus st sp).1.1.2.
Proof.
  unfold subscribe.
  pose proof (channel_if_frame (after sp) st) as Fa.
  pose proof (channel_if_fresh (after sp) st) as Ta.
  destruct (channel_if (after sp) st) as [[st1 a_tx] a_rx].
  pose proof (channel_if_frame (while_ sp) st1) as Fw.
  pose proof (channel_if_fresh (while_ sp) st1) as Tw.
  destruct (channel_if (while_ sp) st1) as [[st2 w_tx] w_rx]. cbn in *.
  split; [done|]. eexists. split; [done|]. intros i s Hi. split; [|split; cbn; eauto].
  destruct (match after sp with Some _ => _ | None => _ end); [|by eauto].
  rewrite send_opt_other by eauto. eauto.
Qed.

Lemma subscribe_sender_extends bus st w :
  let '(st1, tx, _) := gate_edge_channel st in
  extends bus st (subscribe_with_while_sender bus st1 w tx).1.1
                 (subscribe_with_while_sender bus st1 w tx).1.2.
Proof.
  cbn. unfold subscribe_with_while_sender, extends.
  assert (forall i s, st !! i = Some s -> i <> length st) as Hne.
  { intros i s Hi. apply lookup_lt_Some in Hi. lia. }
  destruct (has_value bus) eqn:Hv; cbn; (split; [unfold bus_value; cbn; by rewrite Hv|]);
    eexists; (split; [done|]); intros i s Hi; pose proof (Hne i s Hi);
    rewrite ?send_other by done; rewrite (lookup_app_l_Some _ _ _ _ Hi);
    (split; [done|split; cbn; congruence]).
Qed.

Lemma inv_extends sp fired c bus st :
  client_inv sp fired c -> bus_ok bus -> extends (c_bus c) (c_slots c) bus st ->
  client_inv sp fired (mk_client bus st (c_rx c) (c_view c) (c_fired c)).
Proof.
  intros [_ (l1 & sub & l2 & Hl & Hsp & Hf & Hs & Hiw & Hia & Ha & Hw & Hne & Hfr)] Hok
    [Hv (new & Hn & Hfx)].
  split; [done|]. exists l1, sub, (l2 ++ [new]). unfold sub_inv. cbn. rewrite Hv, Hn, Hl.
  split; [by rewrite <- app_assoc|]. split_and!; try done.
  - eapply chan_inv_frame; [|done]. intros i e _ He. by apply Hfx.
  - eapply chan_inv_frame; [|done]. intros i e _ He. by apply Hfx.
  - intros i Hi. destruct (Hfr i Hi) as [H1 H2]. split; [done|].
    apply Forall_app_2; [done|]. constructor; [|done].
    assert (exists s, c_slots c !! i = Some s) as [s Hsl]; [|by eapply Hfx].
    destruct Hi as [Hi|Hi]; rewrite Hi in *.
    + destruct (after_rx (c_rx c)) as [r|]; [|done]. destruct Ha as [_ (e & He & _)]. eauto.
    + destruct (while_rx (c_rx c)) as [r|]; [|done]. destruct Hw as [_ (e & He & _)]. eauto.
Qed.

(** The invariant of the run, step by step. *)
Definition fires (sp : SubscriptionSpec) (fired : bool) (ev : Event) : bool :=
  match ev with ETick v => fired || after_hit sp v | _ => fired end.

Lemma inv_step sp fired c ev :
  client_inv sp fired c -> client_inv sp (fires sp fired ev) (client_step c ev).
Proof.
  intros Hinv. pose proof (inv_bus _ _ _ Hinv) as Hok. destruct ev as [v| |sp'|w]; cbn [fires].
  - by apply inv_tick.
  - by apply inv_recv.
  - cbn. pose proof (subscribe_extends (c_bus c) (c_slots c) sp') as He.
    pose proof (subscribe_ok (c_bus c) (c_slots c) sp' Hok) as Hok'.
    destruct (subscribe _ _ _) as [[[bus st] g] init]. by apply inv_extends.
  - cbn [client_step]. pose proof (subscribe_sender_extends (c_bus c) (c_slots c) w) as He.
    destruct (gate_edge_channel (c_slots c)) as [[st1 tx] rx].
    pose proof (subscribe_with_while_sender_ok (c_bus c) st1 w tx Hok) as Hok'.
    destruct (subscribe_with_while_sender _ _ _ _) as [[bus st] init]. by apply inv_extends.
Qed.

Lemma inv_run sp evs fired c :
  client_inv sp fired c ->
  client_inv sp (fired || existsb (after_hit sp) (published evs)) (client_run c evs).
Proof.
  induction evs as [|ev evs IH] in fired, c |- *; intros H; [by rewrite orb_false_r|].
  apply (inv_step _ _ _ ev) in H. apply IH in H. cbn [client_run fold_left].
  destruct ev; cbn in *; [rewrite orb_assoc|..]; done.
Qed.

(** *** The start of a run *)

(** The senders of a subscription are slots of the store. *)
Definition in_store (n : nat) (sub : Subscription) : Prop :=
  forall i, after_tx sub = Some i \/ while_tx sub = Some i -> (i < n)%nat.

Lemma in_store_mono n m l : (n <= m)%nat -> Forall (in_store n) l -> Forall (in_store m) l.
Proof.
  intros Hnm H. eapply Forall_impl; [|exact H]. intros sub Hs i Hi. specialize (Hs i Hi). lia.
Qed.

Lemma tick_subs_in_store curr l st n :
  Forall (in_store n) l -> Forall (in_store n) (tick_subs curr l st).1.
Proof.
  induction l as [|sub l IH] in st |- *; intros H; [done|].
  apply Forall_cons_1 in H as [H Hl]. cbn. pose proof (tick_sub_tx curr sub st) as (_ & Ha & Hw).
  destruct (tick_sub curr sub st) as [sub' st']. specialize (IH st' Hl).
  destruct (tick_subs curr l st') as [l' st'']. cbn in *. constructor; [|done].
  intros i. rewrite Ha, Hw. apply H.
Qed.

Lemma edge_try_recv_length st rx : length (edge_try_recv st rx).1.2 = length st.
Proof.
  unfold edge_try_recv. destruct (st !! slot rx); [|done].
  destruct (try_recv_outcome _ _ _). cbn. apply length_insert.
Qed.

Lemma try_recv_length st g : length (try_recv st g).1.2 = length st.
Proof.
  unfold try_recv. destruct g as [[r|] w]; cbn.
  - pose proof (edge_try_recv_length st r) as H. destruct (edge_try_recv st r) as [[[e|] st1] r'];
      cbn in *; [done|]. destruct w as [w|]; cbn; [|done].
    pose proof (edge_try_recv_length st1 w) as H1.
    destruct (edge_try_recv st1 w) as [[? ?] ?]. cbn in *. congruence.
  - destruct w as [w|]; [|done]. pose proof (edge_try_recv_length st w) as H1.
    by destruct (edge_try_recv st w) as [[? ?] ?].
Qed.

Lemma broadcast_length bus st : length (broadcast_upstream_gone bus st) = length st.
Proof.
  unfold broadcast_upstream_gone. induction (subs bus) as [|sub l IH] in st |- *; [done|].
  cbn. by rewrite IH, !send_opt_length.
Qed.

Lemma channel_if_grows {A} (wanted : option A) st :
  (length st <= length (channel_if wanted st).1.1)%nat.
Proof. destruct wanted; cbn; [rewrite length_app|]; lia. Qed.

Lemma subscribe_in_store bus st sp :
  Forall (in_store (length st)) (subs bus) ->
  Forall (in_store (length (subscribe bus st sp).1.1.2)) (subs (subscribe bus st sp).1.1.1).
Proof.
  intros H. unfold subscribe.
  pose proof (channel_if_grows (after sp) st) as Ga. pose proof (channel_if_tx (after sp) st) as Ta.
  destruct (channel_if (after sp) st) as [[st1 a_tx] a_rx].
  pose proof (channel_if_grows (while_ sp) st1) as Gw.
  pose proof (channel_if_tx (while_ sp) st1) as Tw.
  destruct (channel_if (while_ sp) st1) as [[st2 w_tx] w_rx]. cbn in *.
  match goal with |- Forall (in_store ?n) _ => assert (n = length st2) as -> end.
  { destruct (match after sp with Some _ => _ | None => _ end); by rewrite ?send_opt_length. }
  apply Forall_app_2; [eapply in_store_mono; [|exact H]; lia|].
  constructor; [|constructor]. intros i [Hi|Hi]; cbn in Hi.
  - specialize (Ta i Hi). lia.
  - specialize (Tw i Hi). lia.
Qed.

Lemma bus_reach_in_store bus st : bus_reach bus st -> Forall (in_store (length st)) (subs bus).
Proof.
  induction 1 as [st|bus st _ IH|bus st g _ IH|bus st tx _ IH|bus st sp _ IH
                 |bus st w tx _ IH Htx|bus st v _ IH|bus st _ IH].
  - constructor.
  - cbn. rewrite length_app. eapply in_store_mono; [|exact IH]. lia.
  - by rewrite try_recv_length.
  - unfold drop_sender. by rewrite length_alter.
  - by apply subscribe_in_store.
  - unfold subscribe_with_while_sender. destruct (has_value bus); cbn; rewrite ?send_length;
      (apply Forall_app_2; [done|]); (constructor; [|constructor]);
      intros i [Hi|Hi]; cbn in Hi; congruence.
  - unfold tick. destruct (_ && _); [done|].
    pose proof (tick_subs_in_store v _ st _ IH) as H. pose proof (tick_subs_length v (subs bus) st).
    destruct (tick_subs v (subs bus) st). cbn in *. congruence.
  - by rewrite broadcast_length.
Qed.

Lemma in_store_untouched n i sub : (n <= i)%nat -> in_store n sub -> untouched i sub.
Proof. intros Hi H. split; intros E; specialize (H i ltac:(auto)); lia. Qed.

Lemma chan_inv_start {A} (wanted : option A) st (P : Z -> Prop) :
  P EDGE_EMPTY ->
  let '(st', tx, rx) := channel_if wanted st in
  chan_inv st' tx rx P /\ (is_Some tx <-> is_Some wanted).
Proof.
  intros HP. destruct wanted; cbn; [|done]. split; [|done]. split; [done|].
  exists EDGE_EMPTY. split; [|done]. by rewrite lookup_app_r, Nat.sub_diag by lia.
Qed.

Lemma inv_start bus st sp :
  bus_reach bus st -> client_inv sp (after_hit sp (bus_value bus)) (client_start bus st sp).
Proof.
  intros Hr. pose proof (subscribe_ok bus st sp (bus_reach_ok _ _ Hr)) as Hok.
  pose proof (bus_reach_in_store _ _ Hr) as Hin. unfold client_start, subscribe in *.
  change (if has_value bus then last_value bus else f64_nan) with (bus_value bus) in *.
  pose proof (channel_if_tx (after sp) st) as Ta. pose proof (channel_if_grows (after sp) st) as Ga.
  pose proof (chan_inv_start (after sp) st (after_slot 0 false) ltac:(by left)) as Ca.
  destruct (channel_if (after sp) st) as [[st1 a_tx] a_rx]. destruct Ca as [Ca Ia].
  set (open := (fun w => strict_eval (bus_value bus) (w_op w) (w_threshold w)) <$> while_ sp) in *.
  pose proof (channel_if_tx (while_ sp) st1) as Tw. pose proof (channel_if_frame (while_ sp) st1) as Fw.
  pose proof (chan_inv_start (while_ sp) st1 (while_slot open open) ltac:(by left)) as Cw.
  destruct (channel_if (while_ sp) st1) as [[st2 w_tx] w_rx]. destruct Cw as [Cw Iw].
  cbn in *. fold (after_hit sp (bus_value bus)) in *.
  apply (chan_inv_frame _ st2) in Ca; [|by eauto].
  assert (forall i, a_tx = Some i -> w_tx <> Some i) as Hne.
  { intros i Hi Hj. specialize (Ta i Hi). specialize (Tw i Hj). lia. }
  split; [done|]. eexists (subs bus), _, []. unfold sub_inv. split; [done|]. cbn. split_and!; try done.
  - intros w Hw. unfold open. cbn in *. by rewrite Hw.
  - destruct (after_hit sp (bus_value bus)); [|done]. eapply chan_inv_send; [|done]. by right.
  - destruct (after_hit sp (bus_value bus)); [|done]. apply chan_inv_send_other; done.
  - intros i Hi. split; [|constructor]. eapply Forall_impl; [|exact Hin]. intros sub.
    apply in_store_untouched. destruct Hi as [Hi|Hi]; [specialize (Ta i Hi)|specialize (Tw i Hi)]; lia.
Qed.

(** The state of the gate that the values published so far stand for. *)
Definition gate_state (sp : SubscriptionSpec) (v : f64) : option bool :=
  (fun w => strict_eval v (w_op w) (w_threshold w)) <$> while_ sp.

Lemma run_bus_value evs bus st g view n :
  bus_value (c_bus (client_run (mk_client bus st g view n) evs)) =
  default (bus_value bus) (list.last (published evs)).
Proof.
  induction evs as [|ev evs IH] in bus, st, g, view, n |- *; [done|].
  destruct ev as [v| |sp'|w]; cbn [client_run fold_left client_step] in *; cbn [c_bus c_slots c_rx c_view c_fired].
  - assert (bus_value (tick bus st v).1 = v) as Hv.
    { unfold tick. destruct (_ && _); [done|]. by destruct (tick_subs _ _ _). }
    destruct (tick bus st v) as [bus' st']. fold (client_run (mk_client bus' st' g view n) evs).
    rewrite IH. cbn in Hv |- *. rewrite Hv. by destruct (list.last (published evs)) eqn:E;
      unfold published in *; cbn; rewrite ?last_cons, ?E.
  - destruct (try_recv st g) as [[r st'] g']. apply IH.
  - pose proof (subscribe_extends bus st sp') as [He _].
    destruct (subscribe bus st sp') as [[[bus' st'] g'] i]. cbn in He. rewrite <- He. apply IH.
  - pose proof (subscribe_sender_extends bus st w) as He. cbn in *. destruct He as [He _].
    destruct (subscribe_with_while_sender _ _ _ _) as [[bus' st'] i]. cbn in He. rewrite <- He.
    apply IH.
Qed.

(** *** Draining *)

Definition empty_slot (e : Z) : Prop := e = EDGE_EMPTY.

(** A receive empties the [after:] slot; when that slot was empty already, it
    empties the [while:] slot. *)
Lemma try_recv_drains st a w g P Q :
  chan_inv st a (after_rx g) P -> chan_inv st w (while_rx g) Q ->
  (forall i, a = Some i -> w <> Some i) ->
  chan_inv (try_recv st g).1.2 a (after_rx (try_recv st g).2) empty_slot /\
  (chan_inv st a (after_rx g) empty_slot ->
   chan_inv (try_recv st g).1.2 w (while_rx (try_recv st g).2) empty_slot).
Proof.
  intros Ha Hw Hne. destruct g as [ar wr]. unfold try_recv. cbn in *.
  assert (forall st, chan_inv st w wr Q ->
    match wr with
    | None => w = None
    | Some rx => exists r j, w = Some j /\
        edge_try_recv st rx = (r, <[j := mk_slot EDGE_EMPTY false]> st, rx) /\
        chan_inv (<[j := mk_slot EDGE_EMPTY false]> st) w (Some rx) empty_slot
    end) as Hrw.
  { clear Hw. intros st' Hw. destruct w as [j|], wr as [r|]; try done. destruct Hw as [-> Hw].
    destruct (chan_inv_recv st' j _ (conj eq_refl Hw)) as (e & _ & E & Hset).
    exists (decode_edge e), j. split; [done|]. split; [done|]. by apply Hset. }
  destruct a as [i|], ar as [r|]; try done; cbn in Ha.
  - destruct Ha as [-> (e0 & He0 & _)].
    destruct (chan_inv_recv st i (fun e => e = e0) (conj eq_refl (ex_intro _ e0 (conj He0 eq_refl))))
      as (e & -> & -> & Hset).
    destruct (decode_edge e0) eqn:Ed; cbn.
    + split; [by apply Hset|]. intros [_ (e & He & ->)]. rewrite He0 in He. by simplify_eq.
    + specialize (Hrw (<[i := mk_slot EDGE_EMPTY false]> st)). destruct wr as [rx|].
      * destruct Hrw as (r & j & -> & -> & Hj).
        { eapply chan_inv_frame; [|exact Hw]. intros j s Hj Hs.
          rewrite list_lookup_insert_ne; [done|]. intros <-. by eapply Hne. }
        cbn [fst snd after_rx while_rx]. split; [|by intros _].
        eapply (chan_inv_frame _ _ (Some i) (Some (mk_receiver i false))); [|by apply Hset].
        intros k s [= <-] Hk. rewrite list_lookup_insert_ne; [done|]. intros ->. by eapply Hne.
      * destruct w; [done|]. cbn. split; [by apply Hset|done].
  - specialize (Hrw st). destruct wr as [rx|]; [|by destruct w].
    destruct (Hrw Hw) as (r & j & -> & -> & Hj). done.
Qed.

Lemma chan_inv_empty st tx rx (P : Z -> Prop) :
  chan_inv st tx rx P -> chan_inv st tx rx empty_slot -> is_Some tx -> P EDGE_EMPTY.
Proof.
  destruct tx as [i|], rx as [r|]; try done.
  intros [_ (e & He & HP)] [_ (e' & He' & ->)] _. rewrite He in He'. by simplify_eq.
Qed.

(** After two receives both slots are empty. *)
Lemma inv_drained sp fired c :
  client_inv sp fired c ->
  let c' := client_run c [ERecv; ERecv] in
  (forall w, while_ sp = Some w ->
     c_view c' = Some (strict_eval (bus_value (c_bus c)) (w_op w) (w_threshold w))) /\
  (is_Some (after sp) -> c_fired c' = if fired then 1%nat else 0%nat).
Proof.
  intros [Hok (l1 & sub & l2 & H0)].
  pose proof (sub_inv_recv _ _ _ _ _ _ H0) as H1. pose proof (sub_inv_recv _ _ _ _ _ _ H1) as H2.
  destruct H0 as (_ & _ & _ & _ & _ & _ & A0 & W0 & Hne & _).
  destruct H1 as (_ & _ & _ & _ & _ & _ & A1 & W1 & _ & _).
  destruct H2 as (_ & Hsp & _ & Hsy & Hiw & Hia & A2 & W2 & _ & _).
  destruct (try_recv_drains _ _ _ _ _ _ A0 W0 Hne) as [D0 _].
  destruct (try_recv_drains _ _ _ _ _ _ A1 W1 Hne) as [D1a D1w].
  cbn [client_run fold_left]. rewrite !client_step_recv in *.
  cbn [c_bus c_slots c_rx c_view c_fired] in *. specialize (D1w D0). split.
  - intros w Hw. destruct (chan_inv_empty _ _ _ _ W2 D1w) as [[_ ->]|([] & ? & _)]; try done.
    + apply Hiw. by exists w.
    + apply Hsy. by rewrite Hsp.
  - intros Ha. destruct (chan_inv_empty _ _ _ _ A2 D1a) as [[_ ->]|(? & _)]; try done.
    by apply Hia.
Qed.

(** C15: a subscriber's view of a [while:] gate converges. Whatever was
    published, received and subscribed by others since it subscribed to a bus
    in any reachable state, two receives later it believes exactly what the
    clause says of the last value published (of the bus's cached value when
    none was): no edge that matters is lost in the single slot. *)
Theorem gate_view_converges bus st sp w evs
    (Hr : bus_reach bus st) (Hw : while_ sp = Some w) :
  c_view (client_run (client_start bus st sp) (evs ++ [ERecv; ERecv])) =
  Some (strict_eval (default (bus_value bus) (list.last (published evs)))
          (w_op w) (w_threshold w)).
Proof.
  pose proof (inv_run sp evs _ _ (inv_start bus st sp Hr)) as Hinv.
  unfold client_run. rewrite fold_left_app. fold (client_run (client_start bus st sp) evs).
  destruct (inv_drained _ _ _ Hinv) as [Hv _]. unfold client_run at 1 in Hv.
  rewrite (Hv w Hw). unfold client_start in *.
  pose proof (subscribe_extends bus st sp) as [He _].
  destruct (subscribe bus st sp) as [[[bus' st'] g] init]. cbn in He.
  by rewrite run_bus_value, He.
Qed.

(** [AfterFired] is delivered exactly once. A subscriber never counts more
    than one, and two receives later it has counted one exactly when the
    bus's value at the subscription, or a value published since, satisfied the
    clause. *)
Theorem after_fired_once bus st sp a evs
    (Hr : bus_reach bus st) (Ha : after sp = Some a) :
  let hit v := after_eval v (a_op a) (a_threshold a) in
  (c_fired (client_run (client_start bus st sp) evs) <= 1)%nat /\
  c_fired (client_run (client_start bus st sp) (evs ++ [ERecv; ERecv])) =
  (if existsb hit (bus_value bus :: published evs) then 1 else 0)%nat.
Proof.
  pose proof (inv_run sp evs _ _ (inv_start bus st sp Hr)) as Hinv. cbn zeta.
  assert (after_hit sp = fun v => after_eval v (a_op a) (a_threshold a)) as Hh.
  { unfold after_hit. by rewrite Ha. }
  rewrite Hh in Hinv. split.
  - destruct Hinv as [_ (l1 & sub & l2 & _ & _ & _ & _ & _ & Hia & Hc & _)].
    rewrite Ha in Hia. destruct (after_tx sub) as [i|], (after_rx _) as [r|]; try done.
    + destruct Hc as [_ (e & _ & [[_ ->]|(_ & -> & _)])]; [|lia]. by destruct (_ || _); lia.
    + destruct (proj2 Hia ltac:(eauto)). done.
  - unfold client_run. rewrite fold_left_app. fold (client_run (client_start bus st sp) evs).
    destruct (inv_drained _ _ _ Hinv) as [_ Hf]. unfold client_run at 1 in Hf.
    rewrite Hf; [done|]. by rewrite Ha.
Qed.

(** *** Concrete runs *)

Definition f64_1 : f64 := 0x3FF0000000000000.
Definition f64_2 : f64 := 0x4000000000000000.
Definition f64_3 : f64 := 0x4008000000000000.

(** A bus with one subscription to both clauses at 2.0, and the value 1.0. *)
Definition demo_spec : SubscriptionSpec :=
  mk_spec (Some (mk_after AGreaterThan f64_2)) (Some (mk_while WGreaterThan f64_2)).

Definition demo_bus : GateBus * slots :=
  let '(bus, st, _, _) := subscribe new_bus [] demo_spec in tick bus st f64_1.

Lemma demo_reach : bus_reach demo_bus.1 demo_bus.2.
Proof. exact (reach_tick _ _ f64_1 (reach_subscribe _ _ demo_spec (reach_new []))). Qed.

Lemma tick_fast_path_witness :
  tick demo_bus.1 demo_bus.2 f64_1 = tick_slow demo_bus.1 demo_bus.2 f64_1 /\
  tick demo_bus.1 demo_bus.2 f64_3 = tick_slow demo_bus.1 demo_bus.2 f64_3.
Proof. split; apply tick_fast_path; exact demo_reach. Defined.

Lemma gate_view_converges_witness :
  c_view (client_run (client_start demo_bus.1 demo_bus.2 demo_spec)
            ([ETick f64_3; ESubscribe demo_spec; ETick f64_1; ERecv; ETick f64_3]
             ++ [ERecv; ERecv])) = Some true.
Proof.
  exact (gate_view_converges demo_bus.1 demo_bus.2 demo_spec (mk_while WGreaterThan f64_2)
    [ETick f64_3; ESubscribe demo_spec; ETick f64_1; ERecv; ETick f64_3] demo_reach eq_refl).
Defined.

Lemma after_fired_once_witness :
  c_fired (client_run (client_start demo_bus.1 demo_bus.2 demo_spec)
            ([ETick f64_3; ETick f64_1; ERecv; ETick f64_3] ++ [ERecv; ERecv])) = 1%nat.
Proof.
  exact (proj2 (after_fired_once demo_bus.1 demo_bus.2 demo_spec (mk_after AGreaterThan f64_2)
    [ETick f64_3; ETick f64_1; ERecv; ETick f64_3] demo_reach eq_refl)).
Defined.

(** ** The slot under interleaving

    [EdgeReceiver::try_recv] is not atomic: it swaps the octet and reads the
    dropped flag after, and the senders of the slot run in between. The sender
    side (the clones of one [GateEdgeSender]) sends until the last clone goes.
    The fields [sent] and [received] record the history. *)
Module Slot.

(** Where the receiver's [try_recv] is: not in it, or past its swap. *)
Inductive RecvPc := Idle | Swapped (raw : Z).

Record State := mk_state {
  s_slot : EdgeSlot;
  s_pc : RecvPc;
  s_drained : bool;
  sent : list GateEdge;
  received : list (GateEdge * bool);
}.

(** The second field of an entry of [received] says that the edge was made up
    by [try_recv] and not taken out of the slot. *)
Definition init : State := mk_state new_slot Idle false [] [].

Definition result_of (raw : Z) (r : option GateEdge) : list (GateEdge * bool) :=
  match r with
  | Some e => [(e, match decode_edge raw with Some _ => false | None => true end)]
  | None => []
  end.

Inductive step : State -> State -> Prop :=
| step_send s e :
    sender_dropped (s_slot s) = false ->
    step s (mk_state (mk_slot (encode_edge e) false) (s_pc s) (s_drained s)
              (sent s ++ [e]) (received s))
| step_drop s :
    step s (mk_state (mk_slot (edge (s_slot s)) true) (s_pc s) (s_drained s)
              (sent s) (received s))
| step_swap s :
    s_pc s = Idle ->
    step s (mk_state (mk_slot EDGE_EMPTY (sender_dropped (s_slot s)))
              (Swapped (edge (s_slot s))) (s_drained s) (sent s) (received s))
| step_load s raw :
    s_pc s = Swapped raw ->
    step s (let (r, d) := try_recv_outcome raw (sender_dropped (s_slot s)) (s_drained s) in
            mk_state (s_slot s) Idle d (sent s) (received s ++ result_of raw r)).

Definition reachable (s : State) : Prop := rtc step init s.

(** The edges taken out of the slot, in order. *)
Definition real (s : State) : list GateEdge := (filter (fun p => p.2 = false) (received s)).*1.
Definition made_up (s : State) : list GateEdge := (filter (fun p => p.2 = true) (received s)).*1.

(** The edges that are on their way: taken by the receiver, then in the slot. *)
Definition in_flight (s : State) : list GateEdge :=
  option_list (match s_pc s with Idle => None | Swapped raw => decode_edge raw end) ++
  option_list (decode_edge (edge (s_slot s))).

(** What holds in every reachable state. [synth] counts the made-up edges. *)
Record inv (s : State) : Prop := {
  inv_sub : sublist (real s ++ in_flight s) (sent s);
  inv_last : list.last (real s ++ in_flight s) = list.last (sent s);
  inv_made_up : made_up s = [] \/ (made_up s = [UpstreamGone] /\ s_drained s = true);
  inv_drained : s_drained s = true -> sender_dropped (s_slot s) = true;
  inv_octet : edge (s_slot s) = EDGE_EMPTY \/ exists e, edge (s_slot s) = encode_edge e;
}.

Lemma result_of_split s raw d r :
  real (mk_state (s_slot s) Idle d (sent s) (received s ++ result_of raw r)) =
    real s ++ match decode_edge raw with Some _ => option_list r | None => [] end /\
  made_up (mk_state (s_slot s) Idle d (sent s) (received s ++ result_of raw r)) =
    made_up s ++ match decode_edge raw with Some _ => [] | None => option_list r end.
Proof.
  unfold real, made_up. cbn. rewrite !list.filter_app, !fmap_app. unfold result_of.
  destruct r, (decode_edge raw); done.
Qed.

Lemma inv_init : inv init.
Proof. by split; [..|left|done|left]. Qed.

Lemma inv_send s e :
  sender_dropped (s_slot s) = false -> inv s ->
  inv (mk_state (mk_slot (encode_edge e) false) (s_pc s) (s_drained s) (sent s ++ [e]) (received s)).
Proof.
  intros Hd [Hs Hl Hm Hdr Ho].
  split; cbn; unfold in_flight in *; cbn; rewrite ?decode_encode_edge; cbn.
  - rewrite app_assoc. apply sublist_app; [|done]. rewrite app_assoc in Hs.
    etransitivity; [|exact Hs]. by apply sublist_inserts_r.
  - by rewrite app_assoc, !last_snoc.
  - done.
  - intros E. specialize (Hdr E). congruence.
  - eauto.
Qed.

Lemma inv_swap s :
  s_pc s = Idle -> inv s ->
  inv (mk_state (mk_slot EDGE_EMPTY (sender_dropped (s_slot s))) (Swapped (edge (s_slot s)))
         (s_drained s) (sent s) (received s)).
Proof.
  intros Hpc [Hs Hl Hm Hdr Ho]. unfold in_flight in *. rewrite Hpc in *. cbn in Hs, Hl.
  split; [..|done|done|by left]; unfold in_flight; cbn [s_pc s_slot edge sent];
    rewrite decode_empty; cbn [option_list from_option]; by rewrite app_nil_r.
Qed.

Lemma inv_load s raw :
  s_pc s = Swapped raw -> inv s ->
  inv (let (r, d) := try_recv_outcome raw (sender_dropped (s_slot s)) (s_drained s) in
       mk_state (s_slot s) Idle d (sent s) (received s ++ result_of raw r)).
Proof.
  intros Hpc [Hs Hl Hm Hdr Ho].
  destruct (try_recv_outcome _ _ _) as [r d] eqn:E.
  destruct (result_of_split s raw d r) as [Hr Hmu].
  unfold in_flight in *. rewrite Hpc in *. unfold try_recv_outcome in E.
  destruct (decode_edge raw) as [e|] eqn:Ed.
  - injection E as <- <-. split; cbn [s_pc s_slot sent s_drained]; rewrite ?Hr, ?Hmu; cbn in *.
    + by rewrite <- app_assoc.
    + by rewrite <- app_assoc.
    + rewrite app_nil_r. destruct Hm as [Hm|[Hm Hd]]; [by left|right].
      rewrite Hd. by destruct (sender_dropped _).
    + by destruct (sender_dropped _) eqn:?; auto.
    + done.
  - split; cbn [s_pc s_slot sent s_drained]; rewrite ?Hr, ?Hmu; rewrite ?app_nil_r; cbn in *; auto.
    + destruct (s_drained s) eqn:Hd; [injection E as <- <-; rewrite app_nil_r; naive_solver|].
      destruct Hm as [->|[? ?]]; [|done].
      destruct (sender_dropped _); injection E as <- <-; auto.
    + destruct (s_drained s) eqn:Hd; [injection E as <- <-; auto|].
      destruct (sender_dropped _); injection E as <- <-; auto.
Qed.

Lemma reachable_inv s : reachable s -> inv s.
Proof.
  unfold reachable. intros Hr. pattern s. revert s Hr. apply rtc_ind_r; [exact inv_init|].
  intros s1 s2 _ Hst Hi. destruct Hst as [s1 e Hd|s1|s1 Hpc|s1 raw Hpc].
  - by apply inv_send.
  - destruct Hi. by split.
  - by apply inv_swap.
  - by apply inv_load.
Qed.

(** C39: the edge channel under every interleaving of the senders and of a
    receiver in the middle of its [try_recv]. The edges taken out of the slot,
    with those on their way, are a subsequence of the edges sent, in order and
    ending with the last one sent, so an edge is lost only to a later one; and
    [UpstreamGone] is made up at most once, only after the senders are gone. *)
Theorem slot_channel s (Hr : reachable s) :
  sublist (real s ++ in_flight s) (sent s) /\
  list.last (real s ++ in_flight s) = list.last (sent s) /\
  (made_up s = [] \/ made_up s = [UpstreamGone] /\ sender_dropped (s_slot s) = true).
Proof.
  destruct (reachable_inv s Hr) as [Hs Hl Hm Hd _]. split; [done|]. split; [done|].
  destruct Hm as [Hm|[Hm Hm']]; auto.
Qed.

(** The made-up [UpstreamGone] can come before an edge that was really sent:
    the swap finds the slot empty, the sender sends and goes, and the flag read
    next says it is gone. The edge is still there for the next call. *)
Lemma made_up_before_real :
  exists s, reachable s /\ received s = [(UpstreamGone, true); (WhileClose, false)].
Proof.
  eexists. split.
  - eapply rtc_l; [by apply step_swap|]. eapply rtc_l; [by apply (step_send _ WhileClose)|].
    eapply rtc_l; [by apply step_drop|]. eapply rtc_l; [by eapply step_load|].
    eapply rtc_l; [by apply step_swap|]. eapply rtc_l; [by eapply step_load|]. apply rtc_refl.
  - reflexivity.
Qed.

Definition demo : State :=
  mk_state (mk_slot EDGE_EMPTY false) Idle false [WhileClose; WhileOpen] [(WhileOpen, false)].

Lemma demo_reachable : reachable demo.
Proof.
  eapply rtc_l; [by apply (step_send _ WhileClose)|].
  eapply rtc_l; [by apply (step_send _ WhileOpen)|].
  eapply rtc_l; [by apply step_swap|]. eapply rtc_l; [by eapply step_load|]. apply rtc_refl.
Qed.

Lemma slot_channel_witness :
  list.last (real demo ++ in_flight demo) = Some WhileOpen.
Proof. exact (proj1 (proj2 (slot_channel demo demo_reachable))). Defined.

End Slot.
