(* ===== verification/GateRegistry.v ===== *)
(** * GateRegistry: cross-POST gate references (sonda-server/src/gate_registry.rs)

    The registry that resolves a [while:] reference to a scenario of another
    request: buses by (scenario name, entry id), the active subscribers of each
    bus, and the downstreams that wait for a bus to register. What lies behind
    an [Arc] is in a [World]: edge slots, buses and statistics, each a store
    indexed by creation; a [Weak] pointer to statistics that has no owner left
    points to a [None]. Where the code iterates over a hash map, the order of
    the keys is an argument, and the theorems hold for every order. *)

From Stdlib Require Import ZArith Lia.
From stdpp Require Import prelude strings list gmap.
From S2P Require Import Prelude F64 Metric GateBus Stats.

(** [UnresolvedBehavior]. *)
Inductive UnresolvedBehavior := UOpen | UClosed | UPending.

Abbreviation BusKey := (string * string)%type.

(** [PendingResolution]; the pointers are indices into the world's stores. *)
Record PendingResolution := mk_pending {
  p_handle_id : string;
  p_stats : nat;
  p_edge_sender : nat;
  p_scenario_name : string;
  p_entry_id : string;
  p_if_unresolved : UnresolvedBehavior;
  p_registered_at : Z;
  p_attempts : Z;
  p_spec : WhileSpec;
}.

(** [SubscriberRef]. *)
Record SubscriberRef := mk_ref {
  r_handle_id : string;
  r_stats : nat;
  r_sender : nat;
  r_spec : WhileSpec;
  r_if_unresolved : UnresolvedBehavior;
  r_registered_at : Z;
  r_attempts : Z;
}.

Definition p_key (p : PendingResolution) : BusKey := (p_scenario_name p, p_entry_id p).

(** [SubscriberRef::from_pending]. *)
Definition from_pending (p : PendingResolution) : BusKey * SubscriberRef :=
  ((p_scenario_name p, p_entry_id p),
   mk_ref (p_handle_id p) (p_stats p) (p_edge_sender p) (p_spec p) (p_if_unresolved p)
     (p_registered_at p) (p_attempts p)).

(** [SubscriberRef::into_pending]. *)
Definition into_pending (r : SubscriberRef) (scenario_name entry_id : string) : PendingResolution :=
  mk_pending (r_handle_id r) (r_stats r) (r_sender r) scenario_name entry_id
    (r_if_unresolved r) (r_registered_at r) (r_attempts r) (r_spec r).

(** [RegistryError]. *)
Inductive RegistryError :=
| DuplicateScenarioName (name : string)
| UpstreamCancelled (scenario_name entry_id : string).

Record World := mk_world {
  w_slots : slots;
  w_buses : list GateBus;
  w_stats : list (option ScenarioStats);
}.

(** [weak.strong_count() != 0]. *)
Definition alive (w : World) (i : nat) : bool :=
  match w_stats w !! i with Some (Some _) => true | _ => false end.

(** Write through [weak.upgrade()] when there is an owner. *)
Definition update_stats (w : World) (i : nat) (f : ScenarioStats -> ScenarioStats) : World :=
  mk_world (w_slots w) (w_buses w) (alter (fmap f) i (w_stats w)).

Definition send_edge (w : World) (tx : nat) (e : GateEdge) : World :=
  mk_world (send (w_slots w) tx e) (w_buses w) (w_stats w).

(** [bus.subscribe_with_while_sender(spec, tx)] on the bus [b]. *)
Definition bus_subscribe (w : World) (b : nat) (sp : WhileSpec) (tx : nat) : World :=
  match w_buses w !! b with
  | Some bus =>
      let '(bus, st, _) := subscribe_with_while_sender bus (w_slots w) sp tx in
      mk_world st (<[b := bus]> (w_buses w)) (w_stats w)
  | None => w
  end.

(** [bus.broadcast_upstream_gone()] on the bus [b]. *)
Definition bus_broadcast (w : World) (b : nat) : World :=
  match w_buses w !! b with
  | Some bus => mk_world (broadcast_upstream_gone bus (w_slots w)) (w_buses w) (w_stats w)
  | None => w
  end.

(** [GateBusRegistry]. *)
Record Registry := mk_registry {
  buses : gmap BusKey nat;
  subscribers : gmap BusKey (list SubscriberRef);
  pending : gmap string PendingResolution;
}.

(** [GateBusRegistry::new]. *)
Definition new_registry : Registry := mk_registry ∅ ∅ ∅.

(** [subs.entry(key).or_default().push(sub)]. *)
Definition push_subscriber (m : gmap BusKey (list SubscriberRef)) (k : BusKey) (r : SubscriberRef)
  : gmap BusKey (list SubscriberRef) :=
  <[k := default [] (m !! k) ++ [r]]> m.

(** [register]. *)
Definition register (reg : Registry) (scenario_name entry_id : string) (bus : nat)
  : result Registry RegistryError :=
  let key := (scenario_name, entry_id) in
  match buses reg !! key with
  | Some _ => Err (DuplicateScenarioName scenario_name)
  | None => Ok (mk_registry (<[key := bus]> (buses reg)) (subscribers reg) (pending reg))
  end.

(** [lookup]. *)
Definition lookup_bus (reg : Registry) (scenario_name entry_id : string) : option nat :=
  buses reg !! (scenario_name, entry_id).

(** [insert_pending]. *)
Definition insert_pending (reg : Registry) (p : PendingResolution) : Registry :=
  mk_registry (buses reg) (subscribers reg) (<[p_handle_id p := p]> (pending reg)).

(** [track_subscriber]. *)
Definition track_subscriber (reg : Registry) (p : PendingResolution) : Registry :=
  let (key, sub) := from_pending p in
  mk_registry (buses reg) (push_subscriber (subscribers reg) key sub) (pending reg).

(** [scenario_name_in_use]. *)
Definition scenario_name_in_use (reg : Registry) (scenario_name : string) : bool :=
  existsb (fun k : BusKey => bool_decide (k.1 = scenario_name)) (map_to_list (buses reg)).*1.

Definition rename_ref (old_id new_id : string) (r : SubscriberRef) : SubscriberRef :=
  if decide (r_handle_id r = old_id)
  then mk_ref new_id (r_stats r) (r_sender r) (r_spec r) (r_if_unresolved r)
         (r_registered_at r) (r_attempts r)
  else r.

Definition set_handle_id (p : PendingResolution) (id : string) : PendingResolution :=
  mk_pending id (p_stats p) (p_edge_sender p) (p_scenario_name p) (p_entry_id p)
    (p_if_unresolved p) (p_registered_at p) (p_attempts p) (p_spec p).

(** [rename_handle]. *)
Definition rename_handle (reg : Registry) (old_id new_id : string) : Registry :=
  if decide (old_id = new_id) then reg
  else
    let pend :=
      match pending reg !! old_id with
      | Some entry => <[new_id := set_handle_id entry new_id]> (delete old_id (pending reg))
      | None => pending reg
      end in
    mk_registry (buses reg) 
      ((fun refs : list SubscriberRef => rename_ref old_id new_id <$> refs) <$> subscribers reg) pend.

(** ** Sweeping *)

Record SweepState := mk_sweep {
  sw_world : World;
  sw_subs : gmap BusKey (list SubscriberRef);
  sw_pending : gmap string PendingResolution;
  sw_promoted : Z;
}.

Definition bump_attempts (p : PendingResolution) : PendingResolution :=
  mk_pending (p_handle_id p) (p_stats p) (p_edge_sender p) (p_scenario_name p) (p_entry_id p)
    (p_if_unresolved p) (p_registered_at p) (u64_sat_add (p_attempts p) 1) (p_spec p).

(** One turn of the loop of [sweep_pending]; [None] is the panic of its
    [expect]s. *)
Definition sweep_one (bs : gmap BusKey nat) (s : SweepState) (handle_id : string)
  : option SweepState :=
  let! entry := sw_pending s !! handle_id in
  if negb (alive (sw_world s) (p_stats entry)) then
    Some (mk_sweep (sw_world s) (sw_subs s) (delete handle_id (sw_pending s)) (sw_promoted s))
  else
    match bs !! (p_scenario_name entry, p_entry_id entry) with
    | None => Some s
    | Some b =>
        let pend := delete handle_id (sw_pending s) in
        let entry := bump_attempts entry in
        let w := update_stats (sw_world s) (p_stats entry) count_resolution_attempt in
        let w := bus_subscribe w b (p_spec entry) (p_edge_sender entry) in
        let (key, sub) := from_pending entry in
        Some (mk_sweep w (push_subscriber (sw_subs s) key sub) pend (sw_promoted s + 1))
    end.

Fixpoint sweep_loop (bs : gmap BusKey nat) (s : SweepState) (keys : list string)
  : option SweepState :=
  match keys with
  | [] => Some s
  | k :: keys => let! s := sweep_one bs s k in sweep_loop bs s keys
  end.

(** [sweep_pending], with [keys] what [pending.keys()] yields. *)
Definition sweep_pending (w : World) (reg : Registry) (keys : list string)
  : option (World * Registry * Z) :=
  let! s := sweep_loop (buses reg) (mk_sweep w (subscribers reg) (pending reg) 0) keys in
  Some (sw_world s, mk_registry (buses reg) (sw_subs s) (sw_pending s), sw_promoted s).

(** ** Unregistering *)

(** The keys [retire_buses] removes, of those [buses.keys()] yields. *)
Definition retired_keys (scenario_name : string) (entry_ids : list string) (keys : list BusKey)
  : list BusKey :=
  filter (fun k => k.1 = scenario_name /\ k.2 ∈ entry_ids) keys.

(** The loop of [retire_buses] that removes the buses. *)
Fixpoint remove_buses (bs : gmap BusKey nat) (keys : list BusKey)
  : gmap BusKey nat * list BusKey * list nat :=
  match keys with
  | [] => (bs, [], [])
  | k :: keys =>
      match bs !! k with
      | Some b =>
          let '(bs, removed, retired) := remove_buses (delete k bs) keys in
          (bs, k :: removed, b :: retired)
      | None => remove_buses bs keys
      end
  end.

(** [retire_buses]. *)
Definition retire_buses (w : World) (reg : Registry) (scenario_name : string)
    (entry_ids : list string) (bus_keys : list BusKey) : World * Registry * list BusKey :=
  let '(bs, removed, retired) :=
    remove_buses (buses reg) (retired_keys scenario_name entry_ids bus_keys) in
  (fold_left bus_broadcast retired w, mk_registry bs (subscribers reg) (pending reg), removed).

(** The inner loop of [requeue_subscribers], over the subscribers of [key]. *)
Fixpoint requeue_refs (w : World) (pend : gmap string PendingResolution) (key : BusKey)
    (refs : list SubscriberRef) : World * gmap string PendingResolution :=
  match refs with
  | [] => (w, pend)
  | sub :: refs =>
      if negb (alive w (r_stats sub)) then requeue_refs w pend key refs
      else
        let w := send_edge w (r_sender sub) UpstreamGone in
        let pend := <[r_handle_id sub := into_pending sub key.1 key.2]> pend in
        requeue_refs w pend key refs
  end.

(** [requeue_subscribers]. *)
Fixpoint requeue_subscribers (w : World) (subs : gmap BusKey (list SubscriberRef))
    (pend : gmap string PendingResolution) (keys : list BusKey)
  : World * gmap BusKey (list SubscriberRef) * gmap string PendingResolution :=
  match keys with
  | [] => (w, subs, pend)
  | key :: keys =>
      match subs !! key with
      | None => requeue_subscribers w subs pend keys
      | Some refs =>
          let (w, pend) := requeue_refs w pend key refs in
          requeue_subscribers w (delete key subs) pend keys
      end
  end.

(** [unregister_entries]; [bus_keys] is what [buses.keys()] yields. *)
Definition unregister_entries (w : World) (reg : Registry) (scenario_name : string)
    (entry_ids : list string) (bus_keys : list BusKey) : World * Registry :=
  let '(w, reg, removed) := retire_buses w reg scenario_name entry_ids bus_keys in
  let '(w, subs, pend) := requeue_subscribers w (subscribers reg) (pending reg) removed in
  (w, mk_registry (buses reg) subs pend).

(** ** Cancelling *)

(** The loop of [cancel_pending_for_upstream] over the matching handles. *)
Fixpoint cancel_loop (now : Z) (w : World) (pend : gmap string PendingResolution)
    (matching : list string) : option (World * gmap string PendingResolution * list RegistryError) :=
  match matching with
  | [] => Some (w, pend, [])
  | h :: matching =>
      let! entry := pend !! h in
      let w := send_edge w (p_edge_sender entry) UpstreamGone in
      let w := update_stats w (p_stats entry) (fun s =>
        if decide (state s = Finished) then s else transition_state s Unresolved now) in
      let! (w, pend, errs) := cancel_loop now w (delete h pend) matching in
      Some (w, pend, UpstreamCancelled (p_scenario_name entry) (p_entry_id entry) :: errs)
  end.

(** [cancel_pending_for_upstream]; [entries] is what [pending.iter()] yields. *)
Definition cancel_pending_for_upstream (now : Z) (w : World) (reg : Registry)
    (scenario_name entry_id : string) (entries : list (string * PendingResolution))
  : option (World * Registry * list RegistryError) :=
  let matching :=
    (filter (fun e : string * PendingResolution =>
       p_scenario_name e.2 = scenario_name /\ p_entry_id e.2 = entry_id) entries).*1 in
  let! (w, pend, errs) := cancel_loop now w (pending reg) matching in
  Some (w, mk_registry (buses reg) (subscribers reg) pend, errs).

(** ** What a sweep does *)

(** The entry is promoted: its downstream is alive and its bus registered. *)
Definition promotes (bs : gmap BusKey nat) (w : World) (p : PendingResolution) : bool :=
  alive w (p_stats p) && bool_decide (is_Some (bs !! p_key p)).

(** What is left of the entry when it was not. *)
Definition keeps (bs : gmap BusKey nat) (w : World) (p : PendingResolution)
  : option PendingResolution :=
  if alive w (p_stats p) then
    match bs !! p_key p with Some _ => None | None => Some p end
  else None.

(** The entries promoted, in the order of the keys. *)
Definition promoted (bs : gmap BusKey nat) (w : World) (pend : gmap string PendingResolution)
    (keys : list string) : list PendingResolution :=
  omap (fun h => match pend !! h with
                 | Some p => if promotes bs w p then Some (bump_attempts p) else None
                 | None => None
                 end) keys.

(** What the promotion of one entry does to the world. *)
Definition promote_world (bs : gmap BusKey nat) (w : World) (p : PendingResolution) : World :=
  match bs !! p_key p with
  | Some b =>
      bus_subscribe (update_stats w (p_stats p) count_resolution_attempt) b
        (p_spec p) (p_edge_sender p)
  | None => w
  end.

Definition subs_of (m : gmap BusKey (list SubscriberRef)) (k : BusKey) : list SubscriberRef :=
  default [] (m !! k).

Lemma alive_update w i f j : alive (update_stats w i f) j = alive w j.
Proof.
  unfold alive, update_stats. cbn. rewrite list_lookup_alter.
  destruct (decide (i = j)) as [->|]; [|done]. by destruct (w_stats w !! j) as [[]|].
Qed.

Lemma alive_bus_subscribe w b sp tx j : alive (bus_subscribe w b sp tx) j = alive w j.
Proof.
  unfold bus_subscribe. destruct (w_buses w !! b); [|done].
  by destruct (subscribe_with_while_sender _ _ _ _) as [[? ?] ?].
Qed.

Lemma alive_promote bs w p j : alive (promote_world bs w p) j = alive w j.
Proof.
  unfold promote_world. destruct (bs !! p_key p); [|done].
  by rewrite alive_bus_subscribe, alive_update.
Qed.

Lemma promoted_ext bs w w' pend pend' keys :
  (forall j, alive w' j = alive w j) -> (forall h, h ∈ keys -> pend' !! h = pend !! h) ->
  promoted bs w' pend' keys = promoted bs w pend keys.
Proof.
  intros Ha Hp. unfold promoted. induction keys as [|h keys IH]; [done|].
  cbn. rewrite (Hp h) by set_solver. rewrite IH by set_solver.
  unfold promotes. destruct (pend !! h); [|done]. by rewrite Ha.
Qed.

Lemma subs_of_push m k r k' :
  subs_of (push_subscriber m k r) k' = subs_of m k' ++ (if decide (k = k') then [r] else []).
Proof.
  unfold subs_of, push_subscriber. destruct (decide (k = k')) as [->|].
  - by rewrite lookup_insert_eq.
  - by rewrite lookup_insert_ne, app_nil_r.
Qed.

(** The turn of one entry, on each of its three branches. *)
Lemma sweep_one_spec bs s h p :
  sw_pending s !! h = Some p ->
  exists s', sweep_one bs s h = Some s' /\
    sw_pending s' !! h = keeps bs (sw_world s) p /\
    (forall h', h <> h' -> sw_pending s' !! h' = sw_pending s !! h') /\
    (let l := promoted bs (sw_world s) (sw_pending s) [h] in
     sw_world s' = fold_left (promote_world bs) l (sw_world s) /\
     sw_promoted s' = sw_promoted s + Z.of_nat (length l) /\
     forall k, subs_of (sw_subs s') k =
       subs_of (sw_subs s) k ++
       ((from_pending <$> filter (fun p => p_key p = k) l)).*2).
Proof.
  intros Hp. unfold sweep_one, promoted, keeps, promotes. cbn. rewrite Hp.
  destruct (alive (sw_world s) (p_stats p)) eqn:Ha; cbn.
  2: { eexists. split; [done|]. cbn. rewrite lookup_delete_eq. split; [done|].
       split; [intros; by apply lookup_delete_ne|]. split; [done|]. split; [lia|].
       intros k. by rewrite app_nil_r. }
  change (p_scenario_name p, p_entry_id p) with (p_key p).
  destruct (bs !! p_key p) as [b|] eqn:Eb; cbn.
  - eexists. split; [done|]. cbn. rewrite lookup_delete_eq. split; [done|].
    split; [intros; by apply lookup_delete_ne|].
    split; [unfold promote_world; change (p_key (bump_attempts p)) with (p_key p); by rewrite Eb|].
    split; [lia|].
    intros k. change (p_key (bump_attempts p)) with (p_key p).
    etransitivity; [apply (subs_of_push (sw_subs s) (p_key p))|].
    by destruct (decide (p_key p = k)).
  - eexists. split; [done|]. split; [done|]. split; [done|]. split; [done|]. split; [lia|].
    intros k. by rewrite app_nil_r.
Qed.

Lemma promoted_app bs w pend k1 k2 :
  promoted bs w pend (k1 ++ k2) = promoted bs w pend k1 ++ promoted bs w pend k2.
Proof. apply omap_app. Qed.

Lemma alive_fold bs l w j : alive (fold_left (promote_world bs) l w) j = alive w j.
Proof.
  induction l as [|p l IH] in w |- *; [done|]. cbn. by rewrite IH, alive_promote.
Qed.

(** The whole loop: no [expect] fails, and what it leaves is given entry by
    entry. *)
Lemma sweep_loop_spec bs keys s :
  NoDup keys -> (forall h, h ∈ keys -> is_Some (sw_pending s !! h)) ->
  exists s', sweep_loop bs s keys = Some s' /\
    (forall h, sw_pending s' !! h =
       if decide (h ∈ keys) then sw_pending s !! h ≫= keeps bs (sw_world s)
       else sw_pending s !! h) /\
    (let l := promoted bs (sw_world s) (sw_pending s) keys in
     sw_world s' = fold_left (promote_world bs) l (sw_world s) /\
     sw_promoted s' = sw_promoted s + Z.of_nat (length l) /\
     forall k, subs_of (sw_subs s') k =
       subs_of (sw_subs s) k ++ (from_pending <$> filter (fun p => p_key p = k) l).*2).
Proof.
  induction keys as [|h keys IH] in s |- *; intros Hnd Hk.
  { exists s. split; [done|]. split; [done|]. split; [done|]. split; [cbn; lia|].
    intros k. by rewrite app_nil_r. }
  apply NoDup_cons in Hnd as [Hh Hnd].
  destruct (Hk h ltac:(set_solver)) as [p Hp].
  destruct (sweep_one_spec bs s h p Hp) as (s1 & E1 & Hh1 & Ho1 & Hw1 & Hc1 & Hs1).
  assert (Hne : forall h', h' ∈ keys -> h <> h') by (intros h' H' ->; done).
  destruct (IH s1 Hnd) as (s2 & E2 & Hp2 & Hw2 & Hc2 & Hs2).
  { intros h' H'. rewrite Ho1 by auto. apply Hk. by right. }
  assert (Ha : forall j, alive (sw_world s1) j = alive (sw_world s) j).
  { intros j. by rewrite Hw1, alive_fold. }
  assert (El : promoted bs (sw_world s1) (sw_pending s1) keys =
               promoted bs (sw_world s) (sw_pending s) keys).
  { apply promoted_ext; [done|]. intros h' H'. by rewrite Ho1 by auto. }
  rewrite El in Hw2, Hc2, Hs2.
  exists s2. split; [cbn; by rewrite E1|]. split; [|split; [|split]].
  - intros h'. rewrite Hp2. destruct (decide (h' ∈ keys)) as [H'|H'].
    + rewrite decide_True by set_solver. rewrite Ho1 by auto.
      destruct (sw_pending s !! h') as [p'|]; [|done]. cbn. unfold keeps. by rewrite Ha.
    + destruct (decide (h = h')) as [<-|Hn].
      * rewrite decide_True by set_solver. by rewrite Hh1, Hp.
      * rewrite decide_False by set_solver. by apply Ho1.
  - rewrite Hw2, Hw1, <- fold_left_app, <- promoted_app. done.
  - change (h :: keys) with ([h] ++ keys). rewrite promoted_app, length_app. lia.
  - intros k. rewrite Hs2, Hs1, <- app_assoc. f_equal.
    change (h :: keys) with ([h] ++ keys). rewrite promoted_app.
    by rewrite list.filter_app, !fmap_app.
Qed.

(** An order in which the iterator of a map can yield its keys. *)
Definition keys_of {K V : Type} `{Countable K} (m : gmap K V) (keys : list K) : Prop :=
  keys ≡ₚ (map_to_list m).*1.

Lemma keys_of_spec {K V} `{Countable K} (m : gmap K V) keys :
  keys_of m keys -> NoDup keys /\ forall k, k ∈ keys <-> is_Some (m !! k).
Proof.
  intros Hk. split; [rewrite Hk; apply NoDup_fst_map_to_list|].
  intros k. rewrite Hk, list_elem_of_fmap. split.
  - intros ([k' v] & -> & H'). exists v. by apply elem_of_map_to_list.
  - intros [v H']. exists (k, v). split; [done|]. by apply elem_of_map_to_list.
Qed.

Lemma size_filter {K V} `{Countable K} (P : K * V -> Prop) `{!forall x, Decision (P x)}
    (m : gmap K V) :
  size (filter P m) = length (filter P (map_to_list m)).
Proof.
  rewrite <- length_map_to_list. apply Permutation_length, NoDup_Permutation.
  - apply NoDup_map_to_list.
  - apply NoDup_filter, NoDup_map_to_list.
  - intros [k v]. rewrite list_elem_of_filter, !elem_of_map_to_list, map_lookup_filter_Some.
    by rewrite (comm and).
Qed.

Definition is_promoted (bs : gmap BusKey nat) (w : World) (e : string * PendingResolution) : Prop :=
  promotes bs w e.2 = true.

#[export] Instance is_promoted_dec bs w e : Decision (is_promoted bs w e).
Proof. unfold is_promoted. apply _. Defined.

Lemma promoted_length bs w pend keys :
  keys_of pend keys ->
  length (promoted bs w pend keys) = size (filter (is_promoted bs w) pend).
Proof.
  intros Hk. unfold promoted. rewrite Hk, size_filter.
  assert (Hl : forall e, e ∈ map_to_list pend -> pend !! e.1 = Some e.2).
  { intros [h p]. apply elem_of_map_to_list. }
  induction (map_to_list pend) as [|[h p] l IH]; [done|]. cbn.
  assert (pend !! h = Some p) as -> by (apply (Hl (h, p)); set_solver).
  specialize (IH ltac:(set_solver)). unfold filter in *. cbn. destruct (decide _) as [E|E];
    unfold is_promoted in E; cbn in E; [rewrite E|rewrite (not_true_is_false _ E)];
    cbn; by rewrite IH.
Qed.

Lemma elem_promoted bs w pend keys h p :
  keys_of pend keys -> pend !! h = Some p -> promotes bs w p = true ->
  bump_attempts p ∈ promoted bs w pend keys.
Proof.
  intros Hk Hp Hpr. unfold promoted. apply list_elem_of_omap. exists h. split.
  - apply (keys_of_spec _ _ Hk). eauto.
  - by rewrite Hp, Hpr.
Qed.

(** What [sweep_pending] returns. *)
Lemma sweep_pending_spec w reg keys :
  keys_of (pending reg) keys ->
  exists reg', sweep_pending w reg keys =
      Some (fold_left (promote_world (buses reg)) (promoted (buses reg) w (pending reg) keys) w,
            reg', Z.of_nat (length (promoted (buses reg) w (pending reg) keys))) /\
    buses reg' = buses reg /\
    (forall h, pending reg' !! h = pending reg !! h ≫= keeps (buses reg) w) /\
    forall k, subs_of (subscribers reg') k = subs_of (subscribers reg) k ++
      (from_pending <$> filter (fun p => p_key p = k)
         (promoted (buses reg) w (pending reg) keys)).*2.
Proof.
  intros Hk. destruct (keys_of_spec _ _ Hk) as [Hnd Hdom].
  destruct (sweep_loop_spec (buses reg) keys (mk_sweep w (subscribers reg) (pending reg) 0) Hnd)
    as (s' & E & Hp & Hw & Hc & Hs); [intros h Hh; by apply Hdom|].
  unfold sweep_pending. rewrite E. cbn in *. eexists. split; [by rewrite Hw, Hc|].
  split; [done|]. split; [|done].
  intros h. cbn. rewrite Hp. destruct (decide (h ∈ keys)) as [|Hn]; [done|].
  destruct (pending reg !! h) eqn:Eh; [|done]. exfalso. apply Hn, Hdom. eauto.
Qed.

Lemma sweep_tracks bs w pend keys h p :
  keys_of pend keys -> pend !! h = Some p -> promotes bs w p = true ->
  (from_pending (bump_attempts p)).2 ∈
    (from_pending <$> filter (fun q => p_key q = p_key p) (promoted bs w pend keys)).*2.
Proof.
  intros Hk Hh Hpr. apply list_elem_of_fmap. exists (from_pending (bump_attempts p)).
  split; [done|]. apply list_elem_of_fmap_2, list_elem_of_filter. split; [done|].
  by eapply elem_promoted.
Qed.

(** C17: a sweep resolves exactly what it can, in whatever order the hash map
    yields the handles. No [expect] fails; an entry whose downstream is gone is
    dropped, one whose upstream is not registered stays as it is, and every
    other one leaves the pending map and is tracked under its bus with one more
    attempt, after the subscribers that were there; the count returned is the
    number of those. *)
Theorem sweep_pending_correct w reg keys (Hk : keys_of (pending reg) keys) :
  exists w' reg' n,
    sweep_pending w reg keys = Some (w', reg', n) /\
    buses reg' = buses reg /\
    (forall h, pending reg' !! h = pending reg !! h ≫= keeps (buses reg) w) /\
    n = Z.of_nat (size (filter (is_promoted (buses reg) w) (pending reg))) /\
    (forall h p, pending reg !! h = Some p -> promotes (buses reg) w p = true ->
       (from_pending (bump_attempts p)).2 ∈ subs_of (subscribers reg') (p_key p)) /\
    forall k, subs_of (subscribers reg) k `prefix_of` subs_of (subscribers reg') k.
Proof.
  destruct (sweep_pending_spec w reg keys Hk) as (reg' & E & Hb & Hp & Hs).
  eexists _, _, _. split; [exact E|]. split; [done|]. split; [done|]. split; [|split].
  - by rewrite (promoted_length _ _ _ _ Hk).
  - intros h p Hh Hpr. rewrite Hs. apply elem_of_app. right. by eapply sweep_tracks.
  - intros k. rewrite Hs. by apply prefix_app_r.
Qed.

(** *** The edges a sweep sends *)

(** A subscription adds itself to its bus, and no bus loses one or its value. *)
Definition bus_grows (bus bus' : GateBus) : Prop :=
  has_value bus' = has_value bus /\ GateBus.last_value bus' = GateBus.last_value bus /\
  subs bus `prefix_of` subs bus'.

Lemma subscribe_sender_shape bus st sp tx :
  let '(bus', st', _) := subscribe_with_while_sender bus st sp tx in
  bus_grows bus bus' /\
  (exists sub, sub ∈ subs bus' /\ while_tx sub = Some tx /\ while_ (spec sub) = Some sp) /\
  st' = if has_value bus
        then send st tx (open_edge (strict_eval (GateBus.last_value bus) (w_op sp) (w_threshold sp)))
        else st.
Proof.
  unfold subscribe_with_while_sender. destruct (has_value bus) eqn:Hv; cbn.
  all: split; [split; [done|split; [done|by apply prefix_app_r]]|].
  all: split; [|done]; eexists; split; [apply elem_of_app; right; by apply list_elem_of_singleton|done].
Qed.

#[export] Instance bus_grows_refl : Reflexive bus_grows.
Proof. done. Qed.

#[export] Instance bus_grows_trans : Transitive bus_grows.
Proof.
  intros a b c (H1 & H2 & H3) (H4 & H5 & H6). split; [congruence|]. split; [congruence|].
  by etransitivity.
Qed.

Lemma promote_bus bs w p b bus :
  w_buses w !! b = Some bus ->
  exists bus', w_buses (promote_world bs w p) !! b = Some bus' /\ bus_grows bus bus'.
Proof.
  intros Hb. unfold promote_world. destruct (bs !! p_key p) as [b0|]; [|by exists bus].
  unfold bus_subscribe. cbn. destruct (w_buses w !! b0) as [bus0|] eqn:E0; [|by exists bus].
  pose proof (subscribe_sender_shape bus0 (w_slots w) (p_spec p) (p_edge_sender p)) as H.
  destruct (subscribe_with_while_sender _ _ _ _) as [[bus1 st1] i1]. destruct H as (Hg & _ & _).
  cbn. destruct (decide (b0 = b)) as [->|Hn].
  - rewrite Hb in E0. injection E0 as <-. exists bus1. split; [|done].
    apply list_lookup_insert_eq. by eapply lookup_lt_Some.
  - exists bus. split; [by rewrite list_lookup_insert_ne|done].
Qed.

Lemma promote_fold_bus bs l w b bus :
  w_buses w !! b = Some bus ->
  exists bus', w_buses (fold_left (promote_world bs) l w) !! b = Some bus' /\ bus_grows bus bus'.
Proof.
  induction l as [|p l IH] in w, bus |- *; intros Hb; [by exists bus|]. cbn.
  destruct (promote_bus bs w p b bus Hb) as (bus1 & H1 & G1).
  destruct (IH _ _ H1) as (bus2 & H2 & G2). exists bus2. split; [done|]. by etransitivity.
Qed.

Lemma promote_slot_other bs w p i :
  p_edge_sender p <> i -> w_slots (promote_world bs w p) !! i = w_slots w !! i.
Proof.
  intros Hi. unfold promote_world. destruct (bs !! p_key p) as [b0|]; [|done].
  unfold bus_subscribe. cbn. destruct (w_buses w !! b0) as [bus0|]; [|done].
  pose proof (subscribe_sender_shape bus0 (w_slots w) (p_spec p) (p_edge_sender p)) as H.
  destruct (subscribe_with_while_sender _ _ _ _) as [[bus1 st1] i1]. destruct H as (_ & _ & ->).
  cbn. destruct (has_value bus0); [by apply send_other|done].
Qed.

Lemma promote_fold_slot_other bs l w i :
  Forall (fun p => p_edge_sender p <> i) l ->
  w_slots (fold_left (promote_world bs) l w) !! i = w_slots w !! i.
Proof.
  induction l as [|p l IH] in w |- *; intros H; [done|]. apply Forall_cons_1 in H as [Hp H].
  cbn. rewrite IH by done. by apply promote_slot_other.
Qed.

(** The edge a subscriber with clause [sp] gets from a bus. *)
Definition gate_edge (bus : GateBus) (sp : WhileSpec) : GateEdge :=
  open_edge (strict_eval (GateBus.last_value bus) (w_op sp) (w_threshold sp)).

Lemma promote_slot_own bs w p b bus s :
  bs !! p_key p = Some b -> w_buses w !! b = Some bus ->
  w_slots w !! p_edge_sender p = Some s ->
  exists bus',
    w_buses (promote_world bs w p) !! b = Some bus' /\
    (exists sub, sub ∈ subs bus' /\ while_tx sub = Some (p_edge_sender p) /\
       while_ (spec sub) = Some (p_spec p)) /\
    w_slots (promote_world bs w p) !! p_edge_sender p =
      Some (if has_value bus then mk_slot (encode_edge (gate_edge bus (p_spec p))) (sender_dropped s)
            else s).
Proof.
  intros Hk Hb Hs. unfold promote_world. rewrite Hk. unfold bus_subscribe. cbn. rewrite Hb.
  pose proof (subscribe_sender_shape bus (w_slots w) (p_spec p) (p_edge_sender p)) as H.
  destruct (subscribe_with_while_sender _ _ _ _) as [[bus1 st1] i1]. destruct H as (_ & Hsub & ->).
  cbn. exists bus1. split; [apply list_lookup_insert_eq; by eapply lookup_lt_Some|].
  split; [done|]. destruct (has_value bus); [by apply send_same|done].
Qed.

(** The entries promoted for other handles do not send into the slot of [p]. *)
Lemma promoted_senders bs w pend keys i :
  (forall h p, h ∈ keys -> pend !! h = Some p -> p_edge_sender p <> i) ->
  Forall (fun p => p_edge_sender p <> i) (promoted bs w pend keys).
Proof.
  intros Hi. apply list.Forall_forall. intros q Hq. apply list_elem_of_omap in Hq as (h & Hh & Hq).
  destruct (pend !! h) as [p|] eqn:Ep; [|done].
  destruct (promotes bs w p); [|done]. injection Hq as <-. exact (Hi h p Hh Ep).
Qed.

(** What a promoted entry gets: a subscription of its bus to its sender, and in
    its slot the edge for the value the bus has. *)
Lemma sweep_delivers w reg keys h p b bus s :
  keys_of (pending reg) keys -> pending reg !! h = Some p -> alive w (p_stats p) = true ->
  buses reg !! p_key p = Some b -> w_buses w !! b = Some bus ->
  w_slots w !! p_edge_sender p = Some s ->
  (forall h' p', pending reg !! h' = Some p' -> p_edge_sender p' = p_edge_sender p -> h' = h) ->
  let w' := fold_left (promote_world (buses reg)) (promoted (buses reg) w (pending reg) keys) w in
  exists bus',
    w_buses w' !! b = Some bus' /\
    (exists sub, sub ∈ subs bus' /\ while_tx sub = Some (p_edge_sender p) /\
       while_ (spec sub) = Some (p_spec p)) /\
    w_slots w' !! p_edge_sender p =
      Some (if has_value bus then mk_slot (encode_edge (gate_edge bus (p_spec p))) (sender_dropped s)
            else s).
Proof.
  intros Hk Hh Ha Hb Hbus Hs Hu. destruct (keys_of_spec _ _ Hk) as [Hnd Hdom].
  assert (Hpr : promotes (buses reg) w p = true).
  { unfold promotes. rewrite Ha, Hb. by rewrite bool_decide_eq_true_2. }
  assert (h ∈ keys) as Hin by (apply Hdom; eauto).
  apply list_elem_of_split in Hin as (k1 & k2 & ->).
  assert (Hoth : forall k, h ∉ k ->
    Forall (fun q => p_edge_sender q <> p_edge_sender p) (promoted (buses reg) w (pending reg) k)).
  { intros k Hn. apply promoted_senders. intros h' p' Hh' Hp' E. by rewrite (Hu h' p' Hp' E) in Hh'. }
  apply NoDup_app in Hnd as (_ & Hd & Hnd). apply NoDup_cons in Hnd as [Hn2 _].
  assert (Hn1 : h ∉ k1) by (intros ?; by eapply Hd, list_elem_of_here).
  cbn zeta. change (h :: k2) with ([h] ++ k2). rewrite !promoted_app, !fold_left_app.
  assert (promoted (buses reg) w (pending reg) [h] = [bump_attempts p]) as ->.
  { unfold promoted. cbn. by rewrite Hh, Hpr. }
  destruct (promote_fold_bus (buses reg) (promoted (buses reg) w (pending reg) k1) w b bus Hbus)
    as (bus1 & Hb1 & Hv1 & Hl1 & _).
  set (w1 := fold_left (promote_world (buses reg)) (promoted _ _ _ k1) w) in *.
  assert (w_slots w1 !! p_edge_sender p = Some s) as Hs1.
  { unfold w1. rewrite promote_fold_slot_other by auto. done. }
  destruct (promote_slot_own (buses reg) w1 (bump_attempts p) b bus1 s)
    as (bus2 & Hb2 & (sub & Hsub & Htx) & Hs2); [done..|].
  destruct (promote_fold_bus (buses reg) (promoted (buses reg) w (pending reg) k2) _ b bus2 Hb2)
    as (bus3 & Hb3 & _ & _ & Hpre).
  exists bus3. cbn [fold_left]. split; [exact Hb3|]. split.
  - exists sub. split; [|done]. destruct Hpre as [l ->]. apply elem_of_app. by left.
  - rewrite promote_fold_slot_other by auto. cbn in Hs2. unfold gate_edge in *.
    by rewrite Hs2, Hv1, Hl1.
Qed.

(** ** What unregistering does *)

Lemma remove_buses_spec bs keys :
  NoDup keys -> (forall k, k ∈ keys -> is_Some (bs !! k)) ->
  let '(bs', removed, _) := remove_buses bs keys in
  removed = keys /\ forall k, bs' !! k = if decide (k ∈ keys) then None else bs !! k.
Proof.
  induction keys as [|k keys IH] in bs |- *; intros Hnd Hd; [by split|].
  apply NoDup_cons in Hnd as [Hk Hnd]. destruct (Hd k ltac:(set_solver)) as [b Hb].
  cbn. rewrite Hb.
  assert (Hd' : forall k', k' ∈ keys -> is_Some (delete k bs !! k')).
  { intros k' H'. rewrite lookup_delete_ne by (intros ->; done). apply Hd. by right. }
  specialize (IH (delete k bs) Hnd Hd'). destruct (remove_buses (delete k bs) keys) as [[bs' r] ?].
  destruct IH as [-> IH]. split; [done|]. intros k'. rewrite IH.
  destruct (decide (k' ∈ keys)) as [H'|H']; [by rewrite decide_True by set_solver|].
  destruct (decide (k = k')) as [<-|Hn].
  - rewrite decide_True by set_solver. apply lookup_delete_eq.
  - rewrite decide_False by set_solver. by apply lookup_delete_ne.
Qed.

(** A subscriber with the key it is tracked under, and its turn in the loops of
    [requeue_subscribers]. *)
Abbreviation TrackedRef := (BusKey * SubscriberRef)%type.

Definition ref_pending (kr : TrackedRef) : PendingResolution :=
  into_pending kr.2 kr.1.1 kr.1.2.

Definition requeue_one (acc : World * gmap string PendingResolution) (kr : TrackedRef)
  : World * gmap string PendingResolution :=
  if negb (alive acc.1 (r_stats kr.2)) then acc
  else (send_edge acc.1 (r_sender kr.2) UpstreamGone,
        <[r_handle_id kr.2 := ref_pending kr]> acc.2).

(** The subscribers under [keys], in the order of the loops. *)
Definition tracked (m : gmap BusKey (list SubscriberRef)) (keys : list BusKey) : list TrackedRef :=
  keys ≫= fun k => (fun r => (k, r)) <$> subs_of m k.

Lemma requeue_refs_fold w pend key refs :
  requeue_refs w pend key refs = fold_left requeue_one ((fun r => (key, r)) <$> refs) (w, pend).
Proof.
  induction refs as [|r refs IH] in w, pend |- *; [done|]. cbn. unfold requeue_one at 2. cbn.
  destruct (alive w (r_stats r)); cbn; apply IH.
Qed.

Lemma requeue_subscribers_fold w m pend keys :
  NoDup keys ->
  requeue_subscribers w m pend keys =
  let (w', pend') := fold_left requeue_one (tracked m keys) (w, pend) in
  (w', foldr delete m keys, pend').
Proof.
  intros Hnd. unfold tracked.
  assert (forall m', (forall k, k ∈ keys -> m' !! k = m !! k) ->
    requeue_subscribers w m' pend keys =
    let (w', pend') := fold_left requeue_one (keys ≫= fun k => (fun r => (k, r)) <$> subs_of m k)
                         (w, pend) in
    (w', foldl (flip delete) m' keys, pend')) as H.
  { induction keys as [|k keys IH] in w, pend, Hnd |- *; intros m' Hm; [done|].
    apply NoDup_cons in Hnd as [Hk Hnd]. cbn. rewrite (Hm k) by set_solver.
    rewrite fold_left_app. destruct (m !! k) as [refs|] eqn:Ek.
    - assert (subs_of m k = refs) as -> by (unfold subs_of; by rewrite Ek).
      rewrite requeue_refs_fold. destruct (fold_left requeue_one _ (w, pend)) as [w1 p1].
      rewrite IH; [done|done|]. intros k' H'. rewrite lookup_delete_ne by (intros ->; done).
      apply Hm. by right.
    - assert (subs_of m k = []) as -> by (unfold subs_of; by rewrite Ek). cbn.
      rewrite IH; [|done|intros k' H'; apply Hm; by right].
      rewrite delete_id by (rewrite (Hm k) by set_solver; done). done. }
  rewrite H by done. destruct (fold_left _ _ _). f_equal. f_equal. clear.
  induction keys as [|k keys IH] in m |- *; [done|]. cbn. rewrite IH.
  clear IH. induction keys as [|k' keys IH]; [done|]. cbn. by rewrite IH, delete_delete.
Qed.

Lemma foldr_delete_lookup {V} (m : gmap BusKey V) keys k :
  foldr delete m keys !! k = if decide (k ∈ keys) then None else m !! k.
Proof.
  induction keys as [|k' keys IH]; [done|]. cbn.
  destruct (decide (k' = k)) as [->|Hn].
  - rewrite lookup_delete_eq. by rewrite decide_True by set_solver.
  - rewrite lookup_delete_ne, IH by done.
    destruct (decide (k ∈ keys)); [rewrite decide_True by set_solver|rewrite decide_False by set_solver];
      done.
Qed.

Lemma alive_fold_requeue l acc j : alive (fold_left requeue_one l acc).1 j = alive acc.1 j.
Proof.
  induction l as [|kr l IH] in acc |- *; [done|]. cbn. rewrite IH. unfold requeue_one.
  by destruct (alive acc.1 (r_stats kr.2)).
Qed.

(** The subscriber is live and has the handle [h]. *)
Definition waits_as (w : World) (h : string) (kr : TrackedRef) : Prop :=
  alive w (r_stats kr.2) = true /\ r_handle_id kr.2 = h.

#[export] Instance waits_as_dec w h kr : Decision (waits_as w h kr).
Proof. unfold waits_as. apply _. Defined.

(** The entry a handle gets is that of its last live subscriber. *)
Definition requeued (w : World) (l : list TrackedRef) (h : string) : option PendingResolution :=
  ref_pending <$> list.last (filter (waits_as w h) l).

Lemma requeue_fold_pending l w pend h :
  (fold_left requeue_one l (w, pend)).2 !! h =
  match requeued w l h with Some p => Some p | None => pend !! h end.
Proof.
  induction l as [|kr l IH] using rev_ind; [done|].
  rewrite fold_left_app. cbn [fold_left]. unfold requeue_one at 1.
  rewrite alive_fold_requeue. unfold requeued in *. rewrite list.filter_app. cbn [fst].
  destruct (alive w (r_stats kr.2)) eqn:Ea; cbn [negb snd].
  - destruct (decide (r_handle_id kr.2 = h)) as [Eh|Eh].
    + rewrite (filter_cons_True (waits_as w h) kr []) by done. rewrite filter_nil, last_snoc.
      rewrite Eh. by rewrite lookup_insert_eq.
    + rewrite (filter_cons_False (waits_as w h) kr []) by (by intros [_ ?]).
      rewrite filter_nil, app_nil_r. by rewrite lookup_insert_ne.
  - rewrite (filter_cons_False (waits_as w h) kr []) by (intros [? _]; congruence).
    by rewrite filter_nil, app_nil_r.
Qed.

(** Slots in which every write was [UpstreamGone]. *)
Definition gone_slot (s : EdgeSlot) : EdgeSlot := mk_slot EDGE_UPSTREAM_GONE (sender_dropped s).

Definition only_gone (st st' : slots) : Prop :=
  forall i, st' !! i = st !! i \/ st' !! i = gone_slot <$> st !! i.

#[export] Instance only_gone_refl : Reflexive only_gone.
Proof. intros st i. by left. Qed.

#[export] Instance only_gone_trans : Transitive only_gone.
Proof.
  intros a b c H1 H2 i. destruct (H2 i) as [-> | ->]; [done|].
  destruct (H1 i) as [-> | ->]; [by right|]. right. by destruct (a !! i).
Qed.

Lemma send_gone_lookup st tx i :
  send st tx UpstreamGone !! i = if decide (tx = i) then gone_slot <$> st !! i else st !! i.
Proof.
  unfold send. rewrite list_lookup_alter. by destruct (decide (tx = i)) as [->|].
Qed.

Lemma send_only_gone st tx : only_gone st (send st tx UpstreamGone).
Proof. intros i. rewrite send_gone_lookup. destruct (decide _); auto. Qed.

Lemma broadcast_only_gone bus st : only_gone st (broadcast_upstream_gone bus st).
Proof.
  unfold broadcast_upstream_gone. induction (subs bus) as [|sub l IH] in st |- *; [done|].
  cbn. etransitivity; [|apply IH]. unfold send_opt.
  destruct (while_tx sub), (after_tx sub); try done; try apply send_only_gone.
  etransitivity; apply send_only_gone.
Qed.

Lemma bus_broadcast_fold l w :
  only_gone (w_slots w) (w_slots (fold_left bus_broadcast l w)) /\
  w_buses (fold_left bus_broadcast l w) = w_buses w /\
  w_stats (fold_left bus_broadcast l w) = w_stats w.
Proof.
  induction l as [|b l IH] in w |- *; [done|]. cbn. destruct (IH (bus_broadcast w b)) as (H1 & H2 & H3).
  unfold bus_broadcast in *. destruct (w_buses w !! b) as [bus|]; [|done]. cbn in *.
  split; [|done]. etransitivity; [apply broadcast_only_gone|done].
Qed.

Lemma requeue_fold_slots l w pend :
  only_gone (w_slots w) (w_slots (fold_left requeue_one l (w, pend)).1) /\
  w_buses (fold_left requeue_one l (w, pend)).1 = w_buses w /\
  w_stats (fold_left requeue_one l (w, pend)).1 = w_stats w /\
  forall kr, kr ∈ l -> alive w (r_stats kr.2) = true ->
    w_slots (fold_left requeue_one l (w, pend)).1 !! r_sender kr.2 =
    gone_slot <$> w_slots w !! r_sender kr.2.
Proof.
  induction l as [|kr l IH] using rev_ind.
  { split; [done|]. split; [done|]. split; [done|]. set_solver. }
  destruct IH as (H1 & H2 & H3 & H4). rewrite fold_left_app. cbn [fold_left].
  unfold requeue_one at 1 3 5 7. rewrite alive_fold_requeue. cbn [fst].
  set (acc := fold_left requeue_one l (w, pend)) in *.
  destruct (alive w (r_stats kr.2)) eqn:Ea; cbn [negb].
  2: { split_and!; try done. intros kr' [H'|H'%list_elem_of_singleton]%elem_of_app Ha'; [by apply H4|].
       subst. congruence. }
  cbn [fst send_edge w_slots w_buses w_stats].
  split; [etransitivity; [exact H1|apply send_only_gone]|]. split_and!; try done.
  intros kr' Hin Ha'. rewrite send_gone_lookup. apply elem_of_app in Hin as [H'|H'%list_elem_of_singleton].
  - rewrite (H4 kr' H' Ha'). destruct (decide _); [|done]. by destruct (w_slots w !! _).
  - subst kr'. rewrite decide_True by done.
    destruct (H1 (r_sender kr.2)) as [-> | ->]; [done|]. by destruct (w_slots w !! _).
Qed.

(** The bus under [k] is one that [unregister_entries] removes. *)
Definition is_retired (reg : Registry) (scenario_name : string) (entry_ids : list string)
    (k : BusKey) : Prop :=
  (k.1 = scenario_name /\ k.2 ∈ entry_ids) /\ is_Some (buses reg !! k).

Lemma elem_retired_keys reg name ids keys k :
  keys_of (buses reg) keys -> k ∈ retired_keys name ids keys <-> is_retired reg name ids k.
Proof.
  intros Hk. unfold retired_keys, is_retired. rewrite list_elem_of_filter.
  by rewrite (proj2 (keys_of_spec _ _ Hk)).
Qed.

(** What [unregister_entries] returns. *)
Lemma unregister_spec w reg name ids keys :
  keys_of (buses reg) keys ->
  let rk := retired_keys name ids keys in
  let l := tracked (subscribers reg) rk in
  let '(w', reg') := unregister_entries w reg name ids keys in
  (forall k, buses reg' !! k = if decide (k ∈ rk) then None else buses reg !! k) /\
  (forall k, subscribers reg' !! k = if decide (k ∈ rk) then None else subscribers reg !! k) /\
  (forall h, pending reg' !! h =
     match requeued w l h with Some p => Some p | None => pending reg !! h end) /\
  only_gone (w_slots w) (w_slots w') /\ w_buses w' = w_buses w /\ w_stats w' = w_stats w /\
  forall kr, kr ∈ l -> alive w (r_stats kr.2) = true ->
    w_slots w' !! r_sender kr.2 = gone_slot <$> w_slots w !! r_sender kr.2.
Proof.
  intros Hk. cbn zeta. destruct (keys_of_spec _ _ Hk) as [Hnd Hdom].
  unfold unregister_entries, retire_buses. set (rk := retired_keys name ids keys).
  assert (Hrk : NoDup rk) by (by apply NoDup_filter).
  pose proof (remove_buses_spec (buses reg) rk Hrk) as Hrm.
  destruct (remove_buses (buses reg) rk) as [[bs removed] retired].
  destruct Hrm as [-> Hbs]. { intros k [_ H]%(elem_retired_keys _ _ _ _ _ Hk). done. }
  destruct (bus_broadcast_fold retired w) as (G1 & G2 & G3).
  set (w1 := fold_left bus_broadcast retired w) in *. cbn [subscribers pending buses].
  rewrite requeue_subscribers_fold by done.
  pose proof (requeue_fold_pending (tracked (subscribers reg) rk) w1 (pending reg)) as Hp.
  destruct (requeue_fold_slots (tracked (subscribers reg) rk) w1 (pending reg)) as (F1 & F2 & F3 & F4).
  destruct (fold_left requeue_one _ (w1, pending reg)) as [w2 p2]. cbn in *.
  assert (Ha : forall j, alive w1 j = alive w j) by (intros j; unfold alive; by rewrite G3).
  split; [done|]. split; [intros k; apply foldr_delete_lookup|]. split; [|split; [|split; [|split]]].
  - intros h. rewrite Hp. unfold requeued. erewrite list_filter_iff; [done|].
    intros kr. unfold waits_as. by rewrite Ha.
  - by etransitivity.
  - congruence.
  - congruence.
  - intros kr Hin Hal. rewrite F4 by (rewrite ?Ha; done).
    destruct (G1 (r_sender kr.2)) as [-> | ->]; [done|]. by destruct (w_slots w !! _).
Qed.

Lemma elem_tracked m keys k r : (k, r) ∈ tracked m keys <-> k ∈ keys /\ r ∈ subs_of m k.
Proof.
  unfold tracked. rewrite list_elem_of_bind. split.
  - intros (k' & H & Hk). apply list_elem_of_fmap in H as (r' & [= -> ->] & Hr). done.
  - intros [Hk Hr]. exists k. split; [|done]. by apply list_elem_of_fmap_2.
Qed.

Lemma requeued_some w l k r :
  (k, r) ∈ l -> alive w (r_stats r) = true ->
  exists kr, kr ∈ l /\ waits_as w (r_handle_id r) kr /\
    requeued w l (r_handle_id r) = Some (ref_pending kr).
Proof.
  intros Hin Ha. unfold requeued.
  assert (Hf : (k, r) ∈ filter (waits_as w (r_handle_id r)) l) by (by apply list_elem_of_filter).
  destruct (list.last (filter _ l)) as [kr|] eqn:E.
  - exists kr. apply last_Some in E as [l' E].
    assert (kr ∈ filter (waits_as w (r_handle_id r)) l) as [H1 H2]%list_elem_of_filter
      by (rewrite E; set_solver). done.
  - apply last_None in E. rewrite E in Hf. set_solver.
Qed.

(** Unregistering takes down exactly the named entries and loses no live
    subscriber of theirs. Of the buses registered, those of the scenario's
    listed entries go and the others stay, with their subscribers; every live
    subscriber of a bus that went has [UpstreamGone] in its slot and is pending
    again under its own handle, waiting for the key of one of the buses that
    went; the entries of handles with no such subscriber are as before. *)
Theorem unregister_entries_correct w reg name ids keys (Hk : keys_of (buses reg) keys) :
  let '(w', reg') := unregister_entries w reg name ids keys in
  (forall k, is_retired reg name ids k ->
     buses reg' !! k = None /\ subscribers reg' !! k = None) /\
  (forall k, ~ is_retired reg name ids k ->
     buses reg' !! k = buses reg !! k /\ subscribers reg' !! k = subscribers reg !! k) /\
  (forall k r, is_retired reg name ids k -> r ∈ subs_of (subscribers reg) k ->
     alive w (r_stats r) = true ->
     w_slots w' !! r_sender r = gone_slot <$> w_slots w !! r_sender r /\
     exists p, pending reg' !! r_handle_id r = Some p /\
       p_handle_id p = r_handle_id r /\ is_retired reg name ids (p_key p)) /\
  (forall h, (forall k r, is_retired reg name ids k -> r ∈ subs_of (subscribers reg) k ->
                r_handle_id r = h -> alive w (r_stats r) = false) ->
     pending reg' !! h = pending reg !! h).
Proof.
  pose proof (unregister_spec w reg name ids keys Hk) as H. cbn zeta in H.
  destruct (unregister_entries w reg name ids keys) as [w' reg'].
  destruct H as (Hb & Hs & Hp & _ & _ & _ & Hg).
  pose proof (fun k => elem_retired_keys reg name ids keys k Hk) as He.
  split; [|split; [|split]].
  - intros k Hr%He. by rewrite Hb, Hs, !decide_True.
  - intros k Hr. assert (k ∉ retired_keys name ids keys) by (by rewrite He).
    by rewrite Hb, Hs, !decide_False.
  - intros k r Hr%He Hin Ha.
    assert (Ht : (k, r) ∈ tracked (subscribers reg) (retired_keys name ids keys)) by (by apply elem_tracked).
    split; [by apply (Hg (k, r))|].
    destruct (requeued_some w _ k r Ht Ha) as ([k' r'] & Hin' & [Ha' Hh'] & Hq).
    exists (ref_pending (k', r')). rewrite Hp, Hq. split; [done|]. split; [done|].
    apply elem_tracked in Hin' as [Hk' _]. apply He. by destruct k'.
  - intros h Hn. rewrite Hp.
    destruct (requeued w _ h) as [p|] eqn:E; [|done]. exfalso. unfold requeued in E.
    destruct (list.last _) as [[k r]|] eqn:El; [|done]. apply last_Some in El as [l' El].
    assert ((k, r) ∈ filter (waits_as w h) (tracked (subscribers reg) (retired_keys name ids keys)))
      as [[Ha Hh] Hin]%list_elem_of_filter by (rewrite El; set_solver).
    apply elem_tracked in Hin as [Hkk Hr]. apply He in Hkk.
    cbn in *. by rewrite (Hn k r Hkk Hr Hh) in Ha.
Qed.

(** ** An upstream that comes back *)

Definition bump_ref (r : SubscriberRef) : SubscriberRef :=
  mk_ref (r_handle_id r) (r_stats r) (r_sender r) (r_spec r) (r_if_unresolved r)
    (r_registered_at r) (u64_sat_add (r_attempts r) 1).

(** No other downstream of the upstream [k], and none that is pending, has the
    handle or the sender of [r]. *)
Definition sole_owner (reg : Registry) (k : BusKey) (r : SubscriberRef) : Prop :=
  (forall r', r' ∈ subs_of (subscribers reg) k ->
     r_handle_id r' = r_handle_id r \/ r_sender r' = r_sender r -> r' = r) /\
  (forall h p, pending reg !! h = Some p -> p_edge_sender p <> r_sender r).

Lemma is_retired_one reg name id b k :
  buses reg !! (name, id) = Some b -> is_retired reg name [id] k <-> k = (name, id).
Proof.
  intros Hb. destruct k as [n i]. unfold is_retired. cbn. rewrite list_elem_of_singleton.
  split; [by intros [[-> ->] _]|]. intros [= -> ->]. eauto.
Qed.

(** The pending map after the upstream [k] has gone. *)
Lemma unregister_one w reg name id keys b r :
  keys_of (buses reg) keys -> buses reg !! (name, id) = Some b ->
  r ∈ subs_of (subscribers reg) (name, id) -> alive w (r_stats r) = true ->
  sole_owner reg (name, id) r ->
  let '(w', reg') := unregister_entries w reg name [id] keys in
  buses reg' !! (name, id) = None /\ w_buses w' = w_buses w /\ w_stats w' = w_stats w /\
  w_slots w' !! r_sender r = gone_slot <$> w_slots w !! r_sender r /\
  pending reg' !! r_handle_id r = Some (into_pending r name id) /\
  forall h p, pending reg' !! h = Some p -> p_edge_sender p = r_sender r -> h = r_handle_id r.
Proof.
  intros Hk Hb Hr Ha [Hu Hpu]. pose proof (unregister_spec w reg name [id] keys Hk) as H.
  cbn zeta in H. destruct (unregister_entries w reg name [id] keys) as [w' reg'].
  destruct H as (Hbs & _ & Hp & _ & Hwb & Hws & Hg).
  pose proof (fun k => elem_retired_keys reg name [id] keys k Hk) as He.
  pose proof (fun k => is_retired_one reg name id b k Hb) as H1.
  set (l := tracked (subscribers reg) (retired_keys name [id] keys)) in *.
  assert (Hl : forall k' r', (k', r') ∈ l <-> k' = (name, id) /\ r' ∈ subs_of (subscribers reg) k').
  { intros k' r'. unfold l. by rewrite elem_tracked, He, H1. }
  assert (Hin : ((name, id), r) ∈ l) by (by apply Hl).
  split_and!; try done.
  - rewrite Hbs, decide_True; [done|]. by rewrite He, H1.
  - by apply (Hg ((name, id), r)).
  - rewrite Hp. destruct (requeued_some w l (name, id) r Hin Ha) as ([k' r'] & Hin' & [_ Hh] & ->).
    apply Hl in Hin' as [-> Hr']. rewrite (Hu r' Hr'); [done|by left].
  - intros h p. rewrite Hp. unfold requeued.
    destruct (list.last _) as [[k' r']|] eqn:El; cbn.
    2: { intros Hpe E. by apply Hpu in Hpe. }
    apply last_Some in El as [l' El].
    assert ((k', r') ∈ filter (waits_as w h) l) as [[_ Hh] Hin']%list_elem_of_filter
      by (rewrite El; set_solver).
    apply Hl in Hin' as [-> Hr']. intros [= <-] E. cbn in *. rewrite <- Hh.
    by rewrite (Hu r' Hr' (or_intror E)).
Qed.

(** C19: an upstream that goes and comes back finds its downstream again. When
    the entry is unregistered and a new bus is registered under its key, the
    next sweep, in whatever order, moves every live subscriber that owns its
    handle and its sender from the pending map back to the subscribers, with
    one more attempt; the new bus publishes into its slot, which holds the edge
    for the new bus's value, or [UpstreamGone] while that bus has none. *)
Theorem upstream_restart_resumes w reg name id bkeys b0 r b1 bus1 s
    (Hbk : keys_of (buses reg) bkeys) (Hb0 : buses reg !! (name, id) = Some b0)
    (Hr : r ∈ subs_of (subscribers reg) (name, id)) (Ha : alive w (r_stats r) = true)
    (Hu : sole_owner reg (name, id) r)
    (Hb1 : w_buses w !! b1 = Some bus1) (Hs : w_slots w !! r_sender r = Some s) :
  let '(w1, reg1) := unregister_entries w reg name [id] bkeys in
  exists reg2, register reg1 name id b1 = Ok reg2 /\
  forall pkeys, keys_of (pending reg2) pkeys ->
  exists w' reg' n, sweep_pending w1 reg2 pkeys = Some (w', reg', n) /\
    pending reg' !! r_handle_id r = None /\
    bump_ref r ∈ subs_of (subscribers reg') (name, id) /\
    (exists bus' sub, w_buses w' !! b1 = Some bus' /\ sub ∈ subs bus' /\
       while_tx sub = Some (r_sender r) /\ while_ (spec sub) = Some (r_spec r)) /\
    w_slots w' !! r_sender r =
      Some (if has_value bus1
            then mk_slot (encode_edge (gate_edge bus1 (r_spec r))) (sender_dropped s)
            else gone_slot s).
Proof.
  pose proof (unregister_one w reg name id bkeys b0 r Hbk Hb0 Hr Ha Hu) as H.
  destruct (unregister_entries w reg name [id] bkeys) as [w1 reg1].
  destruct H as (Hb & Hwb & Hws & Hsl & Hp & Hpu).
  unfold register. rewrite Hb. eexists. split; [done|].
  set (reg2 := mk_registry _ _ _). intros pkeys Hpk.
  assert (Ha1 : alive w1 (r_stats r) = true) by (unfold alive in *; by rewrite Hws).
  assert (Hbk2 : buses reg2 !! p_key (into_pending r name id) = Some b1) by apply lookup_insert_eq.
  assert (Hpr : promotes (buses reg2) w1 (into_pending r name id) = true).
  { unfold promotes. rewrite Hbk2. cbn. by rewrite Ha1. }
  destruct (sweep_pending_spec w1 reg2 pkeys Hpk) as (reg' & E & _ & Hp' & Hs').
  destruct (sweep_delivers w1 reg2 pkeys (r_handle_id r) (into_pending r name id) b1 bus1
              (gone_slot s)) as (bus' & Hb' & (sub & Hsub) & Hslot); try done.
  { by rewrite Hwb. }
  { cbn. by rewrite Hsl, Hs. }
  eexists _, _, _. split; [exact E|]. split; [|split; [|split]].
  - rewrite Hp'. change (pending reg2) with (pending reg1). rewrite Hp. cbn [mbind option_bind].
    unfold keeps. rewrite Hbk2. cbn. by rewrite Ha1.
  - rewrite Hs'. apply elem_of_app. right. by apply (sweep_tracks _ _ _ _ _ _ Hpk Hp Hpr).
  - by exists bus', sub.
  - exact Hslot.
Qed.

(** ** What cancelling does *)

(** How statistics can change: not at all, or to [Unresolved] unless finished. *)
Definition settles (st st' : ScenarioStats) : Prop :=
  state st' = state st \/ (state st <> Finished /\ state st' = Unresolved).

Definition stats_settle (l l' : list (option ScenarioStats)) : Prop :=
  forall i st, l !! i = Some (Some st) -> exists st', l' !! i = Some (Some st') /\ settles st st'.

#[export] Instance stats_settle_refl : Reflexive stats_settle.
Proof. intros l i st H. exists st. split; [done|by left]. Qed.

#[export] Instance stats_settle_trans : Transitive stats_settle.
Proof.
  intros a b c H1 H2 i st H. destruct (H1 i st H) as (st1 & Hb & S1).
  destruct (H2 i st1 Hb) as (st2 & Hc & S2). exists st2. split; [done|].
  destruct S1 as [E1|[N1 E1]], S2 as [E2|[N2 E2]]; unfold settles; rewrite ?E1, ?E2 in *; auto.
Qed.

(** What cancelling one entry does to the world. *)
Definition cancel_world (now : Z) (w : World) (entry : PendingResolution) : World :=
  update_stats (send_edge w (p_edge_sender entry) UpstreamGone) (p_stats entry) (fun s =>
    if decide (state s = Finished) then s else transition_state s Unresolved now).

Lemma cancel_world_settle now w p : stats_settle (w_stats w) (w_stats (cancel_world now w p)).
Proof.
  intros i st H. unfold cancel_world. cbn. rewrite list_lookup_alter.
  destruct (decide (p_stats p = i)) as [->|]; [|exists st; split; [done|by left]].
  rewrite H. cbn. eexists. split; [done|]. destruct (decide (state st = Finished)); [by left|by right].
Qed.

(** Statistics that a cancelled waiter has ended in. *)
Definition settled (w : World) (i : nat) : Prop :=
  forall st, w_stats w !! i = Some (Some st) -> state st = Finished \/ state st = Unresolved.

Lemma cancel_world_settled now w p : settled (cancel_world now w p) (p_stats p).
Proof.
  intros st. unfold cancel_world. cbn. rewrite list_lookup_alter_eq.
  destruct (w_stats w !! p_stats p) as [[st0|]|]; cbn; try done. intros [= <-].
  destruct (decide (state st0 = Finished)); auto.
Qed.

Lemma settled_mono now w p i : settled w i -> settled (cancel_world now w p) i.
Proof.
  intros H st. unfold cancel_world. cbn. rewrite list_lookup_alter.
  destruct (decide (p_stats p = i)) as [->|]; [|apply H].
  destruct (w_stats w !! i) as [[st0|]|] eqn:E; cbn; try done. intros [= <-].
  destruct (decide (state st0 = Finished)); auto.
Qed.

Definition cancel_error (p : PendingResolution) : RegistryError :=
  UpstreamCancelled (p_scenario_name p) (p_entry_id p).

(** The loop: the world step by step, the entries gone, one error for each. *)
Lemma cancel_loop_spec now matching w pend :
  NoDup matching -> (forall h, h ∈ matching -> is_Some (pend !! h)) ->
  let l := omap (fun h => pend !! h) matching in
  exists pend', cancel_loop now w pend matching =
      Some (fold_left (cancel_world now) l w, pend', cancel_error <$> l) /\
    forall h, pend' !! h = if decide (h ∈ matching) then None else pend !! h.
Proof.
  induction matching as [|h l IH] in w, pend |- *; intros Hnd Hd; [by exists pend|].
  apply NoDup_cons in Hnd as [Hh Hnd]. destruct (Hd h ltac:(by left)) as [p Hp].
  destruct (IH (cancel_world now w p) (delete h pend) Hnd) as (pend' & E & Hpe).
  { intros h' H'. rewrite lookup_delete_ne by (intros ->; done). apply Hd. by right. }
  assert (omap (fun h' => delete h pend !! h') l = omap (fun h' => pend !! h') l) as Eo.
  { clear - Hh. induction l as [|h' l IH]; [done|]. apply not_elem_of_cons in Hh as [Hn Hh].
    cbn. rewrite lookup_delete_ne, IH by done. done. }
  rewrite Eo in E. cbn. rewrite Hp. unfold cancel_world at 1 in E. rewrite E.
  exists pend'. split; [done|]. intros h'. rewrite Hpe.
  destruct (decide (h' ∈ l)); [by rewrite decide_True by (by right)|].
  destruct (decide (h = h')) as [<-|Hn].
  - rewrite decide_True by (by left). apply lookup_delete_eq.
  - rewrite decide_False by (by intros [?|?]%elem_of_cons). by apply lookup_delete_ne.
Qed.

Lemma cancel_fold_world now l w :
  stats_settle (w_stats w) (w_stats (fold_left (cancel_world now) l w)) /\
  only_gone (w_slots w) (w_slots (fold_left (cancel_world now) l w)) /\
  forall p, p ∈ l ->
    settled (fold_left (cancel_world now) l w) (p_stats p) /\
    w_slots (fold_left (cancel_world now) l w) !! p_edge_sender p =
      gone_slot <$> w_slots w !! p_edge_sender p.
Proof.
  induction l as [|q l IH] using rev_ind; [split; [done|split; [done|intros p []%elem_of_nil]]|].
  rewrite fold_left_app. cbn [fold_left]. set (w1 := fold_left _ l w) in *.
  destruct IH as (I1 & I2 & I3).
  assert (Hsl : w_slots (cancel_world now w1 q) = send (w_slots w1) (p_edge_sender q) UpstreamGone)
    by done.
  split; [etransitivity; [exact I1|apply cancel_world_settle]|].
  split; [rewrite Hsl; etransitivity; [exact I2|apply send_only_gone]|].
  intros p [Hp| ->%list_elem_of_singleton]%elem_of_app; rewrite Hsl, send_gone_lookup.
  - destruct (I3 p Hp) as [S E]. split; [by apply settled_mono|]. rewrite E.
    destruct (decide _); [|done]. by destruct (w_slots w !! _).
  - split; [apply cancel_world_settled|]. rewrite decide_True by done.
    destruct (I2 (p_edge_sender q)) as [-> | ->]; [done|]. by destruct (w_slots w !! _).
Qed.

(** Cancelling an upstream releases exactly its waiters, in whatever order
    the hash map yields them. No [expect] fails; the entries that waited for
    the upstream are gone and the others stay; there is one [UpstreamCancelled]
    for each; each of them has [UpstreamGone] in its slot and statistics, if
    still owned, that are [Unresolved] or were finished before, and no
    scenario's state changes in another way. *)
Theorem cancel_pending_correct now w reg name id entries
    (He : entries ≡ₚ map_to_list (pending reg)) :
  exists w' reg' errs,
    cancel_pending_for_upstream now w reg name id entries = Some (w', reg', errs) /\
    buses reg' = buses reg /\ subscribers reg' = subscribers reg /\
    (forall h, pending reg' !! h = pending reg !! h ≫= fun p =>
       if decide (p_key p = (name, id)) then None else Some p) /\
    (forall e, e ∈ errs -> e = UpstreamCancelled name id) /\
    stats_settle (w_stats w) (w_stats w') /\
    forall h p, pending reg !! h = Some p -> p_key p = (name, id) ->
      UpstreamCancelled name id ∈ errs /\ settled w' (p_stats p) /\
      w_slots w' !! p_edge_sender p = gone_slot <$> w_slots w !! p_edge_sender p.
Proof.
  unfold cancel_pending_for_upstream. set (P := fun e : string * PendingResolution => _).
  set (m := (filter P entries).*1).
  assert (Hm : forall h, h ∈ m <-> exists p, pending reg !! h = Some p /\ p_key p = (name, id)).
  { intros h. unfold m. rewrite list_elem_of_fmap. split.
    - intros ([h' p] & -> & [[H1 H2] H]%list_elem_of_filter). rewrite He in H.
      apply elem_of_map_to_list in H. exists p. cbn in *. unfold p_key. by rewrite H1, H2.
    - intros (p & H & Hk). unfold p_key in Hk. injection Hk as H1 H2. exists (h, p). split; [done|].
      apply list_elem_of_filter. split; [done|]. rewrite He. by apply elem_of_map_to_list. }
  assert (Hnd : NoDup m).
  { apply (sublist_NoDup _ entries.*1); [rewrite He; apply NoDup_fst_map_to_list|].
    apply fmap_sublist, sublist_filter. }
  destruct (cancel_loop_spec now m w (pending reg) Hnd) as (pend' & -> & Hp).
  { intros h (p & H & _)%Hm. eauto. }
  set (l := omap _ m) in *. destruct (cancel_fold_world now l w) as (F1 & F2 & F3).
  assert (Hl : forall p, p ∈ l -> p_key p = (name, id)).
  { intros p (h & (p' & H1 & H2)%Hm & H)%list_elem_of_omap. rewrite H1 in H. by injection H as <-. }
  eexists _, _, _. split; [done|]. split_and!; try done.
  - intros h. cbn. rewrite Hp. destruct (decide (h ∈ m)) as [(p & -> & Hk)%Hm|Hn].
    + cbn. by rewrite decide_True.
    + destruct (pending reg !! h) as [p|] eqn:E; [|done]. cbn. rewrite decide_False; [done|].
      intros Hk. apply Hn, Hm. eauto.
  - intros e (p & -> & Hin)%list_elem_of_fmap. apply Hl in Hin. unfold p_key in Hin.
    unfold cancel_error. by injection Hin as -> ->.
  - intros h p H Hk.
    assert (Hin : p ∈ l) by (apply list_elem_of_omap; exists h; split; [apply Hm; eauto|done]).
    split; [|by apply F3]. unfold p_key in Hk. injection Hk as H1 H2.
    rewrite <- H1, <- H2. by apply (list_elem_of_fmap_2 cancel_error).
Qed.

(** Renaming a handle moves its pending entry, under the new id, and leaves the
    entries of the other handles. *)
Lemma rename_handle_pending reg old_id new_id h :
  old_id <> new_id ->
  pending (rename_handle reg old_id new_id) !! h =
  match pending reg !! old_id with
  | None => pending reg !! h
  | Some p =>
      if decide (h = new_id) then Some (set_handle_id p new_id)
      else if decide (h = old_id) then None else pending reg !! h
  end.
Proof.
  intros Hn. unfold rename_handle. rewrite decide_False by done. cbn.
  destruct (pending reg !! old_id) as [p|]; [|done].
  destruct (decide (h = new_id)) as [->|H1]; [by rewrite lookup_insert_eq|].
  rewrite lookup_insert_ne by done.
  destruct (decide (h = old_id)) as [->|H2]; [apply lookup_delete_eq|by apply lookup_delete_ne].
Qed.

(** ** A concrete registry: a tracked downstream [d1] of [up/e], and [d2], which
    waits for [other/x]. *)

Definition demo_clause : WhileSpec := mk_while WGreaterThan f64_2.

Definition demo_ref : SubscriberRef := mk_ref "d1" 0 0 demo_clause UPending 0 0.

Definition demo_waiter : PendingResolution :=
  mk_pending "d2" 1 1 "other" "x" UPending 0 0 demo_clause.

Definition demo_world : World :=
  mk_world [new_slot; new_slot] [new_bus; mk_bus [] f64_3 true]
    [Some default_stats; Some default_stats].

Definition demo_registry : Registry :=
  mk_registry {[ ("up", "e")%string := 0%nat ]} {[ ("up", "e")%string := [demo_ref] ]}
    {[ "d2"%string := demo_waiter ]}.

Definition demo_registered : Registry :=
  mk_registry {[ ("other", "x")%string := 1%nat ]} ∅ {[ "d2"%string := demo_waiter ]}.

Lemma sweep_pending_correct_witness :
  exists w' reg' n, sweep_pending demo_world demo_registered ["d2"%string] = Some (w', reg', n) /\
    n = 1 /\ pending reg' !! "d2"%string = None.
Proof.
  destruct (sweep_pending_correct demo_world demo_registered ["d2"%string])
    as (w' & reg' & n & E & _ & Hp & Hn & _).
  - unfold keys_of. vm_compute. reflexivity.
  - exists w', reg', n. split; [exact E|]. split; [exact Hn|]. rewrite Hp. reflexivity.
Defined.

Lemma unregister_entries_correct_witness :
  let r := unregister_entries demo_world demo_registry "up" ["e"]%string [("up", "e")]%string in
  buses r.2 !! ("up", "e")%string = None /\
  exists p, pending r.2 !! "d1"%string = Some p /\ p_handle_id p = "d1"%string.
Proof.
  pose proof (unregister_entries_correct demo_world demo_registry "up" ["e"]%string
    [("up", "e")]%string) as H. cbn zeta.
  destruct (unregister_entries demo_world demo_registry "up" ["e"]%string [("up", "e")]%string)
    as [w' reg'].
  assert (is_retired demo_registry "up" ["e"]%string ("up", "e")%string) as Hr.
  { split; [split; [reflexivity|by apply list_elem_of_singleton]|by exists 0%nat]. }
  destruct H as (H1 & _ & H3 & _); [unfold keys_of; vm_compute; reflexivity|].
  split; [exact (proj1 (H1 _ Hr))|].
  destruct (H3 _ demo_ref Hr) as (_ & p & Hp & Hh & _);
    [by apply list_elem_of_singleton|reflexivity|]. exists p. split; [exact Hp|exact Hh].
Defined.

Lemma upstream_restart_resumes_witness :
  let '(w1, reg1) :=
    unregister_entries demo_world demo_registry "up" ["e"]%string [("up", "e")]%string in
  exists reg2, register reg1 "up" "e" 1 = Ok reg2.
Proof.
  pose proof (upstream_restart_resumes demo_world demo_registry "up" "e" [("up", "e")]%string
    0 demo_ref 1 (mk_bus [] f64_3 true) new_slot) as H.
  destruct (unregister_entries demo_world demo_registry "up" ["e"]%string [("up", "e")]%string)
    as [w1 reg1].
  destruct H as (reg2 & E & _).
  - unfold keys_of. vm_compute. reflexivity.
  - reflexivity.
  - by apply list_elem_of_singleton.
  - reflexivity.
  - split.
    + intros r' Hr' _. by apply list_elem_of_singleton in Hr'.
    + intros h p Hp. unfold demo_registry in Hp. cbn [pending] in Hp.
      apply lookup_singleton_Some in Hp as [_ <-]. done.
  - reflexivity.
  - reflexivity.
  - exists reg2. exact E.
Defined.

Lemma cancel_pending_correct_witness :
  exists w' reg' errs,
    cancel_pending_for_upstream 7 demo_world demo_registry "other" "x"
      [("d2"%string, demo_waiter)] = Some (w', reg', errs) /\
    UpstreamCancelled "other" "x" ∈ errs.
Proof.
  destruct (cancel_pending_correct 7 demo_world demo_registry "other" "x"
    [("d2"%string, demo_waiter)]) as (w' & reg' & errs & E & _ & _ & _ & _ & _ & H).
  - vm_compute. reflexivity.
  - exists w', reg', errs. split; [exact E|]. exact (proj1 (H "d2"%string demo_waiter eq_refl eq_refl)).
Defined.
