(* ===== verification/Windows.v ===== *)
(** * Windows: one-shot gaps and rotating labels (schedule/mod.rs)

    A [Duration] is a number of nanoseconds, at most [Duration::MAX]. The
    one-shot windows are the list the schedule was parsed into; the periodic
    windows are in [Durations]. *)

From Stdlib Require Import ZArith Lia Ascii.
From stdpp Require Import prelude strings list.
From S2P Require Import Prelude Text Util.

(** [Duration::MAX]: [u64::MAX] seconds and 999,999,999 nanoseconds. *)
Definition DURATION_MAX : Z := u64_max * 1000000000 + 999999999.

Definition is_duration (d : Z) : Prop := 0 <= d <= DURATION_MAX.

(** [Duration::saturating_add] and [Duration::saturating_sub]. *)
Definition duration_sat_add (a b : Z) : Z := Z.min DURATION_MAX (a + b).
Definition duration_sat_sub (a b : Z) : Z := Z.max 0 (a - b).

(** [OneShotGap]. *)
Record OneShotGap := mk_gap { at_ : Z; duration : Z }.

(** [OneShotGap::end]. *)
Definition gap_end (w : OneShotGap) : Z := duration_sat_add (at_ w) (duration w).

Definition in_window (t : Z) (w : OneShotGap) : bool := (at_ w <=? t) && (t <? gap_end w).

(** [is_in_gap_window]. *)
Definition is_in_gap_window (elapsed : Z) (windows : list OneShotGap) : bool :=
  existsb (in_window elapsed) windows.

(** The [for] loop of [time_until_gap_window_end]: the cursor and [moved]. *)
Definition chase_pass (windows : list OneShotGap) (cursor : Z) : Z * bool :=
  fold_left (fun acc w => if in_window acc.1 w then (gap_end w, true) else acc)
    windows (cursor, false).

(** Its [while] loop; [None] when [fuel] passes were not enough. *)
Fixpoint chase (fuel : nat) (windows : list OneShotGap) (cursor : Z) : option Z :=
  match fuel with
  | O => None
  | S fuel =>
      let (cursor, moved) := chase_pass windows cursor in
      if moved then chase fuel windows cursor else Some cursor
  end.

(** [time_until_gap_window_end]. A pass that moves the cursor puts the end of
    some window behind it for good, so one pass more than there are windows is
    enough. *)
Definition time_until_gap_window_end (elapsed : Z) (windows : list OneShotGap) : option Z :=
  let! cursor := chase (S (length windows)) windows elapsed in
  Some (duration_sat_sub cursor elapsed).

(** [SpikeStrategy]. *)
Inductive SpikeStrategy := Counter | Random.

(** [CardinalitySpikeWindow]. *)
Record CardinalitySpikeWindow := mk_spike {
  label : string;
  every : Z;
  spike_duration : Z;
  cardinality : Z;
  strategy : SpikeStrategy;
  prefix : string;
  seed : Z;
}.

(** [CardinalitySpikeWindow::label_value_for_tick]; [None] is the panic of a
    remainder by zero. *)
Definition spike_label_value_for_tick (s : CardinalitySpikeWindow) (tick : Z) : option string :=
  if cardinality s =? 0 then None
  else
    let index := tick mod cardinality s in
    match strategy s with
    | Counter => Some (prefix s +:+ show_dec index)
    | Random => Some (random_spike_value (prefix s) (seed s) index)
    end.

(** [DynamicLabel]. *)
Record DynamicLabel := mk_dynamic {
  dl_key : string;
  dl_prefix : string;
  dl_cardinality : Z;
  dl_values : list string;
}.

(** [DynamicLabel::label_value_for_tick]; [None] is the panic of a remainder by
    zero or of an index out of range. *)
Definition dynamic_label_value_for_tick (d : DynamicLabel) (tick : Z) : option string :=
  if dl_cardinality d =? 0 then None
  else
    let index := tick mod dl_cardinality d in
    match dl_values d with
    | [] => Some (dl_prefix d +:+ show_dec index)
    | _ => dl_values d !! Z.to_nat index
    end.

(** [DynamicLabelStrategy] and [DynamicLabelConfig]. *)
Inductive DynamicLabelStrategy :=
| DCounter (prefix : option string) (cardinality : Z)
| DValuesList (values : list string).

Record DynamicLabelConfig := mk_dl_config { dlc_key : string; dlc_strategy : DynamicLabelStrategy }.

(** The dynamic label [from_base_config] resolves a config into. *)
Definition resolve_dynamic_label (dl : DynamicLabelConfig) : DynamicLabel :=
  match dlc_strategy dl with
  | DCounter p c => mk_dynamic (dlc_key dl) (default (dlc_key dl +:+ "_") p) c []
  | DValuesList vs => mk_dynamic (dlc_key dl) "" (Z.of_nat (length vs)) vs
  end.

(** ** The one-shot windows *)

(** The windows still ahead of the cursor: those whose end it has not passed. *)
Definition ahead (windows : list OneShotGap) (c : Z) : nat :=
  length (filter (fun w => c < gap_end w) windows).

Definition pass_step (acc : Z * bool) (w : OneShotGap) : Z * bool :=
  if in_window acc.1 w then (gap_end w, true) else acc.

Lemma in_window_iff t w : in_window t w = true <-> at_ w <= t < gap_end w.
Proof. unfold in_window. rewrite andb_true_iff, Z.leb_le, Z.ltb_lt. done. Qed.

(** Every instant from [a] up to [b] is in some window. *)
Definition covered (windows : list OneShotGap) (a b : Z) : Prop :=
  forall t, a <= t < b -> is_in_gap_window t windows = true.

Lemma in_gap_iff t windows :
  is_in_gap_window t windows = true <-> exists w, w ∈ windows /\ at_ w <= t < gap_end w.
Proof.
  unfold is_in_gap_window. rewrite existsb_exists.
  split; intros (w & Hw & H); exists w; rewrite list_elem_of_In, in_window_iff in *; done.
Qed.

(** What a pass over the windows left does: the cursor moves forward through
    covered time, and if it moved then past the end of a window that was ahead. *)
Lemma pass_spec all l acc :
  (forall w, w ∈ l -> w ∈ all) ->
  acc.1 <= (fold_left pass_step l acc).1 /\
  covered all acc.1 (fold_left pass_step l acc).1 /\
  ((fold_left pass_step l acc).2 = true ->
     acc.2 = true \/ exists w, w ∈ all /\ acc.1 < gap_end w <= (fold_left pass_step l acc).1) /\
  ((fold_left pass_step l acc).2 = false ->
     (fold_left pass_step l acc).1 = acc.1 /\ acc.2 = false /\
     forall w, w ∈ l -> in_window acc.1 w = false).
Proof.
  induction l as [|w l IH] in acc |- *; intros Hsub.
  - cbn. split; [lia|]. split; [intros t Ht; lia|]. split; [auto|].
    intros E. split; [done|]. split; [done|]. intros w Hw. by apply elem_of_nil in Hw.
  - cbn. destruct (IH (pass_step acc w)) as (I1 & I2 & I3 & I4).
    { intros w' Hw'. apply Hsub. by right. }
    assert (Hw : w ∈ all) by (apply Hsub; by left).
    remember (fold_left pass_step l (pass_step acc w)) as r. unfold pass_step in *.
    destruct (in_window acc.1 w) eqn:E; cbn in *.
    + apply in_window_iff in E. split; [lia|]. split; [|split].
      * intros t Ht. destruct (Z.lt_ge_cases t (gap_end w)); [|apply I2; lia].
        apply in_gap_iff. exists w. split; [done|lia].
      * intros _. right. exists w. split; [done|lia].
      * intros Er. destruct (I4 Er) as (_ & ? & _). done.
    + split; [done|]. split; [done|]. split; [done|].
      intros Er. destruct (I4 Er) as (H1 & H2 & H3). split; [done|]. split; [done|].
      intros w' [-> |Hw']%elem_of_cons; [done|by apply H3].
Qed.

Lemma ahead_cons w windows c :
  ahead (w :: windows) c = ((if decide (c < gap_end w)%Z then 1 else 0) + ahead windows c)%nat.
Proof. unfold ahead. rewrite filter_cons. by destruct (decide _). Qed.

Lemma ahead_le windows c c' : c <= c' -> (ahead windows c' <= ahead windows c)%nat.
Proof.
  intros Hc. induction windows as [|w l IH]; [done|]. rewrite !ahead_cons.
  destruct (decide (c' < gap_end w)), (decide (c < gap_end w)); lia.
Qed.

Lemma ahead_lt windows c c' w :
  c <= c' -> w ∈ windows -> c < gap_end w <= c' -> (ahead windows c' < ahead windows c)%nat.
Proof.
  intros Hc Hw He. induction windows as [|w0 l IH]; [by apply elem_of_nil in Hw|].
  rewrite !ahead_cons. pose proof (ahead_le l c c' Hc). apply elem_of_cons in Hw as [-> |Hw].
  - rewrite decide_False by lia. rewrite decide_True by lia. lia.
  - specialize (IH Hw). destruct (decide (c' < gap_end w0)), (decide (c < gap_end w0)); lia.
Qed.

Lemma chase_spec fuel windows c :
  (ahead windows c < fuel)%nat ->
  exists r, chase fuel windows c = Some r /\ c <= r /\ covered windows c r /\
    is_in_gap_window r windows = false.
Proof.
  induction fuel as [|fuel IH] in c |- *; intros Hf; [lia|]. cbn. unfold chase_pass.
  destruct (pass_spec windows windows (c, false)) as (H1 & H2 & H3 & H4); [done|].
  fold pass_step. destruct (fold_left pass_step windows (c, false)) as [c' moved] eqn:E.
  cbn in *. destruct moved.
  - destruct (H3 eq_refl) as [?|(w & Hw & He)]; [done|].
    pose proof (ahead_lt windows c c' w H1 Hw He).
    destruct (IH c' ltac:(lia)) as (r & Hr & Hle & Hcov & Hout).
    exists r. split; [done|]. split; [lia|]. split; [|done].
    intros t Ht. destruct (Z.lt_ge_cases t c'); [apply H2; lia|apply Hcov; lia].
  - destruct (H4 eq_refl) as (-> & _ & Hout). exists c. split; [done|]. split; [lia|].
    split; [intros t Ht; lia|]. apply not_true_is_false. intros (w & Hw & He)%in_gap_iff.
    specialize (Hout w Hw). apply not_true_iff_false in Hout. apply Hout. by apply in_window_iff.
Qed.

(** The windows ahead are among the windows, so the fuel is enough. *)
Lemma ahead_bound windows c : (ahead windows c <= length windows)%nat.
Proof.
  induction windows as [|w l IH]; [done|]. rewrite ahead_cons. cbn [length].
  destruct (decide _); lia.
Qed.

(** [time_until_gap_window_end] ends and is the time to the first instant
    of emission: for any list of windows, sorted or not, overlapping or
    touching, the loop ends, every instant before the one it returns is in a
    gap and that one is not. It is zero exactly outside the windows. *)
Theorem time_until_gap_window_end_correct elapsed windows :
  exists d, time_until_gap_window_end elapsed windows = Some d /\ 0 <= d /\
    (forall t, elapsed <= t < elapsed + d -> is_in_gap_window t windows = true) /\
    is_in_gap_window (elapsed + d) windows = false /\
    (d = 0 <-> is_in_gap_window elapsed windows = false).
Proof.
  pose proof (ahead_bound windows elapsed).
  destruct (chase_spec (S (length windows)) windows elapsed) as (r & Hr & Hle & Hcov & Hout); [lia|].
  unfold time_until_gap_window_end. rewrite Hr. exists (r - elapsed).
  assert (duration_sat_sub r elapsed = r - elapsed) as -> by (unfold duration_sat_sub; lia).
  replace (elapsed + (r - elapsed)) with r by lia. split_and!; try done; [lia|].
  split; [intros; by replace elapsed with r by lia|]. intros Hf.
  destruct (Z.eq_dec r elapsed); [lia|]. rewrite (Hcov elapsed) in Hf by lia. done.
Qed.

(** The order of the windows does not matter. *)
Lemma is_in_gap_window_perm t windows windows' :
  windows ≡ₚ windows' -> is_in_gap_window t windows = is_in_gap_window t windows'.
Proof.
  intros Hp. apply eq_true_iff_eq. rewrite !in_gap_iff. by setoid_rewrite Hp.
Qed.

(** The schedule may sort the windows: what is a gap, and how long the
    scheduler sleeps in it, depend on the set of windows and not on their
    order. *)
Theorem gap_windows_order elapsed windows windows' (Hp : windows ≡ₚ windows') :
  is_in_gap_window elapsed windows = is_in_gap_window elapsed windows' /\
  time_until_gap_window_end elapsed windows = time_until_gap_window_end elapsed windows'.
Proof.
  split; [by apply is_in_gap_window_perm|].
  pose proof (ahead_bound windows elapsed). pose proof (ahead_bound windows' elapsed).
  destruct (chase_spec (S (length windows)) windows elapsed) as (r & Hr & L & C & O); [lia|].
  destruct (chase_spec (S (length windows')) windows' elapsed) as (r' & Hr' & L' & C' & O'); [lia|].
  unfold time_until_gap_window_end. rewrite Hr, Hr'.
  assert (r = r') as ->; [|done].
  destruct (Z.lt_trichotomy r r') as [Hlt|[?|Hlt]]; [|done|].
  - by rewrite (is_in_gap_window_perm _ _ _ Hp), (C' r) in O by lia.
  - by rewrite <- (is_in_gap_window_perm _ _ _ Hp), (C r') in O' by lia.
Qed.

Lemma gap_windows_order_witness :
  time_until_gap_window_end 5 [mk_gap 20 10; mk_gap 0 10; mk_gap 10 10] =
  time_until_gap_window_end 5 [mk_gap 0 10; mk_gap 10 10; mk_gap 20 10] /\
  time_until_gap_window_end 5 [mk_gap 20 10; mk_gap 0 10; mk_gap 10 10] = Some 25.
Proof.
  split; [|reflexivity]. apply gap_windows_order.
  exact (Permutation_app_comm [mk_gap 20 10] [mk_gap 0 10; mk_gap 10 10]).
Defined.

(** ** Rotating labels *)

Lemma show_dec_inj a b : is_u64 a -> is_u64 b -> show_dec a = show_dec b -> a = b.
Proof.
  intros Ha Hb E. apply (f_equal (parse_unsigned u64_max)) in E.
  unfold is_u64 in *. rewrite !parse_show_dec in E by lia. by injection E.
Qed.

Definition spike_ok (s : CardinalitySpikeWindow) : Prop :=
  is_u64 (cardinality s) /\ cardinality s <> 0 /\ is_u64 (seed s).

(** A cardinality spike has exactly [cardinality] label values, cycled in
    order: a valid spike never panics, and two ticks give the same value
    exactly when they are equal modulo the cardinality, under both strategies. *)
Theorem spike_labels_cycle s t t' (Hs : spike_ok s) :
  exists v v', spike_label_value_for_tick s t = Some v /\
    spike_label_value_for_tick s t' = Some v' /\
    (v = v' <-> t mod cardinality s = t' mod cardinality s).
Proof.
  destruct Hs as (Hc & H0 & Hseed). unfold spike_label_value_for_tick.
  rewrite (proj2 (Z.eqb_neq _ _) H0).
  assert (Hu : forall x, is_u64 (x mod cardinality s)).
  { intros x. unfold is_u64 in *. pose proof (Z.mod_pos_bound x (cardinality s)). lia. }
  destruct (strategy s); eexists _, _; (split; [done|]); (split; [done|]).
  - split; [|by intros ->]. intros E%(inj (String.append (prefix s))). by apply show_dec_inj.
  - by apply random_spike_value_eq.
Qed.

Lemma spike_labels_cycle_witness :
  let s := mk_spike "pod" 100 10 3 Counter "pod-" 0 in
  spike_label_value_for_tick s 5 = Some "pod-2"%string /\
  exists v v', spike_label_value_for_tick s 5 = Some v /\ spike_label_value_for_tick s 8 = Some v' /\
    (v = v' <-> 5 mod 3 = 8 mod 3).
Proof.
  split; [reflexivity|]. apply (spike_labels_cycle (mk_spike "pod" 100 10 3 Counter "pod-" 0) 5 8).
  unfold spike_ok, is_u64. cbn. lia.
Defined.

(** What validation asks of a dynamic label: a positive cardinality, or a
    non-empty list of values. *)
Definition dynamic_ok (dl : DynamicLabelConfig) : Prop :=
  match dlc_strategy dl with
  | DCounter _ c => is_u64 c /\ c <> 0
  | DValuesList vs => vs <> []
  end.

(** A dynamic label that passed validation has a value on every tick, and
    has period its cardinality: the values list in order, or [cardinality]
    different counter values. *)
Theorem dynamic_labels_cycle dl t (Hok : dynamic_ok dl) (Ht : 0 <= t) :
  let d := resolve_dynamic_label dl in
  0 < dl_cardinality d /\
  dynamic_label_value_for_tick d (t + dl_cardinality d) = dynamic_label_value_for_tick d t /\
  (exists v, dynamic_label_value_for_tick d t = Some v) /\
  match dlc_strategy dl with
  | DValuesList vs =>
      dynamic_label_value_for_tick d t = vs !! Z.to_nat (t mod Z.of_nat (length vs))
  | DCounter _ c => forall t',
      dynamic_label_value_for_tick d t = dynamic_label_value_for_tick d t' <-> t mod c = t' mod c
  end.
Proof.
  unfold resolve_dynamic_label, dynamic_ok in *. destruct (dlc_strategy dl) as [p c|vs] eqn:E;
    cbn zeta; unfold dynamic_label_value_for_tick; cbn [dl_cardinality dl_values dl_prefix].
  - destruct Hok as [Hc H0]. rewrite (proj2 (Z.eqb_neq _ _) H0). unfold is_u64 in Hc.
    rewrite <- Z.add_mod_idemp_r, Z.mod_same, Z.add_0_r by done. split_and!; [lia|done|by eauto|].
    intros t'. split; [|by intros ->]. intros [= H%(inj (String.append _))].
    apply show_dec_inj in H; [done|..]; unfold is_u64;
      [pose proof (Z.mod_pos_bound t c)|pose proof (Z.mod_pos_bound t' c)]; lia.
  - assert (Hl : (0 < length vs)%nat) by (destruct vs; cbn; [done|lia]).
    rewrite (proj2 (Z.eqb_neq _ _)) by lia.
    rewrite <- Z.add_mod_idemp_r, Z.mod_same, Z.add_0_r by lia.
    destruct vs as [|v vs]; [done|]. set (l := v :: vs) in *. split_and!; [lia|done| |done].
    apply lookup_lt_is_Some_2. pose proof (Z.mod_pos_bound t (Z.of_nat (length l))). lia.
Qed.

Lemma dynamic_labels_cycle_witness :
  dynamic_label_value_for_tick
    (resolve_dynamic_label (mk_dl_config "host" (DValuesList ["a"; "b"]%string))) 3 = Some "b"%string.
Proof.
  destruct (dynamic_labels_cycle (mk_dl_config "host" (DValuesList ["a"; "b"]%string)) 3)
    as (_ & _ & _ & H); [done|lia|]. exact H.
Defined.
