(* ===== verification/Interpolate.v ===== *)
(** * Interpolate: environment references in scenario YAML
      (compiler/env_interpolate.rs)

    The input is the byte string of a valid UTF-8 text, walked from the left;
    the environment is the argument [lookup]. The slices of the source are cut
    in front of ASCII bytes or after whole characters, so none of them panics
    on such an input. The specification, [meaning], is of the text as characters,
    escapes and references, apart from how the code scans it. *)

From Stdlib Require Import ZArith Lia Ascii.
From stdpp Require Import prelude strings list.
From S2P Require Import Prelude Text.

(** [InterpolateError]. *)
Inductive InterpolateError :=
| UnsetVariable (name : string) (line column : Z)
| Unterminated (line column : Z)
| InvalidName (name : string) (line column : Z).

(** [utf8_char_len]. *)
Definition utf8_char_len (lead : ascii) : nat :=
  let c := code lead in
  if c <=? 0x7f then 1
  else if (0xc0 <=? c) && (c <=? 0xdf) then 2
  else if (0xe0 <=? c) && (c <=? 0xef) then 3
  else if (0xf0 <=? c) && (c <=? 0xf7) then 4
  else 1.

Definition newline : ascii := "010"%char.

(** One byte of [advance_position]. *)
Definition advance_byte (pos : Z * Z) (c : ascii) : Z * Z :=
  if Ascii.eqb c newline then (pos.1 + 1, 1) else (pos.1, pos.2 + 1).

(** [advance_position]. *)
Fixpoint advance_position (consumed : string) (pos : Z * Z) : Z * Z :=
  match consumed with
  | EmptyString => pos
  | String c s => advance_position s (advance_byte pos c)
  end.

Definition name_first (c : ascii) : bool := is_ascii_uppercase c || Ascii.eqb c "_"%char.
Definition name_rest (c : ascii) : bool :=
  is_ascii_uppercase c || is_ascii_digit c || Ascii.eqb c "_"%char.

(** [validate_name]. *)
Definition validate_name (name : string) (line column : Z) : result unit InterpolateError :=
  match name with
  | EmptyString => Err (InvalidName name line column)
  | String first chars =>
      if negb (name_first first) then Err (InvalidName name line column)
      else if str_all name_rest chars then Ok tt
      else Err (InvalidName name line column)
  end.

(** [body.find(":-")], with the two sides of the first match. *)
Fixpoint split_default (body : string) : option (string * string) :=
  match body with
  | EmptyString => None
  | String c s =>
      match s with
      | String d s' =>
          if Ascii.eqb c ":"%char && Ascii.eqb d "-"%char then Some (EmptyString, s')
          else
            match split_default s with
            | Some (a, b) => Some (String c a, b)
            | None => None
            end
      | EmptyString => None
      end
  end.

(** The first [n] bytes, or what there is, and the rest. *)
Fixpoint split_bytes (n : nat) (s : string) : string * string :=
  match n, s with
  | S n, String c s => let (a, b) := split_bytes n s in (String c a, b)
  | _, _ => (EmptyString, s)
  end.

(** The loop of [interpolate_with] on the input left; [None] when the fuel is
    out. *)
Fixpoint interpolate_loop (lookup : string -> option string) (fuel : nat)
    (input : string) (line column : Z) (out : string)
  : option (result string InterpolateError) :=
  match fuel with
  | O => None
  | S fuel =>
      match input with
      | EmptyString => Some (Ok out)
      | String b rest =>
          if Ascii.eqb b "$"%char && str_starts_with "$"%char rest then
            interpolate_loop lookup fuel (split_bytes 1 rest).2 line (column + 2) (out +:+ "$")
          else if Ascii.eqb b "$"%char && str_starts_with "{"%char rest then
            match split_once "}"%char (split_bytes 1 rest).2 with
            | None => Some (Err (Unterminated line column))
            | Some (body, after) =>
                let (name, dflt) :=
                  match split_default body with
                  | Some (n, d) => (n, Some d)
                  | None => (body, None)
                  end in
                match validate_name name line column with
                | Err e => Some (Err e)
                | Ok _ =>
                    match (match lookup name with Some v => Some v | None => dflt end) with
                    | None => Some (Err (UnsetVariable name line column))
                    | Some v =>
                        let pos := advance_position ("${" +:+ body +:+ "}") (line, column) in
                        interpolate_loop lookup fuel after pos.1 pos.2 (out +:+ v)
                    end
                end
            end
          else
            let (chr, after) := split_bytes (utf8_char_len b) input in
            let pos := advance_byte (line, column) b in
            interpolate_loop lookup fuel after pos.1 pos.2 (out +:+ chr)
      end
  end.

(** [interpolate_with]: every turn takes at least one byte, so the length of the
    input and one more turn to see its end are enough. *)
Definition interpolate_with (lookup : string -> option string) (input : string)
  : option (result string InterpolateError) :=
  interpolate_loop lookup (S (String.length input)) input 1 1 "".

(** ** Templates: what an input means *)

(** A character of the text: a lead byte and the continuation bytes it announces. *)
Definition is_char (s : string) : Prop :=
  match s with
  | EmptyString => False
  | String b rest =>
      S (String.length rest) = utf8_char_len b /\ str_all (fun c => 128 <=? code c) rest = true
  end.

Inductive Segment :=
| Chr (c : string)
| Dollar
| Escape
| Ref (name : string) (dflt : option string).

Definition ref_body (name : string) (dflt : option string) : string :=
  match dflt with Some d => name +:+ ":-" +:+ d | None => name end.

(** The source text of a segment. *)
Definition source (s : Segment) : string :=
  match s with
  | Chr c => c
  | Dollar => "$"
  | Escape => "$$"
  | Ref name dflt => "${" +:+ ref_body name dflt +:+ "}"
  end.

Fixpoint sources (l : list Segment) : string :=
  match l with [] => "" | s :: l => source s +:+ sources l end.

(** The value of a template: its text with the references resolved from the
    left, or the first reference that has no value, with the segments in front
    of it, those of [before] included. *)
Fixpoint eval (lookup : string -> option string) (before l : list Segment)
  : result string (list Segment * string) :=
  match l with
  | [] => Ok ""%string
  | s :: l =>
      let? v := match s with
                | Chr c => Ok c
                | Dollar | Escape => Ok "$"%string
                | Ref name dflt =>
                    match lookup name, dflt with
                    | Some v, _ => Ok v
                    | None, Some d => Ok d
                    | None, None => Err (before, name)
                    end
                end in
      let? rest := eval lookup (before ++ [s]) l in
      Ok (v +:+ rest)
  end.

(** What a segment takes up on its line: a character of the text one column, a
    reference as many as it has bytes. *)
Fixpoint bytes (s : string) : list ascii :=
  match s with EmptyString => [] | String c s => c :: bytes s end.

Definition cells (s : Segment) : list ascii :=
  match s with
  | Chr c => take 1 (bytes c)
  | Dollar | Escape | Ref _ _ => bytes (source s)
  end.

Definition all_cells (l : list Segment) : list ascii := concat (cells <$> l).

(** What follows the last newline. *)
Fixpoint last_line (l : list ascii) : list ascii :=
  match l with
  | [] => []
  | c :: l =>
      if bool_decide (newline ∈ l) then last_line l
      else if bool_decide (c = newline) then l else c :: l
  end.

(** The line and the column after some segments, both from 1. *)
Definition line_after (l : list Segment) : Z :=
  1 + Z.of_nat (length (filter (fun c => c = newline) (all_cells l))).
Definition column_after (l : list Segment) : Z := 1 + Z.of_nat (length (last_line (all_cells l))).

(** How a text ends: after its segments, or with a fault. *)
Inductive Ending :=
| Whole
| Unclosed (s : string)
| BadName (name : string) (dflt : option string) (rest : string).

Definition ending_source (e : Ending) : string :=
  match e with
  | Whole => ""
  | Unclosed s => "${" +:+ s
  | BadName name dflt rest => "${" +:+ ref_body name dflt +:+ "}" +:+ rest
  end.

(** What a text means. *)
Definition meaning (lookup : string -> option string) (l : list Segment) (e : Ending)
  : result string InterpolateError :=
  match eval lookup [] l with
  | Err (before, name) => Err (UnsetVariable name (line_after before) (column_after before))
  | Ok v =>
      match e with
      | Whole => Ok v
      | Unclosed _ => Err (Unterminated (line_after l) (column_after l))
      | BadName name _ _ => Err (InvalidName name (line_after l) (column_after l))
      end
  end.

(** Variable names [[A-Z_][A-Z0-9_]*], by the codes of their characters. *)
Definition letter (c : ascii) : bool := ((65 <=? code c) && (code c <=? 90)) || (code c =? 95).
Definition letter_or_digit (c : ascii) : bool := letter c || ((48 <=? code c) && (code c <=? 57)).

Definition valid_name (name : string) : bool :=
  match name with
  | EmptyString => false
  | String c s => letter c && str_all letter_or_digit s
  end.

(** A template whose source, in front of [tail], reads back as it: characters
    other than [$], a lone [$] only where no [$] or [{] follows, valid names,
    and defaults without a closing brace. *)
Fixpoint template_ok (l : list Segment) (tail : string) : Prop :=
  match l with
  | [] => True
  | s :: l =>
      match s with
      | Chr c => is_char c /\ c <> "$"%string
      | Dollar => str_starts_with "$"%char (sources l +:+ tail) = false /\
                  str_starts_with "{"%char (sources l +:+ tail) = false
      | Escape => True
      | Ref name dflt =>
          valid_name name = true /\
          match dflt with Some d => str_contains "}"%char d = false | None => True end
      end /\ template_ok l tail
  end.

Definition ending_ok (e : Ending) : Prop :=
  match e with
  | Whole => True
  | Unclosed s => str_contains "}"%char s = false
  | BadName name dflt _ =>
      valid_name name = false /\ str_contains ":"%char name = false /\
      str_contains "}"%char name = false /\
      match dflt with Some d => str_contains "}"%char d = false | None => True end
  end.

(** ** The loop follows the template *)

Lemma split_default_none n : str_contains ":"%char n = false -> split_default n = None.
Proof.
  induction n as [|c n IH]; [done|]. cbn [split_default str_contains].
  intros [Hc H]%orb_false_iff.
  destruct n as [|d n]; [done|]. rewrite Hc. cbn [andb]. by rewrite IH.
Qed.

Lemma split_default_app n d :
  str_contains ":"%char n = false -> split_default (n +:+ ":-" +:+ d) = Some (n, d).
Proof.
  induction n as [|c n IH]; [done|]. intros H. rewrite app_cons_str.
  cbn [str_contains] in H. apply orb_false_iff in H as [Hc H]. specialize (IH H).
  cbn [split_default]. destruct (n +:+ ":-" +:+ d) as [|e s] eqn:E.
  - by destruct n.
  - rewrite Hc. cbn [andb]. by rewrite IH.
Qed.

Lemma split_bytes_app a b : split_bytes (String.length a) (a +:+ b) = (a, b).
Proof.
  induction a as [|c a IH]; [by destruct b|]. rewrite app_cons_str. cbn. by rewrite IH.
Qed.

Lemma str_all_contains p c s : p c = false -> str_all p s = true -> str_contains c s = false.
Proof.
  intros Hc. induction s as [|d s IH]; [done|]. cbn [str_all str_contains].
  intros [Hd Hs]%andb_true_iff.
  rewrite IH by done. rewrite orb_false_r. apply Ascii.eqb_neq. intros ->. congruence.
Qed.

Lemma letter_first c : name_first c = letter c.
Proof. by destruct c as [[] [] [] [] [] [] [] []]. Qed.

Lemma letter_rest c : name_rest c = letter_or_digit c.
Proof. by destruct c as [[] [] [] [] [] [] [] []]. Qed.

Lemma str_all_ext p q s : (forall c, p c = q c) -> str_all p s = str_all q s.
Proof. intros H. induction s as [|c s IH]; [done|]. cbn [str_all]. by rewrite H, IH. Qed.

Lemma valid_name_contains c name :
  letter c = false -> letter_or_digit c = false -> valid_name name = true ->
  str_contains c name = false.
Proof.
  intros H1 H2. destruct name as [|d s]; [done|]. cbn [valid_name str_contains].
  intros [Hd Hs]%andb_true_iff.
  rewrite (str_all_contains _ _ _ H2 Hs), orb_false_r. apply Ascii.eqb_neq. intros ->. congruence.
Qed.

Lemma validate_name_valid name line column :
  validate_name name line column =
  if valid_name name then Ok tt else Err (InvalidName name line column).
Proof.
  destruct name as [|c s]; [done|]. cbn [validate_name valid_name].
  rewrite letter_first, (str_all_ext _ _ s letter_rest).
  destruct (letter c); [|done]. cbn [negb andb].
  by destruct (str_all letter_or_digit s).
Qed.

Lemma ref_body_parts name dflt :
  str_contains ":"%char name = false -> str_contains "}"%char name = false ->
  match dflt with Some d => str_contains "}"%char d = false | None => True end ->
  str_contains "}"%char (ref_body name dflt) = false /\
  match split_default (ref_body name dflt) with
  | Some (n, d) => (n, Some d)
  | None => (ref_body name dflt, None)
  end = (name, dflt).
Proof.
  intros Hc Hb Hd. destruct dflt as [d|]; cbn [ref_body].
  - rewrite split_default_app by done. split; [|done]. by rewrite !str_contains_app, Hb, Hd.
  - by rewrite split_default_none.
Qed.

(** *** Positions *)

(** The position after some cells. *)
Definition position (l : list ascii) : Z * Z :=
  (1 + Z.of_nat (length (filter (fun c => c = newline) l)), 1 + Z.of_nat (length (last_line l))).

Lemma last_line_step l c :
  last_line (l ++ [c]) = if bool_decide (c = newline) then [] else last_line l ++ [c].
Proof.
  induction l as [|d l IH]; cbn [last_line app].
  { rewrite bool_decide_eq_false_2 by set_solver. by case_bool_decide. }
  destruct (decide (c = newline)) as [->|Hc].
  - rewrite (bool_decide_eq_true_2 (newline ∈ l ++ [newline])) by set_solver. exact IH.
  - rewrite (bool_decide_eq_false_2 (c = newline)) in * by done.
    assert (E : newline ∈ l ++ [c] <-> newline ∈ l) by set_solver. rewrite (bool_decide_ext _ _ E).
    destruct (bool_decide (newline ∈ l)); [exact IH|]. by case_bool_decide.
Qed.

Lemma position_byte l c : position (l ++ [c]) = advance_byte (position l) c.
Proof.
  unfold position, advance_byte. rewrite last_line_step, filter_app. cbn [fst snd].
  destruct (Ascii.eqb_spec c newline) as [->|Hc].
  - rewrite bool_decide_eq_true_2 by done. rewrite filter_cons_True by done.
    rewrite length_app. cbn. f_equal. lia.
  - rewrite bool_decide_eq_false_2 by done. rewrite filter_cons_False by done.
    rewrite !length_app. cbn. f_equal; lia.
Qed.

Lemma position_bytes l s : position (l ++ bytes s) = advance_position s (position l).
Proof.
  induction s as [|c s IH] in l |- *; cbn [bytes advance_position]; [by rewrite app_nil_r|].
  by rewrite cons_middle, app_assoc, IH, position_byte.
Qed.

Lemma all_cells_snoc l s : all_cells (l ++ [s]) = all_cells l ++ cells s.
Proof. unfold all_cells. rewrite fmap_app, concat_app. cbn. by rewrite app_nil_r. Qed.

Abbreviation pos l := (position (all_cells l)).

(** What is left of a text after the segments [before]. *)
Definition meaning_from (lookup : string -> option string) (out : string) (before l : list Segment)
    (e : Ending) : result string InterpolateError :=
  match eval lookup before l with
  | Err (failed, name) => Err (UnsetVariable name (pos failed).1 (pos failed).2)
  | Ok v =>
      match e with
      | Whole => Ok (out +:+ v)
      | Unclosed _ => Err (Unterminated (pos (before ++ l)).1 (pos (before ++ l)).2)
      | BadName name _ _ => Err (InvalidName name (pos (before ++ l)).1 (pos (before ++ l)).2)
      end
  end.

Lemma meaning_step lookup out before s l e v :
  match s with
  | Chr c => v = c
  | Dollar | Escape => v = "$"%string
  | Ref name dflt => match lookup name with Some v => Some v | None => dflt end = Some v
  end ->
  meaning_from lookup (out +:+ v) (before ++ [s]) l e = meaning_from lookup out before (s :: l) e.
Proof.
  intros Hv. unfold meaning_from. cbn [eval].
  assert (match s with
          | Chr c => Ok c
          | Dollar | Escape => Ok "$"%string
          | Ref name dflt =>
              match lookup name, dflt with
              | Some v, _ => Ok v
              | None, Some d => Ok d
              | None, None => Err (before, name)
              end
          end = Ok v) as ->.
  { destruct s as [c| | |name dflt]; try by subst. destruct (lookup name); [congruence|]. by subst. }
  rewrite <- app_assoc. cbn [app].
  destruct (eval lookup (before ++ [s]) l) as [w|[failed name]]; [|done]. destruct e; try done.
  by rewrite app_assoc_str.
Qed.

Lemma is_char_split c rest :
  is_char c -> c <> "$"%string ->
  exists b t, c = String b t /\ Ascii.eqb b "$"%char = false /\
    split_bytes (utf8_char_len b) (c +:+ rest) = (c, rest).
Proof.
  destruct c as [|b t]; [done|]. intros [Hl Hc] Hne. exists b, t. split; [done|]. split.
  - apply Ascii.eqb_neq. intros ->. apply Hne. destruct t; done.
  - rewrite <- Hl. exact (split_bytes_app (String b t) rest).
Qed.

(** A turn at a reference whose text is known. *)
Lemma loop_ref lookup fuel name dflt rest line column out :
  str_contains ":"%char name = false -> str_contains "}"%char name = false ->
  match dflt with Some d => str_contains "}"%char d = false | None => True end ->
  interpolate_loop lookup (S fuel) ("${" +:+ ref_body name dflt +:+ "}" +:+ rest) line column out
  = match validate_name name line column with
    | Err e => Some (Err e)
    | Ok _ =>
        match (match lookup name with Some v => Some v | None => dflt end) with
        | None => Some (Err (UnsetVariable name line column))
        | Some v =>
            let pos := advance_position ("${" +:+ ref_body name dflt +:+ "}") (line, column) in
            interpolate_loop lookup fuel rest pos.1 pos.2 (out +:+ v)
        end
    end.
Proof.
  intros Hc Hb Hd. destruct (ref_body_parts name dflt Hc Hb Hd) as [Hbody Hsp].
  set (body := ref_body name dflt) in *.
  change ("${" +:+ body +:+ "}" +:+ rest) with (String "$" (String "{" (body +:+ String "}" rest))).
  cbn [interpolate_loop str_starts_with andb].
  change (Ascii.eqb "$" "$") with true. change (Ascii.eqb "{" "$") with false.
  change (Ascii.eqb "{" "{") with true. cbn [andb].
  change (split_bytes 1 (String "{" (body +:+ String "}" rest))).2 with (body +:+ String "}" rest).
  by rewrite split_once_app, Hsp by done.
Qed.

Lemma interpolate_ending lookup fuel before e out :
  ending_ok e ->
  interpolate_loop lookup (S fuel) (ending_source e) (pos before).1 (pos before).2 out
  = Some (meaning_from lookup out before [] e).
Proof.
  intros He. unfold meaning_from. cbn [eval]. rewrite app_nil_r.
  destruct e as [|s|name dflt rest]; cbn [ending_source].
  - cbn [interpolate_loop]. by rewrite app_empty_r.
  - change ("${" +:+ s) with (String "$" (String "{" s)). cbn [interpolate_loop str_starts_with andb].
    change (Ascii.eqb "$" "$") with true. change (Ascii.eqb "{" "$") with false.
    change (Ascii.eqb "{" "{") with true. cbn [andb].
    change (split_bytes 1 (String "{" s)).2 with s. by rewrite split_once_none by done.
  - destruct He as (Hv & Hc & Hb & Hd). rewrite loop_ref by done. by rewrite validate_name_valid, Hv.
Qed.

Lemma valid_name_plain name :
  valid_name name = true -> str_contains ":"%char name = false /\ str_contains "}"%char name = false.
Proof. split; by apply valid_name_contains. Qed.

Lemma interpolate_loop_spec lookup e l fuel before out :
  template_ok l (ending_source e) -> ending_ok e ->
  (String.length (sources l) < fuel)%nat ->
  interpolate_loop lookup fuel (sources l +:+ ending_source e) (pos before).1 (pos before).2 out =
  Some (meaning_from lookup out before l e).
Proof.
  intros Hl He. induction l as [|s l IH] in fuel, before, out, Hl |- *; intros Hf;
    (destruct fuel as [|fuel]; [lia|]).
  { change (sources [] +:+ ending_source e) with (ending_source e). by apply interpolate_ending. }
  destruct Hl as [Hs Hl]. cbn [sources] in *. rewrite length_app_str in Hf. rewrite app_assoc_str.
  assert (Hgo : forall v, (0 < String.length (source s))%nat ->
    match s with
    | Chr c => v = c
    | Dollar | Escape => v = "$"%string
    | Ref name dflt => match lookup name with Some v => Some v | None => dflt end = Some v
    end ->
    interpolate_loop lookup fuel (sources l +:+ ending_source e) (pos (before ++ [s])).1
      (pos (before ++ [s])).2 (out +:+ v) = Some (meaning_from lookup out before (s :: l) e)).
  { intros v Hpos Hv. rewrite IH by (done || lia). f_equal. by apply meaning_step. }
  rewrite all_cells_snoc in Hgo. set (tail := sources l +:+ ending_source e) in *.
  destruct s as [c| | |name dflt].
  - destruct Hs as [Hc Hne]. destruct (is_char_split c tail Hc Hne) as (b & t & -> & Hb & Hsp).
    cbn [source] in *. rewrite app_cons_str in *. cbn [interpolate_loop]. rewrite Hb. cbn [andb].
    rewrite Hsp. specialize (Hgo (String b t) ltac:(cbn; lia) eq_refl). cbn [cells bytes take] in Hgo.
    rewrite position_byte in Hgo. rewrite <- surjective_pairing. exact Hgo.
  - destruct Hs as [H1 H2]. cbn [source] in *. change ("$" +:+ tail) with (String "$" tail).
    cbn [interpolate_loop]. rewrite H1, H2. rewrite !andb_false_r.
    change (split_bytes (utf8_char_len "$") (String "$" tail))
      with (split_bytes (String.length "$") ("$" +:+ tail)). rewrite split_bytes_app.
    specialize (Hgo "$"%string ltac:(cbn; lia) eq_refl). cbn [cells bytes source] in Hgo.
    rewrite position_byte in Hgo. rewrite <- surjective_pairing. exact Hgo.
  - cbn [source] in *. change ("$$" +:+ tail) with (String "$" (String "$" tail)).
    cbn [interpolate_loop]. cbn [str_starts_with Ascii.eqb andb Bool.eqb].
    change (split_bytes 1 (String "$" tail)) with (split_bytes (String.length "$") ("$" +:+ tail)).
    rewrite split_bytes_app. cbn [snd].
    specialize (Hgo "$"%string ltac:(cbn; lia) eq_refl). cbn [cells source] in Hgo.
    rewrite position_bytes in Hgo. cbn [advance_position fst snd] in Hgo. unfold advance_byte in Hgo.
    change (Ascii.eqb "$" newline) with false in Hgo. cbn [fst snd] in Hgo.
    rewrite <- Z.add_assoc in Hgo. exact Hgo.
  - destruct Hs as [Hn Hd]. destruct (valid_name_plain name Hn) as [Hc Hb]. cbn [source] in *.
    rewrite !app_assoc_str. rewrite loop_ref, validate_name_valid, Hn by done.
    destruct (match lookup name with Some v => Some v | None => dflt end) as [v|] eqn:Ev.
    + specialize (Hgo v ltac:(rewrite !length_app_str; cbn; lia) eq_refl). cbn [cells source] in Hgo.
      rewrite position_bytes in Hgo. rewrite <- surjective_pairing. exact Hgo.
    + unfold meaning_from. cbn [eval]. destruct (lookup name); [done|]. by rewrite Ev.
Qed.

Lemma interpolate_with_spec lookup l e :
  template_ok l (ending_source e) -> ending_ok e ->
  interpolate_with lookup (sources l +:+ ending_source e) = Some (meaning lookup l e).
Proof.
  intros Hl He. unfold interpolate_with.
  assert (Hf : (String.length (sources l) < S (String.length (sources l +:+ ending_source e)))%nat)
    by (rewrite length_app_str; lia).
  exact (interpolate_loop_spec lookup e l _ [] "" Hl He Hf).
Qed.

(** C40: interpolation means what the syntax says. Of a text made of UTF-8
    characters, lone and escaped dollars and references with and without a
    default, [interpolate_with] returns, and returns the text with every
    reference replaced by the variable's value, or by its default when it is
    unset, in one pass and from the left; or the first reference that is unset
    and has no default; and when the text ends in a reference without a closing
    brace or with a name that is not one, and all before it has a value, that
    fault. The position of the fault is one more than the newlines in front of
    it, and one more than what follows the last of them, a character of the text
    being one column and a reference as many as it has bytes. *)
Theorem interpolate_template lookup l e
  (Hl : template_ok l (ending_source e)) (He : ending_ok e) :
  interpolate_with lookup (sources l +:+ ending_source e) = Some (meaning lookup l e).
Proof. by apply interpolate_with_spec. Qed.

Definition demo_env (name : string) : option string :=
  if String.eqb name "HOST" then Some "${db}"%string else None.

Lemma interpolate_template_witness :
  interpolate_with demo_env "a$$b ${HOST}:${PORT:-80}"%string = Some (Ok "a$b ${db}:80"%string) /\
  interpolate_with demo_env (String newline "x${HOST}${PORT}"%string) = Some (Err (UnsetVariable "PORT" 2 9)) /\
  interpolate_with demo_env "a: ${Host}"%string = Some (Err (InvalidName "Host" 1 4)) /\
  interpolate_with demo_env "a: ${HOST"%string = Some (Err (Unterminated 1 4)).
Proof.
  split; [|split; [|split]].
  - apply (interpolate_template demo_env
      [Chr "a"; Escape; Chr "b"; Chr " "; Ref "HOST" None; Chr ":"; Ref "PORT" (Some "80"%string)] Whole);
      cbn; repeat split; done.
  - apply (interpolate_template demo_env
      [Chr (String newline EmptyString); Chr "x"; Ref "HOST" None; Ref "PORT" None] Whole);
      cbn; repeat split; done.
  - apply (interpolate_template demo_env [Chr "a"; Chr ":"; Chr " "] (BadName "Host" None ""));
      cbn; repeat split; done.
  - apply (interpolate_template demo_env [Chr "a"; Chr ":"; Chr " "] (Unclosed "HOST"));
      cbn; repeat split; done.
Defined.

(** The bytes of a reference are counted, and the characters of the text: a
    fault after a default of one character of two bytes is a column further
    right than after the character itself. *)
Lemma columns_count_bytes_in_references :
  let accented := String "195" (String "169" "")%string in
  interpolate_with demo_env ("${A:-" +:+ accented +:+ "}${B}") = Some (Err (UnsetVariable "B" 1 9)) /\
  interpolate_with demo_env ("${A:-e}${B}") = Some (Err (UnsetVariable "B" 1 8)) /\
  interpolate_with demo_env (accented +:+ "${B}") = Some (Err (UnsetVariable "B" 1 2)).
Proof. vm_compute. repeat split; reflexivity. Qed.

(** *** Escaping *)

(** A text, as the list of its characters, with every dollar doubled. *)
Definition escape (chars : list string) : list Segment :=
  (fun c => if String.eqb c "$" then Escape else Chr c) <$> chars.

Fixpoint concat_str (l : list string) : string :=
  match l with [] => "" | s :: l => s +:+ concat_str l end.

Lemma escape_ok chars tail : Forall is_char chars -> template_ok (escape chars) tail.
Proof.
  induction 1 as [|c l Hc _ IH]; [done|]. unfold escape. cbn [fmap list_fmap].
  destruct (String.eqb_spec c "$"); by split.
Qed.

Lemma eval_escape lookup chars before : eval lookup before (escape chars) = Ok (concat_str chars).
Proof.
  induction chars as [|c l IH] in before |- *; [done|]. unfold escape in *. cbn [fmap list_fmap].
  destruct (String.eqb_spec c "$") as [->|]; cbn [eval concat_str]; by rewrite IH.
Qed.

(** [$$] escapes any text: the text with its dollars doubled interpolates
    to itself, whatever the environment holds. *)
Theorem interpolate_escape lookup chars (Hc : Forall is_char chars) :
  interpolate_with lookup (sources (escape chars)) = Some (Ok (concat_str chars)).
Proof.
  pose proof (interpolate_with_spec lookup (escape chars) Whole (escape_ok chars _ Hc) I) as H.
  cbn [ending_source] in H. rewrite app_empty_r in H. rewrite H. unfold meaning. by rewrite eval_escape.
Qed.

Lemma interpolate_escape_witness :
  interpolate_with demo_env "$${HOST}"%string = Some (Ok "${HOST}"%string).
Proof.
  apply (interpolate_escape demo_env ["$"; "{"; "H"; "O"; "S"; "T"; "}"]%string).
  repeat constructor.
Defined.
