(* ===== verification/GnmiPath.v ===== *)
(** * GnmiPath: gNMI paths and path templates
      (encoder/gnmi/path.rs, and [Path] with its [Display] of encoder/gnmi/proto.rs)

    Texts are byte strings; the delimiters are ASCII, so splitting at them is
    the same on bytes and on characters. A refusal is a constructor for each
    message of the source. *)

From Stdlib Require Import ZArith Lia Ascii Sorted.
From stdpp Require Import prelude strings list.
From S2P Require Import Prelude Text Metric.

(** [proto::PathElem]; the keys are a [BTreeMap]. *)
Record PathElem := mk_elem { el_name : string; el_key : list (string * string) }.

(** [proto::Path]. *)
Record Path := mk_path { origin : string; elem : list PathElem; target : string }.

Definition root_path : Path := mk_path "" [] "".

(** ** Printing: [fmt::Display for Path] *)

Definition backslash : ascii := "092"%char.

(** A key value, with [\]] and [\\] escaped. *)
Fixpoint display_value (v : string) : string :=
  match v with
  | EmptyString => EmptyString
  | String c v =>
      if Ascii.eqb c "]"%char || Ascii.eqb c backslash
      then String backslash (String c (display_value v))
      else String c (display_value v)
  end.

Fixpoint display_keys (keys : list (string * string)) : string :=
  match keys with
  | [] => ""
  | (k, v) :: keys => "[" +:+ k +:+ "=" +:+ display_value v +:+ "]" +:+ display_keys keys
  end.

Fixpoint display_elems (l : list PathElem) : string :=
  match l with
  | [] => ""
  | e :: l => "/" +:+ el_name e +:+ display_keys (el_key e) +:+ display_elems l
  end.

Definition path_display (p : Path) : string :=
  (if String.eqb (origin p) "" then "" else origin p +:+ ":") +:+
  match elem p with [] => "/" | l => display_elems l end.

(** ** Parsing a client's path *)

(** [s.find(":/")]: the text before it, and the text from its slash on. *)
Fixpoint find_origin (s : string) : option (string * string) :=
  match s with
  | EmptyString => None
  | String c s' =>
      if Ascii.eqb c ":"%char && str_starts_with "/"%char s' then Some (EmptyString, s')
      else match find_origin s' with Some (a, b) => Some (String c a, b) | None => None end
  end.

(** [split_origin]. *)
Definition split_origin (s : string) : option string * string :=
  match find_origin s with
  | Some (o, rest) =>
      if str_contains "/"%char o || str_contains "["%char o then (None, s) else (Some o, rest)
  | None => (None, s)
  end.

Inductive PathError :=
| UnmatchedClose
| EmptyElement
| KeyWithoutEquals (element : string)
| EmptyKey (element : string)
| UnclosedGroup (element : string)
| DuplicateKey (key element : string)
| UnexpectedAfterGroup (c : ascii) (element : string).

(** The loop that reads an element's name. *)
Fixpoint take_name (s : string) : result (string * string) PathError :=
  match s with
  | EmptyString => Ok (EmptyString, EmptyString)
  | String c s' =>
      if Ascii.eqb c "/"%char || Ascii.eqb c "["%char then Ok (EmptyString, s)
      else if Ascii.eqb c "]"%char then Err UnmatchedClose
      else let? (n, rest) := take_name s' in Ok (String c n, rest)
  end.

(** The loop that reads a key, up to its [=]. *)
Fixpoint take_key (name s : string) : result (string * string) PathError :=
  match s with
  | EmptyString => Err (KeyWithoutEquals name)
  | String c s' =>
      if Ascii.eqb c "="%char then Ok (EmptyString, s')
      else if Ascii.eqb c "]"%char then Err (KeyWithoutEquals name)
      else let? (k, rest) := take_key name s' in Ok (String c k, rest)
  end.

(** The loop that reads a key value, up to its [\]]; a backslash takes the next
    character as it is. *)
Fixpoint take_value (name s : string) : result (string * string) PathError :=
  match s with
  | EmptyString => Err (UnclosedGroup name)
  | String c s' =>
      if Ascii.eqb c "]"%char then Ok (EmptyString, s')
      else if Ascii.eqb c backslash then
        match s' with
        | EmptyString => Err (UnclosedGroup name)
        | String d s'' => let? (v, rest) := take_value name s'' in Ok (String d v, rest)
        end
      else let? (v, rest) := take_value name s' in Ok (String c v, rest)
  end.

(** The loop over an element's key groups; [None] when the fuel is out. *)
Fixpoint take_keys (fuel : nat) (name s : string) (key : list (string * string))
  : option (result (list (string * string) * string) PathError) :=
  match fuel with
  | O => None
  | S fuel =>
      match strip_prefix_char "["%char s with
      | None => Some (Ok (key, s))
      | Some s =>
          match take_key name s with
          | Err e => Some (Err e)
          | Ok (k, s) =>
              if String.eqb k "" then Some (Err (EmptyKey name))
              else
                match take_value name s with
                | Err e => Some (Err e)
                | Ok (v, s) =>
                    match bt_get k key with
                    | Some _ => Some (Err (DuplicateKey k name))
                    | None => take_keys fuel name s (bt_insert k v key)
                    end
                end
          end
      end
  end.

(** The loop over the elements. *)
Fixpoint take_elems (fuel : nat) (s : string) : option (result (list PathElem) PathError) :=
  match fuel with
  | O => None
  | S fuel =>
      match take_name s with
      | Err e => Some (Err e)
      | Ok (name, s) =>
          if String.eqb name "" then Some (Err EmptyElement)
          else
            match take_keys (S (String.length s)) name s [] with
            | None => None
            | Some (Err e) => Some (Err e)
            | Some (Ok (key, s)) =>
                match s with
                | EmptyString => Some (Ok [mk_elem name key])
                | String c s =>
                    if Ascii.eqb c "/"%char then
                      match take_elems fuel s with
                      | Some (Ok l) => Some (Ok (mk_elem name key :: l))
                      | r => r
                      end
                    else Some (Err (UnexpectedAfterGroup c name))
                end
            end
      end
  end.

(** [parse_client_path]; every element and every group takes at least one
    character, so the length bounds both loops. *)
Definition parse_client_path (s : string) : option (result Path PathError) :=
  let (o, rest) := split_origin s in
  let body := default rest (strip_prefix_char "/"%char rest) in
  if String.eqb body "" then Some (Ok (mk_path (default "" o) [] ""))
  else
    match take_elems (S (String.length body)) body with
    | Some (Ok l) => Some (Ok (mk_path (default "" o) l ""))
    | Some (Err e) => Some (Err e)
    | None => None
    end.

(** ** Printing and reading back *)

Definition no_char (c : ascii) (s : string) : Prop := str_contains c s = false.

(** A text that ends an element's name: nothing, or a slash or a bracket. *)
Definition name_end (s : string) : Prop :=
  s = ""%string \/ exists c s', s = String c s' /\ (c = "/"%char \/ c = "["%char).

Lemma take_name_app n rest :
  no_char "/" n -> no_char "[" n -> no_char "]" n -> name_end rest ->
  take_name (n +:+ rest) = Ok (n, rest).
Proof.
  unfold no_char. induction n as [|c n IH]; cbn [str_contains]; intros H1 H2 H3 Hr.
  - change ("" +:+ rest) with rest. by destruct Hr as [->|(c & s' & -> & [-> | ->])].
  - apply orb_false_iff in H1 as [C1 H1]. apply orb_false_iff in H2 as [C2 H2].
    apply orb_false_iff in H3 as [C3 H3]. rewrite app_cons_str. cbn [take_name].
    rewrite C1, C2, C3. cbn [orb]. by rewrite IH.
Qed.

Lemma take_key_app name k rest :
  no_char "=" k -> no_char "]" k -> take_key name (k +:+ String "=" rest) = Ok (k, rest).
Proof.
  unfold no_char. induction k as [|c k IH]; cbn [str_contains]; intros H1 H2; [done|].
  apply orb_false_iff in H1 as [C1 H1]. apply orb_false_iff in H2 as [C2 H2].
  rewrite app_cons_str. cbn [take_key]. rewrite C1, C2. by rewrite IH.
Qed.

Lemma take_value_app name v rest :
  take_value name (display_value v +:+ String "]" rest) = Ok (v, rest).
Proof.
  induction v as [|c v IH]; [done|]. cbn [display_value].
  destruct (Ascii.eqb c "]" || Ascii.eqb c backslash) eqn:E.
  - rewrite !app_cons_str. cbn [take_value]. change (Ascii.eqb backslash "]") with false.
    rewrite Ascii.eqb_refl. by rewrite IH.
  - apply orb_false_iff in E as [E1 E2]. rewrite app_cons_str. cbn [take_value].
    rewrite E1, E2. by rewrite IH.
Qed.

(** A key that can be printed: not empty, without [=] and [\]]. *)
Definition key_ok (k : string) : Prop := k <> ""%string /\ no_char "=" k /\ no_char "]" k.

Definition elem_ok (e : PathElem) : Prop :=
  el_name e <> ""%string /\ no_char "/" (el_name e) /\ no_char "[" (el_name e) /\
  no_char "]" (el_name e) /\ bt_sorted (el_key e) /\ Forall key_ok (map fst (el_key e)).

(** A path that can be printed. *)
Definition path_ok (p : Path) : Prop :=
  no_char "/" (origin p) /\ no_char "[" (origin p) /\ target p = ""%string /\ Forall elem_ok (elem p).

Lemma bt_insert_last {V} k (v : V) m :
  Forall (fun k' => str_lt k' k) (map fst m) -> bt_insert k v m = m ++ [(k, v)].
Proof.
  induction m as [|[k' v'] m IH]; cbn; intros H; [done|].
  apply Forall_cons_1 in H as [Hk H]. unfold str_lt in Hk. rewrite String.compare_antisym, Hk.
  cbn. by rewrite IH.
Qed.

Lemma bt_get_last {V} k (m : list (string * V)) :
  Forall (fun k' => str_lt k' k) (map fst m) -> bt_get k m = None.
Proof.
  induction m as [|[k' v'] m IH]; cbn; intros H; [done|].
  apply Forall_cons_1 in H as [Hk H]. destruct (String.eqb_spec k' k) as [->|]; [|by apply IH].
  by apply irreflexivity in Hk; [|apply _].
Qed.

(** A text that ends an element: nothing, or a slash. *)
Definition elem_end (s : string) : Prop := s = ""%string \/ exists s', s = String "/" s'.

Lemma take_keys_app fuel name keys acc rest :
  bt_sorted (acc ++ keys) -> Forall key_ok (map fst keys) -> elem_end rest ->
  (length keys < fuel)%nat ->
  take_keys fuel name (display_keys keys +:+ rest) acc = Some (Ok (acc ++ keys, rest)).
Proof.
  induction keys as [|[k v] keys IH] in fuel, acc |- *; intros Hs Hk Hr Hf.
  - destruct fuel as [|fuel]; [cbn in Hf; lia|]. rewrite app_nil_r. cbn [display_keys].
    change ("" +:+ rest) with rest. by destruct Hr as [->|[s' ->]].
  - destruct fuel as [|fuel]; [lia|]. cbn [map fst] in Hk.
    apply Forall_cons_1 in Hk as [(Hne & He & Hb) Hk]. cbn [display_keys].
    assert (("[" +:+ k +:+ "=" +:+ display_value v +:+ "]" +:+ display_keys keys) +:+ rest =
      String "[" (k +:+ String "=" (display_value v +:+ String "]" (display_keys keys +:+ rest)))) as ->.
    { by rewrite !app_assoc_str. }
    cbn [take_keys strip_prefix_char]. change (Ascii.eqb "[" "[") with true. cbn iota.
    rewrite take_key_app by done. rewrite (proj2 (String.eqb_neq _ _) Hne).
    rewrite take_value_app.
    assert (Hlt : Forall (fun k' => str_lt k' k) (map fst acc)).
    { unfold bt_sorted in Hs. rewrite map_app in Hs. cbn in Hs.
      clear - Hs. induction acc as [|[k1 v1] acc IH]; [constructor|]. cbn in Hs |- *.
      apply StronglySorted_inv in Hs as [Hs Hf]. constructor; [|by apply IH].
      apply Forall_app in Hf as [_ Hf]. by apply Forall_cons_1 in Hf as [? _]. }
    rewrite bt_get_last, bt_insert_last by done.
    rewrite IH; [by rewrite <- app_assoc| |done|done|cbn in Hf; lia]. by rewrite <- app_assoc.
Qed.

Lemma display_keys_end keys rest : elem_end rest -> name_end (display_keys keys +:+ rest).
Proof.
  intros Hr. destruct keys as [|[k v] keys]; cbn [display_keys].
  - change ("" +:+ rest) with rest. destruct Hr as [->|[s' ->]]; [by left|right]. eauto.
  - right. rewrite !app_assoc_str. eexists _, _. split; [reflexivity|by right].
Qed.

Lemma display_keys_length keys : (length keys <= String.length (display_keys keys))%nat.
Proof.
  induction keys as [|[k v] keys IH]; [done|]. cbn [display_keys length].
  rewrite !length_app_str. cbn [String.length]. lia.
Qed.

Lemma display_elems_end l : elem_end (display_elems l).
Proof. destruct l; [by left|right]. cbn [display_elems]. by eexists. Qed.

(** The elements without their first slash. *)
Lemma take_elems_app fuel e l :
  Forall elem_ok (e :: l) -> (length l < fuel)%nat ->
  take_elems fuel (el_name e +:+ display_keys (el_key e) +:+ display_elems l) = Some (Ok (e :: l)).
Proof.
  induction l as [|e' l IH] in fuel, e |- *; intros Hok Hf;
    apply Forall_cons_1 in Hok as [(Hne & H1 & H2 & H3 & Hs & Hk) Hok];
    (destruct fuel as [|fuel]; [lia|]); cbn [take_elems].
  - rewrite take_name_app by (done || apply display_keys_end, display_elems_end).
    rewrite (proj2 (String.eqb_neq _ _) Hne).
    rewrite take_keys_app; [|done|done|by left|].
    2: { rewrite length_app_str. pose proof (display_keys_length (el_key e)). lia. }
    by destruct e.
  - rewrite take_name_app by (done || apply display_keys_end, display_elems_end).
    rewrite (proj2 (String.eqb_neq _ _) Hne).
    rewrite take_keys_app; [|done|done|apply display_elems_end|].
    2: { rewrite length_app_str. pose proof (display_keys_length (el_key e)). lia. }
    cbn [display_elems]. rewrite app_cons_str. change (Ascii.eqb "/" "/") with true. cbn iota.
    change ("" +:+ ?x) with x. rewrite IH by (done || (cbn in Hf; lia)). by destruct e.
Qed.

Lemma find_origin_app o s :
  no_char "/" o -> find_origin (o +:+ String ":" (String "/" s)) = Some (o, String "/" s).
Proof.
  unfold no_char. induction o as [|c o IH]; cbn [str_contains]; intros H; [done|].
  apply orb_false_iff in H as [Hc H]. rewrite app_cons_str. cbn [find_origin].
  assert (str_starts_with "/" (o +:+ String ":" (String "/" s)) = false) as ->.
  { destruct o as [|d o]; [done|]. cbn [str_contains] in H.
    apply orb_false_iff in H as [Hd _]. rewrite app_cons_str. exact Hd. }
  rewrite andb_false_r. by rewrite IH.
Qed.

Lemma split_origin_slash s : split_origin (String "/" s) = (None, String "/" s).
Proof.
  unfold split_origin. cbn [find_origin]. change (Ascii.eqb "/" ":") with false. cbn [andb].
  by destruct (find_origin s) as [[a b]|].
Qed.

(** The elements, as printed after the origin. *)
Definition display_body (p : Path) : string :=
  match elem p with [] => "/" | l => display_elems l end.

Lemma display_body_slash p : exists s, display_body p = String "/" s /\
  s = match elem p with [] => ""%string
      | e :: l => el_name e +:+ display_keys (el_key e) +:+ display_elems l end.
Proof. unfold display_body. destruct (elem p) as [|e l]; eexists; by split. Qed.

Lemma split_origin_display p :
  no_char "/" (origin p) -> no_char "[" (origin p) ->
  exists o, split_origin (path_display p) = (o, display_body p) /\ default ""%string o = origin p.
Proof.
  intros H1 H2. unfold path_display. fold (display_body p).
  destruct (display_body_slash p) as (s & -> & _).
  destruct (String.eqb_spec (origin p) "") as [E|E].
  - exists None. rewrite E. split; [|done]. apply split_origin_slash.
  - exists (Some (origin p)). split; [|done]. unfold split_origin.
    rewrite app_assoc_str. change (":" +:+ String "/" s) with (String ":" (String "/" s)).
    rewrite (find_origin_app (origin p) s H1). unfold no_char in *.
    by rewrite H1, H2.
Qed.

Lemma elems_length l : Forall elem_ok l -> (length l <= String.length (display_elems l))%nat.
Proof.
  induction l as [|e l IH]; [done|]. intros [_ H]%Forall_cons_1. cbn [display_elems length].
  rewrite !length_app_str. cbn [String.length]. specialize (IH H). lia.
Qed.

Lemma parse_display p : path_ok p -> parse_client_path (path_display p) = Some (Ok p).
Proof.
  intros (H1 & H2 & Ht & He). unfold parse_client_path.
  destruct (split_origin_display p H1 H2) as (o & -> & Ho).
  destruct (display_body_slash p) as (s & -> & Es). cbn [strip_prefix_char].
  change (Ascii.eqb "/" "/") with true. cbn iota. cbn [default from_option id].
  rewrite Ho. destruct p as [po pe pt]. cbn [origin elem target] in *. subst pt.
  destruct pe as [|e l]; subst s; [done|].
  assert (Hne : el_name e <> ""%string) by (by apply Forall_cons_1 in He as [(? & _) _]).
  destruct (String.eqb_spec (el_name e +:+ display_keys (el_key e) +:+ display_elems l) "") as [E|_].
  { destruct (el_name e); done. }
  rewrite take_elems_app; [done|done|].
  apply Forall_cons_1 in He as [_ He]. pose proof (elems_length l He). rewrite !length_app_str. lia.
Qed.

(** A path that was printed reads back: for every path whose names, keys
    and origin can be written, whatever its key values hold, brackets, slashes
    and backslashes included, [parse_client_path] of its [Display] text ends
    and gives the path. *)
Theorem path_display_roundtrip p (Hp : path_ok p) :
  parse_client_path (path_display p) = Some (Ok p).
Proof. by apply parse_display. Qed.

Definition demo_path : Path :=
  mk_path "openconfig"
    [mk_elem "interfaces" []; mk_elem "interface" [("name", "ge-0/0/1]\")]%string] "".

Lemma path_display_roundtrip_witness :
  path_display demo_path = "openconfig:/interfaces/interface[name=ge-0/0/1\]\\]"%string /\
  parse_client_path (path_display demo_path) = Some (Ok demo_path).
Proof.
  split; [reflexivity|]. apply path_display_roundtrip. unfold path_ok, elem_ok, key_ok, no_char.
  repeat (constructor || split); done.
Defined.

(** ** Templates *)

Definition NAME_PLACEHOLDER : string := "name".

(** [Part]. *)
Inductive Part :=
| Literal (s : string)
| PlaceholderPart (name : string)
| Optional (name : string).

(** [Segment] and [PathTemplate]. *)
Record Segment := mk_segment { seg_name : Part; seg_keys : list (string * Part) }.
Record PathTemplate := mk_template { segments : list Segment }.

(** The placeholder a part is, and whether it is optional. *)
Definition part_placeholder (p : Part) : option (string * bool) :=
  match p with
  | Literal _ => None
  | PlaceholderPart name => Some (name, false)
  | Optional name => Some (name, true)
  end.

Inductive TemplateError :=
| OriginPrefix (origin : string)
| NoElements
| EmptySegment
| NoElementName (raw : string)
| UnmatchedCloseIn (raw : string)
| OptionalElementName (label raw : string)
| ExpectedOpen (raw : string)
| UnclosedOpen (raw : string)
| NestedOpen (raw : string)
| GroupWithoutEquals (group raw : string)
| GroupEmptyKey (group raw : string)
| KeyNotLiteral (key raw : string)
| RepeatedKey (key raw : string)
| MalformedPlaceholder (s : string)
| MixedBraces (s : string).

(** [s.strip_prefix('{').and_then(|r| r.strip_suffix('}'))]. *)
Definition strip_braces (s : string) : option string :=
  let! r := strip_prefix_char "{"%char s in strip_suffix "}" r.

(** [parse_part]. *)
Definition parse_part (s : string) : result Part TemplateError :=
  match strip_braces s with
  | Some inner =>
      let (label, optional) :=
        match strip_suffix "?" inner with
        | Some label => (label, true)
        | None => (inner, false)
        end in
      if String.eqb label "" || str_contains "{"%char label || str_contains "}"%char label
         || str_contains "?"%char label
      then Err (MalformedPlaceholder s)
      else Ok (if optional then Optional label else PlaceholderPart label)
  | None =>
      if str_contains "{"%char s || str_contains "}"%char s then Err (MixedBraces s)
      else Ok (Literal s)
  end.

(** [s.find(c)]: the text before the first [c], and the text from it on. *)
Fixpoint find_char (c : ascii) (s : string) : option (string * string) :=
  match s with
  | EmptyString => None
  | String d s' =>
      if Ascii.eqb d c then Some (EmptyString, s)
      else match find_char c s' with Some (a, b) => Some (String d a, b) | None => None end
  end.

(** [split_outside_brackets], from nesting depth [depth]. *)
Fixpoint split_outside_brackets (depth : nat) (s : string) : list string :=
  match s with
  | EmptyString => [EmptyString]
  | String c s =>
      if Ascii.eqb c "/"%char && (depth =? 0)%nat then EmptyString :: split_outside_brackets depth s
      else
        let depth := if Ascii.eqb c "["%char then S depth
                     else if Ascii.eqb c "]"%char then pred depth else depth in
        match split_outside_brackets depth s with
        | p :: ps => String c p :: ps
        | [] => [String c EmptyString]
        end
  end.

(** The loop of [parse_segment] over the key groups; [None] when the fuel is
    out. *)
Fixpoint parse_groups (fuel : nat) (raw rest : string) (keys : list (string * Part))
  : option (result (list (string * Part)) TemplateError) :=
  match fuel with
  | O => None
  | S fuel =>
      if String.eqb rest "" then Some (Ok keys)
      else
        match strip_prefix_char "["%char rest with
        | None => Some (Err (ExpectedOpen raw))
        | Some inner =>
            match split_once "]"%char inner with
            | None => Some (Err (UnclosedOpen raw))
            | Some (group, after) =>
                if str_contains "["%char group then Some (Err (NestedOpen raw))
                else
                  match split_once "="%char group with
                  | None => Some (Err (GroupWithoutEquals group raw))
                  | Some (key, value) =>
                      if String.eqb key "" then Some (Err (GroupEmptyKey group raw))
                      else if str_contains "{"%char key || str_contains "}"%char key
                      then Some (Err (KeyNotLiteral key raw))
                      else if existsb (fun kv => String.eqb kv.1 key) keys
                      then Some (Err (RepeatedKey key raw))
                      else
                        match parse_part value with
                        | Err e => Some (Err e)
                        | Ok p => parse_groups fuel raw after (keys ++ [(key, p)])
                        end
                  end
            end
        end
  end.

(** [parse_segment]. *)
Definition parse_segment (raw : string) : option (result Segment TemplateError) :=
  if String.eqb raw "" then Some (Err EmptySegment)
  else
    let (name, rest) := match find_char "["%char raw with
                        | Some (a, b) => (a, b)
                        | None => (raw, ""%string)
                        end in
    if String.eqb name "" then Some (Err (NoElementName raw))
    else if str_contains "]"%char name then Some (Err (UnmatchedCloseIn raw))
    else
      match parse_part name with
      | Err e => Some (Err e)
      | Ok (Optional label) => Some (Err (OptionalElementName label raw))
      | Ok part =>
          match parse_groups (S (String.length rest)) raw rest [] with
          | Some (Ok keys) => Some (Ok (mk_segment part keys))
          | Some (Err e) => Some (Err e)
          | None => None
          end
      end.

Fixpoint parse_segments (l : list string) : option (result (list Segment) TemplateError) :=
  match l with
  | [] => Some (Ok [])
  | raw :: l =>
      match parse_segment raw with
      | Some (Ok s) =>
          match parse_segments l with
          | Some (Ok ss) => Some (Ok (s :: ss))
          | r => r
          end
      | Some (Err e) => Some (Err e)
      | None => None
      end
  end.

(** [PathTemplate::parse]. *)
Definition gnmi_template_parse (template : string) : option (result PathTemplate TemplateError) :=
  match split_origin template with
  | (Some o, _) => Some (Err (OriginPrefix o))
  | (None, _) =>
      let body := default template (strip_prefix_char "/"%char template) in
      if String.eqb body "" then Some (Err NoElements)
      else
        match parse_segments (split_outside_brackets 0 body) with
        | Some (Ok ss) => Some (Ok (mk_template ss))
        | Some (Err e) => Some (Err e)
        | None => None
        end
  end.

(** [PathTemplate::placeholders]. *)
Definition placeholders (t : PathTemplate) : list (string * bool) :=
  segments t ≫= fun s => omap part_placeholder (seg_name s :: (seg_keys s).*2).

(** [is_valid_element_name]. *)
Definition is_valid_element_name (element : string) : bool :=
  negb (String.eqb element "") &&
  negb (str_contains "/"%char element || str_contains "["%char element || str_contains "]"%char element).

Inductive EventRejected :=
| MissingLabel (part : Part) (metric : string)
| BadElement (metric element : string).

(** [name.replace('_', "-")]. *)
Fixpoint dashes (s : string) : string :=
  match s with
  | EmptyString => EmptyString
  | String c s => String (if Ascii.eqb c "_"%char then "-"%char else c) (dashes s)
  end.

(** [resolve]. *)
Definition resolve (part : Part) (name : string) (labels : Labels)
  : result (option string) EventRejected :=
  match part with
  | Literal s => Ok (Some s)
  | PlaceholderPart p =>
      if String.eqb p NAME_PLACEHOLDER then Ok (Some (dashes name))
      else match bt_get p (labels_iter labels) with
           | Some v => Ok (Some v)
           | None => Err (MissingLabel part name)
           end
  | Optional p =>
      if String.eqb p NAME_PLACEHOLDER then Ok (Some (dashes name))
      else Ok (bt_get p (labels_iter labels))
  end.

(** The loop of [render] over a segment's keys. *)
Fixpoint render_keys (keys : list (string * Part)) (name : string) (labels : Labels)
    (acc : list (string * string)) : result (list (string * string)) EventRejected :=
  match keys with
  | [] => Ok acc
  | (k, v) :: keys =>
      let? value := resolve v name labels in
      let acc := match value with Some value => bt_insert k value acc | None => acc end in
      render_keys keys name labels acc
  end.

Definition render_segment (s : Segment) (name : string) (labels : Labels)
  : result PathElem EventRejected :=
  let? key := render_keys (seg_keys s) name labels [] in
  let? value := resolve (seg_name s) name labels in
  let? element := ok_or value (MissingLabel (seg_name s) name) in
  if negb (is_valid_element_name element) then Err (BadElement name element)
  else Ok (mk_elem element key).

Fixpoint render_segments (l : list Segment) (name : string) (labels : Labels)
  : result (list PathElem) EventRejected :=
  match l with
  | [] => Ok []
  | s :: l =>
      let? e := render_segment s name labels in
      let? es := render_segments l name labels in
      Ok (e :: es)
  end.

(** [PathTemplate::render]. *)
Definition gnmi_render (t : PathTemplate) (name : string) (labels : Labels)
  : result Path EventRejected :=
  let? es := render_segments (segments t) name labels in
  Ok (mk_path "" es "").

(** ** What a template renders reads back *)

Lemma no_char_app_l c a b : no_char c (a +:+ b) -> no_char c a.
Proof. unfold no_char. rewrite str_contains_app. by intros [? _]%orb_false_iff. Qed.

Definition segment_ok (s : Segment) : Prop := Forall key_ok (map fst (seg_keys s)).

Lemma parse_groups_ok fuel raw rest keys keys' :
  Forall key_ok (map fst keys) -> parse_groups fuel raw rest keys = Some (Ok keys') ->
  Forall key_ok (map fst keys').
Proof.
  induction fuel as [|fuel IH] in rest, keys |- *; intros Hk; cbn [parse_groups]; [done|].
  destruct (String.eqb rest ""); [by intros [= <-]|].
  destruct (strip_prefix_char _ rest) as [inner|]; [|done].
  destruct (split_once "]" inner) as [[group after]|] eqn:Eg; [|done].
  destruct (str_contains "[" group); [done|].
  destruct (split_once "=" group) as [[key value]|] eqn:Ek; [|done].
  destruct (String.eqb_spec key "") as [|Hne]; [done|].
  destruct (str_contains "{" key || str_contains "}" key); [done|].
  destruct (existsb _ keys); [done|]. destruct (parse_part value) as [p|]; [|done].
  apply IH. rewrite map_app. apply Forall_app_2; [done|]. constructor; [|constructor].
  apply split_once_spec in Eg as [Hg _]. apply split_once_spec in Ek as [He ->].
  split; [done|]. split; [done|]. by eapply no_char_app_l.
Qed.

Lemma parse_segment_ok raw s : parse_segment raw = Some (Ok s) -> segment_ok s.
Proof.
  unfold parse_segment. destruct (String.eqb raw ""); [done|].
  destruct (match find_char "[" raw with Some (a, b) => (a, b) | None => (raw, ""%string) end)
    as [name rest].
  destruct (String.eqb name ""); [done|]. destruct (str_contains "]" name); [done|].
  destruct (parse_part name) as [[]|]; try done;
    destruct (parse_groups _ raw rest []) as [[keys|]|] eqn:Eg; try done; intros [= <-];
    eapply parse_groups_ok; [|exact Eg| |exact Eg]; constructor.
Qed.

Lemma parse_segments_ok l ss : parse_segments l = Some (Ok ss) -> Forall segment_ok ss.
Proof.
  induction l as [|raw l IH] in ss |- *; cbn [parse_segments]; [by intros [= <-]|].
  destruct (parse_segment raw) as [[s|]|] eqn:Es; [|done..].
  destruct (parse_segments l) as [[ss'|]|]; [|done..]. intros [= <-].
  constructor; [by eapply parse_segment_ok|by apply IH].
Qed.

Lemma template_segments_ok text t :
  gnmi_template_parse text = Some (Ok t) -> Forall segment_ok (segments t).
Proof.
  unfold gnmi_template_parse. destruct (split_origin text) as [[o|] rest]; [done|].
  destruct (String.eqb _ ""); [done|].
  destruct (parse_segments _) as [[ss|]|] eqn:E; [|done..]. intros [= <-].
  by eapply parse_segments_ok.
Qed.

Lemma render_keys_ok keys name labels acc key :
  bt_sorted acc -> Forall key_ok (map fst acc) -> Forall key_ok (map fst keys) ->
  render_keys keys name labels acc = Ok key ->
  bt_sorted key /\ Forall key_ok (map fst key).
Proof.
  induction keys as [|[k v] keys IH] in acc |- *; cbn [render_keys map fst]; intros Hs Ha Hk.
  - by intros [= <-].
  - apply Forall_cons_1 in Hk as [Hk1 Hk]. destruct (resolve v name labels) as [[value|]|]; [| |done].
    + apply IH; [by apply bt_insert_sorted|by apply bt_insert_Forall|done].
    + by apply IH.
Qed.

Lemma render_segment_ok s name labels e :
  segment_ok s -> render_segment s name labels = Ok e -> elem_ok e.
Proof.
  intros Hs. unfold render_segment.
  destruct (render_keys _ _ _ []) as [key|] eqn:Ek; [|done].
  destruct (resolve (seg_name s) name labels) as [[element|]|]; cbn; [|done..].
  destruct (is_valid_element_name element) eqn:Ev; [|done]. intros [= <-].
  unfold is_valid_element_name in Ev. apply andb_true_iff in Ev as [E1 E2].
  apply negb_true_iff in E1, E2. apply String.eqb_neq in E1.
  rewrite !orb_false_iff in E2. destruct E2 as [[E2 E3] E4].
  destruct (render_keys_ok _ _ _ [] key (SSorted_nil _) (List.Forall_nil _) Hs Ek).
  unfold elem_ok, no_char. cbn. done.
Qed.

Lemma render_segments_ok l name labels es :
  Forall segment_ok l -> render_segments l name labels = Ok es -> Forall elem_ok es.
Proof.
  induction l as [|s l IH] in es |- *; cbn [render_segments]; intros Hl; [by intros [= <-]|].
  apply Forall_cons_1 in Hl as [Hs Hl].
  destruct (render_segment s name labels) as [e|] eqn:Ee; [|done].
  destruct (render_segments l name labels) as [es'|]; [|done]. intros [= <-].
  constructor; [by eapply render_segment_ok|by apply IH].
Qed.

(** The path a template renders for a series is one a client can name. Of
    any template that parses, for any metric name and label values, the
    rendered path, when the event is not rejected, printed and read back by
    [parse_client_path] is itself: no label value breaks out of its element
    or of its key. *)
Theorem rendered_path_roundtrip text t name labels p
    (Ht : gnmi_template_parse text = Some (Ok t)) (Hr : gnmi_render t name labels = Ok p) :
  parse_client_path (path_display p) = Some (Ok p).
Proof.
  apply parse_display. unfold gnmi_render in Hr.
  destruct (render_segments (segments t) name labels) as [es|] eqn:Ee; [|done].
  injection Hr as <-. unfold path_ok, no_char. cbn. split_and!; try done.
  eapply render_segments_ok; [|exact Ee]. by eapply template_segments_ok.
Qed.

Definition demo_template : PathTemplate :=
  mk_template [mk_segment (Literal "interface") [("name"%string, PlaceholderPart "ifName")];
               mk_segment (PlaceholderPart "name") []].

Lemma rendered_path_roundtrip_witness :
  path_display (mk_path "" [mk_elem "interface" [("name", "a]/b")]%string; mk_elem "in-octets" []] "")
    = "/interface[name=a\]/b]/in-octets"%string /\
  parse_client_path "/interface[name=a\]/b]/in-octets" =
    Some (Ok (mk_path "" [mk_elem "interface" [("name", "a]/b")]%string; mk_elem "in-octets" []] "")).
Proof.
  split; [reflexivity|].
  apply (rendered_path_roundtrip "/interface[name={ifName}]/{name}" demo_template "in_octets"
    (mk_labels [("ifName", "a]/b")]%string)
    (mk_path "" [mk_elem "interface" [("name", "a]/b")]%string; mk_elem "in-octets" []] "")); reflexivity.
Defined.

(** ** The parsers return *)

Lemma strip_prefix_length c s s' :
  strip_prefix_char c s = Some s' -> String.length s = S (String.length s').
Proof.
  destruct s as [|d s]; [done|]. cbn [strip_prefix_char].
  destruct (Ascii.eqb d c); [|done]. by intros [= ->].
Qed.

Lemma split_once_length c s a b :
  split_once c s = Some (a, b) -> (String.length b < String.length s)%nat.
Proof.
  intros [_ ->]%split_once_spec. rewrite length_app_str. cbn [String.length]. lia.
Qed.

Lemma parse_groups_total fuel raw rest keys :
  (String.length rest < fuel)%nat -> exists r, parse_groups fuel raw rest keys = Some r.
Proof.
  induction fuel as [|fuel IH] in rest, keys |- *; intros Hf; [lia|]. cbn [parse_groups].
  destruct (String.eqb rest ""); [by eauto|].
  destruct (strip_prefix_char _ rest) as [inner|] eqn:Ei; [|by eauto].
  destruct (split_once "]" inner) as [[group after]|] eqn:Eg; [|by eauto].
  destruct (str_contains "[" group); [by eauto|].
  destruct (split_once "=" group) as [[key value]|]; [|by eauto].
  destruct (String.eqb key ""); [by eauto|].
  destruct (str_contains "{" key || str_contains "}" key); [by eauto|].
  destruct (existsb _ keys); [by eauto|]. destruct (parse_part value); [|by eauto].
  apply IH. apply strip_prefix_length in Ei. apply split_once_length in Eg. lia.
Qed.

Lemma parse_segment_total raw : exists r, parse_segment raw = Some r.
Proof.
  unfold parse_segment. destruct (String.eqb raw ""); [by eauto|].
  destruct (match find_char "[" raw with Some (a, b) => (a, b) | None => (raw, ""%string) end)
    as [name rest].
  destruct (String.eqb name ""); [by eauto|]. destruct (str_contains "]" name); [by eauto|].
  destruct (parse_groups_total (S (String.length rest)) raw rest []) as [r Hr]; [lia|].
  destruct (parse_part name) as [[]|]; rewrite ?Hr; destruct r; eauto.
Qed.

Lemma parse_segments_total l : exists r, parse_segments l = Some r.
Proof.
  induction l as [|raw l [r IH]]; [by eauto|]. cbn [parse_segments].
  destruct (parse_segment_total raw) as [rs ->]. rewrite IH. destruct rs, r; eauto.
Qed.

Lemma take_name_length s n rest :
  take_name s = Ok (n, rest) -> (String.length n + String.length rest = String.length s)%nat.
Proof.
  induction s as [|c s IH] in n |- *; cbn [take_name]; [by intros [= <- <-]|].
  destruct (Ascii.eqb c "/" || Ascii.eqb c "["); [by intros [= <- <-]|].
  destruct (Ascii.eqb c "]"); [done|]. destruct (take_name s) as [[n' r']|]; [|done].
  intros [= <- <-]. cbn [String.length]. specialize (IH n' eq_refl). lia.
Qed.

Lemma take_key_length name s k rest :
  take_key name s = Ok (k, rest) -> (String.length rest < String.length s)%nat.
Proof.
  induction s as [|c s IH] in k |- *; cbn [take_key]; [done|].
  destruct (Ascii.eqb c "="); [intros [= <- <-]; cbn; lia|].
  destruct (Ascii.eqb c "]"); [done|]. destruct (take_key name s) as [[k' r']|]; [|done].
  intros [= <- <-]. cbn [String.length]. specialize (IH k' eq_refl). lia.
Qed.

Lemma take_value_length name s v rest :
  take_value name s = Ok (v, rest) -> (String.length rest < String.length s)%nat.
Proof.
  remember (String.length s) as n eqn:En. revert s v En.
  induction n as [n IH] using lt_wf_ind. intros s v En. destruct s as [|c s]; [done|].
  cbn [take_value String.length] in *. destruct (Ascii.eqb c "]"); [intros [= <- <-]; lia|].
  destruct (Ascii.eqb c backslash).
  - destruct s as [|d s]; [done|]. cbn [String.length] in *.
    destruct (take_value name s) as [[v' r']|] eqn:E; [|done]. intros [= <- <-].
    specialize (IH (String.length s) ltac:(lia) s v' eq_refl E). lia.
  - destruct (take_value name s) as [[v' r']|] eqn:E; [|done]. intros [= <- <-].
    specialize (IH (String.length s) ltac:(lia) s v' eq_refl E). lia.
Qed.

Lemma take_keys_total fuel name s key :
  (String.length s < fuel)%nat ->
  exists r, take_keys fuel name s key = Some r /\
    match r with Ok (_, rest) => (String.length rest <= String.length s)%nat | Err _ => True end.
Proof.
  induction fuel as [|fuel IH] in s, key |- *; intros Hf; [lia|]. cbn [take_keys].
  destruct (strip_prefix_char _ s) as [s1|] eqn:E1; [|eexists; split; [done|]; cbn; lia].
  destruct (take_key name s1) as [[k s2]|] eqn:E2; [|by eexists].
  destruct (String.eqb k ""); [by eexists|].
  destruct (take_value name s2) as [[v s3]|] eqn:E3; [|by eexists].
  destruct (bt_get k key); [by eexists|].
  apply strip_prefix_length in E1. apply take_key_length in E2. apply take_value_length in E3.
  destruct (IH s3 (bt_insert k v key)) as (r & -> & Hr); [lia|]. exists r. split; [done|].
  destruct r as [[? rest]|]; [lia|done].
Qed.

Lemma take_elems_total fuel s :
  (String.length s < fuel)%nat -> exists r, take_elems fuel s = Some r.
Proof.
  induction fuel as [|fuel IH] in s |- *; intros Hf; [lia|]. cbn [take_elems].
  destruct (take_name s) as [[name s1]|] eqn:E1; [|by eexists].
  apply take_name_length in E1. destruct (String.eqb name ""); [by eauto|].
  destruct (take_keys_total (S (String.length s1)) name s1 []) as (r & -> & Hr); [lia|].
  destruct r as [[key s2]|]; [|by eauto]. destruct s2 as [|c s2]; [by eauto|].
  destruct (Ascii.eqb c "/"); [|by eauto]. cbn [String.length] in Hr.
  destruct (IH s2) as [[]  ->]; [lia|eauto..].
Qed.

(** Both path parsers return on every text: the loops over segments, key
    groups and elements end, with a result or one of the listed errors. *)
Theorem path_parsers_total s :
  (exists r, gnmi_template_parse s = Some r) /\ (exists r, parse_client_path s = Some r).
Proof.
  split.
  - unfold gnmi_template_parse. destruct (split_origin s) as [[o|] rest]; [by eauto|].
    destruct (String.eqb _ ""); [by eauto|].
    destruct (parse_segments_total (split_outside_brackets 0 (default s (strip_prefix_char "/" s))))
      as [r ->]. destruct r; eauto.
  - unfold parse_client_path. destruct (split_origin s) as [o rest].
    destruct (String.eqb _ ""); [by eauto|].
    destruct (take_elems_total (S (String.length (default rest (strip_prefix_char "/" rest))))
      (default rest (strip_prefix_char "/" rest))) as [r ->]; [lia|]. destruct r; eauto.
Qed.
