(* ===== verification/GnmiMatcher.v ===== *)
(** * GnmiMatcher: which series a gNMI request selects (sink/gnmi/matcher.rs)

    Paths as [proto::Path]; the requested paths joined to their prefix, and the
    alignment of a requested path with a series' path, with its wildcards. The
    gRPC status of a refusal is one of two, with the reason as a constructor. *)

From Stdlib Require Import ZArith Lia Ascii.
From stdpp Require Import prelude strings list.
From S2P Require Import Prelude Text Metric GnmiPath.

(** [proto::Encoding], with its numbers. *)
Inductive Encoding := EJson | EBytes | EProto | EAscii | EJsonIetf.

Definition encoding_try_from (n : Z) : option Encoding :=
  if n =? 0 then Some EJson
  else if n =? 1 then Some EBytes
  else if n =? 2 then Some EProto
  else if n =? 3 then Some EAscii
  else if n =? 4 then Some EJsonIetf
  else None.

(** [encoding_name]. *)
Definition encoding_name (e : Encoding) : string :=
  match e with
  | EJson => "JSON" | EBytes => "BYTES" | EProto => "PROTO"
  | EAscii => "ASCII" | EJsonIetf => "JSON_IETF"
  end.

(** The statuses a request is refused with. *)
Inductive Reason :=
| UnknownEncoding (n : Z)
| UnknownListMode (n : Z)
| NoSubscriptions
| NoPaths
| UnknownSubscriptionMode (n : Z)
| EmptyElementName
| RunWithKeys.

Inductive Status :=
| InvalidArgument (r : Reason)
| Unimplemented (encoding : string).

(** [served_encoding]. *)
Definition served_encoding (encoding : Z) : result Encoding Status :=
  match encoding_try_from encoding with
  | Some EProto | Some EJson => Ok EProto
  | Some EJsonIetf => Ok EJsonIetf
  | Some other => Err (Unimplemented (encoding_name other))
  | None => Err (InvalidArgument (UnknownEncoding encoding))
  end.

Definition ANY_ONE : string := "*".
Definition ANY_RUN : string := "...".

(** [SubscriptionMatcher]. *)
Record SubscriptionMatcher := mk_matcher { paths : list Path; m_encoding : Encoding }.

(** The check of [join] on each element of a joined path. *)
Fixpoint check_elems (l : list PathElem) : result unit Status :=
  match l with
  | [] => Ok tt
  | e :: l =>
      if String.eqb (el_name e) "" then Err (InvalidArgument EmptyElementName)
      else if String.eqb (el_name e) ANY_RUN && negb (bool_decide (el_key e = []))
      then Err (InvalidArgument RunWithKeys)
      else check_elems l
  end.

(** The loop of [SubscriptionMatcher::join]. *)
Fixpoint join_paths (prefix : Path) (own : list Path) : result (list Path) Status :=
  match own with
  | [] => Ok []
  | p :: own =>
      let elems := elem prefix ++ elem p in
      let? _ := check_elems elems in
      let o := if String.eqb (origin p) "" then origin prefix else origin p in
      let? rest := join_paths prefix own in
      Ok (mk_path o elems (target prefix) :: rest)
  end.

(** [SubscriptionMatcher::join]. *)
Definition matcher_join (prefix : option Path) (own : list Path) (encoding : Encoding)
  : result SubscriptionMatcher Status :=
  let? joined := join_paths (default root_path prefix) own in
  Ok (mk_matcher joined encoding).

(** [SubscriptionMatcher::from_paths]. *)
Definition from_paths (prefix : option Path) (own : list Path) (encoding : Z)
  : result SubscriptionMatcher Status :=
  let? enc := served_encoding encoding in
  match own with
  | [] => Err (InvalidArgument NoPaths)
  | _ => matcher_join prefix own enc
  end.

(** [proto::Subscription] and [proto::SubscriptionList]. *)
Record SubscriptionMsg := mk_subscription {
  sub_path : option Path;
  sub_mode : Z;
  sample_interval : Z;
  suppress_redundant : bool;
  heartbeat_interval : Z;
}.

Record SubscriptionList := mk_list {
  sl_prefix : option Path;
  sl_subscription : list SubscriptionMsg;
  sl_mode : Z;
  sl_encoding : Z;
  updates_only : bool;
}.

(** [subscription_list::Mode]: [STREAM] 0, [ONCE] 1, [POLL] 2. *)
Inductive ListMode := MStream | MOnce | MPoll.

Definition list_mode_try_from (n : Z) : option ListMode :=
  if n =? 0 then Some MStream
  else if n =? 1 then Some MOnce
  else if n =? 2 then Some MPoll
  else None.

(** [SubscriptionMode]: [TARGET_DEFINED] 0, [ON_CHANGE] 1, [SAMPLE] 2. *)
Definition subscription_mode_known (n : Z) : bool := (0 <=? n) && (n <=? 2).

Fixpoint check_modes (l : list SubscriptionMsg) : result unit Status :=
  match l with
  | [] => Ok tt
  | s :: l =>
      if subscription_mode_known (sub_mode s) then check_modes l
      else Err (InvalidArgument (UnknownSubscriptionMode (sub_mode s)))
  end.

(** [SubscriptionMatcher::new]. *)
Definition matcher_new (l : SubscriptionList) : result SubscriptionMatcher Status :=
  let? enc := served_encoding (sl_encoding l) in
  let? mode := ok_or (list_mode_try_from (sl_mode l)) (InvalidArgument (UnknownListMode (sl_mode l))) in
  match sl_subscription l with
  | [] => Err (InvalidArgument NoSubscriptions)
  | subs =>
      let? _ := match mode with MStream => check_modes subs | _ => Ok tt end in
      matcher_join (sl_prefix l) ((fun s => default root_path (sub_path s)) <$> subs) enc
  end.

(** [element_matches]. *)
Definition element_matches (wanted e : PathElem) : bool :=
  (String.eqb (el_name wanted) ANY_ONE || String.eqb (el_name wanted) (el_name e)) &&
  forallb (fun kv => String.eqb kv.2 "*" || bool_decide (bt_get kv.1 (el_key e) = Some kv.2))
    (el_key wanted).

(** The loop of [aligns]: positions [w] and [s], and the latest run with the
    series position it ends at; [None] when the fuel is out. *)
Fixpoint aligns_loop (fuel : nat) (wanted series : list PathElem) (w s : nat)
    (run : option (nat * nat)) : option bool :=
  match fuel with
  | O => None
  | S fuel =>
      match wanted !! w with
      | None => Some true
      | Some element =>
          if String.eqb (el_name element) ANY_RUN then
            aligns_loop fuel wanted series (S w) s (Some (w, s))
          else if (match series !! s with Some e => element_matches element e | None => false end)
          then aligns_loop fuel wanted series (S w) (S s) run
          else
            match run with
            | Some (at_, end_) =>
                if (end_ <? length series)%nat
                then aligns_loop fuel wanted series (S at_) (S end_) (Some (at_, S end_))
                else Some false
            | None => Some false
            end
      end
  end.

(** Steps that are enough: a run's end moves at most once per series element,
    and between two moves the wanted position goes at most once over the
    wanted elements. *)
Definition aligns_fuel (wanted series : list PathElem) : nat :=
  (S (length series)) * S (length wanted) + S (length wanted).

(** [aligns]. *)
Definition aligns (wanted series : list PathElem) : option bool :=
  aligns_loop (aligns_fuel wanted series) wanted series 0 0 None.

(** [is_under]. *)
Definition is_under (series subscribed : Path) : option bool :=
  if (String.eqb (origin subscribed) "" || String.eqb (origin subscribed) (origin series))
     && (String.eqb (target subscribed) "" || String.eqb (target subscribed) (target series))
  then aligns (elem subscribed) (elem series)
  else Some false.

(** [SubscriptionMatcher::matches]. *)
Fixpoint matches_any (series : Path) (l : list Path) : option bool :=
  match l with
  | [] => Some false
  | p :: l => let! b := is_under series p in if b then Some true else matches_any series l
  end.

Definition matches (m : SubscriptionMatcher) (series : Path) : option bool :=
  matches_any series (paths m).

(** ** What an alignment is *)

Definition is_run (e : PathElem) : bool := String.eqb (el_name e) ANY_RUN.

(** [wanted] aligns with the first elements of [series]. *)
Inductive aligned : list PathElem -> list PathElem -> Prop :=
| al_done series : aligned [] series
| al_run_end w ws series : is_run w = true -> aligned ws series -> aligned (w :: ws) series
| al_run_take w ws e series :
    is_run w = true -> aligned (w :: ws) series -> aligned (w :: ws) (e :: series)
| al_elem w ws e series :
    is_run w = false -> element_matches w e = true -> aligned ws series ->
    aligned (w :: ws) (e :: series).

Section aligns.
Context (wanted series : list PathElem).

(** The rest of the wanted elements aligns with the rest of the series. *)
Definition al (w s : nat) : Prop := aligned (drop w wanted) (drop s series).

Lemma al_end w s : wanted !! w = None -> al w s.
Proof.
  intros H. unfold al. rewrite drop_ge by (by apply lookup_ge_None_1). constructor.
Qed.

Lemma al_elem_iff w s x :
  wanted !! w = Some x -> is_run x = false ->
  al w s <-> exists e, series !! s = Some e /\ element_matches x e = true /\ al (S w) (S s).
Proof.
  intros Hx Hr. unfold al. rewrite (drop_S _ _ _ Hx). split.
  - intros H. inversion H as [|? ? ? Hr' |? ? ? ? Hr' |w' ws e ser Hr' Hm Hal E1 E2]; subst; try congruence.
    assert (series !! s = Some e) as He.
    { rewrite <- (Nat.add_0_r s), <- lookup_drop, <- E2. done. }
    exists e. split; [done|]. split; [done|]. rewrite (drop_S _ _ _ He) in E2.
    by injection E2 as ->.
  - intros (e & He & Hm & Hal). rewrite (drop_S _ _ _ He). by constructor.
Qed.

Lemma al_run_iff w s x :
  wanted !! w = Some x -> is_run x = true ->
  al w s <-> exists s', (s <= s' <= Nat.max s (length series))%nat /\ al (S w) s'.
Proof.
  intros Hx Hr. unfold al. rewrite (drop_S _ _ _ Hx). split.
  - remember (drop s series) as ser eqn:Es. remember (x :: drop (S w) wanted) as ws eqn:Ew.
    intros H. induction H as [|? ? ? Hr' H |? ? e ? Hr' H IH|] in s, Es, Ew |- *; simplify_eq.
    + exists s. split; [lia|done].
    + assert (series !! s = Some e) as He.
      { rewrite <- (Nat.add_0_r s), <- lookup_drop, <- Es. done. }
      pose proof (lookup_lt_Some _ _ _ He). rewrite (drop_S _ _ _ He) in Es. injection Es as ->.
      destruct (IH (S s) eq_refl eq_refl) as (s' & Hs' & Hal). exists s'. split; [lia|done].
    + congruence.
  - intros (s' & Hs' & Hal). remember (s' - s)%nat as d eqn:Ed.
    induction d as [|d IH] in s, Hs', Ed |- *.
    + replace s with s' by lia. by apply al_run_end.
    + destruct (lookup_lt_is_Some_2 series s) as [e He]; [lia|].
      rewrite (drop_S _ _ _ He). apply al_run_take; [done|]. apply IH; lia.
Qed.

(** *** The invariant of the loop *)

(** From the latest run on: the elements after it are no runs, and have been
    matched one for one from the run's end. *)
Record run_inv (w s at_ end_ : nat) : Prop := {
  ri_lt : (at_ < w)%nat;
  ri_pos : s = (end_ + (w - S at_))%nat;
  ri_end : (end_ <= length series)%nat;
  ri_run : exists x, wanted !! at_ = Some x /\ is_run x = true;
  ri_plain : forall i x, (at_ < i < w)%nat -> wanted !! i = Some x -> is_run x = false;
}.

(** An alignment of the whole exists exactly when one exists from here, or
    from the latest run with a later end. *)
Definition loop_inv (w s : nat) (run : option (nat * nat)) : Prop :=
  (w <= length wanted)%nat /\
  match run with
  | None => (s <= length series)%nat /\ (al 0 0 <-> al w s)
  | Some (at_, end_) =>
      run_inv w s at_ end_ /\ (s <= length series)%nat /\
      (al 0 0 <-> al w s \/ exists s', (end_ < s' <= length series)%nat /\ al (S at_) s')
  end.

(** Matching the plain elements from a later place than the loop did. *)
Lemma al_plain_shift m i j :
  (forall k x, (i <= k < i + m)%nat -> wanted !! k = Some x -> is_run x = false) ->
  (i + m <= length wanted)%nat ->
  al i j -> al (i + m) (j + m).
Proof.
  induction m as [|m IH] in i, j |- *; intros Hp Hl Ha; [by rewrite !Nat.add_0_r|].
  assert (is_Some (wanted !! i)) as [x Hx] by (apply lookup_lt_is_Some_2; lia).
  assert (Hr : is_run x = false) by (apply (Hp i); [lia|done]).
  destruct (proj1 (al_elem_iff i j x Hx Hr) Ha) as (e & _ & _ & Ha1).
  clear Ha. rename Ha1 into Ha.
  apply IH in Ha; [|intros k y Hk; apply Hp; lia|lia].
  by rewrite !Nat.add_succ_r in *.
Qed.

(** A run that aligns further on aligns here. *)
Lemma al_run_mono w x s s' :
  wanted !! w = Some x -> is_run x = true -> (s <= s' <= length series)%nat -> al w s' -> al w s.
Proof.
  intros Hx Hr Hs Ha. apply (al_run_iff w s' x Hx Hr) in Ha as (s2 & H2 & Ha).
  apply (al_run_iff w s x Hx Hr). exists s2. split; [lia|done].
Qed.

Lemma al_inv_run w s run x :
  wanted !! w = Some x -> is_run x = true -> loop_inv w s run ->
  loop_inv (S w) s (Some (w, s)).
Proof.
  intros Hx Hr [Hw Hinv]. pose proof (lookup_lt_Some _ _ _ Hx).
  assert (Hs : (s <= length series)%nat).
  { destruct run as [[at_ end_]|]; [destruct Hinv as (_ & ? & _)|destruct Hinv as [? _]]; done. }
  assert (Hall : al 0 0 <-> al w s).
  { destruct run as [[at_ end_]|]; [|by destruct Hinv].
    destruct Hinv as (Hi & _ & ->). split; [|by left].
    intros [Ha|(s' & Hs' & Ha)]; [done|]. destruct Hi as [Hlt Hpos _ _ Hpl].
    remember (w - S at_)%nat as m eqn:Em.
    assert (Hsh : al (S at_ + m) (s' + m)).
    { apply al_plain_shift; [|lia|done]. intros k y Hk. apply Hpl. lia. }
    replace (S at_ + m)%nat with w in Hsh by lia.
    destruct (Nat.le_gt_cases (s' + m) (length series)) as [Hle|Hgt].
    - apply (al_run_mono w x s (s' + m)); [done|done|lia|done].
    - apply (al_run_iff w (s' + m) x Hx Hr) in Hsh as (s2 & H2 & Ha2).
      replace s2 with (s' + m)%nat in Ha2 by lia.
      apply (al_run_iff w s x Hx Hr). exists (length series). split; [lia|].
      unfold al in *. rewrite (drop_ge series) in Ha2 by lia. by rewrite (drop_ge series) by lia. }
  split; [lia|]. split; [|split; [done|]].
  - split; [lia|lia|done|eauto|]. intros i y Hi. lia.
  - rewrite Hall, (al_run_iff w s x Hx Hr). split.
    + intros (s' & Hs' & Ha). destruct (decide (s' = s)) as [->|]; [by left|]. right.
      exists s'. split; [lia|done].
    + intros [Ha|(s' & Hs' & Ha)]; [exists s|exists s']; (split; [lia|done]).
Qed.

Lemma al_inv_match w s run x e :
  wanted !! w = Some x -> is_run x = false -> series !! s = Some e ->
  element_matches x e = true -> loop_inv w s run -> loop_inv (S w) (S s) run.
Proof.
  intros Hx Hr He Hm [Hw Hinv]. pose proof (lookup_lt_Some _ _ _ Hx).
  pose proof (lookup_lt_Some _ _ _ He).
  assert (Hal : al w s <-> al (S w) (S s)).
  { rewrite (al_elem_iff w s x Hx Hr). split; [by intros (? & _ & _ & ?)|]. eauto. }
  split; [lia|]. destruct run as [[at_ end_]|].
  - destruct Hinv as ([H1 H2 H3 H4 H5] & _ & Hiff). split; [|split; [lia|by rewrite Hiff, Hal]].
    split; [lia|lia|done|done|]. intros i y Hi Hy.
    destruct (decide (i = w)) as [->|]; [congruence|]. apply (H5 i); [lia|done].
  - destruct Hinv as [_ Hiff]. split; [lia|by rewrite Hiff].
Qed.

Lemma al_inv_back w s x at_ end_ :
  wanted !! w = Some x -> ~ al w s -> (end_ < length series)%nat ->
  loop_inv w s (Some (at_, end_)) -> loop_inv (S at_) (S end_) (Some (at_, S end_)).
Proof.
  intros Hx Hn Hl [Hw (Hi & Hs & Hiff)]. destruct Hi as [H1 H2 H3 H4 H5].
  split; [lia|]. split; [|split; [lia|]].
  - split; [lia|lia|lia|done|]. intros i y Hi. lia.
  - rewrite Hiff. split.
    + intros [Ha|(s' & Hs' & Ha)]; [done|].
      destruct (decide (s' = S end_)) as [->|]; [by left|]. right. exists s'. split; [lia|done].
    + intros [Ha|(s' & Hs' & Ha)]; right; [exists (S end_)|exists s']; (split; [lia|done]).
Qed.

(** The measure of the loop. *)
Definition measure (w : nat) (run : option (nat * nat)) : nat :=
  match run with None => S (length series) | Some (_, end_) => length series - end_ end
    * S (length wanted) + (length wanted - w).

(** The last branch of the loop. *)
Lemma aligns_back fuel w s run x :
  (forall w s run, loop_inv w s run -> (measure w run < fuel)%nat ->
     exists b, aligns_loop fuel wanted series w s run = Some b /\ (b = true <-> al 0 0)) ->
  wanted !! w = Some x -> ~ al w s -> loop_inv w s run -> (measure w run < S fuel)%nat ->
  exists b,
    match run with
    | Some (at_, end_) =>
        if (end_ <? length series)%nat
        then aligns_loop fuel wanted series (S at_) (S end_) (Some (at_, S end_))
        else Some false
    | None => Some false
    end = Some b /\ (b = true <-> al 0 0).
Proof.
  intros IH Hx Hn Hinv Hf. pose proof (lookup_lt_Some _ _ _ Hx) as Hwl.
  destruct run as [[at_ end_]|].
  - destruct (Nat.ltb_spec end_ (length series)) as [Hl|Hl].
    + apply IH; [by eapply al_inv_back|]. unfold measure in *.
      destruct Hinv as [_ (Hi & _ & _)]. destruct Hi as [H1 _ _ _ _].
      replace (length series - end_)%nat with (S (length series - S end_)) in Hf by lia. lia.
    + exists false. split; [done|]. split; [done|]. intros H0. destruct Hinv as [_ (_ & _ & Hiff)].
      apply Hiff in H0 as [?|(s' & ? & _)]; [done|lia].
  - exists false. split; [done|]. split; [done|]. intros H0. destruct Hinv as [_ [_ Hiff]].
    by apply Hiff in H0.
Qed.

Lemma aligns_loop_spec fuel w s run :
  loop_inv w s run -> (measure w run < fuel)%nat ->
  exists b, aligns_loop fuel wanted series w s run = Some b /\ (b = true <-> al 0 0).
Proof.
  induction fuel as [|fuel IH] in w, s, run |- *; intros Hinv Hf; [lia|]. cbn [aligns_loop].
  destruct (wanted !! w) as [x|] eqn:Hx.
  2: { exists true. split; [done|]. split; [intros _|done]. destruct Hinv as [_ Hinv].
       pose proof (al_end w s Hx). destruct run as [[? ?]|]; [destruct Hinv as (_ & _ & ->)|
         destruct Hinv as [_ ->]]; auto. }
  pose proof (lookup_lt_Some _ _ _ Hx) as Hwl. fold (is_run x).
  destruct (is_run x) eqn:Hr.
  { apply IH; [by eapply al_inv_run|]. unfold measure in *.
    destruct run as [[at_ end_]|]; [|nia]. destruct Hinv as [_ (Hi & _ & _)].
    destruct Hi as [H1 H2 _ _ _]. assert (length series - s <= length series - end_)%nat by lia. nia. }
  destruct (series !! s) as [e|] eqn:He.
  - destruct (element_matches x e) eqn:Hm.
    { apply IH; [by eapply al_inv_match|]. unfold measure in *. lia. }
    assert (Hn : ~ al w s).
    { rewrite (al_elem_iff w s x Hx Hr). intros (e' & He' & Hm' & _). congruence. }
    by apply (aligns_back fuel w s run x).
  - assert (Hn : ~ al w s).
    { rewrite (al_elem_iff w s x Hx Hr). intros (e' & He' & _). congruence. }
    by apply (aligns_back fuel w s run x).
Qed.
End aligns.

Lemma aligns_spec wanted series :
  exists b, aligns wanted series = Some b /\ (b = true <-> aligned wanted series).
Proof.
  unfold aligns. apply (aligns_loop_spec wanted series).
  - split; [lia|]. split; [lia|done].
  - unfold measure, aligns_fuel. lia.
Qed.

(** C18: the alignment with wildcards is complete. [aligns] always ends, within
    the steps its fuel allows, and holds exactly when some choice of a run of
    series elements for each [...] aligns the wanted elements with the first
    elements of the series: taking no element first, and one more on a
    mismatch of the latest run only, misses no alignment. *)
Theorem aligns_iff wanted series :
  exists b, aligns wanted series = Some b /\ (b = true <-> aligned wanted series).
Proof. exact (aligns_spec wanted series). Qed.

(** ** Requests *)

(** The series is one that the own path [p] under [prefix] asks for. *)
Definition selects (prefix p series : Path) : Prop :=
  let o := if String.eqb (origin p) "" then origin prefix else origin p in
  (o = ""%string \/ o = origin series) /\
  (target prefix = ""%string \/ target prefix = target series) /\
  aligned (elem prefix ++ elem p) (elem series).

(** An element a request can have: a name, and no keys on a run. *)
Definition request_elem_ok (e : PathElem) : Prop :=
  el_name e <> ""%string /\ (is_run e = true -> el_key e = []).

Lemma check_elems_iff l : check_elems l = Ok tt <-> Forall request_elem_ok l.
Proof.
  induction l as [|e l IH]; cbn [check_elems]; [by split|].
  rewrite list.Forall_cons, <- IH. unfold request_elem_ok, is_run.
  destruct (String.eqb_spec (el_name e) ""); [naive_solver|].
  destruct (String.eqb (el_name e) ANY_RUN); cbn.
  - case_bool_decide; cbn; naive_solver.
  - naive_solver.
Qed.

Lemma is_under_spec series p :
  exists b, is_under series p = Some b /\
    (b = true <-> (origin p = ""%string \/ origin p = origin series) /\
                  (target p = ""%string \/ target p = target series) /\
                  aligned (elem p) (elem series)).
Proof.
  unfold is_under. destruct (aligns_spec (elem p) (elem series)) as (b & -> & Hb).
  destruct (String.eqb_spec (origin p) ""), (String.eqb_spec (origin p) (origin series)),
    (String.eqb_spec (target p) ""), (String.eqb_spec (target p) (target series)); cbn;
    eexists; (split; [done|]); rewrite ?Hb; tauto || (split; [done|tauto]).
Qed.

Lemma matches_any_spec series l :
  exists b, matches_any series l = Some b /\
    (b = true <-> exists p, p ∈ l /\ is_under series p = Some true).
Proof.
  induction l as [|p l (b & IH & Hb)]; cbn [matches_any].
  { exists false. split; [done|]. split; [done|]. by intros (p & []%elem_of_nil & _). }
  destruct (is_under_spec series p) as (b0 & E0 & _). rewrite E0. destruct b0.
  - exists true. split; [done|]. split; [|done]. intros _. exists p. split; [by left|done].
  - exists b. split; [done|]. rewrite Hb. split.
    + intros (q & Hq & Eq). exists q. split; [by right|done].
    + intros (q & [-> |Hq]%elem_of_cons & Eq); [congruence|eauto].
Qed.

Lemma join_paths_spec prefix own joined :
  join_paths prefix own = Ok joined ->
  joined = (fun p => mk_path (if String.eqb (origin p) "" then origin prefix else origin p)
                       (elem prefix ++ elem p) (target prefix)) <$> own.
Proof.
  induction own as [|p own IH] in joined |- *; cbn [join_paths]; [by intros [= <-]|].
  destruct (check_elems _) as [[]|]; [|done].
  destruct (join_paths prefix own) as [rest|]; [|done]. intros [= <-]. cbn. by rewrite (IH rest eq_refl).
Qed.

(** A request selects exactly the series it asks for. When [from_paths]
    accepts a prefix and paths, [matches] of any series path ends, and holds
    exactly when some path of the request joined to the prefix, its origin the
    path's own or else the prefix's, aligns with the series. *)
Theorem matches_iff prefix own encoding m series
    (Hm : from_paths prefix own encoding = Ok m) :
  exists b, matches m series = Some b /\
    (b = true <-> exists p, p ∈ own /\ selects (default root_path prefix) p series).
Proof.
  unfold from_paths, matcher_join in Hm. destruct (served_encoding encoding) as [enc|]; [|done].
  assert (Hj : exists joined, join_paths (default root_path prefix) own = Ok joined /\ paths m = joined).
  { destruct own; [done|].
    destruct (join_paths (default root_path prefix) _) as [joined|]; [|done]. injection Hm as <-. eauto. }
  destruct Hj as (joined & Hj & Hp). apply join_paths_spec in Hj.
  unfold matches. rewrite Hp. destruct (matches_any_spec series joined) as (b & -> & Hb).
  exists b. split; [done|]. rewrite Hb, Hj. unfold selects. split.
  - intros (q & (p & -> & Hin)%list_elem_of_fmap & Hu). exists p. split; [done|].
    destruct (is_under_spec series (mk_path (if String.eqb (origin p) "" then origin (default root_path prefix)
      else origin p) (elem (default root_path prefix) ++ elem p) (target (default root_path prefix))))
      as (b' & Eb' & Hb'). rewrite Hu in Eb'. injection Eb' as <-. by apply Hb'.
  - intros (p & Hin & Hs). eexists. split; [by apply list_elem_of_fmap_2|].
    match goal with |- is_under series ?q = _ => destruct (is_under_spec series q) as (b' & Eb' & Hb') end.
    rewrite Eb'. f_equal. by apply Hb'.
Qed.

Lemma matches_iff_witness :
  exists m, from_paths None [mk_path "" [mk_elem "..." []; mk_elem "state" []] ""] 0 = Ok m /\
    exists b, matches m (mk_path "oc" [mk_elem "a" []; mk_elem "b" []; mk_elem "state" []] "") = Some b /\
    b = true.
Proof.
  eexists. split; [reflexivity|].
  destruct (matches_iff None [mk_path "" [mk_elem "..." []; mk_elem "state" []] ""] 0 _
    (mk_path "oc" [mk_elem "a" []; mk_elem "b" []; mk_elem "state" []] "") eq_refl) as (b & Eb & Hb).
  exists b. split; [exact Eb|]. apply Hb. eexists. split; [by apply list_elem_of_singleton|].
  split; [by left|]. split; [by left|]. cbn.
  apply al_run_take; [reflexivity|]. apply al_run_take; [reflexivity|]. apply al_run_end; [reflexivity|].
  apply al_elem; [reflexivity|reflexivity|constructor].
Defined.
