(* ===== verification/GnmiNotification.v ===== *)
(** * GnmiNotification: the value inside an encoded notification
    (sink/gnmi/notification.rs)

    A [gnmi.Notification] is kept as its encoded octets; the target finds the
    value of its first update in them, and swaps it for its JSON form, without
    decoding the rest. The readers and writers of the protobuf wire format are
    those of the [prost] crate: a class, with the documented behaviour the code
    relies on as its laws. Positions in a buffer are natural numbers. *)

From Stdlib Require Import ZArith Lia.
From stdpp Require Import prelude list.
From S2P Require Import Prelude.

(** [prost::encoding::WireType]. *)
Inductive WireType := Varint | SixtyFourBit | LengthDelimited | StartGroup | EndGroup | ThirtyTwoBit.

#[export] Instance WireType_eq_dec : EqDecision WireType.
Proof. solve_decision. Defined.

(** The functions of [prost::encoding] the file calls: a reader returns what it
    read and the rest of the buffer, [None] being its error. *)
Class Prost := {
  decode_key : list Z -> option (Z * WireType * list Z);
  decode_varint : list Z -> option (Z * list Z);
  skip_field : WireType -> Z -> list Z -> option (list Z);
  encode_key : Z -> WireType -> list Z;
  encode_varint : Z -> list Z;
  encoded_len_varint : Z -> nat;
  key_len : Z -> nat;
}.

(** The field numbers of the schema. *)
Definition UPDATE : Z := 4.
Definition VAL : Z := 3.
Definition STRING_VAL : Z := 1.
Definition INT_VAL : Z := 2.
Definition UINT_VAL : Z := 3.
Definition BOOL_VAL : Z := 4.
Definition JSON_IETF_VAL : Z := 11.
Definition DOUBLE_VAL : Z := 14.

(** [ValueKind]. *)
Inductive ValueKind := KString | KInt | KUint | KBool | KDouble | KJsonIetf | KOther (field : Z).

#[export] Instance ValueKind_eq_dec : EqDecision ValueKind.
Proof. solve_decision. Defined.

(** [ValueKind::from_field]. *)
Definition from_field (field : Z) : ValueKind :=
  if field =? STRING_VAL then KString
  else if field =? INT_VAL then KInt
  else if field =? UINT_VAL then KUint
  else if field =? BOOL_VAL then KBool
  else if field =? JSON_IETF_VAL then KJsonIetf
  else if field =? DOUBLE_VAL then KDouble
  else KOther field.

(** A [Range<usize>], and [buf.get(range)]. *)
Record Range := mk_range { r_start : nat; r_end : nat }.

Definition slice (buf : list Z) (r : Range) : list Z :=
  take (r_end r - r_start r) (drop (r_start r) buf).

Definition get_range (buf : list Z) (r : Range) : option (list Z) :=
  if decide (r_start r <= r_end r <= length buf)%nat then Some (slice buf r) else None.

(** [Field]: where a field's key starts, and the range of its contents. *)
Definition Field : Type := nat * Range.

Section Scan.
Context `{Prost}.

(** The loop of [delimited] over [rest], the buffer up to [end_] that is left.
    Every turn reads a key, which takes at least one octet. *)
Fixpoint delimited_loop (fuel : nat) (end_ : nat) (rest : list Z) (tag : Z) : option Field :=
  match fuel, rest with
  | O, _ | _, [] => None
  | S fuel, _ =>
      let key := (end_ - length rest)%nat in
      let! (field, wire_type, rest) := decode_key rest in
      if (field =? tag) && bool_decide (wire_type = LengthDelimited) then
        let! (len, rest) := decode_varint rest in
        let start := (end_ - length rest)%nat in
        let stop := (start + Z.to_nat len)%nat in
        if (stop <=? end_)%nat then Some (key, mk_range start stop) else None
      else
        let! rest := skip_field wire_type field rest in
        delimited_loop fuel end_ rest tag
  end.

(** [delimited]. *)
Definition delimited (buf : list Z) (message : Range) (tag : Z) : option Field :=
  let! rest := get_range buf message in
  delimited_loop (length rest) (r_end message) rest tag.

(** [value_field]. *)
Definition value_field (encoded : list Z) : option (Field * Field) :=
  let! update := delimited encoded (mk_range 0 (length encoded)) UPDATE in
  let! val := delimited encoded update.2 VAL in
  Some (update, val).

(** [value_span]. *)
Definition value_span (encoded : list Z) : option (Range * ValueKind) :=
  let! (_, (_, val)) := value_field encoded in
  let! value := get_range encoded val in
  let! (field, wire_type, value) := decode_key value in
  let! _ := skip_field wire_type field value in
  Some (val, from_field field).

(** [delimited_len]. *)
Definition delimited_len (tag : Z) (len : nat) : nat :=
  (key_len tag + encoded_len_varint (Z.of_nat len) + len)%nat.

(** A length-delimited field, as [encode_key], [encode_varint] and the contents
    write it. *)
Definition delimited_field (tag : Z) (contents : list Z) : list Z :=
  encode_key tag LengthDelimited ++ encode_varint (Z.of_nat (length contents)) ++ contents.

(** [with_value]; the last test is the code's own check of the length it
    computed. *)
Definition with_value (encoded value : list Z) : option (list Z) :=
  let! ((update_key, update), (val_key, val)) := value_field encoded in
  let update_len := (val_key - r_start update + delimited_len VAL (length value)
                     + (r_end update - r_end val))%nat in
  let total := (update_key + delimited_len UPDATE update_len
                + (length encoded - r_end update))%nat in
  let buf := take update_key encoded
             ++ encode_key UPDATE LengthDelimited ++ encode_varint (Z.of_nat update_len)
             ++ slice encoded (mk_range (r_start update) val_key)
             ++ encode_key VAL LengthDelimited ++ encode_varint (Z.of_nat (length value))
             ++ value ++ drop (r_end val) encoded in
  if decide (length buf = total) then Some buf else None.

(** [json_ietf_value]: the value as a [TypedValue] holding its JSON text, made
    by [json], which stands for [json_text] and [write_json_ietf_val] on the
    value's octets. *)
Definition json_ietf_value (json : list Z -> option (list Z)) (encoded : list Z)
  : option (list Z) :=
  let! (val, _) := value_span encoded in
  let! value := get_range encoded val in
  json value.

End Scan.

(** What the code relies on: a reader takes a prefix of the buffer, a key and a
    varint at least one octet, and reads the same whatever follows it; what is
    written is read back; and the computed lengths are those written. *)
Class ProstLaws `{Prost} : Prop := {
  decode_key_prefix buf field wire_type rest :
    decode_key buf = Some (field, wire_type, rest) ->
    exists pre, pre <> [] /\ buf = pre ++ rest /\
      forall rest', decode_key (pre ++ rest') = Some (field, wire_type, rest');
  decode_varint_prefix buf n rest :
    decode_varint buf = Some (n, rest) ->
    exists pre, 0 <= n <= u64_max /\ pre <> [] /\ buf = pre ++ rest /\
      forall rest', decode_varint (pre ++ rest') = Some (n, rest');
  skip_field_prefix wire_type field buf rest :
    skip_field wire_type field buf = Some rest ->
    exists pre, buf = pre ++ rest /\
      forall rest', skip_field wire_type field (pre ++ rest') = Some rest';
  decode_encode_key tag wire_type rest :
    1 <= tag < 2 ^ 29 -> decode_key (encode_key tag wire_type ++ rest) = Some (tag, wire_type, rest);
  decode_encode_varint n rest :
    0 <= n <= u64_max -> decode_varint (encode_varint n ++ rest) = Some (n, rest);
  key_length tag wire_type : 1 <= tag < 2 ^ 29 -> length (encode_key tag wire_type) = key_len tag;
  varint_length n : 0 <= n <= u64_max -> length (encode_varint n) = encoded_len_varint n;
  key_short tag : (key_len tag <= 5)%nat;
  varint_short n : (encoded_len_varint n <= 10)%nat;
}.

(** ** Finding a field does not depend on what it holds *)

Section Laws.
Context `{ProstLaws}.

Lemma delimited_field_length tag contents :
  1 <= tag < 2 ^ 29 -> Z.of_nat (length contents) <= u64_max ->
  length (delimited_field tag contents) = delimited_len tag (length contents).
Proof.
  intros Ht Hc. unfold delimited_field, delimited_len. rewrite !length_app.
  rewrite key_length, varint_length by lia. lia.
Qed.

(** A field that is written is found. *)
Lemma delimited_here fuel end_ tag contents post :
  1 <= tag < 2 ^ 29 -> Z.of_nat (length contents) <= u64_max ->
  let rest := delimited_field tag contents ++ post in
  (length rest <= fuel)%nat -> (length rest <= end_)%nat ->
  delimited_loop fuel end_ rest tag
  = Some ((end_ - length rest)%nat,
          mk_range (end_ - length (contents ++ post)) (end_ - length post)).
Proof.
  intros Ht Hc rest Hf He. subst rest.
  assert (Hk : exists b l, delimited_field tag contents ++ post = b :: l).
  { destruct (delimited_field tag contents ++ post) eqn:E; [|eauto].
    unfold delimited_field in E. rewrite <- app_assoc in E.
    pose proof (decode_encode_key tag LengthDelimited ((encode_varint (Z.of_nat (length contents))
      ++ contents) ++ post) Ht) as Hd. rewrite E in Hd.
    apply decode_key_prefix in Hd as (pre & Hne & Hp & _). by destruct pre. }
  destruct fuel as [|fuel]; [destruct Hk as (b & l & Hk); rewrite Hk in Hf; cbn in Hf; lia|].
  cbn [delimited_loop]. destruct Hk as (b & l & Hk). rewrite Hk, <- Hk.
  unfold delimited_field. rewrite <- !app_assoc, decode_encode_key by done. cbn.
  rewrite Z.eqb_refl, bool_decide_true by done. cbn.
  rewrite decode_encode_varint by lia. cbn. rewrite Nat2Z.id.
  unfold delimited_field in He. rewrite !length_app in He |- *.
  rewrite (proj2 (Nat.leb_le _ _)) by lia. do 3 f_equal. lia.
Qed.

(** What [delimited] reads before the field it finds leads it to that field
    again, whatever the field and the rest become. *)
Lemma delimited_loop_spec fuel end_ rest tag key r :
  1 <= tag < 2 ^ 29 -> (length rest <= end_)%nat ->
  delimited_loop fuel end_ rest tag = Some (key, r) ->
  exists pre head contents post, rest = pre ++ head ++ contents ++ post /\
    key = (end_ - length rest + length pre)%nat /\
    r = mk_range (key + length head) (key + length head + length contents) /\
    forall fuel' end' contents' post', Z.of_nat (length contents') <= u64_max ->
      let rest' := delimited_field tag contents' ++ post' in
      (length (pre ++ rest') <= fuel')%nat -> (length (pre ++ rest') <= end')%nat ->
      delimited_loop fuel' end' (pre ++ rest') tag
      = Some ((end' - length rest')%nat,
              mk_range (end' - length (contents' ++ post')) (end' - length post')).
Proof.
  intros Ht. revert rest key r. induction fuel as [|fuel IH]; intros rest key r He; [done|].
  destruct rest as [|b rest]; [done|]. cbn [delimited_loop]. set (all := b :: rest) in *.
  destruct (decode_key all) as [[[field wt] rest1]|] eqn:Ek; [|done].
  apply decode_key_prefix in Ek as (p1 & Hp1 & Hall & Hk1).
  destruct ((field =? tag) && _) eqn:Et.
  - apply andb_true_iff in Et as [->%Z.eqb_eq ->%bool_decide_eq_true].
    destruct (decode_varint rest1) as [[len rest2]|] eqn:Ev; [|done].
    apply decode_varint_prefix in Ev as (p2 & Hlen & Hp2 & -> & Hk2).
    rewrite Hall, !length_app in He |- *.
    destruct (_ <=? _)%nat eqn:El; [|done]. apply Nat.leb_le in El. intros [= <- <-].
    exists [], (p1 ++ p2), (take (Z.to_nat len) rest2), (drop (Z.to_nat len) rest2).
    rewrite take_drop, <- app_assoc. split_and!; [done|cbn; lia| |].
    + rewrite length_app, length_take_le by lia. f_equal; lia.
    + intros fuel' end' c' post' Hc Hf' He'. by apply delimited_here.
  - destruct (skip_field wt field rest1) as [rest2|] eqn:Es; [|done].
    apply skip_field_prefix in Es as (p2 & -> & Hs). intros Hd.
    assert (He2 : (length rest2 <= end_)%nat) by (rewrite Hall, !length_app in He; lia).
    destruct (IH _ _ _ He2 Hd) as (pre & head & c & post & -> & Hkey & Hr & Hall').
    exists (p1 ++ p2 ++ pre), head, c, post. rewrite Hall, <- !app_assoc.
    split_and!; [done| |done|].
    { rewrite Hall in He. rewrite !length_app in He. rewrite !length_app in Hkey. rewrite !length_app. lia. }
    intros fuel' end' c' post' Hc Hf' He'.
    rewrite <- !app_assoc in Hf', He' |- *.
    destruct p1 as [|b1 p1]; [done|]. destruct fuel' as [|fuel']; [cbn in Hf'; lia|].
    cbn [delimited_loop app]. rewrite !app_comm_cons, Hk1, Et, Hs.
    apply Hall'; [done|..]; rewrite !length_app in *; cbn in Hf', He'; lia.
Qed.

Lemma get_range_all (buf : list Z) : get_range buf (mk_range 0 (length buf)) = Some buf.
Proof.
  unfold get_range, slice. cbn. rewrite decide_True by lia.
  by rewrite drop_0, Nat.sub_0_r, firstn_all.
Qed.

Lemma slice_mid (a b c : list Z) i j :
  i = length a -> j = (length a + length b)%nat -> slice (a ++ b ++ c) (mk_range i j) = b.
Proof.
  intros -> ->. unfold slice. cbn. rewrite drop_app_length.
  replace (length a + length b - length a)%nat with (length b) by lia. by rewrite take_app_length.
Qed.

Lemma get_range_mid (a b c : list Z) i j :
  i = length a -> j = (length a + length b)%nat -> get_range (a ++ b ++ c) (mk_range i j) = Some b.
Proof.
  intros Hi Hj. unfold get_range. rewrite slice_mid by done. cbn.
  rewrite !length_app, decide_True by lia. done.
Qed.

(** The first field [tag] of [encoded] within [message], and its replacement. *)
Lemma delimited_spec encoded message tag key r :
  1 <= tag < 2 ^ 29 -> delimited encoded message tag = Some (key, r) ->
  exists a pre head contents post z,
    encoded = a ++ pre ++ head ++ contents ++ post ++ z /\
    message = mk_range (length a) (length (a ++ pre ++ head ++ contents ++ post)) /\
    key = length (a ++ pre) /\
    r = mk_range (length (a ++ pre ++ head)) (length (a ++ pre ++ head ++ contents)) /\
    forall a' contents' post' z', Z.of_nat (length contents') <= u64_max ->
      delimited (a' ++ pre ++ delimited_field tag contents' ++ post' ++ z')
        (mk_range (length a') (length (a' ++ pre ++ delimited_field tag contents' ++ post'))) tag
      = Some (length (a' ++ pre),
          mk_range (length (a' ++ pre ++ delimited_field tag contents') - length contents')
            (length (a' ++ pre ++ delimited_field tag contents'))).
Proof.
  intros Ht. unfold delimited, get_range at 1. destruct message as [i j]. cbn [r_start r_end].
  destruct (decide _) as [Hij|]; [|done]. intros Hd.
  set (m := slice encoded (mk_range i j)) in *.
  assert (Hm : encoded = take i encoded ++ m ++ drop j encoded).
  { subst m. unfold slice. cbn. rewrite <- (take_drop i encoded) at 1. f_equal.
    rewrite <- (take_drop (j - i) (drop i encoded)) at 1. f_equal. rewrite drop_drop. f_equal. lia. }
  assert (Hlm : length m = (j - i)%nat).
  { subst m. unfold slice. cbn. rewrite length_take, length_drop. lia. }
  assert (Hla : length (take i encoded) = i) by (rewrite length_take; lia).
  apply delimited_loop_spec in Hd as (pre & head & c & post & Hpm & Hk & Hr & Hall); [|done|lia].
  exists (take i encoded), pre, head, c, post, (drop j encoded).
  assert (Hlp : length m = (length pre + (length head + (length c + length post)))%nat)
    by (by rewrite Hpm, !length_app).
  rewrite Hpm in Hm. rewrite <- !app_assoc in Hm.
  split; [exact Hm|]. rewrite !length_app, Hla. split; [f_equal; lia|].
  split; [lia|]. split; [rewrite Hr; f_equal; lia|].
  intros a' c' post' z' Hc. cbn [r_start r_end].
  rewrite (app_assoc pre), (app_assoc (pre ++ _)), <- (app_assoc pre).
  rewrite get_range_mid by (rewrite ?length_app; lia).
  rewrite Hall by (try done; rewrite ?length_app; lia). rewrite !length_app.
  do 2 f_equal; [lia|f_equal; lia].
Qed.

(** A notification around its value: what precedes the first update, its key
    and length, what precedes its value, the value's key and length, the value,
    the rest of the update and the rest of the notification. *)
Lemma value_field_spec encoded uk u vk v :
  value_field encoded = Some ((uk, u), (vk, v)) ->
  exists pre head pre' head' value post' post,
    encoded = pre ++ head ++ (pre' ++ head' ++ value ++ post') ++ post /\
    uk = length pre /\
    u = mk_range (length (pre ++ head)) (length (pre ++ head ++ pre' ++ head' ++ value ++ post')) /\
    vk = length (pre ++ head ++ pre') /\
    v = mk_range (length (pre ++ head ++ pre' ++ head'))
          (length (pre ++ head ++ pre' ++ head' ++ value)) /\
    forall value', let inner := pre' ++ delimited_field VAL value' ++ post' in
      let outer := pre ++ delimited_field UPDATE inner in
      Z.of_nat (length value') <= u64_max -> Z.of_nat (length inner) <= u64_max ->
      value_field (outer ++ post)
      = Some ((uk, mk_range (length outer - length inner) (length outer)),
              ((length outer - length (delimited_field VAL value' ++ post'))%nat,
               mk_range (length outer - length (value' ++ post')) (length outer - length post'))).
Proof.
  unfold value_field. destruct (delimited encoded _ UPDATE) as [[uk0 u0]|] eqn:E1; [|done].
  cbn [snd]. destruct (delimited encoded u0 VAL) as [[vk0 v0]|] eqn:E2; [|done].
  intros [= -> -> -> ->].
  apply delimited_spec in E1 as (a & pre & head & c & post & z & Henc & Hm & Huk & Hu & Hd1); [|done].
  apply delimited_spec in E2 as (a2 & pre' & head' & value & post' & z2 & Henc2 & Hm2 & Hvk & Hv & Hd2);
    [|done].
  injection Hm as Ha Hz. destruct a as [|]; [|cbn in Ha; lia]. clear Ha.
  assert (z = []) as ->.
  { rewrite Henc, !length_app in Hz. cbn in Hz. destruct z; [done|cbn in Hz; lia]. }
  rewrite app_nil_r in Henc. cbn [app] in *. rewrite Hu in Hm2. injection Hm2 as Hs He.
  assert (a2 = pre ++ head /\ c = pre' ++ head' ++ value ++ post' /\ z2 = post)
    as (-> & -> & ->).
  { assert (Hcat : (pre ++ head) ++ (c ++ post)
                   = a2 ++ ((pre' ++ head' ++ value ++ post') ++ z2)).
    { rewrite <- !app_assoc. etransitivity; [symmetry; exact Henc|exact Henc2]. }
    apply app_inj_1 in Hcat as [<- Hcat]; [|done]. rewrite !length_app in He.
    apply app_inj_1 in Hcat as [-> ->]; [done|]. rewrite !length_app. lia. }
  exists pre, head, pre', head', value, post', post.
  rewrite <- !app_assoc in *. split_and!; [done..|].
  intros value' Hv' Hi. set (inner := pre' ++ delimited_field VAL value' ++ post') in *.
  set (h := encode_key UPDATE LengthDelimited ++ encode_varint (Z.of_nat (length inner))).
  assert (Hdf : delimited_field UPDATE inner = h ++ inner)
    by (subst h; unfold delimited_field; by rewrite <- app_assoc).
  pose proof (Hd1 [] inner post [] Hi) as Hd. cbn [app] in Hd. rewrite app_nil_r, Hdf in Hd.
  pose proof (Hd2 (pre ++ h) value' post' post Hv') as Hd3.
  assert (Hall : (pre ++ delimited_field UPDATE inner) ++ post
                 = (pre ++ h) ++ pre' ++ delimited_field VAL value' ++ post' ++ post)
    by (rewrite Hdf; subst inner; by rewrite <- !app_assoc).
  rewrite <- app_assoc, Hdf in Hall. cbn [length] in Hd.
  rewrite Hdf, <- (app_assoc pre), Hd. cbn [snd]. rewrite Hall.
  replace (mk_range _ _) with
    (mk_range (length (pre ++ h)) (length ((pre ++ h) ++ pre' ++ delimited_field VAL value' ++ post')))
    by (f_equal; subst inner; rewrite !length_app; lia).
  rewrite Hd3, Huk. subst inner. rewrite !length_app. cbn [length].
  match goal with
  | |- Some (_, mk_range ?a ?b, (?k, mk_range ?c ?d))
       = Some (_, mk_range ?a' ?b', (?k', mk_range ?c' ?d')) =>
      replace a' with a by lia; replace b' with b by lia; replace k' with k by lia;
      replace c' with c by lia; replace d' with d by lia
  end. done.
Qed.

(** The parts of a notification around a value, by position. *)
Lemma slices_around (pre h pre' h' value post : list Z) a b c d :
  let e := pre ++ h ++ pre' ++ h' ++ value ++ post in
  a = length (pre ++ h) -> b = length (pre ++ h ++ pre') -> c = length (pre ++ h ++ pre' ++ h') ->
  d = length (pre ++ h ++ pre' ++ h' ++ value) ->
  take (length pre) e = pre /\ slice e (mk_range a b) = pre' /\
  get_range e (mk_range c d) = Some value /\ drop d e = post.
Proof.
  intros e -> -> -> ->. unfold e. split_and!.
  - apply take_app_length.
  - rewrite (app_assoc pre). apply slice_mid; rewrite ?length_app; lia.
  - replace (pre ++ h ++ _) with ((pre ++ h ++ pre' ++ h') ++ value ++ post) by (by rewrite <- !app_assoc).
    apply get_range_mid; rewrite ?length_app; lia.
  - replace (pre ++ h ++ pre' ++ h' ++ value ++ post) with ((pre ++ h ++ pre' ++ h' ++ value) ++ post)
      by (by rewrite <- !app_assoc). apply drop_app_length.
Qed.

(** Replacing the value of a notification replaces nothing else. When the
    notification has a value, [with_value] succeeds; in the result the first
    update and its value are found again, the value is the new one, and what
    precedes the update, what precedes the value in it and what follows the
    value are those of the notification. *)
Theorem with_value_correct encoded value uk u vk v :
  value_field encoded = Some ((uk, u), (vk, v)) ->
  Z.of_nat (length encoded) + Z.of_nat (length value) + 20 <= u64_max ->
  exists buf u' vk' v', with_value encoded value = Some buf /\
    value_field buf = Some ((uk, u'), (vk', v')) /\ get_range buf v' = Some value /\
    take uk buf = take uk encoded /\
    slice buf (mk_range (r_start u') vk') = slice encoded (mk_range (r_start u) vk) /\
    drop (r_end v') buf = drop (r_end v) encoded.
Proof.
  intros Hf Hlen.
  destruct (value_field_spec _ _ _ _ _ Hf) as
    (pre & head & pre' & head' & old & post' & post & -> & Huk & Hu & Hvk & Hv & Hnew).
  set (inner := pre' ++ delimited_field VAL value ++ post').
  set (outer := pre ++ delimited_field UPDATE inner). rewrite !length_app in Hlen.
  pose proof (key_short VAL). pose proof (varint_short (Z.of_nat (length value))).
  assert (Hli : length inner = (length pre' + delimited_len VAL (length value) + length post')%nat).
  { unfold inner. rewrite !length_app, delimited_field_length by (done || lia). lia. }
  assert (Hi : Z.of_nat (length inner) <= u64_max) by (unfold delimited_len in Hli; lia).
  specialize (Hnew value ltac:(lia) Hi). fold inner outer in Hnew.
  set (h := encode_key UPDATE LengthDelimited ++ encode_varint (Z.of_nat (length inner))).
  set (h' := encode_key VAL LengthDelimited ++ encode_varint (Z.of_nat (length value))).
  assert (Hin : inner = pre' ++ h' ++ value ++ post')
    by (unfold inner, h', delimited_field; by rewrite <- !app_assoc).
  assert (Hout : outer = pre ++ h ++ inner) by (unfold outer, h, delimited_field; by rewrite <- !app_assoc).
  rewrite <- !app_assoc in *. rewrite Hu, Hv, Hvk, Huk in *. cbn [r_start r_end] in *.
  destruct (slices_around pre head pre' head' old (post' ++ post) _ _ _ _ eq_refl eq_refl eq_refl eq_refl)
    as (Hpre & Hmid & _ & Hpost).
  destruct (slices_around pre h pre' h' value (post' ++ post)
    (length outer - length inner)%nat (length outer - length (delimited_field VAL value ++ post'))%nat
    (length outer - length (value ++ post'))%nat (length outer - length post')%nat)
    as (Hpre2 & Hmid2 & Hval2 & Hpost2);
    try (unfold delimited_field; fold h'; rewrite Hout, Hin, !length_app; unfold h'; rewrite ?length_app; lia).
  assert (Hcat : outer ++ post = pre ++ h ++ pre' ++ h' ++ value ++ post' ++ post)
    by (rewrite Hout, Hin; by rewrite <- !app_assoc).
  exists (outer ++ post). do 3 eexists. split; [|split; [exact Hnew|]].
  - unfold with_value. rewrite Hf. cbn [mbind option_bind r_start r_end]. rewrite Hpre, Hmid, Hpost.
    replace (_ + delimited_len VAL (length value) + _)%nat with (length inner)
      by (rewrite Hli, !length_app; lia).
    replace (pre ++ encode_key UPDATE LengthDelimited ++ _) with (outer ++ post)
      by (rewrite Hcat; unfold h, h'; by rewrite <- !app_assoc).
    rewrite decide_True; [done|].
    assert (length outer = (length pre + delimited_len UPDATE (length inner))%nat)
      by (unfold outer; by rewrite length_app, delimited_field_length).
    rewrite !length_app in *. lia.
  - cbn [r_start r_end]. rewrite Hcat. split_and!; [done| | |]; congruence.
Qed.

End Laws.

(** ** A wire format

    The protobuf encoding without groups, as an instance of the class. *)

Module Wire.

Fixpoint encode_septets (fuel : nat) (n : Z) : list Z :=
  match fuel with
  | O => []
  | S fuel => if n <? 128 then [n] else (n mod 128 + 128) :: encode_septets fuel (n / 128)
  end.

Fixpoint decode_septets (fuel : nat) (buf : list Z) : option (Z * list Z) :=
  match fuel, buf with
  | O, _ | _, [] => None
  | S fuel, b :: rest =>
      if b <? 128 then Some (b, rest)
      else let! (v, rest) := decode_septets fuel rest in Some (b - 128 + 128 * v, rest)
  end.

Definition varint (n : Z) : list Z := encode_septets 10 n.

Definition read_varint (buf : list Z) : option (Z * list Z) :=
  let! (n, rest) := decode_septets 10 buf in
  if (0 <=? n) && (n <=? u64_max) then Some (n, rest) else None.

Definition wire_number (w : WireType) : Z :=
  match w with
  | Varint => 0 | SixtyFourBit => 1 | LengthDelimited => 2 | StartGroup => 3
  | EndGroup => 4 | ThirtyTwoBit => 5
  end.

Definition wire_of (n : Z) : option WireType :=
  if n =? 0 then Some Varint else if n =? 1 then Some SixtyFourBit
  else if n =? 2 then Some LengthDelimited else if n =? 3 then Some StartGroup
  else if n =? 4 then Some EndGroup else if n =? 5 then Some ThirtyTwoBit else None.

Definition read_key (buf : list Z) : option (Z * WireType * list Z) :=
  let! (k, rest) := read_varint buf in
  let! w := wire_of (k mod 8) in
  if (1 <=? k / 8) && (k <=? u32_max) then Some (k / 8, w, rest) else None.

Definition advance (n : nat) (buf : list Z) : option (list Z) :=
  if (n <=? length buf)%nat then Some (drop n buf) else None.

Definition skip (w : WireType) (field : Z) (buf : list Z) : option (list Z) :=
  match w with
  | Varint => let! (_, rest) := read_varint buf in Some rest
  | SixtyFourBit => advance 8 buf
  | ThirtyTwoBit => advance 4 buf
  | LengthDelimited => let! (n, rest) := read_varint buf in advance (Z.to_nat n) rest
  | StartGroup | EndGroup => None
  end.

#[export] Instance wire : Prost := {|
  decode_key := read_key;
  decode_varint := read_varint;
  skip_field := skip;
  encode_key tag w := varint (8 * tag + wire_number w);
  encode_varint := varint;
  encoded_len_varint n := length (varint n);
  key_len tag := Nat.min 5 (length (varint (8 * tag)));
|}.

Lemma decode_encode_septets fuel n rest :
  (0 < fuel)%nat -> 0 <= n < 128 ^ Z.of_nat fuel ->
  decode_septets fuel (encode_septets fuel n ++ rest) = Some (n, rest).
Proof.
  revert n. induction fuel as [|fuel IH]; intros n Hf Hn; [lia|].
  rewrite Nat2Z.inj_succ, Z.pow_succ_r in Hn by lia. cbn [encode_septets].
  destruct (Z.ltb_spec n 128) as [|Hb]; cbn [app decode_septets].
  - by rewrite (proj2 (Z.ltb_lt n 128)).
  - pose proof (Z.mod_pos_bound n 128 ltac:(lia)).
    rewrite (proj2 (Z.ltb_ge _ _)) by lia.
    destruct fuel as [|fuel]; [cbn in Hn; lia|].
    rewrite IH by (first [lia|split; [apply Z.div_pos; lia|apply Z.div_lt_upper_bound; lia]]).
    do 2 f_equal. pose proof (Z.div_mod n 128 ltac:(lia)). lia.
Qed.

Lemma septets_prefix fuel buf n rest :
  decode_septets fuel buf = Some (n, rest) ->
  exists pre, pre <> [] /\ buf = pre ++ rest /\
    forall rest', decode_septets fuel (pre ++ rest') = Some (n, rest').
Proof.
  revert buf n rest. induction fuel as [|fuel IH]; intros [|b buf] n rest; try done.
  cbn [decode_septets]. destruct (b <? 128) eqn:Eb.
  - intros [= <- <-]. exists [b]. split_and!; [done..|]. intros rest'. cbn. by rewrite Eb.
  - destruct (decode_septets fuel buf) as [[v rest1]|] eqn:E; [|done]. intros [= <- <-].
    destruct (IH _ _ _ E) as (pre & _ & -> & Hr). exists (b :: pre). split_and!; [done..|].
    intros rest'. cbn. by rewrite Eb, Hr.
Qed.

Lemma read_varint_prefix buf n rest :
  read_varint buf = Some (n, rest) ->
  exists pre, 0 <= n <= u64_max /\ pre <> [] /\ buf = pre ++ rest /\
    forall rest', read_varint (pre ++ rest') = Some (n, rest').
Proof.
  unfold read_varint. destruct (decode_septets 10 buf) as [[v r]|] eqn:E; [|done].
  destruct (_ && _) eqn:Eb; [|done]. intros [= <- <-].
  destruct (septets_prefix _ _ _ _ E) as (pre & Hne & -> & Hr). exists pre.
  split_and!; [zbool; lia|zbool; lia|done..|]. intros rest'. by rewrite Hr, Eb.
Qed.

Lemma advance_prefix n buf rest :
  advance n buf = Some rest ->
  exists pre, buf = pre ++ rest /\ forall rest', advance n (pre ++ rest') = Some rest'.
Proof.
  unfold advance. destruct (Nat.leb_spec n (length buf)); [|done]. intros [= <-].
  exists (take n buf). rewrite take_drop. split; [done|]. intros rest'.
  rewrite length_app, length_take_le by lia. rewrite (proj2 (Nat.leb_le _ _)) by lia.
  by rewrite drop_app_length' by (by rewrite length_take_le).
Qed.

Lemma septets_length_block fuel n m :
  n / 8 = m / 8 -> length (encode_septets fuel n) = length (encode_septets fuel m).
Proof.
  intros Hnm. destruct fuel as [|fuel]; [done|]. cbn [encode_septets].
  assert (Hb : (n <? 128) = (m <? 128)).
  { pose proof (Z.div_mod n 8 ltac:(lia)). pose proof (Z.div_mod m 8 ltac:(lia)).
    pose proof (Z.mod_pos_bound n 8). pose proof (Z.mod_pos_bound m 8).
    destruct (Z.ltb_spec n 128), (Z.ltb_spec m 128); lia. }
  rewrite Hb. destruct (m <? 128); [done|]. cbn [length].
  replace (n / 128) with (m / 128); [done|]. change 128 with (8 * 16).
  by rewrite <- !Z.div_div, Hnm by lia.
Qed.

Lemma wire_septets_length k fuel n :
  0 <= n < 128 ^ Z.of_nat k -> (0 < k)%nat -> (length (encode_septets fuel n) <= k)%nat.
Proof.
  revert k n. induction fuel as [|fuel IH]; intros k n Hn Hk; [cbn; lia|]. cbn [encode_septets].
  destruct (Z.ltb_spec n 128) as [|Hb]; cbn [length]; [lia|]. destruct k as [|[|k]]; [lia|lia|].
  rewrite Nat2Z.inj_succ, Z.pow_succ_r in Hn by lia.
  enough (length (encode_septets fuel (n / 128)) <= S k)%nat by lia. apply IH; [|lia].
  split; [apply Z.div_pos; lia|apply Z.div_lt_upper_bound; lia].
Qed.

Lemma wire_of_number w : wire_of (wire_number w) = Some w.
Proof. by destruct w. Qed.

Lemma key_number tag w :
  (8 * tag + wire_number w) mod 8 = wire_number w /\ (8 * tag + wire_number w) / 8 = tag.
Proof.
  assert (0 <= wire_number w < 8) by (destruct w; cbn; lia).
  rewrite Z.mul_comm. split.
  - rewrite Z.add_comm, Z.mod_add by lia. by apply Z.mod_small.
  - rewrite Z.div_add_l by lia. rewrite Z.div_small by lia. lia.
Qed.

#[export] Instance wire_laws : ProstLaws.
Proof.
  split.
  - intros buf field w rest. cbn. unfold read_key.
    destruct (read_varint buf) as [[k r]|] eqn:E; [|done].
    destruct (wire_of _) as [w'|] eqn:Ew; [|done]. destruct (_ && _) eqn:Eb; [|done].
    intros [= <- <- <-]. destruct (read_varint_prefix _ _ _ E) as (pre & _ & Hne & -> & Hr).
    exists pre. split_and!; [done..|]. intros rest'. by rewrite Hr, Ew, Eb.
  - apply read_varint_prefix.
  - intros w field buf rest. cbn. destruct w; cbn; try apply advance_prefix; try done.
    + destruct (read_varint buf) as [[k r]|] eqn:E; [|done]. intros [= <-].
      destruct (read_varint_prefix _ _ _ E) as (pre & _ & _ & -> & Hr). exists pre.
      split; [done|]. intros rest'. by rewrite Hr.
    + destruct (read_varint buf) as [[k r]|] eqn:E; [|done]. intros Ha.
      destruct (read_varint_prefix _ _ _ E) as (pre & _ & _ & -> & Hr).
      destruct (advance_prefix _ _ _ Ha) as (pre' & -> & Hr'). exists (pre ++ pre').
      rewrite <- app_assoc. split; [done|]. intros rest'. by rewrite <- app_assoc, Hr.
  - intros tag w rest Ht.
    change (read_key (varint (8 * tag + wire_number w) ++ rest) = Some (tag, w, rest)).
    unfold read_key, read_varint, varint.
    destruct (key_number tag w) as [Hm Hd]. assert (0 <= wire_number w < 8) by (destruct w; cbn; lia).
    rewrite decode_encode_septets by (change (Z.of_nat 10) with 10; lia).
    rewrite (proj2 (andb_true_iff _ _)) by (split; zbool; lia).
    rewrite Hm, Hd, wire_of_number.
    rewrite (proj2 (andb_true_iff _ _)) by (split; zbool; lia). done.
  - intros n rest Hn. change (read_varint (varint n ++ rest) = Some (n, rest)). unfold read_varint, varint.
    rewrite decode_encode_septets by (change (Z.of_nat 10) with 10; lia).
    by rewrite (proj2 (andb_true_iff _ _)) by (split; zbool; lia).
  - intros tag w Ht. change (length (varint (8 * tag + wire_number w))
      = Nat.min 5 (length (varint (8 * tag)))). assert (0 <= wire_number w < 8) by (destruct w; cbn; lia).
    unfold varint. rewrite (septets_length_block 10 _ (8 * tag)).
    + rewrite Nat.min_r; [done|]. apply wire_septets_length; [change (Z.of_nat 5) with 5; lia|lia].
    + rewrite (proj2 (key_number tag w)). rewrite Z.mul_comm, Z.div_mul by lia. done.
  - done.
  - intros tag. apply Nat.le_min_l.
  - intros n. change (length (varint n) <= 10)%nat. unfold varint.
    enough (Hg : forall fuel m, (length (encode_septets fuel m) <= fuel)%nat) by apply Hg.
    induction fuel as [|fuel IH]; intros m; cbn [encode_septets]; [done|].
    destruct (m <? 128); cbn [length]; [lia|]. specialize (IH (m / 128)). lia.
Qed.

End Wire.

Import Wire.

(** A notification at time 9 whose update has the value 7. *)
Definition ex_notification : list Z := [8; 9; 34; 7; 10; 1; 99; 26; 2; 24; 7; 88; 1].

Lemma with_value_correct_witness :
  exists buf u' vk' v', with_value ex_notification [90; 3; 34; 55; 34] = Some buf /\
    value_field buf = Some ((2%nat, u'), (vk', v')) /\ get_range buf v' = Some [90; 3; 34; 55; 34] /\
    take 2 buf = take 2 ex_notification /\
    slice buf (mk_range (r_start u') vk') = slice ex_notification (mk_range 4 7) /\
    drop (r_end v') buf = drop 11 ex_notification.
Proof.
  apply (with_value_correct ex_notification [90; 3; 34; 55; 34] 2 (mk_range 4 11) 7 (mk_range 9 11)).
  - vm_compute. reflexivity.
  - vm_compute. discriminate.
Defined.
