(* ===== verification/GnmiTarget.v ===== *)
(** * GnmiTarget: the series behind one gNMI listen address (sink/gnmi/target.rs)

    [SeriesTable] holds the latest notification of every series published on an
    address. [publish], [overwrite] and [release] change it and return what they
    broadcast to the subscribers; [snapshot] reads it. Whether anyone is
    subscribed, which the code asks the channel, is an argument. A [PathKey] is
    its path: keys compare by hash and path, and the hash is a function of the
    path.

    A version counts the changes of one value and [publishers] the sinks of one
    series; neither reaches the end of its type. A series id is a [u32] that
    wraps. [None] is a search for a free id that does not end. *)

From Stdlib Require Import ZArith Lia.
From stdpp Require Import prelude strings list gmap.
From S2P Require Import Prelude Metric GnmiPath GnmiNotification.

Abbreviation two32 := 4294967296 (only parsing).
Abbreviation i64_max := 9223372036854775807 (only parsing).

#[export] Instance PathElem_eq_dec : EqDecision PathElem.
Proof. solve_decision. Defined.

#[export] Instance Path_eq_dec : EqDecision Path.
Proof. solve_decision. Defined.

#[export] Instance PathElem_countable : Countable PathElem.
Proof.
  apply (inj_countable' (fun e => (el_name e, el_key e)) (fun x => mk_elem x.1 x.2)). by intros [].
Defined.

#[export] Instance Path_countable : Countable Path.
Proof.
  apply (inj_countable' (fun p => (origin p, elem p, target p))
           (fun x => mk_path x.1.1 x.1.2 x.2)). by intros [].
Defined.

Abbreviation Bytes := (list Z) (only parsing).
Abbreviation SeriesId := Z (only parsing).
Abbreviation Owner := Z (only parsing).

(** [SeriesUpdate] and [SeriesEvent]. *)
Record SeriesUpdate := mk_update {
  su_id : SeriesId; su_kind : ValueKind; su_version : Z; su_bytes : Bytes }.

Inductive SeriesEvent :=
| Changed (u : SeriesUpdate)
| Removed (id : SeriesId) (bytes : Bytes).

(** [Latest], with its [value()]. *)
Record Latest := mk_latest {
  l_bytes : Bytes; l_value : Range; l_version : Z; l_json : option Bytes }.

Definition default_latest : Latest := mk_latest [] (mk_range 0 0) 0 None.

Definition latest_value (l : Latest) : Bytes := default [] (get_range (l_bytes l) (l_value l)).

Record Slot := mk_slot {
  s_path : Path; s_latest : Latest; s_kind : ValueKind; s_owner : Owner; s_publishers : Z }.

Record SeriesTable := mk_table {
  ids : gmap Path SeriesId; slots : gmap SeriesId Slot; next_id : SeriesId }.

Definition empty_table : SeriesTable := mk_table ∅ ∅ 0.

Record SeriesSnapshot := mk_snapshot {
  ss_id : SeriesId; ss_path : Path; ss_kind : ValueKind; ss_version : Z; ss_latest : Bytes }.

Record Published := mk_published { receivers : bool; changed : bool }.

(** The errors of a publish: bytes that are not a notification with a value, and
    a path another launch owns. *)
Inductive TargetError := NotANotification | AlreadyPublished (p : Path).

Definition set_latest (s : Slot) (l : Latest) : Slot :=
  mk_slot (s_path s) l (s_kind s) (s_owner s) (s_publishers s).

Definition set_publishers (s : Slot) (n : Z) : Slot :=
  mk_slot (s_path s) (s_latest s) (s_kind s) (s_owner s) n.

Definition set_slot (id : SeriesId) (s : Slot) (t : SeriesTable) : SeriesTable :=
  mk_table (ids t) (<[id := s]> (slots t)) (next_id t).

(** [GnmiTarget::replace], for a target with a receiver or without. *)
Definition replace (rx : bool) (id : SeriesId) (kind : ValueKind) (current latest : Latest)
  : Latest * Published * list SeriesEvent :=
  let changed := negb (bool_decide (latest_value current = latest_value latest)) in
  let version := l_version current + (if changed then 1 else 0) in
  let json := if changed then None else l_json current in
  let stored := mk_latest (l_bytes latest) (l_value latest) version json in
  let sent := if changed && rx then [Changed (mk_update id kind version (l_bytes latest))] else [] in
  (stored, mk_published rx changed, sent).

(** The search for an id no series holds, from [id] on. *)
Fixpoint free_id (fuel : nat) (held : gmap SeriesId Slot) (id : SeriesId) : option SeriesId :=
  match fuel with
  | O => None
  | S fuel =>
      match held !! id with
      | Some _ => free_id fuel held ((id + 1) mod two32)
      | None => Some id
      end
  end.

(** The slot a cached id names, if it is still this owner's series at [path]. *)
Definition cached (o : Owner) (id : option SeriesId) (path : Path) (t : SeriesTable)
  : option (SeriesId * Slot) :=
  let! i := id in
  let! slot := slots t !! i in
  if (s_owner slot =? o) && bool_decide (s_path slot = path) then Some (i, slot) else None.

(** The second half of [store]: count a publisher of series [id] and store its
    value, in a new slot when there is none. *)
Definition enter (rx : bool) (o : Owner) (id : SeriesId) (path : Path) (latest : Latest)
  (kind : ValueKind) (t : SeriesTable)
  : result (SeriesId * Published) TargetError * SeriesTable * list SeriesEvent :=
  let slot := default (mk_slot path default_latest kind o 0) (slots t !! id) in
  let slot := set_publishers slot (s_publishers slot + 1) in
  let '(stored, published, sent) := replace rx id (s_kind slot) (s_latest slot) latest in
  (Ok (id, published), set_slot id (set_latest slot stored) t, sent).

(** [GnmiTarget::store]. *)
Definition store (rx : bool) (o : Owner) (id : option SeriesId) (path : Path) (latest : Latest)
  (kind : ValueKind) (t : SeriesTable)
  : option (result (SeriesId * Published) TargetError * SeriesTable * list SeriesEvent) :=
  match cached o id path t with
  | Some (i, slot) =>
      let '(stored, published, sent) := replace rx i (s_kind slot) (s_latest slot) latest in
      Some (Ok (i, published), set_slot i (set_latest slot stored) t, sent)
  | None =>
      match ids t !! path with
      | Some i =>
          match slots t !! i with
          | Some slot =>
              if negb (s_owner slot =? o) then Some (Err (AlreadyPublished path), t, [])
              else Some (enter rx o i path latest kind t)
          | None => Some (enter rx o i path latest kind t)
          end
      | None =>
          let! i := free_id (S (size (slots t))) (slots t) (next_id t) in
          let t := mk_table (<[path := i]> (ids t)) (slots t) ((i + 1) mod two32) in
          Some (enter rx o i path latest kind t)
      end
  end.

Section Target.
Context `{Prost}.
(** [encode_delete] of the gNMI encoder: a notification deleting a path. *)
Context (encode_delete : Path -> Z -> Bytes).
(** The JSON form of a value ([json_text] and [write_json_ietf_val]). *)
Context (json : Bytes -> option Bytes).

(** [latest]. *)
Definition latest (encoded : Bytes) : result (Latest * ValueKind) TargetError :=
  match value_span encoded with
  | Some (value, kind) => Ok (mk_latest encoded value 0 None, kind)
  | None => Err NotANotification
  end.

(** [GnmiTarget::publish]. *)
Definition publish (rx : bool) (o : Owner) (id : option SeriesId) (path : Path) (encoded : Bytes)
  (t : SeriesTable)
  : option (result (SeriesId * Published) TargetError * SeriesTable * list SeriesEvent) :=
  match latest encoded with
  | Err e => Some (Err e, t, [])
  | Ok (latest, kind) => store rx o id path latest kind t
  end.

(** [GnmiTarget::overwrite]. *)
Definition overwrite (rx : bool) (path : Path) (encoded : Bytes) (t : SeriesTable)
  : result (option SeriesId) TargetError * SeriesTable * list SeriesEvent :=
  match latest encoded with
  | Err e => (Err e, t, [])
  | Ok (latest, _) =>
      match (let! i := ids t !! path in let! slot := slots t !! i in Some (i, slot)) with
      | None => (Ok None, t, [])
      | Some (i, slot) =>
          let '(stored, _, sent) := replace rx i (s_kind slot) (s_latest slot) latest in
          (Ok (Some i), set_slot i (set_latest slot stored) t, sent)
      end
  end.

(** [GnmiTarget::path_of]. *)
Definition path_of_id (id : SeriesId) (t : SeriesTable) : option Path := s_path <$> slots t !! id.

(** [delete_notification] at [now], nanoseconds since the epoch. *)
Definition delete_notification (now : Z) (path : Path) : Bytes :=
  encode_delete path (if now <? 0 then 0 else Z.min now i64_max).

(** [GnmiTarget::release] of one id; [clock] is when its delete is encoded. *)
Definition release_one (rx : bool) (clock : SeriesId -> Z) (o : Owner) (id : SeriesId)
  (t : SeriesTable) : SeriesTable * list SeriesEvent :=
  match slots t !! id with
  | Some slot =>
      if negb (s_owner slot =? o) then (t, [])
      else
        let n := sat_sub (s_publishers slot) 1 in
        if n =? 0 then
          (mk_table (delete (s_path slot) (ids t)) (delete id (slots t)) (next_id t),
           if rx then [Removed id (delete_notification (clock id) (s_path slot))] else [])
        else (set_slot id (set_publishers slot n) t, [])
  | None => (t, [])
  end.

(** [GnmiTarget::release]. *)
Fixpoint release (rx : bool) (clock : SeriesId -> Z) (o : Owner) (l : list SeriesId)
  (t : SeriesTable) : SeriesTable * list SeriesEvent :=
  match l with
  | [] => (t, [])
  | id :: l =>
      let (t, sent) := release_one rx clock o id t in
      let (t, sent') := release rx clock o l t in
      (t, sent ++ sent')
  end.

(** [GnmiTarget::json_ietf_value]: the JSON form of series [id]'s value at
    [version], kept with the series while it is current. *)
Definition json_ietf_value_of (id : SeriesId) (version : Z) (latest : Bytes) (t : SeriesTable)
  : option Bytes * SeriesTable :=
  match slots t !! id with
  | None => (None, t)
  | Some slot =>
      let current := s_latest slot in
      if negb (l_version current =? version) then (json_ietf_value json latest, t)
      else
        match l_json current with
        | Some made => (Some made, t)
        | None =>
            match json_ietf_value json (l_bytes current) with
            | None => (None, t)
            | Some made =>
                let current := mk_latest (l_bytes current) (l_value current) (l_version current)
                                 (Some made) in
                (Some made, set_slot id (set_latest slot current) t)
            end
        end
  end.

(** [GnmiTarget::json_ietf_of]. *)
Definition json_ietf_of (id : SeriesId) (version : Z) (latest : Bytes) (t : SeriesTable)
  : option Bytes * SeriesTable :=
  let (made, t) := json_ietf_value_of id version latest t in
  ((let! value := made in with_value latest value), t).

End Target.

(** The entry of [snapshot] for series [id]. *)
Definition snapshot_of (t : SeriesTable) (id : SeriesId) : option SeriesSnapshot :=
  (fun slot => mk_snapshot id (s_path slot) (s_kind slot) (l_version (s_latest slot))
                 (l_bytes (s_latest slot))) <$> slots t !! id.

(** [GnmiTarget::snapshot], the map yielding its ids in [order]. *)
Definition snapshot (t : SeriesTable) (order : list SeriesId) : list SeriesSnapshot :=
  omap (snapshot_of t) order.

(** ** What a publish does *)

(** [ids] and [slots] are inverses, and ids are [u32]s. *)
Record table_inv (t : SeriesTable) : Prop := {
  i_ids p id : ids t !! p = Some id <-> exists s, slots t !! id = Some s /\ s_path s = p;
  i_range id : is_Some (slots t !! id) -> 0 <= id < two32;
  i_next : 0 <= next_id t < two32;
}.

(** The ids the search visits. *)
Lemma free_id_spec fuel held id :
  0 <= id < two32 -> Z.of_nat fuel <= two32 ->
  (forall j, 0 <= j < Z.of_nat fuel -> is_Some (held !! ((id + j) mod two32))) \/
  exists i, free_id fuel held id = Some i /\ held !! i = None /\ 0 <= i < two32.
Proof.
  revert id. induction fuel as [|fuel IH]; intros id Hid Hf; [left; lia|]. cbn [free_id].
  destruct (held !! id) as [s|] eqn:E; [|right; by exists id].
  pose proof (Z.mod_pos_bound (id + 1) two32 ltac:(lia)).
  destruct (IH ((id + 1) mod two32)) as [Hall|]; [done|lia| |by right]. left. intros j Hj.
  destruct (decide (j = 0)) as [->|]; [rewrite Z.add_0_r, Z.mod_small by lia; by rewrite E|].
  specialize (Hall (j - 1) ltac:(lia)). rewrite Zplus_mod_idemp_l in Hall.
  by replace (id + 1 + (j - 1)) with (id + j) in Hall by lia.
Qed.

(** The search ends: there are more ids than series. *)
Lemma free_id_total held id :
  0 <= id < two32 -> Z.of_nat (size held) < two32 ->
  exists i, free_id (S (size held)) held id = Some i /\ held !! i = None /\ 0 <= i < two32.
Proof.
  intros Hid Hsz. destruct (free_id_spec (S (size held)) held id) as [Hall|]; [done|lia| |done].
  exfalso. set (l := (fun j => (id + Z.of_nat j) mod two32) <$> seq 0 (S (size held))).
  assert (Hnd : NoDup l).
  { apply NoDup_fmap_2_strong; [|apply NoDup_seq]. intros a b Ha%elem_of_seq Hb%elem_of_seq E.
    assert (Hz : (Z.of_nat a - Z.of_nat b) mod two32 = 0).
    { replace (Z.of_nat a - Z.of_nat b) with ((id + Z.of_nat a) - (id + Z.of_nat b)) by lia.
      rewrite Zminus_mod, E, Z.sub_diag. done. }
    apply Z.mod_divide in Hz as [k Hk]; lia. }
  assert (Hsub : list_to_set l ⊆ dom held).
  { intros i [j [-> Hj%elem_of_seq]]%elem_of_list_to_set%list_elem_of_fmap.
    apply elem_of_dom, Hall. lia. }
  apply subseteq_size in Hsub. rewrite size_list_to_set, size_dom in Hsub by done.
  unfold l in Hsub. rewrite length_fmap, length_seq in Hsub. lia.
Qed.

Section Publish.
Context `{Prost}.

(** What a publish stores. *)
Definition published_slot (o : Owner) (path : Path) (kind : ValueKind) (lat : Latest) (count : Z)
  (old : option Slot) : Slot * bool :=
  let s := default (mk_slot path default_latest kind o 0) old in
  let changed := negb (bool_decide (latest_value (s_latest s) = latest_value lat)) in
  (mk_slot (s_path s)
     (mk_latest (l_bytes lat) (l_value lat) (l_version (s_latest s) + (if changed then 1 else 0))
        (if changed then None else l_json (s_latest s)))
     (s_kind s) (s_owner s) (s_publishers s + count), changed).

(** A cached id that is used names this owner's series at the path. *)
Lemma cached_holds o id path t i s :
  table_inv t -> cached o id path t = Some (i, s) ->
  slots t !! i = Some s /\ s_owner s = o /\ ids t !! path = Some i.
Proof.
  intros Ht. unfold cached. destruct id as [j|]; [|done]. destruct (slots t !! j) as [s'|] eqn:E; [|done].
  destruct (_ && _) eqn:Eb; [|done]. intros [= -> ->].
  apply andb_true_iff in Eb as [Ho%Z.eqb_eq Hp%bool_decide_eq_true].
  split_and!; [done..|]. apply (i_ids t Ht). by exists s.
Qed.

(** A slot changed in place. *)
Lemma keep_inv t i s s' n :
  table_inv t -> slots t !! i = Some s -> s_path s' = s_path s -> 0 <= n < two32 ->
  table_inv (mk_table (ids t) (<[i := s']> (slots t)) n).
Proof.
  intros Ht Hs Hp Hn. split; cbn; [| |done].
  - intros p j. rewrite (i_ids t Ht). destruct (decide (j = i)) as [->|Hne];
      [rewrite lookup_insert_eq; naive_solver|by rewrite lookup_insert_ne].
  - intros j. destruct (decide (j = i)) as [->|Hne]; [intros _; apply (i_range t Ht); by eexists|].
    rewrite lookup_insert_ne by done. apply (i_range t Ht).
Qed.

(** A slot made. *)
Lemma new_inv t path i s n :
  table_inv t -> ids t !! path = None -> slots t !! i = None -> 0 <= i < two32 -> s_path s = path ->
  0 <= n < two32 -> table_inv (mk_table (<[path := i]> (ids t)) (<[i := s]> (slots t)) n).
Proof.
  intros Ht Hid Hfree Hi <- Hn. split; cbn; [| |done].
  - intros p j. rewrite lookup_insert_Some, (i_ids t Ht). split.
    + intros [[<- <-]|[Hne (s1 & Hs1 & <-)]]; [eexists; by rewrite lookup_insert_eq|].
      exists s1. rewrite lookup_insert_ne; [done|]. congruence.
    + intros (s1 & [[<- <-]|[Hne Hs1]]%lookup_insert_Some & <-); [by left|]. right.
      split; [|by exists s1]. intros Heq.
      assert (ids t !! s_path s = Some j) by (apply (i_ids t Ht); by exists s1). congruence.
  - intros j [s' [[<- _]|[_ Hs']]%lookup_insert_Some]; [done|].
    apply (i_range t Ht). by eexists.
Qed.

(** [replace] makes the slot. *)
Lemma replace_published rx o path kind lat count old i :
  let s := default (mk_slot path default_latest kind o 0) old in
  let '(s', changed) := published_slot o path kind lat count old in
  let '(stored, pub, sent) := replace rx i (s_kind s) (s_latest s) lat in
  set_latest (set_publishers s (s_publishers s + count)) stored = s' /\
  pub = mk_published rx changed /\
  sent = if changed && rx
         then [Changed (mk_update i (s_kind s') (l_version (s_latest s')) (l_bytes lat))] else [].
Proof. done. Qed.

Lemma enter_published rx o i path lat kind t :
  let '(s', changed) := published_slot o path kind lat 1 (slots t !! i) in
  enter rx o i path lat kind t
  = (Ok (i, mk_published rx changed), set_slot i s' t,
     if changed && rx
     then [Changed (mk_update i (s_kind s') (l_version (s_latest s')) (l_bytes lat))] else []).
Proof. done. Qed.

(** C14: a publish does what it says. With fewer than 2^32 series it always
    returns: bytes that are not a notification with a value, and a path another
    launch owns, are refused and change nothing; otherwise exactly the series at
    that path is stored, under its id or, when it is new, under one no series
    holds. A new value counts one version up, drops the JSON form and is
    broadcast to the receivers; the same value again is stored silently. A valid
    cached id saves the lookup, and the publisher is counted only without one. *)
Theorem publish_correct rx o id path encoded t (Ht : table_inv t)
    (Hsize : Z.of_nat (size (slots t)) < two32) :
  exists res t' sent, publish rx o id path encoded t = Some (res, t', sent) /\
  match latest encoded with
  | Err e => res = Err e /\ t' = t /\ sent = []
  | Ok (lat, kind) =>
      (exists i s, ids t !! path = Some i /\ slots t !! i = Some s /\ s_owner s <> o /\
         res = Err (AlreadyPublished path) /\ t' = t /\ sent = []) \/
      exists i, let '(s, changed) := published_slot o path kind lat
                  (match cached o id path t with Some _ => 0 | None => 1 end) (slots t !! i) in
        (ids t !! path = Some i \/ ids t !! path = None /\ slots t !! i = None /\ 0 <= i < two32) /\
        (forall s', slots t !! i = Some s' -> s_owner s' = o) /\
        res = Ok (i, mk_published rx changed) /\
        ids t' = <[path := i]> (ids t) /\ slots t' = <[i := s]> (slots t) /\ table_inv t' /\
        sent = if changed && rx then [Changed (mk_update i (s_kind s) (l_version (s_latest s)) encoded)]
               else []
  end.
Proof.
  unfold publish. destruct (latest encoded) as [[lat kind]|e] eqn:El; [|by eexists _, _, _].
  assert (Henc : l_bytes lat = encoded).
  { unfold latest in El. destruct (value_span encoded) as [[v k]|]; [|done]. by injection El as <- _. }
  rewrite <- Henc. unfold store. destruct (cached o id path t) as [[i s]|] eqn:Ec.
  - destruct (cached_holds _ _ _ _ _ _ Ht Ec) as (Hs & Ho & Hi).
    pose proof (replace_published rx o path kind lat 0 (Some s) i) as Hr. cbn [default] in Hr.
    destruct (replace _ _ _ _ _) as [[st pub] sn]. destruct (published_slot _ _ _ _ _ (Some s)) as [s' ch] eqn:Es.
    destruct Hr as (Hs' & -> & ->). do 3 eexists. split; [done|]. right. exists i. rewrite Hs, Es.
    assert (Hset : set_latest s st = s').
    { rewrite <- Hs'. unfold set_latest, set_publishers. cbn. f_equal. lia. }
    rewrite Hset. split_and!; [by left|by intros ? [= <-]|done|cbn; by rewrite insert_id|done| |done].
    eapply keep_inv; [done..|by rewrite <- Hset|apply (i_next t Ht)].
  - destruct (ids t !! path) as [i|] eqn:Ei.
    + pose proof Ei as (s & Hs & Hp)%(i_ids t Ht). rewrite Hs.
      destruct (Z.eqb_spec (s_owner s) o) as [Ho|Ho]; cbn [negb].
      2: { do 3 eexists. split; [done|]. left. by exists i, s. }
      pose proof (enter_published rx o i path lat kind t) as Hen. rewrite Hs in Hen.
      destruct (published_slot _ _ _ _ _ (Some s)) as [s' ch] eqn:Es. rewrite Hen.
      do 3 eexists. split; [done|]. right. exists i. rewrite Hs, Es.
      split_and!; [by left|by intros ? [= <-]|done|cbn; by rewrite insert_id|done| |done].
      eapply keep_inv; [done..| |apply (i_next t Ht)]. by injection Es as <- _.
    + destruct (free_id_total (slots t) (next_id t) (i_next t Ht) Hsize) as (i & -> & Hfree & Hi).
      cbn [mbind option_bind].
      match goal with |- context [enter _ _ _ _ _ _ ?t1] =>
        pose proof (enter_published rx o i path lat kind t1) as Hen end.
      cbn [slots] in Hen. rewrite Hfree in Hen.
      destruct (published_slot _ _ _ _ _ None) as [s' ch] eqn:Es. rewrite Hen.
      do 3 eexists. split; [done|]. right. exists i. rewrite Hfree, Es.
      split_and!; try done; [by right|].
      unfold set_slot. cbn [ids slots next_id].
      apply (new_inv t); [done..|by injection Es as <- _|apply Z.mod_pos_bound; lia].
Qed.

End Publish.

Import Wire.

(** The first publish on a target, whose id counter has reached its end. *)
Lemma publish_correct_witness :
  let t := mk_table ∅ ∅ 4294967295 in
  let p := mk_path "" [mk_elem "c" []] "" in
  exists res t' sent, publish true 7 None p ex_notification t = Some (res, t', sent) /\
    ids t' !! p = Some 4294967295 /\ length sent = 1%nat.
Proof.
  intros t p.
  destruct (publish_correct true 7 None p ex_notification t) as (res & t' & sent & Hp & Hcase).
  - split; cbn; [|by intros id []|lia]. intros q id. split; [done|]. by intros (? & ? & _).
  - vm_compute. reflexivity.
  - exists res, t', sent. split; [exact Hp|]. vm_compute in Hp. injection Hp as _ <- <-.
    split; [vm_compute; reflexivity|reflexivity].
Defined.
