(* ===== verification/GnmiService.v ===== *)
(** * GnmiService: serving one gNMI subscription (sink/gnmi/service.rs)

    A [Producer] serves one subscription list from its target: the initial
    sync, sampled groups, heartbeats, polls, and the changes the target
    broadcasts. It keeps what it has queued for its client in a [Pending] queue
    and what it owes a delete for in the [Delivered] index. [serve] is one turn
    of [Producer::run]; what a turn reads from outside it (the snapshot of the
    table, [None] when the target is gone; the clocks; how many messages its
    receiver holds) are its arguments. Durations and instants are nanoseconds. *)

From Stdlib Require Import ZArith Lia.
From stdpp Require Import prelude strings list gmap sorting.
From S2P Require Import Prelude Metric GnmiPath GnmiMatcher GnmiNotification GnmiTarget.

Definition MATCHED_PRUNE_FLOOR : nat := 1024.

(** [KindFilter] and [KindFilter::admits]. *)
Inductive KindFilter := Any | Strings | NonStrings.

#[export] Instance KindFilter_eq_dec : EqDecision KindFilter.
Proof. solve_decision. Defined.

Definition admits (f : KindFilter) (kind : ValueKind) : bool :=
  match f with
  | Any => true
  | Strings => bool_decide (kind = KString)
  | NonStrings => negb (bool_decide (kind = KString))
  end.

(** [SubscriptionMatcher::matches], whose alignment always ends. *)
Definition matcher_matches (m : SubscriptionMatcher) (p : Path) : bool := default false (matches m p).

(** [Selector] and [Selector::selects]. *)
Record Selector := mk_selector { sel_matcher : SubscriptionMatcher; sel_kinds : KindFilter }.

Definition selector_selects (s : Selector) (p : Path) (kind : ValueKind) : bool :=
  admits (sel_kinds s) kind && matcher_matches (sel_matcher s) p.

Record Group := mk_group {
  period : Z; g_selector : Selector; next : Z; sent : option (gmap SeriesId Z) }.

Record Plan := mk_plan { samples : list Group; heartbeats : list Group; on_change : list Selector }.

Definition default_plan : Plan := mk_plan [] [] [].

(** [add]. *)
Fixpoint add {K : Type} `{EqDecision K} (groups : list (K * list SubscriptionMsg)) (key : K)
  (s : SubscriptionMsg) : list (K * list SubscriptionMsg) :=
  match groups with
  | [] => [(key, [s])]
  | (k, subs) :: groups =>
      if decide (k = key) then (k, subs ++ [s]) :: groups else (k, subs) :: add groups key s
  end.

Abbreviation Timed := (list ((Z * KindFilter * bool) * list SubscriptionMsg)) (only parsing).
Abbreviation Sorted_subs :=
  (Timed * Timed * list (KindFilter * list SubscriptionMsg))%type (only parsing).

(** The closure [changes] of [plan_groups]. *)
Definition plan_changes (heartbeat : option Z) (s : SubscriptionMsg) (kinds : KindFilter)
  (acc : Sorted_subs) : Sorted_subs :=
  let '(samples, heartbeats, on_change) := acc in
  (samples,
   match heartbeat with Some period => add heartbeats (period, kinds, false) s | None => heartbeats end,
   add on_change kinds s).

(** One subscription in the loop of [plan_groups]. *)
Definition plan_one (floor : Z) (acc : Sorted_subs) (s : SubscriptionMsg) : Sorted_subs :=
  let sample := Z.max (sample_interval s) floor in
  let heartbeat := if 0 <? heartbeat_interval s then Some (Z.max (heartbeat_interval s) floor)
                   else None in
  if sub_mode s =? 1 then plan_changes heartbeat s Any acc
  else if sub_mode s =? 0 then
    let '(samples, heartbeats, on_change) := plan_changes heartbeat s Strings acc in
    (add samples (sample, NonStrings, false) s, heartbeats, on_change)
  else
    let '(samples, heartbeats, on_change) := acc in
    let suppress := suppress_redundant s in
    (add samples (sample, Any, suppress) s,
     match heartbeat with
     | Some period => if suppress then add heartbeats (period, Any, false) s else heartbeats
     | None => heartbeats
     end, on_change).

(** [iter.collect::<Result<Vec<_>, _>>()]. *)
Fixpoint collect {A B E : Type} (f : A -> result B E) (l : list A) : result (list B) E :=
  match l with
  | [] => Ok []
  | a :: l => let? b := f a in let? bs := collect f l in Ok (b :: bs)
  end.

(** The closures [selector] and [groups] of [plan_groups]. *)
Definition plan_selector (l : SubscriptionList) (kinds : KindFilter) (subs : list SubscriptionMsg)
  : result Selector Status :=
  let? m := matcher_new (mk_list (sl_prefix l) subs (sl_mode l) (sl_encoding l) (updates_only l)) in
  Ok (mk_selector m kinds).

Definition plan_group (l : SubscriptionList) (now : Z)
  (g : (Z * KindFilter * bool) * list SubscriptionMsg) : result Group Status :=
  let '((period, kinds, suppress), subs) := g in
  let? selector := plan_selector l kinds subs in
  Ok (mk_group period selector (now + period) (if suppress then Some ∅ else None)).

(** [plan_groups], at [now]. *)
Definition plan_groups (l : SubscriptionList) (floor now : Z) : result Plan Status :=
  let '(samples, heartbeats, on_change) :=
    fold_left (plan_one floor) (sl_subscription l) ([], [], []) in
  let? samples := collect (plan_group l now) samples in
  let? heartbeats := collect (plan_group l now) heartbeats in
  let? on_change := collect (fun c => plan_selector l c.1 c.2) on_change in
  Ok (mk_plan samples heartbeats on_change).

(** [Seen] and [OnChangeSet], without its receiver. *)
Record Seen := mk_seen { seen_path : option Path; queued : Z }.

Record OnChangeSet := mk_set {
  selectors : list Selector; matched : gmap SeriesId Seen; prune_at : nat }.

Definition set_matched (set : OnChangeSet) (m : gmap SeriesId Seen) : OnChangeSet :=
  mk_set (selectors set) m (prune_at set).

(** [OnChangeSet::seen]: the entry of series [id], made from [path] the first
    time the series is seen. *)
Definition seen (set : OnChangeSet) (id : SeriesId) (kind : ValueKind) (path : option Path)
  : Seen * OnChangeSet :=
  match matched set !! id with
  | Some s => (s, set)
  | None =>
      let s := mk_seen (let! p := path in
                        if existsb (fun s => selector_selects s p kind) (selectors set)
                        then Some p else None) 0 in
      (s, set_matched set (<[id := s]> (matched set)))
  end.

(** [seen.queued = version] through the reference [seen] returns. *)
Definition set_queued (set : OnChangeSet) (id : SeriesId) (version : Z) : OnChangeSet :=
  set_matched set (alter (fun s => mk_seen (seen_path s) version) id (matched set)).

(** [live_ids]. *)
Definition live_ids (snapshot : list SeriesSnapshot) : gset SeriesId :=
  list_to_set (ss_id <$> snapshot).

(** [OnChangeSet::prune]. *)
Definition prune (set : OnChangeSet) (snapshot : list SeriesSnapshot) : OnChangeSet :=
  let live := live_ids snapshot in
  let m := filter (fun e => e.1 ∈ live) (matched set) in
  mk_set (selectors set) m (Nat.max (size m * 2) MATCHED_PRUNE_FLOOR).

(** [QueueEntry], [PreEncoded] and [Pending]. A response is an encoded
    notification in a [SubscribeResponse], or the sync marker. *)
Inductive PreEncoded := UpdateResponse (notification : Bytes) | SyncResponse.

Inductive QueueEntry := Response (r : PreEncoded) | Value (id : SeriesId).

#[export] Instance PreEncoded_eq_dec : EqDecision PreEncoded.
Proof. solve_decision. Defined.

#[export] Instance QueueEntry_eq_dec : EqDecision QueueEntry.
Proof. solve_decision. Defined.

Record Pending := mk_pending {
  queue : list QueueEntry; values : gmap SeriesId Bytes; responses : nat }.

Definition default_pending : Pending := mk_pending [] ∅ 0.

(** [Pending::push_response]. *)
Definition push_response (r : PreEncoded) (q : Pending) : Pending :=
  mk_pending (queue q ++ [Response r]) (values q) (S (responses q)).

(** [Pending::push_value]. *)
Definition push_value (id : SeriesId) (latest : Bytes) (q : Pending) : Pending :=
  match values q !! id with
  | Some _ => mk_pending (queue q) (<[id := latest]> (values q)) (responses q)
  | None => mk_pending (queue q ++ [Value id]) (<[id := latest]> (values q)) (responses q)
  end.

(** [Pending::push_delete]. *)
Definition push_delete (id : SeriesId) (del : Bytes) (q : Pending) : Pending :=
  push_response (UpdateResponse del) (mk_pending (queue q) (delete id (values q)) (responses q)).

(** The loop of [Pending::pop]. *)
Fixpoint pop_loop (l : list QueueEntry) (vals : gmap SeriesId Bytes) (n : nat)
  : option PreEncoded * Pending :=
  match l with
  | [] => (None, mk_pending [] vals n)
  | Response r :: l => (Some r, mk_pending l vals (pred n))
  | Value id :: l =>
      match vals !! id with
      | Some latest => (Some (UpdateResponse latest), mk_pending l (delete id vals) n)
      | None => pop_loop l vals n
      end
  end.

(** [Pending::pop]. *)
Definition pop (q : Pending) : option PreEncoded * Pending :=
  pop_loop (queue q) (values q) (responses q).

(** [Placement], [Queued] and [Delivered]. *)
Inductive Placement := InPlace | Last.

Record Queued := mk_queued {
  q_id : SeriesId; q_version : Z; q_path : Path; q_latest : Bytes; q_placement : Placement }.

Record Delivered := mk_delivered {
  d_paths : gmap Path SeriesId;
  d_series : gmap SeriesId (option Path);
  remembers : bool;
  expiring : list SeriesId;
  horizon : nat;
  json_ietf : bool;
}.

Definition set_index (d : Delivered) (ps : gmap Path SeriesId) (ss : gmap SeriesId (option Path))
  : Delivered := mk_delivered ps ss (remembers d) (expiring d) (horizon d) (json_ietf d).

(** [Delivered::new], for a JSON_IETF list when [json]. *)
Definition new_delivered (remember json : bool) : Delivered :=
  mk_delivered ∅ ∅ remember [] 0 json.

(** [Delivered::is_deleted] and [Delivered::holds_another]. *)
Definition is_deleted (d : Delivered) (id : SeriesId) : bool :=
  match d_series d !! id with Some None => true | _ => false end.

Definition holds_another (d : Delivered) (path : Path) (id : SeriesId) : bool :=
  match d_paths d !! path with Some held => negb (held =? id) | None => false end.

(** [Delivered::removed]. *)
Definition index_removed (d : Delivered) (id : SeriesId) (del : Bytes) (q : Pending)
  : Delivered * Pending :=
  let series := delete id (d_series d) in
  match d_series d !! id with
  | Some (Some path) => (set_index d (delete path (d_paths d)) series, push_delete id del q)
  | _ => (set_index d (d_paths d) series, q)
  end.

(** [Delivered::forget_expiring]. *)
Definition forget_expiring (d : Delivered) : Delivered :=
  mk_delivered (d_paths d)
    (filter (fun e => ~ (e.1 ∈ expiring d /\ e.2 = None)) (d_series d))
    (remembers d) [] (horizon d) (json_ietf d).

(** [Delivered::forget_after]; the order of [expiring] is not observed. *)
Definition forget_after (d : Delivered) (messages : nat) : Delivered :=
  let d := mk_delivered (d_paths d) (d_series d) (remembers d)
             (fst <$> filter (fun e => e.2 = None) (map_to_list (d_series d))) messages (json_ietf d) in
  match messages with O => forget_expiring d | _ => d end.

(** [Delivered::read_one]. *)
Definition read_one (d : Delivered) : Delivered :=
  match horizon d with
  | O => d
  | S h =>
      let d := mk_delivered (d_paths d) (d_series d) (remembers d) (expiring d) h (json_ietf d) in
      match h with O => forget_expiring d | _ => d end
  end.

(** [stall_limit]. *)
Definition stall_limit (periods : list Z) (floor : Z) : Z :=
  Z.max (3 * foldr Z.max 0 periods) floor.

(** [next_due]. *)
Definition next_due (due period now : Z) : Z :=
  let missed := Z.max 0 (now - due) / period + 1 in
  due + Z.min (period * missed) u64_max.

(** The series of a snapshot with what a group sends of them: [send], and the
    versions recorded by a suppressing group. *)
Fixpoint due_series (g : Selector) (record : option (gmap SeriesId Z))
  (snapshot : list SeriesSnapshot) (send : list (option bool))
  : list (option bool) * option (gmap SeriesId Z) :=
  match snapshot, send with
  | s :: snapshot, sd :: send =>
      let '(sd, record) :=
        if negb (selector_selects g (ss_path s) (ss_kind s)) then (sd, record)
        else match record with
             | None => (Some (default false sd), record)
             | Some m =>
                 if decide (m !! ss_id s = Some (ss_version s)) then (sd, record)
                 else (Some true, Some (<[ss_id s := ss_version s]> m))
             end in
      let '(send, record) := due_series g record snapshot send in (sd :: send, record)
  | _, _ => (send, record)
  end.

(** One due group of [due]: what it sends, the series it had sent that are gone,
    and the group at its next period. *)
Definition due_group (now : Z) (snapshot : list SeriesSnapshot) (g : Group)
  (send : list (option bool)) : list (option bool) * list SeriesId * Group :=
  let '(send, record) := due_series (g_selector g) (sent g) snapshot send in
  let next := next_due (next g) (period g) now in
  match record with
  | None => (send, [], mk_group (period g) (g_selector g) next None)
  | Some m =>
      let live := live_ids snapshot in
      (send, fst <$> filter (fun e => e.1 ∉ live) (map_to_list m),
       mk_group (period g) (g_selector g) next (Some (filter (fun e => e.1 ∈ live) m)))
  end.

Fixpoint due_groups (now : Z) (snapshot : list SeriesSnapshot) (groups : list Group)
  (send : list (option bool)) : list (option bool) * list SeriesId * list Group :=
  match groups with
  | [] => (send, [], [])
  | g :: groups =>
      if next g <=? now then
        let '(send, removed, g) := due_group now snapshot g send in
        let '(send, removed', groups) := due_groups now snapshot groups send in
        (send, removed ++ removed', g :: groups)
      else
        let '(send, removed, groups) := due_groups now snapshot groups send in
        (send, removed, g :: groups)
  end.

(** [Due] and [due]. *)
Record Due := mk_due { due_send : list (SeriesSnapshot * bool); due_removed : list SeriesId }.

Definition due (now : Z) (groups : list Group) (snapshot : list SeriesSnapshot) : Due * list Group :=
  let '(send, removed, groups) := due_groups now snapshot groups ((fun _ => None) <$> snapshot) in
  (mk_due (omap (fun e => pair e.1 <$> e.2) (zip snapshot send))
     (remove_dups (merge_sort Z.le removed)), groups).

(** [record_sent]. *)
Fixpoint record_sent (groups : list Group) (s : SeriesSnapshot) : bool * list Group :=
  match groups with
  | [] => (false, [])
  | g :: groups =>
      let (recorded, groups) := record_sent groups s in
      match sent g with
      | Some m =>
          if selector_selects (g_selector g) (ss_path s) (ss_kind s) then
            (true, mk_group (period g) (g_selector g) (next g)
                     (Some (<[ss_id s := ss_version s]> m)) :: groups)
          else (recorded, g :: groups)
      | None => (recorded, g :: groups)
      end
  end.

(** [Producer], without its channels: [polls] is whether the channel of polls is
    open. *)
Record Producer := mk_producer {
  p_matcher : SubscriptionMatcher;
  once : bool;
  poll : bool;
  polls : bool;
  p_updates_only : bool;
  p_samples : list Group;
  p_heartbeats : list Group;
  p_on_change : option OnChangeSet;
  delivered : Delivered;
  p_stall_limit : Z;
}.

Definition set_delivered (p : Producer) (d : Delivered) : Producer :=
  mk_producer (p_matcher p) (once p) (poll p) (polls p) (p_updates_only p) (p_samples p)
    (p_heartbeats p) (p_on_change p) d (p_stall_limit p).

Definition set_on_change (p : Producer) (s : option OnChangeSet) : Producer :=
  mk_producer (p_matcher p) (once p) (poll p) (polls p) (p_updates_only p) (p_samples p)
    (p_heartbeats p) s (delivered p) (p_stall_limit p).

Definition set_samples (p : Producer) (l : list Group) : Producer :=
  mk_producer (p_matcher p) (once p) (poll p) (polls p) (p_updates_only p) l
    (p_heartbeats p) (p_on_change p) (delivered p) (p_stall_limit p).

Definition set_heartbeats (p : Producer) (l : list Group) : Producer :=
  mk_producer (p_matcher p) (once p) (poll p) (polls p) (p_updates_only p) (p_samples p)
    l (p_on_change p) (delivered p) (p_stall_limit p).

Definition close_polls (p : Producer) : Producer :=
  mk_producer (p_matcher p) (once p) (poll p) false (p_updates_only p) (p_samples p)
    (p_heartbeats p) (p_on_change p) (delivered p) (p_stall_limit p).

(** The settings of a target [start] reads. *)
Record TargetSettings := mk_settings { sample_floor : Z; stall_floor : Z }.

(** [start] and [Producer::poll_requests]: the producer of a list, at [now]. The
    place it takes is not part of the state. *)
Definition start (s : TargetSettings) (l : SubscriptionList) (now : Z) : result Producer Status :=
  let? m := matcher_new l in
  let once := sl_mode l =? 1 in
  let poll := sl_mode l =? 2 in
  let? plan := if once || poll then Ok default_plan else plan_groups l (sample_floor s) now in
  let limit := stall_limit (period <$> samples plan) (stall_floor s) in
  let set := match on_change plan with
             | [] => None
             | sels => Some (mk_set sels ∅ MATCHED_PRUNE_FLOOR)
             end in
  let json := match m_encoding m with EJsonIetf => true | _ => false end in
  Ok (mk_producer m once poll poll (updates_only l) (samples plan) (heartbeats plan) set
        (new_delivered (match set with Some _ => true | None => false end) json) limit).

(** [Producer::ends_when_drained]. *)
Definition ends_when_drained (p : Producer) : bool := once p || (poll p && negb (polls p)).

Section Producer.
Context (encode_delete : Path -> Z -> Bytes).
(** [PathKey::decode]: the path of the update in a notification. *)
Context (path_of : Bytes -> option Path).
(** When a delete of a series is encoded. *)
Context (clock : SeriesId -> Z).
(** [GnmiTarget::json_ietf_of] of the target, if it is still there. *)
Context (json_of : SeriesId -> Z -> Bytes -> option Bytes).

(** [Delivered::queue_delete]. *)
Definition queue_delete (d : Delivered) (id : SeriesId) (q : Pending) : Delivered * Pending :=
  match d_series d !! id with
  | Some (Some path) =>
      let series := if remembers d then <[id := None]> (d_series d) else delete id (d_series d) in
      (set_index d (delete path (d_paths d)) series,
       push_delete id (delete_notification encode_delete (clock id) path) q)
  | _ => (d, q)
  end.

(** [Delivered::queue_value]. *)
Definition queue_value (d : Delivered) (v : Queued) (index : bool) (q : Pending)
  : Delivered * Pending :=
  match (if json_ietf d then json_of (q_id v) (q_version v) (q_latest v) else Some (q_latest v)) with
  | None => (d, q)
  | Some latest =>
      let held := d_paths d !! q_path v in
      let (d, q) := match held with
                    | Some other => if negb (other =? q_id v) then queue_delete d other q else (d, q)
                    | None => (d, q)
                    end in
      let q := match q_placement v with
               | InPlace => push_value (q_id v) latest q
               | Last => push_response (UpdateResponse latest) q
               end in
      if index && negb (bool_decide (held = Some (q_id v))) then
        (set_index d (<[q_path v := q_id v]> (d_paths d))
           (<[q_id v := Some (q_path v)]> (d_series d)), q)
      else (d, q)
  end.

Fixpoint queue_deletes (d : Delivered) (l : list SeriesId) (q : Pending) : Delivered * Pending :=
  match l with
  | [] => (d, q)
  | id :: l => let (d, q) := queue_delete d id q in queue_deletes d l q
  end.

(** [Delivered::sweep]. *)
Definition sweep (d : Delivered) (snapshot : list SeriesSnapshot) (q : Pending) : Delivered * Pending :=
  if decide (d_paths d = ∅) then (d, q)
  else
    let live := live_ids snapshot in
    let gone := fst <$> filter (fun e => is_Some e.2 /\ e.1 ∉ live) (map_to_list (d_series d)) in
    queue_deletes d (merge_sort Z.le gone) q.

(** The value of a snapshot's series, to be queued. *)
Definition queued_of (s : SeriesSnapshot) (placement : Placement) : Queued :=
  mk_queued (ss_id s) (ss_version s) (ss_path s) (ss_latest s) placement.

(** One series in the loop of [Producer::initial_sync]. *)
Definition sync_one (p : Producer) (q : Pending) (s : SeriesSnapshot) : Producer * Pending :=
  let queue := matcher_matches (p_matcher p) (ss_path s) in
  let '(index, p) :=
    match p_on_change p with
    | Some set =>
        let (e, set) := seen set (ss_id s) (ss_kind s) (Some (ss_path s)) in
        let set := if queue then set_queued set (ss_id s) (ss_version s) else set in
        (match seen_path e with Some _ => true | None => false end, set_on_change p (Some set))
    | None => (false, p)
    end in
  if queue then
    let (recorded, samples) := record_sent (p_samples p) s in
    let (d, q) := queue_value (delivered p) (queued_of s InPlace) (index || recorded) q in
    (set_delivered (set_samples p samples) d, q)
  else (p, q).

Fixpoint sync_all (p : Producer) (q : Pending) (l : list SeriesSnapshot) : Producer * Pending :=
  match l with
  | [] => (p, q)
  | s :: l => let (p, q) := sync_one p q s in sync_all p q l
  end.

(** [Producer::initial_sync]. *)
Definition initial_sync (snapshot : option (list SeriesSnapshot)) (p : Producer)
  : option (Producer * Pending) :=
  if p_updates_only p then Some (p, push_response SyncResponse default_pending)
  else
    let! snapshot := snapshot in
    let (p, q) := sync_all p default_pending snapshot in
    Some (p, push_response SyncResponse q).

(** The loop of [Producer::sample] over what is due. *)
Fixpoint sample_all (p : Producer) (q : Pending) (l : list (SeriesSnapshot * bool))
  : Producer * Pending :=
  match l with
  | [] => (p, q)
  | (s, suppressed) :: l =>
      let '(index, p) :=
        if suppressed then (true, p)
        else match p_on_change p with
             | Some set =>
                 let (e, set) := seen set (ss_id s) (ss_kind s) (Some (ss_path s)) in
                 (match seen_path e with Some _ => true | None => false end,
                  set_on_change p (Some set))
             | None => (false, p)
             end in
      let (d, q) := queue_value (delivered p) (queued_of s Last) index q in
      sample_all (set_delivered p d) q l
  end.

(** [Producer::sample]. *)
Definition sample (now : Z) (snapshot : option (list SeriesSnapshot)) (p : Producer) (q : Pending)
  : bool * Producer * Pending :=
  match snapshot with
  | None => (false, p, q)
  | Some snapshot =>
      let (what, groups) := due now (p_samples p) snapshot in
      let (p, q) := sample_all (set_samples p groups) q (due_send what) in
      let (d, q) := queue_deletes (delivered p) (due_removed what) q in
      (true, set_delivered p d, q)
  end.

(** The loop of [Producer::poll_batch]. *)
Fixpoint poll_all (p : Producer) (q : Pending) (l : list SeriesSnapshot) : Producer * Pending :=
  match l with
  | [] => (p, q)
  | s :: l =>
      if matcher_matches (p_matcher p) (ss_path s) then
        let (d, q) := queue_value (delivered p) (queued_of s InPlace) false q in
        poll_all (set_delivered p d) q l
      else poll_all p q l
  end.

(** [Producer::poll_batch]. *)
Definition poll_batch (snapshot : option (list SeriesSnapshot)) (p : Producer) (q : Pending)
  : bool * Producer * Pending :=
  match snapshot with
  | None => (false, p, q)
  | Some snapshot =>
      let (p, q) := poll_all p q snapshot in (true, p, push_response SyncResponse q)
  end.

(** One series in the loop of [Producer::heartbeat]. *)
Definition heartbeat_one (p : Producer) (q : Pending) (s : SeriesSnapshot) : Producer * Pending :=
  let p := match p_on_change p with
           | Some set =>
               let (_, set) := seen set (ss_id s) (ss_kind s) (Some (ss_path s)) in
               set_on_change p (Some (set_queued set (ss_id s) (ss_version s)))
           | None => p
           end in
  let (d, q) := queue_value (delivered p) (queued_of s InPlace) true q in
  (set_delivered p d, q).

Fixpoint heartbeat_all (p : Producer) (q : Pending) (l : list SeriesSnapshot) : Producer * Pending :=
  match l with
  | [] => (p, q)
  | s :: l => let (p, q) := heartbeat_one p q s in heartbeat_all p q l
  end.

(** [Producer::heartbeat]. *)
Definition heartbeat (now : Z) (snapshot : option (list SeriesSnapshot)) (p : Producer) (q : Pending)
  : bool * Producer * Pending :=
  match snapshot with
  | None => (false, p, q)
  | Some snapshot =>
      let (what, groups) := due now (p_heartbeats p) snapshot in
      let (p, q) := heartbeat_all (set_heartbeats p groups) q (fst <$> due_send what) in
      (true, p, q)
  end.

(** The first half of [Producer::offer]: queue the update, or not. *)
Definition offer_value (set : OnChangeSet) (d : Delivered) (u : SeriesUpdate) (q : Pending)
  : OnChangeSet * Delivered * Pending :=
  if is_deleted d (su_id u) then (set, d, q)
  else
    let (e, set) := seen set (su_id u) (su_kind u) (path_of (su_bytes u)) in
    if queued e <? su_version u then
      match seen_path e with
      | Some path =>
          if holds_another d path (su_id u) then (set, d, q)
          else
            let (d, q) := queue_value d
              (mk_queued (su_id u) (su_version u) path (su_bytes u) InPlace) true q in
            (set_queued set (su_id u) (su_version u), d, q)
      | None => (set, d, q)
      end
    else (set, d, q).

(** [Producer::offer]; [snapshot] is taken when the match cache is pruned. *)
Definition offer (u : SeriesUpdate) (snapshot : option (list SeriesSnapshot)) (p : Producer)
  (q : Pending) : bool * Producer * Pending :=
  match p_on_change p with
  | None => (true, p, q)
  | Some set =>
      let '(set, d, q) := offer_value set (delivered p) u q in
      let p' := set_delivered (set_on_change p (Some set)) d in
      if (prune_at set <? size (matched set))%nat then
        match snapshot with
        | None => (false, p', q)
        | Some snapshot =>
            let (d, q) := sweep d snapshot q in
            (true, set_delivered (set_on_change p (Some (prune set snapshot))) d, q)
        end
      else (true, p', q)
  end.

(** [Producer::removed]. *)
Definition removed (id : SeriesId) (del : Bytes) (p : Producer) (q : Pending) : Producer * Pending :=
  let p := match p_on_change p with
           | Some set => set_on_change p (Some (set_matched set (delete id (matched set))))
           | None => p
           end in
  let (d, q) := index_removed (delivered p) id del q in
  (set_delivered p d, q).

(** One series in the loop of [Producer::resync]. *)
Definition resync_one (set : OnChangeSet) (d : Delivered) (q : Pending) (s : SeriesSnapshot)
  : OnChangeSet * Delivered * Pending :=
  let (e, set) := seen set (ss_id s) (ss_kind s) (Some (ss_path s)) in
  match seen_path e with
  | Some _ =>
      let set := set_queued set (ss_id s) (ss_version s) in
      let (d, q) := queue_value d (queued_of s InPlace) true q in
      (set, d, q)
  | None => (set, d, q)
  end.

Fixpoint resync_all (set : OnChangeSet) (d : Delivered) (q : Pending) (l : list SeriesSnapshot)
  : OnChangeSet * Delivered * Pending :=
  match l with
  | [] => (set, d, q)
  | s :: l => let '(set, d, q) := resync_one set d q s in resync_all set d q l
  end.

(** [Producer::resync], once the set has a new receiver; [held] is how many
    messages it holds after the snapshot. *)
Definition resync (snapshot : option (list SeriesSnapshot)) (held : nat) (p : Producer) (q : Pending)
  : bool * Producer * Pending :=
  match p_on_change p with
  | None => (true, p, q)
  | Some set =>
      match snapshot with
      | None => (false, p, q)
      | Some snapshot =>
          let set := prune set snapshot in
          let (d, q) := sweep (delivered p) snapshot q in
          let d := forget_after d held in
          let '(set, d, q) := resync_all set d q snapshot in
          (true, set_delivered (set_on_change p (Some set)) d, q)
      end
  end.

(** [Step]: what a turn of [Producer::run] selected; a message of the broadcast,
    a lag, or its end. *)
Inductive Step :=
| ClientDone | TargetStopped | Stalled | Sent | Sample | Heartbeat | Polled | PollsEnded
| Change (e : SeriesEvent) | Lagged | Closed.

(** How a turn ends: the subscription is over, with the status it ends with, or
    goes on, with the response it sent. *)
Inductive Ending := NoStatus | TargetStoppedStatus | SubscriberStalled.

Inductive Turn :=
| Ends (e : Ending)
| Goes (p : Producer) (q : Pending) (out : option PreEncoded).

Definition served (r : bool * Producer * Pending) : Turn :=
  let '(ok, p, q) := r in if ok then Goes p q None else Ends TargetStoppedStatus.

(** The [match step] of [Producer::run]. *)
Definition serve (now : Z) (snapshot : option (list SeriesSnapshot)) (held : nat) (step : Step)
  (p : Producer) (q : Pending) : Turn :=
  match step with
  | ClientDone => Ends NoStatus
  | TargetStopped => Ends TargetStoppedStatus
  | Stalled => Ends SubscriberStalled
  | Sent => let (out, q) := pop q in Goes p q out
  | Sample => served (sample now snapshot p q)
  | Heartbeat => served (heartbeat now snapshot p q)
  | Polled => served (poll_batch snapshot p q)
  | PollsEnded => Goes (close_polls p) q None
  | Change (Changed u) =>
      let '(ok, p, q) := offer u snapshot p q in
      served (ok, set_delivered p (read_one (delivered p)), q)
  | Change (Removed id del) =>
      let (p, q) := removed id del p q in
      Goes (set_delivered p (read_one (delivered p))) q None
  | Lagged => served (resync snapshot held p q)
  | Closed => Ends TargetStoppedStatus
  end.

(** The guards of the arms of the [select!] of [Producer::run]. *)
Definition enabled (now : Z) (step : Step) (p : Producer) (q : Pending) : bool :=
  match step with
  | ClientDone | TargetStopped => true
  | Stalled | Sent => negb (match queue q with [] => true | _ => false end)
  | Sample => (responses q =? 0)%nat && existsb (fun g => next g <=? now) (p_samples p)
  | Heartbeat => existsb (fun g => next g <=? now) (p_heartbeats p)
  | Polled | PollsEnded => polls p && match queue q with [] => true | _ => false end
  | Change _ | Lagged | Closed => match p_on_change p with Some _ => true | None => false end
  end.

End Producer.
