(* ===== verification/GnmiReplica.v ===== *)
(** * GnmiReplica: what a client makes of a subscription's responses

    A client applies the responses it receives to a replica of the series: an
    update sets the value at its path, a delete removes it. [drain] is what a
    queue still holds for it. The lemmas say how queueing a value or a delete
    changes the replica the client ends up with, and [index_ok] is the invariant
    of the queue, the delivery index and the match cache behind them. *)

From Stdlib Require Import ZArith Lia.
From stdpp Require Import prelude strings list gmap sorting.
From S2P Require Import Prelude Metric GnmiPath GnmiMatcher GnmiNotification GnmiTarget GnmiService.

(** What [pop] hands out, in order, until the queue is empty. *)
Fixpoint drain_queue (l : list QueueEntry) (vals : gmap Z (list Z)) : list PreEncoded :=
  match l with
  | [] => []
  | Response r :: l => r :: drain_queue l vals
  | Value id :: l =>
      match vals !! id with
      | Some latest => UpdateResponse latest :: drain_queue l (delete id vals)
      | None => drain_queue l vals
      end
  end.

Definition drain (q : Pending) : list PreEncoded := drain_queue (queue q) (values q).

Lemma pop_drain q :
  drain q = (match (pop q).1 with Some r => [r] | None => [] end) ++ drain (pop q).2.
Proof.
  unfold drain, pop. destruct q as [l vals n]. cbn [queue values responses].
  induction l as [|[r|id] l IH]; cbn; [done..|]. by destruct (vals !! id).
Qed.

(** A value entry whose value is gone is skipped. *)
Definition flat (l : list QueueEntry) (vals : gmap Z (list Z)) : list PreEncoded :=
  omap (fun e => match e with
                 | Response r => Some r
                 | Value id => UpdateResponse <$> vals !! id
                 end) l.

(** Where the value of series [id] waits in a queue: at one entry. *)
Definition waits (l : list QueueEntry) (id : Z) (before after : list QueueEntry) : Prop :=
  l = before ++ Value id :: after /\ (Value id ∉ before) /\ (Value id ∉ after).

Lemma flat_app l l' vals : flat (l ++ l') vals = flat l vals ++ flat l' vals.
Proof. apply omap_app. Qed.

Lemma flat_frame l vals vals' :
  (forall id, Value id ∈ l -> vals !! id = vals' !! id) -> flat l vals = flat l vals'.
Proof.
  intros Hv. induction l as [|[r|id] l IH]; [done| |]; cbn.
  - f_equal. apply IH. intros id Hid. apply Hv. by right.
  - rewrite (Hv id) by left. fold (flat l vals) (flat l vals'). rewrite IH; [done|].
    intros i Hi. apply Hv. by right.
Qed.

Lemma flat_insert l vals id b : Value id ∉ l -> flat l (<[id := b]> vals) = flat l vals.
Proof.
  intros Hl. apply flat_frame. intros i Hi. apply lookup_insert_ne. intros ->. done.
Qed.

Lemma flat_delete l vals id : Value id ∉ l -> flat l (delete id vals) = flat l vals.
Proof.
  intros Hl. apply flat_frame. intros i Hi. apply lookup_delete_ne. intros ->. done.
Qed.

Lemma split_unique {A} (x : A) a b a' b' :
  a ++ x :: b = a' ++ x :: b' -> x ∉ a' -> x ∉ b' -> a = a' /\ b = b'.
Proof.
  revert a'. induction a as [|y a IH]; intros [|y' a'] Heq Ha Hb; cbn in Heq.
  - by injection Heq as ->.
  - injection Heq as -> _. destruct Ha. by left.
  - injection Heq as -> <-. destruct Hb. apply elem_of_app. right. by left.
  - injection Heq as -> Heq. destruct (IH a' Heq) as [-> ->]; [|done|done].
    intros Hx. apply Ha. by right.
Qed.

Lemma drain_flat l vals :
  (forall id, is_Some (vals !! id) -> exists a b, waits l id a b) -> drain_queue l vals = flat l vals.
Proof.
  intros Hw.
  enough (Hg : forall l vals, (forall id a b, l = a ++ Value id :: b -> is_Some (vals !! id) ->
      Value id ∉ b) -> drain_queue l vals = flat l vals).
  { apply Hg. intros id a b Hl Hs. destruct (Hw id Hs) as (a' & b' & Hl' & Ha & Hb).
    rewrite Hl in Hl'. apply split_unique in Hl' as [-> ->]; done. }
  clear l vals Hw. induction l as [|[r|id] l IH]; intros vals Hw; [done| |]; cbn.
  - f_equal. apply IH. intros id a b -> Hs. by apply (Hw id (Response r :: a)).
  - assert (Htl : forall i a b, l = a ++ Value i :: b -> is_Some (vals !! i) -> Value i ∉ b).
    { intros i a b -> Hs. by apply (Hw i (Value id :: a)). }
    destruct (vals !! id) as [latest|] eqn:E; cbn; [|by apply IH].
    f_equal. rewrite IH.
    + apply flat_delete. apply (Hw id []); [done|by rewrite E].
    + intros i a b Hl [x Hx]. apply (Htl i a b Hl). destruct (decide (i = id)) as [->|];
        [by rewrite lookup_delete_eq in Hx|rewrite lookup_delete_ne in Hx by done]. by exists x.
Qed.

Section Replica.
Context `{Prost}.
(** What a client reads in a notification: the path of its update, or of its
    delete. *)
Context (path_of delete_of : list Z -> option Path).

(** The value octets of a notification's update. *)
Definition value_of (n : list Z) : list Z :=
  match value_span n with Some (r, _) => default [] (get_range n r) | None => [] end.

Definition client_apply (m : gmap Path (list Z)) (r : PreEncoded) : gmap Path (list Z) :=
  match r with
  | SyncResponse => m
  | UpdateResponse n =>
      match path_of n with
      | Some p => <[p := value_of n]> m
      | None => match delete_of n with Some p => delete p m | None => m end
      end
  end.

Definition replica (l : list PreEncoded) : gmap Path (list Z) := fold_left client_apply l ∅.

(** Whether a response concerns the series at [p]. *)
Definition touches (p : Path) (r : PreEncoded) : Prop :=
  match r with
  | SyncResponse => False
  | UpdateResponse n => path_of n = Some p \/ path_of n = None /\ delete_of n = Some p
  end.

Lemma apply_other p m r : ~ touches p r -> client_apply m r !! p = m !! p.
Proof.
  destruct r as [n|]; [|done]. cbn. intros Ht. destruct (path_of n) as [p'|] eqn:E.
  - apply lookup_insert_ne. intros ->. tauto.
  - destruct (delete_of n) as [p'|] eqn:Ed; [|done]. apply lookup_delete_ne. intros ->. tauto.
Qed.

Lemma apply_cong p m m' r : m !! p = m' !! p -> client_apply m r !! p = client_apply m' r !! p.
Proof.
  intros Hm. destruct r as [n|]; [|done]. cbn. destruct (path_of n) as [p'|].
  - destruct (decide (p' = p)) as [->|]; [by rewrite !lookup_insert_eq|by rewrite !lookup_insert_ne].
  - destruct (delete_of n) as [p'|]; [|done].
    destruct (decide (p' = p)) as [->|]; [by rewrite !lookup_delete_eq|by rewrite !lookup_delete_ne].
Qed.

Lemma fold_cong p l m m' :
  m !! p = m' !! p -> fold_left client_apply l m !! p = fold_left client_apply l m' !! p.
Proof. revert m m'. induction l as [|r l IH]; intros m m' Hm; [done|]. apply IH. by apply apply_cong. Qed.

Lemma fold_other p l m :
  (forall r, r ∈ l -> ~ touches p r) -> fold_left client_apply l m !! p = m !! p.
Proof.
  revert m. induction l as [|r l IH]; intros m Hl; [done|]. cbn.
  rewrite IH by (intros r' Hr'; apply Hl; by right). apply apply_other, Hl. by left.
Qed.

(** The replica once the client has applied everything queued. *)
Definition final (cl : list PreEncoded) (q : Pending) : gmap Path (list Z) :=
  fold_left client_apply (flat (queue q) (values q)) (replica cl).

(** Queueing a response last. *)
Lemma final_response cl q r : final cl (push_response r q) = client_apply (final cl q) r.
Proof.
  unfold final, push_response. cbn [queue values]. by rewrite flat_app, fold_left_app.
Qed.

(** Queueing a value: last when none waits for the series, in place otherwise,
    when nothing later in the queue concerns its path. *)
Lemma final_value cl q id b p :
  path_of b = Some p ->
  (values q !! id = None -> Value id ∉ queue q) ->
  (is_Some (values q !! id) -> exists before after, waits (queue q) id before after /\
     (forall r, r ∈ flat after (values q) -> ~ touches p r)) ->
  (forall b', values q !! id = Some b' -> path_of b' = Some p) ->
  forall p', final cl (push_value id b q) !! p'
    = if decide (p' = p) then Some (value_of b) else final cl q !! p'.
Proof.
  intros Hb Hnew Hin Hold p'. unfold final, push_value. destruct (values q !! id) as [b'|] eqn:E;
    cbn [queue values].
  - destruct Hin as (a & c & (Hl & Ha & Hc) & Ht); [by eexists|].
    rewrite Hl, !flat_app. cbn [flat omap list_omap]. fold (flat c (<[id := b]> (values q))).
    fold (flat c (values q)). rewrite lookup_insert_eq, E. cbn [fmap option_fmap option_map].
    rewrite !flat_insert by done. rewrite !fold_left_app. cbn [fold_left].
    destruct (decide (p' = p)) as [->|Hne].
    + rewrite fold_other by done. cbn. by rewrite Hb, lookup_insert_eq.
    + apply fold_cong. rewrite !apply_other; [done| |]; intros [Ht'|Ht']; cbn in Ht'.
      all: try (rewrite (Hold b') in Ht' by done); try rewrite Hb in Ht'; naive_solver.
  - rewrite flat_app, flat_insert by auto. cbn [flat omap list_omap].
    rewrite lookup_insert_eq. cbn [fmap option_fmap option_map]. rewrite fold_left_app. cbn.
    rewrite Hb. destruct (decide (p' = p)) as [->|Hne];
      [apply lookup_insert_eq|by rewrite lookup_insert_ne].
Qed.

(** Queueing a delete, in place of the value that waits for the series. *)
Lemma final_delete cl q id del p :
  path_of del = None -> delete_of del = Some p ->
  (is_Some (values q !! id) -> exists before after, waits (queue q) id before after) ->
  (forall b', values q !! id = Some b' -> path_of b' = Some p) ->
  forall p', final cl (push_delete id del q) !! p'
    = if decide (p' = p) then None else final cl q !! p'.
Proof.
  intros Hd1 Hd2 Hin Hold p'. unfold push_delete. rewrite final_response. cbn [client_apply].
  rewrite Hd1, Hd2. destruct (decide (p' = p)) as [->|Hne]; [apply lookup_delete_eq|].
  rewrite lookup_delete_ne by done. unfold final. cbn [queue values].
  destruct (values q !! id) as [b'|] eqn:E; [|by rewrite delete_id].
  destruct Hin as (a & c & Hl & Ha & Hc); [by eexists|].
  rewrite Hl, !flat_app. cbn [flat omap list_omap]. fold (flat c (delete id (values q))).
  fold (flat c (values q)). rewrite lookup_delete_eq, E. cbn [fmap option_fmap option_map].
  rewrite !flat_delete by done. rewrite !fold_left_app. cbn [fold_left].
  apply fold_cong. rewrite apply_other; [done|]. intros [Ht'|[Ht' _]]; cbn in Ht';
    rewrite (Hold b') in Ht' by done; congruence.
Qed.

(** ** The delivery index

    [sel] is which paths the list matches, [born] the path of every series there
    ever was, [gone] the series that left the table, and [quiet] those of which
    nothing more is heard either. *)

Context (encode_delete : Path -> Z -> list Z) (sel : Path -> bool).
Context (delete_reads : forall p t, delete_of (encode_delete p t) = Some p).
Context (delete_only : forall p t, path_of (encode_delete p t) = None).

Record index_ok (born : gmap Z Path) (gone quiet : Z -> Prop) (m : gmap Z Seen) (d : Delivered)
  (q : Pending) (cl : list PreEncoded) : Prop := {
  x_plain : remembers d = true /\ json_ietf d = false;
  x_index p id : d_paths d !! p = Some id <-> d_series d !! id = Some (Some p);
  x_indexed p id : d_paths d !! p = Some id -> born !! id = Some p /\ sel p = true /\ is_Some (m !! id);
  x_deleted id : d_series d !! id = Some None -> gone id;
  x_matched id e : m !! id = Some e ->
    exists p, born !! id = Some p /\ seen_path e = if sel p then Some p else None;
  x_final p : d_paths d !! p = None -> final cl q !! p = None;
  x_waiting id b : values q !! id = Some b ->
    exists p before after, d_paths d !! p = Some id /\ path_of b = Some p /\
      waits (queue q) id before after /\ forall r, Response r ∈ after -> ~ touches p r;
  x_stale id : Value id ∈ queue q -> values q !! id = None -> d_series d !! id = Some None \/ quiet id;
}.

#[local] Arguments x_plain {_ _ _ _ _ _ _} _.
#[local] Arguments x_index {_ _ _ _ _ _ _} _ _ _.
#[local] Arguments x_indexed {_ _ _ _ _ _ _} _ _ _ _.
#[local] Arguments x_deleted {_ _ _ _ _ _ _} _ _ _.
#[local] Arguments x_matched {_ _ _ _ _ _ _} _ _ _ _.
#[local] Arguments x_final {_ _ _ _ _ _ _} _ _ _.
#[local] Arguments x_waiting {_ _ _ _ _ _ _} _ _ _ _.
#[local] Arguments x_stale {_ _ _ _ _ _ _} _ _ _ _.

Section Index.
Context {born : gmap Z Path} {gone quiet : Z -> Prop} {m : gmap Z Seen}.
Context {d : Delivered} {q : Pending} {cl : list PreEncoded}.
Context (Hok : index_ok born gone quiet m d q cl).

Lemma waiting_last id b p :
  values q !! id = Some b -> d_paths d !! p = Some id ->
  path_of b = Some p /\ exists before after, waits (queue q) id before after /\
    forall r, r ∈ flat after (values q) -> ~ touches p r.
Proof.
  intros Hv Hp. destruct (x_waiting Hok _ _ Hv) as (p' & a & c & Hp' & Hb & Hw & Ht).
  assert (p' = p) as ->.
  { apply (x_index Hok) in Hp, Hp'. congruence. }
  split; [done|]. exists a, c. split; [done|]. intros r Hr.
  apply list_elem_of_omap in Hr as ([r'|id'] & Hin & Hr); [by injection Hr as ->; apply Ht|].
  destruct (values q !! id') as [b'|] eqn:E; [|done]. injection Hr as <-.
  destruct (x_waiting Hok _ _ E) as (p' & _ & _ & Hp2 & Hb' & _).
  intros [Hpb|[Hpb _]]; [|congruence]. assert (p' = p) as -> by congruence.
  assert (id' = id) as -> by congruence. by destruct Hw as (_ & _ & Hc).
Qed.

Lemma waiting_path id b p : values q !! id = Some b -> d_paths d !! p = Some id -> path_of b = Some p.
Proof. intros Hv Hp. by destruct (waiting_last id b p Hv Hp). Qed.

(** [queue_delete] of an indexed series that has left. *)
Lemma queue_delete_ok clock id p :
  d_paths d !! p = Some id -> gone id ->
  let r := queue_delete encode_delete clock d id q in
  index_ok born gone quiet m r.1 r.2 cl /\
  d_paths r.1 = delete p (d_paths d) /\ d_series r.1 = <[id := None]> (d_series d) /\
  expiring r.1 = expiring d /\ horizon r.1 = horizon d /\
  forall p', final cl r.2 !! p' = if decide (p' = p) then None else final cl q !! p'.
Proof.
  intros Hp Hg. pose proof (proj1 (x_index Hok p id) Hp) as Hs.
  destruct (x_plain Hok) as [Hr Hj].
  unfold queue_delete. rewrite Hs, Hr. cbn [fst snd set_index d_paths d_series expiring horizon].
  set (del := delete_notification encode_delete (clock id) p).
  assert (Hf : forall p', final cl (push_delete id del q) !! p'
             = if decide (p' = p) then None else final cl q !! p').
  { apply final_delete; [apply delete_only|apply delete_reads| |].
    - intros [b Hb]. destruct (waiting_last id b p Hb Hp) as (_ & a & c & Hw & _). eauto.
    - intros b Hb. by apply (waiting_path id b p). }
  split_and!; [|done..].
  split; cbn [set_index d_paths d_series remembers json_ietf push_delete push_response queue values].
  - done.
  - intros p1 id1. rewrite lookup_delete_Some, lookup_insert_Some, (x_index Hok p1 id1).
    split; [intros [Hne Hs1]; right; split; [intros ->; congruence|done]|].
    intros [[_ [=]]|[Hne Hs1]]. split; [|done]. intros <-.
    apply (x_index Hok) in Hs1. congruence.
  - intros p1 id1 [_ Hp1]%lookup_delete_Some. by apply (x_indexed Hok).
  - intros id1 [[-> _]|[_ Hd1]]%lookup_insert_Some; [done|]. by apply (x_deleted Hok).
  - apply (x_matched Hok).
  - intros p1 Hp1. rewrite Hf. destruct (decide (p1 = p)) as [|Hne]; [done|].
    rewrite lookup_delete_ne in Hp1 by done. by apply (x_final Hok).
  - intros id1 b [Hne Hb]%lookup_delete_Some.
    destruct (x_waiting Hok _ _ Hb) as (p1 & a & c & Hp1 & Hpb & (Hl & Ha & Hc) & Ht).
    assert (p1 <> p) by congruence.
    exists p1, a, (c ++ [Response (UpdateResponse del)]). rewrite lookup_delete_ne by done.
    split_and!; [done..| | ].
    + split_and!; [rewrite Hl, <- app_assoc; done|done|].
      intros [?|Hx%list_elem_of_singleton]%elem_of_app; done.
    + intros r [Hr1|Hr1%list_elem_of_singleton]%elem_of_app; [by apply Ht|].
      injection Hr1 as ->. cbn. unfold del, delete_notification.
      rewrite delete_only, delete_reads. naive_solver.
  - intros id1 [Hin|Hx%list_elem_of_singleton]%elem_of_app Hv; [|done].
    destruct (decide (id1 = id)) as [->|Hne]; [left; apply lookup_insert_eq|].
    rewrite lookup_delete_ne in Hv by done. rewrite lookup_insert_ne by done.
    by apply (x_stale Hok).
Qed.

(** Queueing a value of series [id] and indexing its path, which no other series
    holds. *)
Lemma push_index_ok id p b :
  born !! id = Some p -> sel p = true -> path_of b = Some p -> is_Some (m !! id) ->
  d_series d !! id <> Some None -> ~ quiet id ->
  (forall other, d_paths d !! p = Some other -> other = id) ->
  let q' := push_value id b q in
  let d' := set_index d (<[p := id]> (d_paths d)) (<[id := Some p]> (d_series d)) in
  index_ok born gone quiet m d' q' cl /\
  forall p', final cl q' !! p' = if decide (p' = p) then Some (value_of b) else final cl q !! p'.
Proof.
  intros Hborn Hsel Hb Hm Hnd Hnq Hheld q' d'.
  assert (Hnew : values q !! id = None -> Value id ∉ queue q).
  { intros Hv Hin. by destruct (x_stale Hok _ Hin Hv). }
  assert (Hat : forall b', values q !! id = Some b' -> d_paths d !! p = Some id).
  { intros b' Hv. destruct (x_waiting Hok _ _ Hv) as (p1 & _ & _ & Hp1 & _).
    destruct (x_indexed Hok _ _ Hp1) as (Hb1 & _). congruence. }
  assert (Hf : forall p', final cl q' !! p'
             = if decide (p' = p) then Some (value_of b) else final cl q !! p').
  { apply final_value; [done|done| |].
    - intros [b' Hv]. destruct (waiting_last id b' p Hv (Hat _ Hv)) as (_ & a & c & Hw & Ht). eauto.
    - intros b' Hv. by apply (waiting_path id b' p), (Hat b'). }
  split; [|done].
  assert (Hvals : values q' = <[id := b]> (values q))
    by (unfold q', push_value; by destruct (values q !! id)).
  assert (Hone : forall p1, d_series d !! id = Some (Some p1) -> p1 = p).
  { intros p1 Hs. apply (x_index Hok) in Hs.
    destruct (x_indexed Hok _ _ Hs) as (Hb1 & _). congruence. }
  split; cbn [d' set_index d_paths d_series remembers json_ietf].
  - apply (x_plain Hok).
  - intros p1 id1. rewrite !lookup_insert_Some, (x_index Hok p1 id1).
    split.
    + intros [[-> ->]|[Hne Hs]]; [by left|]. right. split; [|done]. intros ->.
      by apply Hne, eq_sym, Hone.
    + intros [[-> [= ->]]|[Hne Hs]]; [by left|]. right. split; [|done]. intros ->.
      apply Hne, eq_sym, Hheld. by apply (x_index Hok).
  - intros p1 id1 [[<- <-]|[_ Hp1]]%lookup_insert_Some; [done|].
    by apply (x_indexed Hok).
  - intros id1 [[_ [=]]|[_ Hd]]%lookup_insert_Some. by apply (x_deleted Hok).
  - apply (x_matched Hok).
  - intros p1 [Hp1 Hne]%lookup_insert_None. rewrite Hf, decide_False by done.
    by apply (x_final Hok).
  - intros id1 b1. rewrite Hvals, lookup_insert_Some. intros [[<- <-]|[Hne Hv]].
    + exists p. rewrite lookup_insert_eq. unfold q', push_value.
      destruct (values q !! id) as [b'|] eqn:E; cbn [queue].
      * destruct (x_waiting Hok _ _ E) as (p1 & a & c & Hp1 & _ & Hw & Ht).
        assert (p1 = p) as ->. { apply Hone. by apply (x_index Hok). } eauto 8.
      * exists (queue q), []. split_and!; [done..|split_and!; [done|auto|set_solver]|set_solver].
    + destruct (x_waiting Hok _ _ Hv) as (p1 & a & c & Hp1 & Hpb & (Hl & Ha & Hc) & Ht).
      assert (p1 <> p) by (intros ->; by apply Hne, eq_sym, Hheld).
      exists p1. rewrite lookup_insert_ne by done. unfold q', push_value.
      destruct (values q !! id) as [b'|] eqn:E; cbn [queue]; [by exists a, c|].
      exists a, (c ++ [Value id]). split_and!; [done..| | ].
      * split_and!; [by rewrite Hl, <- app_assoc|done|].
        intros [?|[= ->]%list_elem_of_singleton]%elem_of_app; done.
      * intros r [Hr|[=]%list_elem_of_singleton]%elem_of_app. by apply Ht.
  - intros id1 Hin. rewrite Hvals. intros [Hv Hne]%lookup_insert_None. rewrite lookup_insert_ne by done.
    apply (x_stale Hok); [|done]. revert Hin. unfold q', push_value.
    destruct (values q !! id); cbn [queue]; [done|].
    intros [?|[= ->]%list_elem_of_singleton]%elem_of_app; done.
Qed.

End Index.

Section Operations.
Context {born : gmap Z Path} {gone quiet : Z -> Prop} {m : gmap Z Seen}.
Context {d : Delivered} {q : Pending} {cl : list PreEncoded}.
Context (Hok : index_ok born gone quiet m d q cl).

(** [queue_value] with [index], in place: the series takes over its path, the
    series that held it having left. *)
Lemma queue_value_ok clock json_of id version p b :
  born !! id = Some p -> sel p = true -> path_of b = Some p -> is_Some (m !! id) ->
  d_series d !! id <> Some None -> ~ quiet id ->
  (forall other, d_paths d !! p = Some other -> other <> id -> gone other) ->
  let r := queue_value encode_delete clock json_of d (mk_queued id version p b InPlace) true q in
  index_ok born gone quiet m r.1 r.2 cl /\ d_paths r.1 = <[p := id]> (d_paths d) /\
  (forall id', d_series r.1 !! id' = Some None -> d_series d !! id' = Some None \/
     d_paths d !! p = Some id' /\ id' <> id) /\
  expiring r.1 = expiring d /\ horizon r.1 = horizon d /\
  forall p', final cl r.2 !! p' = if decide (p' = p) then Some (value_of b) else final cl q !! p'.
Proof.
  intros Hborn Hsel Hb Hm Hnd Hnq Hgone. unfold queue_value.
  rewrite (proj2 (x_plain Hok)). cbn [q_path q_id q_placement].
  destruct (d_paths d !! p) as [other|] eqn:Ep.
  - destruct (Z.eqb_spec other id) as [->|Hne]; cbn [negb].
    + rewrite bool_decide_true by done. cbn [negb andb fst snd].
      destruct (push_index_ok Hok id p b) as [Hok' Hf]; try done; [intros o Ho; congruence|].
      assert (Hp : <[p := id]> (d_paths d) = d_paths d) by (by apply insert_id).
      assert (Hs : <[id := Some p]> (d_series d) = d_series d).
      { apply insert_id. by apply (x_index Hok). }
      rewrite Hp, Hs in Hok'. rewrite Hp. destruct d as [ps ss r e h j]. cbn in *.
      split_and!; [exact Hok'|done|tauto|done|done|done].
    + rewrite bool_decide_false by congruence. cbn [negb andb].
      destruct (queue_delete_ok Hok clock other p Ep (Hgone _ eq_refl Hne))
        as (Hok1 & Hp1 & Hs1 & He1 & Hh1 & Hf1).
      destruct (queue_delete encode_delete clock d other q) as [d1 q1]. cbn [fst snd] in *.
      destruct (push_index_ok Hok1 id p b) as [Hok' Hf]; try done.
      { by rewrite Hs1, lookup_insert_ne. }
      { intros o. by rewrite Hp1, lookup_delete_eq. }
      split_and!; [exact Hok'|cbn; by rewrite Hp1, insert_delete_eq| |done|done|].
      * cbn. intros id'. rewrite Hs1, !lookup_insert_Some. naive_solver.
      * intros p'. rewrite Hf, Hf1. by destruct (decide (p' = p)).
  - rewrite bool_decide_false by done. cbn [negb andb fst snd].
    destruct (push_index_ok Hok id p b) as [Hok' Hf]; try done; [intros o Ho; congruence|].
    split_and!; [exact Hok'|done| |done|done|done].
    cbn. intros id'. rewrite lookup_insert_Some. naive_solver.
Qed.

(** More series there were, more that are gone and quiet. *)
Lemma index_mono (born' : gmap Z Path) (gone' quiet' : Z -> Prop) :
  born ⊆ born' -> (forall id, gone id -> gone' id) -> (forall id, quiet id -> quiet' id) ->
  index_ok born' gone' quiet' m d q cl.
Proof.
  intros Hb Hg Hq. split; try apply Hok.
  - intros p id Hp. destruct (x_indexed Hok p id Hp) as (H1 & H2 & H3).
    split_and!; [by eapply lookup_weaken|done..].
  - intros id Hd. by apply Hg, (x_deleted Hok).
  - intros id e He. destruct (x_matched Hok id e He) as (p & Hp & Hs).
    exists p. split; [by eapply lookup_weaken|done].
  - intros id Hin Hv. destruct (x_stale Hok id Hin Hv); [by left|right; auto].
Qed.

(** Another match cache, which still knows the indexed series. *)
Lemma index_matched m' :
  (forall p id, d_paths d !! p = Some id -> is_Some (m' !! id)) ->
  (forall id e, m' !! id = Some e ->
     exists p, born !! id = Some p /\ seen_path e = if sel p then Some p else None) ->
  index_ok born gone quiet m' d q cl.
Proof.
  intros Hd Hm. split; try apply Hok; [|done]. intros p id Hp.
  destruct (x_indexed Hok p id Hp) as (H1 & H2 & _). eauto.
Qed.

(** The removal of series [id] read from the broadcast. *)
Lemma index_removed_ok id p del (quiet' : Z -> Prop) :
  born !! id = Some p -> path_of del = None -> delete_of del = Some p ->
  (forall i, quiet i -> quiet' i) -> quiet' id ->
  let r := index_removed d id del q in
  index_ok born gone quiet' (delete id m) r.1 r.2 cl /\
  (forall p' i, d_paths r.1 !! p' = Some i <-> d_paths d !! p' = Some i /\ i <> id) /\
  (forall i, i <> id -> d_series r.1 !! i = d_series d !! i) /\ d_series r.1 !! id = None /\
  expiring r.1 = expiring d /\ horizon r.1 = horizon d /\
  forall p', d_paths d !! p' <> Some id -> final cl r.2 !! p' = final cl q !! p'.
Proof.
  intros Hborn Hd1 Hd2 Hq Hqid. unfold index_removed.
  assert (Hat : forall p1, d_paths d !! p1 = Some id -> p1 = p).
  { intros p1 Hp1. destruct (x_indexed Hok _ _ Hp1) as (Hb1 & _). congruence. }
  assert (Hm : forall i e, delete id m !! i = Some e ->
     exists p, born !! i = Some p /\ seen_path e = if sel p then Some p else None).
  { intros i e [_ He]%lookup_delete_Some. by apply (x_matched Hok). }
  assert (Hd : forall i, d_series d !! i = Some None -> gone i) by apply (x_deleted Hok).
  destruct (d_series d !! id) as [[p1|]|] eqn:Es; cbn [fst snd set_index d_paths d_series].
  - pose proof (proj2 (x_index Hok p1 id) Es) as Hp1. assert (p1 = p) as -> by auto.
    assert (Hf : forall p', final cl (push_delete id del q) !! p'
               = if decide (p' = p) then None else final cl q !! p').
    { apply final_delete; [done..| |].
      - intros [b Hb]. destruct (waiting_last Hok id b p Hb Hp1) as (_ & a & c & Hw & _). eauto.
      - intros b Hb. by apply (waiting_path Hok id b p). }
    assert (Hpaths : forall p' i, delete p (d_paths d) !! p' = Some i <->
                       d_paths d !! p' = Some i /\ i <> id).
    { intros p' i. rewrite lookup_delete_Some. split; intros [H1 H2]; split; try done.
      - intros ->. by apply H1, eq_sym, Hat.
      - intros <-. congruence. }
    split_and!; [|done|intros i Hi; by apply lookup_delete_ne|apply lookup_delete_eq|done|done|].
    + split; cbn [set_index d_paths d_series remembers json_ietf push_delete push_response queue values].
      * apply (x_plain Hok).
      * intros p' i. rewrite Hpaths, lookup_delete_Some, (x_index Hok p' i). naive_solver.
      * intros p' i [Hp' Hne]%Hpaths. rewrite lookup_delete_ne by done.
        by apply (x_indexed Hok).
      * intros i [_ Hi]%lookup_delete_Some. auto.
      * done.
      * intros p' Hp'. rewrite Hf. destruct (decide (p' = p)) as [|Hne]; [done|].
        rewrite lookup_delete_ne in Hp' by done. by apply (x_final Hok).
      * intros i b [Hne Hb]%lookup_delete_Some.
        destruct (x_waiting Hok _ _ Hb) as (p2 & a & c & Hp2 & Hpb & (Hl & Ha & Hc) & Ht).
        exists p2, a, (c ++ [Response (UpdateResponse del)]). rewrite Hpaths.
        split_and!; [done..| | ].
        -- split_and!; [rewrite Hl, <- app_assoc; done|done|].
           intros [?|Hx%list_elem_of_singleton]%elem_of_app; done.
        -- intros r [Hr1|Hr1%list_elem_of_singleton]%elem_of_app; [by apply Ht|].
           injection Hr1 as ->. cbn. rewrite Hd1, Hd2. naive_solver.
      * intros i [Hin|Hx%list_elem_of_singleton]%elem_of_app Hv; [|done].
        destruct (decide (i = id)) as [->|Hne]; [by right|].
        rewrite lookup_delete_ne in Hv by done. rewrite lookup_delete_ne by done.
        destruct (x_stale Hok _ Hin Hv); [by left|right; auto].
    + intros p' Hp'. rewrite Hf, decide_False; [done|]. intros ->. done.
  - assert (Hno : forall p', d_paths d !! p' <> Some id).
    { intros p' Hp'. apply (x_index Hok) in Hp'. congruence. }
    split_and!; [|naive_solver|intros i Hi; by apply lookup_delete_ne|apply lookup_delete_eq|done..].
    split; cbn [set_index d_paths d_series remembers json_ietf]; try apply Hok; try done.
    + intros p' i. rewrite (x_index Hok p' i), lookup_delete_Some. split; [|naive_solver].
      intros Hs. split; [|done]. intros <-. congruence.
    + intros p' i Hp'. rewrite lookup_delete_ne by naive_solver. by apply (x_indexed Hok).
    + intros i [_ Hi]%lookup_delete_Some. auto.
    + intros i Hin Hv. destruct (decide (i = id)) as [->|Hne]; [by right|].
      rewrite lookup_delete_ne by done. destruct (x_stale Hok _ Hin Hv); [by left|right; auto].
  - assert (Hno : forall p', d_paths d !! p' <> Some id).
    { intros p' Hp'. apply (x_index Hok) in Hp'. congruence. }
    rewrite (delete_id (d_series d)) by done.
    split_and!; [|naive_solver|done..].
    split; cbn [set_index d_paths d_series remembers json_ietf]; try apply Hok; try done.
    + intros p' i Hp'. rewrite lookup_delete_ne by naive_solver. by apply (x_indexed Hok).
    + intros i Hin Hv. destruct (x_stale Hok _ Hin Hv); [by left|right; auto].
Qed.

(** A sync marker last in the queue. *)
Lemma push_sync_ok : index_ok born gone quiet m d (push_response SyncResponse q) cl.
Proof.
  assert (Hf : final cl (push_response SyncResponse q) = final cl q)
    by (by rewrite final_response).
  split; try apply Hok; cbn [push_response queue values].
  - intros p Hp. rewrite Hf. by apply (x_final Hok).
  - intros id b Hb.
    destruct (x_waiting Hok _ _ Hb) as (p & a & c & Hp & Hpb & (Hl & Ha & Hc) & Ht).
    exists p, a, (c ++ [Response SyncResponse]). split_and!; [done..| |].
    + split_and!; [by rewrite Hl, <- app_assoc|done|].
      intros [?|Hx%list_elem_of_singleton]%elem_of_app; done.
    + intros r [Hr|[= ->]%list_elem_of_singleton]%elem_of_app; [by apply Ht|tauto].
  - intros id [Hin|Hx%list_elem_of_singleton]%elem_of_app Hv; [|done]. by apply (x_stale Hok).
Qed.

(** The series remembered as deleted and expiring are forgotten. *)
Lemma forget_expiring_ok :
  (forall id, id ∈ expiring d -> d_series d !! id = Some None -> quiet id) ->
  index_ok born gone quiet m (forget_expiring d) q cl.
Proof.
  intros Hq. unfold forget_expiring.
  split; cbn [d_paths d_series remembers json_ietf]; try apply Hok.
  - intros p id. rewrite (x_index Hok p id), map_lookup_filter_Some. cbn. naive_solver.
  - intros id [Hd _]%map_lookup_filter_Some. by apply (x_deleted Hok).
  - intros id Hin Hv. destruct (x_stale Hok _ Hin Hv) as [Hd|Hd]; [|by right].
    destruct (decide (id ∈ expiring d)) as [He|He]; [by right; apply Hq|].
    left. rewrite map_lookup_filter_Some. cbn. naive_solver.
Qed.

End Operations.

(** Deletes of series that left, one after the other. *)
Lemma queue_deletes_ok born gone quiet m clock l d q cl :
  index_ok born gone quiet m d q cl -> (forall id, id ∈ l -> gone id) ->
  let r := queue_deletes encode_delete clock d l q in
  index_ok born gone quiet m r.1 r.2 cl /\
  (forall p id, d_paths r.1 !! p = Some id <-> d_paths d !! p = Some id /\ id ∉ l) /\
  (forall id, d_series r.1 !! id = Some None <-> d_series d !! id = Some None \/
     id ∈ l /\ exists p, d_series d !! id = Some (Some p)) /\
  expiring r.1 = expiring d /\ horizon r.1 = horizon d /\
  forall p, (forall id, d_paths d !! p = Some id -> id ∉ l) -> final cl r.2 !! p = final cl q !! p.
Proof.
  revert d q. induction l as [|id l IH]; intros d q Hok Hg; cbn [queue_deletes].
  { cbn. split_and!; try done; intros; split; try set_solver. }
  assert (Hg' : forall i, i ∈ l -> gone i) by (intros i Hi; apply Hg; by right).
  destruct (d_series d !! id) as [[p|]|] eqn:Es.
  { pose proof (proj2 (x_index Hok p id) Es) as Hp.
    destruct (queue_delete_ok Hok clock id p Hp (Hg id ltac:(by left)))
      as (Hok1 & Hp1 & Hs1 & He1 & Hh1 & Hf1).
    destruct (queue_delete encode_delete clock d id q) as [d1 q1]. cbn [fst snd] in *.
    destruct (IH d1 q1 Hok1 Hg') as (Hok2 & Hp2 & Hs2 & He2 & Hh2 & Hf2).
    split_and!; [done| | |congruence|congruence|].
    + intros p' i. rewrite Hp2, Hp1, lookup_delete_Some, elem_of_cons. split.
      * intros [[Hne Hi] Hl]. split; [done|]. intros [->|]; [|done]. apply Hne.
        apply (x_index Hok) in Hi. congruence.
      * intros [Hi Hl]. split_and!; [|done|tauto]. intros <-. apply Hl. left. congruence.
    + intros i. rewrite Hs2, Hs1, elem_of_cons.
      destruct (decide (i = id)) as [->|Hne].
      * rewrite lookup_insert_eq. split; [|by left]. intros _. right. split; [by left|eauto].
      * rewrite lookup_insert_ne by done. naive_solver.
    + intros p' Hp'. rewrite Hf2, Hf1.
      * destruct (decide (p' = p)) as [->|]; [|done]. destruct (Hp' id Hp). by left.
      * intros i. rewrite Hp1. intros [_ Hi]%lookup_delete_Some. intros Hl.
        destruct (Hp' i Hi). by right. }
  all: unfold queue_delete; rewrite Es;
    destruct (IH d q Hok Hg') as (Hok2 & Hp2 & Hs2 & He2 & Hh2 & Hf2).
  all: assert (Hno : forall p', d_paths d !! p' <> Some id)
    by (intros p' Hp'; apply (x_index Hok) in Hp'; congruence).
  all: split_and!; [done| | |done|done|].
  1,4: intros p' i; rewrite Hp2, elem_of_cons; naive_solver.
  1,3: intros i; rewrite Hs2, elem_of_cons; naive_solver.
  all: intros p' Hp'; apply Hf2; intros i Hi Hl; destruct (Hp' i Hi); by right.
Qed.

(** ** Taking a response from the queue *)

Lemma waits_tail e l id a c :
  waits (e :: l) id a c -> e <> Value id -> exists a', waits l id a' c.
Proof.
  intros (Hl & Ha & Hc) He. destruct a as [|e' a]; cbn in Hl; [by injection Hl as -> _|].
  injection Hl as _ ->. exists a. split_and!; [done| |done]. intros Hin. apply Ha. by right.
Qed.

Section Pop.
Context (born : gmap Z Path) (gone quiet : Z -> Prop) (m : gmap Z Seen) (d : Delivered).

(** An entry at the head that hands out [out], with the values that are left. *)
Lemma pop_head_ok e l vals vals' n n' cl out :
  index_ok born gone quiet m d (mk_pending (e :: l) vals n) cl ->
  flat (e :: l) vals = out ++ flat l vals' ->
  (forall id b, vals' !! id = Some b -> vals !! id = Some b /\ e <> Value id) ->
  (forall id, Value id ∈ l -> vals' !! id = None -> vals !! id = None) ->
  index_ok born gone quiet m d (mk_pending l vals' n') (cl ++ out) /\
  final (cl ++ out) (mk_pending l vals' n') = final cl (mk_pending (e :: l) vals n).
Proof.
  intros Hok Hflat Hv Hn.
  assert (Hf : final (cl ++ out) (mk_pending l vals' n') = final cl (mk_pending (e :: l) vals n)).
  { unfold final. cbn [queue values]. rewrite Hflat. unfold replica. by rewrite !fold_left_app. }
  split; [|done]. split; try apply Hok; cbn [queue values].
  - intros p Hp. rewrite Hf. by apply (x_final Hok).
  - intros id b Hb. destruct (Hv id b Hb) as [Hb' He].
    destruct (x_waiting Hok id b Hb') as (p & a & c & Hp & Hpb & Hw & Ht).
    destruct (waits_tail _ _ _ _ _ Hw He) as [a' Hw']. eauto 8.
  - intros id Hin Hvn. apply (x_stale Hok); cbn; [by right|auto].
Qed.

Lemma pop_ok q cl :
  index_ok born gone quiet m d q cl ->
  let out := match (pop q).1 with Some r => [r] | None => [] end in
  index_ok born gone quiet m d (pop q).2 (cl ++ out) /\
  final (cl ++ out) (pop q).2 = final cl q.
Proof.
  destruct q as [l vals n]. unfold pop. cbn [queue values responses].
  revert cl. induction l as [|[r|id] l IH]; intros cl Hok; cbn [pop_loop].
  - by rewrite app_nil_r.
  - cbn [fst snd]. eapply (pop_head_ok (Response r)); [exact Hok|done|naive_solver|done].
  - destruct (vals !! id) as [b|] eqn:E; cbn [fst snd].
    + assert (Hl : Value id ∉ l).
      { destruct (x_waiting Hok id b E) as (_ & a & c & _ & _ & (Hl & Ha & Hc) & _). cbn in Hl.
        destruct a as [|e' a]; cbn in Hl; [by injection Hl as ->|].
        injection Hl as <- _. destruct Ha. by left. }
      eapply (pop_head_ok (Value id)); [exact Hok| | |].
      * cbn. rewrite E. cbn. f_equal. symmetry. by apply flat_delete.
      * intros i bi [Hne Hi]%lookup_delete_Some. split; [done|congruence].
      * intros i Hin Hi. rewrite lookup_delete_ne in Hi by (intros ->; done). done.
    + destruct (pop_head_ok (Value id) l vals vals n n cl []) as [Hok1 Hf1]; [done|..].
      * cbn. by rewrite E.
      * intros i bi Hi. split; [done|congruence].
      * done.
      * rewrite app_nil_r in Hok1, Hf1. destruct (IH cl Hok1) as [Hok2 Hf2]. by rewrite Hf2.
Qed.

End Pop.

(** With the index in order, what the queue hands out is what it holds. *)
Lemma drain_final born gone quiet m d q cl :
  index_ok born gone quiet m d q cl -> replica (cl ++ drain q) = final cl q.
Proof.
  intros Hok. unfold final, drain. rewrite drain_flat.
  - unfold replica. by rewrite fold_left_app.
  - intros id [b Hb]. destruct (x_waiting Hok id b Hb) as (_ & a & c & _ & _ & Hw & _). eauto.
Qed.

End Replica.
