(* ===== verification/GnmiChannel.v ===== *)
(** * GnmiChannel: the table of a gNMI target and the messages of a subscriber

    What the sinks of a target do to its table, and what a subscriber's
    receiver holds in consequence. [op] are the calls of [GnmiTarget] by other
    threads, [read_op] those that hold the table's lock for reading only and so
    can run while a snapshot is taken. Each is a sequence of four primitive
    changes ([prim]), over which the invariants are proved: [channel] relates
    the table to the messages not yet read, [sound] a snapshot to both. *)

From Stdlib Require Import ZArith Lia.
From stdpp Require Import prelude strings list gmap.
From S2P Require Import Prelude Metric GnmiPath GnmiNotification GnmiTarget GnmiService GnmiReplica.

(** ** The messages not yet read *)

Definition event_id (e : SeriesEvent) : Z :=
  match e with Changed u => su_id u | Removed id _ => id end.

Definition removed_in (id : Z) (q : list SeriesEvent) : Prop := exists b, Removed id b ∈ q.

Definition heard (id : Z) (q : list SeriesEvent) : Prop := exists e, e ∈ q /\ event_id e = id.

Lemma snoc_split {A} (q q1 q2 : list A) x e :
  q ++ [e] = q1 ++ x :: q2 ->
  q1 = q /\ x = e /\ q2 = [] \/ exists q2', q2 = q2' ++ [e] /\ q = q1 ++ x :: q2'.
Proof.
  destruct (decide (q2 = [])) as [->|Hne].
  - intros [-> [= ->]]%app_inj_tail. by left.
  - destruct (exists_last Hne) as (q2' & y & ->). rewrite app_comm_cons, app_assoc.
    intros [-> ->]%app_inj_tail. right. by exists q2'.
Qed.

Lemma heard_app id q q' : heard id (q ++ q') <-> heard id q \/ heard id q'.
Proof. unfold heard. set_solver. Qed.

Lemma heard_one id e : heard id [e] <-> event_id e = id.
Proof. unfold heard. set_solver. Qed.

Lemma removed_app id q q' : removed_in id (q ++ q') <-> removed_in id q \/ removed_in id q'.
Proof. unfold removed_in. set_solver. Qed.

Lemma removed_heard id q : removed_in id q -> heard id q.
Proof. intros [b Hb]. by exists (Removed id b). Qed.

Section Channel.
Context `{HP : Prost} {HL : ProstLaws}.
Context (path_of delete_of : list Z -> option Path).
Context (json : list Z -> option (list Z)).

(** ** Calls on the target

    A publisher's notification carries the path it publishes; the counter of
    series ids does not wrap. *)

Inductive read_op : SeriesTable -> SeriesTable -> list SeriesEvent -> Prop :=
| read_publish t o id path encoded res t' sent :
    path_of encoded = Some path -> is_Some (cached o id path t) ->
    publish true o id path encoded t = Some (res, t', sent) -> read_op t t' sent
| read_overwrite t path encoded res t' sent :
    path_of encoded = Some path -> overwrite true path encoded t = (res, t', sent) ->
    read_op t t' sent
| read_json t id version latest : read_op t (json_ietf_value_of json id version latest t).2 [].

Section Calls.
Context (encode_delete : Path -> Z -> list Z).

Inductive op : SeriesTable -> SeriesTable -> list SeriesEvent -> Prop :=
| op_read t t' sent : read_op t t' sent -> op t t' sent
| op_publish t o id path encoded res t' sent :
    path_of encoded = Some path -> publish true o id path encoded t = Some (res, t', sent) ->
    next_id t <= next_id t' -> op t t' sent
| op_release t clock o l :
    op t (release encode_delete true clock o l t).1 (release encode_delete true clock o l t).2.

(** A table and the messages its subscriber has not read. *)
Definition emit (x y : SeriesTable * list SeriesEvent) : Prop :=
  exists sent, op x.1 y.1 sent /\ y.2 = x.2 ++ sent.

End Calls.

Definition locked (x y : SeriesTable * list SeriesEvent) : Prop :=
  exists sent, read_op x.1 y.1 sent /\ y.2 = x.2 ++ sent.

(** [GnmiTarget::snapshot]: under the lock for reading, one series after the
    other, while publishers that hold the same lock go on. *)
Inductive snap_run : list Z -> SeriesTable * list SeriesEvent -> list SeriesSnapshot ->
    SeriesTable * list SeriesEvent -> Prop :=
| snap_done x : snap_run [] x [] x
| snap_read id l s x snap y :
    snapshot_of x.1 id = Some s -> snap_run l x snap y -> snap_run (id :: l) x (s :: snap) y
| snap_wait l x y snap z : locked x y -> snap_run l y snap z -> snap_run l x snap z.

Definition takes (x : SeriesTable * list SeriesEvent) (snap : list SeriesSnapshot)
    (y : SeriesTable * list SeriesEvent) : Prop :=
  exists l, l ≡ₚ elements (dom (slots x.1)) /\ snap_run l x snap y.

(** ** Primitive changes *)

Abbreviation version s := (l_version (s_latest s)) (only parsing).
Abbreviation current s := (latest_value (s_latest s)) (only parsing).

(** The latest notification of a slot carries its path and value. *)
Definition slot_ok (s : Slot) : Prop :=
  path_of (l_bytes (s_latest s)) = Some (s_path s) /\ value_of (l_bytes (s_latest s)) = current s.

Record table_ok (t : SeriesTable) : Prop := {
  t_ids p id : ids t !! p = Some id <-> exists s, slots t !! id = Some s /\ s_path s = p;
  t_slots id s : slots t !! id = Some s -> slot_ok s /\ 1 <= version s /\ 0 <= id < next_id t;
  t_next : 0 <= next_id t < two32;
}.

Definition announce (id : Z) (s : Slot) : SeriesEvent :=
  Changed (mk_update id (s_kind s) (version s) (l_bytes (s_latest s))).

Inductive prim : SeriesTable * list SeriesEvent -> SeriesTable * list SeriesEvent -> Prop :=
| prim_quiet t q id s s' :
    slots t !! id = Some s -> s_path s' = s_path s -> version s' = version s ->
    current s' = current s -> slot_ok s' -> prim (t, q) (set_slot id s' t, q)
| prim_bump t q id s s' :
    slots t !! id = Some s -> s_path s' = s_path s -> version s' = version s + 1 -> slot_ok s' ->
    prim (t, q) (set_slot id s' t, q ++ [announce id s'])
| prim_create t q s :
    ids t !! s_path s = None -> next_id t + 1 < two32 -> version s = 1 -> slot_ok s ->
    prim (t, q)
      (mk_table (<[s_path s := next_id t]> (ids t)) (<[next_id t := s]> (slots t)) (next_id t + 1),
       q ++ [announce (next_id t) s])
| prim_remove t q id s b :
    slots t !! id = Some s -> delete_of b = Some (s_path s) -> path_of b = None ->
    prim (t, q) (mk_table (delete (s_path s) (ids t)) (delete id (slots t)) (next_id t),
                 q ++ [Removed id b]).

(** The changes that keep the series. *)
Definition keeps (x y : SeriesTable * list SeriesEvent) : Prop :=
  prim x y /\ dom (slots y.1) = dom (slots x.1) /\ next_id y.1 = next_id x.1.

(** What is located in a notification is not empty. *)
Lemma value_span_nonempty encoded r k :
  value_span encoded = Some (r, k) -> exists v, get_range encoded r = Some v /\ v <> [].
Proof.
  unfold value_span. destruct (value_field encoded) as [[_ [_ val]]|]; [|done].
  destruct (get_range encoded val) as [v|] eqn:Ev; [|done].
  destruct (decode_key v) as [[[f w] rest]|] eqn:Ek; [|done].
  destruct (skip_field w f rest); [|done]. intros [= <- <-]. exists v. split; [done|].
  apply decode_key_prefix in Ek as (pre & Hne & -> & _). by destruct pre.
Qed.

Lemma latest_spec encoded lat k :
  latest encoded = Ok (lat, k) ->
  l_bytes lat = encoded /\ value_of encoded = latest_value lat /\ latest_value lat <> [].
Proof.
  unfold latest. destruct (value_span encoded) as [[r k']|] eqn:E; [|done]. intros [= <- <-].
  destruct (value_span_nonempty _ _ _ E) as (v & Hv & Hne). unfold value_of, latest_value.
  cbn. by rewrite E, Hv.
Qed.

(** [replace] on a slot that is there: quiet, or a bump. *)
Lemma replace_prim t q id s s1 lat stored pub sent :
  slots t !! id = Some s -> s_path s1 = s_path s -> s_latest s1 = s_latest s -> s_kind s1 = s_kind s ->
  path_of (l_bytes lat) = Some (s_path s) -> value_of (l_bytes lat) = latest_value lat ->
  replace true id (s_kind s) (s_latest s) lat = (stored, pub, sent) ->
  keeps (t, q) (set_slot id (set_latest s1 stored) t, q ++ sent).
Proof.
  intros Hs Hp Hl Hk Hpath Hval. unfold replace. rewrite andb_true_r.
  assert (Hok : forall v j, slot_ok (set_latest s1 (mk_latest (l_bytes lat) (l_value lat) v j))).
  { intros v j. unfold slot_ok. cbn. rewrite Hp. by split. }
  assert (Hdom : forall s', dom (slots (set_slot id s' t)) = dom (slots t)).
  { intros s'. cbn. rewrite dom_insert_L.
    apply elem_of_dom_2 in Hs. set_solver. }
  destruct (bool_decide _) eqn:E; cbn [negb]; intros [= <- _ <-].
  - apply bool_decide_eq_true in E. rewrite app_nil_r. split; [|by split; [apply Hdom|]].
    eapply prim_quiet; [exact Hs|cbn; done|cbn; lia| |apply Hok].
    unfold latest_value in *. cbn. by rewrite E.
  - split; [|by split; [apply Hdom|]].
    set (s' := set_latest s1 _).
    assert (Ha : Changed (mk_update id (s_kind s) (l_version (s_latest s) + 1) (l_bytes lat))
                 = announce id s') by (unfold announce, s'; cbn; by rewrite Hk).
    rewrite Ha. eapply prim_bump; [exact Hs|done|done|apply Hok].
Qed.

Lemma cached_spec o id path t i s :
  cached o id path t = Some (i, s) -> slots t !! i = Some s /\ s_path s = path.
Proof.
  unfold cached. destruct id as [i'|]; [|done]. destruct (slots t !! i') as [s'|] eqn:E; [|done].
  destruct (_ && _) eqn:Eb; [|done]. intros [= -> ->].
  apply andb_true_iff in Eb as [_ Hp%bool_decide_eq_true]. done.
Qed.

Lemma keeps_refl_pub t o id path encoded res t' sent q :
  table_ok t -> path_of encoded = Some path -> is_Some (cached o id path t) ->
  publish true o id path encoded t = Some (res, t', sent) ->
  rtc keeps (t, q) (t', q ++ sent).
Proof.
  intros Ht Hp [[i s] Hc]. unfold publish. destruct (latest encoded) as [[lat k]|] eqn:El.
  - destruct (latest_spec _ _ _ El) as (<- & Hv & _). unfold store. rewrite Hc.
    destruct (cached_spec _ _ _ _ _ _ Hc) as [Hs Hsp].
    destruct (replace _ _ _ _ _) as [[st pub] sn] eqn:Er. intros [= _ <- <-].
    apply rtc_once. apply (replace_prim t q i s s lat st pub sn); try done. by rewrite Hsp.
  - intros [= _ <- <-]. by rewrite app_nil_r.
Qed.

Lemma read_op_prims t t' sent q : table_ok t -> read_op t t' sent -> rtc keeps (t, q) (t', q ++ sent).
Proof.
  intros Ht Hop. destruct Hop as [t o id path encoded res t' sent Hp Hc Hpub
    |t path encoded res t' sent Hp Ho|t id v l].
  - by eapply keeps_refl_pub.
  - revert Ho. unfold overwrite. destruct (latest encoded) as [[lat k]|] eqn:El.
    2: { intros [= _ <- <-]. by rewrite app_nil_r. }
    destruct (latest_spec _ _ _ El) as (<- & Hv & _).
    destruct (ids t !! path) as [i|] eqn:Ei.
    2: { intros [= _ <- <-]. by rewrite app_nil_r. }
    destruct (slots t !! i) as [s|] eqn:Es.
    2: { intros [= _ <- <-]. by rewrite app_nil_r. }
    destruct (replace _ _ _ _ _) as [[st pub] sn] eqn:Er. intros [= _ <- <-].
    apply rtc_once. apply (replace_prim t q i s s lat st pub sn); try done.
    apply (t_ids t Ht) in Ei as (s' & Hs' & <-). congruence.
  - rewrite app_nil_r. unfold json_ietf_value_of. destruct (slots t !! id) as [s|] eqn:Es; [|done].
    destruct (negb _); [done|]. destruct (l_json _); [done|].
    destruct (json_ietf_value _ _) as [made|]; [|done]. cbn [snd].
    apply rtc_once. destruct (t_slots t Ht id s Es) as ([Hp Hv] & _). split; [|split; [|done]].
    + eapply prim_quiet; [exact Es|done..|]. split; [done|]. by cbn.
    + cbn. rewrite dom_insert_L. apply elem_of_dom_2 in Es. set_solver.
Qed.

Lemma prim_ok x y : table_ok x.1 -> prim x y -> table_ok y.1.
Proof.
  intros Ht Hp. destruct Hp as [t q id s s' Hs Hp Hv Hc Ho|t q id s s' Hs Hp Hv Ho
    |t q s Hi Hn Hv Ho|t q id s b Hs Hd Hb]; cbn [fst] in *; split; cbn [set_slot ids slots next_id].
  1,4: intros p i; rewrite (t_ids t Ht); destruct (decide (i = id)) as [->|Hne];
    [rewrite lookup_insert_eq; naive_solver|by rewrite lookup_insert_ne].
  1,3: intros i s1; destruct (decide (i = id)) as [->|Hne];
    [rewrite lookup_insert_eq; intros [= <-]|rewrite lookup_insert_ne by done; apply (t_slots t Ht)];
    destruct (t_slots t Ht _ _ Hs) as (_ & Hv1 & Hid); split_and!; (done || lia).
  1,2: apply (t_next t Ht).
  - pose proof (t_next t Ht). assert (Hfree : slots t !! next_id t = None).
    { destruct (slots t !! next_id t) eqn:E; [|done]. apply (t_slots t Ht) in E. lia. }
    intros p i. rewrite lookup_insert_Some, (t_ids t Ht). split.
    + intros [[<- <-]|[Hne (s1 & Hs1 & <-)]]; [exists s; by rewrite lookup_insert_eq|].
      exists s1. rewrite lookup_insert_ne; [done|]. congruence.
    + intros (s1 & [[<- <-]|[Hne Hs1]]%lookup_insert_Some & <-); [by left|]. right.
      split; [|by exists s1]. intros Heq.
      assert (ids t !! s_path s = Some i) by (apply (t_ids t Ht); by exists s1). congruence.
  - pose proof (t_next t Ht). intros i s1 [[<- <-]|[Hne Hs1]]%lookup_insert_Some;
      [split_and!; (done || lia)|].
    destruct (t_slots t Ht _ _ Hs1) as (? & ? & ?). split_and!; (done || lia).
  - pose proof (t_next t Ht). lia.
  - intros p i. rewrite lookup_delete_Some, (t_ids t Ht). split.
    + intros [Hne (s1 & Hs1 & <-)]. exists s1. rewrite lookup_delete_ne; [done|]. congruence.
    + intros (s1 & [Hne Hs1]%lookup_delete_Some & <-). split; [|by exists s1]. intros Heq.
      apply Hne. assert (ids t !! s_path s = Some i) by (apply (t_ids t Ht); by exists s1).
      assert (ids t !! s_path s = Some id) by (apply (t_ids t Ht); by exists s). congruence.
  - intros i s1 [_ Hs1]%lookup_delete_Some. by apply (t_slots t Ht).
  - apply (t_next t Ht).
Qed.

(** [enter] of a series that is there. *)
Lemma enter_prims t q o i s path lat k res t' sent :
  slots t !! i = Some s -> s_path s = path -> path_of (l_bytes lat) = Some path ->
  value_of (l_bytes lat) = latest_value lat ->
  enter true o i path lat k t = (res, t', sent) -> prim (t, q) (t', q ++ sent).
Proof.
  intros Hs <- Hp Hv. unfold enter. rewrite Hs. cbn [default set_publishers s_kind s_latest].
  destruct (replace _ _ _ _ _) as [[st pub] sn] eqn:Er. intros [= _ <- <-].
  by eapply (replace_prim t q i s (set_publishers s (s_publishers s + 1)) lat st pub sn).
Qed.

(** The latest value of series [id] is among the messages. *)
Definition newest (t : SeriesTable) (q : list SeriesEvent) (id : Z) : Prop :=
  exists s u, slots t !! id = Some s /\ Changed u ∈ q /\ su_id u = id /\ su_version u = version s.

Record channel (t : SeriesTable) (q : list SeriesEvent) (born : gmap Z Path) : Prop := {
  c_table : table_ok t;
  c_born id s : slots t !! id = Some s -> born !! id = Some (s_path s);
  c_old id : is_Some (born !! id) -> id < next_id t;
  c_changed u : Changed u ∈ q -> 1 <= su_version u /\ exists p, born !! su_id u = Some p /\
    path_of (su_bytes u) = Some p /\ forall s, slots t !! su_id u = Some s ->
      su_version u <= version s /\ (su_version u = version s -> value_of (su_bytes u) = current s);
  c_removed id b : Removed id b ∈ q -> slots t !! id = None /\
    exists p, born !! id = Some p /\ delete_of b = Some p /\ path_of b = None;
  c_dead q1 u q2 : q = q1 ++ Changed u :: q2 -> slots t !! su_id u = None -> removed_in (su_id u) q2;
  c_after q1 id b q2 : q = q1 ++ Removed id b :: q2 -> ~ heard id q2;
  c_order q1 u q2 s id : q = q1 ++ Changed u :: q2 -> slots t !! su_id u = Some s ->
    born !! id = Some (s_path s) -> id <> su_id u -> ~ removed_in id q2;
}.

(** What changes while [ev] is broadcast. *)
Record advances (t : SeriesTable) (born : gmap Z Path) (t' : SeriesTable) (ev : list SeriesEvent)
  (born' : gmap Z Path) : Prop := {
  a_born : born ⊆ born';
  a_live id s' : slots t' !! id = Some s' ->
    (exists s, slots t !! id = Some s /\ s_path s = s_path s' /\
       (version s = version s' /\ current s = current s' \/ version s < version s' /\ newest t' ev id))
    \/ born !! id = None /\ newest t' ev id;
  a_left id : is_Some (slots t !! id) -> slots t' !! id = None -> removed_in id ev;
  a_dead id : is_Some (born !! id) -> slots t !! id = None -> slots t' !! id = None /\ ~ heard id ev;
}.

#[local] Arguments c_table {_ _ _} _.
#[local] Arguments c_born {_ _ _} _ _ _ _.
#[local] Arguments c_old {_ _ _} _ _ _.
#[local] Arguments c_changed {_ _ _} _ _ _.
#[local] Arguments c_removed {_ _ _} _ _ _ _.
#[local] Arguments c_dead {_ _ _} _ _ _ _ _ _.
#[local] Arguments c_after {_ _ _} _ _ _ _ _ _ _.
#[local] Arguments c_order {_ _ _} _ _ _ _ _ _ _ _ _ _ _.

Lemma channel_nil t q born : channel t q born -> channel t [] born.
Proof.
  intros Hc. split; try apply Hc; try (intros; set_solver).
  all: intros []; discriminate.
Qed.

Lemma channel_tail t e q born : channel t (e :: q) born -> channel t q born.
Proof.
  intros Hc. split; try apply Hc.
  - intros u Hu. apply (c_changed Hc). by right.
  - intros id b Hb. apply (c_removed Hc). by right.
  - intros q1 u q2 ->. by apply (c_dead Hc (e :: q1)).
  - intros q1 id b q2 ->. by apply (c_after Hc (e :: q1) id b).
  - intros q1 u q2 s id ->. by apply (c_order Hc (e :: q1)).
Qed.

(** A slot that changes in place, quietly or with a message. *)
Lemma in_place_channel t q born id s s' (ev : list SeriesEvent) :
  channel t q born -> slots t !! id = Some s -> s_path s' = s_path s -> slot_ok s' ->
  (version s' = version s /\ current s' = current s /\ ev = [] \/
   version s' = version s + 1 /\ ev = [announce id s']) ->
  table_ok (set_slot id s' t) ->
  channel (set_slot id s' t) (q ++ ev) born /\ advances t born (set_slot id s' t) ev born.
Proof.
  intros Hc Hs Hp [Hpo Hvo] Hcase Ht.
  assert (Hlook : forall i, slots (set_slot id s' t) !! i = if decide (i = id) then Some s'
                              else slots t !! i).
  { intros i. cbn. destruct (decide (i = id)) as [->|]; [apply lookup_insert_eq|by apply lookup_insert_ne]. }
  assert (Hnone : forall i, slots (set_slot id s' t) !! i = None <-> slots t !! i = None).
  { intros i. rewrite Hlook. destruct (decide (i = id)) as [->|]; [|done]. by rewrite Hs. }
  assert (Hev : ev = [] \/ ev = [announce id s']) by naive_solver.
  destruct (t_slots t (c_table Hc) id s Hs) as (_ & Hv1 & _).
  split; split.
  - done.
  - intros i si. rewrite Hlook. destruct (decide (i = id)) as [->|].
    + intros [= <-]. rewrite Hp. by apply (c_born Hc).
    + apply (c_born Hc).
  - intros i Hi. by apply (c_old Hc).
  - intros u [Hu|Hu]%elem_of_app.
    + destruct (c_changed Hc u Hu) as (Hv & p & Hb & Hpu & Hl). split; [done|].
      exists p. split_and!; [done..|]. intros su. rewrite Hlook.
      destruct (decide (su_id u = id)) as [E|]; [|apply Hl]. intros [= <-].
      rewrite E in Hl. destruct (Hl s Hs) as [H1 H2].
      destruct Hcase as [(-> & -> & _)|[-> _]]; [done|]. split; [lia|lia].
    + destruct Hcase as [(_ & _ & ->)|[Hvs ->]]; [set_solver|].
      apply list_elem_of_singleton in Hu. injection Hu as ->. cbn [su_version su_id su_bytes].
      split; [lia|]. exists (s_path s'). rewrite Hp at 1.
      split_and!; [by apply (c_born Hc)|done|]. intros su. rewrite Hlook, decide_True by done.
      by intros [= <-].
  - intros i b [Hi|Hi]%elem_of_app; [|destruct Hev as [-> | ->]; set_solver].
    rewrite Hnone. by apply (c_removed Hc) in Hi.
  - intros q1 u q2 Hq Hn. rewrite Hnone in Hn.
    destruct Hev as [-> | ->]; [rewrite app_nil_r in Hq; by eapply (c_dead Hc)|].
    apply snoc_split in Hq as [(-> & [= ->] & ->)|(q2' & -> & ->)]; [cbn in Hn; congruence|].
    rewrite removed_app. left. by eapply (c_dead Hc).
  - intros q1 i b q2 Hq. destruct Hev as [-> | ->]; [rewrite app_nil_r in Hq; by eapply (c_after Hc)|].
    apply snoc_split in Hq as [(_ & [=] & _)|(q2' & -> & ->)].
    rewrite heard_app, heard_one. intros [Hh|Hh]; [by eapply (c_after Hc)|]. cbn in Hh. subst i.
    destruct (c_removed Hc id b) as [Hn _]; [set_solver|]. congruence.
  - intros q1 u q2 su i Hq. rewrite Hlook. intros Hsu Hb Hne.
    assert (Hsu' : exists s0, slots t !! su_id u = Some s0 /\ s_path s0 = s_path su).
    { destruct (decide (su_id u = id)) as [E|]; [|by exists su]. injection Hsu as <-.
      exists s. by rewrite E. }
    destruct Hsu' as (s0 & Hs0 & Hps). rewrite <- Hps in Hb.
    destruct Hev as [-> | ->]; [rewrite app_nil_r in Hq; by eapply (c_order Hc)|].
    apply snoc_split in Hq as [(_ & _ & ->)|(q2' & -> & ->)]; [intros [b' Hb']; set_solver|].
    rewrite removed_app. intros [Hr|[b' Hb']]; [by eapply (c_order Hc)|set_solver].
  - done.
  - intros i si. rewrite Hlook. destruct (decide (i = id)) as [->|].
    + intros [= <-]. left. exists s. split_and!; [done..|].
      destruct Hcase as [(Hv & Hcu & _)|[Hv ->]]; [left; by split|right].
      split; [lia|]. exists s'. eexists. rewrite Hlook, decide_True by done.
      split_and!; [done|by left|done..].
    + intros Hi. left. exists si. split_and!; [done..|by left].
  - intros i [si Hi] Hn. apply Hnone in Hn. congruence.
  - intros i Hi Hn. rewrite Hnone. split; [done|]. destruct Hev as [-> | ->]; [intros [? [? ?]]; set_solver|].
    rewrite heard_one. cbn. intros <-. congruence.
Qed.

Lemma create_channel t q born s :
  channel t q born -> ids t !! s_path s = None -> version s = 1 -> slot_ok s ->
  let t' := mk_table (<[s_path s := next_id t]> (ids t)) (<[next_id t := s]> (slots t)) (next_id t + 1) in
  let ev := [announce (next_id t) s] in
  let born' := <[next_id t := s_path s]> born in
  table_ok t' -> channel t' (q ++ ev) born' /\ advances t born t' ev born'.
Proof.
  intros Hc Hi Hv [Hpo Hvo] t' ev born' Ht. set (n := next_id t) in *.
  assert (Hnb : born !! n = None).
  { destruct (born !! n) eqn:E; [|done]. pose proof (c_old Hc n ltac:(by rewrite E)). lia. }
  assert (Hns : slots t !! n = None).
  { destruct (slots t !! n) eqn:E; [|done]. apply (c_born Hc) in E. congruence. }
  assert (Hlook : forall i, i <> n -> slots t' !! i = slots t !! i)
    by (intros i Hne; by apply lookup_insert_ne).
  assert (Hold : forall i p, born !! i = Some p -> i <> n) by congruence.
  assert (Hb : forall i p, born !! i = Some p -> born' !! i = Some p).
  { intros i p Hip. unfold born'. rewrite lookup_insert_ne; [done|]. intros <-. congruence. }
  assert (Hlive : forall i, i <> n -> slots t !! i = None -> slots t' !! i = None)
    by (intros i Hne; by rewrite Hlook).
  assert (Huold : forall u, Changed u ∈ q -> su_id u <> n).
  { intros u Hu. destruct (c_changed Hc u Hu) as (_ & p & Hbu & _). by eapply Hold. }
  split; split.
  - done.
  - intros i si. cbn. intros [[<- <-]|[Hne Hsi]]%lookup_insert_Some;
      [apply lookup_insert_eq|]. by apply Hb, (c_born Hc).
  - intros i [p Hp]. cbn. unfold born' in Hp. apply lookup_insert_Some in Hp as [[<- _]|[_ Hp]]; [lia|].
    pose proof (c_old Hc i ltac:(by eexists)). lia.
  - intros u [Hu|Hu%list_elem_of_singleton]%elem_of_app.
    + destruct (c_changed Hc u Hu) as (Hvu & p & Hbu & Hpu & Hl). split; [done|].
      exists p. split_and!; [by apply Hb|done|]. rewrite Hlook by eauto. done.
    + injection Hu as ->. cbn [su_version su_id su_bytes]. split; [lia|]. exists (s_path s).
      split_and!; [apply lookup_insert_eq|done|]. intros si. cbn. rewrite lookup_insert_eq.
      by intros [= <-].
  - intros i b [Hi'|Hi'%list_elem_of_singleton]%elem_of_app; [|done].
    destruct (c_removed Hc i b Hi') as (Hn & p & Hbi & Hd). split; [apply Hlive; eauto|].
    exists p. split; [by apply Hb|done].
  - intros q1 u q2 Hq Hn.
    apply snoc_split in Hq as [(_ & [= ->] & _)|(q2' & -> & ->)].
    { cbn in Hn. by rewrite lookup_insert_eq in Hn. }
    rewrite removed_app. left. apply (c_dead Hc q1); [done|].
    rewrite Hlook in Hn; [done|]. apply Huold. set_solver.
  - intros q1 i b q2 Hq. apply snoc_split in Hq as [(_ & [=] & _)|(q2' & -> & ->)].
    rewrite heard_app, heard_one. intros [Hh|Hh]; [by eapply (c_after Hc)|]. cbn in Hh. subst i.
    destruct (c_removed Hc n b) as (_ & p & Hbp & _); [set_solver|]. congruence.
  - intros q1 u q2 su i Hq Hsu Hbi Hne.
    apply snoc_split in Hq as [(_ & _ & ->)|(q2' & -> & ->)]; [intros [b' Hb']; set_solver|].
    assert (Hun : su_id u <> n) by (apply Huold; set_solver). rewrite Hlook in Hsu by done.
    rewrite removed_app. intros [Hr|[b' Hb']]; [|set_solver].
    assert (Hin : i <> n).
    { destruct Hr as [b Hr]. destruct (c_removed Hc i b) as (_ & p & Hbp & _); [set_solver|]. eauto. }
    unfold born' in Hbi. rewrite lookup_insert_ne in Hbi by done. by eapply (c_order Hc).
  - unfold born'. by apply insert_subseteq.
  - intros i si. cbn. intros [[<- <-]|[Hne Hsi]]%lookup_insert_Some.
    + right. split; [done|]. exists s. eexists. cbn. rewrite lookup_insert_eq.
      split_and!; [done|by left|done..].
    + left. exists si. split_and!; [done..|by left].
  - intros i [si Hsi] Hn. rewrite Hlook in Hn; [congruence|]. intros ->. congruence.
  - intros i [p Hp] Hn. split; [apply Hlive; eauto|]. unfold ev. rewrite heard_one. cbn.
    intros <-. congruence.
Qed.

Lemma remove_channel t q born id s b :
  channel t q born -> slots t !! id = Some s -> delete_of b = Some (s_path s) -> path_of b = None ->
  let t' := mk_table (delete (s_path s) (ids t)) (delete id (slots t)) (next_id t) in
  table_ok t' -> channel t' (q ++ [Removed id b]) born /\ advances t born t' [Removed id b] born.
Proof.
  intros Hc Hs Hd Hb t' Ht.
  assert (Hlook : forall i, slots t' !! i = if decide (i = id) then None else slots t !! i).
  { intros i. cbn. destruct (decide (i = id)) as [->|]; [apply lookup_delete_eq|by apply lookup_delete_ne]. }
  assert (Hsub : forall i si, slots t' !! i = Some si -> slots t !! i = Some si /\ i <> id).
  { intros i si. rewrite Hlook. by destruct (decide (i = id)). }
  split; split.
  - done.
  - intros i si [Hsi _]%Hsub. by apply (c_born Hc).
  - intros i Hi. by apply (c_old Hc).
  - intros u [Hu|Hu%list_elem_of_singleton]%elem_of_app; [|done].
    destruct (c_changed Hc u Hu) as (Hvu & p & Hbu & Hpu & Hl). split; [done|].
    exists p. split_and!; [done..|]. intros si [Hsi _]%Hsub. by apply Hl.
  - intros i b' [Hi|Hi%list_elem_of_singleton]%elem_of_app.
    + destruct (c_removed Hc i b' Hi) as (Hn & Hrest). split; [|done]. rewrite Hlook.
      by destruct (decide (i = id)).
    + injection Hi as -> ->. rewrite Hlook, decide_True by done. split; [done|].
      exists (s_path s). split; [by apply (c_born Hc)|done].
  - intros q1 u q2 Hq. apply snoc_split in Hq as [(_ & [=] & _)|(q2' & -> & ->)].
    rewrite removed_app, Hlook. destruct (decide (su_id u = id)) as [->|].
    + intros _. right. exists b. by left.
    + intros Hn. left. by eapply (c_dead Hc).
  - intros q1 i b' q2 Hq. apply snoc_split in Hq as [(_ & _ & ->)|(q2' & -> & ->)].
    + intros (e & He & _). set_solver.
    + rewrite heard_app, heard_one. intros [Hh|Hh]; [by eapply (c_after Hc)|]. cbn in Hh. subst i.
      destruct (c_removed Hc id b') as [Hn _]; [set_solver|]. congruence.
  - intros q1 u q2 su i Hq [Hsu Hun]%Hsub Hbi Hne.
    apply snoc_split in Hq as [(_ & _ & ->)|(q2' & -> & ->)]; [intros [b' Hb']; set_solver|].
    rewrite removed_app. intros [Hr|[b' [= -> ->]%list_elem_of_singleton]]; [by eapply (c_order Hc)|].
    rewrite (c_born Hc _ _ Hs) in Hbi. injection Hbi as Hbi. apply Hun.
    assert (H1 : ids t !! s_path s = Some id) by (apply (t_ids t (c_table Hc)); by exists s).
    assert (H2 : ids t !! s_path s = Some (su_id u)) by (apply (t_ids t (c_table Hc)); by exists su).
    congruence.
  - done.
  - intros i si [Hsi _]%Hsub. left. exists si. split_and!; [done..|by left].
  - intros i [si Hsi]. rewrite Hlook. destruct (decide (i = id)) as [->|]; [|congruence].
    intros _. exists b. by left.
  - intros i Hi Hn. rewrite Hlook, heard_one. cbn. destruct (decide (i = id)) as [->|]; [congruence|].
    split; [done|congruence].
Qed.

Lemma advances_refl t born : advances t born t [] born.
Proof.
  split; [done| | |].
  - intros id s Hs. left. exists s. split_and!; [done..|by left].
  - intros id [s Hs]. congruence.
  - intros id _ Hn. split; [done|]. intros (e & He & _). by apply elem_of_nil in He.
Qed.

Lemma newest_advances t born t' ev' born' q id s s' :
  advances t born t' ev' born' -> newest t q id -> slots t !! id = Some s -> slots t' !! id = Some s' ->
  newest t' (q ++ ev') id.
Proof.
  intros Ha (s0 & u & Hs0 & Hu & Hid & Hv) Hs Hs'. assert (s0 = s) as -> by congruence.
  destruct (a_live _ _ _ _ _ Ha id s' Hs') as [(s1 & Hs1 & _ & [[Hv1 _]|[_ Hn]])|[_ Hn]].
  - exists s', u. assert (s1 = s) as -> by congruence. split_and!; [done|set_solver|done|congruence].
  - destruct Hn as (s2 & u2 & ? & ? & ?). exists s2, u2. set_solver.
  - destruct Hn as (s2 & u2 & ? & ? & ?). exists s2, u2. set_solver.
Qed.

Lemma newest_app t q q' id : newest t q' id -> newest t (q ++ q') id.
Proof. intros (s & u & ? & ? & ?). exists s, u. set_solver. Qed.

Lemma advances_trans t born t1 ev1 born1 t2 ev2 born2 :
  advances t born t1 ev1 born1 -> advances t1 born1 t2 ev2 born2 ->
  advances t born t2 (ev1 ++ ev2) born2.
Proof.
  intros A1 A2. split.
  - etransitivity; [apply A1|apply A2].
  - intros id s2 Hs2. destruct (a_live _ _ _ _ _ A2 id s2 Hs2) as [(s1 & Hs1 & Hp1 & H1)|[Hb1 Hn]].
    2: { right. split; [|by apply newest_app]. destruct (born !! id) eqn:E; [|done].
         rewrite (lookup_weaken _ _ _ _ E (a_born _ _ _ _ _ A1)) in Hb1. done. }
    destruct (a_live _ _ _ _ _ A1 id s1 Hs1) as [(s & Hs & Hp & H0)|[Hb Hn]].
    + left. exists s. split_and!; [done|congruence|].
      destruct H1 as [[Hv1 Hc1]|[Hv1 Hn1]].
      * destruct H0 as [[Hv0 Hc0]|[Hv0 Hn0]]; [left; split; congruence|]. right.
        split; [lia|]. by eapply newest_advances.
      * right. split; [destruct H0 as [[? _]|[? _]]; lia|]. by apply newest_app.
    + right. split; [done|]. by eapply newest_advances.
  - intros id Hs Hn. rewrite removed_app. destruct (slots t1 !! id) eqn:E.
    + right. apply (a_left _ _ _ _ _ A2); [by rewrite E|done].
    + left. by apply (a_left _ _ _ _ _ A1).
  - intros id Hb Hn. destruct (a_dead _ _ _ _ _ A1 id Hb Hn) as [Hn1 Hh1].
    destruct (a_dead _ _ _ _ _ A2 id) as [Hn2 Hh2]; [|done|].
    + destruct Hb as [p Hp]. exists p. eapply lookup_weaken; [done|apply A1].
    + split; [done|]. rewrite heard_app. tauto.
Qed.

Lemma prim_channel t q t' q' born :
  channel t q born -> prim (t, q) (t', q') ->
  exists ev born', q' = q ++ ev /\ channel t' q' born' /\ advances t born t' ev born' /\
    (dom (slots t') = dom (slots t) -> next_id t' = next_id t -> born' = born).
Proof.
  intros Hc Hp. pose proof (prim_ok (t, q) (t', q') (c_table Hc) Hp) as Ht. cbn [fst] in Ht.
  inversion Hp; subst.
  - exists [], born. destruct (in_place_channel t q' born id s s' []) as [H1 H2]; try done; [by left|].
    rewrite app_nil_r in H1. by rewrite app_nil_r.
  - eexists [announce id s'], born.
    destruct (in_place_channel t q born id s s' [announce id s']) as [H1 H2]; try done. by right.
  - eexists [announce (next_id t) s], _. destruct (create_channel t q born s) as [H1' H2']; try done.
    split_and!; [done|exact H1'|exact H2'|]. cbn. intros _ Hn. lia.
  - eexists [Removed id b], born. destruct (remove_channel t q born id s b) as [H1' H2']; done.
Qed.

Lemma prims_channel x y born :
  channel x.1 x.2 born -> rtc prim x y ->
  exists ev born', y.2 = x.2 ++ ev /\ channel y.1 y.2 born' /\ advances x.1 born y.1 ev born'.
Proof.
  intros Hc Hr. revert born Hc. induction Hr as [x|[t q] [t1 q1] y Hp Hr IH]; intros born Hc.
  - exists [], born. rewrite app_nil_r. split_and!; [done..|apply advances_refl].
  - destruct (prim_channel _ _ _ _ _ Hc Hp) as (ev & born1 & -> & Hc1 & A1 & _).
    destruct (IH _ Hc1) as (ev2 & born2 & Hy & Hc2 & A2). cbn in *.
    exists (ev ++ ev2), born2. rewrite app_assoc. split_and!; [done..|]. by eapply advances_trans.
Qed.

(** Changes that keep the series bear none. *)
Lemma keeps_channel x y born :
  channel x.1 x.2 born -> rtc keeps x y ->
  exists ev, y.2 = x.2 ++ ev /\ channel y.1 y.2 born /\ advances x.1 born y.1 ev born /\
    dom (slots y.1) = dom (slots x.1).
Proof.
  intros Hc Hr. revert Hc. induction Hr as [x|[t q] [t1 q1] y (Hp & Hd & Hn) Hr IH]; intros Hc.
  - exists []. rewrite app_nil_r. split_and!; [done..|apply advances_refl|done].
  - destruct (prim_channel _ _ _ _ _ Hc Hp) as (ev & born1 & -> & Hc1 & A1 & Hb).
    rewrite (Hb Hd Hn) in *. destruct (IH Hc1) as (ev2 & Hy & Hc2 & A2 & Hd2). cbn in *.
    exists (ev ++ ev2). rewrite app_assoc. split_and!; [done..| |congruence]. by eapply advances_trans.
Qed.

Section Release.
Context (encode_delete : Path -> Z -> list Z).
Context (delete_reads : forall p t, delete_of (encode_delete p t) = Some p).
Context (delete_only : forall p t, path_of (encode_delete p t) = None).

Lemma op_prims t t' sent q : table_ok t -> op encode_delete t t' sent -> rtc prim (t, q) (t', q ++ sent).
Proof.
  intros Ht Hop. destruct Hop as [t t' sent Hr|t o id path encoded res t' sent Hp Hpub Hn|t clock o l].
  - eapply rtc_subrel; [|by apply read_op_prims]. by intros x y [? _].
  - destruct (cached o id path t) as [c|] eqn:Ec.
    { eapply rtc_subrel; [|eapply keeps_refl_pub; [done|done|by rewrite Ec|done]].
      by intros x y [? _]. }
    revert Hpub. unfold publish. destruct (latest encoded) as [[lat k]|] eqn:El.
    2: { intros [= _ <- <-]. by rewrite app_nil_r. }
    destruct (latest_spec _ _ _ El) as (<- & Hv & Hne). unfold store. rewrite Ec.
    destruct (ids t !! path) as [i|] eqn:Ei.
    + apply (t_ids t Ht) in Ei as (s & Hs & Hsp). rewrite Hs.
      destruct (negb _); [intros [= _ <- <-]; by rewrite app_nil_r|]. intros Hen%(inj Some).
      apply rtc_once. by eapply enter_prims.
    + pose proof (t_next t Ht). assert (Hfree : slots t !! next_id t = None).
      { destruct (slots t !! next_id t) eqn:E; [|done]. apply (t_slots t Ht) in E. lia. }
      cbn [free_id]. rewrite Hfree. unfold enter. cbn [ids slots next_id]. rewrite Hfree.
      cbn [default set_publishers s_kind s_latest s_publishers].
      unfold replace. cbn [latest_value default_latest l_version].
      replace (latest_value default_latest) with (@nil Z) by done.
      rewrite bool_decide_false by (intros E; by apply Hne).
      cbn [negb andb]. intros [= _ Ht' Hsent]. subst t' sent. cbn [next_id set_slot] in Hn.
      assert (Hw : (next_id t + 1) mod two32 = next_id t + 1).
      { apply Z.mod_small. destruct (decide (next_id t + 1 = two32)) as [E|]; [|lia].
        rewrite E in Hn. rewrite Z.mod_same in Hn by lia. lia. }
      apply rtc_once. unfold set_slot. cbn [ids slots next_id]. rewrite Hw.
      set (s := set_latest _ _). change path with (s_path s).
      apply (prim_create t q s); [done| |done|].
      * pose proof (Z.mod_pos_bound (next_id t + 1) two32). lia.
      * split; [done|]. by cbn.
  - revert t q Ht. induction l as [|id l IH]; intros t q Ht; cbn [release]; [by rewrite app_nil_r|].
    destruct (release_one encode_delete true clock o id t) as [t1 sent1] eqn:E1.
    destruct (release encode_delete true clock o l t1) as [t2 sent2] eqn:E2. cbn [fst snd].
    assert (Hp : rtc prim (t, q) (t1, q ++ sent1)).
    { revert E1. unfold release_one. destruct (slots t !! id) as [s|] eqn:Es.
      2: { intros [= <- <-]. by rewrite app_nil_r. }
      destruct (negb _); [intros [= <- <-]; by rewrite app_nil_r|].
      destruct (_ =? 0); intros [= <- <-].
      - apply rtc_once, (prim_remove _ _ _ s); [done|apply delete_reads|apply delete_only].
      - rewrite app_nil_r. apply rtc_once.
        eapply prim_quiet; [exact Es|done..|]. by destruct (t_slots t Ht id s Es) as (Hso & _). }
    assert (Ht1 : table_ok t1).
    { clear -Hp Ht. change t1 with (fst (t1, q ++ sent1)). change t with (fst (t, q)) in Ht.
      induction Hp; [done|]. eauto using prim_ok. }
    etransitivity; [exact Hp|]. specialize (IH t1 (q ++ sent1) Ht1). rewrite E2 in IH. cbn in IH.
    by rewrite app_assoc.
Qed.

(** The calls of other threads. *)
Lemma emits_channel x y born :
  channel x.1 x.2 born -> rtc (emit encode_delete) x y ->
  exists ev born', y.2 = x.2 ++ ev /\ channel y.1 y.2 born' /\ advances x.1 born y.1 ev born'.
Proof.
  intros Hc Hr. revert born Hc. induction Hr as [x|x y z (sent & Hop & Hq) Hr IH]; intros born Hc.
  - exists [], born. rewrite app_nil_r. split_and!; [done..|apply advances_refl].
  - pose proof (op_prims _ _ _ x.2 (c_table Hc) Hop) as Hp. rewrite <- Hq in Hp.
    destruct (prims_channel (x.1, x.2) (y.1, y.2) _ Hc Hp) as (ev & born1 & Hy & Hc1 & A1).
    cbn [fst snd] in *.
    destruct (IH born1 Hc1) as (ev2 & born2 & Hz & Hc2 & A2).
    exists (ev ++ ev2), born2. split_and!; [by rewrite Hz, Hy, app_assoc|done|].
    by eapply advances_trans.
Qed.

End Release.

(** ** Snapshots

    What a snapshot says of the table and the messages after it; [born0] are the
    series there had been before it. *)
Record sound (t : SeriesTable) (q : list SeriesEvent) (born0 born : gmap Z Path)
  (snap : list SeriesSnapshot) : Prop := {
  so_ids : NoDup (ss_id <$> snap);
  so_path s s' : s ∈ snap -> s' ∈ snap -> ss_path s = ss_path s' -> ss_id s = ss_id s';
  so_entry s : s ∈ snap -> 1 <= ss_version s /\ born !! ss_id s = Some (ss_path s) /\
    path_of (ss_latest s) = Some (ss_path s);
  so_left s : s ∈ snap -> slots t !! ss_id s = None -> removed_in (ss_id s) q;
  so_live s sl : s ∈ snap -> slots t !! ss_id s = Some sl ->
    ss_version s = version sl /\ value_of (ss_latest s) = current sl \/
    ss_version s < version sl /\ newest t q (ss_id s);
  so_absent id : is_Some (slots t !! id) -> id ∉ ss_id <$> snap -> newest t q id /\ born0 !! id = None;
}.

Lemma sound_advances t q born0 born snap t' ev born' :
  channel t q born -> born0 ⊆ born -> advances t born t' ev born' ->
  sound t q born0 born snap -> sound t' (q ++ ev) born0 born' snap.
Proof.
  intros Hc Hb A S. split.
  - apply S.
  - apply S.
  - intros s Hs. destruct (so_entry _ _ _ _ _ S s Hs) as (Hv & Hi & Hp). split_and!; [done| |done].
    eapply lookup_weaken; [done|apply A].
  - intros s Hs Hn. rewrite removed_app. destruct (slots t !! ss_id s) eqn:E.
    + right. apply (a_left _ _ _ _ _ A); [by rewrite E|done].
    + left. by apply (so_left _ _ _ _ _ S).
  - intros s sl Hs Hsl. destruct (so_entry _ _ _ _ _ S s Hs) as (_ & Hi & _).
    destruct (a_live _ _ _ _ _ A _ _ Hsl) as [(s0 & Hs0 & _ & H0)|[Hn _]]; [|congruence].
    destruct (so_live _ _ _ _ _ S s s0 Hs Hs0) as [[Hv Hval]|[Hv Hn]].
    + destruct H0 as [[Hv0 Hc0]|[Hv0 Hn0]]; [left; split; congruence|right].
      split; [lia|by apply newest_app].
    + right. split; [destruct H0 as [[? _]|[? _]]; lia|]. by eapply newest_advances.
  - intros id [s' Hs'] Hid. destruct (a_live _ _ _ _ _ A _ _ Hs') as [(s0 & Hs0 & _)|[Hn Hw]].
    + destruct (so_absent _ _ _ _ _ S id ltac:(by eexists) Hid) as [Hw Hb0].
      split; [by eapply newest_advances|done].
    + split; [by apply newest_app|]. destruct (born0 !! id) eqn:E; [|done].
      rewrite (lookup_weaken _ _ _ _ E Hb) in Hn. done.
Qed.

Lemma locked_channel x y born :
  channel x.1 x.2 born -> locked x y ->
  exists ev, y.2 = x.2 ++ ev /\ channel y.1 y.2 born /\ advances x.1 born y.1 ev born /\
    dom (slots y.1) = dom (slots x.1).
Proof.
  intros Hc (sent & Hop & Hq). apply (keeps_channel x y born Hc).
  pose proof (read_op_prims _ _ _ x.2 (c_table Hc) Hop) as Hk. rewrite <- Hq in Hk.
  by destruct x, y.
Qed.

Lemma snap_run_channel l x snap y born :
  channel x.1 x.2 born -> snap_run l x snap y ->
  exists ev, y.2 = x.2 ++ ev /\ channel y.1 y.2 born /\ advances x.1 born y.1 ev born /\
    dom (slots y.1) = dom (slots x.1) /\ ss_id <$> snap = l /\
    forall s, s ∈ snap -> 1 <= ss_version s /\ born !! ss_id s = Some (ss_path s) /\
      path_of (ss_latest s) = Some (ss_path s) /\ forall sl, slots y.1 !! ss_id s = Some sl ->
        ss_version s = version sl /\ value_of (ss_latest s) = current sl \/
        ss_version s < version sl /\ newest y.1 y.2 (ss_id s).
Proof.
  intros Hc Hr. revert Hc.
  induction Hr as [x|id l s x snap y Hs Hr IH|l x y snap z Hl Hr IH]; intros Hc.
  - exists []. rewrite app_nil_r. split_and!; [done..|apply advances_refl|done|done|set_solver].
  - destruct (IH Hc) as (ev & Hy & Hcy & A & Hd & Hids & Hall). exists ev.
    unfold snapshot_of in Hs. destruct (slots x.1 !! id) as [sl0|] eqn:E; [|done].
    injection Hs as <-. split_and!; [done..|cbn; by f_equal|].
    intros s' [->|Hs']%elem_of_cons; [|by apply Hall]. cbn [ss_id ss_path ss_version ss_latest].
    destruct (t_slots _ (c_table Hc) _ _ E) as ([Hp Hv] & Hv1 & _).
    split_and!; [done|by apply (c_born Hc)|done|]. intros sl Hsl.
    destruct (a_live _ _ _ _ _ A _ _ Hsl) as [(s1 & Hs1 & _ & H1)|[Hn _]].
    + assert (s1 = sl0) as -> by congruence. rewrite Hv.
      destruct H1 as [|[? Hn]]; [by left|right]. split; [done|]. rewrite Hy. by apply newest_app.
    + rewrite (c_born Hc _ _ E) in Hn. done.
  - destruct (locked_channel _ _ _ Hc Hl) as (ev & Hy & Hcy & A & Hd).
    destruct (IH Hcy) as (ev2 & Hz & Hcz & A2 & Hd2 & Hids & Hall).
    exists (ev ++ ev2). split_and!; [by rewrite Hz, Hy, app_assoc|done| |congruence|done|done].
    by eapply advances_trans.
Qed.

(** Taking a snapshot. *)
Lemma takes_sound x snap y born :
  channel x.1 x.2 born -> takes x snap y ->
  exists ev, y.2 = x.2 ++ ev /\ channel y.1 y.2 born /\ advances x.1 born y.1 ev born /\
    sound y.1 y.2 born born snap /\
    forall id, id ∈ ss_id <$> snap <-> is_Some (slots y.1 !! id).
Proof.
  intros Hc (l & Hl & Hr).
  destruct (snap_run_channel _ _ _ _ _ Hc Hr) as (ev & Hy & Hcy & A & Hd & Hids & Hall).
  assert (Hdom : forall id, id ∈ ss_id <$> snap <-> is_Some (slots y.1 !! id)).
  { intros id. rewrite Hids, Hl, <- Hd. by rewrite elem_of_elements, elem_of_dom. }
  exists ev. split_and!; [done..| |done]. split.
  - rewrite Hids, Hl. apply NoDup_elements.
  - intros s s' Hs Hs' Hp.
    assert (Hat : forall r, r ∈ snap -> ids y.1 !! ss_path r = Some (ss_id r)).
    { intros r Hin. destruct (Hall r Hin) as (_ & Hb & _).
      destruct (proj1 (Hdom (ss_id r))) as [sl Hsl]; [by apply list_elem_of_fmap_2|].
      apply (t_ids _ (c_table Hcy)). exists sl. split; [done|].
      apply (c_born Hcy) in Hsl. congruence. }
    pose proof (Hat s Hs) as H1. pose proof (Hat s' Hs') as H2. congruence.
  - intros s Hs. destruct (Hall s Hs) as (? & ? & ? & _). done.
  - intros s Hs Hn. destruct (proj1 (Hdom (ss_id s))) as [sl Hsl]; [by apply list_elem_of_fmap_2|].
    congruence.
  - intros s sl Hs Hsl. destruct (Hall s Hs) as (_ & _ & _ & H). by apply H.
  - intros id Hs Hn. by apply Hdom in Hs.
Qed.

End Channel.
