(* ===== verification/GnmiSync.v ===== *)
(** * GnmiSync: a subscriber follows its target

    A [System] is a target's table, the messages the subscriber has not read,
    the producer with its queue, and what the client has received. It moves when
    a sink calls the target and when the producer takes a turn, in any order;
    the producer can lag at any time and lose its messages. [follows] relates
    the parts for a list of ON_CHANGE subscriptions. *)

From Stdlib Require Import ZArith Lia.
From stdpp Require Import prelude strings list gmap sorting.
From S2P Require Import Prelude Metric GnmiPath GnmiMatcher GnmiNotification GnmiTarget GnmiService GnmiReplica GnmiChannel.

Section Follows.
Context `{HP : Prost} {HL : ProstLaws}.
Context (path_of delete_of : list Z -> option Path).
(** The matcher of the list. *)
Context (mt : SubscriptionMatcher).

Let sel (p : Path) : bool := matcher_matches mt p.

Abbreviation version s := (l_version (s_latest s)) (only parsing).
Abbreviation current s := (latest_value (s_latest s)) (only parsing).
Abbreviation index_ok := (index_ok path_of delete_of sel).
Abbreviation channel := (channel path_of delete_of).
Abbreviation sound := (sound path_of).
Abbreviation final := (final path_of delete_of).

Definition gone (t : SeriesTable) (born : gmap Z Path) (id : Z) : Prop :=
  is_Some (born !! id) /\ slots t !! id = None.

Definition quiet (t : SeriesTable) (Q : list SeriesEvent) (born : gmap Z Path) (id : Z) : Prop :=
  gone t born id /\ ~ heard id Q.

(** The client ends up with the current value of series [id]. *)
Definition up_to_date (m : gmap Z Seen) (d : Delivered) (q : Pending) (cl : list PreEncoded)
  (id : Z) (s : Slot) : Prop :=
  (exists e, m !! id = Some e /\ queued e = version s) /\ d_paths d !! s_path s = Some id /\
  final cl q !! s_path s = Some (current s).

(** The value of every series is queued, or among the messages; [todo] are the
    series still to be looked at. *)
Record follows (todo : list Z) (t : SeriesTable) (Q : list SeriesEvent) (born : gmap Z Path)
  (m : gmap Z Seen) (d : Delivered) (q : Pending) (cl : list PreEncoded) : Prop := {
  f_channel : channel t Q born;
  f_index : index_ok born (gone t born) (quiet t Q born) m d q cl;
  f_gone p id : d_paths d !! p = Some id -> slots t !! id = None -> removed_in id Q;
  f_live id s : slots t !! id = Some s -> sel (s_path s) = true -> id ∉ todo ->
    up_to_date m d q cl id s \/
    newest t Q id /\ forall e, m !! id = Some e -> queued e < version s;
}.

(** What is about to be forgotten is not heard of once the horizon is reached. *)
Definition horizon_ok (t : SeriesTable) (Q : list SeriesEvent) (born : gmap Z Path) (d : Delivered)
  : Prop :=
  forall id, id ∈ expiring d -> gone t born id /\ ~ heard id (drop (horizon d) Q).

#[local] Arguments f_channel {_ _ _ _ _ _ _ _} _.
#[local] Arguments f_index {_ _ _ _ _ _ _ _} _.
#[local] Arguments f_gone {_ _ _ _ _ _ _ _} _ _ _ _ _.
#[local] Arguments f_live {_ _ _ _ _ _ _ _} _ _ _ _ _ _.

(** ** The target moves *)

Lemma gone_advances t born t' ev born' id :
  advances t born t' ev born' -> gone t born id -> gone t' born' id /\ ~ heard id ev.
Proof.
  intros A [[p Hp] Hn]. destruct (a_dead _ _ _ _ _ A id) as [Hn' Hh]; [by eexists|done|].
  split; [|done]. split; [|done]. exists p. eapply lookup_weaken; [done|apply A].
Qed.

Lemma quiet_advances t Q born t' ev born' id :
  advances t born t' ev born' -> quiet t Q born id -> quiet t' (Q ++ ev) born' id.
Proof.
  intros A [Hg Hh]. destruct (gone_advances _ _ _ _ _ _ A Hg) as [Hg' Hh'].
  split; [done|]. rewrite heard_app. tauto.
Qed.

Lemma heard_drop id n Q : heard id (drop n Q) -> heard id Q.
Proof. intros (e & He & Hid). exists e. split; [|done]. rewrite <- (take_drop n Q). set_solver. Qed.

Lemma horizon_advances t Q born d t' ev born' :
  advances t born t' ev born' -> horizon_ok t Q born d -> horizon_ok t' (Q ++ ev) born' d.
Proof.
  intros A H id Hid. destruct (H id Hid) as [Hg Hh].
  destruct (gone_advances _ _ _ _ _ _ A Hg) as [Hg' Hh']. split; [done|].
  rewrite drop_app, heard_app. intros [?|?%heard_drop]; tauto.
Qed.

Lemma follows_advances todo t Q born m d q cl t' ev born' :
  follows todo t Q born m d q cl -> advances t born t' ev born' -> channel t' (Q ++ ev) born' ->
  follows todo t' (Q ++ ev) born' m d q cl.
Proof.
  intros F A Hc. split; [done| | |].
  - apply (index_mono path_of delete_of sel (f_index F)).
    + apply A.
    + intros id Hg. by destruct (gone_advances _ _ _ _ _ _ A Hg).
    + intros id. by apply quiet_advances.
  - intros p id Hp Hn. rewrite removed_app. destruct (slots t !! id) as [s|] eqn:E.
    + right. apply (a_left _ _ _ _ _ A); [by rewrite E|done].
    + left. by eapply (f_gone F).
  - intros id s' Hs' Hsel Htodo.
    destruct (a_live _ _ _ _ _ A _ _ Hs') as [(s & Hs & Hp & Hv)|[Hb Hn]].
    + rewrite <- Hp in Hsel. destruct (f_live F id s Hs Hsel Htodo) as [[(e & He & Hq) [Hd Hf]]|[Hn Hm]].
      * destruct Hv as [[Hv Hcu]|[Hv Hn]].
        -- left. split_and!; [exists e; split; [done|lia]|by rewrite <- Hp|].
           by rewrite <- Hp, Hf, Hcu.
        -- right. split; [by apply newest_app|]. intros e' He'. assert (e' = e) as -> by congruence. lia.
      * right. split; [by eapply newest_advances|]. intros e He. specialize (Hm e He).
        destruct Hv as [[? _]|[? _]]; lia.
    + right. split; [by apply newest_app|]. intros e He.
      destruct (x_matched _ _ _ _ _ _ _ _ _ _ (f_index F) id e He) as (p & Hbp & _). congruence.
Qed.

(** ** The client receives *)

Lemma follows_pop todo t Q born m d q cl :
  follows todo t Q born m d q cl ->
  follows todo t Q born m d (pop q).2 (cl ++ option_list (pop q).1).
Proof.
  intros F. destruct (pop_ok path_of delete_of sel _ _ _ _ _ _ _ (f_index F)) as [Hok Hf].
  change (match (pop q).1 with Some r => [r] | None => [] end) with (option_list (pop q).1) in *.
  split; [apply F|done|apply F|].
  intros id s Hs Hsel Htodo. unfold up_to_date. rewrite Hf. by apply (f_live F).
Qed.

(** ** One series queued *)

(** The selectors of a list of ON_CHANGE subscriptions. *)
Definition selects_list (set : OnChangeSet) : Prop := selectors set = [mk_selector mt Any].

Lemma seen_spec set id kind p born g qt d q cl :
  selects_list set -> index_ok born g qt (matched set) d q cl -> born !! id = Some p ->
  let r := seen set id kind (Some p) in
  matched r.2 !! id = Some r.1 /\ seen_path r.1 = (if sel p then Some p else None) /\
  (matched set !! id = Some r.1 \/ matched set !! id = None /\ queued r.1 = 0) /\
  (forall i, i <> id -> matched r.2 !! i = matched set !! i) /\
  selectors r.2 = selectors set /\ prune_at r.2 = prune_at set /\
  index_ok born g qt (matched r.2) d q cl.
Proof.
  intros Hset Hok Hb. unfold seen. destruct (matched set !! id) as [e|] eqn:E; cbn [fst snd].
  - split_and!; [done| |by left|done..].
    destruct (x_matched _ _ _ _ _ _ _ _ _ _ Hok id e E) as (p' & Hb' & ->). by simplify_eq.
  - assert (Hex : existsb (fun s => selector_selects s p kind) (selectors set) = sel p).
    { rewrite Hset. cbn. unfold selector_selects. cbn. by rewrite orb_false_r. }
    rewrite Hex. cbn. split_and!; [apply lookup_insert_eq|done|by right
      |intros i Hi; by apply lookup_insert_ne|done|done|].
    apply (index_matched path_of delete_of sel Hok).
    + intros p' i Hp'. destruct (decide (i = id)) as [->|]; [by rewrite lookup_insert_eq|].
      rewrite lookup_insert_ne by done. by apply (x_indexed _ _ _ _ _ _ _ _ _ _ Hok p').
    + intros i e [[<- <-]|[_ He]]%lookup_insert_Some; [by exists p|].
      by apply (x_matched _ _ _ _ _ _ _ _ _ _ Hok).
Qed.

Lemma follows_seen todo t Q born set d q cl id kind p :
  selects_list set -> follows todo t Q born (matched set) d q cl -> born !! id = Some p ->
  follows todo t Q born (matched (seen set id kind (Some p)).2) d q cl.
Proof.
  intros Hset F Hb.
  destruct (seen_spec _ _ kind _ _ _ _ _ _ _ Hset (f_index F) Hb)
    as (Hid & _ & Hold & Hoth & _ & _ & Hok).
  split; [apply F|done|apply F|]. intros i s Hs Hsel Htodo.
  destruct (f_live F i s Hs Hsel Htodo) as [[(e & He & Hq) Hr]|[Hn Hm]].
  - left. split; [|done]. exists e. split; [|done]. destruct (decide (i = id)) as [->|].
    + destruct Hold as [H|[H _]]; congruence.
    + by rewrite Hoth.
  - right. split; [done|]. intros e. destruct (decide (i = id)) as [->|].
    + rewrite Hid. intros [= <-]. destruct Hold as [H|[_ H]]; [by apply Hm|].
      destruct (t_slots _ _ (c_table _ _ _ _ _ (f_channel F)) _ _ Hs) as (_ & ? & _). lia.
    + rewrite Hoth by done. apply Hm.
Qed.

(** ** A message read *)

Lemma quiet_tail t e Q born id : quiet t (e :: Q) born id -> quiet t Q born id.
Proof.
  intros [Hg Hh]. split; [done|]. intros (x & Hx & Hid). apply Hh. exists x. split; [by right|done].
Qed.

(** A change whose value is queued already. *)
Lemma follows_heard todo t u Q born m d q cl :
  follows todo t (Changed u :: Q) born m d q cl ->
  (forall sl, slots t !! su_id u = Some sl -> sel (s_path sl) = true -> su_version u = version sl ->
     up_to_date m d q cl (su_id u) sl) ->
  follows todo t Q born m d q cl.
Proof.
  intros F Hu. split.
  - eapply channel_tail, F.
  - apply (index_mono path_of delete_of sel (f_index F)); [done..|]. intros id. apply quiet_tail.
  - intros p id Hp Hn. destruct (f_gone F p id Hp Hn) as [b [[=]|Hb]%elem_of_cons]. by exists b.
  - intros id s Hs Hsel Htodo. destruct (f_live F id s Hs Hsel Htodo) as [|[(s0 & w & Hs0 & Hw & <- & Hv) Hm]];
      [by left|]. assert (s0 = s) as -> by congruence. apply elem_of_cons in Hw as [[= ->]|Hw]; [left; by apply Hu|].
    right. split; [|done]. by exists s, w.
Qed.

(** The removal of a series. *)
Lemma follows_removed todo t id b Q born m d q cl :
  follows todo t (Removed id b :: Q) born m d q cl ->
  let r := index_removed d id b q in
  follows todo t Q born (delete id m) r.1 r.2 cl /\ expiring r.1 = expiring d /\ horizon r.1 = horizon d.
Proof.
  intros F. pose proof (f_channel F) as Hc.
  destruct (c_removed _ _ _ _ _ Hc id b) as (Hn & p & Hb & Hd & Hp); [by left|].
  assert (Hq : quiet t Q born id).
  { split; [split; [by eexists|done]|]. by apply (c_after _ _ _ _ _ Hc [] id b). }
  destruct (index_removed_ok path_of delete_of sel (f_index F) id p b (quiet t Q born))
    as (Hok & Hpaths & _ & _ & Hex & Hho & Hfin); try done; [apply quiet_tail|].
  split; [|done]. split; [by eapply channel_tail|done| |].
  - intros p' i [Hi Hne]%Hpaths Hs. destruct (f_gone F p' i Hi Hs) as [b' [[= -> _]|Hb']%elem_of_cons]; [done|].
    by exists b'.
  - intros i s Hs Hsel Htodo. assert (Hne : i <> id) by congruence.
    destruct (f_live F i s Hs Hsel Htodo) as [(Hm & Hdp & Hf)|[(s0 & w & Hs0 & Hw & Hid & Hv) Hm]].
    + left. split_and!; [by rewrite lookup_delete_ne|by apply Hpaths|].
      rewrite Hfin; [done|]. congruence.
    + right. rewrite lookup_delete_ne by done. split; [|done].
      apply elem_of_cons in Hw as [[=]|Hw]. by exists s0, w.
Qed.

(** [read_one] counts the message. *)
Lemma follows_read_one todo t e Q born m d q cl :
  follows todo t Q born m d q cl -> horizon_ok t (e :: Q) born d ->
  follows todo t Q born m (read_one d) q cl /\ horizon_ok t Q born (read_one d).
Proof.
  intros F H. unfold read_one. destruct (horizon d) as [|h] eqn:Eh.
  { split; [done|]. intros id Hid. destruct (H id Hid) as [Hg Hh]. rewrite Eh in *. cbn in Hh.
    split; [done|]. cbn. intros (x & Hx & Hxi). apply Hh. exists x. split; [by right|done]. }
  set (d1 := mk_delivered _ _ _ _ h _).
  assert (F1 : follows todo t Q born m d1 q cl).
  { split; try apply F. destruct (f_index F). by split. }
  assert (H1 : horizon_ok t Q born d1).
  { intros id Hid. destruct (H id Hid) as [Hg Hh]. by rewrite Eh in Hh. }
  destruct h; [|done]. split; [|intros id Hid; cbn in Hid; by apply elem_of_nil in Hid].
  split; try apply F1. apply (forget_expiring_ok path_of delete_of sel (f_index F1)).
  intros id Hid _. by apply (H1 id Hid).
Qed.

Section Catch.
Context (encode_delete : Path -> Z -> list Z).
Context (delete_reads : forall p t, delete_of (encode_delete p t) = Some p).
Context (delete_only : forall p t, path_of (encode_delete p t) = None).
Context (clock : Z -> Z) (json_of : Z -> Z -> list Z -> option (list Z)).

(** What is known of an entry to be queued. *)
Record entry_ok (t : SeriesTable) (Q : list SeriesEvent) (born : gmap Z Path) (s : SeriesSnapshot)
  : Prop := {
  e_born : born !! ss_id s = Some (ss_path s);
  e_path : path_of (ss_latest s) = Some (ss_path s);
  e_heard : ~ quiet t Q born (ss_id s);
  e_left : slots t !! ss_id s = None -> removed_in (ss_id s) Q;
  e_live sl : slots t !! ss_id s = Some sl ->
    ss_version s = version sl /\ value_of (ss_latest s) = current sl \/
    ss_version s < version sl /\ newest t Q (ss_id s);
}.

Lemma follows_catch todo t Q born set d q cl s :
  selects_list set -> follows (ss_id s :: todo) t Q born (matched set) d q cl ->
  entry_ok t Q born s -> d_series d !! ss_id s <> Some None ->
  (forall other, d_paths d !! ss_path s = Some other -> other <> ss_id s -> gone t born other) ->
  let r := resync_one encode_delete clock json_of set d q s in
  follows todo t Q born (matched r.1.1) r.1.2 r.2 cl /\
  selectors r.1.1 = selectors set /\ prune_at r.1.1 = prune_at set /\
  expiring r.1.2 = expiring d /\ horizon r.1.2 = horizon d /\
  (forall id, d_series r.1.2 !! id = Some None -> d_series d !! id = Some None \/
     d_paths d !! ss_path s = Some id /\ id <> ss_id s) /\
  (forall p id, d_paths r.1.2 !! p = Some id -> d_paths d !! p = Some id \/
     p = ss_path s /\ id = ss_id s) /\
  (sel (ss_path s) = true -> exists e, matched r.1.1 !! ss_id s = Some e /\ queued e = ss_version s).
Proof.
  intros Hset F He Hnd Hother. unfold resync_one.
  destruct (seen_spec _ _ (ss_kind s) _ _ _ _ _ _ _ Hset (f_index F) (e_born _ _ _ _ He))
    as (Hid & Hsp & _ & Hoth & Hsels & Hpr & Hok).
  pose proof (follows_seen _ _ _ _ _ _ _ _ _ (ss_kind s) _ Hset F (e_born _ _ _ _ He)) as F1.
  destruct (seen set (ss_id s) (ss_kind s) (Some (ss_path s))) as [e set1]. cbn [fst snd] in *.
  assert (Hpath : forall sl, slots t !! ss_id s = Some sl -> s_path sl = ss_path s).
  { intros sl Hsl. apply (c_born _ _ _ _ _ (f_channel F)) in Hsl.
    rewrite (e_born _ _ _ _ He) in Hsl. congruence. }
  rewrite Hsp. destruct (sel (ss_path s)) eqn:Esel; cbn [fst snd].
  2: { split_and!; try done; [|by left|by left]. split; try apply F1.
       intros id sl Hsl Hsel Htodo. apply (f_live F1 id sl Hsl Hsel).
       intros [->|]%elem_of_cons; [|done]. rewrite (Hpath sl Hsl) in Hsel. congruence. }
  set (set2 := set_queued set1 (ss_id s) (ss_version s)).
  assert (Hm2 : matched set2 = <[ss_id s := mk_seen (Some (ss_path s)) (ss_version s)]> (matched set1)).
  { unfold set2, set_queued. cbn. rewrite <- Hsp. apply map_eq. intros i.
    destruct (decide (i = ss_id s)) as [->|Hne].
    - rewrite lookup_alter_eq, Hid, lookup_insert_eq. done.
    - by rewrite lookup_alter_ne, lookup_insert_ne. }
  assert (Hok2 : index_ok born (gone t born) (quiet t Q born) (matched set2) d q cl).
  { rewrite Hm2. apply (index_matched path_of delete_of sel Hok).
    - intros p' i Hp'. destruct (decide (i = ss_id s)) as [->|]; [by rewrite lookup_insert_eq|].
      rewrite lookup_insert_ne by done. by apply (x_indexed _ _ _ _ _ _ _ _ _ _ Hok p').
    - intros i e' [[<- <-]|[_ He']]%lookup_insert_Some;
        [exists (ss_path s); split; [apply He|by rewrite Esel]|].
      by apply (x_matched _ _ _ _ _ _ _ _ _ _ Hok). }
  destruct (queue_value_ok path_of delete_of encode_delete sel delete_reads delete_only Hok2 clock
    json_of (ss_id s) (ss_version s) (ss_path s) (ss_latest s)) as (Hok3 & Hdp & Hds & Hex & Hho & Hfin);
    try (apply He || done); [by rewrite Hm2, lookup_insert_eq|].
  unfold queued_of. destruct (queue_value _ _ _ _ _ _ _) as [d3 q3]. cbn [fst snd] in *.
  split_and!; try done.
  2: { rewrite Hdp. intros p id [[<- <-]|[_ Hp]]%lookup_insert_Some; [by right|by left]. }
  2: { intros _. rewrite Hm2, lookup_insert_eq. eexists. by split. }
  split; [apply F|done| |].
  - rewrite Hdp. intros p id [[<- <-]|[_ Hp]]%lookup_insert_Some; [apply He|by apply (f_gone F p)].
  - intros id sl Hsl Hsel Htodo. destruct (decide (id = ss_id s)) as [->|Hne].
    + destruct (e_live _ _ _ _ He sl Hsl) as [[Hv Hval]|[Hv Hn]].
      * left. rewrite <- (Hpath sl Hsl) in Hdp, Hfin. split_and!.
        -- rewrite Hm2, lookup_insert_eq. eexists. by split.
        -- by rewrite Hdp, lookup_insert_eq.
        -- rewrite Hfin, decide_True by done. by rewrite Hval.
      * right. split; [done|]. rewrite Hm2, lookup_insert_eq. by intros ? [= <-].
    + assert (Hm : matched set2 !! id = matched set1 !! id) by (by rewrite Hm2, lookup_insert_ne).
      destruct (f_live F1 id sl Hsl Hsel) as [(Hq & Hd & Hfi)|Hn]; [set_solver| |].
      * assert (Hpp : s_path sl <> ss_path s).
        { intros Heq. rewrite Heq in Hd. destruct (Hother id Hd Hne) as [_ Hg]. congruence. }
        left. unfold up_to_date. rewrite Hm, Hdp, lookup_insert_ne, Hfin, decide_False by done. done.
      * right. by rewrite Hm.
Qed.

(** [offer_value] of the first message. *)
Lemma follows_offer t u Q born set d q cl :
  selects_list set -> follows [] t (Changed u :: Q) born (matched set) d q cl ->
  let r := offer_value encode_delete path_of clock json_of set d u q in
  follows [] t Q born (matched r.1.1) r.1.2 r.2 cl /\
  selectors r.1.1 = selectors set /\ prune_at r.1.1 = prune_at set /\
  expiring r.1.2 = expiring d /\ horizon r.1.2 = horizon d.
Proof.
  intros Hset F. pose proof (f_channel F) as Hc.
  destruct (c_changed _ _ _ _ _ Hc u) as (Hv1 & p & Hb & Hp & Hl); [by left|].
  assert (Hpath : forall sl, slots t !! su_id u = Some sl -> s_path sl = p).
  { intros sl Hsl. apply (c_born _ _ _ _ _ Hc) in Hsl. congruence. }
  pose proof (seen_spec _ _ (su_kind u) _ _ _ _ _ _ _ Hset (f_index F) Hb)
    as (Hid & Hsp & Hold & _ & Hsels & Hpr & _).
  pose proof (follows_seen _ _ _ _ _ _ _ _ _ (su_kind u) _ Hset F Hb) as F1.
  set (s := mk_snapshot (su_id u) p (su_kind u) (su_version u) (su_bytes u)).
  assert (Hcatch : offer_value encode_delete path_of clock json_of set d u q
    = if is_deleted d (su_id u) then (set, d, q)
      else if (queued (seen set (su_id u) (su_kind u) (Some p)).1 <? su_version u) && sel p
              && negb (holds_another d p (su_id u))
           then resync_one encode_delete clock json_of set d q s
           else ((seen set (su_id u) (su_kind u) (Some p)).2, d, q)).
  { unfold offer_value, resync_one. rewrite Hp. cbn [s ss_id ss_kind ss_path ss_version ss_latest queued_of].
    destruct (is_deleted d (su_id u)); [done|].
    destruct (seen set (su_id u) (su_kind u) (Some p)) as [e set1]. cbn [fst snd] in *.
    destruct (queued e <? su_version u); [|done]. rewrite Hsp. destruct (sel p); [|done].
    destruct (holds_another d p (su_id u)); [done|]. cbn [andb negb].
    by destruct (queue_value _ _ _ _ _ _ _). }
  rewrite Hcatch. destruct (is_deleted d (su_id u)) eqn:Ed; cbn [fst snd].
  { split; [|done]. apply (follows_heard _ _ u); [done|]. intros sl Hsl. unfold is_deleted in Ed.
    destruct (d_series d !! su_id u) as [[|]|] eqn:Es; [done| |done].
    destruct (x_deleted _ _ _ _ _ _ _ _ _ _ (f_index F) _ Es) as [_ Hn]. congruence. }
  destruct (seen set (su_id u) (su_kind u) (Some p)) as [e set1]. cbn [fst snd] in *.
  destruct (queued e <? su_version u) eqn:Eq; cbn [andb].
  2: { split; [|done]. apply (follows_heard _ _ u); [done|]. intros sl Hsl Hsel Hv.
       destruct (f_live F1 _ sl Hsl Hsel) as [|[_ Hm]]; [set_solver|done|].
       specialize (Hm e Hid). lia. }
  destruct (sel p) eqn:Esel; cbn [andb].
  2: { split; [|done]. apply (follows_heard _ _ u); [done|]. intros sl Hsl Hsel _.
       rewrite (Hpath sl Hsl) in Hsel. congruence. }
  destruct (holds_another d p (su_id u)) eqn:Eh; cbn [negb].
  { split; [|done]. apply (follows_heard _ _ u); [done|]. intros sl Hsl _ _. exfalso.
    unfold holds_another in Eh. destruct (d_paths d !! p) as [other|] eqn:Eo; [|done].
    assert (Hne : other <> su_id u) by lia.
    destruct (x_indexed _ _ _ _ _ _ _ _ _ _ (f_index F) _ _ Eo) as (Hbo & _ & _).
    destruct (slots t !! other) as [so|] eqn:Eso.
    - assert (Hpo : s_path so = p) by (apply (c_born _ _ _ _ _ Hc) in Eso; congruence).
      pose proof (c_table _ _ _ _ _ Hc) as Ht.
      assert (ids t !! p = Some other) by (apply (t_ids _ _ Ht); by exists so).
      assert (ids t !! p = Some (su_id u)) by (apply (t_ids _ _ Ht); exists sl; eauto). congruence.
    - destruct (f_gone F p other Eo Eso) as [b [[=]|Hb']%elem_of_cons].
      apply (c_order _ _ _ _ _ Hc [] u Q sl other); [done|done|by rewrite (Hpath sl Hsl)|done|by exists b]. }
  assert (He : entry_ok t (Changed u :: Q) born s).
  { split; cbn [s ss_id ss_path ss_latest ss_version]; [done|done| | |].
    - intros [_ Hh]. apply Hh. exists (Changed u). split; [by left|done].
    - intros Hn. destruct (c_dead _ _ _ _ _ Hc [] u Q eq_refl Hn) as [b Hb']. exists b. by right.
    - intros sl Hsl. destruct (Hl sl Hsl) as [Hle Heq].
      destruct (decide (su_version u = version sl)) as [E|]; [left; auto|]. right. split; [lia|].
      destruct (f_live F _ sl Hsl) as [[(e' & He' & Hq') _]|[Hn _]];
        [by rewrite (Hpath sl Hsl)|set_solver| |done].
      destruct Hold as [Ho|[Ho _]]; [|congruence]. assert (e' = e) as -> by congruence. lia. }
  destruct (follows_catch [] t (Changed u :: Q) born set d q cl s) as (F2 & H1 & H2 & H3 & H4 & _ & _ & Hm).
  { done. }
  { split; try apply F. intros id sl Hsl Hsel _. apply (f_live F); [done|done|set_solver]. }
  { done. }
  { cbn. unfold is_deleted in Ed. by destruct (d_series d !! su_id u) as [[|]|]. }
  { cbn. intros other Ho Hne. unfold holds_another in Eh. rewrite Ho in Eh. lia. }
  split; [|done]. apply (follows_heard _ _ u); [done|]. intros sl Hsl Hsel Hv.
  destruct (f_live F2 _ sl Hsl Hsel) as [|[_ Hlt]]; [set_solver|done|].
  destruct (Hm Esel) as (e' & He' & Hq'). specialize (Hlt e' He'). cbn in Hq'. lia.
Qed.

(** [resync_all]: entries no other series in the way of which is among them. *)
Definition clear_of (t : SeriesTable) (born : gmap Z Path) (d : Delivered) (l : list SeriesSnapshot)
  : Prop :=
  forall s, s ∈ l -> d_series d !! ss_id s <> Some None /\
    forall other, d_paths d !! ss_path s = Some other -> other <> ss_id s ->
      gone t born other /\ other ∉ ss_id <$> l.

Lemma follows_catch_all l t Q born set d q cl :
  selects_list set -> follows (ss_id <$> l) t Q born (matched set) d q cl ->
  (forall s s', s ∈ l -> s' ∈ l -> ss_path s = ss_path s' -> ss_id s = ss_id s') ->
  (forall s, s ∈ l -> entry_ok t Q born s) -> clear_of t born d l ->
  let r := resync_all encode_delete clock json_of set d q l in
  follows [] t Q born (matched r.1.1) r.1.2 r.2 cl /\
  selectors r.1.1 = selectors set /\ expiring r.1.2 = expiring d /\ horizon r.1.2 = horizon d.
Proof.
  revert set d q. induction l as [|s l IH]; intros set d q Hset F Hp He Hcl; cbn [resync_all].
  { done. }
  destruct (Hcl s ltac:(by left)) as [Hnd Hoth].
  destruct (follows_catch (ss_id <$> l) t Q born set d q cl s) as (F1 & H1 & _ & H3 & H4 & H5 & H6 & _);
    [done|done|by apply He; left|done|by intros other Ho Hne; apply Hoth|].
  destruct (resync_one _ _ _ _ _ _ _) as [[set1 d1] q1]. cbn [fst snd] in *.
  destruct (IH set1 d1 q1) as (F2 & G1 & G3 & G4).
  - unfold selects_list. congruence.
  - done.
  - intros x y Hx Hy. apply Hp; by right.
  - intros x Hx. apply He. by right.
  - intros x Hx. destruct (Hcl x ltac:(by right)) as [Hxd Hxo]. split.
    + intros [Hd|[Hd Hne]]%H5; [done|]. destruct (Hoth _ Hd Hne) as [_ Hni]. apply Hni.
      apply list_elem_of_fmap_2. by right.
    + intros other [Ho|[Hpx ->]]%H6 Hne.
      * destruct (Hxo other Ho Hne) as [Hg Hni]. split; [done|]. cbn in Hni. set_solver.
      * destruct Hne. apply Hp; [by left|by right|done].
  - split_and!; [done|congruence..].
Qed.

(** [sweep] deletes what the snapshot lacks. *)
Lemma sweep_spec born g qt m d q cl snap :
  index_ok born g qt m d q cl ->
  (forall p id, d_paths d !! p = Some id -> id ∉ ss_id <$> snap -> g id) ->
  let r := sweep encode_delete clock d snap q in
  index_ok born g qt m r.1 r.2 cl /\
  (forall p id, d_paths r.1 !! p = Some id <-> d_paths d !! p = Some id /\ id ∈ ss_id <$> snap) /\
  (forall id, d_series r.1 !! id = Some None -> d_series d !! id = Some None \/ id ∉ ss_id <$> snap) /\
  expiring r.1 = expiring d /\ horizon r.1 = horizon d /\
  (forall p id, d_paths d !! p = Some id -> id ∈ ss_id <$> snap -> final cl r.2 !! p = final cl q !! p).
Proof.
  intros Hok Hg. unfold sweep. destruct (decide (d_paths d = ∅)) as [E|_]; cbn [fst snd].
  { split_and!; [done| |by left|done..]. intros p id. rewrite E, lookup_empty. naive_solver. }
  set (l := merge_sort _ _).
  assert (Hl : forall id, id ∈ l <-> exists p, d_series d !! id = Some (Some p) /\ id ∉ ss_id <$> snap).
  { intros id. unfold l. rewrite merge_sort_Permutation, list_elem_of_fmap. unfold live_ids.
    split.
    - intros ([i o] & -> & [[[p Hp] Hn] Hin%elem_of_map_to_list]%list_elem_of_filter). cbn in *. subst o.
      exists p. split; [done|]. by rewrite elem_of_list_to_set in Hn.
    - intros (p & Hp & Hn). exists (id, Some p). split; [done|]. apply list_elem_of_filter. cbn.
      rewrite elem_of_list_to_set, elem_of_map_to_list. split_and!; [by eexists|done|done]. }
  destruct (queue_deletes_ok path_of delete_of encode_delete sel delete_reads delete_only _ _ _ _ clock l
    _ _ _ Hok) as (Hok' & Hp' & Hs' & Hex & Hho & Hf').
  { intros id (p & Hp & Hn)%Hl. apply (x_index _ _ _ _ _ _ _ _ _ _ Hok) in Hp. by eapply Hg. }
  assert (Hin : forall p id, d_paths d !! p = Some id -> id ∉ l <-> id ∈ ss_id <$> snap).
  { intros p id Hp. rewrite Hl. split.
    - intros Hn. destruct (decide (id ∈ ss_id <$> snap)) as [|Hni]; [done|]. destruct Hn.
      exists p. split; [by apply (x_index _ _ _ _ _ _ _ _ _ _ Hok)|done].
    - intros Hi (p' & _ & Hni). done. }
  split_and!; [done| | |done|done|].
  - intros p id. rewrite Hp'. split; intros [H1 H2]; (split; [done|]); by apply (Hin p).
  - intros id [|[(_ & _ & Hn)%Hl _]]%Hs'; [by left|by right].
  - intros p id Hp Hi. apply Hf'. intros id' Hp2. assert (id' = id) as -> by congruence.
    by apply (Hin p).
Qed.

Lemma prune_lookup set snap id :
  matched (prune set snap) !! id = if decide (id ∈ ss_id <$> snap) then matched set !! id else None.
Proof.
  unfold prune, live_ids. cbn. apply option_eq. intros e. rewrite map_lookup_filter_Some.
  cbn. rewrite elem_of_list_to_set. case_decide; naive_solver.
Qed.

Lemma prune_index born g qt set d q cl snap :
  index_ok born g qt (matched set) d q cl ->
  (forall p id, d_paths d !! p = Some id -> id ∈ ss_id <$> snap) ->
  index_ok born g qt (matched (prune set snap)) d q cl.
Proof.
  intros Hok Hin. apply (index_matched path_of delete_of sel Hok).
  - intros p id Hp. rewrite prune_lookup, decide_True by eauto.
    by apply (x_indexed _ _ _ _ _ _ _ _ _ _ Hok p).
  - intros id e. rewrite prune_lookup. case_decide; [|done]. apply (x_matched _ _ _ _ _ _ _ _ _ _ Hok).
Qed.

(** Pruning by a snapshot of the table as it is. *)
Lemma follows_sweep t Q born set d q cl snap :
  follows [] t Q born (matched set) d q cl ->
  (forall id, id ∈ ss_id <$> snap <-> is_Some (slots t !! id)) ->
  let r := sweep encode_delete clock d snap q in
  follows [] t Q born (matched (prune set snap)) r.1 r.2 cl /\
  expiring r.1 = expiring d /\ horizon r.1 = horizon d.
Proof.
  intros F Hdom.
  destruct (sweep_spec _ _ _ _ _ _ _ snap (f_index F)) as (Hok & Hp & _ & Hex & Hho & Hf).
  { intros p id Hp Hn. destruct (x_indexed _ _ _ _ _ _ _ _ _ _ (f_index F) _ _ Hp) as (Hb & _).
    split; [by eexists|]. rewrite Hdom in Hn. by apply eq_None_not_Some. }
  split; [|done]. split; [apply F| | |].
  - apply prune_index; [done|]. intros p id. rewrite Hp. by intros [_ ?].
  - intros p id [Hpi _]%Hp. by apply (f_gone F p).
  - intros id s Hs Hsel Htodo. assert (Hin : id ∈ ss_id <$> snap) by (apply Hdom; by eexists).
    unfold up_to_date. rewrite prune_lookup, decide_True by done.
    destruct (f_live F id s Hs Hsel Htodo) as [(Hm & Hd & Hfi)|Hn]; [left|by right].
    split_and!; [done|by apply Hp|]. by rewrite (Hf _ id).
Qed.

(** ** Series queued from a snapshot *)

Lemma sound_entry t Q born0 born snap s :
  sound t Q born0 born snap -> s ∈ snap -> entry_ok t Q born s.
Proof.
  intros S Hs. destruct (so_entry _ _ _ _ _ _ S s Hs) as (_ & Hb & Hp). split; [done|done| | |].
  - intros [[_ Hn] Hh]. apply Hh, removed_heard. by apply (so_left _ _ _ _ _ _ S).
  - by apply (so_left _ _ _ _ _ _ S).
  - intros sl. by apply (so_live _ _ _ _ _ _ S s sl).
Qed.

(** All series of a snapshot, when the index has no others. *)
Lemma follows_snapshot t Q born0 born snap set d q cl :
  selects_list set -> channel t Q born -> sound t Q born0 born snap ->
  index_ok born (gone t born) (quiet t Q born) (matched set) d q cl ->
  (forall p id, d_paths d !! p = Some id -> id ∈ ss_id <$> snap) ->
  (forall id, d_series d !! id = Some None -> id ∉ ss_id <$> snap) ->
  (forall id, is_Some (matched set !! id) -> id ∈ ss_id <$> snap) ->
  let r := resync_all encode_delete clock json_of set d q snap in
  follows [] t Q born (matched r.1.1) r.1.2 r.2 cl /\
  selectors r.1.1 = selectors set /\ expiring r.1.2 = expiring d /\ horizon r.1.2 = horizon d.
Proof.
  intros Hset Hc S Hok Hin Hdel Hm. apply follows_catch_all; [done| |apply S| |].
  - split; [done|done| |].
    + intros p id (s & -> & Hs)%Hin%list_elem_of_fmap Hn. by apply (so_left _ _ _ _ _ _ S).
    + intros id s Hs _ Hid. right. destruct (so_absent _ _ _ _ _ _ S id) as [Hn _]; [by eexists|done|].
      split; [done|]. intros e He. destruct Hid. apply Hm. by eexists.
  - intros s Hs. by eapply sound_entry.
  - intros s Hs. split; [intros Hd; by apply (Hdel _ Hd), list_elem_of_fmap_2|].
    intros other Ho Hne. destruct Hne.
    destruct (proj1 (list_elem_of_fmap _ _ _) (Hin _ _ Ho)) as (s' & -> & Hs').
    destruct (x_indexed _ _ _ _ _ _ _ _ _ _ Hok _ _ Ho) as (Hb & _ & _).
    destruct (so_entry _ _ _ _ _ _ S s' Hs') as (_ & Hb' & _).
    apply (so_path _ _ _ _ _ _ S); [done|done|congruence].
Qed.

Lemma forget_after_spec t Q born m d q cl :
  index_ok born (gone t born) (quiet t Q born) m d q cl ->
  let d' := forget_after d (length Q) in
  index_ok born (gone t born) (quiet t Q born) m d' q cl /\ horizon_ok t Q born d' /\
  d_paths d' = d_paths d /\ forall id, d_series d' !! id = Some None -> d_series d !! id = Some None.
Proof.
  intros Hok. unfold forget_after. set (d1 := mk_delivered _ _ _ _ (length Q) _).
  assert (Hex : forall id, id ∈ expiring d1 -> gone t born id).
  { intros id ([i o] & -> & [Ho Hin%elem_of_map_to_list]%list_elem_of_filter)%list_elem_of_fmap.
    cbn in *. subst o. by apply (x_deleted _ _ _ _ _ _ _ _ _ _ Hok). }
  assert (Hok1 : index_ok born (gone t born) (quiet t Q born) m d1 q cl).
  { destruct Hok. by split. }
  destruct Q as [|e Q]; cbn [length].
  - split_and!; [|by intros id []%elem_of_nil|done|].
    + apply (forget_expiring_ok path_of delete_of sel Hok1). intros id Hid _. split; [by apply Hex|].
      by intros (x & []%elem_of_nil & _).
    + intros id [? _]%map_lookup_filter_Some. done.
  - split_and!; [done| |done|done]. intros id Hid. split; [by apply Hex|].
    replace (horizon d1) with (length (e :: Q)) by done. rewrite drop_all.
    by intros (x & []%elem_of_nil & _).
Qed.

(** [resync] of a producer whose messages were lost: [Q] are those since it
    subscribed again. *)
Lemma follows_resync t0 Q0 born0 bornS t Q born set d q cl snap :
  selects_list set -> follows [] t0 Q0 born0 (matched set) d q cl ->
  advances t0 born0 t Q born -> channel t Q born -> born0 ⊆ bornS -> sound t Q bornS born snap ->
  (forall s, s ∈ snap -> ~ gone t0 born0 (ss_id s)) ->
  let sw := sweep encode_delete clock d snap q in
  let r := resync_all encode_delete clock json_of (prune set snap) (forget_after sw.1 (length Q)) sw.2 snap in
  follows [] t Q born (matched r.1.1) r.1.2 r.2 cl /\
  selectors r.1.1 = selectors set /\ horizon_ok t Q born r.1.2.
Proof.
  intros Hset F A Hc HbS S Hlive sw.
  assert (Hok : index_ok born (gone t born) (quiet t Q born) (matched set) d q cl).
  { apply (index_mono path_of delete_of sel (f_index F)); [apply A| |].
    - intros id Hg. by destruct (gone_advances _ _ _ _ _ _ A Hg).
    - intros id [Hg _]. by destruct (gone_advances _ _ _ _ _ _ A Hg). }
  destruct (sweep_spec _ _ _ _ _ _ _ snap Hok) as (Hok1 & Hp1 & Hd1 & _).
  { intros p id Hp Hn. destruct (x_indexed _ _ _ _ _ _ _ _ _ _ (f_index F) _ _ Hp) as (Hb & _).
    split; [exists p; eapply lookup_weaken; [done|apply A]|].
    destruct (slots t !! id) eqn:E; [|done].
    destruct (so_absent _ _ _ _ _ _ S id) as [_ Hno]; [by rewrite E|done|].
    rewrite (lookup_weaken _ _ _ _ Hb HbS) in Hno. done. }
  assert (Hok2 := prune_index _ _ _ set _ _ _ snap Hok1 ltac:(intros p id; rewrite Hp1; by intros [_ ?])).
  destruct (forget_after_spec _ _ _ _ _ _ _ Hok2) as (Hok3 & Hh & Hp3 & Hd3). fold sw in Hh, Hp3, Hd3, Hok3.
  destruct (follows_snapshot t Q bornS born snap (prune set snap) (forget_after sw.1 (length Q)) sw.2 cl)
    as (F' & Hs' & He' & Hh'); try done.
  - intros p id. rewrite Hp3. by intros [_ ?]%Hp1.
  - intros id [Hd|]%Hd3%Hd1; [|done]. intros (s & -> & Hs)%list_elem_of_fmap.
    apply (Hlive s Hs), (x_deleted _ _ _ _ _ _ _ _ _ _ (f_index F) _ Hd).
  - intros id. rewrite prune_lookup. case_decide; [done|]. by intros [].
  - split_and!; [done|done|]. intros id. rewrite He', Hh'. apply Hh.
Qed.

(** Some series of a snapshot of the table as it is. *)
Lemma follows_some t Q born born0 snap l set d q cl :
  selects_list set -> follows [] t Q born (matched set) d q cl ->
  sound t Q born0 born snap -> (forall id, id ∈ ss_id <$> snap <-> is_Some (slots t !! id)) ->
  (forall s, s ∈ l -> s ∈ snap) ->
  let r := resync_all encode_delete clock json_of set d q l in
  follows [] t Q born (matched r.1.1) r.1.2 r.2 cl /\
  selectors r.1.1 = selectors set /\ expiring r.1.2 = expiring d /\ horizon r.1.2 = horizon d.
Proof.
  intros Hset F S Hdom Hsub. pose proof (f_channel F) as Hc.
  assert (Hlive : forall id, id ∈ ss_id <$> l -> is_Some (slots t !! id)).
  { intros id (s & -> & Hs)%list_elem_of_fmap. apply Hdom, list_elem_of_fmap_2. auto. }
  apply follows_catch_all; [done| | | |].
  - split; try apply F. intros id s Hs Hsel _. apply (f_live F); [done|done|set_solver].
  - intros s s' Hs Hs'. apply (so_path _ _ _ _ _ _ S); auto.
  - intros s Hs. eapply sound_entry; eauto.
  - intros s Hs. destruct (Hlive (ss_id s)) as [sl Hsl]; [by apply list_elem_of_fmap_2|]. split.
    + intros Hd. destruct (x_deleted _ _ _ _ _ _ _ _ _ _ (f_index F) _ Hd) as [_ Hn]. congruence.
    + intros other Ho Hne.
      destruct (x_indexed _ _ _ _ _ _ _ _ _ _ (f_index F) _ _ Ho) as (Hb & _ & _).
      assert (Hn : slots t !! other = None).
      { destruct (slots t !! other) as [so|] eqn:E; [|done]. destruct Hne.
        pose proof (c_table _ _ _ _ _ Hc) as Ht.
        assert (Hpo : s_path so = ss_path s) by (apply (c_born _ _ _ _ _ Hc) in E; congruence).
        assert (Hps : s_path sl = ss_path s).
        { apply (c_born _ _ _ _ _ Hc) in Hsl.
          destruct (so_entry _ _ _ _ _ _ S s (Hsub s Hs)) as (_ & Hbs & _). congruence. }
        assert (H1 : ids t !! ss_path s = Some other) by (apply (t_ids _ _ Ht); by exists so).
        assert (H2 : ids t !! ss_path s = Some (ss_id s)) by (apply (t_ids _ _ Ht); by exists sl).
        congruence. }
      split; [split; [by eexists|done]|]. intros Hi. destruct (Hlive other Hi). congruence.
Qed.

End Catch.

End Follows.
