(* ===== verification/GnmiRun.v ===== *)
(** * GnmiRun: subscriptions run against a moving target

    [start] and the turns of [Producer::run] for a list of ON_CHANGE
    subscriptions, interleaved with the calls of the sinks. The initial sync and
    the heartbeats queue series as a resync does, so [GnmiSync.follows] holds
    from the subscription on, whatever the interleaving. *)

From Stdlib Require Import ZArith Lia.
From stdpp Require Import prelude strings list gmap sorting.
From S2P Require Import Prelude Metric GnmiPath GnmiMatcher GnmiNotification GnmiTarget GnmiService GnmiReplica GnmiChannel GnmiSync.

(** ** The plan of a list of ON_CHANGE subscriptions *)

(** A STREAM list of ON_CHANGE subscriptions with the values first, not in
    JSON_IETF. *)
Definition on_change_only (l : SubscriptionList) : bool :=
  (sl_mode l =? 0) && forallb (fun s => sub_mode s =? 1) (sl_subscription l) &&
  negb (updates_only l) && negb (sl_encoding l =? 4).

Lemma collect_spec {A B E : Type} (f : A -> result B E) l bs :
  collect f l = Ok bs -> Forall2 (fun a b => f a = Ok b) l bs.
Proof.
  revert bs. induction l as [|a l IH]; cbn [collect]; intros bs; [by intros [= <-]|].
  destruct (f a) as [b|] eqn:E1; [|done]. destruct (collect f l) as [bs'|]; [|done].
  intros [= <-]. constructor; [done|]. by apply IH.
Qed.

Lemma add_spec {K : Type} `{EqDecision K} (groups : list (K * list SubscriptionMsg)) key s g :
  g ∈ add groups key s -> forall x, x ∈ g.2 -> x = s \/ exists g', g' ∈ groups /\ x ∈ g'.2.
Proof.
  induction groups as [|[k subs] groups IH]; cbn [add].
  - intros ->%list_elem_of_singleton x Hx. cbn in Hx. left. set_solver.
  - case_decide.
    + intros [->|Hg]%elem_of_cons x Hx; cbn in *.
      * apply elem_of_app in Hx as [Hx|Hx]; [right|left; set_solver]. exists (k, subs). set_solver.
      * right. exists g. set_solver.
    + intros [->|Hg]%elem_of_cons x Hx; [right; exists (k, subs); set_solver|].
      destruct (IH Hg x Hx) as [|(g' & ? & ?)]; [by left|right; exists g'; set_solver].
Qed.

Lemma plan_fold floor subs :
  Forall (fun s => sub_mode s = 1) subs ->
  exists hbs, fold_left (plan_one floor) subs ([], [], [])
    = ([], hbs, match subs with [] => [] | _ => [(Any, subs)] end) /\
  forall g, g ∈ hbs -> forall s, s ∈ g.2 -> s ∈ subs.
Proof.
  induction subs as [|s subs IH] using rev_ind; intros Hall.
  { exists []. split; [done|]. set_solver. }
  apply Forall_app in Hall as [Hall [Hs _]%Forall_cons].
  destruct (IH Hall) as (hbs & Hfold & Hin). rewrite fold_left_app, Hfold. cbn [fold_left].
  unfold plan_one. rewrite Hs. cbn [Z.eqb Pos.eqb]. unfold plan_changes. eexists. split.
  - f_equal. destruct subs as [|s0 subs]; cbn [add app]; [done|]. by rewrite decide_True.
  - intros g Hg x Hx. rewrite elem_of_app. destruct (0 <? heartbeat_interval s).
    + destruct (add_spec _ _ _ _ Hg x Hx) as [->|(g' & Hg' & Hx')]; [set_solver|]. left. by apply (Hin g').
    + left. by apply (Hin g).
Qed.

Lemma matcher_new_paths l m :
  matcher_new l = Ok m ->
  sl_subscription l <> [] /\ (sl_encoding l <> 4 -> m_encoding m <> EJsonIetf) /\
  paths m = (fun s => let p := default root_path (sub_path s) in
      let prefix := default root_path (sl_prefix l) in
      mk_path (if String.eqb (origin p) "" then origin prefix else origin p)
        (elem prefix ++ elem p) (target prefix)) <$> sl_subscription l.
Proof.
  unfold matcher_new. destruct (served_encoding (sl_encoding l)) as [enc|] eqn:Ee; [|done].
  destruct (list_mode_try_from (sl_mode l)) as [mode|]; [|done]. cbn [ok_or].
  destruct (sl_subscription l) as [|s subs] eqn:Es; [done|].
  destruct (match mode with MStream => check_modes (s :: subs) | _ => Ok tt end); [|done].
  unfold matcher_join. destruct (join_paths _ _) as [joined|] eqn:Ej; [|done]. intros [= <-].
  split_and!; [done| |].
  - cbn. intros H4 ->. revert Ee. unfold served_encoding, encoding_try_from.
    repeat (case_match; try done); intros; lia.
  - cbn [paths]. rewrite (join_paths_spec _ _ _ Ej), <- list_fmap_compose. done.
Qed.

(** Fewer subscriptions match less. *)
Lemma matcher_fewer prefix subs subs' mode enc uo m m' p :
  matcher_new (mk_list prefix subs mode enc uo) = Ok m ->
  matcher_new (mk_list prefix subs' mode enc uo) = Ok m' ->
  (forall s, s ∈ subs' -> s ∈ subs) -> matcher_matches m' p = true -> matcher_matches m p = true.
Proof.
  intros (_ & _ & Hp)%matcher_new_paths (_ & _ & Hp')%matcher_new_paths Hsub.
  cbn [sl_subscription sl_prefix] in *. unfold matcher_matches, matches.
  destruct (matches_any_spec p (paths m)) as (b & -> & Hb).
  destruct (matches_any_spec p (paths m')) as (b' & -> & Hb'). cbn [default id].
  rewrite Hb, Hb', Hp, Hp'. intros (x & (s & -> & Hs)%list_elem_of_fmap & Hu).
  eexists. split; [apply list_elem_of_fmap_2, (Hsub s Hs)|done].
Qed.

(** A producer of such a list. *)
Record tracks (mt : SubscriptionMatcher) (p : Producer) (set : OnChangeSet) : Prop := {
  k_matcher : p_matcher p = mt;
  k_samples : p_samples p = [];
  k_polls : polls p = false;
  k_set : p_on_change p = Some set;
  k_selects : selects_list mt set;
  k_heartbeats : Forall (fun g => forall path k, selector_selects (g_selector g) path k = true ->
    matcher_matches mt path = true) (p_heartbeats p);
}.

Lemma start_tracks settings l now p :
  on_change_only l = true -> start settings l now = Ok p ->
  p_updates_only p = false /\ delivered p = new_delivered true false /\
  exists set, tracks (p_matcher p) p set /\ matched set = ∅.
Proof.
  unfold on_change_only, start. intros Hl.
  apply andb_true_iff in Hl as [Hl Henc%negb_true_iff].
  apply andb_true_iff in Hl as [Hl Huo%negb_true_iff].
  apply andb_true_iff in Hl as [Hmode%Z.eqb_eq Hall].
  destruct (matcher_new l) as [m|] eqn:Em; [|done].
  destruct (matcher_new_paths l m Em) as (Hne & Hje & _). rewrite Hmode. cbn [Z.eqb orb].
  unfold plan_groups.
  destruct (plan_fold (sample_floor settings) (sl_subscription l)) as (hbs & -> & Hhb).
  { apply Forall_forall. intros s Hs. rewrite forallb_forall in Hall.
    apply Z.eqb_eq, Hall. by apply list_elem_of_In. }
  cbn [collect]. destruct (collect (plan_group l now) hbs) as [hs|] eqn:Eh; [|done].
  assert (Eon : collect (fun c => plan_selector l c.1 c.2)
     match sl_subscription l with [] => [] | _ => [(Any, sl_subscription l)] end
     = Ok [mk_selector m Any]).
  { destruct l as [pre subs md en uo]. cbn in *. destruct subs; [done|]. cbn [collect fst snd].
    unfold plan_selector. cbn. by rewrite Em. }
  rewrite Eon. intros [= <-]. cbn [p_updates_only delivered p_matcher on_change heartbeats samples].
  split_and!; [done| |].
  { f_equal. specialize (Hje ltac:(lia)). by destruct (m_encoding m). }
  eexists. split; [split; try done|done]. cbn.
  apply Forall_forall. intros g Hg path k. apply collect_spec in Eh.
  destruct (list_elem_of_lookup_1 _ _ Hg) as [i Hi].
  destruct (Forall2_lookup_r _ _ _ _ _ Eh Hi) as ([[[per kinds] sup] subs'] & Hi' & Hgr).
  cbn in Hgr. unfold plan_selector in Hgr.
  destruct (matcher_new (mk_list _ subs' _ _ _)) as [m'|] eqn:Em'; [|done].
  injection Hgr as <-. cbn [g_selector]. unfold selector_selects. cbn [sel_matcher].
  intros [_ Hm]%andb_true_iff. destruct l as [pre subs md en uo]. cbn in *.
  eapply (matcher_fewer _ subs subs'); try done. intros s Hs.
  apply (Hhb _ (list_elem_of_lookup_2 _ _ _ Hi') s Hs).
Qed.

(** ** The series that are due *)

Lemma due_series_spec (ok : SeriesSnapshot -> Prop) g record snap send :
  (forall s, selector_selects g (ss_path s) (ss_kind s) = true -> ok s) ->
  Forall2 (fun s sd => is_Some sd -> ok s) snap send ->
  Forall2 (fun s sd => is_Some sd -> ok s) snap (due_series g record snap send).1.
Proof.
  intros Hg Hf. revert record. induction Hf as [|s sd snap send Hs Hf IH]; intros record; [done|].
  cbn [due_series]. destruct (selector_selects g (ss_path s) (ss_kind s)) eqn:E; cbn [negb].
  - destruct record as [m|]; [case_decide|].
    all: match goal with |- context [due_series _ ?r _ _] => specialize (IH r) end.
    all: destruct (due_series _ _ _ _) as [send' r']; constructor; auto.
  - specialize (IH record). destruct (due_series _ _ _ _) as [send' r']. by constructor.
Qed.

Lemma due_groups_spec (ok : SeriesSnapshot -> Prop) (P : Group -> Prop) now snap groups send :
  (forall g s, P g -> selector_selects (g_selector g) (ss_path s) (ss_kind s) = true -> ok s) ->
  (forall g g', P g -> g_selector g' = g_selector g -> P g') ->
  Forall P groups -> Forall2 (fun s sd => is_Some sd -> ok s) snap send ->
  let r := due_groups now snap groups send in
  Forall2 (fun s sd => is_Some sd -> ok s) snap r.1.1 /\ Forall P r.2.
Proof.
  intros Hok HP Hgs. revert send. induction Hgs as [|g groups Hg Hgs IH]; intros send Hs; [done|].
  cbn [due_groups]. destruct (next g <=? now).
  - unfold due_group. pose proof (due_series_spec ok (g_selector g) (sent g) snap send (fun s => Hok g s Hg) Hs) as H1.
    destruct (due_series _ _ _ _) as [send1 record]. cbn [fst] in H1. specialize (IH send1 H1).
    destruct record; destruct (due_groups _ _ _ _) as [[send2 removed2] groups2]; cbn [fst snd] in *;
      (split; [apply IH|constructor; [by eapply HP|apply IH]]).
  - specialize (IH send Hs). destruct (due_groups _ _ _ _) as [[send2 removed2] groups2].
    cbn [fst snd] in *. split; [apply IH|constructor; [done|apply IH]].
Qed.

Lemma due_spec (ok : SeriesSnapshot -> Prop) (P : Group -> Prop) now groups snap :
  (forall g s, P g -> selector_selects (g_selector g) (ss_path s) (ss_kind s) = true -> ok s) ->
  (forall g g', P g -> g_selector g' = g_selector g -> P g') -> Forall P groups ->
  let r := due now groups snap in
  (forall s, s ∈ fst <$> due_send r.1 -> s ∈ snap /\ ok s) /\ Forall P r.2.
Proof.
  intros Hok HP Hgs. unfold due.
  destruct (due_groups_spec ok P now snap groups ((fun _ => None) <$> snap) Hok HP Hgs) as [H1 H2].
  { clear. induction snap; constructor; [by intros []|done]. }
  destruct (due_groups _ _ _ _) as [[send removed] groups']. cbn [fst snd due_send] in *.
  split; [|done]. intros s ([s' b] & -> & ([s1 sd] & Hin & Hs')%list_elem_of_omap)%list_elem_of_fmap.
  cbn in Hs'. destruct sd as [b'|]; [|done]. injection Hs' as -> ->. cbn.
  apply list_elem_of_lookup in Hin as [i (x & y & Hxy & Hx & Hy)%lookup_zip_with_Some].
  injection Hxy as <- <-. split; [by eapply list_elem_of_lookup_2|].
  apply (Forall2_lookup_lr _ _ _ _ _ _ H1 Hx Hy). by eexists.
Qed.

(** ** Syncs and heartbeats queue as a resync does *)

(** The producer with its set and index replaced. *)
Definition put (p : Producer) (set : OnChangeSet) (d : Delivered) : Producer :=
  set_delivered (set_on_change p (Some set)) d.

Section Catch.
Context (encode_delete : Path -> Z -> list Z) (clock : Z -> Z).
Context (json_of : Z -> Z -> list Z -> option (list Z)) (mt : SubscriptionMatcher).

Let resync_all := resync_all encode_delete clock json_of.
Let resync_one := resync_one encode_delete clock json_of.

Lemma put_same p set : p_on_change p = Some set -> put p set (delivered p) = p.
Proof. destruct p. cbn. by intros ->. Qed.

Lemma tracks_put p set set' d :
  tracks mt p set -> selectors set' = selectors set -> tracks mt (put p set' d) set'.
Proof.
  intros K Hs. destruct K as [? ? ? ? Hsel ?]. split; try done. unfold selects_list in *. congruence.
Qed.

(** The match cache says of these series what the list matches. *)
Definition coherent (set : OnChangeSet) (l : list SeriesSnapshot) : Prop :=
  forall s e, s ∈ l -> matched set !! ss_id s = Some e ->
    seen_path e = if matcher_matches mt (ss_path s) then Some (ss_path s) else None.

Lemma seen_coherent set s :
  selects_list mt set -> coherent set [s] ->
  let r := seen set (ss_id s) (ss_kind s) (Some (ss_path s)) in
  (seen_path r.1 = if matcher_matches mt (ss_path s) then Some (ss_path s) else None) /\
  selectors r.2 = selectors set /\ matched r.2 !! ss_id s = Some r.1 /\
  forall i, i <> ss_id s -> matched r.2 !! i = matched set !! i.
Proof.
  intros Hset Hc. unfold seen. destruct (matched set !! ss_id s) as [e|] eqn:E; cbn [fst snd].
  - split_and!; try done. apply (Hc s e); [by left|done].
  - split_and!; [|done|apply lookup_insert_eq|intros i Hi; by apply lookup_insert_ne].
    rewrite Hset. cbn. unfold selector_selects. cbn. rewrite orb_false_r.
    by destruct (matcher_matches mt (ss_path s)).
Qed.

Lemma resync_one_coherent set d q s l :
  selects_list mt set -> coherent set (s :: l) ->
  (forall s', s' ∈ l -> ss_id s' = ss_id s -> ss_path s' = ss_path s) ->
  let r := resync_one set d q s in selectors r.1.1 = selectors set /\ coherent r.1.1 l.
Proof.
  intros Hset Hc Hsame. unfold resync_one, GnmiService.resync_one.
  destruct (seen_coherent set s) as (Hp & Hs & Hid & Hoth); [done| |].
  { intros s' e ->%list_elem_of_singleton. apply Hc. by left. }
  destruct (seen set (ss_id s) (ss_kind s) (Some (ss_path s))) as [e set1]. cbn [fst snd] in *.
  assert (Hc1 : forall m : gmap Z Seen, (forall i, i <> ss_id s -> m !! i = matched set1 !! i) ->
     (forall e', m !! ss_id s = Some e' -> seen_path e' = seen_path e) ->
     forall s' e', s' ∈ l -> m !! ss_id s' = Some e' ->
       seen_path e' = if matcher_matches mt (ss_path s') then Some (ss_path s') else None).
  { intros m Hm1 Hm2 s' e' Hin. destruct (decide (ss_id s' = ss_id s)) as [E|Hne].
    - rewrite E, (Hsame s' Hin E), <- Hp. apply Hm2.
    - rewrite Hm1, Hoth by done. apply Hc. by right. }
  destruct (seen_path e) eqn:Ep; [destruct (queue_value _ _ _ _ _ _ _) as [d' q']|]; cbn [fst snd].
  - split; [done|]. intros s' e' Hin. apply Hc1; [| |done].
    + intros i Hi. cbn. by rewrite lookup_alter_ne.
    + intros e1. cbn. rewrite lookup_alter_eq, Hid. by intros [= <-].
  - split; [done|]. intros s' e' Hin. apply Hc1; [done| |done]. congruence.
Qed.

Lemma sync_one_catch p q set s :
  tracks mt p set -> coherent set [s] ->
  sync_one encode_delete clock json_of p q s
    = let r := resync_one set (delivered p) q s in (put p r.1.1 r.1.2, r.2).
Proof.
  intros K Hc. destruct (seen_coherent set s (k_selects _ _ _ K) Hc) as (Hp & _).
  unfold sync_one, resync_one, GnmiService.resync_one.
  rewrite (k_set _ _ _ K), (k_matcher _ _ _ K).
  destruct (seen set (ss_id s) (ss_kind s) (Some (ss_path s))) as [e set1]. cbn [fst snd] in Hp.
  rewrite Hp. pose proof (k_samples _ _ _ K) as Hsm.
  destruct (matcher_matches mt (ss_path s)); cbn [set_on_change p_samples delivered].
  - rewrite Hsm. cbn [record_sent orb].
    destruct (queue_value _ _ _ _ _ _ _) as [d' q']. cbn [fst snd]. f_equal.
    destruct p; cbn in *. by subst.
  - cbn [fst snd]. by destruct p.
Qed.

Lemma heartbeat_one_catch p q set s :
  tracks mt p set -> coherent set [s] -> matcher_matches mt (ss_path s) = true ->
  heartbeat_one encode_delete clock json_of p q s
    = let r := resync_one set (delivered p) q s in (put p r.1.1 r.1.2, r.2).
Proof.
  intros K Hc Hm. destruct (seen_coherent set s (k_selects _ _ _ K) Hc) as (Hp & _).
  unfold heartbeat_one, resync_one, GnmiService.resync_one. rewrite (k_set _ _ _ K).
  destruct (seen set (ss_id s) (ss_kind s) (Some (ss_path s))) as [e set1]. cbn [fst snd] in Hp.
  rewrite Hp, Hm. cbn [set_on_change delivered].
  by destruct (queue_value _ _ _ _ _ _ _) as [d' q'].
Qed.

Lemma sync_all_catch l p q set :
  tracks mt p set -> coherent set l ->
  (forall s s', s ∈ l -> s' ∈ l -> ss_id s' = ss_id s -> ss_path s' = ss_path s) ->
  sync_all encode_delete clock json_of p q l
    = let r := resync_all set (delivered p) q l in (put p r.1.1 r.1.2, r.2).
Proof.
  revert p q set. induction l as [|s l IH]; intros p q set K Hc Hsame; cbn.
  { by rewrite put_same by apply K. }
  rewrite (sync_one_catch p q set s); [|done|intros s' e ->%list_elem_of_singleton; apply Hc; by left].
  destruct (resync_one_coherent set (delivered p) q s l) as [Hs Hc1]; [apply K|done| |].
  { intros s' Hs'. apply Hsame; [by left|by right]. }
  unfold resync_one in *. destruct (GnmiService.resync_one _ _ _ _ _ _ _) as [[set1 d1] q1].
  cbn [fst snd] in *. rewrite (IH _ _ set1); [done|by eapply tracks_put|done|].
  intros x y Hx Hy. apply Hsame; by right.
Qed.

Lemma heartbeat_all_catch l p q set :
  tracks mt p set -> coherent set l ->
  (forall s s', s ∈ l -> s' ∈ l -> ss_id s' = ss_id s -> ss_path s' = ss_path s) ->
  (forall s, s ∈ l -> matcher_matches mt (ss_path s) = true) ->
  heartbeat_all encode_delete clock json_of p q l
    = let r := resync_all set (delivered p) q l in (put p r.1.1 r.1.2, r.2).
Proof.
  revert p q set. induction l as [|s l IH]; intros p q set K Hc Hsame Hm; cbn.
  { by rewrite put_same by apply K. }
  rewrite (heartbeat_one_catch p q set s);
    [|done|intros s' e ->%list_elem_of_singleton; apply Hc; by left|by apply Hm; left].
  destruct (resync_one_coherent set (delivered p) q s l) as [Hs Hc1]; [apply K|done| |].
  { intros s' Hs'. apply Hsame; [by left|by right]. }
  unfold resync_one in *. destruct (GnmiService.resync_one _ _ _ _ _ _ _) as [[set1 d1] q1].
  cbn [fst snd] in *. rewrite (IH _ _ set1); [done|by eapply tracks_put|done| |].
  - intros x y Hx Hy. apply Hsame; by right.
  - intros x Hx. apply Hm. by right.
Qed.

End Catch.

(** ** The system *)

Record System := mk_system {
  tbl : SeriesTable; rx : list SeriesEvent; prod : Producer; pend : Pending; client : list PreEncoded }.

Section System.
Context `{HP : Prost} {HL : ProstLaws}.
Context (path_of delete_of : list Z -> option Path) (json : list Z -> option (list Z)).
Context (encode_delete : Path -> Z -> list Z).

Abbreviation emit := (emit path_of json encode_delete).
Abbreviation takes := (takes path_of json).
Abbreviation serve := (serve encode_delete path_of).

(** A call on the target by another thread. *)
Inductive target_step : System -> System -> Prop :=
| target_call t q p pd cl t' q' :
    emit (t, q) (t', q') -> target_step (mk_system t q p pd cl) (mk_system t' q' p pd cl).

(** A turn of [Producer::run] that does not end it: one that reads no table, one
    that takes a snapshot, a message read (with a snapshot, if the cache is
    pruned), and a lag, where the producer subscribes again, takes a snapshot and
    counts the messages since. *)
Inductive turn : System -> System -> Prop :=
| turn_local t q p pd cl now clock json_of step p' pd' out :
    step ∈ [Sent; PollsEnded] -> enabled now step p pd = true ->
    serve clock json_of now None 0 step p pd = Goes p' pd' out ->
    turn (mk_system t q p pd cl) (mk_system t q p' pd' (cl ++ option_list out))
| turn_snapshot t q p pd cl now clock json_of step snap t' q' p' pd' out :
    step ∈ [Sample; Heartbeat; Polled] -> enabled now step p pd = true ->
    takes (t, q) snap (t', q') ->
    serve clock json_of now (Some snap) 0 step p pd = Goes p' pd' out ->
    turn (mk_system t q p pd cl) (mk_system t' q' p' pd' (cl ++ option_list out))
| turn_change t e q p pd cl now clock json_of snap t' q' p' pd' out :
    enabled now (Change e) p pd = true -> takes (t, q) snap (t', q') ->
    serve clock json_of now (Some snap) 0 (Change e) p pd = Goes p' pd' out ->
    turn (mk_system t (e :: q) p pd cl) (mk_system t' q' p' pd' (cl ++ option_list out))
| turn_lagged t q p pd cl now clock json_of x snap y t' q' p' pd' out :
    enabled now Lagged p pd = true -> rtc emit (t, []) x -> takes x snap y -> rtc emit y (t', q') ->
    serve clock json_of now (Some snap) (length q') Lagged p pd = Goes p' pd' out ->
    turn (mk_system t q p pd cl) (mk_system t' q' p' pd' (cl ++ option_list out)).

Definition sys_step (s s' : System) : Prop := target_step s s' \/ turn s s'.

(** A subscription to a target with any history: the producer has its receiver
    before it takes the snapshot of the initial sync. *)
Inductive subscribed (l : SubscriptionList) : System -> Prop :=
| subscribed_intro settings now clock json_of p0 t0 q0 x snap t q p pd :
    rtc emit (empty_table, []) (t0, q0) -> start settings l now = Ok p0 ->
    rtc emit (t0, []) x -> takes x snap (t, q) ->
    initial_sync encode_delete clock json_of (Some snap) p0 = Some (p, pd) ->
    subscribed l (mk_system t q p pd []).

(** The values of the table's series that a list matches. *)
Definition matched_value (m : SubscriptionMatcher) (t : SeriesTable) (p : Path) : option (list Z) :=
  if matcher_matches m p then
    let! id := ids t !! p in let! s := slots t !! id in Some (latest_value (s_latest s))
  else None.

Definition system_ok (mt : SubscriptionMatcher) (s : System) : Prop :=
  exists born set, tracks mt (prod s) set /\
    follows path_of delete_of mt [] (tbl s) (rx s) born (matched set) (delivered (prod s)) (pend s) (client s) /\
    horizon_ok (tbl s) (rx s) born (delivered (prod s)).

(** Everything read, the client ends up with the table's values. *)
Lemma follows_replica mt t born m d q cl p :
  follows path_of delete_of mt [] t [] born m d q cl ->
  replica path_of delete_of (cl ++ drain q) !! p = matched_value mt t p.
Proof.
  intros F. pose proof (f_index _ _ _ _ _ _ _ _ _ _ _ F) as Hok.
  pose proof (f_channel _ _ _ _ _ _ _ _ _ _ _ F) as Hc.
  pose proof (c_table _ _ _ _ _ Hc) as Ht.
  assert (Hup : forall id s, slots t !! id = Some s -> matcher_matches mt (s_path s) = true ->
     up_to_date path_of delete_of m d q cl id s).
  { intros id s Hs Hsel. destruct (f_live _ _ _ _ _ _ _ _ _ _ _ F id s Hs Hsel) as [|[Hn _]];
      [set_solver|done|]. destruct Hn as (s0 & u & _ & []%elem_of_nil & _). }
  rewrite (drain_final _ _ _ _ _ _ _ _ _ _ Hok). unfold matched_value.
  destruct (d_paths d !! p) as [id|] eqn:Ed.
  - destruct (x_indexed _ _ _ _ _ _ _ _ _ _ Hok p id Ed) as (Hb & Hsel & _). cbn in Hsel.
    destruct (slots t !! id) as [s|] eqn:Es.
    2: { destruct (f_gone _ _ _ _ _ _ _ _ _ _ _ F p id Ed Es) as [b []%elem_of_nil]. }
    assert (Hp : s_path s = p) by (apply (c_born _ _ _ _ _ Hc) in Es; congruence). subst p.
    rewrite Hsel. assert (Hid : ids t !! s_path s = Some id) by (apply (t_ids _ _ Ht); by exists s).
    rewrite Hid. cbn. rewrite Es. by destruct (Hup id s Es Hsel) as (_ & _ & ->).
  - rewrite (x_final _ _ _ _ _ _ _ _ _ _ Hok p Ed).
    destruct (matcher_matches mt p) eqn:Em; [|done]. destruct (ids t !! p) as [id|] eqn:Ei; [|done].
    apply (t_ids _ _ Ht) in Ei as (s & Hs & <-). destruct (Hup id s Hs Em) as (_ & Hd & _). congruence.
Qed.

Section Laws.
Context (delete_reads : forall p t, delete_of (encode_delete p t) = Some p).
Context (delete_only : forall p t, path_of (encode_delete p t) = None).

Lemma target_step_ok mt s s' : system_ok mt s -> target_step s s' -> system_ok mt s'.
Proof.
  intros (born & set & K & F & H) Hst. destruct Hst as [t q p pd cl t' q' He]. cbn in *.
  destruct (emits_channel path_of delete_of json encode_delete delete_reads delete_only (t, q) (t', q') born)
    as (ev & born' & Hq & Hc & A); [apply F|by apply rtc_once|]. cbn in *. subst q'.
  exists born', set. split_and!; [done| |]; cbn.
  - by eapply follows_advances.
  - by eapply horizon_advances.
Qed.

Lemma horizon_same t Q born d d' :
  horizon_ok t Q born d -> expiring d' = expiring d -> horizon d' = horizon d -> horizon_ok t Q born d'.
Proof. intros H He Hh id. rewrite He, Hh. apply H. Qed.

Lemma follows_coherent mt t Q born set d q cl l :
  follows path_of delete_of mt [] t Q born (matched set) d q cl ->
  (forall s, s ∈ l -> born !! ss_id s = Some (ss_path s)) ->
  coherent mt set l /\
  (forall s s', s ∈ l -> s' ∈ l -> ss_id s' = ss_id s -> ss_path s' = ss_path s).
Proof.
  intros F Hb. split.
  - intros s e Hs He. destruct (x_matched _ _ _ _ _ _ _ _ _ _ (f_index _ _ _ _ _ _ _ _ _ _ _ F) _ _ He)
      as (p & Hp & ->). specialize (Hb s Hs). cbn. by simplify_eq.
  - intros s s' Hs Hs' E. pose proof (Hb s Hs). pose proof (Hb s' Hs'). congruence.
Qed.

(** The messages read one at a time. *)
Lemma change_ok mt t e q p pd cl now clock json_of snap t' q' p' pd' out :
  system_ok mt (mk_system t (e :: q) p pd cl) -> takes (t, q) snap (t', q') ->
  serve clock json_of now (Some snap) 0 (Change e) p pd = Goes p' pd' out ->
  system_ok mt (mk_system t' q' p' pd' (cl ++ option_list out)).
Proof.
  intros (born & set & K & F & H) Htk. cbn in *.
  destruct (takes_sound path_of delete_of json (t, q) snap (t', q') born) as (ev & Hq & Hc & A & S & Hdom);
    [eapply channel_tail, F|done|]. cbn in Hq, Hc, A, S, Hdom. subst q'.
  assert (H' : horizon_ok t' (e :: q ++ ev) born (delivered p)).
  { rewrite app_comm_cons. by eapply horizon_advances. }
  destruct e as [u|id b].
  - unfold offer. rewrite (k_set _ _ _ K).
    destruct (follows_offer path_of delete_of mt encode_delete delete_reads delete_only clock json_of
      t u q born set (delivered p) pd cl) as (F1 & Hs1 & Hpr1 & He1 & Hh1); [apply K|done|].
    destruct (offer_value _ _ _ _ _ _ _ _) as [[set1 d1] q1]. cbn [fst snd] in *.
    pose proof (follows_advances _ _ _ _ _ _ _ _ _ _ _ _ _ _ F1 A Hc) as F2.
    pose proof (horizon_same _ _ _ _ d1 H' He1 Hh1) as H1.
    destruct (_ <? _)%nat.
    + destruct (follows_sweep path_of delete_of mt encode_delete delete_reads delete_only clock
        json_of t' (q ++ ev) born set1 d1 q1 cl snap F2 Hdom) as (F3 & He3 & Hh3).
      destruct (sweep _ _ _ _ _) as [d2 q2]. cbn [fst snd] in *. intros [= <- <- <-].
      destruct (follows_read_one _ _ _ _ _ _ _ _ _ _ _ _ F3 (horizon_same _ _ _ _ d2 H1 He3 Hh3)) as [F4 H4].
      exists born, (prune set1 snap). rewrite app_nil_r. split_and!; [|done|done].
      eapply (tracks_put mt p set (prune set1 snap)); [done|]. done.
    + intros [= <- <- <-].
      destruct (follows_read_one _ _ _ _ _ _ _ _ _ _ _ _ F2 H1) as [F4 H4].
      exists born, set1. rewrite app_nil_r. split_and!; [|done|done]. by eapply (tracks_put mt p set set1).
  - destruct (follows_removed path_of delete_of mt [] t id b q born (matched set) (delivered p) pd cl F)
      as (F1 & He1 & Hh1).
    unfold removed. rewrite (k_set _ _ _ K). cbn [set_on_change delivered].
    destruct (index_removed _ _ _ _) as [d1 q1]. cbn [fst snd] in *. intros [= <- <- <-].
    pose proof (follows_advances _ _ _ _ _ _ _ _ _ _ _ _ _ _ F1 A Hc) as F2.
    destruct (follows_read_one _ _ _ _ _ _ _ _ _ _ _ _ F2 (horizon_same _ _ _ _ d1 H' He1 Hh1)) as [F4 H4].
    exists born, (set_matched set (delete id (matched set))). rewrite app_nil_r.
    split_and!; [|done|done]. by eapply (tracks_put mt p set).
Qed.

(** A heartbeat. *)
Lemma heartbeat_ok mt t q p pd cl now clock json_of snap t' q' p' pd' out :
  system_ok mt (mk_system t q p pd cl) -> takes (t, q) snap (t', q') ->
  serve clock json_of now (Some snap) 0 Heartbeat p pd = Goes p' pd' out ->
  system_ok mt (mk_system t' q' p' pd' (cl ++ option_list out)).
Proof.
  intros (born & set & K & F & H) Htk. cbn in *.
  destruct (takes_sound path_of delete_of json (t, q) snap (t', q') born) as (ev & Hq & Hc & A & S & Hdom);
    [apply F|done|]. cbn in Hq, Hc, A, S, Hdom. subst q'.
  pose proof (follows_advances _ _ _ _ _ _ _ _ _ _ _ _ _ _ F A Hc) as F1.
  destruct (due_spec (fun s => matcher_matches mt (ss_path s) = true)
    (fun g => forall path k, selector_selects (g_selector g) path k = true -> matcher_matches mt path = true)
    now (p_heartbeats p) snap) as [Hdue Hgs]; [eauto|by intros g g' Hg ->|apply K|].
  destruct (due now (p_heartbeats p) snap) as [what groups]. cbn [fst snd] in *.
  assert (K1 : tracks mt (set_heartbeats p groups) set) by (by destruct K; split).
  set (l := fst <$> due_send what) in *.
  assert (Hin : forall s, s ∈ l -> s ∈ snap) by (intros s Hs; by apply Hdue).
  destruct (follows_coherent _ _ _ _ _ _ _ _ l F1) as [Hco Hsame].
  { intros s Hs. by destruct (so_entry _ _ _ _ _ _ S s (Hin s Hs)) as (_ & ? & _). }
  rewrite (heartbeat_all_catch encode_delete clock json_of mt l _ pd set K1 Hco Hsame)
    by (intros s Hs; by apply Hdue). cbv zeta.
  destruct (follows_some path_of delete_of mt encode_delete delete_reads delete_only clock json_of
    t' (q ++ ev) born born snap l set (delivered p) pd cl) as (F2 & Hs2 & He2 & Hh2); try done; [apply K|].
  replace (delivered (set_heartbeats p groups)) with (delivered p) by done.
  destruct (resync_all _ _ _ _ _ _ _) as [[set1 d1] q1]. cbn [fst snd] in *. intros [= <- <- <-].
  exists born, set1. rewrite app_nil_r. split_and!; [by eapply tracks_put|done|]. cbn.
  eapply horizon_same; [by eapply horizon_advances|done|done].
Qed.

(** A lag. *)
Lemma lagged_ok mt t q p pd cl now clock json_of x snap y t' q' p' pd' out :
  system_ok mt (mk_system t q p pd cl) -> rtc emit (t, []) x -> takes x snap y -> rtc emit y (t', q') ->
  serve clock json_of now (Some snap) (length q') Lagged p pd = Goes p' pd' out ->
  system_ok mt (mk_system t' q' p' pd' (cl ++ option_list out)).
Proof.
  intros (born & set & K & F & H) Hx Htk Hy. cbn in F, H, K.
  pose proof (f_channel _ _ _ _ _ _ _ _ _ _ _ F) as Hc0.
  destruct (emits_channel path_of delete_of json encode_delete delete_reads delete_only (t, []) x born
    (channel_nil _ _ _ _ _ Hc0) Hx) as (ev1 & born1 & Hq1 & Hc1 & A1). cbn in Hq1, A1.
  destruct (takes_sound path_of delete_of json x snap y born1 Hc1 Htk) as (ev2 & Hq2 & Hc2 & A2 & S2 & Hdom).
  destruct (emits_channel path_of delete_of json encode_delete delete_reads delete_only _ _ born1 Hc2 Hy)
    as (ev3 & born3 & Hq3 & Hc3 & A3). cbn in Hq3, Hc3, A3.
  pose proof (sound_advances _ _ _ _ _ _ _ _ _ _ Hc2 ltac:(done) A3 S2) as S3. rewrite <- Hq3 in S3.
  assert (A : advances t born t' q' born3).
  { rewrite Hq3, Hq2, Hq1. eapply advances_trans; [|done]. by eapply advances_trans. }
  destruct (follows_resync path_of delete_of mt encode_delete delete_reads delete_only clock json_of
    t q born born1 t' q' born3 set (delivered p) pd cl snap) as (F1 & Hs1 & H1); try done.
  { apply K. }
  { apply A1. }
  { intros s Hs Hg. destruct (gone_advances _ _ _ _ _ _ A1 Hg) as [Hg1 _].
    destruct (gone_advances _ _ _ _ _ _ A2 Hg1) as [[_ Hn] _].
    destruct (proj1 (Hdom (ss_id s))) as [sl Hsl]; [by apply list_elem_of_fmap_2|]. congruence. }
  cbn. unfold resync. rewrite (k_set _ _ _ K). cbv zeta.
  destruct (sweep _ _ _ _ _) as [d1 q1]. cbn [fst snd] in *.
  destruct (resync_all _ _ _ _ _ _ _) as [[set1 d2] q2]. cbn [fst snd] in *. intros [= <- <- <-].
  exists born3, set1. rewrite app_nil_r. split_and!; [by eapply (tracks_put mt p set)|done|done].
Qed.

Lemma turn_ok mt s s' : system_ok mt s -> turn s s' -> system_ok mt s'.
Proof.
  intros Hs Ht. destruct Ht as [t q p pd cl now clock json_of step p' pd' out Hin He Hsv
    |t q p pd cl now clock json_of step snap t' q' p' pd' out Hin He Htk Hsv
    |t e q p pd cl now clock json_of snap t' q' p' pd' out He Htk Hsv
    |t q p pd cl now clock json_of x snap y t' q' p' pd' out He Hx Htk Hy Hsv].
  - destruct Hs as (born & set & K & F & H). cbn in K, F, H.
    assert (step = Sent \/ step = PollsEnded) as [-> | ->] by set_solver; cbn in *.
    + pose proof (follows_pop _ _ _ _ _ _ _ _ _ _ _ F) as F1.
      destruct (pop pd) as [o q1]. cbn [fst snd] in *. injection Hsv as <- <- <-. by exists born, set.
    + by rewrite (k_polls _ _ _ K) in He.
  - assert (step = Sample \/ step = Heartbeat \/ step = Polled) as [-> | [-> | ->]] by set_solver.
    + destruct Hs as (born & set & K & F & H). cbn in *. rewrite (k_samples _ _ _ K) in He.
      cbn in He. by rewrite andb_false_r in He.
    + by eapply heartbeat_ok.
    + destruct Hs as (born & set & K & F & H). cbn in *. by rewrite (k_polls _ _ _ K) in He.
  - by eapply change_ok.
  - by eapply lagged_ok.
Qed.

Lemma subscribed_ok l m s :
  on_change_only l = true -> matcher_new l = Ok m -> subscribed l s -> system_ok m s.
Proof.
  intros Hl Hm Hs. destruct Hs as [settings now clock json_of p0 t0 q0 x snap t q p pd H0 Hst Hx Htk Hsy].
  destruct (start_tracks settings l now p0 Hl Hst) as (Huo & Hd & set & K & Hset).
  assert (Hpm : p_matcher p0 = m).
  { clear -Hst Hm. unfold start in Hst. rewrite Hm in Hst. cbn in Hst.
    destruct (if _ || _ then _ else _); [|done]. by injection Hst as <-. }
  rewrite Hpm in K.
  assert (Hce : channel path_of delete_of empty_table [] ∅).
  { split; try (intros; set_solver).
    - split; cbn; [|done|lia]. intros p1 id. split; [done|]. by intros (? & ? & _).
    - by intros id [].
    - by intros [].
    - by intros []. }
  destruct (emits_channel path_of delete_of json encode_delete delete_reads delete_only (empty_table, []) (t0, q0) ∅ Hce H0)
    as (_ & born0 & _ & Hc0 & _).
  destruct (emits_channel path_of delete_of json encode_delete delete_reads delete_only (t0, []) x born0
    (channel_nil _ _ _ _ _ Hc0) Hx) as (ev1 & born1 & _ & Hc1 & _).
  destruct (takes_sound path_of delete_of json x snap (t, q) born1 Hc1 Htk) as (ev2 & _ & Hc2 & _ & S2 & Hdom).
  cbn in Hc2, S2, Hdom.
  assert (Hok : forall g qt, index_ok path_of delete_of (fun p => matcher_matches m p) born1 g qt
                  ∅ (new_delivered true false) default_pending []).
  { intros g qt. split; cbn; try (intros; set_solver); done. }
  destruct (follows_snapshot path_of delete_of m encode_delete delete_reads delete_only clock json_of
    t q born1 born1 snap set (new_delivered true false) default_pending []) as (F1 & Hs1 & He1 & Hh1);
    try done; [apply K|by rewrite Hset|..].
  { rewrite Hset. intros id. rewrite lookup_empty. by intros []. }
  unfold initial_sync in Hsy. rewrite Huo in Hsy.
  rewrite (sync_all_catch encode_delete clock json_of m snap p0 default_pending set K) in Hsy.
  - cbv zeta in Hsy. rewrite Hd in Hsy. destruct (resync_all _ _ _ _ _ _ _) as [[set1 d1] q1].
    cbn [fst snd] in *. injection Hsy as <- <-. exists born1, set1. split_and!.
    + by eapply tracks_put.
    + cbn. split; try apply F1.
      * apply (push_sync_ok path_of delete_of _ (f_index _ _ _ _ _ _ _ _ _ _ _ F1)).
      * intros id sl Hsl Hsel Hto.
        destruct (f_live _ _ _ _ _ _ _ _ _ _ _ F1 id sl Hsl Hsel Hto) as [(? & ? & Hf)|]; [left|by right].
        split_and!; [done..|]. by rewrite final_response.
    + cbn. intros id. rewrite He1. by intros []%elem_of_nil.
  - intros s e _. rewrite Hset, lookup_empty. done.
  - intros s s' H1 H2 E. destruct (so_entry _ _ _ _ _ _ S2 s H1) as (_ & Hb & _).
    destruct (so_entry _ _ _ _ _ _ S2 s' H2) as (_ & Hb' & _). congruence.
Qed.

Lemma reachable_ok l m s0 s :
  on_change_only l = true -> matcher_new l = Ok m -> subscribed l s0 -> rtc sys_step s0 s -> system_ok m s.
Proof.
  intros Hl Hm Hs Hr. apply (subscribed_ok l m s0 Hl Hm) in Hs.
  induction Hr as [|x y z [Hst|Hst] Hr IH]; [done| |]; apply IH;
    eauto using target_step_ok, turn_ok.
Qed.

(** ** Convergence *)

(** C2: a subscriber converges to its target. Take a STREAM list of ON_CHANGE
    subscriptions (with or without heartbeats, not JSON_IETF, not updates_only)
    on a target with any history, and any interleaving of the sinks' publishes,
    overwrites and releases with the turns of the producer: messages read,
    heartbeats, responses sent, cache prunes, and lags that lose the messages
    and resync, each snapshot taken while publishes go on. Whenever the producer
    has read its messages, a client that applies what it received and what is
    still queued for it has, at every path, exactly the latest value of the
    series there if the list matches it, and nothing otherwise. *)
Theorem on_change_converges l m s0 s p
    (Hl : on_change_only l = true) (Hm : matcher_new l = Ok m)
    (Hs : subscribed l s0) (Hr : rtc sys_step s0 s) (Hrx : rx s = []) :
  replica path_of delete_of (client s ++ drain (pend s)) !! p = matched_value m (tbl s) p.
Proof.
  destruct (reachable_ok l m s0 s Hl Hm Hs Hr) as (born & set & _ & F & _).
  rewrite Hrx in F. by eapply follows_replica.
Qed.

(** A snapshot while nothing else runs. *)
Lemma takes_now x : exists snap, takes x snap x.
Proof.
  enough (Hg : forall l, (forall id, id ∈ l -> is_Some (slots x.1 !! id)) ->
    exists snap, snap_run path_of json l x snap x).
  { destruct (Hg (elements (dom (slots x.1)))) as [snap Hsnap].
    - intros id Hid. by rewrite elem_of_elements, elem_of_dom in Hid.
    - exists snap, (elements (dom (slots x.1))). by split. }
  induction l as [|id l IH]; intros Hl; [exists []; constructor|].
  destruct IH as [snap Hsnap]; [intros i Hi; apply Hl; by right|].
  destruct (Hl id) as [s Hs]; [by left|]. eexists. eapply snap_read; [|done].
  unfold snapshot_of. by rewrite Hs.
Qed.

(** One message read, the target left alone. *)
Lemma read_turn mt t e q p pd cl :
  system_ok mt (mk_system t (e :: q) p pd cl) ->
  exists p' pd' cl', turn (mk_system t (e :: q) p pd cl) (mk_system t q p' pd' cl').
Proof.
  intros (born & set & K & _ & _). cbn in K. destruct (takes_now (t, q)) as [snap Hsnap].
  assert (Hsv : exists p' pd' out, serve (fun _ => 0) (fun _ _ _ => None) 0 (Some snap) 0 (Change e) p pd
    = Goes p' pd' out).
  { destruct e as [u|id b]; cbn.
    - unfold offer. rewrite (k_set _ _ _ K).
      destruct (offer_value _ _ _ _ _ _ _ _) as [[set1 d1] q1].
      destruct (_ <? _)%nat; [destruct (sweep _ _ _ _ _) as [d2 q2]|]; cbn; eauto.
    - destruct (removed id b p pd) as [p1 q1]. eauto. }
  destruct Hsv as (p' & pd' & out & Hsv). eexists _, _, _.
  eapply turn_change; [|exact Hsnap|exact Hsv]. cbn. by rewrite (k_set _ _ _ K).
Qed.

Lemma pop_shorter q : queue q <> [] -> (length (queue (pop q).2) < length (queue q))%nat.
Proof.
  destruct q as [l vals n]. unfold pop. cbn [queue values responses]. intros Hne.
  assert (Hg : forall l, (length (queue (pop_loop l vals n).2) <= length l)%nat).
  { clear. induction l as [|[r|id] l IH]; cbn; [done|lia|]. destruct (vals !! id); cbn; lia. }
  destruct l as [|[r|id] l]; cbn; [done|lia|]. destruct (vals !! id); cbn; [lia|].
  specialize (Hg l). lia.
Qed.

(** The queue sent. *)
Lemma send_all t p pd cl :
  exists pd' cl', rtc turn (mk_system t [] p pd cl) (mk_system t [] p pd' cl') /\ queue pd' = [].
Proof.
  remember (length (queue pd)) as n eqn:En. revert pd cl En.
  induction (lt_wf n) as [n _ IH]. intros pd cl ->.
  destruct (decide (queue pd = [])) as [E|E]; [exists pd, cl; by split|].
  destruct (IH _ (pop_shorter pd E) (pop pd).2 (cl ++ option_list (pop pd).1) eq_refl)
    as (pd' & cl' & Hr & Hq).
  exists pd', cl'. split; [|done]. eapply rtc_l; [|exact Hr].
  apply (turn_local t [] p pd cl 0 (fun _ => 0) (fun _ _ _ => None) Sent); [by left| |].
  - cbn. by destruct (queue pd).
  - cbn. by destruct (pop pd).
Qed.

(** C3: a subscriber left alone catches up. From any state of such a
    subscription, reading the messages it holds and sending its queue, which the
    producer's turns can always do, ends with no message unread and nothing
    queued, and the client's replica is then exactly the target's values. *)
Theorem on_change_catches_up l m s0 s
    (Hl : on_change_only l = true) (Hm : matcher_new l = Ok m)
    (Hs : subscribed l s0) (Hr : rtc sys_step s0 s) :
  exists s', rtc turn s s' /\ tbl s' = tbl s /\ rx s' = [] /\ queue (pend s') = [] /\
    forall p, replica path_of delete_of (client s') !! p = matched_value m (tbl s) p.
Proof.
  pose proof (reachable_ok l m s0 s Hl Hm Hs Hr) as Hok. clear Hl Hm Hs Hr s0.
  destruct s as [t Q p pd cl]. revert p pd cl Hok. induction Q as [|e Q IH]; intros p pd cl Hok.
  - destruct (send_all t p pd cl) as (pd' & cl' & Hr & Hq). eexists. split_and!; [exact Hr|done..|].
    intros path. cbn.
    assert (Hok' : system_ok m (mk_system t [] p pd' cl')).
    { clear -Hok Hr HL delete_reads delete_only. induction Hr; eauto using turn_ok. }
    destruct Hok' as (born & set & _ & F & _). cbn in F.
    rewrite <- (follows_replica _ _ _ _ _ _ _ path F). unfold drain. rewrite Hq. by rewrite app_nil_r.
  - destruct (read_turn m t e Q p pd cl Hok) as (p1 & pd1 & cl1 & Ht).
    destruct (IH p1 pd1 cl1) as (s' & Hr & H1 & H2 & H3 & H4); [by eapply turn_ok|].
    exists s'. split_and!; [by eapply rtc_l|done..].
Qed.

End Laws.
End System.

(** ** An example: a series is published after the subscription *)

Module Example.
Import Wire.

Definition path : Path := mk_path "" [mk_elem "c" []] "".

Definition path_of (n : list Z) : option Path :=
  match n with 8 :: _ :: 34 :: 7 :: 10 :: 1 :: 99 :: _ => Some path | _ => None end.

Definition encode_delete (p : Path) (now : Z) : list Z := [5; Zpos (encode p)].

Definition delete_of (n : list Z) : option Path :=
  match n with [5; Zpos c] => decode c | _ => None end.

Lemma delete_reads p t : delete_of (encode_delete p t) = Some p.
Proof. apply decode_encode. Qed.

Lemma delete_only p t : path_of (encode_delete p t) = None.
Proof. done. Qed.

Definition json (_ : list Z) : option (list Z) := None.

Definition list_of_one : SubscriptionList :=
  mk_list None [mk_subscription (Some path) 1 0 false 0] 0 2 false.

Definition matcher : SubscriptionMatcher := mk_matcher [path] EProto.

Definition set0 : OnChangeSet := mk_set [mk_selector matcher Any] ∅ MATCHED_PRUNE_FLOOR.

Definition producer0 : Producer :=
  mk_producer matcher false false false false [] [] (Some set0) (new_delivered true false) 1.

Definition pending0 : Pending := push_response SyncResponse default_pending.

(** The table with the series, and its message. *)
Definition slot : Slot :=
  mk_slot path (mk_latest ex_notification (mk_range 9 11) 1 None) KUint 7 1.

Definition table1 : SeriesTable := mk_table {[path := 0]} {[0 := slot]} 1.

Definition event : SeriesEvent := Changed (mk_update 0 KUint 1 ex_notification).

Definition producer1 : Producer :=
  put producer0 (set_matched set0 {[0 := mk_seen (Some path) 1]})
    (set_index (new_delivered true false) {[path := 0]} {[0 := Some path]}).

Definition pending1 : Pending := push_value 0 ex_notification pending0.

Definition system0 : System := mk_system empty_table [] producer0 pending0 [].
Definition system1 : System := mk_system table1 [event] producer0 pending0 [].
Definition system2 : System := mk_system table1 [] producer1 pending1 [].

Lemma subscribed0 : subscribed path_of json encode_delete list_of_one system0.
Proof.
  eapply (subscribed_intro _ _ _ _ (mk_settings 1 1) 0 (fun _ => 0) (fun _ _ _ => None) producer0
    empty_table [] (empty_table, []) []).
  - apply rtc_refl.
  - reflexivity.
  - apply rtc_refl.
  - exists []. split; [reflexivity|]. constructor.
  - reflexivity.
Qed.

Lemma step1 : sys_step path_of json encode_delete system0 system1.
Proof.
  left. apply target_call. exists [event]. split; [|reflexivity].
  eapply (op_publish _ _ _ _ 7 None path ex_notification); [reflexivity| |cbn; lia].
  vm_compute. reflexivity.
Qed.

Lemma step2 : sys_step path_of json encode_delete system1 system2.
Proof.
  right. eapply (turn_change path_of json encode_delete table1 event [] producer0 pending0 [] 0 (fun _ => 0)
    (fun _ _ _ => None) [mk_snapshot 0 path KUint 1 ex_notification] table1 [] producer1 pending1 None).
  - reflexivity.
  - exists [0]. split; [vm_compute; reflexivity|]. eapply snap_read; [reflexivity|]. constructor.
  - vm_compute. reflexivity.
Qed.

Lemma steps : rtc (sys_step path_of json encode_delete) system0 system2.
Proof. eapply rtc_l; [exact step1|]. apply rtc_once. exact step2. Qed.

End Example.

Import Wire.

Lemma on_change_converges_witness :
  replica Example.path_of Example.delete_of
    (client Example.system2 ++ drain (pend Example.system2)) !! Example.path = Some [24; 7].
Proof.
  rewrite (on_change_converges Example.path_of Example.delete_of Example.json
    Example.encode_delete Example.delete_reads Example.delete_only Example.list_of_one
    Example.matcher Example.system0 Example.system2 Example.path eq_refl eq_refl
    Example.subscribed0 Example.steps eq_refl).
  vm_compute. reflexivity.
Defined.

Lemma on_change_catches_up_witness :
  exists s', rtc (turn Example.path_of Example.json Example.encode_delete) Example.system1 s' /\
    tbl s' = Example.table1 /\ rx s' = [] /\ queue (pend s') = [] /\
    forall p, replica Example.path_of Example.delete_of (client s') !! p
      = matched_value Example.matcher Example.table1 p.
Proof.
  apply (on_change_catches_up Example.path_of Example.delete_of Example.json
    Example.encode_delete Example.delete_reads Example.delete_only Example.list_of_one
    Example.matcher Example.system0 Example.system1 eq_refl eq_refl Example.subscribed0).
  apply rtc_once. exact Example.step1.
Defined.

(** ** A list that also samples

    Turns taken one after the other, with what the client received; [None] when
    one is not enabled or ends the subscription. *)
Fixpoint serve_all (steps : list (Z * option (list SeriesSnapshot) * Step)) (p : Producer)
  (q : Pending) (cl : list PreEncoded) : option (Producer * Pending * list PreEncoded) :=
  match steps with
  | [] => Some (p, q, cl)
  | (now, snap, step) :: steps =>
      if enabled now step p q then
        match serve Example.encode_delete Example.path_of (fun _ => 0) (fun _ _ _ => None)
                now snap 0 step p q with
        | Goes p q out => serve_all steps p q (cl ++ option_list out)
        | Ends _ => None
        end
      else None
  end.

Definition mixed_list : SubscriptionList :=
  mk_list None [mk_subscription (Some Example.path) 1 0 false 0;
                mk_subscription (Some Example.path) 2 1 false 0] 0 2 false.

(** The notification after [ex_notification], with the value 8. *)
Definition ex_next : list Z := [8; 10; 34; 7; 10; 1; 99; 26; 2; 24; 8; 88; 1].

(** A list with an ON_CHANGE and a SAMPLE subscription for one series: a change
    waits in the queue, the sample of the same value is queued behind it, and the
    next change replaces the value that waits, so the client receives the newer
    value and then the older one. *)
Lemma sample_overtaken_by_change :
  exists p0 p1 q1 p2 q2,
    start (mk_settings 1 1) mixed_list 0 = Ok p0 /\
    initial_sync Example.encode_delete (fun _ => 0) (fun _ _ _ => None) (Some []) p0 = Some (p1, q1) /\
    serve_all [(0, None, Sent);
               (0, None, Change (Changed (mk_update 0 KUint 1 ex_notification)));
               (1, Some [mk_snapshot 0 Example.path KUint 1 ex_notification], Sample);
               (1, None, Change (Changed (mk_update 0 KUint 2 ex_next)));
               (1, None, Sent); (1, None, Sent)] p1 q1 []
      = Some (p2, q2, [SyncResponse; UpdateResponse ex_next; UpdateResponse ex_notification]) /\
    queue q2 = [] /\
    replica Example.path_of Example.delete_of
      [SyncResponse; UpdateResponse ex_next; UpdateResponse ex_notification] !! Example.path = Some [24; 7].
Proof.
  do 5 eexists. split; [vm_compute; reflexivity|]. split; [vm_compute; reflexivity|].
  split; [vm_compute; reflexivity|]. split; vm_compute; reflexivity.
Qed.
