(* ===== verification/Packs.v ===== *)
(** * Packs: metric packs, selectors and extension (packs/mod.rs, packs/extend.rs)

    A pack's metrics are addressed by selectors; [validate_pack] makes every
    one of them addressable, [resolve_override_keys] maps override keys to
    metrics, [expand_pack] makes one scenario entry per metric and
    [materialize] folds an extension onto its base, for which [deviate] and
    [extend_fault] say what it gives and when it is refused. Generator, sink and
    schedule values are only copied, so their types are parameters. *)

From Stdlib Require Import ZArith Lia Ascii Sorted.
From stdpp Require Import prelude strings list gmap sorting.
From S2P Require Import Prelude Text Metric Oid GnmiPath.

(** ** Hints *)

(** [GnmiValueType] and [SnmpValueType]; an enum maps codes to labels. *)
Inductive GnmiValueType :=
| GUint | GInt | GDouble | GBool | GString | GEnum (m : list (Z * string)).

Inductive SnmpValueType :=
| SInteger | SCounter32 | SCounter64 | SGauge32 | SUnsigned32 | STimeTicks | SString
| SOpaqueFloat | SOpaqueDouble | SIpAddress | SEnum (m : list (Z * string)).

#[export] Instance GnmiValueType_eq_dec : EqDecision GnmiValueType.
Proof. solve_decision. Defined.
#[export] Instance SnmpValueType_eq_dec : EqDecision SnmpValueType.
Proof. solve_decision. Defined.

(** [GnmiHint] and [SnmpHint]. *)
Record GnmiHint := mk_gnmi_hint { gh_path : string; gh_value : GnmiValueType }.
Record SnmpHint := mk_snmp_hint { sh_oid : string; sh_type : SnmpValueType }.

#[export] Instance GnmiHint_eq_dec : EqDecision GnmiHint.
Proof. solve_decision. Defined.
#[export] Instance SnmpHint_eq_dec : EqDecision SnmpHint.
Proof. solve_decision. Defined.

(** [LabelColumn], with [oid] and [is_enum]. *)
Inductive LabelColumn := LText (oid : string) | LTyped (oid : string) (type : SnmpValueType).

Definition lc_oid (c : LabelColumn) : string :=
  match c with LText oid => oid | LTyped oid _ => oid end.

Definition lc_is_enum (c : LabelColumn) : bool :=
  match c with LTyped _ (SEnum _) => true | _ => false end.

Abbreviation LabelMap := (gmap string string).

Section packs.
(** [GeneratorConfig], and its [Constant { value: 0.0 }]. *)
Context {Gen : Type} (constant_zero : Gen).
(** [SinkConfig], the encoders other than gnmi and snmp, and the clauses of an
    override that pack expansion does not read. *)
Context {Sink Encoder Clauses : Type}.

(** [MetricSpec]. *)
Record MetricSpec := mk_spec {
  ms_name : string;
  ms_id : option string;
  ms_labels : option LabelMap;
  ms_generator : option Gen;
  ms_gnmi : option GnmiHint;
  ms_snmp : option SnmpHint;
}.

(** [MetricSpec::selector]. *)
Definition selector (s : MetricSpec) : string :=
  match ms_id s with
  | Some id => ms_name s +:+ "." +:+ id
  | None => ms_name s
  end.

(** [DeviationReplace] and [Deviation]. *)
Record DeviationReplace := mk_replace { dr_generator : option Gen; dr_labels : option LabelMap }.
Record Deviation := mk_deviation {
  dv_metric : string;
  dv_replace : option DeviationReplace;
  dv_not_supported : bool;
}.

(** [MetricPackDef]; its label columns are in the order of their keys. *)
Record MetricPackDef := mk_pack {
  pk_name : string;
  pk_description : string;
  pk_category : string;
  pk_extends : option string;
  pk_shared_labels : option LabelMap;
  pk_metrics : list MetricSpec;
  pk_deviations : list Deviation;
  pk_snmp_label_columns : list (string * LabelColumn);
}.

(** ** Validation *)

Inductive ColumnReason := NotALabelKey | EnumColumnRefused | BadColumnOid (e : OidTemplateError).

(** [PackValidationError]; every one also carries the pack's name. *)
Inductive PackValidationError :=
| DottedMetricName (pack name : string)
| RepeatedNameWithoutIds (pack name : string) (count without : nat)
| DuplicateMetricId (pack name id : string)
| ConflictingGnmiHints (pack name : string)
| InvalidGnmiPath (pack selector path : string) (reason : TemplateError)
| ConflictingSnmpHints (pack name : string)
| InvalidSnmpOid (pack selector oid : string) (reason : OidTemplateError)
| InvalidSnmpLabelColumn (pack label oid : string) (reason : ColumnReason).

(** The first check of [validate_pack]. *)
Fixpoint check_dots (pack : string) (l : list MetricSpec) : result unit PackValidationError :=
  match l with
  | [] => Ok tt
  | s :: l =>
      if str_contains "."%char (ms_name s) then Err (DottedMetricName pack (ms_name s))
      else check_dots pack l
  end.

(** [by_name.entry(name).or_default().push(spec)], over all specs. *)
Definition by_name (l : list MetricSpec) : list (string * list MetricSpec) :=
  fold_left (fun m s => bt_insert (ms_name s) (default [] (bt_get (ms_name s) m) ++ [s]) m) l [].

(** The loop over the ids of the specs of one name; every one has an id. *)
Fixpoint check_ids (pack name : string) (seen : list string) (l : list MetricSpec)
  : result unit PackValidationError :=
  match l with
  | [] => Ok tt
  | s :: l =>
      match ms_id s with
      | Some id =>
          if bool_decide (id ∈ seen) then Err (DuplicateMetricId pack name id)
          else check_ids pack name (id :: seen) l
      | None => check_ids pack name seen l
      end
  end.

(** The checks on the specs of one name. *)
Definition check_group (pack name : string) (specs : list MetricSpec)
  : result unit PackValidationError :=
  if (length specs <? 2)%nat then Ok tt
  else
    let without := length (filter (fun s => ms_id s = None) specs) in
    if (0 <? without)%nat then Err (RepeatedNameWithoutIds pack name (length specs) without)
    else
      let? _ := check_ids pack name [] specs in
      let first := match specs with s :: _ => (ms_gnmi s, ms_snmp s) | [] => (None, None) end in
      if existsb (fun s => negb (bool_decide (ms_gnmi s = first.1))) specs
      then Err (ConflictingGnmiHints pack name)
      else if existsb (fun s => negb (bool_decide (ms_snmp s = first.2))) specs
      then Err (ConflictingSnmpHints pack name)
      else Ok tt.

Fixpoint check_groups (pack : string) (l : list (string * list MetricSpec))
  : result unit PackValidationError :=
  match l with
  | [] => Ok tt
  | (name, specs) :: l => let? _ := check_group pack name specs in check_groups pack l
  end.

(** The checks of the hints, under the [gnmi] and [snmp] features. *)
Fixpoint check_gnmi_paths (pack : string) (l : list MetricSpec) : result unit PackValidationError :=
  match l with
  | [] => Ok tt
  | s :: l =>
      match ms_gnmi s with
      | Some hint =>
          match gnmi_template_parse (gh_path hint) with
          | Some (Err e) => Err (InvalidGnmiPath pack (selector s) (gh_path hint) e)
          | _ => check_gnmi_paths pack l
          end
      | None => check_gnmi_paths pack l
      end
  end.

Fixpoint check_snmp_oids (pack : string) (l : list MetricSpec) : result unit PackValidationError :=
  match l with
  | [] => Ok tt
  | s :: l =>
      match ms_snmp s with
      | Some hint =>
          match template_parse (sh_oid hint) with
          | Err e => Err (InvalidSnmpOid pack (selector s) (sh_oid hint) e)
          | Ok _ => check_snmp_oids pack l
          end
      | None => check_snmp_oids pack l
      end
  end.

Definition column_reason (label : string) (c : LabelColumn) : option ColumnReason :=
  if negb (is_valid_label_key label) then Some NotALabelKey
  else if lc_is_enum c then Some EnumColumnRefused
  else match template_parse (lc_oid c) with Err e => Some (BadColumnOid e) | Ok _ => None end.

Fixpoint check_columns (pack : string) (l : list (string * LabelColumn))
  : result unit PackValidationError :=
  match l with
  | [] => Ok tt
  | (label, c) :: l =>
      match column_reason label c with
      | Some r => Err (InvalidSnmpLabelColumn pack label (lc_oid c) r)
      | None => check_columns pack l
      end
  end.

(** [validate_pack]. *)
Definition validate_pack (p : MetricPackDef) : result unit PackValidationError :=
  let? _ := check_dots (pk_name p) (pk_metrics p) in
  let? _ := check_groups (pk_name p) (by_name (pk_metrics p)) in
  let? _ := check_gnmi_paths (pk_name p) (pk_metrics p) in
  let? _ := check_snmp_oids (pk_name p) (pk_metrics p) in
  check_columns (pk_name p) (pk_snmp_label_columns p).

(** ** Selectors *)

(** [MetricSelector] and [MetricSelector::parse]. *)
Record MetricSelector := mk_selector { sel_name : string; sel_id : option string }.

Definition selector_parse (raw : string) : MetricSelector :=
  match split_once "."%char raw with
  | Some (name, id) => mk_selector name (Some id)
  | None => mk_selector raw None
  end.

(** [SelectorError]. *)
Inductive SelectorError :=
| NoMatch (selector pack available : string)
| Ambiguous (selector pack : string) (count : nat) (available : string).

(** [available_selectors]. *)
Definition available_selectors (p : MetricPackDef) : string :=
  match pk_metrics p with
  | [] => "<none>"
  | l => join ", " (selector <$> l)
  end.

(** The filter of [resolve_selector]. *)
Definition selects (sel : MetricSelector) (s : MetricSpec) : bool :=
  String.eqb (ms_name s) (sel_name sel) &&
  match sel_id sel with
  | Some id => bool_decide (ms_id s = Some id)
  | None => true
  end.

(** The indices of the specs that match, from index [i] on. *)
Fixpoint matching (sel : MetricSelector) (i : nat) (l : list MetricSpec) : list nat :=
  match l with
  | [] => []
  | s :: l => if selects sel s then i :: matching sel (S i) l else matching sel (S i) l
  end.

(** [resolve_selector]. *)
Definition resolve_selector (p : MetricPackDef) (raw : string) : result nat SelectorError :=
  match matching (selector_parse raw) 0 (pk_metrics p) with
  | [i] => Ok i
  | [] => Err (NoMatch raw (pk_name p) (available_selectors p))
  | l => Err (Ambiguous raw (pk_name p) (length l)
                (join ", " (omap (fun i => selector <$> pk_metrics p !! i) l)))
  end.

(** [OverrideKeyError]. *)
Inductive OverrideKeyError :=
| Unresolvable (e : SelectorError)
| Conflict (pack first second selector : string).

Definition key_le : relation string := cmp_le String.compare id.

(** The loop of [resolve_override_keys] over the sorted keys. *)
Fixpoint override_loop (p : MetricPackDef) (keys : list string) (m : gmap nat string)
  : result (gmap nat string) OverrideKeyError :=
  match keys with
  | [] => Ok m
  | key :: keys =>
      match resolve_selector p key with
      | Err e => Err (Unresolvable e)
      | Ok index =>
          match m !! index with
          | Some previous =>
              Err (Conflict (pk_name p) previous key
                     (default ""%string (selector <$> pk_metrics p !! index)))
          | None => override_loop p keys (<[index := key]> m)
          end
      end
  end.

(** [resolve_override_keys]. *)
Definition resolve_override_keys (p : MetricPackDef) (keys : list string)
  : result (gmap nat string) OverrideKeyError :=
  override_loop p (merge_sort key_le keys) ∅.

(** ** Expansion *)

(** [GnmiEncoderConfig], [SnmpEncoderConfig] and [EncoderConfig]. *)
Record GnmiEncoderConfig := mk_gnmi {
  gc_origin : string;
  gc_target_label : string;
  gc_path : option string;
  gc_paths : gmap string string;
  gc_values : gmap string GnmiValueType;
  gc_drop_labels : list string;
}.

Record SnmpEncoderConfig := mk_snmp {
  sc_agent_label : string;
  sc_oids : gmap string string;
  sc_label_columns : gmap string LabelColumn;
  sc_types : gmap string SnmpValueType;
  sc_drop_labels : list string;
}.

Inductive EncoderConfig :=
| EncGnmi (c : GnmiEncoderConfig)
| EncSnmp (c : SnmpEncoderConfig)
| EncOther (e : Encoder).

(** [map.entry(k).or_insert(v)]. *)
Definition or_insert {V : Type} (k : string) (v : V) (m : gmap string V) : gmap string V :=
  match m !! k with Some _ => m | None => <[k := v]> m end.

(** [fold_gnmi_hints]. *)
Definition fold_gnmi_hints (p : MetricPackDef) (e : EncoderConfig) : EncoderConfig :=
  match e with
  | EncGnmi c =>
      EncGnmi (fold_left (fun c s =>
        match ms_gnmi s with
        | Some h => mk_gnmi (gc_origin c) (gc_target_label c) (gc_path c)
                      (or_insert (ms_name s) (gh_path h) (gc_paths c))
                      (or_insert (ms_name s) (gh_value h) (gc_values c)) (gc_drop_labels c)
        | None => c
        end) (pk_metrics p) c)
  | _ => e
  end.

(** [fold_snmp_hints]. *)
Definition fold_snmp_hints (e : EncoderConfig) (p : MetricPackDef) : EncoderConfig :=
  match e with
  | EncSnmp c =>
      let c := fold_left (fun c s =>
        match ms_snmp s with
        | Some h => mk_snmp (sc_agent_label c) (or_insert (ms_name s) (sh_oid h) (sc_oids c))
                      (sc_label_columns c) (or_insert (ms_name s) (sh_type h) (sc_types c))
                      (sc_drop_labels c)
        | None => c
        end) (pk_metrics p) c in
      EncSnmp (mk_snmp (sc_agent_label c) (sc_oids c)
        (fold_left (fun m lc => or_insert lc.1 lc.2 m) (pk_snmp_label_columns p)
           (sc_label_columns c))
        (sc_types c) (sc_drop_labels c))
  | _ => e
  end.

(** [MetricOverride] and [PackScenarioConfig]. *)
Record MetricOverride := mk_override {
  mo_generator : option Gen;
  mo_labels : option LabelMap;
  mo_clauses : Clauses;
}.

Record PackScenarioConfig := mk_config {
  cf_pack : string;
  cf_rate : Z;
  cf_duration : option string;
  cf_labels : option LabelMap;
  cf_sink : Sink;
  cf_encoder : EncoderConfig;
  cf_overrides : option (gmap string MetricOverride);
}.

(** [ScenarioEntry::Metrics]: the fields that differ between entries or come
    from the config; every other field of the schedule is absent, and sink
    errors warn. *)
Record MetricsEntry := mk_entry {
  en_name : string;
  en_rate : Z;
  en_duration : option string;
  en_labels : option LabelMap;
  en_sink : Sink;
  en_generator : Gen;
  en_encoder : EncoderConfig;
}.

Inductive ExpandError :=
| NoMetrics
| BadPack (e : PackValidationError)
| BadOverride (e : OverrideKeyError).

(** Insert every label of the second map, when there is one. *)
Definition merge_labels (labels : LabelMap) (more : option LabelMap) : LabelMap :=
  match more with Some m => m ∪ labels | None => labels end.

(** One turn of the loop of [expand_pack]. *)
Definition expand_one (p : MetricPackDef) (c : PackScenarioConfig) (keys : gmap nat string)
    (encoder : EncoderConfig) (i : nat) (s : MetricSpec) : MetricsEntry :=
  let labels := default ∅ (pk_shared_labels p) in
  let labels := merge_labels labels (ms_labels s) in
  let labels := merge_labels labels (cf_labels c) in
  let ov := key ← keys !! i; o ← cf_overrides c; o !! key in
  let labels := match ov with Some o => merge_labels labels (mo_labels o) | None => labels end in
  let spec_generator := default constant_zero (ms_generator s) in
  let generator := match ov with
                   | Some o => default spec_generator (mo_generator o)
                   | None => spec_generator
                   end in
  mk_entry (ms_name s) (cf_rate c) (cf_duration c)
    (if bool_decide (labels = ∅) then None else Some labels) (cf_sink c) generator encoder.

Fixpoint expand_loop (p : MetricPackDef) (c : PackScenarioConfig) (keys : gmap nat string)
    (encoder : EncoderConfig) (i : nat) (l : list MetricSpec) : list MetricsEntry :=
  match l with
  | [] => []
  | s :: l => expand_one p c keys encoder i s :: expand_loop p c keys encoder (S i) l
  end.

(** [expand_pack]; [override_keys] is what [overrides.keys()] yields. *)
Definition expand_pack (p : MetricPackDef) (c : PackScenarioConfig) (override_keys : list string)
  : result (list MetricsEntry) ExpandError :=
  match pk_metrics p with
  | [] => Err NoMetrics
  | _ =>
      let? _ := map_err BadPack (validate_pack p) in
      let? keys := match cf_overrides c with
                   | Some _ => map_err BadOverride (resolve_override_keys p override_keys)
                   | None => Ok ∅
                   end in
      let encoder := fold_snmp_hints (fold_gnmi_hints p (cf_encoder c)) p in
      Ok (expand_loop p c keys encoder 0 (pk_metrics p))
  end.

(** ** Extension *)

(** [ExtendError]. *)
Inductive Given := Both | Neither.
Inductive ExtendError :=
| DeviationNeedsExactlyOneAction (pack selector : string) (given : Given)
| RepeatedDeviationSelector (pack selector : string)
| DeviationSelectorNoMatch (pack selector base available : string)
| AddedMetricCollidesWithBase (pack selector base : string).

(** Which way a deviation's action is wrong, if it is. *)
Definition wrong_action (d : Deviation) : option Given :=
  match dv_replace d, dv_not_supported d with
  | Some _, true => Some Both
  | Some r, false =>
      match dr_generator r, dr_labels r with
      | None, None => Some Neither
      | _, _ => None
      end
  | None, true => None
  | None, false => Some Neither
  end.

(** The loop of [materialize] that resolves the deviations; a panic of the
    index [base.metrics[index]] is [None]. *)
Fixpoint resolve_deviations (ext base : MetricPackDef) (l : list Deviation) (seen : gset nat)
  : option (result (list (nat * Deviation)) ExtendError) :=
  match l with
  | [] => Some (Ok [])
  | d :: l =>
      match wrong_action d with
      | Some g => Some (Err (DeviationNeedsExactlyOneAction (pk_name ext) (dv_metric d) g))
      | None =>
          match resolve_selector base (dv_metric d) with
          | Err _ => Some (Err (DeviationSelectorNoMatch (pk_name ext) (dv_metric d) (pk_name base)
                                  (available_selectors base)))
          | Ok index =>
              if bool_decide (index ∈ seen) then
                let! s := pk_metrics base !! index in
                Some (Err (RepeatedDeviationSelector (pk_name ext) (selector s)))
              else
                match resolve_deviations ext base l ({[ index ]} ∪ seen) with
                | Some (Ok ts) => Some (Ok ((index, d) :: ts))
                | r => r
                end
          end
      end
  end.

(** [sort_by_key(|(index, _)| Reverse(index))]. *)
Definition index_ge (a b : nat * Deviation) : Prop := (b.1 <= a.1)%nat.

#[export] Instance index_ge_dec a b : Decision (index_ge a b).
Proof. unfold index_ge. apply _. Defined.

Definition replace_spec (s : MetricSpec) (r : DeviationReplace) : MetricSpec :=
  mk_spec (ms_name s) (ms_id s)
    (match dr_labels r with Some l => Some l | None => ms_labels s end)
    (match dr_generator r with Some g => Some g | None => ms_generator s end)
    (ms_gnmi s) (ms_snmp s).

(** One deviation applied in place: [metrics[index]] and [metrics.remove(index)]
    panic out of range. *)
Definition apply_deviation (l : list MetricSpec) (t : nat * Deviation) : option (list MetricSpec) :=
  let! s := l !! t.1 in
  match dv_replace t.2 with
  | Some r => Some (<[t.1 := replace_spec s r]> l)
  | None => Some (delete t.1 l)
  end.

Fixpoint apply_deviations (ts : list (nat * Deviation)) (l : list MetricSpec)
  : option (list MetricSpec) :=
  match ts with
  | [] => Some l
  | t :: ts => let! l := apply_deviation l t in apply_deviations ts l
  end.

(** The loop that adds the extension's metrics. *)
Fixpoint add_metrics (ext base : MetricPackDef) (added metrics : list MetricSpec)
  : result (list MetricSpec) ExtendError :=
  match added with
  | [] => Ok metrics
  | s :: added =>
      if bool_decide (selector s ∈ (selector <$> pk_metrics base))
      then Err (AddedMetricCollidesWithBase (pk_name ext) (selector s) (pk_name base))
      else add_metrics ext base added (metrics ++ [s])
  end.

(** [merge_shared_labels]. *)
Definition merge_shared_labels (base ext : MetricPackDef) : option LabelMap :=
  match pk_shared_labels base, pk_shared_labels ext with
  | None, None => None
  | Some only, None | None, Some only => Some only
  | Some b, Some e => Some (e ∪ b)
  end.

(** [materialize]; the label columns of the base chained with the extension's,
    collected into a map. *)
Definition materialize (ext base : MetricPackDef) : option (result MetricPackDef ExtendError) :=
  match resolve_deviations ext base (pk_deviations ext) ∅ with
  | None => None
  | Some (Err e) => Some (Err e)
  | Some (Ok targets) =>
      let! metrics := apply_deviations (merge_sort index_ge targets) (pk_metrics base) in
      match add_metrics ext base (pk_metrics ext) metrics with
      | Err e => Some (Err e)
      | Ok metrics =>
          Some (Ok (mk_pack (pk_name ext) (pk_description ext) (pk_category ext) None
            (merge_shared_labels base ext) metrics []
            (fold_left (fun m lc => bt_insert lc.1 lc.2 m)
               (pk_snmp_label_columns base ++ pk_snmp_label_columns ext) [])))
      end
  end.

(** ** Validated packs are addressable *)

Lemma by_name_get l n :
  bt_get n (by_name l) =
  match filter (fun s => ms_name s = n) l with [] => None | fl => Some fl end.
Proof.
  induction l as [|s l IH] using rev_ind; [done|]. unfold by_name in *.
  rewrite fold_left_app. cbn [fold_left]. rewrite bt_get_insert, list.filter_app.
  destruct (String.eqb_spec (ms_name s) n) as [E|E].
  - rewrite (filter_cons_True _ s []) by done. rewrite filter_nil. subst n. rewrite IH.
    by destruct (filter _ l).
  - rewrite (filter_cons_False _ s []) by done. by rewrite filter_nil, app_nil_r.
Qed.

Lemma bt_get_elem {V} k (v : V) m : bt_get k m = Some v -> (k, v) ∈ m.
Proof.
  induction m as [|[k' v'] m IH]; cbn; [done|]. destruct (String.eqb_spec k' k) as [->|].
  - intros [= ->]. by left.
  - intros H. right. by apply IH.
Qed.

Lemma check_groups_elem pack l n specs :
  check_groups pack l = Ok tt -> (n, specs) ∈ l -> check_group pack n specs = Ok tt.
Proof.
  induction l as [|[n' sp'] l IH]; cbn [check_groups]; intros H Hin; [by apply elem_of_nil in Hin|].
  destruct (check_group pack n' sp') as [[]|] eqn:E; [|done].
  apply elem_of_cons in Hin as [[= -> ->]|Hin]; [done|by apply IH].
Qed.

Lemma check_ids_nodup pack name seen l :
  check_ids pack name seen l = Ok tt ->
  NoDup (omap ms_id l) /\ forall id, id ∈ omap ms_id l -> id ∉ seen.
Proof.
  induction l as [|s l IH] in seen |- *; cbn [check_ids]; intros H.
  - cbn. split; [constructor|]. by intros id ?%elem_of_nil.
  - cbn. destruct (ms_id s) as [id|]; [|by apply IH].
    case_bool_decide as Hs; [done|]. apply IH in H as [Hnd Hdis]. split.
    + constructor; [|done]. intros Hin. apply (Hdis id Hin). by left.
    + intros id' [-> |Hin]%elem_of_cons; [done|]. intros Hs'. apply (Hdis id' Hin). by right.
Qed.

(** Two specs that share a name have ids, and different ones. *)
Definition distinct_ids (l : list MetricSpec) : Prop :=
  forall l1 x l2 y l3, l = l1 ++ x :: l2 ++ y :: l3 -> ms_name x = ms_name y ->
    exists idx idy, ms_id x = Some idx /\ ms_id y = Some idy /\ idx <> idy.

Lemma check_group_distinct pack n specs l1 x l2 y l3 :
  check_group pack n specs = Ok tt -> specs = l1 ++ x :: l2 ++ y :: l3 ->
  exists idx idy, ms_id x = Some idx /\ ms_id y = Some idy /\ idx <> idy.
Proof.
  unfold check_group. intros H E.
  assert ((length specs <? 2)%nat = false) as Hl.
  { apply Nat.ltb_ge. rewrite E, length_app. cbn. rewrite length_app. cbn. lia. }
  rewrite Hl in H.
  destruct (0 <? length (filter (fun s => ms_id s = None) specs))%nat eqn:Hw; [done|].
  apply Nat.ltb_ge in Hw.
  assert (Hids : forall s, s ∈ specs -> ms_id s <> None).
  { intros s Hs Hn. destruct (filter (fun s => ms_id s = None) specs) eqn:Ef; [|cbn in Hw; lia].
    assert (s ∈ filter (fun s => ms_id s = None) specs) by (by apply list_elem_of_filter).
    rewrite Ef in *. by apply elem_of_nil in H0. }
  destruct (check_ids pack n [] specs) as [[]|] eqn:Ec; [|done].
  apply check_ids_nodup in Ec as [Hnd _]. subst specs.
  destruct (ms_id x) as [idx|] eqn:Ex; [|by destruct (Hids x); [set_solver|]].
  destruct (ms_id y) as [idy|] eqn:Ey; [|by destruct (Hids y); [set_solver|]].
  exists idx, idy. split; [done|]. split; [done|]. intros ->.
  rewrite omap_app in Hnd. apply NoDup_app in Hnd as (_ & _ & Hnd).
  cbn in Hnd. rewrite Ex in Hnd. apply NoDup_cons in Hnd as [Hn _]. apply Hn.
  rewrite omap_app. cbn. rewrite Ey. set_solver.
Qed.

Lemma validate_pack_names p :
  validate_pack p = Ok tt ->
  (forall s, s ∈ pk_metrics p -> str_contains "."%char (ms_name s) = false) /\
  distinct_ids (pk_metrics p).
Proof.
  unfold validate_pack. intros H.
  destruct (check_dots _ _) as [[]|] eqn:Ed; [|done].
  destruct (check_groups _ _) as [[]|] eqn:Eg; [|done]. split.
  - clear - Ed. induction (pk_metrics p) as [|s l IH]; [by intros s ?%elem_of_nil|].
    cbn [check_dots] in Ed. destruct (str_contains _ (ms_name s)) eqn:Es; [done|].
    intros s' [-> |Hs]%elem_of_cons; [done|by apply IH].
  - intros l1 x l2 y l3 E Hn.
    set (P := fun s => ms_name s = ms_name x).
    assert (Hf : filter P (pk_metrics p) =
      filter P l1 ++ x :: filter P l2 ++ y :: filter P l3).
    { rewrite E. rewrite list.filter_app, (filter_cons_True P x) by done.
      by rewrite list.filter_app, (filter_cons_True P y) by done. }
    pose proof (by_name_get (pk_metrics p) (ms_name x)) as Hb. fold P in Hb. rewrite Hf in Hb.
    assert (Hg : bt_get (ms_name x) (by_name (pk_metrics p)) =
      Some (filter P l1 ++ x :: filter P l2 ++ y :: filter P l3)).
    { rewrite Hb. by destruct (filter P l1). }
    apply bt_get_elem in Hg. eapply check_groups_elem in Hg; [|exact Eg].
    by eapply check_group_distinct.
Qed.

(** Any two positions of specs that share a name. *)
Lemma distinct_ids_pos l i j x y :
  distinct_ids l -> i <> j -> l !! i = Some x -> l !! j = Some y -> ms_name x = ms_name y ->
  exists idx idy, ms_id x = Some idx /\ ms_id y = Some idy /\ idx <> idy.
Proof.
  intros Hd Hne Hi Hj Hn.
  assert (Hlt : forall i j x y, (i < j)%nat -> l !! i = Some x -> l !! j = Some y ->
    ms_name x = ms_name y ->
    exists idx idy, ms_id x = Some idx /\ ms_id y = Some idy /\ idx <> idy).
  { clear - Hd. intros i j x y Hij Hi Hj Hn.
    apply (Hd (take i l) x (take (j - S i) (drop (S i) l)) y (drop (S j) l)); [|done].
    rewrite <- (take_drop_middle l i x Hi) at 1. f_equal. f_equal.
    rewrite <- (take_drop_middle (drop (S i) l) (j - S i) y) at 1.
    - f_equal. f_equal. rewrite drop_drop. f_equal. lia.
    - rewrite lookup_drop. rewrite <- Hj. f_equal. lia. }
  destruct (Nat.lt_trichotomy i j) as [H|[H|H]]; [by eapply Hlt|done|].
  destruct (Hlt j i y x H Hj Hi) as (idy & idx & ? & ? & ?); [done|]. eauto 6.
Qed.

Lemma matching_unique sel l k i :
  (i < length l)%nat ->
  (forall j t, l !! j = Some t -> selects sel t = true <-> j = i) ->
  matching sel k l = [(k + i)%nat].
Proof.
  induction l as [|s l IH] in k, i |- *; intros Hi H; cbn in Hi; [lia|]. cbn [matching].
  destruct i as [|i].
  - assert (selects sel s = true) as -> by (by apply (H 0%nat s)).
    rewrite Nat.add_0_r. f_equal. clear IH Hi.
    assert (Hno : forall t, t ∈ l -> selects sel t = false).
    { intros t [j Hj]%list_elem_of_lookup_1. apply not_true_is_false. intros Ht.
      apply (H (S j) t) in Ht; [done|]. done. }
    clear H. induction l as [|t l IH] in k, Hno |- *; [done|]. cbn [matching].
    rewrite (Hno t) by (by left). apply (IH (S k)). intros t' Ht'. apply Hno. by right.
  - assert (selects sel s = false) as ->.
    { apply not_true_is_false. intros Hs. by apply (H 0%nat s) in Hs. }
    rewrite (IH (S k) i) by (lia || (intros j t Hj; rewrite (H (S j) t Hj); lia)).
    f_equal. lia.
Qed.

Lemma selector_parse_selector s :
  str_contains "."%char (ms_name s) = false ->
  selector_parse (selector s) = mk_selector (ms_name s) (ms_id s).
Proof.
  intros Hd. unfold selector, selector_parse. destruct (ms_id s) as [id|].
  - change ("." +:+ id) with (String "." id). by rewrite split_once_app.
  - by rewrite split_once_none.
Qed.

Lemma resolve_own_selector p i s :
  validate_pack p = Ok tt -> pk_metrics p !! i = Some s -> resolve_selector p (selector s) = Ok i.
Proof.
  intros [Hd Hids]%validate_pack_names Hi.
  assert (Hs : s ∈ pk_metrics p) by (by eapply list_elem_of_lookup_2).
  unfold resolve_selector. rewrite selector_parse_selector by (by apply Hd).
  rewrite (matching_unique _ _ 0 i); [done|by eapply lookup_lt_Some|].
  intros j t Hj. unfold selects. cbn. split.
  - intros [Hn Hid]%andb_true_iff. apply String.eqb_eq in Hn.
    destruct (decide (j = i)) as [|Hne]; [done|]. exfalso.
    destruct (distinct_ids_pos _ _ _ _ _ Hids Hne Hj Hi Hn) as (idt & ids & Et & Es & Hx).
    rewrite Es, Et in Hid. case_bool_decide; congruence.
  - intros ->. rewrite Hi in Hj. injection Hj as <-. rewrite String.eqb_refl. cbn.
    destruct (ms_id s); [|done]. by case_bool_decide.
Qed.

(** A selector that resolves names its metric. *)
Lemma matching_spec sel l k i :
  i ∈ matching sel k l <-> exists t, (k <= i)%nat /\ l !! (i - k)%nat = Some t /\ selects sel t = true.
Proof.
  induction l as [|s l IH] in k |- *; cbn [matching].
  - split; [by intros ?%elem_of_nil|]. intros (t & _ & Hl & _). by rewrite lookup_nil in Hl.
  - assert (Hrec : i ∈ matching sel (S k) l <->
      exists t, (k < i)%nat /\ (s :: l) !! (i - k)%nat = Some t /\ selects sel t = true).
    { rewrite IH. split; intros (t & Hk & Hl & Ht); exists t; (split; [lia|]); (split; [|done]).
      - replace (i - k)%nat with (S (i - S k)) by lia. done.
      - replace (i - k)%nat with (S (i - S k)) in Hl by lia. done. }
    destruct (selects sel s) eqn:Es; [rewrite elem_of_cons|]; rewrite Hrec; split.
    + intros [-> |(t & Hk & Hl & Ht)]; [|exists t; split; [lia|done]].
      exists s. rewrite Nat.sub_diag. done.
    + intros (t & Hk & Hl & Ht). destruct (decide (i = k)); [by left|right].
      exists t. split; [lia|done].
    + intros (t & Hk & Hl & Ht). exists t. split; [lia|done].
    + intros (t & Hk & Hl & Ht). exists t. split; [|done].
      destruct (decide (i = k)) as [->|]; [|lia]. rewrite Nat.sub_diag in Hl. cbn in Hl. congruence.
Qed.

Lemma resolve_selector_spec p raw i :
  resolve_selector p raw = Ok i ->
  exists s, pk_metrics p !! i = Some s /\ selects (selector_parse raw) s = true /\
    forall j t, pk_metrics p !! j = Some t -> selects (selector_parse raw) t = true -> j = i.
Proof.
  unfold resolve_selector. pose proof (matching_spec (selector_parse raw) (pk_metrics p) 0) as Hm.
  destruct (matching _ 0 _) as [|i0 [|? ?]]; [done| |done]. intros [= ->].
  destruct (proj1 (Hm i)) as (s & _ & Hs & Hsel); [by left|]. rewrite Nat.sub_0_r in Hs.
  exists s. split; [done|]. split; [done|]. intros j t Hj Ht.
  apply list_elem_of_singleton. apply Hm. exists t. rewrite Nat.sub_0_r. split; [lia|done].
Qed.
(** A pack that validates is addressable. Every metric's own selector
    resolves to that metric and to no other, and whatever a selector resolves
    to is the only metric it matches. *)
Theorem validated_selectors_resolve p (Hv : validate_pack p = Ok tt) :
  (forall i s, pk_metrics p !! i = Some s -> resolve_selector p (selector s) = Ok i) /\
  (forall raw i, resolve_selector p raw = Ok i ->
     exists s, pk_metrics p !! i = Some s /\ selects (selector_parse raw) s = true /\
     forall j t, pk_metrics p !! j = Some t -> selects (selector_parse raw) t = true -> j = i) /\
  NoDup (selector <$> pk_metrics p).
Proof.
  split; [intros i s Hi; by apply resolve_own_selector|].
  split; [intros raw i; apply resolve_selector_spec|].
  apply NoDup_alt. intros i j x Hi Hj.
  rewrite list_lookup_fmap in Hi, Hj.
  destruct (pk_metrics p !! i) as [s|] eqn:Ei; [|done].
  destruct (pk_metrics p !! j) as [t|] eqn:Ej; [|done]. cbn in Hi, Hj.
  pose proof (resolve_own_selector p i s Hv Ei) as R1.
  pose proof (resolve_own_selector p j t Hv Ej) as R2. simplify_eq. congruence.
Qed.

(** ** Override keys *)

Lemma key_sort_perm keys : merge_sort key_le keys ≡ₚ keys.
Proof. apply merge_sort_Permutation. Qed.

(** What the loop leaves: an entry of the map for every key, and no others. *)
Lemma override_loop_spec p keys m m' :
  override_loop p keys m = Ok m' ->
  (forall key, key ∈ keys -> exists i, resolve_selector p key = Ok i /\ m !! i = None /\ m' !! i = Some key) /\
  (forall i key, m' !! i = Some key -> m !! i = Some key \/ (key ∈ keys /\ resolve_selector p key = Ok i)) /\
  (forall i key, m !! i = Some key -> m' !! i = Some key).
Proof.
  induction keys as [|key keys IH] in m |- *; cbn [override_loop]; intros H.
  - injection H as <-. split; [by intros k ?%elem_of_nil|]. auto.
  - destruct (resolve_selector p key) as [index|] eqn:Er; [|done].
    destruct (m !! index) eqn:Em; [done|]. apply IH in H as (H1 & H2 & H3). split_and!.
    + intros k [-> |Hk]%elem_of_cons.
      * exists index. split; [done|]. split; [done|]. apply H3. by rewrite lookup_insert_eq.
      * destruct (H1 k Hk) as (i & Hi & Hn & Hs). exists i. split; [done|].
        destruct (decide (index = i)) as [->|]; [by rewrite lookup_insert_eq in Hn|].
        by rewrite lookup_insert_ne in Hn.
    + intros i k Hk. apply H2 in Hk as [Hk|[Hk Hr]]; [|right; split; [by right|done]].
      destruct (decide (index = i)) as [->|]; [|left; by rewrite lookup_insert_ne in Hk].
      rewrite lookup_insert_eq in Hk. injection Hk as <-. right. split; [by left|done].
    + intros i k Hk. apply H3. rewrite lookup_insert_ne; [done|]. congruence.
Qed.

Lemma override_loop_complete p keys m :
  NoDup keys ->
  (forall key, key ∈ keys -> exists i, resolve_selector p key = Ok i /\ m !! i = None) ->
  (forall k1 k2 i, k1 ∈ keys -> k2 ∈ keys -> resolve_selector p k1 = Ok i ->
     resolve_selector p k2 = Ok i -> k1 = k2) ->
  exists m', override_loop p keys m = Ok m'.
Proof.
  induction keys as [|key keys IH] in m |- *; intros Hnd Hres Hinj; cbn [override_loop]; [by eauto|].
  apply NoDup_cons in Hnd as [Hk Hnd].
  destruct (Hres key ltac:(by left)) as (i & Hi & Hm). rewrite Hi, Hm.
  apply IH; [done| |].
  - intros k Hin. destruct (Hres k ltac:(by right)) as (j & Hj & Hmj). exists j. split; [done|].
    rewrite lookup_insert_ne; [done|]. intros <-. apply Hk.
    by rewrite (Hinj key k i ltac:(by left) ltac:(by right) Hi Hj).
  - intros k1 k2 j H1 H2. apply Hinj; by right.
Qed.

(** Override keys map to metrics one to one. [resolve_override_keys]
    succeeds, on keys without repetitions and in any order, exactly when every
    key resolves and no two resolve to the same metric; its map then has each
    key at the metric it resolves to, and nothing else. *)
Theorem override_keys_one_to_one p keys (Hnd : NoDup keys) :
  ((exists m, resolve_override_keys p keys = Ok m) <->
   (forall key, key ∈ keys -> exists i, resolve_selector p key = Ok i) /\
   (forall k1 k2 i, k1 ∈ keys -> k2 ∈ keys -> resolve_selector p k1 = Ok i ->
      resolve_selector p k2 = Ok i -> k1 = k2)) /\
  (forall m, resolve_override_keys p keys = Ok m ->
   forall i key, m !! i = Some key <-> key ∈ keys /\ resolve_selector p key = Ok i).
Proof.
  assert (Hspec : forall m, resolve_override_keys p keys = Ok m ->
    forall i key, m !! i = Some key <-> key ∈ keys /\ resolve_selector p key = Ok i).
  { intros m H i key. apply override_loop_spec in H as (H1 & H2 & _). split.
    - intros Hm. apply H2 in Hm as [Hm|[Hm Hr]]; [by rewrite lookup_empty in Hm|].
      by rewrite key_sort_perm in Hm.
    - intros [Hk Hr]. rewrite <- (key_sort_perm keys) in Hk. destruct (H1 key Hk) as (j & Hj & _ & Hm).
      congruence. }
  split; [|done]. split.
  - intros [m Hm]. pose proof (Hspec m Hm) as Hs. split.
    + intros key Hk. apply override_loop_spec in Hm as (H1 & _ & _).
      rewrite <- (key_sort_perm keys) in Hk. destruct (H1 key Hk) as (i & Hi & _). eauto.
    + intros k1 k2 i H1 H2 R1 R2.
      pose proof (proj2 (Hs i k1) (conj H1 R1)). pose proof (proj2 (Hs i k2) (conj H2 R2)). congruence.
  - intros [Hres Hinj]. apply override_loop_complete.
    + by rewrite key_sort_perm.
    + intros key Hk. rewrite key_sort_perm in Hk. destruct (Hres key Hk) as [i Hi]. exists i.
      by rewrite lookup_empty.
    + intros k1 k2 i H1 H2. rewrite key_sort_perm in H1, H2. by apply Hinj.
Qed.

(** ** Expansion *)

Lemma expand_loop_lookup p c keys enc k l i :
  expand_loop p c keys enc k l !! i = expand_one p c keys enc (k + i) <$> l !! i.
Proof.
  induction l as [|s l IH] in k, i |- *; [done|]. destruct i as [|i]; cbn.
  - by rewrite Nat.add_0_r.
  - rewrite IH. by rewrite <- Nat.add_succ_comm.
Qed.

Lemma expand_loop_length p c keys enc k l : length (expand_loop p c keys enc k l) = length l.
Proof. induction l as [|s l IH] in k |- *; [done|]. cbn. by rewrite IH. Qed.

(** The override that addresses the metric at [i]: of the key that resolves to
    it. *)
Definition override_of (p : MetricPackDef) (c : PackScenarioConfig) (i : nat)
    (o : MetricOverride) : Prop :=
  exists ovs key, cf_overrides c = Some ovs /\ ovs !! key = Some o /\ resolve_selector p key = Ok i.

Definition label_of (m : option LabelMap) (k : string) : option string := m ≫= (.!! k).

(** The first of two values that there is. *)
Definition first_of {A : Type} (a b : option A) : option A := match a with Some x => Some x | None => b end.

Lemma merge_labels_lookup m more k :
  merge_labels m more !! k = first_of (label_of more k) (m !! k).
Proof.
  destruct more as [m'|]; cbn; [|done]. rewrite lookup_union. by destruct (m' !! k), (m !! k).
Qed.

Lemma expand_one_labels p c keys enc i s k :
  label_of (en_labels (expand_one p c keys enc i s)) k =
  first_of (match (key ← keys !! i; o ← cf_overrides c; o !! key) with
            | Some o => label_of (mo_labels o) k | None => None end)
    (first_of (label_of (cf_labels c) k)
      (first_of (label_of (ms_labels s) k) (label_of (pk_shared_labels p) k))).
Proof.
  unfold expand_one. cbn [en_labels].
  set (ov := key ← keys !! i; o ← cf_overrides c; o !! key).
  set (labels := match ov with Some o => _ | None => _ end).
  assert (Hl : label_of (if bool_decide (labels = ∅) then None else Some labels) k = labels !! k).
  { case_bool_decide as E; [rewrite E; by rewrite lookup_empty|done]. }
  rewrite Hl. unfold labels. destruct ov as [o|]; rewrite ?merge_labels_lookup.
  all: destruct (pk_shared_labels p); cbn; rewrite ?lookup_empty; reflexivity.
Qed.

(** The override keys as resolved, by the position of their metric. *)
Definition resolved_keys (p : MetricPackDef) (c : PackScenarioConfig) (keys : list string)
  : result (gmap nat string) OverrideKeyError :=
  match cf_overrides c with Some _ => resolve_override_keys p keys | None => Ok ∅ end.

Lemma resolved_override p c keys ks i :
  (forall ovs, cf_overrides c = Some ovs -> keys ≡ₚ (map_to_list ovs).*1) ->
  resolved_keys p c keys = Ok ks ->
  match (key ← ks !! i; o ← cf_overrides c; o !! key) with
  | Some o => override_of p c i o
  | None => forall o, ~ override_of p c i o
  end.
Proof.
  unfold resolved_keys, override_of. intros Hk Erk. destruct (cf_overrides c) as [ovs|].
  2: { injection Erk as <-. rewrite lookup_empty. cbn. intros o (ovs & key & ? & _). done. }
  apply override_loop_spec in Erk as (H1 & H2 & _).
  assert (Hin : forall k, k ∈ merge_sort key_le keys <-> is_Some (ovs !! k)).
  { intros k. rewrite key_sort_perm, (Hk ovs eq_refl), list_elem_of_fmap. split.
    - intros ([k' v] & -> & H'). exists v. by apply elem_of_map_to_list.
    - intros [v H']. exists (k, v). split; [done|]. by apply elem_of_map_to_list. }
  destruct (ks !! i) as [key|] eqn:Ei; cbn.
  - apply H2 in Ei as [Ei|[Hm Hr]]; [by rewrite lookup_empty in Ei|].
    apply Hin in Hm as [o Ho]. rewrite Ho. eauto.
  - intros o (ovs' & key & [= <-] & Ho & Hr).
    destruct (H1 key) as (j & Hj & _ & Hm); [by apply Hin|]. congruence.
Qed.

Lemma expand_pack_spec p c keys entries :
  expand_pack p c keys = Ok entries ->
  exists ks, resolved_keys p c keys = Ok ks /\
    entries = expand_loop p c ks (fold_snmp_hints (fold_gnmi_hints p (cf_encoder c)) p) 0 (pk_metrics p).
Proof.
  unfold expand_pack, resolved_keys. destruct (pk_metrics p) as [|s0 l0] eqn:Ep; [done|].
  destruct (validate_pack p) as [[]|]; [|done]. cbn [map_err].
  destruct (cf_overrides c).
  - destruct (resolve_override_keys p keys) as [ks|]; [|done]. intros [= <-]. eauto.
  - intros [= <-]. eauto.
Qed.

(** Expansion makes one entry per metric, in order, with the documented
    precedence. When it succeeds, entry [i] has the name of metric [i]; each of
    its labels is that of the override addressed to the metric, else of the
    user, else of the metric, else of the pack; its generator is the
    override's, else the metric's, else the constant zero; and all entries
    share the encoder with the pack's hints folded in. *)
Theorem expand_pack_precedence p c keys entries i s
    (Hk : forall ovs, cf_overrides c = Some ovs -> keys ≡ₚ (map_to_list ovs).*1)
    (He : expand_pack p c keys = Ok entries) (Hs : pk_metrics p !! i = Some s) :
  length entries = length (pk_metrics p) /\
  exists e ov, entries !! i = Some e /\
    (match ov with Some o => override_of p c i o | None => forall o, ~ override_of p c i o end) /\
    en_name e = ms_name s /\
    (forall k, label_of (en_labels e) k =
       first_of (ov ≫= fun o => label_of (mo_labels o) k)
         (first_of (label_of (cf_labels c) k)
            (first_of (label_of (ms_labels s) k) (label_of (pk_shared_labels p) k)))) /\
    en_generator e = default constant_zero (first_of (ov ≫= mo_generator) (ms_generator s)) /\
    en_encoder e = fold_snmp_hints (fold_gnmi_hints p (cf_encoder c)) p.
Proof.
  apply expand_pack_spec in He as (ks & Hks & ->).
  split; [apply expand_loop_length|].
  exists (expand_one p c ks (fold_snmp_hints (fold_gnmi_hints p (cf_encoder c)) p) i s).
  exists (key ← ks !! i; o ← cf_overrides c; o !! key).
  split; [by rewrite expand_loop_lookup, Hs|]. split; [by eapply resolved_override|].
  split; [done|]. split; [|split; [|done]].
  - intros k. rewrite expand_one_labels. by destruct (key ← ks !! i; o ← cf_overrides c; o !! key).
  - unfold expand_one. cbn [en_generator].
    destruct (key ← ks !! i; o ← cf_overrides c; o !! key) as [o|]; [|done]. cbn.
    by destruct (mo_generator o).
Qed.

(** *** Hints *)

Lemma or_insert_lookup {V} k (v : V) m k' :
  or_insert k v m !! k' = first_of (m !! k') (if decide (k = k') then Some v else None).
Proof.
  unfold or_insert. destruct (m !! k) eqn:E.
  - destruct (decide (k = k')) as [->|]; [by rewrite E|]. by destruct (m !! k').
  - destruct (decide (k = k')) as [->|]; [by rewrite lookup_insert_eq, E|].
    rewrite lookup_insert_ne by done. by destruct (m !! k').
Qed.

(** ** Extension *)

(** The deviation of the metric at [i]. *)
Fixpoint target_of (ts : list (nat * Deviation)) (i : nat) : option Deviation :=
  match ts with
  | [] => None
  | (j, d) :: ts => if (j =? i)%nat then Some d else target_of ts i
  end.

(** A metric with the fields a replacement names. *)
Definition replaced (r : DeviationReplace) (s : MetricSpec) : MetricSpec :=
  mk_spec (ms_name s) (ms_id s) (first_of (dr_labels r) (ms_labels s))
    (first_of (dr_generator r) (ms_generator s)) (ms_gnmi s) (ms_snmp s).

(** What a deviation leaves of a metric. *)
Definition deviate_one (d : option Deviation) (s : MetricSpec) : list MetricSpec :=
  match d with
  | None => [s]
  | Some d => match dv_replace d with Some r => [replaced r s] | None => [] end
  end.

(** Every metric, from position [i], under its deviation. *)
Fixpoint deviate (ts : list (nat * Deviation)) (i : nat) (l : list MetricSpec) : list MetricSpec :=
  match l with
  | [] => []
  | s :: l => deviate_one (target_of ts i) s ++ deviate ts (S i) l
  end.

Lemma deviate_app ts i a b : deviate ts i (a ++ b) = deviate ts i a ++ deviate ts (i + length a) b.
Proof.
  induction a as [|s a IH] in i |- *; cbn; [by rewrite Nat.add_0_r|].
  rewrite IH, <- app_assoc. by rewrite <- Nat.add_succ_comm.
Qed.

Lemma target_of_none ts i : (forall t, t ∈ ts -> t.1 <> i) -> target_of ts i = None.
Proof.
  induction ts as [|[j d] ts IH]; cbn; intros H; [done|].
  destruct (Nat.eqb_spec j i) as [->|]; [by destruct (H (i, d) ltac:(by left))|].
  apply IH. intros t Ht. apply H. by right.
Qed.

Lemma deviate_ext ts ts' i l :
  (forall j, (i <= j < i + length l)%nat -> target_of ts j = target_of ts' j) ->
  deviate ts i l = deviate ts' i l.
Proof.
  induction l as [|s l IH] in i |- *; cbn; intros H; [done|].
  rewrite (H i) by lia. rewrite IH; [done|]. intros j Hj. apply H. lia.
Qed.

Lemma deviate_nil i l : deviate [] i l = l.
Proof. induction l as [|s l IH] in i |- *; [done|]. cbn. by rewrite IH. Qed.


Definition index_gt (a b : nat * Deviation) : Prop := (b.1 < a.1)%nat.

Lemma deviate_none ts i l : (forall t, t ∈ ts -> (t.1 < i)%nat) -> deviate ts i l = l.
Proof.
  intros H. rewrite (deviate_ext ts []); [apply deviate_nil|].
  intros j Hj. cbn. apply target_of_none. intros t Ht. specialize (H t Ht). lia.
Qed.

Lemma apply_one a x b d :
  apply_deviation (a ++ x :: b) (length a, d) = Some (a ++ deviate_one (Some d) x ++ b).
Proof.
  unfold apply_deviation. cbn. rewrite lookup_app_r, Nat.sub_diag by lia. cbn.
  destruct (dv_replace d) as [r|]; cbn.
  - f_equal. rewrite insert_app_r_alt, Nat.sub_diag by lia. done.
  - f_equal. rewrite delete_middle. done.
Qed.

(** From the last position to the first, every deviation finds its metric where
    it was: the result is that of applying all at once. *)
Lemma apply_deviations_desc ts l :
  StronglySorted index_gt ts -> (forall t, t ∈ ts -> (t.1 < length l)%nat) ->
  apply_deviations ts l = Some (deviate ts 0 l).
Proof.
  induction ts as [|[i d] ts IH] in l |- *; intros Hs Hl; [cbn; by rewrite deviate_nil|].
  apply StronglySorted_inv in Hs as [Hs Hlt]. rewrite list.Forall_forall in Hlt.
  assert (Hi : (i < length l)%nat) by (apply (Hl (i, d)); by left).
  destruct (lookup_lt_is_Some_2 l i Hi) as [x Hx].
  pose proof (take_drop_middle l i x Hx) as El.
  set (a := take i l) in *. set (b := drop (S i) l) in *.
  assert (Ha : length a = i) by (unfold a; rewrite length_take; lia).
  rewrite <- El. cbn [apply_deviations]. rewrite <- Ha at 1. rewrite apply_one.
  rewrite IH; [|done|].
  2: { intros t Ht. specialize (Hlt t Ht). unfold index_gt in Hlt. cbn in Hlt.
       rewrite length_app. lia. }
  f_equal. rewrite (deviate_app ts 0 a), (deviate_app ((i, d) :: ts) 0 a), Ha, Nat.add_0_l. cbn [deviate].
  rewrite (deviate_none ts i) by (intros t Ht; exact (Hlt t Ht)).
  rewrite (deviate_none ((i, d) :: ts) (S i)).
  2: { intros t [-> |Ht]%elem_of_cons; cbn; [lia|]. specialize (Hlt t Ht). unfold index_gt in Hlt.
       cbn in Hlt. lia. }
  assert (target_of ((i, d) :: ts) i = Some d) as -> by (cbn; by rewrite Nat.eqb_refl).
  f_equal. apply deviate_ext. intros j Hj. cbn. destruct (Nat.eqb_spec i j); [lia|done].
Qed.

Lemma target_of_iff ts i d : NoDup ts.*1 -> target_of ts i = Some d <-> (i, d) ∈ ts.
Proof.
  induction ts as [|[j e] ts IH]; cbn; intros Hnd.
  - split; [done|]. by intros ?%elem_of_nil.
  - apply NoDup_cons in Hnd as [Hn Hnd]. rewrite elem_of_cons. destruct (Nat.eqb_spec j i) as [->|Hne].
    + split; [intros [= ->]; by left|]. intros [[= ->]|H]; [done|]. destruct Hn.
      by apply (list_elem_of_fmap_2 fst) in H.
    + rewrite IH by done. split; [by right|]. intros [[= -> ->]|?]; done.
Qed.

#[export] Instance index_ge_total : Total index_ge.
Proof. intros a b. unfold index_ge. lia. Qed.
#[export] Instance index_ge_trans : Transitive index_ge.
Proof. intros a b c. unfold index_ge. lia. Qed.

Lemma sort_targets ts :
  NoDup ts.*1 ->
  StronglySorted index_gt (merge_sort index_ge ts) /\
  forall i l, deviate (merge_sort index_ge ts) i l = deviate ts i l.
Proof.
  intros Hnd. pose proof (merge_sort_Permutation index_ge ts) as Hp.
  assert (Hnd' : NoDup (merge_sort index_ge ts).*1) by (by rewrite Hp).
  split.
  - pose proof (StronglySorted_merge_sort index_ge ts) as Hs. clear Hp.
    induction Hs as [|t l Hs IH Hf]; [constructor|]. cbn in Hnd'.
    apply NoDup_cons in Hnd' as [Hn Hnd']. constructor; [by apply IH|].
    rewrite list.Forall_forall in Hf |- *. intros t' Ht'. specialize (Hf t' Ht').
    unfold index_ge, index_gt in *. assert (t.1 <> t'.1); [|lia].
    intros E. apply Hn. rewrite E. by apply list_elem_of_fmap_2.
  - intros i l. apply deviate_ext. intros j _.
    destruct (target_of ts j) as [d|] eqn:Et.
    + apply target_of_iff; [done|]. rewrite Hp. by apply target_of_iff.
    + destruct (target_of (merge_sort index_ge ts) j) as [d|] eqn:Et'; [|done].
      apply target_of_iff in Et'; [|done]. rewrite Hp in Et'. apply target_of_iff in Et'; [|done].
      congruence.
Qed.

(** *** What addresses a metric, and what is refused *)

(** The metrics a selector means: those of the name, or the one of the name and
    the id after its first dot. *)
Definition means (raw : string) (s : MetricSpec) : Prop :=
  (str_contains "."%char raw = false /\ ms_name s = raw) \/
  (exists id, str_contains "."%char (ms_name s) = false /\ raw = ms_name s +:+ "." +:+ id /\
     ms_id s = Some id).

(** The position of the only metric a selector means. *)
Definition addresses (p : MetricPackDef) (raw : string) (i : nat) : Prop :=
  exists s, pk_metrics p !! i = Some s /\ means raw s /\
    forall j t, pk_metrics p !! j = Some t -> means raw t -> j = i.

(** The two actions of a deviation; a replacement that names no field is none. *)
Definition replaces (d : Deviation) : Prop :=
  exists r, dv_replace d = Some r /\ (dr_generator r <> None \/ dr_labels r <> None).
Definition one_action (d : Deviation) : Prop :=
  (replaces d /\ dv_not_supported d = false) \/ (dv_replace d = None /\ dv_not_supported d = true).

Inductive extend_fault (ext base : MetricPackDef) : ExtendError -> Prop :=
| fault_both d :
    d ∈ pk_deviations ext -> dv_replace d <> None -> dv_not_supported d = true ->
    extend_fault ext base (DeviationNeedsExactlyOneAction (pk_name ext) (dv_metric d) Both)
| fault_neither d :
    d ∈ pk_deviations ext -> ~ replaces d -> dv_not_supported d = false ->
    extend_fault ext base (DeviationNeedsExactlyOneAction (pk_name ext) (dv_metric d) Neither)
| fault_no_match d :
    d ∈ pk_deviations ext -> (forall i, ~ addresses base (dv_metric d) i) ->
    extend_fault ext base (DeviationSelectorNoMatch (pk_name ext) (dv_metric d) (pk_name base)
                             (available_selectors base))
| fault_repeated l1 d1 l2 d2 l3 i s :
    pk_deviations ext = l1 ++ d1 :: l2 ++ d2 :: l3 ->
    addresses base (dv_metric d1) i -> addresses base (dv_metric d2) i ->
    pk_metrics base !! i = Some s ->
    extend_fault ext base (RepeatedDeviationSelector (pk_name ext) (selector s))
| fault_collision s t :
    s ∈ pk_metrics ext -> t ∈ pk_metrics base -> selector t = selector s ->
    extend_fault ext base (AddedMetricCollidesWithBase (pk_name ext) (selector s) (pk_name base)).

Lemma selects_means raw s : selects (selector_parse raw) s = true <-> means raw s.
Proof.
  unfold selects, selector_parse, means. destruct (split_once "."%char raw) as [[n id]|] eqn:E.
  - apply split_once_spec in E as [Hn ->]. cbn [sel_name sel_id].
    rewrite andb_true_iff, String.eqb_eq, bool_decide_eq_true. rewrite str_contains_app. split.
    + intros [-> Hid]. right. by exists id.
    + intros [[Hc _]|(id' & Hn' & Hr & Hid)].
      * apply orb_false_iff in Hc as [_ Hc]. done.
      * assert (Hs : split_once "."%char (n +:+ String "." id) = Some (n, id)) by (by apply split_once_app).
        change ("." +:+ id') with (String "." id') in Hr. rewrite Hr in Hs.
        rewrite split_once_app in Hs by done. injection Hs as -> ->. done.
  - cbn [sel_name sel_id]. rewrite andb_true_r, String.eqb_eq. split.
    + intros ->. left. split; [|done]. destruct (str_contains "."%char raw) eqn:Ec; [|done].
      exfalso. revert E Ec. clear. induction raw as [|c raw IH]; [done|]. cbn [split_once str_contains].
      destruct (Ascii.eqb c "."); [done|]. destruct (split_once "."%char raw) as [[? ?]|]; [done|]. auto.
    + intros [[_ ->]|(id' & Hn' & -> & _)]; [done|]. change ("." +:+ id') with (String "." id') in E.
      by rewrite split_once_app in E.
Qed.

Lemma resolve_selector_addresses p raw i : resolve_selector p raw = Ok i <-> addresses p raw i.
Proof.
  split.
  - intros (s & Hs & Hm & Hu)%resolve_selector_spec. exists s. split; [done|].
    split; [by apply selects_means|]. intros j t Hj Ht. apply (Hu j t Hj). by apply selects_means.
  - intros (s & Hs & Hm & Hu). unfold resolve_selector. rewrite (matching_unique _ _ 0 i); [done| |].
    + by eapply lookup_lt_Some.
    + intros j t Hj. rewrite selects_means. split; [by apply Hu|]. intros ->. by rewrite Hs in Hj; injection Hj as <-.
Qed.

Lemma wrong_action_spec ext base d :
  d ∈ pk_deviations ext ->
  match wrong_action d with
  | Some g => extend_fault ext base (DeviationNeedsExactlyOneAction (pk_name ext) (dv_metric d) g)
  | None => one_action d
  end.
Proof.
  intros Hd. unfold wrong_action, one_action. pose proof (fault_both ext base d Hd) as Hb.
  pose proof (fault_neither ext base d Hd) as Hn. unfold replaces in *.
  destruct (dv_replace d) as [r|], (dv_not_supported d).
  - by apply Hb.
  - destruct (dr_generator r) eqn:Eg; [left; split; [|done]; exists r; rewrite Eg; auto|].
    destruct (dr_labels r) eqn:El; [left; split; [|done]; exists r; rewrite El; auto|].
    apply Hn; [|done]. intros (r' & [= <-] & [?|?]); congruence.
  - by right.
  - apply Hn; [|done]. by intros (r' & [=] & _).
Qed.

(** What the loop over the deviations returns: the targets, in order, or a
    fault. *)
Lemma resolve_deviations_spec ext base done_ l seen :
  pk_deviations ext = done_ ++ l ->
  (forall i, i ∈ seen -> exists d, d ∈ done_ /\ addresses base (dv_metric d) i) ->
  exists r, resolve_deviations ext base l seen = Some r /\
  match r with
  | Err e => extend_fault ext base e
  | Ok ts =>
      ts.*2 = l /\ NoDup ts.*1 /\ (forall t, t ∈ ts -> t.1 ∉ seen) /\
      forall i d, (i, d) ∈ ts -> one_action d /\ addresses base (dv_metric d) i
  end.
Proof.
  induction l as [|d l IH] in done_, seen |- *; intros Hext Hseen; cbn [resolve_deviations].
  { eexists. split; [done|]. cbn. split_and!; [done|constructor| |]; [by intros t ?%elem_of_nil|].
    by intros i d ?%elem_of_nil. }
  assert (Hd : d ∈ pk_deviations ext) by (rewrite Hext; set_solver).
  pose proof (wrong_action_spec ext base d Hd) as Hw.
  destruct (wrong_action d); [by eexists|].
  destruct (resolve_selector base (dv_metric d)) as [index|e] eqn:Er.
  2: { eexists. split; [done|]. apply fault_no_match; [done|].
       intros i Hi. apply resolve_selector_addresses in Hi. congruence. }
  apply resolve_selector_addresses in Er as Ha.
  case_bool_decide as Hs.
  { destruct Ha as (s & Hi & Hrest). rewrite Hi. eexists. split; [done|].
    destruct (Hseen index Hs) as (d1 & Hd1 & Ha1). apply list_elem_of_split in Hd1 as (l1 & l2 & ->).
    apply (fault_repeated _ _ l1 d1 l2 d l index s).
    - rewrite Hext, <- app_assoc. done.
    - done.
    - by exists s.
    - done. }
  destruct (IH (done_ ++ [d]) ({[ index ]} ∪ seen)) as (r & -> & Hr).
  { by rewrite <- app_assoc. }
  { intros i [->%elem_of_singleton|Hi]%elem_of_union; [exists d; split; [set_solver|done]|].
    destruct (Hseen i Hi) as (d' & Hd' & Ha'). exists d'. split; [set_solver|done]. }
  destruct r as [ts|e]; [|by eexists].
  eexists. split; [done|]. destruct Hr as (H1 & H2 & H3 & H4). cbn. split_and!.
  - by rewrite H1.
  - constructor; [|done]. intros Hin. apply list_elem_of_fmap in Hin as (t & E & Ht).
    apply H3 in Ht. set_solver.
  - intros t [-> |Ht]%elem_of_cons; [done|]. apply H3 in Ht. set_solver.
  - intros i d' [[= -> ->]|Ht]%elem_of_cons; [done|by apply H4].
Qed.

Lemma add_metrics_spec ext base added metrics :
  (forall s, s ∈ added -> s ∈ pk_metrics ext) ->
  match add_metrics ext base added metrics with
  | Ok l => l = metrics ++ added /\
      forall s t, s ∈ added -> t ∈ pk_metrics base -> selector t <> selector s
  | Err e => extend_fault ext base e
  end.
Proof.
  induction added as [|s added IH] in metrics |- *; intros Hin; cbn [add_metrics].
  - rewrite app_nil_r. split; [done|]. by intros s t ?%elem_of_nil.
  - case_bool_decide as Hs.
    + apply list_elem_of_fmap in Hs as (t & E & Ht). apply (fault_collision _ _ s t); [|done|done].
      apply Hin. by left.
    + specialize (IH (metrics ++ [s]) (fun s' Hs' => Hin s' (list_elem_of_further _ _ _ Hs'))).
      destruct (add_metrics ext base added (metrics ++ [s])) as [l|e]; [|done]. destruct IH as [-> IH].
      rewrite <- app_assoc. split; [done|]. intros s' t [-> |Hs']%elem_of_cons Ht; [|by apply IH].
      intros E. apply Hs. rewrite <- E. by apply list_elem_of_fmap_2.
Qed.

(** The last column a list gives for a label. *)
Fixpoint last_column (k : string) (l : list (string * LabelColumn)) : option LabelColumn :=
  match l with
  | [] => None
  | (k', c) :: l => first_of (last_column k l) (if String.eqb k' k then Some c else None)
  end.

Lemma collect_columns l k m :
  bt_get k (fold_left (fun m lc => bt_insert lc.1 lc.2 m) l m) = first_of (last_column k l) (bt_get k m).
Proof.
  induction l as [|[k' c] l IH] in m |- *; cbn [fold_left last_column]; [done|].
  rewrite IH, bt_get_insert. cbn [fst snd]. destruct (last_column k l); [done|]. cbn [first_of].
  by destruct (String.eqb k' k).
Qed.

Lemma last_column_app k a b : last_column k (a ++ b) = first_of (last_column k b) (last_column k a).
Proof.
  induction a as [|[k' c] a IH]; cbn [app last_column]; [by destruct (last_column k b)|].
  rewrite IH. by destruct (last_column k b).
Qed.

Lemma collect_sorted l m :
  bt_sorted m -> bt_sorted (fold_left (fun m (lc : string * LabelColumn) => bt_insert lc.1 lc.2 m) l m).
Proof. induction l as [|lc l IH] in m |- *; intros Hm; [done|]. cbn [fold_left]. apply IH. by apply bt_insert_sorted. Qed.

(** Deviations that were all resolved to different metrics have no fault. *)
Lemma no_extend_fault ext base ts :
  ts.*2 = pk_deviations ext -> NoDup ts.*1 ->
  (forall i d, (i, d) ∈ ts -> one_action d /\ addresses base (dv_metric d) i) ->
  (forall s t, s ∈ pk_metrics ext -> t ∈ pk_metrics base -> selector t <> selector s) ->
  forall e, ~ extend_fault ext base e.
Proof.
  intros H1 H2 H4 Hadd e He.
  assert (Hts : forall d, d ∈ pk_deviations ext -> exists i, (i, d) ∈ ts).
  { intros d Hd. rewrite <- H1 in Hd. apply list_elem_of_fmap in Hd as ([i d'] & -> & Ht). by exists i. }
  destruct He as [d Hd Hr Hn|d Hd Hr Hn|d Hd Hno|l1 d1 l2 d2 l3 i s El A1 A2 Hs|s t Hs Ht E].
  - destruct (Hts d Hd) as [i Hi]. by destruct (H4 i d Hi) as [[[_ ?]|[? ?]] _]; congruence.
  - destruct (Hts d Hd) as [i Hi]. by destruct (H4 i d Hi) as [[[? ?]|[? ?]] _]; congruence.
  - destruct (Hts d Hd) as [i Hi]. destruct (H4 i d Hi) as [_ Ha]. by apply (Hno i).
  - rewrite El in H1. apply fmap_app_inv in H1 as (t1 & t' & -> & E' & ->).
    destruct t' as [|[i1 d1'] t']; [done|]. injection E' as -> E'.
    symmetry in E'. apply fmap_app_inv in E' as (t2 & t'' & -> & E'' & ->).
    destruct t'' as [|[i2 d2'] t3]; [done|]. injection E'' as -> E''.
    destruct (H4 i1 d1') as [_ (s1 & Hs1 & Hm1 & _)]; [set_solver|].
    destruct (H4 i2 d2') as [_ (s2 & Hs2 & Hm2 & _)]; [set_solver|].
    destruct A1 as (x1 & _ & _ & U1), A2 as (x2 & _ & _ & U2).
    rewrite (U1 i1 s1 Hs1 Hm1), (U2 i2 s2 Hs2 Hm2) in H2.
    rewrite !fmap_app, !fmap_cons, !fmap_app, !fmap_cons in H2.
    apply NoDup_app in H2 as (_ & _ & H2). cbn in H2. apply NoDup_cons in H2 as [H2 _]. set_solver.
  - by apply (Hadd s t).
Qed.

Lemma merged_labels ext base k :
  label_of (merge_shared_labels base ext) k
  = first_of (label_of (pk_shared_labels ext) k) (label_of (pk_shared_labels base) k).
Proof.
  unfold merge_shared_labels. destruct (pk_shared_labels base) as [b|], (pk_shared_labels ext) as [e|]; cbn; try done.
  - rewrite lookup_union. by destruct (e !! k), (b !! k).
  - by destruct (e !! k).
Qed.

(** C38: an extension folds onto its base as it says. [materialize] never
    indexes out of range. It refuses exactly a pack with a fault, and its error
    is one: a deviation with both or neither of the two actions, or whose
    selector does not mean one metric of the base, two deviations of one metric,
    or an added metric with a selector of the base. Otherwise the metrics are
    the base's, each replaced in the fields its deviation names, removed or kept,
    as if all were applied at once, followed by the extension's; name,
    description and category are the extension's, its shared labels and label
    columns win over the base's, and nothing is left to materialize again. *)
Theorem materialize_correct ext base :
  exists r, materialize ext base = Some r /\
  match r with
  | Err e => extend_fault ext base e
  | Ok p =>
      (forall e, ~ extend_fault ext base e) /\
      (exists ts : list (nat * Deviation),
         ts.*2 = pk_deviations ext /\ NoDup ts.*1 /\
         (forall i d, (i, d) ∈ ts -> one_action d /\ addresses base (dv_metric d) i) /\
         pk_metrics p = deviate ts 0 (pk_metrics base) ++ pk_metrics ext) /\
      (forall k, label_of (pk_shared_labels p) k =
         first_of (label_of (pk_shared_labels ext) k) (label_of (pk_shared_labels base) k)) /\
      bt_sorted (pk_snmp_label_columns p) /\
      (forall k, bt_get k (pk_snmp_label_columns p) =
         first_of (last_column k (pk_snmp_label_columns ext)) (last_column k (pk_snmp_label_columns base))) /\
      pk_name p = pk_name ext /\ pk_description p = pk_description ext /\
      pk_category p = pk_category ext /\ pk_extends p = None /\ pk_deviations p = []
  end.
Proof.
  unfold materialize.
  destruct (resolve_deviations_spec ext base [] (pk_deviations ext) ∅) as (r & -> & Hr); [done|set_solver|].
  destruct r as [ts|e]; [|by eexists]. destruct Hr as (H1 & H2 & _ & H4).
  destruct (sort_targets ts H2) as [Hsort Hdev].
  rewrite apply_deviations_desc; [|done|].
  2: { intros [i d] Ht. rewrite (merge_sort_Permutation index_ge ts) in Ht.
       destruct (H4 i d Ht) as [_ (s & Hs & _)]. by eapply lookup_lt_Some. }
  pose proof (add_metrics_spec ext base (pk_metrics ext) (deviate (merge_sort index_ge ts) 0 (pk_metrics base))
    (fun s Hs => Hs)) as Ha.
  destruct (add_metrics ext base (pk_metrics ext) _) as [metrics|e]; [|by eexists].
  destruct Ha as [-> Hadd]. eexists. split; [done|]. cbn.
  split; [by apply (no_extend_fault ext base ts)|].
  split; [exists ts; split_and!; try done; by rewrite Hdev|].
  split; [apply merged_labels|]. split; [apply collect_sorted; constructor|]. split; [|done].
  intros k. rewrite collect_columns, last_column_app. cbn [bt_get].
  destruct (last_column k (pk_snmp_label_columns ext)); [done|]. by destruct (last_column k _).
Qed.

End packs.

(** ** A concrete pack *)

Definition demo_metric (name : string) (id : option string) (labels : option LabelMap)
  : MetricSpec (Gen := Z) := mk_spec name id labels None None None.

Definition demo_pack : MetricPackDef (Gen := Z) :=
  mk_pack "cpu" "" "" None (Some {[ "job" := "node" ]}%string)
    [demo_metric "cpu" (Some "user"%string) (Some {[ "mode" := "user" ]}%string);
     demo_metric "cpu" (Some "idle"%string) (Some {[ "mode" := "idle" ]}%string);
     demo_metric "load" None None] [] [].

Lemma validated_selectors_resolve_witness :
  resolve_selector demo_pack "cpu.idle" = Ok 1%nat /\
  NoDup (selector <$> pk_metrics demo_pack).
Proof.
  destruct (validated_selectors_resolve demo_pack) as (H1 & _ & H3); [reflexivity|].
  split; [|exact H3].
  exact (H1 1%nat (demo_metric "cpu" (Some "idle"%string) (Some {[ "mode" := "idle" ]}%string)) eq_refl).
Defined.

Lemma override_keys_one_to_one_witness :
  exists m, resolve_override_keys demo_pack ["load"; "cpu.user"]%string = Ok m /\
    m !! 2%nat = Some "load"%string.
Proof.
  destruct (override_keys_one_to_one demo_pack ["load"; "cpu.user"]%string) as [_ H].
  - apply NoDup_cons. split; [by intros ?%list_elem_of_singleton|apply NoDup_singleton].
  - eexists. split; [reflexivity|]. apply (H _ eq_refl). split; [by left|reflexivity].
Defined.

Definition demo_override : MetricOverride (Gen := Z) (Clauses := unit) :=
  mk_override (Some 7) (Some {[ "job" := "override" ]}%string) tt.

Definition demo_config : PackScenarioConfig (Gen := Z) (Sink := unit) (Encoder := unit) (Clauses := unit) :=
  mk_config "cpu" 1 None (Some {[ "mode" := "user-label" ]}%string) tt (EncOther tt)
    (Some {[ "cpu.idle"%string := demo_override ]}).

Lemma expand_pack_precedence_witness :
  exists entries e, expand_pack 0 demo_pack demo_config ["cpu.idle"%string] = Ok entries /\
    entries !! 1%nat = Some e /\ en_name e = "cpu"%string.
Proof.
  destruct (expand_pack 0 demo_pack demo_config ["cpu.idle"%string]) as [entries|] eqn:E;
    [|exfalso; vm_compute in E; discriminate].
  destruct (expand_pack_precedence 0 demo_pack demo_config ["cpu.idle"%string] entries 1
    (demo_metric "cpu" (Some "idle"%string) (Some {[ "mode" := "idle" ]}%string)))
    as (_ & e & ov & He & _ & Hn & _).
  - intros ovs [= <-]. rewrite map_to_list_singleton. reflexivity.
  - exact E.
  - reflexivity.
  - exists entries, e. split; [reflexivity|]. split; [exact He|exact Hn].
Defined.

(** An extension that replaces the generator of one metric, takes another away
    and adds one. *)
Definition demo_extension (added : string) : MetricPackDef (Gen := Z) :=
  mk_pack "cpu-lab" "lab" "test" (Some "cpu"%string) (Some {[ "job" := "lab" ]}%string)
    [demo_metric added None None]
    [mk_deviation "load" None true;
     mk_deviation "cpu.user" (Some (mk_replace (Some 7) None)) false]
    [("host", LText "1.2.3.{x}")]%string.

Lemma materialize_correct_witness :
  exists p, materialize (demo_extension "uptime") demo_pack = Some (Ok p) /\
    pk_metrics p =
      [mk_spec "cpu" (Some "user"%string) (Some {[ "mode" := "user" ]}%string) (Some 7) None None;
       demo_metric "cpu" (Some "idle"%string) (Some {[ "mode" := "idle" ]}%string);
       demo_metric "uptime" None None] /\
    label_of (pk_shared_labels p) "job" = Some "lab"%string /\
    extend_fault (demo_extension "load") demo_pack (AddedMetricCollidesWithBase "cpu-lab" "load" "cpu").
Proof.
  destruct (materialize (demo_extension "uptime") demo_pack) as [[p|e]|] eqn:E;
    [|exfalso; vm_compute in E; discriminate..].
  exists p. split; [reflexivity|].
  split; [vm_compute in E; injection E as <-; vm_compute; reflexivity|].
  split.
  - destruct (materialize_correct (demo_extension "uptime") demo_pack) as (r & Er & Hr).
    rewrite E in Er. injection Er as <-. destruct Hr as (_ & _ & Hl & _). rewrite (Hl "job"%string).
    vm_compute. reflexivity.
  - destruct (materialize_correct (demo_extension "load") demo_pack) as (r & Er & Hr).
    assert (E2 : materialize (demo_extension "load") demo_pack
                 = Some (Err (AddedMetricCollidesWithBase "cpu-lab" "load" "cpu")))
      by (vm_compute; reflexivity).
    rewrite E2 in Er. injection Er as <-. exact Hr.
Defined.
