(* ===== verification/AfterGraph.v ===== *)
(** * AfterGraph: the dependency graph of a scenario file (compiler/compile_after.rs)

    The compiler orders the entries of a file along their [after:] and
    [while:] clauses. This file models the reference index, the checks of the
    references, Kahn's topological sort with its in-degrees and queue, and the
    depth-first search with white, grey and black nodes that names a cycle when
    the sort falls short. The theorems: the sort never panics, lists every
    target ahead of its dependents and covers the file exactly when there is no
    cycle; and when it does not, the search returns a real, simple cycle with
    the right clause on every edge; and it refuses a file exactly for the faults
    that [order_fault] spells out. *)

From Stdlib Require Import ZArith Lia Ascii Sorted.
From stdpp Require Import prelude strings list relations fin_sets.
From S2P Require Import Prelude Text Metric F64 GateBus GateRegistry.

#[local] Open Scope nat_scope.

(** [ClauseKind]. *)
Inductive ClauseKind := KAfter | KWhile.

#[export] Instance ClauseKind_eq_dec : EqDecision ClauseKind.
Proof. solve_decision. Defined.

(** [AfterOp] and [AfterClause]. *)
Inductive AfterOp := OpLessThan | OpGreaterThan.

Record AfterClause := mk_after_clause {
  ac_ref_id : string;
  ac_op : AfterOp;
  ac_value : f64;
  ac_delay : option string;
}.

(** [WhileClause]. *)
Record WhileClause := mk_while_clause {
  wc_ref_id : string;
  wc_op : WhileOp;
  wc_value : f64;
  wc_scenario_name : option string;
  wc_if_unresolved : option UnresolvedBehavior;
}.

(** [ExpandedEntry], the fields that decide order and grouping. *)
Record ExpandedEntry := mk_expanded {
  xe_id : option string;
  xe_name : string;
  xe_clock_group : option string;
  xe_after : option AfterClause;
  xe_while : option WhileClause;
}.

(** [CompileAfterError], the variants the graph raises. *)
Inductive GraphError :=
| UnknownRef (source_id ref_id : string) (clause : ClauseKind) (available : string)
| AmbiguousSubSignalRef (ref_id pack_entry_id candidates : string) (candidate_count : nat)
| SelfReference (source_id : string) (clause : ClauseKind)
| CircularDependency (cycle : list (string * ClauseKind))
| ConflictingClockGroup (first_entry first_group second_entry second_group : string).

(** ** References *)

(** [build_id_index]: the entries from index [i] on. *)
Fixpoint index_from (i : nat) (l : list ExpandedEntry) (m : list (string * nat))
  : list (string * nat) :=
  match l with
  | [] => m
  | e :: l =>
      index_from (S i) l (match xe_id e with Some id => bt_insert id i m | None => m end)
  end.

Definition build_id_index (entries : list ExpandedEntry) : list (string * nat) :=
  index_from 0 entries [].

(** [source_label]. *)
Definition source_label (e : ExpandedEntry) : string :=
  match xe_id e with
  | Some id => id
  | None => "<anonymous:" +:+ xe_name e +:+ ">"
  end.

(** [is_deferred_while]. *)
Definition is_deferred_while (c : WhileClause) (file_scenario_name : option string) : bool :=
  match wc_scenario_name c with
  | Some name => negb (bool_decide (Some name = file_scenario_name))
  | None => false
  end.

(** [outgoing_edges]: the [after:] edge, then the [while:] edge. *)
Definition outgoing_edges (e : ExpandedEntry) (file_scenario_name : option string)
  : list (string * ClauseKind) :=
  match xe_after e with Some c => [(ac_ref_id c, KAfter)] | None => [] end ++
  match xe_while e with
  | Some c => if is_deferred_while c file_scenario_name then [] else [(wc_ref_id c, KWhile)]
  | None => []
  end.

(** [s.rsplit_once(c)]. *)
Fixpoint rsplit_once (c : ascii) (s : string) : option (string * string) :=
  match s with
  | EmptyString => None
  | String c' s =>
      match rsplit_once c s with
      | Some (a, b) => Some (String c' a, b)
      | None => if Ascii.eqb c' c then Some (EmptyString, s) else None
      end
  end.

(** [resolve_reference]. *)
Definition resolve_reference (ref_id : string) (id_to_idx : list (string * nat))
    (source_id : string) (clause : ClauseKind) : result nat GraphError :=
  match bt_get ref_id id_to_idx with
  | Some idx => Ok idx
  | None =>
      let candidates := filter (fun k => String.prefix (ref_id +:+ ".") k = true) id_to_idx.*1 in
      if 1 <? length candidates then
        let pack_entry_id :=
          match rsplit_once "."%char ref_id with Some (before, _) => before | None => ref_id end in
        Err (AmbiguousSubSignalRef ref_id pack_entry_id (join ", " candidates)
               (length candidates))
      else Err (UnknownRef source_id ref_id clause (join ", " id_to_idx.*1))
  end.

(** The inner loop of the checks of [compile_after]. *)
Fixpoint check_edges (e : ExpandedEntry) (id_to_idx : list (string * nat))
    (es : list (string * ClauseKind)) : result unit GraphError :=
  match es with
  | [] => Ok tt
  | (ref_id, clause) :: es =>
      let? _ := resolve_reference ref_id id_to_idx (source_label e) clause in
      if bool_decide (xe_id e = Some ref_id) then Err (SelfReference (source_label e) clause)
      else check_edges e id_to_idx es
  end.

(** The outer one, over the entries. *)
Fixpoint check_refs (file_scenario_name : option string) (id_to_idx : list (string * nat))
    (l : list ExpandedEntry) : result unit GraphError :=
  match l with
  | [] => Ok tt
  | e :: l =>
      let? _ := check_edges e id_to_idx (outgoing_edges e file_scenario_name) in
      check_refs file_scenario_name id_to_idx l
  end.

(** ** The graph and its topological sort *)

(** [v[i] = f(v[i])]; [None] is the panic of an index out of range. *)
Definition update_at {A : Type} (f : A -> A) (i : nat) (l : list A) : option (list A) :=
  if i <? length l then Some (alter f i l) else None.

Record Graph := mk_graph {
  in_degree : list nat;
  dependents : list (list (nat * ClauseKind));
}.

(** The edges of the entry [i]. *)
Fixpoint add_edges (id_to_idx : list (string * nat)) (i : nat) (es : list (string * ClauseKind))
    (g : Graph) : option Graph :=
  match es with
  | [] => Some g
  | (ref_id, clause) :: es =>
      let! dep_idx := bt_get ref_id id_to_idx in
      let! deg := update_at S i (in_degree g) in
      let! deps := update_at (fun l => l ++ [(i, clause)]) dep_idx (dependents g) in
      add_edges id_to_idx i es (mk_graph deg deps)
  end.

Fixpoint graph_from (file_scenario_name : option string) (id_to_idx : list (string * nat))
    (i : nat) (l : list ExpandedEntry) (g : Graph) : option Graph :=
  match l with
  | [] => Some g
  | e :: l =>
      let! g := add_edges id_to_idx i (outgoing_edges e file_scenario_name) g in
      graph_from file_scenario_name id_to_idx (S i) l g
  end.

(** The in-degrees and the adjacency [compile_after] builds. *)
Definition build_graph (file_scenario_name : option string) (id_to_idx : list (string * nat))
    (entries : list ExpandedEntry) : option Graph :=
  let n := length entries in
  graph_from file_scenario_name id_to_idx 0 entries (mk_graph (replicate n 0) (replicate n [])).

(** The loop over the dependents of a node taken from the queue; [None] is
    the panic of an index out of range or of [0 - 1]. *)
Fixpoint relax (ds : list (nat * ClauseKind)) (deg : list nat) (queue : list nat)
  : option (list nat * list nat) :=
  match ds with
  | [] => Some (deg, queue)
  | (d, _) :: ds =>
      match deg !! d with
      | Some (S k) => relax ds (<[d := k]> deg) (if k =? 0 then queue ++ [d] else queue)
      | _ => None
      end
  end.

(** The [while let] loop over the queue; [None] also when [fuel] turns were
    not enough. *)
Fixpoint kahn (fuel : nat) (deps : list (list (nat * ClauseKind))) (deg queue sorted : list nat)
  : option (list nat) :=
  match fuel with
  | O => None
  | S fuel =>
      match queue with
      | [] => Some sorted
      | idx :: queue =>
          let! ds := deps !! idx in
          let! (deg, queue) := relax ds deg queue in
          kahn fuel deps deg queue (sorted ++ [idx])
      end
  end.

(** The sort of [compile_after]: every node enters the queue at most once, so
    one turn per entry and one to see the queue empty are enough. *)
Definition topo_sort (file_scenario_name : option string) (id_to_idx : list (string * nat))
    (entries : list ExpandedEntry) : option (list nat) :=
  let n := length entries in
  let! g := build_graph file_scenario_name id_to_idx entries in
  kahn (S n) (dependents g) (in_degree g)
    (filter (fun i => in_degree g !! i = Some 0) (seq 0 n)) [].

(** ** The search for a cycle *)

Inductive Color := White | Gray | Black.

#[export] Instance Color_eq_dec : EqDecision Color.
Proof. solve_decision. Defined.

Abbreviation cycle_path := (list (nat * ClauseKind)).

(** [last.1 = clause] through [path.last_mut()]. *)
Fixpoint set_last_kind (path : cycle_path) (clause : ClauseKind) : cycle_path :=
  match path with
  | [] => []
  | [(x, _)] => [(x, clause)]
  | p :: path => p :: set_last_kind path clause
  end.

(** [path.iter().position(|&(x, _)| x == dep)]. *)
Fixpoint position_of (dep : nat) (path : cycle_path) : option nat :=
  match path with
  | [] => None
  | (x, _) :: path => if x =? dep then Some 0 else S <$> position_of dep path
  end.

(** The loop of [dfs] over the edges of a node. What it returns is a cycle on
    the left, or the colours and the path; [rec] is the recursive call. *)
Fixpoint dfs_edges
    (rec : nat -> list Color -> cycle_path -> option (cycle_path + list Color * cycle_path))
    (id_to_idx : list (string * nat)) (node : nat) (es : list (string * ClauseKind))
    (color : list Color) (path : cycle_path)
  : option (cycle_path + list Color * cycle_path) :=
  match es with
  | [] =>
      let! color := update_at (fun _ => Black) node color in
      Some (inr (color, removelast path))
  | (ref_id, clause) :: es =>
      match bt_get ref_id id_to_idx with
      | None => dfs_edges rec id_to_idx node es color path
      | Some dep =>
          let path := set_last_kind path clause in
          match color !! dep with
          | None => None
          | Some White =>
              match rec dep color path with
              | None => None
              | Some (inl cycle) => Some (inl cycle)
              | Some (inr (color, path)) => dfs_edges rec id_to_idx node es color path
              end
          | Some Gray =>
              let start := default 0 (position_of dep path) in
              Some (inl (drop start path ++ [(dep, clause)]))
          | Some Black => dfs_edges rec id_to_idx node es color path
          end
      end
  end.

(** [dfs], to a depth of [fuel]. *)
Fixpoint dfs (fuel : nat) (entries : list ExpandedEntry) (id_to_idx : list (string * nat))
    (file_scenario_name : option string) (node : nat) (color : list Color) (path : cycle_path)
  : option (cycle_path + list Color * cycle_path) :=
  match fuel with
  | O => None
  | S fuel =>
      let! color := update_at (fun _ => Gray) node color in
      let path := path ++ [(node, KAfter)] in
      let! e := entries !! node in
      dfs_edges (dfs fuel entries id_to_idx file_scenario_name) id_to_idx node
        (outgoing_edges e file_scenario_name) color path
  end.

(** The loop of [find_cycle] over the starts. *)
Fixpoint find_cycle_from (entries : list ExpandedEntry) (id_to_idx : list (string * nat))
    (file_scenario_name : option string) (starts : list nat) (color : list Color)
    (path : cycle_path) : option (option cycle_path) :=
  match starts with
  | [] => Some None
  | start :: starts =>
      let! c := color !! start in
      if decide (c = White) then
        match dfs (S (length entries)) entries id_to_idx file_scenario_name start color path with
        | None => None
        | Some (inl cycle) => Some (Some cycle)
        | Some (inr (color, path)) =>
            find_cycle_from entries id_to_idx file_scenario_name starts color path
        end
      else find_cycle_from entries id_to_idx file_scenario_name starts color path
  end.

(** The label of the entry [i] in a cycle. *)
Definition label_at (entries : list ExpandedEntry) (p : nat * ClauseKind)
  : option (string * ClauseKind) :=
  let! e := entries !! p.1 in Some (source_label e, p.2).

(** [find_cycle]; each call of [dfs] greys a white node, so a depth of one
    more than there are entries is enough. *)
Definition find_cycle (entries : list ExpandedEntry) (id_to_idx : list (string * nat))
    (file_scenario_name : option string) : option (list (string * ClauseKind)) :=
  let n := length entries in
  let! found := find_cycle_from entries id_to_idx file_scenario_name (seq 0 n)
                  (replicate n White) [] in
  match found with
  | Some cycle => mapM (label_at entries) cycle
  | None => Some [("<unknown cycle>", KAfter)]
  end.

(** The part of [compile_after] that orders the entries. *)
Definition order_entries (file_scenario_name : option string) (entries : list ExpandedEntry)
  : option (result (list nat) GraphError) :=
  let id_to_idx := build_id_index entries in
  match check_refs file_scenario_name id_to_idx entries with
  | Err e => Some (Err e)
  | Ok _ =>
      let! sorted := topo_sort file_scenario_name id_to_idx entries in
      if length sorted <? length entries then
        let! cycle := find_cycle entries id_to_idx file_scenario_name in
        Some (Err (CircularDependency cycle))
      else Some (Ok sorted)
  end.

(** ** References resolve *)

(** Entry [i] refers to entry [d] by a clause of kind [k]. *)
Definition depends (file_scenario_name : option string) (entries : list ExpandedEntry)
    (i d : nat) (k : ClauseKind) : Prop :=
  exists e ref_id, entries !! i = Some e /\
    (ref_id, k) ∈ outgoing_edges e file_scenario_name /\
    bt_get ref_id (build_id_index entries) = Some d.

Definition dep (file_scenario_name : option string) (entries : list ExpandedEntry)
    (i d : nat) : Prop :=
  exists k, depends file_scenario_name entries i d k.

(** Every clause names an entry of the file, and not its own. *)
Definition refs_ok (file_scenario_name : option string) (entries : list ExpandedEntry) : Prop :=
  forall i e ref_id k, entries !! i = Some e ->
    (ref_id, k) ∈ outgoing_edges e file_scenario_name ->
    xe_id e <> Some ref_id /\ exists d, bt_get ref_id (build_id_index entries) = Some d.

Lemma index_from_get i l m id d :
  bt_get id (index_from i l m) = Some d ->
  bt_get id m = Some d \/ exists j e, d = i + j /\ l !! j = Some e /\ xe_id e = Some id.
Proof.
  induction l as [|e l IH] in i, m |- *; cbn [index_from]; [by left|].
  intros [H|(j & e' & -> & Hj & He)]%IH.
  - destruct (xe_id e) as [id'|] eqn:Ee; [|by left].
    rewrite bt_get_insert in H. destruct (String.eqb_spec id' id) as [->|]; [|by left].
    injection H as <-. right. exists 0, e. split; [lia|done].
  - right. exists (S j), e'. split; [lia|done].
Qed.

Lemma id_index_get entries id d :
  bt_get id (build_id_index entries) = Some d ->
  exists e, entries !! d = Some e /\ xe_id e = Some id.
Proof.
  intros [H|(j & e & -> & Hj & He)]%index_from_get; [done|]. by exists e.
Qed.

Lemma check_edges_ok e m es :
  check_edges e m es = Ok tt <->
  forall r k, (r, k) ∈ es -> xe_id e <> Some r /\ exists d, bt_get r m = Some d.
Proof.
  induction es as [|[r k] es IH]; cbn [check_edges].
  { split; [|done]. intros _ r k H. by apply elem_of_nil in H. }
  unfold resolve_reference. destruct (bt_get r m) as [d|] eqn:E.
  - case_bool_decide as Hs.
    + split; [done|]. intros H. destruct (H r k) as [H' _]; [by left|done].
    + rewrite IH. split; intros H r' k' H'.
      * apply elem_of_cons in H' as [[= -> ->]|H']; [by eauto|by apply (H r' k')].
      * apply (H r' k'). by right.
  - split.
    + by destruct (1 <? _).
    + intros H. destruct (H r k) as [_ [d Hd]]; [by left|congruence].
Qed.

Lemma check_refs_ok scen entries :
  check_refs scen (build_id_index entries) entries = Ok tt <-> refs_ok scen entries.
Proof.
  unfold refs_ok. generalize (build_id_index entries). intros m.
  induction entries as [|e l IH]; cbn [check_refs]; [done|].
  destruct (check_edges e m _) as [[]|err] eqn:E.
  - rewrite IH. rewrite check_edges_ok in E. split; intros H i e' r k Hi.
    + destruct i as [|i]; [injection Hi as <-; by apply E|by apply (H i)].
    + apply (H (S i) e' r k Hi).
  - split; [done|]. intros H. assert (check_edges e m (outgoing_edges e scen) = Ok tt); [|congruence].
    apply check_edges_ok. intros r k. by apply (H 0).
Qed.

(** ** The graph that is built *)

(** How many edges go from a node to [i], and from the nodes not yet done. *)
Definition count (i : nat) (ds : list (nat * ClauseKind)) : nat :=
  length (filter (fun p : nat * ClauseKind => p.1 = i) ds).

Definition waiting (deps : list (list (nat * ClauseKind))) (done : list nat) (i : nat) : nat :=
  sum_list_with (fun d => if decide (d ∈ done) then 0 else count i (default [] (deps !! d)))
    (seq 0 (length deps)).

Lemma count_cons i p ds : count i (p :: ds) = (if decide (p.1 = i) then 1 else 0) + count i ds.
Proof. unfold count. rewrite filter_cons. by destruct (decide _). Qed.

Lemma count_app i ds ds' : count i (ds ++ ds') = count i ds + count i ds'.
Proof. unfold count. by rewrite filter_app, length_app. Qed.

Lemma count_pos i ds : count i ds <> 0 <-> exists k, (i, k) ∈ ds.
Proof.
  induction ds as [|[j k] ds IH].
  - split; [done|]. intros [k H]. by apply elem_of_nil in H.
  - rewrite count_cons. cbn [fst]. destruct (decide (j = i)) as [->|].
    + split; [|lia]. intros _. exists k. by left.
    + cbn. rewrite IH. split; intros [k' H]; exists k'; [by right|].
      by apply elem_of_cons in H as [[= -> ->]|H].
Qed.

Lemma sum_list_with_ext {A} (f g : A -> nat) l :
  (forall x, x ∈ l -> f x = g x) -> sum_list_with f l = sum_list_with g l.
Proof.
  induction l as [|a l IH]; intros H; [done|]. cbn. rewrite (H a) by (by left).
  rewrite IH; [done|]. intros x Hx. apply H. by right.
Qed.

(** The terms of a sum over distinct indices differ in one of them. *)
Lemma sum_list_with_bump (f g : nat -> nat) l x c :
  NoDup l -> x ∈ l -> f x = g x + c -> (forall y, y <> x -> f y = g y) ->
  sum_list_with f l = sum_list_with g l + c.
Proof.
  induction l as [|a l IH]; intros Hnd Hx Hc Ho; [by apply elem_of_nil in Hx|].
  apply NoDup_cons in Hnd as [Ha Hnd]. cbn. apply elem_of_cons in Hx as [<-|Hx].
  - rewrite Hc, (sum_list_with_ext f g l); [lia|].
    intros y Hy. apply Ho. by intros ->.
  - rewrite (IH Hnd Hx Hc Ho), (Ho a); [lia|]. by intros ->.
Qed.

Lemma update_at_some {A} (f : A -> A) i l l' :
  update_at f i l = Some l' <-> i < length l /\ l' = alter f i l.
Proof.
  unfold update_at. destruct (Nat.ltb_spec i (length l)).
  - split; [by intros [= <-]|by intros [_ ->]].
  - split; [done|lia].
Qed.

(** In-degrees count the edges. *)
Definition degrees_ok (n : nat) (g : Graph) : Prop :=
  length (in_degree g) = n /\ length (dependents g) = n /\
  forall i, i < n -> in_degree g !! i = Some (waiting (dependents g) [] i).

(** Adding the edge from [dep] to [i]. *)
Lemma waiting_add deps i k dep_ j :
  dep_ < length deps ->
  waiting (alter (fun l => l ++ [(i, k)]) dep_ deps) [] j
  = waiting deps [] j + (if decide (i = j) then 1 else 0).
Proof.
  intros Hd. unfold waiting. rewrite length_alter.
  apply (sum_list_with_bump _ _ _ dep_).
  - apply NoDup_seq.
  - apply elem_of_seq. lia.
  - rewrite list_lookup_alter_eq. destruct (lookup_lt_is_Some_2 deps dep_ Hd) as [l Hl].
    rewrite Hl, !decide_False by (by apply not_elem_of_nil).
    change (count j (l ++ [(i, k)]) = count j l + (if decide (i = j) then 1 else 0)).
    rewrite count_app, count_cons. cbn [fst]. change (count j []) with 0. lia.
  - intros y Hy. by rewrite list_lookup_alter_ne.
Qed.

(** The edges in the graph: those of [edge]. *)
Definition edges_ok (edge : nat -> nat -> ClauseKind -> Prop) (g : Graph) : Prop :=
  forall d i k, (exists ds, dependents g !! d = Some ds /\ (i, k) ∈ ds) <-> edge i d k.

Lemma add_edges_spec n m i es g edge :
  degrees_ok n g -> edges_ok edge g -> i < n ->
  (forall r k, (r, k) ∈ es -> exists d, bt_get r m = Some d /\ d < n) ->
  exists g', add_edges m i es g = Some g' /\ degrees_ok n g' /\
    edges_ok (fun i' d k => edge i' d k \/
      i' = i /\ exists r, (r, k) ∈ es /\ bt_get r m = Some d) g'.
Proof.
  induction es as [|[r k] es IH] in g, edge |- *; intros Hd He Hi Hr; cbn [add_edges].
  { exists g. split; [done|split; [done|]]. intros d i' k. rewrite (He d i' k).
    split; [by left|]. intros [H|(-> & r & H & _)]; [done|by apply elem_of_nil in H]. }
  destruct (Hr r k) as (d & Hg & Hdn); [by left|]. rewrite Hg.
  destruct Hd as (Hl1 & Hl2 & Hw).
  unfold update_at. rewrite (proj2 (Nat.ltb_lt _ _)) by lia.
  rewrite (proj2 (Nat.ltb_lt _ _)) by lia.
  set (g1 := mk_graph (alter S i (in_degree g)) (alter (fun l => l ++ [(i, k)]) d (dependents g))).
  destruct (IH g1 (fun i' d' k' => edge i' d' k' \/ i' = i /\ d' = d /\ k' = k))
    as (g' & Hg' & Hd' & He').
  - split; [by cbn; rewrite length_alter|split; [by cbn; rewrite length_alter|]].
    intros j Hj. cbn [in_degree dependents g1]. rewrite waiting_add by lia.
    destruct (decide (i = j)) as [->|Hn].
    + rewrite list_lookup_alter_eq, Hw by done. cbn. f_equal. lia.
    + rewrite list_lookup_alter_ne, Hw by done. f_equal. lia.
  - intros d' i' k'. cbn [dependents g1]. destruct (decide (d' = d)) as [->|Hn].
    + rewrite list_lookup_alter_eq. destruct (lookup_lt_is_Some_2 (dependents g) d) as [ds Hds]; [lia|].
      rewrite Hds. cbn. rewrite <- (He d i' k'). split.
      * intros (ds' & [= <-] & H). apply elem_of_app in H as [H|H]; [left; by exists ds|right].
        apply list_elem_of_singleton in H. by injection H as -> ->.
      * intros [(ds' & H & Hin)|(-> & _ & ->)]; eexists; (split; [done|]); apply elem_of_app.
        -- left. congruence.
        -- right. by apply list_elem_of_singleton.
    + rewrite list_lookup_alter_ne by done. rewrite (He d' i' k').
      split; [by left|]. intros [H|(_ & -> & _)]; done.
  - done.
  - intros r' k' H. apply (Hr r' k'). by right.
  - exists g'. split; [done|split; [done|]]. intros d' i' k'. rewrite (He' d' i' k'). split.
    + intros [[H|(-> & -> & ->)]|(-> & r' & H & Hb)].
      * by left.
      * right. split; [done|]. exists r. split; [by left|done].
      * right. split; [done|]. exists r'. split; [by right|done].
    + intros [H|(-> & r' & [[= -> ->]|H]%elem_of_cons & Hb)].
      * by do 2 left.
      * left. right. split; [done|]. split; [congruence|done].
      * right. split; [done|]. by exists r'.
Qed.

Lemma graph_from_spec n scen m i l g edge :
  degrees_ok n g -> edges_ok edge g -> i + length l = n ->
  (forall j e r k, l !! j = Some e -> (r, k) ∈ outgoing_edges e scen ->
     exists d, bt_get r m = Some d /\ d < n) ->
  exists g', graph_from scen m i l g = Some g' /\ degrees_ok n g' /\
    edges_ok (fun i' d k => edge i' d k \/ exists j e r, i' = i + j /\ l !! j = Some e /\
      (r, k) ∈ outgoing_edges e scen /\ bt_get r m = Some d) g'.
Proof.
  induction l as [|e l IH] in i, g, edge |- *; intros Hd He Hi Hr; cbn [graph_from].
  { exists g. split; [done|split; [done|]]. intros d i' k. rewrite (He d i' k).
    split; [by left|]. by intros [H|(j & e & r & _ & H & _)]. }
  cbn [length] in Hi.
  destruct (add_edges_spec n m i (outgoing_edges e scen) g edge Hd He) as (g1 & -> & Hd1 & He1);
    [lia|intros r k H; by apply (Hr 0 e r k)|].
  destruct (IH (S i) g1 _ Hd1 He1) as (g' & Hg' & Hd' & He').
  - lia.
  - intros j e2 r k H. by apply (Hr (S j) e2 r k).
  - exists g'. split; [done|split; [done|]]. intros d i' k. rewrite (He' d i' k). split.
    + intros [[H|(-> & r & H & Hb)]|(j & e' & r & -> & Hj & H & Hb)].
      * by left.
      * right. exists 0, e, r. split; [lia|done].
      * right. exists (S j), e', r. split; [lia|done].
    + intros [H|([|j] & e' & r & -> & Hj & H & Hb)].
      * by do 2 left.
      * injection Hj as <-. left. right. split; [lia|]. by exists r.
      * right. exists j, e', r. split; [lia|done].
Qed.

Lemma build_graph_spec scen entries :
  refs_ok scen entries ->
  exists g, build_graph scen (build_id_index entries) entries = Some g /\
    degrees_ok (length entries) g /\ edges_ok (depends scen entries) g.
Proof.
  intros Hr. set (n := length entries).
  assert (Hz : forall i done, waiting (replicate n []) done i = 0).
  { intros i dn. unfold waiting. rewrite (sum_list_with_ext _ (fun _ => 0)).
    - induction (seq 0 _) as [|a l IH]; [done|exact IH].
    - intros d _. destruct (decide (d ∈ dn)); [done|].
      destruct (replicate n [] !! d) eqn:E; [|done]. by apply lookup_replicate_1 in E as [-> _]. }
  destruct (graph_from_spec n scen (build_id_index entries) 0 entries
    (mk_graph (replicate n 0) (replicate n [])) (fun _ _ _ => False)) as (g & Hg & Hd & He).
  - split; [apply length_replicate|split; [apply length_replicate|]].
    intros i Hi. cbn [in_degree dependents]. rewrite Hz. by apply lookup_replicate_2.
  - intros d i k. cbn [dependents]. split; [|done].
    intros (ds & H & Hin). apply lookup_replicate_1 in H as [-> _]. by apply elem_of_nil in Hin.
  - done.
  - intros j e r k Hj Hin. destruct (Hr j e r k Hj Hin) as [_ [d Hb]]. exists d. split; [done|].
    destruct (id_index_get _ _ _ Hb) as (e' & He' & _). by apply lookup_lt_Some in He'.
  - exists g. split; [done|split; [done|]]. intros d i k. rewrite (He d i k). unfold depends.
    split.
    + intros [[]|(j & e & r & -> & H)]. by exists e, r.
    + intros (e & r & H). right. by exists i, e, r.
Qed.

(** ** Kahn's algorithm *)

Lemma relax_spec ds deg queue :
  (forall i k, deg !! i = Some k -> count i ds <= k) ->
  (forall p, p ∈ ds -> p.1 < length deg) ->
  exists deg' new, relax ds deg queue = Some (deg', queue ++ new) /\
    length deg' = length deg /\
    (forall i k, deg !! i = Some k -> deg' !! i = Some (k - count i ds)) /\
    NoDup new /\ (forall i, i ∈ new <-> count i ds <> 0 /\ deg !! i = Some (count i ds)).
Proof.
  induction ds as [|[d c] ds IH] in deg, queue |- *; intros Hc Hl; cbn [relax].
  { exists deg, []. rewrite app_nil_r. split; [done|split; [done|split; [|split; [constructor|]]]].
    - intros i k H. change (count i []) with 0. by rewrite Nat.sub_0_r.
    - intros i. split; [by intros ?%elem_of_nil|by intros [? _]]. }
  assert (Hd : d < length deg) by (apply (Hl (d, c)); by left).
  destruct (lookup_lt_is_Some_2 deg d Hd) as [k0 Hk]. rewrite Hk.
  pose proof (Hc d k0 Hk) as Hcd. rewrite count_cons in Hcd. cbn [fst] in Hcd.
  rewrite decide_True in Hcd by done. destruct k0 as [|k]; [lia|].
  destruct (IH (<[d := k]> deg) (if k =? 0 then queue ++ [d] else queue))
    as (deg' & new & Hr & Hl' & Hs & Hnd & Hn).
  - intros i k' H. destruct (decide (i = d)) as [->|Hne].
    + rewrite list_lookup_insert_eq in H by done. injection H as <-. lia.
    + rewrite list_lookup_insert_ne in H by done. pose proof (Hc i k' H) as Hi.
      rewrite count_cons in Hi. lia.
  - intros p Hp. rewrite length_insert. apply Hl. by right.
  - rewrite length_insert in Hl'. exists deg', ((if k =? 0 then [d] else []) ++ new).
    rewrite Hr. split; [destruct (k =? 0); by rewrite <- ?app_assoc|split; [done|]].
    assert (Hq : forall i, count i ((d, c) :: ds) = (if decide (d = i) then 1 else 0) + count i ds)
      by (intros i; apply (count_cons i (d, c))).
    split; [|split].
    + intros i k' H. rewrite Hq. destruct (decide (d = i)) as [<-|Hne].
      * rewrite (Hs d k) by (by apply list_lookup_insert_eq). f_equal. rewrite H in Hk.
        injection Hk as ->. lia.
      * rewrite (Hs i k'); [done|]. by rewrite list_lookup_insert_ne.
    + destruct (Nat.eqb_spec k 0) as [->|]; [|done]. cbn. apply NoDup_cons. split; [|done].
      rewrite Hn. intros [H H']. rewrite list_lookup_insert_eq in H' by done. congruence.
    + intros i. rewrite elem_of_app, Hn, Hq. destruct (decide (d = i)) as [<-|Hne].
      * rewrite list_lookup_insert_eq, Hk by done. destruct (Nat.eqb_spec k 0) as [->|Hk0].
        -- rewrite list_elem_of_singleton. split; [|by left]. intros _. split; [lia|].
           f_equal. lia.
        -- split; [intros [?%elem_of_nil|[H [= H']]]; [done|]; split; [lia|f_equal; lia]|].
           intros [_ [= H]]. right. split; [lia|f_equal; lia].
      * rewrite list_lookup_insert_ne by done. cbn. split; [|by right].
        intros [H|H]; [|done]. destruct (k =? 0); [|by apply elem_of_nil in H].
        by apply list_elem_of_singleton in H.
Qed.

Lemma waiting_zero deps dn i :
  waiting deps dn i = 0 <->
  forall d ds k, deps !! d = Some ds -> (i, k) ∈ ds -> d ∈ dn.
Proof.
  unfold waiting.
  assert (Hs : forall (f : nat -> nat) l, sum_list_with f l = 0 <-> forall x, x ∈ l -> f x = 0).
  { intros f l. induction l as [|a l IH]; cbn; [split; [intros _ x ?%elem_of_nil; done|done]|].
    split.
    - intros H x [->|Hx]%elem_of_cons; [lia|]. apply IH; [lia|done].
    - intros H. assert (sum_list_with f l = 0) as -> by (apply IH; intros x Hx; apply H; by right).
      rewrite (H a) by (by left). done. }
  rewrite Hs. split.
  - intros H d ds k Hd Hk. specialize (H d). rewrite Hd in H.
    destruct (decide (d ∈ dn)) as [|Hn]; [done|]. exfalso.
    apply (proj2 (count_pos i ds)); [by exists k|]. apply H. apply elem_of_seq.
    apply lookup_lt_Some in Hd. lia.
  - intros H d _. destruct (decide (d ∈ dn)) as [|Hn]; [done|].
    destruct (deps !! d) as [ds|] eqn:Hd; [|done].
    destruct (decide (count i ds = 0)) as [|Hz]; [done|].
    apply count_pos in Hz as [k Hk]. by destruct Hn; apply (H d ds k).
Qed.

Lemma waiting_pos deps dn i :
  waiting deps dn i <> 0 -> exists d ds k, deps !! d = Some ds /\ (i, k) ∈ ds /\ d ∉ dn.
Proof.
  unfold waiting. induction (seq 0 _) as [|d l IH]; cbn; [done|]. intros H.
  destruct (decide (d ∈ dn)) as [Hd|Hd]; [by apply IH|].
  destruct (decide (count i (default [] (deps !! d)) = 0)) as [Hz|Hz]; [apply IH; lia|].
  apply count_pos in Hz as [k Hk]. destruct (deps !! d) as [ds|] eqn:E.
  - by exists d, ds, k.
  - by apply elem_of_nil in Hk.
Qed.

Lemma waiting_done deps dn idx i :
  idx < length deps -> idx ∉ dn ->
  waiting deps dn i = waiting deps (dn ++ [idx]) i + count i (default [] (deps !! idx)).
Proof.
  intros Hi Hn. unfold waiting. apply (sum_list_with_bump _ _ _ idx).
  - apply NoDup_seq.
  - apply elem_of_seq. lia.
  - rewrite decide_False by done. rewrite decide_True; [done|].
    apply elem_of_app. right. by apply list_elem_of_singleton.
  - intros y Hy. destruct (decide (y ∈ dn)) as [H|H].
    + rewrite decide_True; [done|]. apply elem_of_app. by left.
    + rewrite decide_False; [done|]. rewrite elem_of_app, list_elem_of_singleton. by intros [|].
Qed.

(** Between two turns: degrees count what is still waited for, the queue and
    the nodes done are those that wait for nothing, and the targets of each
    node done were done before it. *)
Record kahn_inv (deps : list (list (nat * ClauseKind))) (deg queue sorted : list nat) : Prop := {
  ki_len : length deg = length deps;
  ki_range : forall d ds p, deps !! d = Some ds -> p ∈ ds -> p.1 < length deps;
  ki_deg : forall i, i < length deps -> deg !! i = Some (waiting deps sorted i);
  ki_nodup : NoDup (sorted ++ queue);
  ki_zero : forall i, i ∈ sorted ++ queue <-> i < length deps /\ waiting deps sorted i = 0;
  ki_order : forall l1 i l2 d ds k, sorted = l1 ++ i :: l2 -> deps !! d = Some ds ->
    (i, k) ∈ ds -> d ∈ l1;
}.

Lemma NoDup_bound (l : list nat) n : NoDup l -> (forall i, i ∈ l -> i < n) -> length l <= n.
Proof.
  intros Hnd Hl. rewrite <- (length_seq n 0). apply submseteq_length, NoDup_submseteq; [done|].
  intros i Hi. apply elem_of_seq. specialize (Hl i Hi). lia.
Qed.

Lemma kahn_step deps deg idx queue sorted :
  kahn_inv deps deg (idx :: queue) sorted ->
  exists ds deg' queue', deps !! idx = Some ds /\ relax ds deg queue = Some (deg', queue') /\
    kahn_inv deps deg' queue' (sorted ++ [idx]).
Proof.
  intros [Hlen Hrange Hdeg Hnd Hzero Horder].
  assert (Hidx : idx ∈ sorted ++ idx :: queue) by (apply elem_of_app; right; by left).
  destruct (proj1 (Hzero idx) Hidx) as [Hin Hw].
  destruct (lookup_lt_is_Some_2 deps idx Hin) as [ds Hds].
  assert (Hns : idx ∉ sorted).
  { intros H. apply NoDup_app in Hnd as (_ & Hd & _). apply (Hd idx H). by left. }
  assert (Hwd : forall i, waiting deps sorted i = waiting deps (sorted ++ [idx]) i + count i ds).
  { intros i. rewrite (waiting_done deps sorted idx i) by done. by rewrite Hds. }
  destruct (relax_spec ds deg queue) as (deg' & new & Hr & Hl' & Hs & Hnn & Hnew).
  { intros i k Hk. assert (i < length deps) by (rewrite <- Hlen; by apply lookup_lt_Some in Hk).
    rewrite Hdeg in Hk by done. injection Hk as <-. rewrite Hwd. lia. }
  { intros p Hp. rewrite Hlen. by apply (Hrange idx ds). }
  assert (Hnew' : forall i, i ∈ new <->
    i < length deps /\ waiting deps sorted i <> 0 /\ waiting deps (sorted ++ [idx]) i = 0).
  { intros i. rewrite Hnew. split.
    - intros [Hc Hi]. assert (i < length deps) by (rewrite <- Hlen; by apply lookup_lt_Some in Hi).
      rewrite Hdeg in Hi by done. injection Hi as Hi. pose proof (Hwd i). lia.
    - intros (Hi & Hn0 & Hz). pose proof (Hwd i). split; [lia|]. rewrite Hdeg by done.
      f_equal. lia. }
  assert (Happ : (sorted ++ [idx]) ++ queue ++ new = (sorted ++ idx :: queue) ++ new)
    by (by rewrite <- !app_assoc).
  exists ds, deg', (queue ++ new). split; [done|split; [done|]]. split.
  - lia.
  - done.
  - intros i Hi. rewrite (Hs i _ (Hdeg i Hi)). f_equal. rewrite (Hwd i). lia.
  - rewrite Happ. apply NoDup_app. split; [done|split; [|done]].
    intros i Hi Hi'. apply Hzero in Hi as [_ Hi]. by apply Hnew' in Hi' as (_ & ? & _).
  - intros i. rewrite Happ, elem_of_app, Hzero, Hnew'. pose proof (Hwd i). lia.
  - intros l1 i l2 d ds' k Heq Hd Hk.
    destruct l2 as [|x l2 _] using rev_ind.
    + apply app_inj_tail in Heq as [<- <-]. by apply (proj1 (waiting_zero deps sorted idx) Hw d ds' k).
    + rewrite app_comm_cons, app_assoc in Heq. apply app_inj_tail in Heq as [Heq _].
      by apply (Horder l1 i l2 d ds' k).
Qed.

Lemma kahn_spec fuel deps deg queue sorted :
  kahn_inv deps deg queue sorted -> length deps < fuel + length sorted ->
  exists sorted' deg', kahn fuel deps deg queue sorted = Some sorted' /\
    kahn_inv deps deg' [] sorted'.
Proof.
  induction fuel as [|fuel IH] in deg, queue, sorted |- *; intros Hinv Hf.
  - exfalso. enough (length (sorted ++ queue) <= length deps) as H by (rewrite length_app in H; lia).
    apply NoDup_bound; [apply (ki_nodup _ _ _ _ Hinv)|].
    intros i Hi. by apply (ki_zero _ _ _ _ Hinv) in Hi as [? _].
  - destruct queue as [|idx queue]; cbn [kahn]; [by exists sorted, deg|].
    destruct (kahn_step _ _ _ _ _ Hinv) as (ds & deg' & queue' & -> & -> & Hinv').
    apply IH; [done|]. rewrite length_app. cbn. lia.
Qed.

(** No entry waits for itself, through any number of clauses. *)
Definition acyclic (file_scenario_name : option string) (entries : list ExpandedEntry) : Prop :=
  forall i, ~ tc (dep file_scenario_name entries) i i.

(** Every target of an entry is listed before it. *)
Definition topological (file_scenario_name : option string) (entries : list ExpandedEntry)
    (sorted : list nat) : Prop :=
  forall l1 i l2 d, sorted = l1 ++ i :: l2 -> dep file_scenario_name entries i d -> d ∈ l1.

Lemma dep_range scen entries i d :
  dep scen entries i d -> i < length entries /\ d < length entries.
Proof.
  intros (k & e & r & Hi & _ & Hb). apply id_index_get in Hb as (e' & Hd & _).
  split; by eapply lookup_lt_Some.
Qed.

Lemma topo_sort_spec scen entries :
  refs_ok scen entries ->
  exists sorted, topo_sort scen (build_id_index entries) entries = Some sorted /\
    NoDup sorted /\ (forall i, i ∈ sorted -> i < length entries) /\
    topological scen entries sorted /\
    forall i, i < length entries -> i ∉ sorted -> exists d, dep scen entries i d /\ d ∉ sorted.
Proof.
  intros Hr. unfold topo_sort.
  destruct (build_graph_spec scen entries Hr) as (g & -> & (Hl1 & Hl2 & Hd) & He).
  destruct (kahn_spec (S (length entries)) (dependents g) (in_degree g)
    (filter (fun i => in_degree g !! i = Some 0) (seq 0 (length entries))) [])
    as (sorted & deg & Hk & Hinv).
  - split.
    + congruence.
    + intros d ds [i k] Hds Hin. rewrite Hl2. apply (dep_range scen entries i d).
      exists k. apply He. by exists ds.
    + intros i Hi. apply Hd. congruence.
    + apply NoDup_filter, NoDup_seq.
    + intros i. cbn [app]. rewrite list_elem_of_filter, elem_of_seq, Hl2. split.
      * intros [H Hi]. split; [lia|]. rewrite Hd in H by lia. by injection H.
      * intros [Hi Hz]. split; [|lia]. by rewrite Hd, Hz.
    + by intros [|].
  - rewrite Hl2. cbn. lia.
  - exists sorted. destruct Hinv as [_ _ _ Hnd Hz Ho]. rewrite app_nil_r in *. rewrite Hl2 in Hz.
    split; [done|split; [done|split; [intros i Hi; by apply Hz|split]]].
    + intros l1 i l2 d Heq [k Hdep]. apply He in Hdep as (ds & Hds & Hin).
      by apply (Ho l1 i l2 d ds k).
    + intros i Hi Hn. destruct (decide (waiting (dependents g) sorted i = 0)) as [Hw|Hw].
      { destruct Hn. by apply Hz. }
      apply waiting_pos in Hw as (d & ds & k & Hds & Hk' & Hns).
      exists d. split; [|done]. exists k. apply He. by exists ds.
Qed.

Lemma topological_tc scen entries sorted i j l1 l2 :
  topological scen entries sorted -> tc (dep scen entries) i j ->
  sorted = l1 ++ i :: l2 -> j ∈ l1.
Proof.
  intros Ht Htc. revert l1 l2. induction Htc as [x y Hd|x y z Hd _ IH]; intros l1 l2 Heq.
  - by apply (Ht l1 x l2).
  - assert (Hy : y ∈ l1) by (by apply (Ht l1 x l2)).
    apply list_elem_of_split in Hy as (a & b & ->). apply elem_of_app. left.
    apply (IH a (b ++ x :: l2)). by rewrite Heq, <- app_assoc.
Qed.

Lemma acyclic_sn scen entries i : acyclic scen entries -> sn (dep scen entries) i.
Proof.
  intros Ha. apply tc_finite_sn; [exact Ha|]. exists (seq 0 (length entries)). intros j Hj.
  apply elem_of_seq. enough (j < length entries) by lia.
  induction Hj as [x y Hd|]; [by apply dep_range in Hd as [_ ?]|done].
Qed.

(** The sort covers the file exactly when there is no cycle. *)
Lemma topo_full_iff scen entries sorted :
  NoDup sorted -> (forall i, i ∈ sorted -> i < length entries) ->
  topological scen entries sorted ->
  (forall i, i < length entries -> i ∉ sorted -> exists d, dep scen entries i d /\ d ∉ sorted) ->
  length sorted = length entries <-> acyclic scen entries.
Proof.
  intros Hnd Hlt Ht Hout. split.
  - intros Hlen i Htc.
    assert (Hi : i < length entries)
      by (inversion Htc as [x y H|x y z H]; subst; by apply dep_range in H as [? _]).
    assert (Hin : i ∈ sorted).
    { assert (Hp : sorted ≡ₚ seq 0 (length entries)).
      { apply submseteq_length_Permutation; [|rewrite length_seq; lia].
        apply NoDup_submseteq; [done|]. intros j Hj. apply elem_of_seq. specialize (Hlt j Hj). lia. }
      rewrite Hp. apply elem_of_seq. lia. }
    apply list_elem_of_split in Hin as (l1 & l2 & ->).
    pose proof (topological_tc _ _ _ _ _ _ _ Ht Htc eq_refl) as Hl.
    apply NoDup_app in Hnd as (_ & Hd & _). apply (Hd i Hl). by left.
  - intros Ha. assert (Hall : forall i, i < length entries -> i ∈ sorted).
    { intros i. induction (acyclic_sn scen entries i Ha) as [i _ IH]. intros Hi.
      destruct (decide (i ∈ sorted)) as [|Hn]; [done|].
      destruct (Hout i Hi Hn) as (d & Hd & Hns). destruct Hns. apply IH; [done|].
      by apply dep_range in Hd as [_ ?]. }
    apply Nat.le_antisymm; [by apply NoDup_bound|].
    rewrite <- (length_seq (length entries) 0). apply submseteq_length, NoDup_submseteq.
    + apply NoDup_seq.
    + intros i Hi. apply Hall. apply elem_of_seq in Hi. lia.
Qed.

(** ** The cycle that is found *)

(** Each pair of the path is an entry and the clause by which it refers to
    the next. *)
Definition walk (file_scenario_name : option string) (entries : list ExpandedEntry)
    (path : cycle_path) : Prop :=
  forall t i k j k', path !! t = Some (i, k) -> path !! S t = Some (j, k') ->
    depends file_scenario_name entries i j k.

(** A closed walk that repeats no entry but the first, whose last label is that
    of the edge that closes it. *)
Definition is_cycle (file_scenario_name : option string) (entries : list ExpandedEntry)
    (c : cycle_path) : Prop :=
  exists x k0 rest k1, c = ((x, k0) :: rest) ++ [(x, k1)] /\
    walk file_scenario_name entries c /\ NoDup (x :: rest.*1) /\
    snd <$> list.last ((x, k0) :: rest) = Some k1.

Lemma set_last_kind_app p x k c : set_last_kind (p ++ [(x, k)]) c = p ++ [(x, c)].
Proof.
  induction p as [|[y k'] p IH]; [done|]. cbn [app set_last_kind]. rewrite IH.
  by destruct p as [|[z k''] p].
Qed.

Lemma position_of_spec d path :
  d ∈ path.*1 -> exists s k, position_of d path = Some s /\ path !! s = Some (d, k).
Proof.
  induction path as [|[x k] path IH]; cbn; [by intros ?%elem_of_nil|].
  destruct (Nat.eqb_spec x d) as [->|Hn]; [by exists 0, k|].
  intros [->|H]%elem_of_cons; [done|]. destruct (IH H) as (s & k' & -> & Hs). by exists (S s), k'.
Qed.

Section search.
Context (scen : option string) (entries : list ExpandedEntry).
Let m := build_id_index entries.
Let n := length entries.

Lemma walk_snoc p i k j k' :
  walk scen entries (p ++ [(i, k)]) -> depends scen entries i j k ->
  walk scen entries ((p ++ [(i, k)]) ++ [(j, k')]).
Proof.
  intros Hw Hd t a ka b kb Ha Hb.
  destruct (decide (S t < length (p ++ [(i, k)]))) as [Hl|Hl].
  - rewrite lookup_app_l in Ha, Hb by lia. by apply (Hw t a ka b kb).
  - assert (S t = length (p ++ [(i, k)])) as Ht.
    { apply lookup_lt_Some in Hb. rewrite length_app in Hb. cbn in Hb. lia. }
    rewrite lookup_app_l in Ha by lia. rewrite Ht, list_lookup_middle in Hb by done.
    rewrite length_app in Ht. cbn in Ht. assert (t = length p) as -> by lia.
    rewrite list_lookup_middle in Ha by done. injection Ha as <- <-. by injection Hb as <- <-.
Qed.

(** The label of the last entry is free. *)
Lemma walk_last_kind p i k k' :
  walk scen entries (p ++ [(i, k)]) -> walk scen entries (p ++ [(i, k')]).
Proof.
  intros Hw t a ka b kb Ha Hb.
  assert (Hl : S t < length (p ++ [(i, k')])) by (by apply lookup_lt_Some in Hb).
  rewrite length_app in Hl. cbn in Hl. rewrite lookup_app_l in Ha by lia.
  assert (exists kb', (p ++ [(i, k)]) !! S t = Some (b, kb')) as [kb' Hb'].
  { destruct (decide (S t < length p)) as [Hs|Hs].
    - rewrite lookup_app_l in Hb by done. exists kb. by rewrite lookup_app_l.
    - assert (S t = length p) as Ht by lia. rewrite Ht in *. exists k.
      rewrite list_lookup_middle in * by done. by injection Hb as <- <-. }
  apply (Hw t a ka b kb'); [|done]. by rewrite lookup_app_l by lia.
Qed.

Lemma walk_drop s path : walk scen entries path -> walk scen entries (drop s path).
Proof.
  intros Hw t i k j k'. rewrite !lookup_drop. replace (s + S t) with (S (s + t)) by lia. apply Hw.
Qed.

(** The path is the stack of grey entries, a walk, and what is black cannot
    reach a cycle. *)
Record dfs_inv (color : list Color) (path : cycle_path) : Prop := {
  di_len : length color = n;
  di_nodup : NoDup path.*1;
  di_gray : forall i, color !! i = Some Gray <-> i ∈ path.*1;
  di_walk : walk scen entries path;
  di_black : forall i, color !! i = Some Black -> sn (dep scen entries) i;
}.

Definition link (path : cycle_path) (node : nat) : Prop :=
  forall l k, list.last path = Some (l, k) -> depends scen entries l node k.

Definition whites (color : list Color) : nat :=
  length (filter (fun c => c = White) color).

Lemma whites_insert color i c c' :
  color !! i = Some c ->
  whites (<[i := c']> color) + (if decide (c = White) then 1 else 0)
  = whites color + (if decide (c' = White) then 1 else 0).
Proof.
  intros H. rewrite <- (take_drop_middle color i c H) at 2.
  rewrite insert_take_drop by (by eapply lookup_lt_Some).
  unfold whites. rewrite !filter_app, !length_app, !filter_cons.
  destruct (decide (c = White)), (decide (c' = White)); cbn; lia.
Qed.

Lemma update_const {A} (c : A) i l :
  i < length l -> update_at (fun _ => c) i l = Some (<[i := c]> l).
Proof.
  intros H. unfold update_at. rewrite (proj2 (Nat.ltb_lt _ _)) by done. f_equal.
  apply list_eq. intros j. destruct (decide (i = j)) as [->|Hn].
  - rewrite list_lookup_alter_eq, list_lookup_insert_eq by done.
    by destruct (lookup_lt_is_Some_2 l j H) as [x ->].
  - by rewrite list_lookup_alter_ne, list_lookup_insert_ne.
Qed.
(** A call on a white node: a cycle, or the node is black, the path as before. *)
Definition dfs_post (node : nat) (color : list Color) (path : cycle_path) (w : nat)
    (r : cycle_path + list Color * cycle_path) : Prop :=
  match r with
  | inl c => is_cycle scen entries c
  | inr (color', path') =>
      path' = path /\ dfs_inv color' path /\ color' !! node = Some Black /\
      (forall i, color !! i = Some Black -> color' !! i = Some Black) /\ whites color' <= w
  end.

Definition rec_ok
    (rec : nat -> list Color -> cycle_path -> option (cycle_path + list Color * cycle_path))
    (fuel : nat) : Prop :=
  forall node color path, dfs_inv color path -> color !! node = Some White -> link path node ->
    whites color < fuel ->
    exists r, rec node color path = Some r /\ dfs_post node color path (whites color) r.

(** A grey target closes a cycle. *)
Lemma gray_cycle color p node k d :
  dfs_inv color (p ++ [(node, k)]) -> color !! d = Some Gray ->
  depends scen entries node d k ->
  is_cycle scen entries
    (drop (default 0 (position_of d (p ++ [(node, k)]))) (p ++ [(node, k)]) ++ [(d, k)]).
Proof.
  intros [_ Hnd Hg Hw _] Hd Hdep. apply Hg in Hd.
  destruct (position_of_spec _ _ Hd) as (s & k' & -> & Hs). change (default 0 (Some s)) with s.
  set (path := p ++ [(node, k)]) in *.
  exists d, k', (drop (S s) path), k. rewrite <- (drop_S path (d, k') s Hs).
  assert (Hne : s < length path) by (by eapply lookup_lt_Some).
  split; [done|split; [|split]].
  - rewrite <- drop_app_le by lia. apply walk_drop. by apply walk_snoc.
  - change (d :: (drop (S s) path).*1) with (((d, k') :: drop (S s) path).*1).
    rewrite <- (drop_S path (d, k') s Hs), fmap_drop.
    rewrite <- (take_drop s path.*1) in Hnd. by apply NoDup_app in Hnd as (_ & _ & ?).
  - unfold path in *. rewrite length_app in Hne. cbn in Hne.
    rewrite drop_app_le by lia. by rewrite last_snoc.
Qed.

Lemma dfs_inv_kind color p node k k' :
  dfs_inv color (p ++ [(node, k)]) -> dfs_inv color (p ++ [(node, k')]).
Proof.
  intros [Hl Hnd Hg Hw Hb].
  assert (He : (p ++ [(node, k')]).*1 = (p ++ [(node, k)]).*1) by (by rewrite !fmap_app).
  split; rewrite ?He; try done. by apply (walk_last_kind p node k).
Qed.

(** The node is left: all its targets are black. *)
Lemma dfs_inv_leave color p node k e :
  dfs_inv color (p ++ [(node, k)]) -> entries !! node = Some e ->
  (forall r k d, (r, k) ∈ outgoing_edges e scen -> bt_get r m = Some d ->
     color !! d = Some Black) ->
  dfs_inv (<[node := Black]> color) p.
Proof.
  intros [Hl Hnd Hg Hw Hb] He Hes.
  rewrite fmap_app in Hnd, Hg. cbn in Hnd, Hg.
  apply NoDup_app in Hnd as (Hnd & Hdis & _).
  assert (Hn : node < length color) by (rewrite Hl; by eapply lookup_lt_Some).
  split.
  - by rewrite length_insert.
  - done.
  - intros i. destruct (decide (node = i)) as [<-|Hne].
    + rewrite list_lookup_insert_eq by done. split; [done|]. intros H.
      destruct (Hdis node H). by left.
    + rewrite list_lookup_insert_ne, Hg by done. rewrite elem_of_app, list_elem_of_singleton.
      split; [by intros [|]|by left].
  - intros t i ki j kj Hi Hj. apply (Hw t i ki j kj); by apply lookup_app_l_Some.
  - intros i. destruct (decide (node = i)) as [<-|Hne].
    + intros _. constructor. intros d (k' & e' & r & He' & Hin & Hd).
      rewrite He in He'. injection He' as <-. apply Hb. by apply (Hes r k').
    + rewrite list_lookup_insert_ne by done. apply Hb.
Qed.

(** A white node is entered. *)
Lemma dfs_inv_enter color path node :
  dfs_inv color path -> color !! node = Some White -> link path node ->
  dfs_inv (<[node := Gray]> color) (path ++ [(node, KAfter)]).
Proof.
  intros [Hl Hnd Hg Hw Hb] Hc Hlink.
  assert (Hn : node < length color) by (by eapply lookup_lt_Some).
  split.
  - by rewrite length_insert.
  - rewrite fmap_app. cbn. apply NoDup_app. split; [done|split; [|apply NoDup_singleton]].
    intros i Hi ->%list_elem_of_singleton. apply Hg in Hi. congruence.
  - intros i. rewrite fmap_app, elem_of_app, <- Hg. cbn. rewrite list_elem_of_singleton.
    destruct (decide (node = i)) as [<-|Hne].
    + rewrite list_lookup_insert_eq by done. split; [by right|done].
    + rewrite list_lookup_insert_ne by done. split; [by left|]. by intros [|].
  - destruct path as [|[i k] p _] using rev_ind.
    + intros [|t] i k j k'; cbn; [done|]. by destruct t.
    + apply walk_snoc; [done|]. apply Hlink. by rewrite last_snoc.
  - intros i. destruct (decide (node = i)) as [<-|Hne].
    + by rewrite list_lookup_insert_eq.
    + rewrite list_lookup_insert_ne by done. apply Hb.
Qed.
Lemma dfs_edges_spec rec fuel node e es color p k0 :
  rec_ok rec fuel -> entries !! node = Some e ->
  (forall r k, (r, k) ∈ es -> (r, k) ∈ outgoing_edges e scen) ->
  (forall r k d, (r, k) ∈ outgoing_edges e scen -> bt_get r m = Some d ->
     (r, k) ∈ es \/ color !! d = Some Black) ->
  dfs_inv color (p ++ [(node, k0)]) -> whites color < fuel ->
  exists r, dfs_edges rec m node es color (p ++ [(node, k0)]) = Some r /\
    dfs_post node color p (whites color) r.
Proof.
  intros Hrec He. induction es as [|[r k] es IH] in color, k0 |- *; intros Hsub Hdone Hinv Hw;
    cbn [dfs_edges].
  { assert (Hn : node < length color).
    { rewrite (di_len _ _ Hinv). by eapply lookup_lt_Some. }
    rewrite update_const by done. rewrite removelast_last. eexists. split; [done|].
    assert (Hg : color !! node = Some Gray).
    { apply (di_gray _ _ Hinv). rewrite fmap_app, elem_of_app. right. by left. }
    split; [done|split; [|split; [|split]]].
    - eapply dfs_inv_leave; [done|done|]. intros r k d Hr Hd.
      destruct (Hdone r k d Hr Hd) as [H|H]; [by apply elem_of_nil in H|done].
    - by apply list_lookup_insert_eq.
    - intros i Hi. rewrite list_lookup_insert_ne; [done|]. intros <-. congruence.
    - pose proof (whites_insert color node Gray Black Hg) as Hwi.
      rewrite !decide_False in Hwi by done. lia. }
  assert (Hsub' : forall r k, (r, k) ∈ es -> (r, k) ∈ outgoing_edges e scen)
    by (intros r' k' H; apply Hsub; by right).
  destruct (bt_get r m) as [d|] eqn:Ed.
  2: { apply IH; try done. intros r' k' d Hr Hd. destruct (Hdone r' k' d Hr Hd) as [H|H]; [|by right].
       apply elem_of_cons in H as [[= -> ->]|H]; [congruence|by left]. }
  rewrite set_last_kind_app. apply (dfs_inv_kind _ _ _ _ k) in Hinv.
  assert (Hdep : depends scen entries node d k).
  { exists e, r. split; [done|split; [apply Hsub; by left|done]]. }
  assert (Hd : d < length color).
  { rewrite (di_len _ _ Hinv). apply (dep_range scen entries node d). by exists k. }
  (* What is left to see once [d] is black. *)
  assert (Hnext : forall color' : list Color, (forall i, color !! i = Some Black -> color' !! i = Some Black) ->
    color' !! d = Some Black -> forall r' k' d', (r', k') ∈ outgoing_edges e scen ->
    bt_get r' m = Some d' -> (r', k') ∈ es \/ color' !! d' = Some Black).
  { intros color' Hm Hb r' k' d' Hr' Hd'. destruct (Hdone r' k' d' Hr' Hd') as [H|H]; [|right; by apply Hm].
    apply elem_of_cons in H as [[= -> ->]|H]; [right; congruence|by left]. }
  destruct (lookup_lt_is_Some_2 color d Hd) as [[] Hc]; rewrite Hc.
  - destruct (Hrec d color (p ++ [(node, k)])) as (res & -> & Hpost); [done|done| |done|].
    { intros l kl. rewrite last_snoc. by intros [= <- <-]. }
    destruct res as [c|[color' path']]; [by exists (inl c)|].
    destruct Hpost as (-> & Hinv' & Hb & Hm & Hw').
    destruct (IH color' k) as (res & -> & Hpost); [done|by apply Hnext|done|lia|].
    exists res. split; [done|]. destruct res as [c|[color2 path2]]; [done|].
    destruct Hpost as (-> & Hi2 & Hb2 & Hm2 & Hw2).
    split; [done|split; [done|split; [done|split; [|lia]]]]. intros i Hi. by apply Hm2, Hm.
  - eexists. split; [done|]. by apply (gray_cycle color).
  - by apply IH; [|apply Hnext|..].
Qed.

Lemma dfs_spec fuel : rec_ok (dfs fuel entries m scen) fuel.
Proof.
  induction fuel as [|fuel IH]; intros node color path Hinv Hc Hl Hw; [lia|]. cbn [dfs].
  assert (Hn : node < length color) by (by eapply lookup_lt_Some).
  rewrite update_const by done.
  destruct (lookup_lt_is_Some_2 entries node) as [e He]; [change (node < n); by rewrite <- (di_len _ _ Hinv)|].
  rewrite He. pose proof (whites_insert color node White Gray Hc) as Hwi.
  rewrite decide_True, decide_False in Hwi by done.
  destruct (dfs_edges_spec (dfs fuel entries m scen) fuel node e (outgoing_edges e scen)
    (<[node := Gray]> color) path KAfter) as (r & -> & Hpost).
  - exact IH.
  - exact He.
  - intros r k H. exact H.
  - intros r k d H _. by left.
  - by apply dfs_inv_enter.
  - lia.
  - exists r. split; [done|]. destruct r as [c|[color' path']]; [done|].
    destruct Hpost as (-> & Hi & Hb & Hm & Hw').
    split; [done|split; [done|split; [done|split; [|lia]]]].
    intros i Hi'. apply Hm. rewrite list_lookup_insert_ne; [done|]. intros <-. congruence.
Qed.

Lemma find_cycle_from_spec starts color :
  dfs_inv color [] -> (forall i, i ∈ starts -> i < n) ->
  exists r, find_cycle_from entries m scen starts color [] = Some r /\
    match r with
    | Some c => is_cycle scen entries c
    | None => forall i, i ∈ starts -> sn (dep scen entries) i
    end.
Proof.
  induction starts as [|start starts IH] in color |- *; intros Hinv Hs; cbn [find_cycle_from].
  { exists None. split; [done|]. by intros i ?%elem_of_nil. }
  assert (Hn : start < length color) by (rewrite (di_len _ _ Hinv); apply Hs; by left).
  assert (Hs' : forall i, i ∈ starts -> i < n) by (intros i Hi; apply Hs; by right).
  destruct (lookup_lt_is_Some_2 color start Hn) as [c Hc]. rewrite Hc.
  destruct (decide (c = White)) as [->|Hw].
  - destruct (dfs_spec (S n) start color []) as (r & Hr & Hpost); [done|done|done| |].
    { unfold whites. rewrite <- (di_len _ _ Hinv), Nat.lt_succ_r. apply length_filter. }
    unfold n in Hr. rewrite Hr. destruct r as [c|[color' path']]; [by exists (Some c)|].
    destruct Hpost as (-> & Hi & Hb & Hm & _). destruct (IH color' Hi Hs') as (r & -> & Hr').
    exists r. split; [done|]. destruct r as [c|]; [done|].
    intros i [->|Hin]%elem_of_cons; [by apply (di_black _ _ Hi)|by apply Hr'].
  - destruct (IH color Hinv Hs') as (r & -> & Hr). exists r. split; [done|].
    destruct r as [c'|]; [done|]. intros i [->|Hin]%elem_of_cons; [|by apply Hr].
    destruct c; [done| |by apply (di_black _ _ Hinv)].
    apply (di_gray _ _ Hinv) in Hc. by apply elem_of_nil in Hc.
Qed.
End search.

Lemma sn_no_cycle {A} (R : relation A) x : sn R x -> ~ tc R x x.
Proof.
  induction 1 as [x _ IH]. intros H. inversion H as [? ? Hr|? y ? Hr Ht]; subst.
  - by apply (IH x).
  - apply (IH y Hr). by apply tc_r with x.
Qed.

Lemma cycle_range scen entries c :
  is_cycle scen entries c -> forall p, p ∈ c -> p.1 < length entries.
Proof.
  intros (x & k0 & rest & k1 & -> & Hw & _) p Hp.
  assert (Hall : forall p, p ∈ (x, k0) :: rest -> p.1 < length entries).
  { intros [i k] Hi. apply list_elem_of_lookup in Hi as [t Ht].
    assert (Hl : S t < length (((x, k0) :: rest) ++ [(x, k1)])).
    { apply lookup_lt_Some in Ht. rewrite length_app. cbn in *. lia. }
    destruct (lookup_lt_is_Some_2 _ _ Hl) as [[j k'] Hj].
    apply (dep_range scen entries i j). exists k. apply (Hw t i k j k'); [|done].
    by apply lookup_app_l_Some. }
  apply elem_of_app in Hp as [Hp|Hp]; [by apply Hall|].
  apply list_elem_of_singleton in Hp as ->. apply (Hall (x, k0)). by left.
Qed.

(** The labels of a path. *)
Definition labels_of (entries : list ExpandedEntry) (c : cycle_path)
    (cycle : list (string * ClauseKind)) : Prop :=
  Forall2 (fun p l => exists e, entries !! p.1 = Some e /\ l = (source_label e, p.2)) c cycle.

Lemma labels_some entries c :
  (forall p, p ∈ c -> p.1 < length entries) ->
  exists cycle, mapM (label_at entries) c = Some cycle /\ labels_of entries c cycle.
Proof.
  intros H. assert (Hf : Forall (fun p => is_Some (label_at entries p)) c).
  { apply list.Forall_forall. intros p Hp. unfold label_at.
    destruct (lookup_lt_is_Some_2 entries p.1 (H p Hp)) as [e ->]. by eexists. }
  apply mapM_is_Some in Hf as [cycle Hc]. exists cycle. split; [done|].
  apply mapM_Some in Hc. eapply Forall2_impl; [exact Hc|]. intros p l Hl. unfold label_at in Hl.
  destruct (entries !! p.1) as [e|]; [|done]. injection Hl as <-. by exists e.
Qed.

Lemma find_cycle_spec scen entries :
  ~ acyclic scen entries ->
  exists cycle, find_cycle entries (build_id_index entries) scen = Some cycle /\
    exists c, is_cycle scen entries c /\ labels_of entries c cycle.
Proof.
  intros Hc. unfold find_cycle.
  destruct (find_cycle_from_spec scen entries (seq 0 (length entries))
    (replicate (length entries) White)) as (r & -> & Hr).
  - split.
    + apply length_replicate.
    + constructor.
    + intros i. split; [by intros [? _]%lookup_replicate_1|by intros ?%elem_of_nil].
    + by intros t i k j k'.
    + by intros i [? _]%lookup_replicate_1.
  - intros i Hi. apply elem_of_seq in Hi. lia.
  - destruct r as [c|].
    + destruct (labels_some entries c) as (cycle & Hm & Hl); [by apply (cycle_range scen)|].
      exists cycle. split; [done|]. by exists c.
    + exfalso. apply Hc. intros i Htc. apply (sn_no_cycle (dep scen entries) i); [|done]. apply Hr.
      apply elem_of_seq. inversion Htc as [x y H|x y z H]; subst; apply dep_range in H as [H _]; lia.
Qed.

(** ** The faults the graph reports *)

(** How an error names an entry: by its id, or by its name when it has none. *)
Definition shown_as (e : ExpandedEntry) (label : string) : Prop :=
  match xe_id e with
  | Some id => label = id
  | None => label = "<anonymous:" +:+ xe_name e +:+ ">"
  end.

(** The clauses of an entry that name an entry of its own file. *)
Inductive refers (file_scenario_name : option string) (e : ExpandedEntry)
  : string -> ClauseKind -> Prop :=
| refers_after c : xe_after e = Some c -> refers file_scenario_name e (ac_ref_id c) KAfter
| refers_while c :
    xe_while e = Some c ->
    wc_scenario_name c = None \/ wc_scenario_name c = file_scenario_name ->
    refers file_scenario_name e (wc_ref_id c) KWhile.

Definition has_id (entries : list ExpandedEntry) (id : string) : Prop :=
  exists e, e ∈ entries /\ xe_id e = Some id.

(** The ids with a property, in order and without repetition. *)
Definition listed (P : string -> Prop) (ids : list string) : Prop :=
  StronglySorted str_lt ids /\ forall id, id ∈ ids <-> P id.

(** The signals of a pack entry. *)
Definition below (ref_id id : string) : Prop := exists rest, id = ref_id +:+ "." +:+ rest.

Abbreviation no_dot s := (str_contains "." s = false).

(** The part of a reference before its last dot. *)
Definition before_last_dot (ref_id before : string) : Prop :=
  (exists after, ref_id = before +:+ "." +:+ after /\ no_dot after) \/
  no_dot ref_id /\ before = ref_id.

(** The faults of the references of a file, and its cycles. *)
Inductive order_fault (file_scenario_name : option string) (entries : list ExpandedEntry)
  : GraphError -> Prop :=
| fault_unknown e label ref_id clause ids :
    e ∈ entries -> shown_as e label -> refers file_scenario_name e ref_id clause ->
    ~ has_id entries ref_id -> listed (has_id entries) ids ->
    (forall id id', has_id entries id -> has_id entries id' -> below ref_id id -> below ref_id id' ->
       id = id') ->
    order_fault file_scenario_name entries (UnknownRef label ref_id clause (join ", " ids))
| fault_ambiguous e ref_id clause ids pack :
    e ∈ entries -> refers file_scenario_name e ref_id clause ->
    ~ has_id entries ref_id -> listed (fun id => has_id entries id /\ below ref_id id) ids ->
    1 < length ids -> before_last_dot ref_id pack ->
    order_fault file_scenario_name entries
      (AmbiguousSubSignalRef ref_id pack (join ", " ids) (length ids))
| fault_self e label ref_id clause :
    e ∈ entries -> shown_as e label -> refers file_scenario_name e ref_id clause ->
    xe_id e = Some ref_id ->
    order_fault file_scenario_name entries (SelfReference label clause)
| fault_cycle c cycle :
    is_cycle file_scenario_name entries c ->
    Forall2 (fun p l => exists e, entries !! p.1 = Some e /\ shown_as e l.1 /\ l.2 = p.2) c cycle ->
    order_fault file_scenario_name entries (CircularDependency cycle).

Lemma shown_source_label e : shown_as e (source_label e).
Proof. unfold shown_as, source_label. by destruct (xe_id e). Qed.

Lemma refers_outgoing scen e r k : refers scen e r k <-> (r, k) ∈ outgoing_edges e scen.
Proof.
  unfold outgoing_edges. rewrite elem_of_app. split.
  - intros [c ->|c -> Hn]; [left; by left|right].
    unfold is_deferred_while. destruct (wc_scenario_name c) as [name|]; [|by left].
    destruct Hn as [|<-]; [done|]. rewrite bool_decide_true by done. by left.
  - intros [H|H].
    + destruct (xe_after e) as [c|] eqn:Ec; [|by apply elem_of_nil in H].
      apply list_elem_of_singleton in H as [= -> ->]. by constructor.
    + destruct (xe_while e) as [c|] eqn:Ec; [|by apply elem_of_nil in H].
      unfold is_deferred_while in H. destruct (wc_scenario_name c) as [name|] eqn:En; cbn in H.
      * case_bool_decide as Hn; cbn in H; [|by apply elem_of_nil in H].
        apply list_elem_of_singleton in H as [= -> ->]. constructor; [done|]. right. congruence.
      * apply list_elem_of_singleton in H as [= -> ->]. constructor; [done|by left].
Qed.

Lemma bt_get_key {V} id (m : list (string * V)) : id ∈ m.*1 <-> is_Some (bt_get id m).
Proof.
  induction m as [|[k v] m IH]; cbn [bt_get].
  { split; [by intros ?%elem_of_nil|by intros [? ?]]. }
  rewrite fmap_cons, elem_of_cons, IH. cbn [fst]. destruct (String.eqb_spec k id) as [->|Hn].
  - split; [by eexists|by left].
  - split; [by intros [->|]|by right].
Qed.

Lemma index_from_sorted i l m : bt_sorted m -> bt_sorted (index_from i l m).
Proof.
  induction l as [|e l IH] in i, m |- *; cbn [index_from]; [done|]. intros Hm. apply IH.
  destruct (xe_id e); [by apply bt_insert_sorted|done].
Qed.

(** The index sends an id to the last entry that has it. *)
Lemma index_from_last i l m id :
  bt_get id (index_from i l m) =
    match list_find (fun e => xe_id e = Some id) (reverse l) with
    | Some (j, _) => Some (i + (length l - S j))
    | None => bt_get id m
    end.
Proof.
  induction l as [|e l IH] in i, m |- *; cbn [index_from]; [done|].
  rewrite IH, reverse_cons.
  destruct (list_find _ (reverse l)) as [[j e']|] eqn:Ef.
  - rewrite (list_find_app_l _ _ _ _ _ Ef). f_equal. apply list_find_Some in Ef as (Hj & _).
    apply lookup_lt_Some in Hj. rewrite length_reverse in Hj. cbn [length]. lia.
  - rewrite (list_find_app_r _ _ _ Ef). cbn [list_find]. destruct (xe_id e) as [id'|] eqn:Ee.
    + rewrite bt_get_insert. destruct (String.eqb_spec id' id) as [->|Hn].
      * rewrite decide_True by done. cbn. rewrite length_reverse. f_equal. lia.
      * by rewrite decide_False by congruence.
    + by rewrite decide_False.
Qed.

(** The entry [d] is what a reference to [id] means. *)
Definition defines (entries : list ExpandedEntry) (id : string) (d : nat) : Prop :=
  (exists e, entries !! d = Some e /\ xe_id e = Some id) /\
  forall j e, d < j -> entries !! j = Some e -> xe_id e <> Some id.

Lemma id_index_defines entries id d :
  bt_get id (build_id_index entries) = Some d <-> defines entries id d.
Proof.
  unfold build_id_index. rewrite index_from_last. cbn [bt_get].
  destruct (list_find _ _) as [[j e]|] eqn:Ef.
  - apply list_find_Some in Ef as (Hj & He & Hb).
    pose proof (lookup_lt_Some _ _ _ Hj) as Hlt. rewrite length_reverse in Hlt.
    rewrite reverse_lookup in Hj by done. set (d0 := length entries - S j) in *.
    assert (Hd : defines entries id d0).
    { split; [by exists e|]. intros j' e' Hlt' Hj' He'. pose proof (lookup_lt_Some _ _ _ Hj') as Hl.
      apply (Hb (length entries - S j') e'); [|lia|done]. rewrite reverse_lookup by lia.
      rewrite <- Hj'. f_equal. lia. }
    split; [by intros [= <-]|]. intros [(e1 & He1 & Hi1) Ha1]. destruct Hd as [(e2 & He2 & Hi2) Ha2].
    f_equal. cbn. destruct (Nat.lt_trichotomy d0 d) as [H|[H|H]]; [|done|].
    + by destruct (Ha2 d e1 H He1).
    + by destruct (Ha1 d0 e2 H He2).
  - split; [done|]. intros [(e & He & Hi) _]. apply list_find_None in Ef.
    rewrite list.Forall_forall in Ef. destruct (Ef e); [|done].
    apply elem_of_reverse. by eapply list_elem_of_lookup_2.
Qed.

Lemma id_index_has entries id : id ∈ (build_id_index entries).*1 <-> has_id entries id.
Proof.
  rewrite bt_get_key. split.
  - intros [d Hd%id_index_get]. destruct Hd as (e & He%list_elem_of_lookup_2 & Hi). by exists e.
  - intros (e & He & Hi). unfold build_id_index. rewrite index_from_last.
    destruct (list_find _ _) as [[j e']|] eqn:Ef; [by eexists|]. apply list_find_None in Ef.
    rewrite list.Forall_forall in Ef. destruct (Ef e); [by apply elem_of_reverse|done].
Qed.

Lemma id_index_listed entries : listed (has_id entries) (build_id_index entries).*1.
Proof.
  split; [|intros id; apply id_index_has]. apply (index_from_sorted 0 entries []). constructor.
Qed.

Lemma StronglySorted_filter {A} (R : relation A) (P : A -> Prop) `{!forall x, Decision (P x)} l :
  StronglySorted R l -> StronglySorted R (filter P l).
Proof.
  induction 1 as [|a l Hl IH Hf]; [constructor|]. rewrite filter_cons. destruct (decide (P a)); [|done].
  constructor; [done|]. rewrite list.Forall_forall in Hf |- *. intros x [_ Hx]%list_elem_of_filter. by apply Hf.
Qed.

Lemma prefix_below r id : String.prefix (r +:+ ".") id = true <-> below r id.
Proof.
  unfold below. assert (H : forall p, String.prefix p id = true <-> exists rest, id = p +:+ rest).
  { intros p. induction p as [|c p IH] in id |- *; cbn.
    - split; [intros _; by exists id|by destruct id].
    - destruct id as [|c' id]; [split; [done|by intros [? [=]]]|]. cbn.
      destruct (ascii_dec c c') as [->|Hn].
      + rewrite IH. split; intros [rest H]; exists rest; [by rewrite H|by injection H].
      + split; [done|]. by intros [rest [= -> _]]. }
  rewrite H. split; intros [rest ->]; exists rest; by rewrite app_assoc_str.
Qed.

Lemma rsplit_before r :
  before_last_dot r (match rsplit_once "."%char r with Some (before, _) => before | None => r end).
Proof.
  assert (H : match rsplit_once "."%char r with
              | Some (a, b) => r = a +:+ "." +:+ b /\ no_dot b
              | None => no_dot r
              end).
  { induction r as [|c r IH]; cbn [rsplit_once]; [done|].
    destruct (rsplit_once "."%char r) as [[a b]|].
    - destruct IH as [-> Hb]. done.
    - destruct (Ascii.eqb_spec c ".") as [->|Hn]; [done|]. cbn [str_contains].
      rewrite IH, orb_false_r. by apply Ascii.eqb_neq. }
  destruct (rsplit_once "."%char r) as [[a b]|]; [left; by exists b|by right].
Qed.

Lemma resolve_fault scen entries e r k err :
  e ∈ entries -> refers scen e r k ->
  resolve_reference r (build_id_index entries) (source_label e) k = Err err ->
  order_fault scen entries err.
Proof.
  intros He Hr. unfold resolve_reference. destruct (bt_get r _) eqn:Eg; [done|].
  assert (Hno : ~ has_id entries r).
  { intros H%id_index_has%bt_get_key. rewrite Eg in H. by destruct H. }
  set (cands := filter _ _). pose proof (id_index_listed entries) as Hl.
  assert (Hc : listed (fun id => has_id entries id /\ below r id) cands).
  { split; [apply StronglySorted_filter, Hl|]. intros id.
    unfold cands. rewrite list_elem_of_filter, prefix_below, (proj2 Hl). tauto. }
  destruct (Nat.ltb_spec 1 (length cands)) as [Hlt|Hle]; intros [= <-].
  - apply (fault_ambiguous _ _ e _ k); [done..|apply rsplit_before].
  - apply (fault_unknown _ _ e); [done|apply shown_source_label|done..|].
    intros id id' H1 H2 H3 H4. pose proof (proj2 (proj2 Hc id) (conj H1 H3)) as Hi.
    pose proof (proj2 (proj2 Hc id') (conj H2 H4)) as Hi'.
    destruct cands as [|x [|y cands]]; [by apply elem_of_nil in Hi| |cbn in Hle; lia].
    apply list_elem_of_singleton in Hi, Hi'. congruence.
Qed.

Lemma check_edges_fault scen entries e es err :
  e ∈ entries -> (forall r k, (r, k) ∈ es -> refers scen e r k) ->
  check_edges e (build_id_index entries) es = Err err -> order_fault scen entries err.
Proof.
  intros He. induction es as [|[r k] es IH]; intros Hes; cbn [check_edges]; [done|].
  assert (Hr : refers scen e r k) by (apply Hes; by left).
  destruct (resolve_reference _ _ _ _) as [d|err'] eqn:Er; cbn.
  - case_bool_decide as Hs; [|apply IH; intros r' k' H; apply Hes; by right].
    intros [= <-]. by apply (fault_self _ _ e _ r); [|apply shown_source_label|..].
  - intros [= <-]. by eapply resolve_fault.
Qed.

Lemma check_refs_fault scen entries l err :
  (forall e, e ∈ l -> e ∈ entries) ->
  check_refs scen (build_id_index entries) l = Err err -> order_fault scen entries err.
Proof.
  induction l as [|e l IH]; intros Hl; cbn [check_refs]; [done|].
  destruct (check_edges _ _ _) as [[]|err'] eqn:Ec; cbn.
  - apply IH. intros e' H. apply Hl. by right.
  - intros [= <-]. eapply check_edges_fault; [apply Hl; by left| |exact Ec].
    intros r k. apply refers_outgoing.
Qed.

Lemma cycle_fault scen entries c cycle :
  is_cycle scen entries c -> labels_of entries c cycle ->
  order_fault scen entries (CircularDependency cycle).
Proof.
  intros Hc Hl. apply (fault_cycle _ _ c); [done|]. eapply Forall2_impl; [exact Hl|].
  intros p l (e & He & ->). exists e. split; [done|]. split; [apply shown_source_label|done].
Qed.

(** What the ordering refuses has the fault the error names. *)
Lemma order_entries_fault scen entries err :
  order_entries scen entries = Some (Err err) -> order_fault scen entries err.
Proof.
  unfold order_entries. destruct (check_refs _ _ _) as [[]|e] eqn:Ec.
  2: { intros [= <-]. by eapply check_refs_fault. }
  assert (Hr : refs_ok scen entries) by (apply check_refs_ok; by rewrite Ec).
  destruct (topo_sort_spec scen entries Hr) as (sorted & -> & Hnd & Hlt & Ht & Hout).
  destruct (Nat.ltb_spec (length sorted) (length entries)) as [Hs|]; [|by intros [=]].
  assert (Hc : ~ acyclic scen entries).
  { intros H. apply (topo_full_iff scen entries sorted Hnd Hlt Ht Hout) in H. lia. }
  destruct (find_cycle_spec scen entries Hc) as (cycle & -> & c & Hcyc & Hl). cbn.
  intros [= <-]. by eapply cycle_fault.
Qed.

Lemma cycle_tc scen entries c : is_cycle scen entries c -> ~ acyclic scen entries.
Proof.
  intros (x & k0 & rest & k1 & -> & Hw & _ & _) Ha. apply (Ha x).
  assert (H : forall l y k, walk scen entries ((y, k) :: l ++ [(x, k1)]) -> tc (dep scen entries) y x).
  { induction l as [|[z kz] l IH]; intros y k Hy.
    - apply tc_once. exists k. by apply (Hy 0 y k x k1).
    - apply tc_l with z; [exists k; by apply (Hy 0 y k z kz)|]. apply (IH z kz).
      intros t i ki j kj Hi Hj. by apply (Hy (S t) i ki j kj). }
  by apply (H rest x k0).
Qed.

(** A file that is ordered has no fault. *)
Lemma order_entries_no_fault scen entries err :
  refs_ok scen entries -> acyclic scen entries -> ~ order_fault scen entries err.
Proof.
  intros Hr Ha Hf.
  assert (Href : forall e r k, e ∈ entries -> refers scen e r k ->
            xe_id e <> Some r /\ has_id entries r).
  { intros e r k [i Hi]%list_elem_of_lookup_1 He%refers_outgoing.
    destruct (Hr i e r k Hi He) as [Hs [d Hd]]. split; [done|].
    apply id_index_has, bt_get_key. by exists d. }
  destruct Hf as [e l r k ids He _ Hk Hn|e r k ids pack He Hk Hn|e l r k He _ Hk Hs|c cycle Hc _].
  - by apply Hn, (Href e r k).
  - by apply Hn, (Href e r k).
  - by apply (Href e r k).
  - by apply (cycle_tc _ _ _ Hc).
Qed.

(** ** Order of the entries *)

Lemma order_entries_aux scen entries :
  exists r, order_entries scen entries = Some r /\
    ((exists sorted, r = Ok sorted) <-> refs_ok scen entries /\ acyclic scen entries) /\
    (forall sorted, r = Ok sorted ->
       sorted ≡ₚ seq 0 (length entries) /\ topological scen entries sorted).
Proof.
  unfold order_entries. pose proof (check_refs_ok scen entries) as Hok.
  destruct (check_refs scen _ entries) as [[]|err] eqn:Ec.
  2: { eexists. split; [done|]. split; [|done]. split; [by intros [? ?]|].
       intros [Hr _]. by apply Hok in Hr. }
  assert (Hr : refs_ok scen entries) by (by apply Hok).
  destruct (topo_sort_spec scen entries Hr) as (sorted & -> & Hnd & Hlt & Ht & Hout).
  pose proof (topo_full_iff scen entries sorted Hnd Hlt Ht Hout) as Hfull.
  pose proof (NoDup_bound sorted (length entries) Hnd Hlt) as Hle.
  destruct (Nat.ltb_spec (length sorted) (length entries)) as [Hs|Hs].
  - assert (Hc : ~ acyclic scen entries) by (intros H; apply Hfull in H; lia).
    destruct (find_cycle_spec scen entries Hc) as (cycle & -> & _).
    eexists. split; [done|]. split; [|done]. split; [by intros [? ?]|by intros [_ ?]].
  - eexists. split; [done|]. split.
    + split; [|by exists sorted]. intros _. split; [done|]. apply Hfull. lia.
    + intros s [= <-]. split; [|done]. apply submseteq_length_Permutation.
      * apply NoDup_submseteq; [done|]. intros i Hi. apply elem_of_seq. specialize (Hlt i Hi). lia.
      * rewrite length_seq. lia.
Qed.

(** The entries are ordered exactly when they can be. [order_entries] never
    panics and its loops end; it succeeds exactly when every clause names
    another entry of the file and no entry waits for itself through other
    entries, and its result is then a permutation of the entries in which every
    entry comes after all it refers to. *)
Theorem order_entries_correct scen entries :
  exists r, order_entries scen entries = Some r /\
    ((exists sorted, r = Ok sorted) <-> refs_ok scen entries /\ acyclic scen entries) /\
    (forall sorted, r = Ok sorted ->
       sorted ≡ₚ seq 0 (length entries) /\ topological scen entries sorted).
Proof. apply order_entries_aux. Qed.

(** C30: the cycle that is reported is a cycle. Of a file whose clauses all name
    other entries and which has a cycle, [order_entries] returns one, as labels
    of entries with the clause by which each refers to the next: closed, with
    no other repetition, and with the closing clause on the last label; never
    the fallback for an unknown cycle. *)
Theorem order_entries_cycle scen entries
    (Hr : refs_ok scen entries) (Hc : ~ acyclic scen entries) :
  exists cycle c, order_entries scen entries = Some (Err (CircularDependency cycle)) /\
    is_cycle scen entries c /\ labels_of entries c cycle.
Proof.
  unfold order_entries. rewrite (proj2 (check_refs_ok scen entries) Hr).
  destruct (topo_sort_spec scen entries Hr) as (sorted & -> & Hnd & Hlt & Ht & Hout).
  pose proof (topo_full_iff scen entries sorted Hnd Hlt Ht Hout) as Hfull.
  pose proof (NoDup_bound sorted (length entries) Hnd Hlt) as Hle.
  destruct (find_cycle_spec scen entries Hc) as (cycle & Hf & c & Hcyc & Hl).
  rewrite (proj2 (Nat.ltb_lt _ _)) by (destruct (decide (length sorted = length entries));
    [by destruct Hc; apply Hfull|lia]).
  rewrite Hf. by exists cycle, c.
Qed.

Definition demo_entry (id : string) (after : option string) (while_ : option string)
  : ExpandedEntry :=
  mk_expanded (Some id) "up" None
    ((fun r => mk_after_clause r OpGreaterThan f64_nan None) <$> after)
    ((fun r => mk_while_clause r WGreaterThan f64_nan None None) <$> while_).

(** [b] starts after [a], which runs while [c] does, which starts after [b];
    [d] starts after [b]. *)
Definition demo_cycle : list ExpandedEntry :=
  [demo_entry "d" (Some "b") None; demo_entry "a" None (Some "c");
   demo_entry "b" (Some "a") None; demo_entry "c" (Some "b") None].

Example demo_cycle_found :
  order_entries None demo_cycle
  = Some (Err (CircularDependency
      [("b", KAfter); ("a", KWhile); ("c", KAfter); ("b", KAfter)])).
Proof. vm_compute. reflexivity. Qed.

Example demo_sorted :
  order_entries None [demo_entry "d" (Some "b") (Some "a"); demo_entry "a" None None;
                      demo_entry "b" (Some "a") (Some "a")]
  = Some (Ok [1; 2; 0]).
Proof. vm_compute. reflexivity. Qed.

Lemma order_entries_cycle_witness :
  exists cycle c, order_entries None demo_cycle = Some (Err (CircularDependency cycle)) /\
    is_cycle None demo_cycle c /\ labels_of demo_cycle c cycle.
Proof.
  apply (order_entries_cycle None demo_cycle).
  - apply check_refs_ok. vm_compute. reflexivity.
  - intros H. apply (H 1).
    apply tc_l with 3; [exists KWhile|apply tc_l with 2; [exists KAfter|apply tc_once; exists KAfter]].
    all: eexists _, _; split; [reflexivity|split; [left|vm_compute; reflexivity]].
Defined.
