(* ===== verification/ClockGroups.v ===== *)
(** * ClockGroups: clock groups of dependency chains (compiler/compile_after.rs)

    [assign_clock_groups] floods the [after:] graph, edges taken both ways, into
    components and gives every component of two or more entries one clock
    group: the explicit one, or a name made of the lowest id. The theorem says
    that the floods end and find the classes of entries linked by [after:]
    clauses, and what the assignment of each entry is. *)

From Stdlib Require Import ZArith Lia Ascii Sorted.
From stdpp Require Import prelude strings list relations sorting.
From S2P Require Import Prelude Text Metric AfterGraph.

#[local] Open Scope nat_scope.

(** [ClockGroupAssignment]. *)
Inductive ClockGroupAssignment :=
| Resolved (name : string) (is_auto : bool)
| Unassigned.

(** The undirected adjacency list, for the entries from index [i] on. *)
Fixpoint adj_from (id_to_idx : list (string * nat)) (i : nat) (l : list ExpandedEntry)
    (adj : list (list nat)) : option (list (list nat)) :=
  match l with
  | [] => Some adj
  | e :: l =>
      match xe_after e with
      | Some clause =>
          match bt_get (ac_ref_id clause) id_to_idx with
          | Some dep_idx =>
              let! adj := update_at (fun l => l ++ [dep_idx]) i adj in
              let! adj := update_at (fun l => l ++ [i]) dep_idx adj in
              adj_from id_to_idx (S i) l adj
          | None => adj_from id_to_idx (S i) l adj
          end
      | None => adj_from id_to_idx (S i) l adj
      end
  end.

(** The neighbours without a component go on the stack, whose top is the head
    of the list. A component id of [usize::MAX] is [None]. *)
Fixpoint push_unseen (component_id : list (option nat)) (nexts stack : list nat)
  : option (list nat) :=
  match nexts with
  | [] => Some stack
  | next :: nexts =>
      let! c := component_id !! next in
      push_unseen component_id nexts (match c with None => next :: stack | Some _ => stack end)
  end.

(** The [while let] loop over the stack, and the component's members. *)
Fixpoint flood (fuel : nat) (adj : list (list nat)) (cid : nat)
    (component_id : list (option nat)) (stack members : list nat)
  : option (list (option nat) * list nat) :=
  match fuel with
  | O => None
  | S fuel =>
      match stack with
      | [] => Some (component_id, members)
      | node :: stack =>
          let! c := component_id !! node in
          match c with
          | Some _ => flood fuel adj cid component_id stack members
          | None =>
              let! component_id := update_at (fun _ => Some cid) node component_id in
              let! nexts := adj !! node in
              let! stack := push_unseen component_id nexts stack in
              flood fuel adj cid component_id stack (members ++ [node])
          end
      end
  end.

(** Turns that are enough: a node is expanded once, so no more is pushed than
    there are adjacency entries. *)
Definition flood_fuel (adj : list (list nat)) : nat := 2 + sum_list_with length adj.

(** The loop over the starts. *)
Fixpoint components_from (adj : list (list nat)) (starts : list nat)
    (component_id : list (option nat)) (components : list (list nat))
  : option (list (list nat)) :=
  match starts with
  | [] => Some components
  | start :: starts =>
      let! c := component_id !! start in
      match c with
      | Some _ => components_from adj starts component_id components
      | None =>
          let! (component_id, members) :=
            flood (flood_fuel adj) adj (length components) component_id [start] [] in
          components_from adj starts component_id (components ++ [members])
      end
  end.

(** [distinct.entry(cg).or_insert(idx)] over the members with an explicit,
    non-empty group. *)
Fixpoint distinct_groups (entries : list ExpandedEntry) (members : list nat)
    (distinct : list (string * nat)) : option (list (string * nat)) :=
  match members with
  | [] => Some distinct
  | idx :: members =>
      let! e := entries !! idx in
      distinct_groups entries members
        (match xe_clock_group e with
         | Some cg =>
             if String.eqb cg "" then distinct
             else match bt_get cg distinct with
                  | Some _ => distinct
                  | None => bt_insert cg idx distinct
                  end
         | None => distinct
         end)
  end.

Definition str_le : relation string := cmp_le String.compare id.

(** [auto_chain_name]; [None] is its [unreachable!]. *)
Definition auto_chain_name (members : list nat) (entries : list ExpandedEntry) : option string :=
  let! es := mapM (fun i => entries !! i) members in
  let! first := head (merge_sort str_le (omap xe_id es)) in
  Some ("chain_" +:+ first).

(** The group of one component. *)
Definition resolve_group (entries : list ExpandedEntry) (members : list nat)
  : option (result (string * bool) GraphError) :=
  let! distinct := distinct_groups entries members [] in
  match distinct with
  | [] => let! name := auto_chain_name members entries in Some (Ok (name, true))
  | [(k, _)] => Some (Ok (k, false))
  | (first_group, first_idx) :: (second_group, second_idx) :: _ =>
      let! e1 := entries !! first_idx in
      let! e2 := entries !! second_idx in
      Some (Err (ConflictingClockGroup (source_label e1) first_group
                   (source_label e2) second_group))
  end.

Fixpoint assign_members (a : ClockGroupAssignment) (members : list nat)
    (out : list ClockGroupAssignment) : option (list ClockGroupAssignment) :=
  match members with
  | [] => Some out
  | idx :: members =>
      let! out := update_at (fun _ => a) idx out in assign_members a members out
  end.

(** The loop over the components. *)
Fixpoint assign_components (entries : list ExpandedEntry) (components : list (list nat))
    (out : list ClockGroupAssignment)
  : option (result (list ClockGroupAssignment) GraphError) :=
  match components with
  | [] => Some (Ok out)
  | members :: components =>
      if length members <? 2 then assign_components entries components out
      else
        match resolve_group entries members with
        | None => None
        | Some (Err e) => Some (Err e)
        | Some (Ok (resolved, is_auto)) =>
            let! out := assign_members (Resolved resolved is_auto) members out in
            assign_components entries components out
        end
  end.

(** [assign_clock_groups]. *)
Definition assign_clock_groups (entries : list ExpandedEntry) (id_to_idx : list (string * nat))
  : option (result (list ClockGroupAssignment) GraphError) :=
  let n := length entries in
  let! adj := adj_from id_to_idx 0 entries (replicate n []) in
  let! components := components_from adj (seq 0 n) (replicate n None) [] in
  assign_components entries components (replicate n Unassigned).

(** ** Linked entries *)

Definition after_edge (entries : list ExpandedEntry) (i d : nat) : Prop :=
  exists e c, entries !! i = Some e /\ xe_after e = Some c /\
    bt_get (ac_ref_id c) (build_id_index entries) = Some d.

(** Linked by [after:] clauses, followed in either direction. *)
Definition linked (entries : list ExpandedEntry) : relation nat := rtsc (after_edge entries).

(** The explicit clock group; an empty one is none. *)
Definition explicit (e : ExpandedEntry) : option string :=
  match xe_clock_group e with
  | Some cg => if String.eqb cg "" then None else Some cg
  | None => None
  end.

Lemma after_edge_range entries i d :
  after_edge entries i d ->
  i < length entries /\ d < length entries /\
  exists e id, entries !! d = Some e /\ xe_id e = Some id.
Proof.
  intros (e & c & Hi & _ & Hb). apply id_index_get in Hb as (e' & Hd & Hid).
  split; [by eapply lookup_lt_Some|split; [by eapply lookup_lt_Some|]]. by exists e', (ac_ref_id c).
Qed.

(** ** The adjacency list *)

Definition adj_ok (n : nat) (R : nat -> nat -> Prop) (adj : list (list nat)) : Prop :=
  length adj = n /\ forall i j, (exists l, adj !! i = Some l /\ j ∈ l) <-> R i j.

Lemma adj_push n R adj i j :
  adj_ok n R adj -> i < n ->
  exists adj', update_at (fun l => l ++ [j]) i adj = Some adj' /\
    adj_ok n (fun a b => R a b \/ a = i /\ b = j) adj'.
Proof.
  intros [Hl Hr] Hi. unfold update_at. rewrite (proj2 (Nat.ltb_lt _ _)) by lia.
  eexists. split; [done|]. split; [by rewrite length_alter|]. intros a b. rewrite <- (Hr a b).
  destruct (decide (a = i)) as [->|Hn].
  - rewrite list_lookup_alter_eq. destruct (lookup_lt_is_Some_2 adj i) as [l ->]; [lia|]. cbn.
    split.
    + intros (l' & [= <-] & H). apply elem_of_app in H as [H|H]; [left; by exists l|].
      apply list_elem_of_singleton in H as ->. by right.
    + intros [(l' & [= <-] & H)|[_ ->]]; eexists; (split; [done|]); apply elem_of_app;
        [by left|right; by apply list_elem_of_singleton].
  - rewrite list_lookup_alter_ne by done. split; [by left|]. by intros [H|[-> _]].
Qed.

Lemma adj_ok_ext n R R' adj : (forall i j, R i j <-> R' i j) -> adj_ok n R adj -> adj_ok n R' adj.
Proof. intros H [Hl Hr]. split; [done|]. intros i j. by rewrite Hr. Qed.

(** The edges of the entries from index [i] on. *)
Definition after_from (m : list (string * nat)) (i : nat) (l : list ExpandedEntry) (a b : nat)
  : Prop :=
  exists j e c, a = i + j /\ l !! j = Some e /\ xe_after e = Some c /\
    bt_get (ac_ref_id c) m = Some b.

Lemma after_from_cons m i e l a b :
  after_from m i (e :: l) a b <->
  (a = i /\ exists c, xe_after e = Some c /\ bt_get (ac_ref_id c) m = Some b) \/
  after_from m (S i) l a b.
Proof.
  split.
  - intros ([|j] & e' & c & -> & Hj & Hc & Hb).
    + injection Hj as <-. left. split; [lia|]. by exists c.
    + right. exists j, e', c. split; [lia|done].
  - intros [(-> & c & Hc & Hb)|(j & e' & c & -> & Hj & Hc & Hb)].
    + exists 0, e, c. split; [lia|done].
    + exists (S j), e', c. split; [lia|done].
Qed.

Lemma adj_from_spec n m i l adj R :
  adj_ok n R adj -> i + length l = n ->
  (forall r d, bt_get r m = Some d -> d < n) ->
  exists adj', adj_from m i l adj = Some adj' /\
    adj_ok n (fun a b => R a b \/ after_from m i l a b \/ after_from m i l b a) adj'.
Proof.
  intros Hok Hi Hm. induction l as [|e l IH] in i, R, adj, Hok, Hi |- *; cbn [adj_from].
  { exists adj. split; [done|]. eapply adj_ok_ext; [|exact Hok]. intros a b.
    split; [by left|]. by intros [H|[(j & e & c & _ & H & _)|(j & e & c & _ & H & _)]]. }
  cbn [length] in Hi.
  assert (Hskip : (forall c d, xe_after e = Some c -> bt_get (ac_ref_id c) m = Some d -> False) ->
    exists adj', adj_from m (S i) l adj = Some adj' /\ adj_ok n (fun a b => R a b \/
      after_from m i (e :: l) a b \/ after_from m i (e :: l) b a) adj').
  { intros Hno. destruct (IH (S i) adj R Hok) as (adj' & -> & H'); [lia|].
    eexists. split; [done|]. eapply adj_ok_ext; [|exact H']. intros a b.
    rewrite !after_from_cons. naive_solver. }
  destruct (xe_after e) as [c|] eqn:Ec; [|apply Hskip; congruence].
  destruct (bt_get (ac_ref_id c) m) as [d|] eqn:Ed; [|apply Hskip; congruence]. clear Hskip.
  destruct (adj_push n R adj i d Hok) as (adj1 & -> & H1); [lia|].
  destruct (adj_push n _ adj1 d i H1) as (adj2 & -> & H2); [by apply (Hm _ _ Ed)|].
  destruct (IH (S i) adj2 _ H2) as (adj' & -> & H'); [lia|].
  exists adj'. split; [done|]. eapply adj_ok_ext; [|exact H']. intros a b.
  rewrite !after_from_cons, Ec. naive_solver.
Qed.

(** ** Floods *)

Section floods.
Context (n : nat) (R : nat -> nat -> Prop) (adj : list (list nat)) (Hadj : adj_ok n R adj).

Definition seen (comp : list (option nat)) (i : nat) : Prop := exists c, comp !! i = Some (Some c).

Lemma push_unseen_spec comp nexts stack :
  (forall x, x ∈ nexts -> x < length comp) ->
  exists stack', push_unseen comp nexts stack = Some stack' /\
    (forall x, x ∈ stack' <-> x ∈ stack \/ x ∈ nexts /\ ~ seen comp x) /\
    length stack' <= length stack + length nexts.
Proof.
  induction nexts as [|x nexts IH] in stack |- *; intros Hl; cbn [push_unseen].
  { exists stack. split; [done|split; [|lia]]. intros x.
    split; [by left|]. by intros [H|[H%elem_of_nil _]]. }
  destruct (lookup_lt_is_Some_2 comp x) as [c Hc]; [apply Hl; by left|]. rewrite Hc.
  destruct (IH (match c with None => x :: stack | Some _ => stack end)) as (st & -> & Hs & Hlen).
  { intros y Hy. apply Hl. by right. }
  exists st. split; [done|]. split; [|destruct c; cbn in *; lia].
  intros y. rewrite Hs, elem_of_cons. destruct c as [c|].
  - split; [intros [H|[H H']]; [by left|by right; split; [right|]]|].
    intros [H|[[->|H] H']]; [by left| |by right]. destruct H'. by exists c.
  - rewrite elem_of_cons. split; [|intros [H|[[->|H] H']]; auto].
    intros [[->|H]|[H H']]; [|by left|by auto]. right. split; [by left|].
    intros [c Hc']. congruence.
Qed.

Record flood_inv (start : nat) (seen0 : nat -> Prop) (comp : list (option nat))
    (stack members : list nat) : Prop := {
  fi_len : length comp = n;
  fi_seen : forall i, seen comp i <-> seen0 i \/ i ∈ members;
  fi_nodup : NoDup members;
  fi_fresh : forall i, i ∈ members -> ~ seen0 i;
  fi_reach : forall i, i ∈ members ++ stack -> i < n /\ rtc R start i;
  fi_closed : forall i j, i ∈ members -> R i j -> seen comp j \/ j ∈ stack;
  fi_start : start ∈ members \/ start ∈ stack;
  fi_unseen : ~ seen0 start;
}.

(** The adjacency entries of the nodes not yet expanded. *)
Definition unexpanded (comp : list (option nat)) : nat :=
  sum_list_with (fun i => if decide (comp !! i = Some None) then length (default [] (adj !! i)) else 0)
    (seq 0 n).

Lemma R_range i j : R i j -> i < n.
Proof. intros H. apply (proj2 Hadj) in H as (l & Hl & _). rewrite <- (proj1 Hadj). by eapply lookup_lt_Some. Qed.

Lemma flood_expand start seen0 comp node stack members cid nexts :
  (forall i j, R i j -> R j i) ->
  flood_inv start seen0 comp (node :: stack) members -> comp !! node = Some None ->
  adj !! node = Some nexts ->
  exists stack', push_unseen (<[node := Some cid]> comp) nexts stack = Some stack' /\
    flood_inv start seen0 (<[node := Some cid]> comp) stack' (members ++ [node]) /\
    length stack' + unexpanded (<[node := Some cid]> comp) <= length stack + unexpanded comp.
Proof.
  intros Hsym [Hlen Hseen Hnd Hfresh Hreach Hclosed Hstart Hunseen] Hc Hn.
  set (comp' := <[node := Some cid]> comp).
  assert (Hnode : node < length comp) by (by eapply lookup_lt_Some).
  assert (Hnr : forall x, x ∈ nexts -> R node x) by (intros x Hx; apply (proj2 Hadj); by exists nexts).
  assert (Hns : ~ seen comp node) by (intros [c H]; congruence).
  assert (Hseen' : forall i, seen comp' i <-> seen comp i \/ i = node).
  { intros i. unfold seen, comp'. destruct (decide (node = i)) as [<-|Hne].
    - rewrite list_lookup_insert_eq by done. split; [by right|]. intros _. by exists cid.
    - rewrite list_lookup_insert_ne by done. split; [by left|]. by intros [|]. }
  destruct (push_unseen_spec comp' nexts stack) as (st & Hp & Hs & Hl).
  { intros x Hx. unfold comp'. rewrite length_insert, Hlen. apply (R_range x node). by apply Hsym, Hnr. }
  exists st. split; [done|]. split.
  2: { enough (unexpanded comp = unexpanded comp' + length nexts) by lia.
       unfold unexpanded. apply (sum_list_with_bump _ _ _ node).
       - apply NoDup_seq.
       - apply elem_of_seq. lia.
       - rewrite Hc, Hn, decide_True by done. unfold comp'.
         by rewrite list_lookup_insert_eq, decide_False.
       - intros y Hy. unfold comp'. by rewrite list_lookup_insert_ne. }
  destruct (Hreach node) as [_ Hrn]; [apply elem_of_app; right; by left|]. split.
  - unfold comp'. by rewrite length_insert.
  - intros i. rewrite Hseen', Hseen, elem_of_app, list_elem_of_singleton. tauto.
  - apply NoDup_app. split; [done|split; [|apply NoDup_singleton]].
    intros i Hi ->%list_elem_of_singleton. apply Hns, Hseen. by right.
  - intros i [Hi| ->%list_elem_of_singleton]%elem_of_app; [by apply Hfresh|].
    intros H. apply Hns, Hseen. by left.
  - intros i Hi. rewrite !elem_of_app, list_elem_of_singleton, Hs in Hi.
    destruct Hi as [[Hi| ->]|[Hi|[Hi _]]].
    + apply Hreach, elem_of_app. by left.
    + apply Hreach, elem_of_app. right. by left.
    + apply Hreach, elem_of_app. right. by right.
    + split; [apply (R_range i node); by apply Hsym, Hnr|]. eapply rtc_r; [exact Hrn|]. by apply Hnr.
  - intros i j [Hi| ->%list_elem_of_singleton]%elem_of_app Hij; rewrite Hseen', Hs.
    + destruct (Hclosed i j Hi Hij) as [H|[->|H]%elem_of_cons]; auto.
    + destruct (decide (comp' !! j = Some None)) as [Hj|Hj].
      * right. right. split; [|intros [c H]; congruence].
        apply (proj2 Hadj) in Hij as (l & Hl' & Hj'). congruence.
      * left. apply Hseen'. assert (Hjn : j < length comp').
        { unfold comp'. rewrite length_insert, Hlen. by apply (R_range j node), Hsym. }
        destruct (lookup_lt_is_Some_2 comp' j Hjn) as [[c|] Hc']; [by exists c|done].
  - rewrite elem_of_app, list_elem_of_singleton, Hs.
    destruct Hstart as [H|[->|H]%elem_of_cons]; auto.
  - done.
Qed.

Lemma flood_spec fuel start seen0 cid comp stack members :
  (forall i j, R i j -> R j i) ->
  flood_inv start seen0 comp stack members -> length stack + unexpanded comp < fuel ->
  exists comp' members', flood fuel adj cid comp stack members = Some (comp', members') /\
    flood_inv start seen0 comp' [] members'.
Proof.
  intros Hsym. induction fuel as [|fuel IH] in comp, stack, members |- *; intros Hinv Hf; [lia|].
  cbn [flood]. destruct stack as [|node stack]; [by exists comp, members|].
  destruct (fi_reach _ _ _ _ _ Hinv node) as [Hn _]; [apply elem_of_app; right; by left|].
  assert (Hnc : node < length comp) by (by rewrite (fi_len _ _ _ _ _ Hinv)).
  destruct (lookup_lt_is_Some_2 comp node Hnc) as [[c|] Hc]; rewrite Hc.
  - apply IH; [|cbn in Hf; lia]. destruct Hinv as [Hlen Hseen Hnd Hfresh Hreach Hclosed Hstart Hunseen].
    assert (Hsn : seen comp node) by (by exists c). split; try done.
    + intros i Hi. apply Hreach. rewrite elem_of_app, elem_of_cons in *. tauto.
    + intros i j Hi Hij. destruct (Hclosed i j Hi Hij) as [H|[->|H]%elem_of_cons]; auto.
    + destruct Hstart as [H|[->|H]%elem_of_cons]; [by left| |by right].
      by apply Hseen in Hsn as [H|H]; [|by left].
  - rewrite update_const by done.
    destruct (lookup_lt_is_Some_2 adj node) as [nexts Hnx]; [by rewrite (proj1 Hadj)|]. rewrite Hnx.
    destruct (flood_expand _ _ _ _ _ _ cid _ Hsym Hinv Hc Hnx) as (st & -> & Hinv' & Hm).
    apply IH; [done|]. cbn in Hf. lia.
Qed.
(** A class of entries that reach each other. *)
Definition class_ok (C : list nat) : Prop :=
  C <> [] /\ NoDup C /\ forall i, i ∈ C -> i < n /\ forall j, j ∈ C <-> rtc R i j.

Definition closed (P : nat -> Prop) : Prop := forall i j, P i -> R i j -> P j.

Lemma flood_class start seen0 comp members :
  (forall i j, R i j -> R j i) -> closed seen0 ->
  flood_inv start seen0 comp [] members -> class_ok members /\ closed (seen comp).
Proof.
  intros Hsym Hc0 [Hlen Hseen Hnd Hfresh Hreach Hclosed Hstart Hunseen].
  assert (Hstep : forall i j, i ∈ members -> R i j -> j ∈ members).
  { intros i j Hi Hij. destruct (Hclosed i j Hi Hij) as [H|H]; [|by apply elem_of_nil in H].
    apply Hseen in H as [H|H]; [|done]. destruct (Hfresh i Hi). by apply (Hc0 j i), Hsym. }
  assert (Hs : start ∈ members) by (by destruct Hstart as [|?%elem_of_nil]).
  assert (Hall : forall i j, i ∈ members -> rtc R i j -> j ∈ members).
  { intros i j Hi Hij. induction Hij as [|x y z Hxy _ IH]; [done|]. by apply IH, (Hstep x). }
  split.
  - split; [by intros ->; apply elem_of_nil in Hs|]. split; [done|]. intros i Hi.
    destruct (Hreach i) as [Hin Hri]; [by rewrite app_nil_r|]. split; [done|]. intros j.
    split; [|by apply Hall]. intros Hj. destruct (Hreach j) as [_ Hrj]; [by rewrite app_nil_r|].
    assert (Hsy : Symmetric R) by exact Hsym. trans start; [|done]. by symmetry.
  - intros i j Hi Hij. apply Hseen in Hi as [Hi|Hi]; apply Hseen; [left|right].
    + by apply (Hc0 i j).
    + by apply (Hstep i j).
Qed.

Lemma sum_lengths (l : list (list nat)) :
  sum_list_with (fun i => length (default [] (l !! i))) (seq 0 (length l)) = sum_list_with length l.
Proof.
  induction l as [|x l IH] using rev_ind; [done|].
  rewrite length_app, Nat.add_1_r, seq_S, !sum_list_with_app. cbn.
  rewrite list_lookup_middle by done. f_equal. rewrite <- IH. apply sum_list_with_ext.
  intros i Hi. apply elem_of_seq in Hi. by rewrite lookup_app_l by lia.
Qed.

Lemma unexpanded_bound comp : unexpanded comp <= sum_list_with length adj.
Proof.
  rewrite <- sum_lengths, (proj1 Hadj). unfold unexpanded.
  induction (seq 0 n) as [|i l IH]; [done|]. cbn. destruct (decide _); lia.
Qed.

Lemma components_from_spec starts comp comps :
  (forall i j, R i j -> R j i) -> length comp = n -> closed (seen comp) ->
  (forall i, seen comp i <-> i ∈ concat comps) -> NoDup (concat comps) ->
  Forall class_ok comps -> (forall i, i ∈ starts -> i < n) ->
  exists comps', components_from adj starts comp comps = Some comps' /\
    NoDup (concat comps') /\ Forall class_ok comps' /\
    forall i, i ∈ concat comps \/ i ∈ starts -> i ∈ concat comps'.
Proof.
  intros Hsym. induction starts as [|start starts IH] in comp, comps |- *;
    intros Hlen Hcl Hseen Hnd Hok Hst; cbn [components_from].
  { exists comps. split; [done|split; [done|split; [done|]]]. by intros i [|?%elem_of_nil]. }
  assert (Hst' : forall i, i ∈ starts -> i < n) by (intros i Hi; apply Hst; by right).
  assert (Hs : start < n) by (apply Hst; by left).
  destruct (lookup_lt_is_Some_2 comp start) as [[c|] Hc]; [by rewrite Hlen| |]; rewrite Hc.
  - destruct (IH comp comps) as (comps' & -> & Hnd' & Hok' & Hin); try done.
    exists comps'. split; [done|split; [done|split; [done|]]].
    intros i [Hi|[->|Hi]%elem_of_cons]; [apply Hin; by left| |apply Hin; by right].
    apply Hin. left. apply Hseen. by exists c.
  - assert (Hun : ~ seen comp start) by (intros [c H]; congruence).
    destruct (flood_spec (flood_fuel adj) start (seen comp) (length comps) comp [start] [] Hsym)
      as (comp' & members & -> & Hinv).
    { split; try done.
      - intros i. split; [by left|]. by intros [|?%elem_of_nil].
      - constructor.
      - by intros i ?%elem_of_nil.
      - intros i ->%list_elem_of_singleton. done.
      - by intros i j ?%elem_of_nil.
      - right. by left. }
    { unfold flood_fuel. pose proof (unexpanded_bound comp). cbn. lia. }
    destruct (flood_class _ _ _ _ Hsym Hcl Hinv) as [Hclass Hcl'].
    destruct Hinv as [Hlen' Hseen' Hnd' Hfresh _ _ Hstart _].
    destruct (IH comp' (comps ++ [members])) as (comps' & -> & Hnd2 & Hok2 & Hin); try done.
    + intros i. rewrite Hseen', concat_app, elem_of_app, Hseen. cbn. by rewrite app_nil_r.
    + rewrite concat_app. cbn. rewrite app_nil_r. apply NoDup_app. split; [done|split; [|done]].
      intros i Hi Hm. apply (Hfresh i Hm). by apply Hseen.
    + apply Forall_app. split; [done|]. by constructor.
    + exists comps'. split; [done|split; [done|split; [done|]]].
      assert (Hm : forall i, i ∈ concat comps \/ i ∈ members -> i ∈ concat comps').
      { intros i Hi. apply Hin. left. rewrite concat_app, elem_of_app. cbn. by rewrite app_nil_r. }
      intros i [Hi|[->|Hi]%elem_of_cons]; [apply Hm; by left| |apply Hin; by right].
      apply Hm. right. by destruct Hstart as [|?%elem_of_nil].
Qed.
End floods.

(** ** The group of a component *)

Section groups.
Context (entries : list ExpandedEntry).

(** The group [name] is right for the entries [P]: the one explicit group they
    have, or, when none has one, named after their lowest id. *)
Definition group_ok (P : nat -> Prop) (name : string) (is_auto : bool) : Prop :=
  if is_auto then
    (forall j e, P j -> entries !! j = Some e -> explicit e = None) /\
    exists id, name = "chain_" +:+ id /\
      (exists j e, P j /\ entries !! j = Some e /\ xe_id e = Some id) /\
      (forall j e id', P j -> entries !! j = Some e -> xe_id e = Some id' ->
         String.compare id id' <> Gt)
  else
    (exists j e, P j /\ entries !! j = Some e /\ explicit e = Some name) /\
    (forall j e g, P j -> entries !! j = Some e -> explicit e = Some g -> g = name).

(** Two of the entries [P] have different explicit groups, and the error names
    them. *)
Definition conflict_in (P : nat -> Prop) (err : GraphError) : Prop :=
  exists i j ei ej gi gj, P i /\ P j /\ entries !! i = Some ei /\ entries !! j = Some ej /\
    explicit ei = Some gi /\ explicit ej = Some gj /\ gi <> gj /\
    err = ConflictingClockGroup (source_label ei) gi (source_label ej) gj.

Lemma distinct_groups_spec members d0 :
  (forall i, i ∈ members -> i < length entries) -> bt_sorted d0 ->
  exists d, distinct_groups entries members d0 = Some d /\ bt_sorted d /\
    (forall g i, bt_get g d = Some i -> bt_get g d0 = Some i \/
       i ∈ members /\ exists e, entries !! i = Some e /\ explicit e = Some g) /\
    (forall g, is_Some (bt_get g d0) -> is_Some (bt_get g d)) /\
    (forall i e g, i ∈ members -> entries !! i = Some e -> explicit e = Some g ->
       is_Some (bt_get g d)).
Proof.
  induction members as [|i members IH] in d0 |- *; intros Hl Hs; cbn [distinct_groups].
  { exists d0. split; [done|split; [done|split; [by left|split; [done|]]]]. by intros i e g ?%elem_of_nil. }
  destruct (lookup_lt_is_Some_2 entries i) as [e He]; [apply Hl; by left|]. rewrite He.
  set (d1 := match xe_clock_group e with Some _ => _ | None => d0 end).
  assert (H1 : bt_sorted d1 /\
    (forall g j, bt_get g d1 = Some j -> bt_get g d0 = Some j \/ j = i /\ explicit e = Some g) /\
    (forall g, is_Some (bt_get g d0) -> is_Some (bt_get g d1)) /\
    (forall g, explicit e = Some g -> is_Some (bt_get g d1))).
  { unfold d1, explicit. destruct (xe_clock_group e) as [cg|]; [|naive_solver].
    destruct (String.eqb_spec cg "") as [|Hne]; [naive_solver|].
    destruct (bt_get cg d0) as [j|] eqn:Ej.
    - split; [done|split; [by left|split; [done|]]]. intros g [= <-]. by exists j.
    - split; [by apply bt_insert_sorted|split; [|split]].
      + intros g j. rewrite bt_get_insert. destruct (String.eqb_spec cg g) as [->|]; [|by left].
        intros [= <-]. by right.
      + intros g Hg. rewrite bt_get_insert. by destruct (String.eqb cg g).
      + intros g [= <-]. rewrite bt_get_insert, String.eqb_refl. by eexists. }
  destruct H1 as (Hs1 & Hn1 & Hk1 & He1).
  destruct (IH d1) as (d & -> & Hsd & Hn & Hk & Hm); [intros j Hj; apply Hl; by right|done|].
  exists d. split; [done|split; [done|split; [|split]]].
  - intros g j [H|(Hj & Hx)]%Hn; [|right; split; [by right|done]].
    apply Hn1 in H as [H|[-> Hg]]; [by left|right]. split; [by left|]. by exists e.
  - intros g Hg. by apply Hk, Hk1.
  - intros j e' g [->|Hj]%elem_of_cons He' Hg.
    + rewrite He in He'. injection He' as <-. by apply Hk, He1.
    + by apply (Hm j e').
Qed.

Lemma auto_chain_name_spec members :
  (forall i, i ∈ members -> i < length entries) ->
  (exists i e id, i ∈ members /\ entries !! i = Some e /\ xe_id e = Some id) ->
  exists id, auto_chain_name members entries = Some ("chain_" +:+ id) /\
    (exists j e, j ∈ members /\ entries !! j = Some e /\ xe_id e = Some id) /\
    (forall j e id', j ∈ members -> entries !! j = Some e -> xe_id e = Some id' ->
       String.compare id id' <> Gt).
Proof.
  intros Hl (i0 & e0 & id0 & Hi0 & He0 & Hid0). unfold auto_chain_name.
  assert (Hm : is_Some (mapM (fun i => entries !! i) members)).
  { apply mapM_is_Some, list.Forall_forall. intros i Hi. by apply lookup_lt_is_Some_2, Hl. }
  destruct Hm as [es Hes]. rewrite Hes. apply mapM_Some in Hes.
  assert (Hids : forall id, id ∈ omap xe_id es <->
    exists j e, j ∈ members /\ entries !! j = Some e /\ xe_id e = Some id).
  { intros id. rewrite list_elem_of_omap. split.
    - intros (e & He & Hid). apply list_elem_of_lookup in He as [t Ht].
      destruct (Forall2_lookup_r _ _ _ _ _ Hes Ht) as (j & Hj & Hje). exists j, e.
      split; [by apply list_elem_of_lookup_2 in Hj|done].
    - intros (j & e & Hj & Hje & Hid). apply list_elem_of_lookup in Hj as [t Ht].
      destruct (Forall2_lookup_l _ _ _ _ _ Hes Ht) as (e' & He' & Hje'). exists e'.
      split; [by apply list_elem_of_lookup_2 in He'|congruence]. }
  pose proof (merge_sort_Permutation str_le (omap xe_id es)) as Hp.
  assert (Hs : StronglySorted str_le (merge_sort str_le (omap xe_id es)))
    by (apply StronglySorted_merge_sort; unfold str_le; apply _).
  destruct (merge_sort str_le (omap xe_id es)) as [|id ids] eqn:E.
  - exfalso. assert (H : id0 ∈ omap xe_id es) by (apply Hids; by exists i0, e0).
    rewrite <- Hp in H. by apply elem_of_nil in H.
  - exists id. split; [done|]. split; [apply Hids; rewrite <- Hp; by left|].
    intros j e id' Hj He Hid. assert (H : id' ∈ omap xe_id es) by (apply Hids; by exists j, e).
    rewrite <- Hp in H. apply elem_of_cons in H as [->|H]; [by rewrite str_compare_refl|].
    apply StronglySorted_inv in Hs as [_ Hf]. rewrite list.Forall_forall in Hf. by apply (Hf id').
Qed.

Lemma resolve_group_spec members :
  (forall i, i ∈ members -> i < length entries) ->
  (exists i e id, i ∈ members /\ entries !! i = Some e /\ xe_id e = Some id) ->
  exists r, resolve_group entries members = Some r /\
    match r with
    | Ok (name, is_auto) => group_ok (fun j => j ∈ members) name is_auto
    | Err err => conflict_in (fun j => j ∈ members) err
    end.
Proof.
  intros Hl Hid. unfold resolve_group.
  destruct (distinct_groups_spec members []) as (d & -> & Hs & Hn & _ & Hm); [done|constructor|].
  assert (Hn' : forall g i, bt_get g d = Some i ->
    i ∈ members /\ exists e, entries !! i = Some e /\ explicit e = Some g).
  { intros g i H. by apply Hn in H as [H|H]. }
  destruct d as [|[g1 i1] [|[g2 i2] d]].
  - destruct (auto_chain_name_spec members Hl Hid) as (id & -> & Hx & Hmin).
    eexists. split; [done|]. split; [|by exists id]. intros j e Hj He.
    destruct (explicit e) as [g|] eqn:Eg; [|done]. by destruct (Hm j e g Hj He Eg).
  - eexists. split; [done|]. split.
    + destruct (Hn' g1 i1) as (Hi & e & He & Hg); [cbn; by rewrite String.eqb_refl|]. by exists i1, e.
    + intros j e g Hj He Hg. destruct (Hm j e g Hj He Hg) as [i Hi]. cbn in Hi.
      by destruct (String.eqb_spec g1 g).
  - assert (Hlt : str_lt g1 g2).
    { apply StronglySorted_inv in Hs as [_ Hf]. by apply Forall_cons_1 in Hf as [? _]. }
    assert (Hne : g1 <> g2) by (intros ->; by apply (irreflexivity str_lt g2)).
    destruct (Hn' g1 i1) as (Hi1 & e1 & He1 & Hg1); [cbn; by rewrite String.eqb_refl|].
    destruct (Hn' g2 i2) as (Hi2 & e2 & He2 & Hg2).
    { cbn. rewrite (proj2 (String.eqb_neq g1 g2)) by done. by rewrite String.eqb_refl. }
    rewrite He1, He2. eexists. split; [done|]. by exists i1, i2, e1, e2, g1, g2.
Qed.
End groups.

(** ** The assignment *)

Section assignment.
Context (entries : list ExpandedEntry).
Let n := length entries.
Let class := class_ok n (sc (after_edge entries)).

Lemma class_has_id C :
  class C -> 2 <= length C ->
  exists i e id, i ∈ C /\ entries !! i = Some e /\ xe_id e = Some id.
Proof.
  intros (_ & Hnd & HC) Hl. destruct C as [|a [|b C]]; cbn in Hl; [lia|lia|].
  destruct (HC a) as [_ Ha]; [by left|].
  assert (Hab : rtc (sc (after_edge entries)) a b) by (apply Ha; right; by left).
  inversion Hab as [|? y ? Hay _]; subst.
  { apply NoDup_cons in Hnd as [Hnd _]. destruct Hnd. by left. }
  assert (Hy : y ∈ a :: b :: C) by (apply Ha; by apply rtc_once).
  destruct Hay as [Hay|Hya].
  - apply after_edge_range in Hay as (_ & _ & e & id & H). by exists y, e, id.
  - apply after_edge_range in Hya as (_ & _ & e & id & H). exists a, e, id. by split; [left|].
Qed.

Lemma assign_members_spec a members out :
  (forall i, i ∈ members -> i < length out) ->
  exists out', assign_members a members out = Some out' /\ length out' = length out /\
    forall i, out' !! i = if decide (i ∈ members) then Some a else out !! i.
Proof.
  induction members as [|x members IH] in out |- *; intros Hl; cbn [assign_members].
  { exists out. split; [done|split; [done|]]. intros i.
    rewrite decide_False; [done|by apply not_elem_of_nil]. }
  assert (Hx : x < length out) by (apply Hl; by left). rewrite update_const by done.
  destruct (IH (<[x := a]> out)) as (out' & -> & Hlen & Ho).
  { intros i Hi. rewrite length_insert. apply Hl. by right. }
  exists out'. split; [done|]. rewrite length_insert in Hlen. split; [done|]. intros i. rewrite Ho.
  destruct (decide (i ∈ members)) as [Hi|Hi]; [by rewrite decide_True by (by right)|].
  destruct (decide (x = i)) as [<-|Hne].
  - rewrite list_lookup_insert_eq, decide_True; [done|by left|done].
  - rewrite list_lookup_insert_ne, decide_False; [done| |done]. by intros [->|]%elem_of_cons.
Qed.

(** What the assignment of a member of the class [C] is. *)
Definition assigned (C : list nat) (out : list ClockGroupAssignment) (a0 : ClockGroupAssignment)
  : Prop :=
  if length C <? 2 then forall i, i ∈ C -> out !! i = Some a0
  else exists name is_auto, group_ok entries (fun j => j ∈ C) name is_auto /\
    forall i, i ∈ C -> out !! i = Some (Resolved name is_auto).

Lemma assign_components_spec comps out :
  length out = n -> Forall class comps -> NoDup (concat comps) ->
  (forall i, i ∈ concat comps -> out !! i = Some Unassigned) ->
  exists r, assign_components entries comps out = Some r /\
    match r with
    | Err err => exists C, C ∈ comps /\ conflict_in entries (fun j => j ∈ C) err
    | Ok out' => length out' = n /\ (forall i, i ∉ concat comps -> out' !! i = out !! i) /\
        forall C, C ∈ comps -> assigned C out' Unassigned
    end.
Proof.
  induction comps as [|C comps IH] in out |- *; intros Hlen Hok Hnd Hun; cbn [assign_components].
  { eexists. split; [done|]. split; [done|split; [done|]]. by intros C ?%elem_of_nil. }
  apply Forall_cons_1 in Hok as [HC Hok]. cbn [concat] in *.
  apply NoDup_app in Hnd as (HndC & Hdis & Hnd).
  assert (Hrange : forall i, i ∈ C -> i < n) by (intros i Hi; by apply HC).
  assert (Hstep : forall out1, length out1 = n ->
    (forall i, i ∉ C -> out1 !! i = out !! i) -> assigned C out1 Unassigned ->
    exists r, assign_components entries comps out1 = Some r /\
    match r with
    | Err err => exists C', C' ∈ C :: comps /\ conflict_in entries (fun j => j ∈ C') err
    | Ok out' => length out' = n /\ (forall i, i ∉ C ++ concat comps -> out' !! i = out !! i) /\
        forall C', C' ∈ C :: comps -> assigned C' out' Unassigned
    end).
  { intros out1 Hl1 Hsame Has. destruct (IH out1 Hl1 Hok Hnd) as (r & -> & Hr).
    { intros i Hi. rewrite Hsame; [|intros H; by apply (Hdis i)]. apply Hun, elem_of_app. by right. }
    exists r. split; [done|]. destruct r as [out'|err].
    - destruct Hr as (Hl' & Ho & Hall). split; [done|split].
      + intros i Hi. rewrite elem_of_app in Hi. rewrite Ho, Hsame; tauto.
      + intros C' [->|HC']%elem_of_cons; [|by apply Hall]. unfold assigned in *.
        assert (Hkeep : forall i, i ∈ C -> out' !! i = out1 !! i)
          by (intros i Hi; apply Ho; by apply Hdis).
        destruct (length C <? 2).
        * intros i Hi. rewrite Hkeep by done. by apply Has.
        * destruct Has as (name & au & Hg & Hv). exists name, au. split; [done|].
          intros i Hi. rewrite Hkeep by done. by apply Hv.
    - destruct Hr as (C' & HC' & Hcf). exists C'. split; [by right|done]. }
  unfold assigned in Hstep at 1. destruct (Nat.ltb_spec (length C) 2) as [Hs|Hs].
  - apply Hstep; [done|done|]. intros i Hi. apply Hun, elem_of_app. by left.
  - destruct (resolve_group_spec entries C Hrange (class_has_id C HC Hs)) as (r & -> & Hr).
    destruct r as [[name au]|err].
    + destruct (assign_members_spec (Resolved name au) C out) as (out1 & -> & Hl1 & Ho1);
        [by rewrite Hlen|].
      apply Hstep; [congruence| |].
      * intros i Hi. by rewrite Ho1, decide_False.
      * exists name, au. split; [done|]. intros i Hi. by rewrite Ho1, decide_True.
    + eexists. split; [done|]. exists C. split; [by left|done].
Qed.
End assignment.

Lemma group_ok_ext entries (P Q : nat -> Prop) name is_auto :
  (forall j, P j <-> Q j) -> group_ok entries P name is_auto -> group_ok entries Q name is_auto.
Proof.
  intros HPQ. unfold group_ok. destruct is_auto.
  - intros [Hn (id & -> & (j & e & Hj & H) & Hmin)]. split.
    + intros j' e' Hj'. by apply Hn, HPQ.
    + exists id. split; [done|]. split; [exists j, e; by rewrite <- HPQ|].
      intros j' e' id' Hj'. by apply Hmin, HPQ.
  - intros [(j & e & Hj & H) Hu]. split; [exists j, e; by rewrite <- HPQ|].
    intros j' e' g Hj'. by apply Hu, HPQ.
Qed.

Lemma components_spec entries :
  exists adj comps,
    adj_from (build_id_index entries) 0 entries (replicate (length entries) []) = Some adj /\
    components_from adj (seq 0 (length entries)) (replicate (length entries) None) [] = Some comps /\
    NoDup (concat comps) /\ Forall (class_ok (length entries) (sc (after_edge entries))) comps /\
    forall i, i < length entries -> i ∈ concat comps.
Proof.
  destruct (adj_from_spec (length entries) (build_id_index entries) 0 entries
    (replicate (length entries) []) (fun _ _ => False)) as (adj & Hadj & Hok).
  - split; [apply length_replicate|]. intros i j. split; [|done].
    intros (l & [-> _]%lookup_replicate_1 & H). by apply elem_of_nil in H.
  - done.
  - intros r d (e & He & _)%id_index_get. by eapply lookup_lt_Some.
  - assert (Hok' : adj_ok (length entries) (sc (after_edge entries)) adj).
    { eapply adj_ok_ext; [|exact Hok]. intros i j. unfold sc, after_from, after_edge.
      split.
      - intros [[]|[(k & e & c & -> & H)|(k & e & c & -> & H)]]; [left|right]; by exists e, c.
      - intros [(e & c & H)|(e & c & H)]; right; [left; by exists i, e, c|right; by exists j, e, c]. }
    destruct (components_from_spec (length entries) (sc (after_edge entries)) adj Hok'
      (seq 0 (length entries)) (replicate (length entries) None) [])
      as (comps & Hc & Hnd & Hcl & Hin).
    + intros i j [H|H]; [by right|by left].
    + apply length_replicate.
    + intros i j [c H]. by apply lookup_replicate_1 in H as [? _].
    + intros i. split; [intros [c H]; by apply lookup_replicate_1 in H as [? _]|by intros ?%elem_of_nil].
    + constructor.
    + constructor.
    + intros i Hi. apply elem_of_seq in Hi. lia.
    + exists adj, comps. split; [done|split; [done|split; [done|split; [done|]]]].
      intros i Hi. apply Hin. right. apply elem_of_seq. lia.
Qed.

Lemma assign_clock_groups_aux entries :
  exists r, assign_clock_groups entries (build_id_index entries) = Some r /\
  match r with
  | Err err => exists i, conflict_in entries (linked entries i) err
  | Ok out => length out = length entries /\
      forall i, i < length entries -> exists a, out !! i = Some a /\
        match a with
        | Unassigned => forall j, linked entries i j -> j = i
        | Resolved name is_auto =>
            (exists j, linked entries i j /\ j <> i) /\
            group_ok entries (linked entries i) name is_auto /\
            forall j, linked entries i j -> out !! j = Some a
        end
  end.
Proof.
  unfold assign_clock_groups.
  destruct (components_spec entries) as (adj & comps & -> & -> & Hnd & Hcl & Hin).
  destruct (assign_components_spec entries comps (replicate (length entries) Unassigned))
    as (r & -> & Hr); [apply length_replicate|done|done| |].
  { intros i Hi. apply lookup_replicate_2. apply list_elem_of_In, in_concat in Hi as (C & HC & Hi).
    rewrite list.Forall_forall in Hcl. apply (Hcl C); by apply list_elem_of_In. }
  exists r. split; [done|]. rewrite list.Forall_forall in Hcl. destruct r as [out|err].
  - destruct Hr as (Hlen & _ & Hall). split; [done|]. intros i Hi.
    apply Hin in Hi as Hc. apply list_elem_of_In, in_concat in Hc as (C & HC & HiC).
    apply list_elem_of_In in HC, HiC. destruct (Hcl C HC) as (_ & HndC & HCi).
    destruct (HCi i HiC) as [_ Hlink]. specialize (Hall C HC). unfold assigned in Hall.
    destruct (Nat.ltb_spec (length C) 2) as [Hs|Hs].
    + exists Unassigned. split; [by apply Hall|]. intros j Hj%Hlink.
      destruct C as [|x [|y C]]; cbn in Hs; [by apply elem_of_nil in HiC| |lia].
      apply list_elem_of_singleton in HiC, Hj. congruence.
    + destruct Hall as (name & au & Hg & Ho). exists (Resolved name au). split; [by apply Ho|].
      split; [|split; [by apply (group_ok_ext entries (fun j => j ∈ C))|]].
      * destruct C as [|x [|y C]]; cbn in Hs; [lia|lia|]. destruct (decide (x = i)) as [->|Hx].
        -- exists y. split; [apply Hlink; right; by left|]. intros ->.
           apply NoDup_cons in HndC as [H _]. apply H. by left.
        -- exists x. split; [apply Hlink; by left|done].
      * intros j Hj%Hlink. by apply Ho.
  - destruct Hr as (C & HC & (i & j & ei & ej & gi & gj & Hi & Hj & H)).
    destruct (Hcl C HC) as (_ & _ & HCi). destruct (HCi i Hi) as [_ Hlink].
    exists i, i, j, ei, ej, gi, gj. split; [by apply Hlink|split; [by apply Hlink|done]].
Qed.

(** C31: clock groups follow the [after:] chains. [assign_clock_groups] never
    panics and its floods end. It fails only on two entries of one chain with
    different explicit groups, which the error names. Otherwise an entry that no
    clause links to another is left alone, and all entries of a longer chain
    get the same group: the one explicit, non-empty group of the chain, or,
    when there is none, [chain_] and the lowest id of the chain, marked as
    made up. *)
Theorem assign_clock_groups_correct entries :
  exists r, assign_clock_groups entries (build_id_index entries) = Some r /\
  match r with
  | Err err => exists i, conflict_in entries (linked entries i) err
  | Ok out => length out = length entries /\
      forall i, i < length entries -> exists a, out !! i = Some a /\
        match a with
        | Unassigned => forall j, linked entries i j -> j = i
        | Resolved name is_auto =>
            (exists j, linked entries i j /\ j <> i) /\
            group_ok entries (linked entries i) name is_auto /\
            forall j, linked entries i j -> out !! j = Some a
        end
  end.
Proof. apply assign_clock_groups_aux. Qed.

Definition demo_group (id : string) (after : option string) (group : option string)
  : ExpandedEntry :=
  let e := demo_entry id after None in
  mk_expanded (xe_id e) (xe_name e) group (xe_after e) (xe_while e).

Definition demo_groups : list ExpandedEntry :=
  [demo_group "lone" None (Some "mine"); demo_group "z" (Some "m") None;
   demo_group "m" None (Some ""); demo_group "k" None None; demo_group "x" (Some "k") (Some "core")].

Example demo_groups_assigned :
  assign_clock_groups demo_groups (build_id_index demo_groups)
  = Some (Ok [Unassigned; Resolved "chain_m" true; Resolved "chain_m" true;
              Resolved "core" false; Resolved "core" false]).
Proof. vm_compute. reflexivity. Qed.
