(* ===== verification/OrdMap.v ===== *)
(** * OrdMap: ordered maps over a lawful comparison

    Rust's [BTreeMap<K, V>] for a key with a lawful [Ord]: an association list
    kept strictly sorted by key, which is what its iterator yields. [om_get],
    [om_insert], [om_alter] (a write through [get_mut]), [om_remove] and
    [om_after] ([range((Excluded(k), Unbounded))]); the laws hold under the
    order invariant [om_sorted]. *)

From Stdlib Require Import ZArith Lia Sorted.
From stdpp Require Import prelude list.
From S2P Require Import Prelude.

Section ordmap.
Context {K V : Type} (cmp : K -> K -> comparison).
Implicit Types (m : list (K * V)) (k : K) (v : V).

(** [map.get(k)]. *)
Fixpoint om_get k m : option V :=
  match m with
  | [] => None
  | (k', v') :: m => match cmp k k' with Eq => Some v' | Lt => None | Gt => om_get k m end
  end.

(** [map.insert(k, v)]: overwrite in place or insert in order. *)
Fixpoint om_insert k v m : list (K * V) :=
  match m with
  | [] => [(k, v)]
  | (k', v') :: m =>
      match cmp k k' with
      | Eq => (k', v) :: m
      | Lt => (k, v) :: (k', v') :: m
      | Gt => (k', v') :: om_insert k v m
      end
  end.

(** [if let Some(v) = map.get_mut(k) { *v = f(v) }]. *)
Fixpoint om_alter (f : V -> V) k m : list (K * V) :=
  match m with
  | [] => []
  | (k', v') :: m =>
      match cmp k k' with
      | Eq => (k', f v') :: m
      | Lt => (k', v') :: m
      | Gt => (k', v') :: om_alter f k m
      end
  end.

(** [map.remove(k)]. *)
Fixpoint om_remove k m : list (K * V) :=
  match m with
  | [] => []
  | (k', v') :: m =>
      match cmp k k' with
      | Eq => m
      | Lt => (k', v') :: m
      | Gt => (k', v') :: om_remove k m
      end
  end.

(** [map.range((Excluded(k), Unbounded))]. *)
Fixpoint om_after k m : list (K * V) :=
  match m with
  | [] => []
  | (k', v') :: m => match cmp k k' with Lt => (k', v') :: m | _ => om_after k m end
  end.

Definition key_lt (a b : K) : Prop := cmp a b = Lt.

#[export] Instance key_lt_dec a b : Decision (key_lt a b).
Proof. unfold key_lt. apply _. Defined.

(** The keys are strictly increasing, so distinct. *)
Definition om_sorted m : Prop := StronglySorted key_lt (map fst m).

Context `{!LawfulCmp cmp}.

#[local] Instance key_lt_trans : Transitive key_lt.
Proof. intros a b c. unfold key_lt. apply cmp_lt_trans. Qed.

#[local] Instance key_lt_irrefl : Irreflexive key_lt.
Proof. intros a. unfold complement, key_lt. by rewrite cmp_refl. Qed.

Lemma cmp_gt_lt a b : cmp a b = Gt <-> cmp b a = Lt.
Proof. rewrite (cmp_antisym (cmp := cmp) a b). by destruct (cmp a b). Qed.

Lemma cmp_eq a b : cmp a b = Eq -> a = b.
Proof. apply cmp_eq_iff. Qed.

(** Split the comparison of two keys, the equal case substituted. *)
Ltac cmp_cases k k' :=
  let E := fresh "Ek" in
  destruct (cmp k k') eqn:E;
  [apply cmp_eq in E; subst| |apply cmp_gt_lt in E].

Lemma key_lt_ne a b : key_lt a b -> a <> b.
Proof. intros H ->. by apply (irreflexivity key_lt b). Qed.

Lemma om_sorted_cons k v m :
  om_sorted ((k, v) :: m) <-> Forall (key_lt k) (map fst m) /\ om_sorted m.
Proof.
  unfold om_sorted. cbn [map fst]. split.
  - intros H. apply StronglySorted_inv in H as [H1 H2]. done.
  - intros [H1 H2]. by constructor.
Qed.

Lemma om_sorted_nil : om_sorted [].
Proof. constructor. Qed.

(** A key below every key of the map is not in it. *)
Lemma om_get_below k m : Forall (key_lt k) (map fst m) -> om_get k m = None.
Proof.
  destruct m as [|[k' v'] m]; [done|]. cbn [map fst om_get]. intros H.
  apply Forall_cons_1 in H as [H _]. unfold key_lt in H. by rewrite H.
Qed.

Lemma Forall_key_lt_trans k k' m :
  key_lt k k' -> Forall (key_lt k') (map fst m) -> Forall (key_lt k) (map fst m).
Proof. intros Hk. induction 1; constructor; [by transitivity k'|done]. Qed.

Lemma om_insert_Forall P k v m :
  P k -> Forall P (map fst m) -> Forall P (map fst (om_insert k v m)).
Proof.
  intros Hk. induction m as [|[k' v'] m IH]; cbn [map fst om_insert]; intros Hm;
    [by constructor|].
  pose proof Hm as Hm'. apply Forall_cons_1 in Hm' as [H1 H2].
  destruct (cmp k k'); cbn [map fst]; by repeat constructor; auto.
Qed.

Lemma om_insert_sorted k v m : om_sorted m -> om_sorted (om_insert k v m).
Proof.
  induction m as [|[k' v'] m IH]; intros Hs; [by repeat constructor|].
  pose proof Hs as [Hf Hm]%om_sorted_cons. cbn [om_insert].
  cmp_cases k k'; rewrite !om_sorted_cons.
  - done.
  - split; [|done]. constructor; [done|]. by apply (Forall_key_lt_trans k k').
  - split; [|by apply IH]. by apply om_insert_Forall.
Qed.

Lemma om_alter_keys f k m : map fst (om_alter f k m) = map fst m.
Proof.
  induction m as [|[k' v'] m IH]; [done|]. cbn [om_alter].
  destruct (cmp k k'); cbn [map fst]; by rewrite ?IH.
Qed.

Lemma om_alter_sorted f k m : om_sorted m -> om_sorted (om_alter f k m).
Proof. unfold om_sorted. by rewrite om_alter_keys. Qed.

Lemma om_remove_Forall P k m : Forall P (map fst m) -> Forall P (map fst (om_remove k m)).
Proof.
  induction m as [|[k' v'] m IH]; [done|]. cbn [om_remove map fst]. intros H.
  pose proof H as [H1 H2]%Forall_cons_1. destruct (cmp k k'); [done..|].
  constructor; auto.
Qed.

Lemma om_remove_sorted k m : om_sorted m -> om_sorted (om_remove k m).
Proof.
  induction m as [|[k' v'] m IH]; [done|]. intros Hs. pose proof Hs as [Hf Hm]%om_sorted_cons.
  cbn [om_remove]. cmp_cases k k'; [done..|]. apply om_sorted_cons.
  split; [by apply om_remove_Forall|auto].
Qed.

Lemma om_get_insert_eq k v m : om_get k (om_insert k v m) = Some v.
Proof.
  induction m as [|[k' v'] m IH]; cbn [om_insert om_get]; [by rewrite cmp_refl|].
  destruct (cmp k k') eqn:E; cbn [om_get]; rewrite ?cmp_refl, ?E; auto.
Qed.

Lemma om_get_insert_ne j k v m :
  om_sorted m -> j <> k -> om_get j (om_insert k v m) = om_get j m.
Proof.
  intros Hs Hne. induction m as [|[k' v'] m IH]; cbn [om_insert om_get].
  - cmp_cases j k; done.
  - apply om_sorted_cons in Hs as [Hf Hm]. cmp_cases k k'; cbn [om_get].
    + cmp_cases j k'; done.
    + cmp_cases j k; [done| |done].
      replace (cmp j k') with Lt; [done|]. symmetry. by apply (cmp_lt_trans _ k).
    + rewrite IH by done. done.
Qed.

Lemma om_get_insert j k v m :
  om_sorted m -> om_get j (om_insert k v m) = match cmp j k with Eq => Some v | _ => om_get j m end.
Proof.
  intros Hs. destruct (cmp j k) eqn:E.
  - apply cmp_eq in E as ->. apply om_get_insert_eq.
  - apply om_get_insert_ne; [done|]. intros ->. by rewrite cmp_refl in E.
  - apply om_get_insert_ne; [done|]. intros ->. by rewrite cmp_refl in E.
Qed.

Lemma om_get_alter_eq f k m : om_get k (om_alter f k m) = f <$> om_get k m.
Proof.
  induction m as [|[k' v'] m IH]; [done|]. cbn [om_alter om_get].
  destruct (cmp k k') eqn:E; cbn [om_get]; rewrite E; auto.
Qed.

Lemma om_get_alter_ne f j k m : j <> k -> om_get j (om_alter f k m) = om_get j m.
Proof.
  intros Hne. induction m as [|[k' v'] m IH]; [done|]. cbn [om_alter om_get].
  cmp_cases k k'; cbn [om_get]; [|done|by rewrite IH].
  cmp_cases j k'; done.
Qed.

Lemma om_get_remove_eq k m : om_sorted m -> om_get k (om_remove k m) = None.
Proof.
  induction m as [|[k' v'] m IH]; [done|]. intros [Hf Hm]%om_sorted_cons.
  cbn [om_remove]. destruct (cmp k k') eqn:E; cbn [om_get]; rewrite ?E; auto.
  apply cmp_eq in E as ->. by apply om_get_below.
Qed.

Lemma om_get_remove_ne j k m :
  om_sorted m -> j <> k -> om_get j (om_remove k m) = om_get j m.
Proof.
  intros Hs Hne. induction m as [|[k' v'] m IH]; [done|]. apply om_sorted_cons in Hs as [Hf Hm].
  cbn [om_remove om_get]. cmp_cases k k'; cbn [om_get]; [|done|by rewrite IH].
  cmp_cases j k'; [done| |done]. apply om_get_below. by apply (Forall_key_lt_trans j k').
Qed.

Lemma om_remove_alter f k m : om_remove k (om_alter f k m) = om_remove k m.
Proof.
  induction m as [|[k' v'] m IH]; [done|]. cbn [om_alter om_remove].
  destruct (cmp k k') eqn:E; cbn [om_remove]; rewrite E; [done..|]. by rewrite IH.
Qed.

(** A property of every entry, through each write. *)
Lemma om_insert_all (P : K * V -> Prop) k v m :
  Forall P m -> P (k, v) -> Forall P (om_insert k v m).
Proof.
  intros Hm Hk. induction Hm as [|[k' v'] m Hx Hm IH]; cbn [om_insert]; [by constructor|].
  cmp_cases k k'; repeat constructor; auto.
Qed.

Lemma om_alter_all (P : K * V -> Prop) f k m :
  Forall P m -> (forall v, om_get k m = Some v -> P (k, f v)) -> Forall P (om_alter f k m).
Proof.
  induction 1 as [|[k' v'] m Hx Hm IH]; cbn [om_alter om_get]; intros Hk; [constructor|].
  destruct (cmp k k') eqn:E; [|by constructor..|].
  - apply cmp_eq in E as ->. constructor; auto.
  - constructor; [done|]. by apply IH.
Qed.

Lemma om_remove_all (P : K * V -> Prop) k m : Forall P m -> Forall P (om_remove k m).
Proof.
  induction 1 as [|[k' v'] m Hx Hm IH]; cbn [om_remove]; [constructor|].
  destruct (cmp k k'); [done|by constructor..].
Qed.

Lemma om_get_all (P : K * V -> Prop) k v m : Forall P m -> om_get k m = Some v -> P (k, v).
Proof.
  induction 1 as [|[k' v'] m Hx Hm IH]; [done|]. cbn [om_get].
  cmp_cases k k'; [by intros [= ->]|done|done].
Qed.

(** Under the invariant, lookup and membership agree. *)
Lemma om_get_Some k v m : om_sorted m -> om_get k m = Some v <-> (k, v) ∈ m.
Proof.
  induction m as [|[k' v'] m IH]; intros Hs; [split; [done|by intros ?%elem_of_nil]|].
  apply om_sorted_cons in Hs as [Hf Hm]. rewrite elem_of_cons. cbn [om_get].
  specialize (IH Hm). rewrite list.Forall_forall in Hf.
  assert (Hin : forall w, (k, w) ∈ m -> key_lt k' k)
    by (intros w Hw; apply Hf; by apply (list_elem_of_fmap_2 fst) in Hw).
  cmp_cases k k'.
  - split; [intros [= ->]; by left|]. intros [[= ->]|Hw]; [done|].
    by apply Hin, (irreflexivity key_lt) in Hw.
  - split; [done|]. intros [[= -> ->]|Hw]; [by rewrite cmp_refl in Ek|].
    exfalso. apply (irreflexivity key_lt k). transitivity k'; [done|eauto].
  - rewrite IH. split; [by right|]. intros [[= -> ->]|Hw]; [by rewrite cmp_refl in Ek|done].
Qed.

(** [om_after] is the filter by "greater than". *)
Lemma om_after_filter k m :
  om_sorted m -> om_after k m = filter (fun e => key_lt k e.1) m.
Proof.
  induction m as [|[k' v'] m IH]; [done|]. intros [Hf Hm]%om_sorted_cons.
  cbn [om_after]. rewrite filter_cons. cbn [fst].
  destruct (decide (key_lt k k')) as [E|E].
  - rewrite <- IH by done. unfold key_lt in E. rewrite E. f_equal.
    destruct m as [|[k2 v2] m]; [done|]. cbn [map fst] in Hf.
    apply Forall_cons_1 in Hf as [Hk _]. cbn [om_after].
    by rewrite (cmp_lt_trans _ _ _ E Hk).
  - unfold key_lt in E. destruct (cmp k k'); [by apply IH|done|by apply IH].
Qed.

Lemma om_after_elem k m e :
  om_sorted m -> e ∈ om_after k m <-> e ∈ m /\ key_lt k e.1.
Proof. intros Hs. rewrite om_after_filter, list_elem_of_filter by done. tauto. Qed.

Lemma om_get_None k m : om_sorted m -> om_get k m = None <-> k ∉ map fst m.
Proof.
  intros Hs. split.
  - intros Hg [[k' v] [-> Hin]]%list_elem_of_fmap. cbn [fst] in Hg.
    apply om_get_Some in Hin; [|done]. by rewrite Hg in Hin.
  - intros Hn. destruct (om_get k m) as [v|] eqn:E; [|done].
    apply om_get_Some in E; [|done]. destruct Hn. apply list_elem_of_fmap. by exists (k, v).
Qed.

Lemma om_insert_elem k v m e :
  om_sorted m -> k ∉ map fst m -> e ∈ om_insert k v m <-> e = (k, v) \/ e ∈ m.
Proof.
  intros Hs Hn. destruct e as [k' v'].
  rewrite <- (om_get_Some k' v' (om_insert k v m)), <- (om_get_Some k' v' m)
    by auto using om_insert_sorted.
  destruct (cmp k' k) eqn:E.
  - apply cmp_eq in E as ->. rewrite om_get_insert_eq. apply om_get_None in Hn as ->; [|done].
    split; [intros [= ->]; by left|]. by intros [[= ->]|?].
  - assert (k' <> k) by (intros ->; by rewrite cmp_refl in E).
    rewrite om_get_insert_ne by done. split; [by right|]. intros [[= -> ->]|]; done.
  - assert (k' <> k) by (intros ->; by rewrite cmp_refl in E).
    rewrite om_get_insert_ne by done. split; [by right|]. intros [[= -> ->]|]; done.
Qed.

(** The entry whose key is below every other is the first, and the others are
    the rest. *)
Lemma om_first k v m :
  om_sorted m -> (k, v) ∈ m -> (forall e, e ∈ m -> e.1 = k \/ key_lt k e.1) ->
  exists m', m = (k, v) :: m' /\ om_sorted m' /\
    forall e, e ∈ m' <-> e ∈ m /\ e.1 <> k.
Proof.
  intros Hs Hin Hmin. destruct m as [|[k' v'] m']; [by apply elem_of_nil in Hin|].
  pose proof Hs as [Hf Hm]%om_sorted_cons. rewrite list.Forall_forall in Hf.
  assert (Hk : forall e, e ∈ m' -> key_lt k' e.1)
    by (intros e He; apply Hf; by apply list_elem_of_fmap_2).
  assert (k' = k) as ->.
  { destruct (Hmin (k', v')) as [?|Hlt]; [by left|done|]. cbn [fst] in Hlt.
    apply elem_of_cons in Hin as [[= <- <-]|Hin]; [done|]. apply Hk in Hin. cbn [fst] in Hin.
    exfalso. apply (irreflexivity key_lt k). by transitivity k'. }
  apply elem_of_cons in Hin as [[= <-]|Hin];
    [|apply Hk in Hin; by apply (irreflexivity key_lt) in Hin].
  exists m'. split_and!; [done..|]. intros e. rewrite elem_of_cons. split.
  - intros He. split; [by right|]. intros E. apply Hk in He. rewrite E in He.
    by apply (irreflexivity key_lt) in He.
  - intros [[->|He] Hne]; done.
Qed.

(** The entries after the first one after [k] are those after its key. *)
Lemma om_after_next k m e t :
  om_sorted m -> om_after k m = e :: t -> om_after e.1 m = t.
Proof.
  induction m as [|[k' v'] m IH]; [done|]. intros [Hf Hm]%om_sorted_cons. cbn [om_after].
  assert (Hrest : om_after k m = e :: t -> match cmp e.1 k' with
    | Lt => (k', v') :: m | _ => om_after e.1 m end = t).
  { intros He. assert (Hin : e ∈ om_after k m) by (rewrite He; by left).
    apply om_after_elem in Hin as [Hin _]; [|done].
    rewrite list.Forall_forall in Hf. apply (list_elem_of_fmap_2 fst), Hf in Hin.
    unfold key_lt in Hin. apply cmp_gt_lt in Hin. rewrite Hin. by apply IH. }
  destruct (cmp k k') eqn:E; intros He; [by apply Hrest| |by apply Hrest].
  injection He as <- <-. cbn [fst]. rewrite (cmp_refl cmp k').
  destruct m as [|[k2 v2] m]; [done|]. cbn [om_after]. cbn [map fst] in Hf.
  apply Forall_cons_1 in Hf as [Hf _]. unfold key_lt in Hf. by rewrite Hf.
Qed.

Lemma om_after_sorted k m : om_sorted m -> om_sorted (om_after k m).
Proof.
  induction m as [|[k' v'] m IH]; [done|]. intros Hs. pose proof Hs as [Hf Hm]%om_sorted_cons.
  cbn [om_after]. destruct (cmp k k'); auto.
Qed.
End ordmap.

#[export] Hint Resolve om_insert_sorted om_alter_sorted om_remove_sorted om_after_sorted : sonda.
