(* ===== verification/Usm.v ===== *)
(** * Usm: the keys, the engine and the ciphers of SNMPv3 (sink/snmp/usm.rs)

    The agent as an authoritative engine of the User-based Security Model: its
    clock, its users with keys localized to it, its salts, and what it encrypts
    and authenticates with. The hash functions, HMAC, DES in CBC mode and AES in
    CFB mode are those of other crates: the class [Crypto], and what the code
    relies on in them [CryptoLaws]. Durations are nanoseconds. *)

From Stdlib Require Import ZArith Lia.
From stdpp Require Import prelude strings list numbers.
From S2P Require Import Prelude Text.

(** ** Protocols *)

Inductive AuthProtocol := Md5 | Sha1 | Sha224 | Sha256 | Sha384 | Sha512.
Inductive PrivProtocol := Des | Aes128 | Aes192 | Aes192c | Aes256 | Aes256c.

#[export] Instance AuthProtocol_eq_dec : EqDecision AuthProtocol.
Proof. solve_decision. Defined.
#[export] Instance PrivProtocol_eq_dec : EqDecision PrivProtocol.
Proof. solve_decision. Defined.

(** The octets of a digest. *)
Definition hash_len (p : AuthProtocol) : nat :=
  match p with Md5 => 16 | Sha1 => 20 | Sha224 => 28 | Sha256 => 32 | Sha384 => 48 | Sha512 => 64 end.

(** The primitives: [hash] and [mac] under a protocol's hash function; the block
    modes of [cbc] over DES, with their state; [cfb_mode] over AES. *)
Class Crypto := {
  hash : AuthProtocol -> list Z -> list Z;
  mac : AuthProtocol -> list Z -> list Z -> list Z;
  Cbc : Type;
  des_encryptor : list Z -> list Z -> Cbc;
  des_decryptor : list Z -> list Z -> Cbc;
  encrypt_block : Cbc -> list Z -> Cbc * list Z;
  decrypt_block : Cbc -> list Z -> Cbc * list Z;
  cfb_encrypt : list Z -> list Z -> list Z -> list Z;
  cfb_decrypt : list Z -> list Z -> list Z -> list Z;
}.

Definition MAX_BOOTS_OR_TIME : Z := 2147483647.
Definition TIME_WINDOW : Z := 150.
Definition MAX_AUTH_PARAMS : nat := 48.
Definition STRETCHED_PASSWORD : nat := Z.to_nat 1048576.
Definition BOOTS : Z := 1.
Definition DEFAULT_ENGINE_ID_PREFIX : list Z := [0x80; 0x00; 0x1f; 0x88; 0x05].
Definition DEFAULT_ENGINE_ID_HASH : nat := 16.
Definition PRIV_PARAMS : nat := 8.
Definition DES_BLOCK : nat := 8.

(** ** The engine *)

(** [SaltCounter]: a [u32] and a [u64]. *)
Record SaltCounter := mk_salts { des_salt : Z; aes_salt : Z }.

(** [next_des], [next_aes]: [fetch_add(1)]. *)
Definition next_des (s : SaltCounter) : Z * SaltCounter :=
  (des_salt s, mk_salts ((des_salt s + 1) mod 4294967296) (aes_salt s)).

Definition next_aes (s : SaltCounter) : Z * SaltCounter :=
  (aes_salt s, mk_salts (des_salt s) ((aes_salt s + 1) mod two64)).

Record Engine := mk_engine { e_id : list Z; e_boots : Z; bound_at : Z; e_salts : SaltCounter }.

Record Snapshot := mk_snapshot { sn_id : list Z; sn_boots : Z; sn_time : Z }.

(** [Engine::new], its salts started at [salts]. *)
Definition new_engine (id : list Z) (bound : Z) (salts : SaltCounter) : Engine :=
  mk_engine id BOOTS bound salts.

(** [Engine::time] at [now]. *)
Definition engine_time (e : Engine) (now : Z) : Z :=
  let seconds := sat_sub now (bound_at e) / 1000000000 in
  Z.min (if seconds <=? u32_max then seconds else u32_max) MAX_BOOTS_OR_TIME.

(** [Engine::in_window] at [now]. *)
Definition in_window (e : Engine) (now boots time : Z) : bool :=
  (e_boots e <? MAX_BOOTS_OR_TIME) && (boots =? e_boots e)
  && (Z.abs (time - engine_time e now) <=? TIME_WINDOW).

(** [Engine::snapshot] at [now]. *)
Definition engine_snapshot (e : Engine) (now : Z) : Snapshot :=
  mk_snapshot (e_id e) (e_boots e) (engine_time e now).

(** ** Users *)

(** [UsmAuth], [UsmPriv] and [UsmUser]. *)
Record UsmAuth := mk_auth { a_protocol : AuthProtocol; a_password : string }.
Record UsmPriv := mk_priv { p_protocol : PrivProtocol; p_password : string }.
Record UsmUser := mk_user { u_name : string; u_auth : option UsmAuth; u_privacy : option UsmPriv }.

Record LocalizedUser := mk_localized {
  lu_name : list Z;
  lu_auth : option (AuthProtocol * list Z);
  lu_privacy : option (PrivProtocol * list Z);
}.

Record Usm := mk_usm { engine : Engine; users : list LocalizedUser }.

(** [user]. *)
Definition find_user (l : list LocalizedUser) (name : list Z) : option LocalizedUser :=
  List.find (fun user => bool_decide (lu_name user = name)) l.

(** [auth_params_len]. *)
Definition auth_params_len (p : AuthProtocol) : nat :=
  match p with
  | Md5 | Sha1 => 12
  | Sha224 => 16
  | Sha256 => 24
  | Sha384 => 32
  | Sha512 => 48
  end.

(** [key_len]. *)
Definition key_len (p : PrivProtocol) : nat :=
  match p with
  | Des | Aes128 => 16
  | Aes192 | Aes192c => 24
  | Aes256 | Aes256c => 32
  end.

(** [padded_len]. *)
Definition padded_len (p : PrivProtocol) (len : nat) : nat :=
  match p with
  | Des => ((len + (DES_BLOCK - 1)) / DES_BLOCK * DES_BLOCK)%nat
  | _ => len
  end.

(** [array]: [n] octets from the start of [bytes], zeros past its end. *)
Definition array (n : nat) (bytes : list Z) : list Z :=
  take n bytes ++ repeat 0 (n - length bytes).

(** ** Key localization *)

(** A block of 64 octets filled from a password read round and round, the next
    octet at [at_]; an empty password leaves its zeros. *)
Fixpoint fill_block (n at_ : nat) (password : list Z) : list Z * nat :=
  match n with
  | O => ([], at_)
  | S n =>
      match password !! at_ with
      | Some octet =>
          let next := if (S at_ <? length password)%nat then S at_ else 0%nat in
          let (rest, at_) := fill_block n next password in
          (octet :: rest, at_)
      | None => (repeat 0 (S n), at_)
      end
  end.

(** What the loop of [password_to_key] hashes. *)
Fixpoint stretch (rounds at_ : nat) (password : list Z) : list Z :=
  match rounds with
  | O => []
  | S rounds =>
      let (block, at_) := fill_block 64 at_ password in
      block ++ stretch rounds at_ password
  end.

Section Usm.
Context `{Crypto}.

(** [password_to_key]. *)
Definition password_to_key (p : AuthProtocol) (password : list Z) : list Z :=
  hash p (stretch (STRETCHED_PASSWORD / 64) 0 password).

(** [localize]. *)
Definition localize (p : AuthProtocol) (password engine_id : list Z) : list Z :=
  let key := password_to_key p password in
  hash p (key ++ engine_id ++ key).

(** [default_engine_id], on the octets of the host's name and of the text of the
    address bound. *)
Definition default_engine_id (hostname bound : list Z) : list Z :=
  DEFAULT_ENGINE_ID_PREFIX ++
  take DEFAULT_ENGINE_ID_HASH (hash Sha256 (bytes_of "sonda:" ++ hostname ++ bytes_of ":" ++ bound)).

(** The loop of [extend_key], on the key and its last part. Each turn makes the
    key longer; [fuel] is what it still needs. *)
Fixpoint extend_loop (fuel : nat) (protocol : PrivProtocol) (auth : AuthProtocol) (needed : nat)
  (key previous engine_id : list Z) : option (list Z) :=
  if (length key <? needed)%nat && negb (bool_decide (previous = [])) then
    match fuel with
    | O => None
    | S fuel =>
        let previous := match protocol with
                        | Aes192 | Aes256 => hash auth key
                        | _ => localize auth previous engine_id
                        end in
        extend_loop fuel protocol auth needed (key ++ previous) previous engine_id
    end
  else Some key.

(** [extend_key]. *)
Definition extend_key (protocol : PrivProtocol) (auth : AuthProtocol) (kul engine_id : list Z)
  : option (list Z) :=
  let needed := key_len protocol in
  let! key := extend_loop needed protocol auth needed kul kul engine_id in
  Some (take needed key).

(** [LocalizedUser::new]. *)
Definition localized_user (user : UsmUser) (engine_id : list Z) : option LocalizedUser :=
  let auth := (fun auth => (a_protocol auth,
                            localize (a_protocol auth) (bytes_of (a_password auth)) engine_id))
                <$> u_auth user in
  let! privacy :=
    match u_auth user, u_privacy user with
    | Some auth, Some privacy =>
        let kul := localize (a_protocol auth) (bytes_of (p_password privacy)) engine_id in
        let! key := extend_key (p_protocol privacy) (a_protocol auth) kul engine_id in
        Some (Some (p_protocol privacy, key))
    | _, _ => Some None
    end in
  Some (mk_localized (bytes_of (u_name user)) auth privacy).

(** ** Authentication and encryption *)

(** [hmac], [hmac_of] the concatenation of its parts: [len] octets. *)
Definition hmac (p : AuthProtocol) (key message : list Z) (len : nat) : list Z :=
  array len (mac p key message).

(** [iv]. *)
Definition iv (p : PrivProtocol) (key : list Z) (boots time : Z) (salt : list Z) : list Z :=
  match p with
  | Des =>
      let pre_iv := if (16 <=? length key)%nat then take 8 (drop 8 key) else [] in
      array 16 (zip_with Z.lxor pre_iv salt)
  | _ => be_bytes 4 boots ++ be_bytes 4 time ++ salt
  end.

(** The loops of [cbc_encrypt] and [cbc_decrypt] over [blocks] whole blocks; a
    partial last one is left as it is. *)
Fixpoint over_blocks (step : Cbc -> list Z -> Cbc * list Z) (blocks : nat) (st : Cbc) (data : list Z)
  : list Z :=
  match blocks with
  | O => data
  | S blocks =>
      let (st, block) := step st (take DES_BLOCK data) in
      block ++ over_blocks step blocks st (drop DES_BLOCK data)
  end.

Definition cbc_encrypt (key iv data : list Z) : list Z :=
  over_blocks encrypt_block (length data / DES_BLOCK) (des_encryptor key iv) data.

Definition cbc_decrypt (key iv data : list Z) : list Z :=
  over_blocks decrypt_block (length data / DES_BLOCK) (des_decryptor key iv) data.

(** [aes_cfb]: the cipher for the length of the key. *)
Definition aes_key (key : list Z) : list Z :=
  array (match length key with 32%nat => 32 | 24%nat => 24 | _ => 16 end) key.

Definition aes_cfb (key iv data : list Z) (encrypt : bool) : list Z :=
  if encrypt then cfb_encrypt (aes_key key) iv data else cfb_decrypt (aes_key key) iv data.

(** [crypt]. *)
Definition crypt (p : PrivProtocol) (key : list Z) (boots time : Z) (salt data : list Z)
  (encrypt : bool) : list Z :=
  let iv := iv p key boots time salt in
  match p with
  | Des => if encrypt then cbc_encrypt (array 8 key) (array 8 iv) data
           else cbc_decrypt (array 8 key) (array 8 iv) data
  | _ => aes_cfb key iv data encrypt
  end.

(** [encrypt]: the salt, the data and the counters after it. A user without
    privacy leaves all as they are. *)
Definition encrypt (user : LocalizedUser) (e : Snapshot) (salts : SaltCounter)
  (data priv_params : list Z) : list Z * list Z * SaltCounter :=
  match lu_privacy user with
  | None => (priv_params, data, salts)
  | Some (protocol, key) =>
      let (salt, salts) :=
        match protocol with
        | Des => let (n, salts) := next_des salts in (be_bytes 4 (sn_boots e) ++ be_bytes 4 n, salts)
        | _ => let (n, salts) := next_aes salts in (be_bytes 8 n, salts)
        end in
      (salt, crypt protocol key (sn_boots e) (sn_time e) salt data true, salts)
  end.
End Usm.

(** What the code relies on in the primitives: the octets of a digest and of a
    tag; that the two directions of a block mode, started on one key and vector,
    stay in step and a block decrypts to what was encrypted; and that CFB keeps
    the length of the data and decrypts what it encrypted. *)
Class CryptoLaws `{Crypto} := {
  hash_length p data : length (hash p data) = hash_len p;
  mac_length p key data : length (mac p key data) = hash_len p;
  in_step : Cbc -> Cbc -> Prop;
  cbc_start key iv : in_step (des_encryptor key iv) (des_decryptor key iv);
  encrypt_block_length st block :
    length block = DES_BLOCK -> length (encrypt_block st block).2 = DES_BLOCK;
  cbc_step enc dec block :
    in_step enc dec -> length block = DES_BLOCK ->
    let '(enc', cipher) := encrypt_block enc block in
    let '(dec', plain) := decrypt_block dec cipher in
    plain = block /\ in_step enc' dec';
  cfb_length key iv data : length (cfb_encrypt key iv data) = length data;
  cfb_inverse key iv data : cfb_decrypt key iv (cfb_encrypt key iv data) = data;
}.

(** ** Statistics *)

Inductive UsmStat :=
| UnknownEngineIds | UnknownUserNames | UnsupportedSecLevels | WrongDigests | NotInTimeWindows
| DecryptionErrors.

#[export] Instance UsmStat_eq_dec : EqDecision UsmStat.
Proof. solve_decision. Defined.

(** [UsmStat::oid_body]. *)
Definition stat_oid_body (s : UsmStat) : list Z :=
  [0x2b; 6; 1; 6; 3; 15; 1; 1;
   match s with
   | UnsupportedSecLevels => 1
   | NotInTimeWindows => 2
   | UnknownUserNames => 3
   | UnknownEngineIds => 4
   | WrongDigests => 5
   | DecryptionErrors => 6
   end; 0].
