(* ===== verification/UsmProofs.v ===== *)
(** * UsmProofs: keys and salts

    A user's keys exist, have the length its ciphers take, and come from the
    password read round and round; salts do not repeat before their counter
    wraps. An instance of the primitives for concrete runs is at the end. *)

From Stdlib Require Import ZArith Lia.
From stdpp Require Import prelude strings list numbers.
From S2P Require Import Prelude Text Ber Usm.

(** ** Stretching a password *)

(** [n] octets of a password read round and round from the octet [at_]. *)
Definition cycled (password : list Z) (at_ n : nat) : list Z :=
  (fun i => default 0 (password !! ((at_ + i) mod length password)%nat)) <$> seq 0 n.

Lemma cycled_S password at_ n :
  cycled password at_ (S n) = default 0 (password !! (at_ mod length password)%nat) :: cycled password (S at_) n.
Proof.
  unfold cycled. cbn [seq fmap list_fmap]. rewrite Nat.add_0_r. f_equal.
  rewrite <- seq_shift, <- list_fmap_compose. apply list_fmap_ext. intros i x _. cbn.
  do 3 f_equal. lia.
Qed.

Lemma cycled_add password at_ n m :
  cycled password at_ (n + m) = cycled password at_ n ++ cycled password (at_ + n) m.
Proof.
  revert at_. induction n as [|n IH]; intros at_; [by rewrite Nat.add_0_r|].
  cbn [Nat.add]. rewrite !cycled_S, IH. cbn [app]. do 3 f_equal. lia.
Qed.

Lemma cycled_mod password at_ n :
  password <> [] -> cycled password (at_ mod length password) n = cycled password at_ n.
Proof.
  intros Hp. unfold cycled. apply list_fmap_ext. intros i x _. cbn.
  by rewrite Nat.Div0.add_mod_idemp_l.
Qed.

Lemma fill_block_cycled password n : forall at_,
  (at_ < length password)%nat ->
  fill_block n at_ password = (cycled password at_ n, ((at_ + n) mod length password)%nat).
Proof.
  induction n as [|n IH]; intros at_ Ha.
  { cbn. by rewrite Nat.add_0_r, Nat.mod_small. }
  cbn [fill_block]. destruct (lookup_lt_is_Some_2 password at_ Ha) as [octet Ho]. rewrite Ho.
  rewrite cycled_S, Nat.mod_small, Ho by done. cbn [default].
  destruct (Nat.ltb_spec (S at_) (length password)).
  - rewrite IH by done. do 2 f_equal. by rewrite Nat.add_succ_r.
  - assert (length password = S at_) as El by lia.
    rewrite IH by lia. rewrite <- (cycled_mod password (S at_)) by (by intros ->).
    rewrite El, Nat.Div0.mod_same. f_equal.
    replace (at_ + S n)%nat with (0 + n + 1 * S at_)%nat by lia. by rewrite Nat.Div0.mod_add.
Qed.

Lemma stretch_cycled password : forall rounds at_,
  password <> [] -> (at_ < length password)%nat ->
  stretch rounds at_ password = cycled password at_ (64 * rounds).
Proof.
  induction rounds as [|rounds IH]; intros at_ Hp Ha; [done|].
  cbn [stretch]. rewrite fill_block_cycled, IH by (done || by apply Nat.mod_upper_bound; intros ->%length_zero_iff_nil).
  rewrite cycled_mod by done. rewrite <- cycled_add. f_equal. lia.
Qed.

Lemma stretch_empty rounds at_ : stretch rounds at_ [] = repeat 0 (64 * rounds).
Proof.
  revert at_. induction rounds as [|rounds IH]; intros at_; [done|].
  cbn [stretch]. change (fill_block 64 at_ []) with (repeat 0 64, at_). cbv beta iota.
  rewrite IH, <- repeat_app. f_equal. lia.
Qed.

(** A million octets are whole blocks. *)
Lemma stretched_blocks : (64 * (STRETCHED_PASSWORD / 64))%nat = STRETCHED_PASSWORD.
Proof.
  assert (STRETCHED_PASSWORD = Z.to_nat 16384 * 64)%nat as ->.
  { unfold STRETCHED_PASSWORD. change 64%nat with (Z.to_nat 64). by rewrite <- Z2Nat.inj_mul. }
  rewrite Nat.div_mul by done. lia.
Qed.

#[local] Opaque STRETCHED_PASSWORD.

(** ** Keys *)

Section Keys.
Context `{CryptoLaws}.

Lemma hash_len_pos p : (16 <= hash_len p <= 64)%nat.
Proof. destruct p; cbn; lia. Qed.

Lemma localize_length p password engine_id : length (localize p password engine_id) = hash_len p.
Proof. apply hash_length. Qed.

(** Each turn makes the key longer by a digest: the fuel is enough. *)
Lemma extend_loop_ends protocol auth needed engine_id : forall fuel key previous,
  (needed <= length key + fuel)%nat -> previous <> [] ->
  exists more, extend_loop fuel protocol auth needed key previous engine_id = Some (key ++ more) /\
    (needed <= length (key ++ more))%nat.
Proof.
  induction fuel as [|fuel IH]; intros key previous Hn Hp; cbn [extend_loop];
    (destruct (Nat.ltb_spec (length key) needed); cbn [andb];
      [|exists []; rewrite app_nil_r; split; [done|lia]]); [lia|].
  rewrite bool_decide_eq_false_2 by done. cbn [negb].
  set (next := match protocol with Aes192 | Aes256 => _ | _ => _ end).
  assert (Hl : length next = hash_len auth)
    by (unfold next; destruct protocol; first [apply hash_length|apply localize_length]).
  pose proof (hash_len_pos auth).
  destruct (IH (key ++ next) next) as (more & -> & Hm).
  - rewrite length_app. lia.
  - intros E. rewrite E in Hl. cbn in Hl. lia.
  - exists (next ++ more). by rewrite !app_assoc.
Qed.

Lemma extend_key_correct protocol auth kul engine_id :
  kul <> [] ->
  exists key more, extend_key protocol auth kul engine_id = Some key /\ length key = key_len protocol /\
    key = take (key_len protocol) (kul ++ more).
Proof.
  intros Hk. unfold extend_key.
  destruct (extend_loop_ends protocol auth (key_len protocol) engine_id (key_len protocol) kul kul)
    as (more & -> & Hm); [lia|done|].
  eexists _, more. split; [done|]. split; [|done]. rewrite length_take. lia.
Qed.

(** C10: every user of a scenario is localized: the loop that extends a privacy key
    ends. The authentication key is the digest RFC 3414 defines over the password's
    octets repeated to 1 048 576 (read round and round, across the 64-octet blocks,
    for any length of password but zero) and the engine id, as long as the
    protocol's digest; the privacy key has exactly the octets its cipher takes and
    starts with those of the localized key; and a user has a privacy key only with
    an authentication key. *)
Theorem localized_user_correct user engine_id :
  exists lu, localized_user user engine_id = Some lu /\
    lu_name lu = bytes_of (u_name user) /\
    (forall auth, u_auth user = Some auth -> a_password auth <> EmptyString ->
      exists key, lu_auth lu = Some (a_protocol auth, key) /\ length key = hash_len (a_protocol auth) /\
        let ku := hash (a_protocol auth) (cycled (bytes_of (a_password auth)) 0 STRETCHED_PASSWORD) in
        key = hash (a_protocol auth) (ku ++ engine_id ++ ku)) /\
    (u_auth user = None -> lu_auth lu = None) /\
    (forall auth privacy, u_auth user = Some auth -> u_privacy user = Some privacy ->
      exists key more, lu_privacy lu = Some (p_protocol privacy, key) /\
        length key = key_len (p_protocol privacy) /\
        key = take (key_len (p_protocol privacy))
                (localize (a_protocol auth) (bytes_of (p_password privacy)) engine_id ++ more)) /\
    (u_auth user = None \/ u_privacy user = None -> lu_privacy lu = None).
Proof.
  assert (Hne : forall p password, localize p password engine_id <> []).
  { intros p password Hl. pose proof (localize_length p password engine_id) as Hlen.
    rewrite Hl in Hlen. pose proof (hash_len_pos p). cbn in Hlen. lia. }
  assert (Hkey : forall auth, a_password auth <> EmptyString ->
    localize (a_protocol auth) (bytes_of (a_password auth)) engine_id
    = let ku := hash (a_protocol auth) (cycled (bytes_of (a_password auth)) 0 STRETCHED_PASSWORD) in
      hash (a_protocol auth) (ku ++ engine_id ++ ku)).
  { intros auth Hp. unfold localize, password_to_key. rewrite stretch_cycled, stretched_blocks; [done| |].
    - by destruct (a_password auth).
    - destruct (a_password auth); cbn; [done|lia]. }
  unfold localized_user. destruct (u_auth user) as [auth|], (u_privacy user) as [privacy|]; cbn [fmap option_fmap option_map].
  - destruct (extend_key_correct (p_protocol privacy) (a_protocol auth) _ engine_id
                (Hne (a_protocol auth) (bytes_of (p_password privacy)))) as (key & more & -> & Hl & Hk).
    eexists. split; [done|]. cbn [lu_name lu_auth lu_privacy]. split_and!; [done| |discriminate| |by intros []].
    + intros ? [= <-] Hp. eexists. split_and!; [done|apply localize_length|by apply Hkey].
    + intros ? ? [= <-] [= <-]. by exists key, more.
  - eexists. split; [done|]. cbn [lu_name lu_auth lu_privacy].
    split_and!; [done| |discriminate|intros; discriminate|done].
    intros ? [= <-] Hp. eexists. split_and!; [done|apply localize_length|by apply Hkey].
  - eexists. split; [done|]. cbn [lu_name lu_auth lu_privacy].
    split_and!; [done|intros; discriminate|done|intros; discriminate|done].
  - eexists. split; [done|]. cbn [lu_name lu_auth lu_privacy].
    split_and!; [done|intros; discriminate|done|intros; discriminate|done].
Qed.
End Keys.

(** ** Salts *)

Section Salts.
Context `{Crypto}.

(** The salts of a sequence of encryptions, of any users of the engine, each with
    whether it is of DES. *)
Fixpoint salt_run (runs : list (LocalizedUser * Snapshot * list Z)) (salts : SaltCounter)
  : list (bool * list Z) :=
  match runs with
  | [] => []
  | (user, e, data) :: runs =>
      match lu_privacy user with
      | None => salt_run runs salts
      | Some (protocol, _) =>
          let '(salt, _, salts) := encrypt user e salts data (repeat 0 PRIV_PARAMS) in
          (bool_decide (protocol = Des), salt) :: salt_run runs salts
      end
  end.

(** [s] is a salt of its kind, [k] after the counters [salts]. *)
Definition salt_at (salts : SaltCounter) (k : Z) (s : bool * list Z) : Prop :=
  if s.1 then drop 4 s.2 = be_bytes 4 ((des_salt salts + k) mod 4294967296)
  else s.2 = be_bytes 8 ((aes_salt salts + k) mod two64).

Lemma salt_at_next salts k s :
  salt_at ((next_des salts).2) k s \/ salt_at ((next_aes salts).2) k s ->
  salt_at salts k s \/ salt_at salts (k + 1) s.
Proof.
  unfold salt_at, next_des, next_aes. destruct s as [[] l]; cbn [fst snd des_salt aes_salt];
    intros [Hs|Hs]; rewrite Hs, ?Zplus_mod_idemp_l; [right|left|left|right]; do 2 f_equal; lia.
Qed.

Lemma be_bytes_small_inj n v w :
  0 <= v < 256 ^ Z.of_nat n -> 0 <= w < 256 ^ Z.of_nat n -> be_bytes n v = be_bytes n w -> v = w.
Proof. intros Hv Hw E. rewrite <- (be_val_bytes_small n v), <- (be_val_bytes_small n w) by done. by rewrite E. Qed.

Lemma encrypt_salt user e salts data protocol key :
  lu_privacy user = Some (protocol, key) ->
  let '(salt, _, salts') := encrypt user e salts data (repeat 0 PRIV_PARAMS) in
  (protocol = Des /\ drop 4 salt = be_bytes 4 (des_salt salts) /\ salts' = (next_des salts).2) \/
  (protocol <> Des /\ salt = be_bytes 8 (aes_salt salts) /\ salts' = (next_aes salts).2).
Proof.
  intros Hu. unfold encrypt. rewrite Hu. destruct protocol; cbv beta iota zeta delta [next_des next_aes];
    [left|right..]; (split; [done|]); (split; [|done]); [|done..].
  by rewrite drop_app_length' by (by rewrite be_bytes_length).
Qed.

Lemma be_bytes_32 v : be_bytes 4 (v mod 4294967296) = be_bytes 4 v.
Proof. exact (be_bytes_mod 4 v). Qed.

Lemma be_bytes_64 v : be_bytes 8 (v mod two64) = be_bytes 8 v.
Proof. exact (be_bytes_mod 8 v). Qed.

Lemma salt_run_later runs : forall salts s,
  s ∈ salt_run runs salts -> exists k, 0 <= k < Z.of_nat (length runs) /\ salt_at salts k s.
Proof.
  induction runs as [|[[user e] data] runs IH]; intros salts s Hs; cbn [salt_run length] in *;
    [by apply not_elem_of_nil in Hs|].
  destruct (lu_privacy user) as [[protocol key]|] eqn:Hu.
  2: { destruct (IH _ _ Hs) as (k & Hk & Ha). exists k. split; [lia|done]. }
  pose proof (encrypt_salt user e salts data protocol key Hu) as He.
  destruct (encrypt user e salts data _) as [[salt c] salts']. apply elem_of_cons in Hs as [->|Hs].
  - exists 0. split; [lia|]. unfold salt_at. cbn [fst snd]. rewrite !Z.add_0_r, be_bytes_32, be_bytes_64.
    case_bool_decide; by destruct He as [(? & ? & _)|(? & ? & _)].
  - destruct (IH _ _ Hs) as (k & Hk & Ha). destruct (salt_at_next salts k s) as [Hs'|Hs'].
    + destruct He as [(_ & _ & ->)|(_ & _ & ->)]; [by left|by right].
    + exists k. split; [lia|done].
    + exists (k + 1). split; [lia|done].
Qed.

(** Less than a turn of a counter does not bring it back. *)
Lemma turn_neq m d j : 0 < 1 + j < m -> d mod m <> (d + 1 + j) mod m.
Proof.
  intros Hj. rewrite <- Z.add_assoc, <- Zplus_mod_idemp_l.
  pose proof (Z.mod_pos_bound d m). set (r := d mod m) in *.
  destruct (Z.lt_ge_cases (r + (1 + j)) m); [rewrite Z.mod_small by lia; lia|].
  rewrite <- (Z_mod_plus_full _ (-1)), Z.mod_small by lia. lia.
Qed.

(** C11: no salt is used twice before its counter wraps: of up to 4 294 967 296
    encryptions under the engine's counters, whatever their starting values, by
    users with any privacy protocols in any order, no two of DES have one salt and
    no two of AES have one. *)
Theorem salts_distinct runs salts :
  Z.of_nat (length runs) <= 4294967296 -> NoDup (salt_run runs salts).
Proof.
  revert salts. induction runs as [|[[user e] data] runs IH]; intros salts Hl; cbn [salt_run length] in *;
    [constructor|].
  destruct (lu_privacy user) as [[protocol key]|] eqn:Hu; [|apply IH; lia].
  pose proof (encrypt_salt user e salts data protocol key Hu) as He.
  destruct (encrypt user e salts data _) as [[salt c] salts']. constructor; [|apply IH; lia].
  intros (k & Hk & Ha)%salt_run_later. unfold salt_at in Ha. cbn [fst snd] in Ha.
  destruct He as [(-> & Hs & ->)|(Hp & Hs & ->)].
  - rewrite bool_decide_eq_true_2 in Ha by done. rewrite Hs in Ha. cbn [next_des snd des_salt] in Ha.
    rewrite Zplus_mod_idemp_l, <- (be_bytes_32 (des_salt salts)) in Ha.
    apply (be_bytes_small_inj 4) in Ha; [|apply Z.mod_pos_bound; lia..].
    revert Ha. apply turn_neq; lia.
  - rewrite bool_decide_eq_false_2 in Ha by done. rewrite Hs in Ha. cbn [next_aes snd aes_salt] in Ha.
    rewrite Zplus_mod_idemp_l, <- (be_bytes_64 (aes_salt salts)) in Ha.
    apply (be_bytes_small_inj 8) in Ha; [|apply Z.mod_pos_bound; lia..].
    revert Ha. apply turn_neq; lia.
Qed.
End Salts.

(** ** Primitives to run *)

(** Sums for digests, and exclusive or with the vector for ciphers. *)
Definition octet_sum (l : list Z) : Z := fold_left Z.add l 0.

Definition toy_crypto : Crypto := {|
  hash p data := be_bytes (hash_len p) (1 + octet_sum data);
  mac p key data := be_bytes (hash_len p) (octet_sum key * 31 + octet_sum data);
  Cbc := list Z;
  des_encryptor key iv := array DES_BLOCK (zip_with Z.lxor key iv);
  des_decryptor key iv := array DES_BLOCK (zip_with Z.lxor key iv);
  encrypt_block st block := let c := array DES_BLOCK (zip_with Z.lxor st block) in (c, c);
  decrypt_block st block := (block, zip_with Z.lxor st block);
  cfb_encrypt key iv data := Z.lxor (octet_sum key + octet_sum iv) <$> data;
  cfb_decrypt key iv data := Z.lxor (octet_sum key + octet_sum iv) <$> data;
|}.

Lemma zip_lxor_twice : forall st block,
  length st = length block -> zip_with Z.lxor st (zip_with Z.lxor st block) = block.
Proof.
  induction st as [|a st IH]; intros [|b block] Hl; try done. cbn. f_equal; [|apply IH; by injection Hl].
  by rewrite <- Z.lxor_assoc, Z.lxor_nilpotent, Z.lxor_0_l.
Qed.

Lemma array_length n l : length (array n l) = n.
Proof. unfold array. rewrite length_app, length_take, repeat_length. lia. Qed.

Lemma array_whole n l : length l = n -> array n l = l.
Proof.
  intros <-. unfold array. rewrite take_ge, Nat.sub_diag by done. apply app_nil_r.
Qed.

#[export] Instance toy_laws : @CryptoLaws toy_crypto.
Proof.
  refine {| in_step := fun (enc dec : @Cbc toy_crypto) => enc = dec /\ length (enc : list Z) = DES_BLOCK |};
    cbn [hash mac cfb_encrypt cfb_decrypt des_encryptor des_decryptor encrypt_block decrypt_block toy_crypto snd].
  - intros. apply be_bytes_length.
  - intros. apply be_bytes_length.
  - intros. split; [done|]. apply array_length.
  - intros. apply array_length.
  - intros enc dec block [<- He] Hb. set (c := array _ _).
    assert (c = zip_with Z.lxor enc block) as ->
      by (apply array_whole; rewrite length_zip_with; lia).
    split; [by apply zip_lxor_twice; rewrite He|]. split; [done|]. rewrite length_zip_with. lia.
  - intros. apply length_fmap.
  - intros key iv data. rewrite <- list_fmap_compose. rewrite <- (list_fmap_id data) at 2.
    apply list_fmap_ext. intros i x _. cbn. by rewrite <- Z.lxor_assoc, Z.lxor_nilpotent, Z.lxor_0_l.
Defined.

Definition ops_user : UsmUser :=
  mk_user "ops" (Some (mk_auth Sha256 "maplesyrup")) (Some (mk_priv Aes256 "privpass")).

Lemma localized_user_correct_witness :
  exists lu, @localized_user toy_crypto ops_user [0x80; 0; 1; 2; 3] = Some lu /\
    lu_name lu = bytes_of "ops".
Proof.
  destruct (@localized_user_correct toy_crypto toy_laws ops_user [0x80; 0; 1; 2; 3]) as (lu & E & Hn & _).
  exists lu. exact (conj E Hn).
Defined.

Definition des_lu : LocalizedUser :=
  mk_localized (bytes_of "ops") (Some (Md5, repeat 7 16)) (Some (Des, repeat 9 16)).
Definition aes_lu : LocalizedUser :=
  mk_localized (bytes_of "net") (Some (Sha1, repeat 5 20)) (Some (Aes128, repeat 3 16)).

Lemma salts_distinct_witness :
  NoDup (@salt_run toy_crypto
    [(des_lu, mk_snapshot [1; 2] 1 100, [1; 2; 3]); (aes_lu, mk_snapshot [1; 2] 1 100, [4]);
     (des_lu, mk_snapshot [1; 2] 1 101, []); (aes_lu, mk_snapshot [1; 2] 1 101, [5])]
    (mk_salts 4294967295 18446744073709551615)).
Proof. apply (@salts_distinct toy_crypto). vm_compute. discriminate. Defined.
