(* ===== verification/SnmpAgent.v ===== *)
(** * SnmpAgent: the table behind one SNMP listen address (sink/snmp/agent.rs)

    [MibTable] holds the instances sinks publish, in OID order, with the launch
    that owns each and how many of its sinks publish it; the system group is
    served beside it. [publish], [overwrite], [register_object] and [release]
    change the table; [lookup] and [bulk] read it.

    An OID is compared by its arcs. [Bytes] are lists of octets. The clock is
    read only for [sysUpTime]: an operation that reads it takes the time since
    the socket was bound, in nanoseconds. [bulk] calls a closure on the
    caller's state, of type [St]; the clock it reads before each call is a
    function of that state. [None] is a panic. *)

From Stdlib Require Import ZArith Lia Sorted Ascii.
From stdpp Require Import prelude strings list numbers.
From S2P Require Import Prelude Text OrdMap Oid Ber Usm.

(** ** Data *)

Definition SYSTEM_GROUP : list Z := [1; 3; 6; 1; 2; 1; 1].
Definition SYS_UP_TIME : Z := 3.

(** [WARN_INTERVAL], in nanoseconds. *)
Definition WARN_INTERVAL : Z := 60 * 1000000000.

(** [warn_due]; [now.duration_since(at)] is zero when [at] is later. *)
Definition warn_due (last : option Z) (now : Z) : bool :=
  match last with
  | None => true
  | Some at_ => WARN_INTERVAL <=? sat_sub now at_
  end.

(** The launch an instance belongs to. *)
Definition Owner : Type := Z.

Inductive SnmpVersion := V1 | V2c | V3.

#[export] Instance SnmpVersion_eq_dec : EqDecision SnmpVersion.
Proof. solve_decision. Defined.

Inductive Found :=
| Value (varbind : list Z)
| NoSuchInstance
| NoSuchObject.

#[export] Instance Found_eq_dec : EqDecision Found.
Proof. solve_decision. Defined.

Inductive Counter :=
| CGet | CGetNext | CGetBulk | CSetRefused | CMalformed | CWrongCommunity | CTooBig
| CUnsupportedVersion | CSendErrors | CV1 | CV3 | CUsmUnknownEngineIds
| CUsmUnknownUserNames | CUsmUnsupportedSecLevels | CUsmWrongDigests
| CUsmNotInTimeWindows | CUsmDecryptionErrors.

#[export] Instance Counter_eq_dec : EqDecision Counter.
Proof. solve_decision. Defined.

(** [UsmStat::counter]. *)
Definition stat_counter (s : UsmStat) : Counter :=
  match s with
  | UnknownEngineIds => CUsmUnknownEngineIds
  | UnknownUserNames => CUsmUnknownUserNames
  | UnsupportedSecLevels => CUsmUnsupportedSecLevels
  | WrongDigests => CUsmWrongDigests
  | NotInTimeWindows => CUsmNotInTimeWindows
  | DecryptionErrors => CUsmDecryptionErrors
  end.

(** The live counters, each a [u64]: [Counters::counter] is the application. *)
Definition Counters : Type := Counter -> Z.

Record RequestCounters := mk_request_counters {
  rc_get : Z; rc_get_next : Z; rc_get_bulk : Z; rc_set_refused : Z; rc_malformed : Z;
  rc_wrong_community : Z; rc_too_big : Z; rc_unsupported_version : Z; rc_send_errors : Z;
  rc_v1 : Z; rc_v3 : Z; rc_usm_unknown_engine_ids : Z; rc_usm_unknown_user_names : Z;
  rc_usm_unsupported_sec_levels : Z; rc_usm_wrong_digests : Z;
  rc_usm_not_in_time_windows : Z; rc_usm_decryption_errors : Z;
}.

(** [Counters::snapshot]. *)
Definition snapshot (c : Counters) : RequestCounters :=
  mk_request_counters (c CGet) (c CGetNext) (c CGetBulk) (c CSetRefused) (c CMalformed)
    (c CWrongCommunity) (c CTooBig) (c CUnsupportedVersion) (c CSendErrors) (c CV1) (c CV3)
    (c CUsmUnknownEngineIds) (c CUsmUnknownUserNames) (c CUsmUnsupportedSecLevels)
    (c CUsmWrongDigests) (c CUsmNotInTimeWindows) (c CUsmDecryptionErrors).

(** [fetch_add(1)]: the value wraps at [2^64]. *)
Definition bump (c : Counters) (counter : Counter) : Counters :=
  fun d => if decide (d = counter) then (c d + 1) mod two64 else c d.

Record Slot := mk_slot { varbind : list Z; owner : Owner; publishers : Z }.

Record MibTable := mk_table {
  slots : list (Oid * Slot);
  objects : list Oid;
}.

(** The [VarBind] of a system instance is [None] for [sysUpTime]. *)
Record SystemInstance := mk_system { si_oid : Oid; si_varbind : option (list Z) }.

(** The settings the agent and the responder read; the listen address is not
    modelled. *)
Record SystemSettings := mk_system_settings {
  name : string; descr : string; contact : string; location : string;
  object_id : Oid; services : Z;
}.

Record AgentSettings := mk_settings {
  as_community : string;
  max_message_size : Z;
  as_system : SystemSettings;
  as_versions : list SnmpVersion;
  as_users : list UsmUser;
  as_engine_id : option (list Z);
}.

(** The last datagram: when it was read, where from, the version it names. *)
Record LastRequest := mk_last_request { lr_at : Z; lr_peer : Z; lr_version : option SnmpVersion }.

Record SnmpAgent := mk_agent {
  settings : AgentSettings;
  agent_usm : Usm;
  system : list SystemInstance;
  table : MibTable;
  counters : Counters;
  last_request : option LastRequest;
  too_big_warned : option Z;
  serving : bool;
}.

Definition set_table (t : MibTable) (a : SnmpAgent) : SnmpAgent :=
  mk_agent (settings a) (agent_usm a) (system a) t (counters a) (last_request a) (too_big_warned a) (serving a).

(** ** The order of OIDs *)

(** [Ord] of [Oid], derived: the arcs' lexicographic order. *)
Definition oid_cmp (a b : Oid) : comparison := iter_cmp Z.compare (arcs a) (arcs b).

(** [a < b], [a <= b] on OIDs. *)
Definition oid_ltb (a b : Oid) : bool := match oid_cmp a b with Lt => true | _ => false end.
Definition oid_leb (a b : Oid) : bool := match oid_cmp a b with Gt => false | _ => true end.

(** ** The system group *)

(** [object_of]: the instance without its last arc; [None] is the underflow of
    [arcs.len() - 1] on an empty OID. *)
Definition object_of (instance : Oid) : option Oid :=
  match arcs instance with
  | [] => None
  | _ => Some (default instance (from_arcs (take (length (arcs instance) - 1) (arcs instance))))
  end.

(** [is_counter64]. *)
Definition is_counter64 (varbind : list Z) : bool :=
  match fst (expect TSequence varbind) with
  | Err _ => false
  | Ok body =>
      let (name, fields) := expect TOid body in
      match name with
      | Err _ => false
      | Ok _ => match fst (raw_tlv fields) with
                | Ok (tag, _) => tag =? tag_byte TCounter64
                | Err _ => false
                end
      end
  end.

(** [varbind_of]. *)
Definition varbind_of (oid : Oid) (value : list Z) : list Z := write_varbind [] oid value.

(** The [values] of [system_instances]: each object's arc and encoded value. *)
Definition system_values (s : SystemSettings) : list (Z * option (list Z)) :=
  [ (1, Some (write_string [] (bytes_of (descr s))));
    (2, Some (write_oid [] (object_id s)));
    (SYS_UP_TIME, None);
    (4, Some (write_string [] (bytes_of (contact s))));
    (5, Some (write_string [] (bytes_of (name s))));
    (6, Some (write_string [] (bytes_of (location s))));
    (7, Some (write_integer [] (services s))) ].

(** [system_instances]. *)
Definition system_instances (s : AgentSettings) : list SystemInstance :=
  omap (fun '(arc, value) =>
          let! oid := from_arcs (SYSTEM_GROUP ++ [arc; 0]) in
          Some (mk_system oid (varbind_of oid <$> value)))
       (system_values (as_system s)).

(** [Usm::new], on the host's name, the text of the address bound and random
    salts. *)
Definition usm_new `{Crypto} (s : AgentSettings) (hostname bound : list Z) (bound_at : Z)
  (salts : SaltCounter) : option Usm :=
  let id := match as_engine_id s with Some id => id | None => default_engine_id hostname bound end in
  let! users := mapM (fun user => localized_user user id) (as_users s) in
  Some (mk_usm (new_engine id bound_at salts) users).

(** The agent [SnmpAgent::bind] starts, its socket bound, with the engine and
    users of [usm_new]. *)
Definition bind (u : Usm) (s : AgentSettings) : option SnmpAgent :=
  let system := system_instances s in
  let! objects := mapM (fun i => object_of (si_oid i)) system in
  Some (mk_agent s u system (mk_table [] objects) (fun _ => 0) None None true).

(** [uptime_ticks], [elapsed] nanoseconds after the bind. *)
Definition uptime_ticks (elapsed : Z) : Z := (elapsed / 1000000 / 10) mod (u32_max + 1).

(** [with_system_varbind]: the varbind its closure is called with. *)
Definition with_system_varbind (instance : SystemInstance) (elapsed : Z) : option (list Z) :=
  match si_varbind instance with
  | Some varbind => Some varbind
  | None =>
      write_tlv [] TSequence (fun out =>
        Some (write_timeticks (write_oid out (si_oid instance)) (uptime_ticks elapsed)))
  end.

(** ** Writing the table *)

Inductive PublishError :=
| OwnedByAnother (oid : Oid)
| UnderSystemGroup (oid : Oid).

(** [publish]; [publishers] is a [usize], whose addition wraps. *)
Definition publish (o : Owner) (oid : Oid) (vb : list Z) (first : bool) (a : SnmpAgent)
  : result unit PublishError * SnmpAgent :=
  let t := table a in
  match om_get oid_cmp oid (slots t) with
  | Some slot =>
      if negb (owner slot =? o) then (Err (OwnedByAnother oid), a)
      else
        let slot' := mk_slot vb (owner slot) ((publishers slot + (if first then 1 else 0)) mod two64) in
        (Ok tt, set_table (mk_table (om_alter oid_cmp (fun _ => slot') oid (slots t)) (objects t)) a)
  | None =>
      if arcs_start_with (arcs oid) SYSTEM_GROUP then (Err (UnderSystemGroup oid), a)
      else
        (Ok tt, set_table (mk_table (om_insert oid_cmp oid (mk_slot vb o 1) (slots t)) (objects t)) a)
  end.

(** [overwrite]. *)
Definition overwrite (oid : Oid) (vb : list Z) (a : SnmpAgent) : bool * SnmpAgent :=
  let t := table a in
  match om_get oid_cmp oid (slots t) with
  | Some slot =>
      let slot' := mk_slot vb (owner slot) (publishers slot) in
      (true, set_table (mk_table (om_alter oid_cmp (fun _ => slot') oid (slots t)) (objects t)) a)
  | None => (false, a)
  end.

(** [register_object]. *)
Definition register_object (object : Oid) (a : SnmpAgent) : SnmpAgent :=
  let t := table a in
  if bool_decide (object ∈ objects t) then a
  else set_table (mk_table (slots t) (object :: objects t)) a.

(** [release]. *)
Definition release (o : Owner) (oid : Oid) (a : SnmpAgent) : SnmpAgent :=
  let t := table a in
  match om_get oid_cmp oid (slots t) with
  | Some slot =>
      if negb (owner slot =? o) then a
      else
        let n := sat_sub (publishers slot) 1 in
        let s := om_alter oid_cmp (fun slot => mk_slot (varbind slot) (owner slot) n) oid (slots t) in
        let s := if n =? 0 then om_remove oid_cmp oid s else s in
        set_table (mk_table s (objects t)) a
  | None => a
  end.

(** ** Counters *)

(** [count]. *)
Definition count (c : Counter) (a : SnmpAgent) : SnmpAgent :=
  mk_agent (settings a) (agent_usm a) (system a) (table a) (bump (counters a) c) (last_request a)
    (too_big_warned a) (serving a).

(** [count_and_read]. *)
Definition count_and_read (c : Counter) (a : SnmpAgent) : Z * SnmpAgent :=
  ((counters a c + 1) mod two64, count c a).

(** [note_request], read at [at_] from [peer]. *)
Definition note_request (at_ peer : Z) (version : option SnmpVersion) (a : SnmpAgent)
  : SnmpAgent :=
  mk_agent (settings a) (agent_usm a) (system a) (table a) (counters a)
    (Some (mk_last_request at_ peer version)) (too_big_warned a) (serving a).

(** [warn_too_big] at [now]: whether it logs. *)
Definition warn_too_big (now : Z) (a : SnmpAgent) : bool * SnmpAgent :=
  if negb (warn_due (too_big_warned a) now) then (false, a)
  else (true, mk_agent (settings a) (agent_usm a) (system a) (table a) (counters a) (last_request a)
                (Some now) (serving a)).

(** [instance_count], [community_required]. *)
Definition instance_count (a : SnmpAgent) : nat := length (slots (table a)).

Definition community_required (a : SnmpAgent) : bool :=
  existsb (fun v => match v with V1 | V2c => true | V3 => false end) (as_versions (settings a)).

(** ** Reading the table *)

(** [lookup] at [elapsed]: what its closure is called with. *)
Definition lookup (oid : list Z) (elapsed : Z) (a : SnmpAgent) : option Found :=
  match List.find (fun i => bool_decide (arcs (si_oid i) = oid)) (system a) with
  | Some instance => let! vb := with_system_varbind instance elapsed in Some (Value vb)
  | None =>
      match om_get oid_cmp (mk_oid oid) (slots (table a)) with
      | Some slot => Some (Value (varbind slot))
      | None =>
          if existsb (fun len => bool_decide (mk_oid (take len oid) ∈ objects (table a)))
               (seq 2 (length oid - 1))
          then Some NoSuchInstance
          else Some NoSuchObject
      end
  end.

Section bulk.
Context {St : Type} (elapsed : St -> Z) (emit : St -> Oid -> list Z -> St * bool).

(** The loop of [bulk] over the published and system instances left, [max]
    more to emit. Each turn takes one of them, so [fuel] of their number is
    enough. *)
Fixpoint bulk_loop (fuel : nat) (published : list (Oid * Slot)) (sys : list SystemInstance)
  (max : Z) (skip_counter64 : bool) (s : St) : option St :=
  match fuel with
  | O => Some s
  | S fuel =>
      if max <=? 0 then Some s
      else
        let from_system := match published, sys with
                           | (next, _) :: _, instance :: _ => oid_ltb (si_oid instance) next
                           | [], _ :: _ => true
                           | _, [] => false
                           end in
        if from_system then
          match sys with
          | [] => Some s
          | instance :: sys =>
              let! vb := with_system_varbind instance (elapsed s) in
              let (s, more) := emit s (si_oid instance) vb in
              if negb more then Some s
              else bulk_loop fuel published sys (max - 1) skip_counter64 s
          end
        else
          match published with
          | [] => Some s
          | (oid, slot) :: published =>
              if skip_counter64 && is_counter64 (varbind slot)
              then bulk_loop fuel published sys max skip_counter64 s
              else
                let (s, more) := emit s oid (varbind slot) in
                if negb more then Some s
                else bulk_loop fuel published sys (max - 1) skip_counter64 s
          end
  end.

(** [skip_while(|instance| instance.oid.arcs() <= start)]. *)
Fixpoint skip_system (start : Oid) (sys : list SystemInstance) : list SystemInstance :=
  match sys with
  | [] => []
  | i :: sys' => if oid_leb (si_oid i) start then skip_system start sys' else sys
  end.

(** [bulk]. *)
Definition bulk (start : list Z) (max : Z) (skip_counter64 : bool) (a : SnmpAgent) (s : St)
  : option St :=
  let published := om_after oid_cmp (mk_oid start) (slots (table a)) in
  let sys := skip_system (mk_oid start) (system a) in
  bulk_loop (length published + length sys) published sys max skip_counter64 s.
End bulk.

(** ** The order of OIDs, laws *)

#[export] Instance Z_compare_lawful : LawfulCmp Z.compare.
Proof.
  split.
  - apply Z.compare_eq_iff.
  - intros a b. apply Z.compare_antisym.
  - intros a b c. rewrite !Z.compare_lt_iff. lia.
Qed.

#[export] Instance oid_cmp_lawful : LawfulCmp oid_cmp.
Proof.
  unfold oid_cmp. split.
  - intros [a] [b]. cbn [arcs]. rewrite (cmp_eq_iff (cmp := iter_cmp Z.compare)).
    split; [by intros ->|by intros [= ->]].
  - intros [a] [b]. apply (cmp_antisym (cmp := iter_cmp Z.compare)).
  - intros [a] [b] [c]. apply (cmp_lt_trans (cmp := iter_cmp Z.compare)).
Qed.

Abbreviation oid_lt := (key_lt oid_cmp).

#[export] Instance oid_lt_trans : Transitive oid_lt.
Proof. intros a b c. apply cmp_lt_trans. Qed.

Lemma oid_lt_irrefl a : ~ oid_lt a a.
Proof. unfold key_lt. by rewrite (cmp_refl oid_cmp a). Qed.

Lemma oid_ltb_iff a b : oid_ltb a b = true <-> oid_lt a b.
Proof. unfold oid_ltb, key_lt. by destruct (oid_cmp a b). Qed.

Lemma oid_not_lt a b : ~ oid_lt a b -> a = b \/ oid_lt b a.
Proof.
  unfold key_lt. rewrite (cmp_antisym (cmp := oid_cmp) a b).
  destruct (oid_cmp a b) eqn:E; [|done|by right].
  apply (cmp_eq_iff (cmp := oid_cmp)) in E. by left.
Qed.

Lemma oid_leb_iff a b : oid_leb a b = true <-> ~ oid_lt b a.
Proof.
  unfold oid_leb, key_lt. rewrite (cmp_antisym (cmp := oid_cmp) a b).
  by destruct (oid_cmp a b).
Qed.

(** ** What the agent serves, as one ordered map

    The abstract view: every instance, published or of the system group, with
    its varbind; [None] is a value made on each read. *)

Definition Entry : Type := Oid * option (list Z).

Definition slot_entry (e : Oid * Slot) : Entry := (e.1, Some (varbind e.2)).
Definition sys_entry (i : SystemInstance) : Entry := (si_oid i, si_varbind i).

Definition view (a : SnmpAgent) : list Entry :=
  foldr (fun i m => om_insert oid_cmp (si_oid i) (si_varbind i) m)
        (map slot_entry (slots (table a))) (system a).

(** Whether an instance is one SNMPv1 can carry. *)
Definition visible (skip_counter64 : bool) (e : Entry) : bool :=
  negb (skip_counter64 && match e.2 with Some vb => is_counter64 vb | None => false end).

(** The varbind an entry is read as at [elapsed]. *)
Definition entry_varbind (e : Entry) (elapsed : Z) : option (list Z) :=
  with_system_varbind (mk_system e.1 e.2) elapsed.

(** Entries offered to the closure in order, until it returns [false]. *)
Fixpoint emit_all {St : Type} (elapsed : St -> Z) (emit : St -> Oid -> list Z -> St * bool)
  (es : list Entry) (s : St) : option St :=
  match es with
  | [] => Some s
  | e :: es =>
      let! vb := entry_varbind e (elapsed s) in
      let (s, more) := emit s e.1 vb in
      if negb more then Some s else emit_all elapsed emit es s
  end.

(** ** The invariant *)

(** A varbind the table may hold for [oid]: one SEQUENCE, nothing after it,
    whose first field is [oid]. *)
Definition varbind_ok (oid : Oid) (vb : list Z) : Prop :=
  exists body name rest, expect TSequence vb = (Ok body, []) /\
    expect TOid body = (Ok name, rest) /\ from_ber_body name = Some oid.

Definition slot_ok (e : Oid * Slot) : Prop :=
  varbind_ok e.1 (varbind e.2) /\ 1 <= publishers e.2 <= u64_max /\
  arcs_start_with (arcs e.1) SYSTEM_GROUP = false.

Definition table_ok (t : MibTable) : Prop :=
  om_sorted oid_cmp (slots t) /\ Forall slot_ok (slots t) /\ NoDup (objects t).

Definition system_ok (i : SystemInstance) : Prop :=
  arcs_start_with (arcs (si_oid i)) SYSTEM_GROUP = true /\ ber_arcs (arcs (si_oid i)) /\
  ber_body_len (arcs (si_oid i)) <= 1000 /\
  match si_varbind i with
  | Some vb => varbind_ok (si_oid i) vb /\ is_counter64 vb = false
  | None => True
  end.

Definition agent_ok (a : SnmpAgent) : Prop :=
  table_ok (table a) /\ StronglySorted oid_lt (map si_oid (system a)) /\
  Forall system_ok (system a).

(** The settings an agent is bound with: the texts fit a BER length. *)
Definition settings_ok (s : AgentSettings) : Prop :=
  ber_arcs (arcs (object_id (as_system s))) /\
  ber_body_len (arcs (object_id (as_system s))) <= 65535 /\
  0 <= services (as_system s) <= 255 /\
  Forall (fun t => Z.of_nat (String.length t) <= 65535)
    [descr (as_system s); contact (as_system s); name (as_system s); location (as_system s)].

(** ** Varbinds written by the agent *)

Lemma tlv_len_small n : 0 <= n <= 131072 -> n <= tlv_len n <= n + 10.
Proof.
  intros Hn. pose proof (length_len_pos n). unfold tlv_len.
  assert (length_len n <= 9); [|lia].
  destruct (Z.ltb_spec n 128); [unfold length_len; zif; lia|].
  destruct (length_len_long n) as (k & Hk & -> & _); lia.
Qed.

(** A varbind of a name BER can hold and any octets after it is one the table
    may hold, and its value's tag is read by [is_counter64]. *)
Lemma varbind_bytes_ok oid value :
  ber_arcs (arcs oid) ->
  Z.of_nat (length (varbind_bytes oid value)) <= u32_max ->
  varbind_ok oid (varbind_bytes oid value).
Proof.
  intros Ha Hl. unfold varbind_bytes in *.
  set (ob := ber_body (arcs oid)) in *. set (b := tlv_bytes TOid ob ++ value) in *.
  pose proof (tlv_bytes_longer TSequence b). pose proof (tlv_bytes_longer TOid ob).
  assert (length b = length (tlv_bytes TOid ob) + length value)%nat
    by (subst b; apply length_app).
  exists b, ob, value. split.
  - rewrite <- (app_nil_r (tlv_bytes TSequence b)). rewrite expect_bytes by lia. done.
  - split; [subst b; by rewrite expect_bytes by lia|].
    unfold from_ber_body. subst ob. rewrite decode_encode by done. by destruct oid.
Qed.

Lemma varbind_bytes_counter64 oid tag value :
  Z.of_nat (length (varbind_bytes oid (tlv_bytes tag value))) <= u32_max ->
  is_counter64 (varbind_bytes oid (tlv_bytes tag value)) = (tag_byte tag =? tag_byte TCounter64).
Proof.
  intros Hl. unfold varbind_bytes in *.
  set (ob := ber_body (arcs oid)) in *. set (b := tlv_bytes TOid ob ++ _) in *.
  pose proof (tlv_bytes_longer TSequence b). pose proof (tlv_bytes_longer TOid ob).
  pose proof (tlv_bytes_longer tag value).
  assert (length b = length (tlv_bytes TOid ob) + length (tlv_bytes tag value))%nat
    by (subst b; apply length_app).
  unfold is_counter64. rewrite <- (app_nil_r (tlv_bytes TSequence b)).
  rewrite expect_bytes by lia. cbn [fst]. subst b. rewrite expect_bytes by lia.
  rewrite <- (app_nil_r (tlv_bytes tag value)), raw_tlv_bytes by lia. done.
Qed.

(** The length of a varbind, from those of its parts. *)
Lemma varbind_bytes_small oid tag value :
  Forall is_u32 (arcs oid) -> ber_body_len (arcs oid) <= 1000 ->
  Z.of_nat (length value) <= 65600 ->
  Z.of_nat (length (varbind_bytes oid (tlv_bytes tag value))) <= 70000.
Proof.
  intros Ha Hb Hv. pose proof (ber_body_length _ Ha) as Hlen. unfold varbind_bytes.
  set (b := tlv_bytes TOid _ ++ _).
  assert (Hl : Z.of_nat (length b)
    = tlv_len (ber_body_len (arcs oid)) + tlv_len (Z.of_nat (length value))).
  { subst b. rewrite length_app, Nat2Z.inj_add, !tlv_bytes_length, Hlen by lia. done. }
  pose proof (tlv_len_small (ber_body_len (arcs oid))).
  pose proof (tlv_len_small (Z.of_nat (length value))).
  rewrite tlv_bytes_length by lia. pose proof (tlv_len_small (Z.of_nat (length b))). lia.
Qed.

(** A system instance of [varbind_of] a TLV that is no [Counter64]. *)
Lemma system_ok_value oid tag content :
  arcs_start_with (arcs oid) SYSTEM_GROUP = true -> ber_arcs (arcs oid) ->
  ber_body_len (arcs oid) <= 1000 -> Z.of_nat (length content) <= 65600 ->
  tag <> TCounter64 ->
  system_ok (mk_system oid (Some (varbind_of oid (tlv_bytes tag content)))).
Proof.
  intros Hs Ha Hb Hc Ht. pose proof (ber_arcs_u32 _ Ha) as H32.
  pose proof (varbind_bytes_small oid tag content H32 Hb Hc) as Hl.
  pose proof (ber_body_length _ H32).
  pose proof (tlv_len_small (ber_body_len (arcs oid))).
  pose proof (tlv_len_small (Z.of_nat (length content))).
  unfold system_ok, varbind_of. cbn [si_oid si_varbind].
  rewrite write_varbind_app, app_nil_l by (done || rewrite tlv_bytes_length by lia; lia).
  split_and!; [done..| |].
  - apply varbind_bytes_ok; [done|lia].
  - rewrite varbind_bytes_counter64 by lia. destruct tag; done.
Qed.

(** [sysUpTime]'s varbind is made without a panic. *)
Lemma uptime_varbind oid elapsed :
  ber_arcs (arcs oid) -> ber_body_len (arcs oid) <= 1000 ->
  with_system_varbind (mk_system oid None) elapsed
  = Some (varbind_bytes oid (tlv_bytes TTimeTicks (u64_content (uptime_ticks elapsed)))) /\
  varbind_ok oid (varbind_bytes oid (tlv_bytes TTimeTicks (u64_content (uptime_ticks elapsed)))).
Proof.
  intros Ha Hb. pose proof (ber_arcs_u32 _ Ha) as H32.
  assert (Ht : is_u64 (uptime_ticks elapsed)).
  { unfold uptime_ticks, is_u64.
    pose proof (Z.mod_pos_bound (elapsed / 1000000 / 10) (u32_max + 1)). lia. }
  destruct (u64_content_spec _ Ht) as (b0 & l & El & _ & Hu & Hl & _).
  assert (Hc : (length (u64_content (uptime_ticks elapsed)) <= 9)%nat) by (rewrite El; simpl; lia).
  pose proof (varbind_bytes_small oid TTimeTicks (u64_content (uptime_ticks elapsed)) H32 Hb) as Hv.
  specialize (Hv ltac:(lia)). split.
  - unfold with_system_varbind. cbn [si_varbind si_oid]. unfold varbind_bytes in *.
    set (b := tlv_bytes TOid _ ++ _) in *. pose proof (tlv_bytes_longer TSequence b).
    rewrite (write_tlv_app TSequence _ b); [done| |lia].
    intros out. unfold write_timeticks. subst b.
    rewrite write_oid_app, write_u64_app, <- app_assoc by (done || lia). done.
  - apply varbind_bytes_ok; [done|lia].
Qed.

(** Every system instance has a varbind, at any time. *)
Lemma system_varbind_ok i elapsed :
  system_ok i -> exists vb, with_system_varbind i elapsed = Some vb /\ varbind_ok (si_oid i) vb.
Proof.
  destruct i as [oid [vb|]]; intros (Hs & Ha & Hb & Hv); cbn [si_oid si_varbind] in *.
  - exists vb. by destruct Hv.
  - destruct (uptime_varbind oid elapsed Ha Hb) as [-> Hok]. eauto.
Qed.

(** ** The agent a bind starts *)

Lemma system_oid_shape n :
  0 <= n <= 7 ->
  from_arcs (SYSTEM_GROUP ++ [n; 0]) = Some (mk_oid (SYSTEM_GROUP ++ [n; 0])) /\
  arcs_start_with (SYSTEM_GROUP ++ [n; 0]) SYSTEM_GROUP = true /\
  ber_arcs (SYSTEM_GROUP ++ [n; 0]) /\ ber_body_len (SYSTEM_GROUP ++ [n; 0]) <= 1000.
Proof.
  intros Hn. split_and!; [done|done| |].
  - left. repeat split; try lia. repeat constructor; lia.
  - assert (Hc : n ∈ seqZ 0 8) by (apply elem_of_seqZ; lia).
    assert (Hall : Forall (fun n => ber_body_len (SYSTEM_GROUP ++ [n; 0]) <= 1000) (seqZ 0 8))
      by (repeat constructor; vm_compute; discriminate).
    by rewrite list.Forall_forall in Hall; apply Hall.
Qed.

Lemma bind_agent_ok u s :
  settings_ok s ->
  exists a, bind u s = Some a /\ agent_ok a /\ slots (table a) = [] /\ settings a = s /\ agent_usm a = u.
Proof.
  intros (Ha & Hb & Hsv & Ht). eexists. split; [reflexivity|]. split; [|done].
  unfold agent_ok. cbn [table system]. split_and!.
  - split_and!; [apply om_sorted_nil|constructor|]. vm_compute. apply (bool_decide_unpack _). done.
  - vm_compute. repeat constructor.
  - rewrite !Forall_cons_iff in Ht. destruct Ht as (H1 & H2 & H3 & H4 & _).
    pose proof (ber_arcs_u32 _ Ha) as H32. pose proof (ber_body_length _ H32) as Hol.
    assert (Hi : is_i64 (services (as_system s))) by (unfold is_i64; lia).
    destruct (i64_content_spec _ Hi) as (_ & Hiu & Hi8 & _).
    unfold system_instances, system_values, write_string, write_integer.
    rewrite !write_octets_app, write_oid_app, write_i64_app
      by (rewrite ?bytes_of_length; done || lia).
    repeat apply Forall_cons_2; [..|constructor].
    all: try (apply system_ok_value;
      [reflexivity|apply system_oid_shape; lia|apply system_oid_shape; lia| |discriminate]).
    all: rewrite ?bytes_of_length; try lia.
    unfold system_ok. cbn [si_oid si_varbind]. split_and!; [done|..|done];
      apply (system_oid_shape 3); lia.
Qed.

(** ** The view *)

Lemma sys_keys_slots a oid :
  agent_ok a -> oid ∈ map si_oid (system a) -> oid ∉ map fst (slots (table a)).
Proof.
  intros ((_ & Hsl & _) & _ & Hsy) [i [-> Hi]]%list_elem_of_fmap [e [E He]]%list_elem_of_fmap.
  rewrite list.Forall_forall in Hsl. rewrite list.Forall_forall in Hsy. apply Hsl in He as (_ & _ & He).
  apply Hsy in Hi as (Hi & _). rewrite E in Hi. by rewrite Hi in He.
Qed.

Lemma slot_entries_sorted m :
  om_sorted oid_cmp m -> om_sorted oid_cmp (map slot_entry m).
Proof.
  unfold om_sorted. rewrite map_map. by replace (map (fun e => (slot_entry e).1) m) with (map fst m).
Qed.

(** Inserting a sorted group of entries whose keys are new adds exactly them. *)
Lemma insert_group_elem sys m :
  om_sorted oid_cmp m -> NoDup (map si_oid sys) ->
  (forall i, i ∈ sys -> si_oid i ∉ map fst m) ->
  let m' := foldr (fun i m => om_insert oid_cmp (si_oid i) (si_varbind i) m) m sys in
  om_sorted oid_cmp m' /\ forall e, e ∈ m' <-> e ∈ m \/ e ∈ map sys_entry sys.
Proof.
  intros Hm. induction sys as [|i sys IH]; intros Hnd Hne m'; subst m'; cbn [foldr map].
  - split; [done|]. intros e. rewrite elem_of_nil. tauto.
  - cbn [map] in Hnd. apply list.NoDup_cons in Hnd as [Hi Hnd].
    destruct IH as [Hs He]; [done|intros j Hj; apply Hne; by right|].
    set (m' := foldr _ m sys) in *. split; [apply om_insert_sorted; [apply _|done]|]. intros e.
    rewrite (om_insert_elem oid_cmp _ _ _ _ Hs), He, elem_of_cons; [unfold sys_entry at 2; tauto|].
    intros [e' [E' [He'|He']%He]]%list_elem_of_fmap.
    + apply (Hne i); [by left|]. rewrite E'. by apply list_elem_of_fmap_2.
    + apply list_elem_of_fmap in He' as [j [-> Hj]]. cbn [fst sys_entry] in E'.
      apply Hi. rewrite E'. by apply list_elem_of_fmap_2.
Qed.

Lemma sorted_NoDup (l : list Oid) : StronglySorted oid_lt l -> NoDup l.
Proof.
  induction 1 as [|x l Hl IH Hx]; constructor; [|done]. intros Hin.
  rewrite list.Forall_forall in Hx. apply Hx in Hin. by apply oid_lt_irrefl in Hin.
Qed.

(** The view is ordered, and holds the published instances and the system
    group, nothing else. *)
Lemma view_elem a :
  agent_ok a ->
  om_sorted oid_cmp (view a) /\
  forall e, e ∈ view a <->
    e ∈ map slot_entry (slots (table a)) \/ e ∈ map sys_entry (system a).
Proof.
  intros Hok. pose proof Hok as ((Hs & _) & Hsys & _).
  apply insert_group_elem; [by apply slot_entries_sorted|by apply sorted_NoDup|].
  intros i Hi. rewrite map_map. replace (map (fun e => (slot_entry e).1) (slots (table a)))
    with (map fst (slots (table a))) by done.
  apply sys_keys_slots; [done|]. by apply list_elem_of_fmap_2.
Qed.

(** ** [bulk] against the view *)

Lemma skip_system_sorted start sys :
  StronglySorted oid_lt (map si_oid sys) ->
  StronglySorted oid_lt (map si_oid (skip_system start sys)) /\
  forall i, i ∈ skip_system start sys <-> i ∈ sys /\ oid_lt start (si_oid i).
Proof.
  induction sys as [|i sys IH]; intros Hs; cbn [skip_system].
  - split; [done|]. intros i. split; [by intros ?%elem_of_nil|by intros [?%elem_of_nil _]].
  - pose proof Hs as Hs'. cbn [map] in Hs'. apply StronglySorted_inv in Hs' as [Hs' Hf].
    destruct (oid_leb (si_oid i) start) eqn:E.
    + apply oid_leb_iff in E. destruct (IH Hs') as [H1 H2]. split; [done|]. intros j.
      rewrite H2, elem_of_cons. split; [tauto|]. by intros [[->|Hj] Hl].
    + assert (Hl : oid_lt start (si_oid i)).
      { destruct (decide (oid_lt start (si_oid i))) as [|Hn]; [done|].
        apply oid_leb_iff in Hn. by rewrite Hn in E. }
      split; [done|]. intros j. rewrite elem_of_cons. split; [|tauto].
      intros [->|Hj]; [by auto|]. split; [by right|]. transitivity (si_oid i); [done|].
      rewrite list.Forall_forall in Hf. apply Hf. by apply list_elem_of_fmap_2.
Qed.

Section bulk_view.
Context {St : Type} (elapsed : St -> Z) (emit : St -> Oid -> list Z -> St * bool).

(** What is left to emit of a merged list, under a limit. *)
Definition offered (max : Z) (skip : bool) (m : list Entry) : list Entry :=
  take (Z.to_nat max) (List.filter (visible skip) m).

Lemma emit_offered_cons max skip e m s :
  0 < max -> visible skip e = true ->
  emit_all elapsed emit (offered max skip (e :: m)) s
  = (let! vb := entry_varbind e (elapsed s) in
     let (s, more) := emit s e.1 vb in
     if negb more then Some s else emit_all elapsed emit (offered (max - 1) skip m) s).
Proof.
  intros Hm Hv. unfold offered. cbn [List.filter]. rewrite Hv.
  replace (Z.to_nat max) with (S (Z.to_nat (max - 1))) by lia. done.
Qed.

Lemma offered_skip max skip e m :
  visible skip e = false -> offered max skip (e :: m) = offered max skip m.
Proof. intros Hv. unfold offered. cbn [List.filter]. by rewrite Hv. Qed.

(** [m] is the merge of two ordered lists with no key in common. *)
Definition merged (pub : list (Oid * Slot)) (sys : list SystemInstance) (m : list Entry) : Prop :=
  om_sorted oid_cmp pub /\ StronglySorted oid_lt (map si_oid sys) /\
  Forall (fun i => visible true (sys_entry i) = true) sys /\
  (forall i, i ∈ sys -> si_oid i ∉ map fst pub) /\ om_sorted oid_cmp m /\
  forall e, e ∈ m <-> e ∈ map slot_entry pub \/ e ∈ map sys_entry sys.

(** The keys of an ordered list after its first. *)
Lemma sorted_tail_lt x (l : list Oid) y :
  StronglySorted oid_lt (x :: l) -> y ∈ l -> oid_lt x y.
Proof.
  intros Hs Hy. apply StronglySorted_inv in Hs as [_ Hf].
  rewrite list.Forall_forall in Hf. by apply Hf.
Qed.

Lemma slot_entry_key pub e : e ∈ map slot_entry pub -> e.1 ∈ map fst pub.
Proof.
  intros [x [-> Hx]]%list_elem_of_fmap. change (x.1 ∈ map fst pub). by apply list_elem_of_fmap_2.
Qed.

Lemma sys_entry_key sys e : e ∈ map sys_entry sys -> e.1 ∈ map si_oid sys.
Proof. intros [x [-> Hx]]%list_elem_of_fmap. cbn [fst sys_entry]. by apply list_elem_of_fmap_2. Qed.

(** The merge takes a system instance below the next published one. *)
Lemma merged_sys i sys pub m :
  merged pub (i :: sys) m ->
  match pub with [] => True | e :: _ => oid_lt (si_oid i) e.1 end ->
  exists m', m = sys_entry i :: m' /\ merged pub sys m'.
Proof.
  intros (Hp & Hs & Hv & Hd & Hm & He) Hlt. pose proof Hs as [Hs' _]%StronglySorted_inv.
  assert (Hsys : forall e, e ∈ map sys_entry sys -> oid_lt (si_oid i) e.1)
    by (intros e Hx%sys_entry_key; by apply (sorted_tail_lt _ (map si_oid sys))).
  assert (Hpub : forall e, e ∈ map slot_entry pub -> oid_lt (si_oid i) e.1).
  { intros e Hx%slot_entry_key. destruct pub as [|e0 pub]; [by apply elem_of_nil in Hx|].
    cbn [map] in Hx. apply elem_of_cons in Hx as [->|Hx]; [done|].
    transitivity e0.1; [done|]. by apply (sorted_tail_lt _ (map fst pub)). }
  destruct (om_first oid_cmp (si_oid i) (si_varbind i) m Hm) as (m' & -> & Hm' & He').
  - apply He. right. by left.
  - intros e [Hx|Hx]%He; [right; by apply Hpub|].
    cbn [map] in Hx. apply elem_of_cons in Hx as [->|Hx]; [by left|right; by apply Hsys].
  - exists m'. split; [done|]. split_and!; try done.
    + by apply Forall_cons_1 in Hv as [_ Hv].
    + intros j Hj. apply Hd. by right.
    + intros e. rewrite He', He. cbn [map]. rewrite elem_of_cons.
      assert (forall x : Entry, oid_lt (si_oid i) x.1 -> x.1 <> si_oid i)
        by (intros x Hx E; rewrite E in Hx; by apply oid_lt_irrefl in Hx).
      split; [intros [[?|[->|?]] ?]; [by left|done|by right]|].
      intros [Hx|Hx]; (split; [by auto|]); auto.
Qed.

(** The merge takes a published instance that is not above the next system
    instance. *)
Lemma merged_pub x sys pub m :
  merged (x :: pub) sys m ->
  match sys with [] => True | i :: _ => ~ oid_lt (si_oid i) x.1 end ->
  exists m', m = slot_entry x :: m' /\ merged pub sys m'.
Proof.
  intros (Hp & Hs & Hv & Hd & Hm & He) Hlt. pose proof Hp as [_ Hp']%StronglySorted_inv.
  assert (Hpub : forall e, e ∈ map slot_entry pub -> oid_lt x.1 e.1)
    by (intros e Hx%slot_entry_key; by apply (sorted_tail_lt _ (map fst pub))).
  assert (Hsys : forall e, e ∈ map sys_entry sys -> oid_lt x.1 e.1).
  { intros e Hx%sys_entry_key. destruct sys as [|i sys]; [by apply elem_of_nil in Hx|].
    assert (Hi : oid_lt x.1 (si_oid i)).
    { apply oid_not_lt in Hlt as [E|?]; [|done]. exfalso. apply (Hd i); [by left|].
      rewrite E. by left. }
    cbn [map] in Hx. apply elem_of_cons in Hx as [->|Hx]; [done|].
    transitivity (si_oid i); [done|]. by apply (sorted_tail_lt _ (map si_oid sys)). }
  destruct (om_first oid_cmp x.1 (Some (varbind x.2)) m Hm) as (m' & -> & Hm' & He').
  - apply He. left. by left.
  - intros e [Hx|Hx]%He; [|right; by apply Hsys].
    cbn [map] in Hx. apply elem_of_cons in Hx as [->|Hx]; [by left|right; by apply Hpub].
  - exists m'. split; [done|]. split_and!; try done.
    + by apply StronglySorted_inv in Hp as [Hp _].
    + intros j Hj Hin. apply (Hd j Hj). by right.
    + intros e. rewrite He', He. cbn [map]. rewrite elem_of_cons.
      assert (forall y : Entry, oid_lt x.1 y.1 -> y.1 <> x.1)
        by (intros y Hy E; rewrite E in Hy; by apply oid_lt_irrefl in Hy).
      split; [intros [[[->|?]|?] ?]; [done|by left|by right]|].
      intros [Hx|Hx]; (split; [by auto|]); auto.
Qed.

(** With fuel for what is left, the loop offers the merge, in order. *)
Lemma bulk_loop_view fuel pub sys max skip s m :
  merged pub sys m -> (length pub + length sys <= fuel)%nat ->
  bulk_loop elapsed emit fuel pub sys max skip s = emit_all elapsed emit (offered max skip m) s.
Proof.
  revert pub sys max s m. induction fuel as [|fuel IH]; intros pub sys max s m Hm Hf.
  - destruct pub; [|simpl in Hf; lia]. destruct sys; [|simpl in Hf; lia].
    destruct Hm as (_ & _ & _ & _ & _ & He). destruct m as [|e m].
    + unfold offered. cbn [List.filter]. by destruct (Z.to_nat max).
    + destruct (proj1 (He e)) as [?%elem_of_nil|?%elem_of_nil]; [by left|done..].
  - cbn [bulk_loop]. destruct (Z.leb_spec max 0).
    { unfold offered. by replace (Z.to_nat max) with 0%nat by lia. }
    assert (Hsys : forall i sys', sys = i :: sys' ->
      match pub with [] => True | e :: _ => oid_lt (si_oid i) e.1 end ->
      (let! vb := with_system_varbind i (elapsed s) in
       let (s, more) := emit s (si_oid i) vb in
       if negb more then Some s else bulk_loop elapsed emit fuel pub sys' (max - 1) skip s)
      = emit_all elapsed emit (offered max skip m) s).
    { intros i sys' -> Hlt. pose proof Hm as (_ & _ & Hv & _). apply Forall_cons_1 in Hv as [Hv _].
      destruct (merged_sys i sys' pub m Hm Hlt) as (m' & -> & Hm').
      rewrite emit_offered_cons by (try lia; destruct skip; done).
      unfold entry_varbind. cbn [sys_entry fst snd]. destruct i as [o v]. cbn [si_oid si_varbind].
      destruct (with_system_varbind _ _) as [vb|]; [|done].
      destruct (emit s o vb) as [s' [|]]; cbn [negb]; [|done].
      apply IH; [done|]. simpl in Hf. lia. }
    assert (Hpub : forall x pub', pub = x :: pub' ->
      match sys with [] => True | i :: _ => ~ oid_lt (si_oid i) x.1 end ->
      (if skip && is_counter64 (varbind x.2)
       then bulk_loop elapsed emit fuel pub' sys max skip s
       else let (s, more) := emit s x.1 (varbind x.2) in
            if negb more then Some s else bulk_loop elapsed emit fuel pub' sys (max - 1) skip s)
      = emit_all elapsed emit (offered max skip m) s).
    { intros x pub' -> Hlt. destruct (merged_pub x sys pub' m Hm Hlt) as (m' & -> & Hm').
      simpl in Hf. destruct (skip && is_counter64 (varbind x.2)) eqn:E.
      - rewrite offered_skip by (unfold visible; cbn; by rewrite E). apply IH; [done|lia].
      - rewrite emit_offered_cons by (try lia; unfold visible; cbn; by rewrite E).
        cbn [entry_varbind slot_entry with_system_varbind si_varbind fst snd].
        destruct (emit s x.1 (varbind x.2)) as [s' [|]]; cbn [negb]; [|done].
        apply IH; [done|lia]. }
    destruct pub as [|[o sl] pub'], sys as [|i sys'].
    + destruct Hm as (_ & _ & _ & _ & _ & He). destruct m as [|e m];
        [unfold offered; cbn [List.filter]; by destruct (Z.to_nat max)|].
      destruct (proj1 (He e)) as [?%elem_of_nil|?%elem_of_nil]; [by left|done..].
    + by apply Hsys.
    + by apply (Hpub (o, sl)).
    + destruct (oid_ltb (si_oid i) o) eqn:E.
      * apply oid_ltb_iff in E. by apply Hsys.
      * apply (Hpub (o, sl)); [done|]. cbn [fst]. rewrite <- oid_ltb_iff. by rewrite E.
Qed.

(** The instances after [start] that the view holds are the merge of the two
    tails [bulk] starts from. *)
Lemma merged_after start a :
  agent_ok a ->
  merged (om_after oid_cmp start (slots (table a))) (skip_system start (system a))
    (om_after oid_cmp start (view a)).
Proof.
  intros Hok. pose proof Hok as ((Hs & _) & Hsys & Hsok).
  destruct (skip_system_sorted start _ Hsys) as [H1 H2].
  destruct (view_elem a Hok) as [Hv1 Hv2]. split_and!.
  - by apply om_after_sorted.
  - done.
  - apply list.Forall_forall. intros i [Hi _]%H2. rewrite list.Forall_forall in Hsok.
    apply Hsok in Hi as (_ & _ & _ & Hc). unfold visible. cbn. destruct (si_varbind i); [|done].
    destruct Hc as [_ ->]. done.
  - intros i [Hi _]%H2 [e [E [He _]%om_after_elem]]%list_elem_of_fmap; [|apply _|done].
    apply (sys_keys_slots a (si_oid i) Hok); [by apply list_elem_of_fmap_2|].
    rewrite E. by apply list_elem_of_fmap_2.
  - by apply om_after_sorted.
  - intros e. rewrite (om_after_elem oid_cmp start (view a) e Hv1), Hv2.
    rewrite !list_elem_of_fmap. split.
    + intros [[[x [-> Hx]]|[x [-> Hx]]] Hl]; [left|right]; exists x; (split; [done|]).
      * by apply om_after_elem; [apply _|..].
      * by apply H2.
    + intros [[x [-> Hx]]|[x [-> Hx]]].
      * apply om_after_elem in Hx as [Hx Hl]; [|apply _|done]. split; [left; eauto|done].
      * apply H2 in Hx as [Hx Hl]. split; [right; eauto|done].
Qed.

Lemma bulk_view start max skip a s :
  agent_ok a ->
  bulk elapsed emit start max skip a s
  = emit_all elapsed emit (offered max skip (om_after oid_cmp (mk_oid start) (view a))) s.
Proof. intros Hok. apply bulk_loop_view; [by apply merged_after|done]. Qed.
End bulk_view.

(** ** Writing the table *)

(** The slot of an OID, and the table's reading after each write. *)
Definition slot_at (a : SnmpAgent) (oid : Oid) : option Slot :=
  om_get oid_cmp oid (slots (table a)).

Lemma slot_at_ok a oid slot : agent_ok a -> slot_at a oid = Some slot -> slot_ok (oid, slot).
Proof. intros ((_ & Hs & _) & _) Hg. exact (om_get_all oid_cmp slot_ok _ _ _ Hs Hg). Qed.

Lemma publish_preserves o oid vb first a :
  agent_ok a -> varbind_ok oid vb ->
  (forall slot, slot_at a oid = Some slot -> publishers slot < u64_max) ->
  agent_ok (publish o oid vb first a).2.
Proof.
  intros Hok Hvb Hp. pose proof Hok as ((Hs & Hsl & Ho) & Hsys). unfold publish.
  destruct (om_get oid_cmp oid (slots (table a))) as [slot|] eqn:E.
  - destruct (negb (owner slot =? o)); [done|]. specialize (Hp slot E).
    destruct (slot_at_ok a oid slot Hok E) as (_ & Hn & Hg). cbn [fst snd] in Hn, Hg.
    split; [|done]. split_and!; [apply om_alter_sorted; done| |done].
    apply om_alter_all; [apply _|done|]. intros v _. split_and!; cbn [fst snd varbind publishers].
    + done.
    + destruct first; rewrite Z.mod_small; lia.
    + rewrite Z.mod_small; destruct first; lia.
    + done.
  - destruct (arcs_start_with (arcs oid) SYSTEM_GROUP) eqn:Eg; [done|]. split; [|done].
    split_and!; [by apply (om_insert_sorted oid_cmp)| |done].
    apply om_insert_all; [apply _|done|]. by split_and!.
Qed.

Lemma overwrite_preserves oid vb a :
  agent_ok a -> varbind_ok oid vb -> agent_ok (overwrite oid vb a).2.
Proof.
  intros Hok Hvb. pose proof Hok as ((Hs & Hsl & Ho) & Hsys). unfold overwrite.
  destruct (om_get oid_cmp oid (slots (table a))) as [slot|] eqn:E; [|done].
  destruct (slot_at_ok a oid slot Hok E) as (_ & Hn & Hg).
  split; [|done]. split_and!; [apply om_alter_sorted; done| |done].
  apply om_alter_all; [apply _|done|]. intros v _. split_and!; cbn [fst snd varbind publishers owner] in *; first [done|lia].
Qed.

Lemma register_object_preserves object a : agent_ok a -> agent_ok (register_object object a).
Proof.
  intros Hok. pose proof Hok as ((Hs & Hsl & Ho) & Hsys). unfold register_object.
  case_bool_decide; [done|]. split; [|done]. split_and!; [done..|].
  by apply list.NoDup_cons.
Qed.

Lemma release_preserves o oid a : agent_ok a -> agent_ok (release o oid a).
Proof.
  intros Hok. pose proof Hok as ((Hs & Hsl & Ho) & Hsys). unfold release.
  destruct (om_get oid_cmp oid (slots (table a))) as [slot|] eqn:E; [|done].
  destruct (negb (owner slot =? o)); [done|].
  destruct (slot_at_ok a oid slot Hok E) as (Hv & Hn & Hg). cbn [fst snd] in *.
  set (n := sat_sub (publishers slot) 1).
  split; [|done]. destruct (Z.eqb_spec n 0) as [En|En]; (split_and!; [| |done]).
  - by apply (om_remove_sorted oid_cmp), om_alter_sorted.
  - cbn [slots set_table table]. rewrite om_remove_alter. by apply om_remove_all.
  - by apply om_alter_sorted.
  - apply om_alter_all; [apply _|done|]. intros v Ev. rewrite E in Ev. injection Ev as <-.
    subst n. unfold sat_sub in *. split_and!; cbn [fst snd varbind publishers]; try done; lia.
Qed.

(** ** Reading the table *)

(** An entry of the view has a varbind the table may hold, at any time. *)
Lemma view_varbind a e elapsed :
  agent_ok a -> e ∈ view a ->
  exists vb, entry_varbind e elapsed = Some vb /\ varbind_ok e.1 vb.
Proof.
  intros Hok He. pose proof Hok as ((Hs & Hsl & _) & _ & Hsys).
  apply (view_elem a Hok) in He as [[x [-> Hx]]%list_elem_of_fmap|[i [-> Hi]]%list_elem_of_fmap].
  - rewrite list.Forall_forall in Hsl. apply Hsl in Hx as (Hv & _).
    by exists (varbind x.2).
  - rewrite list.Forall_forall in Hsys. apply Hsys in Hi. unfold entry_varbind. cbn [fst snd sys_entry].
    destruct i as [o v]. apply (system_varbind_ok (mk_system o v)). done.
Qed.

Lemma view_get_slot a oid slot :
  agent_ok a -> slot_at a oid = Some slot -> om_get oid_cmp oid (view a) = Some (Some (varbind slot)).
Proof.
  intros Hok Hg. pose proof Hok as ((Hs & _) & _). destruct (view_elem a Hok) as [Hv He].
  apply om_get_Some; [apply _|done|]. apply He. left.
  apply om_get_Some in Hg; [|apply _|done]. by apply (list_elem_of_fmap_2 slot_entry) in Hg.
Qed.

Lemma view_get_system a i :
  agent_ok a -> i ∈ system a -> om_get oid_cmp (si_oid i) (view a) = Some (si_varbind i).
Proof.
  intros Hok Hi. destruct (view_elem a Hok) as [Hv He].
  apply om_get_Some; [apply _|done|]. apply He. right. by apply (list_elem_of_fmap_2 sys_entry) in Hi.
Qed.

Lemma view_get_None a oid :
  agent_ok a -> slot_at a oid = None -> (forall i, i ∈ system a -> si_oid i <> oid) ->
  om_get oid_cmp oid (view a) = None.
Proof.
  intros Hok Hg Hsys. pose proof Hok as ((Hs & _) & _). destruct (view_elem a Hok) as [Hv He].
  apply om_get_None; [apply _|done|]. intros [e [-> Hin]]%list_elem_of_fmap.
  apply He in Hin as [[x [-> Hx]]%list_elem_of_fmap|[i [-> Hi]]%list_elem_of_fmap].
  - apply om_get_None in Hg; [|apply _|done]. apply Hg. by apply (list_elem_of_fmap_2 fst) in Hx.
  - by apply (Hsys i Hi).
Qed.

(** Whether a registered object is the OID or a prefix of it. *)
Definition under_object (a : SnmpAgent) (oid : list Z) : Prop :=
  exists object, object ∈ objects (table a) /\ (2 <= length (arcs object))%nat /\
    is_prefix_of object (mk_oid oid) = true.

Lemma prefixes_under_object a oid :
  existsb (fun len => bool_decide (mk_oid (take len oid) ∈ objects (table a)))
    (seq 2 (length oid - 1)) = true <-> under_object a oid.
Proof.
  rewrite existsb_exists. unfold under_object, is_prefix_of. cbn [arcs]. split.
  - intros (len & Hl & Hb%bool_decide_eq_true). apply list_elem_of_In, elem_of_seq in Hl.
    exists (mk_oid (take len oid)). split_and!; [done| |].
    + cbn [arcs]. rewrite length_take. lia.
    + apply arcs_start_with_iff. exists (drop len oid). cbn [arcs]. by rewrite take_drop.
  - intros ([l] & Hin & Hlen & (rest & Hr)%arcs_start_with_iff). cbn [arcs] in *.
    exists (length l). subst oid. rewrite take_app_length. split.
    + apply list_elem_of_In, elem_of_seq. rewrite length_app. lia.
    + by apply bool_decide_eq_true.
Qed.

(** What a [GetRequest] for one name is answered, against the view. *)
Lemma lookup_view oid elapsed a :
  agent_ok a ->
  match om_get oid_cmp (mk_oid oid) (view a) with
  | Some v => exists vb, lookup oid elapsed a = Some (Value vb) /\
                entry_varbind (mk_oid oid, v) elapsed = Some vb /\ varbind_ok (mk_oid oid) vb
  | None => (under_object a oid -> lookup oid elapsed a = Some NoSuchInstance) /\
            (~ under_object a oid -> lookup oid elapsed a = Some NoSuchObject)
  end.
Proof.
  intros Hok. unfold lookup. set (f := fun i => bool_decide (arcs (si_oid i) = oid)).
  assert (Hf : forall i, f i = true <-> si_oid i = mk_oid oid).
  { intros [[l] v]. unfold f. cbn [si_oid arcs]. rewrite bool_decide_eq_true.
    split; [by intros ->|by intros [= ->]]. }
  destruct (List.find f (system a)) as [i|] eqn:E.
  - apply find_some in E as [Hi%list_elem_of_In Hfi%Hf]. rewrite <- Hfi.
    rewrite (view_get_system a i Hok Hi).
    destruct (view_varbind a (sys_entry i) elapsed Hok) as (vb & Hvb & Hvo).
    { apply (view_elem a Hok). right. by apply list_elem_of_fmap_2. }
    unfold entry_varbind in *. cbn [fst snd sys_entry] in *. destruct i as [o v].
    cbn [si_oid si_varbind] in *. rewrite Hvb. eauto.
  - assert (Hn : forall i, i ∈ system a -> si_oid i <> mk_oid oid).
    { intros i Hi He. apply Hf in He. apply list_elem_of_In in Hi.
      by rewrite (find_none _ _ E i Hi) in He. }
    destruct (om_get oid_cmp (mk_oid oid) (slots (table a))) as [slot|] eqn:Es.
    + rewrite (view_get_slot a _ slot Hok Es). exists (varbind slot). split_and!; [done..|].
      by destruct (slot_at_ok a _ slot Hok Es) as [Hv _].
    + rewrite (view_get_None a _ Hok Es Hn). rewrite <- prefixes_under_object.
      by destruct (existsb _ _).
Qed.

(** The slots after each write. *)
Lemma slot_at_set_table t a oid : slot_at (set_table t a) oid = om_get oid_cmp oid (slots t).
Proof. done. Qed.

Lemma register_object_slot_at object a oid : slot_at (register_object object a) oid = slot_at a oid.
Proof. unfold register_object. by case_bool_decide. Qed.

Lemma overwrite_slot_at oid vb a o :
  slot_at (overwrite oid vb a).2 o
  = if decide (o = oid)
    then (fun s => mk_slot vb (owner s) (publishers s)) <$> slot_at a oid else slot_at a o.
Proof.
  unfold overwrite, slot_at. destruct (decide (o = oid)) as [->|Hne].
  - destruct (om_get oid_cmp oid (slots (table a))) as [s|] eqn:E; cbn [snd]; [|by rewrite E].
    cbn [set_table table slots]. by rewrite om_get_alter_eq, E.
  - destruct (om_get oid_cmp oid (slots (table a))) as [s|] eqn:E; cbn [snd]; [|done].
    cbn [set_table table slots]. by rewrite (om_get_alter_ne oid_cmp).
Qed.

Lemma publish_slot_at oid vb o first a a' k :
  agent_ok a -> publish o oid vb first a = (Ok tt, a') ->
  slot_at a' k
  = if decide (k = oid)
    then Some match slot_at a oid with
              | Some s => mk_slot vb (owner s) ((publishers s + (if first then 1 else 0)) mod two64)
              | None => mk_slot vb o 1
              end
    else slot_at a k.
Proof.
  intros ((Hs & _) & _). unfold publish, slot_at.
  destruct (om_get oid_cmp oid (slots (table a))) as [s|] eqn:E.
  - destruct (negb _); [done|]. intros [= <-]. cbn [set_table table slots].
    destruct (decide (k = oid)) as [->|Hne]; [by rewrite om_get_alter_eq, E|].
    by rewrite (om_get_alter_ne oid_cmp).
  - destruct (arcs_start_with _ _); [done|]. intros [= <-]. cbn [set_table table slots].
    destruct (decide (k = oid)) as [->|Hne]; [by rewrite (om_get_insert_eq oid_cmp)|].
    by rewrite (om_get_insert_ne oid_cmp).
Qed.

Lemma release_slot_at o oid a k :
  agent_ok a ->
  slot_at (release o oid a) k
  = if decide (k = oid)
    then match slot_at a oid with
         | Some s => if owner s =? o
                     then if publishers s =? 1 then None
                          else Some (mk_slot (varbind s) (owner s) (publishers s - 1))
                     else Some s
         | None => None
         end
    else slot_at a k.
Proof.
  intros Hok. pose proof Hok as ((Hs & _) & _). unfold release.
  destruct (om_get oid_cmp oid (slots (table a))) as [s|] eqn:E; fold (slot_at a oid) in E;
    rewrite ?E; [|case_decide; by subst].
  destruct (owner s =? o); cbn [negb]; [|case_decide; by subst].
  destruct (slot_at_ok a oid s Hok E) as (_ & Hn & _). cbn [snd] in Hn.
  assert (Hsat : sat_sub (publishers s) 1 = publishers s - 1) by (unfold sat_sub; lia).
  rewrite Hsat. cbn [set_table table slots]. unfold slot_at at 1. cbn [set_table table slots].
  destruct (Z.eqb_spec (publishers s - 1) 0) as [E0|E0].
  - rewrite (proj2 (Z.eqb_eq (publishers s) 1)) by lia. rewrite om_remove_alter.
    case_decide as Hk; [subst k; by rewrite (om_get_remove_eq oid_cmp)|].
    by rewrite (om_get_remove_ne oid_cmp).
  - rewrite (proj2 (Z.eqb_neq (publishers s) 1)) by lia.
    case_decide as Hk; [subst k; rewrite om_get_alter_eq; fold (slot_at a oid); by rewrite E|].
    by rewrite (om_get_alter_ne oid_cmp).
Qed.

(** ** Callers of [bulk]

    Two callers whose states are related read the same instances and stay
    related. *)
Section bulk_sim.
Context {S1 S2 : Type} (R : S1 -> S2 -> Prop)
  (elapsed1 : S1 -> Z) (elapsed2 : S2 -> Z)
  (emit1 : S1 -> Oid -> list Z -> S1 * bool) (emit2 : S2 -> Oid -> list Z -> S2 * bool).

(** What the closures owe each other. *)
Definition closures_agree : Prop :=
  (forall s1 s2, R s1 s2 -> elapsed1 s1 = elapsed2 s2) /\
  (forall s1 s2 oid vb, R s1 s2 ->
     R (emit1 s1 oid vb).1 (emit2 s2 oid vb).1 /\ (emit1 s1 oid vb).2 = (emit2 s2 oid vb).2).

Lemma bulk_loop_sim fuel pub sys max skip s1 s2 :
  closures_agree -> R s1 s2 ->
  match bulk_loop elapsed1 emit1 fuel pub sys max skip s1,
        bulk_loop elapsed2 emit2 fuel pub sys max skip s2 with
  | Some t1, Some t2 => R t1 t2
  | None, None => True
  | _, _ => False
  end.
Proof.
  intros [He Hm]. revert pub sys max s1 s2. induction fuel as [|fuel IH]; intros pub sys max s1 s2 HR;
    [done|]. cbn [bulk_loop]. destruct (max <=? 0); [done|].
  destruct (match pub with [] => _ | _ :: _ => _ end).
  - destruct sys as [|i sys]; [done|]. rewrite (He s1 s2 HR).
    destruct (with_system_varbind i (elapsed2 s2)) as [vb|]; [|done].
    destruct (Hm s1 s2 (si_oid i) vb HR) as [Hr Hb].
    destruct (emit1 s1 (si_oid i) vb) as [t1 m1], (emit2 s2 (si_oid i) vb) as [t2 m2].
    cbn [fst snd] in *. subst m1. destruct m2; cbn [negb]; [by apply IH|done].
  - destruct pub as [|[oid slot] pub]; [done|].
    destruct (skip && is_counter64 (varbind slot)); [by apply IH|].
    destruct (Hm s1 s2 oid (varbind slot) HR) as [Hr Hb].
    destruct (emit1 s1 oid (varbind slot)) as [t1 m1], (emit2 s2 oid (varbind slot)) as [t2 m2].
    cbn [fst snd] in *. subst m1. destruct m2; cbn [negb]; [by apply IH|done].
Qed.

Lemma bulk_sim start max skip a s1 s2 :
  closures_agree -> R s1 s2 ->
  match bulk elapsed1 emit1 start max skip a s1, bulk elapsed2 emit2 start max skip a s2 with
  | Some t1, Some t2 => R t1 t2
  | None, None => True
  | _, _ => False
  end.
Proof. apply bulk_loop_sim. Qed.
End bulk_sim.

(** Relocating the state of a caller: [bulk] commutes with [f]. *)
Lemma bulk_map {S1 S2 : Type} (f : S1 -> S2) elapsed1 elapsed2 emit1 emit2 start max skip a s :
  (forall s, elapsed2 (f s) = elapsed1 s) ->
  (forall s oid vb, emit2 (f s) oid vb = (f (emit1 s oid vb).1, (emit1 s oid vb).2)) ->
  bulk elapsed2 emit2 start max skip a (f s) = f <$> bulk elapsed1 emit1 start max skip a s.
Proof.
  intros He Hm.
  pose proof (bulk_sim (fun s1 s2 => s2 = f s1) elapsed1 elapsed2 emit1 emit2 start max skip a
                s (f s)) as Hs.
  specialize (Hs ltac:(split; [intros s1 ? ->; by rewrite He|intros s1 ? oid vb ->; by rewrite Hm]) eq_refl).
  destruct (bulk elapsed1 emit1 start max skip a s), (bulk elapsed2 emit2 start max skip a (f s));
    cbn in *; by subst.
Qed.

(** The successor of an OID in the view, and what one step of a walk offers. *)
Definition successor (skip : bool) (a : SnmpAgent) (start : list Z) : option Entry :=
  hd_error (List.filter (visible skip) (om_after oid_cmp (mk_oid start) (view a))).

Lemma bulk_one {St : Type} (elapsed : St -> Z) (emit : St -> Oid -> list Z -> St * bool)
    start skip a s :
  agent_ok a ->
  bulk elapsed emit start 1 skip a s
  = match successor skip a start with
    | None => Some s
    | Some e => let! vb := entry_varbind e (elapsed s) in Some (emit s e.1 vb).1
    end.
Proof.
  intros Hok. rewrite bulk_view by done. unfold successor, offered.
  destruct (List.filter _ _) as [|e es]; [done|].
  replace (take (Z.to_nat 1) (e :: es)) with [e] by done. cbn [emit_all hd_error].
  destruct (entry_varbind e (elapsed s)) as [vb|]; [|done].
  destruct (emit s e.1 vb) as [s' [|]]; done.
Qed.

(** A successor is an instance served, above the OID, and nothing visible lies
    between. *)
Lemma successor_spec skip a start e :
  agent_ok a -> successor skip a start = Some e ->
  e ∈ view a /\ visible skip e = true /\ oid_lt (mk_oid start) e.1 /\
  forall e', e' ∈ view a -> visible skip e' = true -> oid_lt (mk_oid start) e'.1 ->
             e' = e \/ oid_lt e.1 e'.1.
Proof.
  intros Hok He. destruct (view_elem a Hok) as [Hs _]. unfold successor in He.
  destruct (List.filter _ _) as [|x l] eqn:E; [done|]. injection He as ->.
  assert (Hin : forall x, x ∈ (e :: l) <->
    (x ∈ view a /\ oid_lt (mk_oid start) x.1) /\ visible skip x = true).
  { intros x. rewrite <- E. rewrite list_elem_of_In, filter_In, <- list_elem_of_In.
    by rewrite (om_after_elem oid_cmp) by done. }
  destruct (proj1 (Hin e)) as [[H1 H2] H3]; [by left|]. split_and!; [done..|].
  intros e' He' Hv Hl. assert (Hc : e' ∈ e :: l) by (by apply Hin).
  apply elem_of_cons in Hc as [->|Hc]; [by left|right].
  assert (Hsort : StronglySorted oid_lt (map fst (e :: l))).
  { rewrite <- E. apply (om_after_sorted oid_cmp (mk_oid start)) in Hs. revert Hs. unfold om_sorted.
    generalize (om_after oid_cmp (mk_oid start) (view a)) as m. clear.
    induction m as [|y m IH]; [done|]. intros [Hm Hf]%StronglySorted_inv. cbn [List.filter].
    destruct (visible skip y); [|by apply IH]. constructor; [by apply IH|].
    apply list.Forall_forall. intros z [w [-> Hw]]%list_elem_of_fmap.
    rewrite list.Forall_forall in Hf. apply Hf. apply list_elem_of_In, filter_In in Hw as [Hw _].
    apply list_elem_of_In in Hw. by apply list_elem_of_fmap_2. }
  apply (sorted_tail_lt _ (map fst l)); [exact Hsort|]. by apply list_elem_of_fmap_2.
Qed.

Lemma successor_None skip a start :
  agent_ok a -> successor skip a start = None ->
  forall e, e ∈ view a -> visible skip e = true -> ~ oid_lt (mk_oid start) e.1.
Proof.
  intros Hok He e Hin Hv Hl. destruct (view_elem a Hok) as [Hs _]. unfold successor in He.
  destruct (List.filter _ _) as [|x l] eqn:E; [|done].
  assert (Hx : e ∈ List.filter (visible skip) (om_after oid_cmp (mk_oid start) (view a))).
  { apply list_elem_of_In, filter_In. split; [|done]. apply list_elem_of_In.
    by apply (om_after_elem oid_cmp). }
  rewrite E in Hx. by apply elem_of_nil in Hx.
Qed.
