(* ===== verification/SnmpSink.v ===== *)
(** * SnmpSink: publishing into an SNMP agent (sink/snmp/mod.rs, encoder/snmp/mod.rs)

    [split_record] takes a publish record of the [snmp] encoder apart;
    [SnmpAgentSink] publishes the records of its series into an agent and
    releases what it published when it is dropped. Sinks share one agent: a
    [World] is an agent and its sinks, each event of it one call on one sink.
    [None] is a panic. The theorems: the table is the ledger of the sinks'
    claims, and launches do not reach each other's instances. *)

From Stdlib Require Import ZArith Lia Ascii.
From stdpp Require Import prelude strings list numbers.
From S2P Require Import Prelude Text Metric Oid Ber OrdMap SnmpAgent Usm.

(** ** Publish records *)

Inductive RecordError :=
| RecordEmpty
| NoCompanionCount
| NotAVarbind (e : BerError)
| FewerCompanions (count : Z)
| TrailingBytes
| NoObjectLeft (index_arcs : Z) (oid : Oid).

Record Companion := mk_companion { c_index_arcs : Z; c_varbind : list Z }.

Record Companions := mk_companions { c_rest : list Z; c_left : Z }.

Record PublishRecord := mk_record {
  r_index_arcs : Z;
  r_varbind : list Z;
  r_companions : Companions;
}.

(** [split_varbind]: the body borrows from the input, so the TLV ends where the
    reader stops. *)
Definition split_varbind (input : list Z) : result (list Z * list Z) BerError :=
  let (r, rest) := expect TSequence input in
  let? body := r in
  let stop := (length input - length rest)%nat in
  Ok (take stop input, drop stop input).

(** [Iterator::next for Companions]. *)
Definition companions_next (c : Companions) : option Companion * Companions :=
  if c_left c =? 0 then (None, c)
  else match c_rest c with
       | [] => (None, c)
       | index_arcs :: rest =>
           match split_varbind rest with
           | Err _ => (None, c)
           | Ok (vb, rest) => (Some (mk_companion index_arcs vb), mk_companions rest (c_left c - 1))
           end
       end.

(** The iterator run to its end; it yields at most [c_left] items. *)
Fixpoint companions_collect (fuel : nat) (c : Companions) : list Companion :=
  match fuel with
  | O => []
  | S fuel =>
      match companions_next c with
      | (None, _) => []
      | (Some x, c) => x :: companions_collect fuel c
      end
  end.

Definition companions_list (c : Companions) : list Companion :=
  companions_collect (Z.to_nat (c_left c)) c.

(** The loop [for _ in 0..count] of [split_record]. *)
Fixpoint split_companions (n : nat) (count : Z) (rest : list Z) : result (list Z) RecordError :=
  match n with
  | O => Ok rest
  | S n =>
      match rest with
      | [] => Err (FewerCompanions count)
      | _ :: after =>
          let? (_, rest) := map_err NotAVarbind (split_varbind after) in
          split_companions n count rest
      end
  end.

(** [split_record]. *)
Definition split_record (encoded : list Z) : result PublishRecord RecordError :=
  match encoded with
  | [] => Err RecordEmpty
  | [_] => Err NoCompanionCount
  | index_arcs :: count :: rest =>
      let? (vb, companions) := map_err NotAVarbind (split_varbind rest) in
      let? rest := split_companions (Z.to_nat count) count companions in
      match rest with
      | [] => Ok (mk_record index_arcs vb (mk_companions companions count))
      | _ => Err TrailingBytes
      end
  end.

(** ** The sink *)

(** [PublishBuffers]. *)
Record PublishBuffers := mk_buffers { buffers : list (list Z); next : nat }.

Definition default_buffers : PublishBuffers := mk_buffers [[]; []] 0.

(** [PublishBuffers::frozen]: the buffer's content with [varbind] after it,
    split off, which leaves the buffer empty. *)
Definition frozen (vb : list Z) (b : PublishBuffers) : option (list Z * PublishBuffers) :=
  let! buffer := buffers b !! next b in
  Some (buffer ++ vb, mk_buffers (<[next b := []]> (buffers b)) (Nat.lxor (next b) 1)).

Record Publication := mk_publication {
  pub_oid : Oid;
  pub_buffers : PublishBuffers;
  pub_companions : list Oid;
}.

Definition MetricKey : Type := string * Labels.

#[export] Instance Labels_eq_dec : EqDecision Labels.
Proof. solve_decision. Defined.

(** The two [HashMap]s are association lists, a later insert found first. *)
Record SnmpAgentSink := mk_sink {
  sink_owner : Owner;
  owned : list (MetricKey * nat);
  published : list Publication;
  instances : list (Oid * nat);
  last_delivered : bool;
  joined : bool;
}.

(** [map.get(k)]. *)
Fixpoint assoc {K V : Type} `{EqDecision K} (k : K) (m : list (K * V)) : option V :=
  match m with
  | [] => None
  | (k', v) :: m => if decide (k' = k) then Some v else assoc k m
  end.

Inductive SinkError :=
| NotServing
| NotARecord (e : RecordError)
| Refused (e : PublishError)
| NoScenarioServes (oid : Oid).

(** [instance_oid]. *)
Definition instance_oid (vb : list Z) : result Oid RecordError :=
  map_err NotAVarbind (let? body := fst (expect TSequence vb) in fst (read_oid body)).

(** [object_of]. *)
Definition sink_object_of (instance : Oid) (index_arcs : Z) : result Oid RecordError :=
  let n := length (arcs instance) in
  ok_or (if (Z.of_nat n <? index_arcs) then None
         else from_arcs (take (n - Z.to_nat index_arcs) (arcs instance)))
        (NoObjectLeft index_arcs instance).

(** [SnmpAgentSink::from_agent], and [join]. *)
Definition from_agent (o : Owner) : SnmpAgentSink := mk_sink o [] [] [] false false.
Definition join (o : Owner) : SnmpAgentSink := mk_sink o [] [] [] false true.

Definition set_delivered (d : bool) (s : SnmpAgentSink) : SnmpAgentSink :=
  mk_sink (sink_owner s) (owned s) (published s) (instances s) d (joined s).

Definition set_published (p : list Publication) (s : SnmpAgentSink) : SnmpAgentSink :=
  mk_sink (sink_owner s) (owned s) p (instances s) (last_delivered s) (joined s).

(** The result of a call, the sink and the agent it leaves. *)
Definition Call : Type := result unit SinkError * SnmpAgentSink * SnmpAgent.

(** [publish_companions]: the loop over the companions left. *)
Fixpoint publish_companions (entry : nat) (cs : list Companion) (s : SnmpAgentSink) (a : SnmpAgent)
  : option Call :=
  match cs with
  | [] => Some (Ok tt, s, a)
  | c :: cs =>
      match instance_oid (c_varbind c) with
      | Err e => Some (Err (NotARecord e), s, a)
      | Ok oid =>
          let! p := published s !! entry in
          let first := negb (bool_decide (oid ∈ pub_companions p)) in
          match (if first then let? o := sink_object_of oid (c_index_arcs c) in Ok (Some o)
                 else Ok None) with
          | Err e => Some (Err (NotARecord e), s, a)
          | Ok object =>
              match publish (sink_owner s) oid (c_varbind c) first a with
              | (Err e, a) => Some (Err (Refused e), s, a)
              | (Ok _, a) =>
                  match object with
                  | None => publish_companions entry cs s a
                  | Some object =>
                      let a := register_object object a in
                      let p := mk_publication (pub_oid p) (pub_buffers p) (pub_companions p ++ [oid]) in
                      publish_companions entry cs (set_published (<[entry := p]> (published s)) s) a
                  end
              end
          end
      end
  end.

(** The companions of a joined sink's record: each overwritten where served. *)
Fixpoint overwrite_companions (cs : list Companion) (s : SnmpAgentSink) (a : SnmpAgent) : Call :=
  match cs with
  | [] => (Ok tt, s, a)
  | c :: cs =>
      match instance_oid (c_varbind c) with
      | Err e => (Err (NotARecord e), s, a)
      | Ok oid => overwrite_companions cs s (overwrite oid (c_varbind c) a).2
      end
  end.

(** What [write_metric_event] does once the series' entry is known. *)
Definition republish (entry : nat) (vb : list Z) (cs : Companions) (s : SnmpAgentSink) (a : SnmpAgent)
  : option Call :=
  let! p := published s !! entry in
  let! (stored, b) := frozen vb (pub_buffers p) in
  let p := mk_publication (pub_oid p) b (pub_companions p) in
  let s := set_published (<[entry := p]> (published s)) s in
  match publish (sink_owner s) (pub_oid p) stored false a with
  | (Err e, a) => Some (Err (Refused e), s, a)
  | (Ok _, a) =>
      let s := set_delivered true s in
      if 0 <? c_left cs then publish_companions entry (companions_list cs) s a
      else Some (Ok tt, s, a)
  end.

(** [write_metric_event]. *)
Definition write_metric_event (key : MetricKey) (encoded : list Z) (s : SnmpAgentSink) (a : SnmpAgent)
  : option Call :=
  let s := set_delivered false s in
  if negb (serving a) then Some (Err NotServing, s, a)
  else match split_record encoded with
  | Err e => Some (Err (NotARecord e), s, a)
  | Ok record =>
      let vb := r_varbind record in
      if joined s then
        match instance_oid vb with
        | Err e => Some (Err (NotARecord e), s, a)
        | Ok oid =>
            match overwrite oid vb a with
            | (false, a) => Some (Err (NoScenarioServes oid), s, a)
            | (true, a) =>
                Some (overwrite_companions (companions_list (r_companions record))
                        (set_delivered true s) a)
            end
        end
      else match assoc key (owned s) with
      | Some entry => republish entry vb (r_companions record) s a
      | None =>
          match instance_oid vb with
          | Err e => Some (Err (NotARecord e), s, a)
          | Ok oid =>
              match assoc oid (instances s) with
              | Some entry =>
                  let s := mk_sink (sink_owner s) ((key, entry) :: owned s) (published s)
                             (instances s) (last_delivered s) (joined s) in
                  republish entry vb (r_companions record) s a
              | None =>
                  match sink_object_of oid (r_index_arcs record) with
                  | Err e => Some (Err (NotARecord e), s, a)
                  | Ok object =>
                      let! (stored, b) := frozen vb default_buffers in
                      match publish (sink_owner s) oid stored true a with
                      | (Err e, a) => Some (Err (Refused e), s, a)
                      | (Ok _, a) =>
                          let a := register_object object a in
                          let entry := length (published s) in
                          let s := mk_sink (sink_owner s) ((key, entry) :: owned s)
                                     (published s ++ [mk_publication oid b []])
                                     ((oid, entry) :: instances s) true (joined s) in
                          publish_companions entry (companions_list (r_companions record)) s a
                      end
                  end
              end
          end
      end
  end.

(** [Drop for SnmpAgentSink]. *)
Definition drop_sink (s : SnmpAgentSink) (a : SnmpAgent) : SnmpAgent :=
  fold_left (fun a p =>
    fold_left (fun a companion => release (sink_owner s) companion a) (pub_companions p)
      (release (sink_owner s) (pub_oid p) a)) (published s) a.

(** ** An agent and its sinks *)

Inductive WorldEvent :=
| Create (o : Owner)
| Join (o : Owner)
| Write (i : nat) (key : MetricKey) (encoded : list Z)
| Drop (i : nat)
| Stop.

(** A dropped sink stays as [None]. *)
Record World := mk_world { agent : SnmpAgent; sinks : list (option SnmpAgentSink) }.

Definition world_step (w : World) (e : WorldEvent) : option World :=
  match e with
  | Create o => Some (mk_world (agent w) (sinks w ++ [Some (from_agent o)]))
  | Join o => Some (mk_world (agent w) (sinks w ++ [Some (join o)]))
  | Write i key encoded =>
      match sinks w !! i with
      | Some (Some s) =>
          let! (_, s, a) := write_metric_event key encoded s (agent w) in
          Some (mk_world a (<[i := Some s]> (sinks w)))
      | _ => Some w
      end
  | Drop i =>
      match sinks w !! i with
      | Some (Some s) => Some (mk_world (drop_sink s (agent w)) (<[i := None]> (sinks w)))
      | _ => Some w
      end
  | Stop =>
      let a := agent w in
      Some (mk_world (mk_agent (settings a) (agent_usm a) (system a) (table a) (counters a) (last_request a)
                        (too_big_warned a) false) (sinks w))
  end.

Fixpoint world_run (w : World) (es : list WorldEvent) : option World :=
  match es with
  | [] => Some w
  | e :: es => let! w := world_step w e in world_run w es
  end.

(** ** Records *)

(** One SEQUENCE and nothing after it. *)
Definition one_sequence (vb : list Z) : Prop := exists body, expect TSequence vb = (Ok body, []).

Lemma split_varbind_ok input vb rest :
  split_varbind input = Ok (vb, rest) -> input = vb ++ rest /\ one_sequence vb.
Proof.
  unfold split_varbind. destruct (expect TSequence input) as [[body|] r] eqn:E; [|done].
  apply expect_split in E as (h & -> & Hr). intros [= <- <-].
  replace (length (h ++ body ++ r) - length r)%nat with (length (h ++ body))
    by (rewrite !length_app; lia).
  rewrite !(app_assoc h body), take_app_length, drop_app_length. split; [done|].
  exists body. specialize (Hr []). by rewrite app_nil_r in Hr.
Qed.

Lemma one_sequence_oid vb oid :
  one_sequence vb -> instance_oid vb = Ok oid -> varbind_ok oid vb.
Proof.
  intros [body Hb]. unfold instance_oid. rewrite Hb. cbn [fst]. unfold read_oid.
  destruct (expect TOid body) as [[name|] rest] eqn:E; cbn [fst map_err]; [|done].
  destruct (from_ber_body name) as [o|] eqn:Eo; cbn [ok_or map_err]; [|done].
  intros [= <-]. by exists body, name, rest.
Qed.

Lemma companions_collect_ok fuel c :
  Forall (fun x => one_sequence (c_varbind x)) (companions_collect fuel c) /\
  (length (companions_collect fuel c) <= fuel)%nat.
Proof.
  revert c. induction fuel as [|fuel IH]; intros c; cbn [companions_collect]; [done|].
  destruct (companions_next c) as [[x|] c'] eqn:E; [|split; [constructor|simpl; lia]].
  destruct (IH c') as [H1 H2]. split; [|simpl; lia]. constructor; [|done].
  unfold companions_next in E. destruct (c_left c =? 0); [done|].
  destruct (c_rest c) as [|ia rest]; [done|].
  destruct (split_varbind rest) as [[vb rest']|] eqn:Es; [|done]. injection E as <- <-.
  by apply split_varbind_ok in Es as [_ Hs].
Qed.

Lemma split_record_varbind encoded r :
  split_record encoded = Ok r ->
  one_sequence (r_varbind r) /\ nth_error encoded 1 = Some (c_left (r_companions r)).
Proof.
  destruct encoded as [|ia [|count rest]]; [done..|]. cbn [split_record].
  destruct (split_varbind rest) as [[vb comps]|] eqn:Es; cbn [map_err]; [|done].
  destruct (split_companions _ _ _) as [[|]|]; [|done..]. intros [= <-]. cbn.
  by apply split_varbind_ok in Es as [_ Hs].
Qed.

(** The companions yielded, put back together, are the octets they were read
    from. *)
Lemma split_companions_collect n count rest :
  split_companions n count rest = Ok [] ->
  rest = concat (map (fun x => c_index_arcs x :: c_varbind x)
                   (companions_collect n (mk_companions rest (Z.of_nat n)))) /\
  length (companions_collect n (mk_companions rest (Z.of_nat n))) = n.
Proof.
  revert rest. induction n as [|n IH]; intros rest; cbn [split_companions].
  - intros [= ->]. done.
  - destruct rest as [|ia after]; [done|].
    destruct (split_varbind after) as [[vb rest]|] eqn:Es; cbn [map_err]; [|done].
    intros H. apply IH in H as [H1 H2]. pose proof Es as [Ea _]%split_varbind_ok.
    cbn [companions_collect]. unfold companions_next. cbn [c_left c_rest].
    rewrite (proj2 (Z.eqb_neq _ 0)) by lia. rewrite Es.
    replace (Z.of_nat (S n) - 1) with (Z.of_nat n) by lia.
    cbn [map concat length c_index_arcs c_varbind app]. split; [|by rewrite H2].
    rewrite Ea. f_equal. f_equal. exact H1.
Qed.

Lemma frozen_default vb :
  frozen vb default_buffers = Some (vb, mk_buffers [[]; []] 1).
Proof. done. Qed.

(** Both buffers are empty between publishes. *)
Definition buffers_ok (b : PublishBuffers) : Prop :=
  buffers b = [[]; []] /\ (next b < 2)%nat.

Lemma frozen_ok vb b :
  buffers_ok b -> exists b', frozen vb b = Some (vb, b') /\ buffers_ok b'.
Proof.
  destruct b as [bs [|[|n]]]; intros [E Hn]; cbn [buffers next] in *; subst; [..|lia];
    (eexists; split; [reflexivity|]; split; [reflexivity|cbn; lia]).
Qed.

(** ** The ledger

    A tally counts the claims of each launch on each instance. An agent keeps
    the ledger of a tally when it serves exactly the claimed instances, each
    owned by the one launch that claims it, with as many publishers as
    claims. *)

Definition Tally : Type := Owner -> Oid -> nat.

Definition keeps (a : SnmpAgent) (f : Tally) : Prop :=
  agent_ok a /\
  forall oid, match slot_at a oid with
              | Some s => publishers s = Z.of_nat (f (owner s) oid) /\
                          forall o, o <> owner s -> f o oid = 0%nat
              | None => forall o, f o oid = 0%nat
              end.

(** One more claim. *)
Definition one (o : Owner) (oid : Oid) : Tally :=
  fun o' oid' => if decide (o' = o /\ oid' = oid) then 1%nat else 0%nat.

Definition tally_eq (f g : Tally) : Prop := forall o oid, f o oid = g o oid.

Lemma keeps_ext a f g : keeps a f -> tally_eq f g -> keeps a g.
Proof.
  intros [Hok Hk] E. split; [done|]. intros oid. specialize (Hk oid).
  destruct (slot_at a oid) as [s|].
  - destruct Hk as [-> Hk]. rewrite E. split; [done|]. intros o Ho. by rewrite <- E, Hk.
  - intros o. by rewrite <- E.
Qed.

(** Only the slots matter, besides the rest of the invariant. *)
Lemma keeps_slots a a' f :
  keeps a f -> agent_ok a' -> (forall oid, slot_at a' oid = slot_at a oid) -> keeps a' f.
Proof. intros [_ Hk] Hok E. split; [done|]. intros oid. rewrite E. apply Hk. Qed.

Lemma keeps_register a f object : keeps a f -> keeps (register_object object a) f.
Proof.
  intros Hk. apply (keeps_slots a); [done| |].
  - apply register_object_preserves. by destruct Hk.
  - intros oid. apply register_object_slot_at.
Qed.

Lemma keeps_overwrite a f oid vb :
  keeps a f -> varbind_ok oid vb -> keeps (overwrite oid vb a).2 f.
Proof.
  intros [Hok Hk] Hv. split; [by apply overwrite_preserves|]. intros oid'.
  rewrite overwrite_slot_at. specialize (Hk oid'). case_decide; [|done]. subst oid'.
  by destruct (slot_at a oid).
Qed.

Lemma publish_refused o oid vb first a e a' :
  publish o oid vb first a = (Err e, a') -> a' = a.
Proof.
  unfold publish. destruct (om_get _ _ _) as [s|].
  - destruct (negb _); by intros [= _ <-].
  - destruct (arcs_start_with _ _); by intros [= _ <-].
Qed.

(** A publisher's first publish counts one claim. *)
Lemma keeps_publish_first a f g o oid vb a' :
  keeps a f -> varbind_ok oid vb -> Z.of_nat (f o oid) < u64_max ->
  tally_eq g (fun o' oid' => f o' oid' + one o oid o' oid')%nat ->
  publish o oid vb true a = (Ok tt, a') -> keeps a' g.
Proof.
  intros [Hok Hk] Hv Hb Eg Hp.
  assert (Howner : forall s, slot_at a oid = Some s -> owner s = o).
  { intros s Es. unfold publish in Hp. unfold slot_at in Es. rewrite Es in Hp.
    destruct (Z.eqb_spec (owner s) o); [done|]. done. }
  pose proof (publish_preserves o oid vb true a Hok Hv) as Hok'. rewrite Hp in Hok'.
  split.
  { apply Hok'. intros s Es. specialize (Hk oid). rewrite Es in Hk. destruct Hk as [-> _].
    rewrite (Howner s Es). lia. }
  intros k. rewrite (publish_slot_at _ _ _ _ _ _ k Hok Hp). unfold tally_eq, one in Eg.
  specialize (Hk k). case_decide as Hd.
  - subst k. destruct (slot_at a oid) as [s|] eqn:Es; cbn [owner publishers].
    + pose proof (Howner s eq_refl) as <-. destruct Hk as [Hp1 Hk]. split.
      * rewrite Hp1, Eg, decide_True, Z.mod_small by (done || lia). lia.
      * intros o' Ho'. rewrite Eg, decide_False, Hk by (done || by intros [? _]). done.
    + split.
      * rewrite Eg, decide_True, Hk by done. done.
      * intros o' Ho'. rewrite Eg, decide_False, Hk by (by intros [? _]). done.
  - assert (Hgk : forall o', g o' k = f o' k).
    { intros o'. rewrite Eg, decide_False by (by intros [_ ?]). lia. }
    destruct (slot_at a k); [destruct Hk as [H1 H2]; split|]; intros; rewrite Hgk; auto.
Qed.

(** A claimed instance is republished without error and without a claim. *)
Lemma keeps_publish_again a f o oid vb r a' :
  keeps a f -> varbind_ok oid vb -> (0 < f o oid)%nat ->
  publish o oid vb false a = (r, a') -> r = Ok tt /\ keeps a' f.
Proof.
  intros [Hok Hk] Hv Hb Hp. pose proof (Hk oid) as Ho.
  destruct (slot_at a oid) as [s|] eqn:Es; [|rewrite Ho in Hb; lia].
  destruct Ho as [Hpub Ho].
  assert (owner s = o) as Hos by (destruct (decide (o = owner s)) as [|Hne];
    [done|apply Ho in Hne; lia]).
  assert (Hr : r = Ok tt).
  { unfold publish in Hp. unfold slot_at in Es. rewrite Es in Hp.
    rewrite Hos, Z.eqb_refl in Hp. by injection Hp as <- _. }
  subst r. split; [done|].
  pose proof (slot_at_ok a oid s Hok Es) as (Hvs & Hn & Hg). cbn [fst snd] in Hn.
  assert (Hm : (publishers s + 0) mod two64 = publishers s) by (rewrite Z.mod_small; lia).
  split.
  - (* the count does not change, so it stays in range *)
    unfold publish in Hp. unfold slot_at in Es. rewrite Es in Hp.
    rewrite Hos, Z.eqb_refl in Hp. cbn [negb] in Hp. injection Hp as <-.
    pose proof Hok as ((Hs & Hsl & Hob) & Hsys). split; [|done].
    split_and!; [by apply om_alter_sorted| |done].
    apply om_alter_all; [apply _|done|]. intros v _. rewrite Hm.
    split_and!; cbn [fst snd varbind publishers]; first [done|lia].
  - intros k. rewrite (publish_slot_at _ _ _ _ _ _ k Hok Hp), Es, Hm.
    case_decide; [subst k; done|apply Hk].
Qed.

(** Releasing a claim takes it off the tally; the instance leaves with the last
    one. *)
Lemma keeps_release a f g o oid :
  keeps a f -> tally_eq f (fun o' oid' => g o' oid' + one o oid o' oid')%nat ->
  keeps (release o oid a) g.
Proof.
  intros [Hok Hk] Ef. split; [by apply release_preserves|]. intros k.
  rewrite release_slot_at by done. unfold tally_eq, one in Ef. case_decide as Hd.
  - subst k. specialize (Hk oid). pose proof (Ef o oid) as Eo. rewrite decide_True in Eo by done.
    destruct (slot_at a oid) as [s|] eqn:Es; [|rewrite Hk in Eo; lia].
    destruct Hk as [Hp Hk].
    assert (owner s = o) as Hos by (destruct (decide (o = owner s)) as [|Hne];
      [done|apply Hk in Hne; lia]).
    rewrite Hos, Z.eqb_refl in *. rewrite Hp, Eo.
    assert (Hg0 : forall o', o' <> o -> g o' oid = 0%nat).
    { intros o' Ho'. specialize (Hk o' Ho'). rewrite Ef in Hk. lia. }
    destruct (Z.eqb_spec (Z.of_nat (g o oid + 1)) 1) as [E1|E1].
    + intros o'. destruct (decide (o' = o)) as [->|]; [lia|auto].
    + cbn [owner publishers]. split; [lia|done].
  - specialize (Hk k).
    assert (Hgk : forall o', f o' k = g o' k).
    { intros o'. rewrite Ef, decide_False by (by intros [_ ?]). lia. }
    destruct (slot_at a k); [destruct Hk as [H1 H2]; split|]; intros; rewrite <- Hgk; auto.
Qed.

(** ** The claims of a sink *)

Definition pub_claims (p : Publication) : list Oid := pub_oid p :: pub_companions p.

(** Each publication claims its instance and its companions. *)
Definition sink_claims (s : SnmpAgentSink) : list Oid := concat (map pub_claims (published s)).

Definition occurrences (oid : Oid) (l : list Oid) : nat := length (filter (fun x => x = oid) l).

Definition list_tally (o : Owner) (l : list Oid) : Tally :=
  fun o' oid => if decide (o' = o) then occurrences oid l else 0%nat.

Definition sink_tally (s : SnmpAgentSink) : Tally := list_tally (sink_owner s) (sink_claims s).

Lemma occurrences_app oid l1 l2 :
  occurrences oid (l1 ++ l2) = (occurrences oid l1 + occurrences oid l2)%nat.
Proof. unfold occurrences. by rewrite list.filter_app, length_app. Qed.

Lemma occurrences_le oid l : (occurrences oid l <= length l)%nat.
Proof. apply list.length_filter. Qed.

Lemma occurrences_pos oid l : oid ∈ l -> (0 < occurrences oid l)%nat.
Proof.
  intros (l1 & l2 & ->)%list_elem_of_split. rewrite occurrences_app. unfold occurrences at 2.
  rewrite list.filter_cons, decide_True by done. simpl. lia.
Qed.

#[export] Instance occurrences_perm oid : Proper (Permutation ==> eq) (occurrences oid).
Proof. intros l l' Hp. unfold occurrences. by rewrite Hp. Qed.

Lemma list_tally_cons o x l :
  tally_eq (list_tally o (x :: l)) (fun o' oid => list_tally o l o' oid + one o x o' oid)%nat.
Proof.
  intros o' oid. unfold list_tally, one, occurrences. rewrite list.filter_cons.
  destruct (decide (o' = o)) as [->|Hne].
  - destruct (decide (x = oid)) as [->|Hx].
    + rewrite decide_True by done. simpl. lia.
    + rewrite decide_False; [lia|]. by intros [_ ->].
  - rewrite decide_False; [lia|]. by intros [? _].
Qed.

Lemma list_tally_perm o l l' : l ≡ₚ l' -> tally_eq (list_tally o l) (list_tally o l').
Proof.
  intros Hp o' oid. unfold list_tally. case_decide; [|done]. by rewrite Hp.
Qed.

(** Replacing one publication of a sink. *)
Lemma claims_insert ps entry p p' :
  ps !! entry = Some p ->
  exists rest, concat (map pub_claims ps) ≡ₚ pub_claims p ++ rest /\
    concat (map pub_claims (<[entry := p']> ps)) ≡ₚ pub_claims p' ++ rest.
Proof.
  intros Hp. pose proof (take_drop_middle ps entry p Hp) as E.
  exists (concat (map pub_claims (take entry ps)) ++ concat (map pub_claims (drop (S entry) ps))).
  pose proof (lookup_lt_Some _ _ _ Hp) as Hl. split.
  - rewrite <- E at 1. rewrite map_app, concat_app. cbn [map concat].
    by rewrite Permutation_app_swap_app.
  - rewrite insert_take_drop, map_app, concat_app by done. cbn [map concat].
    by rewrite Permutation_app_swap_app.
Qed.

Lemma assoc_Forall {K V} `{EqDecision K} (P : K * V -> Prop) (k : K) (m : list (K * V)) v :
  Forall P m -> assoc k m = Some v -> P (k, v).
Proof.
  induction 1 as [|[k' v'] m Hx Hm IH]; [done|]. cbn [assoc].
  case_decide; [subst; by intros [= ->]|done].
Qed.

Section sink.
(** The encoder's side of the contract: the OID it renders for a series, the
    same in every record of it. *)
Context (render : MetricKey -> Oid).

(** The OID of a publication, by its index. *)
Definition entry_oid (ps : list Publication) (i : nat) : option Oid := pub_oid <$> ps !! i.

(** Every entry a sink looks up is the publication it is meant to be, and its
    buffers are empty. *)
Definition sink_ok (s : SnmpAgentSink) : Prop :=
  Forall (fun e => entry_oid (published s) e.2 = Some (render e.1)) (owned s) /\
  Forall (fun e => entry_oid (published s) e.2 = Some e.1) (instances s) /\
  Forall (fun p => buffers_ok (pub_buffers p)) (published s).

Lemma entry_oid_insert ps entry p p' i :
  ps !! entry = Some p -> pub_oid p' = pub_oid p ->
  entry_oid (<[entry := p']> ps) i = entry_oid ps i.
Proof.
  intros Hp E. unfold entry_oid. destruct (decide (entry = i)) as [->|Hne].
  - rewrite list_lookup_insert_eq, Hp by (by eapply lookup_lt_Some). cbn. by rewrite E.
  - by rewrite list_lookup_insert_ne.
Qed.

Lemma sink_ok_insert s entry p p' :
  sink_ok s -> published s !! entry = Some p -> pub_oid p' = pub_oid p ->
  buffers_ok (pub_buffers p') -> sink_ok (set_published (<[entry := p']> (published s)) s).
Proof.
  intros (H1 & H2 & H3) Hp E Hb. split_and!; cbn [published owned instances set_published].
  - eapply Forall_impl; [|exact H1]. intros e. cbv beta. by rewrite (entry_oid_insert _ _ p).
  - eapply Forall_impl; [|exact H2]. intros e. cbv beta. by rewrite (entry_oid_insert _ _ p).
  - by apply Forall_insert.
Qed.

Lemma sink_ok_delivered s d : sink_ok s -> sink_ok (set_delivered d s).
Proof. done. Qed.

(** What every call on a sink preserves: the other sinks' claims [ext] and this
    one's are kept, at most [n] claims are added. *)
Definition keeps_sink (ext : Tally) (s : SnmpAgentSink) (a : SnmpAgent) : Prop :=
  sink_ok s /\ keeps a (fun o oid => ext o oid + sink_tally s o oid)%nat.

Definition sink_call_ok (ext : Tally) (n : nat) (s : SnmpAgentSink) (r : option Call) : Prop :=
  exists res s' a', r = Some (res, s', a') /\ keeps_sink ext s' a' /\
    sink_owner s' = sink_owner s /\ (length (sink_claims s') <= length (sink_claims s) + n)%nat.

(** The claims a sink may still take before a count would wrap. *)
Definition room (ext : Tally) (s : SnmpAgentSink) (n : nat) : Prop :=
  forall oid, Z.of_nat (ext (sink_owner s) oid + length (sink_claims s) + n) <= u64_max.

Lemma room_first ext s n oid :
  room ext s (S n) ->
  Z.of_nat (ext (sink_owner s) oid + sink_tally s (sink_owner s) oid) < u64_max.
Proof.
  intros Hr. specialize (Hr oid). unfold sink_tally, list_tally.
  rewrite decide_True by done. pose proof (occurrences_le oid (sink_claims s)). lia.
Qed.

Lemma publish_companions_ok ext entry cs s a :
  keeps_sink ext s a -> (entry < length (published s))%nat ->
  Forall (fun c => one_sequence (c_varbind c)) cs -> room ext s (length cs) ->
  sink_call_ok ext (length cs) s (publish_companions entry cs s a).
Proof.
  revert s a. induction cs as [|c cs IH]; intros s a Hk He Hcs Hr.
  { exists (Ok tt), s, a. split_and!; try done. simpl. lia. }
  apply Forall_cons_1 in Hcs as [Hc Hcs]. cbn [publish_companions length].
  assert (Hstop : forall e, sink_call_ok ext (S (length cs)) s (Some (Err e, s, a)))
    by (intros e; exists (Err e), s, a; split_and!; try done; lia).
  destruct (instance_oid (c_varbind c)) as [oid|e] eqn:Eo; [|apply Hstop].
  pose proof (one_sequence_oid _ _ Hc Eo) as Hv.
  destruct (lookup_lt_is_Some_2 (published s) entry He) as [p Ep]. rewrite Ep.
  pose proof Hk as [Hso Hke].
  destruct (bool_decide_reflect (oid ∈ pub_companions p)) as [Hin|Hin]; cbn [negb].
  - destruct (publish _ _ _ _ a) as [r a'] eqn:Epub.
    assert (Hpos : (0 < ext (sink_owner s) oid + sink_tally s (sink_owner s) oid)%nat).
    { unfold sink_tally, list_tally. rewrite decide_True by done.
      enough (Hc' : oid ∈ sink_claims s) by (apply occurrences_pos in Hc'; lia).
      destruct (claims_insert _ _ _ p Ep) as (rest & Hp & _). unfold sink_claims. rewrite Hp.
      apply elem_of_app. left. by right. }
    destruct (keeps_publish_again _ _ _ _ _ _ _ Hke Hv Hpos Epub) as [-> Hke'].
    destruct (IH s a') as (res & s' & a2 & -> & H1 & H2 & H3); [done..| |].
    { intros o. specialize (Hr o). cbn [length] in Hr. lia. }
    exists res, s', a2. split_and!; try done. lia.
  - destruct (sink_object_of oid (c_index_arcs c)) as [object|e]; [|apply Hstop].
    destruct (publish _ _ _ _ a) as [[[]|e] a'] eqn:Epub.
    2: { apply publish_refused in Epub as ->. apply Hstop. }
    set (p' := mk_publication (pub_oid p) (pub_buffers p) (pub_companions p ++ [oid])).
    set (s' := set_published (<[entry := p']> (published s)) s).
    destruct (claims_insert _ _ _ p' Ep) as (rest & Hp & Hp').
    assert (Hperm : sink_claims s' ≡ₚ oid :: sink_claims s).
    { unfold sink_claims, s'. cbn [published set_published]. rewrite Hp', Hp.
      unfold pub_claims, p'. cbn [pub_oid pub_companions]. cbn [app].
      rewrite <- app_assoc. cbn [app]. rewrite <- Permutation_middle. apply perm_swap. }
    assert (Hlen : length (sink_claims s') = S (length (sink_claims s)))
      by (by rewrite Hperm).
    destruct (IH s' (register_object object a')) as (res & s2 & a2 & -> & H1 & H2 & H3).
    + split.
      * apply (sink_ok_insert s entry p); try done. destruct Hso as (_ & _ & Hb).
        exact (Forall_lookup_1 _ _ _ _ Hb Ep).
      * apply keeps_register.
        eapply keeps_publish_first; [exact Hke|exact Hv|by eapply room_first| |exact Epub].
        intros o oid'. unfold sink_tally. cbn [sink_owner s' set_published].
        rewrite (list_tally_perm _ _ _ Hperm), list_tally_cons. lia.
    + cbn [published s' set_published]. by rewrite length_insert.
    + done.
    + intros o. specialize (Hr o). cbn [sink_owner s' set_published length] in *.
      rewrite Hlen. lia.
    + exists res, s2, a2. split_and!; try done. rewrite Hlen in H3. lia.
Qed.

Lemma overwrite_companions_ok ext cs s a :
  keeps_sink ext s a -> Forall (fun c => one_sequence (c_varbind c)) cs ->
  sink_call_ok ext 0 s (Some (overwrite_companions cs s a)).
Proof.
  revert a. induction cs as [|c cs IH]; intros a Hk Hcs; cbn [overwrite_companions].
  { exists (Ok tt), s, a. split_and!; try done. lia. }
  apply Forall_cons_1 in Hcs as [Hc Hcs].
  destruct (instance_oid (c_varbind c)) as [oid|e] eqn:Eo.
  - apply IH; [|done]. destruct Hk as [Hso Hk]. split; [done|].
    apply keeps_overwrite; [done|by apply one_sequence_oid].
  - exists (Err (NotARecord e)), s, a. split_and!; try done. lia.
Qed.

(** Publishing again for an entry the sink holds. *)
Lemma republish_ok ext entry oid vb cs s a :
  keeps_sink ext s a -> entry_oid (published s) entry = Some oid -> varbind_ok oid vb ->
  room ext s (Z.to_nat (c_left cs)) ->
  sink_call_ok ext (Z.to_nat (c_left cs)) s (republish entry vb cs s a).
Proof.
  intros Hk He Hvb Hr. unfold republish. unfold entry_oid in He.
  destruct (published s !! entry) as [p|] eqn:Ep; [|done]. injection He as <-.
  pose proof Hk as [Hso Hke]. pose proof Hso as (Ho1 & Ho2 & Hb).
  destruct (frozen_ok vb (pub_buffers p)) as (b & -> & Hb').
  { exact (Forall_lookup_1 _ _ _ _ Hb Ep). }
  set (p' := mk_publication (pub_oid p) b (pub_companions p)).
  set (s' := set_published (<[entry := p']> (published s)) s).
  destruct (claims_insert _ _ _ p' Ep) as (rest & Hp & Hp').
  assert (Hperm : sink_claims s' ≡ₚ sink_claims s).
  { unfold sink_claims, s'. cbn [published set_published]. by rewrite Hp', Hp. }
  assert (Hlen : length (sink_claims s') = length (sink_claims s)) by (by rewrite Hperm).
  assert (Hso' : sink_ok s').
  { by apply (sink_ok_insert s entry p). }
  assert (Hke' : keeps a (fun o oid => ext o oid + sink_tally s' o oid)%nat).
  { eapply keeps_ext; [exact Hke|]. intros o oid. unfold sink_tally.
    cbn [sink_owner s' set_published]. by rewrite (list_tally_perm _ _ _ Hperm). }
  assert (Hpos : (0 < ext (sink_owner s) (pub_oid p) + sink_tally s' (sink_owner s) (pub_oid p))%nat).
  { unfold sink_tally, list_tally. cbn [sink_owner s' set_published]. rewrite decide_True by done.
    enough (Hc : pub_oid p ∈ sink_claims s') by (apply occurrences_pos in Hc; lia).
    rewrite Hperm. unfold sink_claims. rewrite Hp. by left. }
  cbn [sink_owner s' set_published pub_oid p'].
  destruct (publish (sink_owner s) (pub_oid p) vb false a) as [r a'] eqn:Epub.
  destruct (keeps_publish_again _ _ _ _ _ _ _ Hke' Hvb Hpos Epub) as [-> Hk2].
  destruct (Z.ltb_spec 0 (c_left cs)).
  - destruct (companions_collect_ok (Z.to_nat (c_left cs)) cs) as [Hf Hl].
    destruct (publish_companions_ok ext entry (companions_list cs) (set_delivered true s') a')
      as (res & s2 & a2 & -> & H1 & H2 & H3); try done.
    + cbn [published s' set_published set_delivered]. rewrite length_insert.
      by eapply lookup_lt_Some.
    + intros o. specialize (Hr o). unfold companions_list.
      change (sink_claims (set_delivered true s')) with (sink_claims s').
      cbn [sink_owner s' set_published set_delivered]. lia.
    + exists res, s2, a2. split_and!; try done. unfold companions_list in *.
      change (sink_claims (set_delivered true s')) with (sink_claims s') in H3. lia.
  - exists (Ok tt), (set_delivered true s'), a'. split_and!; try done.
    change (sink_claims (set_delivered true s')) with (sink_claims s'). lia.
Qed.

(** A record of the series [key], as the encoder makes it. *)
Definition rendered (key : MetricKey) (encoded : list Z) : Prop :=
  Forall is_u8 encoded /\
  forall record, split_record encoded = Ok record -> instance_oid (r_varbind record) = Ok (render key).

Lemma rendered_left key encoded record :
  rendered key encoded -> split_record encoded = Ok record ->
  (Z.to_nat (c_left (r_companions record)) <= 255)%nat /\
  varbind_ok (render key) (r_varbind record).
Proof.
  intros [Hu Hr] Hs. pose proof (split_record_varbind _ _ Hs) as [H1 H2]. split.
  - assert (Hb : is_u8 (c_left (r_companions record))).
    { apply nth_error_In, list_elem_of_In in H2. by rewrite list.Forall_forall in Hu; apply Hu. }
    unfold is_u8 in Hb. lia.
  - apply one_sequence_oid; [done|]. by apply Hr.
Qed.

Lemma room_le ext s n m : (m <= n)%nat -> room ext s n -> room ext s m.
Proof. intros Hm Hr oid. specialize (Hr oid). lia. Qed.

Lemma sink_call_le ext s n m r : (m <= n)%nat -> sink_call_ok ext m s r -> sink_call_ok ext n s r.
Proof.
  intros Hm (res & s' & a' & -> & H1 & H2 & H3). exists res, s', a'. split_and!; try done. lia.
Qed.

(** A first publish that succeeds, and the companions published with it. *)
Lemma first_publish_ok ext key object vb cs j s a a' :
  let oid := render key in
  let s1 := mk_sink (sink_owner s) ((key, length (published s)) :: owned s)
              (published s ++ [mk_publication oid (mk_buffers [[]; []] 1) []])
              ((oid, length (published s)) :: instances s) true j in
  keeps_sink ext s a -> varbind_ok oid vb -> room ext s (S (Z.to_nat (c_left cs))) ->
  publish (sink_owner s) oid vb true a = (Ok tt, a') ->
  sink_call_ok ext (S (Z.to_nat (c_left cs))) s
    (publish_companions (length (published s)) (companions_list cs) s1 (register_object object a')).
Proof.
  intros oid s1 [Hso Hk] Hv Hr Hp. pose proof Hso as (H1 & H2 & H3).
  assert (Hcl : sink_claims s1 = sink_claims s ++ [oid]).
  { unfold sink_claims, s1. cbn [published]. by rewrite map_app, concat_app. }
  assert (Hlen : length (sink_claims s1) = S (length (sink_claims s)))
    by (rewrite Hcl, length_app; simpl; lia).
  assert (Happ : forall i o, entry_oid (published s) i = Some o ->
    entry_oid (published s1) i = Some o).
  { intros i o Hi. unfold entry_oid, s1 in *. cbn [published].
    destruct (published s !! i) as [p|] eqn:E; [|done].
    by rewrite (lookup_app_l_Some _ _ _ _ E). }
  assert (Hnew : entry_oid (published s1) (length (published s)) = Some oid).
  { unfold entry_oid, s1. cbn [published]. by rewrite list_lookup_middle. }
  destruct (companions_collect_ok (Z.to_nat (c_left cs)) cs) as [Hf Hl].
  destruct (publish_companions_ok ext (length (published s)) (companions_list cs) s1
              (register_object object a')) as (res & s2 & a2 & -> & G1 & G2 & G3); try done.
  - split.
    + split_and!; cbn [owned instances s1].
      * constructor; [done|]. eapply Forall_impl; [|exact H1]. intros e. apply Happ.
      * constructor; [done|]. eapply Forall_impl; [|exact H2]. intros e. apply Happ.
      * cbn [published]. apply Forall_app. split; [done|]. repeat constructor.
    + apply keeps_register.
      eapply keeps_publish_first; [exact Hk|exact Hv|by eapply room_first| |exact Hp].
      intros o oid'. unfold sink_tally. cbn [sink_owner s1]. fold s1. rewrite Hcl.
      rewrite (list_tally_perm _ _ (oid :: sink_claims s)) by (by rewrite Permutation_app_comm).
      rewrite list_tally_cons. lia.
  - cbn [published s1]. rewrite length_app. simpl. lia.
  - intros o. specialize (Hr o). unfold companions_list. rewrite Hlen.
    cbn [sink_owner s1]. lia.
  - exists res, s2, a2. split_and!; try done. unfold companions_list in *. lia.
Qed.

Lemma write_ok ext key encoded s a :
  keeps_sink ext s a -> rendered key encoded -> room ext s 256 ->
  sink_call_ok ext 256 s (write_metric_event key encoded s a).
Proof.
  intros Hk Hren Hr. unfold write_metric_event. cbv zeta.
  assert (Hk0 : keeps_sink ext (set_delivered false s) a) by done.
  set (s0 := set_delivered false s) in *.
  assert (Hstop : forall e, sink_call_ok ext 256 s (Some (Err e, s0, a)))
    by (intros e; exists (Err e), s0, a; split_and!; try done; unfold sink_claims; simpl; lia).
  assert (Hlift : forall m r, (m <= 256)%nat -> sink_call_ok ext m s0 r -> sink_call_ok ext 256 s r).
  { intros m r Hm H. by apply (sink_call_le ext s0 256 m). }
  destruct (negb (serving a)); [apply Hstop|].
  destruct (split_record encoded) as [record|e] eqn:Es; [|apply Hstop].
  destruct (rendered_left _ _ _ Hren Es) as [Hleft Hv].
  rewrite (proj2 Hren record Es).
  assert (Hroom : room ext s0 (Z.to_nat (c_left (r_companions record))))
    by (eapply room_le; [|exact Hr]; lia).
  pose proof Hk0 as [(Ho & Hi & Hb) Hke].
  destruct (joined s0).
  - destruct (overwrite (render key) (r_varbind record) a) as [served a'] eqn:Eo.
    pose proof (keeps_overwrite a _ _ _ Hke Hv) as Hke'. rewrite Eo in Hke'.
    destruct served.
    + apply (Hlift 0%nat); [lia|]. apply (overwrite_companions_ok ext _ (set_delivered true s0)).
      * split; [done|exact Hke'].
      * apply companions_collect_ok.
    + exists (Err (NoScenarioServes (render key))), s0, a'. split_and!; try done.
      unfold sink_claims. simpl. lia.
  - destruct (assoc key (owned s0)) as [entry|] eqn:Ek.
    + apply (Hlift (Z.to_nat (c_left (r_companions record)))); [lia|].
      eapply republish_ok; try done. exact (assoc_Forall _ _ _ _ Ho Ek).
    + destruct (assoc (render key) (instances s0)) as [entry|] eqn:Ei.
      * pose proof (assoc_Forall _ _ _ _ Hi Ei) as He. cbn [fst snd] in He.
        set (s1 := mk_sink _ _ _ _ _ _).
        apply (Hlift (Z.to_nat (c_left (r_companions record)))); [lia|].
        apply (republish_ok ext entry (render key) _ _ s1); try done.
        split; [|done]. split_and!; try done. by constructor.
      * destruct (sink_object_of _ _) as [object|e]; [|apply Hstop].
        rewrite frozen_default.
        destruct (publish (sink_owner s0) (render key) (r_varbind record) true a) as [[[]|e] a']
          eqn:Ep; [|apply publish_refused in Ep as ->; apply Hstop].
        apply (Hlift (S (Z.to_nat (c_left (r_companions record))))); [lia|].
        apply (first_publish_ok ext key object (r_varbind record) (r_companions record) false s0 a a');
          try done. eapply room_le; [|exact Hr]. lia.
Qed.

(** A dropped sink takes back exactly its claims. *)
Lemma keeps_release_all ext o l a :
  keeps a (fun o' oid => ext o' oid + list_tally o l o' oid)%nat ->
  keeps (fold_left (fun a oid => release o oid a) l a) ext.
Proof.
  revert a. induction l as [|x l IH]; intros a Hk; cbn [fold_left].
  - eapply keeps_ext; [exact Hk|]. intros o' oid. unfold list_tally, occurrences. simpl.
    case_decide; lia.
  - apply IH. eapply keeps_release; [exact Hk|]. intros o' oid. rewrite list_tally_cons.
    cbv beta. lia.
Qed.

Lemma drop_sink_claims s a :
  drop_sink s a = fold_left (fun a oid => release (sink_owner s) oid a) (sink_claims s) a.
Proof.
  unfold drop_sink, sink_claims. revert a. induction (published s) as [|p ps IH]; intros a; [done|].
  cbn [map concat fold_left]. rewrite IH, fold_left_app. done.
Qed.

Lemma drop_ok ext s a : keeps_sink ext s a -> keeps (drop_sink s a) ext.
Proof. intros [_ Hk]. rewrite drop_sink_claims. by apply keeps_release_all. Qed.
End sink.

(** ** The world *)

(** The claims of the live sinks. *)
Definition slot_tally (os : option SnmpAgentSink) : Tally :=
  match os with Some s => sink_tally s | None => fun _ _ => 0%nat end.

Definition world_tally (ss : list (option SnmpAgentSink)) : Tally :=
  fun o oid => sum_list_with (fun os => slot_tally os o oid) ss.

(** How many claims the live sinks have, in all. *)
Definition world_claims (ss : list (option SnmpAgentSink)) : nat :=
  sum_list_with (fun os => match os with Some s => length (sink_claims s) | None => 0%nat end) ss.

Section world.
Context (render : MetricKey -> Oid).

Definition world_ok (w : World) : Prop :=
  keeps (agent w) (world_tally (sinks w)) /\
  Forall (fun os => match os with Some s => sink_ok render s | None => True end) (sinks w).

(** The events of a run: a record of a series is one the encoder renders. *)
Definition event_ok (e : WorldEvent) : Prop :=
  match e with Write _ key encoded => rendered render key encoded | _ => True end.

Lemma sum_list_with_insert {A} (f : A -> nat) l i x y :
  l !! i = Some x ->
  exists rest, sum_list_with f l = (rest + f x)%nat /\
    sum_list_with f (<[i := y]> l) = (rest + f y)%nat.
Proof.
  intros Hx. exists (sum_list_with f (take i l) + sum_list_with f (drop (S i) l))%nat.
  pose proof (lookup_lt_Some _ _ _ Hx) as Hl. split.
  - rewrite <- (take_drop_middle l i x Hx) at 1. rewrite sum_list_with_app. simpl. lia.
  - rewrite insert_take_drop, sum_list_with_app by done. simpl. lia.
Qed.

(** The tally of one sink beside the others'. *)
Definition others (ss : list (option SnmpAgentSink)) (i : nat) : Tally :=
  world_tally (<[i := None]> ss).

Lemma world_tally_split ss i s s' :
  ss !! i = Some (Some s) ->
  tally_eq (world_tally ss) (fun o oid => others ss i o oid + sink_tally s o oid)%nat /\
  tally_eq (world_tally (<[i := Some s']> ss))
    (fun o oid => others ss i o oid + sink_tally s' o oid)%nat.
Proof.
  intros Hs. split; intros o oid; unfold world_tally, others, world_tally.
  - destruct (sum_list_with_insert (fun os => slot_tally os o oid) ss i _ None Hs) as (r & -> & ->).
    simpl. lia.
  - destruct (sum_list_with_insert (fun os => slot_tally os o oid) ss i _ (Some s') Hs)
      as (r & E & ->).
    destruct (sum_list_with_insert (fun os => slot_tally os o oid) ss i _ None Hs) as (r' & E' & ->).
    simpl in *. lia.
Qed.

Lemma world_claims_insert ss i s os n :
  ss !! i = Some (Some s) ->
  (match os with Some s' => length (sink_claims s') | None => 0%nat end
   <= length (sink_claims s) + n)%nat ->
  (world_claims (<[i := os]> ss) <= world_claims ss + n)%nat.
Proof.
  intros Hs Hn. unfold world_claims.
  destruct (sum_list_with_insert (fun os => match os with
    Some s => length (sink_claims s) | None => 0%nat end) ss i _ os Hs) as (r & -> & ->). lia.
Qed.

(** No count exceeds the number of claims. *)
Lemma tally_bound ss i s oid :
  ss !! i = Some (Some s) ->
  (others ss i (sink_owner s) oid + length (sink_claims s) <= world_claims ss)%nat.
Proof.
  intros Hs. unfold others, world_tally, world_claims.
  destruct (sum_list_with_insert (fun os => match os with
    Some s => length (sink_claims s) | None => 0%nat end) ss i _ None Hs) as (r & -> & E).
  enough (sum_list_with (fun os => slot_tally os (sink_owner s) oid) (<[i:=None]> ss) <= r)%nat by lia.
  rewrite Nat.add_0_r in E. rewrite <- E. clear E. generalize (<[i := None]> ss) as l.
  induction l as [|[s'|] l IH]; simpl; [lia| |done].
  unfold sink_tally, list_tally. pose proof (occurrences_le oid (sink_claims s')). case_decide; lia.
Qed.

Lemma world_step_ok w e :
  world_ok w -> event_ok e -> Z.of_nat (world_claims (sinks w) + 256) <= u64_max ->
  exists w', world_step w e = Some w' /\ world_ok w' /\
    (world_claims (sinks w') <= world_claims (sinks w) + 256)%nat.
Proof.
  intros [Hk Hs] He Hb.
  assert (Hadd : forall s, sink_ok render s -> sink_claims s = [] ->
    world_ok (mk_world (agent w) (sinks w ++ [Some s])) /\
    (world_claims (sinks w ++ [Some s]) <= world_claims (sinks w) + 256)%nat).
  { intros s Hso Hc. split; [split|].
    - eapply keeps_ext; [exact Hk|]. intros o oid. unfold world_tally. cbn [sinks].
      rewrite sum_list_with_app. simpl. unfold sink_tally, list_tally. rewrite Hc. simpl.
      case_decide; unfold occurrences; simpl; lia.
    - cbn [sinks]. apply Forall_app. split; [done|]. constructor; [done|constructor].
    - unfold world_claims. rewrite sum_list_with_app. simpl. rewrite Hc. simpl. lia. }
  destruct e as [o|o|i key encoded|i|]; cbn [world_step].
  - eexists. split; [reflexivity|]. apply Hadd; [split_and!; constructor|done].
  - eexists. split; [reflexivity|]. apply Hadd; [split_and!; constructor|done].
  - destruct (sinks w !! i) as [[s|]|] eqn:Ei; [|eexists; split; [reflexivity|]; split; [done|lia]..].
    destruct (world_tally_split _ _ s s Ei) as [Et _].
    destruct (write_ok render (others (sinks w) i) key encoded s (agent w))
      as (res & s' & a' & -> & [Hso' Hk'] & Ho & Hn); [|exact He| |].
    + split; [exact (Forall_lookup_1 _ _ _ _ Hs Ei)|]. eapply keeps_ext; [exact Hk|exact Et].
    + intros oid. pose proof (tally_bound _ _ _ oid Ei). lia.
    + eexists. split; [reflexivity|]. split; [split|].
      * eapply keeps_ext; [exact Hk'|]. intros o oid. symmetry.
        by apply (world_tally_split _ _ s s' Ei).
      * by apply Forall_insert.
      * by apply (world_claims_insert _ _ s).
  - destruct (sinks w !! i) as [[s|]|] eqn:Ei; [|eexists; split; [reflexivity|]; split; [done|lia]..].
    destruct (world_tally_split _ _ s s Ei) as [Et _].
    eexists. split; [reflexivity|]. split; [split|].
    + apply (drop_ok render). split; [exact (Forall_lookup_1 _ _ _ _ Hs Ei)|].
      eapply keeps_ext; [exact Hk|exact Et].
    + by apply Forall_insert.
    + apply (world_claims_insert _ _ s); [done|lia].
  - eexists. split; [reflexivity|]. split; [split; [|done]|cbn [sinks]; lia].
    cbn [agent sinks]. eapply keeps_slots; [exact Hk| |done]. by destruct Hk as [Hok _].
Qed.

Lemma world_run_ok w es :
  world_ok w -> Forall event_ok es ->
  Z.of_nat (world_claims (sinks w) + 256 * length es) <= u64_max ->
  exists w', world_run w es = Some w' /\ world_ok w'.
Proof.
  revert w. induction es as [|e es IH]; intros w Hw Hes Hb; cbn [world_run]; [by eauto|].
  apply Forall_cons_1 in Hes as [He Hes]. cbn [length] in Hb.
  destruct (world_step_ok w e Hw He) as (w' & -> & Hw' & Hc); [lia|].
  apply IH; [done..|lia].
Qed.
End world.

(** C5: the table is the ledger of its sinks' claims. In every run of sinks
    created, joined, written to with records the encoder renders, and dropped,
    in any order, nothing panics, and at the end an instance is served exactly
    when a live sink claims it (as the instance of a series, or as the label
    column published with one): it is owned by the only launch that claims it,
    and its publishers are that launch's claims on it. *)
Theorem table_is_ledger render u s a es :
  settings_ok s -> bind u s = Some a -> Forall (event_ok render) es ->
  256 * Z.of_nat (length es) <= u64_max ->
  exists w, world_run (mk_world a []) es = Some w /\ agent_ok (agent w) /\
    forall oid, match slot_at (agent w) oid with
                | Some slot =>
                    1 <= publishers slot /\
                    publishers slot = Z.of_nat (world_tally (sinks w) (owner slot) oid) /\
                    forall o, o <> owner slot -> world_tally (sinks w) o oid = 0%nat
                | None => forall o, world_tally (sinks w) o oid = 0%nat
                end.
Proof.
  intros Hs Ha Hes Hb. destruct (bind_agent_ok u s Hs) as (a' & Ha' & Hok & Hsl & _).
  rewrite Ha' in Ha. injection Ha as ->.
  destruct (world_run_ok render (mk_world a []) es) as (w & Hw & [Hok' Hk] & _).
  - split; [|constructor]. split; [done|]. intros oid. unfold slot_at. cbn [agent]. by rewrite Hsl.
  - done.
  - cbn [sinks]. simpl. lia.
  - exists w. split_and!; [done..|]. intros oid. specialize (Hk oid).
    destruct (slot_at (agent w) oid) as [slot|] eqn:E; [|done].
    pose proof (slot_at_ok _ _ _ Hok' E) as (_ & Hn & _). split; [|done]. cbn in Hn. lia.
Qed.

(** Once every sink is dropped, the table holds no instance. *)
Lemma no_sinks_no_slots render w :
  world_ok render w -> Forall (fun os => os = None) (sinks w) -> slots (table (agent w)) = [].
Proof.
  intros [[((Hs & Hsl & _) & _) Hk] _] Hn.
  destruct (slots (table (agent w))) as [|[oid slot] m] eqn:E; [done|].
  specialize (Hk oid). unfold slot_at in Hk. rewrite E in Hk. cbn [om_get] in Hk.
  rewrite (cmp_refl oid_cmp) in Hk. destruct Hk as [Hp _].
  apply Forall_cons_1 in Hsl as [(_ & Hpub & _) _]. cbn [snd] in Hpub.
  rewrite Hp in Hpub. assert (H0 : world_tally (sinks w) (owner slot) oid = 0%nat); [|lia].
  unfold world_tally. clear -Hn. induction Hn as [|os l -> Hn IH]; [done|]. by simpl.
Qed.

(** ** Launches do not reach each other's instances *)

Abbreviation ordered a := (om_sorted oid_cmp (slots (table a))).

(** From one agent to the next the order is kept, and every slot of another
    launch is as it was. *)
Definition spares (o : Owner) (a a' : SnmpAgent) : Prop :=
  ordered a ->
  ordered a' /\
  forall oid slot, slot_at a oid = Some slot -> owner slot <> o -> slot_at a' oid = Some slot.

#[local] Instance spares_refl o : Reflexive (spares o).
Proof. intros a Ha. done. Qed.

#[local] Instance spares_trans o : Transitive (spares o).
Proof.
  intros a b c H1 H2 Ha. destruct (H1 Ha) as [Hb K1]. destruct (H2 Hb) as [Hc K2].
  split; [done|]. intros oid slot Hs Ho. apply K2; [by apply K1|done].
Qed.

Lemma publish_spares o oid vb first a r a' :
  publish o oid vb first a = (r, a') -> spares o a a'.
Proof.
  intros Hp Ha. unfold publish in Hp.
  destruct (om_get oid_cmp oid (slots (table a))) as [s|] eqn:E.
  - destruct (Z.eqb_spec (owner s) o) as [Eo|]; cbn [negb] in Hp; injection Hp as <- <-; [|done].
    split; [by apply om_alter_sorted|]. intros k slot Hk Ho. unfold slot_at in *.
    cbn [set_table table slots]. destruct (decide (k = oid)) as [->|Hne].
    + rewrite E in Hk. by injection Hk as ->.
    + by rewrite (om_get_alter_ne oid_cmp).
  - destruct (arcs_start_with _ _); injection Hp as <- <-; [done|].
    split; [by apply (om_insert_sorted oid_cmp)|]. intros k slot Hk Ho. unfold slot_at in *.
    cbn [set_table table slots]. destruct (decide (k = oid)) as [->|Hne].
    + by rewrite E in Hk.
    + by rewrite (om_get_insert_ne oid_cmp).
Qed.

Lemma register_object_spares o object a : spares o a (register_object object a).
Proof. unfold register_object. by case_bool_decide. Qed.

Lemma release_spares o oid a : spares o a (release o oid a).
Proof.
  intros Ha. unfold release.
  destruct (om_get oid_cmp oid (slots (table a))) as [s|] eqn:E; [|done].
  destruct (Z.eqb_spec (owner s) o) as [Eo|]; cbn [negb]; [|done].
  set (m := om_alter oid_cmp _ oid (slots (table a))).
  assert (Hm : om_sorted oid_cmp m) by (by apply om_alter_sorted).
  assert (Hk : forall k slot, slot_at a k = Some slot -> owner slot <> o ->
    k <> oid /\ om_get oid_cmp k m = Some slot).
  { intros k slot Hk Ho. unfold slot_at in Hk. destruct (decide (k = oid)) as [->|Hne].
    - rewrite E in Hk. by injection Hk as ->.
    - split; [done|]. unfold m. by rewrite (om_get_alter_ne oid_cmp). }
  destruct (sat_sub (publishers s) 1 =? 0); (split; cbn [set_table table slots]).
  - by apply (om_remove_sorted oid_cmp).
  - intros k slot Hs Ho. destruct (Hk k slot Hs Ho). unfold slot_at. cbn [set_table table slots].
    by rewrite (om_get_remove_ne oid_cmp).
  - done.
  - intros k slot Hs Ho. by apply Hk.
Qed.

Lemma publish_companions_spares entry cs s a res s' a' :
  publish_companions entry cs s a = Some (res, s', a') -> spares (sink_owner s) a a'.
Proof.
  revert s a. induction cs as [|c cs IH]; intros s a; cbn [publish_companions];
    [by intros [= _ _ <-]|].
  destruct (instance_oid _) as [oid|]; [|by intros [= _ _ <-]].
  destruct (published s !! entry) as [p|]; [|done].
  destruct (if negb _ then _ else _) as [object|]; [|by intros [= _ _ <-]].
  destruct (publish _ _ _ _ a) as [[[]|e] a1] eqn:Ep; apply publish_spares in Ep.
  - destruct object as [object|]; intros Hr; apply IH in Hr; cbn [sink_owner set_published] in Hr.
    + etransitivity; [exact Ep|]. etransitivity; [apply register_object_spares|exact Hr].
    + by etransitivity.
  - by intros [= _ _ <-].
Qed.

Lemma republish_spares entry vb cs s a res s' a' :
  republish entry vb cs s a = Some (res, s', a') -> spares (sink_owner s) a a'.
Proof.
  unfold republish. destruct (published s !! entry) as [p|]; [|done].
  destruct (frozen vb (pub_buffers p)) as [[stored b]|]; [|done].
  destruct (publish _ _ _ _ a) as [[[]|e] a1] eqn:Ep; apply publish_spares in Ep.
  - destruct (0 <? c_left cs); [|by intros [= _ _ <-]].
    intros Hr. apply publish_companions_spares in Hr. by etransitivity.
  - by intros [= _ _ <-].
Qed.

Lemma write_spares key encoded s a res s' a' :
  joined s = false -> write_metric_event key encoded s a = Some (res, s', a') ->
  spares (sink_owner s) a a'.
Proof.
  intros Hj. unfold write_metric_event. cbv zeta. cbn [set_delivered joined]. rewrite Hj.
  destruct (negb (serving a)); [by intros [= _ _ <-]|].
  destruct (split_record encoded) as [record|]; [|by intros [= _ _ <-]].
  destruct (assoc key _); [intros Hr; by apply republish_spares in Hr|].
  destruct (instance_oid _) as [oid|]; [|by intros [= _ _ <-]].
  destruct (assoc oid _); [intros Hr; by apply republish_spares in Hr|].
  destruct (sink_object_of _ _) as [object|]; [|by intros [= _ _ <-]].
  rewrite frozen_default.
  destruct (publish _ _ _ _ a) as [[[]|e] a1] eqn:Ep; apply publish_spares in Ep;
    [|by intros [= _ _ <-]].
  intros Hr. apply publish_companions_spares in Hr. cbn [sink_owner] in Hr.
  etransitivity; [exact Ep|]. etransitivity; [apply register_object_spares|exact Hr].
Qed.

Lemma drop_sink_spares s a : spares (sink_owner s) a (drop_sink s a).
Proof.
  rewrite drop_sink_claims. revert a. induction (sink_claims s) as [|x l IH]; intros a;
    cbn [fold_left]; [done|]. etransitivity; [apply release_spares|apply IH].
Qed.

(** ** Launches among each other *)

(** The sink an event is a call on. *)
Definition acting (w : World) (e : WorldEvent) : option SnmpAgentSink :=
  match e with
  | Write i _ _ | Drop i => match sinks w !! i with Some s => s | None => None end
  | _ => None
  end.

(** [P] at every event of a run. *)
Fixpoint along (P : World -> WorldEvent -> Prop) (w : World) (es : list WorldEvent) : Prop :=
  match es with
  | [] => True
  | e :: es =>
      P w e /\ match world_step w e with Some w' => along P w' es | None => True end
  end.

(** A call on a publishing sink of the launch [o]. *)
Definition of_launch (o : Owner) (w : World) (e : WorldEvent) : Prop :=
  exists s, acting w e = Some s /\ joined s = false /\ sink_owner s = o.

(** A call on a sink that joined to overwrite. *)
Definition by_joined (w : World) (e : WorldEvent) : Prop :=
  exists s, acting w e = Some s /\ joined s = true.

(** A joined sink publishes nothing of its own. *)
Definition sink_idle (s : SnmpAgentSink) : Prop := joined s = true -> published s = [].

Definition joined_idle (w : World) : Prop :=
  Forall (fun os => match os with Some s => sink_idle s | None => True end) (sinks w).

(** The instance is served, by its owner and with its publishers; what it is
    read as may be another varbind of its name. *)
Definition kept (oid : Oid) (slot : Slot) (a : SnmpAgent) : Prop :=
  exists vb, slot_at a oid = Some (mk_slot vb (owner slot) (publishers slot)) /\
    (vb = varbind slot \/ instance_oid vb = Ok oid).

Lemma kept_spares o oid slot a a' :
  spares o a a' -> ordered a -> owner slot <> o -> kept oid slot a -> kept oid slot a'.
Proof.
  intros Hs Ha Ho (vb & Hk & Hv). destruct (Hs Ha) as [_ H]. exists vb. split; [|done]. by apply H.
Qed.

Lemma overwrite_kept oid slot name vb a :
  instance_oid vb = Ok name -> kept oid slot a -> kept oid slot (overwrite name vb a).2.
Proof.
  intros Hn (vb0 & Hk & Hv). unfold kept. rewrite overwrite_slot_at. case_decide as Heq.
  - subst name. rewrite Hk. exists vb. split; [done|by right].
  - by exists vb0.
Qed.

Lemma overwrite_ordered name vb a : ordered a -> ordered (overwrite name vb a).2.
Proof.
  unfold overwrite. intros Ha. destruct (om_get _ _ _); [|done]. by apply om_alter_sorted.
Qed.

Lemma overwrite_companions_kept oid slot cs s a res s' a' :
  overwrite_companions cs s a = (res, s', a') -> ordered a -> kept oid slot a ->
  s' = s /\ ordered a' /\ kept oid slot a'.
Proof.
  revert a. induction cs as [|c cs IH]; intros a; cbn [overwrite_companions]; [by intros [= _ <- <-]|].
  destruct (instance_oid (c_varbind c)) as [name|] eqn:En; [|by intros [= _ <- <-]].
  intros Hr Ha Hk. apply (IH _ Hr); [by apply overwrite_ordered|by apply overwrite_kept].
Qed.

Lemma joined_write oid slot key encoded s a res s' a' :
  joined s = true -> write_metric_event key encoded s a = Some (res, s', a') ->
  ordered a -> kept oid slot a ->
  joined s' = true /\ published s' = published s /\ ordered a' /\ kept oid slot a'.
Proof.
  intros Hj. unfold write_metric_event. cbv zeta. cbn [set_delivered joined]. rewrite Hj.
  destruct (negb (serving a)); [by intros [= _ <- <-]|].
  destruct (split_record encoded) as [record|]; [|by intros [= _ <- <-]].
  destruct (instance_oid _) as [name|] eqn:En; [|by intros [= _ <- <-]].
  intros Hr Ha Hk. pose proof (overwrite_kept oid slot _ _ a En Hk) as Hk'.
  pose proof (overwrite_ordered name (r_varbind record) a Ha) as Ha'.
  destruct (overwrite name (r_varbind record) a) as [[] a1]; cbn [snd] in Hk', Ha'.
  - injection Hr as Hr. destruct (overwrite_companions_kept oid slot _ _ _ _ _ _ Hr Ha' Hk') as (-> & H1 & H2).
    done.
  - by injection Hr as _ <- <-.
Qed.

Lemma publish_companions_joined entry cs s a res s' a' :
  publish_companions entry cs s a = Some (res, s', a') -> joined s' = joined s.
Proof.
  revert s a. induction cs as [|c cs IH]; intros s a; cbn [publish_companions]; [by intros [= _ <- _]|].
  destruct (instance_oid _) as [oid|]; [|by intros [= _ <- _]].
  destruct (published s !! entry) as [p|]; [|done].
  destruct (if negb _ then _ else _) as [object|]; [|by intros [= _ <- _]].
  destruct (publish _ _ _ _ a) as [[[]|e] a1]; [|by intros [= _ <- _]].
  destruct object as [object|]; intros Hr; by apply IH in Hr.
Qed.

Lemma republish_joined entry vb cs s a res s' a' :
  republish entry vb cs s a = Some (res, s', a') -> joined s' = joined s.
Proof.
  unfold republish. destruct (published s !! entry) as [p|]; [|done].
  destruct (frozen vb (pub_buffers p)) as [[stored b]|]; [|done].
  destruct (publish _ _ _ _ a) as [[[]|e] a1]; [|by intros [= _ <- _]].
  destruct (0 <? c_left cs); [|by intros [= _ <- _]].
  intros Hr. by apply publish_companions_joined in Hr.
Qed.

Lemma write_joined key encoded s a res s' a' :
  joined s = false -> write_metric_event key encoded s a = Some (res, s', a') -> joined s' = false.
Proof.
  intros Hj. unfold write_metric_event. cbv zeta. cbn [set_delivered joined]. rewrite Hj.
  destruct (negb (serving a)); [by intros [= _ <- _]|].
  destruct (split_record encoded) as [record|]; [|by intros [= _ <- _]].
  destruct (assoc key _); [intros Hr; apply republish_joined in Hr; cbn in Hr; congruence|].
  destruct (instance_oid _) as [oid|]; [|by intros [= _ <- _]].
  destruct (assoc oid _); [intros Hr; apply republish_joined in Hr; cbn in Hr; congruence|].
  destruct (sink_object_of _ _) as [object|]; [|by intros [= _ <- _]].
  rewrite frozen_default.
  destruct (publish _ _ _ _ a) as [[[]|e] a1]; [|by intros [= _ <- _]].
  intros Hr. apply publish_companions_joined in Hr. cbn in Hr. congruence.
Qed.

(** The sinks after a call on one of them. *)
Lemma joined_idle_insert w i os a :
  joined_idle w -> (match os with Some s => sink_idle s | None => True end) ->
  joined_idle (mk_world a (<[i := os]> (sinks w))).
Proof. intros Hw Hs. by apply Forall_insert. Qed.

Lemma world_step_kept oid slot w e w' :
  world_step w e = Some w' -> ordered (agent w) -> joined_idle w -> kept oid slot (agent w) ->
  ~ of_launch (owner slot) w e ->
  ordered (agent w') /\ joined_idle w' /\ kept oid slot (agent w').
Proof.
  intros He Ha Hi Hk Ho.
  assert (Hadd : forall s, sink_idle s -> joined_idle (mk_world (agent w) (sinks w ++ [Some s]))).
  { intros s Hs. unfold joined_idle. cbn [sinks]. apply Forall_app. split; [done|]. by constructor. }
  destruct e as [o|o|i key encoded|i|]; cbn [world_step] in He.
  - injection He as <-. split_and!; [done|by apply Hadd|done].
  - injection He as <-. split_and!; [done|by apply Hadd|done].
  - destruct (sinks w !! i) as [[s|]|] eqn:Ei; [|by injection He as <-..].
    destruct (write_metric_event key encoded s (agent w)) as [[[res s'] a']|] eqn:Ew; [|done].
    injection He as <-. cbn [agent].
    pose proof (Forall_lookup_1 _ _ _ _ Hi Ei) as His. destruct (joined s) eqn:Ej.
    + destruct (joined_write oid slot _ _ _ _ _ _ _ Ej Ew Ha Hk) as (J1 & J2 & J3 & J4).
      split_and!; [done| |done]. apply joined_idle_insert; [done|]. intros _. rewrite J2. by apply His.
    + pose proof (write_spares _ _ _ _ _ _ _ Ej Ew) as Hsp.
      assert (Hne : owner slot <> sink_owner s).
      { intros E. apply Ho. exists s. split; [cbn; by rewrite Ei|done]. }
      split_and!; [by apply Hsp| |eapply kept_spares; [exact Hsp|done..]].
      apply joined_idle_insert; [done|]. intros J. by rewrite (write_joined _ _ _ _ _ _ _ Ej Ew) in J.
  - destruct (sinks w !! i) as [[s|]|] eqn:Ei; [|by injection He as <-..].
    injection He as <-. cbn [agent]. pose proof (Forall_lookup_1 _ _ _ _ Hi Ei) as His.
    pose proof (drop_sink_spares s (agent w)) as Hsp.
    split_and!; [by apply Hsp|by apply joined_idle_insert|]. destruct (joined s) eqn:Ej.
    + unfold drop_sink. by rewrite His.
    + eapply kept_spares; [exact Hsp|done| |done].
      intros E. apply Ho. exists s. split; [cbn; by rewrite Ei|done].
  - by injection He as <-.
Qed.

(** Without a joined sink the instance does not change at all. *)
Lemma world_step_same oid slot w e w' :
  world_step w e = Some w' -> ordered (agent w) -> slot_at (agent w) oid = Some slot ->
  ~ of_launch (owner slot) w e -> ~ by_joined w e -> slot_at (agent w') oid = Some slot.
Proof.
  intros He Ha Hs Ho Hj.
  assert (Hact : forall s, acting w e = Some s -> joined s = false /\ owner slot <> sink_owner s).
  { intros s E. assert (J : joined s = false) by (apply not_true_is_false; intros J; apply Hj; by exists s).
    split; [done|]. intros O. apply Ho. by exists s. }
  destruct e as [o|o|i key encoded|i|]; cbn [world_step] in He; try (by injection He as <-).
  - cbn in Hact. destruct (sinks w !! i) as [[s|]|] eqn:Ei; [|by injection He as <-..].
    destruct (Hact s eq_refl) as [Ej Hne].
    destruct (write_metric_event key encoded s (agent w)) as [[[res s'] a']|] eqn:Ew; [|done].
    injection He as <-. by apply (write_spares _ _ _ _ _ _ _ Ej Ew).
  - cbn in Hact. destruct (sinks w !! i) as [[s|]|] eqn:Ei; [|by injection He as <-..].
    destruct (Hact s eq_refl) as [_ Hne]. injection He as <-. by apply (drop_sink_spares s (agent w)).
Qed.

Lemma world_run_kept oid slot es : forall w w',
  world_run w es = Some w' -> ordered (agent w) -> joined_idle w -> kept oid slot (agent w) ->
  along (fun w e => ~ of_launch (owner slot) w e) w es ->
  kept oid slot (agent w') /\
  (slot_at (agent w) oid = Some slot -> along (fun w e => ~ by_joined w e) w es ->
     slot_at (agent w') oid = Some slot).
Proof.
  induction es as [|e es IH]; intros w w' Hr Ha Hi Hk Ho; cbn [world_run along] in *.
  { injection Hr as <-. by split. }
  destruct Ho as [Ho Hos]. destruct (world_step w e) as [w1|] eqn:Ew; [|done]. cbn in Hr.
  destruct (world_step_kept oid slot w e w1 Ew Ha Hi Hk Ho) as (Ha1 & Hi1 & Hk1).
  destruct (IH w1 w' Hr Ha1 Hi1 Hk1 Hos) as [H1 H2]. split; [done|]. intros Hs [Hj Hjs].
  apply H2; [|done]. by apply (world_step_same oid slot w e).
Qed.

(** C35: launches are isolated. Over any run of sinks created, joined, written to
    and dropped in which no publishing sink of its owner is written to or
    dropped, an instance keeps its owner and its publishers, so it is neither
    removed nor taken over; what it is read as changes only to another varbind of
    its own name, and only when a sink that joined to overwrite is called. *)
Theorem launches_isolated w es w' oid slot :
  agent_ok (agent w) -> joined_idle w -> world_run w es = Some w' ->
  slot_at (agent w) oid = Some slot ->
  along (fun w e => ~ of_launch (owner slot) w e) w es ->
  (exists vb, slot_at (agent w') oid = Some (mk_slot vb (owner slot) (publishers slot)) /\
     (vb = varbind slot \/ instance_oid vb = Ok oid)) /\
  (along (fun w e => ~ by_joined w e) w es -> slot_at (agent w') oid = Some slot).
Proof.
  intros ((Ha & _) & _) Hi Hr Hs Ho.
  assert (Hk : kept oid slot (agent w)) by (exists (varbind slot); split; [by destruct slot|by left]).
  destruct (world_run_kept oid slot es w w' Hr Ha Hi Hk Ho) as [H1 H2]. split; [exact H1|by apply H2].
Qed.

(** ** A concrete run *)

Definition ex_settings : AgentSettings :=
  mk_settings "public" 1472
    (mk_system_settings "r1" "router" "" "" (mk_oid [1; 3; 6; 1; 4; 1; 8072]) 72) [V1; V2c] [] None.

Definition ex_usm : Usm := mk_usm (new_engine [128; 0; 31; 136; 5; 1; 2; 3] 0 (mk_salts 7 9)) [].

Lemma ex_settings_ok : settings_ok ex_settings.
Proof.
  split_and!; [|by vm_compute|by vm_compute|by vm_compute|].
  - left. repeat split; try lia. repeat constructor; lia.
  - repeat constructor; vm_compute; discriminate.
Qed.

Definition ex_agent : SnmpAgent :=
  Eval vm_compute in default (mk_agent ex_settings ex_usm [] (mk_table [] []) (fun _ => 0) None None true)
                       (bind ex_usm ex_settings).

Definition ex_key : MetricKey := ("up", mk_labels []).
Definition ex_oid : Oid := mk_oid [1; 3; 6; 1; 4; 1; 9; 1; 0].

(** One index arc, no companion, the instance's varbind with the INTEGER 7. *)
Definition ex_record : list Z := [1; 0] ++ varbind_of ex_oid [2; 1; 7].

Lemma ex_rendered : rendered (fun _ => ex_oid) ex_key ex_record.
Proof.
  split; [repeat constructor; vm_compute; by auto|]. intros record Hr.
  assert (split_record ex_record
          = Ok (mk_record 1 (varbind_of ex_oid [2; 1; 7]) (mk_companions [] 0))) as E
    by (vm_compute; reflexivity).
  rewrite E in Hr. injection Hr as <-. vm_compute. reflexivity.
Qed.

Lemma table_is_ledger_witness :
  exists w, world_run (mk_world ex_agent []) [Create 1; Write 0 ex_key ex_record] = Some w /\
    agent_ok (agent w).
Proof.
  destruct (table_is_ledger (fun _ => ex_oid) ex_usm ex_settings ex_agent
              [Create 1; Write 0 ex_key ex_record]) as (w & Hw & Hok & _).
  - exact ex_settings_ok.
  - vm_compute. reflexivity.
  - constructor; [exact I|]. constructor; [exact ex_rendered|constructor].
  - vm_compute. discriminate.
  - exists w. split; [exact Hw|exact Hok].
Defined.

Definition ex_world : World :=
  Eval vm_compute in default (mk_world ex_agent [])
    (world_run (mk_world ex_agent []) [Create 1; Write 0 ex_key ex_record]).

Lemma ex_world_ok : world_ok (fun _ => ex_oid) ex_world.
Proof.
  destruct (world_run_ok (fun _ => ex_oid) (mk_world ex_agent [])
              [Create 1; Write 0 ex_key ex_record]) as (w & Hw & Hok).
  - destruct (bind_agent_ok ex_usm ex_settings ex_settings_ok) as (a & Ha & Hok & Hsl & _).
    assert (E : bind ex_usm ex_settings = Some ex_agent) by (vm_compute; reflexivity).
    rewrite E in Ha. injection Ha as <-. split; [|constructor]. split; [done|]. intros oid.
    unfold slot_at. cbn [agent]. by rewrite Hsl.
  - constructor; [exact I|]. constructor; [exact ex_rendered|constructor].
  - vm_compute. discriminate.
  - assert (E : world_run (mk_world ex_agent []) [Create 1; Write 0 ex_key ex_record]
                = Some ex_world) by (vm_compute; reflexivity).
    rewrite E in Hw. by injection Hw as <-.
Qed.

(** Whether a run has no call on a publishing sink of [o]. *)
Fixpoint spared (o : Owner) (w : World) (es : list WorldEvent) : bool :=
  match es with
  | [] => true
  | e :: es =>
      match acting w e with Some s => joined s || negb (sink_owner s =? o) | None => true end
      && match world_step w e with Some w' => spared o w' es | None => true end
  end.

Lemma spared_along o es : forall w, spared o w es = true -> along (fun w e => ~ of_launch o w e) w es.
Proof.
  induction es as [|e es IH]; intros w; cbn [spared along]; [done|]. intros [Ha Hs]%andb_true_iff. split.
  - intros (s & E & J & <-). rewrite E, J, Z.eqb_refl in Ha. done.
  - destruct (world_step w e) as [w'|]; [by apply IH|done].
Qed.

(** Another launch writes the same record, which is refused, and a sink that
    joined for it overwrites the instance; then both are dropped. *)
Definition ex_rivals : list WorldEvent :=
  [Create 2; Write 1 ex_key ex_record; Join 2;
   Write 2 ex_key ([1; 0] ++ varbind_of ex_oid [2; 1; 9]); Drop 1; Drop 2].

Definition ex_after_rivals : World :=
  Eval vm_compute in default (mk_world ex_agent []) (world_run ex_world ex_rivals).

Lemma launches_isolated_witness :
  (exists vb, slot_at (agent ex_after_rivals) ex_oid = Some (mk_slot vb 1 1) /\
     (vb = varbind_of ex_oid [2; 1; 7] \/ instance_oid vb = Ok ex_oid)) /\
  slot_at (agent ex_after_rivals) ex_oid = Some (mk_slot (varbind_of ex_oid [2; 1; 9]) 1 1).
Proof.
  split; [|vm_compute; reflexivity].
  apply (launches_isolated ex_world ex_rivals ex_after_rivals ex_oid
           (mk_slot (varbind_of ex_oid [2; 1; 7]) 1 1)).
  - exact (proj1 (proj1 ex_world_ok)).
  - constructor; [|constructor]. vm_compute. discriminate.
  - vm_compute. reflexivity.
  - vm_compute. reflexivity.
  - apply spared_along. vm_compute. reflexivity.
Defined.
