(* ===== verification/Traps.v ===== *)
(** * Traps: the SNMP trap sink (sink/snmp/trap.rs)

    An [SnmpTrapSink] reads publish records, watches [ifOperStatus] and sends
    SNMPv2c traps or INFORMs. The sinks of a launch on a destination are one
    device: they share [ifAdminStatus] and one coldStart. Time is in
    nanoseconds; what reaches a sink's socket is a list of timed arrivals, and
    the instant its token is cancelled, if ever, is a field. [None] is a panic. *)

From Stdlib Require Import ZArith Lia.
From stdpp Require Import prelude strings list gmap.
From S2P Require Import Prelude Text Metric Oid Ber OrdMap SnmpAgent SnmpSink.

Definition SYS_UP_TIME_INSTANCE : list Z := [1; 3; 6; 1; 2; 1; 1; 3; 0].
Definition SNMP_TRAP_OID_INSTANCE : list Z := [1; 3; 6; 1; 6; 3; 1; 1; 4; 1; 0].
Definition SNMP_TRAPS : list Z := [1; 3; 6; 1; 6; 3; 1; 1; 5].
Definition IF_ENTRY : list Z := [1; 3; 6; 1; 2; 1; 2; 2; 1].
Definition IF_INDEX : Z := 1.
Definition IF_ADMIN_STATUS : Z := 7.
Definition IF_OPER_STATUS : Z := 8.
Definition UP : Z := 1.

(** ** Notifications *)

Inductive TrapKind := ColdStart | LinkDown | LinkUp.

#[export] Instance TrapKind_eq_dec : EqDecision TrapKind.
Proof. solve_decision. Defined.

(** [TrapKind::arc]. *)
Definition arc (k : TrapKind) : Z :=
  match k with ColdStart => 1 | LinkDown => 3 | LinkUp => 4 end.

Record LinkVars := mk_link { if_index : Z; admin : Z; oper : Z }.

#[export] Instance LinkVars_eq_dec : EqDecision LinkVars.
Proof. solve_decision. Defined.

(** [i32::try_from]. *)
Definition to_i32 (n : Z) : option Z :=
  if (-2147483648 <=? n) && (n <=? 2147483647) then Some n else None.

(** [write_oid] and [write_varbind] of the trap sink. *)
Definition write_joined_oid (out prefix suffix : list Z) : list Z :=
  match from_arcs (prefix ++ suffix) with Some oid => write_oid out oid | None => out end.

Definition write_named (out prefix suffix : list Z) (value : list Z -> list Z) : option (list Z) :=
  write_tlv out TSequence (fun out => Some (value (write_joined_oid out prefix suffix))).

(** The loop over the columns of a link trap. *)
Fixpoint write_columns (out : list Z) (index : Z) (columns : list (Z * Z)) : option (list Z) :=
  match columns with
  | [] => Some out
  | (column, value) :: columns =>
      let! out := write_named out IF_ENTRY [column; index] (fun out => write_integer out value) in
      write_columns out index columns
  end.

Definition link_columns (link : LinkVars) : list (Z * Z) :=
  [(IF_INDEX, default 2147483647 (to_i32 (if_index link))); (IF_ADMIN_STATUS, admin link);
   (IF_OPER_STATUS, oper link)].

(** [write_trap]. *)
Definition write_trap (out community : list Z) (inform : bool) (request_id uptime : Z)
  (kind : TrapKind) (link : option LinkVars) : option (list Z) :=
  write_message out 1 community (if inform then TInformRequest else TTrapV2) request_id 0 0
    (fun out =>
       let! out := write_named out SYS_UP_TIME_INSTANCE [] (fun out => write_timeticks out uptime) in
       let! out := write_named out SNMP_TRAP_OID_INSTANCE []
                     (fun out => write_joined_oid out SNMP_TRAPS [arc kind]) in
       match link with
       | Some link => write_columns out (if_index link) (link_columns link)
       | None => Some out
       end).

(** [is_acknowledgement]. *)
Definition is_acknowledgement (datagram : list Z) (request_id : Z) : bool :=
  match message_decode datagram with
  | Ok m => (version m =? 1) && bool_decide (pdu m = TResponse) && (Ber.request_id m =? request_id)
  | Err _ => false
  end.

(** [RequestIds::next]. *)
Definition next_request_id (ids : Z) : Z * Z :=
  (default 0 (to_i32 (Z.land ids 0x7FFFFFFF)), (ids + 1) mod 4294967296).

(** ** The sink *)

Inductive Column := AdminStatus | OperStatus.

#[export] Instance Column_eq_dec : EqDecision Column.
Proof. solve_decision. Defined.

Inductive TrapError :=
| BadRecord (e : RecordError)
| BadVarbind (e : BerError)
| MalformedOid
| SendFailed (k : TrapKind)
| NotAcknowledged (k : TrapKind) (sends : Z) (send_failed : bool).

(** [TrapSettings], without the destination, which is resolved. *)
Record TrapSettings := mk_settings {
  community : list Z; inform : bool; timeout : Z; retries : Z }.

Section Traps.
Context {Addr : Type} `{Countable Addr}.

(** [Device]. *)
Record Device := mk_device { d_sinks : Z; d_admin : gmap Z Z }.

Definition default_device : Device := mk_device 0 ∅.

(** What arrives at a socket. *)
Inductive Arrival := Datagram (peer : Addr) (bytes : list Z) | ReceiveError.

(** [SnmpTrapSink]; [inbox] is what its socket has received and will receive,
    with the instants, and [cancel] when its token is cancelled. *)
Record TrapSink := mk_sink {
  destination : Addr;
  launch : Z;
  t_settings : TrapSettings;
  created : Z;
  request_ids : Z;
  opers : gmap Z Z;
  ignored : Z;
  pending : option TrapError;
  inbox : list (Z * Arrival);
  cancel : option Z;
}.

(** A datagram handed to a socket; [s_ok] is whether the call succeeded. *)
Record Sent := mk_sent {
  s_at : Z; s_to : Addr; s_request : Z; s_kind : TrapKind; s_link : option LinkVars;
  s_bytes : list Z; s_ok : bool }.

(** What the sinks of the process share: the devices, the warnings about
    unacknowledged INFORMs, the clock, and the datagrams sent; [failing] are the
    outcomes of the next calls of [send_to], which succeed once it is empty. *)
Record Process := mk_process {
  devices : gmap (Z * Addr) Device;
  warned : gmap Addr Z;
  clock : Z;
  failing : list bool;
  sent : list Sent;
}.

Definition set_devices (p : Process) (d : gmap (Z * Addr) Device) : Process :=
  mk_process d (warned p) (clock p) (failing p) (sent p).

Definition set_clock (p : Process) (now : Z) : Process :=
  mk_process (devices p) (warned p) now (failing p) (sent p).

Definition set_pending (s : TrapSink) (e : option TrapError) : TrapSink :=
  mk_sink (destination s) (launch s) (t_settings s) (created s) (request_ids s) (opers s)
    (ignored s) e (inbox s) (cancel s).

Definition set_opers (s : TrapSink) (m : gmap Z Z) : TrapSink :=
  mk_sink (destination s) (launch s) (t_settings s) (created s) (request_ids s) m
    (ignored s) (pending s) (inbox s) (cancel s).

Definition set_request_ids (s : TrapSink) (n : Z) : TrapSink :=
  mk_sink (destination s) (launch s) (t_settings s) (created s) n (opers s)
    (ignored s) (pending s) (inbox s) (cancel s).

Definition set_inbox (s : TrapSink) (l : list (Z * Arrival)) (n : Z) : TrapSink :=
  mk_sink (destination s) (launch s) (t_settings s) (created s) (request_ids s) (opers s)
    n (pending s) l (cancel s).

(** [join_device] and [leave_device]. *)
Definition join_device (l : Z) (dest : Addr) (p : Process) : bool * Process :=
  let d := default default_device (devices p !! (l, dest)) in
  let d := mk_device (d_sinks d + 1) (d_admin d) in
  (d_sinks d =? 1, set_devices p (<[(l, dest) := d]> (devices p))).

Definition leave_device (l : Z) (dest : Addr) (p : Process) : option Process :=
  match devices p !! (l, dest) with
  | None => Some p
  | Some d =>
      if d_sinks d <=? 0 then None
      else
        let n := d_sinks d - 1 in
        Some (set_devices p
                (if n =? 0 then delete (l, dest) (devices p)
                 else <[(l, dest) := mk_device n (d_admin d)]> (devices p)))
  end.

(** [warn_unacknowledged_due]. *)
Definition warn_unacknowledged_due (dest : Addr) (p : Process) : bool * Process :=
  if negb (warn_due (warned p !! dest) (clock p)) then (false, p)
  else (true, mk_process (devices p) (<[dest := clock p]> (warned p)) (clock p) (failing p) (sent p)).

(** [UdpSocket::send_to]: whether it succeeded. *)
Definition send_to (dest : Addr) (request_id : Z) (kind : TrapKind) (link : option LinkVars)
  (bytes : list Z) (p : Process) : bool * Process :=
  let ok := match failing p with [] => true | fails :: _ => negb fails end in
  (ok, mk_process (devices p) (warned p) (clock p) (tail (failing p))
         (sent p ++ [mk_sent (clock p) dest request_id kind link bytes ok])).

(** [SnmpTrapSink::uptime_ticks]. *)
Definition uptime_ticks (s : TrapSink) (now : Z) : Z :=
  (sat_sub now (created s) / 1000000 / 10) mod 4294967296.

Inductive Outcome := Done | Stopped.
Inductive Wait := Acknowledged | Unanswered | WaitStopped.

(** Whether a token is cancelled by [t]. *)
Definition cancelled_by (c : option Z) (t : Z) : bool :=
  match c with Some c => c <=? t | None => false end.

(** The instant a wait from [now] that the token ends is over. *)
Definition stop_at (c : option Z) (now : Z) : Z := Z.max now (default now c).

(** The loop of [acknowledged]. A turn waits for the first of the cancellation,
    the next arrival and the deadline, looked at in this order. *)
Fixpoint wait_loop (dest : Addr) (c : option Z) (request_id deadline now : Z)
  (l : list (Z * Arrival)) (n : Z) : Wait * Z * list (Z * Arrival) * Z :=
  let idle now l n :=
    let end_ := Z.max now deadline in
    if cancelled_by c end_ then (WaitStopped, stop_at c now, l, n) else (Unanswered, end_, l, n) in
  match l with
  | [] => idle now l n
  | (t, a) :: rest =>
      if t <=? Z.max now deadline then
        let wake := Z.max now t in
        if cancelled_by c wake then (WaitStopped, stop_at c now, l, n)
        else
          match a with
          | Datagram peer bytes =>
              if bool_decide (peer = dest) && is_acknowledgement bytes request_id
              then (Acknowledged, wake, rest, n)
              else wait_loop dest c request_id deadline wake rest (n + 1)
          | ReceiveError => idle wake rest n
          end
      else idle now l n
  end.

(** [acknowledged]. *)
Definition acknowledged (request_id deadline : Z) (s : TrapSink) (p : Process)
  : Wait * TrapSink * Process :=
  let '(w, now, l, n) :=
    wait_loop (destination s) (cancel s) request_id deadline (clock p) (inbox s) (ignored s) in
  (w, set_inbox s l n, set_clock p now).

(** The loop of [send], [attempts] more sends; whether one failed. *)
Fixpoint send_loop (attempts : nat) (request_id : Z) (kind : TrapKind) (link : option LinkVars)
  (bytes : list Z) (send_failed : bool) (s : TrapSink) (p : Process)
  : result Outcome bool * TrapSink * Process :=
  match attempts with
  | O => (Err send_failed, s, p)
  | S attempts =>
      let (ok, p) := send_to (destination s) request_id kind link bytes p in
      let send_failed := send_failed || negb ok in
      let '(w, s, p) := acknowledged request_id (clock p + timeout (t_settings s)) s p in
      match w with
      | Acknowledged => (Ok Done, s, p)
      | WaitStopped => (Ok Stopped, s, p)
      | Unanswered => send_loop attempts request_id kind link bytes send_failed s p
      end
  end.

(** [send]. *)
Definition send (kind : TrapKind) (link : option LinkVars) (s : TrapSink) (p : Process)
  : option (result Outcome TrapError * TrapSink * Process) :=
  let (id, ids) := next_request_id (request_ids s) in
  let s := set_request_ids s ids in
  let uptime := uptime_ticks s (clock p) in
  let st := t_settings s in
  let! bytes := write_trap [] (community st) (inform st) id uptime kind link in
  if negb (inform st) then
    let (ok, p) := send_to (destination s) id kind link bytes p in
    Some (if ok then Ok Done else Err (SendFailed kind), s, p)
  else if cancelled_by (cancel s) (clock p) then Some (Ok Stopped, s, p)
  else
    let '(r, s, p) :=
      send_loop (S (Z.to_nat (retries st))) id kind link bytes false s p in
    match r with
    | Ok o => Some (Ok o, s, p)
    | Err send_failed =>
        let (_, p) := warn_unacknowledged_due (destination s) p in
        Some (Err (NotAcknowledged kind (retries st + 1) send_failed), s, p)
    end.

(** [link_column]. *)
Definition link_column (varbind : list Z) : result (option (Column * Z * Z)) TrapError :=
  let? body := map_err BadVarbind (expect TSequence varbind).1 in
  let (name, fields) := expect TOid body in
  let? name := map_err BadVarbind name in
  let? arcs := ok_or (decode_ber_body name) MalformedOid in
  if bool_decide (length arcs = 11%nat) && bool_decide (take 9 arcs = IF_ENTRY) then
    let column := default 0 (arcs !! 9%nat) in
    let index := default 0 (arcs !! 10%nat) in
    match (if column =? IF_ADMIN_STATUS then Some AdminStatus
           else if column =? IF_OPER_STATUS then Some OperStatus else None) with
    | None => Ok None
    | Some c =>
        match to_i32 index, (read_i64 TInteger fields).1 with
        | Some _, Ok value => Ok ((fun v => (c, index, v)) <$> to_i32 value)
        | _, _ => Ok None
        end
    end
  else Ok None.

(** The notification a change of [ifOperStatus] calls for. *)
Definition transition (before : option Z) (value : Z) : option TrapKind :=
  match before with
  | Some before =>
      if (before =? UP) && negb (value =? UP) then Some LinkDown
      else if negb (before =? UP) && (value =? UP) then Some LinkUp
      else None
  | None => None
  end.

(** [watch]. The sink's device is there while the sink lives. *)
Definition watch (varbind : list Z) (s : TrapSink) (p : Process)
  : option (result Outcome TrapError * TrapSink * Process) :=
  match link_column varbind with
  | Err e => Some (Err e, s, p)
  | Ok None => Some (Ok Done, s, p)
  | Ok (Some (AdminStatus, index, value)) =>
      let set d := mk_device (d_sinks d) (<[index := value]> (d_admin d)) in
      Some (Ok Done, s, set_devices p (alter set (launch s, destination s) (devices p)))
  | Ok (Some (OperStatus, index, value)) =>
      let before := opers s !! index in
      let s := set_opers s (<[index := value]> (opers s)) in
      match transition before value with
      | None => Some (Ok Done, s, p)
      | Some kind =>
          let admin := default UP (let! d := devices p !! (launch s, destination s) in
                                   d_admin d !! index) in
          send kind (Some (mk_link index admin value)) s p
      end
  end.

(** The loop of [write_metric_event] over a record's companions. *)
Fixpoint watch_all (l : list (list Z)) (o : Outcome) (s : TrapSink) (p : Process)
  : option (result Outcome TrapError * TrapSink * Process) :=
  match l with
  | [] => Some (Ok o, s, p)
  | vb :: l =>
      match o with
      | Stopped => Some (Ok Stopped, s, p)
      | Done =>
          let! (r, s, p) := watch vb s p in
          match r with
          | Err e => Some (Err e, s, p)
          | Ok o => watch_all l o s p
          end
      end
  end.

(** The varbinds of a record. *)
Definition record_varbinds (r : PublishRecord) : list (list Z) :=
  r_varbind r :: (c_varbind <$> companions_list (r_companions r)).

(** [write_metric_event]. *)
Definition write_metric_event (encoded : list Z) (s : TrapSink) (p : Process)
  : option (result unit TrapError * TrapSink * Process) :=
  match split_record encoded with
  | Err e => Some (Err (BadRecord e), s, p)
  | Ok record =>
      let! (r, s, p) := watch_all (record_varbinds record) Done s p in
      match r with
      | Err e => Some (Err e, s, p)
      | Ok Stopped => Some (Ok tt, s, p)
      | Ok Done =>
          match pending s with
          | Some e => Some (Err e, set_pending s None, p)
          | None => Some (Ok tt, s, p)
          end
      end
  end.

(** [new_in], once the destination is resolved and the socket bound; the random
    start of the request ids and what the socket will receive are arguments. *)
Definition new_in (dest : Addr) (l : Z) (st : TrapSettings) (ids : Z) (incoming : list (Z * Arrival))
  (p : Process) : option (TrapSink * Process) :=
  let (cold_start, p) := join_device l dest p in
  let s := mk_sink dest l st (clock p) ids ∅ 0 None incoming None in
  if cold_start then
    let! (r, s, p) := send ColdStart None s p in
    Some (match r with Err e => set_pending s (Some e) | Ok _ => s end, p)
  else Some (s, p).

(** [Drop for SnmpTrapSink]. *)
Definition drop_sink (s : TrapSink) (p : Process) : option Process :=
  leave_device (launch s) (destination s) p.

(** [set_cancel], with when the token is cancelled. *)
Definition set_cancel (c : option Z) (s : TrapSink) : TrapSink :=
  mk_sink (destination s) (launch s) (t_settings s) (created s) (request_ids s) (opers s)
    (ignored s) (pending s) (inbox s) c.

End Traps.

Arguments Arrival : clear implicits.
Arguments TrapSink : clear implicits.
Arguments Sent : clear implicits.
Arguments Process Addr {_ _}.
