(* ===== verification/TrapProofs.v ===== *)
(** * TrapProofs: properties of the SNMP trap sink

    The octets of a notification, the sends of an INFORM, and the notifications
    of a device against the history of what its sinks have read. *)

From Stdlib Require Import ZArith Lia.
From stdpp Require Import prelude strings list gmap sorting.
From S2P Require Import Prelude Text Metric Oid Ber OrdMap SnmpAgent SnmpSink Traps.

(** ** The octets of a notification *)

Lemma length_octets_short len : 0 <= len <= u64_max -> (length (length_octets len) <= 9)%nat.
Proof.
  intros Hl. unfold length_octets. destruct (Z.ltb_spec len 128); [cbn; lia|].
  destruct (length_len_long len) as (k & Hk & -> & _); [lia|]. cbn [length].
  rewrite be_bytes_length. lia.
Qed.

Lemma tlv_bytes_short tag b :
  Z.of_nat (length b) <= u64_max -> (length (tlv_bytes tag b) <= 10 + length b)%nat.
Proof.
  intros Hl. unfold tlv_bytes. cbn [length]. rewrite length_app.
  pose proof (length_octets_short (Z.of_nat (length b))). lia.
Qed.

Lemma subidentifier_short v : 0 <= v <= u64_max -> (length (subidentifier v) <= 10)%nat.
Proof.
  intros Hv. pose proof (subidentifier_length v Hv) as Hl. unfold subidentifier_len in Hl.
  assert (0 <= leading_zeros64 v).
  { unfold leading_zeros64. destruct (v =? 0) eqn:E; [lia|].
    assert (Z.log2 v < 64) by (apply Z.log2_lt_pow2; lia). lia. }
  unfold div_ceil in Hl.
  assert ((64 - leading_zeros64 v + 7 - 1) / 7 <= 10) by (apply Z.div_le_upper_bound; lia). lia.
Qed.

Lemma subidentifiers_short r :
  Forall is_u32 r -> (length (concat (map subidentifier r)) <= 10 * length r)%nat.
Proof.
  induction 1 as [|x r Hx Hd IH]; [done|]. cbn [map concat length]. rewrite length_app.
  unfold is_u32 in Hx. pose proof (subidentifier_short x ltac:(lia)). lia.
Qed.

Lemma ber_body_short l : ber_arcs l -> (length (ber_body l) <= 10 * length l)%nat.
Proof.
  intros Ha. pose proof (ber_arcs_u32 l Ha) as Hu. pose proof (first_subidentifier_max l Ha) as Hf.
  unfold ber_body. rewrite length_app.
  pose proof (subidentifier_short (first_subidentifier l) ltac:(lia)).
  pose proof (subidentifiers_short (drop 2 l) ltac:(by apply Forall_drop)) as Hr.
  assert (2 <= length l)%nat by (clear -Ha; destruct l as [|? [|? l]]; cbn in *; [done..|lia]).
  rewrite length_drop in Hr. lia.
Qed.

(** The entries of a notification: names, types and contents. *)
Definition trap_varbinds (uptime : Z) (kind : TrapKind) (link : option LinkVars)
  : list (Oid * Tag * list Z) :=
  [(mk_oid SYS_UP_TIME_INSTANCE, TTimeTicks, u64_content uptime);
   (mk_oid SNMP_TRAP_OID_INSTANCE, TOid, ber_body (SNMP_TRAPS ++ [arc kind]))] ++
  match link with
  | Some l => (fun cv => (mk_oid (IF_ENTRY ++ [cv.1; if_index l]), TInteger, i64_content cv.2))
                <$> link_columns l
  | None => []
  end.

Definition link_ok (l : LinkVars) : Prop :=
  is_u32 (if_index l) /\ to_i32 (admin l) <> None /\ to_i32 (oper l) <> None.

(** A name of the trap sink, with the value appended to it. *)
Lemma write_named_app prefix suffix value b :
  ber_arcs (prefix ++ suffix) -> (length (prefix ++ suffix) <= 20)%nat -> (length b <= 200)%nat ->
  from_arcs (prefix ++ suffix) = Some (mk_oid (prefix ++ suffix)) ->
  (forall out, value out = out ++ b) ->
  appends (fun out => write_named out prefix suffix value)
    (varbind_bytes (mk_oid (prefix ++ suffix)) b).
Proof.
  intros Ha Hs Hb Ho Hv. pose proof (ber_body_short _ Ha) as Hl.
  pose proof (ber_body_length _ (ber_arcs_u32 _ Ha)) as Hlen.
  pose proof (tlv_bytes_short TOid (ber_body (prefix ++ suffix)) ltac:(lia)).
  apply write_tlv_app.
  - intros out. unfold write_joined_oid. rewrite Ho, Hv, write_oid_app; cbn [arcs].
    + by rewrite <- app_assoc.
    + by apply ber_arcs_u32.
    + lia.
  - cbn [arcs]. rewrite length_app. lia.
Qed.

Lemma to_i32_some n : to_i32 n <> None -> -2147483648 <= n <= 2147483647.
Proof. unfold to_i32. destruct (_ && _) eqn:E; [|done]. zbool. lia. Qed.

Lemma i64_content_short v : is_i64 v -> (length (i64_content v) <= 20)%nat.
Proof.
  intros Hv. destruct (i64_content_spec v Hv) as (_ & _ & Hl & _). lia.
Qed.

(** The columns of a link trap, one after the other. *)
Lemma write_columns_app index columns :
  is_u32 index -> Forall (fun cv => is_u32 cv.1 /\ is_i64 cv.2) columns ->
  appends (fun out => write_columns out index columns)
    (concat ((fun cv => varbind_bytes (mk_oid (IF_ENTRY ++ [cv.1; index]))
                          (tlv_bytes TInteger (i64_content cv.2))) <$> columns)).
Proof.
  intros Hi Hc. induction Hc as [|[c v] columns [Hcu Hv] Hc IH]; intros out; cbn [write_columns].
  { by rewrite app_nil_r. }
  cbn [fst snd] in *. pose proof (i64_content_short v Hv).
  pose proof (tlv_bytes_short TInteger (i64_content v) ltac:(lia)).
  rewrite (write_named_app IF_ENTRY [c; index] _ (tlv_bytes TInteger (i64_content v))).
  - rewrite IH. cbn [fmap list_fmap concat fst snd]. by rewrite <- app_assoc.
  - left. split; [by right|]. split; [lia|]. repeat constructor; unfold is_u32 in *; lia.
  - cbn. lia.
  - lia.
  - done.
  - intros o. apply write_i64_app. done.
Qed.

Lemma link_columns_ok l :
  link_ok l -> Forall (fun cv => is_u32 cv.1 /\ is_i64 cv.2) (link_columns l).
Proof.
  intros (Hi & Ha%to_i32_some & Ho%to_i32_some). unfold is_u32 in *.
  assert (-2147483648 <= default 2147483647 (to_i32 (if_index l)) <= 2147483647).
  { unfold to_i32. destruct (_ && _) eqn:E; cbn; [zbool|]; lia. }
  unfold link_columns, is_i64, IF_INDEX, IF_ADMIN_STATUS, IF_OPER_STATUS.
  rewrite !list.Forall_cons. cbn [fst snd]. split_and!; try lia. done.
Qed.

(** The body of the varbind list. *)
Definition trap_body (uptime : Z) (kind : TrapKind) (link : option LinkVars) : list Z :=
  concat (map (fun '(oid, tag, value) => varbind_bytes oid (tlv_bytes tag value))
            (trap_varbinds uptime kind link)).

Lemma trap_oid_ok kind :
  ber_arcs (SNMP_TRAPS ++ [arc kind]) /\
  forall out, write_joined_oid out SNMP_TRAPS [arc kind]
    = out ++ tlv_bytes TOid (ber_body (SNMP_TRAPS ++ [arc kind])).
Proof.
  assert (Ha : ber_arcs (SNMP_TRAPS ++ [arc kind])).
  { left. split; [by right|]. split; [lia|]. destruct kind; repeat constructor; unfold is_u32; cbn; lia. }
  split; [done|]. intros out. unfold write_joined_oid.
  replace (from_arcs _) with (Some (mk_oid (SNMP_TRAPS ++ [arc kind]))) by (by destruct kind).
  apply write_oid_app; [by apply ber_arcs_u32|]. cbn [arcs].
  rewrite <- ber_body_length by (by apply ber_arcs_u32). pose proof (ber_body_short _ Ha) as Hl.
  rewrite length_app in Hl. cbn in Hl |- *. lia.
Qed.

(** The body written by the closure of [write_trap]. *)
Lemma trap_body_app uptime kind link :
  is_u32 uptime -> (forall l, link = Some l -> link_ok l) ->
  appends (fun out =>
       let! out := write_named out SYS_UP_TIME_INSTANCE [] (fun out => write_timeticks out uptime) in
       let! out := write_named out SNMP_TRAP_OID_INSTANCE []
                     (fun out => write_joined_oid out SNMP_TRAPS [arc kind]) in
       match link with
       | Some link => write_columns out (if_index link) (link_columns link)
       | None => Some out
       end) (trap_body uptime kind link).
Proof.
  intros Hu Hl out. destruct (trap_oid_ok kind) as [Ha Hw].
  assert (H64 : is_u64 uptime) by (unfold is_u32, is_u64 in *; lia).
  destruct (u64_content_spec uptime H64) as (b0 & l & Hc & _ & _ & Hlen & _).
  pose proof (tlv_bytes_short TTimeTicks (u64_content uptime) ltac:(rewrite Hc; cbn; lia)) as H1.
  pose proof (ber_body_short _ Ha) as H2.
  replace (length (SNMP_TRAPS ++ [arc kind])) with 10%nat in H2 by done.
  pose proof (tlv_bytes_short TOid (ber_body (SNMP_TRAPS ++ [arc kind])) ltac:(lia)) as H3.
  rewrite (write_named_app SYS_UP_TIME_INSTANCE [] _ (tlv_bytes TTimeTicks (u64_content uptime))).
  2: { left. split; [by right|]. split; [lia|]. by repeat constructor. }
  2: { cbn. lia. }
  2: { assert (length (u64_content uptime) <= 9)%nat by (rewrite Hc; cbn; lia). lia. }
  2: done.
  2: { intros o. by apply write_u64_app. }
  rewrite (write_named_app SNMP_TRAP_OID_INSTANCE [] _
             (tlv_bytes TOid (ber_body (SNMP_TRAPS ++ [arc kind])))).
  2: { left. split; [by right|]. split; [lia|]. by repeat constructor. }
  2: { cbn. lia. }
  2: { lia. }
  2: done.
  2: { exact Hw. }
  unfold trap_body, trap_varbinds. rewrite !app_nil_r. cbn [app map concat].
  destruct link as [lk|]; cbn [map concat]; [|by rewrite app_nil_r, <- app_assoc].
  specialize (Hl lk eq_refl). rewrite write_columns_app;
    [|apply Hl|by apply link_columns_ok]. rewrite <- !app_assoc. do 4 f_equal.
Qed.

Lemma trap_varbinds_ok uptime kind link :
  is_u32 uptime -> (forall l, link = Some l -> link_ok l) ->
  Forall (fun '(oid, tag, value) => ber_arcs (arcs oid) /\ (length (arcs oid) <= 20)%nat /\
    (length value <= 110)%nat) (trap_varbinds uptime kind link).
Proof.
  intros Hu Hl. unfold trap_varbinds. rewrite Forall_app, !list.Forall_cons.
  destruct (trap_oid_ok kind) as [Ha _]. pose proof (ber_body_short _ Ha) as H2.
  replace (length (SNMP_TRAPS ++ [arc kind])) with 10%nat in H2 by done.
  assert (H64 : is_u64 uptime) by (unfold is_u32, is_u64 in *; lia).
  destruct (u64_content_spec uptime H64) as (b0 & l & Hc & _ & _ & Hlen & _).
  split_and!.
  - left. split; [by right|]. split; [lia|]. by repeat constructor.
  - cbn. lia.
  - rewrite Hc. cbn. lia.
  - left. split; [by right|]. split; [lia|]. by repeat constructor.
  - cbn. lia.
  - lia.
  - done.
  - destruct link as [lk|]; [|done]. specialize (Hl lk eq_refl).
    apply Forall_fmap. eapply Forall_impl; [apply link_columns_ok, Hl|].
    intros [c v] [Hcu Hv]. cbn [fst snd] in *. split_and!.
    + left. split; [by right|]. split; [lia|]. destruct Hl as [Hi _].
      cbn [app drop]. rewrite !list.Forall_cons. split_and!; try done; unfold is_u32; lia.
    + cbn. lia.
    + change (length (i64_content v) <= 110)%nat. pose proof (i64_content_short v Hv). lia.
Qed.

Lemma varbind_short oid tag (value : list Z) :
  ber_arcs (arcs oid) -> (length (arcs oid) <= 20)%nat -> (length value <= 110)%nat ->
  (length (varbind_bytes oid (tlv_bytes tag value)) <= 350)%nat.
Proof.
  intros Ha Hl Hv. pose proof (ber_body_short _ Ha) as Hb.
  pose proof (tlv_bytes_short TOid (ber_body (arcs oid)) ltac:(lia)).
  pose proof (tlv_bytes_short tag value ltac:(lia)).
  pose proof (tlv_bytes_short TSequence
    (tlv_bytes TOid (ber_body (arcs oid)) ++ tlv_bytes tag value)) as Hs.
  rewrite length_app in Hs. unfold varbind_bytes. specialize (Hs ltac:(lia)). lia.
Qed.

Lemma trap_body_short uptime kind link :
  is_u32 uptime -> (forall l, link = Some l -> link_ok l) ->
  (length (trap_body uptime kind link) <= 1750)%nat.
Proof.
  intros Hu Hl. pose proof (trap_varbinds_ok uptime kind link Hu Hl) as Hok.
  assert (Hn : (length (trap_varbinds uptime kind link) <= 5)%nat) by (destruct link; cbn; lia).
  enough (Hg : (length (trap_body uptime kind link) <= 350 * length (trap_varbinds uptime kind link))%nat)
    by lia.
  unfold trap_body. induction Hok as [|[[oid tag] value] l (Ha & Hs & Hv) Hok IH]; [done|].
  cbn [map concat length] in *. rewrite length_app.
  pose proof (varbind_short oid tag value Ha Hs Hv). specialize (IH ltac:(lia)). lia.
Qed.

Lemma message_short m :
  message_ok m -> Z.of_nat (length (Ber.community m)) + Z.of_nat (length (varbinds m)) <= 1000000 ->
  (length (message_bytes m) <= length (Ber.community m) + length (varbinds m) + 200)%nat.
Proof.
  intros (Hv & _ & Hr & Hs & Hi) Hl. unfold message_bytes, pdu_bytes.
  assert (H1 : is_i64 (version m)) by (unfold is_i64; lia).
  assert (Hint : forall v, is_i64 v -> (length (tlv_bytes TInteger (i64_content v)) <= 30)%nat).
  { intros v Hi64. pose proof (i64_content_short v Hi64).
    pose proof (tlv_bytes_short TInteger (i64_content v) ltac:(lia)). lia. }
  pose proof (Hint _ H1). pose proof (Hint _ Hr). pose proof (Hint _ Hs). pose proof (Hint _ Hi).
  pose proof (tlv_bytes_short TOctetString (Ber.community m) ltac:(lia)).
  pose proof (tlv_bytes_short TSequence (varbinds m) ltac:(lia)).
  match goal with |- context [tlv_bytes (pdu m) ?b] =>
    pose proof (tlv_bytes_short (pdu m) b) as Hpb; rewrite !length_app in Hpb; specialize (Hpb ltac:(lia)) end.
  match goal with |- context [tlv_bytes TSequence (?a ++ ?b)] =>
    pose proof (tlv_bytes_short TSequence (a ++ b)) as Hqb; rewrite !length_app in Hqb;
    specialize (Hqb ltac:(lia)) end. lia.
Qed.

(** The message of a notification, and what reads it. *)
Lemma write_trap_app out community (inform : bool) id uptime kind link :
  Z.of_nat (length community) <= 65535 -> 0 <= id <= 2147483647 -> is_u32 uptime ->
  (forall l, link = Some l -> link_ok l) ->
  let m := mk_message 1 community (if inform then TInformRequest else TTrapV2) id 0 0
             (trap_body uptime kind link) in
  message_ok m /\ Z.of_nat (length (message_bytes m)) <= u32_max /\
  write_trap out community inform id uptime kind link = Some (out ++ message_bytes m).
Proof.
  intros Hc Hid Hu Hl m. pose proof (trap_body_short uptime kind link Hu Hl) as Hs.
  assert (Hm : message_ok m).
  { unfold message_ok, m, is_i64. cbn. destruct inform; split_and!; (done || lia || by right). }
  assert (Hlen : Z.of_nat (length (message_bytes m)) <= u32_max).
  { pose proof (message_short m Hm). cbn [m Ber.community varbinds] in *. lia. }
  split; [done|]. split; [done|].
  unfold write_trap. apply (write_message_app m); [done|by apply trap_body_app|done].
Qed.

Lemma trap_varbinds_read uptime kind link :
  is_u32 uptime -> (forall l, link = Some l -> link_ok l) ->
  exists read,
    varbinds_collect (S (length (trap_varbinds uptime kind link))) (trap_body uptime kind link) = Ok read /\
    Forall2 (fun '(oid, tag, value) vb =>
      vb_name vb = Ok oid /\ vb_value_tag vb = tag_byte tag /\ vb_value vb = value)
      (trap_varbinds uptime kind link) read.
Proof.
  intros Hu Hl. pose proof (trap_varbinds_ok uptime kind link Hu Hl) as Hok.
  destruct (varbinds_roundtrip (trap_varbinds uptime kind link)) as (read & Hr & Hf).
  { eapply Forall_impl; [exact Hok|]. intros [[oid tag] value] (Ha & Hla & Hv). split; [done|].
    pose proof (varbind_short oid tag value Ha Hla Hv). lia. }
  exists read. split; [|done]. rewrite write_varbinds_app in Hr; [done|].
  eapply Forall_impl; [exact Hok|]. intros [[oid tag] value] (Ha & Hla & Hv). split; [done|].
  pose proof (ber_body_short _ Ha). pose proof (tlv_bytes_short TOid (ber_body (arcs oid)) ltac:(lia)).
  pose proof (tlv_bytes_short tag value ltac:(lia)).
  rewrite <- ber_body_length, <- (tlv_bytes_length TOid) by (try (by apply ber_arcs_u32); lia). lia.
Qed.

(** What a notification says. [write_trap] never panics and appends one
    SNMPv2c message, which decodes to the community, an [InformRequest] or a
    trap with the request-id, and the varbinds of RFC 3416 in order: the uptime,
    the notification's OID and, for a link, its index and two states. *)
Theorem write_trap_correct out community inform id uptime kind link
    (Hc : Z.of_nat (length community) <= 65535) (Hid : 0 <= id <= 2147483647) (Hu : is_u32 uptime)
    (Hl : forall l, link = Some l -> link_ok l) :
  exists bytes read, write_trap out community inform id uptime kind link = Some (out ++ bytes) /\
    message_decode bytes
    = Ok (mk_message 1 community (if inform then TInformRequest else TTrapV2) id 0 0
            (trap_body uptime kind link)) /\
    varbinds_collect (S (length (trap_varbinds uptime kind link))) (trap_body uptime kind link) = Ok read /\
    Forall2 (fun '(oid, tag, value) vb =>
      vb_name vb = Ok oid /\ vb_value_tag vb = tag_byte tag /\ vb_value vb = value)
      (trap_varbinds uptime kind link) read.
Proof.
  destruct (write_trap_app out community inform id uptime kind link Hc Hid Hu Hl) as (Hm & Hlen & Hw).
  destruct (trap_varbinds_read uptime kind link Hu Hl) as (read & Hr & Hf).
  eexists _, read. split_and!; [exact Hw|by apply message_decode_bytes|done|done].
Qed.

Lemma write_trap_correct_witness :
  exists bytes read,
    write_trap [] [112; 117; 98] true 7 42 LinkDown (Some (mk_link 3 1 2)) = Some ([] ++ bytes) /\
    message_decode bytes
    = Ok (mk_message 1 [112; 117; 98] TInformRequest 7 0 0
            (trap_body 42 LinkDown (Some (mk_link 3 1 2)))) /\
    varbinds_collect 6 (trap_body 42 LinkDown (Some (mk_link 3 1 2))) = Ok read /\
    Forall2 (fun '(oid, tag, value) vb =>
      vb_name vb = Ok oid /\ vb_value_tag vb = tag_byte tag /\ vb_value vb = value)
      (trap_varbinds 42 LinkDown (Some (mk_link 3 1 2))) read.
Proof.
  apply (write_trap_correct [] [112; 117; 98] true 7 42 LinkDown (Some (mk_link 3 1 2))).
  - vm_compute. discriminate.
  - vm_compute. split; discriminate.
  - unfold is_u32. lia.
  - intros l [= <-]. repeat split; vm_compute; discriminate.
Defined.

(** ** Readings *)

Lemma push_subidentifier_u32 first value acc l :
  0 <= value -> Forall is_u32 acc -> push_subidentifier first value acc = Some l -> Forall is_u32 l.
Proof.
  unfold push_subidentifier, u32_try_from. intros Hv Ha.
  destruct first; repeat case_match; intros [= <-]; zbool; simplify_eq;
    apply Forall_app; split; try done; repeat constructor; unfold is_u32; lia.
Qed.

Lemma decode_loop_u32 body : forall value started first acc l,
  0 <= value -> Forall is_u32 acc -> decode_loop body value started first acc = Some l -> Forall is_u32 l.
Proof.
  induction body as [|octet body IH]; intros value started first acc l Hv Ha; cbn [decode_loop].
  { destruct started; [done|]. by intros [= <-]. }
  destruct (negb started && _); [done|]. set (v' := Z.lor _ _).
  assert (0 <= v').
  { unfold v'. apply Z.lor_nonneg. split; [apply Z.mod_pos_bound; done|].
    apply Z.land_nonneg. right. lia. }
  destruct (_ <? _); [done|]. destruct (negb _); [by eauto|].
  destruct (push_subidentifier first v' acc) as [acc'|] eqn:E; [|done]. cbn.
  apply IH; [lia|]. eauto using push_subidentifier_u32.
Qed.

Lemma decode_ber_body_u32 body l : decode_ber_body body = Some l -> Forall is_u32 l.
Proof. destruct body; [done|]. unfold decode_ber_body. apply decode_loop_u32; [lia|by constructor]. Qed.

(** The interfaces and values the sink keeps are those of [i32]. *)
Lemma link_column_ok varbind c index v :
  link_column varbind = Ok (Some (c, index, v)) -> is_u32 index /\ to_i32 v <> None.
Proof.
  unfold link_column. intros Hl. repeat case_match; try done.
  all: destruct (to_i32 a2) as [v'|] eqn:Ev; cbn in Hl; [|done]; simplify_eq.
  all: match goal with E : ok_or (decode_ber_body ?b) _ = Ok ?l |- _ =>
    assert (Hu : Forall is_u32 l) by (destruct (decode_ber_body b) eqn:Ed; cbn in E; simplify_eq;
      by apply decode_ber_body_u32 in Ed) end.
  all: split; [destruct (a1 !! 10%nat) eqn:E10; cbn; [by eapply Forall_lookup_1|unfold is_u32; lia]|].
  all: assert (v = a2) by (unfold to_i32 in Ev; case_match; by simplify_eq); congruence.
Qed.

(** ** The wait for an acknowledgement *)

Section Inform.
Context {Addr : Type} `{Countable Addr}.
Implicit Types (s : TrapSink Addr) (p : Process Addr) (l : list (Z * Arrival Addr)).

(** Whether an arrival is the acknowledgement of [id] from [dest]. *)
Definition acknowledges (dest : Addr) (id : Z) (a : Z * Arrival Addr) : bool :=
  match a.2 with
  | Datagram peer bytes => bool_decide (peer = dest) && is_acknowledgement bytes id
  | ReceiveError => false
  end.

Definition is_datagram (a : Z * Arrival Addr) : bool :=
  match a.2 with Datagram _ _ => true | ReceiveError => false end.

Definition stray (dest : Addr) (id : Z) (a : Z * Arrival Addr) : Prop :=
  acknowledges dest id a = false.

(** The datagrams of [l]. *)
Definition datagrams l : Z := Z.of_nat (length (List.filter is_datagram l)).

Lemma datagrams_cons a l : datagrams (a :: l) = (if is_datagram a then 1 else 0) + datagrams l.
Proof. unfold datagrams. cbn. destruct (is_datagram a); cbn [length]; lia. Qed.

Lemma datagrams_nil : datagrams [] = 0.
Proof. done. Qed.

(** The first arrival of [l] is after [t]. *)
Definition later (t : Z) l : Prop :=
  match l with [] => True | (t', _) :: _ => t < t' end.

(** What a wait has read and how it ended. *)
Definition wait_result (dest : Addr) (c : option Z) (id deadline now : Z) (w : Wait) (now' : Z)
  (read l' : list (Z * Arrival Addr)) : Prop :=
  match w with
  | Acknowledged =>
      exists strays a, read = strays ++ [a] /\ Forall (stray dest id) strays /\
        acknowledges dest id a = true /\ a.1 <= now'
  | WaitStopped => Forall (stray dest id) read /\ cancelled_by c now' = true
  | Unanswered =>
      Forall (stray dest id) read /\ now' = deadline /\ cancelled_by c deadline = false /\
      (forallb is_datagram read = true -> later deadline l')
  end.

Lemma stop_at_by c now t :
  now <= t -> cancelled_by c t = true ->
  now <= stop_at c now <= t /\ cancelled_by c (stop_at c now) = true.
Proof. unfold cancelled_by, stop_at. destruct c as [c|]; [|done]. cbn. intros. zbool. lia. Qed.

Lemma wait_loop_spec dest c id deadline l : forall now n w now' l' n',
  now <= deadline ->
  wait_loop dest c id deadline now l n = (w, now', l', n') ->
  exists read, l = read ++ l' /\ now <= now' <= deadline /\
    n' = n + datagrams read - match w with Acknowledged => 1 | _ => 0 end /\
    wait_result dest c id deadline now w now' read l'.
Proof.
  assert (Hidle : forall now (n : Z) w now' l (l' : list (Z * Arrival Addr)) n', now <= deadline -> later deadline l ->
    (let end_ := Z.max now deadline in
     if cancelled_by c end_ then (WaitStopped, stop_at c now, l, n) else (Unanswered, end_, l, n))
    = (w, now', l', n') ->
    l' = l /\ n' = n /\ now <= now' <= deadline /\ w <> Acknowledged /\
    wait_result dest c id deadline now w now' [] l').
  { intros now n w now' l0 l' n' Hn Hl. cbn zeta. rewrite Z.max_r by lia.
    destruct (cancelled_by c deadline) eqn:E; intros [= <- <- <- <-];
      [pose proof (stop_at_by c now deadline Hn E)|]; cbn; split_and!; (done || lia || tauto). }
  induction l as [|[t a] l IH]; intros now n w now' l' n' Hn; cbn [wait_loop].
  { intros Hw. apply Hidle in Hw as (-> & -> & Hb & Hw & Hr); [|lia|done].
    exists []. rewrite datagrams_nil. destruct w; split_and!; (done || lia || apply Hr). }
  destruct (Z.leb_spec t (Z.max now deadline)) as [Ht|Ht].
  2: { intros Hw. apply Hidle in Hw as (-> & -> & Hb & Hw & Hr); [|lia|cbn; lia].
       exists []. rewrite datagrams_nil. destruct w; split_and!; (done || lia || apply Hr). }
  destruct (cancelled_by c (Z.max now t)) eqn:Ec.
  { intros [= <- <- <- <-]. pose proof (stop_at_by c now (Z.max now t) ltac:(lia) Ec).
    exists []. rewrite datagrams_nil. cbn. split_and!; (done || lia || tauto). }
  destruct a as [peer bytes|].
  - destruct (bool_decide (peer = dest) && is_acknowledgement bytes id) eqn:Ea.
    + intros [= <- <- <- <-]. exists [(t, Datagram peer bytes)]. split; [done|].
      split; [lia|]. split; [rewrite datagrams_cons, datagrams_nil; cbn; lia|].
      exists [], (t, Datagram peer bytes). cbn. split_and!; try done. lia.
    + intros Hw. apply IH in Hw as (read & -> & Hb & -> & Hr); [|lia].
      exists ((t, Datagram peer bytes) :: read). rewrite datagrams_cons. cbn [is_datagram snd].
      split; [done|]. split; [lia|]. split; [lia|].
      destruct w; cbn [wait_result] in *.
      * destruct Hr as (strays & a & -> & Hs & Ha & Hle). exists ((t, Datagram peer bytes) :: strays), a.
        split_and!; try done. by constructor.
      * destruct Hr as (Hs & -> & Hc & Hl). split_and!; try done. by constructor.
      * destruct Hr as (Hs & Hc). split; [|done]. by constructor.
  - cbn zeta. rewrite Z.max_r by lia. intros Hw.
    destruct (cancelled_by c deadline) eqn:E; injection Hw as <- <- <- <-;
      exists [(t, ReceiveError)]; rewrite datagrams_cons, datagrams_nil; cbn;
      [pose proof (stop_at_by c (Z.max now t) deadline ltac:(lia) E)|];
      split_and!; (done || lia || tauto || by repeat constructor).
Qed.

(** ** The sends of a notification *)

(** The datagrams of consecutive sends, [every] apart; [oks] are their outcomes. *)
Fixpoint sends_of (at_ every : Z) (dest : Addr) (id : Z) (kind : TrapKind) (link : option LinkVars)
  (bytes : list Z) (oks : list bool) : list (Sent Addr) :=
  match oks with
  | [] => []
  | ok :: oks => mk_sent at_ dest id kind link bytes ok
                 :: sends_of (at_ + every) every dest id kind link bytes oks
  end.

(** What the process is after sends that ended at [now]. *)
Definition process_after (p : Process Addr) (now : Z) (oks : list bool) (l : list (Sent Addr))
  : Process Addr :=
  mk_process (devices p) (warned p) now (drop (length oks) (failing p)) (sent p ++ l).

(** How the sends of an INFORM ended, after [oks] of [n], by [now]. *)
Definition inform_result (dest : Addr) (c : option Z) (id start every now : Z) (n : nat) (f : bool)
  (r : result Outcome bool) (oks : list bool) (read l' : list (Z * Arrival Addr)) : Prop :=
  match r with
  | Ok Done =>
      exists strays a, read = strays ++ [a] /\ Forall (stray dest id) strays /\
        acknowledges dest id a = true /\ a.1 <= now
  | Ok Stopped => Forall (stray dest id) read /\ cancelled_by c now = true
  | Err failed =>
      Forall (stray dest id) read /\ length oks = n /\ now = start + Z.of_nat n * every /\
      (n <> O -> cancelled_by c now = false) /\ failed = f || existsb negb oks /\
      (n <> O -> forallb is_datagram read = true -> later now l')
  end.

Lemma cancelled_by_mono c t t' : t <= t' -> cancelled_by c t = true -> cancelled_by c t' = true.
Proof. unfold cancelled_by. destruct c; [|done]. intros. zbool. lia. Qed.

Lemma datagrams_app l l' : datagrams (l ++ l') = datagrams l + datagrams l'.
Proof. unfold datagrams. rewrite List.filter_app, length_app. lia. Qed.

(** The send and the wait of one turn of [send_loop]. *)
Lemma send_loop_spec n : forall id kind link bytes f s p r s' p',
  0 <= timeout (t_settings s) ->
  send_loop n id kind link bytes f s p = (r, s', p') ->
  exists oks read, inbox s = read ++ inbox s' /\
    s' = set_inbox s (inbox s') (ignored s + datagrams read
           - match r with Ok Done => 1 | _ => 0 end) /\
    p' = process_after p (clock p') oks
           (sends_of (clock p) (timeout (t_settings s)) (destination s) id kind link bytes oks) /\
    (length oks <= n)%nat /\ (n <> O -> oks <> []) /\ (oks = [] -> read = []) /\
    clock p <= clock p' <= clock p + Z.of_nat (length oks) * timeout (t_settings s) /\
    inform_result (destination s) (cancel s) id (clock p) (timeout (t_settings s)) (clock p') n f r
      oks read (inbox s').
Proof.
  induction n as [|n IH]; intros id kind link bytes f s p r s' p' Ht; cbn [send_loop].
  { intros [= <- <- <-]. exists [], []. rewrite datagrams_nil.
    split_and!; try done; try (cbn; lia).
    - destruct s. unfold set_inbox. cbn. f_equal. lia.
    - destruct p. unfold process_after. cbn. by rewrite app_nil_r.
    - cbn. rewrite orb_false_r. split_and!; (done || lia). }
  unfold send_to. set (ok := match failing p with [] => true | fails :: _ => negb fails end).
  unfold acknowledged. cbn [clock].
  destruct (wait_loop _ _ _ _ _ _ _) as [[[w now'] l'] n'] eqn:Ew.
  apply wait_loop_spec in Ew as (read & Hi & Hb & -> & Hr); [|lia].
  set (s1 := set_inbox s l' _). set (p1 := set_clock _ now').
  assert (Hp1 : p1 = process_after p now' [ok]
      (sends_of (clock p) (timeout (t_settings s)) (destination s) id kind link bytes [ok])).
  { unfold p1, set_clock, process_after. cbn. destruct (failing p); reflexivity. }
  destruct w; cbn [wait_result] in Hr.
  - intros [= <- <- <-]. exists [ok], read. rewrite Hp1. cbn [clock process_after].
    cbn. split_and!; try done; try lia.
  - destruct Hr as (Hs & -> & Hc & Hl). intros Hw. apply IH in Hw; [|done].
    destruct Hw as (oks & read' & Hi' & Hs' & Hp' & Hn & _ & He & Hb' & Hr).
    cbn [s1 inbox t_settings set_inbox destination cancel ignored] in *.
    assert (Hc1 : clock p1 = clock p + timeout (t_settings s)) by done. rewrite Hc1 in *.
    exists (ok :: oks), (read ++ read'). rewrite datagrams_app. cbn [length].
    split_and!; try done; try lia.
    + by rewrite Hi, Hi', app_assoc.
    + rewrite Hs'. unfold s1, set_inbox. cbn. f_equal. lia.
    + rewrite Hp', Hp1. unfold process_after. cbn [clock devices warned failing sent sends_of].
      rewrite drop_drop, <- app_assoc. cbn [app length]. do 2 f_equal.
    + destruct r as [[|]|failed]; cbn [inform_result] in *.
      * destruct Hr as (strays & a & -> & Hss & Ha & Hle). exists (read ++ strays), a.
        rewrite Forall_app, app_assoc. done.
      * destruct Hr as [Hss Hcc]. by rewrite Forall_app.
      * destruct Hr as (Hss & <- & Hnow & Hnc & -> & Hlat). rewrite Forall_app.
        split_and!; try done; try lia.
        -- intros _. destruct oks as [|ok' oks]; [|by apply Hnc].
           cbn in Hnow. rewrite Z.add_0_r in Hnow. by rewrite Hnow.
        -- cbn [existsb]. by rewrite orb_assoc.
        -- intros _. rewrite forallb_app, andb_true_iff. intros [Hd Hd'].
           destruct oks as [|ok' oks]; [|by apply Hlat].
           rewrite He in Hi' by done. cbn in Hi', Hnow. rewrite <- Hi', Hnow, Z.add_0_r. by apply Hl.
  - intros [= <- <- <-]. exists [ok], read. rewrite Hp1. cbn [clock process_after].
    cbn. destruct Hr. split_and!; try done; try lia.
Qed.

(** What [TrapConfig::settings] lets through: a wait that is no negative time,
    an octet of retries, and a community no longer than an SNMP field. *)
Definition settings_ok (st : TrapSettings) : Prop :=
  0 <= timeout st /\ 0 <= retries st <= 255 /\ Z.of_nat (length (community st)) <= 65535.

Lemma next_request_id_ok ids : 0 <= (next_request_id ids).1 <= 2147483647.
Proof.
  unfold next_request_id. cbn [fst]. replace (Z.land ids _) with (ids mod 2 ^ 31) by (symmetry; apply (Z.land_ones ids 31); lia).
  pose proof (Z.mod_pos_bound ids (2 ^ 31) ltac:(lia)).
  unfold to_i32. destruct (_ && _) eqn:E; cbn; lia.
Qed.

Lemma uptime_ticks_ok s now : is_u32 (uptime_ticks s now).
Proof.
  unfold is_u32, uptime_ticks.
  pose proof (Z.mod_pos_bound (sat_sub now (created s) / 1000000 / 10) 4294967296 ltac:(lia)). lia.
Qed.

(** The message of a notification is always written. *)
Lemma send_message s kind link now :
  settings_ok (t_settings s) -> (forall lk, link = Some lk -> link_ok lk) ->
  exists bytes, write_trap [] (community (t_settings s)) (inform (t_settings s))
    (next_request_id (request_ids s)).1 (uptime_ticks s now) kind link = Some bytes.
Proof.
  intros (_ & _ & Hc) Hl.
  destruct (write_trap_app [] (community (t_settings s)) (inform (t_settings s))
    (next_request_id (request_ids s)).1 (uptime_ticks s now) kind link) as (_ & _ & Hw); [done|..].
  - apply next_request_id_ok.
  - apply uptime_ticks_ok.
  - done.
  - by eexists.
Qed.

(** The sink after a send that left [l] in its inbox and counted [n] strays. *)
Definition sink_after s l (n : Z) : TrapSink Addr :=
  set_inbox (set_request_ids s (next_request_id (request_ids s)).2) l n.

(** The process after a send; only a failed INFORM may mark a warning. *)
Definition after_sends p (p' : Process Addr) (oks : list bool) (new : list (Sent Addr)) : Prop :=
  devices p' = devices p /\ sent p' = sent p ++ new /\ failing p' = drop (length oks) (failing p) /\
  clock p <= clock p'.

(** How a notification was sent: the outcomes of its sends, what it read, and
    how it ended. *)
Definition send_result s p (kind : TrapKind) (r : result Outcome TrapError) (oks : list bool)
  (read : list (Z * Arrival Addr)) s' (p' : Process Addr) : Prop :=
  let st := t_settings s in
  let id := (next_request_id (request_ids s)).1 in
  match r with
  | Ok Done =>
      if inform st then
        exists strays a, read = strays ++ [a] /\ Forall (stray (destination s) id) strays /\
          acknowledges (destination s) id a = true /\ a.1 <= clock p' /\
          clock p' <= clock p + (retries st + 1) * timeout st
      else oks = [true] /\ clock p' = clock p
  | Ok Stopped =>
      inform st = true /\ Forall (stray (destination s) id) read /\
      cancelled_by (cancel s) (clock p') = true /\
      clock p' <= clock p + (retries st + 1) * timeout st
  | Err e =>
      if inform st then
        Forall (stray (destination s) id) read /\ Z.of_nat (length oks) = retries st + 1 /\
        clock p' = clock p + (retries st + 1) * timeout st /\
        cancelled_by (cancel s) (clock p') = false /\
        e = NotAcknowledged kind (retries st + 1) (existsb negb oks) /\
        (forallb is_datagram read = true -> later (clock p') (inbox s'))
      else e = SendFailed kind /\ oks = [false] /\ clock p' = clock p
  end.

Lemma send_loop_lift s p kind link bytes r0 s' p0 :
  settings_ok (t_settings s) -> inform (t_settings s) = true ->
  send_loop (S (Z.to_nat (retries (t_settings s)))) (next_request_id (request_ids s)).1 kind link bytes
    false (set_request_ids s (next_request_id (request_ids s)).2) p = (r0, s', p0) ->
  exists oks read, inbox s = read ++ inbox s' /\ oks <> [] /\
    s' = sink_after s (inbox s') (ignored s + datagrams read
           - match r0 with Ok Done => 1 | _ => 0 end) /\
    after_sends p p0 oks (sends_of (clock p) (timeout (t_settings s)) (destination s)
           (next_request_id (request_ids s)).1 kind link bytes oks) /\
    Z.of_nat (length oks) <= retries (t_settings s) + 1 /\
    send_result s p kind (match r0 with
                          | Ok o => Ok o
                          | Err f => Err (NotAcknowledged kind (retries (t_settings s) + 1) f) end)
      oks read s' p0.
Proof.
  intros (Ht & Hr & _) Hi Hl. apply send_loop_spec in Hl; [|done].
  destruct Hl as (oks & read & Hin & Hs' & Hp' & Hn & Hne & _ & Hb & Hres).
  cbn [inbox ignored clock set_request_ids t_settings destination cancel] in *.
  exists oks, read. specialize (Hne ltac:(done)).
  assert (Hc : Z.of_nat (length oks) * timeout (t_settings s)
               <= (retries (t_settings s) + 1) * timeout (t_settings s)) by nia.
  split; [done|]. split; [done|]. split; [exact Hs'|].
  split; [rewrite Hp'; unfold after_sends; cbn; split_and!; (done || lia)|]. split; [lia|].
  unfold send_result. cbn zeta. rewrite Hi.
  destruct r0 as [[|]|f]; cbn [inform_result] in Hres.
  - destruct Hres as (strays & a & -> & Hss & Ha & Hle). exists strays, a. split_and!; try done. lia.
  - destruct Hres as [Hss Hcc]. split_and!; try done; lia.
  - destruct Hres as (Hss & Hlen & Hnow & Hcc & -> & Hlat). replace (Z.of_nat (S (Z.to_nat (retries (t_settings s))))) with (retries (t_settings s) + 1) in * by lia.
    split_and!; try done; try lia.
    + by apply Hcc.
    + by apply Hlat.
Qed.

(** [send], on both branches. *)
Lemma send_spec s p kind link :
  settings_ok (t_settings s) -> (forall lk, link = Some lk -> link_ok lk) ->
  exists r s' p' oks read bytes, send kind link s p = Some (r, s', p') /\
    write_trap [] (community (t_settings s)) (inform (t_settings s))
      (next_request_id (request_ids s)).1 (uptime_ticks s (clock p)) kind link = Some bytes /\
    inbox s = read ++ inbox s' /\
    s' = sink_after s (inbox s') (ignored s + datagrams read
           - (if inform (t_settings s) then match r with Ok Done => 1 | _ => 0 end else 0)) /\
    after_sends p p' oks (sends_of (clock p) (timeout (t_settings s)) (destination s)
           (next_request_id (request_ids s)).1 kind link bytes oks) /\
    (oks = [] -> r = Ok Stopped) /\
    Z.of_nat (length oks) <= (if inform (t_settings s) then retries (t_settings s) + 1 else 1) /\
    send_result s p kind r oks read s' p'.
Proof.
  intros Hst Hl. destruct (send_message s kind link (clock p) Hst Hl) as [bytes Hw].
  unfold send. destruct (next_request_id (request_ids s)) as [id ids] eqn:Eid. cbn [fst snd] in *.
  cbn [t_settings set_request_ids destination cancel request_ids].
  change (uptime_ticks (set_request_ids s ids) (clock p)) with (uptime_ticks s (clock p)).
  rewrite Hw. cbn [mbind option_bind].
  assert (Haft : forall l n, set_inbox (set_request_ids s ids) l n = sink_after s l n)
    by (intros; unfold sink_after; by rewrite Eid).
  destruct (inform (t_settings s)) eqn:Ei; cbn [negb].
  2: { unfold send_to. set (ok := match failing p with [] => true | fails :: _ => negb fails end).
       eexists _, _, _, [ok], [], bytes. split; [reflexivity|]. split; [done|].
       split; [done|]. split; [rewrite <- Haft, datagrams_nil; destruct s; unfold set_inbox, set_request_ids; cbn; f_equal; lia|].
       split; [unfold after_sends; cbn; split_and!; try done; destruct (failing p); done|].
       split; [done|]. split; [cbn; lia|].
       unfold send_result. rewrite Ei. destruct ok; done. }
  destruct (cancelled_by (cancel s) (clock p)) eqn:Ec.
  { eexists _, _, _, [], [], bytes. split; [reflexivity|]. split; [done|]. split; [done|].
    split; [rewrite <- Haft, datagrams_nil; destruct s; unfold set_inbox, set_request_ids; cbn; f_equal; lia|].
    destruct Hst as (Ht & Hr & _).
    split; [unfold after_sends; cbn; rewrite app_nil_r; split_and!; (done || lia)|].
    split; [done|]. split; [cbn; lia|].
    unfold send_result. rewrite Ei. split_and!; try done. nia. }
  destruct (send_loop _ _ _ _ _ _ _ _) as [[r0 s'] p0] eqn:El.
  pose proof (send_loop_lift s p kind link bytes r0 s' p0 Hst Ei) as Hlift. rewrite Eid in Hlift.
  specialize (Hlift El). cbn [fst snd] in Hlift.
  destruct Hlift as (oks & read & Hin & Hne & Hs' & Hp' & Hlen & Hres).
  destruct r0 as [o|f].
  { eexists _, _, _, oks, read, bytes. split; [reflexivity|]. split_and!; done. }
  destruct (warn_unacknowledged_due _ p0) as [due p1] eqn:Ew.
  assert (Hp1 : devices p1 = devices p0 /\ clock p1 = clock p0 /\ failing p1 = failing p0 /\ sent p1 = sent p0).
  { unfold warn_unacknowledged_due in Ew. destruct (negb _); injection Ew as _ <-; done. }
  destruct Hp1 as (H1 & H2 & H3 & H4).
  eexists _, _, _, oks, read, bytes. split; [reflexivity|]. split_and!; try done.
  - destruct Hp' as (? & ? & ? & ?). unfold after_sends. rewrite H1, H2, H3, H4. done.
  - unfold send_result in *. rewrite Ei, H2 in *. exact Hres.
Qed.

(** Arrivals in the order of time. *)
Definition in_order (l : list (Z * Arrival Addr)) : Prop := StronglySorted Z.le l.*1.

Lemma strays_before dest id t read l :
  Forall (stray dest id) read -> later t l -> in_order (read ++ l) ->
  Forall (fun a => a.1 <= t -> stray dest id a) (read ++ l).
Proof.
  intros Hs Hl Ho. apply Forall_app. split; [eapply Forall_impl; [exact Hs|done]|].
  unfold in_order in Ho. rewrite fmap_app in Ho. apply StronglySorted_app in Ho as (_ & _ & Ho).
  destruct l as [|[t' a] l]; [done|]. cbn in Hl, Ho. apply StronglySorted_inv in Ho as [_ Ho].
  constructor; [cbn; lia|]. rewrite Forall_fmap in Ho. eapply Forall_impl; [exact Ho|].
  cbn. intros [t1 a1] H1 H2. cbn in *. lia.
Qed.

(** C20: an INFORM is sent until it is acknowledged. [send] never panics; it
    hands the same message to the socket [retries + 1] times at most, [timeout]
    apart, and takes [(retries + 1) * timeout] at most. It is done only on a
    [Response] with its request-id from the destination, all before it counted as
    ignored; it stops only when the token is cancelled; otherwise every send
    was made, all the time taken, and nothing that came by then acknowledged it. *)
Theorem inform_correct s p kind link
    (Hi : inform (t_settings s) = true) (Hst : settings_ok (t_settings s))
    (Hl : forall lk, link = Some lk -> link_ok lk) :
  let st := t_settings s in
  let id := (next_request_id (request_ids s)).1 in
  exists r s' p' oks read bytes, send kind link s p = Some (r, s', p') /\
    write_trap [] (community st) true id (uptime_ticks s (clock p)) kind link = Some bytes /\
    sent p' = sent p ++ sends_of (clock p) (timeout st) (destination s) id kind link bytes oks /\
    Z.of_nat (length oks) <= retries st + 1 /\
    clock p <= clock p' <= clock p + (retries st + 1) * timeout st /\
    inbox s = read ++ inbox s' /\
    match r with
    | Ok Done => exists strays a, read = strays ++ [a] /\ Forall (stray (destination s) id) strays /\
        acknowledges (destination s) id a = true /\ a.1 <= clock p' /\
        ignored s' = ignored s + datagrams strays
    | Ok Stopped => cancelled_by (cancel s) (clock p') = true
    | Err e => e = NotAcknowledged kind (retries st + 1) (existsb negb oks) /\
        Z.of_nat (length oks) = retries st + 1 /\ clock p' = clock p + (retries st + 1) * timeout st /\
        cancelled_by (cancel s) (clock p') = false /\
        (in_order (inbox s) -> forallb is_datagram (inbox s) = true ->
         Forall (fun a => a.1 <= clock p' -> stray (destination s) id a) (inbox s))
    end.
Proof.
  intros st id. destruct (send_spec s p kind link Hst Hl)
    as (r & s' & p' & oks & read & bytes & Hs & Hw & Hin & Hs' & (_ & Hsent & _ & Hck) & _ & Hn & Hr).
  fold st id in Hw, Hsent. fold st in Hn, Hs', Hi. rewrite Hi in Hw, Hn, Hs'.
  exists r, s', p', oks, read, bytes. unfold send_result in Hr. cbn zeta in Hr. fold st id in Hr.
  rewrite Hi in Hr. split; [done|]. split; [done|]. split; [done|]. split; [done|].
  destruct r as [[|]|e].
  - destruct Hr as (strays & a & -> & Hf & Ha & Hle & Hle'). split; [done|]. split; [done|].
    exists strays, a. split_and!; try done. rewrite Hs'. cbn.
    rewrite datagrams_app, datagrams_cons, datagrams_nil.
    replace (is_datagram a) with true; [lia|]. unfold acknowledges, is_datagram in *. by destruct a.2.
  - destruct Hr as (_ & Hf & Hc & Hle). split; [done|]. by split.
  - destruct Hr as (Hf & Hlen & Hnow & Hc & -> & Hlat). split; [lia|]. split; [done|].
    split_and!; try done. intros Ho Hd. rewrite Hin, forallb_app in Hd.
    apply andb_true_iff in Hd as [Hd _]. rewrite Hin in Ho |- *. apply strays_before; auto.
Qed.

End Inform.

(** An INFORM whose first send is lost: it is sent again, and what comes from
    another address, or with another request-id, is ignored. *)
Definition ex_response (id : Z) : list Z :=
  [48; 21; 2; 1; 1; 4; 3; 112; 117; 98; 162; 11; 2; 1; id; 2; 1; 0; 2; 1; 0; 48; 0].

Definition ex_inform : TrapSettings := mk_settings [112; 117; 98] true 2000000000 1.

Definition ex_informer : TrapSink nat :=
  mk_sink 9%nat 1 ex_inform 0 5 ∅ 0 None
    [(100, Datagram 8%nat (ex_response 5)); (200, Datagram 9%nat (ex_response 6));
     (3000000000, Datagram 9%nat (ex_response 5))] None.

Lemma inform_correct_witness :
  exists r s' p', send ColdStart None ex_informer (mk_process ∅ ∅ 0 [] []) = Some (r, s', p') /\
    r = Ok Done /\ s_at <$> sent p' = [0; 2000000000] /\ ignored s' = 2 /\ clock p' = 3000000000.
Proof.
  destruct (inform_correct ex_informer (mk_process ∅ ∅ 0 [] []) ColdStart None)
    as (r & s' & p' & _ & _ & _ & Hs & _).
  - reflexivity.
  - repeat split; vm_compute; discriminate.
  - discriminate.
  - exists r, s', p'. split; [exact Hs|]. vm_compute in Hs. injection Hs as <- <- <-. repeat split.
Defined.
