(* ===== verification/TrapRun.v ===== *)
(** * TrapRun: the trap sinks of a process against their history

    The sinks of a process, created, written to and dropped in any order, as a
    step relation that keeps its history, newest first. The history says which
    sinks are live, what each has read, and with that what the code should send:
    coldStart by the first live sink of a launch on a destination, a link trap
    at each change of an interface's state between up and anything else. *)

From Stdlib Require Import ZArith Lia.
From stdpp Require Import prelude strings list gmap.
From S2P Require Import Prelude Text Metric Oid Ber OrdMap SnmpAgent SnmpSink Traps TrapProofs.

Section Run.
Context {Addr : Type} `{Countable Addr}.
Implicit Types (s : TrapSink Addr) (p : Process Addr).

(** ** Histories *)

(** [Watch]: one varbind of a record, which [watch] takes; [Return]: the end of
    a write, which takes the error of coldStart. *)
Inductive Act :=
| New (i : nat) (dest : Addr) (l : Z)
| Watch (i : nat) (varbind : list Z)
| Return (i : nat)
| Drop (i : nat)
| Cancel (i : nat) (c : option Z)
| Tick (now : Z).

(** The launch and destination of sink [i], while it lives. *)
Fixpoint device_of (h : list Act) (i : nat) : option (Z * Addr) :=
  match h with
  | [] => None
  | New j dest l :: h => if decide (i = j) then Some (l, dest) else device_of h i
  | Drop j :: h => if decide (i = j) then None else device_of h i
  | _ :: h => device_of h i
  end.

(** How many sinks of a device are live. *)
Fixpoint live (h : list Act) (dev : Z * Addr) : Z :=
  match h with
  | [] => 0
  | New _ dest l :: h => live h dev + (if decide ((l, dest) = dev) then 1 else 0)
  | Drop j :: h => live h dev - (if decide (device_of h j = Some dev) then 1 else 0)
  | _ :: h => live h dev
  end.

(** What a varbind says of an interface. *)
Definition reading (varbind : list Z) : option (Column * Z * Z) :=
  match link_column varbind with Ok r => r | Err _ => None end.

(** The last state of interface [index] that sink [i] has read. *)
Fixpoint last_oper (h : list Act) (i : nat) (index : Z) : option Z :=
  match h with
  | [] => None
  | New j _ _ :: h => if decide (i = j) then None else last_oper h i index
  | Watch j vb :: h =>
      match reading vb with
      | Some (OperStatus, index', v) =>
          if decide (i = j /\ index = index') then Some v else last_oper h i index
      | _ => last_oper h i index
      end
  | _ :: h => last_oper h i index
  end.

(** The last administrative state of [index] that a sink of the device has
    read since the device last had no live sink. *)
Fixpoint last_admin (h : list Act) (dev : Z * Addr) (index : Z) : option Z :=
  match h with
  | [] => None
  | New _ dest l :: h =>
      if decide ((l, dest) = dev /\ live h dev = 0) then None else last_admin h dev index
  | Watch j vb :: h =>
      match reading vb with
      | Some (AdminStatus, index', v) =>
          if decide (device_of h j = Some dev /\ index = index') then Some v
          else last_admin h dev index
      | _ => last_admin h dev index
      end
  | _ :: h => last_admin h dev index
  end.

(** ** What should be sent *)

(** The notification for a state of an interface, 1 being up, after [before]. *)
Definition link_event (before : option Z) (state : Z) : option TrapKind :=
  let! before := before in
  match bool_decide (before = 1), bool_decide (state = 1) with
  | true, false => Some LinkDown
  | false, true => Some LinkUp
  | _, _ => None
  end.

(** The link trap a reading of sink [i] calls for; an interface is up until
    a sink reads otherwise. *)
Definition wanted (h : list Act) (i : nat) (varbind : list Z) : option (TrapKind * LinkVars) :=
  match reading varbind, device_of h i with
  | Some (OperStatus, index, v), Some dev =>
      let! kind := link_event (last_oper h i index) v in
      Some (kind, mk_link index (default 1 (last_admin h dev index)) v)
  | _, _ => None
  end.

(** ** The process *)

Record World := mk_world { w_sinks : gmap nat (TrapSink Addr); w_process : Process Addr }.

Definition world0 (failing_ : list bool) (now : Z) : World :=
  mk_world ∅ (mk_process ∅ ∅ now failing_ []).

Definition put (w : World) (i : nat) s p : World := mk_world (<[i := s]> (w_sinks w)) p.

(** A step of the process. *)
Inductive step (w : World) : Act -> World -> Prop :=
| step_new i dest l st ids incoming s p :
    w_sinks w !! i = None -> settings_ok st ->
    new_in dest l st ids incoming (w_process w) = Some (s, p) ->
    step w (New i dest l) (put w i s p)
| step_watch i vb s r s' p :
    w_sinks w !! i = Some s -> watch vb s (w_process w) = Some (r, s', p) ->
    step w (Watch i vb) (put w i s' p)
| step_return i s :
    w_sinks w !! i = Some s ->
    step w (Return i) (put w i (set_pending s None) (w_process w))
| step_drop i s p :
    w_sinks w !! i = Some s -> drop_sink s (w_process w) = Some p ->
    step w (Drop i) (mk_world (delete i (w_sinks w)) p)
| step_cancel i s c :
    w_sinks w !! i = Some s -> step w (Cancel i c) (put w i (set_cancel c s) (w_process w))
| step_tick now :
    clock (w_process w) <= now ->
    step w (Tick now) (mk_world (w_sinks w) (set_clock (w_process w) now)).

(** The worlds that come after a history. *)
Inductive reach : list Act -> World -> Prop :=
| reach_nil failing_ now : reach [] (world0 failing_ now)
| reach_step h w a w' : reach h w -> step w a w' -> reach (a :: h) w'.

(** ** The invariant *)

(** The device of a sink, and how many of [m] are on [dev]. *)
Definition dev_of s : Z * Addr := (launch s, destination s).

Definition sinks_on (m : gmap nat (TrapSink Addr)) (dev : Z * Addr) : Z :=
  Z.of_nat (size (filter (fun e => dev_of e.2 = dev) m)).

(** What a sink is, after a history. *)
Definition sink_agrees (h : list Act) (i : nat) s : Prop :=
  settings_ok (t_settings s) /\ device_of h i = Some (dev_of s) /\
  forall index, opers s !! index = last_oper h i index.

Definition device_agrees (h : list Act) (dev : Z * Addr) (d : option Device) : Prop :=
  match d with
  | Some d => 0 < d_sinks d /\ live h dev = d_sinks d /\
              forall index, d_admin d !! index = last_admin h dev index
  | None => live h dev = 0
  end.

Record agrees (h : list Act) (w : World) : Prop := {
  agrees_sinks : forall i s, w_sinks w !! i = Some s -> sink_agrees h i s;
  agrees_dead : forall i, w_sinks w !! i = None -> device_of h i = None;
  agrees_devices : forall dev, device_agrees h dev (devices (w_process w) !! dev);
  agrees_admin : forall dev index v, last_admin h dev index = Some v -> to_i32 v <> None;
  agrees_live : forall dev, live h dev = sinks_on (w_sinks w) dev;
}.

(** *** Counting sinks *)

Definition one_if (P : Prop) `{Decision P} : Z := if decide P then 1 else 0.

Lemma sinks_on_insert m i s dev :
  m !! i = None -> sinks_on (<[i := s]> m) dev = sinks_on m dev + one_if (dev_of s = dev).
Proof.
  intros Hi. unfold sinks_on, one_if. rewrite map_filter_insert. cbn [snd].
  destruct (decide (dev_of s = dev)).
  - rewrite map_size_insert_None; [lia|]. apply map_lookup_filter_None. auto.
  - rewrite delete_id by done. lia.
Qed.

Lemma sinks_on_delete m i s dev :
  m !! i = Some s -> sinks_on (delete i m) dev = sinks_on m dev - one_if (dev_of s = dev).
Proof.
  intros Hi. rewrite <- (insert_id m i s) at 2 by done. rewrite <- insert_delete_eq.
  rewrite sinks_on_insert by apply lookup_delete_eq. lia.
Qed.

Lemma sinks_on_replace m i s s' dev :
  m !! i = Some s -> dev_of s' = dev_of s -> sinks_on (<[i := s']> m) dev = sinks_on m dev.
Proof.
  intros Hi Hd. rewrite <- insert_delete_eq, sinks_on_insert by apply lookup_delete_eq.
  rewrite (sinks_on_delete m i s) by done. rewrite Hd. lia.
Qed.

Lemma sinks_on_pos m i s : m !! i = Some s -> 0 < sinks_on m (dev_of s).
Proof.
  intros Hi. unfold sinks_on. enough (size (filter (fun e => dev_of e.2 = dev_of s) m) <> 0%nat) by lia.
  apply map_size_ne_0_lookup. exists i. exists s. by apply map_lookup_filter_Some.
Qed.

(** *** What the operations do *)

(** What a send of [call] adds to what the process has sent. *)
Definition notifies s p (call : option (TrapKind * option LinkVars)) (r : result Outcome TrapError)
  (p' : Process Addr) : Prop :=
  let st := t_settings s in
  let id := (next_request_id (request_ids s)).1 in
  match call with
  | None => sent p' = sent p /\ clock p' = clock p
  | Some (kind, link) =>
      exists oks bytes,
        write_trap [] (community st) (inform st) id (uptime_ticks s (clock p)) kind link = Some bytes /\
        sent p' = sent p ++ sends_of (clock p) (timeout st) (destination s) id kind link bytes oks /\
        Z.of_nat (length oks) <= (if inform st then retries st + 1 else 1) /\
        (oks = [] -> r = Ok Stopped) /\
        (r = Ok Stopped -> inform st = true /\ cancelled_by (cancel s) (clock p') = true)
  end.

(** What a send leaves of a sink and of the devices. *)
Definition kept s s' : Prop :=
  dev_of s' = dev_of s /\ t_settings s' = t_settings s /\ created s' = created s /\
  cancel s' = cancel s /\ pending s' = pending s.

Lemma send_notifies s p kind link :
  settings_ok (t_settings s) -> (forall lk, link = Some lk -> link_ok lk) ->
  exists r s' p', send kind link s p = Some (r, s', p') /\ kept s s' /\ opers s' = opers s /\
    devices p' = devices p /\ clock p <= clock p' /\ notifies s p (Some (kind, link)) r p'.
Proof.
  intros Hst Hl. destruct (send_spec s p kind link Hst Hl)
    as (r & s' & p' & oks & read & bytes & Hs & Hw & _ & Hs' & (Hd & Hsent & _ & Hck) & Ho & Hn & Hr).
  exists r, s', p'. split; [done|]. rewrite Hs'. split_and!; try done.
  exists oks, bytes. split_and!; try done. intros ->.
  unfold send_result in Hr. cbn in Hr. tauto.
Qed.

Definition opers_after (o : gmap Z Z) (vb : list Z) : gmap Z Z :=
  match reading vb with Some (OperStatus, i, v) => <[i := v]> o | _ => o end.

Definition admin_after (m : gmap Z Z) (vb : list Z) : gmap Z Z :=
  match reading vb with Some (AdminStatus, i, v) => <[i := v]> m | _ => m end.

Definition device_after (d : Device) (vb : list Z) : Device :=
  mk_device (d_sinks d) (admin_after (d_admin d) vb).

(** The link trap a varbind calls for, by the two maps. *)
Definition called (o m : gmap Z Z) (vb : list Z) : option (TrapKind * option LinkVars) :=
  match reading vb with
  | Some (OperStatus, index, v) =>
      let! kind := transition (o !! index) v in
      Some (kind, Some (mk_link index (default UP (m !! index)) v))
  | _ => None
  end.

Definition admins_ok (m : gmap Z Z) : Prop := forall index v, m !! index = Some v -> to_i32 v <> None.

Lemma watch_spec vb s p d :
  settings_ok (t_settings s) -> devices p !! dev_of s = Some d -> admins_ok (d_admin d) ->
  exists r s' p', watch vb s p = Some (r, s', p') /\ kept s s' /\
    opers s' = opers_after (opers s) vb /\
    devices p' = <[dev_of s := device_after d vb]> (devices p) /\ clock p <= clock p' /\
    notifies s p (called (opers s) (d_admin d) vb) r p' /\
    (called (opers s) (d_admin d) vb = None ->
     r = match link_column vb with Ok _ => Ok Done | Err e => Err e end).
Proof.
  intros Hst Hd Hm. unfold watch, opers_after, device_after, admin_after, called, reading.
  assert (Hsame : <[dev_of s := mk_device (d_sinks d) (d_admin d)]> (devices p) = devices p)
    by (apply insert_id; by destruct d).
  destruct (link_column vb) as [[[[[|] index] v]|]|e] eqn:El.
  - eexists _, s, _. split; [reflexivity|]. split_and!; try done; cbn [devices set_devices].
    apply map_eq. intros k. change (launch s, destination s) with (dev_of s).
    destruct (decide (k = dev_of s)) as [->|Hk].
    + by rewrite lookup_alter_eq, lookup_insert_eq, Hd.
    + by rewrite lookup_alter_ne, lookup_insert_ne.
  - rewrite Hsame. destruct (transition (opers s !! index) v) as [kind|] eqn:Et; cbn [mbind option_bind].
    2: { eexists _, _, p. split; [reflexivity|]. split_and!; try done. }
    change (launch (set_opers s _), destination (set_opers s _)) with (dev_of s).
    rewrite Hd. cbn [mbind option_bind].
    destruct (send_notifies (set_opers s (<[index:=v]> (opers s))) p kind
      (Some (mk_link index (default UP (d_admin d !! index)) v))) as (r & s' & p' & Hs & Hk & Ho & Hdv & Hc & Hn);
      [done| |].
    { intros lk [= <-]. apply link_column_ok in El as [Hi Hv]. split_and!; try done. cbn.
      destruct (d_admin d !! index) as [v0|] eqn:E; cbn; [by eapply Hm|done]. }
    exists r, s', p'. split_and!; try done.
  - rewrite Hsame. eexists _, s, p. split; [reflexivity|]. by split_and!.
  - rewrite Hsame. eexists _, s, p. split; [reflexivity|]. by split_and!.
Qed.

(** [new_in]: coldStart is sent by the first sink of a device, and its failure
    kept for a write. *)
Lemma new_in_spec dest l st ids incoming p :
  settings_ok st -> (forall d, devices p !! (l, dest) = Some d -> 0 < d_sinks d) ->
  let s0 := mk_sink dest l st (clock p) ids ∅ 0 None incoming None in
  let first := bool_decide (devices p !! (l, dest) = None) in
  let d := default default_device (devices p !! (l, dest)) in
  exists r s p', new_in dest l st ids incoming p = Some (s, p') /\
    dev_of s = (l, dest) /\ t_settings s = st /\ opers s = ∅ /\ cancel s = None /\
    devices p' = <[(l, dest) := mk_device (d_sinks d + 1) (d_admin d)]> (devices p) /\
    clock p <= clock p' /\
    notifies s0 p (if first then Some (ColdStart, None) else None) r p' /\
    pending s = (if first then match r with Err e => Some e | Ok _ => None end else None).
Proof.
  intros Hst Hpos s0 first d. unfold new_in, join_device. fold d.
  assert (Hf : (d_sinks d + 1 =? 1) = first).
  { unfold first, d. destruct (devices p !! (l, dest)) as [d0|] eqn:E; cbn.
    - specialize (Hpos d0 eq_refl). apply Z.eqb_neq. lia.
    - done. }
  cbn [d_sinks d_admin]. rewrite Hf. cbn [clock set_devices]. fold s0.
  set (p1 := set_devices p _). destruct first.
  - destruct (send_notifies s0 p1 ColdStart None Hst) as (r & s' & p' & Hs & Hk & Ho & Hdv & Hc & Hn);
      [done|]. rewrite Hs. cbn [mbind option_bind].
    destruct Hk as (H1 & H2 & H3 & H4 & H5).
    exists r. eexists _, p'. split; [reflexivity|].
    destruct r; cbn; split_and!; try done.
  - eexists (Ok Done), _, p1. split; [reflexivity|]. split_and!; try done.
Qed.

(** *** The invariant holds *)

Lemma agrees_device h w i s :
  agrees h w -> w_sinks w !! i = Some s ->
  exists d, devices (w_process w) !! dev_of s = Some d /\ 0 < d_sinks d /\ admins_ok (d_admin d) /\
    forall index, d_admin d !! index = last_admin h (dev_of s) index.
Proof.
  intros Ha Hi. pose proof (agrees_devices _ _ Ha (dev_of s)) as Hd.
  pose proof (sinks_on_pos _ _ _ Hi) as Hp. rewrite <- (agrees_live _ _ Ha) in Hp.
  destruct (devices (w_process w) !! dev_of s) as [d|] eqn:E; cbn [device_agrees] in Hd; [|lia].
  destruct Hd as (H1 & H2 & H3). exists d. split_and!; try done.
  intros index v. rewrite H3. apply (agrees_admin _ _ Ha).
Qed.

(** The steps that change no reading. *)
Definition same_history (a : Act) : bool :=
  match a with Return _ | Cancel _ _ | Tick _ => true | _ => false end.

Lemma agrees_same h w w' a :
  agrees h w -> same_history a = true -> devices (w_process w') = devices (w_process w) ->
  (forall i, match w_sinks w !! i, w_sinks w' !! i with
             | Some s, Some s' => dev_of s' = dev_of s /\ t_settings s' = t_settings s /\ opers s' = opers s
             | None, None => True
             | _, _ => False
             end) ->
  (forall dev, sinks_on (w_sinks w') dev = sinks_on (w_sinks w) dev) -> agrees (a :: h) w'.
Proof.
  intros Ha Hsame Hd Hs Hon.
  assert (device_of (a :: h) = device_of h /\ live (a :: h) = live h /\
          last_oper (a :: h) = last_oper h /\ last_admin (a :: h) = last_admin h)
    as (E1 & E2 & E3 & E4) by (by destruct a).
  split; rewrite ?E1, ?E2, ?E3, ?E4.
  - intros i s' Hi. specialize (Hs i). rewrite Hi in Hs.
    destruct (w_sinks w !! i) as [s|] eqn:E; [|done]. destruct Hs as (D & T & O).
    unfold sink_agrees. rewrite E1, E3, D, T, O. by apply Ha.
  - intros i Hi. specialize (Hs i). rewrite Hi in Hs.
    destruct (w_sinks w !! i) eqn:E; [done|]. by apply (agrees_dead _ _ Ha).
  - intros dev. rewrite Hd. pose proof (agrees_devices _ _ Ha dev) as Hdv.
    unfold device_agrees in *. by rewrite E2, E4.
  - apply Ha.
  - intros dev. rewrite Hon. apply Ha.
Qed.

Lemma agrees_put_same h w i s s' p' a :
  agrees h w -> same_history a = true -> w_sinks w !! i = Some s ->
  devices p' = devices (w_process w) -> dev_of s' = dev_of s -> t_settings s' = t_settings s ->
  opers s' = opers s -> agrees (a :: h) (put w i s' p').
Proof.
  intros Ha Hsame Hi Hd D T O. eapply agrees_same; [done..| |]; cbn [put w_sinks].
  - intros j. destruct (decide (j = i)) as [->|Hj].
    + by rewrite Hi, lookup_insert_eq.
    + rewrite lookup_insert_ne by done. by destruct (w_sinks w !! j).
  - intros dev. by eapply sinks_on_replace.
Qed.

Lemma agrees_watch h w i s s' p' vb d :
  agrees h w -> w_sinks w !! i = Some s -> devices (w_process w) !! dev_of s = Some d ->
  kept s s' -> opers s' = opers_after (opers s) vb ->
  devices p' = <[dev_of s := device_after d vb]> (devices (w_process w)) ->
  agrees (Watch i vb :: h) (put w i s' p').
Proof.
  intros Ha Hi Hd (D & T & _) O Hd'. destruct (agrees_sinks _ _ Ha i s Hi) as (Hset & Hdev & Hop).
  pose proof (agrees_devices _ _ Ha (dev_of s)) as Hds. rewrite Hd in Hds. destruct Hds as (Hp & Hlv & Had).
  split; cbn [put w_sinks w_process].
  - intros j sj. destruct (decide (j = i)) as [->|Hj].
    + rewrite lookup_insert_eq. intros [= <-]. unfold sink_agrees. rewrite D, T, O. cbn [device_of last_oper].
      split_and!; try done. intros index. unfold opers_after.
      destruct (reading vb) as [[[[|] index'] v]|]; try apply Hop. destruct (decide _) as [[_ ->]|Hn].
      * by rewrite lookup_insert_eq.
      * rewrite lookup_insert_ne by naive_solver. apply Hop.
    + rewrite lookup_insert_ne by done. intros Hj'. destruct (agrees_sinks _ _ Ha j sj Hj') as (A & B & C).
      unfold sink_agrees. cbn [device_of last_oper]. split_and!; try done. intros index.
      destruct (reading vb) as [[[[|] index'] v]|]; try apply C. rewrite decide_False by tauto. apply C.
  - intros j. destruct (decide (j = i)) as [->|Hj]; [by rewrite lookup_insert_eq|].
    rewrite lookup_insert_ne by done. cbn [device_of]. apply (agrees_dead _ _ Ha).
  - intros dev. rewrite Hd'. destruct (decide (dev = dev_of s)) as [->|Hk].
    + rewrite lookup_insert_eq. cbn [device_agrees d_sinks d_admin device_after live last_admin].
      split_and!; try done. intros index. unfold admin_after. rewrite Hdev.
      destruct (reading vb) as [[[[|] index'] v]|]; try apply Had. destruct (decide _) as [[_ ->]|Hn].
      * by rewrite lookup_insert_eq.
      * rewrite lookup_insert_ne by naive_solver. apply Had.
    + rewrite lookup_insert_ne by done. pose proof (agrees_devices _ _ Ha dev) as Hx.
      unfold device_agrees in *. cbn [live last_admin]. destruct (devices _ !! dev); [|done].
      destruct Hx as (A & B & C). split_and!; try done. intros index. rewrite Hdev.
      destruct (reading vb) as [[[[|] index'] v]|]; try apply C. rewrite decide_False by naive_solver. apply C.
  - intros dev index v. cbn [last_admin]. destruct (reading vb) as [[[[|] index'] v']|] eqn:Er;
      try apply (agrees_admin _ _ Ha). destruct (decide _); [|apply (agrees_admin _ _ Ha)].
    intros [= <-]. unfold reading in Er. destruct (link_column vb) eqn:El; simplify_eq.
    by apply link_column_ok in El as [_ Hv].
  - intros dev. cbn [live]. rewrite (agrees_live _ _ Ha). symmetry. by eapply sinks_on_replace.
Qed.

Lemma agrees_new h w i dest l st s p' :
  agrees h w -> w_sinks w !! i = None -> settings_ok st ->
  let d := default default_device (devices (w_process w) !! (l, dest)) in
  dev_of s = (l, dest) -> t_settings s = st -> opers s = ∅ ->
  devices p' = <[(l, dest) := mk_device (d_sinks d + 1) (d_admin d)]> (devices (w_process w)) ->
  agrees (New i dest l :: h) (put w i s p').
Proof.
  intros Ha Hi Hst d D T O Hd'. pose proof (agrees_devices _ _ Ha (l, dest)) as Hds.
  split; cbn [put w_sinks w_process].
  - intros j sj. destruct (decide (j = i)) as [->|Hj].
    + rewrite lookup_insert_eq. intros [= <-]. unfold sink_agrees. cbn [device_of last_oper].
      rewrite D, T, O.
      split_and!; try done; [by rewrite decide_True|]. intros index. by rewrite decide_True.
    + rewrite lookup_insert_ne by done. intros Hj'. unfold sink_agrees. cbn [device_of last_oper].
      rewrite decide_False by done. destruct (agrees_sinks _ _ Ha j sj Hj') as (A & B & C).
      split_and!; try done. intros index. by rewrite decide_False by done.
  - intros j. destruct (decide (j = i)) as [->|Hj]; [by rewrite lookup_insert_eq|].
    rewrite lookup_insert_ne by done. cbn [device_of]. rewrite decide_False by done.
    apply (agrees_dead _ _ Ha).
  - intros dev. rewrite Hd'. destruct (decide (dev = (l, dest))) as [->|Hk].
    + rewrite lookup_insert_eq. cbn [device_agrees d_sinks d_admin live last_admin].
      rewrite decide_True by done. unfold d.
      destruct (devices (w_process w) !! (l, dest)) as [d0|]; cbn [default device_agrees from_option id] in *.
      * destruct Hds as (A & B & C). rewrite B. split_and!; try lia. intros index.
        rewrite decide_False by lia. apply C.
      * cbn. rewrite Hds. split_and!; try lia. intros index. by rewrite decide_True.
    + rewrite lookup_insert_ne by done. pose proof (agrees_devices _ _ Ha dev) as Hx.
      unfold device_agrees in *. cbn [live last_admin]. rewrite decide_False by done.
      destruct (devices _ !! dev); [|lia]. destruct Hx as (A & B & C). split_and!; try done; [lia|].
      intros index. rewrite decide_False by naive_solver. apply C.
  - intros dev index v. cbn [last_admin]. destruct (decide _); [done|]. apply (agrees_admin _ _ Ha).
  - intros dev. cbn [live]. rewrite (agrees_live _ _ Ha), sinks_on_insert by done. by rewrite D.
Qed.

Lemma agrees_drop h w i s p' :
  agrees h w -> w_sinks w !! i = Some s -> drop_sink s (w_process w) = Some p' ->
  agrees (Drop i :: h) (mk_world (delete i (w_sinks w)) p').
Proof.
  intros Ha Hi Hdrop. destruct (agrees_sinks _ _ Ha i s Hi) as (Hset & Hdev & Hop).
  destruct (agrees_device h w i s Ha Hi) as (d & Hd & Hp & _ & Had).
  pose proof (agrees_devices _ _ Ha (dev_of s)) as Hds. rewrite Hd in Hds. destruct Hds as (_ & Hlv & _).
  unfold drop_sink, leave_device in Hdrop. change (launch s, destination s) with (dev_of s) in Hdrop.
  rewrite Hd in Hdrop. destruct (d_sinks d <=? 0) eqn:E0; [zbool; lia|]. injection Hdrop as <-.
  split; cbn [w_sinks w_process devices set_devices].
  - intros j sj. rewrite lookup_delete_Some. intros [Hj Hj']. unfold sink_agrees.
    cbn [device_of last_oper]. rewrite decide_False by done. by apply (agrees_sinks _ _ Ha j sj).
  - intros j. cbn [device_of]. rewrite lookup_delete_None. destruct (decide (j = i)); [done|].
    intros [|Hj]; [done|]. by apply (agrees_dead _ _ Ha).
  - intros dev. unfold device_agrees. cbn [live last_admin]. rewrite Hdev.
    destruct (decide (dev = dev_of s)) as [->|Hk].
    + rewrite decide_True by done. destruct (d_sinks d - 1 =? 0) eqn:E1; zbool.
      * rewrite lookup_delete_eq. lia.
      * rewrite lookup_insert_eq. cbn [d_sinks d_admin]. split_and!; try done; lia.
    + rewrite decide_False by naive_solver. pose proof (agrees_devices _ _ Ha dev) as Hx.
      destruct (d_sinks d - 1 =? 0); [rewrite lookup_delete_ne by done|rewrite lookup_insert_ne by done];
        unfold device_agrees in Hx; destruct (devices _ !! dev); [|lia| |lia];
        destruct Hx as (A & B & C); split_and!; try done; lia.
  - intros dev index v. cbn [last_admin]. apply (agrees_admin _ _ Ha).
  - intros dev. cbn [live]. rewrite (agrees_live _ _ Ha), (sinks_on_delete _ _ s) by done.
    rewrite Hdev. unfold one_if. destruct (decide (Some (dev_of s) = Some dev)); destruct (decide (dev_of s = dev));
      congruence.
Qed.

Lemma reach_agrees h w : reach h w -> agrees h w.
Proof.
  induction 1 as [f now|h w a w' _ IH Hs].
  - split; cbn; try done.
  - destruct Hs as [i dest l st ids incoming s p' Hi Hst Hn|i vb s r s' p' Hi Hw|i s Hi|i s p' Hi Hd|i s c Hi|now Ht].
    + assert (Hpos : forall d, devices (w_process w) !! (l, dest) = Some d -> 0 < d_sinks d).
      { intros d Hd. pose proof (agrees_devices _ _ IH (l, dest)) as Hx. rewrite Hd in Hx. apply Hx. }
      destruct (new_in_spec dest l st ids incoming (w_process w) Hst Hpos)
        as (r & s1 & p1 & Hn1 & H1 & H2 & H3 & _ & H5 & _). simplify_eq.
      by eapply agrees_new.
    + destruct (agrees_sinks _ _ IH i s Hi) as (Hset & _).
      destruct (agrees_device h w i s IH Hi) as (d & Hd & _ & Hok & _).
      destruct (watch_spec vb s (w_process w) d Hset Hd Hok) as (r1 & s1 & p1 & Hw1 & H1 & H2 & H3 & _).
      simplify_eq. by eapply agrees_watch.
    + by eapply agrees_put_same.
    + by eapply agrees_drop.
    + by eapply agrees_put_same.
    + eapply agrees_same; [done..| |done]. cbn. intros i. by destruct (w_sinks w !! i).
Qed.

(** ** What a write sends *)

(** The sends of the notification [call] asks for, by a sink with settings
    [st] whose token is cancelled at [c]; it may be missing from [now] on only. *)
Definition block (st : TrapSettings) (dest : Addr) (c : option Z) (now : Z)
  (call : option (TrapKind * LinkVars)) (b : list (Sent Addr)) : Prop :=
  match call with
  | None => b = []
  | Some (kind, link) =>
      exists at_ id uptime bytes oks,
        b = sends_of at_ (timeout st) dest id kind (Some link) bytes oks /\
        write_trap [] (community st) (inform st) id uptime kind (Some link) = Some bytes /\
        Z.of_nat (length oks) <= (if inform st then retries st + 1 else 1) /\
        (oks = [] -> inform st = true /\ cancelled_by c now = true)
  end.

(** The sends of sink [i] for each of [vbs], read one after the other. *)
Fixpoint blocks (st : TrapSettings) (dest : Addr) (c : option Z) (now : Z) (h : list Act) (i : nat)
  (vbs : list (list Z)) (bs : list (list (Sent Addr))) : Prop :=
  match vbs, bs with
  | [], [] => True
  | vb :: vbs, b :: bs =>
      block st dest c now (wanted h i vb) b /\ blocks st dest c now (Watch i vb :: h) i vbs bs
  | _, _ => False
  end.

Lemma block_later st dest c now now' call b :
  now <= now' -> block st dest c now call b -> block st dest c now' call b.
Proof.
  intros Hn. unfold block. destruct call as [[kind link]|]; [|done].
  intros (a & id & u & bytes & oks & H1 & H2 & H3 & H4). exists a, id, u, bytes, oks. split_and!; try done.
  intros Ho. destruct (H4 Ho). split; [done|]. by eapply cancelled_by_mono.
Qed.

Lemma transition_event before v : transition before v = link_event before v.
Proof.
  destruct before as [b|]; [|done]. unfold transition, link_event, UP. cbn.
  rewrite !bool_decide_decide. destruct (decide (b = 1)), (decide (v = 1));
    destruct (Z.eqb_spec b 1), (Z.eqb_spec v 1); done.
Qed.

(** The varbinds that say something of an interface. *)
Definition column_arc (c : Column) : Z := match c with AdminStatus => 7 | OperStatus => 8 end.

Lemma reading_varbind c index v :
  0 <= index <= 2147483647 -> to_i32 v = Some v ->
  reading (varbind_bytes (mk_oid (IF_ENTRY ++ [column_arc c; index])) (tlv_bytes TInteger (i64_content v)))
  = Some (c, index, v).
Proof.
  intros Hi Hv. set (l := IF_ENTRY ++ [column_arc c; index]).
  assert (Hiv : is_i64 v) by (unfold is_i64; pose proof (to_i32_some v ltac:(congruence)); lia).
  assert (Ha : ber_arcs l).
  { left. split; [by right|]. split; [lia|]. destruct c; repeat constructor; unfold is_u32; cbn; lia. }
  pose proof (ber_body_short l Ha) as Hb. replace (length l) with 11%nat in Hb by done.
  pose proof (tlv_bytes_short TOid (ber_body l) ltac:(lia)).
  pose proof (i64_content_short v Hiv).
  pose proof (tlv_bytes_short TInteger (i64_content v) ltac:(lia)).
  unfold reading, link_column, varbind_bytes. cbn [arcs].
  rewrite <- (app_nil_r (tlv_bytes TSequence _)), expect_bytes by (rewrite length_app; lia).
  cbn [fst map_err]. rewrite expect_bytes by lia.
  cbn [fst map_err]. rewrite decode_encode by done.
  rewrite <- (app_nil_r (tlv_bytes TInteger _)), read_i64_bytes by done.
  assert (Hx : to_i32 index = Some index) by (unfold to_i32; case_match; [done|lia]).
  cbn [ok_or fst]. unfold l. rewrite Hv. destruct c; cbn; by rewrite Hx.
Qed.

(** One reading of a live sink. *)
Lemma watch_reach h w i s vb :
  reach h w -> w_sinks w !! i = Some s ->
  exists r s' p' b, watch vb s (w_process w) = Some (r, s', p') /\
    reach (Watch i vb :: h) (put w i s' p') /\ kept s s' /\ clock (w_process w) <= clock p' /\
    sent p' = sent (w_process w) ++ b /\
    block (t_settings s) (destination s) (cancel s) (clock p') (wanted h i vb) b /\
    (r = Ok Stopped -> cancelled_by (cancel s) (clock p') = true).
Proof.
  intros Hr Hi. pose proof (reach_agrees h w Hr) as Ha.
  destruct (agrees_sinks _ _ Ha i s Hi) as (Hset & Hdev & Hop).
  destruct (agrees_device h w i s Ha Hi) as (d & Hd & _ & Hok & Had).
  destruct (watch_spec vb s (w_process w) d Hset Hd Hok) as (r & s' & p' & Hw & Hk & Ho & Hdv & Hc & Hn & Hd0).
  assert (Hcall : called (opers s) (d_admin d) vb = (fun '(k, lk) => (k, Some lk)) <$> wanted h i vb).
  { unfold called, wanted. rewrite Hdev. destruct (reading vb) as [[[[|] index] v]|]; try done.
    rewrite Hop, Had, transition_event. by destruct (link_event _ _). }
  rewrite Hcall in Hn, Hd0.
  assert (Hreach : reach (Watch i vb :: h) (put w i s' p')) by (eapply reach_step; [done|by econstructor]).
  destruct (wanted h i vb) as [[kind lk]|]; cbn [fmap option_fmap option_map notifies block] in *.
  - destruct Hn as (oks & bytes & Hb & Hs & Hlen & Hoks & Hst). exists r, s', p'. eexists.
    split_and!; try done; [|intros Hx; by apply Hst].
    eexists _, _, _, bytes, oks. split_and!; try done. intros Hx. by apply Hst, Hoks.
  - destruct Hn as [Hs _]. exists r, s', p', []. rewrite app_nil_r. split_and!; try done.
    rewrite (Hd0 eq_refl). by destruct (link_column vb).
Qed.

Lemma put_sink_twice w i s p s' p' : put (put w i s p) i s' p' = put w i s' p'.
Proof. unfold put. cbn. by rewrite insert_insert_eq. Qed.

Lemma put_sink_same w i s : w_sinks w !! i = Some s -> put w i s (w_process w) = w.
Proof. intros Hi. unfold put. rewrite insert_id by done. by destruct w. Qed.

(** The history after sink [i] has read [vbs]. *)
Definition watched (i : nat) (vbs : list (list Z)) (h : list Act) : list Act :=
  fold_left (fun h vb => Watch i vb :: h) vbs h.

Lemma watch_all_reach i l : forall o h w s,
  reach h w -> w_sinks w !! i = Some s ->
  exists r s' p' vbs bs, watch_all l o s (w_process w) = Some (r, s', p') /\
    vbs `prefix_of` l /\ reach (watched i vbs h) (put w i s' p') /\ kept s s' /\
    clock (w_process w) <= clock p' /\ sent p' = sent (w_process w) ++ concat bs /\
    blocks (t_settings s) (destination s) (cancel s) (clock p') h i vbs bs /\
    match r with
    | Ok Done => vbs = l
    | Ok Stopped => o = Stopped \/ cancelled_by (cancel s) (clock p') = true
    | Err _ => True
    end.
Proof.
  induction l as [|vb l IH]; intros o h w s Hr Hi; cbn [watch_all].
  { eexists _, s, _, [], []. split; [reflexivity|]. rewrite put_sink_same, app_nil_r by done.
    split_and!; try done. destruct o; auto. }
  destruct o.
  2: { eexists _, s, _, [], []. split; [reflexivity|]. rewrite put_sink_same, app_nil_r by done.
       split_and!; try done; [apply prefix_nil|]. by left. }
  destruct (watch_reach h w i s vb Hr Hi) as (r & s1 & p1 & b & Hw & Hr1 & Hk & Hc & Hs & Hb & Hst).
  rewrite Hw. cbn [mbind option_bind]. destruct Hk as (K1 & K2 & K3 & K4 & K5).
  assert (Hde : destination s1 = destination s) by (unfold dev_of in K1; congruence).
  destruct r as [o|e].
  2: { eexists _, s1, p1, [vb], [b]. split; [reflexivity|]. cbn [concat blocks watched fold_left].
       rewrite app_nil_r. split_and!; try done. apply prefix_cons, prefix_nil. }
  destruct (IH o (Watch i vb :: h) (put w i s1 p1) s1 Hr1 (lookup_insert_eq _ _ _))
    as (r & s2 & p2 & vbs & bs & Hw2 & Hp & Hr2 & (L1 & L2 & L3 & L4 & L5) & Hc2 & Hs2 & Hb2 & Hd2).
  rewrite put_sink_twice in Hr2. cbn [put w_process] in *. rewrite K2, Hde, K4 in Hb2. rewrite K4 in Hd2.
  exists r, s2, p2, (vb :: vbs), (b :: bs). cbn [concat blocks]. split_and!; try done; try lia.
  - by apply prefix_cons.
  - unfold kept. split_and!; congruence.
  - by rewrite Hs2, Hs, app_assoc.
  - by eapply block_later.
  - destruct r as [[|]|]; try done; [by subst|]. right. destruct Hd2 as [->|]; [|done].
    eapply cancelled_by_mono; [done|]. by apply Hst.
Qed.

(** C13: link traps are the transitions. A write to a live sink, after any
    history, returns, and reads its varbinds in order, up to a failed send or a
    stop; for each it has sent one notification if the history calls for one,
    and nothing otherwise: a linkDown or linkUp where the interface's last state
    the sink has read was up and is not, or was not and is, with the last
    [ifAdminStatus] any live sink of its device has read. coldStart's failure is
    returned by the write that gets to its end. *)
Theorem link_traps_are_transitions h w i s encoded
    (Hr : reach h w) (Hi : w_sinks w !! i = Some s) :
  let st := t_settings s in
  exists r s' p', write_metric_event encoded s (w_process w) = Some (r, s', p') /\
    match split_record encoded with
    | Err e => r = Err (BadRecord e) /\ s' = s /\ p' = w_process w
    | Ok record =>
        exists vbs bs, vbs `prefix_of` record_varbinds record /\
          sent p' = sent (w_process w) ++ concat bs /\
          blocks st (destination s) (cancel s) (clock p') h i vbs bs /\
          (pending s' = pending s /\ reach (watched i vbs h) (put w i s' p') /\
           (r = Ok tt -> vbs = record_varbinds record \/ cancelled_by (cancel s) (clock p') = true) \/
           exists e, pending s = Some e /\ pending s' = None /\ r = Err e /\
           vbs = record_varbinds record /\ reach (Return i :: watched i vbs h) (put w i s' p'))
    end.
Proof.
  intros st. unfold write_metric_event. destruct (split_record encoded) as [record|e]; [|by eexists _, s, _].
  destruct (watch_all_reach i (record_varbinds record) Done h w s Hr Hi)
    as (r & s' & p' & vbs & bs & Hw & Hp & Hr' & (K1 & K2 & K3 & K4 & K5) & Hc & Hs & Hb & Hd).
  rewrite Hw. cbn [mbind option_bind]. destruct r as [[|]|e].
  - rewrite K5. destruct (pending s) as [e|] eqn:Ep.
    + eexists _, _, p'. split; [reflexivity|]. exists vbs, bs. split_and!; try done. right.
      exists e. split_and!; try done. rewrite <- (put_sink_twice w i s' p').
      apply (reach_step _ _ _ _ Hr'), step_return. apply lookup_insert_eq.
    + eexists _, s', p'. split; [reflexivity|]. exists vbs, bs. split_and!; try done. left. auto.
  - eexists _, s', p'. split; [reflexivity|]. exists vbs, bs. split_and!; try done. left.
    split_and!; try done. destruct Hd as [|Hd]; [done|auto].
  - eexists _, s', p'. split; [reflexivity|]. exists vbs, bs. split_and!; try done. left. by split_and!.
Qed.


(** ** The devices *)

(** C21: a device sends coldStart when its first sink is created. After any
    history, the count of a device is the number of live sinks of its launch on
    its destination, and there is no device without one; a live sink is always
    dropped, without an underflow. A sink is always created: the only live one
    of its device sends coldStart, and holds its failure for a later write; any
    other sends nothing. *)
Theorem cold_start_per_device h w (Hr : reach h w) :
  let on := sinks_on (w_sinks w) in
  (forall dev, match devices (w_process w) !! dev with
               | Some d => d_sinks d = on dev /\ 0 < on dev
               | None => on dev = 0
               end) /\
  (forall i s, w_sinks w !! i = Some s ->
     exists p', drop_sink s (w_process w) = Some p' /\ sent p' = sent (w_process w) /\
       reach (Drop i :: h) (mk_world (delete i (w_sinks w)) p')) /\
  (forall i dest l st ids incoming, w_sinks w !! i = None -> settings_ok st ->
     exists s p', new_in dest l st ids incoming (w_process w) = Some (s, p') /\
       reach (New i dest l :: h) (put w i s p') /\
       if bool_decide (on (l, dest) = 0) then
         exists (r : result Outcome TrapError) at_ id uptime bytes oks,
           sent p' = sent (w_process w) ++ sends_of at_ (timeout st) dest id ColdStart None bytes oks /\
           write_trap [] (community st) (inform st) id uptime ColdStart None = Some bytes /\
           oks <> [] /\ Z.of_nat (length oks) <= (if inform st then retries st + 1 else 1) /\
           pending s = match r with Err e => Some e | Ok _ => None end
       else sent p' = sent (w_process w) /\ pending s = None).
Proof.
  intros on. pose proof (reach_agrees h w Hr) as Ha.
  assert (Hdev : forall dev, match devices (w_process w) !! dev with
                             | Some d => d_sinks d = on dev /\ 0 < on dev
                             | None => on dev = 0 end).
  { intros dev. pose proof (agrees_devices _ _ Ha dev) as Hd.
    unfold device_agrees in Hd. rewrite (agrees_live _ _ Ha) in Hd. fold on in Hd.
    destruct (devices _ !! dev); [|done]. lia. }
  split; [done|]. split.
  - intros i s Hi. destruct (agrees_device h w i s Ha Hi) as (d & Hd & Hp & _).
    assert (exists p', drop_sink s (w_process w) = Some p' /\ sent p' = sent (w_process w)) as (p' & Hdr & Hs).
    { unfold drop_sink, leave_device. change (launch s, destination s) with (dev_of s). rewrite Hd.
      destruct (d_sinks d <=? 0) eqn:E; [zbool; lia|]. by eexists. }
    exists p'. split_and!; try done. eapply reach_step; [done|]. by econstructor.
  - intros i dest l st ids incoming Hi Hst. pose proof (Hdev (l, dest)) as Hx.
    destruct (new_in_spec dest l st ids incoming (w_process w) Hst)
      as (r & s & p' & Hn & H1 & H2 & H3 & H4 & H5 & H6 & H7 & H8).
    { intros d Hd. rewrite Hd in Hx. lia. }
    exists s, p'. split; [done|]. split; [eapply reach_step; [done|]; by econstructor|].
    destruct (devices (w_process w) !! (l, dest)) as [d|].
    + rewrite bool_decide_eq_false_2 by lia. rewrite bool_decide_eq_false_2 in H7, H8 by done.
      by destruct H7.
    + rewrite bool_decide_eq_true_2 by done. rewrite bool_decide_eq_true_2 in H7, H8 by done.
      destruct H7 as (oks & bytes & Hw & Hs & Hlen & Ho & Hc). cbn in Hw, Hs, Hlen, Hc.
      exists r. eexists _, _, _, bytes, oks. split_and!; try done.
      intros Hoks. by destruct (Hc (Ho Hoks)).
Qed.

End Run.

(** ** A device, played through *)

Definition ex_trap : TrapSettings := mk_settings [112; 117; 98] false 2000000000 3.

(** A varbind of interface 3, and a record of three: up, testing, down. *)
Definition ex_varbind (column v : Z) : list Z :=
  [48; 15; 6; 10; 43; 6; 1; 2; 1; 2; 2; 1; column; 3; 2; 1; v].

Definition ex_encoded : list Z :=
  [1; 2] ++ ex_varbind 8 1 ++ [1] ++ ex_varbind 7 3 ++ [1] ++ ex_varbind 8 2.

Definition ex_started (st : TrapSettings) : option (TrapSink nat * Process nat) :=
  new_in 9%nat 1 st 5 [] (w_process (world0 [] 0)).

Definition ex_sink : TrapSink nat :=
  match ex_started ex_trap with
  | Some (s, _) => s
  | None => mk_sink 9%nat 1 ex_trap 0 5 ∅ 0 None [] None
  end.

Definition ex_start : World :=
  match ex_started ex_trap with Some (s, p) => put (world0 [] 0) 0 s p | None => world0 [] 0 end.

Lemma ex_settings_hold : settings_ok ex_trap.
Proof. repeat split; vm_compute; discriminate. Qed.

Lemma ex_trap_reach : reach [New 0 9%nat 1] ex_start.
Proof.
  eapply (reach_step _ (world0 [] 0)); [constructor|].
  assert (E : exists s p, ex_started ex_trap = Some (s, p)) by (vm_compute; by do 2 eexists).
  destruct E as (s & p & E). unfold ex_start. rewrite E.
  apply step_new with (st := ex_trap) (ids := 5) (incoming := []);
    [done|apply ex_settings_hold|exact E].
Qed.

Lemma ex_sink_at : w_sinks ex_start !! 0%nat = Some ex_sink.
Proof. vm_compute. reflexivity. Qed.

Lemma link_traps_are_transitions_witness :
  exists r s' p', write_metric_event ex_encoded ex_sink (w_process ex_start) = Some (r, s', p') /\
    (fun x => (s_kind x, s_link x)) <$> sent p'
    = [(ColdStart, None); (LinkDown, Some (mk_link 3 3 2))].
Proof.
  destruct (link_traps_are_transitions [New 0 9%nat 1] ex_start 0 ex_sink ex_encoded ex_trap_reach ex_sink_at)
    as (r & s' & p' & Hw & _).
  exists r, s', p'. split; [exact Hw|]. vm_compute in Hw. injection Hw as _ _ <-. vm_compute. reflexivity.
Defined.

Lemma cold_start_per_device_witness :
  exists s p', new_in 9%nat 1 ex_trap 77 [] (w_process ex_start) = Some (s, p') /\
    s_kind <$> sent p' = [ColdStart].
Proof.
  destruct (cold_start_per_device [New 0 9%nat 1] ex_start ex_trap_reach) as (_ & _ & Hn).
  destruct (Hn 1%nat 9%nat 1 ex_trap 77 []) as (s & p' & Hnew & _).
  - vm_compute. reflexivity.
  - repeat split; vm_compute; discriminate.
  - exists s, p'. split; [exact Hnew|]. vm_compute in Hnew. injection Hnew as _ <-. vm_compute. reflexivity.
Defined.
