(* ===== verification/SnmpV3.v ===== *)
(** * SnmpV3: SNMPv3 messages and their checks
    (encoder/snmp/v3.rs, sink/snmp/usm.rs)

    Reading and writing the SNMPv3 message with the parameters of the User-based
    Security Model, and what that model says of a request: [decode],
    [write_message], [decrypt] and [verify]. A writer that can panic returns an
    option; a range of a buffer is its two ends. The counters behind the salts,
    which the code reaches through a reference, are passed and returned. *)

From Stdlib Require Import ZArith Lia.
From stdpp Require Import prelude strings list numbers.
From S2P Require Import Prelude Text Util Ber Usm.

Definition VERSION : Z := 3.
Definition USM : Z := 3.
Definition MIN_MSG_MAX_SIZE : Z := 484.
Definition MAX_FIELD : Z := 2147483647.
Definition MSG_MAX_SIZE : Z := 65507.
Definition AUTH_FLAG : Z := 0x01.
Definition PRIV_FLAG : Z := 0x02.
Definition REPORTABLE_FLAG : Z := 0x04.

Record Flags := mk_flags { f_auth : bool; f_privacy : bool; f_reportable : bool }.

#[export] Instance Flags_eq_dec : EqDecision Flags.
Proof. solve_decision. Defined.

(** [Flags::from_octet], [Flags::octet]. *)
Definition from_octet (octet : Z) : Flags :=
  mk_flags (negb (Z.land octet AUTH_FLAG =? 0)) (negb (Z.land octet PRIV_FLAG =? 0))
    (negb (Z.land octet REPORTABLE_FLAG =? 0)).

Definition flags_octet (f : Flags) : Z :=
  fold_left (fun octet '(_, flag) => Z.lor octet flag)
    (List.filter fst [(f_auth f, AUTH_FLAG); (f_privacy f, PRIV_FLAG); (f_reportable f, REPORTABLE_FLAG)])
    0.

Record UsmParams := mk_params {
  up_engine_id : list Z; up_boots : Z; up_time : Z; up_user : list Z;
  up_auth : list Z; up_priv : list Z }.

Record ScopedPdu := mk_scoped { context_engine_id : list Z; context_name : list Z; sp_pdu : Message }.

Record V3Message := mk_v3 {
  msg_id : Z;
  msg_max_size : Z;
  flags : Flags;
  security_model : Z;
  usm : UsmParams;
  auth_range : nat * nat;
  scoped : option ScopedPdu;
  encrypted : option (list Z);
}.

(** ** Reading *)

(** [field]. *)
Definition field (min : Z) (input : list Z) : result Z BerError * list Z :=
  let^ value; rest := read_i64 TInteger input in
  if negb ((min <=? value) && (value <=? MAX_FIELD)) then (Err Overflow, rest) else (Ok value, rest).

(** [scoped_pdu]. *)
Definition scoped_pdu (body : list Z) : result ScopedPdu BerError :=
  let (r, rest) := read_octets TOctetString body in
  let? engine_id := r in
  let (r, rest) := read_octets TOctetString rest in
  let? name := r in
  let (r, rest) := tlv rest in
  let? (pdu, pdu_body) := r in
  if negb (is_pdu pdu) || negb (bool_decide (rest = []))
  then Err (if is_pdu pdu then BadLength else BadTag (tag_byte pdu))
  else
    let? (request_id, error_status, error_index, varbinds) := decode_pdu_fields pdu_body in
    Ok (mk_scoped engine_id name
          (mk_message VERSION [] pdu request_id error_status error_index varbinds)).

(** The global data of a message. *)
Definition decode_global (input : list Z) : result (Z * Z * Flags * Z) BerError :=
  let (r, rest) := field 0 input in
  let? id := r in
  let (r, rest) := field MIN_MSG_MAX_SIZE rest in
  let? max_size := r in
  let (r, rest) := read_octets TOctetString rest in
  let? octets := r in
  match octets with
  | [octet] =>
      let (r, rest) := field 0 rest in
      let? model := r in
      if negb (bool_decide (rest = [])) then Err BadLength
      else Ok (id, max_size, from_octet octet, model)
  | _ => Err BadLength
  end.

(** The security parameters, with how many octets follow the authentication
    parameter in them. *)
Definition decode_params (input : list Z) : result (UsmParams * nat) BerError :=
  let (r, security) := expect TSequence input in
  let? params := r in
  if negb (bool_decide (security = [])) then Err BadLength
  else
    let (r, params) := read_octets TOctetString params in
    let? engine_id := r in
    let (r, params) := field 0 params in
    let? boots := r in
    let (r, params) := field 0 params in
    let? time := r in
    let (r, params) := read_octets TOctetString params in
    let? user := r in
    let (r, params) := read_octets TOctetString params in
    let? auth := r in
    let after := length params in
    let (r, params) := read_octets TOctetString params in
    let? priv := r in
    if negb (bool_decide (params = [])) then Err BadLength
    else Ok (mk_params engine_id boots time user auth priv, after).

(** [decode]. The authentication parameter is a subslice of the datagram: what
    follows it is the rest of the parameters and the data. *)
Definition v3_decode (datagram : list Z) : result V3Message BerError :=
  let (r, outer) := expect TSequence datagram in
  let? body := r in
  if negb (bool_decide (outer = [])) then Err BadLength
  else
    let (r, message) := read_i64 TInteger body in
    let? version := r in
    if negb (version =? VERSION) then Err (UnsupportedVersion version)
    else
      let (r, message) := expect TSequence message in
      let? global := r in
      let? (id, max_size, flags, model) := decode_global global in
      let (r, message) := read_octets TOctetString message in
      let? security := r in
      let? (params, after) := decode_params security in
      let stop := (length datagram - length message - after)%nat in
      let (r, message) := if f_privacy flags then read_octets TOctetString message
                          else expect TSequence message in
      let? data := r in
      let? (scoped, encrypted) :=
        if f_privacy flags then Ok (None, Some data)
        else let? s := scoped_pdu data in Ok (Some s, None) in
      if negb (bool_decide (message = [])) then Err BadLength
      else Ok (mk_v3 id max_size flags model params (stop - length (up_auth params), stop)%nat
                 scoped encrypted).

(** [decode_scoped_pdu]. *)
Definition decode_scoped_pdu (plain : list Z) (padding : nat) : result ScopedPdu BerError :=
  let (r, rest) := expect TSequence plain in
  let? body := r in
  let? s := scoped_pdu body in
  if (padding <? length rest)%nat then Err BadLength else Ok s.

(** ** Lengths *)

(** [auth_len], [privacy_of]. *)
Definition auth_len (user : option LocalizedUser) : nat :=
  match user with
  | Some u => match lu_auth u with Some (protocol, _) => auth_params_len protocol | None => 0 end
  | None => 0
  end.

Definition privacy_of (user : option LocalizedUser) (private : bool) : option PrivProtocol :=
  match user with
  | Some u => match lu_privacy u with
              | Some (protocol, _) => if private then Some protocol else None
              | None => None
              end
  | None => None
  end.

Definition priv_len_of (privacy : option PrivProtocol) : nat :=
  match privacy with Some _ => PRIV_PARAMS | None => 0 end.

(** [usm_body_len]. *)
Definition usm_body_len (e : Snapshot) (user : list Z) (auth_len priv_len : nat) : Z :=
  tlv_len (Z.of_nat (length (sn_id e))) + i64_len (sn_boots e) + i64_len (sn_time e)
  + tlv_len (Z.of_nat (length user)) + tlv_len (Z.of_nat auth_len) + tlv_len (Z.of_nat priv_len).

(** [message_len]. *)
Definition v3_message_len (req : V3Message) (e : Snapshot) (user : option LocalizedUser) (private : bool)
  (pdu_len : Z) : Z :=
  let privacy := privacy_of user private in
  let global := tlv_len (i64_len (msg_id req) + i64_len MSG_MAX_SIZE + tlv_len 1 + i64_len USM) in
  let security := tlv_len (tlv_len (usm_body_len e (up_user (usm req)) (auth_len user)
                                      (priv_len_of privacy))) in
  let scoped := tlv_len (tlv_len (Z.of_nat (length (sn_id e))) + tlv_len 0 + pdu_len) in
  let data := match privacy with
              | Some protocol => tlv_len (Z.of_nat (padded_len protocol (Z.to_nat scoped)))
              | None => scoped
              end in
  tlv_len (i64_len VERSION + global + security + data).

(** [response_len], [private_response_len]. *)
Definition response_len (req : V3Message) (e : Snapshot) (user : option LocalizedUser) (pdu_len : Z) : Z :=
  v3_message_len req e user false pdu_len.

Definition private_response_len (req : V3Message) (e : Snapshot) (user : LocalizedUser) (pdu_len : Z) : Z :=
  v3_message_len req e (Some user) true pdu_len.

(** ** Writing *)

(** [Vec::resize] with zeros. *)
Definition resize (out : list Z) (n : nat) : list Z := take n out ++ repeat 0 (n - length out).

(** [body_start]. *)
Definition body_start (out : list Z) (start : nat) : nat :=
  match out !! S start with
  | Some len => if negb (Z.land len 0x80 =? 0) then start + 2 + Z.to_nat (Z.land len 0x7f)
                else start + 2
  | None => start + 2
  end.

Section Messages.
Context `{Crypto}.

(** The scoped PDU of a message to write, whose PDU [pdu] appends. *)
Definition write_scoped {A : Type} (e : Snapshot) (pdu : list Z -> option (list Z * A)) (out : list Z)
  : option (list Z * A) :=
  write_tlv_with out TSequence (fun out =>
    let out := write_octets out TOctetString (sn_id e) in
    let out := write_octets out TOctetString [] in
    pdu out).

(** The body of the message, with where its two parameters are in it and how
    long the plaintext to encrypt is. *)
Definition write_body {A : Type} (req : V3Message) (e : Snapshot) (auth_len : nat)
  (privacy : option PrivProtocol) (pdu : list Z -> option (list Z * A)) (out : list Z)
  : option (list Z * (nat * nat * nat * A)) :=
  let priv_len := priv_len_of privacy in
  let flags := mk_flags (0 <? auth_len)%nat (match privacy with Some _ => true | None => false end) false in
  let body := length out in
  let out := write_i64 out TInteger VERSION in
  let! out := write_tlv out TSequence (fun out =>
                let out := write_i64 out TInteger (msg_id req) in
                let out := write_i64 out TInteger MSG_MAX_SIZE in
                let out := write_octets out TOctetString [flags_octet flags] in
                Some (write_i64 out TInteger USM)) in
  let params := usm_body_len e (up_user (usm req)) auth_len priv_len in
  let out := write_header out TOctetString (tlv_len params) in
  let out := write_header out TSequence params in
  let out := write_octets out TOctetString (sn_id e) in
  let out := write_i64 out TInteger (sn_boots e) in
  let out := write_i64 out TInteger (sn_time e) in
  let out := write_octets out TOctetString (up_user (usm req)) in
  let out := write_header out TOctetString (Z.of_nat auth_len) in
  let auth_at := (length out - body)%nat in
  let out := resize out (length out + auth_len) in
  let out := write_header out TOctetString (Z.of_nat priv_len) in
  let priv_at := (length out - body)%nat in
  let out := resize out (length out + priv_len) in
  match privacy with
  | Some protocol =>
      let! (out, (plain_len, x)) :=
        write_tlv_with out TOctetString (fun out =>
          let at_ := length out in
          let! (out, x) := write_scoped e pdu out in
          let plain_len := padded_len protocol (length out - at_) in
          Some (resize out (at_ + plain_len), (plain_len, x))) in
      Some (out, (auth_at, priv_at, plain_len, x))
  | None =>
      let! (out, x) := write_scoped e pdu out in
      Some (out, (auth_at, priv_at, 0%nat, x))
  end.

(** [write_message]. *)
Definition v3_write_message {A : Type} (out : list Z) (req : V3Message) (e : Snapshot)
  (user : option LocalizedUser) (salts : option SaltCounter) (pdu : list Z -> option (list Z * A))
  : option (list Z * A * option SaltCounter) :=
  let start := length out in
  let auth_len := auth_len user in
  let privacy := privacy_of user (match salts with Some _ => true | None => false end) in
  let! (out, (auth_at, priv_at, plain_len, x)) :=
    write_tlv_with out TSequence (write_body req e auth_len privacy pdu) in
  let body := body_start out start in
  let! (out, salts) :=
    match privacy, user, salts with
    | Some _, Some user, Some salts =>
        if (length out <? plain_len)%nat then None
        else
          let plain := (length out - plain_len)%nat in
          let '(salt, data, salts) :=
            encrypt user e salts (drop plain out) (repeat 0 PRIV_PARAMS) in
          let! out := copy_from_slice (take plain out ++ data) (body + priv_at) salt in
          Some (out, Some salts)
    | _, _, _ => Some (out, salts)
    end in
  match user with
  | Some u =>
      match lu_auth u with
      | Some (protocol, key) =>
          let digest := hmac protocol key (drop start out) auth_len in
          let! out := copy_from_slice out (body + auth_at) digest in
          Some (out, x, salts)
      | None => Some (out, x, salts)
      end
  | None => Some (out, x, salts)
  end.

(** [write_response], [write_private_response]. *)
Definition write_response {A : Type} (out : list Z) (req : V3Message) (e : Snapshot)
  (user : option LocalizedUser) (pdu : list Z -> option (list Z * A)) : option (list Z * A) :=
  let! (out, x, _) := v3_write_message out req e user None pdu in Some (out, x).

Definition write_private_response {A : Type} (out : list Z) (req : V3Message) (e : Snapshot)
  (user : LocalizedUser) (salts : SaltCounter) (pdu : list Z -> option (list Z * A))
  : option (list Z * A * SaltCounter) :=
  let! (out, x, after) := v3_write_message out req e (Some user) (Some salts) pdu in
  Some (out, x, default salts after).

(** [write_report]. *)
Definition write_report (out : list Z) (req : V3Message) (e : Snapshot) (stat : UsmStat) (value : Z)
  (user : option LocalizedUser) : option (list Z) :=
  let request_id := match scoped req with Some s => request_id (sp_pdu s) | None => 0 end in
  let! (out, _) :=
    write_response out req e user (fun out =>
      let! out := write_tlv out TReport (fun out =>
        let out := write_i64 out TInteger request_id in
        let out := write_i64 out TInteger 0 in
        let out := write_i64 out TInteger 0 in
        write_tlv out TSequence (fun out =>
          write_tlv out TSequence (fun out =>
            let out := write_octets out TOid (stat_oid_body stat) in
            Some (write_counter32 out value)))) in
      Some (out, tt)) in
  Some out.

(** ** Checking a request *)

(** [PrivError]; [BadCipherLength] is its [BadLength]. *)
Inductive PrivError := NoKey | BadSalt | BadCipherLength | Garbled.

(** [decrypt]. *)
Definition decrypt (user : LocalizedUser) (boots time : Z) (priv_params cipher_text : list Z)
  : result ScopedPdu PrivError :=
  match lu_privacy user with
  | None => Err NoKey
  | Some (protocol, key) =>
      if negb (length priv_params =? PRIV_PARAMS)%nat then Err BadSalt
      else if bool_decide (protocol = Des) && negb (length cipher_text mod DES_BLOCK =? 0)%nat
      then Err BadCipherLength
      else
        let plain := crypt protocol key boots time priv_params cipher_text false in
        let padding := match protocol with Des => (DES_BLOCK - 1)%nat | _ => 0%nat end in
        map_err (fun _ => Garbled) (decode_scoped_pdu plain padding)
  end.

(** [authentic]. *)
Definition authentic (p : AuthProtocol) (key : list Z) (msg : V3Message) (raw : list Z) : bool :=
  let len := auth_params_len p in
  let '(first, stop) := auth_range msg in
  if (length raw <? first)%nat || (length raw <? stop)%nat then false
  else if negb (length (up_auth (usm msg)) =? len)%nat || negb (stop - first =? len)%nat then false
  else constant_time_eq (hmac p key (take first raw ++ repeat 0 len ++ drop stop raw) len)
         (up_auth (usm msg)).

Inductive UsmVerdict :=
| Answer (user : LocalizedUser) (authenticated : bool) (scoped : option ScopedPdu)
| Report (stat : UsmStat) (authenticated : bool).

(** [verify], at [now]. *)
Definition verify (now : Z) (msg : V3Message) (raw : list Z) (e : Engine) (users : list LocalizedUser)
  : UsmVerdict :=
  let u := usm msg in
  if bool_decide (up_engine_id u = []) || negb (bool_decide (up_engine_id u = e_id e))
  then Report UnknownEngineIds false
  else match find_user users (up_user u) with
  | None => Report UnknownUserNames false
  | Some user =>
      if negb (bool_decide ((bool_decide (lu_auth user <> None), bool_decide (lu_privacy user <> None))
                            = (f_auth (flags msg), f_privacy (flags msg))))
      then Report UnsupportedSecLevels false
      else match lu_auth user with
      | None => Answer user false None
      | Some (protocol, key) =>
          if negb (authentic protocol key msg raw) then Report WrongDigests false
          else if negb (in_window e now (up_boots u) (up_time u)) then Report NotInTimeWindows true
          else match encrypted msg with
          | None => Answer user true None
          | Some cipher_text =>
              match decrypt user (up_boots u) (up_time u) (up_priv u) cipher_text with
              | Ok s => if bool_decide (context_engine_id s = e_id e) then Answer user true (Some s)
                        else Report DecryptionErrors true
              | Err _ => Report DecryptionErrors true
              end
          end
      end
  end.

End Messages.
