(* ===== verification/V3Proofs.v ===== *)
(** * V3Proofs: what is written in SNMPv3, and what a check lets through

    The octets of a message as a list; what the writer appends, and that a
    client with the user's keys authenticates, decrypts and reads it; and what
    [verify] has established of a request it answers. *)

From Stdlib Require Import ZArith Lia.
From stdpp Require Import prelude strings list numbers.
From S2P Require Import Prelude Text Util Oid Ber Usm SnmpV3.

(** ** Octets *)

(** The header of a TLV with a body of [n] octets. *)
Definition hdr (t : Tag) (n : nat) : list Z := tag_byte t :: length_octets (Z.of_nat n).

Lemma tlv_hdr t b : tlv_bytes t b = hdr t (length b) ++ b.
Proof. done. Qed.

Lemma hdr_short t n : Z.of_nat n <= u64_max -> (length (hdr t n) <= 10)%nat.
Proof.
  intros Hn. unfold hdr. cbn [length].
  enough (length (length_octets (Z.of_nat n)) <= 9)%nat by lia.
  unfold length_octets. destruct (Z.ltb_spec (Z.of_nat n) 128); [cbn; lia|].
  destruct (length_len_long (Z.of_nat n)) as (k & Hk & -> & _); [lia|]. cbn [length].
  rewrite be_bytes_length. lia.
Qed.

Lemma tlv_short t b :
  Z.of_nat (length b) <= u64_max -> (length (tlv_bytes t b) <= 10 + length b)%nat.
Proof. intros Hb. rewrite tlv_hdr, length_app. pose proof (hdr_short t _ Hb). lia. Qed.

Lemma i64_tlv_short v : is_i64 v -> (length (tlv_bytes TInteger (i64_content v)) <= 18)%nat.
Proof.
  intros Hv. destruct (i64_content_spec v Hv) as (_ & _ & Hl & _).
  pose proof (tlv_short TInteger (i64_content v)). lia.
Qed.

Lemma i64_tlv_length v :
  is_i64 v -> Z.of_nat (length (tlv_bytes TInteger (i64_content v))) = i64_len v.
Proof.
  intros Hv. destruct (i64_content_spec v Hv) as (_ & _ & Hl & _).
  rewrite tlv_bytes_length by lia. by apply i64_len_content.
Qed.

(** A TLV is as long as its body says. *)
Lemma tlv_same_length t b b' :
  length b = length b' -> length (tlv_bytes t b) = length (tlv_bytes t b').
Proof. intros Hb. rewrite !tlv_hdr, !length_app. unfold hdr. by rewrite Hb. Qed.

Definition global_bytes (id : Z) (f : Flags) : list Z :=
  tlv_bytes TSequence
    (tlv_bytes TInteger (i64_content id) ++ tlv_bytes TInteger (i64_content MSG_MAX_SIZE)
     ++ tlv_bytes TOctetString [flags_octet f] ++ tlv_bytes TInteger (i64_content USM)).

(** The security parameters up to the authentication parameter. *)
Definition params_front (e : Snapshot) (user : list Z) : list Z :=
  tlv_bytes TOctetString (sn_id e) ++ tlv_bytes TInteger (i64_content (sn_boots e))
  ++ tlv_bytes TInteger (i64_content (sn_time e)) ++ tlv_bytes TOctetString user.

Definition params_body (e : Snapshot) (user a p : list Z) : list Z :=
  params_front e user ++ tlv_bytes TOctetString a ++ tlv_bytes TOctetString p.

(** The body of a message: [a] and [p] are its two parameters. *)
Definition v3_body (id : Z) (f : Flags) (e : Snapshot) (user a p data : list Z) : list Z :=
  tlv_bytes TInteger (i64_content VERSION) ++ global_bytes id f
  ++ tlv_bytes TOctetString (tlv_bytes TSequence (params_body e user a p)) ++ data.

Definition v3_bytes (id : Z) (f : Flags) (e : Snapshot) (user a p data : list Z) : list Z :=
  tlv_bytes TSequence (v3_body id f e user a p data).

Definition scoped_bytes (e : Snapshot) (pdu : list Z) : list Z :=
  tlv_bytes TSequence (tlv_bytes TOctetString (sn_id e) ++ tlv_bytes TOctetString [] ++ pdu).

(** The body up to the authentication parameter, for parameters of [la] and [lp]
    octets. *)
Definition body_front (id : Z) (f : Flags) (e : Snapshot) (user : list Z) (la lp : nat) : list Z :=
  let body := params_body e user (repeat 0 la) (repeat 0 lp) in
  tlv_bytes TInteger (i64_content VERSION) ++ global_bytes id f
  ++ hdr TOctetString (length (tlv_bytes TSequence body)) ++ hdr TSequence (length body)
  ++ params_front e user ++ hdr TOctetString la.

Lemma params_body_length e user a a' p p' :
  length a = length a' -> length p = length p' ->
  length (params_body e user a p) = length (params_body e user a' p').
Proof.
  intros Ha Hp. unfold params_body. rewrite !length_app.
  rewrite (tlv_same_length _ a a'), (tlv_same_length _ p p') by done. done.
Qed.

(** Where the parameters are. *)
Lemma v3_body_split id f e user a p data :
  v3_body id f e user a p data
  = body_front id f e user (length a) (length p) ++ a ++ hdr TOctetString (length p) ++ p ++ data.
Proof.
  assert (Hb : length (params_body e user a p)
               = length (params_body e user (repeat 0 (length a)) (repeat 0 (length p))))
    by (apply params_body_length; by rewrite repeat_length).
  unfold v3_body, body_front. rewrite <- !app_assoc.
  rewrite (tlv_same_length _ _ _ (eq_sym Hb)), <- Hb.
  rewrite (tlv_hdr TOctetString (tlv_bytes TSequence _)), (tlv_hdr TSequence (params_body _ _ _ _)).
  unfold params_body. rewrite (tlv_hdr TOctetString a), (tlv_hdr TOctetString p).
  by rewrite <- !app_assoc.
Qed.

Lemma v3_bytes_split id f e user a p data :
  v3_bytes id f e user a p data
  = (hdr TSequence (length (v3_body id f e user a p data))
     ++ body_front id f e user (length a) (length p))
    ++ a ++ (hdr TOctetString (length p) ++ p ++ data).
Proof. unfold v3_bytes. rewrite tlv_hdr. rewrite v3_body_split at 2. by rewrite <- app_assoc. Qed.

Lemma v3_body_length id f e user a a' p p' data data' :
  length a = length a' -> length p = length p' -> length data = length data' ->
  length (v3_body id f e user a p data) = length (v3_body id f e user a' p' data').
Proof.
  intros Ha Hp Hd. rewrite !v3_body_split, !length_app. by rewrite Ha, Hp, Hd.
Qed.

(** The lengths the messages of the agent have. *)
Record sizes_ok (id : Z) (e : Snapshot) (user a p data : list Z) : Prop := {
  so_id : 0 <= id <= MAX_FIELD;
  so_boots : 0 <= sn_boots e <= MAX_FIELD;
  so_time : 0 <= sn_time e <= MAX_FIELD;
  so_engine : (length (sn_id e) <= 255)%nat;
  so_user : Z.of_nat (length user) <= 100000;
  so_auth : (length a <= 255)%nat;
  so_priv : (length p <= 255)%nat;
  so_data : Z.of_nat (length data) <= 1000000;
}.

Lemma field_i64 v : 0 <= v <= MAX_FIELD -> is_i64 v.
Proof. unfold MAX_FIELD, is_i64. lia. Qed.

Lemma global_short id f : 0 <= id <= MAX_FIELD -> (length (global_bytes id f) <= 100)%nat.
Proof.
  intros Hid. unfold global_bytes. pose proof (i64_tlv_short id (field_i64 _ Hid)).
  pose proof (i64_tlv_short MSG_MAX_SIZE ltac:(unfold is_i64, MSG_MAX_SIZE; lia)).
  pose proof (i64_tlv_short USM ltac:(unfold is_i64, USM; lia)).
  pose proof (tlv_short TOctetString [flags_octet f] ltac:(cbn; lia)) as Hf. cbn [length] in Hf.
  match goal with |- (length (tlv_bytes _ ?b) <= _)%nat => pose proof (tlv_short TSequence b) as Ht end.
  rewrite !length_app in Ht. specialize (Ht ltac:(lia)). lia.
Qed.

Lemma params_body_short id e user a p data :
  sizes_ok id e user a p data -> (length (params_body e user a p) <= 1200 + length user)%nat.
Proof.
  intros []. unfold params_body, params_front. rewrite !length_app.
  pose proof (i64_tlv_short _ (field_i64 _ so_boots0)).
  pose proof (i64_tlv_short _ (field_i64 _ so_time0)).
  pose proof (tlv_short TOctetString (sn_id e) ltac:(lia)).
  pose proof (tlv_short TOctetString user ltac:(lia)).
  pose proof (tlv_short TOctetString a ltac:(lia)).
  pose proof (tlv_short TOctetString p ltac:(lia)). lia.
Qed.

Lemma v3_body_short id f e user a p data :
  sizes_ok id e user a p data -> (length (v3_body id f e user a p data) <= 2000 + length user + length data)%nat.
Proof.
  intros Hok. pose proof (params_body_short _ _ _ _ _ _ Hok). destruct Hok.
  unfold v3_body. rewrite !length_app. pose proof (global_short id f so_id0).
  pose proof (i64_tlv_short VERSION ltac:(unfold is_i64, VERSION; lia)).
  pose proof (tlv_short TSequence (params_body e user a p) ltac:(lia)).
  pose proof (tlv_short TOctetString (tlv_bytes TSequence (params_body e user a p)) ltac:(lia)). lia.
Qed.

(** ** Reading what is written *)

Lemma expect_all t b : Z.of_nat (length b) <= u32_max -> expect t (tlv_bytes t b) = (Ok b, []).
Proof. intros Hb. rewrite <- (app_nil_r (tlv_bytes t b)). by apply expect_bytes. Qed.

Lemma field_bytes min v rest :
  0 <= min <= v -> v <= MAX_FIELD ->
  field min (tlv_bytes TInteger (i64_content v) ++ rest) = (Ok v, rest).
Proof.
  intros Hm Hv. unfold field. rewrite read_i64_bytes by (apply field_i64; lia).
  destruct (Z.leb_spec min v), (Z.leb_spec v MAX_FIELD); [done|lia..].
Qed.

Lemma flags_roundtrip f : from_octet (flags_octet f) = f.
Proof. by destruct f as [[] [] []]. Qed.

Lemma decode_global_bytes id f :
  0 <= id <= MAX_FIELD ->
  decode_global (tlv_bytes TInteger (i64_content id) ++ tlv_bytes TInteger (i64_content MSG_MAX_SIZE)
     ++ tlv_bytes TOctetString [flags_octet f] ++ tlv_bytes TInteger (i64_content USM))
  = Ok (id, MSG_MAX_SIZE, f, USM).
Proof.
  intros Hid. unfold decode_global, read_octets.
  rewrite field_bytes by lia.
  rewrite field_bytes by (unfold MIN_MSG_MAX_SIZE, MSG_MAX_SIZE, MAX_FIELD; lia).
  rewrite expect_bytes by (cbn; lia).
  rewrite <- (app_nil_r (tlv_bytes TInteger (i64_content USM))), field_bytes
    by (unfold USM, MAX_FIELD; lia).
  by rewrite bool_decide_eq_true_2, flags_roundtrip by done.
Qed.

Lemma decode_params_bytes id e user a p data :
  sizes_ok id e user a p data ->
  decode_params (tlv_bytes TSequence (params_body e user a p))
  = Ok (mk_params (sn_id e) (sn_boots e) (sn_time e) user a p, length (tlv_bytes TOctetString p)).
Proof.
  intros Hok. pose proof (params_body_short _ _ _ _ _ _ Hok). destruct Hok.
  unfold decode_params, read_octets. rewrite expect_all by lia. rewrite bool_decide_eq_true_2 by done.
  cbn [negb]. unfold params_body, params_front. rewrite <- !app_assoc.
  rewrite expect_bytes by lia. rewrite !field_bytes by lia. rewrite !expect_bytes by lia.
  rewrite expect_all by lia. by rewrite bool_decide_eq_true_2 by done.
Qed.

Lemma scoped_pdu_bytes e t r s i vbs :
  is_pdu t = true -> is_i64 r -> is_i64 s -> is_i64 i -> Z.of_nat (length vbs) <= 900000 ->
  (length (sn_id e) <= 255)%nat ->
  scoped_pdu (tlv_bytes TOctetString (sn_id e) ++ tlv_bytes TOctetString [] ++ pdu_bytes t r s i vbs)
  = Ok (mk_scoped (sn_id e) [] (mk_message VERSION [] t r s i vbs)).
Proof.
  intros Ht Hr Hs Hi Hv He. unfold scoped_pdu, read_octets. rewrite !expect_bytes by (cbn; lia).
  unfold pdu_bytes. set (fb := _ ++ _ ++ _ ++ tlv_bytes TSequence vbs).
  assert (Hfb : Z.of_nat (length fb) <= u32_max).
  { unfold fb. rewrite !length_app. pose proof (i64_tlv_short _ Hr). pose proof (i64_tlv_short _ Hs).
    pose proof (i64_tlv_short _ Hi). pose proof (tlv_short TSequence vbs ltac:(lia)). lia. }
  rewrite <- (app_nil_r (tlv_bytes t fb)), tlv_read_bytes by done.
  rewrite Ht, bool_decide_eq_true_2 by done. cbn [negb orb]. unfold fb.
  by rewrite decode_pdu_fields_bytes by (done || lia).
Qed.

(** The message a datagram of the agent is read as. *)
Definition v3_read (id : Z) (f : Flags) (e : Snapshot) (user a p data : list Z)
  (s : option ScopedPdu) (c : option (list Z)) : V3Message :=
  let first := (length (hdr TSequence (length (v3_body id f e user a p data)))
                + length (body_front id f e user (length a) (length p)))%nat in
  mk_v3 id MSG_MAX_SIZE f USM (mk_params (sn_id e) (sn_boots e) (sn_time e) user a p)
    (first, first + length a)%nat s c.

(** How the data of a message reads. *)
Definition data_reads (f : Flags) (data : list Z) (s : option ScopedPdu) (c : option (list Z)) : Prop :=
  if f_privacy f then
    exists cipher, data = tlv_bytes TOctetString cipher /\ s = None /\ c = Some cipher
  else
    exists body sp, data = tlv_bytes TSequence body /\ scoped_pdu body = Ok sp /\ s = Some sp /\ c = None.

Lemma v3_decode_bytes id f e user a p data s c :
  sizes_ok id e user a p data -> data_reads f data s c ->
  v3_decode (v3_bytes id f e user a p data) = Ok (v3_read id f e user a p data s c).
Proof.
  intros Hok Hd. pose proof (v3_body_short _ f _ _ _ _ _ Hok). pose proof (params_body_short _ _ _ _ _ _ Hok).
  pose proof Hok as [].
  assert (Hlen : (length (v3_bytes id f e user a p data)
    = (length (hdr TSequence (length (v3_body id f e user a p data)))
       + length (body_front id f e user (length a) (length p))) + length a
      + length (tlv_bytes TOctetString p) + length data)%nat).
  { rewrite v3_bytes_split, tlv_hdr, !length_app. lia. }
  unfold v3_decode. unfold v3_bytes at 1. rewrite expect_all by lia. rewrite bool_decide_eq_true_2 by done.
  cbn [negb]. unfold v3_body at 1. rewrite read_i64_bytes by (unfold is_i64, VERSION; lia).
  rewrite Z.eqb_refl. cbn [negb]. pose proof (global_short id f so_id0).
  unfold global_bytes in *. set (g := _ ++ _ ++ _ ++ tlv_bytes TInteger (i64_content USM)) in *.
  pose proof (tlv_bytes_longer TSequence g). rewrite expect_bytes by lia.
  unfold g. rewrite decode_global_bytes by done. unfold read_octets.
  pose proof (tlv_short TSequence (params_body e user a p) ltac:(lia)).
  rewrite expect_bytes by lia. rewrite (decode_params_bytes _ _ _ _ _ _ Hok).
  unfold data_reads in Hd. set (stop := (length (v3_bytes _ _ _ _ _ _ _) - length data - length (tlv_bytes TOctetString p))%nat).
  assert (Hstop : stop = (length (hdr TSequence (length (v3_body id f e user a p data)))
       + length (body_front id f e user (length a) (length p)) + length a)%nat) by (unfold stop; lia).
  assert (Hend : (stop - length a = length (hdr TSequence (length (v3_body id f e user a p data)))
       + length (body_front id f e user (length a) (length p)))%nat) by lia.
  cbn [up_auth]. rewrite Hend, Hstop. clear stop Hstop Hend. destruct (f_privacy f).
  - destruct Hd as (cipher & -> & -> & ->). pose proof (tlv_bytes_longer TOctetString cipher).
    rewrite expect_all by lia. rewrite bool_decide_eq_true_2 by done. cbn [negb up_auth].
    done.
  - destruct Hd as (body & sp & -> & Hsp & -> & ->). pose proof (tlv_bytes_longer TSequence body).
    rewrite expect_all by lia. rewrite Hsp. rewrite bool_decide_eq_true_2 by done. cbn [negb up_auth].
    done.
Qed.

(** ** Writing *)

Lemma resize_grow l n : (length l <= n)%nat -> resize l n = l ++ repeat 0 (n - length l).
Proof. intros Hn. unfold resize. by rewrite take_ge. Qed.

Lemma resize_pad l n : resize l (length l + n) = l ++ repeat 0 n.
Proof. rewrite resize_grow by lia. do 2 f_equal. lia. Qed.

Lemma write_header_hdr out t n : Z.of_nat n <= u64_max -> write_header out t (Z.of_nat n) = out ++ hdr t n.
Proof. intros Hn. by rewrite write_header_app by lia. Qed.

(** The length computed for the parameters is the one they have. *)
Lemma usm_body_len_bytes id e user a p data :
  sizes_ok id e user a p data ->
  usm_body_len e user (length a) (length p) = Z.of_nat (length (params_body e user a p)).
Proof.
  intros []. unfold usm_body_len, params_body, params_front. rewrite !length_app, !Nat2Z.inj_add.
  rewrite !i64_tlv_length by (by apply field_i64). rewrite !tlv_bytes_length by lia. lia.
Qed.

Definition flags_of (la : nat) (privacy : option PrivProtocol) : Flags :=
  mk_flags (0 <? la)%nat (match privacy with Some _ => true | None => false end) false.

(** The scoped PDU of a message, padded for its cipher. *)
Definition plain_bytes (protocol : PrivProtocol) (e : Snapshot) (pdu : list Z) : list Z :=
  let s := scoped_bytes e pdu in s ++ repeat 0 (padded_len protocol (length s) - length s).

Definition data_bytes (privacy : option PrivProtocol) (e : Snapshot) (pdu : list Z) : list Z :=
  match privacy with
  | Some protocol => tlv_bytes TOctetString (plain_bytes protocol e pdu)
  | None => scoped_bytes e pdu
  end.

Definition plain_len_of (privacy : option PrivProtocol) (e : Snapshot) (pdu : list Z) : nat :=
  match privacy with Some protocol => length (plain_bytes protocol e pdu) | None => 0 end.

Lemma padded_len_le protocol n : (n <= padded_len protocol n <= n + 7)%nat.
Proof.
  unfold padded_len, DES_BLOCK. destruct protocol; try lia.
  pose proof (Nat.div_mod_eq (n + 7) 8). pose proof (Nat.mod_upper_bound (n + 7) 8).
  replace (8 - 1)%nat with 7%nat by done. lia.
Qed.

Lemma plain_bytes_length protocol e pdu :
  length (plain_bytes protocol e pdu) = padded_len protocol (length (scoped_bytes e pdu)).
Proof.
  unfold plain_bytes. rewrite length_app, repeat_length.
  pose proof (padded_len_le protocol (length (scoped_bytes e pdu))). lia.
Qed.

Lemma scoped_short e pdu :
  (length (sn_id e) <= 255)%nat -> Z.of_nat (length pdu) <= 900000 ->
  (length (scoped_bytes e pdu) <= 400 + length pdu)%nat.
Proof.
  intros He Hp. unfold scoped_bytes.
  match goal with |- (length (tlv_bytes _ ?b) <= _)%nat => pose proof (tlv_short TSequence b) as Ht end.
  rewrite !length_app in Ht. pose proof (tlv_short TOctetString (sn_id e) ltac:(lia)).
  pose proof (tlv_short TOctetString [] ltac:(cbn; lia)) as He0. cbn [length] in He0.
  specialize (Ht ltac:(lia)). lia.
Qed.

(** ** Ciphers *)

Section Ciphers.
Context `{CryptoLaws}.

Lemma over_blocks_length blocks : forall st data,
  length data = (DES_BLOCK * blocks)%nat ->
  length (over_blocks encrypt_block blocks st data) = length data.
Proof.
  induction blocks as [|blocks IH]; intros st data Hd; cbn [over_blocks]; [done|].
  pose proof (encrypt_block_length st (take DES_BLOCK data)) as Hb.
  destruct (encrypt_block st (take DES_BLOCK data)) as [st' block]. cbn [snd] in Hb.
  rewrite length_app, IH, Hb, length_drop; rewrite ?length_take, ?length_drop; lia.
Qed.

Lemma cbc_inverse blocks : forall enc dec data,
  in_step enc dec -> length data = (DES_BLOCK * blocks)%nat ->
  over_blocks decrypt_block blocks dec (over_blocks encrypt_block blocks enc data) = data.
Proof.
  induction blocks as [|blocks IH]; intros enc dec data Hs Hd; cbn [over_blocks]; [done|].
  assert (Ht : length (take DES_BLOCK data) = DES_BLOCK) by (rewrite length_take; lia).
  pose proof (encrypt_block_length enc _ Ht) as Hb. pose proof (cbc_step enc dec _ Hs Ht) as Hc.
  destruct (encrypt_block enc (take DES_BLOCK data)) as [enc' block]. cbn [snd] in Hb.
  rewrite take_app_length', drop_app_length' by done.
  destruct (decrypt_block dec block) as [dec' plain]. destruct Hc as [-> Hc].
  rewrite IH by (rewrite ?length_drop; done || lia). apply take_drop.
Qed.

(** What a cipher takes whole. *)
Definition whole_blocks (p : PrivProtocol) (data : list Z) : Prop :=
  p = Des -> exists blocks, length data = (DES_BLOCK * blocks)%nat.

Lemma crypt_length p key boots time salt data :
  whole_blocks p data -> length (crypt p key boots time salt data true) = length data.
Proof.
  intros Hw. destruct p; cbn [crypt]; [|apply cfb_length..].
  destruct Hw as [k Hk]; [done|]. unfold cbc_encrypt. apply over_blocks_length.
  rewrite Hk, Nat.mul_comm, Nat.div_mul by done. lia.
Qed.

Lemma crypt_inverse p key boots time salt data :
  whole_blocks p data ->
  crypt p key boots time salt (crypt p key boots time salt data true) false = data.
Proof.
  intros Hw. pose proof (crypt_length p key boots time salt data Hw) as Hl. revert Hl.
  destruct p; cbn [crypt]; unfold aes_cfb; [|intros; apply cfb_inverse..].
  destruct Hw as [k Hk]; [done|]. unfold cbc_encrypt, cbc_decrypt. intros ->.
  rewrite Hk, Nat.mul_comm, Nat.div_mul by done. apply cbc_inverse; [apply cbc_start|lia].
Qed.

Lemma hmac_length p key data : length (hmac p key data (auth_params_len p)) = auth_params_len p.
Proof.
  unfold hmac, array. rewrite length_app, length_take, repeat_length, mac_length. lia.
Qed.

Lemma plain_bytes_whole p e pdu : whole_blocks p (plain_bytes p e pdu).
Proof.
  intros ->. rewrite plain_bytes_length. unfold padded_len. eexists. apply Nat.mul_comm.
Qed.
End Ciphers.

Section Written.
Context `{CryptoLaws}.

Lemma write_scoped_app {A} e (pdu : list Z -> option (list Z * A)) b x :
  (length (sn_id e) <= 255)%nat -> Z.of_nat (length b) <= 900000 ->
  (forall out, pdu out = Some (out ++ b, x)) ->
  forall out, write_scoped e pdu out = Some (out ++ scoped_bytes e b, x).
Proof.
  intros He Hb Hp out. unfold write_scoped, scoped_bytes. apply write_tlv_with_app.
  - intros o. rewrite !write_octets_app by (cbn; lia). rewrite Hp. by rewrite <- !app_assoc.
  - pose proof (scoped_short e b He Hb) as Hs. unfold scoped_bytes in Hs.
    match goal with |- Z.of_nat (length ?l) <= _ => pose proof (tlv_bytes_longer TSequence l) end. lia.
Qed.

Lemma write_private_app {A} protocol e (pdu : list Z -> option (list Z * A)) b x out :
  (length (sn_id e) <= 255)%nat -> Z.of_nat (length b) <= 900000 ->
  (forall out, pdu out = Some (out ++ b, x)) ->
  write_tlv_with out TOctetString (fun out =>
    let at_ := length out in
    let! (out, x) := write_scoped e pdu out in
    let plain_len := padded_len protocol (length out - at_) in
    Some (resize out (at_ + plain_len), (plain_len, x)))
  = Some (out ++ tlv_bytes TOctetString (plain_bytes protocol e b),
          (length (plain_bytes protocol e b), x)).
Proof.
  intros He Hb Hp.
  pose proof (scoped_short e b He Hb). pose proof (padded_len_le protocol (length (scoped_bytes e b))).
  apply write_tlv_with_app; [|rewrite plain_bytes_length; lia].
  intros o. rewrite (write_scoped_app e pdu b x) by done. cbv zeta. rewrite length_app.
  replace (length o + length (scoped_bytes e b) - length o)%nat with (length (scoped_bytes e b)) by lia.
  rewrite resize_grow, <- app_assoc by (rewrite length_app; lia).
  rewrite plain_bytes_length. do 3 f_equal. unfold plain_bytes. do 2 f_equal. rewrite length_app. lia.
Qed.

(** Up to the parameters, what the writer appends is [body_front]. *)
Lemma write_body_app {A} req e la privacy (pdu : list Z -> option (list Z * A)) b x out :
  let id := msg_id req in
  let user := up_user (usm req) in
  let lp := priv_len_of privacy in
  let f := flags_of la privacy in
  let data := data_bytes privacy e b in
  sizes_ok id e user (repeat 0 la) (repeat 0 lp) data -> Z.of_nat (length b) <= 900000 ->
  (forall out, pdu out = Some (out ++ b, x)) ->
  write_body req e la privacy pdu out
  = Some (out ++ v3_body id f e user (repeat 0 la) (repeat 0 lp) data,
          (length (body_front id f e user la lp),
           (length (body_front id f e user la lp) + la + length (hdr TOctetString lp))%nat,
           plain_len_of privacy e b, x)).
Proof.
  intros id user lp f data Hok Hb Hp. pose proof (params_body_short _ _ _ _ _ _ Hok) as Hps.
  pose proof (usm_body_len_bytes _ _ _ _ _ _ Hok) as Hlen. rewrite !repeat_length in Hlen.
  pose proof Hok as []. rewrite repeat_length in so_auth0, so_priv0.
  pose proof (global_short id f so_id0) as Hg. unfold global_bytes in Hg.
  set (g := _ ++ _ ++ _ ++ tlv_bytes TInteger (i64_content USM)) in Hg.
  pose proof (tlv_bytes_longer TSequence g).
  pose proof (tlv_short TSequence (params_body e user (repeat 0 la) (repeat 0 lp)) ltac:(lia)).
  unfold write_body. fold id user lp. rewrite write_i64_app by (unfold is_i64, VERSION; lia).
  rewrite (write_tlv_app TSequence _ g).
  2: { intros o. rewrite !write_i64_app, write_octets_app;
         try (apply field_i64; done); try (unfold is_i64, MSG_MAX_SIZE, USM; lia); [|cbn; lia].
       unfold g. by rewrite <- !app_assoc. }
  2: lia.
  rewrite Hlen, <- (tlv_bytes_length TSequence) by lia.
  rewrite !write_header_hdr by lia. rewrite !write_octets_app by lia.
  rewrite !write_i64_app by (apply field_i64; done).
  rewrite !resize_pad.
  set (o := _ ++ hdr TOctetString la).
  assert (Ho : o = out ++ body_front id f e user la lp).
  { unfold o, body_front, params_front, global_bytes. by rewrite <- !app_assoc. }
  clearbody o. subst o. rewrite !length_app, repeat_length.
  assert (Hv : forall d, ((out ++ body_front id f e user la lp) ++ repeat 0 la) ++ hdr TOctetString lp ++ repeat 0 lp ++ d
     = out ++ v3_body id f e user (repeat 0 la) (repeat 0 lp) d).
  { intros d. rewrite v3_body_split, !repeat_length. by rewrite <- !app_assoc. }
  rewrite <- Hv. subst data. unfold data_bytes.
  assert (Hout : forall n m, (n + m - n = m)%nat) by lia.
  destruct privacy as [protocol|]; cbn [priv_len_of plain_len_of] in *.
  - rewrite (write_private_app protocol e pdu b x) by done.
    by rewrite <- !Nat.add_assoc, !Hout, <- !app_assoc.
  - rewrite (write_scoped_app e pdu b x) by done.
    by rewrite <- !Nat.add_assoc, !Hout, <- !app_assoc.
Qed.

(** ** Filling in the parameters *)

Lemma body_start_tlv out t n rest :
  Z.of_nat n <= u64_max -> body_start (out ++ hdr t n ++ rest) (length out) = (length out + length (hdr t n))%nat.
Proof.
  intros Hn. unfold body_start, hdr. cbn [app].
  rewrite lookup_app_r by lia. replace (S (length out) - length out)%nat with 1%nat by lia.
  cbn [length]. unfold length_octets. destruct (Z.ltb_spec (Z.of_nat n) 128).
  - cbn [app length]. change ((tag_byte t :: Z.of_nat n :: rest) !! 1%nat) with (Some (Z.of_nat n)).
    cbn beta iota. replace (Z.land (Z.of_nat n) 128) with 0; [cbn; lia|]. symmetry.
    apply Z.bits_inj'. intros k Hk. rewrite Z.land_spec, Z.bits_0, (Z.pow2_bits_eqb 7) by done.
    destruct (Z.eqb_spec 7 k) as [<-|]; [|apply andb_false_r]. rewrite andb_true_r.
    rewrite <- (Z.mod_small (Z.of_nat n) (2 ^ 7)) by lia. by apply Z.mod_pow2_bits_high.
  - destruct (length_len_long (Z.of_nat n)) as (k & Hk & -> & _); [lia|].
    replace (1 + Z.of_nat k - 1) with (Z.of_nat k) by lia. rewrite Nat2Z.id.
    cbn [app length]. rewrite be_bytes_length.
    match goal with |- context [(_ :: ?x :: ?l) !! 1%nat] => change ((_ :: x :: l) !! 1%nat) with (Some x) end. cbn beta iota.
    assert (Hb : (k = 1 \/ k = 2 \/ k = 3 \/ k = 4 \/ k = 5 \/ k = 6 \/ k = 7 \/ k = 8)%nat) by lia.
    assert (Hl : Z.land (128 + Z.of_nat k) 128 = 128 /\ Z.land (128 + Z.of_nat k) 127 = Z.of_nat k)
      by (by destruct Hb as [->|[->|[->|[->|[->|[->|[->| ->]]]]]]]).
    destruct Hl as [-> ->]. rewrite Nat2Z.id. cbn. lia.
Qed.

Lemma splice_auth out id f e user a a' p data :
  length a' = length a ->
  copy_from_slice (out ++ v3_bytes id f e user a p data)
    (length out + length (hdr TSequence (length (v3_body id f e user a p data)))
     + length (body_front id f e user (length a) (length p))) a'
  = Some (out ++ v3_bytes id f e user a' p data).
Proof.
  intros Ha. rewrite (v3_bytes_split _ _ _ _ a'), v3_bytes_split.
  rewrite (v3_body_length id f e user a' a p p data data Ha), Ha by done.
  rewrite <- Nat.add_assoc, <- !length_app, (app_assoc out), copy_from_slice_mid by done.
  by rewrite <- app_assoc.
Qed.

Lemma splice_priv out id f e user a p p' data :
  length p' = length p ->
  copy_from_slice (out ++ v3_bytes id f e user a p data)
    (length out + length (hdr TSequence (length (v3_body id f e user a p data)))
     + (length (body_front id f e user (length a) (length p)) + length a
        + length (hdr TOctetString (length p)))) p'
  = Some (out ++ v3_bytes id f e user a p' data).
Proof.
  intros Hp. rewrite (v3_bytes_split _ _ _ _ _ p'), v3_bytes_split.
  rewrite (v3_body_length id f e user a a p' p data data), Hp by done.
  set (front := _ ++ body_front _ _ _ _ _ _).
  replace (_ + _ + _)%nat with (length (out ++ front ++ a ++ hdr TOctetString (length p)))
    by (unfold front; rewrite !length_app; lia).
  replace (out ++ front ++ a ++ hdr TOctetString (length p) ++ p ++ data)
    with ((out ++ front ++ a ++ hdr TOctetString (length p)) ++ p ++ data) by (by rewrite <- !app_assoc).
  rewrite copy_from_slice_mid by done. by rewrite <- !app_assoc.
Qed.

Lemma v3_bytes_tail id f e user a p t (data : list Z) :
  exists front, forall data' : list Z, length data' = length data ->
    v3_bytes id f e user a p (tlv_bytes t data') = front ++ data'.
Proof.
  exists (take (length (v3_bytes id f e user a p (tlv_bytes t data)) - length data)
            (v3_bytes id f e user a p (tlv_bytes t data))).
  intros data' Hd. rewrite !v3_bytes_split.
  rewrite (v3_body_length id f e user a a p p (tlv_bytes t data') (tlv_bytes t data))
    by (done || by apply tlv_same_length).
  rewrite !tlv_hdr, Hd, !app_assoc. f_equal. symmetry. apply take_app_length'. rewrite !length_app. lia.
Qed.

(** The counters' next salt and the data under it, for a response to seal. *)
Definition sealed (user : option LocalizedUser) (e : Snapshot) (salts : option SaltCounter) (b : list Z)
  : list Z * list Z * option SaltCounter :=
  match user, salts with
  | Some u, Some s =>
      match lu_privacy u with
      | Some (protocol, _) =>
          let '(salt, cipher, s) := encrypt u e s (plain_bytes protocol e b) (repeat 0 PRIV_PARAMS) in
          (salt, tlv_bytes TOctetString cipher, Some s)
      | None => ([], scoped_bytes e b, salts)
      end
  | _, _ => ([], scoped_bytes e b, salts)
  end.

(** The authentication parameter of a message that is [bytes] with a blank one. *)
Definition signed (user : option LocalizedUser) (bytes : list Z) : list Z :=
  match user with
  | Some u => match lu_auth u with
              | Some (protocol, key) => hmac protocol key bytes (auth_params_len protocol)
              | None => []
              end
  | None => []
  end.

Definition is_private (salts : option SaltCounter) : bool :=
  match salts with Some _ => true | None => false end.

Lemma encrypt_lengths u e s protocol key b :
  lu_privacy u = Some (protocol, key) ->
  let '(salt, cipher, _) := encrypt u e s (plain_bytes protocol e b) (repeat 0 PRIV_PARAMS) in
  length salt = PRIV_PARAMS /\ length cipher = length (plain_bytes protocol e b) /\
  cipher = crypt protocol key (sn_boots e) (sn_time e) salt (plain_bytes protocol e b) true.
Proof.
  intros Hu. unfold encrypt. rewrite Hu.
  destruct protocol; cbv beta iota zeta delta [next_des next_aes]; (split; [by rewrite ?length_app, ?be_bytes_length|]); (split; [|done]);
    apply crypt_length, plain_bytes_whole.
Qed.

(** What the writer appends. *)
Definition v3_message_bytes (req : V3Message) (e : Snapshot) (user : option LocalizedUser)
  (salts : option SaltCounter) (b : list Z) : list Z :=
  let f := flags_of (auth_len user) (privacy_of user (is_private salts)) in
  let '(p, data, _) := sealed user e salts b in
  let v3 a := v3_bytes (msg_id req) f e (up_user (usm req)) a p data in
  v3 (signed user (v3 (repeat 0 (auth_len user)))).

Definition salts_after (e : Snapshot) (user : option LocalizedUser) (salts : option SaltCounter)
  (b : list Z) : option SaltCounter := (sealed user e salts b).2.

(** What a response is answered to: the numbers and names it takes from the
    request and the engine are in range. *)
Record answerable (req : V3Message) (e : Snapshot) : Prop := {
  an_id : 0 <= msg_id req <= MAX_FIELD;
  an_boots : 0 <= sn_boots e <= MAX_FIELD;
  an_time : 0 <= sn_time e <= MAX_FIELD;
  an_engine : (length (sn_id e) <= 255)%nat;
  an_user : Z.of_nat (length (up_user (usm req))) <= 100000;
}.

Lemma auth_params_small p : (12 <= auth_params_len p <= 48)%nat.
Proof. destruct p; cbn; lia. Qed.

Lemma auth_len_small user : (auth_len user <= 48)%nat.
Proof.
  unfold auth_len. destruct user as [u|]; [|lia]. destruct (lu_auth u) as [[p key]|]; [|lia].
  pose proof (auth_params_small p). lia.
Qed.

Lemma priv_len_small privacy : (priv_len_of privacy <= 8)%nat.
Proof. destruct privacy; cbn; unfold PRIV_PARAMS; lia. Qed.

Lemma answerable_sizes req e a p data :
  answerable req e -> (length a <= 48)%nat -> (length p <= 8)%nat -> Z.of_nat (length data) <= 1000000 ->
  sizes_ok (msg_id req) e (up_user (usm req)) a p data.
Proof. intros []. split; done || lia. Qed.

Lemma data_bytes_short privacy e b :
  (length (sn_id e) <= 255)%nat -> Z.of_nat (length b) <= 900000 ->
  Z.of_nat (length (data_bytes privacy e b)) <= 1000000.
Proof.
  intros He Hb. pose proof (scoped_short e b He Hb). destruct privacy as [p|]; cbn [data_bytes]; [|lia].
  pose proof (padded_len_le p (length (scoped_bytes e b))).
  pose proof (tlv_short TOctetString (plain_bytes p e b)) as Ht.
  rewrite plain_bytes_length in Ht. lia.
Qed.

(** The first change to the message written: the data is encrypted under a salt,
    which becomes the privacy parameter. *)
Lemma seal_step out id e f usr user salts a b :
  let privacy := privacy_of user (is_private salts) in
  let p0 := repeat 0 (priv_len_of privacy) in
  let v3 := v3_bytes id f e usr a in
  let o := out ++ v3 p0 (data_bytes privacy e b) in
  let '(p, data, salts') := sealed user e salts b in
  match privacy, user, salts with
  | Some _, Some user, Some salts =>
      if (length o <? plain_len_of privacy e b)%nat then None
      else
        let plain := (length o - plain_len_of privacy e b)%nat in
        let '(salt, data, salts) := encrypt user e salts (drop plain o) (repeat 0 PRIV_PARAMS) in
        let! out := copy_from_slice (take plain o ++ data)
          (length out + length (hdr TSequence (length (v3_body id f e usr a p0 (data_bytes privacy e b))))
           + (length (body_front id f e usr (length a) (priv_len_of privacy)) + length a
              + length (hdr TOctetString (priv_len_of privacy)))) salt in
        Some (out, Some salts)
  | _, _, _ => Some (o, salts)
  end = Some (out ++ v3 p data, salts') /\
  length p = priv_len_of privacy /\ length data = length (data_bytes privacy e b).
Proof.
  intros privacy p0 v3. unfold sealed, privacy, privacy_of, is_private in *.
  destruct user as [u|]; [|by destruct salts]. destruct salts as [s|]; cycle 1.
  { by destruct (lu_privacy u) as [[]|]. }
  destruct (lu_privacy u) as [[protocol key]|] eqn:Hu; [|done].
  cbn [priv_len_of data_bytes plain_len_of] in *.
  set (plain := plain_bytes protocol e b).
  pose proof (encrypt_lengths u e s protocol key b Hu) as He. fold plain in He.
  destruct (v3_bytes_tail id f e usr a p0 TOctetString plain) as [front Hf].
  unfold v3. rewrite (Hf plain) by done. rewrite app_assoc, length_app.
  rewrite (proj2 (Nat.ltb_ge _ _)) by lia.
  replace (length (out ++ front) + length plain - length plain)%nat with (length (out ++ front)) by lia.
  rewrite drop_app_length, take_app_length.
  destruct (encrypt u e s plain (repeat 0 PRIV_PARAMS)) as [[salt cipher] s'].
  destruct He as (Hsalt & Hc & _). rewrite <- (app_assoc out), <- Hf by done.
  rewrite (v3_body_length id f e usr a a p0 p0 (tlv_bytes TOctetString plain) (tlv_bytes TOctetString cipher))
    by (done || by apply tlv_same_length).
  pose proof (splice_priv out id f e usr a p0 salt (tlv_bytes TOctetString cipher) Hsalt) as Hsp.
  unfold p0 in Hsp at 3 4. rewrite repeat_length in Hsp. rewrite Hsp.
  split_and!; [done..|by apply tlv_same_length].
Qed.

(** The second: the message is signed with a blank authentication parameter. *)
Lemma sign_step {A} out id e f usr user p data (x : A) (s : option SaltCounter) :
  let a0 := repeat 0 (auth_len user) in
  let o := out ++ v3_bytes id f e usr a0 p data in
  match user with
  | Some u =>
      match lu_auth u with
      | Some (protocol, key) =>
          let! out := copy_from_slice o
            (length out + length (hdr TSequence (length (v3_body id f e usr a0 p data)))
             + length (body_front id f e usr (auth_len user) (length p)))
            (hmac protocol key (drop (length out) o) (auth_len user)) in
          Some (out, x, s)
      | None => Some (o, x, s)
      end
  | None => Some (o, x, s)
  end = Some (out ++ v3_bytes id f e usr (signed user (v3_bytes id f e usr a0 p data)) p data, x, s).
Proof.
  intros a0 o. unfold signed, a0, auth_len in *. destruct user as [u|]; [|done].
  destruct (lu_auth u) as [[protocol key]|]; [|done]. unfold o. rewrite drop_app_length.
  set (digest := hmac _ _ _ _).
  pose proof (splice_auth out id f e usr (repeat 0 (auth_params_len protocol)) digest p data) as Hs.
  rewrite repeat_length in Hs. rewrite Hs; [done|]. apply hmac_length.
Qed.

(** The response of the agent, whole: it is [v3_message_bytes], and the counters
    are those after its salt. *)
Lemma v3_write_message_app {A} out req e user salts (pdu : list Z -> option (list Z * A)) b x :
  answerable req e -> Z.of_nat (length b) <= 900000 ->
  (forall out, pdu out = Some (out ++ b, x)) ->
  v3_write_message out req e user salts pdu
  = Some (out ++ v3_message_bytes req e user salts b, x, salts_after e user salts b).
Proof.
  intros Ha Hb Hp. pose proof (auth_len_small user) as Hla.
  set (privacy := privacy_of user (is_private salts)).
  pose proof (priv_len_small privacy) as Hlp.
  pose proof (data_bytes_short privacy e b (an_engine _ _ Ha) Hb) as Hd.
  pose proof (answerable_sizes req e (repeat 0 (auth_len user)) (repeat 0 (priv_len_of privacy))
    (data_bytes privacy e b) Ha ltac:(by rewrite repeat_length) ltac:(by rewrite repeat_length) Hd) as Hok.
  pose proof (an_user _ _ Ha) as Hur.
  unfold v3_write_message. fold (is_private salts). fold privacy.
  set (f := flags_of (auth_len user) privacy) in *.
  pose proof (v3_body_short _ f _ _ _ _ _ Hok) as Hs.
  rewrite (write_tlv_with_app TSequence _ _ _ out
    (fun o => write_body_app req e (auth_len user) privacy pdu b x o Hok Hb Hp)) by (fold f; lia).
  fold f. set (a0 := repeat 0 (auth_len user)) in *.
  set (v3 := v3_bytes (msg_id req) f e (up_user (usm req))).
  set (p0 := repeat 0 (priv_len_of privacy)) in *.
  change (tlv_bytes TSequence _) with (v3 a0 p0 (data_bytes privacy e b)).
  assert (Hbs : body_start (out ++ v3 a0 p0 (data_bytes privacy e b)) (length out)
    = (length out + length (hdr TSequence (length (v3_body (msg_id req) f e (up_user (usm req)) a0 p0
                                                     (data_bytes privacy e b)))))%nat).
  { unfold v3, v3_bytes. rewrite tlv_hdr. apply body_start_tlv. lia. }
  rewrite Hbs. clear Hbs. unfold v3_message_bytes, salts_after. fold privacy f. fold (v3 a0).
  pose proof (seal_step out (msg_id req) e f (up_user (usm req)) user salts a0 b) as Hseal.
  cbv zeta in Hseal. fold privacy p0 (v3 a0) in Hseal.
  assert (Ha0 : length a0 = auth_len user) by apply repeat_length. rewrite Ha0 in Hseal.
  destruct (sealed user e salts b) as [[p data] s']. destruct Hseal as (-> & Hpl & Hdl).
  pose proof (sign_step out (msg_id req) e f (up_user (usm req)) user p data x s') as Hsign.
  cbv zeta in Hsign. fold a0 (v3 a0) in Hsign. rewrite Hpl in Hsign.
  rewrite (v3_body_length _ f e _ a0 a0 p0 p _ data) by (rewrite ?Hpl; unfold p0; rewrite ?repeat_length; done).
  exact Hsign.
Qed.
End Written.
