(* ===== verification/V3Security.v ===== *)
(** * V3Security: what SNMPv3 gives the agent and its clients

    A client with the user's keys authenticates, decrypts and reads every
    response of the agent, at the length the agent computed for it; [verify]
    answers what such a client writes, and what it answers has been checked. *)

From Stdlib Require Import ZArith Lia.
From stdpp Require Import prelude strings list numbers.
From S2P Require Import Prelude Text Util Oid Ber Usm UsmProofs SnmpV3 V3Proofs.

Section Security.
Context `{CryptoLaws}.

(** ** The shape of a message *)

Lemma sealed_spec user e salts b :
  let '(p, data, _) := sealed user e salts b in
  let privacy := privacy_of user (is_private salts) in
  length p = priv_len_of privacy /\ length data = length (data_bytes privacy e b) /\
  match privacy with
  | None => data = scoped_bytes e b
  | Some protocol => exists u key cipher,
      user = Some u /\ lu_privacy u = Some (protocol, key) /\ data = tlv_bytes TOctetString cipher /\
      cipher = crypt protocol key (sn_boots e) (sn_time e) p (plain_bytes protocol e b) true
  end.
Proof.
  unfold sealed, privacy_of, is_private. destruct user as [u|]; [|by destruct salts].
  destruct salts as [s|]; [|by destruct (lu_privacy u) as [[]|]].
  destruct (lu_privacy u) as [[protocol key]|] eqn:Hu; [|done].
  pose proof (encrypt_lengths u e s protocol key b Hu) as He.
  destruct (encrypt u e s _ _) as [[salt cipher] s']. destruct He as (Hs & Hc & E).
  cbn [priv_len_of data_bytes]. split_and!; [done|by apply tlv_same_length|].
  by exists u, key, cipher.
Qed.

Lemma signed_length user bytes : length (signed user bytes) = auth_len user.
Proof.
  unfold signed, auth_len. destruct user as [u|]; [|done].
  destruct (lu_auth u) as [[protocol key]|]; [|done]. apply hmac_length.
Qed.

(** What the agent writes is a message of three parts: a signature of the rest,
    a privacy parameter, and the data it seals. *)
Lemma message_shape req e user salts b :
  answerable req e -> Z.of_nat (length b) <= 900000 ->
  let f := flags_of (auth_len user) (privacy_of user (is_private salts)) in
  exists a p data,
    sizes_ok (msg_id req) e (up_user (usm req)) a p data /\
    sealed user e salts b = (p, data, salts_after e user salts b) /\
    v3_message_bytes req e user salts b = v3_bytes (msg_id req) f e (up_user (usm req)) a p data /\
    a = signed user (v3_bytes (msg_id req) f e (up_user (usm req)) (repeat 0 (auth_len user)) p data) /\
    length a = auth_len user.
Proof.
  intros Ha Hb f. unfold v3_message_bytes, salts_after. fold f.
  pose proof (sealed_spec user e salts b) as Hs.
  destruct (sealed user e salts b) as [[p data] s']. destruct Hs as (Hp & Hd & _).
  exists (signed user (v3_bytes (msg_id req) f e (up_user (usm req)) (repeat 0 (auth_len user)) p data)), p, data.
  pose proof (priv_len_small (privacy_of user (is_private salts))).
  split_and!; [|done..|by rewrite signed_length].
  apply answerable_sizes; [done|rewrite signed_length; apply auth_len_small|lia|].
  rewrite Hd. by apply data_bytes_short; [apply (an_engine _ _ Ha)|].
Qed.

(** ** Lengths *)

Lemma scoped_length e b :
  (length (sn_id e) <= 255)%nat -> Z.of_nat (length b) <= 900000 ->
  Z.of_nat (length (scoped_bytes e b))
  = tlv_len (tlv_len (Z.of_nat (length (sn_id e))) + tlv_len 0 + Z.of_nat (length b)).
Proof.
  intros He Hb. pose proof (scoped_short e b He Hb) as Hs. unfold scoped_bytes in *.
  match goal with |- context [tlv_bytes TSequence ?l] => pose proof (tlv_bytes_longer TSequence l) end.
  rewrite tlv_bytes_length, !length_app, !Nat2Z.inj_add, !tlv_bytes_length.
  all: cbn [length]; try lia. change (Z.of_nat 0) with 0. apply (f_equal tlv_len). lia.
Qed.

Lemma global_length id f :
  0 <= id <= MAX_FIELD ->
  Z.of_nat (length (global_bytes id f))
  = tlv_len (i64_len id + i64_len MSG_MAX_SIZE + tlv_len 1 + i64_len USM).
Proof.
  intros Hid. pose proof (global_short id f Hid) as Hs. unfold global_bytes in *.
  match goal with |- context [tlv_bytes TSequence ?l] => pose proof (tlv_bytes_longer TSequence l) end.
  rewrite tlv_bytes_length, !length_app, !Nat2Z.inj_add, !i64_tlv_length, (tlv_bytes_length TOctetString)
    by (first [by apply field_i64 | unfold is_i64, MSG_MAX_SIZE, USM; lia | cbn [length]; lia]).
  cbn [length]. change (Z.of_nat 1) with 1. apply (f_equal tlv_len). lia.
Qed.

(** The length the agent computes before it writes is the length it writes. *)
Lemma v3_message_length req e user salts b :
  answerable req e -> Z.of_nat (length b) <= 900000 ->
  Z.of_nat (length (v3_message_bytes req e user salts b))
  = v3_message_len req e user (is_private salts) (Z.of_nat (length b)).
Proof.
  intros Ha Hb. pose proof (an_user _ _ Ha) as Hur.
  destruct (message_shape req e user salts b Ha Hb) as (a & p & data & Hok & Es & -> & _ & Hal).
  pose proof (sealed_spec user e salts b) as Hs. rewrite Es in Hs. destruct Hs as (Hp & Hd & _).
  set (f := flags_of _ _). set (usr := up_user (usm req)) in *.
  pose proof (v3_body_short _ f _ _ _ _ _ Hok) as Hbs. pose proof (params_body_short _ _ _ _ _ _ Hok).
  pose proof (tlv_short TSequence (params_body e usr a p) ltac:(lia)).
  pose proof (usm_body_len_bytes _ _ _ _ _ _ Hok) as Hu. rewrite Hal, Hp in Hu.
  pose proof (so_data _ _ _ _ _ _ Hok).
  unfold v3_bytes. rewrite tlv_bytes_length by lia. unfold v3_body, v3_message_len. f_equal.
  rewrite !length_app, !Nat2Z.inj_add, i64_tlv_length by (unfold is_i64, VERSION; lia).
  rewrite global_length by apply (an_id _ _ Ha).
  rewrite (tlv_bytes_length TOctetString) by lia. rewrite (tlv_bytes_length TSequence) by lia.
  fold usr. rewrite Hu, Hd, <- scoped_length by (apply (an_engine _ _ Ha) || done).
  rewrite Nat2Z.id.
  destruct (privacy_of user (is_private salts)) as [protocol|] eqn:Epr; cbn [data_bytes]; [|lia].
  pose proof (padded_len_le protocol (length (scoped_bytes e b))).
  pose proof (scoped_short e b (an_engine _ _ Ha) Hb).
  rewrite tlv_bytes_length; rewrite plain_bytes_length; lia.
Qed.

(** ** Reading a message with the user's keys *)

(** A PDU as the agent writes it. *)
Record wire_pdu := mk_wire { w_tag : Tag; w_id : Z; w_status : Z; w_index : Z; w_varbinds : list Z }.

Definition wire_bytes (w : wire_pdu) : list Z :=
  pdu_bytes (w_tag w) (w_id w) (w_status w) (w_index w) (w_varbinds w).

Definition wire_ok (w : wire_pdu) : Prop :=
  is_pdu (w_tag w) = true /\ is_i64 (w_id w) /\ is_i64 (w_status w) /\ is_i64 (w_index w) /\
  Z.of_nat (length (w_varbinds w)) <= 800000.

Definition wire_scoped (e : Snapshot) (w : wire_pdu) : ScopedPdu :=
  mk_scoped (sn_id e) []
    (mk_message VERSION [] (w_tag w) (w_id w) (w_status w) (w_index w) (w_varbinds w)).

Lemma wire_bytes_short w : wire_ok w -> Z.of_nat (length (wire_bytes w)) <= 900000.
Proof.
  intros (_ & H1 & H2 & H3 & Hv). unfold wire_bytes, pdu_bytes.
  set (fb := _ ++ _ ++ _ ++ _). assert (Z.of_nat (length fb) <= 801000).
  { unfold fb. rewrite !length_app. pose proof (i64_tlv_short _ H1). pose proof (i64_tlv_short _ H2).
    pose proof (i64_tlv_short _ H3). pose proof (tlv_short TSequence (w_varbinds w) ltac:(lia)). lia. }
  pose proof (tlv_short (w_tag w) fb ltac:(lia)). lia.
Qed.

Definition scoped_body (e : Snapshot) (b : list Z) : list Z :=
  tlv_bytes TOctetString (sn_id e) ++ tlv_bytes TOctetString [] ++ b.

Lemma scoped_body_reads e w :
  wire_ok w -> (length (sn_id e) <= 255)%nat ->
  scoped_pdu (scoped_body e (wire_bytes w)) = Ok (wire_scoped e w).
Proof. intros (Ht & H1 & H2 & H3 & Hv) He. apply scoped_pdu_bytes; done || lia. Qed.

Lemma scoped_body_short e b :
  (length (sn_id e) <= 255)%nat -> Z.of_nat (length b) <= 900000 ->
  Z.of_nat (length (scoped_body e b)) <= u32_max.
Proof.
  intros He Hb. pose proof (scoped_short e b He Hb). unfold scoped_bytes in *.
  pose proof (tlv_bytes_longer TSequence (scoped_body e b)). unfold scoped_body in *. lia.
Qed.

(** The padding a block cipher adds is no more than the reader ignores. *)
Lemma plain_bytes_reads protocol e w :
  wire_ok w -> (length (sn_id e) <= 255)%nat ->
  decode_scoped_pdu (plain_bytes protocol e (wire_bytes w))
    (match protocol with Des => (DES_BLOCK - 1)%nat | _ => 0%nat end) = Ok (wire_scoped e w).
Proof.
  intros Hw He. pose proof (scoped_body_short e _ He (wire_bytes_short w Hw)).
  unfold decode_scoped_pdu, plain_bytes. unfold scoped_bytes at 1. fold (scoped_body e (wire_bytes w)).
  rewrite expect_bytes by done. rewrite (scoped_body_reads e w Hw He), repeat_length.
  pose proof (padded_len_le protocol (length (scoped_bytes e (wire_bytes w)))).
  rewrite (proj2 (Nat.ltb_ge _ _)); [done|].
  destruct protocol; [unfold DES_BLOCK; lia|cbn [padded_len]; lia..].
Qed.

(** The scoped PDU of a message, for who has the user's keys. *)
Definition opened (user : option LocalizedUser) (m : V3Message) : result ScopedPdu PrivError :=
  match encrypted m, user, scoped m with
  | Some c, Some u, _ => decrypt u (up_boots (usm m)) (up_time (usm m)) (up_priv (usm m)) c
  | None, _, Some s => Ok s
  | _, _, _ => Err NoKey
  end.

Lemma sealed_opens req e user salts w p data a f :
  answerable req e -> wire_ok w ->
  sealed user e salts (wire_bytes w) = (p, data, salts_after e user salts (wire_bytes w)) ->
  f = flags_of (auth_len user) (privacy_of user (is_private salts)) ->
  exists s c, data_reads f data s c /\
    opened user (v3_read (msg_id req) f e (up_user (usm req)) a p data s c) = Ok (wire_scoped e w).
Proof.
  intros Ha Hw Es ->. pose proof (an_engine _ _ Ha) as He. pose proof (wire_bytes_short w Hw) as Hb.
  pose proof (sealed_spec user e salts (wire_bytes w)) as Hs. rewrite Es in Hs. destruct Hs as (Hp & Hd & Hs).
  unfold data_reads, flags_of. destruct (privacy_of user (is_private salts)) as [protocol|] eqn:Epr; cbn [f_privacy].
  - destruct Hs as (u & key & c & -> & Hu & -> & Hc). exists None, (Some c). split; [by exists c|].
    unfold opened, v3_read. cbn [encrypted usm up_boots up_time up_priv]. unfold decrypt. rewrite Hu.
    cbn [priv_len_of] in Hp. rewrite Hp. cbn [negb Nat.eqb PRIV_PARAMS].
    pose proof (plain_bytes_whole protocol e (wire_bytes w)) as Hwhole.
    assert (length c = length (plain_bytes protocol e (wire_bytes w))) as Hl
      by (rewrite Hc; by apply crypt_length).
    assert (bool_decide (protocol = Des) && negb (length c mod DES_BLOCK =? 0)%nat = false) as ->.
    { case_bool_decide as Hdes; [|done]. destruct (Hwhole Hdes) as [k Hk].
      by rewrite Hl, Hk, Nat.mul_comm, Nat.Div0.mod_mul. }
    rewrite Hc, crypt_inverse by done. by rewrite plain_bytes_reads.
  - exists (Some (wire_scoped e w)), None. split; [|done]. exists (scoped_body e (wire_bytes w)), (wire_scoped e w).
    split_and!; [done|by apply scoped_body_reads|done..].
Qed.

(** A signature is checked as it was made: over the message with the
    authentication parameter blank. *)
Lemma signed_authentic id f e usr u protocol key p data s c :
  lu_auth u = Some (protocol, key) ->
  let v3 a := v3_bytes id f e usr a p data in
  let a := signed (Some u) (v3 (repeat 0 (auth_params_len protocol))) in
  authentic protocol key (v3_read id f e usr a p data s c) (v3 a) = true.
Proof.
  intros Hu v3 a. assert (Ha : a = hmac protocol key (v3 (repeat 0 (auth_params_len protocol)))
                                     (auth_params_len protocol)).
  { unfold a, signed. by rewrite Hu. }
  assert (Hl : length a = auth_params_len protocol) by (rewrite Ha; apply hmac_length).
  unfold authentic, v3_read. cbn [auth_range usm up_auth]. unfold v3.
  rewrite (v3_bytes_split id f e usr a p data).
  set (front := hdr TSequence (length (v3_body id f e usr a p data)) ++ body_front id f e usr (length a) (length p)).
  rewrite <- length_app. fold front.
  set (rest := hdr TOctetString (length p) ++ p ++ data).
  rewrite !length_app, Hl. destruct (Nat.ltb_spec (length front + (auth_params_len protocol + length rest)) (length front)); [lia|].
  destruct (Nat.ltb_spec (length front + (auth_params_len protocol + length rest)) (length front + auth_params_len protocol)); [lia|].
  cbn [orb]. replace (length front + auth_params_len protocol - length front)%nat with (auth_params_len protocol) by lia.
  rewrite Nat.eqb_refl. cbn [orb negb]. apply constant_time_eq_iff.
  rewrite take_app_length, <- Hl, drop_app_add, drop_app_length, Hl, Ha. f_equal. unfold v3.
  rewrite (v3_bytes_split _ _ _ _ (repeat 0 _)), repeat_length. unfold front, rest. rewrite Hl.
  rewrite (v3_body_length id f e usr (repeat 0 (auth_params_len protocol)) a p p data data)
    by (rewrite ?repeat_length; done). by rewrite <- !app_assoc.
Qed.

(** The message [m] is what the datagram [bytes], written for [w], says to a peer
    with the keys of [user]. *)
Record says (req : V3Message) (e : Snapshot) (user : option LocalizedUser) (private : bool)
  (w : wire_pdu) (bytes : list Z) (m : V3Message) : Prop := {
  sy_decodes : v3_decode bytes = Ok m;
  sy_id : msg_id m = msg_id req;
  sy_flags : flags m = flags_of (auth_len user) (privacy_of user private);
  sy_model : security_model m = USM;
  sy_engine : up_engine_id (usm m) = sn_id e;
  sy_clock : (up_boots (usm m), up_time (usm m)) = (sn_boots e, sn_time e);
  sy_user : up_user (usm m) = up_user (usm req);
  sy_encrypted : encrypted m <> None <-> privacy_of user private <> None;
  sy_authentic u protocol key :
    user = Some u -> lu_auth u = Some (protocol, key) -> authentic protocol key m bytes = true;
  sy_opens : opened user m = Ok (wire_scoped e w);
}.

Lemma message_says req e user salts w :
  answerable req e -> wire_ok w ->
  exists m, says req e user (is_private salts) w (v3_message_bytes req e user salts (wire_bytes w)) m.
Proof.
  intros Ha Hw.
  destruct (message_shape req e user salts (wire_bytes w) Ha (wire_bytes_short w Hw))
    as (a & p & data & Hok & Es & Eb & Hsig & Hal).
  set (f := flags_of (auth_len user) (privacy_of user (is_private salts))) in *.
  destruct (sealed_opens req e user salts w p data a f Ha Hw Es eq_refl) as (s & c & Hr & Ho).
  exists (v3_read (msg_id req) f e (up_user (usm req)) a p data s c). rewrite Eb.
  split; try done; [by apply v3_decode_bytes| |].
  - cbn [encrypted v3_read]. unfold data_reads, f, flags_of in Hr. cbn [f_privacy] in Hr.
    destruct (privacy_of user (is_private salts)).
    + destruct Hr as (? & _ & _ & ->). done.
    + destruct Hr as (? & ? & _ & _ & _ & ->). done.
  - intros u protocol key -> Hu. assert (Hl : auth_len (Some u) = auth_params_len protocol) by (cbn [auth_len]; by rewrite Hu).
    rewrite Hl in Hsig. rewrite Hsig.
    exact (signed_authentic (msg_id req) f e (up_user (usm req)) u protocol key p data s c Hu).
Qed.

Lemma response_reads_back_aux {A} out req e user salts (pdu : list Z -> option (list Z * A)) x w :
  answerable req e -> wire_ok w ->
  (forall out, pdu out = Some (out ++ wire_bytes w, x)) ->
  exists bytes m,
    v3_write_message out req e user salts pdu
    = Some (out ++ bytes, x, salts_after e user salts (wire_bytes w)) /\
    Z.of_nat (length bytes)
    = v3_message_len req e user (is_private salts) (Z.of_nat (length (wire_bytes w))) /\
    says req e user (is_private salts) w bytes m.
Proof.
  intros Ha Hw Hp. pose proof (wire_bytes_short w Hw) as Hb.
  destruct (message_says req e user salts w Ha Hw) as [m Hm].
  exists (v3_message_bytes req e user salts (wire_bytes w)), m. split_and!; [|by apply v3_message_length|done].
  by apply v3_write_message_app.
Qed.

(** C8: for a request whose numbers are in their ranges, a user with any of the
    authentication and privacy protocols or none, and any PDU the agent writes,
    [write_message] does not panic; it appends a datagram of exactly the length
    [message_len] computes for the size checks; the datagram decodes, back-patched
    lengths, salt and digest included, to a message with the request's id and user
    name and the engine's id, boots and time; who has the user's key authenticates
    it; and who has the privacy key decrypts and reads the PDU that was written. *)
Theorem response_reads_back {A} out req e user salts (pdu : list Z -> option (list Z * A)) x w :
  answerable req e -> wire_ok w ->
  (forall out, pdu out = Some (out ++ wire_bytes w, x)) ->
  exists bytes m,
    v3_write_message out req e user salts pdu
    = Some (out ++ bytes, x, salts_after e user salts (wire_bytes w)) /\
    Z.of_nat (length bytes)
    = v3_message_len req e user (is_private salts) (Z.of_nat (length (wire_bytes w))) /\
    says req e user (is_private salts) w bytes m.
Proof. by apply response_reads_back_aux. Qed.

(** ** Checking *)

(** The level of security of a user and of a message. *)
Definition level_matches (u : LocalizedUser) (m : V3Message) : Prop :=
  (f_auth (flags m) = true <-> lu_auth u <> None) /\ (f_privacy (flags m) = true <-> lu_privacy u <> None).

Lemma level_matches_dec u m :
  level_matches u m <->
  (bool_decide (lu_auth u <> None), bool_decide (lu_privacy u <> None)) = (f_auth (flags m), f_privacy (flags m)).
Proof.
  unfold level_matches.
  assert (Hd : forall {B} (o : option B) `{Decision (o <> None)}, bool_decide (o <> None) = match o with Some _ => true | None => false end)
    by (intros B [] ?; case_bool_decide; congruence).
  rewrite !Hd. destruct (lu_auth u), (lu_privacy u), (f_auth (flags m)), (f_privacy (flags m));
    intuition congruence.
Qed.

(** The scoped PDU a verdict lets through. *)
Definition let_through (m : V3Message) (answered : option ScopedPdu) : option ScopedPdu :=
  match answered with Some s => Some s | None => scoped m end.

(** C9: a request that a user of the agent signs with its key, at the user's own
    level, with the engine's id and boots and a time within the window of the
    engine's, is answered as that user, with the PDU the user wrote. *)
Theorem verify_accepts E now users req e u salts w protocol key :
  answerable req e -> wire_ok w ->
  find_user users (up_user (usm req)) = Some u ->
  lu_auth u = Some (protocol, key) -> (is_private salts = true <-> lu_privacy u <> None) ->
  sn_id e = e_id E -> e_id E <> [] -> in_window E now (sn_boots e) (sn_time e) = true ->
  let bytes := v3_message_bytes req e (Some u) salts (wire_bytes w) in
  exists m answered,
    v3_decode bytes = Ok m /\ verify now m bytes E users = Answer u true answered /\
    let_through m answered = Some (wire_scoped e w).
Proof.
  intros Ha Hw Hfind Hu Hsalts Hid Hne Hwin bytes.
  destruct (message_says req e (Some u) salts w Ha Hw) as (m & []). fold bytes in sy_decodes0, sy_authentic0.
  exists m. unfold verify. rewrite sy_engine0, Hid, sy_user0, Hfind.
  rewrite bool_decide_eq_false_2, (bool_decide_eq_true_2 (e_id E = e_id E)) by done. cbn [orb negb].
  assert (Hpriv : bool_decide (lu_privacy u <> None) = f_privacy (flags m)).
  { rewrite sy_flags0. unfold flags_of, privacy_of. cbn [f_privacy].
    destruct (lu_privacy u) as [[]|], (is_private salts); cbn; naive_solver. }
  assert (Hauth : bool_decide (lu_auth u <> None) = f_auth (flags m)).
  { rewrite sy_flags0. unfold flags_of, auth_len. cbn [f_auth]. rewrite Hu. by destruct protocol. }
  rewrite (bool_decide_eq_true_2 (_ = _)) by (by rewrite Hpriv, Hauth). cbn [negb]. rewrite Hu.
  rewrite (sy_authentic0 u protocol key eq_refl Hu). injection sy_clock0 as Hb Ht.
  rewrite Hb, Ht, Hwin. cbn [negb].
  unfold opened in sy_opens0. destruct (encrypted m) as [c|].
  - rewrite Hb, Ht in sy_opens0. rewrite sy_opens0. rewrite bool_decide_eq_true_2 by (by rewrite <- Hid).
    by exists (Some (wire_scoped e w)).
  - exists None. split_and!; [done..|]. unfold let_through. by destruct (scoped m) as [s|]; [injection sy_opens0 as ->|].
Qed.

(** ** What is checked has been read from the datagram *)

Lemma expect_rest t input body rest :
  expect t input = (Ok body, rest) -> exists h, input = h ++ body ++ rest.
Proof. intros (h & -> & _)%expect_split. by exists h. Qed.

Lemma read_i64_rest t input v rest : read_i64 t input = (Ok v, rest) -> exists h, input = h ++ rest.
Proof.
  unfold read_i64. destruct (expect t input) as [[body|] r] eqn:E; [|done]. intros [= _ ->].
  apply expect_rest in E as [h ->]. exists (h ++ body). by rewrite <- app_assoc.
Qed.

Lemma field_rest min input v rest : field min input = (Ok v, rest) -> exists h, input = h ++ rest.
Proof.
  unfold field. destruct (read_i64 TInteger input) as [[w|] r] eqn:E; [|done].
  destruct (negb _); [done|]. intros [= _ ->]. by apply read_i64_rest in E.
Qed.

(** The authentication parameter, in the parameters read. *)
Lemma decode_params_auth input params after :
  decode_params input = Ok (params, after) ->
  exists front rest, input = front ++ up_auth params ++ rest /\ length rest = after.
Proof.
  unfold decode_params, read_octets. destruct (expect TSequence input) as [[l0|] r0] eqn:E0; [|done].
  apply expect_rest in E0 as [h0 ->]. case_bool_decide as Hr0; [subst r0|done]. cbn [negb].
  destruct (expect _ l0) as [[id|] l1] eqn:E1; [|done]. apply expect_rest in E1 as [h1 ->].
  destruct (field 0 l1) as [[boots|] l2] eqn:E2; [|done]. apply field_rest in E2 as [h2 ->].
  destruct (field 0 l2) as [[time|] l3] eqn:E3; [|done]. apply field_rest in E3 as [h3 ->].
  destruct (expect _ l3) as [[user|] l4] eqn:E4; [|done]. apply expect_rest in E4 as [h4 ->].
  destruct (expect _ l4) as [[auth|] l5] eqn:E5; [|done]. apply expect_rest in E5 as [h5 ->].
  destruct (expect _ l5) as [[priv|] l6] eqn:E6; [|done]. case_bool_decide; [|done].
  intros [= <- <-]. cbn [up_auth].
  exists (h0 ++ h1 ++ id ++ h2 ++ h3 ++ h4 ++ user ++ h5), l5. split; [|done].
  rewrite app_nil_r. by rewrite <- !app_assoc.
Qed.

(** The range a message keeps is where its authentication parameter is. *)
Lemma v3_decode_range raw m :
  v3_decode raw = Ok m ->
  exists pre post, raw = pre ++ up_auth (usm m) ++ post /\
    auth_range m = (length pre, length pre + length (up_auth (usm m)))%nat.
Proof.
  unfold v3_decode, read_octets. destruct (expect TSequence raw) as [[body|] r0] eqn:E0; [|done].
  apply expect_rest in E0 as [h0 ->]. case_bool_decide as Hr0; [subst r0|done]. cbn [negb].
  destruct (read_i64 TInteger body) as [[version|] l1] eqn:E1; [|done]. apply read_i64_rest in E1 as [h1 ->].
  destruct (negb (version =? VERSION)); [done|].
  destruct (expect _ l1) as [[global|] l2] eqn:E2; [|done]. apply expect_rest in E2 as [h2 ->].
  destruct (decode_global global) as [[[[id size] f] model]|]; [|done].
  destruct (expect _ l2) as [[security|] l3] eqn:E3; [|done]. apply expect_rest in E3 as [h3 ->].
  destruct (decode_params security) as [[params after]|] eqn:E4; [|done].
  apply decode_params_auth in E4 as (front & rest & -> & <-).
  destruct (if f_privacy f then _ else _) as [[data|] l4]; [|done].
  set (sc := if f_privacy f then _ else _). destruct sc as [[s c]|]; [|done].
  case_bool_decide; [|done]. intros [= <-]. cbn [usm auth_range].
  exists (h0 ++ h1 ++ h2 ++ global ++ h3 ++ front), (rest ++ l3). split.
  { rewrite app_nil_r. by rewrite <- !app_assoc. }
  rewrite !length_app. cbn [length]. f_equal; lia.
Qed.

(** The privacy flag says which of the two the data is. *)
Lemma v3_decode_data raw m :
  v3_decode raw = Ok m -> f_privacy (flags m) = true <-> encrypted m <> None.
Proof.
  unfold v3_decode. destruct (expect TSequence raw) as [[body|] r0]; [|done]. destruct (negb _); [done|].
  destruct (read_i64 TInteger body) as [[version|] l1]; [|done]. destruct (negb _); [done|].
  destruct (expect _ l1) as [[global|] l2]; [|done].
  destruct (decode_global global) as [[[[id size] f] model]|]; [|done].
  destruct (read_octets _ l2) as [[security|] l3]; [|done].
  destruct (decode_params security) as [[params after]|]; [|done].
  destruct (if f_privacy f then _ else _) as [[data|] l4]; [|done].
  destruct (f_privacy f) eqn:Ef; [|destruct (scoped_pdu data); [|done]];
    (destruct (negb _); [done|]); intros [= <-]; cbn [flags encrypted]; by rewrite Ef.
Qed.

(** The datagram carries, as its authentication parameter, the HMAC of itself
    with that parameter blank. *)
Definition signed_by (p : AuthProtocol) (key : list Z) (m : V3Message) (raw : list Z) : Prop :=
  exists pre post, raw = pre ++ up_auth (usm m) ++ post /\
    up_auth (usm m) = hmac p key (pre ++ repeat 0 (auth_params_len p) ++ post) (auth_params_len p).

Lemma authentic_signed p key m raw :
  v3_decode raw = Ok m -> authentic p key m raw = true -> signed_by p key m raw.
Proof.
  intros (pre & post & -> & Hr)%v3_decode_range. unfold authentic. rewrite Hr.
  destruct (_ || _)%bool; [done|]. destruct (Nat.eqb_spec (length (up_auth (usm m))) (auth_params_len p)) as [Hl|];
    [|done]. destruct (negb _ || _)%bool; [done|]. intros Hd%constant_time_eq_iff.
  exists pre, post. split; [done|]. rewrite <- Hd at 1.
  by rewrite take_app_length, drop_app_add, drop_app_length.
Qed.

Definition verdict_authenticated (v : UsmVerdict) : bool :=
  match v with Answer _ a _ => a | Report _ a => a end.

(** C7: for any octets that decode: a verdict that is authenticated, an answer or a
    report, is one on a datagram that carries the HMAC of itself under a key of
    the user it names, for this engine. A request is answered only for a user of
    the agent at exactly that user's level of security; with a key, only inside
    the window of the engine's boots and time; encrypted, only when the data
    decrypts under the user's key to a scoped PDU for this engine; and never on a
    plaintext where the user has a privacy key. *)
Theorem verify_sound raw m E now users :
  v3_decode raw = Ok m ->
  let v := verify now m raw E users in
  (verdict_authenticated v = true ->
    up_engine_id (usm m) = e_id E /\
    exists u p key, find_user users (up_user (usm m)) = Some u /\ lu_auth u = Some (p, key) /\
      signed_by p key m raw) /\
  (forall u a answered, v = Answer u a answered ->
    up_engine_id (usm m) = e_id E /\ e_id E <> [] /\
    find_user users (up_user (usm m)) = Some u /\ level_matches u m /\
    (lu_privacy u <> None <-> encrypted m <> None) /\
    (a = true <-> lu_auth u <> None) /\
    (a = true -> e_boots E < MAX_BOOTS_OR_TIME /\ up_boots (usm m) = e_boots E /\
                 Z.abs (up_time (usm m) - engine_time E now) <= TIME_WINDOW /\
                 (encrypted m <> None -> answered <> None)) /\
    (forall s, answered = Some s -> context_engine_id s = e_id E /\
       exists c, encrypted m = Some c /\
         decrypt u (up_boots (usm m)) (up_time (usm m)) (up_priv (usm m)) c = Ok s)).
Proof.
  intros Hm v. unfold v, verify. clear v.
  case_bool_decide as Hne; [by split|]. case_bool_decide as Hid; cbn [orb negb]; [|by split].
  destruct (find_user users (up_user (usm m))) as [u|]; [|by split].
  case_bool_decide as Hlevel; cbn [negb]; [|by split]. apply level_matches_dec in Hlevel.
  assert (Hpriv : lu_privacy u <> None <-> encrypted m <> None)
    by (rewrite <- (v3_decode_data raw m Hm); symmetry; apply Hlevel).
  destruct (lu_auth u) as [[p key]|] eqn:Hu.
  2: { split; [done|]. intros ? ? ? [= <- <- <-]. rewrite Hu. split_and!; [done|congruence|done|done|done|done|done..]. }
  destruct (authentic p key m raw) eqn:Hauth; cbn [negb]; [|by split].
  pose proof (authentic_signed p key m raw Hm Hauth) as Hsig.
  destruct (in_window E now (up_boots (usm m)) (up_time (usm m))) eqn:Hw; cbn [negb].
  2: { split; [|done]. intros _. split; [done|]. by exists u, p, key. }
  unfold in_window in Hw. apply andb_prop in Hw as [[Hmax%Z.ltb_lt Hb%Z.eqb_eq]%andb_prop Ht%Z.leb_le].
  set (v := match encrypted m with None => _ | Some _ => _ end).
  assert (Hv : verdict_authenticated v = true)
    by (unfold v; destruct (encrypted m); [destruct (decrypt _ _ _ _ _); [case_bool_decide|]|]; done).
  split. { intros _. split; [done|]. by exists u, p, key. }
  intros u' a answered Hans. unfold v in Hans.
  destruct (encrypted m) as [c|] eqn:Hc.
  - destruct (decrypt u _ _ _ c) as [s|] eqn:Hd; [|done]. case_bool_decide; [|done].
    injection Hans as <- <- <-. rewrite Hu. split_and!; try done; [congruence|].
    intros s' [= <-]. split; [done|]. by exists c.
  - injection Hans as <- <- <-. rewrite Hu. split_and!; done || congruence.
Qed.

(** ** Reports *)

(** [usmStats] of RFC 3414: 1.3.6.1.6.3.15.1.1, the counter and instance 0. *)
Definition stat_oid (stat : UsmStat) : Oid :=
  mk_oid [1; 3; 6; 1; 6; 3; 15; 1; 1;
          match stat with
          | UnsupportedSecLevels => 1 | NotInTimeWindows => 2 | UnknownUserNames => 3
          | UnknownEngineIds => 4 | WrongDigests => 5 | DecryptionErrors => 6
          end; 0].

Lemma stat_oid_encoded stat : stat_oid_body stat = ber_body (arcs (stat_oid stat)).
Proof. by destruct stat. Qed.

(** The varbind of a report. *)
Definition report_varbinds (stat : UsmStat) (value : Z) : list Z :=
  varbind_bytes (stat_oid stat) (tlv_bytes TCounter32 (u64_content value)).

Definition report_id (req : V3Message) : Z :=
  match scoped req with Some s => request_id (sp_pdu s) | None => 0 end.

Lemma report_varbinds_short stat value :
  is_u64 value -> (length (report_varbinds stat value) <= 100)%nat.
Proof.
  intros Hv. destruct (u64_content_spec value Hv) as (b0 & l & E & _ & _ & Hl & _).
  unfold report_varbinds, varbind_bytes. rewrite <- stat_oid_encoded, E.
  pose proof (tlv_short TOid (stat_oid_body stat) ltac:(cbn; lia)) as Ho.
  change (length (stat_oid_body stat)) with 10%nat in Ho.
  pose proof (tlv_short TCounter32 (b0 :: l) ltac:(cbn; lia)) as Hc. cbn [length] in Hc.
  match goal with |- (length (tlv_bytes _ ?b) <= _)%nat => pose proof (tlv_short TSequence b) as Ht end.
  rewrite length_app in Ht. specialize (Ht ltac:(lia)). lia.
Qed.

Lemma report_reads_back_aux out req e stat value user :
  answerable req e -> is_u32 value -> is_i64 (report_id req) ->
  exists bytes m,
    write_report out req e stat value user = Some (out ++ bytes) /\
    says req e user false (mk_wire TReport (report_id req) 0 0 (report_varbinds stat value)) bytes m /\
    encrypted m = None /\
    read_one (report_varbinds stat value)
    = (Ok (mk_varbind (ber_body (arcs (stat_oid stat))) (tag_byte TCounter32) (u64_content value)), []).
Proof.
  intros Ha Hv Hid. assert (Hu : is_u64 value) by (unfold is_u32, is_u64 in *; lia).
  pose proof (report_varbinds_short stat value Hu) as Hs.
  set (w := mk_wire TReport (report_id req) 0 0 (report_varbinds stat value)).
  assert (Hw : wire_ok w).
  { unfold wire_ok, w. cbn [w_tag w_id w_status w_index w_varbinds].
    split_and!; [done|done|by unfold is_i64..|lia]. }
  unfold write_report, write_response. fold (report_id req).
  match goal with |- context [v3_write_message _ _ _ _ _ ?f] => set (pdu := f) end.
  assert (Hp : forall out, pdu out = Some (out ++ wire_bytes w, tt)).
  { intros o. unfold pdu. rewrite (write_tlv_app TReport _
      (tlv_bytes TInteger (i64_content (report_id req)) ++ tlv_bytes TInteger (i64_content 0)
       ++ tlv_bytes TInteger (i64_content 0) ++ tlv_bytes TSequence (report_varbinds stat value))).
    - done.
    - intros o'. rewrite !write_i64_app by (done || by unfold is_i64).
      rewrite (write_tlv_app TSequence _ (report_varbinds stat value)); [by rewrite <- !app_assoc| |lia].
      intros o2. unfold report_varbinds, varbind_bytes. rewrite <- stat_oid_encoded. apply write_tlv_app.
      + intros o3. unfold write_counter32. rewrite write_octets_app, write_u64_app by (done || by destruct stat).
        by rewrite <- app_assoc.
      + unfold report_varbinds, varbind_bytes in Hs. rewrite <- stat_oid_encoded in Hs.
        match goal with |- Z.of_nat (length ?l) <= _ => pose proof (tlv_bytes_longer TSequence l) end. lia.
    - pose proof (wire_bytes_short w Hw) as Hb. unfold wire_bytes, pdu_bytes, w in Hb. cbn [w_tag w_id w_status w_index w_varbinds] in Hb.
      match goal with |- Z.of_nat (length ?l) <= _ => pose proof (tlv_bytes_longer TReport l) end. lia. }
  rewrite (v3_write_message_app out req e user None pdu (wire_bytes w) tt Ha (wire_bytes_short w Hw) Hp).
  destruct (message_says req e user None w Ha Hw) as [m Hm].
  exists (v3_message_bytes req e user None (wire_bytes w)), m. split_and!; [done|done| |].
  - destruct (encrypted m) eqn:Ee; [|done]. destruct (sy_encrypted _ _ _ _ _ _ _ Hm) as [Hn _].
    destruct Hn; [by rewrite Ee|]. unfold privacy_of. destruct user as [u|]; [|done].
    by destruct (lu_privacy u) as [[]|].
  - rewrite <- (app_nil_r (report_varbinds stat value)). apply read_one_bytes.
    unfold report_varbinds in Hs. lia.
Qed.

(** A report does not panic; it decodes to a message to the request's user
    with the engine's id, boots and time, whose PDU is a Report with the request's
    PDU id, or 0 where its PDU could not be read, no error, and one varbind: the
    Counter32 of the statistic's object in RFC 3414. It is never encrypted, and
    with a user it is authenticated with that user's key. *)
Theorem report_reads_back out req e stat value user :
  answerable req e -> is_u32 value -> is_i64 (report_id req) ->
  exists bytes m,
    write_report out req e stat value user = Some (out ++ bytes) /\
    says req e user false (mk_wire TReport (report_id req) 0 0 (report_varbinds stat value)) bytes m /\
    encrypted m = None /\
    read_one (report_varbinds stat value)
    = (Ok (mk_varbind (ber_body (arcs (stat_oid stat))) (tag_byte TCounter32) (u64_content value)), []).
Proof. by apply report_reads_back_aux. Qed.
End Security.

(** ** Concrete messages *)

Definition toy_engine : Engine := new_engine [0x80; 0; 31; 136; 5; 1; 2; 3] 0 (mk_salts 7 9).
Definition toy_req : V3Message :=
  mk_v3 4242 1400 (mk_flags true true true) 3
    (mk_params (e_id toy_engine) 1 100 (bytes_of "ops") [] []) (0, 0)%nat None None.
Definition toy_wire : wire_pdu := mk_wire TResponse 77 0 0 (report_varbinds WrongDigests 5).
Definition toy_snapshot : Snapshot := engine_snapshot toy_engine 100500000000.

Lemma toy_answerable : answerable toy_req toy_snapshot.
Proof. split; vm_compute; (split; discriminate) || discriminate || lia. Qed.

Lemma toy_wire_ok : wire_ok toy_wire.
Proof. unfold wire_ok, is_i64. split_and!; vm_compute; (done || discriminate). Qed.

Definition toy_bytes (user : LocalizedUser) : list Z :=
  @v3_message_bytes toy_crypto toy_req toy_snapshot (Some user) (Some (mk_salts 7 9)) (wire_bytes toy_wire).

Lemma response_reads_back_witness :
  exists bytes m,
    @v3_write_message toy_crypto nat [1; 2] toy_req toy_snapshot (Some des_lu) (Some (mk_salts 7 9))
      (fun out => Some (out ++ wire_bytes toy_wire, 3%nat))
    = Some ([1; 2] ++ bytes, 3%nat, Some (mk_salts 8 9)) /\
    @says toy_crypto toy_req toy_snapshot (Some des_lu) true toy_wire bytes m.
Proof.
  destruct (@response_reads_back toy_crypto toy_laws nat [1; 2] toy_req toy_snapshot (Some des_lu)
    (Some (mk_salts 7 9)) (fun out => Some (out ++ wire_bytes toy_wire, 3%nat)) 3%nat toy_wire
    toy_answerable toy_wire_ok (fun out => eq_refl)) as (bytes & m & E & _ & Hm).
  exists bytes, m. exact (conj E Hm).
Defined.

Lemma report_reads_back_witness :
  exists bytes m, @write_report toy_crypto [] toy_req toy_snapshot NotInTimeWindows 12 (Some aes_lu) = Some bytes /\
    @says toy_crypto toy_req toy_snapshot (Some aes_lu) false
      (mk_wire TReport 0 0 0 (report_varbinds NotInTimeWindows 12)) bytes m.
Proof.
  destruct (@report_reads_back toy_crypto toy_laws [] toy_req toy_snapshot NotInTimeWindows 12 (Some aes_lu)
    toy_answerable ltac:(vm_compute; split; discriminate || done) ltac:(vm_compute; split; discriminate || done))
    as (bytes & m & E & Hm & _).
  exists bytes, m. exact (conj E Hm).
Defined.

Lemma verify_accepts_witness :
  exists m answered, v3_decode (toy_bytes des_lu) = Ok m /\
    @verify toy_crypto 200000000000 m (toy_bytes des_lu) toy_engine [aes_lu; des_lu] = Answer des_lu true answered /\
    let_through m answered = Some (wire_scoped toy_snapshot toy_wire).
Proof.
  apply (@verify_accepts toy_crypto toy_laws toy_engine 200000000000 [aes_lu; des_lu] toy_req toy_snapshot des_lu
    (Some (mk_salts 7 9)) toy_wire Md5 (repeat 7 16) toy_answerable toy_wire_ok); try reflexivity;
    vm_compute; done.
Defined.

Lemma verify_sound_witness :
  exists m, v3_decode (toy_bytes aes_lu) = Ok m /\
    verdict_authenticated (@verify toy_crypto 600000000000 m (toy_bytes aes_lu) toy_engine
      [mk_localized (bytes_of "ops") (lu_auth aes_lu) (lu_privacy aes_lu)]) = true /\
    up_engine_id (usm m) = e_id toy_engine.
Proof.
  destruct (v3_decode (toy_bytes aes_lu)) as [m|] eqn:Hm; [|by vm_compute in Hm].
  destruct (@verify_sound toy_crypto (toy_bytes aes_lu) m toy_engine 600000000000
    [mk_localized (bytes_of "ops") (lu_auth aes_lu) (lu_privacy aes_lu)] Hm) as [Ha _].
  assert (Hv : verdict_authenticated (@verify toy_crypto 600000000000 m (toy_bytes aes_lu) toy_engine
      [mk_localized (bytes_of "ops") (lu_auth aes_lu) (lu_privacy aes_lu)]) = true).
  { vm_compute in Hm. injection Hm as <-. vm_compute. reflexivity. }
  exists m. exact (conj eq_refl (conj Hv (proj1 (Ha Hv)))).
Defined.
