(* ===== verification/Responder.v ===== *)
(** * Responder: answering SNMPv1, SNMPv2c and SNMPv3 requests
    (sink/snmp/responder.rs)

    [decode] classifies a datagram's PDU; [answer] writes the response into a
    buffer from the agent's table; [answer_v3] does so for an SNMPv3 message, as
    the User-based Security Model says; [respond_noting] picks one; [handle] is
    one turn of [serve]. The socket calls are not modelled.

    Buffers are lists of octets. The clock is read when [sysUpTime] is read:
    [now n] is the time since the bind, in nanoseconds, when [n] octets of the
    varbind list are written; a list grows between two reads whose values are
    both used, so any sequence of clock readings is some [now]. [None] is a
    panic. *)

From Stdlib Require Import ZArith Lia Sorted.
From stdpp Require Import prelude strings list numbers.
From S2P Require Import Prelude Text Util Oid Ber OrdMap Usm SnmpAgent SnmpV3.

(** ** Requests *)

Definition RECEIVE_BUFFER : Z := 65535.
Definition WARNED_PEERS : nat := 1024.
Definition TOO_BIG : Z := 1.
Definition NO_SUCH_NAME : Z := 2.
Definition NOT_WRITABLE : Z := 17.

Inductive Version := VersionV1 | VersionV2c.

#[export] Instance Version_eq_dec : EqDecision Version.
Proof. solve_decision. Defined.

(** [Version::field], [Version::configured]. *)
Definition version_field (v : Version) : Z := match v with VersionV1 => 0 | VersionV2c => 1 end.
Definition configured (v : Version) : SnmpVersion := match v with VersionV1 => V1 | VersionV2c => V2c end.

Record VarList := mk_varlist { vl_message : Message; vl_len : nat }.

Inductive Pdu :=
| PGet (id : Z) (vars : VarList)
| PGetNext (id : Z) (vars : VarList)
| PGetBulk (id non_repeaters max_repetitions : Z) (vars : VarList)
| PSet (id : Z) (vars : VarList)
| POther (tag : Tag).

Record Request := mk_request { rq_version : Version; rq_community : list Z; rq_pdu : Pdu }.

(** [VarList::of]: the iterator of the list's entries, run to its end. *)
Definition varlist_of (m : Message) : result VarList BerError :=
  let? vbs := varbinds_collect (S (length (varbinds m))) (varbinds m) in
  Ok (mk_varlist m (length vbs)).

(** [map_while(Result::ok)] on the iterator. *)
Fixpoint ok_prefix (fuel : nat) (input : list Z) : list VarBind :=
  match fuel with
  | O => []
  | S fuel =>
      match varbinds_next input with
      | (Some (Ok vb), rest) => vb :: ok_prefix fuel rest
      | _ => []
      end
  end.

(** [VarList::iter], [VarList::is_empty], [VarList::body]. *)
Definition vl_iter (v : VarList) : list VarBind :=
  ok_prefix (S (length (varbinds (vl_message v)))) (varbinds (vl_message v)).
Definition vl_is_empty (v : VarList) : bool := (vl_len v =? 0)%nat.
Definition vl_body (v : VarList) : list Z := varbinds (vl_message v).

Inductive Outcome := Sent | DroppedWrongCommunity | DroppedUnsupportedVersion | DroppedOther.

#[export] Instance Outcome_eq_dec : EqDecision Outcome.
Proof. solve_decision. Defined.

(** [i32::try_from]. *)
Definition i32_try_from (v : Z) : option Z :=
  if (-2147483648 <=? v) && (v <=? 2147483647) then Some v else None.

(** The closure [count] of [classify]: a negative count reads as 0. *)
Definition clamp_count (v : Z) : Z := if Z.max v 0 <=? u32_max then Z.max v 0 else u32_max.

(** [classify]. *)
Definition classify (m : Message) : result Pdu BerError :=
  let id := ok_or (i32_try_from (request_id m)) Overflow in
  match pdu m with
  | TGetRequest =>
      let? id := id in let? vars := varlist_of m in Ok (PGet id vars)
  | TGetNextRequest =>
      let? id := id in let? vars := varlist_of m in Ok (PGetNext id vars)
  | TGetBulkRequest =>
      let? id := id in let? vars := varlist_of m in
      Ok (PGetBulk id (clamp_count (error_status m)) (clamp_count (error_index m)) vars)
  | TSetRequest =>
      let? id := id in let? vars := varlist_of m in Ok (PSet id vars)
  | other => Ok (POther other)
  end.

(** [decode]. *)
Definition decode (datagram : list Z) : result Request BerError :=
  let? m := message_decode datagram in
  let v := if version m =? 1 then VersionV2c else VersionV1 in
  if bool_decide (v = VersionV1) && bool_decide (pdu m = TGetBulkRequest)
  then Err (BadTag (tag_byte TGetBulkRequest))
  else let? pdu := classify m in Ok (mk_request v (community m) pdu).

(** ** The response being written *)

Inductive Written := Complete | Full | NoSuchName (index : nat).

(** The envelope of a response. [private] is whether the V3 envelope has the
    engine's salt counters, which are the agent's. *)
Inductive Envelope :=
| Community (version : Z) (community : list Z)
| EnvV3 (request : V3Message) (engine : Snapshot) (user : option LocalizedUser) (private : bool).

Record Reply := mk_reply { envelope : Envelope; reply_id : Z; reply_budget : Z }.

(** Where the varbind list being written starts in the response. *)
Record List_ := mk_list { start : nat; reply : Reply }.

(** [Envelope::is_v1], [Envelope::len]. *)
Definition is_v1 (e : Envelope) : bool :=
  match e with Community version _ => version =? 0 | EnvV3 _ _ _ _ => false end.

Definition envelope_len (e : Envelope) (id status index varbinds_len : Z) : Z :=
  match e with
  | Community version community => message_len version community id status index varbinds_len
  | EnvV3 request engine user private =>
      let pdu := tlv_len (i64_len id + i64_len status + i64_len index + tlv_len varbinds_len) in
      match user, private with
      | Some user, true => private_response_len request engine user pdu
      | _, _ => response_len request engine user pdu
      end
  end.

(** Whether a varbind list of [n] octets fits the budget. *)
Definition fits_len (r : Reply) (n : Z) : bool :=
  envelope_len (envelope r) (reply_id r) 0 0 n <=? reply_budget r.

(** [List::fits]. *)
Definition fits (l : List_) (out : list Z) (more : Z) : bool :=
  fits_len (reply l) (Z.of_nat (length out) - Z.of_nat (start l) + more).

(** A name's octets: in the request, or a range of the response. *)
Inductive Name :=
| NRequest (body : list Z)
| NResponse (first stop : nat).

Definition name_len (n : Name) : Z :=
  match n with
  | NRequest body => Z.of_nat (length body)
  | NResponse first stop => Z.of_nat (stop - first)
  end.

(** [exception_len]. *)
Definition exception_len (name_len : Z) : Z := tlv_len (tlv_len name_len + 2).

(** [out.extend_from_within(first..stop)]. *)
Definition extend_from_within (out : list Z) (first stop : nat) : option (list Z) :=
  if (first <=? stop)%nat && (stop <=? length out)%nat
  then Some (out ++ take (stop - first) (drop first out))
  else None.

(** [write_exception]. *)
Definition write_exception (out : list Z) (name : Name) (tag : Tag) : option (list Z) :=
  let out := write_header out TSequence (tlv_len (name_len name) + 2) in
  let out := write_header out TOid (name_len name) in
  let! out := match name with
              | NRequest body => Some (out ++ body)
              | NResponse first stop => extend_from_within out first stop
              end in
  Some (write_octets out tag []).

Inductive Step := SFound | SEnded | SFull.

#[export] Instance Step_eq_dec : EqDecision Step.
Proof. solve_decision. Defined.

(** [end_of_mib_view]. *)
Definition end_of_mib_view (name : Name) (l : List_) (out : list Z) : option (Step * list Z) :=
  if negb (fits l out (exception_len (name_len name))) then Some (SFull, out)
  else let! out := write_exception out name TEndOfMibView in Some (SEnded, out).

(** [name_in]: a subslice's place in its slice is where the readers stopped. *)
Definition name_in (out : list Z) (at_ : nat) : option (result (nat * nat) BerError) :=
  if (length out <? at_)%nat then None
  else
    let input := drop at_ out in
    let (r, rest) := expect TSequence input in
    Some (let? body := r in
          let (r, rest') := expect TOid body in
          let? name := r in
          let body_at := (at_ + (length input - length rest - length body))%nat in
          let first := (body_at + (length body - length rest' - length name))%nat in
          Ok (first, first + length name)%nat).

(** ** The varbinds of each PDU *)

Section answer.
Context (now : nat -> Z) (a : SnmpAgent).

(** The clock, by the octets of the list written. *)
Definition clock (l : List_) (out : list Z) : Z := now (length out - start l)%nat.

Definition Handler : Type := option (result Written BerError * list Z).

(** [get]. *)
Fixpoint get (vars : list VarBind) (l : List_) (out : list Z) : Handler :=
  match vars with
  | [] => Some (Ok Complete, out)
  | var :: vars =>
      match decode_ber_body (vb_oid var) with
      | None => Some (Err BadOid, out)
      | Some name =>
          let! found := lookup name (clock l out) a in
          let exception tag :=
            if negb (fits l out (exception_len (Z.of_nat (length (vb_oid var)))))
            then Some (Ok Full, out)
            else let! out := write_exception out (NRequest (vb_oid var)) tag in get vars l out in
          match found with
          | Value vb =>
              if negb (fits l out (Z.of_nat (length vb))) then Some (Ok Full, out)
              else get vars l (out ++ vb)
          | NoSuchInstance => exception TNoSuchInstance
          | NoSuchObject => exception TNoSuchObject
          end
      end
  end.

(** The last step of [get_v1] and [get_next_v1]. *)
Definition v1_written (full : bool) : Written := if full then Full else Complete.

(** [get_v1], from the varbind at [index] on. *)
Fixpoint get_v1 (vars : list VarBind) (index : nat) (full : bool) (l : List_) (out : list Z)
  : Handler :=
  match vars with
  | [] => Some (Ok (v1_written full), out)
  | var :: vars =>
      match decode_ber_body (vb_oid var) with
      | None => Some (Err BadOid, out)
      | Some name =>
          let! found := lookup name (clock l out) a in
          match found with
          | Value vb =>
              if is_counter64 vb then Some (Ok (NoSuchName (index + 1)), out)
              else if negb full && fits l out (Z.of_nat (length vb))
              then get_v1 vars (index + 1) full l (out ++ vb)
              else get_v1 vars (index + 1) true l out
          | _ => Some (Ok (NoSuchName (index + 1)), out)
          end
      end
  end.

(** The closure of [get_next_v1]: the buffer, [full] and [found]. *)
Definition next_v1_emit (l : List_) (s : list Z * bool * bool) (_ : Oid) (vb : list Z)
  : (list Z * bool * bool) * bool :=
  let '(out, full, _) := s in
  if negb full && fits l out (Z.of_nat (length vb)) then ((out ++ vb, full, true), false)
  else ((out, true, true), false).

(** [get_next_v1], from the varbind at [index] on. *)
Fixpoint get_next_v1 (vars : list VarBind) (index : nat) (full : bool) (l : List_) (out : list Z)
  : Handler :=
  match vars with
  | [] => Some (Ok (v1_written full), out)
  | var :: vars =>
      match decode_ber_body (vb_oid var) with
      | None => Some (Err BadOid, out)
      | Some name =>
          let! (out, full, found) :=
            bulk (fun s => clock l s.1.1) (next_v1_emit l) name 1 true a (out, full, false) in
          if negb found then Some (Ok (NoSuchName (index + 1)), out)
          else get_next_v1 vars (index + 1) full l out
      end
  end.

(** The closure of [next]: the buffer and [step]. *)
Definition next_emit (l : List_) (s : list Z * Step) (_ : Oid) (vb : list Z)
  : (list Z * Step) * bool :=
  let (out, _) := s in
  if fits l out (Z.of_nat (length vb)) then ((out ++ vb, SFound), false)
  else ((out, SFull), false).

(** [next]. *)
Definition next_step (arcs : list Z) (name : Name) (l : List_) (out : list Z)
  : option (Step * list Z) :=
  let! (out, step) :=
    bulk (fun s => clock l s.1) (next_emit l) arcs 1 false a (out, SEnded) in
  if bool_decide (step = SEnded) then end_of_mib_view name l out else Some (step, out).

(** [get_next]. *)
Fixpoint get_next (vars : list VarBind) (l : List_) (out : list Z) : Handler :=
  match vars with
  | [] => Some (Ok Complete, out)
  | var :: vars =>
      match decode_ber_body (vb_oid var) with
      | None => Some (Err BadOid, out)
      | Some name =>
          let! (step, out) := next_step name (NRequest (vb_oid var)) l out in
          if bool_decide (step = SFull) then Some (Ok Full, out) else get_next vars l out
      end
  end.

(** ** [GetBulkRequest] *)

Record Cursor := mk_cursor { cur_first : nat; cur_stop : nat; cur_ended : bool }.

(** A stage of [get_bulk]: it goes on with [x], or the handler returns. *)
Inductive Stage (X : Type) :=
| Go (x : X) (out : list Z)
| Return (w : result Written BerError) (out : list Z).
Arguments Go {X} x out.
Arguments Return {X} w out.

(** The loop over the non-repeaters. *)
Fixpoint non_repeating (vars : list VarBind) (l : List_) (out : list Z) : option (Stage unit) :=
  match vars with
  | [] => Some (Go tt out)
  | var :: vars =>
      match decode_ber_body (vb_oid var) with
      | None => Some (Return (Err BadOid) out)
      | Some name =>
          let! (step, out) := next_step name (NRequest (vb_oid var)) l out in
          if bool_decide (step = SFull) then Some (Return (Ok Complete) out)
          else non_repeating vars l out
      end
  end.

(** The first round, from the request's names, the cursors pushed so far. *)
Fixpoint first_round (vars : list VarBind) (cursors : list Cursor) (l : List_) (out : list Z)
  : option (Stage (list Cursor)) :=
  match vars with
  | [] => Some (Go cursors out)
  | var :: vars =>
      match decode_ber_body (vb_oid var) with
      | None => Some (Return (Err BadOid) out)
      | Some name =>
          let at_ := length out in
          let! (step, out) := next_step name (NRequest (vb_oid var)) l out in
          if bool_decide (step = SFull) then Some (Return (Ok Complete) out)
          else
            let! range := name_in out at_ in
            match range with
            | Err e => Some (Return (Err e) out)
            | Ok (first, stop) =>
                first_round vars (cursors ++ [mk_cursor first stop (bool_decide (step = SEnded))]) l out
            end
      end
  end.

(** [oid::decode_ber_body(&out[first..stop], ..)]. *)
Definition decode_range (out : list Z) (first stop : nat) : option (result (list Z) BerError) :=
  if (first <=? stop)%nat && (stop <=? length out)%nat
  then Some (ok_or (decode_ber_body (take (stop - first) (drop first out))) BadOid)
  else None.

(** One later round, over the repeaters left; [done] are this round's cursors. *)
Fixpoint later_round (cursors done : list Cursor) (l : List_) (out : list Z)
  : option (Stage (list Cursor)) :=
  match cursors with
  | [] => Some (Go done out)
  | cursor :: cursors =>
      let at_ := length out in
      let name := NResponse (cur_first cursor) (cur_stop cursor) in
      let! stepped :=
        if cur_ended cursor then let! r := end_of_mib_view name l out in Some (Ok r)
        else
          let! arcs := decode_range out (cur_first cursor) (cur_stop cursor) in
          match arcs with
          | Err e => Some (Err e)
          | Ok arcs => let! r := next_step arcs name l out in Some (Ok r)
          end in
      match stepped with
      | Err e => Some (Return (Err e) out)
      | Ok (step, out) =>
          if bool_decide (step = SFull) then Some (Return (Ok Complete) out)
          else
            let! range := name_in out at_ in
            match range with
            | Err e => Some (Return (Err e) out)
            | Ok (first, stop) =>
                later_round cursors (done ++ [mk_cursor first stop (bool_decide (step = SEnded))]) l out
            end
      end
  end.

(** The loop [for _ in 1..max_repetitions]; [n] rounds are left. *)
Fixpoint later_rounds (n : nat) (cursors : list Cursor) (l : List_) (out : list Z) : Handler :=
  match n with
  | O => Some (Ok Complete, out)
  | S n =>
      if forallb cur_ended cursors then Some (Ok Complete, out)
      else
        let! stage := later_round cursors [] l out in
        match stage with
        | Return w out => Some (w, out)
        | Go cursors out => later_rounds n cursors l out
        end
  end.

(** What the closure of [column] keeps. *)
Record ColumnState := mk_column {
  col_out : list Z; col_emitted : Z; col_full : bool; col_last : option nat;
}.

(** The closure of [column]. *)
Definition column_emit (l : List_) (s : ColumnState) (_ : Oid) (vb : list Z) : ColumnState * bool :=
  if negb (fits l (col_out s) (Z.of_nat (length vb)))
  then (mk_column (col_out s) (col_emitted s) true (col_last s), false)
  else (mk_column (col_out s ++ vb) (col_emitted s + 1) (col_full s)
          (Some (length (col_out s))), true).

(** [column]. *)
Definition column (first : Cursor) (rounds : Z) (l : List_) (out : list Z) : Handler :=
  if cur_ended first || (rounds =? 0) then Some (Ok Complete, out)
  else
    let! arcs := decode_range out (cur_first first) (cur_stop first) in
    match arcs with
    | Err e => Some (Err e, out)
    | Ok arcs =>
        let! s :=
          bulk (fun s => clock l (col_out s)) (column_emit l) arcs rounds false a
            (mk_column out 0 false None) in
        let out := col_out s in
        if col_full s || (col_emitted s =? rounds) then Some (Ok Complete, out)
        else
          let! name := match col_last s with
                       | Some at_ => name_in out at_
                       | None => Some (Ok (cur_first first, cur_stop first))
                       end in
          match name with
          | Err e => Some (Err e, out)
          | Ok (first, stop) =>
              let! (_, out) := end_of_mib_view (NResponse first stop) l out in
              Some (Ok Complete, out)
          end
    end.

(** [get_bulk]. *)
Definition get_bulk (vars : VarList) (non_repeaters max_repetitions : Z) (l : List_) (out : list Z)
  : Handler :=
  let non_repeaters := Nat.min (vl_len vars) (Z.to_nat non_repeaters) in
  let! stage := non_repeating (take non_repeaters (vl_iter vars)) l out in
  match stage with
  | Return w out => Some (w, out)
  | Go _ out =>
      if max_repetitions =? 0 then Some (Ok Complete, out)
      else
        let! stage := first_round (drop non_repeaters (vl_iter vars)) [] l out in
        match stage with
        | Return w out => Some (w, out)
        | Go [cursor] out => column cursor (max_repetitions - 1) l out
        | Go cursors out => later_rounds (Z.to_nat (max_repetitions - 1)) cursors l out
        end
  end.

(** [echo]. *)
Definition echo (vars : VarList) (l : List_) (out : list Z) : Handler :=
  if negb (fits l out (Z.of_nat (length (vl_body vars)))) then Some (Ok Full, out)
  else Some (Ok Complete, out ++ vl_body vars).
End answer.

Arguments Go {X} x out.
Arguments Return {X} w out.

(** ** Responses *)

Section responses.
Context `{Crypto}.

(** The counters of the agent's engine, and the agent with others. *)
Definition agent_salts (a : SnmpAgent) : SaltCounter := e_salts (engine (agent_usm a)).

Definition set_salts (salts : SaltCounter) (a : SnmpAgent) : SnmpAgent :=
  let u := agent_usm a in
  let e := engine u in
  mk_agent (settings a) (mk_usm (mk_engine (e_id e) (e_boots e) (bound_at e) salts) (users u))
    (system a) (table a) (counters a) (last_request a) (too_big_warned a) (serving a).

(** A [Response]'s TLV, whose varbinds a closure that leaves a value appends. *)
Definition write_response_pdu {A : Type} (id status index : Z)
  (varbinds : list Z -> option (list Z * A)) (out : list Z) : option (list Z * A) :=
  write_tlv_with out TResponse (fun out =>
    let out := write_i64 out TInteger id in
    let out := write_i64 out TInteger status in
    let out := write_i64 out TInteger index in
    write_tlv_with out TSequence varbinds).

(** [Envelope::write], for a closure that leaves a value: the buffer, the value
    and the engine's counters after it. *)
Definition envelope_write {A : Type} (e : Envelope) (salts : SaltCounter) (out : list Z)
  (id status index : Z) (varbinds : list Z -> option (list Z * A))
  : option (list Z * A * SaltCounter) :=
  match e with
  | Community version community =>
      let! (out, x) :=
        write_tlv_with out TSequence (fun out =>
          let out := write_i64 out TInteger version in
          let out := write_octets out TOctetString community in
          write_response_pdu id status index varbinds out) in
      Some (out, x, salts)
  | EnvV3 request engine user private =>
      let pdu := write_response_pdu id status index varbinds in
      match user, private with
      | Some user, true => write_private_response out request engine user salts pdu
      | _, _ => let! (out, x) := write_response out request engine user pdu in Some (out, x, salts)
      end
  end.

(** [error_response]. *)
Definition error_response (r : Reply) (salts : SaltCounter) (status index : Z) (vbs : list Z)
  (out : list Z) : option (Outcome * list Z * SaltCounter) :=
  let len := envelope_len (envelope r) (reply_id r) status index (Z.of_nat (length vbs)) in
  if reply_budget r <? len then Some (DroppedOther, out, salts)
  else
    let! (out, _, salts) := envelope_write (envelope r) salts out (reply_id r) status index
                              (fun out => Some (out ++ vbs, tt)) in
    Some (Sent, out, salts).

(** [too_big], warning at the instant [at_]. *)
Definition too_big (at_ : Z) (r : Reply) (vars : VarList) (a : SnmpAgent)
  : option (Outcome * SnmpAgent * list Z) :=
  let a := count CTooBig a in
  let (_, a) := warn_too_big at_ a in
  let echoed := if is_v1 (envelope r) then vl_body vars else [] in
  let! (outcome, out, salts) := error_response r (agent_salts a) TOO_BIG 0 echoed [] in
  Some (outcome, set_salts salts a, out).

(** [no_such_name]. *)
Definition no_such_name (at_ : Z) (r : Reply) (vars : VarList) (index : nat) (a : SnmpAgent)
  : option (Outcome * SnmpAgent * list Z) :=
  let index := if Z.of_nat index <=? 9223372036854775807 then Z.of_nat index
               else 9223372036854775807 in
  let! (outcome, out, salts) :=
    error_response r (agent_salts a) NO_SUCH_NAME index (vl_body vars) [] in
  let a := set_salts salts a in
  match outcome with
  | Sent => Some (Sent, a, out)
  | _ => too_big at_ r vars a
  end.

(** The closure [answer_pdu] writes the varbind list with. *)
Definition write_list (now : nat -> Z) (a : SnmpAgent) (p : Pdu) (vars : VarList) (r : Reply)
  (out : list Z) : option (list Z * result Written BerError) :=
  let l := mk_list (length out) r in
  let v1 := is_v1 (envelope r) in
  let! (w, out) :=
    match p with
    | PGet _ _ => if v1 then get_v1 now a (vl_iter vars) 0 false l out
                  else get now a (vl_iter vars) l out
    | PGetNext _ _ => if v1 then get_next_v1 now a (vl_iter vars) 0 false l out
                      else get_next now a (vl_iter vars) l out
    | PGetBulk _ non_repeaters max_repetitions _ =>
        get_bulk now a vars non_repeaters max_repetitions l out
    | PSet _ _ => echo vars l out
    | POther _ => Some (Ok Complete, out)
    end in
  Some (out, w).

(** [answer_pdu] for a PDU it answers: its counter, request-id and varbinds. *)
Definition answer_vars (now : nat -> Z) (at_ : Z) (p : Pdu) (e : Envelope) (a : SnmpAgent)
  (budget : Z) (counter : Counter) (id : Z) (vars : VarList)
  : option (Outcome * SnmpAgent * list Z) :=
  let v1 := is_v1 e in
  let r := mk_reply e id budget in
  let (status, index) :=
    match p with
    | PSet _ _ => if vl_is_empty vars then (0, 0)
                  else if v1 then (NO_SUCH_NAME, 1) else (NOT_WRITABLE, 1)
    | _ => (0, 0)
    end in
  let! (out, written, salts) :=
    envelope_write e (agent_salts a) [] id status index (write_list now a p vars r) in
  let a := set_salts salts a in
  match written with
  | Err _ => Some (DroppedOther, count CMalformed a, [])
  | Ok written =>
      let! (outcome, a, out) :=
        match written with
        | Complete => Some (Sent, a, out)
        | Full => too_big at_ r vars a
        | NoSuchName index => no_such_name at_ r vars index a
        end in
      let a := count counter a in
      let a := match e with
               | Community _ _ => if v1 then count CV1 a else a
               | EnvV3 _ _ _ _ => count CV3 a
               end in
      Some (outcome, a, out)
  end.

(** [answer_pdu]. *)
Definition answer_pdu (now : nat -> Z) (at_ : Z) (p : Pdu) (e : Envelope) (a : SnmpAgent)
  (budget : Z) : option (Outcome * SnmpAgent * list Z) :=
  match p with
  | PGet id vars => answer_vars now at_ p e a budget CGet id vars
  | PGetNext id vars => answer_vars now at_ p e a budget CGetNext id vars
  | PGetBulk id _ _ vars => answer_vars now at_ p e a budget CGetBulk id vars
  | PSet id vars => answer_vars now at_ p e a budget CSetRefused id vars
  | POther _ => Some (DroppedOther, count CMalformed a, [])
  end.

(** [answer]. *)
Definition answer (now : nat -> Z) (at_ : Z) (req : Request) (a : SnmpAgent) (budget : Z)
  : option (Outcome * SnmpAgent * list Z) :=
  if negb (bool_decide (configured (rq_version req) ∈ as_versions (settings a)))
  then Some (DroppedUnsupportedVersion, count CUnsupportedVersion a, [])
  else
    let community := bytes_of (as_community (settings a)) in
    if negb (constant_time_eq (rq_community req) community)
    then Some (DroppedWrongCommunity, count CWrongCommunity a, [])
    else answer_pdu now at_ (rq_pdu req) (Community (version_field (rq_version req)) community)
           a budget.

(** [undecodable]. *)
Definition undecodable (a : SnmpAgent) (e : BerError) : Outcome * SnmpAgent :=
  if bool_decide (e = UnsupportedVersion VERSION)
  then (DroppedUnsupportedVersion, count CUnsupportedVersion a)
  else (DroppedOther, count CMalformed a).

(** [message_version]. *)
Definition message_version (datagram : list Z) : option SnmpVersion :=
  let (r, outer) := expect TSequence datagram in
  match r with
  | Err _ => None
  | Ok body =>
      if negb (bool_decide (outer = [])) then None
      else match fst (read_i64 TInteger body) with
           | Ok 0 => Some V1
           | Ok 1 => Some V2c
           | Ok 3 => Some V3
           | _ => None
           end
  end.

(** What the closure [refused] is called with, if it is. *)
Inductive Refusal :=
| RWrongCommunity (req : Request)
| RUnknownUser (user : list Z)
| RWrongDigest (user : list Z).

(** [answer_v3]; the engine's clock is read at [checked] by [verify], and at
    [at_] for the response. *)
Definition answer_v3 (now : nat -> Z) (checked at_ : Z) (datagram : list Z) (a : SnmpAgent)
  (budget : Z) : option (Outcome * SnmpAgent * list Z * option Refusal) :=
  let malformed := Some (DroppedOther, count CMalformed a, [], None) in
  match v3_decode datagram with
  | Err _ => malformed
  | Ok request =>
      if negb (security_model request =? USM) then malformed
      else
        let u := agent_usm a in
        match verify checked request datagram (engine u) (users u) with
        | Report stat authenticated =>
            let (value, a) := count_and_read (stat_counter stat) a in
            let value := value mod (u32_max + 1) in
            let name := up_user (usm request) in
            let refusal := match stat with
                           | UnknownUserNames => Some (RUnknownUser name)
                           | WrongDigests => Some (RWrongDigest name)
                           | _ => None
                           end in
            if f_reportable (flags request) then
              let user := if authenticated then find_user (users u) name else None in
              let! out := write_report [] request (engine_snapshot (engine u) at_) stat value user in
              Some (Sent, a, out, refusal)
            else Some (DroppedOther, a, [], refusal)
        | Answer user authenticated decrypted =>
            let pdu :=
              let! s := match decrypted with Some s => Some s | None => scoped request end in
              match classify (sp_pdu s) with Ok pdu => Some pdu | Err _ => None end in
            match pdu with
            | Some pdu =>
                let envelope :=
                  EnvV3 request (engine_snapshot (engine u) at_)
                    (if authenticated then Some user else None) (f_privacy (flags request)) in
                let budget := Z.min budget (msg_max_size request) in
                let! (outcome, a, out) := answer_pdu now at_ pdu envelope a budget in
                Some (outcome, a, out, None)
            | None => malformed
            end
        end
  end.

(** [respond_noting]. *)
Definition respond_noting (now : nat -> Z) (checked at_ : Z) (datagram : list Z) (a : SnmpAgent) (budget : Z)
  : option (Outcome * SnmpAgent * list Z * option Refusal) :=
  match decode datagram with
  | Ok request =>
      let! (outcome, a, out) := answer now at_ request a budget in
      Some (outcome, a, out,
            if bool_decide (outcome = DroppedWrongCommunity) then Some (RWrongCommunity request)
            else None)
  | Err e =>
      if bool_decide (e = UnsupportedVersion VERSION)
         && bool_decide (V3 ∈ as_versions (settings a))
      then answer_v3 now checked at_ datagram a budget
      else let (outcome, a) := undecodable a e in Some (outcome, a, [], None)
  end.

(** One turn of [serve]: a datagram [bytes] read from [peer] at the time
    [read_at], the instant [at_]; [sent] is whether the socket takes the
    response. The response, if there is one, and the refusal to warn about. *)
Definition handle (now : nat -> Z) (checked at_ read_at peer : Z) (sent : bool) (bytes : list Z)
  (a : SnmpAgent) : option (option (list Z) * option Refusal * SnmpAgent) :=
  let a := note_request read_at peer (message_version bytes) a in
  let budget := max_message_size (settings a) in
  let! (outcome, a, out, refusal) := respond_noting now checked at_ bytes a budget in
  match outcome with
  | Sent => Some (Some out, refusal, if sent then a else count CSendErrors a)
  | _ => Some (None, refusal, a)
  end.
End responses.

(** ** Warnings *)

(** When each peer was last warned about: the keys are distinct. *)
Definition PeerWarnings : Type := list (Z * Z).

(** [map.insert(peer, now)] of the [HashMap]: replaces or adds. *)
Fixpoint warn_insert (peer now : Z) (last : PeerWarnings) : PeerWarnings :=
  match last with
  | [] => [(peer, now)]
  | (p, at_) :: last => if p =? peer then (p, now) :: last else (p, at_) :: warn_insert peer now last
  end.

Fixpoint warn_get (peer : Z) (last : PeerWarnings) : option Z :=
  match last with
  | [] => None
  | (p, at_) :: last => if p =? peer then Some at_ else warn_get peer last
  end.

(** [PeerWarnings::due] at [now]. *)
Definition due (now peer : Z) (last : PeerWarnings) : bool * PeerWarnings :=
  if negb (warn_due (warn_get peer last) now) then (false, last)
  else
    let known := match warn_get peer last with Some _ => true | None => false end in
    if (WARNED_PEERS <=? length last)%nat && negb known then
      let last := List.filter (fun '(_, at_) => negb (warn_due (Some at_) now)) last in
      if (WARNED_PEERS <=? length last)%nat then (false, last)
      else (true, warn_insert peer now last)
    else (true, warn_insert peer now last).
