(* ===== verification/ResponderProofs.v ===== *)
(** * ResponderProofs: what the responder's answers are

    Theorems about [Responder]: what a handler writes does not depend on where
    its list starts (relocation), fits the budget and needs no panic (sizes,
    handlers); the lone-repeater path of [GetBulk] is the general loop; a manager
    that walks by [GetNext] is answered every instance once, and then told the
    walk is over. *)

From Stdlib Require Import ZArith Lia Sorted Ascii.
From stdpp Require Import prelude strings list numbers.
From S2P Require Import Prelude Text Util Oid Ber OrdMap Usm SnmpAgent SnmpSink SnmpV3 V3Proofs Responder.

(** ** Relocation

    What a handler writes does not depend on where the list starts: every
    function below commutes with a prefix. *)

Section reloc.
Context (now : nat -> Z) (a : SnmpAgent) (r : Reply) (pre : list Z).

Abbreviation L0 := (mk_list 0 r).
Abbreviation LP := (mk_list (length pre) r).

Lemma fits_reloc acc more : fits LP (pre ++ acc) more = fits L0 acc more.
Proof. unfold fits. cbn [start reply]. rewrite length_app. apply (f_equal (fits_len r)). lia. Qed.

Lemma clock_reloc acc : clock now LP (pre ++ acc) = clock now L0 acc.
Proof. unfold clock. cbn [start]. rewrite length_app. f_equal. lia. Qed.

Lemma write_header_reloc acc tag len :
  write_header (pre ++ acc) tag len = pre ++ write_header acc tag len.
Proof. unfold write_header, write_length. case_match; by rewrite <- !app_assoc. Qed.

Lemma write_octets_reloc acc tag b :
  write_octets (pre ++ acc) tag b = pre ++ write_octets acc tag b.
Proof. unfold write_octets. by rewrite write_header_reloc, <- app_assoc. Qed.

Definition move_name (n : Name) : Name :=
  match n with
  | NRequest body => NRequest body
  | NResponse first stop => NResponse (length pre + first) (length pre + stop)
  end.

Lemma move_name_len n : name_len (move_name n) = name_len n.
Proof. destruct n; cbn; [done|]. f_equal. lia. Qed.

Lemma leb_shift n x y : (n + x <=? n + y)%nat = (x <=? y)%nat.
Proof. destruct (Nat.leb_spec x y); [apply Nat.leb_le|apply Nat.leb_gt]; lia. Qed.

Lemma slice_reloc acc first stop :
  take (length pre + stop - (length pre + first)) (drop (length pre + first) (pre ++ acc))
  = take (stop - first) (drop first acc).
Proof.
  rewrite drop_app_ge by lia. f_equal; [lia|]. f_equal. lia.
Qed.

Lemma extend_reloc acc first stop :
  extend_from_within (pre ++ acc) (length pre + first) (length pre + stop)
  = app pre <$> extend_from_within acc first stop.
Proof.
  unfold extend_from_within. rewrite length_app, !leb_shift, slice_reloc.
  case_match; cbn; [|done]. by rewrite <- app_assoc.
Qed.

Lemma write_exception_reloc acc n tag :
  write_exception (pre ++ acc) (move_name n) tag = app pre <$> write_exception acc n tag.
Proof.
  unfold write_exception. rewrite move_name_len, !write_header_reloc.
  destruct n as [body|first stop]; cbn [move_name].
  - by rewrite <- !app_assoc, write_octets_reloc.
  - rewrite extend_reloc. destruct (extend_from_within _ _ _); cbn; [|done].
    by rewrite write_octets_reloc.
Qed.

(** The same with a step, a written, ... beside the buffer. *)
Definition move {X : Type} (p : X * list Z) : X * list Z := (p.1, pre ++ p.2).

Lemma end_of_mib_view_reloc acc n :
  end_of_mib_view (move_name n) LP (pre ++ acc) = move <$> end_of_mib_view n L0 acc.
Proof.
  unfold end_of_mib_view. rewrite fits_reloc, move_name_len. destruct (negb _); [done|].
  rewrite write_exception_reloc. by destruct (write_exception _ _ _).
Qed.

Lemma next_step_reloc arcs n acc :
  next_step now a arcs (move_name n) LP (pre ++ acc) = move <$> next_step now a arcs n L0 acc.
Proof.
  unfold next_step.
  pose proof (bulk_map (fun p : list Z * Step => (pre ++ p.1, p.2)) (fun s => clock now L0 s.1)
    (fun s => clock now LP s.1) (next_emit L0) (next_emit LP) arcs 1 false a (acc, SEnded)) as Hb.
  cbn [fst snd] in Hb. rewrite Hb; clear Hb.
  - destruct (bulk _ _ _ _ _ _ _) as [[out st]|]; cbn; [|done].
    case_bool_decide; [apply end_of_mib_view_reloc|done].
  - intros [out st]. apply clock_reloc.
  - intros [out st] oid vb. cbn [next_emit fst snd]. rewrite fits_reloc.
    case_match; cbn; by rewrite ?app_assoc.
Qed.

Lemma get_reloc vars acc : get now a vars LP (pre ++ acc) = move <$> get now a vars L0 acc.
Proof.
  revert acc. induction vars as [|var vars IH]; intros acc; cbn [get]; [done|].
  destruct (decode_ber_body (vb_oid var)) as [name|]; [|done]. rewrite clock_reloc.
  destruct (lookup name _ a) as [found|]; [|done].
  assert (Hex : forall tag,
    (let! out := write_exception (pre ++ acc) (NRequest (vb_oid var)) tag in get now a vars LP out)
    = move <$> (let! out := write_exception acc (NRequest (vb_oid var)) tag in get now a vars L0 out)).
  { intros tag. change (NRequest (vb_oid var)) with (move_name (NRequest (vb_oid var))) at 1.
    rewrite write_exception_reloc. destruct (write_exception _ _ _) as [out|]; [apply IH|done]. }
  destruct found as [vb| |]; cbv beta zeta; rewrite ?fits_reloc;
    (destruct (negb _); [reflexivity|]).
  - rewrite <- app_assoc. apply IH.
  - apply Hex.
  - apply Hex.
Qed.

Lemma get_v1_reloc vars index full acc :
  get_v1 now a vars index full LP (pre ++ acc) = move <$> get_v1 now a vars index full L0 acc.
Proof.
  revert index full acc. induction vars as [|var vars IH]; intros index full acc; cbn [get_v1]; [done|].
  destruct (decode_ber_body (vb_oid var)) as [name|]; [|done]. rewrite clock_reloc.
  destruct (lookup name _ a) as [[vb| |]|]; [|done..]. destruct (is_counter64 vb); [done|].
  rewrite fits_reloc. destruct (negb full && _); [|apply IH]. rewrite <- app_assoc. apply IH.
Qed.

Lemma get_next_v1_reloc vars index full acc :
  get_next_v1 now a vars index full LP (pre ++ acc) = move <$> get_next_v1 now a vars index full L0 acc.
Proof.
  revert index full acc. induction vars as [|var vars IH]; intros index full acc;
    cbn [get_next_v1]; [done|].
  destruct (decode_ber_body (vb_oid var)) as [name|]; [|done].
  pose proof (bulk_map (fun p : list Z * bool * bool => (pre ++ p.1.1, p.1.2, p.2))
    (fun s => clock now L0 s.1.1) (fun s => clock now LP s.1.1) (next_v1_emit L0) (next_v1_emit LP)
    name 1 true a (acc, full, false)) as Hb.
  cbn [fst snd] in Hb. rewrite Hb; clear Hb.
  - destruct (bulk _ _ _ _ _ _ _) as [[[out fu] fo]|]; cbn; [|done].
    destruct fo; cbn [negb]; [apply IH|done].
  - intros [[out fu] fo]. apply clock_reloc.
  - intros [[out fu] fo] oid vb. cbn [next_v1_emit fst snd]. rewrite fits_reloc.
    case_match; cbn; by rewrite ?app_assoc.
Qed.

Lemma get_next_reloc vars acc :
  get_next now a vars LP (pre ++ acc) = move <$> get_next now a vars L0 acc.
Proof.
  revert acc. induction vars as [|var vars IH]; intros acc; cbn [get_next]; [done|].
  destruct (decode_ber_body (vb_oid var)) as [name|]; [|done].
  change (NRequest (vb_oid var)) with (move_name (NRequest (vb_oid var))) at 1.
  rewrite next_step_reloc. destruct (next_step _ _ _ _ _ _) as [[st out]|]; cbn; [|done].
  case_bool_decide; [done|apply IH].
Qed.

Lemma echo_reloc vars acc : echo vars LP (pre ++ acc) = move <$> echo vars L0 acc.
Proof.
  unfold echo. rewrite fits_reloc. destruct (negb _); [done|]. by rewrite <- app_assoc.
Qed.

(** *** [GetBulk] *)

Definition move_cursor (c : Cursor) : Cursor :=
  mk_cursor (length pre + cur_first c) (length pre + cur_stop c) (cur_ended c).

Definition move_stage {X : Type} (f : X -> X) (s : Stage X) : Stage X :=
  match s with Go x out => Go (f x) (pre ++ out) | Return w out => Return w (pre ++ out) end.

Definition move_range (rg : result (nat * nat) BerError) : result (nat * nat) BerError :=
  match rg with Ok (f, s) => Ok (length pre + f, length pre + s)%nat | Err e => Err e end.

Lemma name_in_reloc acc at_ :
  name_in (pre ++ acc) (length pre + at_) = move_range <$> name_in acc at_.
Proof.
  unfold name_in. rewrite length_app.
  replace (length pre + length acc <? length pre + at_)%nat with (length acc <? at_)%nat
    by (unfold Nat.ltb; rewrite <- Nat.add_succ_r; symmetry; apply leb_shift).
  destruct (length acc <? at_)%nat; [done|].
  replace (drop (length pre + at_) (pre ++ acc)) with (drop at_ acc)
    by (rewrite drop_app_ge by lia; f_equal; lia).
  destruct (expect TSequence (drop at_ acc)) as [[body|] rest]; cbn; [|done].
  destruct (expect TOid body) as [[name|] rest']; cbn; [|done].
  f_equal. f_equal. f_equal; lia.
Qed.

Lemma non_repeating_reloc vars acc :
  non_repeating now a vars LP (pre ++ acc)
  = move_stage (fun x => x) <$> non_repeating now a vars L0 acc.
Proof.
  revert acc. induction vars as [|var vars IH]; intros acc; cbn [non_repeating]; [done|].
  destruct (decode_ber_body (vb_oid var)) as [name|]; [|done].
  change (NRequest (vb_oid var)) with (move_name (NRequest (vb_oid var))) at 1.
  rewrite next_step_reloc. destruct (next_step _ _ _ _ _ _) as [[st out]|]; cbn; [|done].
  case_bool_decide; [done|apply IH].
Qed.

Lemma first_round_reloc vars cs acc :
  first_round now a vars (map move_cursor cs) LP (pre ++ acc)
  = move_stage (map move_cursor) <$> first_round now a vars cs L0 acc.
Proof.
  revert cs acc. induction vars as [|var vars IH]; intros cs acc; cbn [first_round]; [done|].
  destruct (decode_ber_body (vb_oid var)) as [name|]; [|done].
  change (NRequest (vb_oid var)) with (move_name (NRequest (vb_oid var))) at 1.
  rewrite next_step_reloc. destruct (next_step _ _ _ _ _ _) as [[st out]|]; cbn [move fst snd fmap option_fmap option_map]; [|done].
  case_bool_decide; [done|]. rewrite length_app, name_in_reloc.
  destruct (name_in out (length acc)) as [[[f s]|e]|]; cbn [fmap option_fmap option_map move_range]; [|done..].
  rewrite <- IH. by rewrite map_app.
Qed.

Lemma decode_range_reloc acc first stop :
  decode_range (pre ++ acc) (length pre + first) (length pre + stop) = decode_range acc first stop.
Proof. unfold decode_range. by rewrite length_app, !leb_shift, slice_reloc. Qed.

Lemma later_round_reloc cs done acc :
  later_round now a (map move_cursor cs) (map move_cursor done) LP (pre ++ acc)
  = move_stage (map move_cursor) <$> later_round now a cs done L0 acc.
Proof.
  revert done acc. induction cs as [|c cs IH]; intros done acc; cbn [later_round map]; [reflexivity|].
  cbn [cur_ended cur_first cur_stop move_cursor].
  change (NResponse (length pre + cur_first c) (length pre + cur_stop c))
    with (move_name (NResponse (cur_first c) (cur_stop c))).
  rewrite end_of_mib_view_reloc, decode_range_reloc.
  assert (Hgo : forall o : option (Step * list Z),
    match (let! r := move <$> o in Some (@Ok _ BerError r)) with
    | Some stepped =>
      match stepped with
      | Ok (step, out) =>
          if bool_decide (step = SFull) then Some (Return (Ok Complete) out)
          else let! range := name_in out (length (pre ++ acc)) in
               match range with
               | Ok (first, stop) =>
                   later_round now a (map move_cursor cs)
                     (map move_cursor done ++ [mk_cursor first stop (bool_decide (step = SEnded))]) LP out
               | Err e => Some (Return (Err e) out)
               end
      | Err e => Some (Return (Err e) (pre ++ acc))
      end
    | None => None
    end = move_stage (map move_cursor) <$>
    match (let! r := o in Some (@Ok _ BerError r)) with
    | Some stepped =>
      match stepped with
      | Ok (step, out) =>
          if bool_decide (step = SFull) then Some (Return (Ok Complete) out)
          else let! range := name_in out (length acc) in
               match range with
               | Ok (first, stop) =>
                   later_round now a cs
                     (done ++ [mk_cursor first stop (bool_decide (step = SEnded))]) L0 out
               | Err e => Some (Return (Err e) out)
               end
      | Err e => Some (Return (Err e) acc)
      end
    | None => None
    end).
  { intros [[st out]|]; cbn [move fst snd fmap option_fmap option_map]; [|reflexivity].
    case_bool_decide; [reflexivity|]. rewrite length_app, name_in_reloc.
    destruct (name_in out (length acc)) as [[[f s]|e]|];
      cbn [fmap option_fmap option_map move_range]; [|reflexivity..].
    rewrite <- IH. by rewrite map_app. }
  destruct (cur_ended c); [apply Hgo|].
  destruct (decode_range acc (cur_first c) (cur_stop c)) as [[arcs|e]|]; [|reflexivity..].
  rewrite next_step_reloc. apply Hgo.
Qed.

Lemma later_rounds_reloc n cs acc :
  later_rounds now a n (map move_cursor cs) LP (pre ++ acc)
  = move <$> later_rounds now a n cs L0 acc.
Proof.
  revert cs acc. induction n as [|n IH]; intros cs acc; cbn [later_rounds]; [done|].
  replace (forallb cur_ended (map move_cursor cs)) with (forallb cur_ended cs)
    by (induction cs; cbn; congruence).
  destruct (forallb cur_ended cs); [done|].
  pose proof (later_round_reloc cs [] acc) as Hr. cbn [map] in Hr. rewrite Hr.
  destruct (later_round now a cs [] L0 acc) as [[cs' out|w out]|]; cbn; [apply IH|done..].
Qed.

Definition move_column (s : ColumnState) : ColumnState :=
  mk_column (pre ++ col_out s) (col_emitted s) (col_full s)
    ((fun n => length pre + n)%nat <$> col_last s).

Lemma column_reloc c rounds acc :
  column now a (move_cursor c) rounds LP (pre ++ acc) = move <$> column now a c rounds L0 acc.
Proof.
  unfold column. cbn [cur_ended cur_first cur_stop move_cursor].
  destruct (cur_ended c || (rounds =? 0)); [done|]. rewrite decode_range_reloc.
  destruct (decode_range acc (cur_first c) (cur_stop c)) as [[arcs|e]|]; [|done..].
  pose proof (bulk_map move_column (fun s => clock now L0 (col_out s))
    (fun s => clock now LP (col_out s)) (column_emit L0) (column_emit LP) arcs rounds false a
    (mk_column acc 0 false None)) as Hb.
  change (move_column (mk_column acc 0 false None)) with (mk_column (pre ++ acc) 0 false None) in Hb.
  rewrite Hb; clear Hb.
  - destruct (bulk _ _ _ _ _ _ _) as [[out n fu la]|]; [|done].
    cbn [fmap option_fmap option_map move_column col_out col_emitted col_full col_last].
    destruct (fu || (n =? rounds)); [done|].
    assert (Hend : forall f st,
      (let! (_, out) := end_of_mib_view (NResponse (length pre + f) (length pre + st)) LP (pre ++ out) in
       Some (@Ok Written BerError Complete, out))
      = move <$> (let! (_, out) := end_of_mib_view (NResponse f st) L0 out in
                  Some (@Ok Written BerError Complete, out))).
    { intros f st. change (NResponse (length pre + f) (length pre + st))
        with (move_name (NResponse f st)). rewrite end_of_mib_view_reloc.
      by destruct (end_of_mib_view _ _ _) as [[? ?]|]. }
    destruct la as [at_|]; cbn [fmap option_fmap option_map].
    + rewrite name_in_reloc. destruct (name_in out at_) as [[[f st]|e]|]; [apply Hend|done..].
    + apply Hend.
  - intros st. apply clock_reloc.
  - intros [out n fu la] oid vb. unfold column_emit, move_column.
    cbn [col_out col_emitted col_full col_last]. rewrite fits_reloc.
    case_match; cbn; [done|]. by rewrite <- app_assoc, length_app.
Qed.

Lemma get_bulk_reloc vars nr mr acc :
  get_bulk now a vars nr mr LP (pre ++ acc) = move <$> get_bulk now a vars nr mr L0 acc.
Proof.
  unfold get_bulk. rewrite non_repeating_reloc.
  destruct (non_repeating now a _ L0 acc) as [[[] out|w out]|];
    cbn [fmap option_fmap option_map move_stage]; [|done..].
  destruct (mr =? 0); [done|].
  pose proof (first_round_reloc (drop (Nat.min (vl_len vars) (Z.to_nat nr)) (vl_iter vars)) [] out) as Hr.
  cbn [map] in Hr. rewrite Hr.
  destruct (first_round now a _ [] L0 out) as [[cs out'|w out']|];
    cbn [fmap option_fmap option_map move_stage]; [|done..].
  destruct cs as [|c [|c' cs]].
  - apply (later_rounds_reloc _ []).
  - apply column_reloc.
  - apply (later_rounds_reloc _ (c :: c' :: cs)).
Qed.
End reloc.

(** The whole list: what [write_list] appends does not depend on the buffer it
    is called on. *)
Lemma write_list_reloc now a p vars r out :
  write_list now a p vars r out
  = (fun q => (out ++ q.1, q.2)) <$> write_list now a p vars r [].
Proof.
  unfold write_list. cbn [length].
  assert (Hgo : forall (h h0 : Handler), h = move out <$> h0 ->
    (let! (w, o) := h in Some (o, w))
    = (fun q => (out ++ q.1, q.2)) <$> (let! (w, o) := h0 in Some (o, w))).
  { intros h h0 ->. by destruct h0 as [[w o]|]. }
  apply Hgo.
  pose proof (get_reloc now a r out (vl_iter vars) []) as H1.
  pose proof (get_v1_reloc now a r out (vl_iter vars) 0 false []) as H2.
  pose proof (get_next_reloc now a r out (vl_iter vars) []) as H3.
  pose proof (get_next_v1_reloc now a r out (vl_iter vars) 0 false []) as H4.
  pose proof (fun nr mr => get_bulk_reloc now a r out vars nr mr []) as H5.
  pose proof (echo_reloc r out vars []) as H6.
  rewrite app_nil_r in H1, H2, H3, H4, H6.
  assert (H5' : forall nr mr, _) by (intros nr mr; specialize (H5 nr mr); rewrite app_nil_r in H5; exact H5).
  destruct p as [id v|id v|id nr mr v|id v|tag].
  1,2: destruct (is_v1 (envelope r)); done.
  - apply H5'.
  - exact H6.
  - cbn [fmap option_fmap option_map]. unfold move. cbn [fst snd]. by rewrite app_nil_r.
Qed.

(** ** Sizes *)

Lemma tlv_len_ge n : n + 2 <= tlv_len n.
Proof. unfold tlv_len. pose proof (length_len_pos n). lia. Qed.

Lemma length_len_mono m n : m <= n -> length_len m <= length_len n.
Proof.
  intros H. unfold length_len. destruct (Z.ltb_spec m 128), (Z.ltb_spec n 128); try lia.
  - unfold div_ceil, leading_zeros64. rewrite (proj2 (Z.eqb_neq n 0)) by lia.
    pose proof (Z.log2_nonneg n). pose proof (Z.div_pos (64 - (63 - Z.log2 n) + 8 - 1) 8). lia.
  - unfold div_ceil, leading_zeros64. rewrite !(proj2 (Z.eqb_neq _ 0)) by lia.
    pose proof (Z.log2_le_mono m n). apply Z.add_le_mono_l, Z.div_le_mono; lia.
Qed.

Lemma tlv_len_mono m n : m <= n -> tlv_len m <= tlv_len n.
Proof. intros H. unfold tlv_len. pose proof (length_len_mono m n H). lia. Qed.

Lemma i64_len_pos v : 2 <= i64_len v.
Proof. unfold i64_len. destruct (signed_span v) as [b s]. pose proof (tlv_len_ge (Z.of_nat (8 - s))). lia. Qed.

Lemma message_len_mono v c id st ix m n :
  m <= n -> message_len v c id st ix m <= message_len v c id st ix n.
Proof.
  intros H. unfold message_len. apply tlv_len_mono.
  apply Z.add_le_mono_l, tlv_len_mono, Z.add_le_mono_l, tlv_len_mono, H.
Qed.

Lemma message_len_ge v c id st ix n : 0 <= n -> n + 10 <= message_len v c id st ix n.
Proof.
  intros Hn. unfold message_len.
  pose proof (i64_len_pos v). pose proof (i64_len_pos id). pose proof (i64_len_pos st).
  pose proof (i64_len_pos ix). pose proof (tlv_len_ge (Z.of_nat (length c))).
  pose proof (tlv_len_ge n).
  pose proof (tlv_len_ge (i64_len id + i64_len st + i64_len ix + tlv_len n)).
  match goal with |- _ <= tlv_len ?x => pose proof (tlv_len_ge x) end. lia.
Qed.

Lemma padded_len_mono p m n : (m <= n)%nat -> (padded_len p m <= padded_len p n)%nat.
Proof.
  intros H. destruct p; cbn [padded_len]; try done.
  apply Nat.mul_le_mono_r, Nat.Div0.div_le_mono. lia.
Qed.

Lemma v3_message_len_mono req e user private m n :
  m <= n -> v3_message_len req e user private m <= v3_message_len req e user private n.
Proof.
  intros H. unfold v3_message_len. apply tlv_len_mono, Z.add_le_mono_l.
  assert (Hs : tlv_len (tlv_len (Z.of_nat (length (sn_id e))) + tlv_len 0 + m)
               <= tlv_len (tlv_len (Z.of_nat (length (sn_id e))) + tlv_len 0 + n))
    by (apply tlv_len_mono; lia).
  destruct (privacy_of user private) as [p|]; [|done]. apply tlv_len_mono, inj_le, padded_len_mono. lia.
Qed.

Lemma v3_message_len_ge req e user private n : 0 <= n -> n + 2 <= v3_message_len req e user private n.
Proof.
  intros Hn. unfold v3_message_len. pose proof (i64_len_pos VERSION).
  set (global := tlv_len (_ + _ + tlv_len 1 + _)). assert (0 <= global).
  { unfold global. match goal with |- 0 <= tlv_len ?x => pose proof (tlv_len_ge x) end.
    pose proof (i64_len_pos (msg_id req)). pose proof (i64_len_pos MSG_MAX_SIZE).
    pose proof (i64_len_pos USM). pose proof (tlv_len_ge 1). lia. }
  set (security := tlv_len (tlv_len (usm_body_len _ _ _ _))). assert (0 <= security).
  { unfold security, usm_body_len. match goal with |- 0 <= tlv_len (tlv_len ?x) =>
      pose proof (tlv_len_ge (tlv_len x)); pose proof (tlv_len_ge x) end.
    pose proof (i64_len_pos (sn_boots e)). pose proof (i64_len_pos (sn_time e)).
    pose proof (tlv_len_ge (Z.of_nat (length (sn_id e)))).
    pose proof (tlv_len_ge (Z.of_nat (length (up_user (usm req))))).
    pose proof (tlv_len_ge (Z.of_nat (auth_len user))).
    pose proof (tlv_len_ge (Z.of_nat (priv_len_of (privacy_of user private)))). lia. }
  pose proof (tlv_len_ge (Z.of_nat (length (sn_id e)))). pose proof (tlv_len_ge 0).
  set (scoped := tlv_len (tlv_len (Z.of_nat (length (sn_id e))) + tlv_len 0 + n)).
  pose proof (tlv_len_ge (tlv_len (Z.of_nat (length (sn_id e))) + tlv_len 0 + n)) as Hs. fold scoped in Hs.
  match goal with |- _ <= tlv_len (_ + ?d) => set (data := d); pose proof (tlv_len_ge (i64_len VERSION + global + security + data)) end.
  assert (scoped <= data); [|lia]. unfold data. destruct (privacy_of user private) as [p|]; [|lia].
  pose proof (padded_len_le p (Z.to_nat scoped)). pose proof (tlv_len_ge (Z.of_nat (padded_len p (Z.to_nat scoped)))). lia.
Qed.

Lemma envelope_len_v3 request engine user private id status index n :
  exists p, envelope_len (EnvV3 request engine user private) id status index n
  = v3_message_len request engine user p (tlv_len (i64_len id + i64_len status + i64_len index + tlv_len n)) /\
    privacy_of user p = privacy_of user private.
Proof.
  cbn [envelope_len]. unfold private_response_len, response_len.
  destruct user as [u|]; [destruct private|]; by eexists.
Qed.

Lemma envelope_len_mono e id st ix m n : m <= n -> envelope_len e id st ix m <= envelope_len e id st ix n.
Proof.
  intros H. destruct e as [v c|req sn user private]; [by apply message_len_mono|].
  cbn [envelope_len]. unfold private_response_len, response_len.
  destruct user, private; apply v3_message_len_mono, tlv_len_mono, Z.add_le_mono_l, tlv_len_mono, H.
Qed.

Lemma envelope_len_ge e id st ix n : 0 <= n -> n + 10 <= envelope_len e id st ix n.
Proof.
  intros Hn. destruct e as [v c|req sn user private]; [by apply message_len_ge|].
  destruct (envelope_len_v3 req sn user private id st ix n) as (p & -> & _).
  pose proof (i64_len_pos id). pose proof (i64_len_pos st). pose proof (i64_len_pos ix).
  pose proof (tlv_len_ge n). pose proof (tlv_len_ge (i64_len id + i64_len st + i64_len ix + tlv_len n)).
  match goal with |- _ <= v3_message_len _ _ _ _ ?x => pose proof (v3_message_len_ge req sn user p x) end. lia.
Qed.

Section sizes.
Context (r : Reply) (Hbudget : reply_budget r <= u32_max).

Lemma fits_len_bound n : 0 <= n -> fits_len r n = true -> n + 10 <= u32_max.
Proof.
  unfold fits_len. intros Hn H. zbool. pose proof (envelope_len_ge (envelope r) (reply_id r) 0 0 n Hn). lia.
Qed.

Lemma fits_len_mono m n : m <= n -> fits_len r n = true -> fits_len r m = true.
Proof.
  unfold fits_len. intros Hn H. zbool. pose proof (envelope_len_mono (envelope r) (reply_id r) 0 0 m n Hn). lia.
Qed.

Lemma fits_zero acc more :
  fits (mk_list 0 r) acc more = fits_len r (Z.of_nat (length acc) + more).
Proof. unfold fits. cbn [start reply]. apply (f_equal (fits_len r)). lia. Qed.

Lemma fits_app acc vb :
  fits (mk_list 0 r) acc (Z.of_nat (length vb)) = fits_len r (Z.of_nat (length (acc ++ vb))).
Proof. rewrite fits_zero, length_app. apply (f_equal (fits_len r)). lia. Qed.
End sizes.

(** ** Names and exceptions in the response *)

(** The octets a name stands for in a buffer. *)
Definition denotes (out : list Z) (n : Name) (nb : list Z) : Prop :=
  match n with
  | NRequest body => body = nb
  | NResponse first stop =>
      (first <= stop)%nat /\ (stop <= length out)%nat /\ take (stop - first) (drop first out) = nb
  end.

Lemma denotes_app out more n nb : denotes out n nb -> denotes (out ++ more) n nb.
Proof.
  destruct n as [b|f s]; [done|]. intros (H1 & H2 & H3). split_and!; [done|rewrite length_app; lia|].
  rewrite drop_app_le, take_app_le by (rewrite ?length_drop; lia). done.
Qed.

Lemma denotes_len out n nb : denotes out n nb -> name_len n = Z.of_nat (length nb).
Proof.
  destruct n as [b|f s]; cbn; [by intros ->|]. intros (H1 & H2 & <-).
  rewrite length_take, length_drop. lia.
Qed.

(** The varbind of an exception, as a list. *)
Definition exception_bytes (nb : list Z) (tag : Tag) : list Z :=
  tlv_bytes TSequence (tlv_bytes TOid nb ++ tlv_bytes tag []).

Lemma exception_bytes_length nb tag :
  exception_len (Z.of_nat (length nb)) <= u32_max ->
  Z.of_nat (length (exception_bytes nb tag)) = exception_len (Z.of_nat (length nb)).
Proof.
  intros Hl. unfold exception_len in *. pose proof (tlv_len_ge (Z.of_nat (length nb))).
  pose proof (tlv_len_ge (tlv_len (Z.of_nat (length nb)) + 2)).
  unfold exception_bytes. rewrite tlv_bytes_length; rewrite length_app, Nat2Z.inj_add,
    !tlv_bytes_length by (cbn; lia); change (tlv_len (Z.of_nat (length []))) with 2; [done|lia].
Qed.

Lemma write_exception_app out n nb tag :
  denotes out n nb -> exception_len (Z.of_nat (length nb)) <= u32_max ->
  write_exception out n tag = Some (out ++ exception_bytes nb tag).
Proof.
  intros Hd Hl. unfold exception_len in Hl. pose proof (tlv_len_ge (Z.of_nat (length nb))).
  pose proof (tlv_len_ge (tlv_len (Z.of_nat (length nb)) + 2)).
  unfold write_exception. rewrite (denotes_len _ _ _ Hd), !write_header_app by lia.
  set (h := (out ++ _) ++ _).
  assert (Hn : match n with NRequest body => Some (h ++ body)
                          | NResponse f s => extend_from_within h f s end = Some (h ++ nb)).
  { subst h. rewrite <- app_assoc. destruct n as [b|f s]; [by rewrite Hd|].
    apply (denotes_app _ ((tag_byte TSequence :: length_octets (tlv_len (Z.of_nat (length nb)) + 2))
      ++ tag_byte TOid :: length_octets (Z.of_nat (length nb)))) in Hd as (H1 & H2 & H3).
    unfold extend_from_within. by rewrite (proj2 (Nat.leb_le _ _) H1), (proj2 (Nat.leb_le _ _) H2), H3. }
  rewrite Hn. subst h. rewrite write_octets_app by (cbn; lia). f_equal.
  unfold exception_bytes. set (b := tlv_bytes TOid nb ++ tlv_bytes tag []).
  assert (Hb : Z.of_nat (length b) = tlv_len (Z.of_nat (length nb)) + 2).
  { subst b. rewrite length_app, Nat2Z.inj_add, !tlv_bytes_length by (cbn; lia). done. }
  change (tlv_bytes TSequence b)
    with (tag_byte TSequence :: length_octets (Z.of_nat (length b)) ++ b).
  rewrite Hb. subst b. unfold tlv_bytes. repeat (rewrite <- app_assoc; cbn [app]). reflexivity.
Qed.

(** A varbind's name, read back from the buffer it was appended to. *)
Lemma name_in_app acc vb body nb rest :
  expect TSequence vb = (Ok body, []) -> expect TOid body = (Ok nb, rest) ->
  exists f s, name_in (acc ++ vb) (length acc) = Some (Ok (f, s)) /\
    denotes (acc ++ vb) (NResponse f s) nb.
Proof.
  intros Hs Ho. unfold name_in. rewrite (proj2 (Nat.ltb_ge _ _)) by (rewrite length_app; lia).
  rewrite drop_app_length, Hs. cbn. rewrite Ho. eexists _, _. split; [reflexivity|].
  apply expect_split in Hs as (h & -> & _). apply expect_split in Ho as (h' & -> & _).
  rewrite !length_app. cbn [length].
  set (f := (length acc + _ + _)%nat).
  assert (Hf : f = length (acc ++ h ++ h')) by (subst f; rewrite !length_app; lia).
  cbn [denotes]. rewrite Hf. split_and!; [lia|rewrite !length_app; simpl; lia|].
  rewrite Nat.add_comm, Nat.add_sub.
  replace (acc ++ h ++ (h' ++ nb ++ rest) ++ []) with ((acc ++ h ++ h') ++ nb ++ rest)
    by (by rewrite <- !app_assoc, app_nil_r).
  by rewrite drop_app_length, take_app_length.
Qed.

Lemma exception_expect nb tag :
  exception_len (Z.of_nat (length nb)) <= u32_max ->
  expect TSequence (exception_bytes nb tag) = (Ok (tlv_bytes TOid nb ++ tlv_bytes tag []), []) /\
  expect TOid (tlv_bytes TOid nb ++ tlv_bytes tag []) = (Ok nb, tlv_bytes tag []).
Proof.
  intros Hl. unfold exception_len in Hl. pose proof (tlv_len_ge (Z.of_nat (length nb))).
  pose proof (tlv_len_ge (tlv_len (Z.of_nat (length nb)) + 2)). unfold exception_bytes. split.
  - rewrite <- (app_nil_r (tlv_bytes TSequence _)), expect_bytes; [done|].
    rewrite length_app, Nat2Z.inj_add, !tlv_bytes_length by (cbn; lia).
    change (tlv_len (Z.of_nat (length []))) with 2. lia.
  - by rewrite expect_bytes by lia.
Qed.

(** ** What each handler writes *)

Section handlers.
Context (now : nat -> Z) (a : SnmpAgent) (r : Reply).
Context (Hok : agent_ok a) (Hbudget : reply_budget r <= u32_max).

Abbreviation L := (mk_list 0 r).

(** The list written so far fits, or is empty. *)
Definition room_ok (acc : list Z) : Prop := acc = [] \/ fits_len r (Z.of_nat (length acc)) = true.

(** The handler does not panic, and leaves what was written before in place. *)
Definition good (acc : list Z) (h : Handler) : Prop :=
  exists w b, h = Some (w, acc ++ b) /\ room_ok (acc ++ b).

Lemma good_stop acc w : room_ok acc -> good acc (Some (w, acc)).
Proof. intros H. exists w, []. by rewrite app_nil_r. Qed.

Lemma good_app acc x h : good (acc ++ x) h -> good acc h.
Proof. intros (w & b & -> & Hr). exists w, (x ++ b). by rewrite app_assoc. Qed.

Lemma clock_zero acc : clock now L acc = now (length acc).
Proof. unfold clock. cbn [start]. f_equal. lia. Qed.

(** An exception that fits is short enough to write. *)
Lemma exception_fits acc (nb : list Z) :
  fits L acc (exception_len (Z.of_nat (length nb))) = true ->
  exception_len (Z.of_nat (length nb)) <= u32_max.
Proof.
  rewrite fits_zero. intros H. unfold exception_len in *.
  pose proof (tlv_len_ge (Z.of_nat (length nb))).
  pose proof (tlv_len_ge (tlv_len (Z.of_nat (length nb)) + 2)).
  apply (fits_len_bound r Hbudget) in H; lia.
Qed.

Lemma exception_written acc n nb tag :
  denotes acc n nb -> fits L acc (exception_len (Z.of_nat (length nb))) = true ->
  write_exception acc n tag = Some (acc ++ exception_bytes nb tag) /\
  room_ok (acc ++ exception_bytes nb tag).
Proof.
  intros Hd Hf. pose proof (exception_fits _ _ Hf) as Hl. split; [by apply write_exception_app|].
  right. rewrite <- fits_app, exception_bytes_length by done. done.
Qed.

Lemma end_of_mib_view_spec n nb acc :
  denotes acc n nb ->
  end_of_mib_view n L acc
  = Some (if fits L acc (exception_len (Z.of_nat (length nb)))
          then (SEnded, acc ++ exception_bytes nb TEndOfMibView) else (SFull, acc)).
Proof.
  intros Hd. unfold end_of_mib_view. rewrite (denotes_len _ _ _ Hd).
  destruct (fits L acc _) eqn:Ef; cbn [negb]; [|done].
  by destruct (exception_written acc n nb TEndOfMibView Hd Ef) as [-> _].
Qed.

(** One step of a walk: the successor's varbind, read now, or [endOfMibView]
    under the name, or nothing when that does not fit. *)
Lemma next_step_spec arcs n nb acc :
  denotes acc n nb ->
  match successor false a arcs with
  | Some e => exists vb, entry_varbind e (now (length acc)) = Some vb /\ varbind_ok e.1 vb /\
      next_step now a arcs n L acc
      = Some (if fits L acc (Z.of_nat (length vb)) then (SFound, acc ++ vb) else (SFull, acc))
  | None =>
      next_step now a arcs n L acc
      = Some (if fits L acc (exception_len (Z.of_nat (length nb)))
              then (SEnded, acc ++ exception_bytes nb TEndOfMibView) else (SFull, acc))
  end.
Proof.
  intros Hd. unfold next_step. rewrite bulk_one by done. cbn [fst]. rewrite clock_zero.
  destruct (successor false a arcs) as [e|] eqn:Es.
  - destruct (successor_spec _ _ _ _ Hok Es) as (Hin & _).
    destruct (view_varbind a e (now (length acc)) Hok Hin) as (vb & Hv & Hvo).
    exists vb. split_and!; [done..|]. rewrite Hv. cbn [next_emit]. by destruct (fits L acc _).
  - cbn. rewrite (end_of_mib_view_spec n nb) by done. done.
Qed.

(** A step that is not full appends a varbind whose name is read back: the
    successor's, or the one looked up. *)
Definition step_name (arcs nb : list Z) (step : Step) (nb' : list Z) : Prop :=
  match step with
  | SFound => exists e, successor false a arcs = Some e /\ from_ber_body nb' = Some e.1
  | SEnded => successor false a arcs = None /\ nb' = nb
  | SFull => False
  end.

(** What a step leaves: the buffer as it was when full, otherwise one varbind
    longer with its name at [acc]'s end. *)
Definition stepped (P : Step -> list Z -> Prop) (acc : list Z) (o : option (Step * list Z)) : Prop :=
  exists step b, o = Some (step, acc ++ b) /\ room_ok (acc ++ b) /\
    (step = SFull -> b = []) /\
    (step <> SFull -> exists f s nb', name_in (acc ++ b) (length acc) = Some (Ok (f, s)) /\
       denotes (acc ++ b) (NResponse f s) nb' /\ P step nb').

Lemma stepped_full P acc : room_ok acc -> stepped P acc (Some (SFull, acc)).
Proof. intros Hr. exists SFull, []. rewrite app_nil_r. split_and!; done. Qed.

Lemma stepped_end P n nb acc :
  room_ok acc -> denotes acc n nb -> P SEnded nb -> stepped P acc (end_of_mib_view n L acc).
Proof.
  intros Hr Hd HP. rewrite (end_of_mib_view_spec n nb acc Hd).
  destruct (fits L acc (exception_len (Z.of_nat (length nb)))) eqn:Ef; [|by apply stepped_full].
  destruct (exception_written acc n nb TEndOfMibView Hd Ef) as [_ Hro].
  exists SEnded, (exception_bytes nb TEndOfMibView). split_and!; [done..|]. intros _.
  destruct (exception_expect nb TEndOfMibView (exception_fits _ _ Ef)) as [E1 E2].
  destruct (name_in_app acc _ _ _ _ E1 E2) as (f & s & Hn & Hdn). exists f, s, nb. done.
Qed.

Lemma stepped_next arcs n nb acc :
  room_ok acc -> denotes acc n nb ->
  stepped (step_name arcs nb) acc (next_step now a arcs n L acc).
Proof.
  intros Hr Hd. pose proof (next_step_spec arcs n nb acc Hd) as Hs.
  destruct (successor false a arcs) as [e|] eqn:Es.
  - destruct Hs as (vb & _ & (body & nb' & rest & E1 & E2 & E3) & ->).
    destruct (fits L acc (Z.of_nat (length vb))) eqn:Ef; [|by apply stepped_full].
    exists SFound, vb. split_and!; [done| |done|].
    + right. by rewrite <- fits_app.
    + intros _. destruct (name_in_app acc _ _ _ _ E1 E2) as (f & s & Hn & Hdn).
      exists f, s, nb'. split_and!; [done..|]. exists e. done.
  - rewrite Hs, <- (end_of_mib_view_spec n nb acc Hd). apply (stepped_end _ n nb); done.
Qed.

Lemma get_good vars acc : room_ok acc -> good acc (get now a vars L acc).
Proof.
  revert acc. induction vars as [|var vars IH]; intros acc Hr; cbn [get]; [by apply good_stop|].
  destruct (decode_ber_body (vb_oid var)) as [name|]; [|by apply good_stop]. rewrite clock_zero.
  assert (Hex : forall tag, good acc
    (if negb (fits L acc (exception_len (Z.of_nat (length (vb_oid var))))) then Some (Ok Full, acc)
     else let! out := write_exception acc (NRequest (vb_oid var)) tag in get now a vars L out)).
  { intros tag.
    destruct (fits L acc (exception_len (Z.of_nat (length (vb_oid var))))) eqn:Ef; cbn [negb]; [|by apply good_stop].
    destruct (exception_written acc (NRequest (vb_oid var)) (vb_oid var) tag eq_refl Ef) as [-> Hr'].
    by apply good_app with (x := exception_bytes (vb_oid var) tag), IH. }
  pose proof (lookup_view name (now (length acc)) a Hok) as Hl.
  destruct (om_get oid_cmp (mk_oid name) (view a)) as [v|].
  - destruct Hl as (vb & -> & _). cbv beta zeta.
    destruct (fits L acc (Z.of_nat (length vb))) eqn:Ef; cbn [negb]; [|by apply good_stop].
    apply good_app with (x := vb), IH. right. by rewrite <- fits_app.
  - destruct Hl as [H1 H2]. rewrite <- prefixes_under_object in H1, H2.
    destruct (existsb _ _); [rewrite H1 by done|rewrite H2 by done]; apply Hex.
Qed.

Lemma get_v1_good vars index full acc :
  room_ok acc -> good acc (get_v1 now a vars index full L acc).
Proof.
  revert index full acc. induction vars as [|var vars IH]; intros index full acc Hr;
    cbn [get_v1]; [by apply good_stop|].
  destruct (decode_ber_body (vb_oid var)) as [name|]; [|by apply good_stop]. rewrite clock_zero.
  pose proof (lookup_view name (now (length acc)) a Hok) as Hl.
  destruct (om_get oid_cmp (mk_oid name) (view a)) as [v|].
  - destruct Hl as (vb & -> & _). destruct (is_counter64 vb); [by apply good_stop|].
    destruct (negb full && fits L acc (Z.of_nat (length vb))) eqn:Ef; [|by apply IH].
    apply andb_true_iff in Ef as [_ Ef].
    apply good_app with (x := vb), IH. right. by rewrite <- fits_app.
  - destruct Hl as [H1 H2]. rewrite <- prefixes_under_object in H1, H2.
    destruct (existsb _ _); [rewrite H1 by done|rewrite H2 by done]; by apply good_stop.
Qed.

Lemma get_next_v1_good vars index full acc :
  room_ok acc -> good acc (get_next_v1 now a vars index full L acc).
Proof.
  revert index full acc. induction vars as [|var vars IH]; intros index full acc Hr;
    cbn [get_next_v1]; [by apply good_stop|].
  destruct (decode_ber_body (vb_oid var)) as [name|]; [|by apply good_stop].
  rewrite bulk_one by done. cbn [fst]. rewrite clock_zero.
  destruct (successor true a name) as [e|] eqn:Es; [|by apply good_stop].
  destruct (successor_spec _ _ _ _ Hok Es) as (Hin & _).
  destruct (view_varbind a e (now (length acc)) Hok Hin) as (vb & -> & Hvo).
  cbn [next_v1_emit]. destruct (negb full && fits L acc (Z.of_nat (length vb))) eqn:Ef; cbn [fst negb].
  - apply andb_true_iff in Ef as [_ Ef].
    apply good_app with (x := vb), IH. right. by rewrite <- fits_app.
  - by apply IH.
Qed.

Lemma get_next_good vars acc : room_ok acc -> good acc (get_next now a vars L acc).
Proof.
  revert acc. induction vars as [|var vars IH]; intros acc Hr; cbn [get_next]; [by apply good_stop|].
  destruct (decode_ber_body (vb_oid var)) as [name|]; [|by apply good_stop].
  destruct (stepped_next name (NRequest (vb_oid var)) (vb_oid var) acc Hr eq_refl)
    as (step & b & -> & Hr' & _).
  case_bool_decide; [exists (Ok Full), b; done|]. by apply good_app with (x := b), IH.
Qed.

Lemma echo_good vars acc : room_ok acc -> good acc (echo vars L acc).
Proof.
  intros Hr. unfold echo. destruct (fits L acc (Z.of_nat (length (vl_body vars)))) eqn:Ef; cbn [negb]; [|by apply good_stop].
  exists (Ok Complete), (vl_body vars). split; [done|]. right. by rewrite <- fits_app.
Qed.

(** *** [GetBulk] *)

(** A cursor points at a name that decodes. *)
Definition cursor_ok (out : list Z) (c : Cursor) : Prop :=
  exists nb arcs, denotes out (NResponse (cur_first c) (cur_stop c)) nb /\
    decode_ber_body nb = Some arcs.

Definition stage_good {X : Type} (P : list Z -> X -> Prop) (acc : list Z) (o : option (Stage X)) : Prop :=
  match o with
  | Some (Go x out) => exists b, out = acc ++ b /\ room_ok out /\ P out x
  | Some (Return w out) => exists b, out = acc ++ b /\ room_ok out
  | None => False
  end.

Lemma stage_good_app {X} (P : list Z -> X -> Prop) acc x o :
  stage_good P (acc ++ x) o -> stage_good P acc o.
Proof.
  destruct o as [[y out|w out]|]; cbn; [|intros (b & -> & H)|done].
  - intros (b & -> & H). exists (x ++ b). by rewrite app_assoc.
  - exists (x ++ b). by rewrite app_assoc.
Qed.

Lemma stage_stop {X} (P : list Z -> X -> Prop) acc w :
  room_ok acc -> stage_good P acc (Some (Return w acc)).
Proof. intros Hr. exists []. by rewrite app_nil_r. Qed.

Lemma cursor_ok_app out more c : cursor_ok out c -> cursor_ok (out ++ more) c.
Proof. intros (nb & arcs & Hd & Ha). exists nb, arcs. split; [by apply denotes_app|done]. Qed.

Lemma cursors_ok_app out more cs :
  Forall (cursor_ok out) cs -> Forall (cursor_ok (out ++ more)) cs.
Proof. apply Forall_impl. intros c. apply cursor_ok_app. Qed.

(** The name a step leaves decodes, if the one it started from does. *)
Lemma step_name_decodes arcs nb step nb' :
  decode_ber_body nb <> None -> step_name arcs nb step nb' -> exists l, decode_ber_body nb' = Some l.
Proof.
  intros Hd Hs. destruct step; cbn in Hs; [|destruct Hs as [_ ->]|done].
  - destruct Hs as (e & _ & He). unfold from_ber_body in He.
    destruct (decode_ber_body nb') as [l|]; [by exists l|done].
  - destruct (decode_ber_body nb) as [l|]; [by exists l|done].
Qed.

(** After a step that is not full the handler reads the name's place and goes
    on, with a good cursor. *)
Lemma stepped_cursor {X} (Q : list Z -> X -> Prop) P acc o (k : Cursor -> list Z -> option (Stage X)) :
  room_ok acc -> stepped P acc o ->
  (forall step nb, P step nb -> exists l, decode_ber_body nb = Some l) ->
  (forall b c, room_ok (acc ++ b) -> cursor_ok (acc ++ b) c -> stage_good Q (acc ++ b) (k c (acc ++ b))) ->
  stage_good Q acc
    (let! (step, out) := o in
     if bool_decide (step = SFull) then Some (Return (Ok Complete) out)
     else let! range := name_in out (length acc) in
          match range with
          | Err e => Some (Return (Err e) out)
          | Ok (first, stop) => k (mk_cursor first stop (bool_decide (step = SEnded))) out
          end).
Proof.
  intros Hr (step & b & -> & Hr' & Hfull & Hgo) HP Hk. case_bool_decide as Hs.
  - by exists b.
  - destruct (Hgo Hs) as (f & s & nb & -> & Hd & Hp). destruct (HP _ _ Hp) as [l Hl].
    apply stage_good_app with (x := b). apply Hk; [done|]. by exists nb, l.
Qed.

Lemma non_repeating_good vars acc :
  room_ok acc -> stage_good (fun _ _ => True) acc (non_repeating now a vars L acc).
Proof.
  revert acc. induction vars as [|var vars IH]; intros acc Hr; cbn [non_repeating].
  { exists []. by rewrite app_nil_r. }
  destruct (decode_ber_body (vb_oid var)) as [name|]; [|by apply stage_stop].
  destruct (stepped_next name (NRequest (vb_oid var)) (vb_oid var) acc Hr eq_refl)
    as (step & b & -> & Hr' & _).
  case_bool_decide; [by exists b|]. by apply stage_good_app with (x := b), IH.
Qed.

Lemma first_round_good vars cs acc :
  room_ok acc -> Forall (cursor_ok acc) cs ->
  stage_good (fun out => Forall (cursor_ok out)) acc (first_round now a vars cs L acc).
Proof.
  revert cs acc. induction vars as [|var vars IH]; intros cs acc Hr Hc; cbn [first_round].
  { exists []. by rewrite app_nil_r. }
  destruct (decode_ber_body (vb_oid var)) as [name|] eqn:Ed; [|by apply stage_stop].
  apply (stepped_cursor _ (step_name name (vb_oid var)) acc _
           (fun c out => first_round now a vars (cs ++ [c]) L out)); [done| | |].
  - by apply stepped_next.
  - intros step nb. apply step_name_decodes. by rewrite Ed.
  - intros b c Hrb Hcb. apply IH; [done|]. apply Forall_app. split; [by apply cursors_ok_app|].
    by constructor.
Qed.

Lemma decode_range_denotes out f s nb :
  denotes out (NResponse f s) nb -> decode_range out f s = Some (ok_or (decode_ber_body nb) BadOid).
Proof.
  intros (H1 & H2 & <-). unfold decode_range.
  by rewrite (proj2 (Nat.leb_le _ _) H1), (proj2 (Nat.leb_le _ _) H2).
Qed.

Lemma later_round_good cs done acc :
  room_ok acc -> Forall (cursor_ok acc) cs -> Forall (cursor_ok acc) done ->
  stage_good (fun out => Forall (cursor_ok out)) acc (later_round now a cs done L acc).
Proof.
  revert done acc. induction cs as [|c cs IH]; intros done acc Hr Hc Hd; cbn [later_round].
  { exists []. by rewrite app_nil_r. }
  apply Forall_cons_1 in Hc as [(nb & arcs & Hn & Ha) Hc].
  assert (Hk : forall b c', room_ok (acc ++ b) -> cursor_ok (acc ++ b) c' ->
    stage_good (fun out => Forall (cursor_ok out)) (acc ++ b)
      (later_round now a cs (done ++ [c']) L (acc ++ b))).
  { intros b c' Hrb Hcb. apply IH; [done|by apply cursors_ok_app|].
    apply Forall_app. split; [by apply cursors_ok_app|]. by constructor. }
  assert (Hgo : forall P o, stepped P acc o ->
    (forall step nb, P step nb -> exists l, decode_ber_body nb = Some l) ->
    stage_good (fun out => Forall (cursor_ok out)) acc
      (let! stepped := (let! r := o in Some (@Ok _ BerError r)) in
       match stepped with
       | Ok (step, out) =>
           if bool_decide (step = SFull) then Some (Return (Ok Complete) out)
           else let! range := name_in out (length acc) in
                match range with
                | Ok (first, stop) =>
                    later_round now a cs (done ++ [mk_cursor first stop (bool_decide (step = SEnded))]) L out
                | Err e => Some (Return (Err e) out)
                end
       | Err e => Some (Return (Err e) acc)
       end)).
  { intros P o Ho HP.
    pose proof (stepped_cursor (fun out => Forall (cursor_ok out)) P acc o
      (fun c' out => later_round now a cs (done ++ [c']) L out) Hr Ho HP Hk) as Hs.
    by destruct o as [[step out]|]. }
  destruct (cur_ended c).
  - apply (Hgo (fun _ nb' => nb' = nb)); [by apply (stepped_end _ _ nb)|].
    intros step nb' ->. by exists arcs.
  - rewrite (decode_range_denotes _ _ _ nb Hn), Ha. cbn [ok_or].
    apply (Hgo (step_name arcs nb)); [by apply stepped_next|].
    intros step nb'. apply step_name_decodes. by rewrite Ha.
Qed.

Lemma later_rounds_good n cs acc :
  room_ok acc -> Forall (cursor_ok acc) cs -> good acc (later_rounds now a n cs L acc).
Proof.
  revert cs acc. induction n as [|n IH]; intros cs acc Hr Hc; cbn [later_rounds]; [by apply good_stop|].
  destruct (forallb cur_ended cs); [by apply good_stop|].
  pose proof (later_round_good cs [] acc Hr Hc ltac:(constructor)) as Hl.
  destruct (later_round now a cs [] L acc) as [[cs' out|w out]|]; cbn in Hl; [| |done].
  - destruct Hl as (b & -> & Hr' & Hc'). by apply good_app with (x := b), IH.
  - destruct Hl as (b & -> & Hr'). by exists w, b.
Qed.

(** *** The lone repeater *)

Lemma filter_visible_all (m : list Entry) : List.filter (visible false) m = m.
Proof. induction m as [|e m IH]; [done|]. cbn. by rewrite IH. Qed.

Lemma successor_after arcs :
  successor false a arcs = hd_error (om_after oid_cmp (mk_oid arcs) (view a)).
Proof. unfold successor. by rewrite filter_visible_all. Qed.

(** What [column] does once its walk is over. *)
Definition column_end (first : Cursor) (rounds : Z) (s : ColumnState) : Handler :=
  let out := col_out s in
  if col_full s || (col_emitted s =? rounds) then Some (Ok Complete, out)
  else
    let! name := match col_last s with
                 | Some at_ => name_in out at_
                 | None => Some (Ok (cur_first first, cur_stop first))
                 end in
    match name with
    | Err e => Some (Err e, out)
    | Ok (first, stop) =>
        let! (_, out) := end_of_mib_view (NResponse first stop) L out in Some (Ok Complete, out)
    end.

(** Rounds of a lone repeater that has not ended, one at a time. *)
Lemma later_rounds_one n f s nb arcs acc :
  denotes acc (NResponse f s) nb -> decode_ber_body nb = Some arcs ->
  later_rounds now a (S n) [mk_cursor f s false] L acc
  = (let! (step, out) := next_step now a arcs (NResponse f s) L acc in
     if bool_decide (step = SFull) then Some (Ok Complete, out)
     else let! range := name_in out (length acc) in
          match range with
          | Err e => Some (Err e, out)
          | Ok (f, s) => later_rounds now a n [mk_cursor f s (bool_decide (step = SEnded))] L out
          end).
Proof.
  intros Hd Ha. cbn [later_rounds forallb cur_ended andb later_round cur_first cur_stop].
  rewrite (decode_range_denotes _ _ _ nb Hd), Ha. cbn [ok_or].
  destruct (next_step _ _ _ _ _ _) as [[step out]|]; [|done].
  destruct (bool_decide (step = SFull)); [done|].
  destruct (name_in out (length acc)) as [[[f' s']|e]|]; done.
Qed.

(** An ended repeater writes nothing more. *)
Lemma later_rounds_ended n f s acc :
  later_rounds now a n [mk_cursor f s true] L acc = Some (Ok Complete, acc).
Proof. by destruct n. Qed.

Lemma column_loop n start f s nb acc k last c rounds :
  denotes acc (NResponse f s) nb -> decode_ber_body nb = Some start ->
  match last with
  | Some at_ => name_in acc at_
  | None => Some (Ok (cur_first c, cur_stop c))
  end = Some (Ok (f, s)) ->
  k + Z.of_nat n = rounds ->
  (let! st := emit_all (fun st => clock now L (col_out st)) (column_emit L)
                (take n (om_after oid_cmp (mk_oid start) (view a))) (mk_column acc k false last) in
   column_end c rounds st)
  = later_rounds now a n [mk_cursor f s false] L acc.
Proof.
  revert start f s nb acc k last. induction n as [|n IH]; intros start f s nb acc k last Hd Ha Hl Hk.
  { rewrite take_0. cbn [emit_all later_rounds]. unfold column_end. cbn [col_out col_full col_emitted orb].
    by rewrite (proj2 (Z.eqb_eq k rounds)) by lia. }
  rewrite (later_rounds_one n f s nb start acc Hd Ha).
  pose proof (next_step_spec start (NResponse f s) nb acc Hd) as Hs.
  rewrite successor_after in Hs.
  destruct (view_elem a Hok) as [Hsort _].
  destruct (om_after oid_cmp (mk_oid start) (view a)) as [|e es] eqn:Ee; cbn [hd_error] in Hs.
  - rewrite Hs. rewrite ?take_nil, ?firstn_cons; cbn [emit_all]. unfold column_end. cbn [col_out col_full col_emitted col_last orb].
    rewrite (proj2 (Z.eqb_neq k rounds)), Hl, (end_of_mib_view_spec _ nb acc Hd) by lia.
    destruct (fits L acc (exception_len (Z.of_nat (length nb)))) eqn:Ef; [|done].
    rewrite (bool_decide_eq_false_2 (SEnded = SFull)) by done.
    destruct (exception_expect nb TEndOfMibView (exception_fits _ _ Ef)) as [E1 E2].
    destruct (name_in_app acc _ _ _ _ E1 E2) as (f' & s' & -> & _).
    rewrite bool_decide_eq_true_2 by done. by rewrite later_rounds_ended.
  - destruct Hs as (vb & Hv & (body & nb' & rest & E1 & E2 & E3) & ->).
    rewrite ?take_nil, ?firstn_cons; cbn [emit_all]. rewrite clock_zero. cbn [col_out]. rewrite Hv.
    unfold column_emit at 1. cbn [col_out col_emitted col_full col_last].
    destruct (fits L acc (Z.of_nat (length vb))) eqn:Ef; cbn [negb].
    + rewrite bool_decide_eq_false_2 by done.
      destruct (name_in_app acc _ _ _ _ E1 E2) as (f' & s' & Hn & Hd'). rewrite Hn.
      rewrite (bool_decide_eq_false_2 (SFound = SEnded)) by done.
      pose proof (om_after_next oid_cmp _ _ _ _ Hsort Ee) as <-.
      assert (Ha' : decode_ber_body nb' = Some (arcs e.1)).
      { unfold from_ber_body in E3. destruct (decode_ber_body nb'); [|done]. by injection E3 as <-. }
      replace e.1 with (mk_oid (arcs e.1)) by (by destruct e.1).
      apply (IH (arcs e.1) f' s' nb'); [done|done|exact Hn|lia].
    + rewrite bool_decide_eq_true_2 by done. done.
Qed.

(** The fast path of a lone repeater is the general loop on it. *)
Lemma column_rounds c rounds acc :
  0 <= rounds -> cursor_ok acc c ->
  column now a c rounds L acc = later_rounds now a (Z.to_nat rounds) [c] L acc.
Proof.
  intros Hn (nb & start & Hd & Ha). unfold column. destruct c as [f s ended].
  cbn [cur_ended cur_first cur_stop] in *.
  destruct ended; cbn [orb]; [by rewrite later_rounds_ended|].
  destruct (Z.eqb_spec rounds 0) as [->|Hne]; [done|].
  rewrite (decode_range_denotes _ _ _ nb Hd), Ha. cbn [ok_or]. rewrite bulk_view by done.
  unfold offered. rewrite filter_visible_all.
  rewrite <- (column_loop (Z.to_nat rounds) start f s nb acc 0 None (mk_cursor f s false) rounds)
    by (done || lia).
  done.
Qed.

Lemma get_bulk_good vars nr mr acc :
  0 <= mr -> room_ok acc -> good acc (get_bulk now a vars nr mr L acc).
Proof.
  intros Hmr Hr. unfold get_bulk.
  pose proof (non_repeating_good (take (Nat.min (vl_len vars) (Z.to_nat nr)) (vl_iter vars)) acc Hr) as H1.
  destruct (non_repeating _ _ _ _ _) as [[[] out|w out]|]; cbn in H1; [| |done].
  2: { destruct H1 as (b & -> & Hb). by exists w, b. }
  destruct H1 as (b & -> & Hb & _). apply good_app with (x := b).
  destruct (Z.eqb_spec mr 0); [by apply good_stop|].
  pose proof (first_round_good (drop (Nat.min (vl_len vars) (Z.to_nat nr)) (vl_iter vars)) [] _ Hb
                ltac:(constructor)) as H2.
  destruct (first_round _ _ _ _ _ _) as [[cs out|w out]|]; cbn in H2; [| |done].
  2: { destruct H2 as (b' & -> & Hb'). by exists w, b'. }
  destruct H2 as (b' & -> & Hb' & Hcs). apply good_app with (x := b').
  destruct cs as [|c [|c' cs]]; try by apply later_rounds_good.
  apply Forall_cons_1 in Hcs as [Hc _].
  rewrite column_rounds by (done || lia). apply later_rounds_good; [done|by constructor].
Qed.

Lemma write_list_good p vars :
  match p with PGetBulk _ _ mr _ => 0 <= mr | _ => True end ->
  exists b w, room_ok b /\ forall out, write_list now a p vars r out = Some (out ++ b, w).
Proof.
  intros Hp. assert (H0 : room_ok []) by (by left).
  assert (Hg : good [] (match p with
    | PGet _ _ => if is_v1 (envelope r) then get_v1 now a (vl_iter vars) 0 false L []
                  else get now a (vl_iter vars) L []
    | PGetNext _ _ => if is_v1 (envelope r) then get_next_v1 now a (vl_iter vars) 0 false L []
                      else get_next now a (vl_iter vars) L []
    | PGetBulk _ nr mr _ => get_bulk now a vars nr mr L []
    | PSet _ _ => echo vars L []
    | POther _ => Some (Ok Complete, [])
    end)).
  { destruct p; try destruct (is_v1 (envelope r)); auto using get_good, get_v1_good, get_next_good,
      get_next_v1_good, get_bulk_good, echo_good, good_stop. }
  destruct Hg as (w & b & Hh & Hb). exists b, w. split; [exact Hb|]. intros out.
  rewrite write_list_reloc. unfold write_list. cbn [length]. rewrite Hh. done.
Qed.
End handlers.

(** ** The lone repeater and its loop *)

(** C36: the fast path of [GetBulk] is invisible: for a lone repeater, wherever
    its cursor stands in the response, [column] (one pass over the table under
    one lock) writes the octets the round-by-round loop writes, and reports the
    same. *)
Theorem column_is_rounds now a r c rounds acc :
  agent_ok a -> reply_budget r <= u32_max -> 0 <= rounds -> cursor_ok acc c ->
  column now a c rounds (mk_list 0 r) acc
  = later_rounds now a (Z.to_nat rounds) [c] (mk_list 0 r) acc.
Proof. intros Hok Hb Hn Hc. by apply column_rounds. Qed.

(** The instances of the view by position: the successor of one is the next. *)
Lemma successor_next a i e :
  agent_ok a -> view a !! i = Some e -> successor false a (arcs e.1) = view a !! S i.
Proof.
  intros Hok. destruct (view_elem a Hok) as [Hs _]. rewrite successor_after.
  replace (mk_oid (arcs e.1)) with e.1 by (by destruct e.1).
  revert i Hs. generalize (view a) as m. induction m as [|[k v] m IH]; intros i Hs Hi; [done|].
  pose proof Hs as [Hf Hm]%om_sorted_cons. destruct i as [|i].
  - injection Hi as <-. cbn [fst om_after]. rewrite (cmp_refl oid_cmp). cbn [base.lookup list_lookup].
    destruct m as [|[k2 v2] m]; [done|]. cbn [om_after]. cbn [map fst] in Hf.
    apply Forall_cons_1 in Hf as [Hf _]. unfold key_lt in Hf. rewrite Hf. done.
  - cbn [base.lookup list_lookup] in Hi. specialize (IH i Hm Hi). cbn [om_after].
    assert (Hk : oid_lt k e.1).
    { rewrite list.Forall_forall in Hf. apply Hf. apply list_elem_of_lookup_2 in Hi.
      exact (list_elem_of_fmap_2 fst m e Hi). }
    replace (oid_cmp e.1 k) with Gt; [done|]. symmetry. by apply (cmp_gt_lt oid_cmp).
Qed.

Lemma successor_first a :
  agent_ok a -> Forall (fun e => arcs e.1 <> []) (view a) ->
  successor false a [] = view a !! 0%nat.
Proof.
  intros Hok Hne. rewrite successor_after. destruct (view a) as [|[[l] v] m]; [done|].
  apply Forall_cons_1 in Hne as [Hne _]. cbn [fst arcs] in Hne.
  cbn [om_after]. unfold oid_cmp. cbn [arcs fst]. by destruct l as [|x l].
Qed.

(** The names of served instances are OIDs of at least two arcs. *)
Lemma push_nonempty first v acc acc' : push_subidentifier first v acc = Some acc' -> acc' <> [].
Proof.
  intros H ->. unfold push_subidentifier in H.
  destruct first; [destruct (v <=? 39); [|destruct (v <=? 79)]|];
    (destruct (u32_try_from _); [|done]; injection H as [_ H]%app_nil; done).
Qed.

Lemma decode_loop_nonempty body value started first acc l :
  acc <> [] \/ body <> [] -> decode_loop body value started first acc = Some l -> l <> [].
Proof.
  revert value started first acc. induction body as [|o body IH]; intros value started first acc Hne;
    cbn [decode_loop].
  - destruct started; [done|]. intros [= <-]. by destruct Hne.
  - destruct (negb started && _); [done|]. destruct (_ <? _); [done|].
    destruct (negb (Z.land o 128 =? 0)).
    + destruct body as [|o' body]; [done|]. apply IH. by right.
    + destruct (push_subidentifier _ _ _) as [acc'|] eqn:E; [|done]. apply IH. left.
      by eapply push_nonempty.
Qed.

Lemma view_names a : agent_ok a -> Forall (fun e => arcs e.1 <> []) (view a).
Proof.
  intros Hok. apply list.Forall_forall. intros e He.
  destruct (view_varbind a e 0 Hok He) as (vb & _ & body & nb & rest & _ & _ & Hn).
  unfold from_ber_body, decode_ber_body in Hn. destruct nb as [|o nb]; [done|].
  destruct (decode_loop (o :: nb) 0 false true []) as [l|] eqn:E; [|done]. injection Hn as <-.
  apply (decode_loop_nonempty _ _ _ _ _ _) in E; [done|by right].
Qed.

(** ** Walks *)

(** The name of the varbind a response is made of. *)
Definition answered_name (out : list Z) : option (list Z) :=
  match expect TSequence out with
  | (Ok body, []) => match expect TOid body with (Ok nb, _) => Some nb | _ => None end
  | _ => None
  end.

(** A manager that walks: up to [n] requests, the first of them the [k]th, each
    a [GetNext] for the name the one before was answered with. It stops at a
    response under the name it asked for, and has then walked to the end; it
    gives up on a response that is not a whole list. [clocks] is the agent's
    clock in each request. *)
Fixpoint walk (clocks : nat -> nat -> Z) (a : SnmpAgent) (r : Reply) (n k : nat) (nb : list Z)
  : option (list (list Z) * bool) :=
  match n with
  | O => Some ([], false)
  | S n =>
      match get_next (clocks k) a [mk_varbind nb 5 []] (mk_list 0 r) [] with
      | Some (Ok Complete, out) =>
          let! nb' := answered_name out in
          if bool_decide (nb' = nb) then Some ([], true)
          else
            let! (answers, ended) := walk clocks a r n (S k) nb' in
            Some (out :: answers, ended)
      | _ => None
      end
  end.

(** The instances served above a name. *)
Definition above (start : list Z) (a : SnmpAgent) : list Entry :=
  filter (fun e => oid_lt (mk_oid start) e.1) (view a).

(** The budget holds any one instance, and the end of the view under its name. *)
Definition roomy (clocks : nat -> nat -> Z) (a : SnmpAgent) (r : Reply) : Prop :=
  forall e k vb nb, e ∈ view a -> entry_varbind e (clocks k 0%nat) = Some vb ->
    answered_name vb = Some nb ->
    fits_len r (Z.of_nat (length vb)) = true /\
    fits_len r (exception_len (Z.of_nat (length nb))) = true.

Lemma varbind_name oid vb :
  varbind_ok oid vb -> exists nb, answered_name vb = Some nb /\ from_ber_body nb = Some oid.
Proof.
  intros (body & nb & rest & E1 & E2 & E3). exists nb. unfold answered_name. by rewrite E1, E2.
Qed.

Lemma ber_body_arcs nb oid : from_ber_body nb = Some oid -> decode_ber_body nb = Some (arcs oid).
Proof. unfold from_ber_body. destruct (decode_ber_body nb); [by intros [= <-]|done]. Qed.

Lemma above_after a start : agent_ok a -> above start a = om_after oid_cmp (mk_oid start) (view a).
Proof.
  intros Hok. destruct (view_elem a Hok) as [Hs _]. symmetry. by apply (om_after_filter oid_cmp).
Qed.

Lemma successor_above a start : agent_ok a -> successor false a start = hd_error (above start a).
Proof. intros Hok. by rewrite successor_after, above_after. Qed.

Lemma above_next a start e rest :
  agent_ok a -> above start a = e :: rest -> above (arcs e.1) a = rest.
Proof.
  intros Hok. destruct (view_elem a Hok) as [Hs _]. rewrite !above_after by done. intros He.
  apply (om_after_next oid_cmp) in He; [|done]. by destruct e as [[l] v].
Qed.

Section walks.
Context (clocks : nat -> nat -> Z) (a : SnmpAgent) (r : Reply).
Context (Hok : agent_ok a) (Hb : reply_budget r <= u32_max) (Hroom : roomy clocks a r).

(** One request of a walk. *)
Lemma walk_step k nb start :
  decode_ber_body nb = Some start -> fits_len r (exception_len (Z.of_nat (length nb))) = true ->
  exists out nb', get_next (clocks k) a [mk_varbind nb 5 []] (mk_list 0 r) [] = Some (Ok Complete, out) /\
    answered_name out = Some nb' /\
    match above start a with
    | [] => nb' = nb
    | e :: _ => entry_varbind e (clocks k 0%nat) = Some out /\ nb' <> nb /\
        decode_ber_body nb' = Some (arcs e.1) /\ fits_len r (exception_len (Z.of_nat (length nb'))) = true
    end.
Proof using Hok Hb Hroom.
  intros Hd Hf. cbn [get_next vb_oid]. rewrite Hd.
  pose proof (next_step_spec (clocks k) a r Hok Hb start (NRequest nb) nb [] eq_refl) as Hs.
  rewrite successor_above in Hs by done.
  assert (Habove : forall e, e ∈ above start a -> e ∈ view a /\ oid_lt (mk_oid start) e.1).
  { intros e He. apply list_elem_of_filter in He. tauto. }
  destruct (above start a) as [|e rest]; cbn [hd_error] in Hs.
  - rewrite Hs, fits_zero. change (Z.of_nat (length [])) with 0. rewrite Z.add_0_l, Hf. cbn.
    destruct (exception_expect nb TEndOfMibView) as [E1 E2].
    { apply (exception_fits r Hb []). rewrite fits_zero. exact Hf. }
    eexists _, nb. split; [done|]. split; [|done]. unfold answered_name. by rewrite E1, E2.
  - destruct Hs as (vb & Hvb & Hvo & Hs). destruct (Habove e) as [Hin Hlt]; [by left|].
    destruct (varbind_name _ _ Hvo) as (nb' & Hn & Hn').
    destruct (Hroom e _ vb nb' Hin Hvb Hn) as [Hr1 Hr2].
    rewrite Hs, fits_zero. change (Z.of_nat (length [])) with 0. rewrite Z.add_0_l, Hr1. cbn. exists vb, nb'. split; [done|]. split; [done|].
    apply ber_body_arcs in Hn'. split_and!; [done| |done|done]. intros ->.
    assert (Hst : mk_oid start = e.1) by (destruct e as [[l] v]; cbn in *; congruence).
    rewrite Hst in Hlt. by apply (key_lt_ne oid_cmp _ _ Hlt).
Qed.

Lemma walk_from n : forall k nb start,
  decode_ber_body nb = Some start -> fits_len r (exception_len (Z.of_nat (length nb))) = true ->
  exists answers, walk clocks a r n k nb = Some (answers, (length (above start a) <? n)%nat) /\
    length answers = (n `min` length (above start a))%nat /\
    forall i out, answers !! i = Some out ->
      exists e, above start a !! i = Some e /\ entry_varbind e (clocks (k + i)%nat 0%nat) = Some out.
Proof using Hok Hb Hroom.
  induction n as [|n IH]; intros k nb start Hd Hf; cbn [walk].
  { exists []. split; [done|]. by split. }
  destruct (walk_step k nb start Hd Hf) as (out & nb' & -> & -> & Hs). cbn.
  destruct (above start a) as [|e rest] eqn:Ea.
  - rewrite bool_decide_true by done. exists []. split; [done|]. by split.
  - destruct Hs as (Hvb & Hne & Hd' & Hf'). rewrite bool_decide_false by done.
    destruct (IH (S k) nb' _ Hd' Hf') as (answers & -> & Hlen & Hall).
    rewrite (above_next a start e rest Hok Ea) in *. cbn.
    exists (out :: answers). split; [done|]. split; [cbn; lia|].
    intros [|i] o Ho; cbn in Ho.
    + injection Ho as <-. exists e. by rewrite Nat.add_0_r.
    + destruct (Hall i o Ho) as (e' & He' & Hv). exists e'. by rewrite Nat.add_succ_r.
Qed.
End walks.

(** C12: a walk is complete and ends. A manager that asks [GetNext] for a name and
    then for each name it is answered with, from any name, is answered by every
    instance the agent serves above the name it began with, each once, in OID
    order and with the value it has at that request; after as many requests as
    there are instances, and not before, the next is answered under its own name
    and the walk is over. The budget is one that holds each of the answers. *)
Theorem walk_visits_view clocks a r n nb start :
  agent_ok a -> reply_budget r <= u32_max -> roomy clocks a r ->
  decode_ber_body nb = Some start -> fits_len r (exception_len (Z.of_nat (length nb))) = true ->
  exists answers, walk clocks a r n 0 nb = Some (answers, (length (above start a) <? n)%nat) /\
    length answers = (n `min` length (above start a))%nat /\
    forall i out, answers !! i = Some out ->
      exists e, above start a !! i = Some e /\ entry_varbind e (clocks i 0%nat) = Some out.
Proof. intros. by apply (walk_from clocks a r). Qed.

(** ** What [GetRequest] and [GetNextRequest] answer *)

(** Each varbind's answer after those before it. *)
Definition answers_of (item : list Z -> VarBind -> list Z) (vars : list VarBind) (acc : list Z)
  : list Z := fold_left (fun acc var => acc ++ item acc var) vars acc.

(** The answer to one name of a [GetRequest], from the view. *)
Definition get_item (now : nat -> Z) (a : SnmpAgent) (acc : list Z) (var : VarBind) : list Z :=
  let name := default [] (decode_ber_body (vb_oid var)) in
  match om_get oid_cmp (mk_oid name) (view a) with
  | Some v => default [] (entry_varbind (mk_oid name, v) (now (length acc)))
  | None => exception_bytes (vb_oid var)
              (if existsb (fun len => bool_decide (mk_oid (take len name) ∈ objects (table a)))
                    (seq 2 (length name - 1)) then TNoSuchInstance else TNoSuchObject)
  end.

(** The answer to one name of a [GetNextRequest]. *)
Definition next_item (now : nat -> Z) (a : SnmpAgent) (acc : list Z) (var : VarBind) : list Z :=
  let name := default [] (decode_ber_body (vb_oid var)) in
  match successor false a name with
  | Some e => default [] (entry_varbind e (now (length acc)))
  | None => exception_bytes (vb_oid var) TEndOfMibView
  end.

(** The names of a request that is answered: they decode, and are parts of a
    datagram. *)
Definition name_ok (var : VarBind) : Prop :=
  is_Some (decode_ber_body (vb_oid var)) /\ Z.of_nat (length (vb_oid var)) <= RECEIVE_BUFFER.

Section exact.
Context (now : nat -> Z) (a : SnmpAgent) (r : Reply).
Context (Hok : agent_ok a) (Hb : reply_budget r <= u32_max).

Abbreviation L := (mk_list 0 r).

(** A handler that appends each varbind's answer while they fit. *)
Definition exact (item : list Z -> VarBind -> list Z) (h : list VarBind -> list Z -> Handler) : Prop :=
  (forall acc, h [] acc = Some (Ok Complete, acc)) /\
  forall var vars acc, name_ok var ->
    h (var :: vars) acc
    = if fits_len r (Z.of_nat (length (acc ++ item acc var))) then h vars (acc ++ item acc var)
      else Some (Ok Full, acc).

Lemma answers_of_grow item vars acc :
  (length acc <= length (answers_of item vars acc))%nat.
Proof.
  revert acc. induction vars as [|var vars IH]; intros acc; cbn; [lia|].
  specialize (IH (acc ++ item acc var)). rewrite length_app in IH. unfold answers_of in IH. lia.
Qed.

Lemma exact_answers item h vars acc :
  exact item h -> Forall name_ok vars ->
  (fits_len r (Z.of_nat (length (answers_of item vars acc))) = true ->
     h vars acc = Some (Ok Complete, answers_of item vars acc)) /\
  (fits_len r (Z.of_nat (length (answers_of item vars acc))) = false -> vars <> [] ->
     exists out, h vars acc = Some (Ok Full, out)).
Proof.
  intros [H0 H1]. revert acc. induction vars as [|var vars IH]; intros acc Hd; [by rewrite H0|].
  apply Forall_cons_1 in Hd as [Hv Hd]. specialize (IH (acc ++ item acc var) Hd) as [I1 I2].
  rewrite (H1 var vars acc Hv). cbn [answers_of fold_left] in *.
  fold (answers_of item vars (acc ++ item acc var)) in *.
  pose proof (answers_of_grow item vars (acc ++ item acc var)) as Hg. split.
  - intros Hf. rewrite (fits_len_mono r _ _ (inj_le _ _ Hg) Hf). by apply I1.
  - intros Hf _. destruct (fits_len r (Z.of_nat (length (acc ++ item acc var)))) eqn:E; [|by eauto].
    destruct vars as [|var' vars]; [|by apply I2].
    cbn [answers_of fold_left] in Hf. by rewrite E in Hf.
Qed.

(** An exception fits or not as its octets do. *)
Lemma exception_fit acc nb tag :
  Z.of_nat (length nb) <= RECEIVE_BUFFER ->
  fits L acc (exception_len (Z.of_nat (length nb)))
  = fits_len r (Z.of_nat (length (acc ++ exception_bytes nb tag))) /\
  write_exception acc (NRequest nb) tag = Some (acc ++ exception_bytes nb tag).
Proof.
  unfold RECEIVE_BUFFER. intros Hl.
  assert (He : exception_len (Z.of_nat (length nb)) <= u32_max).
  { unfold exception_len. pose proof (tlv_len_small (Z.of_nat (length nb))).
    pose proof (tlv_len_small (tlv_len (Z.of_nat (length nb)) + 2)). lia. }
  split; [|by apply write_exception_app].
  by rewrite <- exception_bytes_length with (tag := tag), fits_app by done.
Qed.

Lemma get_exact : exact (get_item now a) (fun vars acc => get now a vars L acc).
Proof.
  split; [done|]. intros var vars acc [[name Hn] Hl]. cbn [get]. unfold get_item. rewrite Hn.
  cbn [default]. unfold id. rewrite clock_zero. pose proof (lookup_view name (now (length acc)) a Hok) as Hv.
  destruct (om_get oid_cmp (mk_oid name) (view a)) as [v|].
  - destruct Hv as (vb & -> & -> & _). cbn [default]. unfold id. cbv beta zeta.
    rewrite fits_app. by destruct (fits_len r _).
  - rewrite <- prefixes_under_object in Hv.
    destruct (existsb _ _); destruct Hv as [V1 V2]; [rewrite V1 by done|rewrite V2 by done];
      cbv beta zeta.
    + destruct (exception_fit acc (vb_oid var) TNoSuchInstance Hl) as [-> ->].
      by destruct (fits_len r _).
    + destruct (exception_fit acc (vb_oid var) TNoSuchObject Hl) as [-> ->].
      by destruct (fits_len r _).
Qed.

Lemma get_next_exact : exact (next_item now a) (fun vars acc => get_next now a vars L acc).
Proof.
  split; [done|]. intros var vars acc [[name Hn] Hl]. cbn [get_next]. unfold next_item. rewrite Hn.
  cbn [default]. unfold id.
  pose proof (next_step_spec now a r Hok Hb name (NRequest (vb_oid var)) (vb_oid var) acc eq_refl) as Hs.
  destruct (successor false a name) as [e|].
  - destruct Hs as (vb & -> & _ & ->). cbn [default]. unfold id. rewrite fits_app.
    by destruct (fits_len r _).
  - rewrite Hs. destruct (exception_fit acc (vb_oid var) TEndOfMibView Hl) as [-> _].
    by destruct (fits_len r _).
Qed.
End exact.

(** An SNMPv2c [GetRequest] is answered name by name from the table: each
    name that is an instance by that instance's varbind, any other by
    [noSuchInstance] when a registered object is a prefix of it and
    [noSuchObject] otherwise, in the request's order; when the whole list fits
    the budget it is the list written, and when it does not the handler reports
    it full. *)
Theorem get_answers now a r vars :
  agent_ok a -> reply_budget r <= u32_max -> Forall name_ok vars ->
  let list := answers_of (get_item now a) vars [] in
  (fits_len r (Z.of_nat (length list)) = true ->
     get now a vars (mk_list 0 r) [] = Some (Ok Complete, list)) /\
  (fits_len r (Z.of_nat (length list)) = false -> vars <> [] ->
     exists out, get now a vars (mk_list 0 r) [] = Some (Ok Full, out)).
Proof. intros Hok Hb Hv list. apply (exact_answers r _ _ vars [] (get_exact now a r Hok) Hv). Qed.

(** An SNMPv2c [GetNextRequest] is answered with the instance following
    each name: no instance served lies strictly between the name and the one
    answered, [endOfMibView] under the name is answered exactly when no instance
    follows it, and the list is written whole or reported full. *)
Theorem get_next_answers now a r vars :
  agent_ok a -> reply_budget r <= u32_max -> Forall name_ok vars ->
  let list := answers_of (next_item now a) vars [] in
  (fits_len r (Z.of_nat (length list)) = true ->
     get_next now a vars (mk_list 0 r) [] = Some (Ok Complete, list)) /\
  (fits_len r (Z.of_nat (length list)) = false -> vars <> [] ->
     exists out, get_next now a vars (mk_list 0 r) [] = Some (Ok Full, out)) /\
  forall name, match successor false a name with
               | Some e => e ∈ view a /\ oid_lt (mk_oid name) e.1 /\
                   forall e', e' ∈ view a -> oid_lt (mk_oid name) e'.1 -> e' = e \/ oid_lt e.1 e'.1
               | None => forall e, e ∈ view a -> ~ oid_lt (mk_oid name) e.1
               end.
Proof.
  intros Hok Hb Hv list.
  destruct (exact_answers r _ _ vars [] (get_next_exact now a r Hok Hb) Hv) as [H1 H2].
  split_and!; [exact H1|exact H2|]. intros name.
  destruct (successor false a name) as [e|] eqn:E.
  - destruct (successor_spec _ _ _ _ Hok E) as (G1 & _ & G3 & G4). split_and!; [done..|].
    intros e' He' Hl. by apply G4.
  - intros e He. by apply (successor_None false a name Hok E).
Qed.

(** ** Warnings *)

Lemma warn_insert_keys peer now last :
  map fst (warn_insert peer now last)
  = if decide (peer ∈ map fst last) then map fst last else map fst last ++ [peer].
Proof.
  induction last as [|[p t] last IH]; [done|]. cbn [warn_insert map fst].
  destruct (Z.eqb_spec p peer) as [->|Hne]; cbn [map fst].
  - rewrite decide_True by (by left). done.
  - rewrite IH. destruct (decide (peer ∈ map fst last)) as [Hin|Hin].
    + rewrite decide_True by (by right). done.
    + rewrite decide_False; [done|]. intros [->|?]%elem_of_cons; done.
Qed.

Lemma warn_get_insert peer now last : warn_get peer (warn_insert peer now last) = Some now.
Proof.
  induction last as [|[p t] last IH]; cbn [warn_insert warn_get]; [by rewrite Z.eqb_refl|].
  destruct (p =? peer) eqn:E; cbn [warn_get]; by rewrite E.
Qed.

Lemma warn_get_None peer last : warn_get peer last = None <-> peer ∉ map fst last.
Proof.
  induction last as [|[p t] last IH]; cbn [warn_get map fst].
  - split; [intros _; apply not_elem_of_nil|done].
  - rewrite not_elem_of_cons. destruct (Z.eqb_spec p peer) as [->|Hne]; [naive_solver|].
    rewrite IH. naive_solver.
Qed.

(** What [due] keeps: a bounded table with one entry per peer. *)
Definition warnings_ok (last : PeerWarnings) : Prop :=
  NoDup (map fst last) /\ (length last <= WARNED_PEERS)%nat.

Lemma warn_insert_ok peer now last :
  warnings_ok last -> (peer ∈ map fst last \/ (length last < WARNED_PEERS)%nat) ->
  warnings_ok (warn_insert peer now last).
Proof.
  intros [Hnd Hl] Hp.
  assert (Hk : length (warn_insert peer now last) = length (map fst (warn_insert peer now last)))
    by (by rewrite length_map).
  split; rewrite ?Hk, warn_insert_keys; case_decide as Hd; rewrite ?length_app, ?length_map; cbn [length].
  - done.
  - apply list.NoDup_app. split_and!; [done| |apply NoDup_singleton].
    intros x Hx ->%list_elem_of_singleton. done.
  - done.
  - destruct Hp; [done|]. unfold WARNED_PEERS in *. lia.
Qed.

Lemma retain_ok now last :
  warnings_ok last ->
  warnings_ok (List.filter (fun '(_, at_) => negb (warn_due (Some at_) now)) last).
Proof.
  intros [Hnd Hl]. set (f := fun '(_, at_) => _). split.
  - clear Hl. induction last as [|[p t] last IH]; [constructor|]. cbn [map fst] in Hnd.
    apply list.NoDup_cons in Hnd as [Hn Hnd]. cbn [List.filter].
    destruct (f (p, t)); [|by apply IH]. cbn [map fst]. apply list.NoDup_cons. split; [|by apply IH].
    intros [[p' t'] [-> Hin]]%list_elem_of_fmap. cbn [fst] in Hn.
    apply list_elem_of_In, filter_In in Hin as [Hin _]. apply Hn. apply list_elem_of_In in Hin.
    by apply (list_elem_of_fmap_2 fst) in Hin.
  - etransitivity; [apply filter_length_le|done].
Qed.

(** Warnings are limited per peer and in memory: [due] keeps at most 1024
    peers, each once; when it lets a warning through, the peer's time is now and
    its last warning, if one is remembered, is at least a minute old; when it
    does not, the peer was warned less than a minute ago, or it is new while
    1024 others were all warned less than a minute ago. *)
Theorem peer_warnings_limited now peer last :
  warnings_ok last ->
  warnings_ok (due now peer last).2 /\
  ((due now peer last).1 = true ->
     warn_get peer (due now peer last).2 = Some now /\
     forall at_, warn_get peer last = Some at_ -> WARN_INTERVAL <= now - at_) /\
  ((due now peer last).1 = false ->
     (exists at_, warn_get peer last = Some at_ /\ sat_sub now at_ < WARN_INTERVAL) \/
     warn_get peer last = None /\ length (due now peer last).2 = WARNED_PEERS /\
     Forall (fun e => sat_sub now e.2 < WARN_INTERVAL) (due now peer last).2).
Proof.
  intros Hok. unfold due.
  destruct (warn_due (warn_get peer last) now) eqn:Ed; cbn [negb].
  2: { split_and!; [done|done|]. intros _. left. unfold warn_due in Ed.
       destruct (warn_get peer last) as [t|]; [|done]. exists t. split; [done|]. by zbool. }
  assert (Hold : forall at_, warn_get peer last = Some at_ -> WARN_INTERVAL <= now - at_).
  { intros t Et. rewrite Et in Ed. unfold warn_due, sat_sub, WARN_INTERVAL in *. zbool. lia. }
  destruct (warn_get peer last) as [t|] eqn:Eg; cbn [negb].
  - rewrite andb_false_r. split_and!; [|intros _; split; [apply warn_get_insert|done]|done].
    apply warn_insert_ok; [done|]. left. destruct (decide (peer ∈ map fst last)) as [|Hn]; [done|].
    apply warn_get_None in Hn. by rewrite Eg in Hn.
  - rewrite andb_true_r. pose proof (retain_ok now last Hok) as Hret.
    set (kept := List.filter _ last) in *.
    destruct (WARNED_PEERS <=? length last)%nat eqn:El.
    + destruct (WARNED_PEERS <=? length kept)%nat eqn:Ek.
      * apply Nat.leb_le in Ek. split_and!; [done|done|]. intros _. right. split_and!; [done| |].
        -- destruct Hret as [_ Hl]. cbn [snd]. lia.
        -- apply list.Forall_forall. intros [p t] Hin. cbn [snd].
           apply list_elem_of_In, filter_In in Hin as [_ Hin]. unfold warn_due in Hin. by zbool.
      * apply Nat.leb_gt in Ek. split_and!; [|intros _; split; [apply warn_get_insert|done]|done].
        apply warn_insert_ok; [done|by right].
    + apply Nat.leb_gt in El. split_and!; [|intros _; split; [apply warn_get_insert|done]|done].
      apply warn_insert_ok; [done|by right].
Qed.

Lemma peer_warnings_limited_witness :
  warnings_ok (due 70000000000 5 [(5, 1)]).2.
Proof.
  apply (peer_warnings_limited 70000000000 5 [(5, 1)]). split; [apply NoDup_singleton|].
  unfold WARNED_PEERS. simpl. lia.
Defined.

(** ** Concrete requests *)

Lemma ex_agent_ok : agent_ok (agent ex_world).
Proof. exact (proj1 (proj1 ex_world_ok)). Qed.

Definition ex_reply : Reply := mk_reply (Community 1 (bytes_of "public")) 7 1472.

(** The response [get_next] has begun for the empty walk: [sysDescr], whose name
    the cursor points at. *)
Definition ex_first_round : option (Stage (list Cursor)) :=
  first_round (fun _ => 0) (agent ex_world) [mk_varbind [43; 6] 5 []] [] (mk_list 0 ex_reply) [].

Lemma column_is_rounds_witness :
  match ex_first_round with
  | Some (Go [c] out) =>
      column (fun _ => 0) (agent ex_world) c 9 (mk_list 0 ex_reply) out
      = later_rounds (fun _ => 0) (agent ex_world) 9 [c] (mk_list 0 ex_reply) out
  | _ => False
  end.
Proof.
  assert (H : stage_good ex_reply (fun out => Forall (cursor_ok out)) [] ex_first_round).
  { apply first_round_good; [exact ex_agent_ok|vm_compute; discriminate|by left|constructor]. }
  destruct ex_first_round as [[[|c [|? ?]] out|]|] eqn:E;
    try (exfalso; clear H; vm_compute in E; discriminate E).
  destruct H as (b & -> & _ & Hc). apply Forall_cons_1 in Hc as [Hc _].
  apply (column_is_rounds (fun _ => 0) (agent ex_world) ex_reply c 9);
    [exact ex_agent_ok|vm_compute; discriminate|lia|exact Hc].
Defined.

(** The budget of a datagram, for an agent whose clock stands still. *)
Lemma ex_roomy : roomy (fun _ _ => 0) (agent ex_world) ex_reply.
Proof.
  intros e k vb nb He Hv Hn.
  set (fine := fun e : Entry =>
    match entry_varbind e 0 with
    | Some vb => match answered_name vb with
                 | Some nb => fits_len ex_reply (Z.of_nat (length vb))
                              && fits_len ex_reply (exception_len (Z.of_nat (length nb)))
                 | None => true
                 end
    | None => true
    end).
  assert (H : forallb fine (view (agent ex_world)) = true) by (vm_compute; reflexivity).
  rewrite forallb_forall in H. apply list_elem_of_In, H in He. unfold fine in He.
  rewrite Hv, Hn in He. by apply andb_true_iff in He.
Qed.

Definition ex_start : list Z := [1; 3; 6].

(** A walk from [1.3.6] of an agent with one instance besides the system group. *)
Lemma walk_visits_view_witness :
  (exists answers, walk (fun _ _ => 0) (agent ex_world) ex_reply 9 0 [43; 6]
     = Some (answers, (length (above ex_start (agent ex_world)) <? 9)%nat) /\
   length answers = (9 `min` length (above ex_start (agent ex_world)))%nat /\
   forall i out, answers !! i = Some out ->
     exists e, above ex_start (agent ex_world) !! i = Some e /\ entry_varbind e 0 = Some out) /\
  map (fun e => arcs e.1) (above ex_start (agent ex_world))
  = map (fun n => [1; 3; 6; 1; 2; 1; 1; n; 0]) [1; 2; 3; 4; 5; 6; 7] ++ [arcs ex_oid].
Proof.
  split; [|vm_compute; reflexivity].
  apply (walk_visits_view (fun _ _ => 0) (agent ex_world) ex_reply 9 [43; 6] ex_start).
  - exact ex_agent_ok.
  - vm_compute. discriminate.
  - exact ex_roomy.
  - vm_compute. reflexivity.
  - vm_compute. reflexivity.
Defined.

Example ex_walk_ends :
  match walk (fun _ _ => 0) (agent ex_world) ex_reply 9 0 [43; 6] with
  | Some (answers, ended) => (length answers, ended) = (8%nat, true)
  | None => False
  end.
Proof. vm_compute. reflexivity. Qed.


Definition ex_vars : list VarBind := [mk_varbind [43; 6; 1; 4; 1; 9; 1; 0] 5 []; mk_varbind [43; 7] 5 []].

Lemma ex_vars_ok : Forall name_ok ex_vars.
Proof. repeat constructor; [by eexists|vm_compute; discriminate|by eexists|vm_compute; discriminate]. Qed.

Lemma get_answers_witness :
  get (fun _ => 0) (agent ex_world) ex_vars (mk_list 0 ex_reply) []
  = Some (Ok Complete, varbind_of ex_oid [2; 1; 7] ++ exception_bytes [43; 7] TNoSuchObject).
Proof.
  apply (get_answers (fun _ => 0) (agent ex_world) ex_reply ex_vars);
    [exact ex_agent_ok|vm_compute; discriminate|exact ex_vars_ok|vm_compute; reflexivity].
Defined.

Lemma get_next_answers_witness :
  get_next (fun _ => 0) (agent ex_world) [mk_varbind [43; 6; 1; 4] 5 []] (mk_list 0 ex_reply) []
  = Some (Ok Complete, varbind_of ex_oid [2; 1; 7]).
Proof.
  apply (get_next_answers (fun _ => 0) (agent ex_world) ex_reply [mk_varbind [43; 6; 1; 4] 5 []]);
    [exact ex_agent_ok|vm_compute; discriminate| |vm_compute; reflexivity].
  repeat constructor; [by eexists|vm_compute; discriminate].
Defined.
