(* ===== verification/ResponderAnswers.v ===== *)
(** * ResponderAnswers: the responder answers the request it was sent

    A response of the responder, in an SNMPv1 or SNMPv2c message or in an SNMPv3
    one at its user's level of security, fits its budget, decodes, and carries
    the request-id asked with; what each datagram changes in the agent. *)

From Stdlib Require Import ZArith Lia Sorted Ascii.
From stdpp Require Import prelude strings list numbers.
From S2P Require Import Prelude Text Util Oid Ber OrdMap Usm UsmProofs SnmpAgent SnmpSink SnmpV3 V3Proofs V3Security Responder ResponderProofs.

(** ** What a decoded SNMPv3 message is within *)

Lemma field_range min input v rest : field min input = (Ok v, rest) -> min <= v <= MAX_FIELD.
Proof.
  unfold field. destruct (read_i64 TInteger input) as [[w|] r]; [|done].
  destruct (negb _) eqn:E; [done|]. intros [= <- _]. zbool. lia.
Qed.

Lemma decode_i64_range body v : Forall is_u8 body -> decode_i64 body = Ok v -> is_i64 v.
Proof.
  intros Hb. unfold decode_i64. destruct body as [|b0 body]; [done|].
  destruct (length (b0 :: body) <=? 8)%nat eqn:El; [|done]. apply Nat.leb_le in El.
  set (fill := if negb _ then 255 else 0). set (l := repeat fill _ ++ _).
  assert (Hl : Forall is_u8 l).
  { apply Forall_app. split; [|done]. apply Forall_forall. intros x Hx.
    apply repeat_spec in Hx. subst x. unfold fill, is_u8. destruct (negb _); lia. }
  assert (Hn : length l = 8%nat) by (unfold l; rewrite length_app, repeat_length; lia).
  pose proof (be_val_bound l Hl) as Hv. rewrite Hn in Hv. change (256 ^ Z.of_nat 8) with (2 ^ 64) in Hv.
  unfold is_i64. destruct (Z.ltb_spec (be_val l) (2 ^ 63)); intros [= <-]; lia.
Qed.

Lemma read_i64_range t input v rest :
  Forall is_u8 input -> read_i64 t input = (Ok v, rest) -> is_i64 v /\ Forall is_u8 rest.
Proof.
  intros Hu. unfold read_i64. destruct (expect t input) as [[body|] r] eqn:E; [|done].
  apply expect_rest in E as [h ->]. apply Forall_app in Hu as [_ [Hb Hr]%Forall_app].
  intros [= Hv <-]. split; [exact (decode_i64_range _ _ Hb Hv)|exact Hr].
Qed.

Lemma scoped_pdu_id body s :
  Forall is_u8 body -> scoped_pdu body = Ok s -> is_i64 (request_id (sp_pdu s)).
Proof.
  intros Hu. unfold scoped_pdu, read_octets.
  destruct (expect _ body) as [[id|] r1] eqn:E1; [|done]. apply expect_rest in E1 as [h1 ->].
  destruct (expect _ r1) as [[nm|] r2] eqn:E2; [|done]. apply expect_rest in E2 as [h2 ->].
  unfold tlv. destruct (raw_tlv r2) as [[[t b]|] r3] eqn:E3; [|done].
  apply raw_tlv_split in E3 as (h3 & -> & _).
  rewrite !Forall_app in Hu. destruct Hu as (_ & _ & _ & _ & _ & Hu & _).
  destruct (tag_from_byte t) as [tg|]; [|done].
  destruct (negb _ || _)%bool; [done|].
  destruct (decode_pdu_fields b) as [[[[i st] ix] vbs]|] eqn:E4; [|done]. intros [= <-]. cbn.
  unfold decode_pdu_fields in E4. destruct (read_i64 TInteger b) as [[v|] r4] eqn:E5; [|done].
  destruct (read_i64_range _ _ _ _ Hu E5) as [Hv _].
  destruct (read_i64 TInteger r4) as [[v2|] r5]; [|done].
  destruct (read_i64 TInteger r5) as [[v3|] r6]; [|done].
  destruct (expect TSequence r6) as [[v4|] [|? ?]]; try done. injection E4 as <- _ _ _. done.
Qed.

Lemma decode_global_range input id size f model :
  decode_global input = Ok (id, size, f, model) -> 0 <= id <= MAX_FIELD /\ MIN_MSG_MAX_SIZE <= size.
Proof.
  unfold decode_global. destruct (field 0 input) as [[i|] r1] eqn:E1; [|done].
  destruct (field _ r1) as [[sz|] r2] eqn:E2; [|done].
  destruct (read_octets _ r2) as [[[|o [|? ?]]|] r3]; try done.
  destruct (field 0 r3) as [[mo|] r4]; [|done]. destruct (negb _); [done|]. intros [= <- <- _ _].
  apply field_range in E1, E2. lia.
Qed.

Lemma decode_params_user input params after :
  decode_params input = Ok (params, after) -> (length (up_user params) <= length input)%nat.
Proof.
  unfold decode_params, read_octets. destruct (expect TSequence input) as [[l0|] r0] eqn:E0; [|done].
  apply expect_rest in E0 as [h0 ->]. destruct (negb _); [done|].
  destruct (expect _ l0) as [[id|] l1] eqn:E1; [|done]. apply expect_rest in E1 as [h1 ->].
  destruct (field 0 l1) as [[boots|] l2] eqn:E2; [|done]. apply field_rest in E2 as [h2 ->].
  destruct (field 0 l2) as [[time|] l3] eqn:E3; [|done]. apply field_rest in E3 as [h3 ->].
  destruct (expect _ l3) as [[user|] l4] eqn:E4; [|done]. apply expect_rest in E4 as [h4 ->].
  destruct (expect _ l4) as [[auth|] l5]; [|done]. destruct (expect _ l5) as [[priv|] l6]; [|done].
  destruct (negb _); [done|]. intros [= <- _]. cbn [up_user]. rewrite !length_app. lia.
Qed.

Lemma v3_decode_fields raw m :
  Forall is_u8 raw -> v3_decode raw = Ok m ->
  0 <= msg_id m <= MAX_FIELD /\ MIN_MSG_MAX_SIZE <= msg_max_size m /\
  (length (up_user (usm m)) <= length raw)%nat /\
  (forall s, scoped m = Some s -> is_i64 (request_id (sp_pdu s))).
Proof.
  intros Hu. unfold v3_decode, read_octets. destruct (expect TSequence raw) as [[body|] r0] eqn:E0; [|done].
  apply expect_rest in E0 as [h0 ->]. apply Forall_app in Hu as [_ [Hu _]%Forall_app].
  destruct (negb _); [done|].
  destruct (read_i64 TInteger body) as [[version|] l1] eqn:E1; [|done].
  destruct (read_i64_range _ _ _ _ Hu E1) as [_ Hu1]. apply read_i64_rest in E1 as [h1 ->].
  destruct (negb (version =? VERSION)); [done|].
  destruct (expect _ l1) as [[global|] l2] eqn:E2; [|done]. apply expect_rest in E2 as [h2 ->].
  destruct (decode_global global) as [[[[id size] f] model]|] eqn:Eg; [|done].
  apply decode_global_range in Eg as [Hid Hsize].
  destruct (expect _ l2) as [[security|] l3] eqn:E3; [|done]. apply expect_rest in E3 as [h3 ->].
  destruct (decode_params security) as [[params after]|] eqn:E4; [|done]. apply decode_params_user in E4.
  rewrite !Forall_app in Hu1. destruct Hu1 as (_ & _ & _ & _ & Hu1).
  destruct (f_privacy f).
  - destruct (expect TOctetString l3) as [[data|] l4]; [|done]. destruct (negb _); [done|].
    intros [= <-]. cbn [msg_id msg_max_size usm scoped]. rewrite !length_app. split_and!; (lia || done).
  - destruct (expect TSequence l3) as [[data|] l4] eqn:E5; [|done]. apply expect_rest in E5 as [h5 ->].
    apply Forall_app in Hu1 as [_ [Hd _]%Forall_app].
    destruct (scoped_pdu data) as [s|] eqn:Es; [|done]. destruct (negb _); [done|].
    intros [= <-]. cbn [msg_id msg_max_size usm scoped]. rewrite !length_app.
    split_and!; [lia..|]. intros ? [= <-]. by eapply scoped_pdu_id.
Qed.

(** ** Sizes *)

Lemma i64_len_small v : 0 <= v <= 127 -> i64_len v = 3.
Proof.
  intros Hv. assert (Hin : v ∈ seqZ 0 128) by (apply elem_of_seqZ; lia).
  assert (Hall : Forall (fun v => i64_len v = 3) (seqZ 0 128)) by (repeat constructor).
  rewrite list.Forall_forall in Hall. by apply Hall.
Qed.

Lemma i64_len_max v : i64_len v <= 10.
Proof. unfold i64_len. destruct (signed_span v) as [b s]. pose proof (tlv_len_small (Z.of_nat (8 - s))).
  destruct (Z.ltb_spec (Z.of_nat (8 - s)) 128); [|lia]. unfold tlv_len, length_len. zif. lia.
Qed.

(** error-status and error-index take three octets each at the values used, so
    a list that fits as [noError] fits with them. *)
Lemma envelope_len_status e id st ix n :
  0 <= st <= 127 -> 0 <= ix <= 127 -> envelope_len e id st ix n = envelope_len e id 0 0 n.
Proof.
  intros Hs Hi. unfold envelope_len, message_len.
  destruct e as [v c|req sn [u|] []];
    by rewrite (i64_len_small st Hs), (i64_len_small ix Hi), (i64_len_small 0) by lia.
Qed.

(** The envelopes of the responder: an agent's community leaves room in the least
    budget, and so do an engine id and a user name of 32 octets. *)
Definition envelope_ok (e : Envelope) : Prop :=
  match e with
  | Community v c => (v = 0 \/ v = 1) /\ Z.of_nat (length c) <= 400
  | EnvV3 req sn _ _ =>
      answerable req sn /\ (length (sn_id sn) <= 32)%nat /\ (length (up_user (usm req)) <= 32)%nat
  end.

Lemma tlv_len_le n m : n <= m -> m <= 127 -> tlv_len n <= m + 2.
Proof. intros Hn Hm. unfold tlv_len, length_len. zif. lia. Qed.

Lemma empty_v3_fits req sn user private id :
  (length (sn_id sn) <= 32)%nat -> (length (up_user (usm req)) <= 32)%nat ->
  v3_message_len req sn user private (tlv_len (i64_len id + 3 + 3 + 2)) <= 484.
Proof.
  intros Hid Hu. unfold v3_message_len. pose proof (i64_len_max id). pose proof (i64_len_max (msg_id req)).
  pose proof (i64_len_max (sn_boots sn)). pose proof (i64_len_max (sn_time sn)).
  pose proof (auth_len_small user). pose proof (priv_len_small (privacy_of user private)).
  change (tlv_len 1) with 3. change (tlv_len 0) with 2. change (i64_len MSG_MAX_SIZE) with 5.
  change (i64_len USM) with 3. change (i64_len VERSION) with 3.
  pose proof (tlv_len_le (i64_len id + 3 + 3 + 2) 18 ltac:(lia) ltac:(lia)).
  pose proof (tlv_len_le (Z.of_nat (length (sn_id sn))) 32 ltac:(lia) ltac:(lia)).
  pose proof (tlv_len_le (Z.of_nat (length (up_user (usm req)))) 32 ltac:(lia) ltac:(lia)).
  pose proof (tlv_len_le (Z.of_nat (auth_len user)) 48 ltac:(lia) ltac:(lia)).
  pose proof (tlv_len_le (Z.of_nat (priv_len_of (privacy_of user private))) 8 ltac:(lia) ltac:(lia)).
  pose proof (tlv_len_le (i64_len (msg_id req) + 5 + 3 + 3) 21 ltac:(lia) ltac:(lia)).
  set (body := usm_body_len _ _ _ _). assert (Hb : body <= 148) by (unfold body, usm_body_len; lia).
  pose proof (tlv_len_mono body 148 Hb) as Hb1. change (tlv_len 148) with 151 in Hb1.
  pose proof (tlv_len_mono (tlv_len body) 151 Hb1) as Hb2. change (tlv_len 151) with 154 in Hb2.
  set (scoped := tlv_len (_ + 2 + _)).
  assert (Hs : scoped <= 58) by (apply (tlv_len_le _ 56); lia).
  match goal with |- tlv_len (_ + ?d) <= _ => set (data := d) end.
  assert (Hd : data <= 67).
  { unfold data. destruct (privacy_of user private) as [p|]; [|lia].
    pose proof (padded_len_le p (Z.to_nat scoped)). apply (tlv_len_le _ 65); lia. }
  etransitivity; [apply (tlv_len_mono _ 247); lia|]. by vm_compute.
Qed.

(** The empty list fits the least budget. *)
Lemma empty_fits e id budget :
  envelope_ok e -> 484 <= budget -> fits_len (mk_reply e id budget) 0 = true.
Proof.
  intros He Hb. unfold fits_len. cbn [envelope reply_id reply_budget]. zbool.
  destruct e as [v c|req sn user private].
  - destruct He as [_ Hc]. unfold envelope_len, message_len. change (tlv_len 0) with 2.
    rewrite (i64_len_small 0) by lia.
    pose proof (i64_len_max id). pose proof (i64_len_pos id). pose proof (i64_len_max v).
    pose proof (i64_len_pos v). pose proof (tlv_len_le (i64_len id + 3 + 3 + 2) 18 ltac:(lia) ltac:(lia)).
    pose proof (tlv_len_mono (Z.of_nat (length c)) 400 ltac:(lia)) as Hc2.
    change (tlv_len 400) with 404 in Hc2.
    pose proof (tlv_len_mono (i64_len v + tlv_len (Z.of_nat (length c))
      + tlv_len (i64_len id + 3 + 3 + 2)) 440 ltac:(lia)) as Hm.
    change (tlv_len 440) with 444 in Hm. lia.
  - destruct He as (_ & Hid & Hu).
    destruct (envelope_len_v3 req sn user private id 0 0 0) as (p & -> & _).
    change (tlv_len 0) with 2. rewrite (i64_len_small 0) by lia.
    pose proof (empty_v3_fits req sn user p id Hid Hu). lia.
Qed.

(** ** Responses *)

(** The message a community envelope wraps a closure's list in. *)
Definition response (v : Z) (c : list Z) (id status index : Z) (b : list Z) : Message :=
  mk_message v c TResponse id status index b.

Lemma write_response_pdu_app {A} id status index (body : list Z -> option (list Z * A)) b x :
  is_i64 id -> is_i64 status -> is_i64 index -> Z.of_nat (length b) <= 65535 ->
  (forall out, body out = Some (out ++ b, x)) ->
  forall out, write_response_pdu id status index body out
              = Some (out ++ pdu_bytes TResponse id status index b, x).
Proof.
  intros H1 H2 H3 Hl Hb out. unfold write_response_pdu, pdu_bytes.
  pose proof (i64_tlv_short _ H1). pose proof (i64_tlv_short _ H2). pose proof (i64_tlv_short _ H3).
  pose proof (tlv_short TSequence b ltac:(lia)).
  apply write_tlv_with_app; [|rewrite !length_app; lia]. intros o. rewrite !write_i64_app by done.
  rewrite (write_tlv_with_app TSequence _ b x) by (done || lia). by rewrite <- !app_assoc.
Qed.

Lemma response_short v c id st ix b :
  (v = 0 \/ v = 1) -> is_i64 id -> is_i64 st -> is_i64 ix ->
  Z.of_nat (length c) <= 65535 -> Z.of_nat (length b) <= 65535 ->
  Z.of_nat (length (message_bytes (response v c id st ix b))) <= 140000.
Proof.
  intros Hv H1 H2 H3 Hc Hb. unfold message_bytes, pdu_bytes.
  cbn [response version community pdu request_id error_status error_index varbinds].
  assert (Hvi : is_i64 v) by (unfold is_i64; lia).
  pose proof (i64_tlv_short _ H1). pose proof (i64_tlv_short _ H2). pose proof (i64_tlv_short _ H3).
  pose proof (i64_tlv_short _ Hvi). pose proof (tlv_short TSequence b ltac:(lia)).
  pose proof (tlv_short TOctetString c ltac:(lia)).
  set (fb := _ ++ _ ++ _ ++ tlv_bytes TSequence b).
  assert (Hfb : Z.of_nat (length fb) <= 65700) by (subst fb; rewrite !length_app; lia).
  pose proof (tlv_short TResponse fb ltac:(lia)).
  match goal with |- Z.of_nat (length (tlv_bytes _ ?l)) <= _ => pose proof (tlv_short TSequence l) as Hm end.
  rewrite !length_app in Hm. specialize (Hm ltac:(lia)). lia.
Qed.

(** A response that fits the budget and says what it carries. *)
Definition carries `{Crypto} (out : list Z) (budget : Z) (e : Envelope) (id : Z) : Prop :=
  Z.of_nat (length out) <= budget /\
  exists status index vbs,
    match e with
    | Community v c => message_decode out = Ok (response v c id status index vbs)
    | EnvV3 req sn user private =>
        exists m, says req sn user private (mk_wire TResponse id status index vbs) out m
    end.

Lemma says_private `{Crypto} req e user p q w bytes m :
  privacy_of user p = privacy_of user q -> says req e user p w bytes m -> says req e user q w bytes m.
Proof. intros E []. split; try done; by rewrite <- E. Qed.

(** ** Answers *)

(** The counters a datagram is counted under once: its PDU type, or the first
    check it fails. *)
Definition primary : list Counter :=
  [CGet; CGetNext; CGetBulk; CSetRefused; CMalformed; CWrongCommunity; CUnsupportedVersion;
   CUsmUnknownEngineIds; CUsmUnknownUserNames; CUsmUnsupportedSecLevels; CUsmWrongDigests;
   CUsmNotInTimeWindows; CUsmDecryptionErrors].

Lemma primary_dec c : c ∈ primary <-> bool_decide (c ∈ primary) = true.
Proof. by rewrite bool_decide_eq_true. Qed.

(** Only counters, salts and the time of the last warning differ. *)
Definition same_tables (a a' : SnmpAgent) : Prop :=
  settings a' = settings a /\ system a' = system a /\ table a' = table a /\
  agent_usm a' = agent_usm (set_salts (agent_salts a') a).

Lemma same_tables_refl a : same_tables a a.
Proof. split_and!; try done. by destruct a as [? [[] ?]]. Qed.

Lemma same_tables_trans a b c : same_tables a b -> same_tables b c -> same_tables a c.
Proof.
  intros (A1 & A2 & A3 & A4) (B1 & B2 & B3 & B4). split_and!; [congruence..|].
  rewrite B4 at 1. unfold set_salts. cbn [agent_usm]. by rewrite A4.
Qed.

Lemma same_set_salts s a : same_tables a (set_salts s a).
Proof. done. Qed.

Lemma same_count c a : same_tables a (count c a).
Proof. exact (same_tables_refl a). Qed.

(** The counter [c], and no other of [primary], counts one more. *)
Definition counts_once (a a' : SnmpAgent) (c : Counter) : Prop :=
  c ∈ primary /\ forall d, d ∈ primary -> counters a' d = bump (counters a) c d.

(** What an answer leaves. *)
Definition answered `{Crypto} (a : SnmpAgent) (budget : Z) (e : Envelope) (id : Z) (c : Counter)
  (o : option (Outcome * SnmpAgent * list Z)) : Prop :=
  exists outcome a' out, o = Some (outcome, a', out) /\ same_tables a a' /\ counts_once a a' c /\
    (outcome = Sent -> carries out budget e id) /\ (outcome <> Sent -> out = []).

Lemma i64_of_small v : -2147483648 <= v <= 2147483647 -> is_i64 v.
Proof. unfold is_i64. lia. Qed.

Section answers.
Context `{CryptoLaws} (e : Envelope) (budget : Z).
Context (He : envelope_ok e) (Hb : 484 <= budget <= 65507).

Lemma fits_short id st ix (b : list Z) :
  envelope_len e id st ix (Z.of_nat (length b)) <= budget -> Z.of_nat (length b) <= 65535.
Proof. intros Hl. pose proof (envelope_len_ge e id st ix (Z.of_nat (length b)) ltac:(lia)). lia. Qed.

Lemma pdu_bytes_length id st ix b :
  is_i64 id -> is_i64 st -> is_i64 ix -> Z.of_nat (length b) <= 65535 ->
  Z.of_nat (length (pdu_bytes TResponse id st ix b))
  = tlv_len (i64_len id + i64_len st + i64_len ix + tlv_len (Z.of_nat (length b))).
Proof.
  intros H1 H2 H3 Hl. unfold pdu_bytes.
  pose proof (i64_tlv_short _ H1). pose proof (i64_tlv_short _ H2). pose proof (i64_tlv_short _ H3).
  pose proof (tlv_short TSequence b ltac:(lia)).
  rewrite tlv_bytes_length by (rewrite !length_app; lia).
  rewrite !length_app, !Nat2Z.inj_add, !i64_tlv_length, tlv_bytes_length by (done || lia).
  apply (f_equal tlv_len). lia.
Qed.

Lemma fitting_v3 {A} req sn user salts id st ix b (pdu : list Z -> option (list Z * A)) x :
  answerable req sn -> is_i64 id -> is_i64 st -> is_i64 ix -> Z.of_nat (length b) <= 65535 ->
  v3_message_len req sn user (is_private salts)
    (tlv_len (i64_len id + i64_len st + i64_len ix + tlv_len (Z.of_nat (length b)))) <= budget ->
  (forall out, pdu out = Some (out ++ pdu_bytes TResponse id st ix b, x)) ->
  exists out m, v3_write_message [] req sn user salts pdu
    = Some (out, x, salts_after sn user salts (pdu_bytes TResponse id st ix b)) /\
    Z.of_nat (length out) <= budget /\
    says req sn user (is_private salts) (mk_wire TResponse id st ix b) out m.
Proof.
  intros Ha H1 H2 H3 Hbl Hl Hpdu. set (w := mk_wire TResponse id st ix b).
  assert (Hw : wire_ok w)
    by (unfold w, wire_ok; cbn [w_tag w_id w_status w_index w_varbinds]; split_and!; done || lia).
  destruct (response_reads_back_aux [] req sn user salts pdu x w Ha Hw Hpdu) as (out & m & -> & Hlen & Hm).
  exists out, m. split_and!; [done| |done]. rewrite Hlen. unfold w, wire_bytes.
  cbn [w_tag w_id w_status w_index w_varbinds]. by rewrite pdu_bytes_length.
Qed.

Lemma fitting_community {A} v c id st ix b (pdu_ : list Z -> option (list Z * A)) x :
  (v = 0 \/ v = 1) -> Z.of_nat (length c) <= 400 -> is_i64 id -> is_i64 st -> is_i64 ix ->
  Z.of_nat (length b) <= 65535 ->
  (forall out, pdu_ out = Some (out ++ pdu_bytes TResponse id st ix b, x)) ->
  write_tlv_with [] TSequence (fun out =>
    pdu_ (write_octets (write_i64 out TInteger v) TOctetString c))
  = Some (message_bytes (response v c id st ix b), x) /\
  Z.of_nat (length (message_bytes (response v c id st ix b)))
  = message_len v c id st ix (Z.of_nat (length b)) /\
  message_decode (message_bytes (response v c id st ix b)) = Ok (response v c id st ix b).
Proof.
  intros Hv Hc H1 H2 H3 Hbl Hpdu. set (m := response v c id st ix b).
  pose proof (response_short v c id st ix b Hv H1 H2 H3 ltac:(lia) Hbl) as Hs. fold m in Hs.
  assert (Hok : message_ok m) by (by split_and!). split_and!.
  - rewrite (write_tlv_with_app TSequence _
      (tlv_bytes TInteger (i64_content v) ++ tlv_bytes TOctetString c ++ pdu_bytes TResponse id st ix b) x).
    + done.
    + intros o. rewrite write_i64_app, write_octets_app by (unfold is_i64; lia). rewrite Hpdu.
      by rewrite <- !app_assoc.
    + unfold message_bytes in Hs. cbn [m response version community pdu request_id error_status error_index varbinds] in Hs.
      match goal with |- Z.of_nat (length ?l) <= _ => pose proof (tlv_bytes_longer TSequence l) end. lia.
  - rewrite message_len_bytes by (done || lia). done.
  - apply message_decode_bytes; done || lia.
Qed.

Lemma envelope_len_community v c id st ix n :
  envelope_len (Community v c) id st ix n = message_len v c id st ix n.
Proof. done. Qed.

Lemma envelope_len_private req sn u id st ix n :
  envelope_len (EnvV3 req sn (Some u) true) id st ix n
  = v3_message_len req sn (Some u) true (tlv_len (i64_len id + i64_len st + i64_len ix + tlv_len n)).
Proof. done. Qed.

Lemma envelope_len_plain req sn user private id st ix n :
  (user = None \/ private = false) ->
  envelope_len (EnvV3 req sn user private) id st ix n
  = v3_message_len req sn user false (tlv_len (i64_len id + i64_len st + i64_len ix + tlv_len n)).
Proof. intros [->| ->]; [done|]. by destruct user. Qed.

(** A response within the budget is written whole, and says what it carries. *)
Lemma fitting_response {A} s id st ix b (body : list Z -> option (list Z * A)) x :
  is_i64 id -> is_i64 st -> is_i64 ix -> envelope_len e id st ix (Z.of_nat (length b)) <= budget ->
  (forall out, body out = Some (out ++ b, x)) ->
  exists out s', envelope_write e s [] id st ix body = Some (out, x, s') /\ carries out budget e id.
Proof.
  intros H1 H2 H3 Hl Hbody. pose proof (fits_short id st ix b Hl) as Hbl.
  pose proof (write_response_pdu_app id st ix body b x H1 H2 H3 Hbl Hbody) as Hpdu.
  unfold envelope_write, carries. destruct e as [v c|req sn user private].
  - destruct He as [Hv Hc]. rewrite envelope_len_community in Hl.
    destruct (fitting_community v c id st ix b _ x Hv Hc H1 H2 H3 Hbl Hpdu) as (-> & Hlen & Hd).
    eexists _, s. split; [reflexivity|]. split; [by rewrite Hlen|]. by exists st, ix, b.
  - destruct He as (Ha & _ & _). unfold write_private_response, write_response.
    destruct user as [u|]; [destruct private|].
    + rewrite envelope_len_private in Hl.
      destruct (fitting_v3 req sn (Some u) (Some s) id st ix b _ x Ha H1 H2 H3 Hbl Hl Hpdu) as (out & m & -> & Hout & Hm).
      eexists out, _. split; [reflexivity|]. split; [done|]. by exists st, ix, b, m.
    + rewrite envelope_len_plain in Hl by (by right).
      destruct (fitting_v3 req sn (Some u) None id st ix b _ x Ha H1 H2 H3 Hbl Hl Hpdu) as (out & m & -> & Hout & Hm).
      eexists out, _. split; [reflexivity|]. split; [done|]. by exists st, ix, b, m.
    + rewrite envelope_len_plain in Hl by (by left).
      destruct (fitting_v3 req sn None None id st ix b _ x Ha H1 H2 H3 Hbl Hl Hpdu) as (out & m & -> & Hout & Hm).
      eexists out, _. split; [reflexivity|]. split; [done|]. exists st, ix, b, m.
      by apply (says_private _ _ _ false).
Qed.

Lemma error_response_spec s id st ix vbs :
  is_i64 id -> is_i64 st -> is_i64 ix ->
  exists outcome out s', error_response (mk_reply e id budget) s st ix vbs [] = Some (outcome, out, s') /\
    (outcome = Sent -> carries out budget e id) /\ (outcome <> Sent -> out = []) /\
    (outcome = Sent \/ outcome = DroppedOther).
Proof.
  intros H1 H2 H3. unfold error_response. cbn [envelope reply_id reply_budget].
  destruct (Z.ltb_spec budget (envelope_len e id st ix (Z.of_nat (length vbs)))) as [Hl|Hl].
  - exists DroppedOther, [], s. split_and!; try done. by right.
  - destruct (fitting_response s id st ix vbs (fun out => Some (out ++ vbs, tt)) tt) as (out & s' & -> & Ho);
      [done..|]. exists Sent, out, s'. split_and!; try done. by left.
Qed.

Lemma too_big_spec at_ id vars a :
  is_i64 id ->
  exists outcome a' out, too_big at_ (mk_reply e id budget) vars a = Some (outcome, a', out) /\
    same_tables a a' /\ counters a' = bump (counters a) CTooBig /\
    (outcome = Sent -> carries out budget e id) /\ (outcome <> Sent -> out = []).
Proof.
  intros Hid. unfold too_big, warn_too_big. cbn [envelope].
  set (wa := if negb _ then _ else _). assert (Hw : same_tables a wa.2 /\ counters wa.2 = bump (counters a) CTooBig).
  { unfold wa. destruct (negb _); (split; [exact (same_tables_refl a)|done]). }
  destruct wa as [w a2]. cbn [snd] in Hw. destruct Hw as [Hs Hcnt].
  destruct (error_response_spec (agent_salts a2) id TOO_BIG 0 (if is_v1 e then vl_body vars else []) Hid)
    as (outcome & out & s' & -> & H1 & H2 & _); [apply i64_of_small; unfold TOO_BIG; lia..|].
  eexists _, _, _. split; [reflexivity|]. split_and!; [|exact Hcnt|done|done].
  exact (same_tables_trans _ _ _ Hs (same_set_salts s' a2)).
Qed.

Lemma no_such_name_spec at_ id vars index a :
  is_i64 id ->
  exists outcome a' out, no_such_name at_ (mk_reply e id budget) vars index a
      = Some (outcome, a', out) /\
    same_tables a a' /\ (forall d, d <> CTooBig -> counters a' d = counters a d) /\
    (outcome = Sent -> carries out budget e id) /\ (outcome <> Sent -> out = []).
Proof.
  intros Hid. unfold no_such_name.
  set (ix := if Z.of_nat index <=? 9223372036854775807 then _ else _).
  assert (Hix : is_i64 ix)
    by (unfold ix, is_i64; destruct (Z.leb_spec (Z.of_nat index) 9223372036854775807); lia).
  destruct (error_response_spec (agent_salts a) id NO_SUCH_NAME ix (vl_body vars) Hid)
    as (outcome & out & s' & -> & H1 & H2 & Ho); [apply i64_of_small; unfold NO_SUCH_NAME; lia|done|].
  destruct Ho as [->| ->].
  - eexists Sent, _, out. split; [reflexivity|]. by split_and!.
  - destruct (too_big_spec at_ id vars (set_salts s' a) Hid) as (oc & a' & out' & -> & Hs & Hcnt & G1 & G2).
    exists oc, a', out'. split_and!; [done|exact (same_tables_trans _ _ _ (same_set_salts s' a) Hs)| |done|done].
    intros d Hd. rewrite Hcnt. unfold bump. by rewrite decide_False.
Qed.

(** Counting a PDU type beside counters that are not primary. *)
Definition count_version (a : SnmpAgent) : SnmpAgent :=
  match e with
  | Community _ _ => if is_v1 e then count CV1 a else a
  | EnvV3 _ _ _ _ => count CV3 a
  end.

Lemma count_primary a a' c :
  c ∈ primary -> same_tables a a' ->
  (forall d, d ∈ primary -> counters a' d = counters a d) ->
  same_tables a (count_version (count c a')) /\ counts_once a (count_version (count c a')) c.
Proof.
  intros Hc' Hs Hd.
  assert (Hv : count_version (count c a') = count c a' \/
    exists v, count_version (count c a') = count v (count c a') /\ v ∉ primary).
  { unfold count_version. destruct e as [v c0|]; [destruct (is_v1 _); [|by left]|]; right; eexists;
      (split; [reflexivity|]); intros Hin; by apply primary_dec in Hin. }
  assert (Hb1 : forall d, d ∈ primary -> counters (count c a') d = bump (counters a) c d).
  { intros d Hin. cbn [counters count]. unfold bump. by rewrite Hd. }
  destruct Hv as [->|(v & -> & Hv)].
  - split; [exact (same_tables_trans _ _ _ Hs (same_count c a'))|]. by split.
  - split; [exact (same_tables_trans _ _ _ (same_tables_trans _ _ _ Hs (same_count c a')) (same_count v _))|].
    split; [done|]. intros d Hin. cbn [counters count]. unfold bump at 1.
    rewrite decide_False by (by intros ->). by apply Hb1.
Qed.

Lemma answer_vars_ok now at_ p a c id vars :
  agent_ok a -> is_i64 id -> c ∈ primary ->
  match p with PGetBulk _ _ mr _ => 0 <= mr | _ => True end ->
  exists c', (c' = c \/ c' = CMalformed) /\
    answered a budget e id c' (answer_vars now at_ p e a budget c id vars).
Proof.
  intros Hok Hid Hcp Hp. unfold answer_vars.
  set (r := mk_reply e id budget).
  destruct (write_list_good now a r Hok ltac:(cbn; lia) p vars Hp) as (b & w & Hroom & Hw).
  destruct (match p with PSet _ _ => _ | _ => (0, 0) end) as [st ix] eqn:Est.
  assert (Hst : 0 <= st <= 127 /\ 0 <= ix <= 127).
  { destruct p; try (injection Est as <- <-; lia).
    destruct (vl_is_empty vars), (is_v1 e); injection Est as <- <-; unfold NO_SUCH_NAME, NOT_WRITABLE; lia. }
  assert (Hlen : envelope_len e id st ix (Z.of_nat (length b)) <= budget).
  { rewrite envelope_len_status by lia. destruct Hroom as [->|Hf].
    - pose proof (empty_fits e id budget He ltac:(lia)) as Hf. unfold fits_len in Hf. zbool. exact Hf.
    - unfold fits_len in Hf. zbool. exact Hf. }
  destruct (fitting_response (agent_salts a) id st ix b (write_list now a p vars r) w Hid) as (out & s' & -> & Ho);
    [apply i64_of_small; lia..|done|done|].
  subst r. set (a1 := set_salts s' a). assert (H1a : same_tables a a1) by done.
  destruct w as [[| |index]|er].
  - exists c. split; [by left|]. destruct (count_primary a a1 c Hcp) as [H1 H2]; [done..|].
    eexists _, _, _. split; [reflexivity|]. by split_and!.
  - exists c. split; [by left|].
    destruct (too_big_spec at_ id vars a1 Hid) as (oc & a' & out' & -> & Hs & Hcnt & G1 & G2).
    destruct (count_primary a a' c Hcp) as [H1 H2]; [exact (same_tables_trans _ _ _ H1a Hs)| |].
    { intros d Hd. rewrite Hcnt. unfold bump. rewrite decide_False; [done|].
      intros ->. by apply primary_dec in Hd. }
    eexists _, _, _. split; [reflexivity|]. by split_and!.
  - exists c. split; [by left|]. destruct (no_such_name_spec at_ id vars index a1 Hid)
      as (oc & a' & out' & -> & Hs & Hcnt & G1 & G2).
    destruct (count_primary a a' c Hcp) as [H1 H2]; [exact (same_tables_trans _ _ _ H1a Hs)| |].
    { intros d Hd. apply Hcnt. intros ->. by apply primary_dec in Hd. }
    eexists _, _, _. split; [reflexivity|]. by split_and!.
  - exists CMalformed. split; [by right|]. eexists _, _, _. split; [reflexivity|]. split_and!; try done.
    split; [by apply primary_dec|done].
Qed.
End answers.

(** The request-id of a PDU that is answered. *)
Definition pdu_id (p : Pdu) : option Z :=
  match p with
  | PGet id _ | PGetNext id _ | PGetBulk id _ _ _ | PSet id _ => Some id
  | POther _ => None
  end.

Lemma classify_ok m p :
  classify m = Ok p ->
  match pdu_id p with
  | Some id => id = request_id m /\ -2147483648 <= id <= 2147483647
  | None => True
  end /\
  match p with PGetBulk _ _ mr _ => 0 <= mr | _ => True end.
Proof.
  intros H.
  assert (Hid : forall id, ok_or (i32_try_from (request_id m)) Overflow = Ok id ->
    id = request_id m /\ -2147483648 <= id <= 2147483647).
  { intros id. unfold i32_try_from. destruct (_ && _) eqn:E; cbn; [|done]. intros [= <-].
    zbool. lia. }
  unfold classify in H.
  destruct (pdu m); try (injection H as <-; done);
    (destruct (ok_or _ _) as [id|] eqn:Ei; [|done]; destruct (varlist_of m) as [vars|]; [|done];
     injection H as <-; cbn [pdu_id]; split; [by apply Hid|]); try done.
  unfold clamp_count. destruct (_ <=? _) eqn:E; zbool; lia.
Qed.

Lemma decode_ok d req :
  decode d = Ok req ->
  exists m, message_decode d = Ok m /\ version_field (rq_version req) = version m /\
    rq_community req = community m /\ classify m = Ok (rq_pdu req).
Proof.
  unfold decode. destruct (message_decode d) as [m|] eqn:Em; [|done].
  destruct (_ && _); [done|]. destruct (classify m) as [p|] eqn:Ec; [|done]. intros [= <-].
  exists m. split_and!; try done. cbn [rq_version].
  assert (Hv : version m = 0 \/ version m = 1).
  { unfold message_decode in Em. destruct (expect TSequence d) as [[body|] outer]; [|done].
    destruct (negb (bool_decide (outer = []))); [done|].
    destruct (read_i64 TInteger body) as [[v|] rest]; [|done].
    destruct (negb ((0 <=? v) && (v <=? 1))) eqn:Ev; [done|].
    destruct (read_octets _ _) as [[c|] rest2]; [|done].
    destruct (tlv _) as [[[t b]|] rest3]; [|done].
    destruct (negb (is_pdu t)); [done|].
    destruct (negb (bool_decide (rest3 = []))); [done|].
    destruct (decode_pdu_fields b) as [q|]; [|discriminate Em].
    destruct q as [[[i s] ix] vbs]. injection Em as <-.
    cbn [version]. zbool. lia. }
  destruct Hv as [->| ->]; done.
Qed.

(** ** What a datagram is answered with *)

Section respond.
Context `{CryptoLaws}.

(** An SNMPv1 or SNMPv2c answer: a [Response] with the version, the community and
    the request-id of the datagram [d], within the budget. *)
Definition answers_community (d : list Z) (budget : Z) (out : list Z) : Prop :=
  Z.of_nat (length out) <= budget /\
  exists m status index vbs, message_decode d = Ok m /\
    message_decode out
    = Ok (mk_message (version m) (community m) TResponse (request_id m) status index vbs).

(** An SNMPv3 answer to [d], as the User-based Security Model decides: a report
    of the counter of the check that failed, at its new value; or, within the
    budget and the requester's [msgMaxSize], a [Response] with the request-id of
    the PDU let through, for its user and encrypted as the request was. *)
Definition answers_v3 (d : list Z) (checked at_ budget : Z) (a a' : SnmpAgent) (out : list Z) : Prop :=
  exists req m, v3_decode d = Ok req /\
    let u := agent_usm a in
    let sn := engine_snapshot (engine u) at_ in
    match verify checked req d (engine u) (users u) with
    | Report stat authenticated =>
        f_reportable (flags req) = true /\
        says req sn (if authenticated then find_user (users u) (up_user (usm req)) else None) false
          (mk_wire TReport (report_id req) 0 0
             (report_varbinds stat (counters a' (stat_counter stat) mod (u32_max + 1)))) out m
    | Answer user authenticated decrypted =>
        Z.of_nat (length out) <= Z.min budget (msg_max_size req) /\
        exists s status index vbs, let_through req decrypted = Some s /\
          says req sn (if authenticated then Some user else None) (f_privacy (flags req))
            (mk_wire TResponse (request_id (sp_pdu s)) status index vbs) out m
    end.

(** An answer to the datagram [d]: nothing but counters, salts and the time of a
    warning changes, one primary counter counts it, and what is sent is one of
    the above. *)
Definition answers (d : list Z) (checked at_ budget : Z) (a : SnmpAgent) (outcome : Outcome)
  (a' : SnmpAgent) (out : list Z) : Prop :=
  same_tables a a' /\ (exists c, counts_once a a' c) /\
  (outcome <> Sent -> out = []) /\
  (outcome = Sent -> answers_community d budget out \/ answers_v3 d checked at_ budget a a' out).

Lemma answers_dropped d checked at_ a budget outcome c :
  bool_decide (c ∈ primary) = true -> outcome <> Sent ->
  answers d checked at_ budget a outcome (count c a) [].
Proof.
  intros Hc Ho. split_and!; [apply same_count| |done|done]. exists c. split; [by apply primary_dec|done].
Qed.

(** The PDU of a message, answered in an envelope. *)
Lemma answer_pdu_ok now at_ m p e a budget :
  agent_ok a -> envelope_ok e -> 484 <= budget <= 65507 -> classify m = Ok p ->
  exists outcome a' out, answer_pdu now at_ p e a budget = Some (outcome, a', out) /\
    same_tables a a' /\ (exists c, counts_once a a' c) /\ (outcome <> Sent -> out = []) /\
    (outcome = Sent -> carries out budget e (request_id m)).
Proof.
  intros Hok He Hb Hcl. destruct (classify_ok _ _ Hcl) as [Hid Hmr]. unfold answer_pdu.
  assert (Hgo : forall counter id vars, bool_decide (counter ∈ primary) = true ->
    pdu_id p = Some id ->
    exists outcome a' out, answer_vars now at_ p e a budget counter id vars = Some (outcome, a', out) /\
      same_tables a a' /\ (exists c, counts_once a a' c) /\ (outcome <> Sent -> out = []) /\
      (outcome = Sent -> carries out budget e (request_id m))).
  { intros counter id vars Hcp%primary_dec Hpid. rewrite Hpid in Hid. destruct Hid as [-> Hr].
    destruct (answer_vars_ok e budget He Hb now at_ p a counter _ vars Hok (i64_of_small _ Hr) Hcp Hmr)
      as (c & _ & outcome & a' & out & -> & Hs & Hcnt & Hsent & Hout).
    exists outcome, a', out. split_and!; try done. by exists c. }
  destruct p; [by apply Hgo..|]. eexists _, _, _. split; [reflexivity|].
  split_and!; [apply same_count| |done|done]. exists CMalformed. split; [by apply primary_dec|done].
Qed.

(** What [answer] does with a request decoded from a datagram. *)
Lemma answer_ok now checked at_ d req a budget :
  agent_ok a -> Z.of_nat (String.length (as_community (settings a))) <= 400 ->
  484 <= budget <= 65507 -> decode d = Ok req ->
  exists outcome a' out, answer now at_ req a budget = Some (outcome, a', out) /\
    answers d checked at_ budget a outcome a' out.
Proof.
  intros Hok Hc Hb Hd. destruct (decode_ok d req Hd) as (m & Hm & Hver & Hcom & Hcl). unfold answer.
  case_bool_decide; cbn [negb]; [|eexists _, _, _; split; [reflexivity|]; by apply answers_dropped].
  destruct (constant_time_eq (rq_community req) (bytes_of (as_community (settings a)))) eqn:Ec;
    cbn [negb]; [|eexists _, _, _; split; [reflexivity|]; by apply answers_dropped].
  apply constant_time_eq_iff in Ec.
  set (e := Community (version_field (rq_version req)) (bytes_of (as_community (settings a)))).
  assert (He : envelope_ok e).
  { unfold e. cbn [envelope_ok]. rewrite bytes_of_length. split; [|done].
    destruct (rq_version req); [by left|by right]. }
  destruct (answer_pdu_ok now at_ m (rq_pdu req) e a budget Hok He Hb Hcl)
    as (outcome & a' & out & -> & Hs & Hcnt & Hout & Hsent).
  exists outcome, a', out. split; [done|]. split_and!; try done. intros Ho. left.
  destruct (Hsent Ho) as (Hl & st & ix & vbs & Hdec). split; [done|]. exists m, st, ix, vbs.
  split; [done|]. unfold e in Hdec. rewrite Hdec. unfold response. by rewrite Hver, <- Ec, Hcom.
Qed.
End respond.

(** The engine and users an agent's settings give: validation bounds the engine
    id and the names by 32 octets. *)
Definition usm_ok (u : Usm) : Prop :=
  (length (e_id (engine u)) <= 32)%nat /\ 0 <= e_boots (engine u) <= MAX_FIELD /\
  Forall (fun lu => (length (lu_name lu) <= 32)%nat) (users u).

Lemma find_user_spec l name u : find_user l name = Some u -> In u l /\ lu_name u = name.
Proof.
  intros Hf. split; [by eapply List.find_some in Hf as [? _]|].
  apply List.find_some in Hf as [_ Hn]. by apply bool_decide_eq_true in Hn.
Qed.

Lemma engine_time_range e now : 0 <= engine_time e now <= MAX_FIELD.
Proof.
  unfold engine_time, MAX_BOOTS_OR_TIME, MAX_FIELD, sat_sub.
  pose proof (Z.div_pos (Z.max 0 (now - bound_at e)) 1000000000 ltac:(lia) ltac:(lia)).
  destruct (_ <=? _); lia.
Qed.

(** A datagram read from the socket. *)
Definition datagram_ok (d : list Z) : Prop :=
  Forall is_u8 d /\ Z.of_nat (length d) <= RECEIVE_BUFFER.

Lemma decoded_answerable u d req at_ :
  usm_ok u -> datagram_ok d -> v3_decode d = Ok req -> answerable req (engine_snapshot (engine u) at_).
Proof.
  intros (Hid & Hb & _) [Hu Hl] Hd. destruct (v3_decode_fields d req Hu Hd) as (H1 & _ & H3 & _).
  unfold RECEIVE_BUFFER in Hl. split; cbn [sn_boots sn_time sn_id engine_snapshot]; try done; [|lia..].
  apply engine_time_range.
Qed.

Section respond_v3.
Context `{CryptoLaws}.

Lemma verify_answer_user checked req d e us u a s :
  verify checked req d e us = Answer u a s -> find_user us (up_user (usm req)) = Some u.
Proof.
  unfold verify. intros Hv. destruct (_ || _)%bool; [done|].
  destruct (find_user us (up_user (usm req))) as [u'|]; [|done]. f_equal.
  destruct (negb _); [done|]. destruct (lu_auth u') as [[p k]|]; [|congruence].
  destruct (negb _); [done|]. destruct (negb _); [done|].
  destruct (encrypted req); [|congruence].
  destruct (decrypt _ _ _ _ _); [case_bool_decide|]; congruence.
Qed.

(** What [answer_v3] does with a datagram. *)
Lemma answer_v3_ok now checked at_ d a budget :
  agent_ok a -> usm_ok (agent_usm a) -> datagram_ok d -> 484 <= budget <= 65507 ->
  exists outcome a' out refusal,
    answer_v3 now checked at_ d a budget = Some (outcome, a', out, refusal) /\
    answers d checked at_ budget a outcome a' out.
Proof.
  intros Hok Hu Hd Hb. unfold answer_v3.
  assert (Hbad : exists outcome a' out refusal,
    Some (DroppedOther, count CMalformed a, [], None : option Refusal) = Some (outcome, a', out, refusal) /\
    answers d checked at_ budget a outcome a' out)
    by (eexists _, _, _, _; split; [reflexivity|]; by apply answers_dropped).
  destruct (v3_decode d) as [req|er] eqn:Hdec; [|exact Hbad].
  destruct (negb _); [exact Hbad|].
  pose proof (decoded_answerable _ _ _ at_ Hu Hd Hdec) as Ha.
  destruct Hd as [Hu8 Hdl]. destruct (v3_decode_fields d req Hu8 Hdec) as (_ & Hmax & _ & Hrid).
  set (u := agent_usm a) in *. set (sn := engine_snapshot (engine u) at_) in *.
  destruct (verify checked req d (engine u) (users u)) as [user authd dec|stat authd] eqn:Hv.
  - change (match dec with Some s => Some s | None => scoped req end) with (let_through req dec).
    destruct (let_through req dec) as [s|] eqn:Hs; [|exact Hbad].
    destruct (classify (sp_pdu s)) as [p|] eqn:Hcl; [|exact Hbad].
    set (e := EnvV3 req sn (if authd then Some user else None) (f_privacy (flags req))).
    assert (He : envelope_ok e).
    { destruct Hu as (Hid & _ & Hus). split; [done|]. split; [done|].
      apply verify_answer_user, find_user_spec in Hv as [Hin <-].
      rewrite List.Forall_forall in Hus. by apply Hus. }
    unfold MIN_MSG_MAX_SIZE in Hmax.
    destruct (answer_pdu_ok now at_ (sp_pdu s) p e a (Z.min budget (msg_max_size req)) Hok He ltac:(lia) Hcl)
      as (outcome & a' & out & -> & Hst & Hcnt & Hout & Hsent).
    eexists _, _, _, _. split; [reflexivity|]. split_and!; try done. intros Ho. right.
    destruct (Hsent Ho) as (Hl & st & ix & vbs & m & Hm). exists req, m. split; [done|].
    cbv zeta. fold u sn. rewrite Hv. split; [done|]. by exists s, st, ix, vbs.
  - unfold count_and_read.
    assert (Hc : bool_decide (stat_counter stat ∈ primary) = true) by (by destruct stat).
    destruct (f_reportable (flags req)) eqn:Er.
    2: { eexists _, _, _, _. split; [reflexivity|]. by apply answers_dropped. }
    set (value := _ mod (u32_max + 1)).
    assert (Hval : is_u32 value) by (unfold value, is_u32; pose proof (Z.mod_pos_bound ((counters a (stat_counter stat) + 1) mod two64) (u32_max + 1)); lia).
    assert (Hid : is_i64 (report_id req)).
    { unfold report_id. destruct (scoped req) as [s|] eqn:Es; [by apply Hrid|]. by unfold is_i64. }
    destruct (report_reads_back_aux [] req sn stat value
                (if authd then find_user (users u) (up_user (usm req)) else None) Ha Hval Hid)
      as (out & m & -> & Hm & _).
    eexists _, _, _, _. split; [reflexivity|].
    split_and!; [apply same_count| |done|].
    + exists (stat_counter stat). split; [by apply primary_dec|done].
    + intros _. right. exists req, m. split; [done|]. cbv zeta. fold u sn. rewrite Hv. split; [done|].
      cbn [counters count]. unfold bump. rewrite decide_True by done. exact Hm.
Qed.
End respond_v3.

(** C6: the responder answers the request it was sent. For every datagram and
    every agent in its invariant whose community leaves room in the budget, with
    engine and users as validation leaves them, [respond_noting] does not panic; it
    leaves the table, the system group, the settings and the users as they were;
    it counts the datagram under exactly one of the counters of PDU types and
    failed checks. What it sends for an SNMPv1 or SNMPv2c request is a [Response]
    with the request's version, community and request-id, within
    [max_message_size]; what it sends for an SNMPv3 message is what the User-based
    Security Model decides: a report of the check that failed, at the counter's
    new value, or a [Response] with the request-id of the PDU let through, within
    [max_message_size] and the requester's [msgMaxSize], which the user's keys
    authenticate and decrypt. *)
Theorem responses_answer_requests `{CryptoLaws} now checked at_ d a :
  agent_ok a -> usm_ok (agent_usm a) -> datagram_ok d ->
  Z.of_nat (String.length (as_community (settings a))) <= 400 ->
  484 <= max_message_size (settings a) <= 65507 ->
  exists outcome a' out refusal,
    respond_noting now checked at_ d a (max_message_size (settings a))
      = Some (outcome, a', out, refusal) /\
    answers d checked at_ (max_message_size (settings a)) a outcome a' out.
Proof.
  intros Hok Hu Hd Hc Hb. unfold respond_noting. destruct (decode d) as [req|er] eqn:Ed.
  - destruct (answer_ok now checked at_ d req a _ Hok Hc Hb Ed) as (outcome & a' & out & -> & Ha).
    eexists _, _, _, _. by split.
  - destruct (_ && _)%bool; [by apply answer_v3_ok|]. unfold undecodable.
    case_bool_decide; (eexists _, _, _, _; split; [reflexivity|]; by apply answers_dropped).
Qed.

(** ** Concrete requests *)

(** An agent serving SNMPv1, SNMPv2c and SNMPv3, with two users. *)
Definition v3_agent : SnmpAgent :=
  default (agent ex_world)
    (bind (mk_usm (new_engine [128; 0; 31; 136; 5; 1; 2; 3] 0 (mk_salts 7 9)) [aes_lu; des_lu])
       (mk_settings "public" 484 (as_system ex_settings) [V1; V2c; V3] [] None)).

Definition v3_request (f : Flags) (user : list Z) (max_size : Z) : V3Message :=
  mk_v3 4242 max_size f USM (mk_params [] 0 0 user [] []) (0, 0)%nat None None.

Definition get_wire : wire_pdu :=
  mk_wire TGetRequest 77 0 0 (varbind_bytes (mk_oid [1; 3; 6; 1; 2; 1; 1; 5; 0]) [5; 0]).

(** An authenticated and encrypted [GetRequest] of [sysName], from the DES user. *)
Definition ex_v3_get : list Z :=
  @v3_message_bytes toy_crypto (v3_request (mk_flags true true true) (lu_name des_lu) 65507)
    (engine_snapshot (engine (agent_usm v3_agent)) 100500000000) (Some des_lu) (Some (mk_salts 1 1))
    (wire_bytes get_wire).

Lemma v3_agent_ok : agent_ok v3_agent.
Proof.
  destruct (bind_agent_ok (agent_usm v3_agent) (settings v3_agent)) as (a & Ha & Hok & _).
  - destruct ex_settings_ok as (H1 & H2 & H3 & H4). split_and!; done.
  - assert (bind (agent_usm v3_agent) (settings v3_agent) = Some v3_agent) as E by (vm_compute; reflexivity).
    rewrite E in Ha. by injection Ha as <-.
Qed.

Lemma octets_dec l : forallb (fun x => (0 <=? x) && (x <=? 255)) l = true -> Forall is_u8 l.
Proof.
  intros H. apply List.Forall_forall. intros x Hx. rewrite List.forallb_forall in H.
  specialize (H x Hx). zbool. unfold is_u8. lia.
Qed.

Lemma responses_answer_requests_witness :
  exists a' out refusal,
    @respond_noting toy_crypto (fun _ => 0) 101000000000 101000000000 ex_v3_get v3_agent 484
      = Some (Sent, a', out, refusal) /\
    @answers toy_crypto ex_v3_get 101000000000 101000000000 484 v3_agent Sent a' out.
Proof.
  destruct (@responses_answer_requests toy_crypto toy_laws (fun _ => 0) 101000000000 101000000000 ex_v3_get v3_agent)
    as (outcome & a' & out & refusal & E & Ha).
  - exact v3_agent_ok.
  - split_and!; [vm_compute; lia|vm_compute; discriminate|vm_compute; discriminate|].
    repeat constructor; vm_compute; lia.
  - split; [apply octets_dec; vm_compute; reflexivity|vm_compute; discriminate].
  - vm_compute. discriminate.
  - vm_compute. split; discriminate.
  - assert (Ho : outcome = Sent).
    { assert (Hs : match @respond_noting toy_crypto (fun _ => 0) 101000000000 101000000000 ex_v3_get v3_agent 484 with
                   | Some (o, _, _, _) => o | None => DroppedOther end = Sent) by (vm_compute; reflexivity).
      change (max_message_size (settings v3_agent)) with 484 in E. rewrite E in Hs. exact Hs. }
    subst outcome. exists a', out, refusal. exact (conj E Ha).
Defined.

(** ** Answers larger than the budget

    The size of a response is checked only as varbinds are added to it, and that
    of a report never. *)

Definition long_community : string := String.string_of_list_ascii (repeat (Ascii.ascii_of_nat 97) 600).

Definition long_agent : SnmpAgent :=
  default (agent ex_world)
    (bind (agent_usm v3_agent) (mk_settings long_community 484 (as_system ex_settings) [V2c] [] None)).

Definition empty_bulk : list Z :=
  default [] (write_message [] 1 (bytes_of long_community) TGetBulkRequest 7 0 10 (fun out => Some out)).

(** A response can exceed [max_message_size]: with a community of 600
    octets, which the settings accept, and the least [max_message_size], a
    [GetBulkRequest] with no varbinds is answered with 624 octets. *)
Theorem response_over_budget :
  match @respond_noting toy_crypto (fun _ => 0) 0 0 empty_bulk long_agent 484 with
  | Some (Sent, _, out, _) => Z.of_nat (length out) = 624
  | _ => False
  end.
Proof. vm_compute. reflexivity. Qed.

(** A reportable message without authentication for a user of 600 octets. *)
Definition stranger : list Z :=
  v3_bytes 1 (mk_flags false false true) (engine_snapshot (engine (agent_usm v3_agent)) 0) (repeat 97 600) [] []
    (scoped_bytes (engine_snapshot (engine (agent_usm v3_agent)) 0) (wire_bytes get_wire)).

(** A report can exceed [max_message_size]: an
    agent of 484 octets answers an unauthenticated message for an unknown user of
    600 octets with a report that echoes the name. *)
Theorem report_over_budget :
  match @respond_noting toy_crypto (fun _ => 0) 0 0 stranger v3_agent 484 with
  | Some (Sent, _, out, Some (RUnknownUser _)) => 484 < Z.of_nat (length out)
  | _ => False
  end.
Proof. vm_compute. reflexivity. Qed.
