(* ===== verification/Durations.v ===== *)
(** * Durations: floating-point seconds and the periodic windows (schedule/mod.rs)

    The schedule computes its grid and its recurring windows in seconds as
    [f64]. The operations of binary64 are those of the standard library's
    specification floats, at 53 bits of precision, on the patterns of [F64];
    a [Duration] is a number of nanoseconds. *)

From Stdlib Require Import ZArith Lia.
From Corelib Require Import Floats.SpecFloat.
From stdpp Require Import prelude numbers list.
From S2P Require Import Prelude Text F64 Windows.

(** ** The operations of binary64 *)

(** The pattern of a specification float. *)
Definition of_sf (f : spec_float) : f64 :=
  match f with
  | S754_zero s => if s then sign_bit else 0
  | S754_infinity s => inf_bits + (if s then sign_bit else 0)
  | S754_nan => f64_nan
  | S754_finite s m e =>
      (if Zpos m <? 2 ^ 52 then Zpos m else (e + 1075) * 2 ^ 52 + (Zpos m - 2 ^ 52))
      + (if s then sign_bit else 0)
  end.

(** [a + b], [a - b], [a * b], [a / b]. *)
Definition f64_add (a b : f64) : f64 := of_sf (SFadd 53 1024 (to_sf a) (to_sf b)).
Definition f64_sub (a b : f64) : f64 := of_sf (SFsub 53 1024 (to_sf a) (to_sf b)).
Definition f64_mul (a b : f64) : f64 := of_sf (SFmul 53 1024 (to_sf a) (to_sf b)).
Definition f64_div (a b : f64) : f64 := of_sf (SFdiv 53 1024 (to_sf a) (to_sf b)).

(** [a % b]: the exact remainder, with the sign of [a]. *)
Definition sf_rem (a b : spec_float) : spec_float :=
  match a, b with
  | S754_nan, _ | _, S754_nan | S754_infinity _, _ | _, S754_zero _ => S754_nan
  | _, S754_infinity _ | S754_zero _, _ => a
  | S754_finite sa ma ea, S754_finite _ mb eb =>
      let e := Z.min ea eb in
      let r := Z.shiftl (Zpos ma) (ea - e) mod Z.shiftl (Zpos mb) (eb - e) in
      binary_normalize 53 1024 (if sa then - r else r) e sa
  end.

Definition f64_rem (a b : f64) : f64 := of_sf (sf_rem (to_sf a) (to_sf b)).

(** [n as f64] of an unsigned integer: the nearest double. *)
Definition f64_of_u64 (n : Z) : f64 := of_sf (binary_normalize 53 1024 n 0 false).

(** [x as u64]: truncated, saturating, 0 for a NaN. *)
Definition u64_of_f64 (x : f64) : Z :=
  match to_sf x with
  | S754_nan | S754_zero _ | S754_infinity true | S754_finite true _ _ => 0
  | S754_infinity false => u64_max
  | S754_finite false m e =>
      Z.min u64_max (if 0 <=? e then Zpos m * 2 ^ e else Zpos m / 2 ^ (- e))
  end.

(** ** Durations *)

Abbreviation NANOS_PER_SEC := 1000000000.

(** [Duration::as_secs_f64]. *)
Definition as_secs_f64 (d : Z) : f64 :=
  f64_add (f64_of_u64 (d / NANOS_PER_SEC))
    (f64_div (f64_of_u64 (d mod NANOS_PER_SEC)) (f64_of_u64 NANOS_PER_SEC)).

(** The integer nearest to [n / d], a tie going to the even one. *)
Definition round_half_even (n d : Z) : Z :=
  let q := n / d in
  let r := n mod d in
  if 2 * r <? d then q else if d <? 2 * r then q + 1 else if Z.even q then q else q + 1.

(** [Duration::from_secs_f64]: the nearest nanosecond; [None] is its panic on a
    negative, NaN or too large number. *)
Definition from_secs_f64 (x : f64) : option Z :=
  match to_sf x with
  | S754_zero _ => Some 0
  | S754_finite false m e =>
      let nanos :=
        if 0 <=? e then Zpos m * 2 ^ e * NANOS_PER_SEC
        else round_half_even (Zpos m * NANOS_PER_SEC) (2 ^ (- e)) in
      if DURATION_MAX <? nanos then None else Some nanos
  | _ => None
  end.

(** [Duration::mul_f64]. *)
Definition mul_f64 (d : Z) (x : f64) : option Z := from_secs_f64 (f64_mul x (as_secs_f64 d)).

(** ** The recurring windows *)

(** [GapWindow] and [BurstWindow]. *)
Record GapWindow := mk_gap_window { gap_every : Z; gap_duration : Z }.
Record BurstWindow := mk_burst_window {
  burst_every : Z; burst_duration : Z; burst_multiplier : f64;
}.

(** [is_in_burst]. *)
Definition is_in_burst (elapsed : Z) (burst : BurstWindow) : option f64 :=
  let every_secs := as_secs_f64 (burst_every burst) in
  let duration_secs := as_secs_f64 (burst_duration burst) in
  let cycle_pos := f64_rem (as_secs_f64 elapsed) every_secs in
  if f64_lt cycle_pos duration_secs then Some (burst_multiplier burst) else None.

(** [is_in_gap]. *)
Definition is_in_gap (elapsed : Z) (gap : GapWindow) : bool :=
  let every_secs := as_secs_f64 (gap_every gap) in
  let duration_secs := as_secs_f64 (gap_duration gap) in
  let cycle_pos := f64_rem (as_secs_f64 elapsed) every_secs in
  f64_ge cycle_pos (f64_sub every_secs duration_secs).

(** [is_in_spike]. *)
Definition is_in_spike (elapsed : Z) (spike : CardinalitySpikeWindow) : bool :=
  let every_secs := as_secs_f64 (every spike) in
  let duration_secs := as_secs_f64 (spike_duration spike) in
  let cycle_pos := f64_rem (as_secs_f64 elapsed) every_secs in
  f64_lt cycle_pos duration_secs.

(** [time_until_gap_end]; [None] is the panic of [from_secs_f64] on a NaN (a
    window whose period is zero). *)
Definition time_until_gap_end (elapsed : Z) (gap : GapWindow) : option Z :=
  let every_secs := as_secs_f64 (gap_every gap) in
  let cycle_pos := f64_rem (as_secs_f64 elapsed) every_secs in
  let remaining_secs := f64_sub every_secs cycle_pos in
  if f64_le remaining_secs 0 then Some 0 else from_secs_f64 remaining_secs.

(** The windows of the source's tests: gaps of 1 s every 10 s. *)
Example gap_end_at_9s : time_until_gap_end 9000000000 (mk_gap_window 10000000000 1000000000)
  = Some 1000000000.
Proof. vm_compute. reflexivity. Qed.
Example in_gap_at_9s : map (fun t => is_in_gap t (mk_gap_window 10000000000 1000000000))
  [0; 8999999999; 9000000000; 9999999999; 10000000000; 19500000000]
  = [false; false; true; true; false; true].
Proof. vm_compute. reflexivity. Qed.
Example burst_at_2s : map (fun t => is_in_burst t (mk_burst_window 10000000000 2000000000 7))
  [0; 1999999999; 2000000000; 10500000000] = [Some 7; Some 7; None; Some 7].
Proof. vm_compute. reflexivity. Qed.
Example tenth_of_second : (mul_f64 100000000 (f64_of_u64 3), from_secs_f64 (f64_div (f64_of_u64 1) (f64_of_u64 3)))
  = (Some 300000000, Some 333333333).
Proof. vm_compute. reflexivity. Qed.

Lemma of_sf_to_sf x : is_u64 x -> is_nan x = false -> of_sf (to_sf x) = x.
Proof.
  intros Hx Hn. pose proof (magnitude_bound x Hx).
  assert (Hs : magnitude x + (if sign x then sign_bit else 0) = x)
    by (unfold magnitude; destruct (sign x); lia).
  destruct (to_sf_cases x Hx) as [[Hn' _]|[(_ & Hm & ->)|[(_ & Hm & ->)|(_ & p & e & -> & Hr & Hc)]]].
  - congruence.
  - cbn [of_sf]. lia.
  - cbn [of_sf]. destruct (sign x); lia.
  - cbn [of_sf]. change (2 ^ 52) with 4503599627370496 in *.
    change (2 ^ 53) with 9007199254740992 in *.
    destruct (Z.ltb_spec (Zpos p) 4503599627370496); destruct (sign x); lia.
Qed.
