(* ===== verification/SinkIo.v ===== *)
(** * SinkIo: sinks, queued writes and error policies
    (sink/mod.rs, schedule/core_loop.rs, schedule/runner.rs)

    What the schedule loops do with a sink: the queue a tick fills
    ([TickOutput]), draining it, the accounting of failures in the statistics,
    the rate-limited warnings, and the close markers of a gated scenario. The
    [Sink] trait is a type class over the sink's state. What the code reads
    from its surroundings, the clocks and the cancellation token, is an [Env]:
    the answer to every reading, by the number of readings made before it. *)

From Stdlib Require Import ZArith Lia.
From stdpp Require Import prelude strings list gmap.
From S2P Require Import Prelude Text Metric F64 Stats Windows Durations.

(** ** Errors, events and sinks *)

(** [EncoderError], [SondaError]; a source error is its text. *)
Inductive EncoderError :=
| SerializationFailed (source : string)
| TimestampBeforeEpoch (source : string)
| NotSupported (reason : string)
| EventRejected (reason : string)
| EncoderOther (reason : string).

Inductive SondaError :=
| Config (e : string)
| Encoder (e : EncoderError)
| SinkFailed (io_err : string)
| Generator (e : string)
| Runtime (e : string)
| Verify (e : string).

(** [Severity] and [LogEvent]. *)
Inductive Severity := Trace | Debug_ | Info_ | Warn_ | Error_ | Fatal.

Record LogEvent := mk_log {
  log_timestamp : Z;
  log_severity : Severity;
  log_message : string;
  log_labels : Labels;
  log_fields : list (string * string);
}.

(** The [Sink] trait, over the state of the sink. *)
Class Sink (S : Type) := {
  write : S -> list Z -> result unit SondaError * S;
  flush : S -> result unit SondaError * S;
  last_write_delivered : S -> bool;
  write_log_event : S -> LogEvent -> list Z -> result unit SondaError * S;
  wants_metric_events : S -> bool;
  write_metric_event : S -> MetricEvent -> list Z -> result unit SondaError * S;
}.

(** A sink that keeps the trait's default bodies. *)
Definition default_sink {S : Type} (w : S -> list Z -> result unit SondaError * S)
  (f : S -> result unit SondaError * S) : Sink S := {|
  write := w;
  flush := f;
  last_write_delivered := fun _ => true;
  write_log_event := fun s _ encoded => w s encoded;
  wants_metric_events := fun _ => false;
  write_metric_event := fun s _ encoded => w s encoded;
|}.

(** ** Queued writes *)

(** [WriteCommand]. *)
Inductive WriteCommand :=
| Bytes (bytes : list Z)
| LogWrite (event : LogEvent) (bytes : list Z)
| MetricWrite (event : MetricEvent) (bytes : list Z).

Definition SPARE_BUFFERS : nat := 64.

(** [TickOutput]. *)
Record TickOutput := mk_output {
  writes : list WriteCommand;
  spare : list (list Z);
  rejected : list string;
}.

(** [TickOutput::for_schedule_loop]. *)
Definition for_schedule_loop : TickOutput := mk_output [] [] [].

(** [TickOutput::clear]. *)
Definition clear (o : TickOutput) : TickOutput := mk_output [] (spare o) [].

(** [TickOutput::reject]. *)
Definition reject (o : TickOutput) (reason : string) : TickOutput :=
  mk_output (writes o) (spare o) (rejected o ++ [reason]).

(** [Option::is_some]. *)
Definition is_some {A : Type} (o : option A) : bool := match o with Some _ => true | None => false end.

(** [Vec::pop]. *)
Definition vec_pop {A : Type} (l : list A) : option A * list A := (list.last l, removelast l).

(** [TickOutput::push_metric]; the second component is the buffer left in the
    caller's. *)
Definition output_push_metric (o : TickOutput) (wants_events : bool) (event : MetricEvent)
  (buf : list Z) : TickOutput * list Z :=
  let (recycled, spare') := vec_pop (spare o) in
  let cmd := if wants_events then MetricWrite event buf else Bytes buf in
  (mk_output (writes o ++ [cmd]) spare' (rejected o), default [] recycled).

(** ** The environment *)

Record Env := mk_env {
  instant : nat -> Z;            (* Instant::now() *)
  system_time : nat -> Z;        (* SystemTime::now(), nanoseconds from the epoch *)
  cancel_flag : nat -> bool;     (* cancel.is_cancelled() *)
  cancel_wins : nat -> bool;     (* the cancel branch of a select! completed *)
}.

(** The monotonic clock never goes back. *)
Definition monotonic (env : Env) : Prop :=
  forall n m, (n <= m)%nat -> instant env n <= instant env m.

(** A line on stderr. *)
Inductive Notice :=
| SuppressedErrors (scenario : string) (count : Z) (what last : string)
| FlushFailed (scenario io_err : string).

(** What the loops share: the readings made, the scenario's statistics, the
    sink and what was printed. *)
Record Io (S : Type) := mk_io {
  reads : nat;
  io_stats : option ScenarioStats;
  sink : S;
  stderr : list Notice;
}.
Arguments mk_io {S} _ _ _ _.
Arguments reads {S} _.
Arguments io_stats {S} _.
Arguments sink {S} _.
Arguments stderr {S} _.

Section Policies.
Context {S : Type} `{Sink S} (env : Env).
Implicit Types (w : Io S).

Definition advance w : Io S := mk_io (Datatypes.S (reads w)) (io_stats w) (sink w) (stderr w).
Definition set_stats w (st : option ScenarioStats) : Io S := mk_io (reads w) st (sink w) (stderr w).
Definition set_sink w (s : S) : Io S := mk_io (reads w) (io_stats w) s (stderr w).
Definition print w (n : Notice) : Io S :=
  mk_io (reads w) (io_stats w) (sink w) (stderr w ++ [n]).

(** [if let Some(s) = stats { if let Ok(mut st) = s.write() { .. } }]. *)
Definition with_stats w (f : ScenarioStats -> ScenarioStats) : Io S :=
  set_stats w (f <$> io_stats w).

(** [Instant::now()] and the other readings. *)
Definition now w : Z * Io S := (instant env (reads w), advance w).
Definition system_now w : Z * Io S := (system_time env (reads w), advance w).
Definition cancelled w : bool * Io S := (cancel_flag env (reads w), advance w).
Definition select_cancel w : bool * Io S := (cancel_wins env (reads w), advance w).

(** [t.elapsed()]. *)
Definition elapsed_since w (t : Z) : Z * Io S :=
  let (n, w) := now w in (duration_sat_sub n t, w).

(** ** Rate-limited warnings *)

(** [SINK_WARN_INTERVAL]: 60 seconds. *)
Definition SINK_WARN_INTERVAL : Z := 60 * NANOS_PER_SEC.

Record SinkErrorRateLimiter := mk_limiter { last_emit : option Z; suppressed_count : Z }.

(** [SinkErrorRateLimiter::new]. *)
Definition new_limiter : SinkErrorRateLimiter := mk_limiter None 0.

(** [SinkErrorRateLimiter::record]. *)
Definition record (l : SinkErrorRateLimiter) w (scenario_name what last : string)
  : SinkErrorRateLimiter * Io S :=
  let count := suppressed_count l + 1 in
  let (should_emit, w) :=
    match last_emit l with
    | Some t => let (e, w) := elapsed_since w t in (SINK_WARN_INTERVAL <=? e, w)
    | None => (true, w)
    end in
  if should_emit then
    let w := print w (SuppressedErrors scenario_name count what last) in
    let (n, w) := now w in
    (mk_limiter (Some n) 0, w)
  else (mk_limiter (last_emit l) count, w).

(** [SinkErrorRateLimiter::observe]. *)
Definition observe (l : SinkErrorRateLimiter) w (scenario_name err : string) :=
  record l w scenario_name "sink errors" err.

(** [SinkErrorRateLimiter::observe_rejected]. *)
Definition observe_rejected (l : SinkErrorRateLimiter) w (scenario_name reason : string) :=
  record l w scenario_name "events rejected by the encoder" reason.

(** [CloseLimiters]. *)
Record CloseLimiters := mk_close_limiters {
  limit_sink : SinkErrorRateLimiter;
  limit_rejected : SinkErrorRateLimiter;
}.

(** [CloseLimiters::new]. *)
Definition new_close_limiters : CloseLimiters := mk_close_limiters new_limiter new_limiter.

(** ** Failures in the statistics *)

(** The error counters of [ScenarioStats]. *)
Definition set_failures (s : ScenarioStats) (errs rejected_evs consecutive total : Z)
  (last : option string) : ScenarioStats :=
  mk_stats (total_events s) (bytes_emitted s) (current_rate s) errs rejected_evs
    (in_gap s) (in_burst s) (in_cardinality_spike s) consecutive total last
    (last_successful_write_at s) (current_values s) (state s) (close_emit_series s)
    (last_emit_ts s) (track_close_series s) (last_state_transition_at s)
    (cumulative_resolution_attempts s).

(** [record_sink_failure]. *)
Definition record_sink_failure (s : ScenarioStats) (error : string) : ScenarioStats :=
  set_failures s (u64_sat_add (errors s) 1) (rejected_events s)
    (u64_sat_add (consecutive_failures s) 1) (u64_sat_add (total_sink_failures s) 1) (Some error).

(** The counters [apply_close_emit_policy] updates under [warn]. *)
Definition record_close_failure (s : ScenarioStats) (error : string) : ScenarioStats :=
  set_failures s (u64_sat_add (errors s) 1) (rejected_events s) (consecutive_failures s)
    (u64_sat_add (total_sink_failures s) 1) (Some error).

(** The counters [record_rejected_event] updates. *)
Definition count_rejected (s : ScenarioStats) : ScenarioStats :=
  set_failures s (u64_sat_add (errors s) 1) (u64_sat_add (rejected_events s) 1)
    (consecutive_failures s) (total_sink_failures s) (last_sink_error s).

(** [record_rejected_event]. *)
Definition record_rejected_event (name : string) (l : SinkErrorRateLimiter) w (reason : string)
  : SinkErrorRateLimiter * Io S :=
  let (l, w) := observe_rejected l w name reason in
  (l, with_stats w count_rejected).

(** [OnSinkError] and [FlushNotice]. *)
Inductive OnSinkError := Warn | Fail_.
Inductive FlushNotice := PrintNotice | AlreadyWarned.

(** [apply_shutdown_flush_policy]. *)
Definition apply_shutdown_flush_policy (name : string) (policy : OnSinkError) w
  (flush_result : result unit SondaError) (notice : FlushNotice) : result unit SondaError * Io S :=
  match flush_result with
  | Ok _ => (Ok tt, w)
  | Err (SinkFailed io_err) =>
      match policy with
      | Warn =>
          let w := match notice with
                   | PrintNotice => print w (FlushFailed name io_err)
                   | AlreadyWarned => w
                   end in
          (Ok tt, with_stats w (fun st => record_sink_failure st io_err))
      | Fail_ => (Err (SinkFailed io_err), w)
      end
  | Err other => (Err other, w)
  end.

(** [apply_flush_policy]. *)
Definition apply_flush_policy (name : string) (policy : OnSinkError) w
  (flush_result : result unit SondaError) : result unit SondaError * Io S :=
  apply_shutdown_flush_policy name policy w flush_result PrintNotice.

(** [finalize_sink]. *)
Definition finalize_sink (name : string) (policy : OnSinkError) w
  (loop_result : result unit SondaError) : result unit SondaError * Io S :=
  match loop_result with
  | Ok _ =>
      let (flush_result, s) := flush (sink w) in
      apply_flush_policy name policy (set_sink w s) flush_result
  | Err e => (Err e, w)
  end.

(** ** Draining the queue *)

(** One command, written through the method its kind has. *)
Definition write_command (s : S) (cmd : WriteCommand) : result unit SondaError * S :=
  match cmd with
  | Bytes bytes => write s bytes
  | LogWrite event bytes => write_log_event s event bytes
  | MetricWrite event bytes => write_metric_event s event bytes
  end.

(** What becomes of its buffer. *)
Definition recycle (cmd : WriteCommand) (spare : list (list Z)) : list (list Z) :=
  match cmd with
  | Bytes _ | MetricWrite _ _ =>
      if (length spare <? SPARE_BUFFERS)%nat then spare ++ [[]] else spare
  | LogWrite _ _ => spare
  end.

Fixpoint drain_loop (cmds : list WriteCommand) (spare : list (list Z)) (delivered : option bool)
  (s : S) : result (option bool) SondaError * list (list Z) * S :=
  match cmds with
  | [] => (Ok delivered, spare, s)
  | cmd :: cmds =>
      let (written, s) := write_command s cmd in
      let spare := recycle cmd spare in
      match written with
      | Err e => (Err e, spare, s)
      | Ok _ => drain_loop cmds spare (Some (last_write_delivered s)) s
      end
  end.

(** [drain_writes]. *)
Definition drain_writes (o : TickOutput) w
  : result (option bool) SondaError * TickOutput * Io S :=
  let '(r, spare', s) := drain_loop (writes o) (spare o) None (sink w) in
  (r, mk_output [] spare' (rejected o), set_sink w s).

(** ** Close markers *)

(** [apply_close_emit_policy]. *)
Definition apply_close_emit_policy (name : string) (policy : OnSinkError) (l : CloseLimiters) w
  (err : SondaError) : result unit SondaError * CloseLimiters * Io S :=
  match err with
  | Encoder (EventRejected reason) =>
      let (lr, w) := record_rejected_event name (limit_rejected l) w reason in
      (Ok tt, mk_close_limiters (limit_sink l) lr, w)
  | SinkFailed io_err =>
      match policy with
      | Warn =>
          let (ls, w) := observe (limit_sink l) w name io_err in
          (Ok tt, mk_close_limiters ls (limit_rejected l),
           with_stats w (fun st => record_close_failure st io_err))
      | Fail_ => (Err (SinkFailed io_err), l, w)
      end
  | other => (Err other, l, w)
  end.

(** [apply_close_emit_policy_flush]. *)
Definition apply_close_emit_policy_flush (name : string) (policy : OnSinkError) (l : CloseLimiters)
  w (flush_result : result unit SondaError) : result unit SondaError * CloseLimiters * Io S :=
  match flush_result with
  | Ok _ => (Ok tt, l, w)
  | Err e => apply_close_emit_policy name policy l w e
  end.

(** The rejected markers' loop of [invoke_close_emit]. *)
Fixpoint reject_markers (name : string) (policy : OnSinkError) (reasons : list string)
  (l : CloseLimiters) w : result unit SondaError * CloseLimiters * Io S :=
  match reasons with
  | [] => (Ok tt, l, w)
  | reason :: reasons =>
      match apply_close_emit_policy name policy l w (Encoder (EventRejected reason)) with
      | (Err e, l, w) => (Err e, l, w)
      | (Ok _, l, w) => reject_markers name policy reasons l w
      end
  end.

(** A [CloseEmitFn]: it shares the statistics and may read the wall clock. *)
Definition CloseEmitFn : Type := TickOutput -> Io S -> result unit SondaError * TickOutput * Io S.

(** [invoke_close_emit]. *)
Definition invoke_close_emit (name : string) (policy : OnSinkError) (l : CloseLimiters)
  (close_emit : option CloseEmitFn) (o : TickOutput) w
  : result unit SondaError * CloseLimiters * TickOutput * Io S :=
  match close_emit with
  | None => (Ok tt, l, o, w)
  | Some emit =>
      let '(emitted, o, w) := emit (clear o) w in
      let '(outcome, o, w) :=
        match emitted with
        | Ok _ => let '(r, o, w) := drain_writes o w in
                  (match r with Ok _ => Ok tt | Err e => Err e end, o, w)
        | Err e => (Err e, o, w)
        end in
      let reasons := rejected o in
      let o := mk_output (writes o) (spare o) [] in
      match reject_markers name policy reasons l w with
      | (Err e, l, w) => (Err e, l, o, w)
      | (Ok _, l, w) =>
          let '(r, l, w) :=
            match outcome with
            | Ok _ =>
                let (flush_result, s) := flush (sink w) in
                apply_close_emit_policy_flush name policy l (set_sink w s) flush_result
            | Err e => apply_close_emit_policy name policy l w e
            end in
          (r, l, o, w)
      end
  end.

(** [CloseSignal] and [PROMETHEUS_STALE_NAN]. *)
Inductive CloseSignal := StaleMarker | SnapTo (v : f64).
Definition PROMETHEUS_STALE_NAN : f64 := 9218868437227405314.

(** [DelayClause]. *)
Record DelayClause := mk_delay {
  delay_open_ : option Z;
  delay_close_ : option Z;
  close_stale_marker : option bool;
  close_snap_to : option f64;
}.

(** [Encoder::encode_metric], of the encoder the scenario configures. *)
Variable encode_metric : MetricEvent -> result (list Z) SondaError.

(** The marker of one series, and the loop over the series of
    [make_close_emitter], in the order the hash set yields them. *)
Fixpoint close_markers (value : f64) (wants_events : bool) (close_ts : Z)
  (series : list MetricKey) (o : TickOutput) : result unit SondaError * TickOutput :=
  match series with
  | [] => (Ok tt, o)
  | (name, labels) :: series =>
      let marker := from_parts name value labels close_ts in
      match encode_metric marker with
      | Ok buf =>
          close_markers value wants_events close_ts series
            (output_push_metric o wants_events marker buf).1
      | Err (Encoder (EventRejected reason)) =>
          close_markers value wants_events close_ts series (reject o reason)
      | Err other => (Err other, o)
      end
  end.

(** The closure of [make_close_emitter]; the order in which the drained set
    yields its elements is the argument [order]. A watermark within a
    millisecond of the end of [SystemTime] is not modelled. *)
Definition make_close_emitter (order : gset MetricKey -> list MetricKey) (signal : CloseSignal)
  (wants_events : bool) : CloseEmitFn := fun o w =>
  let value := match signal with StaleMarker => PROMETHEUS_STALE_NAN | SnapTo v => v end in
  match io_stats w with
  | None => (Ok tt, o, w)
  | Some st =>
      let '((series, watermark), st) := drain_close_emit_series st in
      let w := set_stats w (Some st) in
      let (close_ts, w) := match watermark with
                           | Some max_recent => (max_recent + 1000000, w)
                           | None => system_now w
                           end in
      let (r, o) := close_markers value wants_events close_ts (order series) o in
      (r, o, w)
  end.

(** [build_close_emit]; [is_remote_write] is whether the scenario's sink is
    [SinkConfig::RemoteWrite]. *)
Definition build_close_emit (order : gset MetricKey -> list MetricKey) (is_remote_write : bool)
  (delay : option DelayClause) w : option CloseEmitFn * Io S :=
  match io_stats w with
  | None => (None, w)
  | Some st =>
      let user_explicitly_disabled :=
        match (let! d := delay in close_stale_marker d) with
        | Some false => true | _ => false end in
      let user_snap := let! d := delay in close_snap_to d in
      let should_build :=
        if is_remote_write then is_some user_snap || negb user_explicitly_disabled
        else is_some user_snap in
      if negb should_build then (None, w)
      else
        let signal := match user_snap with Some v => SnapTo v | None => StaleMarker end in
        let w := set_stats w (Some (enable_close_series_tracking st)) in
        (Some (make_close_emitter order signal (wants_metric_events (sink w))), w)
  end.
End Policies.

(** ** Spare buffers *)

(** What the spare list promises: it is bounded, and a recycled buffer is
    empty. *)
Definition spare_ok (o : TickOutput) : Prop :=
  (length (spare o) <= SPARE_BUFFERS)%nat /\ Forall (fun b => b = []) (spare o).

Lemma recycle_ok cmd sp :
  (length sp <= SPARE_BUFFERS)%nat /\ Forall (fun b => b = []) sp ->
  (length (recycle cmd sp) <= SPARE_BUFFERS)%nat /\ Forall (fun b => b = []) (recycle cmd sp).
Proof.
  intros [Hl Hf]. unfold recycle.
  destruct cmd; [destruct (Nat.ltb_spec (length sp) SPARE_BUFFERS)|done|
    destruct (Nat.ltb_spec (length sp) SPARE_BUFFERS)]; split; try done;
    rewrite ?length_app, ?Forall_app; cbn; try lia; split; try done; by repeat constructor.
Qed.

Lemma drain_loop_ok {S} `{Sink S} cmds sp d s :
  (length sp <= SPARE_BUFFERS)%nat /\ Forall (fun b => b = []) sp ->
  let sp' := (drain_loop cmds sp d s).1.2 in
  (length sp' <= SPARE_BUFFERS)%nat /\ Forall (fun b => b = []) sp'.
Proof.
  revert sp d s. induction cmds as [|cmd cmds IH]; intros sp d s Hok; cbn; [done|].
  destruct (write_command s cmd) as [[[]|e] s']; cbn.
  - apply IH. by apply recycle_ok.
  - by apply recycle_ok.
Qed.

Lemma drain_writes_ok {S} `{Sink S} o (w : Io S) : spare_ok o -> spare_ok (drain_writes o w).1.2.
Proof.
  intros Hok. pose proof (drain_loop_ok (writes o) (spare o) None (sink w) Hok) as Hd.
  unfold drain_writes. by destruct (drain_loop _ _ _ _) as [[r sp] s].
Qed.

(** A metric queued gives back an empty buffer. *)
Lemma push_metric_ok o wants e buf :
  spare_ok o ->
  spare_ok (output_push_metric o wants e buf).1 /\ (output_push_metric o wants e buf).2 = [].
Proof.
  intros [Hl Hf]. unfold output_push_metric, vec_pop, spare_ok. cbn [fst snd spare].
  induction (spare o) as [|b sp _] using rev_ind.
  - cbn. split; [split; [lia|constructor]|done].
  - rewrite removelast_last, last_snoc. apply Forall_app in Hf as [Hf Hb].
    rewrite length_app in Hl. cbn in *. inversion Hb; subst. split; [split|]; [lia|done|done].
Qed.

(** ** The warnings of a scenario *)

Section limiter.
Context {S : Type} `{Sink S} (env : Env) (Hmono : monotonic env) (name what : string).
Implicit Types (w : Io S).

(** A history of errors, each after some readings of the rest of the code. *)
Fixpoint record_all (l : SinkErrorRateLimiter) w (errs : list (nat * string))
  : SinkErrorRateLimiter * Io S :=
  match errs with
  | [] => (l, w)
  | (gap, e) :: errs =>
      let w := Nat.iter gap advance w in
      let (l, w) := record env l w name what e in record_all l w errs
  end.

(** The errors the lines printed account for. *)
Definition counted (ns : list Notice) : Z :=
  foldr (fun n acc => match n with SuppressedErrors _ c _ _ => c | FlushFailed _ _ => 0 end + acc) 0 ns.

Lemma counted_app a b : counted (a ++ b) = counted a + counted b.
Proof. unfold counted. induction a as [|n a IH]; cbn in *; [lia|]. rewrite IH. lia. Qed.

Lemma iter_advance gap w :
  reads (Nat.iter gap advance w) = (gap + reads w)%nat /\
  stderr (Nat.iter gap advance w) = stderr w.
Proof. induction gap as [|gap [IH1 IH2]]; [done|]. split; [exact (f_equal Datatypes.S IH1)|done]. Qed.

(** What [n] recordings leave: the notices [ns] they printed account with the
    suppressed count for every error, and are a warning interval apart. *)
Definition recorded (l : SinkErrorRateLimiter) w (l' : SinkErrorRateLimiter) w' (n : nat) : Prop :=
  exists ns, stderr w' = stderr w ++ ns /\ (reads w <= reads w')%nat /\
    counted ns + suppressed_count l' = suppressed_count l + Z.of_nat n /\
    match last_emit l' with
    | Some t' => t' <= instant env (reads w') /\
        match last_emit l with
        | Some t => Z.of_nat (length ns) * SINK_WARN_INTERVAL <= t' - t
        | None => instant env (reads w) <= t' /\ (0 < length ns)%nat /\
            (Z.of_nat (length ns) - 1) * SINK_WARN_INTERVAL <= t' - instant env (reads w)
        end
    | None => n = O /\ last_emit l = None /\ ns = []
    end.

Lemma recorded_one l w e :
  match last_emit l with Some t => t <= instant env (reads w) | None => True end ->
  recorded l w (record env l w name what e).1 (record env l w name what e).2 1.
Proof.
  intros Ht. unfold record, elapsed_since, now, advance, print, duration_sat_sub, recorded.
  assert (Hm : forall a b, (a <= b)%nat -> instant env a <= instant env b) by apply Hmono.
  pose proof (Hm (reads w) (1 + reads w)%nat ltac:(lia)) as H1.
  pose proof (Hm (1 + reads w)%nat (2 + reads w)%nat ltac:(lia)) as H2. cbn in H1, H2.
  destruct (last_emit l) as [t|] eqn:E; cbn.
  - destruct (Z.leb_spec SINK_WARN_INTERVAL (Z.max 0 (instant env (reads w) - t))); cbn.
    + eexists. split; [done|]. cbn. unfold SINK_WARN_INTERVAL in *. lia.
    + exists []. rewrite app_nil_r. split; [done|]. cbn. lia.
  - eexists. split; [done|]. cbn. lia.
Qed.

Lemma recorded_trans l w l1 w1 l2 w2 n m :
  recorded l w l1 w1 n -> recorded l1 w1 l2 w2 m -> recorded l w l2 w2 (n + m).
Proof.
  unfold recorded. intros (ns & E1 & R1 & C1 & T1) (ms & E2 & R2 & C2 & T2).
  exists (ns ++ ms). rewrite E2, E1, app_assoc, counted_app, length_app.
  unfold SINK_WARN_INTERVAL in *.
  pose proof (Hmono _ _ R1). pose proof (Hmono _ _ R2).
  split; [done|]. split; [lia|]. split; [lia|].
  destruct (last_emit l2), (last_emit l1), (last_emit l); destruct_and?; simplify_eq/=;
    split_and?; done || lia.
Qed.

Lemma recorded_skip l w gap :
  match last_emit l with Some t => t <= instant env (reads w) | None => True end ->
  match last_emit l with
  | Some t => t <= instant env (reads (Nat.iter gap advance w)) | None => True end.
Proof.
  intros Ht. destruct (last_emit l); [|done]. rewrite (proj1 (iter_advance gap w)).
  pose proof (Hmono (reads w) (gap + reads w)%nat ltac:(lia)). lia.
Qed.
Lemma record_all_recorded errs l w :
  match last_emit l with Some t => t <= instant env (reads w) | None => True end ->
  recorded l w (record_all l w errs).1 (record_all l w errs).2 (length errs).
Proof.
  revert l w. induction errs as [|[gap e] errs IH]; intros l w Ht; cbn [record_all length].
  - exists []. rewrite app_nil_r. cbn. split; [done|]. split; [lia|]. split; [lia|].
    by destruct (last_emit l); [split; [done|lia]|].
  - destruct (iter_advance gap w) as [Hr Hs].
    pose proof (recorded_one l (Nat.iter gap advance w) e (recorded_skip _ _ _ Ht)) as H1.
    destruct (record env l _ name what e) as [l1 w1]. cbn [fst snd] in H1 |- *.
    change (Datatypes.S (length errs)) with (1 + length errs)%nat.
    apply (recorded_trans _ _ l1 w1).
    + destruct H1 as (ns & E & R & C & T). exists ns. rewrite Hs in E.
      pose proof (Hmono (reads w) (reads (Nat.iter gap advance w)) ltac:(lia)).
      split; [done|]. split; [lia|]. split; [lia|].
      destruct (last_emit l1), (last_emit l); destruct_and?; split_and?; done || lia.
    + apply IH. destruct H1 as (ns & E & R & C & T). by destruct (last_emit l1); [destruct_and?|].
Qed.

(** The scenario's warnings neither flood nor lose. However many errors are
    recorded and whatever the rest of the code does between them, the first is
    printed, the lines printed (with the count still suppressed) account for
    every error, and [n] lines take at least [n - 1] warning intervals of 60 s. *)
Theorem warnings_limited errs w :
  exists ns, stderr (record_all new_limiter w errs).2 = stderr w ++ ns /\
    counted ns + suppressed_count (record_all new_limiter w errs).1 = Z.of_nat (length errs) /\
    (errs <> [] -> ns <> []) /\
    (Z.of_nat (length ns) - 1) * SINK_WARN_INTERVAL <=
      instant env (reads (record_all new_limiter w errs).2) - instant env (reads w).
Proof.
  destruct (record_all_recorded errs new_limiter w I) as (ns & E & R & C & T).
  exists ns. split; [done|]. split; [cbn in C; lia|]. pose proof (Hmono _ _ R).
  destruct (last_emit (record_all new_limiter w errs).1) as [t|].
  - cbn in T. split; [intros _ ->; cbn in T; lia|]. unfold SINK_WARN_INTERVAL in *. lia.
  - destruct T as (Hn & _ & ->). split; [by destruct errs|].
    unfold SINK_WARN_INTERVAL. cbn. lia.
Qed.
End limiter.

(** A clock of one second a reading, and a sink that discards. *)
Definition second_env : Env :=
  mk_env (fun n => Z.of_nat n * 1000000000) (fun n => Z.of_nat n * 1000000000)
    (fun _ => false) (fun _ => false).

#[local] Instance null_sink : Sink unit := default_sink (fun s _ => (Ok tt, s)) (fun s => (Ok tt, s)).

Lemma second_env_monotonic : monotonic second_env.
Proof. intros n m Hnm. cbn. lia. Qed.

Lemma warnings_limited_witness :
  let errs := replicate 100 (0%nat, "refused"%string) in
  length (stderr (record_all second_env "s" "sink errors" new_limiter (mk_io 0 None tt []) errs).2)
    = 2%nat /\
  exists ns, stderr (record_all second_env "s" "sink errors" new_limiter (mk_io 0 None tt []) errs).2
    = [] ++ ns /\
    counted ns + suppressed_count
      (record_all second_env "s" "sink errors" new_limiter (mk_io 0 None tt []) errs).1 = 100.
Proof.
  split; [vm_compute; reflexivity|].
  destruct (warnings_limited second_env second_env_monotonic "s" "sink errors"
    (replicate 100 (0%nat, "refused"%string)) (mk_io 0 None tt [])) as (ns & E & C & _).
  exists ns. split; [exact E|exact C].
Defined.

(** ** Close markers *)

Section markers.
Context {S : Type} `{Sink S} (env : Env).
Context (encode_metric : MetricEvent -> result (list Z) SondaError).
Context (order : gset MetricKey -> list MetricKey).

(** The iterator of a hash set yields every element once, in some order. *)
Context (Horder : forall s, order s ≡ₚ elements s).

(** The encoder accepts an event or rejects it; it does not fail otherwise. *)
Context (Henc : forall e, match encode_metric e with
  | Ok _ | Err (Encoder (EventRejected _)) => True | Err _ => False end).

(** The write queued for a marker, and the reason of a rejected one. *)
Definition marker_write (wants : bool) (m : MetricEvent) : option WriteCommand :=
  match encode_metric m with
  | Ok buf => Some (if wants then MetricWrite m buf else Bytes buf)
  | Err _ => None
  end.

Definition marker_reason (m : MetricEvent) : option string :=
  match encode_metric m with Err (Encoder (EventRejected r)) => Some r | _ => None end.

Definition marker (value : f64) (ts : Z) (k : MetricKey) : MetricEvent :=
  from_parts k.1 value k.2 ts.

Lemma close_markers_spec value wants ts series o :
  let ms := marker value ts <$> series in
  (close_markers encode_metric value wants ts series o).1 = Ok tt /\
  writes (close_markers encode_metric value wants ts series o).2
    = writes o ++ omap (marker_write wants) ms /\
  rejected (close_markers encode_metric value wants ts series o).2
    = rejected o ++ omap marker_reason ms.
Proof.
  revert o. induction series as [|[n ls] series IH]; intros o; cbn [close_markers].
  - cbn. by rewrite !app_nil_r.
  - change (from_parts n value ls ts) with (marker value ts (n, ls)).
    rewrite fmap_cons. cbn [omap list_omap].
    pose proof (Henc (marker value ts (n, ls))) as He.
    unfold marker_write at 1, marker_reason at 1.
    destruct (encode_metric (marker value ts (n, ls))) as [buf|[|[]| | | |]]; try done;
      edestruct IH as (-> & -> & ->); split_and!; try done; cbn; by rewrite <- app_assoc.
Qed.

Lemma push_all_tracked evs st :
  track_close_series st = true ->
  close_emit_series (push_all st evs)
    = list_to_set (event_key <$> evs) ∪ close_emit_series st /\
  last_emit_ts (push_all st evs)
    = match list.last evs with Some e => Some (ev_timestamp e) | None => last_emit_ts st end /\
  track_close_series (push_all st evs) = true.
Proof.
  intros Ht. induction evs as [|e evs (IH1 & IH2 & IH3)] using rev_ind.
  - cbn. split_and!; [set_solver|done|done].
  - rewrite push_all_snoc, last_snoc, fmap_app. unfold push_metric. rewrite IH3. cbn.
    rewrite IH1. split_and!; [set_solver|done|done].
Qed.

(** The emitter, on statistics that recorded the events [evs] since the last
    close. *)
Lemma close_emitter_spec signal wants st evs e (w : Io S) o :
  track_close_series st = true -> close_emit_series st = ∅ -> list.last evs = Some e ->
  io_stats w = Some (push_all st evs) ->
  let value := match signal with StaleMarker => PROMETHEUS_STALE_NAN | SnapTo v => v end in
  let ms := marker value (ev_timestamp e + 1000000)
              <$> order (list_to_set (event_key <$> evs)) in
  exists o' w', make_close_emitter env encode_metric order signal wants o w = (Ok tt, o', w') /\
    writes o' = writes o ++ omap (marker_write wants) ms /\
    rejected o' = rejected o ++ omap marker_reason ms /\
    sink w' = sink w /\
    exists st', io_stats w' = Some st' /\ close_emit_series st' = ∅ /\ last_emit_ts st' = None /\
      track_close_series st' = true /\ current_values st' = current_values (push_all st evs).
Proof.
  intros Ht Hs Hl Hw. destruct (push_all_tracked evs st Ht) as (E1 & E2 & E3). cbn zeta.
  unfold make_close_emitter. rewrite Hw. unfold drain_close_emit_series. rewrite E1, E2, E3, Hl, Hs.
  rewrite (right_id_L ∅ union).
  destruct (close_markers_spec (match signal with StaleMarker => PROMETHEUS_STALE_NAN | SnapTo v => v end)
    wants (ev_timestamp e + 1000000) (order (list_to_set (event_key <$> evs))) o) as (H1 & H2 & H3).
  destruct (close_markers _ _ _ _ _ _) as [r o'] eqn:E. cbn in H1, H2, H3. subst r.
  eexists o', _. split; [done|]. rewrite H2, H3. split_and!; [done|done|done|].
  eexists. split; [done|]. done.
Qed.

(** A gate that closes recovers every series exactly once. With an encoder
    that accepts or rejects, the emitter queues one marker for each series
    active since the last close and no other, a rejected one is reported and
    costs no other its marker; each marker is later than every event of the
    series since then; a second close without events in between queues
    nothing; and the values a scrape sees are untouched. *)
Theorem close_marks_every_series signal wants st evs e (w : Io S) o
  (Ht : track_close_series st = true) (Hs : close_emit_series st = ∅)
  (Hl : list.last evs = Some e) (Hw : io_stats w = Some (push_all st evs))
  (Hts : forall x, x ∈ evs -> ev_timestamp x <= ev_timestamp e) :
  exists o' w' ms,
    make_close_emitter env encode_metric order signal wants (clear o) w = (Ok tt, o', w') /\
    writes o' = omap (marker_write wants) ms /\ rejected o' = omap marker_reason ms /\
    NoDup (event_key <$> ms) /\
    (forall k, k ∈ (event_key <$> ms) <-> k ∈ (event_key <$> evs)) /\
    (forall m x, m ∈ ms -> x ∈ evs -> ev_timestamp x < ev_timestamp m) /\
    (exists o'' w'', make_close_emitter env encode_metric order signal wants (clear o') w'
       = (Ok tt, o'', w'') /\ writes o'' = [] /\ rejected o'' = []) /\
    current_values <$> io_stats w' = current_values <$> io_stats w.
Proof.
  destruct (close_emitter_spec signal wants st evs e w (clear o) Ht Hs Hl Hw)
    as (o' & w' & E & W & R & _ & st' & E' & S1 & S2 & S3 & S4).
  eexists o', w', _. split; [exact E|]. split; [exact W|]. split; [exact R|].
  rewrite <- list_fmap_compose.
  assert (Hk : forall v ts (l : list MetricKey), (event_key ∘ marker v ts) <$> l = l).
  { intros v ts l. rewrite <- (list_fmap_id l) at 2. apply list_fmap_ext. by intros i [n ls]. }
  rewrite Hk, (Horder _). split_and!.
  - apply NoDup_elements.
  - intros k. rewrite (Horder _), elem_of_elements, elem_of_list_to_set. done.
  - intros m x (k & -> & _)%list_elem_of_fmap Hx. specialize (Hts x Hx). cbn. lia.
  - unfold make_close_emitter at 1. rewrite E'. unfold drain_close_emit_series.
    rewrite S1, S2, S3.
    assert (order ∅ = []) as ->
      by (apply Permutation_nil_r; rewrite (Horder ∅), elements_empty; done).
    by eexists _, _.
  - rewrite E', Hw. cbn. by rewrite S4.
Qed.
End markers.

Lemma close_marks_every_series_witness :
  let ev n t := mk_event n 1 (mk_labels []) t in
  let evs := [ev "up" 5; ev "down" 6; ev "up" 7]%string in
  let st := enable_close_series_tracking default_stats in
  let enc (e : MetricEvent) : result (list Z) SondaError := Ok [ev_timestamp e] in
  exists o' w' ms,
    make_close_emitter second_env enc elements StaleMarker false (clear for_schedule_loop)
      (mk_io 0 (Some (push_all st evs)) tt []) = (Ok tt, o', w') /\
    writes o' = omap (marker_write enc false) ms /\ writes o' = [Bytes [1000007]; Bytes [1000007]].
Proof.
  intros ev evs st enc.
  destruct (close_marks_every_series second_env enc elements (fun s => Permutation_refl _)
    (fun e => I) StaleMarker false st evs (ev "up"%string 7)
    (mk_io 0 (Some (push_all st evs)) tt []) for_schedule_loop eq_refl eq_refl eq_refl eq_refl)
    as (o' & w' & ms & E & W & _).
  { unfold evs. intros x Hx. rewrite !elem_of_cons, elem_of_nil in Hx.
    destruct Hx as [->|[->|[->|[]]]]; cbn; lia. }
  exists o', w', ms. split; [exact E|]. split; [exact W|].
  clear W. vm_compute in E. injection E as <- _. reflexivity.
Defined.
