(* ===== verification/Rounding.v ===== *)
(** * Rounding: binary64 as correct rounding

    A finite magnitude is a number of units, of [2 ^ -1074] each. [round_units]
    is the magnitude nearest to a fraction of units, a tie going to the even
    one; this file says what that means ([round_units_ge], [round_units_le],
    [round_units_mono], [round_units_exact]) and that the operations of
    [Durations], which are the standard library's specification floats, round
    the exact result ([mul_rounds], [div_rounds], [add_rounds], [of_u64_rounds]). *)

From Stdlib Require Import ZArith Lia.
From Corelib Require Import Floats.SpecFloat.
From stdpp Require Import prelude numbers.
From S2P Require Import Prelude F64 Windows Durations.

(** ** The nearest integer *)

Lemma rhe_spec n d :
  0 < d ->
  let q := round_half_even n d in
  - d <= 2 * (n - q * d) <= d /\ (Z.abs (2 * (n - q * d)) = d -> Z.even q = true).
Proof.
  intros Hd q. subst q. unfold round_half_even.
  pose proof (Z_div_mod_eq_full n d). pose proof (Z.mod_pos_bound n d Hd).
  set (q := n / d) in *. set (r := n mod d) in *.
  destruct (Z.ltb_spec (2 * r) d); [nia|].
  destruct (Z.ltb_spec d (2 * r)); [nia|].
  destruct (Z.even q) eqn:He; [split; [nia|done]|].
  split; [nia|]. intros _. by rewrite Z.even_add, He.
Qed.

(** The nearest integer is the only one at most a half away, ties aside. *)
Lemma rhe_unique n d q :
  0 < d -> - d <= 2 * (n - q * d) <= d ->
  (Z.abs (2 * (n - q * d)) = d -> Z.even q = true) ->
  round_half_even n d = q.
Proof.
  intros Hd Hq Ht. destruct (rhe_spec n d Hd) as [Hr Hs]. set (p := round_half_even n d) in *.
  destruct (Z.lt_trichotomy p q) as [H|[H|H]]; [|done|].
  - assert (p + 1 = q) by nia. subst q.
    assert (Z.even p = true) by (apply Hs; nia).
    assert (Z.even (p + 1) = true) by (apply Ht; nia).
    rewrite Z.even_add in *. destruct (Z.even p); discriminate.
  - assert (q + 1 = p) by nia. rewrite <- H0 in *.
    assert (Z.even q = true) by (apply Ht; nia).
    assert (Z.even (q + 1) = true) by (apply Hs; nia).
    rewrite Z.even_add in *. destruct (Z.even q); discriminate.
Qed.

Lemma rhe_mono n d n' d' :
  0 < d -> 0 < d' -> n * d' <= n' * d -> round_half_even n d <= round_half_even n' d'.
Proof.
  intros Hd Hd' Hle. destruct (rhe_spec n d Hd) as [Hr Hs], (rhe_spec n' d' Hd') as [Hr' Hs'].
  set (p := round_half_even n d) in *. set (q := round_half_even n' d') in *.
  destruct (Z.le_gt_cases p q) as [H|H]; [done|]. exfalso.
  assert (H1 : (2 * p - 1) * d * d' <= 2 * n * d') by (apply Z.mul_le_mono_nonneg_r; lia).
  assert (H2 : 2 * n' * d <= (2 * q + 1) * d' * d) by (apply Z.mul_le_mono_nonneg_r; lia).
  assert (H3 : p = q + 1) by nia. clearbody p q. subst p.
  assert (Hp : Z.even (q + 1) = true) by (apply Hs; nia).
  assert (Hq : Z.even q = true) by (apply Hs'; nia).
  rewrite Z.even_add in Hp. destruct (Z.even q); discriminate.
Qed.

Lemma rhe_scale n d c : 0 < d -> 0 < c -> round_half_even (n * c) (d * c) = round_half_even n d.
Proof.
  intros Hd Hc.
  apply Z.le_antisymm; apply rhe_mono; first [by apply Z.mul_pos_pos | done | apply Z.eq_le_incl; ring].
Qed.

Lemma rhe_int q d : 0 < d -> round_half_even (q * d) d = q.
Proof. intros Hd. apply rhe_unique; [done|lia|lia]. Qed.

Lemma rhe_ge n d q : 0 < d -> q * d <= n -> q <= round_half_even n d.
Proof. intros Hd H. rewrite <- (rhe_int q d Hd). apply rhe_mono; nia. Qed.

Lemma rhe_le n d q : 0 < d -> n <= q * d -> round_half_even n d <= q.
Proof. intros Hd H. rewrite <- (rhe_int q d Hd). apply rhe_mono; nia. Qed.

(** ** Magnitudes as numbers of units *)

Abbreviation P52 := 4503599627370496.
Abbreviation P53 := 9007199254740992.

Definition units (k : Z) : Z :=
  if k <? P52 then k else (P52 + k mod P52) * 2 ^ (k / P52 - 1).

(** The pattern before the limit at infinity is applied. *)
Definition binade (n d : Z) : Z := Z.max 0 (Z.log2 (n / d) - 52).
Definition nearest (n d : Z) : Z :=
  binade n d * P52 + round_half_even n (d * 2 ^ binade n d).

Definition round_units (n d : Z) : Z := Z.min inf_bits (nearest n d).

Lemma pow2_pos e : 0 <= e -> 0 < 2 ^ e.
Proof. intros. apply Z.pow_pos_nonneg; lia. Qed.

Lemma units_scaled e r :
  0 <= e -> 0 <= r <= P53 -> (e = 0 \/ P52 <= r) -> units (e * P52 + r) = r * 2 ^ e.
Proof.
  intros He Hr Hc. unfold units.
  destruct (Z.ltb_spec (e * P52 + r) P52) as [Hl|Hl].
  - assert (e = 0) by lia. subst e. lia.
  - pose proof (Z_div_mod_eq_full (e * P52 + r) P52) as Hd.
    pose proof (Z.mod_pos_bound (e * P52 + r) P52 ltac:(lia)) as Hm.
    set (q := (e * P52 + r) / P52) in *. set (m := (e * P52 + r) mod P52) in *.
    destruct (decide (r = P53)) as [->|Hne].
    + assert (q = e + 2 /\ m = 0) as [-> ->] by lia.
      replace (e + 2 - 1) with (Z.succ e) by lia. rewrite Z.pow_succ_r by lia. lia.
    + assert (q = e + 1 /\ m = r - P52) as [-> ->] by lia.
      replace (e + 1 - 1) with e by lia. lia.
Qed.

(** A magnitude, split at its exponent. *)
Lemma split_binade k :
  0 <= k -> exists e r, 0 <= e /\ 0 <= r < P53 /\ (e = 0 \/ P52 <= r) /\ k = e * P52 + r.
Proof.
  intros Hk. pose proof (Z_div_mod_eq_full k P52). pose proof (Z.mod_pos_bound k P52 ltac:(lia)).
  pose proof (Z.div_pos k P52 ltac:(lia) ltac:(lia)).
  destruct (decide (k / P52 = 0)).
  - exists 0, k. lia.
  - exists (k / P52 - 1), (P52 + k mod P52). lia.
Qed.

Lemma units_step k : 0 <= k -> units k < units (k + 1).
Proof.
  intros Hk. destruct (split_binade k Hk) as (e & r & He & Hr & Hc & ->).
  rewrite <- Z.add_assoc, !units_scaled by lia. pose proof (pow2_pos e He). nia.
Qed.

Lemma units_mono k k' : 0 <= k <= k' -> units k <= units k'.
Proof.
  intros [Hk Hle]. replace k' with (k + Z.of_nat (Z.to_nat (k' - k))) by lia.
  induction (Z.to_nat (k' - k)) as [|n IH]; [by rewrite Z.add_0_r|].
  replace (k + Z.of_nat (S n)) with (k + Z.of_nat n + 1) by lia.
  pose proof (units_step (k + Z.of_nat n) ltac:(lia)). lia.
Qed.

Lemma units_nonneg k : 0 <= k -> 0 <= units k.
Proof. intros Hk. pose proof (units_mono 0 k ltac:(lia)). change (units 0) with 0 in *. lia. Qed.

Lemma units_lt k k' : 0 <= k -> 0 <= k' -> units k < units k' <-> k < k'.
Proof.
  intros Hk Hk'. split; intros H.
  - destruct (Z.le_gt_cases k' k); [|done]. pose proof (units_mono k' k ltac:(lia)). lia.
  - pose proof (units_step k Hk). pose proof (units_mono (k + 1) k' ltac:(lia)). lia.
Qed.

(** ** The nearest magnitude *)

Section nearest.
Context (n d : Z) (Hn : 0 <= n) (Hd : 0 < d).

Lemma binade_nonneg : 0 <= binade n d.
Proof. unfold binade. lia. Qed.

Lemma nearest_range :
  0 <= round_half_even n (d * 2 ^ binade n d) <= P53 /\
  (binade n d = 0 \/ P52 * (d * 2 ^ binade n d) <= n /\
     P52 <= round_half_even n (d * 2 ^ binade n d)) /\
  n < P53 * (d * 2 ^ binade n d).
Proof.
  pose proof binade_nonneg as He. pose proof (pow2_pos _ He) as Hp.
  pose proof (Z_div_mod_eq_full n d) as Hdm. pose proof (Z.mod_pos_bound n d Hd) as Hm.
  assert (Hq : 0 <= n / d) by (apply Z.div_pos; lia).
  assert (Hup : n / d < P53 * 2 ^ binade n d).
  { destruct (decide (n / d = 0)) as [->|Hne]; [lia|].
    pose proof (Z.log2_spec (n / d) ltac:(lia)) as [_ Hlog].
    eapply Z.lt_le_trans; [exact Hlog|]. change P53 with (2 ^ 53). rewrite <- Z.pow_add_r by lia.
    apply Z.pow_le_mono_r; [lia|]. unfold binade. lia. }
  assert (Hlo : binade n d = 0 \/ P52 * 2 ^ binade n d <= n / d).
  { destruct (decide (binade n d = 0)) as [|Hne]; [by left|right].
    assert (Hlg : Z.log2 (n / d) = 52 + binade n d) by (unfold binade in *; lia).
    assert (0 < n / d) by (destruct (decide (n / d = 0)) as [E|]; [rewrite E in Hlg; simpl in Hlg|]; lia).
    pose proof (Z.log2_spec (n / d) ltac:(lia)) as [Hlog _].
    rewrite Hlg, Z.pow_add_r in Hlog by lia. exact Hlog. }
  assert (0 < d * 2 ^ binade n d) by nia.
  assert (Hlt : n < P53 * (d * 2 ^ binade n d)) by nia.
  split; [split; [apply rhe_ge|apply rhe_le]; lia|]. split; [|done].
  destruct Hlo as [Hlo|Hlo]; [by left|right].
  assert (P52 * (d * 2 ^ binade n d) <= n) by nia.
  split; [done|]. apply rhe_ge; lia.
Qed.

Lemma nearest_nonneg : 0 <= nearest n d.
Proof. pose proof nearest_range. pose proof binade_nonneg. unfold nearest. nia. Qed.

(** What rounds to more than [k] is at least half way from [k] to the next. *)
Lemma nearest_ge k :
  0 <= k -> k + 1 <= nearest n d ->
  (units k + units (k + 1)) * d <= 2 * n /\
  ((units k + units (k + 1)) * d = 2 * n -> k + 1 = nearest n d /\ Z.even (k + 1) = true).
Proof.
  intros Hk Hle. pose proof nearest_range as (Hr & Hb & _). pose proof binade_nonneg as He.
  pose proof (pow2_pos _ He) as Hp. set (e := binade n d) in *. unfold nearest in *. fold e in Hle |- *.
  set (r := round_half_even n (d * 2 ^ e)) in *. set (p := e * P52 + r) in *.
  destruct (rhe_spec n (d * 2 ^ e) ltac:(nia)) as [Hs Ht]. fold r in Hs, Ht.
  assert (Hu : units p = r * 2 ^ e) by (apply units_scaled; lia).
  assert (Hsum : (units k + units (k + 1)) * d <= (units (p - 1) + units p) * d).
  { pose proof (units_mono k (p - 1) ltac:(lia)). pose proof (units_mono (k + 1) p ltac:(lia)). nia. }
  assert (Hlast : k + 1 = p \/ (units k + units (k + 1)) * d < (units (p - 1) + units p) * d).
  { destruct (decide (k + 1 = p)); [by left|right].
    pose proof (units_mono (k + 1) (p - 1) ltac:(lia)). pose proof (units_step k ltac:(lia)).
    pose proof (units_step (p - 1) ltac:(lia)). replace (p - 1 + 1) with p in * by lia. nia. }
  destruct (decide (e = 0 \/ P52 < r)) as [Hin|Hin].
  - assert (Hprev : units (p - 1) = (r - 1) * 2 ^ e).
    { unfold p. replace (e * P52 + r - 1) with (e * P52 + (r - 1)) by lia. apply units_scaled; lia. }
    rewrite Hprev, Hu in Hsum, Hlast. split; [nia|]. intros Heq.
    destruct Hlast as [Hlast|Hlast]; [|nia]. split; [done|]. rewrite Hlast.
    assert (Hev : Z.even r = true).
    { apply Ht. rewrite Hlast, Hu in Heq. replace k with (p - 1) in Heq by lia.
      rewrite Hprev in Heq. nia. }
    unfold p. rewrite Z.even_add, Z.even_mul, Hev. by rewrite orb_comm.
  - assert (Hr52 : r = P52) by lia.
    assert (P52 * (d * 2 ^ e) <= n) by (destruct Hb as [|[? _]]; [lia|done]).
    pose proof (units_step (p - 1) ltac:(lia)). replace (p - 1 + 1) with p in * by lia.
    rewrite Hu, Hr52 in *. split; [nia|]. intros Heq. nia.
Qed.

(** What rounds to at most [k] is at most half way from [k] to the next. *)
Lemma nearest_le k :
  nearest n d <= k ->
  2 * n <= (units k + units (k + 1)) * d /\
  (2 * n = (units k + units (k + 1)) * d -> nearest n d = k /\ Z.even k = true).
Proof.
  intros Hle. pose proof nearest_range as (Hr & Hb & Hup). pose proof binade_nonneg as He.
  pose proof nearest_nonneg as Hk0.
  pose proof (pow2_pos _ He) as Hp. set (e := binade n d) in *. unfold nearest in *. fold e in Hle, Hk0 |- *.
  set (r := round_half_even n (d * 2 ^ e)) in *. set (p := e * P52 + r) in *.
  destruct (rhe_spec n (d * 2 ^ e) ltac:(nia)) as [Hs Ht]. fold r in Hs, Ht.
  assert (Hu : units p = r * 2 ^ e) by (apply units_scaled; lia).
  assert (Hsum : (units p + units (p + 1)) * d <= (units k + units (k + 1)) * d).
  { pose proof (units_mono p k ltac:(lia)). pose proof (units_mono (p + 1) (k + 1) ltac:(lia)). nia. }
  assert (Hlast : p = k \/ (units p + units (p + 1)) * d < (units k + units (k + 1)) * d).
  { destruct (decide (p = k)); [by left|right].
    pose proof (units_mono (p + 1) k ltac:(lia)). pose proof (units_step p ltac:(lia)).
    pose proof (units_step k ltac:(lia)). nia. }
  destruct (decide (r = P53)) as [Hr53|Hr53].
  - pose proof (units_step p ltac:(lia)). rewrite Hu, Hr53 in *.
    split; [nia|]. intros Heq. nia.
  - assert (Hnext : units (p + 1) = (r + 1) * 2 ^ e).
    { unfold p. rewrite <- Z.add_assoc. apply units_scaled; lia. }
    rewrite Hnext, Hu in Hsum, Hlast. split; [nia|]. intros Heq.
    destruct Hlast as [Hlast|Hlast]; [|nia]. split; [done|]. rewrite <- Hlast.
    assert (Hev : Z.even r = true).
    { apply Ht. rewrite <- Hlast, Hu, Hnext in Heq. nia. }
    unfold p. rewrite Z.even_add, Z.even_mul, Hev. by rewrite orb_comm.
Qed.
End nearest.

Lemma nearest_mono n d n' d' :
  0 <= n -> 0 < d -> 0 <= n' -> 0 < d' -> n * d' <= n' * d -> nearest n d <= nearest n' d'.
Proof.
  intros Hn Hd Hn' Hd' Hle. set (k := nearest n' d').
  destruct (Z.le_gt_cases (nearest n d) k) as [|Hgt]; [done|exfalso].
  pose proof (nearest_nonneg n' d' Hn' Hd').
  destruct (nearest_ge n d Hn Hd k ltac:(lia) ltac:(lia)) as [Hlo Hlo'].
  destruct (nearest_le n' d' Hn' Hd' k ltac:(lia)) as [Hhi Hhi'].
  set (u := units k + units (k + 1)) in *.
  assert (H1 : u * d * d' <= 2 * n * d') by (apply Z.mul_le_mono_nonneg_r; lia).
  assert (H2 : 2 * n' * d <= u * d' * d) by (apply Z.mul_le_mono_nonneg_r; lia).
  destruct Hlo' as [_ He]; [nia|]. destruct Hhi' as [_ He']; [nia|].
  by rewrite Z.even_add, He' in He.
Qed.

Lemma round_units_mono n d n' d' :
  0 <= n -> 0 < d -> 0 <= n' -> 0 < d' -> n * d' <= n' * d ->
  round_units n d <= round_units n' d'.
Proof. intros. pose proof (nearest_mono n d n' d'). unfold round_units. lia. Qed.

Lemma round_units_range n d : 0 <= n -> 0 < d -> 0 <= round_units n d <= inf_bits.
Proof. intros. pose proof (nearest_nonneg n d). unfold round_units. lia. Qed.

Lemma round_units_scale n d c :
  0 <= n -> 0 < d -> 0 < c -> round_units (n * c) (d * c) = round_units n d.
Proof.
  intros. apply Z.le_antisymm; apply round_units_mono; try nia; apply Z.eq_le_incl; ring.
Qed.

(** The magnitude that [n / d] rounds to, by the half-way points around it. *)
Lemma round_units_near n d k :
  0 <= n -> 0 < d -> 0 <= k < inf_bits ->
  2 * n <= (units k + units (k + 1)) * d ->
  (2 * n = (units k + units (k + 1)) * d -> Z.even k = true) ->
  (k = 0 \/ (units (k - 1) + units k) * d <= 2 * n) ->
  ((units (k - 1) + units k) * d = 2 * n -> k = 0 \/ Z.even k = true) ->
  round_units n d = k.
Proof.
  intros Hn Hd Hk Hhi Hhi' Hlo Hlo'. unfold round_units.
  assert (nearest n d <= k).
  { destruct (Z.le_gt_cases (nearest n d) k) as [|Hgt]; [done|exfalso].
    destruct (nearest_ge n d Hn Hd k ltac:(lia) ltac:(lia)) as [H1 H2].
    destruct H2 as [_ H2]; [lia|]. rewrite Z.even_add, Hhi' in H2 by lia. discriminate. }
  pose proof (nearest_nonneg n d Hn Hd).
  assert (k <= nearest n d); [|lia].
  destruct (Z.le_gt_cases k (nearest n d)) as [|Hgt]; [done|exfalso].
  destruct Hlo as [Hlo|Hlo]; [lia|].
  destruct (nearest_le n d Hn Hd (k - 1) ltac:(lia)) as [H1 H2].
  replace (k - 1 + 1) with k in * by lia.
  destruct H2 as [_ H2]; [lia|]. destruct Hlo' as [|Hlo']; [lia|lia|].
  rewrite Z.even_sub, Hlo' in H2. discriminate.
Qed.

(** What is representable rounds to itself. *)
Lemma round_units_exact k d : 0 <= k < inf_bits -> 0 < d -> round_units (units k * d) d = k.
Proof.
  intros Hk Hd. pose proof (units_step k ltac:(lia)). pose proof (units_nonneg k ltac:(lia)).
  assert (k = 0 \/ units (k - 1) < units k).
  { destruct (decide (k = 0)); [by left|right].
    pose proof (units_step (k - 1) ltac:(lia)). by replace (k - 1 + 1) with k in * by lia. }
  apply round_units_near; try nia.
Qed.

(** ** The rounding of the specification floats *)

Lemma digits2_log2 p : Zpos (digits2_pos p) = Z.log2 (Zpos p) + 1.
Proof.
  induction p as [p IH|p IH|]; [| |done].
  - cbn [digits2_pos]. rewrite Pos2Z.inj_succ, IH.
    change (Zpos p~1) with (2 * Zpos p + 1). rewrite Z.log2_succ_double by lia. lia.
  - cbn [digits2_pos]. rewrite Pos2Z.inj_succ, IH.
    change (Zpos p~0) with (2 * Zpos p). rewrite Z.log2_double by lia. lia.
Qed.

(** The record of a shift is the floor of [a / b] with its two guard bits. *)
Definition represents (mrs : shr_record) (a b : Z) : Prop :=
  shr_m mrs = a / b /\ shr_r mrs = (b <=? 2 * (a mod b)) /\
  shr_s mrs = negb (a mod b =? 0) && negb (2 * (a mod b) =? b).

Lemma div_mod_double a b :
  0 < b -> a / (2 * b) = a / b / 2 /\ a mod (2 * b) = a mod b + b * ((a / b) mod 2).
Proof.
  intros Hb. split.
  - rewrite Z.div_div by lia. f_equal. lia.
  - pose proof (Z_div_mod_eq_full a b). pose proof (Z_div_mod_eq_full (a / b) 2).
    pose proof (Z.mod_pos_bound a b Hb). pose proof (Z.mod_pos_bound (a / b) 2 ltac:(lia)).
    symmetry. apply Z.mod_unique with (q := a / b / 2); nia.
Qed.

Lemma shr_1_represents mrs a b :
  0 <= a -> 0 < b -> represents mrs a b -> represents (shr_1 mrs) a (2 * b).
Proof.
  intros Ha Hb (Hm & Hr & Hs). destruct mrs as [m r s]. cbn in Hm, Hr, Hs.
  destruct (div_mod_double a b Hb) as [Hd2 Hm2]. pose proof (Z.mod_pos_bound a b Hb) as Hrem.
  pose proof (Z.div_pos a b Ha Hb). rewrite <- Hm in *.
  assert (Hrs : r || s = negb (a mod b =? 0)).
  { rewrite Hr, Hs. zbool; try lia; reflexivity. }
  assert (Hshr : shr_1 (Build_shr_record m r s)
    = Build_shr_record (m / 2) (Z.odd m) (negb (a mod b =? 0))).
  { rewrite <- Hrs. destruct m as [|[p|p|]|p]; try done; try lia; unfold shr_1; f_equal.
    - change (Zpos p~1) with (2 * Zpos p + 1). by apply Z.div_unique with (r := 1); [lia|].
    - change (Zpos p~0) with (2 * Zpos p). symmetry. rewrite Z.mul_comm. by apply Z.div_mul. }
  rewrite Hshr. unfold represents. cbn [shr_m shr_r shr_s]. rewrite Hd2, Hm2.
  rewrite Zmod_odd. destruct (Z.odd m); (split; [done|split]); zbool; try done; lia.
Qed.

Lemma iter_represents p : forall mrs a b,
  0 <= a -> 0 < b -> represents mrs a b ->
  represents (SpecFloat.iter_pos shr_1 p mrs) a (b * 2 ^ Zpos p).
Proof.
  induction p as [p IH|p IH|]; intros mrs a b Ha Hb H; cbn [SpecFloat.iter_pos].
  - change (Zpos p~1) with (2 * Zpos p + 1).
    replace (b * 2 ^ (2 * Zpos p + 1)) with (2 * b * 2 ^ Zpos p * 2 ^ Zpos p).
    + apply IH; [done|pose proof (pow2_pos (Zpos p)); nia|]. apply IH; [done|lia|].
      by apply shr_1_represents.
    + replace (2 * Zpos p + 1) with (Z.succ (Zpos p + Zpos p)) by lia.
      rewrite Z.pow_succ_r, Z.pow_add_r by lia. ring.
  - change (Zpos p~0) with (2 * Zpos p).
    replace (b * 2 ^ (2 * Zpos p)) with (b * 2 ^ Zpos p * 2 ^ Zpos p).
    + apply IH; [done|pose proof (pow2_pos (Zpos p)); nia|]. by apply IH.
    + replace (2 * Zpos p) with (Zpos p + Zpos p) by lia. rewrite Z.pow_add_r by lia. ring.
  - replace (b * 2 ^ 1) with (2 * b) by lia. by apply shr_1_represents.
Qed.

Lemma round_represents mrs a b :
  0 <= a -> 0 < b -> represents mrs a b ->
  round_nearest_even (shr_m mrs) (loc_of_shr_record mrs) = round_half_even a b.
Proof.
  intros Ha Hb (Hm & Hr & Hs). destruct mrs as [m r s]. cbn in *. subst m r s.
  unfold round_half_even. pose proof (Z.mod_pos_bound a b Hb).
  destruct (Z.leb_spec b (2 * (a mod b))), (Z.eqb_spec (a mod b) 0),
    (Z.eqb_spec (2 * (a mod b)) b), (Z.ltb_spec (2 * (a mod b)) b),
    (Z.ltb_spec b (2 * (a mod b))); cbn; try lia; done.
Qed.

Lemma represents_exact m : 0 <= m -> represents (shr_record_of_loc m loc_Exact) m 1.
Proof.
  intros. unfold represents. cbn. rewrite Z.div_1_r, Z.mod_1_r. done.
Qed.

(** [m * 2 ^ e] as a fraction of units: what is above and below the bar. *)
Definition up (e : Z) : Z := 2 ^ Z.max 0 (e + 1074).
Definition down (e : Z) : Z := 2 ^ Z.max 0 (- (e + 1074)).

Lemma up_pos e : 0 < up e.
Proof. apply pow2_pos. lia. Qed.

Lemma down_pos e : 0 < down e.
Proof. apply pow2_pos. lia. Qed.

Lemma up_down e : up e * 2 ^ Z.max 0 (- (e + 1074)) = down e * 2 ^ Z.max 0 (e + 1074).
Proof. unfold up, down. ring. Qed.

(** The exponent the specification rounds at is that of the binade. *)
Lemma fexp_binade a b e :
  0 <= a -> 0 < b -> e <= fexp 53 1024 (Zdigits2 (a / b) + e) ->
  binade (a * up e) (b * down e) = fexp 53 1024 (Zdigits2 (a / b) + e) + 1074.
Proof.
  intros Ha Hb He. pose proof (Z.div_pos a b Ha Hb) as Hm.
  unfold fexp, SpecFloat.emin in *. unfold up, down, binade.
  pose proof (Z_div_mod_eq_full a b) as Hd. pose proof (Z.mod_pos_bound a b Hb) as Hr.
  destruct (a / b) as [|p|p] eqn:Hq; [| |lia].
  - cbn [Zdigits2] in *. assert (e <= -1074) by lia.
    rewrite (Z.max_l 0 (e + 1074)) by lia.
    rewrite Z.div_small; [cbn; lia|]. pose proof (pow2_pos (Z.max 0 (- (e + 1074)))). nia.
  - cbn [Zdigits2] in *. rewrite digits2_log2 in *. rewrite <- Hq in Hd.
    assert (Hlog : 0 <= Z.log2 (Zpos p)) by apply Z.log2_nonneg.
    destruct (Z.le_gt_cases 0 (e + 1074)) as [Hk|Hk].
    + rewrite (Z.max_r 0 (e + 1074)), (Z.max_l 0 (- (e + 1074))) by lia.
      rewrite Z.pow_0_r, Z.mul_1_r.
      assert (Hl : Z.log2 (a * 2 ^ (e + 1074) / b) = Z.log2 (Zpos p) + (e + 1074)); [|lia].
      apply Z.log2_unique; [lia|].
      destruct (Z.log2_spec (Zpos p) ltac:(reflexivity)) as [H1 H2].
      pose proof (pow2_pos (e + 1074) Hk) as Ht.
      rewrite Z.pow_succ_r in H2 by done. rewrite Z.pow_succ_r by lia.
      rewrite Z.pow_add_r by lia.
      set (l := 2 ^ Z.log2 (Zpos p)) in *. set (t := 2 ^ (e + 1074)) in *. rewrite Hq in *.
      assert (b * l <= a) by nia. assert (a < b * (2 * l)) by nia.
      split; [apply Z.div_le_lower_bound; [done|nia]|apply Z.div_lt_upper_bound; [done|nia]].
    + rewrite (Z.max_l 0 (e + 1074)), (Z.max_r 0 (- (e + 1074))) by lia.
      rewrite Z.pow_0_r, Z.mul_1_r, <- Z.div_div by (try apply Z.pow_nonzero; lia).
      rewrite Hq, <- Z.shiftr_div_pow2 by lia. rewrite Z.log2_shiftr by lia. lia.
Qed.

(** The significand the specification rounds to is that of the nearest. *)
Lemma rhe_shifted a b e e' :
  0 < b -> e <= e' -> -1074 <= e' ->
  round_half_even (a * up e) (b * down e * 2 ^ (e' + 1074)) = round_half_even a (b * 2 ^ (e' - e)).
Proof.
  intros Hb He He'. unfold up, down. destruct (Z.le_gt_cases 0 (e + 1074)) as [Hk|Hk].
  - rewrite (Z.max_r 0 (e + 1074)), (Z.max_l 0 (- (e + 1074))) by lia.
    replace (b * 2 ^ 0 * 2 ^ (e' + 1074)) with (b * 2 ^ (e' - e) * 2 ^ (e + 1074)).
    + apply rhe_scale; [|by apply pow2_pos]. pose proof (pow2_pos (e' - e)). nia.
    + rewrite Z.pow_0_r, Z.mul_1_r, <- Z.mul_assoc, <- Z.pow_add_r by lia. do 2 f_equal. lia.
  - rewrite (Z.max_l 0 (e + 1074)), (Z.max_r 0 (- (e + 1074))) by lia.
    rewrite Z.pow_0_r, Z.mul_1_r, <- Z.mul_assoc, <- Z.pow_add_r by lia. do 3 f_equal. lia.
Qed.

(** The second shift, of the rounded significand, and the pattern it gives. *)
Lemma pack_correct s r e :
  0 <= r <= P53 -> 0 <= e -> (e = 0 \/ P52 <= r) ->
  of_sf (let '(mrs, e') := shr_fexp 53 1024 r (e - 1074) loc_Exact in
         match shr_m mrs with
         | Z0 => S754_zero s
         | Zpos m => if e' <=? 1024 - 53 then S754_finite s m e' else S754_infinity s
         | _ => S754_nan
         end)
  = Z.min inf_bits (e * P52 + r) + (if s then sign_bit else 0).
Proof.
  intros Hr He Hc. unfold shr_fexp, fexp, SpecFloat.emin.
  destruct (decide (r = P53)) as [->|Hne].
  { change (Zdigits2 P53) with 54.
    replace (Z.max (54 + (e - 1074) - 53) (3 - 1024 - 53) - (e - 1074)) with 1 by lia.
    cbn [shr SpecFloat.iter_pos shr_1 shr_record_of_loc shr_m].
    destruct (Z.leb_spec (e - 1074 + 1) (1024 - 53)); cbn [of_sf].
    - change (4503599627370496 <? 2 ^ 52) with false. cbv iota.
      change (2 ^ 52) with P52. lia.
    - lia. }
  assert (Hsh : Z.max (Zdigits2 r + (e - 1074) - 53) (3 - 1024 - 53) - (e - 1074) <= 0).
  { destruct r as [|p|p]; [cbn [Zdigits2]; lia| |lia]. cbn [Zdigits2]. rewrite digits2_log2.
    assert (Z.log2 (Zpos p) < 53) by (apply Z.log2_lt_pow2; [lia|change (2 ^ 53) with P53; lia]).
    lia. }
  unfold shr. set (n := _ - (e - 1074)) in *.
  assert (Hn : forall A (x y : A), match n with Zpos _ => x | _ => y end = y) by (destruct n; done || lia).
  destruct n as [|n|n]; [|lia|]; cbn [shr_record_of_loc shr_m];
    (destruct r as [|p|p]; [cbn [of_sf]; lia| |lia]);
    (destruct (Z.leb_spec (e - 1074) (1024 - 53)); cbn [of_sf]; [|lia]);
    change (2 ^ 52) with P52; (destruct (Z.ltb_spec (Zpos p) P52); lia).
Qed.

(** Rounding as the specification does it is rounding to the nearest. *)
Lemma binary_round_aux_spec s m e l a b :
  0 <= a -> 0 < b -> represents (shr_record_of_loc m l) a b ->
  e <= fexp 53 1024 (Zdigits2 m + e) ->
  of_sf (binary_round_aux 53 1024 s m e l)
  = round_units (a * up e) (b * down e) + (if s then sign_bit else 0).
Proof.
  intros Ha Hb Hrep He. assert (Hm : m = a / b) by (destruct Hrep as [Hm _]; by destruct l as [|[]]).
  rewrite Hm in He. pose proof (fexp_binade a b e Ha Hb He) as Hbin.
  pose proof (up_pos e). pose proof (down_pos e).
  destruct (nearest_range (a * up e) (b * down e) ltac:(nia) ltac:(nia)) as (Hr & Hc & _).
  unfold binary_round_aux, shr_fexp at 1. rewrite Hm.
  set (e' := fexp 53 1024 (Zdigits2 (a / b) + e)) in *.
  assert (Hlo : -1074 <= e') by (unfold e', fexp, SpecFloat.emin; lia).
  assert (Hshr : exists mrs, shr (shr_record_of_loc (a / b) l) e (e' - e) = (mrs, e') /\
                   represents mrs a (b * 2 ^ (e' - e))).
  { rewrite <- Hm. destruct (e' - e) as [|p|p] eqn:Hd; [| |lia]; cbn [shr]; eexists.
    - rewrite Z.pow_0_r, Z.mul_1_r. split; [f_equal; lia|done].
    - split; [f_equal; lia|]. by apply iter_represents. }
  destruct Hshr as (mrs & -> & Hmrs).
  rewrite (round_represents mrs a (b * 2 ^ (e' - e))); [|done| |done].
  2: { pose proof (pow2_pos (e' - e)). nia. }
  rewrite <- (rhe_shifted a b e e') by lia. unfold round_units, nearest. rewrite Hbin in *.
  replace e' with (e' + 1074 - 1074) at 2 by lia.
  apply pack_correct; [done|lia|]. destruct Hc as [Hc|[_ Hc]]; [left|right]; lia.
Qed.

(** ** The operations *)

(** The pattern of a sign and a magnitude. *)
Definition signed (s : bool) (m : Z) : f64 := m + (if s then sign_bit else 0).

(** The number a pattern that is not a NaN stands for, in units. *)
Definition value (x : f64) : Z := if sign x then - units (magnitude x) else units (magnitude x).

Lemma sign_signed s m : 0 <= m < sign_bit -> sign (signed s m) = s.
Proof. intros. unfold sign, signed. destruct s; zbool; lia. Qed.

Lemma magnitude_signed s m : 0 <= m < sign_bit -> magnitude (signed s m) = m.
Proof. intros. unfold magnitude. rewrite sign_signed by done. unfold signed. destruct s; lia. Qed.

Lemma signed_u64 s m : 0 <= m < sign_bit -> is_u64 (signed s m).
Proof. unfold is_u64, signed. destruct s; lia. Qed.

Lemma value_signed s m :
  0 <= m < sign_bit -> value (signed s m) = if s then - units m else units m.
Proof. intros. unfold value. by rewrite sign_signed, magnitude_signed. Qed.

Lemma signed_parts x : is_u64 x -> signed (sign x) (magnitude x) = x.
Proof. intros. unfold signed, magnitude, sign. destruct (Z.leb_spec sign_bit x); lia. Qed.

Lemma finite_magnitude x : is_u64 x -> is_finite x = true -> 0 <= magnitude x < inf_bits.
Proof.
  intros Hx Hf. unfold is_finite in Hf. pose proof (magnitude_bound x Hx).
  apply Z.ltb_lt in Hf. lia.
Qed.

Lemma round_units_eq n d n' d' :
  0 <= n -> 0 < d -> 0 <= n' -> 0 < d' -> n * d' = n' * d -> round_units n d = round_units n' d'.
Proof. intros. apply Z.le_antisymm; apply round_units_mono; lia. Qed.

Lemma round_units_0 d : 0 < d -> round_units 0 d = 0.
Proof. intros. by apply (round_units_exact 0 d). Qed.

(** [2 ^ e] in units, at a common denominator. *)
Lemma up_scale e k : 0 <= k -> 0 <= k + (e + 1074) -> up e * 2 ^ k = 2 ^ (k + (e + 1074)) * down e.
Proof.
  intros Hk Hs. unfold up, down. destruct (Z.le_gt_cases 0 (e + 1074)).
  - rewrite Z.max_r, Z.max_l by lia. rewrite Z.pow_0_r, <- Z.pow_add_r by lia. rewrite Z.mul_1_r.
    f_equal. lia.
  - rewrite Z.max_l, Z.max_r by lia. rewrite Z.pow_0_r, <- Z.pow_add_r by lia. rewrite Z.mul_1_l.
    f_equal. lia.
Qed.

Lemma to_sf_finite x :
  is_u64 x -> is_finite x = true ->
  (to_sf x = S754_zero (sign x) /\ magnitude x = 0) \/
  exists p e, to_sf x = S754_finite (sign x) p e /\ -1074 <= e /\
    units (magnitude x) = Zpos p * 2 ^ (e + 1074) /\ Zpos p < P53 /\ (e = -1074 \/ P52 <= Zpos p).
Proof.
  intros Hx Hf. pose proof (finite_magnitude x Hx Hf) as Hm.
  destruct (to_sf_cases x Hx) as [[Hn _]|[(_ & H & _)|[(_ & H & ->)|(_ & p & e & -> & _ & Hc)]]].
  - unfold is_nan in Hn. apply Z.ltb_lt in Hn. lia.
  - lia.
  - by left.
  - right. exists p, e. split; [done|].
    change (2 ^ 52) with P52 in Hc. change (2 ^ 53) with P53 in Hc. split; [lia|].
    split; [|lia]. destruct Hc as [(-> & -> & Hp)|(He & Hp & ->)].
    + apply (units_scaled 0); lia.
    + apply units_scaled; lia.
Qed.

Lemma finite_not_nan x : is_finite x = true -> is_nan x = false.
Proof. unfold is_finite, is_nan. intros H%Z.ltb_lt. apply Z.ltb_ge. lia. Qed.

Theorem mul_rounds a b :
  is_u64 a -> is_u64 b -> is_finite a = true -> is_finite b = true ->
  f64_mul a b = signed (xorb (sign a) (sign b))
                  (round_units (units (magnitude a) * units (magnitude b)) (2 ^ 1074)).
Proof.
  intros Ha Hb Hfa Hfb. unfold f64_mul.
  destruct (to_sf_finite a Ha Hfa) as [[-> ->]|(p & e & -> & He & -> & Hp & Hpe)];
    destruct (to_sf_finite b Hb Hfb) as [[-> ->]|(q & f & -> & Hf & -> & Hq & Hqf)];
    cbn [SFmul]; try (change (units 0) with 0; rewrite ?Z.mul_0_r, ?Z.mul_0_l, round_units_0 by done;
      done).
  rewrite (binary_round_aux_spec _ _ _ _ (Zpos (p * q)) 1); [|lia|lia|by apply represents_exact|].
  - unfold signed. f_equal. apply round_units_eq;
      [pose proof (up_pos (e + f)); nia|pose proof (down_pos (e + f)); nia
      |pose proof (pow2_pos (e + 1074)); pose proof (pow2_pos (f + 1074)); nia|done|].
    rewrite Pos2Z.inj_mul, Z.mul_1_l. rewrite <- (Z.mul_assoc _ (up _)), (up_scale (e + f) 1074) by lia.
    replace (1074 + (e + f + 1074)) with ((e + 1074) + (f + 1074)) by lia.
    rewrite Z.pow_add_r by lia. ring.
  - cbn [Zdigits2]. rewrite digits2_log2, Pos2Z.inj_mul. unfold fexp, SpecFloat.emin.
    assert (Hl : e = -1074 /\ f = -1074 \/ 52 <= Z.log2 (Zpos p * Zpos q)); [|lia].
    destruct Hpe as [?|Hpe], Hqf as [?|Hqf]; [by left|right..];
      (change 52 with (Z.log2 P52); apply Z.log2_le_mono; nia).
Qed.

Lemma new_location_represents a b :
  0 <= a -> 0 < b -> represents (shr_record_of_loc (a / b) (new_location b (a mod b))) a b.
Proof.
  intros Ha Hb. unfold represents, new_location, new_location_even, new_location_odd.
  pose proof (Z.mod_pos_bound a b Hb). set (r := a mod b) in *. set (m := a / b).
  change (IntDef.Z.even b) with (Z.even b). destruct (Z.even b) eqn:Hev; cbv beta.
  - destruct (Z.eqb_spec r 0) as [Hr0|Hr0]; [|destruct (Z.compare_spec (2 * r) b)];
      cbn [shr_record_of_loc shr_m shr_r shr_s]; (split; [done|]); zbool; try done; lia.
  - assert (Hne : 2 * r <> b).
    { intros E. rewrite <- E, Z.even_mul in Hev. discriminate. }
    destruct (Z.eqb_spec r 0) as [Hr0|Hr0]; [|destruct (Z.compare_spec (2 * r + 1) b)];
      cbn [shr_record_of_loc shr_m shr_r shr_s]; (split; [done|]); zbool; try done; lia.
Qed.

Lemma quotient_digits p q s :
  0 <= s ->
  Zdigits2 (Zpos p) + s - Zdigits2 (Zpos q) <= Zdigits2 (Zpos p * 2 ^ s / Zpos q).
Proof.
  intros Hs. cbn [Zdigits2]. rewrite !digits2_log2.
  pose proof (Z.log2_spec (Zpos p) ltac:(lia)) as [Hp _].
  pose proof (Z.log2_spec (Zpos q) ltac:(lia)) as [_ Hq].
  pose proof (Z.log2_nonneg (Zpos p)). pose proof (Z.log2_nonneg (Zpos q)).
  pose proof (pow2_pos s Hs) as H2.
  set (k := Z.log2 (Zpos p) + s - Z.succ (Z.log2 (Zpos q))).
  assert (Hdig : forall m, 0 <= m -> 0 <= Zdigits2 m) by (intros [|m|m]; cbn; lia).
  destruct (Z.le_gt_cases 0 k) as [Hk|Hk].
  2: { pose proof (Hdig (Zpos p * 2 ^ s / Zpos q) ltac:(apply Z.div_pos; lia)). lia. }
  assert (Hle : 2 ^ k <= Zpos p * 2 ^ s / Zpos q).
  { apply Z.div_le_lower_bound; [lia|].
    assert (2 ^ k * 2 ^ Z.succ (Z.log2 (Zpos q)) = 2 ^ Z.log2 (Zpos p) * 2 ^ s).
    { rewrite <- !Z.pow_add_r by lia. f_equal. lia. }
    pose proof (pow2_pos k Hk). nia. }
  pose proof (pow2_pos k Hk). destruct (Zpos p * 2 ^ s / Zpos q) as [|m|m]; [lia| |lia].
  cbn [Zdigits2]. rewrite digits2_log2. apply Z.log2_le_mono in Hle.
  rewrite Z.log2_pow2 in Hle by done. lia.
Qed.

Theorem div_rounds a b :
  is_u64 a -> is_u64 b -> is_finite a = true -> is_finite b = true -> magnitude b <> 0 ->
  f64_div a b = signed (xorb (sign a) (sign b))
                  (round_units (units (magnitude a) * 2 ^ 1074) (units (magnitude b))).
Proof.
  intros Ha Hb Hfa Hfb Hb0. unfold f64_div.
  destruct (to_sf_finite b Hb Hfb) as [[_ H]|(q & f & -> & Hf & -> & Hq & Hqf)]; [done|].
  pose proof (pow2_pos (f + 1074) ltac:(lia)).
  destruct (to_sf_finite a Ha Hfa) as [[-> ->]|(p & e & -> & He & -> & Hp & Hpe)].
  { cbn [SFdiv]. change (units 0) with 0. rewrite Z.mul_0_l, round_units_0 by nia. done. }
  pose proof (pow2_pos (e + 1074) ltac:(lia)).
  cbn [SFdiv]. unfold SFdiv_core_binary.
  set (g := Z.min _ (e - f)). set (s := e - f - g).
  assert (Hs : 0 <= s) by lia. pose proof (pow2_pos s Hs).
  assert (Hm' : match s with Zpos _ => Z.shiftl (Zpos p) s | Z0 => Zpos p | Zneg _ => 0 end
                = Zpos p * 2 ^ s).
  { destruct s as [|s'|s'] eqn:Es; [by rewrite Z.mul_1_r| |lia]. by rewrite Z.shiftl_mul_pow2. }
  rewrite Hm'. pose proof (new_location_represents (Zpos p * 2 ^ s) (Zpos q) ltac:(nia) ltac:(lia)) as Hrep.
  unfold Z.div, Z.modulo in Hrep. pose proof (quotient_digits p q s Hs) as Hdig. unfold Z.div in Hdig.
  destruct (Z.div_eucl (Zpos p * 2 ^ s) (Zpos q)) as [m r].
  rewrite (binary_round_aux_spec _ _ _ _ (Zpos p * 2 ^ s) (Zpos q)); [|nia|lia|exact Hrep|].
  2: { unfold fexp, SpecFloat.emin in *. lia. }
  unfold signed. f_equal. pose proof (up_pos g). pose proof (down_pos g).
  apply round_units_eq; try nia.
  transitivity (Zpos p * Zpos q * (up g * (2 ^ s * 2 ^ (f + 1074)))); [ring|].
  rewrite <- Z.pow_add_r by lia. unfold g in *. rewrite up_scale by (unfold fexp, SpecFloat.emin in *; lia).
  replace (s + (f + 1074) + (Z.min (fexp 53 1024 (Zdigits2 (Zpos p) + e - (Zdigits2 (Zpos q) + f))) (e - f) + 1074))
    with (e + 1074 + 1074) by lia.
  rewrite Z.pow_add_r by lia. ring.
Qed.

Lemma iter_xO m d : Zpos (Pos.iter xO m d) = Zpos m * 2 ^ Zpos d.
Proof.
  induction d as [|d IH] using Pos.peano_ind; [cbn; lia|].
  rewrite Pos.iter_succ, Pos2Z.inj_succ, Z.pow_succ_r by lia.
  change (Zpos (Pos.iter xO m d)~0) with (2 * Zpos (Pos.iter xO m d)). rewrite IH. ring.
Qed.

Lemma shl_align_spec m e e' :
  exists m', shl_align m e e' = (m', Z.min e e') /\ Zpos m' = Zpos m * 2 ^ (e - Z.min e e').
Proof.
  unfold shl_align. destruct (e' - e) as [|d|d] eqn:Hd.
  - exists m. rewrite Z.min_l by lia. by rewrite Z.sub_diag, Z.mul_1_r.
  - exists m. rewrite Z.min_l by lia. by rewrite Z.sub_diag, Z.mul_1_r.
  - exists (Pos.iter xO m d). rewrite Z.min_r by lia. rewrite iter_xO. split; [done|].
    do 2 f_equal. lia.
Qed.

Lemma binary_round_spec s p e :
  of_sf (binary_round 53 1024 s p e) = signed s (round_units (Zpos p * up e) (down e)).
Proof.
  unfold binary_round. set (g := fexp 53 1024 (Zpos (digits2_pos p) + e)).
  destruct (shl_align_spec p e g) as (m & -> & Hm).
  set (h := Z.min e g) in *. pose proof (pow2_pos (e - h) ltac:(lia)).
  rewrite (binary_round_aux_spec _ _ _ _ (Zpos m) 1); [|lia|lia|by apply represents_exact|].
  - unfold signed. f_equal. pose proof (up_pos e). pose proof (down_pos e).
    pose proof (up_pos h). pose proof (down_pos h). apply round_units_eq; try nia.
    rewrite Hm. unfold up, down in *. destruct (decide (h = e)) as [->|Hne].
    + rewrite Z.sub_diag. ring.
    + assert (-1074 <= h) by (unfold g, h, fexp, SpecFloat.emin in *; lia).
      assert (h <= e) by lia. rewrite (Z.max_r 0 (e + 1074)), (Z.max_r 0 (h + 1074)) by lia.
      rewrite (Z.max_l 0 (- (e + 1074))), (Z.max_l 0 (- (h + 1074))) by lia.
      rewrite !Z.pow_0_r, !Z.mul_1_r. rewrite <- Z.mul_assoc, <- Z.pow_add_r by lia. do 2 f_equal. lia.
  - assert (Hdig : Zdigits2 (Zpos m) + h = Zpos (digits2_pos p) + e); [|rewrite Hdig; lia].
    cbn [Zdigits2]. rewrite !digits2_log2, Hm, Z.log2_mul_pow2 by lia. lia.
Qed.

Lemma binary_normalize_spec n e s :
  -1074 <= e ->
  of_sf (binary_normalize 53 1024 n e s)
  = signed (if n =? 0 then s else n <? 0) (round_units (Z.abs n * 2 ^ (e + 1074)) 1).
Proof.
  intros He. pose proof (pow2_pos (e + 1074) ltac:(lia)).
  destruct n as [|p|p]; cbn [binary_normalize].
  - rewrite round_units_0 by done. done.
  - rewrite binary_round_spec. unfold up, down. rewrite Z.max_r, Z.max_l by lia. done.
  - rewrite binary_round_spec. unfold up, down. rewrite Z.max_r, Z.max_l by lia. done.
Qed.

(** The exact sum or difference, its sign when it is zero, and its rounding. *)
Definition rounded (s : bool) (v : Z) : f64 :=
  signed (if v =? 0 then s else v <? 0) (round_units (Z.abs v) 1).

Lemma rounded_value x : is_u64 x -> is_finite x = true -> rounded (sign x) (value x) = x.
Proof.
  intros Hx Hf. pose proof (finite_magnitude x Hx Hf) as Hm.
  pose proof (units_nonneg _ (proj1 Hm)). rewrite <- (signed_parts x Hx) at 3. unfold rounded, value.
  assert (Hz : units (magnitude x) = 0 <-> magnitude x = 0).
  { split; [|by intros ->]. intros H0. destruct (decide (magnitude x = 0)) as [|Hne]; [done|].
    pose proof (proj2 (units_lt 0 (magnitude x) ltac:(lia) ltac:(lia)) ltac:(lia)).
    change (units 0) with 0 in *. lia. }
  assert (Habs : Z.abs (if sign x then - units (magnitude x) else units (magnitude x))
                 = units (magnitude x) * 1) by (destruct (sign x); lia).
  rewrite Habs, round_units_exact by done. f_equal.
  set (u := units (magnitude x)) in *. clearbody u.
  destruct (sign x);
    [destruct (Z.eqb_spec (- u) 0), (Z.ltb_spec (- u) 0)|destruct (Z.eqb_spec u 0), (Z.ltb_spec u 0)];
    done || lia.
Qed.

Lemma value_finite x p e :
  to_sf x = S754_finite (sign x) p e -> units (magnitude x) = Zpos p * 2 ^ (e + 1074) ->
  value x = cond_Zopp (sign x) (Zpos p) * 2 ^ (e + 1074).
Proof. intros _ Hu. unfold value, cond_Zopp. rewrite Hu. destruct (sign x); lia. Qed.

Lemma to_sf_value x :
  is_u64 x -> is_finite x = true ->
  (to_sf x = S754_zero (sign x) /\ value x = 0) \/
  exists p e, to_sf x = S754_finite (sign x) p e /\ -1074 <= e /\
    value x = cond_Zopp (sign x) (Zpos p) * 2 ^ (e + 1074).
Proof.
  intros Hx Hf. destruct (to_sf_finite x Hx Hf) as [[Hs Hm]|(p & e & Hs & He & Hu & _)].
  - left. split; [done|]. unfold value. rewrite Hm. by destruct (sign x).
  - right. exists p, e. eauto using value_finite.
Qed.

(** Both operands at the smaller exponent. *)
Lemma aligned s p e f :
  -1074 <= f -> f <= e ->
  cond_Zopp s (Zpos (fst (shl_align p e f))) * 2 ^ (f + 1074) = cond_Zopp s (Zpos p) * 2 ^ (e + 1074).
Proof.
  intros Hf He. destruct (shl_align_spec p e f) as (m & -> & Hm). cbn [fst].
  rewrite Z.min_r in Hm by lia.
  assert (Hp : Zpos m * 2 ^ (f + 1074) = Zpos p * 2 ^ (e + 1074)).
  { rewrite Hm, <- Z.mul_assoc, <- Z.pow_add_r by lia. do 2 f_equal. lia. }
  unfold cond_Zopp. destruct s; lia.
Qed.

Lemma of_sf_finite_id x : is_u64 x -> is_finite x = true -> of_sf (to_sf x) = x.
Proof. intros. apply of_sf_to_sf; [done|by apply finite_not_nan]. Qed.

Lemma normalize_rounded n e v :
  -1074 <= e -> n * 2 ^ (e + 1074) = v -> of_sf (binary_normalize 53 1024 n e false) = rounded false v.
Proof.
  intros He <-. rewrite binary_normalize_spec by done. unfold rounded.
  pose proof (pow2_pos (e + 1074) ltac:(lia)) as Hp. rewrite Z.abs_mul, (Z.abs_eq (2 ^ _)) by lia.
  f_equal. by destruct n as [|n|n], (2 ^ (e + 1074)).
Qed.

Theorem add_rounds a b :
  is_u64 a -> is_u64 b -> is_finite a = true -> is_finite b = true ->
  f64_add a b = rounded (sign a && sign b) (value a + value b).
Proof.
  intros Ha Hb Hfa Hfb. unfold f64_add.
  pose proof (rounded_value a Ha Hfa) as Hra. pose proof (rounded_value b Hb Hfb) as Hrb.
  pose proof (of_sf_finite_id a Ha Hfa) as Ia. pose proof (of_sf_finite_id b Hb Hfb) as Ib.
  destruct (to_sf_value a Ha Hfa) as [[Sa Va]|(p & e & Sa & He & Va)];
    destruct (to_sf_value b Hb Hfb) as [[Sb Vb]|(q & f & Sb & Hf & Vb)];
    rewrite Sa, Sb in *; cbn [SFadd].
  - rewrite Va, Vb. destruct (sign a), (sign b); vm_compute; done.
  - rewrite Ib, Va, Z.add_0_l. rewrite <- Hrb at 1. unfold rounded.
    pose proof (pow2_pos (f + 1074) ltac:(lia)).
    assert (value b <> 0) by (rewrite Vb; unfold cond_Zopp; destruct (sign b); nia).
    by destruct (Z.eqb_spec (value b) 0).
  - rewrite Ia, Vb, Z.add_0_r. rewrite <- Hra at 1. unfold rounded.
    pose proof (pow2_pos (e + 1074) ltac:(lia)).
    assert (value a <> 0) by (rewrite Va; unfold cond_Zopp; destruct (sign a); nia).
    by destruct (Z.eqb_spec (value a) 0).
  - rewrite (normalize_rounded _ _ (value a + value b)).
    + unfold rounded. destruct (Z.eqb_spec (value a + value b) 0) as [H0|]; [|done].
      pose proof (pow2_pos (e + 1074) ltac:(lia)). pose proof (pow2_pos (f + 1074) ltac:(lia)).
      rewrite Va, Vb in H0. destruct (sign a), (sign b); try done. cbn [cond_Zopp] in H0. nia.
    + lia.
    + rewrite Z.mul_add_distr_r, !aligned by lia. congruence.
Qed.

Theorem sub_rounds a b :
  is_u64 a -> is_u64 b -> is_finite a = true -> is_finite b = true ->
  f64_sub a b = rounded (sign a && negb (sign b)) (value a - value b).
Proof.
  intros Ha Hb Hfa Hfb. unfold f64_sub.
  pose proof (rounded_value a Ha Hfa) as Hra. pose proof (rounded_value b Hb Hfb) as Hrb.
  pose proof (of_sf_finite_id a Ha Hfa) as Ia. pose proof (of_sf_finite_id b Hb Hfb) as Ib.
  destruct (to_sf_value a Ha Hfa) as [[Sa Va]|(p & e & Sa & He & Va)];
    destruct (to_sf_value b Hb Hfb) as [[Sb Vb]|(q & f & Sb & Hf & Vb)];
    rewrite Sa, Sb in *; cbn [SFsub].
  - rewrite Va, Vb. destruct (sign a), (sign b); vm_compute; done.
  - rewrite Va, Z.sub_0_l. pose proof (pow2_pos (f + 1074) ltac:(lia)) as Hp.
    assert (Hv : value b <> 0) by (rewrite Vb; unfold cond_Zopp; destruct (sign b); nia).
    assert (Hn : of_sf (S754_finite (negb (sign b)) q f) = signed (negb (sign b)) (magnitude b)).
    { rewrite <- (signed_parts b Hb) in Ib at 2. unfold signed in *. cbn [of_sf] in *.
      destruct (sign b); cbn [negb]; lia. }
    assert (Hm : magnitude b = round_units (Z.abs (value b)) 1).
    { rewrite <- Hrb at 1. unfold rounded.
      pose proof (round_units_range (Z.abs (value b)) 1 ltac:(lia) ltac:(lia)).
      apply magnitude_signed. lia. }
    rewrite Hn, Hm. unfold rounded. rewrite Z.abs_opp. f_equal.
    destruct (Z.eqb_spec (- value b) 0); [lia|]. rewrite Vb. by destruct (sign b), (2 ^ (f + 1074)).
  - rewrite Ia, Vb, Z.sub_0_r. rewrite <- Hra at 1. unfold rounded.
    pose proof (pow2_pos (e + 1074) ltac:(lia)).
    assert (value a <> 0) by (rewrite Va; unfold cond_Zopp; destruct (sign a); nia).
    by destruct (Z.eqb_spec (value a) 0).
  - rewrite (normalize_rounded _ _ (value a - value b)).
    + unfold rounded. destruct (Z.eqb_spec (value a - value b) 0) as [H0|]; [|done].
      pose proof (pow2_pos (e + 1074) ltac:(lia)). pose proof (pow2_pos (f + 1074) ltac:(lia)).
      rewrite Va, Vb in H0. destruct (sign a), (sign b); try done. cbn [cond_Zopp] in H0. nia.
    + lia.
    + rewrite Z.mul_sub_distr_r, !aligned by lia. congruence.
Qed.

Theorem of_u64_rounds n : 0 <= n -> f64_of_u64 n = round_units (n * 2 ^ 1074) 1.
Proof.
  intros Hn. unfold f64_of_u64. rewrite binary_normalize_spec by lia. unfold signed.
  rewrite Z.abs_eq by done. change (0 + 1074) with 1074.
  destruct (n =? 0); [lia|]. destruct (Z.ltb_spec n 0); lia.
Qed.
