(* ===== verification/FloatText.v ===== *)
(** * FloatText: doubles as decimal text

    [FromStr] and [Display] of Rust's [f64]. [parse_f64] rounds the decimal
    number of a text to the nearest double. [show_f64] writes the shortest
    digits that round back, [show_f64_prec] a fixed number of decimals
    ([{:.prec$}]). [parse_show_f64]: what is written reads back. *)

From Stdlib Require Import ZArith Lia Ascii.
From stdpp Require Import prelude strings list numbers.
From S2P Require Import Prelude Text F64 Windows Durations Rounding.

(** ** [FromStr] *)

Definition lower_char (c : ascii) : ascii :=
  if is_ascii_uppercase c then ascii_of_N (N_of_ascii c + 32) else c.

(** [s.to_ascii_lowercase()]. *)
Fixpoint str_lower (s : string) : string :=
  match s with
  | EmptyString => EmptyString
  | String c s => String (lower_char c) (str_lower s)
  end.

(** The digits at the head of [s] after the number [acc], how many, the rest. *)
Fixpoint take_digits (acc : Z) (count : nat) (s : string) : Z * nat * string :=
  match s with
  | String c s' =>
      if is_ascii_digit c then take_digits (acc * 10 + digit_val c) (S count) s'
      else (acc, count, s)
  | EmptyString => (acc, count, s)
  end.

Definition take_sign (s : string) : bool * string :=
  match s with
  | String c s' =>
      if Ascii.eqb c "-"%char then (true, s')
      else if Ascii.eqb c "+"%char then (false, s') else (false, s)
  | EmptyString => (false, s)
  end.

(** [Exp?]: [e], an optional sign and digits to the end. *)
Definition parse_exponent (s : string) : option Z :=
  match s with
  | EmptyString => Some 0
  | String c s =>
      if Ascii.eqb (lower_char c) "e"%char then
        let '(neg, s) := take_sign s in
        let '(x, count, rest) := take_digits 0 0 s in
        if (count =? 0)%nat || negb (String.eqb rest "") then None
        else Some (if neg then - x else x)
      else None
  end.

(** [Number]: significant digits and the exponent of the last. *)
Definition parse_number (s : string) : option (Z * Z) :=
  let '(n, whole, s) := take_digits 0 0 s in
  let '(n, frac, s) :=
    match strip_prefix_char "."%char s with
    | Some s => take_digits n 0 s
    | None => (n, 0%nat, s)
    end in
  if (whole + frac =? 0)%nat then None
  else
    let! x := parse_exponent s in
    Some (n, x - Z.of_nat frac).

(** The magnitude nearest to [n * 10 ^ k]. *)
Definition decimal_magnitude (n k : Z) : Z :=
  if 0 <=? k then round_units (n * 10 ^ k * 2 ^ 1074) 1
  else round_units (n * 2 ^ 1074) (10 ^ (- k)).

Definition parse_magnitude (s : string) : option Z :=
  match parse_number s with
  | Some (n, k) => Some (decimal_magnitude n k)
  | None =>
      let s := str_lower s in
      if String.eqb s "inf" || String.eqb s "infinity" then Some inf_bits
      else if String.eqb s "nan" then Some f64_nan
      else None
  end.

(** [s.parse::<f64>()]. *)
Definition parse_f64 (s : string) : option f64 :=
  let '(neg, s) := take_sign s in
  let! m := parse_magnitude s in
  Some (signed neg m).

(** ** [Display] *)

(** The last [w] decimal digits of [n], before [acc]. *)
Fixpoint pad_dec (w : nat) (n : Z) (acc : string) : string :=
  match w with
  | O => acc
  | S w => pad_dec w (n / 10) (String (digit_char (n mod 10)) acc)
  end.

(** The decimal digits of a number of any size. *)
Definition show_nat (n : Z) : string := dec_digits (S (Z.to_nat (Z.log2 n))) n "".

(** [t * 10 ^ p], written out. *)
Definition show_decimal (t p : Z) : string :=
  if 0 <=? p then show_nat (t * 10 ^ p)
  else show_nat (t / 10 ^ (- p)) +:+ "." +:+ pad_dec (Z.to_nat (- p)) (t mod 10 ^ (- p)) "".

(** The number [n / d], with what may be missing below ([minus]) and above
    ([plus]) for it to round to the same double, the bounds included or not. *)
Record Interval := mk_interval { iv_n : Z; iv_d : Z; iv_minus : Z; iv_plus : Z; iv_inclusive : bool }.

(** The interval of the finite magnitude of the significand [r] at the exponent
    [e]; the double below a power of two is half as far away. *)
Definition interval_of (r e : Z) : Interval :=
  let u := 2 ^ Z.max 0 e in
  mk_interval (4 * r * u) (4 * 2 ^ Z.max 0 (- e)) (if r =? P52 then u else 2 * u) (2 * u) (Z.even r).

(** [n / d] and the margins in units of [10 ^ p]. *)
Definition rescale (v : Interval) (p : Z) : Interval :=
  if 0 <=? p then mk_interval (iv_n v) (iv_d v * 10 ^ p) (iv_minus v) (iv_plus v) (iv_inclusive v)
  else mk_interval (iv_n v * 10 ^ (- p)) (iv_d v) (iv_minus v * 10 ^ (- p)) (iv_plus v * 10 ^ (- p))
         (iv_inclusive v).

(** The integer to stop at, if the one below or the one above is near enough;
    of two, the nearer. *)
Definition near_integer (v : Interval) : option Z :=
  let t := iv_n v / iv_d v in
  let rem := iv_n v mod iv_d v in
  let down := (rem <? iv_minus v) || iv_inclusive v && (rem =? iv_minus v) in
  let up := (iv_d v <? rem + iv_plus v) || iv_inclusive v && (iv_d v =? rem + iv_plus v) in
  if down || up then Some (if up && (negb down || (iv_d v <=? 2 * rem)) then t + 1 else t)
  else None.

(** The shortest digits: the first power of ten, going down from [p], with an
    integer near enough. *)
Fixpoint shortest (fuel : nat) (v : Interval) (p : Z) : option (Z * Z) :=
  match fuel with
  | O => None
  | S fuel =>
      match near_integer (rescale v p) with
      | Some t => Some (t, p)
      | None => shortest fuel v (p - 1)
      end
  end.

(** A power of ten above [r * 2 ^ e]. *)
Definition above (r e : Z) : Z :=
  let b := Z.log2 r + e in
  if 0 <=? b then b / 3 + 1 else - ((- b - 1) / 4).

Definition SHORTEST_FUEL : nat := 400.

Definition show_magnitude (m : Z) : option string :=
  if m =? 0 then Some "0"
  else
    let e := Z.max 0 (m / P52 - 1) in
    let r := m - e * P52 in
    let! (t, p) := shortest SHORTEST_FUEL (interval_of r (e - 1074)) (above r (e - 1074)) in
    Some (show_decimal t p).

(** [format!("{x}")]. *)
Definition show_f64 (x : f64) : string :=
  if is_nan x then "NaN"
  else
    (if sign x then "-" else "") +:+
    (if magnitude x =? inf_bits then "inf" else default "" (show_magnitude (magnitude x))).

(** [format!("{x:.prec$}")]: ties go to the even digit. *)
Definition show_f64_prec (x : f64) (prec : Z) : string :=
  if is_nan x then "NaN"
  else
    (if sign x then "-" else "") +:+
    (if magnitude x =? inf_bits then "inf"
     else
       let n := round_half_even (units (magnitude x) * 10 ^ prec) (2 ^ 1074) in
       if prec =? 0 then show_nat n else show_decimal n (- prec)).

Example shown : map show_f64 [4591870180066957722; 0; sign_bit; 4613937818241073152; f64_nan; inf_bits + sign_bit; 1]
  = ["0.1"; "0"; "-0"; "3"; "NaN"; "-inf"; show_decimal 5 (-324)].
Proof. vm_compute. reflexivity. Qed.
Example shown_prec : map (fun p => show_f64_prec 4591870180066957722 p) [0; 1; 20]
  = ["0"; "0.1"; "0.10000000000000000555"].
Proof. vm_compute. reflexivity. Qed.
Example parsed : map parse_f64 ["0.1"; "+1e-1"; ".1"; "1."; "."; ""; "1e"; "-INF"; "1x"]
  = [Some 4591870180066957722; Some 4591870180066957722; Some 4591870180066957722;
     Some 4607182418800017408; None; None; None; Some (inf_bits + sign_bit); None].
Proof. vm_compute. reflexivity. Qed.

(** ** Reading digits back *)

Definition no_digit (s : string) : Prop :=
  match s with String c _ => is_ascii_digit c = false | EmptyString => True end.

Lemma take_digits_stop acc count s : no_digit s -> take_digits acc count s = (acc, count, s).
Proof. destruct s as [|c s]; simpl; [done|]. by intros ->. Qed.

Lemma take_digits_pad w : forall n acc count s,
  0 <= n ->
  take_digits acc count (pad_dec w n s)
  = take_digits (acc * 10 ^ Z.of_nat w + n mod 10 ^ Z.of_nat w) (count + w) s.
Proof.
  induction w as [|w IH]; intros n acc count s Hn.
  - cbn [pad_dec]. rewrite Z.mod_1_r, Nat.add_0_r. f_equal. cbn. lia.
  - cbn [pad_dec]. rewrite IH by (apply Z.div_pos; lia). cbn [take_digits].
    pose proof (Z.mod_pos_bound n 10 ltac:(lia)).
    rewrite digit_char_digit, digit_val_char by done.
    rewrite <- Nat.add_succ_r, pow10_S. f_equal.
    rewrite (Z.rem_mul_r n 10) by (try apply Z.pow_pos_nonneg; lia). lia.
Qed.

Lemma take_digits_dec f : forall n count s,
  (0 < f)%nat -> 0 <= n < 10 ^ Z.of_nat f ->
  exists len, (0 < len)%nat /\
    take_digits 0 count (dec_digits f n s) = take_digits n (count + len) s.
Proof.
  induction f as [|f IH]; intros n count s Hf Hn; [lia|]. cbn [dec_digits].
  rewrite pow10_S in Hn. destruct (Z.ltb_spec n 10).
  - exists 1%nat. split; [lia|]. cbn [take_digits].
    rewrite digit_char_digit, digit_val_char by lia. rewrite Nat.add_1_r. done.
  - assert (0 < n / 10 < 10 ^ Z.of_nat f)
      by (split; [apply Z.div_str_pos|apply Z.div_lt_upper_bound]; lia).
    destruct (IH (n / 10) count (String (digit_char (n mod 10)) s)) as (len & Hl & ->).
    { destruct f; simpl in *; lia. }
    { lia. }
    exists (S len). split; [lia|]. pose proof (Z.mod_pos_bound n 10 ltac:(lia)). cbn [take_digits].
    rewrite digit_char_digit, digit_val_char by done. rewrite Nat.add_succ_r.
    f_equal. pose proof (Z_div_mod_eq_full n 10). lia.
Qed.

Lemma dec_digits_app f : forall n s t, dec_digits f n (s +:+ t) = dec_digits f n s +:+ t.
Proof.
  induction f as [|f IH]; intros n s t; [done|]. cbn [dec_digits].
  destruct (n <? 10); [done|]. by rewrite <- IH.
Qed.

Lemma show_nat_enough n : 0 <= n -> n < 10 ^ Z.of_nat (S (Z.to_nat (Z.log2 n))).
Proof.
  intros Hn. pose proof (Z.log2_nonneg n). destruct (decide (n = 0)) as [->|Hne]; [done|].
  pose proof (Z.log2_spec n ltac:(lia)) as [_ H2]. rewrite Nat2Z.inj_succ, Z2Nat.id by done.
  eapply Z.lt_le_trans; [exact H2|]. apply Z.pow_le_mono_l. lia.
Qed.

Lemma take_digits_show n s :
  0 <= n -> no_digit s ->
  exists len, (0 < len)%nat /\ take_digits 0 0 (show_nat n +:+ s) = (n, len, s).
Proof.
  intros Hn Hs. unfold show_nat. rewrite <- dec_digits_app.
  destruct (take_digits_dec (S (Z.to_nat (Z.log2 n))) n 0 ("" +:+ s)) as (len & Hl & E).
  { lia. }
  { split; [done|by apply show_nat_enough]. }
  exists len. split; [done|]. rewrite E. by apply take_digits_stop.
Qed.

(** The number of a written decimal: its value is [t * 10 ^ p]. *)
Lemma parse_show_decimal t p :
  0 <= t ->
  parse_number (show_decimal t p) = Some (if 0 <=? p then (t * 10 ^ p, 0) else (t, p)).
Proof.
  intros Ht. unfold show_decimal, parse_number. destruct (Z.leb_spec 0 p) as [Hp|Hp].
  - pose proof (Z.pow_pos_nonneg 10 p ltac:(lia) Hp).
    destruct (take_digits_show (t * 10 ^ p) "" ltac:(nia) I) as (len & Hl & E).
    rewrite app_empty_r in E. rewrite E. cbn [strip_prefix_char].
    destruct (Nat.eqb_spec (len + 0) 0); [lia|]. done.
  - set (j := - p). assert (Hj : 0 < j) by lia.
    pose proof (Z.pow_pos_nonneg 10 j ltac:(lia) ltac:(lia)).
    pose proof (Z.mod_pos_bound t (10 ^ j) ltac:(lia)).
    destruct (take_digits_show (t / 10 ^ j) ("." +:+ pad_dec (Z.to_nat j) (t mod 10 ^ j) ""))
      as (len & Hl & E); [apply Z.div_pos; lia|done|].
    rewrite E.
    change ("." +:+ ?s) with (String "."%char s). cbn [strip_prefix_char].
    change (Ascii.eqb "." ".") with true. cbv iota.
    rewrite take_digits_pad by lia. rewrite Z2Nat.id by lia. rewrite Z.mod_mod by lia.
    cbn [take_digits]. destruct (Nat.eqb_spec (len + (0 + Z.to_nat j)) 0); [lia|].
    cbn [parse_exponent]. do 2 f_equal; [|lia].
    pose proof (Z_div_mod_eq_full t (10 ^ j)). lia.
Qed.

Lemma dec_digits_head f n s :
  (0 < f)%nat -> 0 <= n -> exists c r, dec_digits f n s = String c r /\ is_ascii_digit c = true.
Proof.
  revert n s. induction f as [|f IH]; intros n s Hf Hn; [lia|]. cbn [dec_digits].
  destruct (Z.ltb_spec n 10).
  - do 2 eexists. split; [done|]. apply digit_char_digit. lia.
  - destruct f as [|f].
    + do 2 eexists. split; [done|]. apply digit_char_digit. apply Z.mod_pos_bound. lia.
    + apply IH; [lia|]. apply Z.div_pos; lia.
Qed.

Lemma show_decimal_head t p :
  0 <= t -> exists c s, show_decimal t p = String c s /\ is_ascii_digit c = true.
Proof.
  intros Ht. unfold show_decimal, show_nat. destruct (Z.leb_spec 0 p).
  - apply dec_digits_head; [lia|]. pose proof (Z.pow_nonneg 10 p). nia.
  - pose proof (Z.pow_pos_nonneg 10 (- p) ltac:(lia) ltac:(lia)).
    rewrite <- dec_digits_app. apply dec_digits_head; [lia|]. apply Z.div_pos; lia.
Qed.

Lemma take_sign_digit c s : is_ascii_digit c = true -> take_sign (String c s) = (false, String c s).
Proof.
  intros Hc. cbn [take_sign]. destruct (Ascii.eqb_spec c "-"%char) as [->|]; [done|].
  by destruct (Ascii.eqb_spec c "+"%char) as [->|].
Qed.

(** ** What the shortest digits stand for *)

Definition iv_ok (v : Interval) : Prop := 0 <= iv_n v /\ 0 < iv_d v /\ 0 <= iv_minus v /\ 0 <= iv_plus v.

(** [t] is within the margins. *)
Definition within (v : Interval) (t : Z) : Prop :=
  (t * iv_d v - iv_n v <= iv_plus v /\
   (t * iv_d v - iv_n v = iv_plus v -> iv_plus v = 0 \/ iv_inclusive v = true)) /\
  (iv_n v - t * iv_d v <= iv_minus v /\
   (iv_n v - t * iv_d v = iv_minus v -> iv_minus v = 0 \/ iv_inclusive v = true)).

Lemma near_integer_within v t :
  iv_ok v -> 0 < iv_plus v -> 0 < iv_minus v -> near_integer v = Some t -> 0 <= t /\ within v t.
Proof.
  intros (Hn & Hd & _) Hplus Hminus. unfold near_integer, within.
  pose proof (Z_div_mod_eq_full (iv_n v) (iv_d v)) as Hdm.
  pose proof (Z.mod_pos_bound (iv_n v) (iv_d v) Hd) as Hr.
  pose proof (Z.div_pos (iv_n v) (iv_d v) Hn Hd) as Hq.
  set (q := iv_n v / iv_d v) in *. set (r := iv_n v mod iv_d v) in *.
  destruct (((r <? iv_minus v) || iv_inclusive v && (r =? iv_minus v))) eqn:Hdown;
    destruct ((iv_d v <? r + iv_plus v) || iv_inclusive v && (iv_d v =? r + iv_plus v)) eqn:Hup;
    cbn [orb andb negb]; try done; [destruct (Z.leb_spec (iv_d v) (2 * r))|..]; intros [= <-];
    (split; [lia|]); destruct (iv_inclusive v); cbn [andb orb] in *;
    rewrite ?orb_false_r in *; lia.
Qed.

Lemma near_integer_none v :
  iv_ok v -> near_integer v = None -> iv_minus v + iv_plus v <= iv_d v.
Proof.
  intros (Hn & Hd & _). unfold near_integer.
  pose proof (Z.mod_pos_bound (iv_n v) (iv_d v) Hd) as Hr. set (r := iv_n v mod iv_d v) in *.
  destruct (Z.ltb_spec r (iv_minus v)); [done|].
  destruct (Z.ltb_spec (iv_d v) (r + iv_plus v)); [by rewrite !orb_true_r|]. lia.
Qed.

Lemma rescale_ok v p : iv_ok v -> iv_ok (rescale v p).
Proof.
  intros (Hn & Hd & Hm & Hp). unfold iv_ok, rescale. destruct (Z.leb_spec 0 p); cbn.
  - pose proof (Z.pow_pos_nonneg 10 p). nia.
  - pose proof (Z.pow_pos_nonneg 10 (- p)). nia.
Qed.

Lemma shortest_some fuel v p t q :
  shortest fuel v p = Some (t, q) -> near_integer (rescale v q) = Some t.
Proof.
  revert p. induction fuel as [|fuel IH]; intros p; [done|]. cbn [shortest].
  destruct (near_integer (rescale v p)) eqn:E; [|by apply IH]. by intros [= <- <-].
Qed.

Lemma shortest_none fuel v p i :
  shortest fuel v p = None -> 0 <= i < Z.of_nat fuel -> near_integer (rescale v (p - i)) = None.
Proof.
  revert p i. induction fuel as [|fuel IH]; intros p i; [lia|]. cbn [shortest].
  destruct (near_integer (rescale v p)) eqn:E; [done|]. intros Hs Hi.
  destruct (decide (i = 0)) as [->|]; [by rewrite Z.sub_0_r|].
  replace (p - i) with (p - 1 - (i - 1)) by lia. apply IH; [done|lia].
Qed.

Section double.
(** The significand and exponent of a finite double, not zero. *)
Context (r e : Z) (Hr : 0 < r < P53) (He : -1074 <= e <= 971) (Hc : e = -1074 \/ P52 <= r).

Abbreviation v := (interval_of r e).

Lemma interval_ok : iv_ok v /\ 0 < iv_plus v /\ 0 < iv_minus v.
Proof using Hr.
  clear Hc.
  unfold iv_ok, interval_of. cbn. pose proof (pow2_pos (Z.max 0 e)). pose proof (pow2_pos (Z.max 0 (- e))).
  destruct (r =? P52); nia.
Qed.

Lemma pow_bound a b k : 1 < a -> 0 <= k -> a <= b -> a ^ k <= b ^ k.
Proof. intros. apply Z.pow_le_mono_l. lia. Qed.

Lemma shortest_total : exists t p, shortest SHORTEST_FUEL v (above r e) = Some (t, p).
Proof using Hr He Hc.
  destruct (shortest SHORTEST_FUEL v (above r e)) as [[t p]|] eqn:E; [by exists t, p|exfalso].
  apply shortest_none with (i := 399) in E; [|by vm_compute].
  destruct interval_ok as (Hok & Hp & Hm).
  apply near_integer_none in E; [|by apply rescale_ok].
  pose proof (Z.log2_nonneg r) as Hl0.
  assert (Hl : Z.log2 r < 53) by (apply Z.log2_lt_pow2; [lia|change (2 ^ 53) with P53; lia]).
  assert (Ha : above r e <= 342 /\ (e < 0 -> above r e <= 18)).
  { unfold above. destruct (Z.leb_spec 0 (Z.log2 r + e)).
    - assert ((Z.log2 r + e) / 3 <= 341) by (apply Z.div_le_upper_bound; lia). split; [lia|].
      intros. assert ((Z.log2 r + e) / 3 <= 17) by (apply Z.div_le_upper_bound; lia). lia.
    - pose proof (Z.div_pos (- (Z.log2 r + e) - 1) 4 ltac:(lia) ltac:(lia)). lia. }
  unfold rescale in E. destruct (Z.leb_spec 0 (above r e - 399)); [lia|]. cbn in E.
  set (k := - (above r e - 399)) in *. unfold SpecFloat.emin in *.
  assert (Hb : 8 ^ k <= 10 ^ k) by (apply pow_bound; lia). change 8 with (2 ^ 3) in Hb.
  rewrite <- Z.pow_mul_r in Hb by lia.
  destruct (Z.le_gt_cases 0 e).
  - rewrite (Z.max_l 0 (- e)) in E by lia. pose proof (pow2_pos (Z.max 0 e)).
    assert (2 ^ 171 <= 2 ^ (3 * k)) by (apply Z.pow_le_mono_r; lia).
    assert (16 <= 10 ^ k) by (change 16 with (2 ^ 4); pose proof (Z.pow_le_mono_r 2 4 171); lia).
    destruct (r =? P52); nia.
  - rewrite (Z.max_r 0 (- e)), (Z.max_l 0 e) in E by lia.
    assert (2 ^ (3 - e) <= 2 ^ (3 * k)) by (apply Z.pow_le_mono_r; lia).
    replace (2 ^ (3 - e)) with (8 * 2 ^ (- e)) in H1.
    2: { replace (3 - e) with (3 + - e) by lia. by rewrite Z.pow_add_r by lia. }
    pose proof (pow2_pos (- e)). rewrite Z.pow_0_r in E. destruct (r =? P52); lia.
Qed.

Abbreviation m := ((e + 1074) * P52 + r).

(** The margins, over the denominator of the decimal [t * 10 ^ p]. *)
Lemma margins t p (a := t * 10 ^ Z.max 0 p) (b := 10 ^ Z.max 0 (- p))
    (u := 2 ^ Z.max 0 e) (w := 2 ^ Z.max 0 (- e)) :
  within (rescale v p) t ->
  (4 * a * w <= (4 * r + 2) * u * b /\
   (4 * a * w = (4 * r + 2) * u * b -> Z.even r = true)) /\
  ((4 * r - (if r =? P52 then 1 else 2)) * u * b <= 4 * a * w /\
   ((4 * r - (if r =? P52 then 1 else 2)) * u * b = 4 * a * w -> Z.even r = true)).
Proof using Type.
  clear Hr He Hc.
  assert (Hres : rescale v p = mk_interval (iv_n v * b) (iv_d v * 10 ^ Z.max 0 p)
                                 (iv_minus v * b) (iv_plus v * b) (iv_inclusive v)).
  { unfold rescale, b. destruct (Z.leb_spec 0 p).
    - rewrite (Z.max_r 0 p), (Z.max_l 0 (- p)) by lia. by rewrite Z.pow_0_r, !Z.mul_1_r.
    - rewrite (Z.max_l 0 p), (Z.max_r 0 (- p)) by lia. by rewrite Z.pow_0_r, !Z.mul_1_r. }
  rewrite Hres. unfold within, interval_of. cbn. fold u w.
  pose proof (pow2_pos (Z.max 0 e) ltac:(lia)) as Hu. fold u in Hu.
  pose proof (Z.pow_pos_nonneg 10 (Z.max 0 (- p)) ltac:(lia) ltac:(lia)) as Hb. fold b in Hb.
  assert (Hx : 0 < u * b) by nia.
  replace (t * (4 * w * 10 ^ Z.max 0 p)) with (4 * a * w) by (unfold a; ring).
  replace (4 * r * u * b) with (4 * r * (u * b)) by ring.
  replace (2 * u * b) with (2 * (u * b)) by ring.
  rewrite <- !(Z.mul_assoc _ u b).
  replace ((if r =? P52 then u else 2 * u) * b)
    with ((if r =? P52 then 1 else 2) * (u * b)) by (destruct (r =? P52); ring).
  set (x := u * b) in *. set (y := 4 * a * w).
  destruct (r =? P52); intros [[H1 H2] [H3 H4]]; (split; (split; [lia|intros Heq]));
    (destruct H2 as [?|?]; [lia|lia|done]) || (destruct H4 as [?|?]; [lia|lia|done]).
Qed.

(** A decimal within the margins rounds back. *)
Lemma within_rounds t p :
  0 <= t -> within (rescale v p) t -> decimal_magnitude t p = m.
Proof using Hr He Hc.
  intros Ht Hw. apply margins in Hw.
  set (a := t * 10 ^ Z.max 0 p) in *. set (b := 10 ^ Z.max 0 (- p)) in *.
  set (u := 2 ^ Z.max 0 e) in *. set (w := 2 ^ Z.max 0 (- e)) in *.
  assert (Hd : decimal_magnitude t p = round_units (a * 2 ^ 1074) b).
  { unfold decimal_magnitude, a, b. destruct (Z.leb_spec 0 p).
    - by rewrite (Z.max_r 0 p), (Z.max_l 0 (- p)) by lia.
    - rewrite (Z.max_l 0 p), (Z.max_r 0 (- p)) by lia. by rewrite Z.pow_0_r, Z.mul_1_r. }
  rewrite Hd. clear Hd. set (E := e + 1074) in *. set (M := E * P52 + r).
  assert (HE : 0 <= E) by lia.
  assert (Hu : u * 2 ^ 1074 = 2 ^ E * w) by (unfold u, w, E; rewrite <- !Z.pow_add_r by lia; f_equal; lia).
  assert (Hwp : 0 < w) by (apply pow2_pos; lia). assert (Hbp : 0 < b) by (apply Z.pow_pos_nonneg; lia).
  assert (Hap : 0 <= a) by (unfold a; pose proof (Z.pow_pos_nonneg 10 (Z.max 0 p)); nia).
  pose proof (pow2_pos 1074 ltac:(lia)) as HT. pose proof (pow2_pos E HE) as H2E.
  set (T := 2 ^ 1074) in *.
  assert (Hscale : forall k, 4 * a * w <= k * u * b <-> 4 * (a * T) <= k * 2 ^ E * b).
  { intros k. rewrite (Z.mul_le_mono_pos_r _ _ T HT), (Z.mul_le_mono_pos_r (4 * (a * T)) _ w Hwp).
    replace (k * u * b * T) with (k * b * (u * T)) by ring. rewrite Hu.
    replace (k * b * (2 ^ E * w)) with (k * 2 ^ E * b * w) by ring.
    by replace (4 * a * w * T) with (4 * (a * T) * w) by ring. }
  assert (Hscale' : forall k, k * u * b <= 4 * a * w <-> k * 2 ^ E * b <= 4 * (a * T)).
  { intros k. rewrite (Z.mul_le_mono_pos_r _ _ T HT), (Z.mul_le_mono_pos_r _ (4 * (a * T)) w Hwp).
    replace (k * u * b * T) with (k * b * (u * T)) by ring. rewrite Hu.
    replace (k * b * (2 ^ E * w)) with (k * 2 ^ E * b * w) by ring.
    by replace (4 * a * w * T) with (4 * (a * T) * w) by ring. }
  destruct Hw as [[H1 H2] [H3 H4]].
  assert (H2' : 4 * (a * T) = (4 * r + 2) * 2 ^ E * b -> Z.even r = true).
  { intros Heq. apply H2. apply Z.le_antisymm; [done|]. apply Hscale'. lia. }
  assert (H4' : (4 * r - (if r =? P52 then 1 else 2)) * 2 ^ E * b = 4 * (a * T) -> Z.even r = true).
  { intros Heq. apply H4. apply Z.le_antisymm; [done|]. apply Hscale. lia. }
  apply Hscale in H1. apply Hscale' in H3. clear H2 H4 Hscale Hscale'. clearbody T.
  assert (Hm0 : units M = r * 2 ^ E) by (apply units_scaled; lia).
  assert (Hm1 : units (M + 1) = (r + 1) * 2 ^ E) by (unfold M; rewrite <- Z.add_assoc; apply units_scaled; lia).
  assert (Hev : Z.even M = Z.even r).
  { unfold M. rewrite Z.even_add, Z.even_mul. cbn. rewrite orb_true_r. by destruct (Z.even r). }
  set (x := 2 ^ E * b) in *. rewrite <- !(Z.mul_assoc _ (2 ^ E) b) in *. fold x in H1, H2', H3, H4'.
  assert (Hx : 0 < x) by (unfold x; nia).
  assert (Hsum : (units M + units (M + 1)) * b = (2 * r + 1) * x) by (rewrite Hm0, Hm1; unfold x; ring).
  assert (Hlow : exists k, (units (M - 1) + units M) * b * 4 = (8 * r - k) * x /\
            ((r =? P52) = false /\ k = 4 \/ (r =? P52) = true /\ (k = 2 \/ k = 4))).
  { destruct (decide (r = P52 /\ 0 < E)) as [[Hr52 HE0]|Hn].
    - exists 2. split; [|right; split; [lia|by left]].
      replace (M - 1) with ((E - 1) * P52 + (P53 - 1)) by lia. rewrite units_scaled, Hm0 by lia.
      unfold x. replace (2 ^ E) with (2 * 2 ^ (E - 1)).
      { rewrite Hr52. ring. }
      rewrite <- Z.pow_succ_r by lia. f_equal. lia.
    - exists 4. replace (M - 1) with (E * P52 + (r - 1)) by lia. rewrite units_scaled, Hm0 by lia.
      split; [unfold x; ring|]. destruct (Z.eqb_spec r P52); [right|left]; auto. }
  destruct Hlow as (k & Hlow & Hk).
  set (N := a * T) in *. assert (HN : 0 <= N) by (apply Z.mul_nonneg_nonneg; lia). clearbody N x.
  assert (Hup : 2 * N <= (units M + units (M + 1)) * b).
  { rewrite Hsum. clear -H1. lia. }
  assert (Hdown : (units (M - 1) + units M) * b <= 2 * N).
  { clear -Hlow Hk H3 Hx. destruct Hk as [[Hk ->]|[Hk [->| ->]]]; rewrite Hk in H3; lia. }
  apply round_units_near; [done|done|lia|done| |by right|].
  - rewrite Hev. intros Heq. apply H2'. rewrite Hsum in Heq. clear -Heq. lia.
  - rewrite Hev. intros Heq. right. apply H4'.
    clear -Hlow Hk H3 Hx Heq. destruct Hk as [[Hk ->]|[Hk [->| ->]]]; rewrite Hk in *; lia.
Qed.
End double.

(** A finite magnitude is written as a decimal that rounds to it. *)
Lemma show_magnitude_reads m :
  0 <= m < inf_bits ->
  exists t p, 0 <= t /\ show_magnitude m = Some (show_decimal t p) /\ decimal_magnitude t p = m.
Proof.
  intros Hm. unfold show_magnitude. destruct (Z.eqb_spec m 0) as [->|Hne].
  { exists 0, 0. done. }
  pose proof (Z_div_mod_eq_full m P52) as Hd. pose proof (Z.mod_pos_bound m P52 ltac:(lia)) as Hr.
  set (e := Z.max 0 (m / P52 - 1)). set (r := m - e * P52).
  assert (Hrr : 0 < r < P53 /\ (e - 1074 = -1074 \/ P52 <= r) /\ -1074 <= e - 1074 <= 971).
  { unfold r, e. destruct (decide (m / P52 = 0)) as [H0|H0]; [rewrite H0 in *; cbn; lia|].
    assert (0 < m / P52) by (pose proof (Z.div_pos m P52); lia). lia. }
  destruct Hrr as (Hr1 & Hc & He).
  destruct (shortest_total r (e - 1074) Hr1 He Hc) as (t & p & E). rewrite E.
  apply shortest_some in E. destruct (interval_ok r (e - 1074) Hr1) as (Hok & Hp & Hmn).
  assert (Hpow : 0 < 10 ^ (- p) \/ 0 <= p)
    by (destruct (Z.le_gt_cases 0 p); [by right|left; apply Z.pow_pos_nonneg; lia]).
  apply near_integer_within in E as [Ht Hw]; [|by apply rescale_ok|..].
  - exists t, p. split; [done|]. split; [done|].
    rewrite (within_rounds r (e - 1074) Hr1 He Hc t p Ht Hw). unfold r. lia.
  - unfold rescale. destruct (Z.leb_spec 0 p); cbn -[interval_of]; [done|]. apply Z.mul_pos_pos; lia.
  - unfold rescale. destruct (Z.leb_spec 0 p); cbn -[interval_of]; [done|]. apply Z.mul_pos_pos; lia.
Qed.

Lemma decimal_magnitude_whole t p : 0 <= p -> decimal_magnitude (t * 10 ^ p) 0 = decimal_magnitude t p.
Proof.
  intros Hp. unfold decimal_magnitude. rewrite (proj2 (Z.leb_le 0 p)) by done.
  change (0 <=? 0) with true. by rewrite Z.pow_0_r, Z.mul_1_r.
Qed.

Lemma parse_magnitude_shown t p :
  0 <= t -> parse_magnitude (show_decimal t p) = Some (decimal_magnitude t p).
Proof.
  intros Ht. unfold parse_magnitude. rewrite parse_show_decimal by done.
  destruct (Z.leb_spec 0 p); [|reflexivity]. by rewrite decimal_magnitude_whole.
Qed.

Lemma parse_signed_text (s : bool) text :
  (exists c r, text = String c r /\ is_ascii_digit c = true) \/ text = "inf" ->
  parse_f64 ((if s then "-" else "") +:+ text) = option_map (signed s) (parse_magnitude text).
Proof.
  intros Ht. unfold parse_f64. destruct s.
  - change ("-" +:+ text) with (String "-" text). cbn [take_sign].
    change (Ascii.eqb "-" "-") with true. cbv iota. by destruct (parse_magnitude text).
  - change ("" +:+ text) with text.
    destruct Ht as [(c & r & -> & Hc)| ->]; [|by vm_compute].
    rewrite take_sign_digit by done. by destruct (parse_magnitude (String c r)).
Qed.

Lemma parse_inf : parse_magnitude "inf" = Some inf_bits.
Proof. reflexivity. Qed.

(** What [Display] writes of a double, [FromStr] reads back. *)
Theorem parse_show_f64 x : is_u64 x -> is_nan x = false -> parse_f64 (show_f64 x) = Some x.
Proof.
  intros Hx Hn. unfold show_f64. rewrite Hn. pose proof (signed_parts x Hx) as Hs.
  destruct (Z.eqb_spec (magnitude x) inf_bits) as [Hi|Hi].
  - rewrite parse_signed_text by auto. rewrite parse_inf. cbn [option_map]. by rewrite <- Hi, Hs.
  - pose proof (magnitude_bound x Hx). unfold is_nan in Hn. apply Z.ltb_ge in Hn.
    destruct (show_magnitude_reads (magnitude x) ltac:(lia)) as (t & p & Ht & -> & Hm).
    cbn [default from_option id]. rewrite parse_signed_text by (left; apply show_decimal_head; done).
    rewrite parse_magnitude_shown, Hm by done. cbn [option_map]. by rewrite Hs.
Qed.
