(* ===== verification/Binary64.v ===== *)
(** * Binary64: exact and monotone arithmetic on doubles

    Consequences of [Rounding] that the components use: comparisons compare the
    values, the operations are monotone because rounding is ([rkey_mono]),
    whole numbers up to [2 ^ 53] are added, subtracted, multiplied and compared
    exactly ([num]), and a remainder is exact. *)

From Stdlib Require Import ZArith Lia.
From Corelib Require Import Floats.SpecFloat.
From stdpp Require Import prelude numbers.
From S2P Require Import Prelude F64 Windows Durations Rounding.

Abbreviation U := (2 ^ 1074).

(** A double that is not a NaN nor an infinity. *)
Definition finite (x : f64) : Prop := is_u64 x /\ is_finite x = true.

Lemma finite_parts x : finite x -> is_u64 x /\ is_finite x = true /\ is_nan x = false /\ 0 <= magnitude x < inf_bits.
Proof.
  intros [Hx Hf]. pose proof (finite_not_nan x Hf). pose proof (finite_magnitude x Hx Hf). auto.
Qed.

(** ** More of the standard library's operations *)

(** [x.abs()]. *)
Definition f64_abs (x : f64) : f64 := magnitude x.

(** [a.min(b)], [a.max(b)]: a NaN gives way to the other. *)
Definition f64_min (a b : f64) : f64 :=
  if is_nan a then b else if is_nan b then a else if f64_lt b a then b else a.
Definition f64_max (a b : f64) : f64 :=
  if is_nan a then b else if is_nan b then a else if f64_lt a b then b else a.

(** A whole number with the sign of [x]. *)
Definition whole (x : f64) (n : Z) : f64 := signed (sign x) (round_units (n * U) 1).

(** [x.ceil()]. *)
Definition f64_ceil (x : f64) : f64 :=
  if is_finite x then whole x (Z.abs (- (- value x / U))) else x.

(** [x.round()]: ties go away from zero. *)
Definition f64_round (x : f64) : f64 :=
  if is_finite x then whole x ((2 * Z.abs (value x) + U) / (2 * U)) else x.

(** [a.rem_euclid(b)]. *)
Definition f64_rem_euclid (a b : f64) : f64 :=
  let r := f64_rem a b in
  if f64_lt r 0 then f64_add r (f64_abs b) else r.

Example ceils : map f64_ceil [4608083138725491507; 13831455175580267315; 4613937818241073152; 4602678819172646912 + sign_bit]
  = [4611686018427387904; 13830554455654793216; 4613937818241073152; sign_bit].
Proof. vm_compute. reflexivity. Qed.
Example rounds : map f64_round [4602678819172646912; 4612811918334230528; 4608083138725491507; sign_bit]
  = [4607182418800017408; 4613937818241073152; 4607182418800017408; sign_bit].
Proof. vm_compute. reflexivity. Qed.

(** ** Order *)

(** The integer that orders a rounded number. *)
Definition rkey (v : Z) : Z := if v <? 0 then - round_units (- v) 1 else round_units v 1.

Lemma rkey_mono v w : v <= w -> rkey v <= rkey w.
Proof.
  intros H. unfold rkey. destruct (Z.ltb_spec v 0), (Z.ltb_spec w 0).
  - pose proof (round_units_mono (- w) 1 (- v) 1). lia.
  - pose proof (round_units_range (- v) 1). pose proof (round_units_range w 1). lia.
  - lia.
  - pose proof (round_units_mono v 1 w 1). lia.
Qed.

Lemma rounded_u64 s v : is_u64 (rounded s v).
Proof.
  unfold rounded. apply signed_u64. pose proof (round_units_range (Z.abs v) 1). lia.
Qed.

Lemma key_signed s m : 0 <= m < sign_bit -> key (signed s m) = if s then - m else m.
Proof. intros H. unfold key. by rewrite sign_signed, magnitude_signed. Qed.

Lemma is_nan_signed s m : 0 <= m <= inf_bits -> is_nan (signed s m) = false.
Proof. intros H. unfold is_nan. rewrite magnitude_signed by lia. apply Z.ltb_ge. lia. Qed.

Lemma is_finite_signed s m : 0 <= m < inf_bits -> is_finite (signed s m) = true.
Proof. intros H. unfold is_finite. rewrite magnitude_signed by lia. apply Z.ltb_lt. lia. Qed.

Lemma signed_finite s m : 0 <= m < inf_bits -> finite (signed s m).
Proof. intros H. split; [apply signed_u64; lia|by apply is_finite_signed]. Qed.

Lemma key_rounded s v : key (rounded s v) = rkey v.
Proof.
  unfold rounded, rkey. pose proof (round_units_range (Z.abs v) 1 ltac:(lia) ltac:(lia)).
  rewrite key_signed by lia. destruct (Z.eqb_spec v 0) as [->|Hv].
  - change (Z.abs 0) with 0. cbn [Z.ltb]. rewrite round_units_0 by done. by destruct s.
  - destruct (Z.ltb_spec v 0); f_equal; f_equal; lia.
Qed.

Lemma rounded_not_nan s v : is_nan (rounded s v) = false.
Proof. apply is_nan_signed. pose proof (round_units_range (Z.abs v) 1). lia. Qed.

Lemma rkey_value x : finite x -> rkey (value x) = key x.
Proof. intros [Hx Hf]. by rewrite <- (key_rounded (sign x)), rounded_value. Qed.

Lemma value_lt x y :
  is_u64 x -> is_u64 y -> value x < value y <-> key x < key y.
Proof.
  intros Hx Hy. pose proof (magnitude_bound x Hx). pose proof (magnitude_bound y Hy).
  unfold value, key. pose proof (units_nonneg (magnitude x)). pose proof (units_nonneg (magnitude y)).
  pose proof (units_lt (magnitude x) (magnitude y)). pose proof (units_lt (magnitude y) (magnitude x)).
  pose proof (units_lt 0 (magnitude x)). pose proof (units_lt 0 (magnitude y)).
  change (units 0) with 0 in *. destruct (sign x), (sign y); lia.
Qed.

Lemma lt_value x y :
  is_u64 x -> is_u64 y -> is_nan x = false -> is_nan y = false -> f64_lt x y = (value x <? value y).
Proof.
  intros Hx Hy Hn Hm. unfold f64_lt. rewrite Hn, Hm. cbn [negb andb].
  pose proof (value_lt x y Hx Hy).
  destruct (Z.ltb_spec (key x) (key y)), (Z.ltb_spec (value x) (value y)); tauto || lia.
Qed.

Lemma le_value x y :
  is_u64 x -> is_u64 y -> is_nan x = false -> is_nan y = false -> f64_le x y = (value x <=? value y).
Proof.
  intros Hx Hy Hn Hm. unfold f64_le. rewrite Hn, Hm. cbn [negb andb].
  pose proof (value_lt y x Hy Hx).
  destruct (Z.leb_spec (key x) (key y)), (Z.leb_spec (value x) (value y)); lia.
Qed.

(** ** What is representable *)

(** A significand of 53 bits at any exponent. *)
Lemma representable r e :
  0 <= r < P53 -> 0 <= e -> exists k, 0 <= k /\ units k = r * 2 ^ e.
Proof.
  intros Hr He. destruct (decide (r = 0)) as [->|Hne]; [by exists 0|].
  pose proof (Z.log2_spec r ltac:(lia)) as [H1 H2]. pose proof (Z.log2_nonneg r) as H0.
  assert (Hl : Z.log2 r < 53) by (apply Z.log2_lt_pow2; [lia|change (2 ^ 53) with P53; lia]).
  set (s := Z.min e (52 - Z.log2 r)). assert (Hs : 0 <= s) by lia.
  exists ((e - s) * P52 + r * 2 ^ s).
  assert (Hb : r * 2 ^ s < P53).
  { change P53 with (2 ^ 53). eapply Z.lt_le_trans.
    - apply Z.mul_lt_mono_pos_r; [by apply pow2_pos|exact H2].
    - rewrite <- Z.pow_add_r by lia. apply Z.pow_le_mono_r; lia. }
  pose proof (pow2_pos s Hs).
  split; [nia|]. rewrite units_scaled; [|lia|nia|].
  - rewrite <- Z.mul_assoc, <- Z.pow_add_r by lia. do 2 f_equal. lia.
  - destruct (decide (s = e)); [left; lia|right].
    assert (Hse : s = 52 - Z.log2 r) by lia. rewrite Hse. change P52 with (2 ^ 52).
    replace (2 ^ 52) with (2 ^ Z.log2 r * 2 ^ (52 - Z.log2 r)).
    + apply Z.mul_le_mono_nonneg_r; [|done]. apply Z.lt_le_incl, pow2_pos. lia.
    + rewrite <- Z.pow_add_r by lia. f_equal. lia.
Qed.

(** The number of units past the greatest finite double. *)
Lemma units_inf : units inf_bits = P52 * 2 ^ 2046.
Proof. reflexivity. Qed.

Lemma exact_magnitude r e :
  0 <= r < P53 -> 0 <= e -> r * 2 ^ e < units inf_bits ->
  exists k, 0 <= k < inf_bits /\ units k = r * 2 ^ e /\ round_units (r * 2 ^ e) 1 = k.
Proof.
  intros Hr He Hb. destruct (representable r e Hr He) as (k & Hk & Hu).
  assert (k < inf_bits) by (apply units_lt; lia).
  exists k. split; [done|]. split; [done|]. rewrite <- Hu, <- (Z.mul_1_r (units k)).
  by apply round_units_exact.
Qed.

(** What is representable is rounded to itself. *)
Lemma rounded_exact s v r e :
  Z.abs v = r * 2 ^ e -> 0 <= r < P53 -> 0 <= e -> Z.abs v < units inf_bits ->
  finite (rounded s v) /\ value (rounded s v) = v.
Proof.
  intros Hv Hr He Hb. destruct (exact_magnitude r e Hr He) as (k & Hk & Hu & Hround); [lia|].
  unfold rounded. rewrite Hv, Hround. split; [by apply signed_finite|].
  rewrite value_signed by lia. rewrite Hu, <- Hv.
  destruct (Z.eqb_spec v 0) as [->|]; [by destruct s|]. destruct (Z.ltb_spec v 0); lia.
Qed.

(** ** Whole numbers *)

(** The double of an integer. *)
Definition num (n : Z) : f64 := rounded false (n * U).

Lemma num_exact n : Z.abs n <= P53 -> finite (num n) /\ value (num n) = n * U.
Proof.
  intros Hn. pose proof (pow2_pos 1074 ltac:(lia)) as HU.
  assert (Hb : Z.abs (n * U) < units inf_bits).
  { rewrite units_inf, Z.abs_mul, (Z.abs_eq U) by lia.
    replace (2 ^ 2046) with (2 ^ 972 * U) by (rewrite <- Z.pow_add_r by lia; done).
    rewrite Z.mul_assoc. apply Z.mul_lt_mono_pos_r; [done|].
    assert (4 <= 2 ^ 972) by (change 4 with (2 ^ 2); apply Z.pow_le_mono_r; lia). lia. }
  destruct (decide (Z.abs n = P53)) as [He|He].
  - apply (rounded_exact false (n * U) P52 1075); [|lia|lia|done].
    rewrite Z.abs_mul, (Z.abs_eq U), He by lia. reflexivity.
  - apply (rounded_exact false (n * U) (Z.abs n) 1074); [|lia|lia|done].
    rewrite Z.abs_mul, (Z.abs_eq U); lia.
Qed.

Lemma of_u64_num n : 0 <= n -> f64_of_u64 n = num n.
Proof.
  intros Hn. rewrite of_u64_rounds by done. unfold num, rounded, signed.
  pose proof (pow2_pos 1074 ltac:(lia)) as HU.
  rewrite Z.abs_eq by nia. destruct (Z.eqb_spec (n * U) 0); [lia|].
  destruct (Z.ltb_spec (n * U) 0); [nia|lia].
Qed.

Lemma sign_rounded s v : sign (rounded s v) = if v =? 0 then s else v <? 0.
Proof.
  unfold rounded. apply sign_signed. pose proof (round_units_range (Z.abs v) 1). lia.
Qed.

Lemma sign_num n : sign (num n) = (n <? 0).
Proof.
  unfold num. rewrite sign_rounded. pose proof (pow2_pos 1074 ltac:(lia)) as HU.
  destruct (Z.eqb_spec (n * U) 0), (Z.ltb_spec (n * U) 0), (Z.ltb_spec n 0); nia || done.
Qed.

Lemma rounded_sign s s' v : (v = 0 -> s = s') -> rounded s v = rounded s' v.
Proof. intros H. unfold rounded. destruct (Z.eqb_spec v 0); [by rewrite H|done]. Qed.

Lemma add_num a b :
  Z.abs a <= P53 -> Z.abs b <= P53 -> f64_add (num a) (num b) = num (a + b).
Proof.
  intros Ha Hb. destruct (num_exact a Ha) as [[] Va], (num_exact b Hb) as [[] Vb].
  rewrite add_rounds by done. rewrite Va, Vb, !sign_num, <- Z.mul_add_distr_r.
  apply rounded_sign. pose proof (pow2_pos 1074 ltac:(lia)). intros Hz.
  assert (a + b = 0) by nia. destruct (Z.ltb_spec a 0), (Z.ltb_spec b 0); lia || done.
Qed.

Lemma sub_num a b :
  Z.abs a <= P53 -> Z.abs b <= P53 -> f64_sub (num a) (num b) = num (a - b).
Proof.
  intros Ha Hb. destruct (num_exact a Ha) as [[] Va], (num_exact b Hb) as [[] Vb].
  rewrite sub_rounds by done. rewrite Va, Vb, !sign_num, <- Z.mul_sub_distr_r.
  apply rounded_sign. pose proof (pow2_pos 1074 ltac:(lia)). intros Hz.
  assert (a - b = 0) by nia. destruct (Z.ltb_spec a 0), (Z.ltb_spec b 0); lia || done.
Qed.

Lemma units_magnitude x : units (magnitude x) = Z.abs (value x) \/ units (magnitude x) < 0.
Proof. unfold value. destruct (sign x); lia. Qed.

Lemma finite_units x : finite x -> units (magnitude x) = Z.abs (value x).
Proof.
  intros Hx%finite_parts. pose proof (units_nonneg (magnitude x)).
  destruct (units_magnitude x); [done|lia].
Qed.

(** A product or quotient of non-negative doubles. *)
Lemma mul_values a b :
  finite a -> finite b -> sign a = false -> sign b = false ->
  f64_mul a b = round_units (value a * value b) U.
Proof.
  intros Ha Hb Sa Sb. rewrite mul_rounds by (apply Ha || apply Hb).
  rewrite Sa, Sb. unfold signed, value. rewrite Sa, Sb. cbn. lia.
Qed.

Lemma div_values a b :
  finite a -> finite b -> sign a = false -> sign b = false -> value b <> 0 ->
  f64_div a b = round_units (value a * U) (value b).
Proof.
  intros Ha Hb Sa Sb H0. rewrite div_rounds; try (apply Ha || apply Hb).
  - rewrite Sa, Sb. unfold signed, value. rewrite Sa, Sb. cbn. lia.
  - intros E. apply H0. unfold value. rewrite Sb, E. done.
Qed.

Lemma num_nonneg n : 0 <= n -> num n = round_units (n * U) 1.
Proof. intros. rewrite <- of_u64_num by done. by apply of_u64_rounds. Qed.

Lemma mul_num a b : 0 <= a <= P53 -> 0 <= b <= P53 -> f64_mul (num a) (num b) = num (a * b).
Proof.
  intros Ha Hb. destruct (num_exact a ltac:(lia)) as [Fa Va], (num_exact b ltac:(lia)) as [Fb Vb].
  rewrite mul_values; [|done|done|rewrite sign_num; lia|rewrite sign_num; lia].
  pose proof (pow2_pos 1074 ltac:(lia)) as HU.
  rewrite Va, Vb, num_nonneg by nia. set (u := U) in *. apply round_units_eq; nia.
Qed.

(** A product with a whole number. *)
Lemma mul_num_right x n :
  finite x -> sign x = false -> 0 <= n <= P53 ->
  f64_mul x (num n) = round_units (value x * n) 1.
Proof.
  intros Hx Hs Hn. destruct (num_exact n ltac:(lia)) as [Fn Vn].
  rewrite mul_values; [|done|done|done|rewrite sign_num; lia]. rewrite Vn, Z.mul_assoc.
  assert (0 <= value x).
  { unfold value. rewrite Hs. apply finite_parts in Hx. apply units_nonneg. lia. }
  rewrite <- (Z.mul_1_l U) at 2. apply round_units_scale; [nia|lia|by apply pow2_pos].
Qed.

(** The quotient of whole numbers, exact when it is whole. *)
Lemma div_num a b :
  0 <= a <= P53 -> 0 < b <= P53 -> f64_div (num a) (num b) = round_units (a * U) b.
Proof.
  intros Ha Hb. destruct (num_exact a ltac:(lia)) as [Fa Va], (num_exact b ltac:(lia)) as [Fb Vb].
  pose proof (pow2_pos 1074 ltac:(lia)) as HU.
  rewrite div_values; [|done|done|rewrite sign_num; lia|rewrite sign_num; lia|rewrite Vb; nia].
  rewrite Va, Vb. set (u := U) in *.
  assert (0 <= a * u) by nia. apply round_units_scale; lia.
Qed.

Lemma div_num_exact q b : 0 <= q -> 0 < b <= P53 -> q * b <= P53 -> f64_div (num (q * b)) (num b) = num q.
Proof.
  intros Hq Hb H. rewrite div_num by nia. rewrite num_nonneg by done.
  pose proof (pow2_pos 1074 ltac:(lia)).
  rewrite <- (round_units_scale (q * U) 1 b); [f_equal; ring| |lia|lia].
  apply Z.mul_nonneg_nonneg; lia.
Qed.

Lemma lt_num a b : Z.abs a <= P53 -> Z.abs b <= P53 -> f64_lt (num a) (num b) = (a <? b).
Proof.
  intros Ha Hb. destruct (num_exact a Ha) as [Fa Va], (num_exact b Hb) as [Fb Vb].
  apply finite_parts in Fa as (? & ? & ? & _), Fb as (? & ? & ? & _).
  rewrite lt_value by done. rewrite Va, Vb. pose proof (pow2_pos 1074 ltac:(lia)).
  destruct (Z.ltb_spec (a * U) (b * U)), (Z.ltb_spec a b); nia || done.
Qed.

Lemma le_num a b : Z.abs a <= P53 -> Z.abs b <= P53 -> f64_le (num a) (num b) = (a <=? b).
Proof.
  intros Ha Hb. destruct (num_exact a Ha) as [Fa Va], (num_exact b Hb) as [Fb Vb].
  apply finite_parts in Fa as (? & ? & ? & _), Fb as (? & ? & ? & _).
  rewrite le_value by done. rewrite Va, Vb. pose proof (pow2_pos 1074 ltac:(lia)).
  destruct (Z.leb_spec (a * U) (b * U)), (Z.leb_spec a b); nia || done.
Qed.

(** ** Remainders, ceilings and rounding *)

Lemma num_whole x n : 0 <= n -> sign x = false -> whole x n = num n.
Proof. intros Hn Hs. unfold whole. rewrite Hs, num_nonneg by done. unfold signed. lia. Qed.

Lemma ceil_nonneg x :
  finite x -> sign x = false -> f64_ceil x = num (- (- value x / U)).
Proof.
  intros Hx Hs. unfold f64_ceil. destruct (finite_parts x Hx) as (_ & -> & _ & Hm).
  pose proof (pow2_pos 1074 ltac:(lia)) as HU.
  assert (0 <= value x) by (unfold value; rewrite Hs; apply units_nonneg; lia).
  assert (- value x / U <= 0) by (apply Z.div_le_upper_bound; lia).
  rewrite Z.abs_eq by lia. apply num_whole; [lia|done].
Qed.

Lemma round_nonneg x :
  finite x -> sign x = false -> f64_round x = num ((2 * value x + U) / (2 * U)).
Proof.
  intros Hx Hs. unfold f64_round. destruct (finite_parts x Hx) as (_ & -> & _ & Hm).
  pose proof (pow2_pos 1074 ltac:(lia)) as HU.
  assert (0 <= value x) by (unfold value; rewrite Hs; apply units_nonneg; lia).
  rewrite Z.abs_eq by lia. apply num_whole; [|done]. apply Z.div_pos; lia.
Qed.

Lemma round_num n : 0 <= n <= P53 -> f64_round (num n) = num n.
Proof.
  intros Hn. destruct (num_exact n ltac:(lia)) as [Fn Vn].
  rewrite round_nonneg, Vn by (done || rewrite sign_num; lia). f_equal.
  pose proof (pow2_pos 1074 ltac:(lia)). symmetry.
  apply Z.div_unique with (r := U); [lia|ring].
Qed.

(** The exact remainder of non-negative doubles. *)
Lemma rem_exact a b :
  finite a -> finite b -> sign a = false -> sign b = false -> value b <> 0 ->
  finite (f64_rem a b) /\ sign (f64_rem a b) = false /\ value (f64_rem a b) = value a mod value b.
Proof.
  intros [Ha Hfa] [Hb Hfb] Sa Sb Hb0. unfold f64_rem.
  destruct (to_sf_finite b Hb Hfb) as [[_ Hm]|(q & f & -> & Hf & Hq & Hq53 & _)].
  { exfalso. apply Hb0. unfold value. by rewrite Sb, Hm. }
  pose proof (pow2_pos (f + 1074) ltac:(lia)).
  destruct (to_sf_finite a Ha Hfa) as [[-> Hm]|(p & e & -> & He & Hp & Hp53 & _)].
  { cbn [sf_rem of_sf]. rewrite Sa. unfold value at 2. rewrite Sa, Hm. done. }
  rewrite Sa, Sb. cbn [sf_rem]. unfold value at 2 3. rewrite Sa, Sb, Hp, Hq.
  pose proof (pow2_pos (e + 1074) ltac:(lia)).
  set (g := Z.min e f). pose proof (pow2_pos (g + 1074) ltac:(lia)) as Hg.
  rewrite !Z.shiftl_mul_pow2 by lia.
  set (r := (Zpos p * 2 ^ (e - g)) mod (Zpos q * 2 ^ (f - g))).
  pose proof (pow2_pos (f - g) ltac:(lia)). pose proof (pow2_pos (e - g) ltac:(lia)).
  assert (Hr : 0 <= r < Zpos q * 2 ^ (f - g)) by (apply Z.mod_pos_bound; lia).
  assert (Hrp : r <= Zpos p * 2 ^ (e - g)) by (apply Z.mod_le; lia).
  assert (Hr53 : r < P53).
  { destruct (decide (g = f)) as [->|]; [rewrite Z.sub_diag in Hr; lia|].
    assert (g = e) as Hge by lia. rewrite Hge, Z.sub_diag in Hrp. lia. }
  assert (Hval : r * 2 ^ (g + 1074) = (Zpos p * 2 ^ (e + 1074)) mod (Zpos q * 2 ^ (f + 1074))).
  { unfold r. rewrite <- Z.mul_mod_distr_r by lia. rewrite <- !Z.mul_assoc, <- !Z.pow_add_r by lia.
    by replace (e - g + (g + 1074)) with (e + 1074) by lia;
       replace (f - g + (g + 1074)) with (f + 1074) by lia. }
  rewrite (normalize_rounded r g (r * 2 ^ (g + 1074))) by (lia || done). rewrite <- Hval.
  assert (Hlt : r * 2 ^ (g + 1074) < units inf_bits).
  { pose proof (finite_magnitude b Hb Hfb). pose proof (units_lt (magnitude b) inf_bits ltac:(lia) ltac:(lia)).
    rewrite Hval, <- Hq in *.
    pose proof (Z.mod_pos_bound (Zpos p * 2 ^ (e + 1074)) (units (magnitude b)) ltac:(lia)). lia. }
  assert (Hnn : 0 <= r * 2 ^ (g + 1074)) by nia.
  destruct (rounded_exact false (r * 2 ^ (g + 1074)) r (g + 1074)) as [Hfin Hv]; [lia|lia|lia|lia|].
  split; [done|]. split; [|done]. rewrite sign_rounded.
  destruct (Z.eqb_spec (r * 2 ^ (g + 1074)) 0); [done|]. apply Z.ltb_ge. lia.
Qed.

(** A double is its sign and value. *)
Lemma finite_value_inj x y : finite x -> finite y -> sign x = sign y -> value x = value y -> x = y.
Proof.
  intros [Hx Hfx] [Hy Hfy] Hs Hv. rewrite <- (rounded_value x), <- (rounded_value y) by done.
  by rewrite Hs, Hv.
Qed.

Lemma rem_num a b : 0 <= a <= P53 -> 0 < b <= P53 -> f64_rem (num a) (num b) = num (a mod b).
Proof.
  intros Ha Hb. destruct (num_exact a ltac:(lia)) as [Fa Va], (num_exact b ltac:(lia)) as [Fb Vb].
  pose proof (pow2_pos 1074 ltac:(lia)) as HU. pose proof (Z.mod_pos_bound a b ltac:(lia)).
  destruct (num_exact (a mod b) ltac:(lia)) as [Fm Vm].
  destruct (rem_exact (num a) (num b)) as (F & S & V);
    [done|done|rewrite sign_num; lia|rewrite sign_num; lia|rewrite Vb; nia|].
  apply finite_value_inj; [done|done|rewrite S, sign_num; lia|].
  rewrite V, Va, Vb, Vm. apply Z.mul_mod_distr_r; lia.
Qed.

Lemma rem_euclid_num a b :
  0 <= a <= P53 -> 0 < b <= P53 -> f64_rem_euclid (num a) (num b) = num (a mod b).
Proof.
  intros Ha Hb. unfold f64_rem_euclid. rewrite rem_num by done.
  pose proof (Z.mod_pos_bound a b ltac:(lia)). change 0 with (num 0) at 1.
  rewrite lt_num by lia. destruct (Z.ltb_spec (a mod b) 0); [lia|done].
Qed.

Lemma u64_num n : 0 <= n <= P53 -> u64_of_f64 (num n) = n.
Proof.
  intros Hn. destruct (num_exact n ltac:(lia)) as [[Fu Ff] Vn]. unfold u64_of_f64.
  pose proof (pow2_pos 1074 ltac:(lia)) as HU.
  destruct (to_sf_value (num n) Fu Ff) as [[-> H0]|(p & e & -> & He & H0)].
  - rewrite Vn in H0. nia.
  - rewrite sign_num in H0 |- *. destruct (Z.ltb_spec n 0); [lia|]. cbn [cond_Zopp] in H0. rewrite Vn in H0.
    destruct (Z.leb_spec 0 e).
    + assert (n = Zpos p * 2 ^ e); [|lia].
      rewrite Z.pow_add_r in H0 by lia. nia.
    + assert (Hd : U = 2 ^ (- e) * 2 ^ (e + 1074)) by (rewrite <- Z.pow_add_r by lia; f_equal; lia).
      pose proof (pow2_pos (e + 1074) ltac:(lia)). pose proof (pow2_pos (- e) ltac:(lia)).
      rewrite Hd in H0. assert (Zpos p = n * 2 ^ (- e)) as -> by nia.
      rewrite Z.div_mul by lia. lia.
Qed.

(** [x as u64] of a finite double that is not negative. *)
Lemma u64_floor x :
  finite x -> sign x = false -> u64_of_f64 x = Z.min u64_max (value x / U).
Proof.
  intros [Hx Hf] Hs. unfold u64_of_f64. pose proof (pow2_pos 1074 ltac:(lia)) as HU.
  destruct (to_sf_value x Hx Hf) as [[-> ->]|(p & e & -> & He & ->)].
  - done.
  - rewrite Hs. cbn [cond_Zopp]. f_equal. destruct (Z.leb_spec 0 e).
    + rewrite Z.pow_add_r, Z.mul_assoc by lia. by rewrite Z.div_mul by lia.
    + pose proof (pow2_pos (e + 1074) ltac:(lia)). pose proof (pow2_pos (- e) ltac:(lia)).
      replace U with (2 ^ (- e) * 2 ^ (e + 1074)) by (rewrite <- Z.pow_add_r by lia; f_equal; lia).
      by rewrite Z.div_mul_cancel_r by lia.
Qed.
