(* ===== verification/ParseDuration.v ===== *)
(** * ParseDuration: durations as text
    (config/validate.rs, compiler/compile_after.rs)

    [parse_duration] and the parsers for which zero means something, and
    [format_duration_secs], with which the compiler writes the offsets it
    computes. A whole number of a unit is read exactly; a whole number of
    milliseconds that is written and read back loses at most a microsecond,
    and does lose it for some. *)

From Stdlib Require Import ZArith Lia Ascii.
From stdpp Require Import prelude strings list numbers.
From S2P Require Import Prelude Text F64 Windows Durations Rounding FloatText Binary64.

(** ** Trimming *)

(** The octets of the white-space character [s] starts with, if any. *)
Definition white_space (s : string) : option nat :=
  match s with
  | EmptyString => None
  | String a s1 =>
      let a := code a in
      if (a =? 32) || (9 <=? a) && (a <=? 13) then Some 1%nat
      else match s1 with
      | EmptyString => None
      | String b s2 =>
          let b := code b in
          if (a =? 194) && ((b =? 133) || (b =? 160)) then Some 2%nat
          else match s2 with
          | EmptyString => None
          | String c _ =>
              let c := code c in
              if (a =? 225) && (b =? 154) && (c =? 128)
                || (a =? 226) && (b =? 128) &&
                   ((128 <=? c) && (c <=? 138) || (c =? 168) || (c =? 169) || (c =? 175))
                || (a =? 226) && (b =? 129) && (c =? 159)
                || (a =? 227) && (b =? 128) && (c =? 128)
              then Some 3%nat else None
          end
      end
  end.

(** [s.trim_start()], looking at most at [fuel] characters. *)
Fixpoint trim_start (fuel : nat) (s : string) : string :=
  match fuel with
  | O => s
  | S fuel =>
      match white_space s with
      | Some n => trim_start fuel (String.substring n (String.length s) s)
      | None => s
      end
  end.

(** [s.trim_end()]: a position from which all is white space ends it. *)
Fixpoint trim_end (s : string) : string :=
  match s with
  | EmptyString => EmptyString
  | String c s' =>
      if String.eqb (trim_start (String.length s) s) "" then EmptyString else String c (trim_end s')
  end.

(** [s.trim()]. *)
Definition trim (s : string) : string := trim_end (trim_start (String.length s) s).

(** ** Parsing *)

(** The messages of [parse_duration], with the texts they show. *)
Inductive DurationError :=
| DurationEmpty
| UnrecognizedUnit (s : string)
| NoNumericValue (s : string)
| MustBePositive (s : string)
| InvalidNumericPart (s numeric : string)
| NotGreaterThanZero (s : string)
| OverflowsMilliseconds (s : string).

(** The numeric part and the milliseconds of the unit. *)
Definition split_unit (s : string) : option (string * f64) :=
  match strip_suffix "ms" s with
  | Some stripped => Some (stripped, f64_of_u64 1)
  | None =>
      match strip_suffix "h" s with
      | Some stripped => Some (stripped, f64_of_u64 3600000)
      | None =>
          match strip_suffix "m" s with
          | Some stripped => Some (stripped, f64_of_u64 60000)
          | None =>
              match strip_suffix "s" s with
              | Some stripped => Some (stripped, f64_of_u64 1000)
              | None => None
              end
          end
      end
  end.

(** [parse_duration]. *)
Definition parse_duration (s : string) : result Z DurationError :=
  if String.eqb s "" then Err DurationEmpty
  else
    match split_unit s with
    | None => Err (UnrecognizedUnit s)
    | Some (numeric_str, multiplier_ms) =>
        if String.eqb numeric_str "" then Err (NoNumericValue s)
        else if str_starts_with "-"%char numeric_str then Err (MustBePositive s)
        else
          match parse_f64 numeric_str with
          | None => Err (InvalidNumericPart s numeric_str)
          | Some value =>
              if is_nan value || (magnitude value =? inf_bits) || f64_le value 0 then
                Err (NotGreaterThanZero s)
              else
                let total_ms := f64_mul value multiplier_ms in
                if f64_gt total_ms (f64_of_u64 u64_max) then Err (OverflowsMilliseconds s)
                else Ok (u64_of_f64 (f64_mul total_ms (f64_of_u64 1000)) * 1000)
          end
    end.

(** The numeric part of a trimmed text, or [otherwise] without a unit. *)
Definition strip_unit (trimmed otherwise : string) : string :=
  match split_unit trimmed with Some (n, _) => n | None => otherwise end.

(** [numeric_str.parse::<f64>()] is zero. *)
Definition is_zero_text (numeric_str : string) : bool :=
  match parse_f64 numeric_str with Some v => f64_eq v 0 | None => false end.

(** [parse_offset_duration], also [parse_delay_duration]. *)
Definition parse_offset_duration (s : string) : result Z DurationError :=
  match parse_duration s with
  | Ok d => Ok d
  | Err e =>
      let trimmed := trim s in
      if str_starts_with "-"%char trimmed then Err e
      else if is_zero_text (strip_unit trimmed trimmed) then Ok 0 else Err e
  end.

(** [parse_optional_duration]. *)
Definition parse_optional_duration (s : string) : result (option Z) DurationError :=
  match parse_duration s with
  | Ok d => Ok (Some d)
  | Err e => if is_zero_text (strip_unit (trim s) "") then Ok None else Err e
  end.

(** [parse_phase_offset]; its error quotes that of [parse_duration]. *)
Definition parse_phase_offset (s : string) : result (option Z) DurationError :=
  parse_optional_duration s.

(** [duration_to_secs]. *)
Definition duration_to_secs (s : string) : result f64 DurationError :=
  let? d := parse_duration s in
  Ok (as_secs_f64 d).

(** ** Formatting *)

(** [format_duration_secs]. *)
Definition format_duration_secs (secs : f64) : string :=
  if negb (is_finite secs) || f64_le secs 0 then "0s"
  else
    let ms := u64_of_f64 (f64_round (f64_mul secs (f64_of_u64 1000))) in
    if ms mod 1000 =? 0 then
      let whole_secs := ms / 1000 in
      if (0 <? whole_secs) && (whole_secs mod 3600 =? 0) then show_dec (whole_secs / 3600) +:+ "h"
      else if (0 <? whole_secs) && (whole_secs mod 60 =? 0) then show_dec (whole_secs / 60) +:+ "m"
      else show_dec whole_secs +:+ "s"
    else if ms <? 1 then show_f64 secs +:+ "s"
    else
      let secs_rounded := f64_div (f64_of_u64 ms) (f64_of_u64 1000) in
      show_f64 secs_rounded +:+ "s".

Example durations : map parse_duration ["100ms"; "1.5s"; "0.5m"; "1h"; "2e3ms"; "0s"; "-1s"; "s"; "10"; ""; "xs"]
  = [Ok 100000000; Ok 1500000000; Ok 30000000000; Ok 3600000000000; Ok 2000000000;
     Err (NotGreaterThanZero "0s"); Err (MustBePositive "-1s"); Err (NoNumericValue "s");
     Err (UnrecognizedUnit "10"); Err DurationEmpty; Err (InvalidNumericPart "xs" "x")].
Proof. vm_compute. reflexivity. Qed.
Example offsets : map parse_offset_duration ["0"; "0s"; " 0ms "; "-0s"; "5m"; "x"]
  = [Ok 0; Ok 0; Ok 0; Err (MustBePositive "-0s"); Ok 300000000000; Err (UnrecognizedUnit "x")].
Proof. vm_compute. reflexivity. Qed.
Example optionals : map parse_optional_duration ["0"; "0.0s"; "1s"]
  = [Err (UnrecognizedUnit "0"); Ok None; Ok (Some 1000000000)].
Proof. vm_compute. reflexivity. Qed.
Example formats : map (fun ms => format_duration_secs (f64_div (num ms) (num 1000))) [500; 60000; 3600000; 90000; 1001; 0]
  = ["0.5s"; "1m"; "1h"; "90s"; "1.001s"; "0s"].
Proof. vm_compute. reflexivity. Qed.

(** ** The text of a decimal *)

Definition decimal_char (c : ascii) : bool := is_ascii_digit c || Ascii.eqb c "."%char.

Lemma str_all_app p s t : str_all p (s +:+ t) = str_all p s && str_all p t.
Proof.
  induction s as [|c s IH]; [done|]. rewrite app_cons_str. cbn [str_all]. rewrite IH. apply andb_assoc.
Qed.

Lemma str_all_weaken (p q : ascii -> bool) s :
  (forall c, p c = true -> q c = true) -> str_all p s = true -> str_all q s = true.
Proof.
  intros H. induction s as [|c s IH]; [done|]. cbn.
  intros [H1 H2]%andb_true_iff. by rewrite (H c H1), IH.
Qed.

Lemma pad_dec_digits w : forall n acc,
  str_all is_ascii_digit acc = true -> str_all is_ascii_digit (pad_dec w n acc) = true.
Proof.
  induction w as [|w IH]; intros n acc Ha; [done|]. cbn [pad_dec]. apply IH. cbn.
  rewrite digit_char_digit; [done|apply Z.mod_pos_bound; lia].
Qed.

Lemma show_decimal_chars t p : 0 <= t -> str_all decimal_char (show_decimal t p) = true.
Proof.
  intros Ht. assert (Hw : forall s, str_all is_ascii_digit s = true -> str_all decimal_char s = true).
  { intros s. apply str_all_weaken. intros c Hc. unfold decimal_char. by rewrite Hc. }
  unfold show_decimal, show_nat. destruct (Z.leb_spec 0 p).
  - apply Hw, dec_digits_all; [|done]. pose proof (Z.pow_nonneg 10 p). nia.
  - pose proof (Z.pow_pos_nonneg 10 (- p) ltac:(lia) ltac:(lia)).
    rewrite !str_all_app. apply andb_true_iff. split; [|apply andb_true_iff; split; [done|]].
    + apply Hw, dec_digits_all; [|done]. apply Z.div_pos; lia.
    + by apply Hw, pad_dec_digits.
Qed.

Lemma show_f64_decimal x :
  finite x -> sign x = false -> exists t p, 0 <= t /\ show_f64 x = show_decimal t p.
Proof.
  intros Hx Hs. destruct (finite_parts x Hx) as (_ & _ & Hn & Hm). unfold show_f64. rewrite Hn, Hs.
  destruct (Z.eqb_spec (magnitude x) inf_bits); [lia|].
  destruct (show_magnitude_reads (magnitude x) Hm) as (t & p & Ht & -> & _). by exists t, p.
Qed.

Lemma strip_suffix_decimal c suf d u :
  decimal_char c = false -> str_all decimal_char d = true ->
  strip_suffix (String c suf) (d +:+ u) = option_map (fun p => d +:+ p) (strip_suffix (String c suf) u).
Proof.
  intros Hc. induction d as [|a d IH]; intros Hd.
  - change ("" +:+ u) with u. by destruct (strip_suffix _ u).
  - cbn [str_all] in Hd. apply andb_true_iff in Hd as [Ha Hd]. rewrite app_cons_str.
    cbn [strip_suffix].
    destruct (String.eqb_spec (String a (d +:+ u)) (String c suf)) as [[= -> _]|_]; [congruence|].
    rewrite IH by done. by destruct (strip_suffix (String c suf) u).
Qed.

(** The units and their milliseconds. *)
Inductive time_unit : string -> Z -> Prop :=
| unit_ms : time_unit "ms" 1
| unit_s : time_unit "s" 1000
| unit_m : time_unit "m" 60000
| unit_h : time_unit "h" 3600000.

Lemma split_unit_decimal d u k :
  time_unit u k -> str_all decimal_char d = true -> split_unit (d +:+ u) = Some (d, f64_of_u64 k).
Proof.
  intros Hu Hd. unfold split_unit. destruct Hu;
    rewrite !strip_suffix_decimal by done; cbn [strip_suffix option_map String.eqb Ascii.eqb Bool.eqb];
    by rewrite app_empty_r.
Qed.

(** ** Whole numbers of a unit *)

Lemma parse_f64_digits n : 0 <= n < 10 ^ 20 -> parse_f64 (show_dec n) = Some (num n).
Proof.
  intros Hn. unfold show_dec.
  destruct (dec_digits_head 20 n "" ltac:(lia) ltac:(lia)) as (c & r & E & Hc).
  destruct (take_digits_dec 20 n 0 "" ltac:(lia) Hn) as (len & Hl & Ht).
  unfold parse_f64. rewrite E, take_sign_digit, <- E by done.
  unfold parse_magnitude, parse_number. rewrite Ht. cbn [take_digits strip_prefix_char].
  destruct (Nat.eqb_spec (0 + len + 0) 0); [lia|]. cbn [parse_exponent].
  rewrite num_nonneg by lia. unfold decimal_magnitude, signed.
  change (0 <=? 0 - Z.of_nat 0) with true. cbv iota. change (10 ^ (0 - Z.of_nat 0)) with 1.
  by rewrite Z.mul_1_r, Z.add_0_r.
Qed.

Lemma num_not_zero n : 0 < n <= P53 ->
  is_nan (num n) || (magnitude (num n) =? inf_bits) || f64_le (num n) 0 = false.
Proof.
  intros Hn. destruct (num_exact n ltac:(lia)) as [Fn _].
  destruct (finite_parts _ Fn) as (_ & _ & -> & Hm). change (f64_le (num n) 0) with (f64_le (num n) (num 0)).
  rewrite le_num by lia. destruct (Z.eqb_spec (magnitude (num n)) inf_bits); [lia|].
  destruct (Z.leb_spec n 0); [lia|done].
Qed.

Lemma num_mono a b : a <= b -> key (num a) <= key (num b).
Proof.
  intros H. unfold num. rewrite !key_rounded. apply rkey_mono.
  pose proof (pow2_pos 1074 ltac:(lia)). apply Z.mul_le_mono_nonneg_r; lia.
Qed.

Lemma num_not_over n : n <= u64_max -> f64_gt (num n) (f64_of_u64 u64_max) = false.
Proof.
  intros Hn. rewrite of_u64_num by lia. unfold f64_gt, f64_lt.
  pose proof (num_mono n u64_max Hn) as Hk. destruct (negb _ && negb _); [|done]. apply Z.ltb_ge. exact Hk.
Qed.

Lemma digits_not_minus s : str_all is_ascii_digit s = true -> str_starts_with "-"%char s = false.
Proof.
  destruct s as [|c s]; [done|]. cbn. intros [Hc _]%andb_true_iff.
  by destruct (Ascii.eqb_spec c "-"%char) as [->|].
Qed.

Lemma parse_duration_numeric numeric u k value :
  time_unit u k -> split_unit (numeric +:+ u) = Some (numeric, f64_of_u64 k) ->
  numeric <> "" -> str_starts_with "-"%char numeric = false ->
  parse_f64 numeric = Some value ->
  is_nan value || (magnitude value =? inf_bits) || f64_le value 0 = false ->
  f64_gt (f64_mul value (f64_of_u64 k)) (f64_of_u64 u64_max) = false ->
  parse_duration (numeric +:+ u)
  = Ok (u64_of_f64 (f64_mul (f64_mul value (f64_of_u64 k)) (f64_of_u64 1000)) * 1000).
Proof.
  intros Hu Hsplit Hne Hminus Hp Hz Hover. unfold parse_duration. rewrite Hsplit.
  destruct (String.eqb_spec (numeric +:+ u) "") as [E|_].
  { destruct numeric; [done|]. by rewrite app_cons_str in E. }
  destruct (String.eqb_spec numeric "") as [|_]; [done|]. by rewrite Hminus, Hp, Hz, Hover.
Qed.

Lemma parse_duration_exact_aux n u k :
  time_unit u k -> 0 < n -> n * k * 1000 <= P53 ->
  parse_duration (show_dec n +:+ u) = Ok (n * k * 1000000).
Proof.
  intros Hu Hn Hb. assert (Hk : 0 < k <= 3600000) by (destruct Hu; lia).
  pose proof (show_dec_digits n ltac:(lia)) as Hd.
  rewrite (parse_duration_numeric _ u k (num n)).
  - rewrite !of_u64_num, !mul_num by nia. rewrite u64_num by nia. f_equal. ring.
  - done.
  - apply split_unit_decimal; [done|]. revert Hd. apply str_all_weaken.
    intros c Hc. unfold decimal_char. by rewrite Hc.
  - apply show_dec_nonempty.
  - by apply digits_not_minus.
  - apply parse_f64_digits. nia.
  - apply num_not_zero. nia.
  - rewrite of_u64_num, mul_num by nia. apply num_not_over. nia.
Qed.

(** C29: a positive whole number of milliseconds, seconds, minutes or hours is
    parsed to exactly that duration, in nanoseconds, as long as its microseconds
    ([n * k * 1000], the product the code computes in binary64) are at most
    [2 ^ 53]. *)
Theorem parse_duration_exact n u k (Hu : time_unit u k) (Hn : 0 < n) (Hb : n * k * 1000 <= P53) :
  parse_duration (show_dec n +:+ u) = Ok (n * k * 1000000).
Proof. by apply parse_duration_exact_aux. Qed.

Lemma parse_duration_exact_witness : parse_duration (show_dec 90 +:+ "m") = Ok 5400000000000.
Proof. apply (parse_duration_exact 90 "m" 60000); [constructor|lia|lia]. Defined.

(** ** Writing and reading back *)

(** Two doubles with 22 binary places enclose a number of milliseconds in
    seconds. *)
Section millis.
Context (ms : Z) (Hms : 0 < ms <= 2 ^ 40).

Definition ms_secs : f64 := f64_div (num ms) (num 1000).

Lemma fixed_point q s : 0 <= q < P53 -> 0 <= s <= 1074 ->
  round_units (q * 2 ^ s) 1 < inf_bits /\ units (round_units (q * 2 ^ s) 1) = q * 2 ^ s.
Proof using Type.
  clear Hms. intros Hq Hs. assert (Hb : q * 2 ^ s < units inf_bits).
  { rewrite units_inf. pose proof (pow2_pos s ltac:(lia)).
    replace (2 ^ 2046) with (2 ^ s * 2 ^ (2046 - s)) by (rewrite <- Z.pow_add_r by lia; f_equal; lia).
    assert (2 ^ 972 <= 2 ^ (2046 - s)) by (apply Z.pow_le_mono_r; lia).
    assert (4 <= 2 ^ 972) by (change 4 with (2 ^ 2); apply Z.pow_le_mono_r; lia). nia. }
  destruct (exact_magnitude q s Hq ltac:(lia) Hb) as (k & Hk & Hu & ->). lia.
Qed.

Lemma ms_secs_enclosed :
  finite ms_secs /\ sign ms_secs = false /\
  (ms * 4096 - 1) * 2 ^ 1062 <= value ms_secs * 1000 <= (ms * 4096 + 1) * 2 ^ 1062.
Proof using Hms.
  change (2 ^ 40) with 1099511627776 in Hms. set (q := ms * 4194304 / 1000).
  pose proof (Z_div_mod_eq_full (ms * 4194304) 1000) as Hd. pose proof (Z.mod_pos_bound (ms * 4194304) 1000 ltac:(lia)) as Hr.
  fold q in Hd. assert (Hq : 0 <= q /\ q + 1 < P53) by lia.
  assert (Hv : ms_secs = round_units (ms * U) 1000) by (apply div_num; lia).
  pose proof (pow2_pos 1052 ltac:(lia)) as H2.
  assert (HU : U = 4194304 * 2 ^ 1052) by (change 4194304 with (2 ^ 22); rewrite <- Z.pow_add_r by lia; reflexivity).
  assert (HU' : 2 ^ 1062 = 1024 * 2 ^ 1052) by (change 1024 with (2 ^ 10); rewrite <- Z.pow_add_r by lia; reflexivity).
  destruct (fixed_point q 1052 ltac:(lia) ltac:(lia)) as [Hlo Hlo'].
  destruct (fixed_point (q + 1) 1052 ltac:(lia) ltac:(lia)) as [Hhi Hhi'].
  pose proof (round_units_mono (q * 2 ^ 1052) 1 (ms * U) 1000) as Hmlo.
  pose proof (round_units_mono (ms * U) 1000 ((q + 1) * 2 ^ 1052) 1) as Hmhi.
  rewrite HU in *. set (t := 2 ^ 1052) in *. clearbody t.
  rewrite <- Hv in *. clear Hv.
  assert (H1 : round_units (q * t) 1 <= ms_secs) by (apply Hmlo; nia).
  assert (H3 : ms_secs <= round_units ((q + 1) * t) 1) by (apply Hmhi; nia).
  pose proof (round_units_range (q * t) 1 ltac:(nia) ltac:(lia)).
  assert (Hfin : finite ms_secs /\ sign ms_secs = false /\ value ms_secs = units ms_secs).
  { replace ms_secs with (signed false ms_secs) by (unfold signed; lia).
    split; [apply signed_finite; lia|]. rewrite sign_signed, value_signed by lia.
    split; [done|]. unfold signed. f_equal. lia. }
  destruct Hfin as (Hf & Hs & Hval). split; [done|]. split; [done|]. rewrite Hval, HU'.
  pose proof (units_mono (round_units (q * t) 1) ms_secs ltac:(lia)).
  pose proof (units_mono ms_secs (round_units ((q + 1) * t) 1) ltac:(lia)). nia.
Qed.

(** The product with 1000 is that near to a whole number, too. *)
Lemma ms_back :
  let total := f64_mul ms_secs (num 1000) in
  finite total /\ sign total = false /\
  (ms * 4096 - 1) * 2 ^ 1062 <= value total <= (ms * 4096 + 1) * 2 ^ 1062.
Proof using Hms.
  intros total. destruct ms_secs_enclosed as (Hf & Hs & Hlo & Hhi).
  assert (Ht : total = round_units (value ms_secs * 1000) 1) by (apply mul_num_right; done || lia).
  change (2 ^ 40) with 1099511627776 in Hms.
  destruct (fixed_point (ms * 4096 - 1) 1062 ltac:(lia) ltac:(lia)) as [Hl Hl'].
  destruct (fixed_point (ms * 4096 + 1) 1062 ltac:(lia) ltac:(lia)) as [Hh Hh'].
  pose proof (pow2_pos 1062 ltac:(lia)) as H2. set (t := 2 ^ 1062) in *. clearbody t.
  set (w := value ms_secs * 1000) in *.
  pose proof (round_units_mono ((ms * 4096 - 1) * t) 1 w 1 ltac:(nia) ltac:(lia) ltac:(nia) ltac:(lia) ltac:(lia)) as H1.
  pose proof (round_units_mono w 1 ((ms * 4096 + 1) * t) 1 ltac:(nia) ltac:(lia) ltac:(nia) ltac:(lia) ltac:(lia)) as H3.
  rewrite <- Ht in *.
  pose proof (round_units_range ((ms * 4096 - 1) * t) 1 ltac:(nia) ltac:(lia)).
  assert (Hfin : finite total /\ sign total = false /\ value total = units total).
  { replace total with (signed false total) by (unfold signed; lia).
    split; [apply signed_finite; lia|]. rewrite sign_signed, value_signed by lia.
    split; [done|]. unfold signed. f_equal. lia. }
  destruct Hfin as (Hf' & Hs' & Hval). split; [done|]. split; [done|]. rewrite Hval.
  pose proof (units_mono (round_units ((ms * 4096 - 1) * t) 1) total ltac:(lia)).
  pose proof (units_mono total (round_units ((ms * 4096 + 1) * t) 1) ltac:(lia)). lia.
Qed.

Lemma ms_read : u64_of_f64 (f64_round (f64_mul ms_secs (f64_of_u64 1000))) = ms.
Proof using Hms.
  rewrite of_u64_num by lia. destruct ms_back as (Hf & Hs & Hv).
  rewrite round_nonneg by done.
  assert (HU : U = 4096 * 2 ^ 1062) by (change 4096 with (2 ^ 12); rewrite <- Z.pow_add_r by lia; reflexivity).
  pose proof (pow2_pos 1062 ltac:(lia)) as H2. rewrite HU in *. set (t := 2 ^ 1062) in *. clearbody t.
  change (2 ^ 40) with 1099511627776 in Hms.
  replace ((2 * value (f64_mul ms_secs (num 1000)) + 4096 * t) / (2 * (4096 * t))) with ms; [apply u64_num; lia|].
  apply Z.div_unique with (r := 2 * value (f64_mul ms_secs (num 1000)) + 4096 * t - 2 * (4096 * t) * ms); lia.
Qed.
End millis.


Lemma show_finite x u k :
  finite x -> sign x = false -> time_unit u k ->
  split_unit (show_f64 x +:+ u) = Some (show_f64 x, f64_of_u64 k) /\
  show_f64 x <> "" /\ str_starts_with "-"%char (show_f64 x) = false.
Proof.
  intros Hx Hs Hu. destruct (show_f64_decimal x Hx Hs) as (t & p & Ht & ->).
  split; [by apply split_unit_decimal, show_decimal_chars|].
  destruct (show_decimal_head t p Ht) as (c & s & -> & Hc). split; [done|].
  cbn. by destruct (Ascii.eqb_spec c "-"%char) as [->|].
Qed.

Lemma value_zero : value 0 = 0.
Proof. reflexivity. Qed.

Lemma positive_ok x :
  finite x -> 0 < value x ->
  is_nan x || (magnitude x =? inf_bits) || f64_le x 0 = false.
Proof.
  intros Hx Hv. destruct (finite_parts x Hx) as (Hu & _ & Hn & Hm).
  rewrite Hn. destruct (Z.eqb_spec (magnitude x) inf_bits); [lia|].
  rewrite le_value by (done || (split; done)). rewrite value_zero. cbn. apply Z.leb_gt. lia.
Qed.

Lemma not_over x : finite x -> value x <= u64_max * U -> f64_gt x (f64_of_u64 u64_max) = false.
Proof.
  intros Hx Hv. rewrite of_u64_num by lia. unfold f64_gt, f64_lt. rewrite <- (rkey_value x Hx).
  unfold num. rewrite key_rounded. pose proof (rkey_mono _ _ Hv).
  destruct (negb _ && negb _); [|done]. apply Z.ltb_ge. done.
Qed.

Section millis.
Context (ms : Z) (Hms : 0 < ms <= 2 ^ 40).

(** Reading the fraction of seconds: the product with 1000 may fall just short
    of the number of milliseconds, and the microseconds are truncated. *)
Lemma parse_ms_secs :
  exists us, parse_duration (show_f64 (ms_secs ms) +:+ "s") = Ok (us * 1000) /\
    (us = ms * 1000 \/ us = ms * 1000 - 1).
Proof using Hms.
  destruct (ms_secs_enclosed ms Hms) as (Hf & Hs & Hv). destruct (ms_back ms Hms) as (Hft & Hst & Hvt).
  destruct (show_finite (ms_secs ms) "s" 1000 Hf Hs unit_s) as (Hsplit & Hne & Hminus).
  destruct (finite_parts _ Hf) as (Hu & _ & Hn & _).
  pose proof (pow2_pos 1062 ltac:(lia)) as H2.
  assert (HU : U = 4096 * 2 ^ 1062) by (change 4096 with (2 ^ 12); rewrite <- Z.pow_add_r by lia; reflexivity).
  assert (HV : 2 ^ 1072 = 1024 * 2 ^ 1062) by (change 1024 with (2 ^ 10); rewrite <- Z.pow_add_r by lia; reflexivity).
  change (2 ^ 40) with 1099511627776 in Hms.
  set (total := f64_mul (ms_secs ms) (num 1000)) in *.
  rewrite (parse_duration_numeric _ "s" 1000 (ms_secs ms)); [|constructor|done|done|done|by apply parse_show_f64| |].
  - rewrite !of_u64_num by lia. fold total.
    set (x := f64_mul total (num 1000)).
    assert (Hx : x = round_units (value total * 1000) 1) by (apply mul_num_right; done || lia).
    destruct (fixed_point (ms * 4000 - 1) 1072 ltac:(lia) ltac:(lia)) as [Hl Hl'].
    destruct (fixed_point (ms * 4000 + 1) 1072 ltac:(lia) ltac:(lia)) as [Hh Hh'].
    rewrite HV in *. set (t := 2 ^ 1062) in *. clearbody t.
    set (w := value total) in *. clearbody w.
    pose proof (round_units_mono ((ms * 4000 - 1) * (1024 * t)) 1 (w * 1000) 1
                  ltac:(nia) ltac:(lia) ltac:(nia) ltac:(lia) ltac:(nia)) as H1.
    pose proof (round_units_mono (w * 1000) 1 ((ms * 4000 + 1) * (1024 * t)) 1
                  ltac:(nia) ltac:(lia) ltac:(nia) ltac:(lia) ltac:(nia)) as H3.
    rewrite <- Hx in *.
    pose proof (round_units_range ((ms * 4000 - 1) * (1024 * t)) 1 ltac:(nia) ltac:(lia)).
    assert (Hfin : finite x /\ sign x = false /\ value x = units x).
    { replace x with (signed false x) by (unfold signed; lia).
      split; [apply signed_finite; lia|]. rewrite sign_signed, value_signed by lia.
      split; [done|]. unfold signed. f_equal. lia. }
    destruct Hfin as (Hfx & Hsx & Hvx). rewrite u64_floor, HU, Hvx by done.
    pose proof (units_mono (round_units ((ms * 4000 - 1) * (1024 * t)) 1) x ltac:(lia)) as Hlo.
    pose proof (units_mono x (round_units ((ms * 4000 + 1) * (1024 * t)) 1) ltac:(lia)) as Hhi.
    rewrite Hl' in Hlo. rewrite Hh' in Hhi. set (y := units x) in *. clearbody y.
    exists (Z.min u64_max (y / (4096 * t))). split; [done|].
    assert (ms * 1000 - 1 <= y / (4096 * t)) by (apply Z.div_le_lower_bound; nia).
    assert (y / (4096 * t) < ms * 1000 + 1) by (apply Z.div_lt_upper_bound; nia). lia.
  - apply positive_ok; [done|nia].
  - rewrite of_u64_num by lia. fold total. apply not_over; [done|]. rewrite HU. nia.
Qed.

Lemma format_parse_millis_aux :
  exists d, parse_duration (format_duration_secs (ms_secs ms)) = Ok d /\
    (d = ms * 1000000 \/ d = ms * 1000000 - 1000 /\ ms mod 1000 <> 0).
Proof using Hms.
  destruct (ms_secs_enclosed ms Hms) as (Hf & Hs & Hv). destruct (finite_parts _ Hf) as (_ & Hfin & _).
  pose proof (pow2_pos 1062 ltac:(lia)) as H2.
  pose proof (positive_ok (ms_secs ms) Hf ltac:(nia)) as [_ Hpos]%orb_false_iff.
  pose proof (parse_ms_secs) as (us & Hus & Hd).
  change (2 ^ 40) with 1099511627776 in Hms.
  unfold format_duration_secs. rewrite Hfin, Hpos, ms_read by (change (2 ^ 40) with 1099511627776; done).
  cbn [negb orb].
  pose proof (Z_div_mod_eq_full ms 1000) as Hq. pose proof (Z.mod_pos_bound ms 1000 ltac:(lia)).
  destruct (Z.eqb_spec (ms mod 1000) 0) as [Hm|Hm].
  - set (q := ms / 1000) in *. assert (0 < q) by lia. rewrite (proj2 (Z.ltb_lt 0 q)) by done. cbn [andb].
    pose proof (Z_div_mod_eq_full q 3600). pose proof (Z_div_mod_eq_full q 60).
    exists (ms * 1000000). split; [|by left].
    destruct (Z.eqb_spec (q mod 3600) 0).
    { rewrite (parse_duration_exact_aux (q / 3600) "h" 3600000); [f_equal; lia|constructor|lia|lia]. }
    destruct (Z.eqb_spec (q mod 60) 0).
    { rewrite (parse_duration_exact_aux (q / 60) "m" 60000); [f_equal; lia|constructor|lia|lia]. }
    rewrite (parse_duration_exact_aux q "s" 1000); [f_equal; lia|constructor|lia|lia].
  - destruct (Z.ltb_spec ms 1); [lia|]. rewrite !of_u64_num by lia. fold (ms_secs ms).
    exists (us * 1000). split; [done|]. destruct Hd as [->| ->]; [left; lia|right; lia].
Qed.
End millis.

(** C27: a whole number of milliseconds, up to 34 years, that is formatted and
    parsed again comes back as itself, or, when it is not a whole number of
    seconds, as a microsecond less. *)
Theorem format_parse_millis ms (Hms : 0 < ms <= 2 ^ 40) :
  exists d, parse_duration (format_duration_secs (ms_secs ms)) = Ok d /\
    (d = ms * 1000000 \/ d = ms * 1000000 - 1000 /\ ms mod 1000 <> 0).
Proof. by apply format_parse_millis_aux. Qed.

Lemma format_parse_millis_witness :
  exists d, parse_duration (format_duration_secs (ms_secs 1500)) = Ok d /\
    (d = 1500000000 \/ d = 1499999000 /\ 500 <> 0).
Proof. apply (format_parse_millis 1500). vm_compute. split; [done|discriminate]. Defined.

(** [1.001s] is a microsecond less than 1001 milliseconds: the product with
    1000 is not exact, and what is left of a microsecond is dropped. *)
Lemma millis_truncated :
  parse_duration (format_duration_secs (ms_secs 1001)) = Ok 1000999000.
Proof. vm_compute. reflexivity. Qed.

(** A duration greater than zero can be parsed to zero, and a long one is cut
    to the greatest number of microseconds. *)
Lemma parsed_to_zero : parse_duration "0.0001ms" = Ok 0.
Proof. vm_compute. reflexivity. Qed.

Lemma parsed_saturated : parse_duration "10000000000000000s" = Ok (u64_max * 1000).
Proof. vm_compute. reflexivity. Qed.

(** What is formatted for zero is not a duration, and less than a millisecond
    is rounded to one. *)
Lemma formatted_zero : parse_duration (format_duration_secs 0) = Err (NotGreaterThanZero "0s").
Proof. vm_compute. reflexivity. Qed.

Lemma formatted_rounded :
  format_duration_secs (f64_div (num 6) (num 10000)) = "0.001s".
Proof. vm_compute. reflexivity. Qed.
