(* ===== verification/Generators.v ===== *)
(** * Generators: value generators and their aliases
    (generator/, config/aliases.rs)

    A generator is a value with the [value] it has at every tick. The
    operational aliases of a configuration are rewritten to the core generators
    ([desugar]), which [create_generator] builds. The bounds of the random
    generators, as far as rounding allows them. [sin] is the platform's; the
    contents of files are an argument. *)

From Stdlib Require Import ZArith Lia.
From stdpp Require Import prelude strings list numbers.
From S2P Require Import Prelude Text Util F64 Windows Durations SinkIo Rounding FloatText Binary64.
From S2P Require Import ParseDuration.

(** ** Configuration *)

(** [FlapEnum]. *)
Inductive FlapEnum := Boolean | LinkState | OperState | AdminState | NeighborState.

(** [FlapEnum::defaults]. *)
Definition defaults (e : FlapEnum) : f64 * f64 :=
  match e with
  | Boolean | LinkState => (num 1, num 0)
  | OperState | AdminState => (num 1, num 2)
  | NeighborState => (num 6, num 1)
  end.

(** [CsvColumnSpec]. *)
Record CsvColumnSpec := mk_column_spec {
  index : nat;
  name : string;
  labels : option (list (string * string));
}.

(** [GeneratorConfig]. *)
Inductive GeneratorConfig :=
| Constant (value : f64)
| Uniform (min max : f64) (seed : option Z)
| Sine (amplitude period_secs offset : f64)
| Sawtooth (min max period_secs : f64)
| Sequence (values : list f64) (repeat : option bool)
| Spike (baseline magnitude duration_secs interval_secs : f64)
| CsvReplay (file : string) (column : option nat) (columns : option (list CsvColumnSpec))
    (repeat : option bool) (timescale : option f64) (default_metric_name : option string)
| Step (start : option f64) (step_size : f64) (max : option f64)
| Flap (up_duration down_duration : option string) (up_value down_value : option f64)
    (enum_kind : option FlapEnum) (phase : option string)
| Saturation (baseline ceiling : option f64) (time_to_saturate : option string)
| Leak (baseline ceiling : option f64) (time_to_ceiling : option string)
| Degradation (baseline ceiling : option f64) (time_to_degrade : option string)
    (noise : option f64) (noise_seed : option Z)
| Steady (center amplitude : option f64) (period : option string) (noise : option f64)
    (noise_seed : option Z)
| SpikeEvent (baseline spike_height : option f64) (spike_duration spike_interval : option string).

(** [GeneratorConfig::is_alias]. *)
Definition is_alias (g : GeneratorConfig) : bool :=
  match g with
  | Flap _ _ _ _ _ _ | Saturation _ _ _ | Leak _ _ _ | Degradation _ _ _ _ _ | Steady _ _ _ _ _
  | SpikeEvent _ _ _ _ => true
  | _ => false
  end.

(** ** Generators *)

Definition JITTER_MAGIC : Z := 0xa0761d6478bd642f.

(** [Box<dyn ValueGenerator>]: the implementations with their fields. *)
Inductive ValueGenerator :=
| GConstant (value : f64)
| GUniform (min max : f64) (seed : Z)
| GSine (amplitude period_ticks offset : f64)
| GSawtooth (min max period_ticks : f64)
| GSequence (values : list f64) (repeat : bool)
| GSpike (baseline magnitude duration_ticks interval_ticks : f64)
| GCsvReplay (values : list f64) (repeat : bool)
| GStep (start step_size : f64) (max : option f64)
| GJitter (inner : ValueGenerator) (half_range : f64) (seed : Z).

Definition PI : f64 := 4614256656552045848.

(** The slot of a list of values at a tick, [SequenceGenerator::value] and
    [CsvReplayGenerator::value]; [None] is the panic of an empty list. *)
Definition slot (values : list f64) (repeat : bool) (tick : Z) : option f64 :=
  match values with
  | [] => None
  | _ =>
      let len := Z.of_nat (length values) in
      values !! Z.to_nat (if repeat then tick mod len else Z.min tick (len - 1))
  end.

(** A hash as a fraction of the greatest one. *)
Definition unit_of (hash : Z) : f64 := f64_div (f64_of_u64 hash) (f64_of_u64 u64_max).

(** [UniformRandom::value]. *)
Definition value_uniform (min max : f64) (seed tick : Z) : f64 :=
  let hash := splitmix64 (Z.lxor seed tick) in
  f64_add min (f64_mul (unit_of hash) (f64_sub max min)).

(** [Sine::value], with the platform's sine, whose precision the standard
    library leaves open. *)
Definition value_sine (sin : f64 -> f64) (amplitude period_ticks offset : f64) (tick : Z) : f64 :=
  let angle := f64_div (f64_mul (f64_mul (f64_of_u64 2) PI) (f64_of_u64 tick)) period_ticks in
  f64_add offset (f64_mul amplitude (sin angle)).

(** [Sawtooth::value]. *)
Definition value_sawtooth (min max period_ticks : f64) (tick : Z) : f64 :=
  let position := f64_rem (f64_of_u64 tick) period_ticks in
  let fraction := f64_div position period_ticks in
  f64_add min (f64_mul fraction (f64_sub max min)).

(** [SpikeGenerator::value]. *)
Definition value_spike (baseline magnitude duration_ticks interval_ticks : f64) (tick : Z) : f64 :=
  let position := f64_rem (f64_of_u64 tick) interval_ticks in
  if f64_lt position duration_ticks then f64_add baseline magnitude else baseline.

(** [StepGenerator::value]. *)
Definition value_step (start step_size : f64) (max : option f64) (tick : Z) : f64 :=
  let raw := f64_mul (f64_of_u64 tick) step_size in
  match max with
  | Some m =>
      if f64_gt m start then f64_add start (f64_rem_euclid raw (f64_sub m start))
      else f64_add start raw
  | None => f64_add start raw
  end.

(** What [JitterWrapper::value] adds. *)
Definition jitter_noise (half_range : f64) (seed tick : Z) : f64 :=
  let hash := splitmix64 (Z.lxor (Z.lxor seed tick) JITTER_MAGIC) in
  f64_sub (f64_mul (f64_mul (unit_of hash) (f64_of_u64 2)) half_range) half_range.

(** [ValueGenerator::value], of the implementation a generator is; [None] is a
    panic. *)
Fixpoint value_at (sin : f64 -> f64) (g : ValueGenerator) (tick : Z) : option f64 :=
  match g with
  | GConstant value => Some value
  | GUniform min max seed => Some (value_uniform min max seed tick)
  | GSine amplitude period_ticks offset => Some (value_sine sin amplitude period_ticks offset tick)
  | GSawtooth min max period_ticks => Some (value_sawtooth min max period_ticks tick)
  | GSequence values repeat => slot values repeat tick
  | GSpike baseline magnitude duration_ticks interval_ticks =>
      Some (value_spike baseline magnitude duration_ticks interval_ticks tick)
  | GCsvReplay values repeat => slot values repeat tick
  | GStep start step_size max => Some (value_step start step_size max tick)
  | GJitter inner half_range seed =>
      let! base := value_at sin inner tick in
      Some (f64_add base (jitter_noise half_range seed tick))
  end.

(** [wrap_with_jitter]. *)
Definition wrap_with_jitter (g : ValueGenerator) (jitter : option f64) (jitter_seed : option Z)
  : ValueGenerator :=
  match jitter with
  | Some j => if negb (f64_eq j 0) then GJitter g j (default 0 jitter_seed) else g
  | None => g
  end.

(** ** Aliases *)

(** The errors of [desugar_scenario_config]: a message, a duration that does not
    parse, or that of a flap's phase, which is quoted in front of it. *)
Inductive AliasError :=
| AliasInvalid (message : string)
| AliasDuration (e : DurationError)
| AliasPhase (phase : string) (e : DurationError).

(** The fields of [BaseScheduleConfig] an alias reads or sets. *)
Record BaseSchedule := mk_base {
  base_rate : f64;
  base_duration : option string;
  base_jitter : option f64;
  base_jitter_seed : option Z;
}.

(** [apply_jitter_if_unset]. *)
Definition apply_jitter_if_unset (b : BaseSchedule) (jitter : f64) (seed : option Z) : BaseSchedule :=
  mk_base (base_rate b) (base_duration b)
    (match base_jitter b with None => Some jitter | j => j end)
    (match base_jitter_seed b with None => seed | s => s end).

(** [duration_to_secs], with the errors of this module. *)
Definition alias_secs (s : string) : result f64 AliasError := map_err AliasDuration (duration_to_secs s).

(** [flap_phase_secs]. *)
Definition flap_phase_secs (phase : option string) : result f64 AliasError :=
  match phase with
  | None => Ok 0
  | Some s => map_err (AliasPhase s) (let? d := parse_offset_duration s in Ok (as_secs_f64 d))
  end.

(** [values.rotate_left(k)], for [k] at most the length. *)
Definition rotate_left {A : Type} (k : nat) (l : list A) : list A := drop k l ++ take k l.

(** The cycle of a flap from the start of its up state; each state has a tick
    at least. *)
Definition flap_cycle (rate up_secs down_secs up_val down_val : f64) : result (list f64) AliasError :=
  let up_ticks := u64_of_f64 (f64_round (f64_mul up_secs rate)) in
  let down_ticks := u64_of_f64 (f64_round (f64_mul down_secs rate)) in
  if (up_ticks =? 0) && (down_ticks =? 0) then
    Err (AliasInvalid "flap: up_duration and down_duration must produce at least one tick total")
  else
    Ok (replicate (Z.to_nat (Z.max up_ticks 1)) up_val ++ replicate (Z.to_nat (Z.max down_ticks 1)) down_val).

(** The ticks of the phase, modulo the cycle. *)
Definition flap_shift (rate phase_secs : f64) (values : list f64) : nat :=
  Z.to_nat (u64_of_f64 (f64_rem_euclid (f64_round (f64_mul phase_secs rate))
                          (f64_of_u64 (Z.of_nat (length values))))).

(** [desugar_scenario_config]: the generator and the schedule it leaves. *)
Definition desugar (generator : GeneratorConfig) (base : BaseSchedule)
  : result (GeneratorConfig * BaseSchedule) AliasError :=
  if negb (is_alias generator) then Ok (generator, base)
  else
    let rate := base_rate base in
    match generator with
    | Flap up_duration down_duration up_value down_value enum_kind phase =>
        if bool_decide (is_Some enum_kind) && (bool_decide (is_Some up_value) || bool_decide (is_Some down_value)) then
          Err (AliasInvalid
            "flap: 'enum' is mutually exclusive with explicit 'up_value'/'down_value' — pick one")
        else
          let (up_default, down_default) :=
            match enum_kind with Some e => defaults e | None => (num 1, num 0) end in
          let up_val := default up_default up_value in
          let down_val := default down_default down_value in
          let? up_secs := alias_secs (default "10s" up_duration) in
          let? down_secs := alias_secs (default "5s" down_duration) in
          let? values := flap_cycle rate up_secs down_secs up_val down_val in
          let? phase_secs := flap_phase_secs phase in
          Ok (Sequence (rotate_left (flap_shift rate phase_secs values) values) (Some true), base)
    | Saturation baseline ceiling time_to_saturate =>
        let? period_secs := alias_secs (default "5m" time_to_saturate) in
        Ok (Sawtooth (default (num 0) baseline) (default (num 100) ceiling) period_secs, base)
    | Leak baseline ceiling time_to_ceiling =>
        let dur := default "10m" time_to_ceiling in
        let? period_secs := alias_secs dur in
        let? _ :=
          match base_duration base with
          | Some scenario_dur =>
              let? scenario_secs := alias_secs scenario_dur in
              if f64_lt period_secs scenario_secs then
                Err (AliasInvalid ("leak: time_to_ceiling (" +:+ dur
                  +:+ ") is shorter than scenario duration (" +:+ scenario_dur
                  +:+ "); the sawtooth would reset mid-run. Use 'saturation' instead for repeating fill-and-reset cycles, or increase time_to_ceiling to >= duration"))
              else Ok tt
          | None => Ok tt
          end in
        Ok (Sawtooth (default (num 0) baseline) (default (num 100) ceiling) period_secs, base)
    | Degradation baseline ceiling time_to_degrade noise noise_seed =>
        let? period_secs := alias_secs (default "5m" time_to_degrade) in
        Ok (Sawtooth (default (num 0) baseline) (default (num 100) ceiling) period_secs,
            apply_jitter_if_unset base (default (num 1) noise) noise_seed)
    | Steady center amplitude period noise noise_seed =>
        let? period_secs := alias_secs (default "60s" period) in
        Ok (Sine (default (num 10) amplitude) period_secs (default (num 50) center),
            apply_jitter_if_unset base (default (num 1) noise) noise_seed)
    | SpikeEvent baseline spike_height spike_duration spike_interval =>
        let? duration_secs := alias_secs (default "10s" spike_duration) in
        let? interval_secs := alias_secs (default "30s" spike_interval) in
        Ok (Spike (default (num 0) baseline) (default (num 100) spike_height) duration_secs interval_secs,
            base)
    | g => Ok (g, base)
    end.

Definition ex_base : BaseSchedule := mk_base (num 1) None None None.

(** The source's tests: a flap of 2 s up and 3 s down, and one a second in. *)
Example flap_sequence :
  desugar (Flap (Some "2s") (Some "3s") None None None None) ex_base
  = Ok (Sequence (map num [1; 1; 0; 0; 0]) (Some true), ex_base).
Proof. vm_compute. reflexivity. Qed.
Example flap_rotated :
  desugar (Flap (Some "2s") (Some "3s") None None (Some OperState) (Some "4s")) ex_base
  = Ok (Sequence (map num [2; 1; 1; 2; 2]) (Some true), ex_base).
Proof. vm_compute. reflexivity. Qed.
Example degradation_noise :
  desugar (Degradation None None None None (Some 7)) ex_base
  = Ok (Sawtooth (num 0) (num 100) (num 300), mk_base (num 1) None (Some (num 1)) (Some 7)).
Proof. vm_compute. reflexivity. Qed.

(** ** Bounds *)

(** A hash is a fraction from zero to one, and one is reached. *)
Lemma num_finite n : 0 <= n <= two64 -> finite (num n) /\ sign (num n) = false /\ 0 <= value (num n) <= two64 * U.
Proof.
  intros Hn. pose proof (pow2_pos 1074 ltac:(lia)) as HU.
  destruct (exact_magnitude 1 1138) as (k & Hk & Hu & Hr); [lia|lia| |].
  { by vm_compute. }
  rewrite Z.mul_1_l in Hu, Hr.
  assert (H2 : two64 * U = 2 ^ 1138) by reflexivity.
  rewrite num_nonneg by lia.
  pose proof (round_units_mono (n * U) 1 (two64 * U) 1 ltac:(nia) ltac:(lia) ltac:(nia) ltac:(lia) ltac:(nia)) as Hm.
  rewrite H2, Hr in Hm. pose proof (round_units_range (n * U) 1 ltac:(nia) ltac:(lia)).
  set (m := round_units (n * U) 1) in *.
  replace m with (signed false m) by (unfold signed; lia).
  split; [apply signed_finite; lia|]. rewrite sign_signed, value_signed by lia.
  split; [done|]. rewrite H2, <- Hu. split; [apply units_nonneg; lia|apply units_mono; lia].
Qed.

Lemma value_num_mono a b : a <= b -> value (num a) <= value (num b).
Proof.
  intros H. pose proof (num_mono a b H). destruct (Z.le_gt_cases (value (num a)) (value (num b))) as [|Hgt]; [done|].
  pose proof (proj1 (value_lt (num b) (num a) (rounded_u64 _ _) (rounded_u64 _ _)) Hgt). lia.
Qed.

(** The quotient of a number by one that is not smaller is a fraction. *)
Lemma ratio_range a b :
  finite a -> finite b -> sign a = false -> sign b = false -> 0 < value b -> value a <= value b ->
  finite (f64_div a b) /\ sign (f64_div a b) = false /\ 0 <= value (f64_div a b) <= U.
Proof.
  intros Fa Fb Sa Sb Hb Hle. pose proof (pow2_pos 1074 ltac:(lia)) as HU.
  assert (Ha : 0 <= value a).
  { unfold value. rewrite Sa. apply finite_parts in Fa. apply units_nonneg. lia. }
  rewrite div_values; [|exact Fa|exact Fb|exact Sa|exact Sb|lia].
  destruct (exact_magnitude 1 1074) as (k & Hk & Hu & Hr); [lia|lia|by vm_compute|].
  rewrite Z.mul_1_l in Hu, Hr.
  set (x := value a) in *. set (y := value b) in *. clearbody x y. set (u := U) in *. clearbody u.
  pose proof (round_units_mono (x * u) y u 1 ltac:(nia) ltac:(lia) ltac:(nia) ltac:(lia) ltac:(nia)) as Hm.
  rewrite Hr in Hm. pose proof (round_units_range (x * u) y ltac:(nia) ltac:(lia)).
  set (m := round_units (x * u) y) in *. replace m with (signed false m) by (unfold signed; lia).
  split; [apply signed_finite; lia|]. rewrite sign_signed, value_signed by lia.
  split; [done|]. rewrite <- Hu. split; [apply units_nonneg; lia|apply units_mono; lia].
Qed.

Lemma unit_of_range hash :
  0 <= hash <= u64_max ->
  finite (unit_of hash) /\ sign (unit_of hash) = false /\ 0 <= value (unit_of hash) <= U.
Proof.
  intros Hh. destruct (num_finite hash ltac:(lia)) as (Fh & Sh & _).
  destruct (num_finite u64_max ltac:(lia)) as (Fm & Sm & _).
  pose proof (value_num_mono hash u64_max ltac:(lia)) as Hle.
  assert (Hpos : 0 < value (num u64_max)) by (vm_compute; reflexivity).
  unfold unit_of. rewrite !of_u64_num by lia.
  apply ratio_range; [exact Fh|exact Fm|exact Sh|exact Sm|exact Hpos|exact Hle].
Qed.

Lemma value_cases x : is_u64 x -> 0 <= units (magnitude x) /\
  (sign x = false /\ value x = units (magnitude x) \/ sign x = true /\ value x = - units (magnitude x)).
Proof.
  intros Hx. pose proof (magnitude_bound x Hx). split; [apply units_nonneg; lia|].
  unfold value. destruct (sign x); auto.
Qed.

(** A fraction of a number that is not negative lies between zero and it. *)
Lemma fraction_of u r :
  finite u -> sign u = false -> value u <= U -> finite r -> 0 <= value r ->
  finite (f64_mul u r) /\ 0 <= value (f64_mul u r) <= value r.
Proof.
  intros [Hu Hfu] Su Vu [Hr Hfr] Vr. rewrite mul_rounds by done. rewrite Su, xorb_false_l.
  pose proof (finite_magnitude r Hr Hfr). destruct (value_cases u Hu) as [Hu0 Hc], (value_cases r Hr) as [Hr0 Hd].
  pose proof (pow2_pos 1074 ltac:(lia)) as HU.
  assert (Hval : value u = units (magnitude u)) by (destruct Hc as [[_ ?]|[? _]]; [done|congruence]).
  rewrite Hval in Vu.
  set (a := units (magnitude u)) in *. set (b := units (magnitude r)) in *.
  assert (Hm : round_units (a * b) U <= magnitude r).
  { rewrite <- (round_units_exact (magnitude r) U) by done. fold b.
    set (t := U) in *. clearbody t. apply round_units_mono; nia. }
  pose proof (round_units_range (a * b) U ltac:(nia) HU) as [Hm0 _].
  set (m := round_units (a * b) U) in *. split; [apply signed_finite; lia|].
  rewrite value_signed by lia. pose proof (units_nonneg m Hm0).
  pose proof (units_mono m (magnitude r) ltac:(lia)) as Hle. fold b in Hle.
  destruct Hd as [[-> ->]|[-> Hd]]; lia.
Qed.

Lemma le_rounded a s v : finite a -> key a <= rkey v -> f64_le a (rounded s v) = true.
Proof.
  intros Ha Hk. unfold f64_le. destruct (finite_parts a Ha) as (_ & _ & -> & _).
  rewrite rounded_not_nan, key_rounded. by apply Z.leb_le.
Qed.

Lemma rounded_le s v s' w : v <= w -> f64_le (rounded s v) (rounded s' w) = true.
Proof.
  intros H. unfold f64_le. rewrite !rounded_not_nan, !key_rounded. by apply Z.leb_le, rkey_mono.
Qed.

Lemma value_rounded_ge s v : 0 <= v -> 0 <= value (rounded s v).
Proof.
  intros Hv. unfold rounded. pose proof (round_units_range (Z.abs v) 1 ltac:(lia) ltac:(lia)).
  rewrite value_signed by lia. pose proof (units_nonneg (round_units (Z.abs v) 1) ltac:(lia)).
  destruct (Z.eqb_spec v 0) as [->|]; [by destruct s|]. destruct (Z.ltb_spec v 0); lia.
Qed.

Lemma uniform_bounds_aux sin min max seed tick :
  finite min -> finite max -> value min <= value max -> finite (f64_sub max min) ->
  exists v, value_at sin (GUniform min max seed) tick = Some v /\
    f64_le min v = true /\ f64_le v (f64_add min (f64_sub max min)) = true.
Proof.
  intros Hmin Hmax Hle Hr. eexists. split; [reflexivity|]. unfold value_uniform.
  pose proof (splitmix64_u64 (Z.lxor seed tick)) as Hh.
  destruct (unit_of_range _ Hh) as (Hu & Su & Vu).
  assert (Hr0 : 0 <= value (f64_sub max min)).
  { rewrite sub_rounds by (apply Hmin || apply Hmax). apply value_rounded_ge. lia. }
  destruct (fraction_of _ _ Hu Su (proj2 Vu) Hr Hr0) as [Hp Vp].
  rewrite !add_rounds by (apply Hmin || apply Hp || apply Hr). split.
  - apply le_rounded; [done|]. rewrite <- (rkey_value min Hmin). apply rkey_mono. lia.
  - apply rounded_le. lia.
Qed.

(** C28: every value of the uniform generator is at least [min], and at most
    what adding the rounded width [max - min] to [min] gives. *)
Theorem uniform_bounds sin min max seed tick
    (Hmin : finite min) (Hmax : finite max) (Hle : value min <= value max)
    (Hr : finite (f64_sub max min)) :
  exists v, value_at sin (GUniform min max seed) tick = Some v /\
    f64_le min v = true /\ f64_le v (f64_add min (f64_sub max min)) = true.
Proof. by apply uniform_bounds_aux. Qed.

Definition f64_0_3 : f64 := 4599075939470750515.
Definition f64_0_9 : f64 := 4606281698874543309.

Lemma uniform_bounds_witness :
  exists v, value_at id (GUniform f64_0_3 f64_0_9 7) 3 = Some v /\
    f64_le f64_0_3 v = true /\ f64_le v (f64_add f64_0_3 (f64_sub f64_0_9 f64_0_3)) = true.
Proof.
  apply uniform_bounds; [split; vm_compute; [split; discriminate|reflexivity]..| |].
  - vm_compute. discriminate.
  - split; vm_compute; [split; discriminate|reflexivity].
Defined.

(** The greatest hash is a fraction of one, and a value may then pass [max]. *)
Lemma uniform_exceeds_max :
  unit_of u64_max = num 1 /\
  exists seed v, is_u64 seed /\ value_at id (GUniform f64_0_3 f64_0_9 seed) 0 = Some v /\
    f64_gt v f64_0_9 = true.
Proof.
  split; [vm_compute; reflexivity|]. exists (splitmix64_inverse u64_max). eexists.
  split; [vm_compute; split; discriminate|]. split; [vm_compute; reflexivity|].
  vm_compute. reflexivity.
Qed.

(** ** Jitter *)

(** Twice a number that is representable is, unless it is too large. *)
Lemma twice k :
  0 <= k -> 2 * units k < units inf_bits ->
  exists k', 0 <= k' < inf_bits /\ units k' = 2 * units k.
Proof.
  intros Hk Hb. destruct (split_binade k Hk) as (e & r & He & Hr & Hc & ->).
  rewrite units_scaled in * by lia.
  destruct (representable r (e + 1)) as (k' & Hk' & Hu); [lia|lia|].
  rewrite Z.pow_add_r in Hu by lia. exists k'. split; [split; [done|]|lia].
  apply units_lt; lia.
Qed.

Lemma round_twice n d k : 0 <= n -> 0 < d -> 0 <= k < inf_bits -> n = units k * d -> round_units n d = k.
Proof. intros Hn Hd Hk ->. by apply round_units_exact. Qed.

(** Noise is at most the half range, on either side. *)
Lemma noise_range unit half :
  finite unit -> sign unit = false -> value unit <= U ->
  finite half -> sign half = false -> 2 * value half < units inf_bits ->
  let noise := f64_sub (f64_mul (f64_mul unit (num 2)) half) half in
  finite noise /\ - value half <= value noise <= value half.
Proof.
  intros Fu Su Vu Fh Sh Hb noise. pose proof (pow2_pos 1074 ltac:(lia)) as HU.
  assert (Vu' : value unit = units (magnitude unit)) by (unfold value; by rewrite Su).
  assert (Vh : value half = units (magnitude half)) by (unfold value; by rewrite Sh).
  destruct (finite_parts unit Fu) as (_ & _ & _ & Mu). destruct (finite_parts half Fh) as (_ & _ & _ & Mh).
  pose proof (units_nonneg (magnitude unit) ltac:(lia)). pose proof (units_nonneg (magnitude half) ltac:(lia)).
  assert (Hbig : 4 * U < units inf_bits) by (by vm_compute).
  destruct (twice (magnitude unit)) as (k & Hk & Uk); [lia|lia|].
  assert (Ht : f64_mul unit (num 2) = signed false k).
  { rewrite mul_num_right by (done || lia). unfold signed. rewrite Z.add_0_r.
    apply round_twice; lia. }
  destruct (twice (magnitude half)) as (j & Hj & Uj); [lia|lia|].
  assert (Hp : f64_mul (f64_mul unit (num 2)) half = round_units (units k * units (magnitude half)) U).
  { rewrite Ht, mul_values; [|by apply signed_finite|done|apply sign_signed; lia|done].
    by rewrite value_signed, Vh by lia. }
  rewrite <- Vu', <- Vh in *.
  assert (Hpj : 0 <= round_units (units k * value half) U <= j).
  { split; [apply round_units_range; nia|]. rewrite <- (round_units_exact j U) by done. rewrite Uj, Uk.
    set (t := U) in *. clearbody t. apply round_units_mono; nia. }
  assert (Fp : finite (f64_mul (f64_mul unit (num 2)) half) /\
               0 <= value (f64_mul (f64_mul unit (num 2)) half) <= 2 * value half).
  { rewrite Hp. set (m := round_units (units k * value half) U) in *.
    replace m with (signed false m) by (unfold signed; lia). split; [apply signed_finite; lia|].
    rewrite value_signed by lia. pose proof (units_mono m j Hpj). pose proof (units_nonneg m). lia. }
  destruct Fp as [Fp Vp]. unfold noise. rewrite sub_rounds by (apply Fp || apply Fh).
  set (w := value _ - value half) in *. unfold rounded.
  assert (Hm : round_units (Z.abs w) 1 <= magnitude half).
  { rewrite <- (round_units_exact (magnitude half) 1) by lia. rewrite <- Vh.
    apply round_units_mono; lia. }
  pose proof (round_units_range (Z.abs w) 1 ltac:(lia) ltac:(lia)) as [Hm0 _].
  split; [apply signed_finite; lia|]. rewrite value_signed by lia.
  pose proof (units_mono _ _ (conj Hm0 Hm)) as Hu. rewrite <- Vh in Hu. pose proof (units_nonneg _ Hm0).
  destruct (if w =? 0 then _ else w <? 0); lia.
Qed.

Lemma jitter_bounds_aux sin inner base half seed tick :
  value_at sin inner tick = Some base -> finite base ->
  finite half -> sign half = false -> 2 * value half < units inf_bits ->
  exists v, value_at sin (GJitter inner half seed) tick = Some v /\
    f64_le (f64_sub base half) v = true /\ f64_le v (f64_add base half) = true.
Proof.
  intros Hi Fb Fh Sh Hb. cbn [value_at]. rewrite Hi. eexists. split; [reflexivity|].
  unfold jitter_noise. pose proof (splitmix64_u64 (Z.lxor (Z.lxor seed tick) JITTER_MAGIC)) as Hh.
  destruct (unit_of_range _ Hh) as (Fu & Su & Vu). rewrite of_u64_num by lia.
  destruct (noise_range _ half Fu Su (proj2 Vu) Fh Sh Hb) as [Fn Vn].
  rewrite !add_rounds, sub_rounds by (apply Fb || apply Fh || apply Fn).
  split; apply rounded_le; lia.
Qed.

(** Jitter moves the value of the generator it wraps by at most its half
    range: the value lies between the difference and the sum of the two. *)
Theorem jitter_bounds sin inner base half seed tick
    (Hi : value_at sin inner tick = Some base) (Fb : finite base)
    (Fh : finite half) (Sh : sign half = false) (Hb : 2 * value half < units inf_bits) :
  exists v, value_at sin (GJitter inner half seed) tick = Some v /\
    f64_le (f64_sub base half) v = true /\ f64_le v (f64_add base half) = true.
Proof. by apply (jitter_bounds_aux sin inner). Qed.

Lemma jitter_bounds_witness :
  exists v, value_at id (GJitter (GConstant (num 10)) f64_0_3 7) 3 = Some v /\
    f64_le (f64_sub (num 10) f64_0_3) v = true /\ f64_le v (f64_add (num 10) f64_0_3) = true.
Proof.
  apply (jitter_bounds id (GConstant (num 10)));
    [reflexivity|split; vm_compute; [split; discriminate|reflexivity]..|reflexivity|by vm_compute].
Defined.
