(* ===== verification/CsvReplay.v ===== *)
(** * CsvReplay: recorded columns and the silence they declare
    (generator/csv_replay.rs, generator/csv_header.rs, generator/mod.rs)

    A column of a CSV file is a slot per data row, a blank cell being an absent
    sample. [cross_check_gap_windows] compares the blanks with the declared
    windows before a capture is replayed: it accepts exactly the captures whose
    playback has no absent sample outside a window and no recorded one inside.
    [first_uncovered_tick], which searches the windows, finds the same tick as
    looking at every one. The instants are those the check computes, in binary64
    seconds; [check_and_loop_disagree] shows a capture it accepts and the
    schedule loop, on its nanosecond grid, silences elsewhere. *)

From Stdlib Require Import ZArith Lia Ascii.
From stdpp Require Import prelude strings list numbers sorting.
From S2P Require Import Prelude Text F64 Windows Durations SinkIo Rounding FloatText Binary64.
From S2P Require Import ParseDuration Generators.

(** ** Reading a column *)

(** A line without its carriage return. *)
Fixpoint strip_cr (s : string) : string :=
  match s with
  | EmptyString => EmptyString
  | String c EmptyString => if code c =? 13 then EmptyString else s
  | String c s => String c (strip_cr s)
  end.

(** [content.lines()]: the text after the last newline is a line if it is not
    empty; only a line that ends in a newline loses a carriage return. *)
Fixpoint lines_of (pieces : list string) : list string :=
  match pieces with
  | [] => []
  | [last] => if String.eqb last "" then [] else [last]
  | l :: pieces => strip_cr l :: lines_of pieces
  end.

Definition newline : ascii := ascii_of_N 10.

Definition str_lines (content : string) : list string := lines_of (split_on newline content).

(** [f.trim().parse::<f64>().is_err()]. *)
Definition not_a_number (field : string) : bool := bool_decide (parse_f64 (trim field) = None).

(** [is_header_line]. *)
Definition is_header_line (line : string) : bool :=
  match split_on ","%char line with
  | [] => false
  | [f] => not_a_number f
  | _ :: fields => existsb not_a_number fields
  end.

(** The errors of reading: what they show. *)
Inductive CsvError :=
| MissingColumn (line_no columns column : nat)
| NotANumber (line_no column : nat) (cell : string)
| NoNumericValues (path : option string) (column : nat)
| FileRead (path : string) (source : string).

(** What the loop of [parse_values_and_gaps] carries. *)
Record Column := mk_column_state {
  col_values : list f64;
  col_blanks : list nat;
  first_data_line : bool;
}.

(** One turn of it. *)
Definition parse_line (column : nat) (line_no : nat) (line : string) (s : Column)
  : result Column CsvError :=
  let trimmed := trim line in
  if String.eqb trimmed "" then Ok s
  else if str_starts_with "#"%char trimmed then Ok s
  else if first_data_line s && is_header_line trimmed then
    Ok (mk_column_state (col_values s) (col_blanks s) false)
  else
    let fields := split_on ","%char trimmed in
    match fields !! column with
    | None => Err (MissingColumn line_no (length fields) column)
    | Some field =>
        let cell := trim field in
        if String.eqb cell "" then
          Ok (mk_column_state (col_values s ++ [f64_nan]) (col_blanks s ++ [length (col_values s)]) false)
        else
          match parse_f64 cell with
          | None => Err (NotANumber line_no column cell)
          | Some parsed => Ok (mk_column_state (col_values s ++ [parsed]) (col_blanks s) false)
          end
    end.

Fixpoint parse_lines (column line_no : nat) (lines : list string) (s : Column)
  : result Column CsvError :=
  match lines with
  | [] => Ok s
  | line :: lines =>
      let? s := parse_line column line_no line s in
      parse_lines column (S line_no) lines s
  end.

(** [parse_values_and_gaps], also [column_values_and_gaps]. *)
Definition parse_values_and_gaps (content : string) (column : nat)
  : result (list f64 * list nat) CsvError :=
  let? s := parse_lines column 1 (str_lines content) (mk_column_state [] [] true) in
  Ok (col_values s, col_blanks s).

(** [parse_values]. *)
Definition parse_values (content : string) (column : nat) : result (list f64) CsvError :=
  let? (values, _) := parse_values_and_gaps content column in
  Ok values.

(** [CsvReplayGenerator::from_str]. *)
Definition csv_from_str (content : string) (column : nat) (repeat : bool)
  : result ValueGenerator CsvError :=
  let? values := parse_values content column in
  match values with
  | [] => Err (NoNumericValues None column)
  | _ => Ok (GCsvReplay values repeat)
  end.

Example capture : string :=
  "time,cpu" +:+ String newline ("0,1.5" +:+ String newline ("# note" +:+ String newline
  ("1," +:+ String newline ("2,3" +:+ String newline "")))).

Example capture_read : parse_values_and_gaps capture 1
  = Ok ([4609434218613702656; f64_nan; num 3], [1%nat]).
Proof. vm_compute. reflexivity. Qed.
Example capture_short : parse_values_and_gaps capture 2 = Err (MissingColumn 2 2 2).
Proof. vm_compute. reflexivity. Qed.

(** ** Building generators *)

Section create.
(** [std::fs::read_to_string]: the file system. *)
Context (read_to_string : string -> result string string).

(** [CsvReplayGenerator::new]. *)
Definition csv_new (path : string) (column : nat) (repeat : bool) : result ValueGenerator CsvError :=
  let? content := map_err (FileRead path) (read_to_string path) in
  let? values := parse_values content column in
  match values with
  | [] => Err (NoNumericValues (Some path) column)
  | _ => Ok (GCsvReplay values repeat)
  end.

(** The errors of [create_generator]. *)
Inductive CreateError :=
| InvalidConfig (message : string)
| CsvFailed (e : CsvError).

(** [create_generator]. *)
Definition create_generator (config : GeneratorConfig) (rate : f64)
  : result ValueGenerator CreateError :=
  match config with
  | Constant value => Ok (GConstant value)
  | Uniform min max seed => Ok (GUniform min max (default 0 seed))
  | Sine amplitude period_secs offset => Ok (GSine amplitude (f64_mul period_secs rate) offset)
  | Sawtooth min max period_secs => Ok (GSawtooth min max (f64_mul period_secs rate))
  | Spike baseline magnitude duration_secs interval_secs =>
      if f64_le interval_secs 0 then Err (InvalidConfig "spike generator requires interval_secs > 0")
      else if f64_lt duration_secs 0 then
        Err (InvalidConfig "spike generator requires duration_secs >= 0")
      else Ok (GSpike baseline magnitude (f64_mul duration_secs rate) (f64_mul interval_secs rate))
  | Sequence values repeat =>
      match values with
      | [] => Err (InvalidConfig "sequence generator requires at least one value")
      | _ => Ok (GSequence values (default true repeat))
      end
  | CsvReplay file column columns repeat _ _ =>
      match columns with
      | Some _ =>
          Err (InvalidConfig
            "csv_replay: call expand_scenario before create_generator when 'columns' is set")
      | None => map_err CsvFailed (csv_new file (default 0%nat column) (default true repeat))
      end
  | Step start step_size max => Ok (GStep (default 0 start) step_size max)
  | Flap _ _ _ _ _ _ | Saturation _ _ _ | Leak _ _ _ | Degradation _ _ _ _ _ | Steady _ _ _ _ _
  | SpikeEvent _ _ _ _ =>
      Err (InvalidConfig
        "operational alias generator must be desugared via desugar_entry() or desugar_scenario_config() before calling create_generator()")
  end.
End create.

(** ** The cross-check *)

(** [Playback]; [None] is an unbounded run. *)
Record Playback := mk_playback {
  row_count : nat;
  pb_repeat : bool;
  last_tick : option Z;
  pb_bursts : bool;
}.

(** The instant of a tick, [t as f64 * step_secs]. *)
Definition instant (t : Z) (step_secs : f64) : f64 := f64_mul (f64_of_u64 t) step_secs.

(** [tick_in_window]. *)
Definition tick_in_window (t : Z) (step_secs : f64) (window : f64 * f64) : bool :=
  let at_ := instant t step_secs in
  f64_ge at_ window.1 && f64_lt at_ window.2.

(** [covered]. *)
Definition covered (windows : list (f64 * f64)) (step_secs : f64) (t : Z) : bool :=
  existsb (tick_in_window t step_secs) windows.

(** The binary search: [lo] is covered by the window, [hi] is not. *)
Fixpoint close_on (fuel : nat) (step_secs : f64) (window : f64 * f64) (lo hi : Z) : option Z :=
  match fuel with
  | O => None
  | S fuel =>
      if 1 <? hi - lo then
        let mid := lo + (hi - lo) / 2 in
        if tick_in_window mid step_secs window then close_on fuel step_secs window mid hi
        else close_on fuel step_secs window lo mid
      else Some hi
  end.

(** Each turn halves the distance, which a [usize] holds. *)
Definition SEARCH_FUEL : nat := 65.

(** Where the walk over the windows ends: with an answer, or at a tick past
    them all. The outer [option] is the fuel of the searches. *)
Fixpoint walk_windows (step_secs : f64) (to : Z) (windows : list (f64 * f64)) (cursor : Z)
  : option (option Z + Z) :=
  match windows with
  | [] => Some (inr cursor)
  | window :: windows =>
      if f64_lt (instant cursor step_secs) window.1 then Some (inl (Some cursor))
      else if negb (tick_in_window cursor step_secs window) then
        walk_windows step_secs to windows cursor
      else if tick_in_window to step_secs window then Some (inl None)
      else
        let! hi := close_on SEARCH_FUEL step_secs window cursor to in
        walk_windows step_secs to windows hi
  end.

(** The order of [sort_by]: by start, a NaN being equal to everything. *)
Definition starts_le (a b : f64 * f64) : Prop := f64_lt b.1 a.1 = false.

#[export] Instance starts_le_dec : RelDecision starts_le.
Proof. intros a b. unfold starts_le. apply _. Defined.

(** [first_uncovered_tick]. *)
Definition first_uncovered_tick (from to : Z) (windows : list (f64 * f64)) (step_secs : f64)
  : option (option Z) :=
  if to <? from then Some None
  else
    let! r := walk_windows step_secs to (merge_sort starts_le windows) from in
    match r with
    | inl answer => Some answer
    | inr cursor => Some (if cursor <=? to then Some cursor else None)
    end.

(** The refusals of [cross_check_gap_windows], with the rows they name (the
    message shows the first eight). *)
Inductive CrossCheckError :=
| SilenceCannotLoop (blanks : nat)
| SilenceWithBursts (blanks : nat)
| BlanksUncovered (rows : list nat)
| SamplesSilenced (rows : list nat)
| TailUnbounded (last_row : nat)
| TailUncovered (last_row : nat) (first : Z).

(** [cross_check_gap_windows]. *)
Definition cross_check_gap_windows (blanks : list nat) (playback : Playback)
    (windows : list (f64 * f64)) (step_secs : f64) : option (result unit CrossCheckError) :=
  let n := row_count playback in
  let covered_row r := covered windows step_secs (Z.of_nat r) in
  if pb_repeat playback && negb (length blanks =? 0)%nat then
    Some (Err (SilenceCannotLoop (length blanks)))
  else if pb_bursts playback && negb (length blanks =? 0)%nat then
    Some (Err (SilenceWithBursts (length blanks)))
  else
    let uncovered := List.filter (fun r => negb (covered_row r)) blanks in
    if negb (length uncovered =? 0)%nat then Some (Err (BlanksUncovered uncovered))
    else
      let silenced := List.filter (fun r => covered_row r && negb (bool_decide (r ∈ blanks))) (seq 0 n) in
      if negb (length silenced =? 0)%nat then Some (Err (SamplesSilenced silenced))
      else
        match n with
        | O => Some (Ok tt)
        | S last_row =>
            if negb (bool_decide (last_row ∈ blanks)) then Some (Ok tt)
            else
              match last_tick playback with
              | None => Some (Err (TailUnbounded last_row))
              | Some last =>
                  let! first := first_uncovered_tick (Z.of_nat n) last windows step_secs in
                  match first with
                  | Some t => Some (Err (TailUncovered last_row t))
                  | None => Some (Ok tt)
                  end
              end
        end.

(** ** The search finds the first tick *)

Section search.
Context (step_secs : f64) (Hstep : finite step_secs) (Hsign : sign step_secs = false).

Lemma instant_key t :
  0 <= t <= u64_max ->
  is_nan (instant t step_secs) = false /\
  key (instant t step_secs) = round_units (value (num t) * value step_secs) U.
Proof using Hstep Hsign.
  intros Ht. unfold instant. rewrite of_u64_num by lia.
  destruct (num_finite t ltac:(lia)) as (Fn & Sn & Vn). rewrite mul_values; [|exact Fn|exact Hstep|exact Sn|exact Hsign].
  assert (Hv : 0 <= value step_secs).
  { unfold value. rewrite Hsign. apply finite_parts in Hstep. apply units_nonneg. lia. }
  pose proof (round_units_range (value (num t) * value step_secs) U ltac:(nia) ltac:(by apply pow2_pos)).
  set (m := round_units _ U) in *. assert (Em : m = signed false m) by (unfold signed; lia).
  split; [rewrite Em; apply is_nan_signed; lia|rewrite Em at 1; rewrite key_signed by lia; reflexivity].
Qed.

Lemma instant_mono t t' :
  0 <= t <= t' -> t' <= u64_max -> key (instant t step_secs) <= key (instant t' step_secs).
Proof using Hstep Hsign.
  intros Ht Ht'. destruct (instant_key t) as [_ ->]; [lia|]. destruct (instant_key t') as [_ ->]; [lia|].
  pose proof (value_num_mono t t' ltac:(lia)). destruct (num_finite t ltac:(lia)) as (_ & _ & Vn).
  assert (Hv : 0 <= value step_secs).
  { unfold value. rewrite Hsign. apply finite_parts in Hstep. apply units_nonneg. lia. }
  pose proof (pow2_pos 1074 ltac:(lia)) as HU.
  set (u := U) in *. clearbody u.
  apply round_units_mono; [apply Z.mul_nonneg_nonneg; lia|lia|apply Z.mul_nonneg_nonneg; lia|lia|].
  apply Z.mul_le_mono_nonneg_r; [lia|]. apply Z.mul_le_mono_nonneg_r; lia.
Qed.

Abbreviation inside t w := (tick_in_window t step_secs w).

Lemma inside_iff t w :
  0 <= t <= u64_max ->
  inside t w = true <-> is_nan w.1 = false /\ is_nan w.2 = false /\
    key w.1 <= key (instant t step_secs) < key w.2.
Proof using Hstep Hsign.
  intros Ht. destruct (instant_key t Ht) as [Hn _].
  unfold tick_in_window, f64_ge, f64_le, f64_lt. rewrite Hn.
  destruct (is_nan w.1), (is_nan w.2); cbn [negb andb]; rewrite ?andb_false_r; try tauto;
    try (split; [done|by intros (? & ? & _)]).
  rewrite andb_true_iff, Z.leb_le, Z.ltb_lt. tauto.
Qed.

(** Past a window once, past it for good. *)
Lemma inside_run t u w :
  0 <= t <= u -> u <= u64_max -> inside t w = true ->
  inside u w = true <-> key (instant u step_secs) < key w.2.
Proof using Hstep Hsign.
  intros Ht Hu Hin. rewrite inside_iff in Hin |- * by lia. pose proof (instant_mono t u Ht Hu).
  destruct Hin as (N1 & N2 & Hk). split; [intros (_ & _ & Hu'); lia|]. intros Hlt. split; [done|]. split; [done|lia].
Qed.

Lemma close_on_spec fuel w : forall lo hi,
  0 <= lo < hi -> hi <= u64_max -> hi - lo <= 2 ^ Z.of_nat fuel ->
  inside lo w = true -> inside hi w = false ->
  exists h, close_on (S fuel) step_secs w lo hi = Some h /\ lo < h <= hi /\
    inside (h - 1) w = true /\ inside h w = false.
Proof using Type.
  clear Hstep Hsign.
  induction fuel as [|fuel IH]; intros lo hi Hlo Hhi Hd Hin Hout; cbn [close_on].
  - change (2 ^ Z.of_nat 0) with 1 in Hd. destruct (Z.ltb_spec 1 (hi - lo)); [lia|].
    exists hi. replace (hi - 1) with lo by lia. auto with lia.
  - destruct (Z.ltb_spec 1 (hi - lo)) as [H1|H1].
    2: { exists hi. replace (hi - 1) with lo by lia. auto with lia. }
    rewrite Nat2Z.inj_succ, Z.pow_succ_r in Hd by lia.
    pose proof (Z_div_mod_eq_full (hi - lo) 2) as Hm. pose proof (Z.mod_pos_bound (hi - lo) 2 ltac:(lia)).
    set (mid := lo + (hi - lo) / 2). destruct (inside mid w) eqn:Emid.
    + destruct (IH mid hi) as (h & Eh & Hh & Hr); [lia..|done|done|]. exists h. split; [exact Eh|].
      split; [lia|done].
    + destruct (IH lo mid) as (h & Eh & Hh & Hr); [lia..|done|done|]. exists h. split; [exact Eh|].
      split; [lia|done].
Qed.

Abbreviation cov ws t := (covered ws step_secs t).

Lemma covered_cons w ws t : cov (w :: ws) t = inside t w || cov ws t.
Proof using Type. done. Qed.

Definition starts_ok (ws : list (f64 * f64)) : Prop := Forall (fun w => is_nan w.1 = false) ws.

(** Before the first of the sorted windows starts, none covers. *)
Lemma before_all t w ws :
  0 <= t <= u64_max -> starts_ok (w :: ws) -> StronglySorted starts_le (w :: ws) ->
  f64_lt (instant t step_secs) w.1 = true -> cov (w :: ws) t = false.
Proof using Hstep Hsign.
  intros Ht Hok Hs Hlt. apply StronglySorted_inv in Hs as [_ Hs].
  unfold f64_lt in Hlt. apply andb_true_iff in Hlt as [_ Hlt%Z.ltb_lt].
  assert (Hall : forall v, v ∈ w :: ws -> key (instant t step_secs) < key v.1).
  { intros v [->|Hv]%elem_of_cons; [done|]. rewrite Forall_forall in Hs. specialize (Hs v Hv).
    unfold starts_le, f64_lt in Hs. unfold starts_ok in Hok. rewrite Forall_forall in Hok.
    rewrite (Hok v), (Hok w) in Hs by (by left || by right). cbn in Hs. apply Z.ltb_ge in Hs. lia. }
  unfold covered. apply not_true_iff_false. intros H. apply existsb_exists in H as (v & Hv & Hin).
  apply inside_iff in Hin; [|done]. specialize (Hall v (proj2 (list_elem_of_In _ _) Hv)). lia.
Qed.

Lemma walk_windows_spec to ws : forall cursor,
  0 <= cursor <= to -> to <= u64_max -> starts_ok ws -> StronglySorted starts_le ws ->
  exists r, walk_windows step_secs to ws cursor = Some r /\
    match r with
    | inl (Some t) => cursor <= t <= to /\ cov ws t = false /\ (forall s, cursor <= s < t -> cov ws s = true)
    | inl None => forall s, cursor <= s <= to -> cov ws s = true
    | inr t => cursor <= t <= to /\ (forall s, t <= s <= to -> cov ws s = false) /\
               (forall s, cursor <= s < t -> cov ws s = true)
    end.
Proof using Hstep Hsign.
  induction ws as [|w ws IH]; intros cursor Hc Hto Hok Hs; cbn [walk_windows].
  { eexists. split; [done|]. split; [lia|]. split; [done|lia]. }
  destruct (f64_lt (instant cursor step_secs) w.1) eqn:Elt.
  { eexists. split; [done|]. split; [lia|]. split; [|lia]. by apply before_all; [lia|..]. }
  pose proof (proj1 (Forall_cons _ _ _) Hok) as [Hw Hws]. apply StronglySorted_inv in Hs as [Hs _].
  (* what is past the window from [c] on is decided by the others *)
  assert (Hskip : forall c, cursor <= c <= to -> (forall s, c <= s <= to -> inside s w = false) ->
    (forall s, cursor <= s < c -> inside s w = true) ->
    exists r, walk_windows step_secs to ws c = Some r /\
    match r with
    | inl (Some t) => cursor <= t <= to /\ cov (w :: ws) t = false /\
        (forall s, cursor <= s < t -> cov (w :: ws) s = true)
    | inl None => forall s, cursor <= s <= to -> cov (w :: ws) s = true
    | inr t => cursor <= t <= to /\ (forall s, t <= s <= to -> cov (w :: ws) s = false) /\
               (forall s, cursor <= s < t -> cov (w :: ws) s = true)
    end).
  { intros c Hcc Hpast Hrun. destruct (IH c) as (r & Er & Hr); [lia|done|done|done|].
    exists r. split; [done|].
    assert (Hbefore : forall s, cursor <= s -> s <= to -> (c <= s -> cov ws s = true) -> cov (w :: ws) s = true).
    { intros s H1 H2 H3. rewrite covered_cons. destruct (Z.lt_ge_cases s c).
      - by rewrite Hrun by lia.
      - rewrite H3 by done. apply orb_true_r. }
    assert (Hafter : forall s, c <= s <= to -> cov (w :: ws) s = cov ws s).
    { intros s H1. rewrite covered_cons, Hpast by done. done. }
    destruct r as [[t|]|t].
    - destruct Hr as (H1 & H2 & H3). split; [lia|]. rewrite Hafter by lia. split; [done|].
      intros s H4. apply Hbefore; [lia|lia|]. intros H5. apply H3. lia.
    - intros s H4. apply Hbefore; [lia|lia|]. intros H5. apply Hr. lia.
    - destruct Hr as (H1 & H2 & H3). split; [lia|]. split.
      + intros s H4. rewrite Hafter by lia. apply H2. lia.
      + intros s H4. apply Hbefore; [lia|lia|]. intros H5. apply H3. lia. }
  destruct (inside cursor w) eqn:Ein; cbn [negb].
  - destruct (inside to w) eqn:Eto.
    + eexists. split; [done|]. intros s Hsr. rewrite covered_cons.
      rewrite (proj2 (inside_run cursor s w ltac:(lia) ltac:(lia) Ein)); [done|].
      apply (inside_run cursor to w) in Eto; [|lia..|done].
      pose proof (instant_mono s to ltac:(lia) ltac:(lia)). lia.
    + assert (Hlt : cursor < to) by (destruct (decide (cursor = to)); [congruence|lia]).
      destruct (close_on_spec 64 w cursor to) as (h & Eh & Hh & Hin & Hout);
        [lia|done|change (2 ^ Z.of_nat 64) with two64; lia|done|done|].
      change (S 64) with SEARCH_FUEL in Eh. rewrite Eh. apply Hskip; [lia|..].
      * intros s Hsr. apply not_true_iff_false. intros Hs'.
        apply (inside_run cursor s w) in Hs'; [|lia..|done].
        apply not_true_iff_false in Hout. apply Hout.
        apply (inside_run cursor h w); [lia..|done|].
        pose proof (instant_mono h s ltac:(lia) ltac:(lia)). lia.
      * intros s Hsr. apply (inside_run cursor s w); [lia..|done|].
        apply (inside_run cursor (h - 1) w) in Hin; [|lia..|done].
        pose proof (instant_mono s (h - 1) ltac:(lia) ltac:(lia)). lia.
  - apply Hskip; [lia| |lia]. intros s Hsr. apply not_true_iff_false. intros Hs'.
    apply inside_iff in Hs' as (_ & Hn2 & Hk); [|lia].
    apply not_true_iff_false in Ein. apply Ein. apply inside_iff; [lia|].
    split; [done|]. split; [done|]. pose proof (instant_mono cursor s ltac:(lia) ltac:(lia)).
    unfold f64_lt in Elt. destruct (instant_key cursor ltac:(lia)) as [Hn _].
    rewrite Hn, Hw in Elt. cbn in Elt. apply Z.ltb_ge in Elt. lia.
Qed.
End search.

(** ** The windows in order *)

Definition starts_key_le (a b : f64 * f64) : Prop := key a.1 <= key b.1.

#[export] Instance starts_le_total : Total starts_le.
Proof.
  intros a b. unfold starts_le, f64_lt. destruct (Z.le_gt_cases (key b.1) (key a.1)).
  - right. apply andb_false_iff. right. apply Z.ltb_ge. lia.
  - left. apply andb_false_iff. right. apply Z.ltb_ge. lia.
Qed.

Lemma starts_le_key a b :
  is_nan a.1 = false -> is_nan b.1 = false -> starts_le a b <-> starts_key_le a b.
Proof.
  intros Ha Hb. unfold starts_le, starts_key_le, f64_lt. rewrite Ha, Hb. cbn. by rewrite Z.ltb_ge.
Qed.

Lemma sorted_key ws : starts_ok ws -> Sorted starts_le ws -> Sorted starts_key_le ws.
Proof.
  induction ws as [|w ws IH]; intros Hok Hs; [constructor|].
  apply Forall_cons in Hok as [Hw Hok]. apply Sorted_inv in Hs as [Hs Hd]. constructor; [by apply IH|].
  destruct ws as [|v ws]; constructor. apply HdRel_inv in Hd. apply Forall_cons in Hok as [Hv _].
  by apply starts_le_key.
Qed.

Lemma strongly_sorted_starts ws :
  starts_ok ws -> StronglySorted starts_key_le ws -> StronglySorted starts_le ws.
Proof.
  induction ws as [|w ws IH]; intros Hok Hs; [constructor|].
  apply Forall_cons in Hok as [Hw Hok]. apply StronglySorted_inv in Hs as [Hs Hd].
  constructor; [by apply IH|]. apply Forall_forall. intros v Hv.
  unfold starts_ok in Hok. rewrite Forall_forall in Hok, Hd. apply starts_le_key; auto.
Qed.

Lemma merge_sorted ws :
  starts_ok ws -> starts_ok (merge_sort starts_le ws) /\ StronglySorted starts_le (merge_sort starts_le ws).
Proof.
  intros Hok. assert (Hok' : starts_ok (merge_sort starts_le ws)).
  { unfold starts_ok in *. by rewrite merge_sort_Permutation. }
  split; [done|]. apply strongly_sorted_starts; [done|]. apply Sorted_StronglySorted.
  - intros a b c. unfold starts_key_le. lia.
  - apply sorted_key; [done|]. apply Sorted_merge_sort. apply _.
Qed.

Lemma covered_perm ws ws' step t : ws ≡ₚ ws' -> covered ws step t = covered ws' step t.
Proof.
  intros Hp. unfold covered. apply eq_bool_prop_intro. rewrite !Is_true_true.
  rewrite !existsb_exists. split; intros (w & Hw & H); exists w; (split; [|done]);
    rewrite <- list_elem_of_In in Hw |- *; by rewrite Hp in Hw || rewrite <- Hp in Hw.
Qed.

(** What [first_uncovered_tick] answers. *)
Definition first_uncovered (from to : Z) (ws : list (f64 * f64)) (step : f64) (r : option Z) : Prop :=
  match r with
  | Some t => from <= t <= to /\ covered ws step t = false /\
      (forall s, from <= s < t -> covered ws step s = true)
  | None => forall s, from <= s <= to -> covered ws step s = true
  end.

Lemma first_uncovered_correct_aux from to ws step :
  finite step -> sign step = false -> starts_ok ws -> 0 <= from -> to <= u64_max ->
  exists r, first_uncovered_tick from to ws step = Some r /\ first_uncovered from to ws step r.
Proof.
  intros Hf Hs Hok Hfrom Hto. unfold first_uncovered_tick.
  destruct (Z.ltb_spec to from) as [Hlt|Hge]; [exists None; split; [done|cbn; lia]|].
  destruct (merge_sorted ws Hok) as [Hok' Hs'].
  destruct (walk_windows_spec step Hf Hs to (merge_sort starts_le ws) from) as (r & Er & Hr); [lia|done..|].
  rewrite Er. cbn. assert (Hp : forall t, covered (merge_sort starts_le ws) step t = covered ws step t).
  { intros t. apply covered_perm, merge_sort_Permutation. }
  unfold first_uncovered. destruct r as [[t|]|t].
  - destruct Hr as (H1 & H2 & H3). exists (Some t). rewrite <- Hp. split; [done|]. split; [lia|].
    split; [done|]. intros. rewrite <- Hp. auto.
  - exists None. split; [done|]. intros. rewrite <- Hp. auto.
  - destruct Hr as (H1 & H2 & H3). destruct (Z.leb_spec t to); [|lia]. exists (Some t).
    split; [done|]. split; [lia|]. rewrite <- Hp. split; [apply H2; lia|]. intros. rewrite <- Hp. auto.
Qed.

(** ** What the cross-check accepts *)

(** The slot a tick plays: [None] past the end of a column played once, whose
    last slot is held. *)
Definition played_row (n : nat) (t : Z) : nat := Nat.min (Z.to_nat t) (n - 1).

(** The check's own notion of a faithful replay, row by row and tick by tick. *)
Definition faithful (blanks : list nat) (pb : Playback) (ws : list (f64 * f64)) (step : f64) : Prop :=
  forall t, 0 <= t <= default u64_max (last_tick pb) -> t <= u64_max ->
    played_row (row_count pb) t ∈ blanks -> covered ws step t = true.

Definition no_sample_silenced (blanks : list nat) (pb : Playback) (ws : list (f64 * f64)) (step : f64)
  : Prop :=
  forall r, (r < row_count pb)%nat -> r ∉ blanks -> covered ws step (Z.of_nat r) = false.

Lemma filter_negb_nil {A} (f : A -> bool) l :
  length (List.filter f l) = 0%nat -> forall x, x ∈ l -> f x = false.
Proof.
  intros H%nil_length_inv x Hx%list_elem_of_In. apply not_true_iff_false. intros Hf.
  assert (Hin : In x (List.filter f l)) by (by apply filter_In). by rewrite H in Hin.
Qed.

(** The check returns, and what it accepts blanks only where a window silences
    and silences only blanks, also past the last row, whose slot is held. *)
Lemma cross_check_correct_aux blanks pb ws step :
  finite step -> sign step = false -> starts_ok ws ->
  Z.of_nat (row_count pb) <= u64_max -> Forall (fun r => (r < row_count pb)%nat) blanks ->
  match last_tick pb with Some last => last <= u64_max | None => True end ->
  exists r, cross_check_gap_windows blanks pb ws step = Some r /\
    (r = Ok tt ->
      faithful blanks pb ws step /\ no_sample_silenced blanks pb ws step /\
      (blanks <> [] -> pb_repeat pb = false /\ pb_bursts pb = false)).
Proof.
  intros Hf Hs Hok Hn Hrows Hlast. unfold cross_check_gap_windows.
  destruct (pb_repeat pb && _) eqn:E1; [by eexists|].
  destruct (pb_bursts pb && _) eqn:E2; [by eexists|].
  destruct (negb (length (List.filter _ blanks) =? 0)%nat) eqn:E3; [by eexists|].
  destruct (negb (length (List.filter _ (seq _ _)) =? 0)%nat) eqn:E4; [by eexists|].
  apply negb_false_iff, Nat.eqb_eq in E3, E4.
  assert (Hblank : forall r, r ∈ blanks -> covered ws step (Z.of_nat r) = true).
  { intros r Hr. by apply negb_false_iff, (filter_negb_nil _ _ E3 r Hr). }
  assert (Hsil : no_sample_silenced blanks pb ws step).
  { intros r Hr Hrb. assert (Hin : r ∈ seq 0 (row_count pb)) by (apply elem_of_seq; lia).
    pose proof (filter_negb_nil _ _ E4 r Hin) as H. cbn in H. rewrite bool_decide_false in H by done.
    by rewrite andb_true_r in H. }
  assert (Hmodes : blanks <> [] -> pb_repeat pb = false /\ pb_bursts pb = false).
  { intros Hb. destruct blanks; [done|]. cbn in E1, E2. rewrite andb_true_r in E1, E2. done. }
  assert (Hin : forall t, 0 <= t -> t < Z.of_nat (row_count pb) ->
            played_row (row_count pb) t ∈ blanks -> covered ws step t = true).
  { intros t H0 H1 Hp. unfold played_row in Hp. rewrite Nat.min_l in Hp by lia.
    specialize (Hblank _ Hp). by rewrite Z2Nat.id in Hblank by lia. }
  assert (Htail : (forall t, Z.of_nat (row_count pb) <= t <= default u64_max (last_tick pb) ->
            t <= u64_max -> (row_count pb - 1)%nat ∈ blanks -> covered ws step t = true) ->
            faithful blanks pb ws step).
  { intros H t Ht Htu Hp. destruct (Z.lt_ge_cases t (Z.of_nat (row_count pb))); [apply Hin; auto with lia|].
    apply H; [lia..|]. unfold played_row in Hp. by rewrite Nat.min_r in Hp by lia. }
  destruct (row_count pb) as [|last_row] eqn:En.
  { eexists. split; [done|]. intros _. split; [|done]. apply Htail. intros t _ _ Hp.
    rewrite Forall_forall in Hrows. specialize (Hrows _ Hp). lia. }
  replace (S last_row - 1)%nat with last_row in Htail by lia.
  destruct (bool_decide_reflect (last_row ∈ blanks)) as [Hlb|Hlb]; cbn [negb].
  2: { eexists. split; [done|]. intros _. split; [|done]. by apply Htail. }
  destruct (last_tick pb) as [last|] eqn:El; [|by eexists].
  destruct (first_uncovered_correct_aux (Z.of_nat (S last_row)) last ws step) as (r & Er & Hr);
    [done..|lia|done|].
  rewrite Er. cbn. destruct r as [t|]; [by eexists|]. eexists. split; [done|]. intros _.
  split; [|done]. apply Htail. intros t Ht _ _. by apply Hr.
Qed.

(** C25: the search of [first_uncovered_tick] finishes and answers with the least
    tick of the range no window covers, and with none exactly when every tick is
    covered, for any windows in any order, overlapping or not, whose starts are
    numbers. *)
Theorem first_uncovered_correct (from to : Z) (ws : list (f64 * f64)) (step : f64) :
  finite step -> sign step = false -> starts_ok ws -> 0 <= from -> to <= u64_max ->
  exists r, first_uncovered_tick from to ws step = Some r /\
    match r with
    | Some t => from <= t <= to /\ covered ws step t = false /\
        (forall s, from <= s < t -> covered ws step s = true)
    | None => forall s, from <= s <= to -> covered ws step s = true
    end.
Proof.
  intros Hf Hs Hok Hfrom Hto.
  destruct (first_uncovered_correct_aux from to ws step Hf Hs Hok Hfrom Hto) as (r & Er & Hr).
  exists r. split; [exact Er|]. by destruct r.
Qed.

(** The window 100 ms + 200 ms of a 10 Hz capture: its end is past 0.3. *)
Definition tenth : f64 := f64_div (num 1) (num 10).
Example tenths : list (f64 * f64) :=
  [(f64_div (num 5) (num 10), f64_add (f64_div (num 5) (num 10)) tenth);
   (tenth, f64_add tenth (f64_div (num 2) (num 10)))].
Example tenths_uncovered : first_uncovered_tick 2 9 tenths tenth = Some (Some 3).
Proof. vm_compute. reflexivity. Qed.

Lemma first_uncovered_correct_witness :
  exists r, first_uncovered_tick 2 9 tenths tenth = Some r /\
    match r with
    | Some t => 2 <= t <= 9 /\ covered tenths tenth t = false /\
        (forall s, 2 <= s < t -> covered tenths tenth s = true)
    | None => forall s, 2 <= s <= 9 -> covered tenths tenth s = true
    end.
Proof.
  apply (first_uncovered_correct 2 9 tenths tenth).
  - vm_compute. by repeat constructor.
  - vm_compute. reflexivity.
  - repeat (constructor; [vm_compute; reflexivity|]). constructor.
  - lia.
  - vm_compute. discriminate.
Defined.

(** C24: the check of a capture returns, and what it accepts replays faithfully:
    every tick that is played, past the last row included, whose row is an
    absent sample is inside a declared window, no recorded sample is inside
    one, and absent samples are neither looped nor sped through by bursts. *)
Theorem cross_check_correct (blanks : list nat) (pb : Playback) (ws : list (f64 * f64)) (step : f64) :
  finite step -> sign step = false -> starts_ok ws ->
  Z.of_nat (row_count pb) <= u64_max -> Forall (fun r => (r < row_count pb)%nat) blanks ->
  match last_tick pb with Some last => last <= u64_max | None => True end ->
  exists r, cross_check_gap_windows blanks pb ws step = Some r /\
    (r = Ok tt ->
      faithful blanks pb ws step /\ no_sample_silenced blanks pb ws step /\
      (blanks <> [] -> pb_repeat pb = false /\ pb_bursts pb = false)).
Proof. apply cross_check_correct_aux. Qed.

Example one_blank : Playback := mk_playback 4 false (Some 3) false.
Example one_blank_accepted :
  cross_check_gap_windows [1%nat; 2%nat] one_blank tenths tenth = Some (Ok tt).
Proof. vm_compute. reflexivity. Qed.
Example one_blank_missed :
  cross_check_gap_windows [1%nat; 2%nat] one_blank [(tenth, tenth)] tenth
  = Some (Err (BlanksUncovered [1%nat; 2%nat])).
Proof. vm_compute. reflexivity. Qed.

Lemma cross_check_correct_witness :
  exists r, cross_check_gap_windows [1%nat; 2%nat] one_blank tenths tenth = Some r /\
    (r = Ok tt ->
      faithful [1%nat; 2%nat] one_blank tenths tenth /\
      no_sample_silenced [1%nat; 2%nat] one_blank tenths tenth /\
      ([1%nat; 2%nat] <> [] -> pb_repeat one_blank = false /\ pb_bursts one_blank = false)).
Proof.
  apply (cross_check_correct [1%nat; 2%nat] one_blank tenths tenth).
  - vm_compute. by repeat constructor.
  - vm_compute. reflexivity.
  - repeat (constructor; [vm_compute; reflexivity|]). constructor.
  - vm_compute. discriminate.
  - cbn. repeat constructor.
  - vm_compute. discriminate.
Defined.

(** The instants of the check are not those of the schedule loop, whose interval
    is the step rounded to a nanosecond: at three rows a second, the row a
    window of one second silences after 1,000,000 s comes due a millisecond
    before the window opens. *)
Theorem check_and_loop_disagree :
  let step := f64_div (num 1) (num 3) in
  from_secs_f64 step = Some 333333333 /\
  tick_in_window 3000000 step (num 1000000, num 1000001) = true /\
  is_in_gap_window (3000000 * 333333333)
    [mk_gap (1000000 * NANOS_PER_SEC) NANOS_PER_SEC] = false /\
  3000000 * 333333333 = 1000000 * NANOS_PER_SEC - 1000000.
Proof. repeat split; vm_compute; reflexivity. Qed.
