(* ===== verification/Timing.v ===== *)
(** * Timing: when a signal first crosses a threshold (compiler/timing.rs)

    The compiler turns an [after:] clause into an offset with the instant at
    which the generator it names first satisfies the comparison. The theorems
    compare that instant with the values of the generator itself: it is the
    first of its ticks at which the comparison holds, an ambiguous condition
    holds at the first tick and an impossible one at none; on a ramp, which is
    between two ticks when it crosses, it is where the ramp is at the threshold.
    Where the code falls short of it (dips, falling and very narrow ramps, a step
    that wraps) a lemma shows the case. *)

From Stdlib Require Import ZArith Lia Ascii.
From stdpp Require Import prelude strings list numbers.
From S2P Require Import Prelude Text F64 Windows Durations Rounding FloatText Binary64 ParseDuration.
From S2P Require Import Generators.

(** [Operator]. *)
Inductive Operator := LessThan | GreaterThan.

#[export] Instance Operator_eq_dec : EqDecision Operator.
Proof. solve_decision. Defined.

(** [Display for Operator]. *)
Definition operator_display (op : Operator) : string :=
  match op with LessThan => "<" | GreaterThan => ">" end.

(** [TimingError]. *)
Inductive TimingError :=
| OutOfRange (message : string)
| Ambiguous (message : string)
| Unsupported (message : string)
| InvalidDuration (field input : string) (reason : DurationError).

Definition EPSILON : f64 := 0x3cb0000000000000.

Abbreviation show := show_f64.

(** The quotation mark. *)
Definition str_quote : string := String (ascii_of_N 34) EmptyString.

(** Whether the comparison holds. *)
Definition holds (op : Operator) (threshold value : f64) : bool :=
  match op with LessThan => f64_lt value threshold | GreaterThan => f64_gt value threshold end.

(** [flap_crossing_secs]. *)
Definition flap_crossing_secs (op : Operator)
    (threshold up_duration_secs down_duration_secs up_value down_value phase_secs : f64)
  : result f64 TimingError :=
  let cycle_secs := f64_add up_duration_secs down_duration_secs in
  let into_cycle :=
    if f64_gt cycle_secs 0 && is_finite phase_secs && f64_gt phase_secs 0
    then f64_rem_euclid phase_secs cycle_secs else 0 in
  let starts_up := f64_eq into_cycle 0 || f64_lt into_cycle up_duration_secs in
  let (side, other_side) :=
    match op with
    | LessThan => ("below", "at or above")
    | GreaterThan => ("above", "at or below")
    end in
  let up_holds := holds op threshold up_value in
  let down_holds := holds op threshold down_value in
  let starts_where_it_holds := if starts_up then up_holds else down_holds in
  match up_holds, down_holds with
  | false, false =>
      Err (OutOfRange ("up_value " +:+ show up_value +:+ " and down_value " +:+ show down_value
        +:+ " are both " +:+ other_side +:+ " threshold " +:+ show threshold
        +:+ "; the flap signal is never " +:+ side +:+ " it"))
  | true, true =>
      Err (Ambiguous ("up_value " +:+ show up_value +:+ " and down_value " +:+ show down_value
        +:+ " are both " +:+ side +:+ " threshold " +:+ show threshold
        +:+ "; the flap signal is always " +:+ side +:+ " it (satisfied at t=0)"))
  | _, _ =>
      if starts_where_it_holds then
        let '(state, field, value, (other_state, other_field, other_value)) :=
          if starts_up then ("up", "up_value", up_value, ("down", "down_value", down_value))
          else ("down", "down_value", down_value, ("up", "up_value", up_value)) in
        let start :=
          if f64_gt into_cycle 0 then
            "the phase starts it " +:+ show into_cycle +:+ "s into the cycle, in the " +:+ state
              +:+ " state"
          else "it starts in the " +:+ state +:+ " state" in
        let opposite := match op with LessThan => GreaterThan | GreaterThan => LessThan end in
        let hint :=
          if negb (f64_eq other_value threshold) then
            ". Use " +:+ str_quote +:+ operator_display opposite +:+ str_quote
              +:+ " to detect the change to the " +:+ other_state +:+ " state (" +:+ other_field
              +:+ " " +:+ show other_value +:+ ")"
          else "" in
        Err (Ambiguous (str_quote +:+ "flap_signal " +:+ operator_display op +:+ " " +:+ show threshold
          +:+ str_quote +:+ " is satisfied at t=0 (" +:+ start +:+ " at " +:+ field +:+ " "
          +:+ show value +:+ ")" +:+ hint))
      else if starts_up then Ok (f64_sub up_duration_secs into_cycle)
      else Ok (f64_sub cycle_secs into_cycle)
  end.

(** [sawtooth_crossing_secs]. *)
Definition sawtooth_crossing_secs (op : Operator) (threshold baseline ceiling period_secs : f64)
  : result f64 TimingError :=
  let range := f64_sub ceiling baseline in
  if f64_lt (f64_abs range) EPSILON then
    Err (OutOfRange ("baseline (" +:+ show baseline +:+ ") equals ceiling (" +:+ show ceiling
      +:+ "); the signal is constant and cannot cross any threshold"))
  else
    let (lo, hi) := if f64_le baseline ceiling then (baseline, ceiling) else (ceiling, baseline) in
    match op with
    | GreaterThan =>
        if f64_ge threshold hi then
          Err (OutOfRange ("threshold " +:+ show threshold +:+ " is at or above ceiling "
            +:+ show ceiling +:+ "; the signal never exceeds it"))
        else if f64_lt threshold lo then
          Err (Ambiguous ("threshold " +:+ show threshold +:+ " is below baseline "
            +:+ show baseline +:+ "; the signal starts above it (satisfied at t=0)"))
        else
          let fraction := f64_div (f64_sub threshold baseline) range in
          Ok (f64_mul fraction period_secs)
    | LessThan =>
        if f64_le threshold lo then
          Err (OutOfRange ("threshold " +:+ show threshold +:+ " is at or below baseline "
            +:+ show baseline +:+ "; the signal never drops below it"))
        else if f64_gt threshold hi then
          Err (Ambiguous ("threshold " +:+ show threshold +:+ " is above ceiling "
            +:+ show ceiling +:+ "; the signal is always below it (satisfied at t=0)"))
        else if f64_lt baseline threshold then
          Err (Ambiguous ("signal starts at baseline " +:+ show baseline
            +:+ " which is already below threshold " +:+ show threshold +:+ " (satisfied at t=0)"))
        else
          Err (OutOfRange ("the sawtooth ramps from " +:+ show baseline +:+ " toward "
            +:+ show ceiling +:+ "; it does not cross below " +:+ show threshold
            +:+ " during the ramp"))
    end.

(** [spike_crossing_secs]. *)
Definition spike_crossing_secs (op : Operator)
    (threshold baseline spike_height spike_duration_secs : f64) : result f64 TimingError :=
  let peak := f64_add baseline spike_height in
  let lo := f64_min baseline peak in
  let hi := f64_max baseline peak in
  match op with
  | GreaterThan =>
      if f64_ge threshold hi then
        Err (OutOfRange ("threshold " +:+ show threshold +:+ " is at or above peak value "
          +:+ show peak +:+ "; the signal never exceeds it"))
      else if f64_lt threshold lo then
        Err (Ambiguous ("threshold " +:+ show threshold +:+ " is below baseline " +:+ show baseline
          +:+ "; the signal is always above it (satisfied at t=0)"))
      else if f64_gt peak threshold then
        Err (Ambiguous (str_quote +:+ "> " +:+ show threshold +:+ str_quote
          +:+ " is satisfied at t=0 (spike starts immediately at peak " +:+ show peak
          +:+ "). Use " +:+ str_quote +:+ "<" +:+ str_quote +:+ " to detect when the spike ends"))
      else
        Err (OutOfRange ("peak " +:+ show peak +:+ " does not exceed threshold " +:+ show threshold))
  | LessThan =>
      if f64_le threshold lo then
        Err (OutOfRange ("threshold " +:+ show threshold +:+ " is at or below baseline "
          +:+ show baseline +:+ "; the signal never drops below it"))
      else if f64_gt threshold hi then
        Err (Ambiguous ("threshold " +:+ show threshold +:+ " is above peak " +:+ show peak
          +:+ "; the signal is always below it (satisfied at t=0)"))
      else if f64_lt baseline threshold then Ok spike_duration_secs
      else
        Err (OutOfRange ("baseline " +:+ show baseline +:+ " is not below threshold "
          +:+ show threshold +:+ "; the signal does not cross below it when the spike ends"))
  end.

(** [steady_crossing_secs], [sine_crossing_secs], [uniform_crossing_secs] and
    [csv_replay_crossing_secs]: the refusals. *)
Definition steady_crossing_secs : result f64 TimingError :=
  Err (Unsupported ("cannot compute crossing for " +:+ str_quote +:+ "steady" +:+ str_quote
    +:+ " behavior -- sine waves cross any threshold twice per period, making the result ambiguous. Use explicit phase_offset instead")).

Definition sine_crossing_secs : result f64 TimingError :=
  Err (Unsupported "sine generator is not supported as an `after` target: sine waves cross any threshold twice per period, making the crossing direction ambiguous").

Definition uniform_crossing_secs : result f64 TimingError :=
  Err (Unsupported "uniform generator is not supported as an `after` target: the output is non-deterministic, so no crossing time can be computed").

Definition csv_replay_crossing_secs : result f64 TimingError :=
  Err (Unsupported "csv_replay generator is not supported as an `after` target: the output depends on external data, so no crossing time can be computed").

(** [step_crossing_secs]. *)
Definition step_crossing_secs (op : Operator) (threshold start step_size : f64) (max : option f64)
    (rate : f64) : result f64 TimingError :=
  if negb (is_finite rate) || f64_le rate 0 then
    Err (OutOfRange ("step rate " +:+ show rate +:+ " must be positive and finite"))
  else
    match op with
    | LessThan =>
        Err (Unsupported "step generator does not support `< threshold`; the value is monotonically non-decreasing")
    | GreaterThan =>
        if f64_eq step_size 0 then Err (OutOfRange "step_size is 0; the signal never advances")
        else if f64_lt step_size 0 then
          Err (OutOfRange ("step_size " +:+ show step_size
            +:+ " is negative; the signal moves away from `> threshold`"))
        else if f64_gt start threshold then
          Err (Ambiguous ("step generator starts at " +:+ show start
            +:+ " which already exceeds threshold " +:+ show threshold +:+ " (satisfied at t=0)"))
        else
          let delta := f64_sub threshold start in
          let ticks := f64_ceil (f64_div delta step_size) in
          let ticks :=
            if f64_le ticks 0 then num 1
            else if f64_le (f64_add start (f64_mul ticks step_size)) threshold then
              f64_add ticks (num 1)
            else ticks in
          let? _ :=
            match max with
            | Some max_val =>
                if f64_gt max_val start then
                  if f64_le max_val threshold then
                    Err (OutOfRange ("step wraps at " +:+ show max_val
                      +:+ " which is at or below threshold " +:+ show threshold
                      +:+ "; the signal never exceeds it"))
                  else
                    let crossing_value := f64_add start (f64_mul ticks step_size) in
                    if f64_ge crossing_value max_val then
                      Err (OutOfRange ("step wraps at " +:+ show max_val
                        +:+ " before reaching threshold " +:+ show threshold))
                    else Ok tt
                else Ok tt
            | None => Ok tt
            end in
          Ok (f64_div ticks rate)
    end.

(** The scan of [sequence_crossing_secs]: the first value that matches. *)
Fixpoint first_match (op : Operator) (threshold : f64) (i : nat) (values : list f64)
  : option (nat * f64) :=
  match values with
  | [] => None
  | v :: values =>
      if holds op threshold v then Some (i, v) else first_match op threshold (S i) values
  end.

(** [sequence_crossing_secs], which ignores [repeat]. *)
Definition sequence_crossing_secs (op : Operator) (threshold : f64) (values : list f64)
    (repeat : option bool) (rate : f64) : result f64 TimingError :=
  if negb (is_finite rate) || f64_le rate 0 then
    Err (OutOfRange ("sequence rate " +:+ show rate +:+ " must be positive and finite"))
  else
    match values with
    | [] => Err (OutOfRange "sequence has no values; no crossing is possible")
    | _ =>
        match first_match op threshold 0 values with
        | Some (O, v) =>
            Err (Ambiguous ("sequence starts at " +:+ show v +:+ " which already satisfies "
              +:+ str_quote +:+ operator_display op +:+ " " +:+ show threshold +:+ str_quote
              +:+ " (satisfied at t=0)"))
        | Some (i, _) => Ok (f64_div (f64_of_u64 (Z.of_nat i)) rate)
        | None =>
            Err (OutOfRange ("no value in the sequence satisfies " +:+ str_quote
              +:+ operator_display op +:+ " " +:+ show threshold +:+ str_quote
              +:+ "; the signal never crosses"))
        end
    end.

(** [constant_crossing_secs]. *)
Definition constant_crossing_secs (op : Operator) (threshold value : f64) : result f64 TimingError :=
  if holds op threshold value then
    Err (Ambiguous ("constant generator emits " +:+ show value +:+ "; " +:+ str_quote
      +:+ operator_display op +:+ " " +:+ show threshold +:+ str_quote +:+ " is satisfied at t=0"))
  else
    Err (OutOfRange ("constant generator emits " +:+ show value +:+ "; it never crosses "
      +:+ str_quote +:+ operator_display op +:+ " " +:+ show threshold +:+ str_quote)).

(** The source's tables: a ramp, a step that lands on the threshold, a
    sequence, and a flap from either state. *)
Example ramp_crossing :
  sawtooth_crossing_secs GreaterThan (num 70) (num 20) (num 85) (num 120)
  = Ok (f64_mul (f64_div (num 50) (num 65)) (num 120)).
Proof. vm_compute. reflexivity. Qed.
Example step_crossing :
  (step_crossing_secs GreaterThan (num 50) (num 0) (num 10) None (num 1),
   step_crossing_secs GreaterThan (num 55) (num 0) (num 10) None (num 2))
  = (Ok (num 6), Ok (num 3)).
Proof. vm_compute. reflexivity. Qed.
Example flap_crossing_up :
  flap_crossing_secs LessThan (num 1) (num 60) (num 5) (num 1) (num 0) (num 30) = Ok (num 30).
Proof. vm_compute. reflexivity. Qed.
Example flap_crossing_down :
  flap_crossing_secs LessThan (num 1) (num 60) (num 5) (num 1) (num 0) (num 62)
  = Err (Ambiguous (str_quote +:+ "flap_signal < 1" +:+ str_quote
      +:+ " is satisfied at t=0 (the phase starts it 62s into the cycle, in the down state at down_value 0)")).
Proof. vm_compute. reflexivity. Qed.

(** ** How close a rounded quotient is *)

(** What is not below the normal numbers is rounded by one part in [2 ^ 53]. *)
Lemma round_units_close n d :
  0 < d -> P52 * d <= n -> round_units n d < inf_bits ->
  Z.abs (units (round_units n d) * d - n) * P53 <= n.
Proof.
  intros Hd Hn Hi. assert (Hr : round_units n d = nearest n d) by (unfold round_units in *; lia).
  destruct (nearest_range n d ltac:(lia) Hd) as (Hq & Hb & _). pose proof (binade_nonneg n d) as He.
  pose proof (pow2_pos _ He) as Hp.
  rewrite Hr. unfold nearest. rewrite units_scaled by (done || lia).
  pose proof (rhe_spec n (d * 2 ^ binade n d) ltac:(nia)) as [Hs _].
  set (q := round_half_even n (d * 2 ^ binade n d)) in *.
  assert (Hw : P52 * (d * 2 ^ binade n d) <= n).
  { destruct Hb as [E|[Hb _]]; [rewrite E; lia|done]. }
  set (w := d * 2 ^ binade n d) in *.
  replace (q * 2 ^ binade n d * d) with (q * w) by (unfold w; ring). lia.
Qed.

(** The arithmetic of two such roundings. *)
Lemma two_roundings (u v1 v2 x r p : Z) :
  0 < u -> 0 < x -> 0 < r -> 0 < p ->
  Z.abs (v1 * r - x * u) * P53 <= x * u ->
  Z.abs (v2 - v1 * p) * P53 <= v1 * p ->
  Z.abs (v2 * r - x * p * u) * 2 ^ 51 <= x * p * u.
Proof.
  intros Hu Hx Hr Hp H1 H2. change (2 ^ 51) with 2251799813685248.
  assert (E : v2 * r - x * p * u = (v2 - v1 * p) * r + p * (v1 * r - x * u)) by ring.
  set (a := v1 * r - x * u) in *. set (b := v2 - v1 * p) in *.
  assert (Hb : Z.abs (b * r) * P53 <= p * (x * u + a)).
  { rewrite Z.abs_mul, (Z.abs_eq r) by lia. unfold a. nia. }
  assert (Ha : Z.abs (p * a) * P53 <= p * (x * u)).
  { rewrite Z.abs_mul, (Z.abs_eq p) by lia. nia. }
  assert (Hpa : p * a <= Z.abs (p * a)) by lia. rewrite E.
  assert (Hxp : p * (x * u + a) = p * (x * u) + p * a) by ring. rewrite Hxp in Hb.
  replace (x * p * u) with (p * (x * u)) by ring.
  generalize dependent (p * (x * u)). generalize dependent (p * a). generalize dependent (b * r).
  clear. intros. lia.
Qed.

Lemma finite_value y : finite y -> sign y = false -> value y = units y /\ y < inf_bits.
Proof.
  intros Fy Sy. destruct (finite_parts y Fy) as (Uy & _ & _ & Hm).
  pose proof (signed_parts y Uy) as Hs. rewrite Sy in Hs. unfold signed in Hs. rewrite Z.add_0_r in Hs.
  unfold value. rewrite Sy, Hs. split; [done|lia].
Qed.

Lemma round_units_sign n d : 0 <= n -> 0 < d -> sign (round_units n d) = false.
Proof.
  intros Hn Hd. pose proof (round_units_range n d Hn Hd) as H.
  pose proof (sign_signed false (round_units n d)) as Hs. unfold signed in Hs.
  rewrite Z.add_0_r in Hs. apply Hs. lia.
Qed.

(** A rounded quotient that is finite. *)
Lemma rounded_close n d :
  0 <= n -> 0 < d -> P52 * d <= n -> finite (round_units n d) ->
  Z.abs (value (round_units n d) * d - n) * P53 <= n.
Proof.
  intros H0 Hd Hn Hf. destruct (finite_value _ Hf (round_units_sign n d H0 Hd)) as [-> Hi].
  by apply round_units_close.
Qed.

Lemma zero_times r p :
  0 < r <= P53 -> 0 < p <= P53 -> value (f64_mul (f64_div (num 0) (num r)) (num p)) = 0.
Proof.
  intros Hr Hp. assert (E : f64_div (num 0) (num r) = 0).
  { rewrite div_num by lia. rewrite Z.mul_0_l. apply round_units_0. lia. }
  rewrite E, mul_num_right; [|by vm_compute|done|lia]. change (value 0) with 0.
  rewrite Z.mul_0_l, round_units_0 by lia. reflexivity.
Qed.

Lemma unit_large : P53 * P53 * 4 <= U.
Proof.
  replace (P53 * P53 * 4) with (2 ^ 108) by reflexivity. apply Z.pow_le_mono_r; lia.
Qed.

(** The quotient of whole numbers, times a third. *)
Lemma quotient_times_close x r p :
  0 <= x <= r -> 0 < r <= P53 -> 0 < p <= P53 ->
  Z.abs (value (f64_mul (f64_div (num x) (num r)) (num p)) * r - x * p * U) * 2 ^ 51 <= x * p * U.
Proof.
  intros Hx Hr Hp. pose proof unit_large as HU.
  destruct (num_exact x ltac:(lia)) as [Fx Vx], (num_exact r ltac:(lia)) as [Fr Vr],
    (num_exact p ltac:(lia)) as [Fp Vp].
  destruct (decide (x = 0)) as [->|Hx0]; [rewrite zero_times by done; lia|].
  destruct (ratio_range (num x) (num r)) as (Fd & Sd & Vd);
    [done|done|rewrite sign_num; lia|rewrite sign_num; lia|rewrite Vr; nia|rewrite Vx, Vr; nia|].
  destruct (fraction_of _ (num p) Fd Sd (proj2 Vd) Fp) as [Fs _]; [rewrite Vp; nia|].
  rewrite mul_num_right in Fs |- * by (done || lia). rewrite div_num in Fd, Vd, Fs |- * by lia.
  assert (Hxu : P52 * r <= x * U) by nia.
  pose proof (rounded_close (x * U) r ltac:(lia) ltac:(lia) Hxu Fd) as H1.
  set (v1 := value (round_units (x * U) r)) in *. assert (Hv1 : P52 <= v1) by nia.
  apply (two_roundings U v1); [lia..|exact H1|].
  pose proof (rounded_close (v1 * p) 1 ltac:(nia) ltac:(lia) ltac:(nia) Fs) as H2.
  by rewrite Z.mul_1_r in H2.
Qed.

(** ** What a crossing is *)

Section crossing.
(** The platform's sine. *)
Context (sin : f64 -> f64).

Definition holds_at (op : Operator) (threshold : f64) (g : ValueGenerator) (tick : Z) : Prop :=
  exists v, value_at sin g tick = Some v /\ holds op threshold v = true.

Definition fails_at (op : Operator) (threshold : f64) (g : ValueGenerator) (tick : Z) : Prop :=
  forall v, value_at sin g tick = Some v -> holds op threshold v = false.

(** The answer [r] describes the ticks of [g]: the instant of the first tick at
    which the comparison holds, when it is not the first of all; that it holds
    there; or that it never does. *)
Definition crosses (op : Operator) (threshold : f64) (g : ValueGenerator) (rate : f64)
  (r : result f64 TimingError) : Prop :=
  match r with
  | Ok secs => exists t, 0 < t /\ secs = f64_div (num t) rate /\ holds_at op threshold g t /\
      (forall s, 0 <= s < t -> fails_at op threshold g s)
  | Err (Ambiguous _) => holds_at op threshold g 0
  | Err (OutOfRange _) => forall t, 0 <= t <= u64_max -> fails_at op threshold g t
  | Err _ => False
  end.

(** ** Sequences *)

Lemma first_match_spec op threshold values : forall i,
  match first_match op threshold i values with
  | Some (j, v) => (i <= j)%nat /\ values !! (j - i)%nat = Some v /\ holds op threshold v = true /\
      (forall k w, (k < j - i)%nat -> values !! k = Some w -> holds op threshold w = false)
  | None => forall k w, values !! k = Some w -> holds op threshold w = false
  end.
Proof using Type.
  induction values as [|v values IH]; intros i; cbn [first_match]; [done|].
  destruct (holds op threshold v) eqn:Ev.
  { rewrite Nat.sub_diag. split; [done|]. split; [done|]. split; [done|lia]. }
  specialize (IH (S i)). destruct (first_match op threshold (S i) values) as [[j w]|].
  - destruct IH as (H1 & H2 & H3 & H4). split; [lia|].
    replace (j - i)%nat with (S (j - S i)) by lia. split; [done|]. split; [done|].
    intros [|k] w'; [by intros _ [= <-]|]. intros Hk. apply H4. lia.
  - intros [|k] w'; [by intros [= <-]|]. apply IH.
Qed.

Lemma slot_in values repeat t :
  values <> [] -> 0 <= t -> exists i v, slot values repeat t = Some v /\ values !! i = Some v.
Proof using Type.
  intros Hv Ht. assert (Hs : exists i, (i < length values)%nat /\ slot values repeat t = values !! i).
  { destruct values as [|v values]; [done|]. unfold slot. eexists. split; [|done].
    set (n := Z.of_nat (length (v :: values))). assert (0 < n) by (unfold n; cbn; lia).
    pose proof (Z.mod_pos_bound t n). destruct repeat; unfold n in *; lia. }
  destruct Hs as (i & Hi & Es). destruct (lookup_lt_is_Some_2 values i Hi) as [v Hl].
  exists i, v. by rewrite Es.
Qed.

Lemma slot_here values repeat t :
  0 <= t < Z.of_nat (length values) -> slot values repeat t = values !! Z.to_nat t.
Proof using Type.
  intros Ht. unfold slot. destruct values; [cbn in Ht; lia|]. f_equal.
  destruct repeat; [by rewrite Z.mod_small|]. f_equal. lia.
Qed.

Lemma sequence_crosses op threshold values repeat looped rate :
  is_finite rate = true -> f64_le rate 0 = false ->
  crosses op threshold (GSequence values looped) rate
    (sequence_crossing_secs op threshold values repeat rate).
Proof using Type.
  intros Hf Hr. unfold sequence_crossing_secs. rewrite Hf, Hr. cbn [negb orb].
  destruct (decide (values = [])) as [->|Hne].
  { intros t _ v [=]. }
  pose proof (first_match_spec op threshold values 0) as H.
  assert (Hfail : forall t, 0 <= t -> (forall k w, values !! k = Some w -> holds op threshold w = false) ->
    fails_at op threshold (GSequence values looped) t).
  { intros t Ht Hall v Ev. destruct (slot_in values looped t Hne Ht) as (i & w & Es & Hl).
    cbn [value_at] in Ev. rewrite Es in Ev. injection Ev as <-. by apply Hall in Hl. }
  destruct values as [|v0 values]; [done|]. set (l := v0 :: values) in *.
  destruct (first_match op threshold 0 l) as [[[|j] v]|]; cbn [crosses].
  - destruct H as (_ & Hl & Hv & _). exists v. cbn [value_at]. by rewrite slot_here by (unfold l; cbn; lia).
  - destruct H as (_ & Hl & Hv & Hb). rewrite Nat.sub_0_r in Hl, Hb.
    pose proof (lookup_lt_Some _ _ _ Hl). exists (Z.of_nat (S j)). split; [lia|].
    rewrite of_u64_num by lia. split; [done|]. split.
    + exists v. cbn [value_at]. rewrite slot_here by lia. by rewrite Nat2Z.id.
    + intros s Hs w Ew. cbn [value_at] in Ew. rewrite slot_here in Ew by lia.
      apply (Hb (Z.to_nat s)); [lia|done].
  - intros t Ht. apply Hfail; [lia|done].
Qed.
(** ** Flaps *)

Lemma eq_le x y : f64_eq x y = f64_le x y && f64_le y x.
Proof using Type.
  unfold f64_eq, f64_le. destruct (is_nan x), (is_nan y); cbn; try done.
  destruct (Z.eqb_spec (key x) (key y)), (Z.leb_spec (key x) (key y)), (Z.leb_spec (key y) (key x));
    done || lia.
Qed.

Lemma gt_num a b : Z.abs a <= P53 -> Z.abs b <= P53 -> f64_gt (num a) (num b) = (b <? a).
Proof using Type. intros. unfold f64_gt. by rewrite lt_num. Qed.

Lemma num_is_finite n : Z.abs n <= P53 -> is_finite (num n) = true.
Proof using Type. intros Hn. apply (num_exact n Hn). Qed.

(** What a flap holds at a tick of its cycle. *)
Lemma cycle_lookup (a b : nat) (u d : f64) (i : nat) :
  (i < a + b)%nat ->
  (replicate a u ++ replicate b d) !! i = Some (if (i <? a)%nat then u else d).
Proof using Type.
  intros Hi. destruct (Nat.ltb_spec i a).
  - rewrite lookup_app_l by (by rewrite length_replicate). by apply lookup_replicate_2.
  - rewrite lookup_app_r by (by rewrite length_replicate). rewrite length_replicate.
    apply lookup_replicate_2. lia.
Qed.

Lemma rotate_lookup {A} (k : nat) (l : list A) (i : nat) :
  (k <= length l)%nat -> (i < length l)%nat ->
  rotate_left k l !! i = l !! (if (i <? length l - k)%nat then k + i else i - (length l - k))%nat.
Proof using Type.
  intros Hk Hi. unfold rotate_left. destruct (Nat.ltb_spec i (length l - k)).
  - rewrite lookup_app_l by (rewrite length_drop; lia). by rewrite lookup_drop.
  - rewrite lookup_app_r by (rewrite length_drop; lia). rewrite length_drop. rewrite lookup_take_lt by lia. done.
Qed.

Section flap.
Context (U_ D_ P_ R_ : Z) (up_val down_val : f64).
Context (HU : 1 <= U_) (HD : 1 <= D_) (HP : 0 <= P_) (HR : 1 <= R_).
Context (HC : (U_ + D_) * R_ <= P53) (HPR : P_ * R_ <= P53).

Definition into : Z := P_ mod (U_ + D_).
Definition cycle : list f64 :=
  replicate (Z.to_nat (U_ * R_)) up_val ++ replicate (Z.to_nat (D_ * R_)) down_val.

Lemma into_range : 0 <= into < U_ + D_.
Proof using All. apply Z.mod_pos_bound. lia. Qed.

Lemma cycle_length : Z.of_nat (length cycle) = (U_ + D_) * R_.
Proof using All. unfold cycle. rewrite length_app, !length_replicate. nia. Qed.

Lemma cycle_at i :
  (i < length cycle)%nat -> cycle !! i = Some (if (i <? Z.to_nat (U_ * R_))%nat then up_val else down_val).
Proof using All. intros Hi. pose proof cycle_length. unfold cycle. apply cycle_lookup. nia. Qed.

Lemma flap_cycle_num : flap_cycle (num R_) (num U_) (num D_) up_val down_val = Ok cycle.
Proof using All.
  unfold flap_cycle. rewrite !mul_num by nia. rewrite !round_num by nia. rewrite !u64_num by nia.
  destruct (Z.eqb_spec (U_ * R_) 0); [nia|]. cbn [andb]. unfold cycle.
  by rewrite !Z.max_l by nia.
Qed.

Lemma flap_shift_num : flap_shift (num R_) (num P_) cycle = Z.to_nat (into * R_).
Proof using All.
  unfold flap_shift. rewrite cycle_length, mul_num, round_num by nia. rewrite of_u64_num by nia.
  rewrite rem_euclid_num by nia. rewrite Z.mul_mod_distr_r by nia. fold into.
  pose proof into_range. rewrite u64_num by nia. done.
Qed.

(** The state at a tick of the first cycle. *)
Lemma flap_value t :
  0 <= t < (U_ + D_) * R_ ->
  value_at sin (GSequence (rotate_left (Z.to_nat (into * R_)) cycle) true) t
  = Some (if (t + into * R_) mod ((U_ + D_) * R_) <? U_ * R_ then up_val else down_val).
Proof using All.
  intros Ht. pose proof into_range as Hi. pose proof cycle_length as Hl. cbn [value_at].
  assert (Hk : 0 <= into * R_ < (U_ + D_) * R_) by nia.
  assert (HL : length (rotate_left (Z.to_nat (into * R_)) cycle) = length cycle).
  { unfold rotate_left. rewrite length_app, length_drop, length_take. lia. }
  rewrite slot_here by (rewrite HL; lia). rewrite rotate_lookup by lia.
  assert (Hab : Z.of_nat (Z.to_nat (U_ * R_)) = U_ * R_) by nia.
  destruct (Nat.ltb_spec (Z.to_nat t) (length cycle - Z.to_nat (into * R_))) as [Hlt|Hge].
  - rewrite Z.mod_small by lia. rewrite cycle_at by lia.
    destruct (Nat.ltb_spec (Z.to_nat (into * R_) + Z.to_nat t) (Z.to_nat (U_ * R_))),
      (Z.ltb_spec (t + into * R_) (U_ * R_)); done || lia.
  - replace ((t + into * R_) mod ((U_ + D_) * R_)) with (t + into * R_ - (U_ + D_) * R_).
    2: { apply (Z.mod_unique _ _ 1); lia. }
    rewrite cycle_at by lia.
    match goal with |- Some (if (?i <? _)%nat then _ else _) = _ =>
      destruct (Nat.ltb_spec i (Z.to_nat (U_ * R_))),
        (Z.ltb_spec (t + into * R_ - (U_ + D_) * R_) (U_ * R_)) end; done || lia.
Qed.

Lemma into_cycle_num :
  (if f64_gt (f64_add (num U_) (num D_)) 0 && is_finite (num P_) && f64_gt (num P_) 0
   then f64_rem_euclid (num P_) (f64_add (num U_) (num D_)) else 0) = num into.
Proof using All.
  rewrite add_num, num_is_finite by nia. change 0 with (num 0) at 1 2. rewrite !gt_num by nia.
  destruct (Z.ltb_spec 0 (U_ + D_)); [|lia]. cbn [andb]. destruct (Z.ltb_spec 0 P_).
  - by rewrite rem_euclid_num by nia.
  - unfold into. replace P_ with 0 by lia. done.
Qed.

Lemma starts_up_num : f64_eq (num into) 0 || f64_lt (num into) (num U_) = (into <? U_).
Proof using All.
  pose proof into_range. change 0 with (num 0). rewrite eq_le, !le_num, lt_num by nia.
  destruct (Z.leb_spec into 0), (Z.leb_spec 0 into), (Z.ltb_spec into U_); done || lia.
Qed.

Lemma flap_crosses op threshold :
  crosses op threshold (GSequence (rotate_left (flap_shift (num R_) (num P_) cycle) cycle) true)
    (num R_) (flap_crossing_secs op threshold (num U_) (num D_) up_val down_val (num P_)).
Proof using All.
  unfold flap_crossing_secs. rewrite into_cycle_num, starts_up_num, flap_shift_num.
  pose proof into_range as Hi. set (g := GSequence _ true).
  assert (Hn : 0 < (U_ + D_) * R_) by nia.
  (* the state a tick of the first cycle finds *)
  assert (Hfirst : holds_at op threshold g 0 <->
            holds op threshold (if into <? U_ then up_val else down_val) = true).
  { unfold holds_at, g. rewrite flap_value by nia. rewrite Z.add_0_l, Z.mod_small by nia.
    replace (into * R_ <? U_ * R_) with (into <? U_).
    2: { destruct (Z.ltb_spec into U_), (Z.ltb_spec (into * R_) (U_ * R_)); nia || done. }
    split; [by intros (v & [= <-] & Hv)|eauto]. }
  assert (Hall : forall t v, 0 <= t -> value_at sin g t = Some v -> v = up_val \/ v = down_val).
  { intros t v Ht Ev. cbn [value_at g] in Ev. unfold g in Ev. cbn [value_at] in Ev.
    destruct (slot_in (rotate_left (Z.to_nat (into * R_)) cycle) true t) as (i & w & Es & Hw); [|done|].
    - intros E%(f_equal length). unfold rotate_left in E. rewrite length_app, length_drop, length_take in E.
      pose proof cycle_length. cbn in E. lia.
    - rewrite Es in Ev. injection Ev as <-. apply list_elem_of_lookup_2 in Hw. unfold rotate_left in Hw.
      rewrite elem_of_app in Hw.
      assert (Hc : w ∈ cycle).
      { rewrite <- (take_drop (Z.to_nat (into * R_)) cycle), elem_of_app. tauto. }
      unfold cycle in Hc. rewrite elem_of_app, !elem_of_replicate in Hc. tauto. }
  (* the change to the other state, [m] seconds in *)
  assert (Hchange : forall m other v,
    0 < m -> m * R_ <= P53 ->
    (forall t, 0 <= t < m * R_ -> value_at sin g t = Some v) ->
    value_at sin g (m * R_) = Some other ->
    holds op threshold v = false -> holds op threshold other = true ->
    crosses op threshold g (num R_) (Ok (num m))).
  { intros m other v Hm Hmr Hbefore Hat Hv Ho. exists (m * R_). split; [nia|].
    split; [symmetry; apply div_num_exact; nia|]. split; [by exists other|].
    intros s Hs w Ew. rewrite Hbefore in Ew by done. by injection Ew as <-. }
  assert (Hup : into < U_ -> holds op threshold up_val = false -> holds op threshold down_val = true ->
            crosses op threshold g (num R_) (Ok (num (U_ - into)))).
  { intros Hlt Hu Hd. apply (Hchange (U_ - into) down_val up_val); [lia|nia| | |done|done].
    - intros t Ht. unfold g. rewrite flap_value by nia. rewrite Z.mod_small by nia.
      destruct (Z.ltb_spec (t + into * R_) (U_ * R_)); [done|nia].
    - unfold g. rewrite flap_value by nia. rewrite Z.mod_small by nia.
      destruct (Z.ltb_spec ((U_ - into) * R_ + into * R_) (U_ * R_)); [nia|done]. }
  assert (Hdown : U_ <= into -> holds op threshold down_val = false -> holds op threshold up_val = true ->
            crosses op threshold g (num R_) (Ok (num (U_ + D_ - into)))).
  { intros Hle Hd Hu. apply (Hchange (U_ + D_ - into) up_val down_val); [lia|nia| | |done|done].
    - intros t Ht. unfold g. rewrite flap_value by nia. rewrite Z.mod_small by nia.
      destruct (Z.ltb_spec (t + into * R_) (U_ * R_)); [nia|done].
    - unfold g. rewrite flap_value by nia.
      replace ((U_ + D_ - into) * R_ + into * R_) with (1 * ((U_ + D_) * R_)) by ring.
      rewrite Z.mod_mul by lia. destruct (Z.ltb_spec 0 (U_ * R_)); [done|nia]. }
  rewrite add_num, !sub_num by nia.
  match goal with |- context [let (_, _) := ?p in _] => destruct p as [side other_side] end.
  destruct (holds op threshold up_val) eqn:Eu, (holds op threshold down_val) eqn:Ed.
  - apply Hfirst. by destruct (into <? U_).
  - destruct (Z.ltb_spec into U_); [by apply Hfirst|by apply Hdown].
  - destruct (Z.ltb_spec into U_); [by apply Hup|by apply Hfirst].
  - intros t Ht v Ev. by destruct (Hall t v (proj1 Ht) Ev) as [-> | ->].
Qed.
End flap.
(** ** Spikes *)

Section spike.
Context (D_ I_ R_ : Z) (baseline magnitude_ : f64).
Context (HD : 1 <= D_) (HI : D_ < I_) (HR : 1 <= R_) (HC : I_ * R_ <= P53).

Abbreviation peak := (f64_add baseline magnitude_).
Abbreviation spike_gen :=
  (GSpike baseline magnitude_ (f64_mul (num D_) (num R_)) (f64_mul (num I_) (num R_))).

Lemma spike_values t v : value_at sin spike_gen t = Some v -> v = peak \/ v = baseline.
Proof using Type.
  cbn [value_at]. intros [= <-]. unfold value_spike. destruct (f64_lt _ _); auto.
Qed.

Lemma spike_value t :
  0 <= t < I_ * R_ -> value_at sin spike_gen t = Some (if t <? D_ * R_ then peak else baseline).
Proof using All.
  intros Ht. cbn [value_at]. unfold value_spike. rewrite !mul_num by nia. rewrite of_u64_num by lia.
  rewrite rem_num by nia. rewrite Z.mod_small by lia. by rewrite lt_num by nia.
Qed.

(** A spike that does not dip. *)
Lemma spike_crosses op threshold :
  f64_le baseline peak = true ->
  crosses op threshold spike_gen (num R_)
    (spike_crossing_secs op threshold baseline magnitude_ (num D_)).
Proof using All.
  intros Hle. assert (Hp : 0 < D_ * R_ < I_ * R_) by nia.
  assert (H0 : holds op threshold peak = true -> holds_at op threshold spike_gen 0).
  { intros Hh. exists peak. rewrite spike_value by lia. by rewrite (proj2 (Z.ltb_lt 0 (D_ * R_))) by lia. }
  assert (Hnever : holds op threshold peak = false -> holds op threshold baseline = false ->
            forall t, 0 <= t <= u64_max -> fails_at op threshold spike_gen t).
  { intros Hh Hb t Ht v Hv. by destruct (spike_values t v Hv) as [-> | ->]. }
  assert (Hend : holds op threshold peak = false -> holds op threshold baseline = true ->
            crosses op threshold spike_gen (num R_) (Ok (num D_))).
  { intros Hh Hb. exists (D_ * R_). split; [lia|]. split; [symmetry; apply div_num_exact; nia|]. split.
    - exists baseline. rewrite spike_value by lia. by rewrite Z.ltb_irrefl.
    - intros s Hs v. rewrite spike_value by lia. destruct (Z.ltb_spec s (D_ * R_)); [|lia].
      by intros [= <-]. }
  unfold spike_crossing_secs. set (pk := peak) in *. clearbody pk.
  unfold f64_le in Hle. apply andb_true_iff in Hle as [[Nb Np]%andb_true_iff Hk%Z.leb_le].
  apply negb_true_iff in Nb, Np.
  unfold f64_min, f64_max, f64_ge, f64_gt, f64_le, f64_lt, holds, f64_gt, f64_lt in *.
  rewrite Nb, Np in *. cbn [negb andb] in *.
  rewrite (proj2 (Z.ltb_ge (key pk) (key baseline))) by lia.
  set (hi := if key baseline <? key pk then pk else baseline).
  assert (Hhi : is_nan hi = false /\ key hi = key pk).
  { unfold hi. destruct (Z.ltb_spec (key baseline) (key pk)); split; done || lia. }
  clearbody hi. destruct Hhi as [Nh Kh]. rewrite Nh, Nb, Kh. cbn [negb andb].
  destruct op, (is_nan threshold); cbn [negb andb] in *; rewrite ?andb_false_r, ?andb_true_r in *;
    try (by intros t; apply Hnever);
    repeat match goal with
      | |- context [if ?a <=? ?b then _ else _] => destruct (Z.leb_spec a b)
      | |- context [if ?a <? ?b then _ else _] => destruct (Z.ltb_spec a b)
      end;
    let side := first [reflexivity | apply Z.ltb_ge; lia | apply Z.ltb_lt; lia] in
    first [ intros t Ht; apply Hnever; [side|side|exact Ht]
          | apply Hend; side
          | cbn [crosses]; apply H0; side ].
Qed.
End spike.
(** ** Steps *)

Lemma f64_of_num_range q x :
  0 <= q < P53 -> num q <= x <= num (q + 1) ->
  finite x /\ sign x = false /\ q * U <= value x <= (q + 1) * U.
Proof using Type.
  intros Hq Hx. destruct (num_exact q ltac:(lia)) as [Fq Vq], (num_exact (q + 1) ltac:(lia)) as [Fq' Vq'].
  pose proof (sign_num q) as Sq. pose proof (sign_num (q + 1)) as Sq'.
  rewrite (proj2 (Z.ltb_ge q 0)) in Sq by lia. rewrite (proj2 (Z.ltb_ge (q + 1) 0)) in Sq' by lia.
  destruct (finite_parts _ Fq) as (Uq & _ & _ & Mq), (finite_parts _ Fq') as (Uq' & _ & _ & Mq').
  unfold value in Vq, Vq'. rewrite Sq in Vq. rewrite Sq' in Vq'.
  rewrite (num_nonneg q) in * by lia. rewrite (num_nonneg (q + 1)) in * by lia. set (a := round_units (q * U) 1) in *.
  set (b := round_units ((q + 1) * U) 1) in *.
  pose proof (round_units_range ((q + 1) * U) 1) as Rb. fold b in Rb.
  pose proof (round_units_range (q * U) 1) as Ra. fold a in Ra.
  pose proof (pow2_pos 1074 ltac:(lia)) as HU. set (u := U) in *. clearbody u.
  assert (Ea : a = signed false a) by (unfold signed; lia).
  assert (Eb : b = signed false b) by (unfold signed; lia).
  assert (Ex : x = signed false x) by (unfold signed; lia).
  rewrite Ea, magnitude_signed in Vq, Mq by lia. rewrite Eb, magnitude_signed in Vq', Mq' by lia.
  rewrite Ex. split; [apply signed_finite; lia|]. rewrite sign_signed by lia. split; [done|].
  rewrite value_signed by lia. rewrite <- Vq, <- Vq'. split; apply units_mono; lia.
Qed.

(** A quotient of whole numbers, rounded up, is the floor or the next. *)
Lemma ceil_quotient d k :
  0 <= d -> 0 < k -> d + k <= P53 ->
  exists c, f64_ceil (f64_div (num d) (num k)) = num c /\ (c = d / k \/ c = d / k + 1 /\ d mod k <> 0).
Proof using Type.
  intros Hd Hk Hb. set (q := d / k). pose proof (Z_div_mod_eq_full d k) as Hqr. fold q in Hqr.
  pose proof (Z.mod_pos_bound d k ltac:(lia)) as Hr. assert (Hq : 0 <= q) by (apply Z.div_pos; lia).
  destruct (decide (d mod k = 0)) as [H0|H0].
  { exists q. split; [|by left]. replace d with (q * k) by lia. rewrite div_num_exact by nia.
    destruct (num_exact q ltac:(nia)) as [Fq Vq].
    rewrite ceil_nonneg; [|exact Fq|rewrite sign_num; apply Z.ltb_ge; lia].
    f_equal. rewrite Vq. pose proof (pow2_pos 1074 ltac:(lia)) as HU. set (u := U) in *. clearbody u.
    rewrite <- Z.mul_opp_l, Z.div_mul by lia. lia. }
  assert (Hx : num q <= f64_div (num d) (num k) <= num (q + 1)).
  { rewrite div_num, !num_nonneg by lia. pose proof (pow2_pos 1074 ltac:(lia)) as HU.
    set (u := U) in *. clearbody u. split; apply round_units_mono; nia. }
  destruct (f64_of_num_range q _ ltac:(nia) Hx) as (Fx & Sx & Vx).
  rewrite ceil_nonneg by assumption. eexists. split; [done|].
  pose proof (pow2_pos 1074 ltac:(lia)) as HU. set (v := value _) in *. set (u := U) in *. clearbody u v.
  pose proof (Z_div_mod_eq_full (- v) u). pose proof (Z.mod_pos_bound (- v) u ltac:(lia)).
  assert (- (q + 1) <= - v / u <= - q) by nia. lia.
Qed.

Section step.
Context (start_ thr step_ : Z) (rate : f64).
Context (HS : 0 <= start_) (HT : 0 <= thr) (HK : 1 <= step_).
Context (HB : start_ + thr + step_ <= P53).
Context (Hf : is_finite rate = true) (Hr : f64_le rate 0 = false).

(** The first multiple of the step past the threshold. *)
Definition first_above : Z := (thr - start_) / step_ + 1.

Lemma first_above_spec :
  start_ <= thr -> 0 < first_above /\ start_ + first_above * step_ <= thr + step_ /\
    thr < start_ + first_above * step_ /\ start_ + (first_above - 1) * step_ <= thr.
Proof using All.
  intros Hle. unfold first_above. pose proof (Z_div_mod_eq_full (thr - start_) step_).
  pose proof (Z.mod_pos_bound (thr - start_) step_ ltac:(lia)).
  assert (0 <= (thr - start_) / step_) by (apply Z.div_pos; lia). nia.
Qed.

(** The number of ticks the code comes to, by whichever of its branches. *)
Lemma step_ticks :
  start_ <= thr ->
  let ticks := f64_ceil (f64_div (f64_sub (num thr) (num start_)) (num step_)) in
  (if f64_le ticks 0 then num 1
   else if f64_le (f64_add (num start_) (f64_mul ticks (num step_))) (num thr)
   then f64_add ticks (num 1) else ticks) = num first_above.
Proof using All.
  intros Hle. cbv zeta. rewrite sub_num by lia.
  destruct (ceil_quotient (thr - start_) step_) as (c & -> & Hc); [lia..|].
  pose proof (first_above_spec Hle) as Hfa. unfold first_above in *.
  set (q := (thr - start_) / step_) in *. assert (Hq : 0 <= q) by lia.
  pose proof (Z_div_mod_eq_full (thr - start_) step_) as Hqr. fold q in Hqr.
  pose proof (Z.mod_pos_bound (thr - start_) step_ ltac:(lia)).
  change 0 with (num 0) at 1. rewrite le_num by nia. destruct (Z.leb_spec c 0).
  { f_equal. lia. }
  rewrite mul_num, add_num, le_num by nia.
  destruct (Z.leb_spec (start_ + c * step_) thr).
  - rewrite add_num by nia. f_equal. destruct Hc as [->|[-> _]]; [done|nia].
  - f_equal. destruct Hc as [->|[-> _]]; [nia|done].
Qed.

(** The value before any wrap. *)
Lemma step_value t max :
  match max with Some m => f64_gt m (num start_) = false | None => True end ->
  0 <= t -> start_ + t * step_ <= P53 ->
  value_at sin (GStep (num start_) (num step_) max) t = Some (num (start_ + t * step_)).
Proof using All.
  intros Hm Ht Hb. cbn [value_at]. unfold value_step. rewrite of_u64_num, mul_num, add_num by nia.
  destruct max as [m|]; [by rewrite Hm|done].
Qed.

Lemma step_crosses max :
  match max with Some m => f64_gt m (num start_) = false | None => True end ->
  crosses GreaterThan (num thr) (GStep (num start_) (num step_) max) rate
    (step_crossing_secs GreaterThan (num thr) (num start_) (num step_) max rate).
Proof using All.
  intros Hm. unfold step_crossing_secs. rewrite Hf, Hr. cbn [negb orb].
  change 0 with (num 0). rewrite eq_le, !le_num, lt_num, gt_num by lia.
  destruct (Z.leb_spec step_ 0); [lia|]. cbn [andb]. destruct (Z.ltb_spec step_ 0); [lia|].
  destruct (Z.ltb_spec thr start_) as [Hlt|Hle].
  { exists (num start_). split; [|cbn [holds]; rewrite gt_num by lia; by apply Z.ltb_lt].
    rewrite step_value by (done || lia). by rewrite Z.add_0_r. }
  change (num 0) with 0. rewrite (step_ticks Hle). pose proof (first_above_spec Hle) as (H1 & H2 & H3 & H4).
  assert (Hok : crosses GreaterThan (num thr) (GStep (num start_) (num step_) max) rate
                  (Ok (f64_div (num first_above) rate))).
  { exists first_above. split; [done|]. split; [done|]. split.
    - eexists. rewrite step_value by (done || lia). split; [done|]. cbn [holds].
      rewrite gt_num by lia. by apply Z.ltb_lt.
    - intros s Hs v. assert (start_ + s * step_ <= thr) by nia. rewrite step_value by (done || lia).
      intros [= <-]. cbn [holds]. rewrite gt_num by nia. apply Z.ltb_ge. lia. }
  destruct max as [m|]; [|exact Hok]. rewrite Hm. exact Hok.
Qed.
End step.
(** ** Ramps *)

(** The difference of a number and one that is not above it, when a wider
    difference is finite. *)
Lemma sub_range a b c :
  finite a -> finite b -> finite c -> (value a = 0 -> sign a = false) ->
  value b <= value a -> value a <= value c -> finite (f64_sub c b) ->
  finite (f64_sub a b) /\ sign (f64_sub a b) = false /\
  0 <= value (f64_sub a b) <= value (f64_sub c b).
Proof using Type.
  intros Ha Hb Hc Hz Hba Hac. destruct (finite_parts a Ha) as (Ua & Fa & _ & _).
  destruct (finite_parts b Hb) as (Ub & Fb & _ & _), (finite_parts c Hc) as (Uc & Fc & _ & _).
  rewrite !sub_rounds by done. intros Hr.
  set (x := rounded _ (value a - value b)). set (r := rounded _ (value c - value b)) in *.
  assert (Sx : sign x = false).
  { unfold x. rewrite sign_rounded. destruct (Z.eqb_spec (value a - value b) 0) as [E|E];
      [|apply Z.ltb_ge; lia].
    destruct (sign a) eqn:Sa, (sign b) eqn:Sb; try done.
    assert (Ha0 : value a <= 0).
    { unfold value. rewrite Sa. pose proof (units_nonneg (magnitude a)). apply finite_parts in Ha. lia. }
    assert (Hb0 : 0 <= value b).
    { unfold value. rewrite Sb. apply units_nonneg. apply finite_parts in Hb. lia. }
    specialize (Hz ltac:(lia)). discriminate Hz. }
  assert (Hle : value x <= value r).
  { apply Z.nlt_ge. intros H%value_lt; [|apply rounded_u64..]. unfold x, r in H.
    rewrite !key_rounded in H. pose proof (rkey_mono (value a - value b) (value c - value b)). lia. }
  assert (Hk : key x <= key r).
  { unfold x, r. rewrite !key_rounded. apply rkey_mono. lia. }
  assert (Hx0 : 0 <= value x) by (apply value_rounded_ge; lia).
  destruct (finite_parts r Hr) as (Ur & _ & _ & Mr).
  assert (Ux : is_u64 x) by apply rounded_u64.
  split; [|done]. split; [done|]. unfold is_finite. apply Z.ltb_lt.
  unfold key in Hk. rewrite Sx in Hk. destruct (sign r); lia.
Qed.

(** [secs] is the instant at which a ramp from [b] to [c] in [period] seconds is
    at the threshold, to one part in [2 ^ 51], when all four are whole numbers. *)
Definition on_ramp (b c period threshold secs : f64) : Prop :=
  forall B C P T, b = num B -> c = num C -> period = num P -> threshold = num T ->
    Z.abs B <= P52 -> Z.abs C <= P52 -> Z.abs T <= P52 -> 0 < P <= P53 ->
    Z.abs (value secs * (C - B) - (T - B) * P * U) * 2 ^ 51 <= (T - B) * P * U.

Section sawtooth.
Context (b c period p : f64).
Context (Fb : finite b) (Fc : finite c) (Hbc : f64_lt b c = true) (Fr : finite (f64_sub c b)).
Context (Hwide : f64_lt (f64_abs (f64_sub c b)) EPSILON = false).
Context (Fp : finite period) (Sp : sign period = false).
(** The period in ticks. *)
Context (Fq : finite p) (Sq : sign p = false) (Hp : 0 < value p).

Abbreviation range := (f64_sub c b).

Lemma b_below_c : value b < value c.
Proof using All.
  destruct (finite_parts b Fb) as (Ub & _ & Nb & _), (finite_parts c Fc) as (Uc & _ & Nc & _).
  rewrite lt_value in Hbc by done. by apply Z.ltb_lt.
Qed.

Lemma range_pos : sign range = false /\ 0 < value range.
Proof using All.
  pose proof b_below_c as H.
  destruct (finite_parts b Fb) as (Ub & FFb & _), (finite_parts c Fc) as (Uc & FFc & _).
  assert (Hs : sign range = false).
  { rewrite sub_rounds, sign_rounded by done.
    destruct (Z.eqb_spec (value c - value b) 0); [lia|]. apply Z.ltb_ge. lia. }
  split; [done|]. assert (H0 : 0 <= value range).
  { rewrite sub_rounds by done. apply value_rounded_ge. lia. }
  destruct (decide (value range = 0)) as [E|]; [|lia].
  exfalso. assert (Hz : range = 0).
  { apply (finite_value_inj range 0); [exact Fr|by vm_compute|exact Hs|exact E]. }
  rewrite Hz in Hwide. by vm_compute in Hwide.
Qed.

Lemma sawtooth_value t :
  0 <= t <= u64_max ->
  exists v, value_at sin (GSawtooth b c p) t = Some v /\ f64_le b v = true /\
    f64_le v (f64_add b range) = true.
Proof using All.
  intros Ht. eexists. split; [reflexivity|]. unfold value_sawtooth. rewrite of_u64_num by lia.
  destruct (num_finite t ltac:(lia)) as (Ft & St & _).
  destruct (rem_exact (num t) p Ft Fq St Sq ltac:(lia)) as (Frem & Srem & Vrem).
  pose proof (Z.mod_pos_bound (value (num t)) (value p) Hp) as Hm. rewrite <- Vrem in Hm.
  destruct (ratio_range _ p Frem Fq Srem Sq Hp ltac:(lia)) as (Ff & Sf & Vf).
  destruct range_pos as [_ Hr].
  destruct (fraction_of _ range Ff Sf (proj2 Vf) Fr ltac:(lia)) as [Fx Vx].
  destruct (finite_parts b Fb) as (Ub & FFb & _), (finite_parts range Fr) as (Ur & FFr & _).
  rewrite !add_rounds by (done || apply Fx). split.
  - apply le_rounded; [done|]. rewrite <- (rkey_value b Fb). apply rkey_mono. lia.
  - apply rounded_le. lia.
Qed.

Lemma sawtooth_start :
  exists v, value_at sin (GSawtooth b c p) 0 = Some v /\ f64_le v b = true.
Proof using All.
  eexists. split; [reflexivity|]. unfold value_sawtooth. rewrite of_u64_num by done.
  destruct (num_finite 0 ltac:(lia)) as (Ft & St & _).
  destruct (rem_exact (num 0) p Ft Fq St Sq ltac:(lia)) as (Frem & Srem & Vrem).
  assert (V0 : value (num 0) = 0) by reflexivity. rewrite V0, Z.mod_0_l in Vrem by lia.
  destruct range_pos as [Sr Hr].
  destruct (ratio_range _ p Frem Fq Srem Sq Hp ltac:(lia)) as (Ff & Sf & Vf).
  assert (Vd : value (f64_div (f64_rem (num 0) p) p) = 0).
  { rewrite (div_values _ p Frem Fq Srem Sq) by lia. rewrite Vrem, Z.mul_0_l.
    rewrite round_units_0 by lia. reflexivity. }
  destruct (fraction_of _ range Ff Sf (proj2 Vf) Fr ltac:(lia)) as [Fx _].
  assert (Vx : value (f64_mul (f64_div (f64_rem (num 0) p) p) range) = 0).
  { rewrite (mul_values _ range Ff Fr Sf Sr), Vd, Z.mul_0_l. rewrite round_units_0; [done|].
    apply pow2_pos. lia. }
  destruct (finite_parts b Fb) as (Ub & FFb & Nb & _). rewrite add_rounds by (done || apply Fx).
  rewrite Vx, Z.add_0_r. unfold f64_le. rewrite rounded_not_nan, Nb, key_rounded, rkey_value by done.
  cbn. apply Z.leb_refl.
Qed.

(** The answer for a rising ramp: the instant is inside the first period, and
    the refusals are right. *)
Lemma sawtooth_crossing_aux op threshold :
  finite threshold -> (value threshold = 0 -> sign threshold = false) ->
  f64_le (f64_add b range) c = true ->
  match sawtooth_crossing_secs op threshold b c period with
  | Ok secs => op = GreaterThan /\ f64_le 0 secs = true /\ f64_le secs period = true /\
      on_ramp b c period threshold secs /\ fails_at op threshold (GSawtooth b c p) 0
  | Err (Ambiguous _) => holds_at op threshold (GSawtooth b c p) 0
  | Err (OutOfRange _) =>
      forall t, 0 <= t <= u64_max -> fails_at op threshold (GSawtooth b c p) t
  | Err _ => False
  end.
Proof using All.
  intros Ft Hz Htop. pose proof b_below_c as Hlt. destruct range_pos as [Sr Hr].
  destruct (finite_parts b Fb) as (Ub & FFb & Nb & _), (finite_parts c Fc) as (Uc & FFc & Nc & _).
  destruct (finite_parts threshold Ft) as (Ut & FFt & Nt & _).
  unfold sawtooth_crossing_secs. rewrite Hwide.
  rewrite (le_value b c Ub Uc Nb Nc), (proj2 (Z.leb_le _ _)) by lia.
  (* a value lies between the two *)
  assert (Hbounds : forall t v, 0 <= t <= u64_max -> value_at sin (GSawtooth b c p) t = Some v ->
            is_nan v = false /\ key b <= key v <= key c).
  { intros t v Htt Ev. destruct (sawtooth_value t Htt) as (w & Ew & H1 & H2).
    rewrite Ew in Ev. injection Ev as <-. unfold f64_le in *.
    apply andb_true_iff in H1 as [[_ Nv]%andb_true_iff H1%Z.leb_le].
    apply andb_true_iff in H2 as [_ H2%Z.leb_le], Htop as [_ H3%Z.leb_le].
    apply negb_true_iff in Nv. lia || (split; [done|lia]). }
  destruct sawtooth_start as (v0 & E0 & Hv0).
  destruct (Hbounds 0 v0 ltac:(lia) E0) as [Nv0 Kv0].
  assert (K0 : key v0 = key b).
  { unfold f64_le in Hv0. apply andb_true_iff in Hv0 as [_ H%Z.leb_le]. lia. }
  destruct op; unfold f64_ge, f64_gt.
  - unfold f64_le, f64_lt. rewrite Nt, Nb, Nc. cbn [negb andb].
    destruct (Z.leb_spec (key threshold) (key b)) as [H1|H1].
    { intros t Htt v Ev. destruct (Hbounds t v Htt Ev) as [Nv Kv]. cbn [holds]. unfold f64_lt.
      rewrite Nv, Nt. cbn. apply Z.ltb_ge. lia. }
    assert (H0 : holds_at LessThan threshold (GSawtooth b c p) 0).
    { exists v0. split; [done|]. cbn [holds]. unfold f64_lt. rewrite Nv0, Nt. cbn. apply Z.ltb_lt. lia. }
    destruct (Z.ltb_spec (key c) (key threshold)); [done|].
    destruct (Z.ltb_spec (key b) (key threshold)); [done|lia].
  - unfold f64_le at 1. unfold f64_lt. rewrite Nt, Nb, Nc. cbn [negb andb].
    destruct (Z.leb_spec (key c) (key threshold)) as [H1|H1].
    { intros t Htt v Ev. destruct (Hbounds t v Htt Ev) as [Nv Kv]. cbn [holds]. unfold f64_gt, f64_lt.
      rewrite Nv, Nt. cbn. apply Z.ltb_ge. lia. }
    destruct (Z.ltb_spec (key threshold) (key b)) as [H2|H2].
    { exists v0. split; [done|]. cbn [holds]. unfold f64_gt, f64_lt. rewrite Nv0, Nt. cbn.
      apply Z.ltb_lt. lia. }
    split; [done|].
    assert (Hvt : value b <= value threshold /\ value threshold <= value c).
    { pose proof (value_lt threshold b Ut Ub). pose proof (value_lt c threshold Uc Ut). lia. }
    destruct (sub_range threshold b c Ft Fb Fc Hz ltac:(lia) ltac:(lia) Fr) as (Fx & Sx & Vx).
    destruct (ratio_range _ range Fx Fr Sx Sr Hr ltac:(lia)) as (Ff & Sf & Vf).
    assert (Hp0 : 0 <= value period).
    { unfold value. rewrite Sp. apply finite_parts in Fp. apply units_nonneg. lia. }
    destruct (fraction_of _ period Ff Sf (proj2 Vf) Fp Hp0) as [Fs Vs].
    destruct (finite_parts _ Fs) as (Us & _ & Ns & _), (finite_parts _ Fp) as (Up & _ & Np & _).
    split; [|split; [|split]].
    + rewrite le_value by (done || by vm_compute). apply Z.leb_le. change (value 0) with 0. lia.
    + rewrite le_value by done. apply Z.leb_le. lia.
    + intros B C P T -> -> -> -> HB HC HT HP. rewrite !sub_num by lia.
      destruct (num_exact B ltac:(lia)) as [_ VB], (num_exact C ltac:(lia)) as [_ VC],
        (num_exact T ltac:(lia)) as [_ VT].
      rewrite VB, VC, VT in *. pose proof (pow2_pos 1074 ltac:(lia)) as HU.
      apply quotient_times_close; nia.
    + intros v Ev. rewrite E0 in Ev. injection Ev as <-. cbn [holds]. unfold f64_gt, f64_lt.
      rewrite Nv0, Nt. cbn. apply Z.ltb_ge. lia.
Qed.
End sawtooth.
End crossing.

(** C26: for a ramp that rises from [b] to [c], all finite, by at least [EPSILON]
    and to a top, [b + (c - b)] as rounded, not above [c], the crossing of a
    threshold is given only for [>] and when the ramp does not start above it. It
    is an instant of the first period, and for whole numbers the one at which the
    ramp is at the threshold, to one part in [2 ^ 51]. A condition called
    ambiguous holds at tick 0, and one called out of range at no tick, whatever
    the number of ticks in a period. *)
Theorem sawtooth_crossing_correct sin b c period p op threshold :
  finite b -> finite c -> f64_lt b c = true -> finite (f64_sub c b) ->
  f64_lt (f64_abs (f64_sub c b)) EPSILON = false -> f64_le (f64_add b (f64_sub c b)) c = true ->
  finite period -> sign period = false -> finite p -> sign p = false -> 0 < value p ->
  finite threshold -> (value threshold = 0 -> sign threshold = false) ->
  match sawtooth_crossing_secs op threshold b c period with
  | Ok secs => op = GreaterThan /\ f64_le 0 secs = true /\ f64_le secs period = true /\
      on_ramp b c period threshold secs /\ fails_at sin op threshold (GSawtooth b c p) 0
  | Err (Ambiguous _) => holds_at sin op threshold (GSawtooth b c p) 0
  | Err (OutOfRange _) =>
      forall t, 0 <= t <= u64_max -> fails_at sin op threshold (GSawtooth b c p) t
  | Err _ => False
  end.
Proof. intros. by apply sawtooth_crossing_aux. Qed.

Lemma sawtooth_crossing_correct_witness :
  match sawtooth_crossing_secs GreaterThan (num 70) (num 20) (num 85) (num 120) with
  | Ok secs => GreaterThan = GreaterThan /\ f64_le 0 secs = true /\ f64_le secs (num 120) = true /\
      on_ramp (num 20) (num 85) (num 120) (num 70) secs /\
      fails_at (fun x => x) GreaterThan (num 70) (GSawtooth (num 20) (num 85) (num 240)) 0
  | Err (Ambiguous _) => holds_at (fun x => x) GreaterThan (num 70) (GSawtooth (num 20) (num 85) (num 240)) 0
  | Err (OutOfRange _) => forall t, 0 <= t <= u64_max ->
      fails_at (fun x => x) GreaterThan (num 70) (GSawtooth (num 20) (num 85) (num 240)) t
  | Err _ => False
  end.
Proof.
  assert (Hfin : forall n, Z.abs n <= P53 -> finite (num n)) by (intros n Hn; apply (num_exact n Hn)).
  apply (sawtooth_crossing_correct (fun x => x) (num 20) (num 85) (num 120) (num 240)).
  - by apply Hfin.
  - by apply Hfin.
  - vm_compute. reflexivity.
  - rewrite sub_num by done. by apply Hfin.
  - vm_compute. reflexivity.
  - vm_compute. reflexivity.
  - by apply Hfin.
  - vm_compute. reflexivity.
  - by apply Hfin.
  - vm_compute. reflexivity.
  - vm_compute. reflexivity.
  - by apply Hfin.
  - intros _. vm_compute. reflexivity.
Defined.

(** ** Where the crossings are not the signal's *)

Definition is_out_of_range (r : result f64 TimingError) : bool :=
  match r with Err (OutOfRange _) => true | _ => false end.

(** A ramp that falls from 100 to 0 in 10 s is above 50 from the start, which
    is not called ambiguous, and drops below 50, which is called impossible. *)
Lemma falling_ramp sin :
  sawtooth_crossing_secs GreaterThan (num 50) (num 100) (num 0) (num 10) = Ok (num 5) /\
  holds_at sin GreaterThan (num 50) (GSawtooth (num 100) (num 0) (num 10)) 0 /\
  is_out_of_range (sawtooth_crossing_secs LessThan (num 50) (num 100) (num 0) (num 10)) = true /\
  fails_at sin LessThan (num 50) (GSawtooth (num 100) (num 0) (num 10)) 0 /\
  holds_at sin LessThan (num 50) (GSawtooth (num 100) (num 0) (num 10)) 6.
Proof.
  split; [vm_compute; reflexivity|].
  split; [exists (num 100); split; vm_compute; reflexivity|].
  split; [vm_compute; reflexivity|].
  split; [intros v Hv; vm_compute in Hv; injection Hv as <-; vm_compute; reflexivity|].
  exists (num 40). split; vm_compute; reflexivity.
Qed.

(** A dip of 2 s from 100 to 50: it starts below 80, which is called
    impossible, and it is above 80 from its end on, which is too. *)
Lemma dip_crossing sin :
  let dip := GSpike (num 100) (num (- 50)) (num 2) (num 10) in
  is_out_of_range (spike_crossing_secs LessThan (num 80) (num 100) (num (- 50)) (num 2)) = true /\
  holds_at sin LessThan (num 80) dip 0 /\
  is_out_of_range (spike_crossing_secs GreaterThan (num 80) (num 100) (num (- 50)) (num 2)) = true /\
  fails_at sin GreaterThan (num 80) dip 0 /\ holds_at sin GreaterThan (num 80) dip 2.
Proof.
  cbv zeta. split; [vm_compute; reflexivity|].
  split; [exists (num 50); split; vm_compute; reflexivity|].
  split; [vm_compute; reflexivity|].
  split; [intros v Hv; vm_compute in Hv; injection Hv as <-; vm_compute; reflexivity|].
  exists (num 100). split; vm_compute; reflexivity.
Qed.

(** Steps of 4 that wrap at 11 pass 8 on the second lap, at tick 5. *)
Lemma step_second_lap sin :
  is_out_of_range (step_crossing_secs GreaterThan (num 8) (num 0) (num 4) (Some (num 11)) (num 1))
    = true /\
  holds_at sin GreaterThan (num 8) (GStep (num 0) (num 4) (Some (num 11))) 5.
Proof. split; [|exists (num 9); split]; vm_compute; reflexivity. Qed.

(** A ramp from 0 to 1e-17 is narrower than the constant the code compares with:
    it is called constant, and half-way up it is above 0. *)
Lemma narrow_ramp sin :
  is_out_of_range (sawtooth_crossing_secs GreaterThan 0 0 0x3c670ef54646d497 (num 10)) = true /\
  holds_at sin GreaterThan 0 (GSawtooth 0 0x3c670ef54646d497 (num 10)) 5.
Proof.
  split; [|exists 0x3c570ef54646d497; split; vm_compute; reflexivity]. unfold sawtooth_crossing_secs.
  assert (E : f64_lt (f64_abs (f64_sub 0x3c670ef54646d497 0)) EPSILON = true) by (vm_compute; reflexivity).
  by rewrite E.
Qed.
