(* ===== verification/CompileAfter.v ===== *)
(** * CompileAfter: after clauses become offsets (compiler/compile_after.rs)

    The pass as a whole: the entries are ordered ([AfterGraph]), the targets of
    [while:] clauses checked, the crossing of every [after:] clause computed
    ([Timing]) and added up along the chain, and clock groups assigned
    ([ClockGroups]). The theorems: the pass never panics, refuses a file
    exactly when it has a fault and names that fault, and writes for every entry
    the sum of its own offset, its target's, the crossing and the delay, with the
    group of its chain; and the crossing of a clause is the first tick of the
    generator that runs at which the comparison holds, where it is exact. *)

From Stdlib Require Import ZArith Lia Ascii.
From stdpp Require Import prelude strings list numbers relations.
From S2P Require Import Prelude Text Metric F64 GateBus GateRegistry AfterGraph ClockGroups.
From S2P Require Import Windows Durations SinkIo Rounding FloatText Binary64 ParseDuration Generators CsvReplay Timing.

(** [ExpandedEntry]: the fields the pass reads, around those of the graph. *)
Record Entry := mk_entry {
  graph_part : ExpandedEntry;
  signal_type : string;
  rate : f64;
  entry_generator : option GeneratorConfig;
  phase_offset : option string;
}.

(** [NanSource]. *)
Inductive NanSource :=
| NanConstant
| NanSequenceValue (index : nat)
| NanCsvCell (path : string) (row column : nat).

(** [CompileAfterError]; the errors of the graph are those of [AfterGraph]. *)
Inductive CompileAfterError :=
| GraphFailed (e : GraphError)
| UnsupportedGenerator (source_id ref_id generator op reason : string)
| OutOfRangeThreshold (source_id ref_id op : string) (value : f64) (reason : string)
| AmbiguousAtT0 (source_id ref_id op : string) (value : f64) (reason : string)
| NonMetricsTarget (source_id ref_id : string) (clause : ClauseKind) (target_signal : string)
| InvalidDurationIn (source_id field input : string) (reason : DurationError)
| WhileNanSource (source_id ref_id : string) (nan : NanSource)
| WhileUnsupportedUpstreamGenerator (source_id ref_id generator_kind : string).

(** [generator_kind]. *)
Definition generator_kind (g : GeneratorConfig) : string :=
  match g with
  | Constant _ => "constant"
  | Uniform _ _ _ => "uniform"
  | Sine _ _ _ => "sine"
  | Sawtooth _ _ _ => "sawtooth"
  | Sequence _ _ => "sequence"
  | Spike _ _ _ _ => "spike"
  | CsvReplay _ _ _ _ _ _ => "csv_replay"
  | Step _ _ _ => "step"
  | Flap _ _ _ _ _ _ => "flap"
  | Saturation _ _ _ => "saturation"
  | Leak _ _ _ => "leak"
  | Degradation _ _ _ _ _ => "degradation"
  | Steady _ _ _ _ _ => "steady"
  | SpikeEvent _ _ _ _ => "spike_event"
  end.

(** [is_supported_while_upstream]. *)
Definition is_supported_while_upstream (g : GeneratorConfig) : bool :=
  match g with CsvReplay _ _ _ _ _ _ => false | _ => true end.

(** [is_literal_nan]. *)
Definition is_literal_nan (cell : string) : bool :=
  let lower := str_lower cell in
  String.eqb lower "nan" || String.eqb lower "+nan" || String.eqb lower "-nan".

(** The loop of [scan_csv_for_nan] over the lines from [row] on. *)
Fixpoint scan_lines (path : string) (column row : nat) (lines : list string) : option NanSource :=
  match lines with
  | [] => None
  | line :: lines =>
      let trimmed := trim line in
      if String.eqb trimmed "" || str_starts_with "#"%char trimmed then
        scan_lines path column (S row) lines
      else
        let! cell := split_on ","%char trimmed !! column in
        if is_literal_nan (trim cell) then Some (NanCsvCell path row column)
        else scan_lines path column (S row) lines
  end.

(** [values.iter().position(|v| v.is_nan())], from the index [i]. *)
Fixpoint nan_position (i : nat) (values : list f64) : option nat :=
  match values with
  | [] => None
  | v :: values => if is_nan v then Some i else nan_position (S i) values
  end.

Section files.
(** [std::fs::read_to_string]: the file system. *)
Context (read_to_string : string -> result string string).

(** [scan_csv_for_nan]. *)
Definition scan_csv_for_nan (path : string) (column : nat) : option NanSource :=
  match read_to_string path with
  | Ok contents => scan_lines path column 0 (str_lines contents)
  | Err _ => None
  end.

(** [detect_nan_source]. *)
Definition detect_nan_source (g : GeneratorConfig) : option NanSource :=
  match g with
  | Constant value => if is_nan value then Some NanConstant else None
  | Sequence values _ => NanSequenceValue <$> nan_position 0 values
  | CsvReplay file column _ _ _ _ => scan_csv_for_nan file (default 0%nat column)
  | _ => None
  end.

(** The check of one entry's [while:] clause; [None] is the panic of a lookup. *)
Definition check_while (file_scenario_name : option string) (id_to_idx : list (string * nat))
    (entries : list Entry) (e : Entry) : option (result unit CompileAfterError) :=
  match xe_while (graph_part e) with
  | None => Some (Ok tt)
  | Some clause =>
      if is_deferred_while clause file_scenario_name then Some (Ok tt)
      else
        let source_id := source_label (graph_part e) in
        let! dep_idx := bt_get (wc_ref_id clause) id_to_idx in
        let! target := entries !! dep_idx in
        if negb (String.eqb (signal_type target) "metrics") then
          Some (Err (NonMetricsTarget source_id (wc_ref_id clause) KWhile (signal_type target)))
        else
          match entry_generator target with
          | None => Some (Ok tt)
          | Some generator =>
              if negb (is_supported_while_upstream generator) then
                Some (Err (WhileUnsupportedUpstreamGenerator source_id (wc_ref_id clause)
                             (generator_kind generator)))
              else
                match detect_nan_source generator with
                | Some nan => Some (Err (WhileNanSource source_id (wc_ref_id clause) nan))
                | None => Some (Ok tt)
                end
          end
  end.

Fixpoint check_whiles (file_scenario_name : option string) (id_to_idx : list (string * nat))
    (entries l : list Entry) : option (result unit CompileAfterError) :=
  match l with
  | [] => Some (Ok tt)
  | e :: l =>
      match check_while file_scenario_name id_to_idx entries e with
      | Some (Ok _) => check_whiles file_scenario_name id_to_idx entries l
      | r => r
      end
  end.

(** ** Durations and crossings *)

(** [parse_duration_secs]. *)
Definition parse_duration_secs (input source_id field : string) : result f64 CompileAfterError :=
  map_err (InvalidDurationIn source_id field input) (duration_to_secs input).

(** [duration_or_default]. *)
Definition duration_or_default (input : option string) (default_secs : f64) (field : string)
  : result f64 TimingError :=
  match input with
  | Some s => map_err (InvalidDuration field s) (duration_to_secs s)
  | None => Ok default_secs
  end.

(** [offset_or_zero]. *)
Definition offset_or_zero (input : option string) (field : string) : result f64 TimingError :=
  match input with
  | Some s => map_err (InvalidDuration field s) (let? d := parse_offset_duration s in Ok (as_secs_f64 d))
  | None => Ok 0
  end.

(** [operator_from]. *)
Definition operator_from (op : AfterOp) : Operator :=
  match op with OpLessThan => LessThan | OpGreaterThan => GreaterThan end.

(** [crossing_secs]. *)
Definition crossing_secs (generator : GeneratorConfig) (op : Operator) (threshold rate : f64)
  : result f64 TimingError :=
  match generator with
  | Constant value => constant_crossing_secs op threshold value
  | Uniform _ _ _ => uniform_crossing_secs
  | Sine _ _ _ => sine_crossing_secs
  | CsvReplay _ _ _ _ _ _ => csv_replay_crossing_secs
  | Sawtooth min max period_secs => sawtooth_crossing_secs op threshold min max period_secs
  | Sequence values repeat => sequence_crossing_secs op threshold values repeat rate
  | Step start step_size max => step_crossing_secs op threshold (default 0 start) step_size max rate
  | Spike baseline magnitude duration_secs _ =>
      spike_crossing_secs op threshold baseline magnitude duration_secs
  | Flap up_duration down_duration up_value down_value enum_kind phase =>
      let? up_secs := duration_or_default up_duration (num 10) "flap.up_duration" in
      let? down_secs := duration_or_default down_duration (num 5) "flap.down_duration" in
      let? phase_secs := offset_or_zero phase "flap.phase" in
      let (up_default, down_default) := default (num 1, num 0) (defaults <$> enum_kind) in
      flap_crossing_secs op threshold up_secs down_secs (default up_default up_value)
        (default down_default down_value) phase_secs
  | Saturation baseline ceiling time_to_saturate =>
      let? period :=
        duration_or_default time_to_saturate (f64_mul (num 5) (num 60)) "saturation.time_to_saturate" in
      sawtooth_crossing_secs op threshold (default (num 0) baseline) (default (num 100) ceiling) period
  | Leak baseline ceiling time_to_ceiling =>
      let? period :=
        duration_or_default time_to_ceiling (f64_mul (num 10) (num 60)) "leak.time_to_ceiling" in
      sawtooth_crossing_secs op threshold (default (num 0) baseline) (default (num 100) ceiling) period
  | Degradation baseline ceiling time_to_degrade _ _ =>
      let? period :=
        duration_or_default time_to_degrade (f64_mul (num 5) (num 60)) "degradation.time_to_degrade" in
      sawtooth_crossing_secs op threshold (default (num 0) baseline) (default (num 100) ceiling) period
  | Steady _ _ _ _ _ => steady_crossing_secs
  | SpikeEvent baseline spike_height spike_duration _ =>
      let? dur := duration_or_default spike_duration (num 10) "spike_event.spike_duration" in
      spike_crossing_secs op threshold (default (num 0) baseline) (default (num 100) spike_height) dur
  end.

(** [timing_to_error]. *)
Definition timing_to_error (err : TimingError) (source_id ref_id : string)
    (generator : GeneratorConfig) (op : Operator) (value : f64) : CompileAfterError :=
  let op := operator_display op in
  match err with
  | Unsupported message =>
      UnsupportedGenerator source_id ref_id (generator_kind generator) op message
  | OutOfRange message => OutOfRangeThreshold source_id ref_id op value message
  | Ambiguous message => AmbiguousAtT0 source_id ref_id op value message
  | InvalidDuration field input reason => InvalidDurationIn source_id field input reason
  end.

(** ** Offsets *)

(** An entry's own [phase_offset]. *)
Definition own_offset (e : Entry) : result f64 CompileAfterError :=
  match phase_offset e with
  | Some s => parse_duration_secs s (source_label (graph_part e)) "phase_offset"
  | None => Ok 0
  end.

(** The [delay] of a clause. *)
Definition after_delay (source_id : string) (clause : AfterClause) : result f64 CompileAfterError :=
  match ac_delay clause with
  | Some s => parse_duration_secs s source_id "after.delay"
  | None => Ok 0
  end.

(** The crossing of a clause on its target. *)
Definition after_crossing (source_id : string) (clause : AfterClause) (generator : GeneratorConfig)
    (rate : f64) : result f64 CompileAfterError :=
  let op := operator_from (ac_op clause) in
  map_err (fun err => timing_to_error err source_id (ac_ref_id clause) generator op (ac_value clause))
    (crossing_secs generator op (ac_value clause) rate).

(** The loop over the entries' own offsets. *)
Fixpoint base_offsets (l : list Entry) : result (list f64) CompileAfterError :=
  match l with
  | [] => Ok []
  | e :: l =>
      let? base := own_offset e in
      let? rest := base_offsets l in
      Ok (base :: rest)
  end.

(** The total offset of the entry [idx], when those of its targets are known;
    [None] is a panic: an index out of range, or a metrics target without a
    generator, which the code marks unreachable. *)
Definition total_offset (id_to_idx : list (string * nat)) (entries : list Entry)
    (base totals : list f64) (idx : nat) : option (result f64 CompileAfterError) :=
  let! entry := entries !! idx in
  let! own := base !! idx in
  match xe_after (graph_part entry) with
  | None => Some (Ok own)
  | Some clause =>
      let source_id := source_label (graph_part entry) in
      let! dep_idx := bt_get (ac_ref_id clause) id_to_idx in
      let! target := entries !! dep_idx in
      if negb (String.eqb (signal_type target) "metrics") then
        Some (Err (NonMetricsTarget source_id (ac_ref_id clause) KAfter (signal_type target)))
      else
        let! generator := entry_generator target in
        let! before := totals !! dep_idx in
        Some (
          let? crossing := after_crossing source_id clause generator (rate target) in
          let? delay := after_delay source_id clause in
          Ok (f64_add (f64_add (f64_add own before) crossing) delay))
  end.

(** The loop over the sorted entries. *)
Fixpoint accumulate (id_to_idx : list (string * nat)) (entries : list Entry) (base : list f64)
    (sorted : list nat) (totals : list f64) : option (result (list f64) CompileAfterError) :=
  match sorted with
  | [] => Some (Ok totals)
  | idx :: sorted =>
      let! r := total_offset id_to_idx entries base totals idx in
      match r with
      | Err e => Some (Err e)
      | Ok total =>
          let! totals := update_at (fun _ => total) idx totals in
          accumulate id_to_idx entries base sorted totals
      end
  end.

(** [CompiledEntry]: the fields the pass sets, and those later code reads. *)
Record CompiledEntry := mk_compiled {
  ce_id : option string;
  ce_name : string;
  ce_signal_type : string;
  ce_rate : f64;
  ce_generator : option GeneratorConfig;
  ce_phase_offset : option string;
  ce_clock_group : option string;
  ce_clock_group_is_auto : bool;
  ce_while : option WhileClause;
  ce_after_ref : option string;
}.

(** The output of one entry. *)
Definition compiled_entry (e : Entry) (total : f64) (group : ClockGroupAssignment) : CompiledEntry :=
  let g := graph_part e in
  let offset :=
    if bool_decide (is_Some (xe_after g)) || negb (f64_eq total 0)
    then Some (format_duration_secs total) else phase_offset e in
  let '(clock_group, is_auto) :=
    match group with
    | Resolved name is_auto => (Some name, is_auto)
    | Unassigned => (xe_clock_group g, false)
    end in
  mk_compiled (xe_id g) (xe_name g) (signal_type e) (rate e) (entry_generator e) offset clock_group
    is_auto (xe_while g) (ac_ref_id <$> xe_after g).

Fixpoint compiled_entries (l : list Entry) (totals : list f64) (groups : list ClockGroupAssignment)
  : option (list CompiledEntry) :=
  match l with
  | [] => Some []
  | e :: l =>
      match totals, groups with
      | total :: totals, group :: groups =>
          let! out := compiled_entries l totals groups in
          Some (compiled_entry e total group :: out)
      | _, _ => None
      end
  end.

(** [compile_after]; [None] is a panic. *)
Definition compile_after (file_scenario_name : option string) (entries : list Entry)
  : option (result (list CompiledEntry) CompileAfterError) :=
  let graph := map graph_part entries in
  let id_to_idx := build_id_index graph in
  let! ordered := order_entries file_scenario_name graph in
  match ordered with
  | Err e => Some (Err (GraphFailed e))
  | Ok sorted =>
      let! whiles := check_whiles file_scenario_name id_to_idx entries entries in
      match whiles with
      | Err e => Some (Err e)
      | Ok _ =>
          match base_offsets entries with
          | Err e => Some (Err e)
          | Ok base =>
              let! r := accumulate id_to_idx entries base sorted (replicate (length entries) 0) in
              match r with
              | Err e => Some (Err e)
              | Ok totals =>
                  let! groups := assign_clock_groups graph id_to_idx in
                  match groups with
                  | Err e => Some (Err (GraphFailed e))
                  | Ok groups =>
                      let! out := compiled_entries entries totals groups in
                      Some (Ok out)
                  end
              end
          end
      end
  end.
End files.

(** The documentation's chain: a flap that goes down after a minute, a backup
    link that fills from then on, and the latency it causes. *)
Example chain_entry (id : string) (generator : GeneratorConfig) (after : option AfterClause) : Entry :=
  mk_entry (mk_expanded (Some id) id None after None) "metrics" (num 1) (Some generator) None.
Example link_failover : list Entry :=
  [chain_entry "latency_ms" (Degradation (Some (num 5)) (Some (num 150)) (Some "3m") None None)
     (Some (mk_after_clause "backup_link_utilization" OpGreaterThan (num 70) None));
   chain_entry "interface_oper_state" (Flap (Some "60s") (Some "30s") None None None None) None;
   chain_entry "backup_link_utilization" (Saturation (Some (num 20)) (Some (num 85)) (Some "2m"))
     (Some (mk_after_clause "interface_oper_state" OpLessThan (num 1) None))].
Example link_failover_offsets :
  (let! r := compile_after (fun _ => Err "") (Some "link-failover") link_failover in
   match r with
   | Ok out => Some (map (fun c => (ce_phase_offset c, ce_clock_group c)) out)
   | Err _ => None
   end)
  = Some [(Some "152.308s", Some "chain_backup_link_utilization");
          (None, Some "chain_backup_link_utilization");
          (Some "1m", Some "chain_backup_link_utilization")].
Proof. vm_compute. reflexivity. Qed.

(** ** What the pass computes and refuses *)

Section pass.
Context (read_to_string : string -> result string string).
Context (scen : option string) (entries : list Entry).

Abbreviation graph := (map graph_part entries).
Abbreviation ids := (build_id_index graph).

Lemma graph_lookup i e : entries !! i = Some e -> graph !! i = Some (graph_part e).
Proof using Type. intros H. by rewrite list_lookup_fmap, H. Qed.

Lemma graph_inv i x : graph !! i = Some x -> exists e, entries !! i = Some e /\ x = graph_part e.
Proof using Type.
  rewrite list_lookup_fmap. destruct (entries !! i) as [e|]; [|done]. intros [= <-]. by exists e.
Qed.

(** The entry [i] refers by a clause of kind [k] to [target], the entry [d]:
    the last one of the file with the id of the clause. *)
Definition targets (i : nat) (e : Entry) (ref_id : string) (k : ClauseKind) (d : nat) (target : Entry)
  : Prop :=
  entries !! i = Some e /\ refers scen (graph_part e) ref_id k /\
  defines graph ref_id d /\ entries !! d = Some target.

(** Every metrics entry has a generator, as the passes before guarantee. *)
Definition generators_present : Prop :=
  forall i e, entries !! i = Some e -> signal_type e = "metrics" -> is_Some (entry_generator e).

(** Where a generator gives NaN: the first such value of a sequence. *)
Inductive nan_in : GeneratorConfig -> NanSource -> Prop :=
| nan_constant v : is_nan v = true -> nan_in (Constant v) NanConstant
| nan_sequence values repeat i v :
    values !! i = Some v -> is_nan v = true ->
    (forall j w, (j < i)%nat -> values !! j = Some w -> is_nan w = false) ->
    nan_in (Sequence values repeat) (NanSequenceValue i).

Definition replays (g : GeneratorConfig) : Prop :=
  exists file column per_column labels repeat timescale,
    g = CsvReplay file column per_column labels repeat timescale.

(** The seconds a duration says; none says 0. *)
Definition seconds (text : option string) (secs : f64) : Prop :=
  match text with Some s => duration_to_secs s = Ok secs | None => secs = 0 end.

(** When the generator first satisfies a clause. *)
Definition crossing_of (c : AfterClause) (g : GeneratorConfig) (rate : f64) : result f64 TimingError :=
  crossing_secs g (match ac_op c with OpLessThan => LessThan | OpGreaterThan => GreaterThan end)
    (ac_value c) rate.

(** The generators without a crossing, by name. *)
Inductive no_crossing : GeneratorConfig -> string -> Prop :=
| no_uniform min max seed : no_crossing (Uniform min max seed) "uniform"
| no_sine amplitude period offset : no_crossing (Sine amplitude period offset) "sine"
| no_replay g : replays g -> no_crossing g "csv_replay"
| no_step start size max : no_crossing (Step start size max) "step"
| no_steady center amplitude period noise seed :
    no_crossing (Steady center amplitude period noise seed) "steady".

(** What is reported of a crossing that cannot be computed. *)
Inductive crossing_fault (label : string) (c : AfterClause) (g : GeneratorConfig)
  : TimingError -> CompileAfterError -> Prop :=
| crossing_unsupported kind message :
    no_crossing g kind ->
    crossing_fault label c g (Unsupported message)
      (UnsupportedGenerator label (ac_ref_id c) kind
         (match ac_op c with OpLessThan => "<" | OpGreaterThan => ">" end) message)
| crossing_range message :
    crossing_fault label c g (OutOfRange message)
      (OutOfRangeThreshold label (ac_ref_id c)
         (match ac_op c with OpLessThan => "<" | OpGreaterThan => ">" end) (ac_value c) message)
| crossing_ambiguous message :
    crossing_fault label c g (Ambiguous message)
      (AmbiguousAtT0 label (ac_ref_id c)
         (match ac_op c with OpLessThan => "<" | OpGreaterThan => ">" end) (ac_value c) message)
| crossing_duration field input reason :
    crossing_fault label c g (InvalidDuration field input reason)
      (InvalidDurationIn label field input reason).

(** The faults of a file, each with the error that reports it. *)
Inductive refused : CompileAfterError -> Prop :=
| refused_order err : order_fault scen graph err -> refused (GraphFailed err)
| refused_groups err i : conflict_in graph (linked graph i) err -> refused (GraphFailed err)
| refused_target i e label ref_id k d target :
    targets i e ref_id k d target -> shown_as (graph_part e) label ->
    signal_type target <> "metrics" ->
    refused (NonMetricsTarget label ref_id k (signal_type target))
| refused_replay i e label ref_id d target g :
    targets i e ref_id KWhile d target -> shown_as (graph_part e) label ->
    entry_generator target = Some g -> replays g ->
    refused (WhileUnsupportedUpstreamGenerator label ref_id "csv_replay")
| refused_nan i e label ref_id d target g nan :
    targets i e ref_id KWhile d target -> shown_as (graph_part e) label ->
    entry_generator target = Some g -> nan_in g nan ->
    refused (WhileNanSource label ref_id nan)
| refused_offset i e label s reason :
    entries !! i = Some e -> shown_as (graph_part e) label ->
    phase_offset e = Some s -> duration_to_secs s = Err reason ->
    refused (InvalidDurationIn label "phase_offset" s reason)
| refused_delay i e label c s reason :
    entries !! i = Some e -> shown_as (graph_part e) label -> xe_after (graph_part e) = Some c ->
    ac_delay c = Some s -> duration_to_secs s = Err reason ->
    refused (InvalidDurationIn label "after.delay" s reason)
| refused_crossing i e label c d target g t err :
    targets i e (ac_ref_id c) KAfter d target -> shown_as (graph_part e) label ->
    xe_after (graph_part e) = Some c -> entry_generator target = Some g ->
    crossing_of c g (rate target) = Err t -> crossing_fault label c g t err ->
    refused err.

(** The offset of an entry, from those of the others. *)
Definition offset_rule (totals : list f64) (i : nat) (e : Entry) (total : f64) : Prop :=
  exists own, seconds (phase_offset e) own /\
  match xe_after (graph_part e) with
  | None => total = own
  | Some c => exists d target g before crossing delay,
      targets i e (ac_ref_id c) KAfter d target /\ signal_type target = "metrics" /\
      entry_generator target = Some g /\ totals !! d = Some before /\
      crossing_of c g (rate target) = Ok crossing /\ seconds (ac_delay c) delay /\
      total = f64_add (f64_add (f64_add own before) crossing) delay
  end.

(** What is written of an entry with an offset, its clock group apart. *)
Definition written (e : Entry) (total : f64) (c : CompiledEntry) : Prop :=
  ce_id c = xe_id (graph_part e) /\ ce_name c = xe_name (graph_part e) /\
  ce_signal_type c = signal_type e /\ ce_rate c = rate e /\ ce_generator c = entry_generator e /\
  ce_while c = xe_while (graph_part e) /\
  match xe_after (graph_part e) with
  | Some clause =>
      ce_after_ref c = Some (ac_ref_id clause) /\
      ce_phase_offset c = Some (format_duration_secs total)
  | None =>
      ce_after_ref c = None /\
      ce_phase_offset c =
        if f64_eq total 0 then phase_offset e else Some (format_duration_secs total)
  end.

(** The clock group of an entry: its own when no [after:] links it to another,
    and otherwise that of all its chain. *)
Definition grouped (out : list CompiledEntry) (i : nat) (e : Entry) (c : CompiledEntry) : Prop :=
  (forall j, linked graph i j -> j = i) /\
    ce_clock_group c = xe_clock_group (graph_part e) /\ ce_clock_group_is_auto c = false \/
  (exists j, linked graph i j /\ j <> i) /\
    exists name, ce_clock_group c = Some name /\
      group_ok graph (linked graph i) name (ce_clock_group_is_auto c) /\
      forall j c', linked graph i j -> out !! j = Some c' ->
        ce_clock_group c' = Some name /\ ce_clock_group_is_auto c' = ce_clock_group_is_auto c.

Lemma targets_ids i e ref_id k d target :
  targets i e ref_id k d target ->
  (ref_id, k) ∈ outgoing_edges (graph_part e) scen /\ bt_get ref_id ids = Some d.
Proof using Type. intros (_ & Hr & Hd & _). by rewrite <- refers_outgoing, id_index_defines. Qed.

(** An entry's references mean one entry. *)
Lemma targets_same i e r k d t k' d' t' :
  targets i e r k d t -> targets i e r k' d' t' -> d' = d /\ t' = t.
Proof using Type.
  intros H H'. apply targets_ids in H as Hb. apply targets_ids in H' as Hb'.
  destruct Hb as [_ Hb], Hb' as [_ Hb']. destruct H as (_ & _ & _ & Ht), H' as (_ & _ & _ & Ht').
  assert (d' = d) as -> by congruence. split; [done|congruence].
Qed.

Lemma targets_after i e c k d t :
  xe_after (graph_part e) = Some c -> targets i e (ac_ref_id c) k d t ->
  targets i e (ac_ref_id c) KAfter d t.
Proof using Type. intros Hc (He & _ & H). split; [done|]. split; [by constructor|done]. Qed.

Lemma nan_position_spec values : forall i,
  match nan_position i values with
  | Some j => exists n v, j = (i + n)%nat /\ values !! n = Some v /\ is_nan v = true /\
      forall m w, (m < n)%nat -> values !! m = Some w -> is_nan w = false
  | None => forall n v, values !! n = Some v -> is_nan v = false
  end.
Proof using Type.
  induction values as [|v values IH]; intros i; cbn [nan_position]; [done|].
  destruct (is_nan v) eqn:En.
  - exists 0%nat, v. split; [lia|]. split; [done|]. split; [done|]. lia.
  - specialize (IH (S i)). destruct (nan_position (S i) values) as [j|].
    + destruct IH as (n & w & -> & Hn & Hw & Hb). exists (S n), w. split; [lia|].
      split; [done|]. split; [done|]. intros [|m] u Hm; [by intros [= <-]|]. apply Hb. lia.
    + intros [|n] w; [by intros [= <-]|apply IH].
Qed.

(** Of a generator that is no replay, the NaN found is one, and none is
    missed. *)
Lemma detect_nan_spec g :
  is_supported_while_upstream g = true ->
  match detect_nan_source read_to_string g with
  | Some nan => nan_in g nan
  | None => forall nan, ~ nan_in g nan
  end.
Proof using Type.
  destruct g as [v| | | |values repeat| | | | | | | | |]; try (intros _ nan H; by inversion H).
  - intros _. cbn [detect_nan_source]. destruct (is_nan v) eqn:En; [by constructor|].
    intros nan H. inversion H. congruence.
  - intros _. cbn [detect_nan_source]. pose proof (nan_position_spec values 0) as Hn.
    destruct (nan_position 0 values) as [j|]; cbn.
    + destruct Hn as (n & v & -> & Hv & Hn & Hb). by apply (nan_sequence _ _ _ v).
    + intros nan H. inversion H as [|? ? n v Hv Hnan]; subst. rewrite (Hn n v Hv) in Hnan. done.
  - done.
Qed.

Lemma supported_replays g : is_supported_while_upstream g = true <-> ~ replays g.
Proof using Type.
  unfold replays. split.
  - intros H (? & ? & ? & ? & ? & ? & ->). done.
  - intros H. destruct g; try done. destruct H. by repeat eexists.
Qed.

Ltac no_unsupported := repeat (cbn; first [discriminate | case_match]).

Lemma duration_default_supported input secs field message :
  duration_or_default input secs field <> Err (Unsupported message).
Proof using Type. destruct input; cbn; [|done]. unfold map_err. by destruct (duration_to_secs _). Qed.

Lemma offset_zero_supported input field message :
  offset_or_zero input field <> Err (Unsupported message).
Proof using Type. destruct input; cbn; [|done]. by destruct (parse_offset_duration _). Qed.

Lemma sawtooth_supported op threshold b c period message :
  sawtooth_crossing_secs op threshold b c period <> Err (Unsupported message).
Proof using Type. unfold sawtooth_crossing_secs. no_unsupported. Qed.

Lemma spike_supported op threshold b m secs message :
  spike_crossing_secs op threshold b m secs <> Err (Unsupported message).
Proof using Type. unfold spike_crossing_secs. no_unsupported. Qed.

Lemma flap_supported op threshold up down uv dv phase message :
  flap_crossing_secs op threshold up down uv dv phase <> Err (Unsupported message).
Proof using Type. unfold flap_crossing_secs. no_unsupported. Qed.

(** What comes before a crossing is a duration. *)
Lemma after_duration {A} (r : result A TimingError) (k : A -> result f64 TimingError) message :
  r <> Err (Unsupported message) -> (forall a, k a <> Err (Unsupported message)) ->
  (let? a := r in k a) <> Err (Unsupported message).
Proof using Type. intros Hr Hk. destruct r; cbn; [apply Hk|congruence]. Qed.

Ltac supported := repeat (apply after_duration; [auto using duration_default_supported, offset_zero_supported|intros]).

Lemma crossing_unsupported_kind g op threshold r message :
  crossing_secs g op threshold r = Err (Unsupported message) -> no_crossing g (generator_kind g).
Proof using Type.
  intros H. destruct g; cbn [crossing_secs generator_kind] in *;
    try (by constructor); try (constructor; by repeat eexists); exfalso; revert H.
  - unfold constant_crossing_secs. no_unsupported.
  - apply sawtooth_supported.
  - unfold sequence_crossing_secs. no_unsupported.
  - apply spike_supported.
  - supported. destruct (default _ _). apply flap_supported.
  - supported. apply sawtooth_supported.
  - supported. apply sawtooth_supported.
  - supported. apply sawtooth_supported.
  - supported. apply spike_supported.
Qed.

Lemma crossing_faulted label c g r t :
  crossing_of c g r = Err t ->
  crossing_fault label c g t
    (timing_to_error t label (ac_ref_id c) g (operator_from (ac_op c)) (ac_value c)).
Proof using Type.
  intros H. unfold timing_to_error.
  assert (Ho : operator_display (operator_from (ac_op c))
               = match ac_op c with OpLessThan => "<" | OpGreaterThan => ">" end) by (by destruct (ac_op c)).
  rewrite Ho. destruct t; constructor. by eapply crossing_unsupported_kind.
Qed.

Lemma edge_after e c : xe_after (graph_part e) = Some c ->
  (ac_ref_id c, KAfter) ∈ outgoing_edges (graph_part e) scen.
Proof using Type. intros H. apply refers_outgoing. by constructor. Qed.

Lemma edge_while e c : xe_while (graph_part e) = Some c -> is_deferred_while c scen = false ->
  (wc_ref_id c, KWhile) ∈ outgoing_edges (graph_part e) scen.
Proof using Type.
  intros H Hd. unfold outgoing_edges. rewrite H, Hd. apply elem_of_app. right. by left.
Qed.

Lemma seconds_parsed text : match text with
  | Some s => match duration_to_secs s with Ok secs => seconds text secs | Err _ => True end
  | None => seconds text 0
  end.
Proof using Type. destruct text as [s|]; [|done]. cbn. by destruct (duration_to_secs s). Qed.

Context (Hrefs : refs_ok scen graph) (Hgen : generators_present).

Lemma edge_targets i e ref_id k :
  entries !! i = Some e -> (ref_id, k) ∈ outgoing_edges (graph_part e) scen ->
  exists d target, targets i e ref_id k d target /\ dep scen graph i d.
Proof using Hrefs.
  intros He Hk. destruct (Hrefs i _ ref_id k (graph_lookup i e He) Hk) as (_ & d & Hd).
  assert (Hdep : dep scen graph i d).
  { exists k, (graph_part e), ref_id. by rewrite (graph_lookup i e He). }
  destruct (dep_range _ _ _ _ Hdep) as [_ Hlt]. rewrite length_map in Hlt.
  destruct (lookup_lt_is_Some_2 entries d Hlt) as [target Ht]. exists d, target. split; [|done].
  split; [done|]. split; [by apply refers_outgoing|]. split; [by apply id_index_defines|done].
Qed.

(** A [while:] clause on a metrics signal that is neither replayed nor NaN. *)
Definition while_fine (i : nat) (e : Entry) : Prop :=
  forall ref_id d target, targets i e ref_id KWhile d target ->
    signal_type target = "metrics" /\
    forall g, entry_generator target = Some g -> ~ replays g /\ forall nan, ~ nan_in g nan.

Lemma check_while_spec i e :
  entries !! i = Some e ->
  exists r, check_while read_to_string scen ids entries e = Some r /\
    match r with Ok _ => while_fine i e | Err err => refused err end.
Proof using Hrefs.
  intros He. unfold check_while. pose proof (shown_source_label (graph_part e)) as Hl.
  destruct (xe_while (graph_part e)) as [c|] eqn:Ec.
  2: { eexists. split; [done|]. intros r d t (_ & Hr & _). inversion Hr. congruence. }
  destruct (is_deferred_while c scen) eqn:Ed.
  { eexists. split; [done|]. intros r d t [Hr _]%targets_ids. unfold outgoing_edges in Hr.
    rewrite Ec, Ed, app_nil_r in Hr. destruct (xe_after _); [|by apply elem_of_nil in Hr].
    by apply list_elem_of_singleton in Hr. }
  destruct (edge_targets i e _ _ He (edge_while e c Ec Ed)) as (d & t & Ht & _).
  pose proof Ht as (_ & _ & _ & Hd). rewrite (proj2 (targets_ids _ _ _ _ _ _ Ht)). cbn. rewrite Hd. cbn.
  destruct (String.eqb_spec (signal_type t) "metrics") as [Em|Em]; cbn [negb].
  2: { eexists. split; [done|]. by eapply refused_target. }
  assert (Hfine : forall r' d' t', targets i e r' KWhile d' t' -> t' = t).
  { intros r' d' t' Ht'. pose proof Ht' as (_ & Hr' & _). inversion Hr' as [|c' Hc' _ Hr]; subst.
    assert (c' = c) as -> by congruence. by apply (targets_same _ _ _ _ _ _ _ _ _ Ht Ht'). }
  destruct (entry_generator t) as [g|] eqn:Eg.
  2: { eexists. split; [done|]. intros r' d' t' ->%Hfine. split; [done|]. congruence. }
  destruct (is_supported_while_upstream g) eqn:Es; cbn [negb].
  2: { destruct g; try done. eexists. split; [done|].
       eapply refused_replay; [exact Ht|done|exact Eg|by repeat eexists]. }
  pose proof (detect_nan_spec g Es) as Hn.
  destruct (detect_nan_source read_to_string g) as [nan|] eqn:En.
  { eexists. split; [done|]. by eapply refused_nan. }
  eexists. split; [done|]. intros r' d' t' ->%Hfine. split; [done|]. intros g' Hg'.
  assert (g' = g) as -> by congruence. split; [by apply supported_replays|done].
Qed.

Lemma check_whiles_spec l :
  (forall e, e ∈ l -> exists i, entries !! i = Some e) ->
  exists r, check_whiles read_to_string scen ids entries l = Some r /\
    match r with
    | Ok _ => forall i e, e ∈ l -> entries !! i = Some e -> while_fine i e
    | Err err => refused err
    end.
Proof using Hrefs.
  induction l as [|e l IH]; intros Hl; cbn [check_whiles].
  { eexists. split; [done|]. by intros i e ?%elem_of_nil. }
  destruct (Hl e) as [i He]; [by left|]. destruct (check_while_spec i e He) as ([[]|err] & Ew & Hr).
  2: { rewrite Ew. by eexists. }
  rewrite Ew. destruct IH as (r & -> & Hall); [intros e' He'; apply Hl; by right|].
  exists r. split; [done|]. destruct r as [[]|err]; [|done].
  intros j e' [->|Hin]%elem_of_cons Hj; [|by apply Hall].
  destruct (check_while_spec j e Hj) as (r & Ew' & Hr'). rewrite Ew in Ew'. by injection Ew' as <-.
Qed.

Lemma own_offset_spec i e :
  entries !! i = Some e ->
  match own_offset e with Ok own => seconds (phase_offset e) own | Err err => refused err end.
Proof using Type.
  intros He. unfold own_offset. destruct (phase_offset e) as [s|] eqn:Ep; [|done].
  unfold parse_duration_secs. cbn. destruct (duration_to_secs s) as [x|reason] eqn:Ed; cbn; [done|].
  eapply refused_offset; [exact He|apply shown_source_label|exact Ep|exact Ed].
Qed.

Lemma after_delay_spec i e c :
  entries !! i = Some e -> xe_after (graph_part e) = Some c ->
  match after_delay (source_label (graph_part e)) c with
  | Ok delay => seconds (ac_delay c) delay
  | Err err => refused err
  end.
Proof using Type.
  intros He Hc. unfold after_delay. destruct (ac_delay c) as [s|] eqn:Ep; [|done].
  unfold parse_duration_secs. cbn. destruct (duration_to_secs s) as [x|reason] eqn:Ed; cbn; [done|].
  eapply refused_delay; [exact He|apply shown_source_label|exact Hc|exact Ep|exact Ed].
Qed.

Lemma after_crossing_spec i e c d t g :
  targets i e (ac_ref_id c) KAfter d t -> xe_after (graph_part e) = Some c -> entry_generator t = Some g ->
  match after_crossing (source_label (graph_part e)) c g (rate t) with
  | Ok crossing => crossing_of c g (rate t) = Ok crossing
  | Err err => refused err
  end.
Proof using Type.
  intros Ht Hc Hg. unfold after_crossing.
  change (crossing_secs g (operator_from (ac_op c)) (ac_value c) (rate t)) with (crossing_of c g (rate t)).
  destruct (crossing_of c g (rate t)) as [x|err] eqn:Ex; cbn; [done|].
  eapply refused_crossing; [exact Ht|apply shown_source_label|exact Hc|exact Hg|exact Ex|].
  by eapply crossing_faulted.
Qed.

Lemma base_offsets_spec l :
  (forall e, e ∈ l -> exists i, entries !! i = Some e) ->
  match base_offsets l with
  | Ok base => length base = length l /\
      forall i e, l !! i = Some e -> exists own, base !! i = Some own /\ seconds (phase_offset e) own
  | Err err => refused err
  end.
Proof using Type.
  induction l as [|e l IH]; intros Hl; cbn [base_offsets]; [done|].
  destruct (Hl e) as [i He]; [by left|]. pose proof (own_offset_spec i e He) as Ho.
  destruct (own_offset e) as [own|err] eqn:Eo; cbn; [|done].
  assert (Hl' : forall e', e' ∈ l -> exists i, entries !! i = Some e') by (intros; apply Hl; by right).
  specialize (IH Hl'). destruct (base_offsets l) as [base|err]; cbn; [|done].
  destruct IH as [Hlen Hb]. split; [lia|]. intros [|j] e'; [|apply Hb].
  intros [= <-]. by exists own.
Qed.

(** ** Sums along the chains *)

Section sums.
Context (base : list f64).
Context (Hbase : forall i e, entries !! i = Some e ->
  exists own, base !! i = Some own /\ seconds (phase_offset e) own).

Lemma total_offset_spec totals idx e :
  entries !! idx = Some e ->
  (forall d, dep scen graph idx d -> is_Some (totals !! d)) ->
  exists r, total_offset ids entries base totals idx = Some r /\
    match r with Ok total => offset_rule totals idx e total | Err err => refused err end.
Proof using Hrefs Hgen Hbase.
  intros He Hdone. unfold total_offset. rewrite He. cbn.
  destruct (Hbase idx e He) as (own & -> & Ho). cbn.
  destruct (xe_after (graph_part e)) as [c|] eqn:Ec.
  2: { eexists. split; [done|]. exists own. by rewrite Ec. }
  destruct (edge_targets idx e _ _ He (edge_after e c Ec)) as (d & t & Ht & Hd).
  pose proof Ht as (_ & _ & _ & Et). rewrite (proj2 (targets_ids _ _ _ _ _ _ Ht)). cbn. rewrite Et. cbn.
  destruct (String.eqb_spec (signal_type t) "metrics") as [Em|Em]; cbn [negb].
  2: { eexists. split; [done|]. eapply refused_target; [exact Ht|apply shown_source_label|done]. }
  destruct (Hgen d t Et Em) as [g Eg]. rewrite Eg. cbn.
  destruct (Hdone d Hd) as [before Eb]. rewrite Eb. cbn.
  pose proof (after_crossing_spec idx e c d t g Ht Ec Eg) as Hx.
  destruct (after_crossing _ c g (rate t)) as [crossing|err]; cbn; [|by eexists].
  pose proof (after_delay_spec idx e c He Ec) as Hdl.
  destruct (after_delay _ c) as [delay|err]; cbn; [|by eexists].
  eexists. split; [done|]. exists own. split; [done|]. rewrite Ec.
  by exists d, t, g, before, crossing, delay.
Qed.

(** The entries of [done] have their offsets. *)
Definition settled (done_ : list nat) (totals : list f64) : Prop :=
  length totals = length entries /\
  forall i e, i ∈ done_ -> entries !! i = Some e ->
    exists total, totals !! i = Some total /\ offset_rule totals i e total.

Lemma offset_rule_frame totals totals' i e total :
  (forall d, dep scen graph i d -> totals' !! d = totals !! d) ->
  offset_rule totals i e total -> offset_rule totals' i e total.
Proof using Type.
  intros Hd (own & Ho & H). exists own. split; [done|].
  destruct (xe_after (graph_part e)) as [c|]; [|done].
  destruct H as (d & t & g & before & crossing & delay & Ht & Hm & Hg & Hb & H).
  exists d, t, g, before, crossing, delay. rewrite Hd; [done|].
  destruct (targets_ids _ _ _ _ _ _ Ht) as [Hk Hr]. destruct Ht as (He & _).
  exists KAfter, (graph_part e), (ac_ref_id c). by rewrite (graph_lookup i e He).
Qed.

Lemma accumulate_spec sorted : forall l1 totals,
  topological scen graph (l1 ++ sorted) -> NoDup (l1 ++ sorted) ->
  (forall i, i ∈ l1 ++ sorted -> (i < length entries)%nat) ->
  settled l1 totals ->
  exists r, accumulate ids entries base sorted totals = Some r /\
    match r with Ok totals => settled (l1 ++ sorted) totals | Err err => refused err end.
Proof using Hrefs Hgen Hbase.
  induction sorted as [|idx sorted IH]; intros l1 totals Htop Hnd Hlt Hset; cbn [accumulate].
  { rewrite app_nil_r. by eexists. }
  destruct (lookup_lt_is_Some_2 entries idx) as [e He]; [apply Hlt; set_solver|].
  assert (Hbefore : forall d, dep scen graph idx d -> d ∈ l1) by (intros d; by apply (Htop l1 idx sorted d)).
  destruct Hset as [Hlen Hset].
  destruct (total_offset_spec totals idx e He) as (r & Er & Hr).
  { intros d Hd%dep_range. apply lookup_lt_is_Some_2. rewrite length_map in Hd. lia. }
  rewrite Er. cbn. destruct r as [total|err]; [|by eexists].
  assert (Hidx : idx ∉ l1).
  { apply NoDup_app in Hnd as (_ & Hnd & _). intros Hin. apply (Hnd idx Hin). by left. }
  unfold update_at. rewrite (proj2 (Nat.ltb_lt idx (length totals))).
  2: { rewrite Hlen. apply Hlt. set_solver. }
  cbn. set (totals' := alter _ idx totals).
  assert (Hsame : forall d, d ∈ l1 -> totals' !! d = totals !! d).
  { intros d Hd. unfold totals'. apply list_lookup_alter_ne. intros ->. done. }
  destruct (IH (l1 ++ [idx]) totals') as (r & -> & Hr'); rewrite <- ?app_assoc; [done..| |].
  - split; [unfold totals'; by rewrite length_alter|].
    intros i e' [Hi| ->%list_elem_of_singleton]%elem_of_app He'.
    + destruct (Hset i e' Hi He') as (t & Et & Ht). exists t. rewrite Hsame by done.
      split; [done|]. apply (offset_rule_frame totals); [|done].
      intros d Hd. apply Hsame. destruct (list_elem_of_split _ _ Hi) as (a & b & ->).
      apply elem_of_app. left. apply (Htop a i (b ++ idx :: sorted)); [|done].
      by rewrite <- app_assoc.
    + rewrite He in He'. injection He' as <-. exists total. split.
      * unfold totals'. rewrite list_lookup_alter_eq.
        destruct (lookup_lt_is_Some_2 totals idx) as [x ->]; [rewrite Hlen; apply Hlt; set_solver|done].
      * apply (offset_rule_frame totals); [|done]. intros d Hd. apply Hsame. by apply Hbefore.
  - exists r. split; [done|]. by rewrite <- app_assoc in Hr'.
Qed.
End sums.

Lemma compiled_entries_spec l : forall totals groups,
  length totals = length l -> length groups = length l ->
  exists out, compiled_entries l totals groups = Some out /\ length out = length l /\
    forall i e, l !! i = Some e -> exists total group,
      totals !! i = Some total /\ groups !! i = Some group /\
      out !! i = Some (compiled_entry e total group).
Proof using Type.
  clear. induction l as [|e l IH]; intros totals groups Ht Hg; cbn [compiled_entries]; [by eexists|].
  destruct totals as [|total totals]; [done|]. destruct groups as [|group groups]; [done|].
  injection Ht as Ht. injection Hg as Hg. destruct (IH totals groups Ht Hg) as (out & -> & Hlen & Hout).
  cbn. eexists. split; [done|]. split; [cbn; lia|]. intros [|i] e'; [|apply Hout].
  intros [= <-]. by exists total, group.
Qed.

Lemma compiled_entry_written e total group : written e total (compiled_entry e total group).
Proof using Type.
  unfold compiled_entry, written. destruct (xe_after (graph_part e)) as [c|]; destruct group; cbn;
    repeat split; by destruct (f64_eq total 0).
Qed.

Lemma compiled_entry_group e total group :
  ce_clock_group (compiled_entry e total group)
    = match group with Resolved name _ => Some name | Unassigned => xe_clock_group (graph_part e) end /\
  ce_clock_group_is_auto (compiled_entry e total group)
    = match group with Resolved _ is_auto => is_auto | Unassigned => false end.
Proof using Type. unfold compiled_entry. by destruct group. Qed.

(** The groups that [assign_clock_groups] gives, as [ClockGroups] shows them. *)
Definition groups_right (groups : list ClockGroupAssignment) : Prop :=
  length groups = length entries /\
  forall i, (i < length entries)%nat -> exists a, groups !! i = Some a /\
    match a with
    | Unassigned => forall j, linked graph i j -> j = i
    | Resolved name is_auto =>
        (exists j, linked graph i j /\ j <> i) /\
        group_ok graph (linked graph i) name is_auto /\
        forall j, linked graph i j -> groups !! j = Some a
    end.

Lemma groups_written (totals : list f64) groups out i e total group :
  groups_right groups -> length out = length entries ->
  (forall i e, entries !! i = Some e -> exists total group,
     totals !! i = Some total /\ groups !! i = Some group /\
     out !! i = Some (compiled_entry e total group)) ->
  entries !! i = Some e -> groups !! i = Some group ->
  grouped out i e (compiled_entry e total group).
Proof using Type.
  intros [_ Hg] Hlen Hout He Hgi. destruct (Hg i) as (a & Ha & Hr); [by eapply lookup_lt_Some|].
  rewrite Ha in Hgi. injection Hgi as ->. unfold grouped.
  destruct (compiled_entry_group e total group) as [-> ->]. destruct group as [name au|]; [right|by left].
  destruct Hr as (Hother & Hok & Hall). split; [done|]. exists name. split; [done|]. split; [done|].
  intros j c' Hj Hc'. assert (Hlt : (j < length entries)%nat).
  { rewrite <- Hlen. by eapply lookup_lt_Some. }
  destruct (lookup_lt_is_Some_2 _ _ Hlt) as [e' He']. destruct (Hout j e' He') as (t' & g' & _ & Hg' & Ho').
  rewrite Ho' in Hc'. injection Hc' as <-. rewrite (Hall j Hj) in Hg'. injection Hg' as <-.
  destruct (compiled_entry_group e' t' (Resolved name au)) as [-> ->]. done.
Qed.

Lemma no_conflict groups i err : groups_right groups -> ~ conflict_in graph (linked graph i) err.
Proof using Type.
  intros [_ Hg] (j & k & ej & ek & gj & gk & Hj & Hk & Ej & Ek & Xj & Xk & Hne & _).
  destruct (decide (i < length entries)%nat) as [Hi|Hi].
  - destruct (Hg i Hi) as ([name au|] & _ & Hr).
    + destruct Hr as (_ & Hok & _). unfold group_ok in Hok. destruct au.
      * destruct Hok as [Hn _]. rewrite (Hn j ej Hj Ej) in Xj. done.
      * destruct Hok as [_ Hn]. apply Hne. by rewrite (Hn j ej gj Hj Ej Xj), (Hn k ek gk Hk Ek Xk).
    + apply Hr in Hj, Hk. subst. congruence.
  - assert (Hout : forall x, linked graph i x -> x = i).
    { intros x Hx. unfold linked in Hx. inversion Hx as [|? y ? Hs]; subst; [done|].
      exfalso. apply Hi. destruct Hs as [Hs|Hs]; apply after_edge_range in Hs as (H1 & H2 & _);
        rewrite length_map in H1, H2; done. }
    apply Hout in Hj, Hk. subst. congruence.
Qed.

Lemma no_fault totals groups err :
  acyclic scen graph ->
  (forall i e, entries !! i = Some e -> while_fine i e) ->
  (forall i e, entries !! i = Some e -> exists total, offset_rule totals i e total) ->
  groups_right groups -> ~ refused err.
Proof using Hrefs.
  intros Hac Hw Ho Hg Hf.
  assert (Hafter : forall i e c d t, targets i e (ac_ref_id c) KAfter d t -> xe_after (graph_part e) = Some c ->
    signal_type t = "metrics" /\ exists g delay x, entry_generator t = Some g /\
      crossing_of c g (rate t) = Ok x /\ seconds (ac_delay c) delay).
  { intros i e c d t Ht Hc. pose proof Ht as (He & _). destruct (Ho i e He) as (tot & own & _ & Hr).
    rewrite Hc in Hr. destruct Hr as (d' & t' & g & bf & x & dl & Ht' & Hm & Hg' & _ & Hx & Hdl & _).
    destruct (targets_same _ _ _ _ _ _ _ _ _ Ht Ht') as [-> ->]. split; [done|]. by exists g, dl, x. }
  destruct Hf as [err Hf|err i Hf|i e l r k d t Ht _ Hm|i e l r d t g Ht _ Hgt Hr|i e l r d t g nan Ht _ Hgt Hn
                 |i e l s rs He _ Hs Hd|i e l c s rs He _ Hc Hs Hd|i e l c d t g x err Ht _ Hc Hgt Hx _].
  - by apply (order_entries_no_fault scen graph err).
  - by apply (no_conflict groups i err).
  - pose proof Ht as (He & Hk & _). inversion Hk as [c Hc|]; subst.
    + by apply Hm, (Hafter i e c d t).
    + by apply Hm, (Hw i e He _ d t Ht).
  - pose proof Ht as (He & _). by apply (Hw i e He _ d t Ht) in Hgt as [H _].
  - pose proof Ht as (He & _). apply (Hw i e He _ d t Ht) in Hgt as [_ H]. by apply (H nan).
  - destruct (Ho i e He) as (tot & own & Hown & _). rewrite Hs in Hown. cbn in Hown. congruence.
  - destruct (edge_targets i e _ _ He (edge_after e c Hc)) as (d & t & Ht & _).
    destruct (Hafter i e c d t Ht Hc) as (_ & g & dl & x & _ & _ & Hdl). rewrite Hs in Hdl. cbn in Hdl. congruence.
  - destruct (Hafter i e c d t Ht Hc) as (_ & g' & dl & x' & Hg' & Hx' & _).
    assert (g' = g) as -> by congruence. congruence.
Qed.
End pass.



(** ** Crossings and the generators that run *)

Section generator.
Context (sin : f64 -> f64) (read_to_string : string -> result string string).

(** The generators whose crossings are exact: no ramp, no wrap of a step, no
    dip of a spike, and a whole number of seconds and of ticks a second. *)
Definition exact_crossing (op : Operator) (threshold : f64) (R : Z) (g : GeneratorConfig) : Prop :=
  match g with
  | Constant _ | Sequence _ _ => True
  | Step start step_size max =>
      op = GreaterThan /\ exists s k t, default 0 start = num s /\ step_size = num k /\
        threshold = num t /\ 0 <= s /\ 0 <= t /\ 1 <= k /\ s + t + k <= P53 /\
        match max with Some m => f64_gt m (num s) = false | None => True end
  | Spike baseline magnitude duration_secs interval_secs => exists D I,
      duration_secs = num D /\ interval_secs = num I /\ 1 <= D /\ D < I /\ I * R <= P53 /\
      f64_le baseline (f64_add baseline magnitude) = true
  | SpikeEvent baseline spike_height spike_duration spike_interval => exists D I,
      alias_secs (default "10s" spike_duration) = Ok (num D) /\
      alias_secs (default "30s" spike_interval) = Ok (num I) /\ 1 <= D /\ D < I /\ I * R <= P53 /\
      f64_le (default (num 0) baseline)
        (f64_add (default (num 0) baseline) (default (num 100) spike_height)) = true
  | Flap up_duration down_duration _ _ _ phase => exists u d p,
      alias_secs (default "10s" up_duration) = Ok (num u) /\
      alias_secs (default "5s" down_duration) = Ok (num d) /\
      flap_phase_secs phase = Ok (num p) /\
      1 <= u /\ 1 <= d /\ 0 <= p /\ (u + d) * R <= P53 /\ p * R <= P53
  | _ => False
  end.

Lemma duration_default input text n field x :
  alias_secs text = Ok (num n) -> alias_secs (default text input) = Ok x ->
  duration_or_default input (num n) field = Ok x.
Proof using Type.
  intros Ht Hx. destruct input as [s|]; cbn in *.
  - unfold alias_secs in Hx. destruct (duration_to_secs s); [|done]. by injection Hx as <-.
  - rewrite Ht in Hx. by injection Hx as <-.
Qed.

Lemma phase_default phase field x :
  flap_phase_secs phase = Ok x -> offset_or_zero phase field = Ok x.
Proof using Type.
  intros Hx. destruct phase as [s|]; cbn in *; [|by injection Hx as <-].
  destruct (parse_offset_duration s); cbn in *; [|done]. by injection Hx as <-.
Qed.

Lemma spike_created baseline magnitude D I R gen :
  create_generator read_to_string (Spike baseline magnitude (num D) (num I)) (num R) = Ok gen ->
  gen = GSpike baseline magnitude (f64_mul (num D) (num R)) (f64_mul (num I) (num R)).
Proof using Type.
  cbn [create_generator]. destruct (f64_le (num I) 0); [done|]. destruct (f64_lt (num D) 0); [done|].
  by intros [= <-].
Qed.

(** A flap's desugaring is its cycle, turned to where the phase starts. *)
Lemma flap_desugared up_duration down_duration up_value down_value enum_kind phase base r u d p R :
  desugar (Flap up_duration down_duration up_value down_value enum_kind phase) base = Ok r ->
  alias_secs (default "10s" up_duration) = Ok (num u) ->
  alias_secs (default "5s" down_duration) = Ok (num d) ->
  flap_phase_secs phase = Ok (num p) -> base_rate base = num R ->
  1 <= u -> 1 <= d -> 1 <= R -> (u + d) * R <= P53 ->
  exists ud dd, default (num 1, num 0) (defaults <$> enum_kind) = (ud, dd) /\
    let values := cycle u d R (default ud up_value) (default dd down_value) in
    exists turned, turned = rotate_left (flap_shift (num R) (num p) values) values /\
      r.1 = Sequence turned (Some true).
Proof using sin.
  intros H Hu Hd Hp HR ? ? ? ?. unfold desugar in H. cbn [is_alias negb] in H. rewrite HR in H.
  destruct (bool_decide (is_Some enum_kind) && _); [done|].
  exists (default (num 1, num 0) (defaults <$> enum_kind)).1,
         (default (num 1, num 0) (defaults <$> enum_kind)).2.
  split; [apply surjective_pairing|].
  destruct (match enum_kind with Some e => defaults e | None => (num 1, num 0) end)
    as [ud dd] eqn:Ee.
  assert (Hdef : default (num 1, num 0) (defaults <$> enum_kind) = (ud, dd)) by (by destruct enum_kind).
  rewrite Hdef. cbn [fst snd]. rewrite Hu, Hd in H. cbn in H.
  rewrite (flap_cycle_num sin u d 0 R) in H by lia. cbn in H. rewrite Hp in H. cbn in H.
  eexists. split; [reflexivity|]. by injection H as <-.
Qed.

Lemma ten_seconds : alias_secs "10s" = Ok (num 10).
Proof using Type. vm_compute. reflexivity. Qed.
Lemma five_seconds : alias_secs "5s" = Ok (num 5).
Proof using Type. vm_compute. reflexivity. Qed.

Section rate.
Context (op : Operator) (threshold : f64) (R : Z) (base base' : BaseSchedule) (gen : ValueGenerator).
Context (HR : 1 <= R) (HRb : R <= P53) (Hrate : base_rate base = num R).

Abbreviation runs g g' :=
  (desugar g base = Ok (g', base') /\ create_generator read_to_string g' (num R) = Ok gen).
Abbreviation exact g := (exact_crossing op threshold R g).
Abbreviation right g := (crosses sin op threshold gen (num R) (crossing_secs g op threshold (num R))).

Lemma rate_finite : is_finite (num R) = true.
Proof using HR HRb. apply num_is_finite. lia. Qed.

Lemma rate_positive : f64_le (num R) 0 = false.
Proof using HR HRb. change 0 with (num 0). rewrite le_num by lia. apply Z.leb_gt. lia. Qed.

Lemma constant_right v g' : runs (Constant v) g' -> right (Constant v).
Proof using Type.
  intros [[= <- <-] [= <-]]. cbn [crossing_secs]. unfold constant_crossing_secs.
  destruct (holds op threshold v) eqn:Eh; [by exists v|]. by intros t _ w [= <-].
Qed.

Lemma sequence_right values repeat g' : runs (Sequence values repeat) g' -> right (Sequence values repeat).
Proof using HR HRb.
  intros [[= <- <-] Hcr]. cbn [create_generator] in Hcr. destruct values as [|v values]; [done|].
  injection Hcr as <-. apply sequence_crosses; [apply rate_finite|apply rate_positive].
Qed.

Lemma spike_right baseline magnitude du iv g' :
  exact (Spike baseline magnitude du iv) -> runs (Spike baseline magnitude du iv) g' ->
  right (Spike baseline magnitude du iv).
Proof using HR HRb.
  intros (D & I & -> & -> & H1 & H2 & H3 & H4) [[= <- <-] Hcr].
  rewrite (spike_created _ _ _ _ _ _ Hcr). by apply spike_crosses.
Qed.

Lemma step_right start step_size max g' :
  exact (Step start step_size max) -> runs (Step start step_size max) g' ->
  right (Step start step_size max).
Proof using HR HRb.
  intros (-> & s & k & t & Hs & -> & -> & H1 & H2 & H3 & H4 & H5) [[= <- <-] [= <-]].
  cbn [crossing_secs]. rewrite Hs.
  apply step_crosses; [done..|apply rate_finite|apply rate_positive|done].
Qed.

Lemma flap_right ud dd uv dv en ph g' :
  exact (Flap ud dd uv dv en ph) -> runs (Flap ud dd uv dv en ph) g' -> right (Flap ud dd uv dv en ph).
Proof using HR HRb Hrate.
  intros (u & d & p & Hu & Hd & Hp & H1 & H2 & H3 & H4 & H5) [Hds Hcr].
  destruct (flap_desugared _ _ _ _ _ _ _ _ _ _ _ R Hds Hu Hd Hp Hrate) as (x & y & Hxy & turned & Ht & Hg'); [done..|].
  cbn [fst] in Hg'. subst g'. cbn [crossing_secs].
  rewrite (duration_default ud "10s" 10 _ _ ten_seconds Hu). cbv iota.
  rewrite (duration_default dd "5s" 5 _ _ five_seconds Hd). cbv iota.
  rewrite (phase_default _ _ _ Hp). cbv iota. rewrite Hxy.
  assert (Hgen : gen = GSequence turned true).
  { cbn [create_generator] in Hcr. clear Ht. destruct turned; [done|]. by injection Hcr as <-. }
  rewrite Hgen, Ht. by apply flap_crosses.
Qed.

Lemma spike_event_right b h du iv g' :
  exact (SpikeEvent b h du iv) -> runs (SpikeEvent b h du iv) g' -> right (SpikeEvent b h du iv).
Proof using HR HRb.
  intros (D & I & Hd & Hi & H1 & H2 & H3 & H4) [Hds Hcr].
  unfold desugar in Hds. cbn [is_alias negb] in Hds. rewrite Hd in Hds. cbv iota in Hds.
  rewrite Hi in Hds. cbv iota in Hds. injection Hds as <- <-.
  rewrite (spike_created _ _ _ _ _ _ Hcr). cbn [crossing_secs].
  rewrite (duration_default du "10s" 10 _ _ ten_seconds Hd). cbv iota. by apply spike_crosses.
Qed.

Lemma crossing_is_first_tick_aux g g' : exact g -> runs g g' -> right g.
Proof using HR HRb Hrate.
  destruct g; try done; intros He Hr.
  - by eapply constant_right.
  - by eapply sequence_right.
  - by eapply spike_right.
  - by eapply step_right.
  - by eapply flap_right.
  - by eapply spike_event_right.
Qed.
End rate.
End generator.

(** C23: for a generator with exact crossings, aliases included, the crossing
    the compiler computes is that of the generator that will run, the one its
    configuration is desugared to and built as: when it gives an instant, that
    is the instant of the first tick at which the comparison holds, and not of
    tick 0; when it calls the condition ambiguous it holds at tick 0, and when
    it calls it out of range it holds at no tick. Exact ([exact_crossing]) are
    constants; sequences; flaps with whole seconds; spikes and spike events with
    whole seconds whose spike does not go below the baseline; and, for [>] only,
    steps of whole numbers that do not wrap. The rate is a whole number of ticks
    a second. A spike that dips and a step that wraps are not exact
    ([Timing.dip_crossing], [Timing.step_second_lap]), nor is a ramp. *)
Theorem crossing_is_first_tick sin read_to_string op threshold R g base g' base' gen :
  1 <= R -> R <= P53 -> base_rate base = num R -> exact_crossing op threshold R g ->
  desugar g base = Ok (g', base') -> create_generator read_to_string g' (num R) = Ok gen ->
  crosses sin op threshold gen (num R) (crossing_secs g op threshold (num R)).
Proof. intros. by eapply crossing_is_first_tick_aux. Qed.

(** Half-way through the down state at two ticks a second. *)
Example ex_flap : GeneratorConfig := Flap (Some "3s") (Some "2s") None None (Some OperState) (Some "4s").
Example ex_flap_values : list f64 :=
  [num 2; num 2] ++ replicate 6 (num 1) ++ [num 2; num 2].

Lemma crossing_is_first_tick_witness :
  crosses (fun x => x) LessThan (num 2) (GSequence ex_flap_values true) (num 2)
    (crossing_secs ex_flap LessThan (num 2) (num 2)) /\
  crossing_secs ex_flap LessThan (num 2) (num 2) = Ok (num 1).
Proof.
  split; [|vm_compute; reflexivity].
  apply (crossing_is_first_tick (fun x => x) (fun _ => Err "") LessThan (num 2) 2 ex_flap
           (mk_base (num 2) None None None) (Sequence ex_flap_values (Some true))
           (mk_base (num 2) None None None)).
  - lia.
  - vm_compute. discriminate.
  - reflexivity.
  - exists 3, 2, 4. vm_compute. repeat split; discriminate.
  - vm_compute. reflexivity.
  - reflexivity.
Defined.
