(* ===== verification/CivilDate.v ===== *)
(** * CivilDate: RFC 3339 timestamps (encoder/mod.rs)

    [format_rfc3339_millis_array] turns nanoseconds since the epoch into
    [YYYY-MM-DDTHH:MM:SS.mmmZ] with an arithmetic of its own for the date. The
    specification is the calendar: the day after a date, month lengths and the
    leap years of the Gregorian rule. The date of the [n]th day is the [n]th
    day after 1970-01-01, for every [n] ([civil_is_calendar]); the text is read
    back as that date and the time of the day up to the end of 9999, and from
    there on the formatting panics ([rfc3339_is_calendar]). *)

From Stdlib Require Import ZArith Lia Ascii.
From stdpp Require Import prelude strings list numbers.
From S2P Require Import Prelude Text SinkIo FloatText.

(** ** The code *)

(** [timestamp.duration_since(UNIX_EPOCH)], the timestamp being nanoseconds. *)
Definition since_epoch (timestamp : Z) : result Z SondaError :=
  if timestamp <? 0 then
    Err (Encoder (TimestampBeforeEpoch "second time provided was later than self"))
  else Ok timestamp.

Definition RFC3339_MILLIS_LEN : nat := 24.

(** Year, month and day. *)
Definition date : Type := Z * Z * Z.

(** [civil_from_days], inlined in the code: the date of a day since the
    epoch. *)
Definition civil_from_days (days : Z) : date :=
  let z := days + 719468 in
  let era := Z.quot (if 0 <=? z then z else z - 146096) 146097 in
  let doe := z - era * 146097 in
  let yoe := (doe - doe / 1460 + doe / 36524 - doe / 146096) / 365 in
  let y := yoe + era * 400 in
  let doy := doe - (365 * yoe + yoe / 4 - yoe / 100) in
  let mp := (5 * doy + 2) / 153 in
  let day := doy - (153 * mp + 2) / 5 + 1 in
  let month := if mp <? 10 then mp + 3 else mp - 9 in
  let year := if month <=? 2 then y + 1 else y in
  (year, month, day).

(** [{n:0w}]: at least [w] digits. *)
Definition show_padded (w : nat) (n : Z) : string :=
  if n <? 10 ^ Z.of_nat w then pad_dec w n "" else show_nat n.

Fixpoint zero_bytes (n : nat) : string :=
  match n with O => "" | S n => String zero (zero_bytes n) end.

(** [format_rfc3339_millis_array]; [None] is the panic of the [expect] when
    the text is longer than the array. *)
Definition format_rfc3339_millis_array (ts : Z) : option (result string SondaError) :=
  match since_epoch ts with
  | Err e => Some (Err e)
  | Ok duration =>
      let total_secs := duration / 1000000000 in
      let millis := duration mod 1000000000 / 1000000 in
      let days := total_secs / 86400 in
      let time_of_day := total_secs mod 86400 in
      let hour := time_of_day / 3600 in
      let minute := time_of_day mod 3600 / 60 in
      let second := time_of_day mod 60 in
      let '(year, month, day) := civil_from_days days in
      let text :=
        show_padded 4 year +:+ "-" +:+ show_padded 2 month +:+ "-" +:+ show_padded 2 day +:+ "T"
          +:+ show_padded 2 hour +:+ ":" +:+ show_padded 2 minute +:+ ":" +:+ show_padded 2 second
          +:+ "." +:+ show_padded 3 millis +:+ "Z" in
      if (RFC3339_MILLIS_LEN <? String.length text)%nat then None
      else Some (Ok (text +:+ zero_bytes (RFC3339_MILLIS_LEN - String.length text)))
  end.

(** [format_rfc3339_millis]: the buffer, and the result. *)
Definition format_rfc3339_millis (ts : Z) (buf : string) : option (string * result unit SondaError) :=
  let! r := format_rfc3339_millis_array ts in
  match r with
  | Ok arr => Some (buf +:+ arr, Ok tt)
  | Err e => Some (buf, Err e)
  end.

Example millis_leap :
  format_rfc3339_millis_array (1709164800123 * 1000000) = Some (Ok "2024-02-29T00:00:00.123Z"%string).
Proof. vm_compute. reflexivity. Qed.
Example millis_last :
  format_rfc3339_millis_array (253402300799999 * 1000000) = Some (Ok "9999-12-31T23:59:59.999Z"%string).
Proof. vm_compute. reflexivity. Qed.
Example millis_too_late : format_rfc3339_millis_array (253402300800000 * 1000000) = None.
Proof. vm_compute. reflexivity. Qed.

(** ** The calendar *)

Definition leap_year (y : Z) : bool :=
  (y mod 4 =? 0) && (negb (y mod 100 =? 0) || (y mod 400 =? 0)).

Definition month_length (leap : bool) (m : Z) : Z :=
  if m =? 2 then if leap then 29 else 28
  else if (m =? 4) || (m =? 6) || (m =? 9) || (m =? 11) then 30 else 31.

Definition next_day (d : date) : date :=
  let '(y, m, d) := d in
  if d <? month_length (leap_year y) m then (y, m, d + 1)
  else if m <? 12 then (y, m + 1, 1)
  else (y + 1, 1, 1).

Definition epoch_date : date := (1970, 1, 1).

(** The date [n] days after the epoch. *)
Definition calendar (n : nat) : date := Nat.iter n next_day epoch_date.

Example calendar_leap : calendar 60 = (1970, 3, 2).
Proof. vm_compute. reflexivity. Qed.

(** *** Years from March *)

(** The first day of the year [yoe] of an era, years counted from March; its
    length, that of the following February included; the date of one of its
    days. *)
Definition year_start (yoe : Z) : Z := 365 * yoe + yoe / 4 - yoe / 100.
Definition year_length (yoe : Z) : Z := if leap_year (yoe + 1) then 366 else 365.

Definition month_day (doy : Z) : Z * Z :=
  let mp := (5 * doy + 2) / 153 in
  (if mp <? 10 then mp + 3 else mp - 9, doy - (153 * mp + 2) / 5 + 1).

Definition march_date (y doy : Z) : date :=
  let (m, d) := month_day doy in
  ((if m <=? 2 then y + 1 else y), m, d).

Definition year_of (doe : Z) : Z := (doe - doe / 1460 + doe / 36524 - doe / 146096) / 365.

(** What is checked for the 400 years of an era and the days of a year. *)
Definition upto (n : nat) : list Z := map Z.of_nat (seq 0 n).

Lemma upto_all (f : Z -> bool) n x : forallb f (upto n) = true -> 0 <= x < Z.of_nat n -> f x = true.
Proof.
  rewrite forallb_forall. intros H Hx. apply H. unfold upto. apply in_map_iff. exists (Z.to_nat x).
  split; [lia|]. apply in_seq. lia.
Qed.

Definition year_ok (yoe : Z) : bool :=
  (365 * yoe <=? year_start yoe - year_start yoe / 1460 + year_start yoe / 36524)
  && (let last := year_start yoe + year_length yoe - 1 in
      (last - last / 1460 + last / 36524 - last / 146096 <? 365 * (yoe + 1)))
  && (if yoe =? 399 then year_start yoe + year_length yoe =? 146097
      else year_start (yoe + 1) =? year_start yoe + year_length yoe).

Lemma years_ok yoe : 0 <= yoe < 400 -> year_ok yoe = true.
Proof. apply (upto_all year_ok 400). vm_compute. reflexivity. Qed.

Lemma year_next yoe : 0 <= yoe < 399 -> year_start (yoe + 1) = year_start yoe + year_length yoe.
Proof.
  intros Hy. pose proof (years_ok yoe ltac:(lia)) as H. unfold year_ok in H.
  apply andb_true_iff in H as [_ H]. destruct (Z.eqb_spec yoe 399); lia.
Qed.

Lemma year_last : year_start 399 + year_length 399 = 146097.
Proof. reflexivity. Qed.

Lemma year_length_pos yoe : 365 <= year_length yoe <= 366.
Proof. unfold year_length. destruct (leap_year _); lia. Qed.

Lemma year_start_range yoe :
  0 <= yoe < 400 -> 0 <= year_start yoe /\ year_start yoe + year_length yoe <= 146097.
Proof.
  intros Hy. unfold year_start. pose proof (year_length_pos yoe).
  split; [Z.to_euclidean_division_equations; lia|].
  destruct (decide (yoe = 399)) as [->|]; [by rewrite <- year_last|].
  Z.to_euclidean_division_equations; lia.
Qed.

(** The year of a day is found by the division. *)
Lemma year_of_day yoe doy :
  0 <= yoe < 400 -> 0 <= doy < year_length yoe -> year_of (year_start yoe + doy) = yoe.
Proof.
  intros Hy Hd. pose proof (years_ok yoe Hy) as H. unfold year_ok in H.
  apply andb_true_iff in H as [[H1%Z.leb_le H2%Z.ltb_lt]%andb_true_iff _].
  pose proof (year_start_range yoe Hy) as [Hs Hl].
  set (s := year_start yoe) in *. set (l := year_length yoe) in *. unfold year_of.
  enough (365 * yoe <= s + doy - (s + doy) / 1460 + (s + doy) / 36524 - (s + doy) / 146096 < 365 * (yoe + 1))
    by (symmetry; apply Z.div_unique with (r := s + doy - (s + doy) / 1460 + (s + doy) / 36524
          - (s + doy) / 146096 - 365 * yoe); lia).
  clearbody s l. Z.to_euclidean_division_equations. lia.
Qed.

(** *** From day to day *)

(** The step of the calendar inside a year and at its end. *)
Definition next_month_day (leap : bool) (md : Z * Z) : Z * (Z * Z) :=
  let (m, d) := md in
  if d <? month_length leap m then (0, (m, d + 1))
  else if m <? 12 then (0, (m + 1, 1))
  else (1, (1, 1)).

Definition carries (m : Z) : Z := if m <=? 2 then 1 else 0.

Definition pair_eqb (p q : Z * Z) : bool := (fst p =? fst q) && (snd p =? snd q).

Lemma pair_eqb_true p q : pair_eqb p q = true -> p = q.
Proof. destruct p, q. unfold pair_eqb. cbn. intros [->%Z.eqb_eq ->%Z.eqb_eq]%andb_true_iff. done. Qed.

Definition day_ok (leap : bool) (doy : Z) : bool :=
  let md := month_day doy in
  let (c, md') := next_month_day leap md in
  if doy <? (if leap then 365 else 364) then
    pair_eqb md' (month_day (doy + 1)) && (carries (fst md) + c =? carries (fst (month_day (doy + 1))))
  else pair_eqb md' (3, 1) && (carries (fst md) + c =? 1).

Lemma days_ok (leap : bool) (doy : Z) : 0 <= doy < (if leap then 366 else 365) -> day_ok leap doy = true.
Proof.
  destruct leap; [apply (upto_all (day_ok true) 366)|apply (upto_all (day_ok false) 365)];
    vm_compute; reflexivity.
Qed.

(** The leap year a date of a March year is in matters in February only, which
    is in the next year. *)
Lemma month_length_leap y m :
  1 <= m -> month_length (leap_year (if m <=? 2 then y + 1 else y)) m = month_length (leap_year (y + 1)) m.
Proof.
  intros Hm. unfold month_length. destruct (Z.leb_spec m 2), (Z.eqb_spec m 2); subst; try done.
Qed.

Lemma month_day_first doy : 0 <= doy < 366 -> 1 <= fst (month_day doy).
Proof.
  intros Hd. apply Z.leb_le, (upto_all (fun d => 1 <=? fst (month_day d)) 366); [|exact Hd].
  vm_compute. reflexivity.
Qed.

Lemma next_day_march y doy :
  0 <= doy < (if leap_year (y + 1) then 366 else 365) ->
  next_day (march_date y doy)
  = if doy + 1 <? (if leap_year (y + 1) then 366 else 365) then march_date y (doy + 1)
    else march_date (y + 1) 0.
Proof.
  intros Hd. pose proof (days_ok (leap_year (y + 1)) doy Hd) as H.
  assert (1 <= fst (month_day doy)) as Hm
    by (apply month_day_first; destruct (leap_year (y + 1)); lia).
  unfold march_date, day_ok, next_month_day, carries in *. change (month_day 0) with (3, 1).
  destruct (month_day doy) as [m d]. cbn [fst] in *. unfold next_day. rewrite month_length_leap by done.
  destruct (month_day (doy + 1)) as [m' d']. cbn [fst] in *.
  destruct (leap_year (y + 1)); set (len := month_length _ _) in *; clearbody len;
  repeat (case_match; simplify_eq); unfold pair_eqb in *; cbn [fst snd] in *;
    rewrite ?Z.leb_le, ?Z.leb_gt, ?Z.ltb_lt, ?Z.ltb_ge in *;
    repeat match goal with H : (_ && _)%bool = true |- _ => apply andb_true_iff in H as [? ?] end;
    rewrite ?Z.eqb_eq in *; simplify_eq; try lia; repeat f_equal; lia.
Qed.

(** The day [n] is the day [doy] of the year [yoe] of the era. *)
Definition at_day (n era yoe doy : Z) : Prop :=
  n + 719468 = era * 146097 + year_start yoe + doy /\ 0 <= era /\ 0 <= yoe < 400 /\ 0 <= doy < year_length yoe.

Lemma civil_at_day n era yoe doy :
  at_day n era yoe doy -> civil_from_days n = march_date (yoe + era * 400) doy.
Proof.
  intros (En & He & Hy & Hd). pose proof (year_start_range yoe Hy) as [Hs Hl].
  unfold civil_from_days, march_date, month_day. rewrite (proj2 (Z.leb_le 0 (n + 719468))) by lia.
  rewrite Z.quot_div_nonneg by lia.
  replace ((n + 719468) / 146097) with era
    by (apply Z.div_unique with (r := year_start yoe + doy); lia).
  replace (n + 719468 - era * 146097) with (year_start yoe + doy) by lia.
  pose proof (year_of_day yoe doy Hy Hd) as Ey. unfold year_of in Ey. rewrite Ey.
  fold (year_start yoe). by replace (year_start yoe + doy - year_start yoe) with doy by lia.
Qed.

Lemma leap_year_era yoe era : leap_year (yoe + era * 400 + 1) = leap_year (yoe + 1).
Proof.
  unfold leap_year. replace (yoe + era * 400 + 1) with (yoe + 1 + era * 400) by lia.
  rewrite (Z.mod_add (yoe + 1) era 400) by lia.
  replace (era * 400) with (era * 100 * 4) at 1 by lia. rewrite Z.mod_add by lia.
  replace (era * 400) with (era * 4 * 100) by lia. by rewrite Z.mod_add by lia.
Qed.

Lemma year_turns era yoe doy n :
  at_day n era yoe doy -> doy + 1 = year_length yoe ->
  exists era' yoe', at_day (n + 1) era' yoe' 0 /\ yoe' + era' * 400 = yoe + era * 400 + 1.
Proof.
  intros (En & He & Hy & Hd) Hl. destruct (decide (yoe = 399)) as [->|].
  - exists (era + 1), 0. pose proof year_last. pose proof (year_length_pos 0).
    repeat split; try lia. change (year_start 0) with 0. lia.
  - exists era, (yoe + 1). pose proof (year_next yoe ltac:(lia)). pose proof (year_length_pos (yoe + 1)).
    repeat split; lia.
Qed.

Lemma calendar_at_day n :
  exists era yoe doy, at_day (Z.of_nat n) era yoe doy /\ calendar n = march_date (yoe + era * 400) doy.
Proof.
  induction n as [|n (era & yoe & doy & Hat & E)].
  - exists 4, 369, 306. split; [|reflexivity]. repeat split; try lia; reflexivity.
  - unfold calendar in *. rewrite Nat.iter_succ, E. replace (Z.of_nat (S n)) with (Z.of_nat n + 1) by lia.
    pose proof (leap_year_era yoe era) as El. pose proof Hat as (En & He & Hy & Hd).
    rewrite next_day_march by (rewrite El; exact Hd). rewrite El. fold (year_length yoe).
    destruct (Z.ltb_spec (doy + 1) (year_length yoe)) as [Hlt|Hge].
    + exists era, yoe, (doy + 1). repeat split; lia.
    + destruct (year_turns era yoe doy (Z.of_nat n) Hat ltac:(lia)) as (era' & yoe' & Hat' & Ey).
      exists era', yoe', 0. by rewrite Ey.
Qed.

Lemma civil_is_calendar n : civil_from_days (Z.of_nat n) = calendar n.
Proof.
  destruct (calendar_at_day n) as (era & yoe & doy & Hat & ->). by apply civil_at_day.
Qed.

(** *** The years that fit the text *)

Lemma next_day_year d : fst (fst d) <= fst (fst (next_day d)).
Proof. destruct d as [[y m] d]. unfold next_day. repeat case_match; cbn [fst]; lia. Qed.

Lemma calendar_year_mono n k : fst (fst (calendar n)) <= fst (fst (calendar (n + k))).
Proof.
  induction k as [|k IH]; [rewrite Nat.add_0_r; lia|]. rewrite Nat.add_succ_r. unfold calendar in *.
  rewrite Nat.iter_succ. etransitivity; [exact IH|apply next_day_year].
Qed.

Definition days_9999 : Z := 2932896.

Lemma calendar_year_bounds n :
  1970 <= fst (fst (calendar n)) /\ (fst (fst (calendar n)) <= 9999 <-> Z.of_nat n <= days_9999).
Proof.
  split; [exact (calendar_year_mono 0 n)|]. unfold days_9999. split; intros H.
  - destruct (decide (Z.of_nat n <= 2932896)) as [|Hn]; [done|].
    pose proof (calendar_year_mono (Z.to_nat 2932897) (n - Z.to_nat 2932897)) as Hm.
    rewrite <- (civil_is_calendar (Z.to_nat 2932897)), Z2Nat.id in Hm by lia.
    replace (Z.to_nat 2932897 + (n - Z.to_nat 2932897))%nat with n in Hm by lia.
    change (fst (fst (civil_from_days 2932897))) with 10000 in Hm. lia.
  - pose proof (calendar_year_mono n (Z.to_nat 2932896 - n)) as Hm.
    replace (n + (Z.to_nat 2932896 - n))%nat with (Z.to_nat 2932896) in Hm by lia.
    rewrite <- (civil_is_calendar (Z.to_nat 2932896)), Z2Nat.id in Hm by lia.
    change (fst (fst (civil_from_days 2932896))) with 9999 in Hm. lia.
Qed.

Lemma next_day_ok (d : date) :
  (1 <= snd (fst d) <= 12 /\ 1 <= snd d <= 31) ->
  1 <= snd (fst (next_day d)) <= 12 /\ 1 <= snd (next_day d) <= 31.
Proof.
  destruct d as [[y m] d]. unfold next_day, month_length. cbn [fst snd]. intros H.
  repeat (case_match; rewrite ?Z.ltb_lt, ?Z.ltb_ge in *; cbn [fst snd]); lia.
Qed.

Lemma calendar_ok n : 1 <= snd (fst (calendar n)) <= 12 /\ 1 <= snd (calendar n) <= 31.
Proof.
  induction n as [|n IH]; [cbn; lia|]. unfold calendar. rewrite Nat.iter_succ. by apply next_day_ok.
Qed.

(** ** Reading a timestamp *)

(** A number of [w] digits after the number [acc]. *)
Fixpoint read_fixed (w : nat) (acc : Z) (s : string) : option (Z * string) :=
  match w with
  | O => Some (acc, s)
  | S w =>
      match s with
      | String c s => if is_ascii_digit c then read_fixed w (acc * 10 + digit_val c) s else None
      | EmptyString => None
      end
  end.

Definition read_field (w : nat) (stop : ascii) (s : string) : option (Z * string) :=
  let! (x, s) := read_fixed w 0 s in
  let! s := strip_prefix_char stop s in
  Some (x, s).

(** The date and the milliseconds since its midnight. *)
Definition read_rfc3339 (s : string) : option (date * Z) :=
  let! (y, s) := read_field 4 "-" s in
  let! (m, s) := read_field 2 "-" s in
  let! (d, s) := read_field 2 "T" s in
  let! (h, s) := read_field 2 ":" s in
  let! (mi, s) := read_field 2 ":" s in
  let! (sec, s) := read_field 2 "." s in
  let! (ms, s) := read_field 3 "Z" s in
  if String.eqb s "" then Some ((y, m, d), ((h * 60 + mi) * 60 + sec) * 1000 + ms) else None.

Lemma app_char c s : String c "" +:+ s = String c s.
Proof. reflexivity. Qed.

Lemma app_nil_str s : "" +:+ s = s.
Proof. reflexivity. Qed.

Lemma read_fixed_pad w : forall k n acc s,
  0 <= n ->
  read_fixed (w + k) acc (pad_dec w n s) = read_fixed k (acc * 10 ^ Z.of_nat w + n mod 10 ^ Z.of_nat w) s.
Proof.
  induction w as [|w IH]; intros k n acc s Hn.
  - cbn [pad_dec Nat.add]. rewrite Z.mod_1_r. f_equal. cbn. lia.
  - cbn [pad_dec]. rewrite Nat.add_succ_comm, IH by (apply Z.div_pos; lia). cbn [read_fixed].
    pose proof (Z.mod_pos_bound n 10 ltac:(lia)).
    rewrite digit_char_digit, digit_val_char by done. rewrite pow10_S. f_equal.
    rewrite (Z.rem_mul_r n 10) by (try apply Z.pow_pos_nonneg; lia). lia.
Qed.

Lemma pad_dec_app w : forall n s t, pad_dec w n (s +:+ t) = pad_dec w n s +:+ t.
Proof. induction w as [|w IH]; intros n s t; [done|]. cbn [pad_dec]. by rewrite <- IH. Qed.

Lemma length_pad_dec w : forall n s, String.length (pad_dec w n s) = (w + String.length s)%nat.
Proof.
  induction w as [|w IH]; intros n s; [done|]. cbn [pad_dec]. rewrite IH. cbn [String.length]. lia.
Qed.

Lemma show_padded_pad w n : n < 10 ^ Z.of_nat w -> show_padded w n = pad_dec w n "".
Proof. intros Hn. unfold show_padded. by rewrite (proj2 (Z.ltb_lt _ _) Hn). Qed.

Lemma read_field_pad w n stop s :
  0 <= n < 10 ^ Z.of_nat w ->
  read_field w stop (show_padded w n +:+ String stop s) = Some (n, s).
Proof.
  intros Hn. rewrite show_padded_pad by lia. unfold read_field.
  pose proof (read_fixed_pad w 0 n 0 (String stop s) ltac:(lia)) as E.
  rewrite Nat.add_0_r, Z.mod_small in E by lia. cbn [read_fixed] in E.
  rewrite <- pad_dec_app. change ("" +:+ String stop s) with (String stop s). rewrite E.
  cbn [strip_prefix_char]. by rewrite Ascii.eqb_refl.
Qed.

(** What the fields of the text are. *)
Definition rfc3339_text (d : date) (ms : Z) : string :=
  let '(year, month, day) := d in
  let s := ms / 1000 in
  show_padded 4 year +:+ "-" +:+ show_padded 2 month +:+ "-" +:+ show_padded 2 day +:+ "T"
    +:+ show_padded 2 (s / 3600) +:+ ":" +:+ show_padded 2 (s mod 3600 / 60) +:+ ":"
    +:+ show_padded 2 (s mod 60) +:+ "." +:+ show_padded 3 (ms mod 1000) +:+ "Z".

Definition date_fits (d : date) : Prop :=
  0 <= fst (fst d) <= 9999 /\ 1 <= snd (fst d) <= 12 /\ 1 <= snd d <= 31.

Ltac field_bound := split; [|cbn]; Z.to_euclidean_division_equations; lia.

Lemma read_rfc3339_text d ms :
  date_fits d -> 0 <= ms < 86400000 -> read_rfc3339 (rfc3339_text d ms) = Some (d, ms).
Proof.
  destruct d as [[y m] d]. intros (Hy & Hm & Hd) Hms. cbn [fst snd] in *. unfold read_rfc3339, rfc3339_text.
  rewrite !app_char.
  rewrite (read_field_pad 4) by (cbn; lia). rewrite (read_field_pad 2) by (cbn; lia).
  rewrite (read_field_pad 2) by (cbn; lia).
  rewrite (read_field_pad 2) by field_bound. rewrite (read_field_pad 2) by field_bound.
  rewrite (read_field_pad 2) by field_bound. rewrite (read_field_pad 3) by field_bound.
  cbn [String.eqb]. do 2 f_equal. Z.to_euclidean_division_equations. lia.
Qed.

Lemma rfc3339_text_length d ms :
  date_fits d -> 0 <= ms < 86400000 -> String.length (rfc3339_text d ms) = 24%nat.
Proof.
  destruct d as [[y m] d]. intros (Hy & Hm & Hd) Hms. cbn [fst snd] in *. unfold rfc3339_text.
  rewrite !length_app_str, !show_padded_pad, !length_pad_dec by (cbn; Z.to_euclidean_division_equations; lia).
  reflexivity.
Qed.

Definition day_nanos : Z := 86400000000000.

Lemma format_is_text ts :
  0 <= ts ->
  let text := rfc3339_text (calendar (Z.to_nat (ts / day_nanos))) (ts mod day_nanos / 1000000) in
  format_rfc3339_millis_array ts
  = if (24 <? String.length text)%nat then None
    else Some (Ok (text +:+ zero_bytes (24 - String.length text))).
Proof.
  intros Ht text. subst text. unfold format_rfc3339_millis_array, since_epoch, rfc3339_text.
  rewrite (proj2 (Z.ltb_ge ts 0)) by done. rewrite <- civil_is_calendar, Z2Nat.id by (apply Z.div_pos; unfold day_nanos; lia).
  replace (ts / 1000000000 / 86400) with (ts / day_nanos)
    by (unfold day_nanos; rewrite Z.div_div; [done|lia..]).
  assert (E1 : ts mod day_nanos / 1000000 / 1000 = ts / 1000000000 mod 86400)
    by (unfold day_nanos; Z.to_euclidean_division_equations; lia).
  assert (E2 : (ts mod day_nanos / 1000000) mod 1000 = ts mod 1000000000 / 1000000)
    by (unfold day_nanos; Z.to_euclidean_division_equations; lia).
  rewrite E1, E2. destruct (civil_from_days _) as [[y m] d]. reflexivity.
Qed.

(** A later year does not fit. *)
Lemma length_dec_digits f : forall n acc,
  (0 < f)%nat -> 0 <= n < 10 ^ Z.of_nat f ->
  exists len, String.length (dec_digits f n acc) = (len + String.length acc)%nat /\ n < 10 ^ Z.of_nat len.
Proof.
  induction f as [|f IH]; intros n acc Hf Hn; [lia|]. cbn [dec_digits]. rewrite pow10_S in Hn.
  destruct (Z.ltb_spec n 10) as [Hs|Hb]; [by exists 1%nat|].
  assert (0 < n / 10 < 10 ^ Z.of_nat f)
    by (split; [apply Z.div_str_pos|apply Z.div_lt_upper_bound]; lia).
  destruct (IH (n / 10) (String (digit_char (n mod 10)) acc)) as (len & E & Hl).
  { destruct f; simpl in *; lia. }
  { lia. }
  exists (S len). rewrite E, pow10_S. cbn [String.length]. split; [lia|].
  pose proof (Z_div_mod_eq_full n 10). pose proof (Z.mod_pos_bound n 10 ltac:(lia)). lia.
Qed.

Lemma long_year y : 10000 <= y -> (5 <= String.length (show_padded 4 y))%nat.
Proof.
  intros Hy. unfold show_padded. rewrite (proj2 (Z.ltb_ge _ _)) by exact Hy. unfold show_nat.
  destruct (length_dec_digits (S (Z.to_nat (Z.log2 y))) y "") as (len & -> & Hl).
  { lia. }
  { split; [lia|]. apply show_nat_enough. lia. }
  destruct (decide (5 <= len)%nat) as [|Hn]; [cbn [String.length]; lia|].
  assert (10 ^ Z.of_nat len <= 10 ^ 4) by (apply Z.pow_le_mono_r; lia).
  change (10 ^ 4) with 10000 in *. lia.
Qed.

Lemma long_year_text y m d ms :
  10000 <= y -> 1 <= m <= 12 -> 1 <= d <= 31 -> 0 <= ms < 86400000 ->
  (24 < String.length (rfc3339_text (y, m, d) ms))%nat.
Proof.
  intros Hy Hm Hd Hms. pose proof (long_year y Hy). unfold rfc3339_text.
  rewrite !length_app_str, (show_padded_pad 2 m), (show_padded_pad 2 d), (show_padded_pad 2 (_ / 3600)),
    (show_padded_pad 2 (_ / 60)), (show_padded_pad 2 (_ mod 60)), (show_padded_pad 3), !length_pad_dec
    by (cbn; Z.to_euclidean_division_equations; lia).
  cbn [String.length]. lia.
Qed.

Lemma format_rfc3339_aux ts :
  0 <= ts ->
  format_rfc3339_millis_array ts
  = if ts / day_nanos <=? days_9999
    then Some (Ok (rfc3339_text (calendar (Z.to_nat (ts / day_nanos))) (ts mod day_nanos / 1000000)))
    else None.
Proof.
  intros Ht. rewrite format_is_text by done. cbv zeta.
  assert (Hms : 0 <= ts mod day_nanos / 1000000 < 86400000)
    by (unfold day_nanos; Z.to_euclidean_division_equations; lia).
  assert (Hq : 0 <= ts / day_nanos) by (apply Z.div_pos; unfold day_nanos; lia).
  set (n := Z.to_nat (ts / day_nanos)). pose proof (calendar_ok n) as [Hm Hd].
  pose proof (calendar_year_bounds n) as [Hlow Hhigh]. replace (ts / day_nanos) with (Z.of_nat n) by lia.
  destruct (Z.leb_spec (Z.of_nat n) days_9999) as [Hle|Hgt].
  - assert (date_fits (calendar n)) by (split; [lia|done]).
    rewrite rfc3339_text_length by done. cbn [Nat.ltb Nat.leb Nat.sub zero_bytes]. by rewrite app_empty_r.
  - destruct (calendar n) as [[y m] d]. cbn [fst snd] in *.
    pose proof (long_year_text y m d _ ltac:(lia) Hm Hd Hms) as Hlong.
    by rewrite (proj2 (Nat.ltb_lt _ _) Hlong).
Qed.

(** The timestamp of a text event, from the epoch on, is formatted as
    exactly 24 characters that a reader of RFC 3339 gets the date and the
    millisecond of the day back from, the date being the one the Gregorian
    calendar reaches after that many days from 1970-01-01, as long as its year
    is 9999 at most; from the first instant of the year 10000 on the formatting
    panics. *)
Theorem rfc3339_is_calendar ts :
  0 <= ts ->
  if ts <? 253402300800 * 1000000000 then
    exists text, format_rfc3339_millis_array ts = Some (Ok text) /\ String.length text = 24%nat /\
      read_rfc3339 text
      = Some (calendar (Z.to_nat (ts / day_nanos)), ts mod day_nanos / 1000000)
  else format_rfc3339_millis_array ts = None.
Proof.
  intros Ht. rewrite format_rfc3339_aux by done.
  assert (Hms : 0 <= ts mod day_nanos / 1000000 < 86400000)
    by (unfold day_nanos; Z.to_euclidean_division_equations; lia).
  destruct (Z.ltb_spec ts (253402300800 * 1000000000)) as [Hlt|Hge];
    destruct (Z.leb_spec (ts / day_nanos) days_9999) as [Hle|Hgt].
  - assert (Hf : date_fits (calendar (Z.to_nat (ts / day_nanos)))).
    { split; [|apply calendar_ok]. pose proof (calendar_year_bounds (Z.to_nat (ts / day_nanos))).
      pose proof (Z.div_pos ts day_nanos Ht ltac:(unfold day_nanos; lia)). lia. }
    eexists. split; [done|]. split; [by apply rfc3339_text_length|by apply read_rfc3339_text].
  - exfalso. unfold day_nanos, days_9999 in *. Z.to_euclidean_division_equations. lia.
  - exfalso. unfold day_nanos, days_9999 in *. Z.to_euclidean_division_equations. lia.
  - done.
Qed.

Lemma rfc3339_is_calendar_witness :
  exists text, format_rfc3339_millis_array (1709164800123 * 1000000) = Some (Ok text) /\
    String.length text = 24%nat /\
    read_rfc3339 text
    = Some (calendar (Z.to_nat (1709164800123 * 1000000 / day_nanos)),
            (1709164800123 * 1000000) mod day_nanos / 1000000).
Proof. apply (rfc3339_is_calendar (1709164800123 * 1000000)). lia. Defined.
