(* ===== verification/TextEncoders.v ===== *)
(** * TextEncoders: the line formats (encoder/prometheus.rs, encoder/influx.rs,
    encoder/mod.rs)

    The encoders that write one line per event into a buffer. A Prometheus line
    is read back by a reader of the exposition format, whatever the label
    values hold, and never spans two lines; an InfluxDB line is not, when a
    label value holds a newline ([influx_line_breaks]). *)

From Stdlib Require Import ZArith Lia Ascii.
From stdpp Require Import prelude strings list numbers.
From S2P Require Import Prelude Text Metric F64 Windows Durations SinkIo Rounding FloatText Binary64.
From S2P Require Import ParseDuration Generators CsvReplay Timing CivilDate.

(** ** Encoders *)

(** [write_value]. *)
Definition write_value (buf : string) (value : f64) (precision : option Z) : string :=
  match precision with
  | None => buf +:+ show_f64 value
  | Some n => buf +:+ show_f64_prec value n
  end.

Definition backslash : ascii := ascii_of_N 92.
Definition quote_char : ascii := ascii_of_N 34.

(** [escape_label_value] and [escape_help_text], what they append. *)
Fixpoint escape_label_value (value : string) : string :=
  match value with
  | EmptyString => EmptyString
  | String c value =>
      (if Ascii.eqb c backslash then String backslash (String backslash EmptyString)
       else if Ascii.eqb c quote_char then String backslash (String quote_char EmptyString)
       else if Ascii.eqb c newline then String backslash "n"
       else String c EmptyString) +:+ escape_label_value value
  end.

Fixpoint escape_help_text (value : string) : string :=
  match value with
  | EmptyString => EmptyString
  | String c value =>
      (if Ascii.eqb c backslash then String backslash (String backslash EmptyString)
       else if Ascii.eqb c newline then String backslash "n"
       else String c EmptyString) +:+ escape_help_text value
  end.

(** [PrometheusText]. *)
Record PrometheusText := mk_prometheus { precision : option Z; emit_timestamp : bool }.

(** The loop over the labels. *)
Fixpoint write_labels (labels : list (string * string)) (first : bool) (buf : string) : string :=
  match labels with
  | [] => buf
  | (key, value) :: labels =>
      let buf := if first then buf else buf +:+ "," in
      write_labels labels false
        (buf +:+ key +:+ "=" +:+ str_quote +:+ escape_label_value value +:+ str_quote)
  end.

(** [PrometheusText::encode_metric]: the buffer, also when it fails. *)
Definition prometheus_encode_metric (enc : PrometheusText) (event : MetricEvent) (buf : string)
  : string * result unit SondaError :=
  let buf := buf +:+ ev_name event in
  let buf :=
    match labels_iter (ev_labels event) with
    | [] => buf
    | labels => write_labels labels true (buf +:+ "{") +:+ "}"
    end in
  let buf := buf +:+ " " in
  let buf := write_value buf (ev_value event) (precision enc) in
  if emit_timestamp enc then
    match since_epoch (ev_timestamp event) with
    | Err e => (buf, Err e)
    | Ok nanos =>
        let timestamp_ms := nanos / 1000000 in
        (buf +:+ " " +:+ show_nat timestamp_ms +:+ String newline "", Ok tt)
    end
  else (buf +:+ String newline "", Ok tt).

(** [PromMetricType] and its [as_str]. *)
Inductive PromMetricType := Gauge | Counter | Histogram | Summary | Untyped.

Definition metric_type_str (t : PromMetricType) : string :=
  match t with
  | Gauge => "gauge" | Counter => "counter" | Histogram => "histogram" | Summary => "summary"
  | Untyped => "untyped"
  end.

(** [PrometheusText::encode_metadata]. *)
Definition prometheus_encode_metadata (name : string) (metric_type : PromMetricType)
    (help : option string) (buf : string) : string :=
  let buf :=
    match help with
    | Some h => buf +:+ "# HELP " +:+ name +:+ " " +:+ escape_help_text h +:+ String newline ""
    | None => buf
    end in
  buf +:+ "# TYPE " +:+ name +:+ " " +:+ metric_type_str metric_type +:+ String newline "".

(** [escape_tag]. *)
Fixpoint escape_tag (s : string) : string :=
  match s with
  | EmptyString => EmptyString
  | String c s =>
      if Ascii.eqb c ","%char || Ascii.eqb c " "%char || Ascii.eqb c "="%char
      then String backslash (String c (escape_tag s)) else String c (escape_tag s)
  end.

(** [InfluxLineProtocol] and its [new]. *)
Record InfluxLineProtocol := mk_influx { field_key_escaped : string; influx_precision : option Z }.

Definition influx_new (field_key : option string) (precision : option Z) : InfluxLineProtocol :=
  mk_influx (escape_tag (default "value" field_key)) precision.

Fixpoint write_tags (labels : list (string * string)) (first : bool) (buf : string) : string :=
  match labels with
  | [] => buf
  | (key, value) :: labels =>
      let buf := if first then buf else buf +:+ "," in
      write_tags labels false (buf +:+ escape_tag key +:+ "=" +:+ escape_tag value)
  end.

(** [InfluxLineProtocol::encode_metric]. *)
Definition influx_encode_metric (enc : InfluxLineProtocol) (event : MetricEvent) (buf : string)
  : string * result unit SondaError :=
  let buf := buf +:+ escape_tag (ev_name event) in
  let buf :=
    match labels_iter (ev_labels event) with
    | [] => buf
    | labels => write_tags labels true (buf +:+ ",")
    end in
  let buf := buf +:+ " " +:+ field_key_escaped enc +:+ "=" in
  let buf := write_value buf (ev_value event) (influx_precision enc) in
  match since_epoch (ev_timestamp event) with
  | Err e => (buf, Err e)
  | Ok timestamp_ns => (buf +:+ " " +:+ show_nat timestamp_ns +:+ String newline "", Ok tt)
  end.

Example ex_event : MetricEvent :=
  mk_event "interface_oper_state" (num 1)
    (mk_labels [("hostname", "t0-a1"); ("zone", "a" +:+ str_quote +:+ String newline "b")])
    (1700000000000 * 1000000).
Example prometheus_line :
  prometheus_encode_metric (mk_prometheus None true) ex_event ""
  = ("interface_oper_state{hostname=" +:+ str_quote +:+ "t0-a1" +:+ str_quote +:+ ",zone=" +:+ str_quote
      +:+ "a" +:+ String backslash str_quote +:+ String backslash "nb" +:+ str_quote
      +:+ "} 1 1700000000000" +:+ String newline "", Ok tt).
Proof. vm_compute. reflexivity. Qed.
Example influx_line :
  influx_encode_metric (influx_new None (Some 2))
    (mk_event "disk use" (num 3) (mk_labels [("path", "a,b=c")]) 5) ""
  = ("disk" +:+ String backslash " use,path=a" +:+ String backslash ",b" +:+ String backslash "=c value=3.00 5"
      +:+ String newline "", Ok tt).
Proof. vm_compute. reflexivity. Qed.

(** ** A reader of Prometheus lines *)

(** The text up to the first of the stops, and the rest from it on. *)
Fixpoint take_until (stop : ascii -> bool) (s : string) : string * string :=
  match s with
  | EmptyString => (EmptyString, EmptyString)
  | String c s' =>
      if stop c then (EmptyString, s)
      else let (a, b) := take_until stop s' in (String c a, b)
  end.

(** A quoted label value after its opening quote. *)
Fixpoint unescape_value (s : string) : option (string * string) :=
  match s with
  | EmptyString => None
  | String c s =>
      if Ascii.eqb c quote_char then Some (EmptyString, s)
      else if Ascii.eqb c backslash then
        match s with
        | EmptyString => None
        | String d s =>
            let! x :=
              if Ascii.eqb d "n"%char then Some newline
              else if Ascii.eqb d backslash || Ascii.eqb d quote_char then Some d else None in
            let! (v, rest) := unescape_value s in
            Some (String x v, rest)
        end
      else
        let! (v, rest) := unescape_value s in
        Some (String c v, rest)
  end.

Fixpoint read_labels (fuel : nat) (s : string) : option (list (string * string) * string) :=
  match fuel with
  | O => None
  | S fuel =>
      let (key, rest) := take_until (fun c => Ascii.eqb c "="%char) s in
      match rest with
      | String _ (String q rest) =>
          if negb (Ascii.eqb q quote_char) then None
          else
            let! (value, rest) := unescape_value rest in
            match rest with
            | String c rest =>
                if Ascii.eqb c ","%char then
                  let! (labels, rest) := read_labels fuel rest in
                  Some ((key, value) :: labels, rest)
                else if Ascii.eqb c "}"%char then Some ([(key, value)], rest)
                else None
            | EmptyString => None
            end
      | _ => None
      end
  end.

(** A sample: name, labels, value and the timestamp in milliseconds. *)
Record Sample := mk_sample {
  s_name : string;
  s_labels : list (string * string);
  s_value : f64;
  s_timestamp : option Z;
}.

(** The value and the timestamp, after the space. *)
Definition read_value (s : string) : option (f64 * option Z) :=
  match split_once " "%char s with
  | Some (value, timestamp) =>
      let! v := parse_f64 value in
      let '(t, digits, rest) := take_digits 0 0 timestamp in
      if (digits =? 0)%nat || negb (String.eqb rest "") then None else Some (v, Some t)
  | None => let! v := parse_f64 s in Some (v, None)
  end.

(** A line without its newline. *)
Definition read_sample (line : string) : option Sample :=
  let (name, rest) := take_until (fun c => Ascii.eqb c "{"%char || Ascii.eqb c " "%char) line in
  match rest with
  | String c rest =>
      let! (labels, rest) :=
        if Ascii.eqb c "{"%char then
          let! (labels, rest) := read_labels (String.length rest) rest in
          let! rest := strip_prefix_char " "%char rest in
          Some (labels, rest)
        else Some ([], rest) in
      let! (value, timestamp) := read_value rest in
      Some (mk_sample name labels value timestamp)
  | EmptyString => None
  end.

(** ** Lines read back *)

Lemma take_until_app stop a c rest :
  str_all (fun d => negb (stop d)) a = true -> stop c = true ->
  take_until stop (a +:+ String c rest) = (a, String c rest).
Proof.
  induction a as [|d a IH]; intros Ha Hc.
  - change ("" +:+ String c rest) with (String c rest). cbn [take_until]. by rewrite Hc.
  - rewrite app_cons_str. cbn [str_all] in Ha. apply andb_true_iff in Ha as [Hd%negb_true_iff Ha].
    cbn [take_until]. by rewrite Hd, IH.
Qed.

Lemma str_all_no_char p c s : p c = false -> str_all p s = true -> str_contains c s = false.
Proof.
  intros Hc. induction s as [|d s IH]; [done|]. cbn [str_all str_contains].
  intros [Hd Hs]%andb_true_iff. rewrite IH by done.
  destruct (Ascii.eqb_spec d c) as [->|]; [congruence|done].
Qed.

(** The characters of a printed double. *)
Definition number_char (c : ascii) : bool :=
  decimal_char c || Ascii.eqb c "-"%char || is_ascii_alphabetic c.

Lemma decimal_number s : str_all decimal_char s = true -> str_all number_char s = true.
Proof. apply str_all_weaken. intros c Hc. unfold number_char. by rewrite Hc. Qed.

Lemma show_nat_digits n : 0 <= n -> str_all is_ascii_digit (show_nat n) = true.
Proof. intros Hn. by apply dec_digits_all. Qed.

Lemma show_f64_chars x : is_u64 x -> str_all number_char (show_f64 x) = true.
Proof.
  intros Hx. unfold show_f64. destruct (is_nan x) eqn:Hn; [done|]. rewrite str_all_app.
  apply andb_true_iff. split; [by destruct (sign x)|].
  destruct (Z.eqb_spec (magnitude x) inf_bits) as [|Hi]; [done|].
  pose proof (magnitude_bound x Hx). unfold is_nan in Hn. apply Z.ltb_ge in Hn.
  destruct (show_magnitude_reads (magnitude x) ltac:(lia)) as (t & p & Ht & -> & _).
  by apply decimal_number, show_decimal_chars.
Qed.

(** The number read back: a NaN has one text. *)
Definition canonical (x : f64) : f64 := if is_nan x then f64_nan else x.

Lemma read_shown x : is_u64 x -> parse_f64 (show_f64 x) = Some (canonical x).
Proof.
  intros Hx. unfold canonical. destruct (is_nan x) eqn:Hn; [|by apply parse_show_f64].
  unfold show_f64. rewrite Hn. vm_compute. reflexivity.
Qed.

(** *** Labels *)

Lemma unescape_escaped v rest :
  unescape_value (escape_label_value v +:+ String quote_char rest) = Some (v, rest).
Proof.
  induction v as [|c v IH]; [done|]. cbn [escape_label_value].
  destruct (Ascii.eqb_spec c backslash) as [->|Hb].
  { rewrite app_assoc_str, !app_cons_str. cbn [unescape_value].
    change (Ascii.eqb backslash quote_char) with false. change (Ascii.eqb backslash backslash) with true.
    change (Ascii.eqb backslash "n") with false. cbn [orb].
    rewrite ?app_nil_str. by rewrite IH. }
  destruct (Ascii.eqb_spec c quote_char) as [->|Hq].
  { rewrite app_assoc_str, !app_cons_str. cbn [unescape_value].
    change (Ascii.eqb backslash quote_char) with false. change (Ascii.eqb backslash backslash) with true.
    change (Ascii.eqb quote_char "n") with false. change (Ascii.eqb quote_char backslash) with false.
    change (Ascii.eqb quote_char quote_char) with true. cbn [orb].
    rewrite ?app_nil_str. by rewrite IH. }
  destruct (Ascii.eqb_spec c newline) as [->|Hl].
  { rewrite app_assoc_str, !app_cons_str. cbn [unescape_value].
    change (Ascii.eqb backslash quote_char) with false. change (Ascii.eqb backslash backslash) with true.
    change (Ascii.eqb "n" "n") with true. rewrite ?app_nil_str. by rewrite IH. }
  rewrite app_assoc_str, app_cons_str. cbn [unescape_value].
  destruct (Ascii.eqb_spec c quote_char); [done|]. destruct (Ascii.eqb_spec c backslash); [done|].
  rewrite ?app_nil_str. by rewrite IH.
Qed.

Lemma escaped_no_newline v : str_contains newline (escape_label_value v) = false.
Proof.
  induction v as [|c v IH]; [done|]. cbn [escape_label_value]. rewrite str_contains_app, IH, orb_false_r.
  destruct (Ascii.eqb c backslash); [done|]. destruct (Ascii.eqb c quote_char); [done|].
  destruct (Ascii.eqb c newline) eqn:E; [done|]. cbn [str_contains]. by rewrite E.
Qed.

Definition label_text (p : string * string) : string :=
  p.1 +:+ "=" +:+ str_quote +:+ escape_label_value p.2 +:+ str_quote.

Definition labels_text (labels : list (string * string)) : string :=
  match labels with [] => "" | _ => "{" +:+ join "," (map label_text labels) +:+ "}" end.

Lemma labels_join p q labels :
  join "," (map label_text (p :: q :: labels))
  = label_text p +:+ "," +:+ join "," (map label_text (q :: labels)).
Proof. reflexivity. Qed.

Lemma write_labels_text labels : forall buf,
  write_labels labels false buf
  = buf +:+ match labels with [] => "" | _ => "," +:+ join "," (map label_text labels) end.
Proof.
  induction labels as [|[k v] labels IH]; intros buf; cbn [write_labels].
  { by rewrite app_empty_r. }
  rewrite IH. destruct labels as [|q labels].
  - cbn [map join]. unfold label_text. cbn [fst snd]. by rewrite app_empty_r, ?app_assoc_str.
  - rewrite labels_join. unfold label_text at 2. cbn [fst snd]. by rewrite !app_assoc_str.
Qed.

Lemma write_labels_first k v labels buf :
  write_labels ((k, v) :: labels) true buf = buf +:+ join "," (map label_text ((k, v) :: labels)).
Proof.
  cbn [write_labels]. rewrite write_labels_text. destruct labels as [|q labels].
  - cbn [map join]. unfold label_text. cbn [fst snd]. by rewrite app_empty_r, ?app_assoc_str.
  - rewrite labels_join. unfold label_text at 2. cbn [fst snd]. by rewrite !app_assoc_str.
Qed.

Lemma key_chars k :
  is_valid_label_key k = true -> str_all (fun d => negb (Ascii.eqb d "="%char)) k = true.
Proof.
  destruct k as [|c k]; [done|]. cbn [is_valid_label_key str_all]. intros [Hc Hk]%andb_true_iff.
  apply andb_true_iff. split.
  - destruct (Ascii.eqb_spec c "="%char) as [->|]; done.
  - revert Hk. apply str_all_weaken. intros d Hd. destruct (Ascii.eqb_spec d "="%char) as [->|]; done.
Qed.

Lemma read_labels_text labels : forall fuel rest,
  (length labels <= fuel)%nat -> labels <> [] ->
  Forall (fun k => is_valid_label_key k = true) (map fst labels) ->
  read_labels fuel (join "," (map label_text labels) +:+ "}" +:+ rest) = Some (labels, rest).
Proof.
  induction labels as [|[k v] labels IH]; intros fuel rest Hf Hne Hk; [done|].
  destruct fuel as [|fuel]; [cbn in Hf; lia|]. cbn [map fst] in Hk. apply list.Forall_cons in Hk as [Hk Hks].
  assert (Hread : forall tail, read_labels (S fuel) (label_text (k, v) +:+ tail) =
    match tail with
    | String c rest =>
        if Ascii.eqb c ","%char then
          let! (labels, rest) := read_labels fuel rest in Some ((k, v) :: labels, rest)
        else if Ascii.eqb c "}"%char then Some ([(k, v)], rest) else None
    | EmptyString => None
    end).
  { intros tail. unfold label_text. cbn [fst snd read_labels]. rewrite !app_assoc_str.
    unfold str_quote. rewrite !app_char. fold quote_char.
    rewrite (take_until_app _ k "="%char); [|by apply key_chars|done]. cbv iota beta.
    change (negb (Ascii.eqb quote_char quote_char)) with false. cbv iota.
    by rewrite unescape_escaped. }
  destruct labels as [|q labels].
  - cbn [map join]. rewrite Hread. reflexivity.
  - rewrite labels_join, !app_assoc_str, Hread.
    rewrite (app_char ","). cbv iota.
    change (Ascii.eqb "," ",") with true. cbv iota.
    rewrite IH; [done|cbn in *; lia|done|done].
Qed.

(** *** Whole lines *)

Definition timestamp_text (enc : PrometheusText) (timestamp : Z) : string :=
  if emit_timestamp enc then " " +:+ show_nat (timestamp / 1000000) else "".

(** The line of an event, without its newline. *)
Definition prometheus_body (enc : PrometheusText) (e : MetricEvent) : string :=
  ev_name e +:+ labels_text (labels_iter (ev_labels e)) +:+ " " +:+ show_f64 (ev_value e)
    +:+ timestamp_text enc (ev_timestamp e).

Lemma encode_is_body enc e buf :
  precision enc = None -> 0 <= ev_timestamp e ->
  prometheus_encode_metric enc e buf
  = (buf +:+ prometheus_body enc e +:+ String newline "", Ok tt).
Proof.
  intros Hp Ht. unfold prometheus_encode_metric, prometheus_body, timestamp_text, write_value, since_epoch.
  rewrite Hp, (proj2 (Z.ltb_ge (ev_timestamp e) 0)) by done.
  assert (Hl : forall b, match labels_iter (ev_labels e) with
    | [] => b
    | labels => write_labels labels true (b +:+ "{") +:+ "}"
    end = b +:+ labels_text (labels_iter (ev_labels e))).
  { intros b. destruct (labels_iter (ev_labels e)) as [|[k v] l]; [by rewrite app_empty_r|].
    rewrite write_labels_first. unfold labels_text. by rewrite !app_assoc_str. }
  rewrite Hl. destruct (emit_timestamp enc); by rewrite ?app_nil_str, !app_assoc_str.
Qed.

Lemma name_chars s :
  is_valid_metric_name s = true ->
  str_all (fun d => negb (Ascii.eqb d "{"%char || Ascii.eqb d " "%char)) s = true.
Proof.
  destruct s as [|c s]; [done|]. cbn [is_valid_metric_name str_all]. intros [Hc Hs]%andb_true_iff.
  apply andb_true_iff. split.
  - destruct (Ascii.eqb_spec c "{"%char) as [->|]; [done|].
    by destruct (Ascii.eqb_spec c " "%char) as [->|].
  - revert Hs. apply str_all_weaken. intros d Hd. destruct (Ascii.eqb_spec d "{"%char) as [->|]; [done|].
    by destruct (Ascii.eqb_spec d " "%char) as [->|].
Qed.

Lemma read_value_text enc e :
  is_u64 (ev_value e) -> 0 <= ev_timestamp e ->
  read_value (show_f64 (ev_value e) +:+ timestamp_text enc (ev_timestamp e))
  = Some (canonical (ev_value e), if emit_timestamp enc then Some (ev_timestamp e / 1000000) else None).
Proof.
  intros Hv Ht. pose proof (show_f64_chars _ Hv) as Hc.
  assert (Hsp : str_contains " "%char (show_f64 (ev_value e)) = false).
  { by apply (str_all_no_char number_char). }
  unfold read_value, timestamp_text. destruct (emit_timestamp enc).
  - rewrite (app_char " "), split_once_app, read_shown by done.
    destruct (take_digits_show (ev_timestamp e / 1000000) "") as (len & Hl & E).
    { apply Z.div_pos; lia. }
    { done. }
    rewrite app_empty_r in E. rewrite E. destruct len; [lia|]. reflexivity.
  - rewrite app_empty_r, (split_once_none _ _ Hsp), read_shown by done. reflexivity.
Qed.

Lemma labels_fuel labels rest : (length labels <= String.length (join "," (map label_text labels) +:+ "}" +:+ rest))%nat.
Proof.
  rewrite length_app_str. enough (length labels <= String.length (join "," (map label_text labels)))%nat by lia.
  induction labels as [|p [|q labels] IH]; [done| |].
  - cbn [map join]. unfold label_text. rewrite !length_app_str. cbn. lia.
  - rewrite labels_join, !length_app_str. cbn [length] in *. unfold label_text at 1.
    rewrite !length_app_str. cbn [String.length]. lia.
Qed.

Lemma body_reads_back enc e :
  is_valid_metric_name (ev_name e) = true -> labels_ok (ev_labels e) -> is_u64 (ev_value e) ->
  0 <= ev_timestamp e ->
  read_sample (prometheus_body enc e)
  = Some (mk_sample (ev_name e) (labels_iter (ev_labels e)) (canonical (ev_value e))
            (if emit_timestamp enc then Some (ev_timestamp e / 1000000) else None)).
Proof.
  intros Hn [_ Hk] Hv Ht. unfold read_sample, prometheus_body, labels_iter, labels_text.
  destruct (inner (ev_labels e)) as [|p labels] eqn:El.
  - rewrite app_nil_str, (app_char " "). rewrite take_until_app; [|by apply name_chars|done].
    cbv iota beta. change (Ascii.eqb " " "{") with false. cbv iota beta.
    by rewrite read_value_text.
  - rewrite !app_assoc_str, (app_char "{"). rewrite take_until_app; [|by apply name_chars|done].
    cbv iota beta. change (Ascii.eqb "{" "{") with true. cbv iota beta.
    rewrite read_labels_text; [|apply labels_fuel|done|exact Hk].
    cbv iota beta. rewrite (app_char " "). cbn [strip_prefix_char]. rewrite Ascii.eqb_refl.
    by rewrite read_value_text.
Qed.

Lemma body_one_line enc e :
  is_valid_metric_name (ev_name e) = true -> labels_ok (ev_labels e) -> is_u64 (ev_value e) ->
  0 <= ev_timestamp e -> str_contains newline (prometheus_body enc e) = false.
Proof.
  intros Hn [_ Hk] Hv Ht. unfold prometheus_body. rewrite !str_contains_app.
  rewrite (str_all_no_char number_char newline (show_f64 _)) by (done || by apply show_f64_chars).
  assert (Hname : str_contains newline (ev_name e) = false).
  { destruct (ev_name e) as [|c s]; [done|]. cbn [is_valid_metric_name] in Hn. apply andb_true_iff in Hn as [Hc Hs].
    cbn [str_contains]. rewrite (str_all_no_char (fun c => is_ascii_alphanumeric c || Ascii.eqb c "_"%char || Ascii.eqb c ":"%char) newline s) by (reflexivity || exact Hs).
    rewrite orb_false_r.
    by destruct (Ascii.eqb_spec c newline) as [->|]. }
  assert (Hlabels : str_contains newline (labels_text (labels_iter (ev_labels e))) = false).
  { unfold labels_text, labels_iter. destruct (inner (ev_labels e)) as [|p labels]; [done|].
    rewrite !str_contains_app. cbn [str_contains orb]. change (Ascii.eqb "{" newline) with false.
    change (Ascii.eqb "}" newline) with false. cbn [orb]. rewrite orb_false_r.
    revert p Hk. induction labels as [|q labels IH]; intros [k v] Hk;
      cbn [map fst] in Hk; apply list.Forall_cons in Hk as [Hk Hks].
    - cbn [map join]. unfold label_text. rewrite !str_contains_app, escaped_no_newline. cbn [fst snd].
      rewrite (label_key_no_char newline k) by done. done.
    - rewrite labels_join, !str_contains_app. rewrite (IH q Hks).
      unfold label_text. rewrite !str_contains_app, escaped_no_newline. cbn [fst snd].
      rewrite (label_key_no_char newline k) by done. done. }
  rewrite Hname, Hlabels. unfold timestamp_text. destruct (emit_timestamp enc); [|done].
  rewrite str_contains_app. rewrite (digits_no_char newline (show_nat _)); [done|done|].
  apply show_nat_digits, Z.div_pos; lia.
Qed.

(** A metric event with a valid name and labels, any label values and any
    value, encoded as a Prometheus line at full precision, is appended to the
    buffer as one line, whose only newline is its last character, and a reader
    of the exposition format gets back the name, the labels, the value, a NaN
    excepted which comes back as the one NaN the format has, and the timestamp
    in milliseconds when it is emitted. *)
Theorem prometheus_reads_back enc e buf :
  precision enc = None -> is_valid_metric_name (ev_name e) = true -> labels_ok (ev_labels e) ->
  is_u64 (ev_value e) -> 0 <= ev_timestamp e ->
  exists line, prometheus_encode_metric enc e buf = (buf +:+ line +:+ String newline "", Ok tt) /\
    str_contains newline line = false /\
    read_sample line
    = Some (mk_sample (ev_name e) (labels_iter (ev_labels e)) (canonical (ev_value e))
              (if emit_timestamp enc then Some (ev_timestamp e / 1000000) else None)).
Proof.
  intros Hp Hn Hl Hv Ht. exists (prometheus_body enc e). split; [by apply encode_is_body|].
  split; [by apply body_one_line|by apply body_reads_back].
Qed.

Lemma prometheus_reads_back_witness :
  exists line, prometheus_encode_metric (mk_prometheus None true) ex_event "" = ("" +:+ line +:+ String newline "", Ok tt) /\
    str_contains newline line = false /\
    read_sample line
    = Some (mk_sample "interface_oper_state" (labels_iter (ev_labels ex_event)) (num 1) (Some 1700000000000)).
Proof.
  apply (prometheus_reads_back (mk_prometheus None true) ex_event "").
  - reflexivity.
  - reflexivity.
  - split; [|repeat constructor]. repeat constructor.
  - vm_compute. split; discriminate.
  - vm_compute. discriminate.
Defined.

(** A newline in a label value is written as it is in the line protocol, where
    it ends the line. *)
Lemma influx_line_breaks :
  exists e line rest, labels_ok (ev_labels e) /\
    influx_encode_metric (influx_new None None) e ""
    = (line +:+ String newline rest, Ok tt) /\ rest <> "".
Proof.
  exists (mk_event "up" (num 1) (mk_labels [("host", "a" +:+ String newline "b")]) 0), "up,host=a"%string.
  eexists. split; [split; repeat constructor|]. split; [vm_compute; reflexivity|done].
Qed.
