(* ===== verification/Syslog.v ===== *)
(** * Syslog: the RFC 5424 encoder (encoder/syslog.rs, model/log.rs)

    One line per log event. What the encoder writes is read back by a reader of
    RFC 5424 as the priority, the date and time, the host and application, the
    labels and the message, whatever the label values hold
    ([syslog_reads_back]); a newline in the message or a label value is written
    as it is ([syslog_line_breaks]). *)

From Stdlib Require Import ZArith Lia Ascii.
From stdpp Require Import prelude strings list numbers.
From S2P Require Import Prelude Text Metric SinkIo FloatText ParseDuration CsvReplay Timing CivilDate TextEncoders.

(** ** The code *)

(** [Severity::rank], the order of severities. *)
Definition rank (s : Severity) : Z :=
  match s with Trace => 0 | Debug_ => 1 | Info_ => 2 | Warn_ => 3 | Error_ => 4 | Fatal => 5 end.

Definition FACILITY_USER : Z := 1.
Definition SYSLOG_VERSION : Z := 1.
Definition NILVALUE : string := "-".

Definition severity_to_syslog (s : Severity) : Z :=
  match s with
  | Fatal => 0
  | Error_ => 3
  | Warn_ => 4
  | Info_ => 6
  | Debug_ => 7
  | Trace => 7
  end.

Record Syslog := mk_syslog { hostname : string; app_name : string }.

Definition syslog_new (hostname app_name : option string) : Syslog :=
  mk_syslog (default "sonda" hostname) (default "sonda" app_name).

(** [Syslog::encode_metric]. *)
Definition syslog_encode_metric (buf : string) : string * result unit SondaError :=
  (buf, Err (Encoder (NotSupported "metric encoding not supported by syslog encoder"))).

(** The escaping of a label value, what it appends. *)
Fixpoint escape_param_value (v : string) : string :=
  match v with
  | EmptyString => EmptyString
  | String c v =>
      (if Ascii.eqb c backslash then String backslash (String backslash EmptyString)
       else if Ascii.eqb c "]"%char then String backslash "]"
       else if Ascii.eqb c quote_char then String backslash (String quote_char EmptyString)
       else String c EmptyString) +:+ escape_param_value v
  end.

Fixpoint write_params (labels : list (string * string)) (buf : string) : string :=
  match labels with
  | [] => buf
  | (k, v) :: labels =>
      write_params labels (buf +:+ " " +:+ k +:+ "=" +:+ str_quote +:+ escape_param_value v +:+ str_quote)
  end.

(** [Syslog::encode_log]: the buffer and the result; [None] is the panic of the
    timestamp. *)
Definition syslog_encode_log (enc : Syslog) (event : LogEvent) (buf : string)
  : option (string * result unit SondaError) :=
  let syslog_severity := severity_to_syslog (log_severity event) in
  let priority := FACILITY_USER * 8 + syslog_severity in
  let buf := buf +:+ "<" +:+ show_nat priority +:+ ">" +:+ show_nat SYSLOG_VERSION +:+ " " in
  let! (buf, r) := format_rfc3339_millis (log_timestamp event) buf in
  match r with
  | Err e => Some (buf, Err e)
  | Ok _ =>
      let buf := buf +:+ " " +:+ hostname enc +:+ " " +:+ app_name enc +:+ " " +:+ NILVALUE
                   +:+ " " +:+ NILVALUE +:+ " " in
      let buf :=
        match labels_iter (log_labels event) with
        | [] => buf +:+ NILVALUE
        | labels => write_params labels (buf +:+ "[sonda") +:+ "]"
        end in
      Some (buf +:+ " " +:+ log_message event +:+ String newline "", Ok tt)
  end.

Example ex_log : LogEvent :=
  mk_log (1774008000000 * 1000000) Info_ "Request from 10.0.0.1"
    (mk_labels [("device", "wlan0"); ("zone", "a]" +:+ str_quote)]) [].
Example syslog_line :
  syslog_encode_log (syslog_new None None) ex_log ""
  = Some ("<14>1 2026-03-20T12:00:00.000Z sonda sonda - - [sonda device=" +:+ str_quote +:+ "wlan0"
          +:+ str_quote +:+ " zone=" +:+ str_quote +:+ "a" +:+ String backslash "]"
          +:+ String backslash str_quote +:+ str_quote
          +:+ "] Request from 10.0.0.1" +:+ String newline "", Ok tt).
Proof. vm_compute. reflexivity. Qed.

(** ** A reader of RFC 5424 lines *)

(** A parameter value after its opening quote; a backslash in front of another
    character stands for itself. *)
Fixpoint unescape_param (s : string) : option (string * string) :=
  match s with
  | EmptyString => None
  | String c s' =>
      if Ascii.eqb c quote_char then Some (EmptyString, s')
      else if Ascii.eqb c backslash then
        match s' with
        | String d s'' =>
            if Ascii.eqb d backslash || Ascii.eqb d "]"%char || Ascii.eqb d quote_char then
              let! (v, rest) := unescape_param s'' in Some (String d v, rest)
            else let! (v, rest) := unescape_param s' in Some (String c v, rest)
        | EmptyString => None
        end
      else let! (v, rest) := unescape_param s' in Some (String c v, rest)
  end.

(** The parameters of an element up to its closing bracket. *)
Fixpoint read_params (fuel : nat) (s : string) : option (list (string * string) * string) :=
  match fuel with
  | O => None
  | S fuel =>
      match s with
      | EmptyString => None
      | String c s =>
          if Ascii.eqb c "]"%char then Some ([], s)
          else if Ascii.eqb c " "%char then
            let (key, rest) := take_until (fun c => Ascii.eqb c "="%char) s in
            let! rest := strip_prefix_char "="%char rest in
            let! rest := strip_prefix_char quote_char rest in
            let! (value, rest) := unescape_param rest in
            let! (labels, rest) := read_params fuel rest in
            Some ((key, value) :: labels, rest)
          else None
      end
  end.

(** The structured data: nil, or one element. *)
Definition read_structured (s : string) : option (list (string * string) * string) :=
  let! (c, rest) := match s with String c rest => Some (c, rest) | EmptyString => None end in
  if Ascii.eqb c "-"%char then Some ([], rest)
  else if Ascii.eqb c "["%char then
    let (_, rest) := take_until (fun c => Ascii.eqb c " "%char || Ascii.eqb c "]"%char) rest in
    read_params (S (String.length rest)) rest
  else None.

Record SyslogLine := mk_line {
  l_priority : Z;
  l_version : Z;
  l_when : date * Z;
  l_host : string;
  l_app : string;
  l_procid : string;
  l_msgid : string;
  l_data : list (string * string);
  l_message : string;
}.

Definition read_word (s : string) : option (string * string) := split_once " "%char s.

(** A line without its newline. *)
Definition read_syslog (line : string) : option SyslogLine :=
  let! s := strip_prefix_char "<"%char line in
  let '(priority, n, s) := take_digits 0 0 s in
  let! s := strip_prefix_char ">"%char s in
  let '(version, n', s) := take_digits 0 0 s in
  let! s := strip_prefix_char " "%char s in
  if (n =? 0)%nat || (n' =? 0)%nat then None
  else
    let! (when, s) := read_word s in
    let! t := read_rfc3339 when in
    let! (host, s) := read_word s in
    let! (app, s) := read_word s in
    let! (procid, s) := read_word s in
    let! (msgid, s) := read_word s in
    let! (data, s) := read_structured s in
    let! message := strip_prefix_char " "%char s in
    Some (mk_line priority version t host app procid msgid data message).

(** *** Words *)

Lemma read_word_app w rest :
  str_contains " "%char w = false -> read_word (w +:+ " " +:+ rest) = Some (w, rest).
Proof. intros Hw. unfold read_word. rewrite app_char. by apply split_once_app. Qed.

Lemma padded_no_space w n :
  0 <= n -> str_contains " "%char (show_padded w n) = false.
Proof.
  intros Hn. apply (str_all_no_char is_ascii_digit); [done|]. unfold show_padded.
  destruct (n <? _); [by apply pad_dec_digits|by apply show_nat_digits].
Qed.

Lemma rfc3339_no_space d ms :
  date_fits d -> 0 <= ms -> str_contains " "%char (rfc3339_text d ms) = false.
Proof.
  destruct d as [[y m] d]. intros (Hy & Hm & Hd) Hms. cbn [fst snd] in *. unfold rfc3339_text.
  rewrite !str_contains_app, !padded_no_space by (Z.to_euclidean_division_equations; lia). done.
Qed.

(** *** Parameters *)

Definition param_text (p : string * string) : string :=
  " " +:+ p.1 +:+ "=" +:+ str_quote +:+ escape_param_value p.2 +:+ str_quote.

Fixpoint params_text (labels : list (string * string)) : string :=
  match labels with [] => "" | p :: labels => param_text p +:+ params_text labels end.

Lemma write_params_text labels : forall buf, write_params labels buf = buf +:+ params_text labels.
Proof.
  induction labels as [|[k v] labels IH]; intros buf; cbn [write_params params_text].
  { by rewrite app_empty_r. }
  rewrite IH. unfold param_text. cbn [fst snd]. by rewrite !app_assoc_str.
Qed.

Lemma unescape_param_escaped v rest :
  unescape_param (escape_param_value v +:+ String quote_char rest) = Some (v, rest).
Proof.
  induction v as [|c v IH]; [reflexivity|]. cbn [escape_param_value]. rewrite app_assoc_str.
  destruct (Ascii.eqb_spec c backslash) as [->|Hb].
  { rewrite !app_cons_str, app_nil_str. cbn [unescape_param].
    change (Ascii.eqb backslash quote_char) with false. change (Ascii.eqb backslash backslash) with true.
    cbn [orb]. by rewrite IH. }
  destruct (Ascii.eqb_spec c "]"%char) as [->|Hr].
  { rewrite !app_cons_str, app_nil_str. cbn [unescape_param].
    change (Ascii.eqb backslash quote_char) with false. change (Ascii.eqb backslash backslash) with true.
    change (Ascii.eqb "]" backslash) with false. change (Ascii.eqb "]" "]") with true.
    cbn [orb]. by rewrite IH. }
  destruct (Ascii.eqb_spec c quote_char) as [->|Hq].
  { rewrite !app_cons_str, app_nil_str. cbn [unescape_param].
    change (Ascii.eqb backslash quote_char) with false. change (Ascii.eqb backslash backslash) with true.
    change (Ascii.eqb quote_char backslash) with false. change (Ascii.eqb quote_char quote_char) with true.
    cbn [orb]. rewrite orb_true_r. by rewrite IH. }
  rewrite app_cons_str, app_nil_str. cbn [unescape_param].
  destruct (Ascii.eqb_spec c quote_char); [done|]. destruct (Ascii.eqb_spec c backslash); [done|].
  by rewrite IH.
Qed.

Lemma read_params_text labels : forall fuel rest,
  (length labels < fuel)%nat ->
  Forall (fun k => is_valid_label_key k = true) (map fst labels) ->
  read_params fuel (params_text labels +:+ "]" +:+ rest) = Some (labels, rest).
Proof.
  induction labels as [|[k v] labels IH]; intros fuel rest Hf Hk; (destruct fuel as [|fuel]; [cbn in Hf; lia|]).
  { reflexivity. }
  cbn [map fst] in Hk. apply list.Forall_cons in Hk as [Hk Hks]. cbn [params_text]. unfold param_text.
  cbn [fst snd]. rewrite !app_assoc_str. rewrite (app_char " "). cbn [read_params].
  change (Ascii.eqb " " "]") with false. change (Ascii.eqb " " " ") with true. cbv iota.
  rewrite (app_char "="). rewrite (take_until_app _ k "="%char); [|by apply key_chars|done]. cbv iota beta.
  cbn [strip_prefix_char]. rewrite Ascii.eqb_refl. cbv iota. unfold str_quote. rewrite !app_char.
  fold quote_char. cbn [strip_prefix_char]. rewrite Ascii.eqb_refl. cbv iota.
  rewrite unescape_param_escaped. rewrite <- (app_char "]").
  rewrite IH; [done|cbn in Hf; lia|done].
Qed.

Lemma params_fuel labels rest : (length labels < S (String.length (params_text labels +:+ "]" +:+ rest)))%nat.
Proof.
  rewrite length_app_str. enough (length labels <= String.length (params_text labels))%nat by lia.
  induction labels as [|p labels IH]; [done|]. cbn [params_text length]. unfold param_text.
  rewrite !length_app_str. cbn [String.length]. lia.
Qed.

Definition structured_text (labels : list (string * string)) : string :=
  match labels with [] => NILVALUE | _ => "[sonda" +:+ params_text labels +:+ "]" end.

Lemma take_sonda rest :
  take_until (fun c => Ascii.eqb c " "%char || Ascii.eqb c "]"%char) ("sonda" +:+ String " " rest)
  = ("sonda"%string, String " " rest).
Proof. reflexivity. Qed.

Lemma read_structured_text labels rest :
  Forall (fun k => is_valid_label_key k = true) (map fst labels) ->
  read_structured (structured_text labels +:+ rest) = Some (labels, rest).
Proof.
  intros Hk. destruct labels as [|p labels]; [reflexivity|]. unfold structured_text.
  pose proof (params_fuel (p :: labels) rest) as Hf. pose proof (read_params_text (p :: labels) _ rest Hf Hk) as E.
  rewrite !app_assoc_str. cbn [params_text] in *. unfold param_text in E at 1 2 |- *.
  rewrite !app_assoc_str, (app_char " ") in *.
  unfold read_structured. change ("[sonda" +:+ ?s) with (String "[" ("sonda" +:+ s)).
  cbv iota beta. change (Ascii.eqb "[" "-") with false. change (Ascii.eqb "[" "[") with true. cbv iota.
  rewrite take_sonda. exact E.
Qed.

(** *** Whole lines *)

Definition priority_of (s : Severity) : Z := FACILITY_USER * 8 + severity_to_syslog s.

Definition event_date (ts : Z) : date := calendar (Z.to_nat (ts / day_nanos)).
Definition event_millis (ts : Z) : Z := ts mod day_nanos / 1000000.

Definition syslog_body (enc : Syslog) (e : LogEvent) : string :=
  "<" +:+ show_nat (priority_of (log_severity e)) +:+ ">" +:+ show_nat SYSLOG_VERSION +:+ " "
    +:+ rfc3339_text (event_date (log_timestamp e)) (event_millis (log_timestamp e)) +:+ " "
    +:+ hostname enc +:+ " " +:+ app_name enc +:+ " " +:+ NILVALUE +:+ " " +:+ NILVALUE +:+ " "
    +:+ structured_text (labels_iter (log_labels e)) +:+ " " +:+ log_message e.

Definition before_10000 (ts : Z) : Prop := 0 <= ts < 253402300800 * 1000000000.

Lemma before_10000_fits ts :
  before_10000 ts ->
  (ts / day_nanos <=? days_9999) = true /\ date_fits (event_date ts) /\ 0 <= event_millis ts < 86400000.
Proof.
  unfold before_10000, event_date, event_millis. intros Ht.
  assert (Hd : 0 <= ts / day_nanos <= days_9999)
    by (unfold day_nanos, days_9999; Z.to_euclidean_division_equations; lia).
  split; [lia|]. split; [|unfold day_nanos; Z.to_euclidean_division_equations; lia].
  split; [|apply calendar_ok]. pose proof (calendar_year_bounds (Z.to_nat (ts / day_nanos))). lia.
Qed.

Lemma encode_log_is_body enc e buf :
  before_10000 (log_timestamp e) ->
  syslog_encode_log enc e buf = Some (buf +:+ syslog_body enc e +:+ String newline "", Ok tt).
Proof.
  intros Ht. destruct (before_10000_fits _ Ht) as [Hd _]. destruct Ht as [Ht _].
  unfold syslog_encode_log, format_rfc3339_millis. rewrite format_rfc3339_aux, Hd by done.
  unfold syslog_body, structured_text, event_date, event_millis, priority_of.
  destruct (labels_iter (log_labels e)) as [|p labels]; [|rewrite write_params_text];
    by rewrite !app_assoc_str.
Qed.

Lemma priority_reads s rest :
  take_digits 0 0 (show_nat (priority_of s) +:+ ">" +:+ rest)
  = (priority_of s, String.length (show_nat (priority_of s)), ">" +:+ rest).
Proof. by destruct s. Qed.

Lemma body_reads_log enc e :
  before_10000 (log_timestamp e) -> labels_ok (log_labels e) ->
  str_contains " "%char (hostname enc) = false -> str_contains " "%char (app_name enc) = false ->
  read_syslog (syslog_body enc e)
  = Some (mk_line (priority_of (log_severity e)) 1
            (event_date (log_timestamp e), event_millis (log_timestamp e))
            (hostname enc) (app_name enc) "-" "-" (labels_iter (log_labels e)) (log_message e)).
Proof.
  intros Ht [_ Hk] Hh Ha. destruct (before_10000_fits _ Ht) as (_ & Hf & Hms).
  unfold read_syslog, syslog_body. rewrite (app_char "<"). cbn [strip_prefix_char]. rewrite Ascii.eqb_refl.
  rewrite priority_reads. rewrite (app_char ">"). cbn [strip_prefix_char]. rewrite Ascii.eqb_refl.
  change (take_digits 0 0 (show_nat SYSLOG_VERSION +:+ " " +:+ ?s)) with (1, 1%nat, String " " s).
  cbv iota beta. cbn [strip_prefix_char]. rewrite Ascii.eqb_refl.
  replace ((String.length (show_nat (priority_of (log_severity e))) =? 0)%nat) with false
    by by destruct (log_severity e). cbv iota beta. change (1 =? 0)%nat with false. cbv iota.
  rewrite read_word_app by (apply rfc3339_no_space; [done|lia]).
  rewrite read_rfc3339_text by done.
  rewrite !read_word_app by done. rewrite read_structured_text by done.
  rewrite (app_char " "). cbn [strip_prefix_char]. by rewrite Ascii.eqb_refl.
Qed.

(** A log event of a timestamp from the epoch to the year 9999, encoded by
    an encoder whose host and application names have no space, is appended to
    the buffer as a line, and a reader of RFC 5424 gets back the priority of the
    user facility and the severity, the calendar date and the millisecond of the
    day, the host and the application, the labels, whatever their values hold,
    and the message. *)
Theorem syslog_reads_back enc e buf :
  before_10000 (log_timestamp e) -> labels_ok (log_labels e) ->
  str_contains " "%char (hostname enc) = false -> str_contains " "%char (app_name enc) = false ->
  exists line, syslog_encode_log enc e buf = Some (buf +:+ line +:+ String newline "", Ok tt) /\
    read_syslog line
    = Some (mk_line (8 + severity_to_syslog (log_severity e)) 1
              (event_date (log_timestamp e), event_millis (log_timestamp e))
              (hostname enc) (app_name enc) "-" "-" (labels_iter (log_labels e)) (log_message e)).
Proof.
  intros Ht Hl Hh Ha. exists (syslog_body enc e).
  split; [by apply encode_log_is_body|by apply body_reads_log].
Qed.

Lemma syslog_reads_back_witness :
  exists line, syslog_encode_log (syslog_new None (Some "core"%string)) ex_log ""
    = Some ("" +:+ line +:+ String newline "", Ok tt) /\
    read_syslog line
    = Some (mk_line (8 + severity_to_syslog Info_) 1
              (event_date (log_timestamp ex_log), event_millis (log_timestamp ex_log))
              "sonda" "core" "-" "-" (labels_iter (log_labels ex_log)) "Request from 10.0.0.1").
Proof.
  apply (syslog_reads_back (syslog_new None (Some "core"%string)) ex_log "").
  - split; [vm_compute; discriminate|vm_compute; reflexivity].
  - split; repeat constructor.
  - reflexivity.
  - reflexivity.
Defined.

(** A less severe event never has a smaller code, and the codes of distinct
    severities are distinct, [Trace] and [Debug] excepted. *)
Lemma severity_code_order s t :
  rank s <= rank t -> severity_to_syslog t <= severity_to_syslog s.
Proof. destruct s, t; cbn; lia. Qed.

Lemma severity_code_inj s t :
  severity_to_syslog s = severity_to_syslog t -> s = t \/ (rank s <= 1 /\ rank t <= 1).
Proof. destruct s, t; cbn; intros H; try (left; reflexivity); try discriminate; right; lia. Qed.

(** A newline in the message ends the line early. *)
Lemma syslog_line_breaks :
  exists e line rest, labels_ok (log_labels e) /\
    syslog_encode_log (syslog_new None None) e "" = Some (line +:+ String newline rest, Ok tt) /\ rest <> "".
Proof.
  exists (mk_log 0 Info_ ("a" +:+ String newline "b") (mk_labels []) []),
    "<14>1 1970-01-01T00:00:00.000Z sonda sonda - - - a"%string.
  eexists. split; [split; constructor|]. split; [vm_compute; reflexivity|done].
Qed.
