(* ===== verification/ScheduleLoop.v ===== *)
(** * ScheduleLoop: the loop that emits a scenario's ticks (schedule/core_loop.rs)

    [run_schedule_loop_with_initial_tick] as an iteration on the loop's local
    state. An iteration reads the clock, decides about the instant the tick is
    emitted at, and either leaves the loop, moves the tick past a silence, or
    runs the tick's callback and drains its writes. The callback is an argument
    with a state of its own, which may also cancel the loop (a gated segment's
    token). An [Instant] is a number of nanoseconds from some origin; adding a
    duration to it does not overflow. *)

From Stdlib Require Import ZArith Lia.
From stdpp Require Import prelude strings list gmap.
From S2P Require Import Prelude Text Metric F64 Stats Windows Durations SinkIo.

(** ** The schedule *)

(** [StartTime]. *)
Inductive StartTime :=
| Now
| Absolute (t : Z)
| Offset (forward : bool) (by_ : Z).

(** [ParsedSchedule]. *)
Record ParsedSchedule := mk_schedule {
  replays_recorded_rows : bool;
  total_duration : option Z;
  gap_window : option GapWindow;
  gap_windows : list OneShotGap;
  burst_window : option BurstWindow;
  spike_windows : list CardinalitySpikeWindow;
  dynamic_labels : list DynamicLabel;
  on_sink_error : OnSinkError;
  sch_name : string;
  start_time : StartTime;
}.

(** [TickResult]. *)
Record TickResult := mk_tick_result { bytes_written : Z; delivered : bool }.

(** [TickContext]; the windows and labels are the schedule's. *)
Record TickContext := mk_ctx {
  ctx_tick : Z;
  ctx_spike_windows : list CardinalitySpikeWindow;
  ctx_dynamic_labels : list DynamicLabel;
  ctx_elapsed : Z;
  ctx_wall_clock : Z;
}.

(** [WallClock]. *)
Record WallClock := mk_wall { wall_base : Z; scenario_start : Z }.

(** [WallClock::wall_at]. *)
Definition wall_at (wall : WallClock) (segment_start tick_elapsed : Z) : Z :=
  wall_base wall + (duration_sat_sub segment_start (scenario_start wall) + tick_elapsed).

(** ** Statistics of a tick *)

Definition set_flags (s : ScenarioStats) (gap burst spike : bool) : ScenarioStats :=
  mk_stats (total_events s) (bytes_emitted s) (current_rate s) (errors s) (rejected_events s)
    gap burst spike (consecutive_failures s) (total_sink_failures s) (last_sink_error s)
    (last_successful_write_at s) (current_values s) (state s) (close_emit_series s)
    (last_emit_ts s) (track_close_series s) (last_state_transition_at s)
    (cumulative_resolution_attempts s).

(** The counters of a tick that succeeded; [written_at] is the wall clock when
    its writes were delivered. *)
Definition count_tick (s : ScenarioStats) (bytes : Z) (rate : f64)
  (written_at : option (option Z)) : ScenarioStats :=
  mk_stats (total_events s + 1) (bytes_emitted s + bytes) rate (errors s) (rejected_events s)
    (in_gap s) (in_burst s) (in_cardinality_spike s)
    (match written_at with Some _ => 0 | None => consecutive_failures s end)
    (total_sink_failures s) (last_sink_error s)
    (match written_at with Some at_ => at_ | None => last_successful_write_at s end)
    (current_values s) (state s) (close_emit_series s) (last_emit_ts s) (track_close_series s)
    (last_state_transition_at s) (cumulative_resolution_attempts s).

(** ** The walk over silent slots *)

(** The first slot at or after the [k]-th that is not silent: [None] when
    [fuel] slots were not enough, [Some None] when the slot's instant panics. *)
Fixpoint walk (slot : Z -> option Z) (silent : Z -> bool) (fuel : nat) (k : Z)
  : option (option Z) :=
  match fuel with
  | O => None
  | S fuel =>
      match slot k with
      | None => Some None
      | Some at_ => if silent at_ then walk slot silent fuel (k + 1) else Some (Some k)
      end
  end.

Section Loop.
Context {S T : Type} `{Sink S} (env : Env).

(** [TickFn]: the callback, with its state, the queue and the events it
    pushed. *)
Context (tick_fn : T -> TickContext -> TickOutput ->
  result TickResult SondaError * TickOutput * list MetricEvent * T).

(** Whether the callback has cancelled the loop's token. *)
Context (token : T -> bool).

(** The fuel of a walk. *)
Context (walk_fuel : nat).

(** The constants of a run. *)
Record Run := mk_run {
  schedule : ParsedSchedule;
  base_interval : Z;
  start : Z;
  initial_tick : Z;
  wall : WallClock;
}.

(** The mutable locals of the loop, with what it shares. *)
Record LoopState := mk_loop {
  io : Io S;
  callback : T;
  output : TickOutput;
  tick : Z;
  next_deadline : Z;
  rate_window_tick : Z;
  rate_window_start : Z;
  sink_warn : SinkErrorRateLimiter;
  reject_warn : SinkErrorRateLimiter;
}.

Definition set_io (l : LoopState) (w : Io S) : LoopState :=
  mk_loop w (callback l) (output l) (tick l) (next_deadline l) (rate_window_tick l)
    (rate_window_start l) (sink_warn l) (reject_warn l).

(** [tick = initial_tick + ticks_elapsed; next_deadline = start + slot]. *)
Definition re_anchor (r : Run) (l : LoopState) (w : Io S) (ticks_elapsed slot_at : Z) : LoopState :=
  mk_loop w (callback l) (output l) (initial_tick r + ticks_elapsed) (start r + slot_at)
    (rate_window_tick l) (rate_window_start l) (sink_warn l) (reject_warn l).

(** How an iteration ends: back to the top with or without a tick emitted, out
    of the loop, with an error, with a panic, or out of the walk's fuel. *)
Inductive Flow :=
| Continue (l : LoopState)
| Emitted (ctx : TickContext) (l : LoopState)
| Break (l : LoopState)
| Return (ctx : TickContext) (e : SondaError) (l : LoopState)
| Panicked
| OutOfFuel.

(** [base_interval.mul_f64(ticks_elapsed as f64)]. *)
Definition slot (r : Run) (ticks_elapsed : Z) : option Z :=
  mul_f64 (base_interval r) (f64_of_u64 ticks_elapsed).

(** The end of a walk, taken back to the loop. *)
Definition resume (r : Run) (l : LoopState) (w : Io S) (found : option (option Z)) : Flow :=
  match found with
  | None => OutOfFuel
  | Some None => Panicked
  | Some (Some k) =>
      match slot r k with
      | None => Panicked
      | Some at_ => Continue (re_anchor r l w k at_)
      end
  end.

(** A one-shot window is active and no recurring gap. *)
Definition row_gap (r : Run) (l : LoopState) (w : Io S) : Flow :=
  resume r l w
    (walk (slot r) (fun at_ => is_in_gap_window at_ (gap_windows (schedule r))) walk_fuel
       (tick l - initial_tick r)).

(** [has_recorded_rows]. *)
Definition has_recorded_rows (sch : ParsedSchedule) : bool :=
  replays_recorded_rows sch || negb (match gap_windows sch with [] => true | _ => false end).

(** The slots the loop emits nothing in. *)
Definition silent_slot (sch : ParsedSchedule) (at_ : Z) : bool :=
  match gap_window sch with Some g => is_in_gap at_ g | None => false end
  || is_in_gap_window at_ (gap_windows sch).

(** A recurring gap is active. *)
Definition wall_gap (r : Run) (l : LoopState) (w : Io S) (elapsed : Z) (gap : GapWindow) : Flow :=
  let sch := schedule r in
  match time_until_gap_end elapsed gap, time_until_gap_window_end elapsed (gap_windows sch) with
  | Some periodic_sleep, Some one_shot_sleep =>
      let sleep_for := Z.max periodic_sleep one_shot_sleep in
      let gap_end := start r + elapsed + sleep_for in
      let (n, w) := now env w in
      let (woken, w) := if n <? gap_end then select_cancel env w else (false, w) in
      if woken then Continue (set_io l w)
      else
        let resumed_at := elapsed + sleep_for in
        let ticks_elapsed :=
          if has_recorded_rows sch then tick l - initial_tick r
          else u64_of_f64 (f64_div (as_secs_f64 resumed_at) (as_secs_f64 (base_interval r))) in
        resume r l w
          (walk (slot r)
             (fun at_ => (negb (has_recorded_rows sch) && (at_ <? resumed_at)) || silent_slot sch at_)
             walk_fuel ticks_elapsed)
  | _, _ => Panicked
  end.

(** The statistics of a successful tick, with the rate window. *)
Definition account_success (l : LoopState) (w : Io S) (result : TickResult)
  (events : list MetricEvent) (flags : ScenarioStats -> ScenarioStats) : Z * Z * Io S :=
  match io_stats w with
  | None => (rate_window_tick l, rate_window_start l, w)
  | Some st =>
      let (window_elapsed, w) := elapsed_since env w (rate_window_start l) in
      let '(rate, window_tick, window_start, w) :=
        if NANOS_PER_SEC <=? window_elapsed then
          let events_in_window := tick l - rate_window_tick l in
          let (n, w) := now env w in
          (f64_div (f64_of_u64 events_in_window) (as_secs_f64 window_elapsed), tick l, n, w)
        else (current_rate st, rate_window_tick l, rate_window_start l, w) in
      let (written_at, w) :=
        if delivered result then
          let (t, w) := system_now env w in
          (Some (if t <? 0 then None else Some (t mod two64)), w)
        else (None, w) in
      let st := flags (count_tick st (bytes_written result) rate written_at) in
      (window_tick, window_start, set_stats w (Some (fold_left push_metric events st)))
  end.

(** The end of an iteration that ran its tick: the next deadline and tick. *)
Definition next_tick (l : LoopState) (w : Io S) (t : T) (o : TickOutput) (interval : Z)
  (window_tick window_start : Z) (sw rw : SinkErrorRateLimiter) : LoopState :=
  mk_loop w t o (tick l + 1) (next_deadline l + interval) window_tick window_start sw rw.

(** The locals when an iteration returns an error. *)
Definition leave (l : LoopState) (w : Io S) (t : T) (o : TickOutput) : LoopState :=
  mk_loop w t o (tick l) (next_deadline l) (rate_window_tick l) (rate_window_start l)
    (sink_warn l) (reject_warn l).

(** The tick's outcome: the callback, then the queue it filled; [from_sink]
    tells the two apart. *)
Definition run_tick (l : LoopState) (w : Io S) (ctx : TickContext)
  : (result TickResult SondaError * bool) * list MetricEvent * TickOutput * T * Io S :=
  match tick_fn (callback l) ctx (clear (output l)) with
  | (Ok result, o, events, t) =>
      match drain_writes o w with
      | (Ok (Some d), o, w) => ((Ok (mk_tick_result (bytes_written result) d), false), events, o, t, w)
      | (Ok None, o, w) => ((Ok result, false), events, o, t, w)
      | (Err e, o, w) => ((Err e, true), events, o, t, w)
      end
  | (Err e, o, events, t) => ((Err e, false), events, clear o, t, w)
  end.

(** What the loop makes of the outcome. *)
Definition settle (r : Run) (l : LoopState) (ctx : TickContext) (interval : Z) (burst : bool)
  (outcome : (result TickResult SondaError * bool) * list MetricEvent * TickOutput * T * Io S)
  : Flow :=
  let sch := schedule r in
  let '((tick_outcome, from_sink), events, o, t, w) := outcome in
  let spike := existsb (is_in_spike (ctx_elapsed ctx)) (spike_windows sch) in
  let flags st := set_flags st false burst spike in
  let go w := next_tick l w t o interval (rate_window_tick l) (rate_window_start l) in
  match tick_outcome with
  | Ok result =>
      let '(window_tick, window_start, w) := account_success l w result events flags in
      Emitted ctx (next_tick l w t o interval window_tick window_start (sink_warn l) (reject_warn l))
  | Err (SinkFailed io_err) =>
      match on_sink_error sch with
      | Warn =>
          let (sw, w) := observe env (sink_warn l) w (sch_name sch) io_err in
          let w := with_stats w (fun st => flags (record_sink_failure st io_err)) in
          Emitted ctx (go w sw (reject_warn l))
      | Fail_ =>
          let w := with_stats w (fun st => record_sink_failure st io_err) in
          Return ctx (SinkFailed io_err) (leave l w t o)
      end
  | Err (Encoder (EventRejected reason)) =>
      let (rw, w) := record_rejected_event env (sch_name sch) (reject_warn l) w reason in
      Emitted ctx (go (with_stats w flags) (sink_warn l) rw)
  | Err (Config e) =>
      if from_sink then
        let w := with_stats w (fun st => flags (record_sink_failure st e)) in
        Return ctx (Config e) (leave l w t o)
      else Return ctx (Config e) (leave l w t o)
  | Err other => Return ctx other (leave l w t o)
  end.

(** No silence: wait for the instant and run the tick. *)
Definition emit (r : Run) (l : LoopState) (w : Io S) (emit_at elapsed : Z) : Flow :=
  let sch := schedule r in
  let multiplier := let! burst := burst_window sch in is_in_burst elapsed burst in
  let effective_interval :=
    match multiplier with
    | Some m => from_secs_f64 (f64_div (as_secs_f64 (base_interval r)) m)
    | None => Some (base_interval r)
    end in
  match effective_interval with
  | None => Panicked
  | Some interval =>
      let (n, w) := now env w in
      let (woken, w) := if n <? emit_at then select_cancel env w else (false, w) in
      if woken then Continue (set_io l w)
      else
        let ctx := mk_ctx (tick l) (spike_windows sch) (dynamic_labels sch) elapsed
                     (wall_at (wall r) (start r) elapsed) in
        settle r l ctx interval (is_some multiplier) (run_tick l w ctx)
  end.

(** [if let Some(total) = schedule.total_duration { if elapsed >= total .. }]. *)
Definition past_total (sch : ParsedSchedule) (elapsed : Z) : bool :=
  match total_duration sch with Some total => total <=? elapsed | None => false end.

(** One iteration of the loop. *)
Definition iteration (r : Run) (l : LoopState) : Flow :=
  let sch := schedule r in
  let (c, w) := cancelled env (io l) in
  if c || token (callback l) then Break (set_io l w)
  else
    let (n, w) := now env w in
    let emit_at := Z.max (next_deadline l) n in
    let elapsed := duration_sat_sub emit_at (start r) in
    if past_total sch elapsed then Break (set_io l w)
    else
      let row_at := duration_sat_sub (next_deadline l) (start r) in
      let periodic_gap :=
        let! gap := gap_window sch in if is_in_gap elapsed gap then Some gap else None in
      let in_one_shot := is_in_gap_window row_at (gap_windows sch) in
      let silent_stats w := with_stats w (fun st => set_flags st true false (in_cardinality_spike st)) in
      match periodic_gap with
      | Some gap => wall_gap r l (silent_stats w) elapsed gap
      | None => if in_one_shot then row_gap r l (silent_stats w) else emit r l w emit_at elapsed
      end.

(** How a run ends; [Unfinished] is a run whose iterations were not enough. *)
Inductive Outcome :=
| Ended (l : LoopState)
| Failed (e : SondaError) (l : LoopState)
| Crashed
| Unfinished (l : LoopState).

(** [fuel] iterations: the ticks the callback was given, and the outcome. *)
Fixpoint iterate (fuel : nat) (r : Run) (l : LoopState) : list TickContext * Outcome :=
  match fuel with
  | O => ([], Unfinished l)
  | Datatypes.S fuel =>
      match iteration r l with
      | Continue l => iterate fuel r l
      | Emitted ctx l => let (ctxs, out) := iterate fuel r l in (ctx :: ctxs, out)
      | Break l => ([], Ended l)
      | Return ctx e l => ([ctx], Failed e l)
      | Panicked => ([], Crashed)
      | OutOfFuel => ([], Unfinished l)
      end
  end.

(** [WallClock::resolve]. *)
Definition resolve (sch : ParsedSchedule) (scenario_start : Z) (w : Io S) : WallClock * Io S :=
  let (start_wall, w) := system_now env w in
  let base := match start_time sch with
              | Now => start_wall
              | Absolute t => t
              | Offset true by_ => start_wall + by_
              | Offset false by_ => start_wall - by_
              end in
  (mk_wall base scenario_start, w).

(** The locals before the first iteration of
    [run_schedule_loop_with_initial_tick]; [None] is the panic of
    [Duration::from_secs_f64]. *)
Definition enter (sch : ParsedSchedule) (rate : f64) (first : Z) (anchor : option WallClock)
  (o : TickOutput) (t : T) (w : Io S) : option (Run * LoopState) :=
  let! interval := from_secs_f64 (f64_div (f64_of_u64 1) rate) in
  let (s, w) := now env w in
  let (anchor, w) := match anchor with Some a => (a, w) | None => resolve sch s w end in
  Some (mk_run sch interval s first anchor,
        mk_loop w t o first s 0 s new_limiter new_limiter).

(** [run_schedule_loop_with_initial_tick] for at most [fuel] iterations. *)
Definition run_schedule_loop_with_initial_tick (fuel : nat) (sch : ParsedSchedule) (rate : f64)
  (first : Z) (anchor : option WallClock) (o : TickOutput) (t : T) (w : Io S)
  : list TickContext * Outcome :=
  match enter sch rate first anchor o t w with
  | None => ([], Crashed)
  | Some (r, l) => iterate fuel r l
  end.

(** [run_schedule_loop]: the result, with what the loop shared; [None] for a
    run that panics or whose [fuel] was not enough. *)
Definition run_schedule_loop (fuel : nat) (sch : ParsedSchedule) (rate : f64) (t : T) (w : Io S)
  : option (result unit SondaError * Io S) :=
  match (run_schedule_loop_with_initial_tick fuel sch rate 0 None for_schedule_loop t w).2 with
  | Ended l => Some (finalize_sink (sch_name sch) (on_sink_error sch) (io l) (Ok tt))
  | Failed e l => Some (finalize_sink (sch_name sch) (on_sink_error sch) (io l) (Err e))
  | Crashed | Unfinished _ => None
  end.
End Loop.
