(* ===== verification/ScheduleProofs.v ===== *)
(** * ScheduleProofs: what the schedule loop guarantees

    Theorems about [ScheduleLoop]: recorded rows are not lost, a run that keeps
    up plays its grid, ticks are accounted for, timestamps are ordered, a run
    with a duration ends; and the concrete runs that instantiate them or show
    what the loop does not do. Everything is stated for any clock, sink and
    callback; [on_time] singles out the clocks that are never past a
    deadline. *)

From Stdlib Require Import ZArith Lia Sorted.
From stdpp Require Import prelude strings list gmap.
From S2P Require Import Prelude Text Metric F64 Stats Windows Durations SinkIo ScheduleLoop.

(** ** The walk *)

Lemma walk_spec slot silent fuel k j :
  walk slot silent fuel k = Some (Some j) ->
  k <= j /\ (forall i, k <= i < j -> exists t, slot i = Some t /\ silent t = true) /\
  exists t, slot j = Some t /\ silent t = false.
Proof.
  revert k. induction fuel as [|fuel IH]; intros k; cbn; [done|].
  destruct (slot k) as [t|] eqn:Ek; [|done]. destruct (silent t) eqn:Es.
  - intros (H1 & H2 & H3)%IH. split; [lia|]. split; [|done]. intros i Hi.
    destruct (decide (i = k)) as [->|]; [by eauto|]. apply H2. lia.
  - intros [= ->]. split; [lia|]. split; [intros; lia|by eauto].
Qed.

(** A walk that has a slot to find, and none that panics before it, finds one
    within as many steps as there are slots up to it. *)
Lemma walk_total slot silent fuel k j t :
  k <= j -> slot j = Some t -> silent t = false ->
  (forall i, k <= i < j -> slot i <> None) -> (Z.to_nat (j - k) < fuel)%nat ->
  exists j', walk slot silent fuel k = Some (Some j') /\ j' <= j.
Proof.
  revert k. induction fuel as [|fuel IH]; intros k Hk Hj Hs Hn Hf; [lia|]. cbn.
  destruct (decide (k = j)) as [->|]; [rewrite Hj, Hs; by eauto|].
  destruct (slot k) as [u|] eqn:E; [|destruct (Hn k); [lia|done]].
  destruct (silent u).
  - apply IH; [lia|done|done|intros i Hi; apply Hn; lia|lia].
  - exists k. split; [done|lia].
Qed.

Section facts.
Context {S T : Type} `{Sink S} (env : Env).
Context (tick_fn : T -> TickContext -> TickOutput ->
  result TickResult SondaError * TickOutput * list MetricEvent * T).
Context (token : T -> bool) (walk_fuel : nat).
Implicit Types (r : Run) (l : @LoopState S T) (w : Io S).

(** The instant a tick whose iteration starts at [l] is emitted at, since the
    start: its deadline, or the clock when it is late. *)
Definition emission_instant r l : Z :=
  duration_sat_sub (Z.max (next_deadline l) (instant env (Datatypes.S (reads (io l))))) (start r).

(** Its slot on the grid of deadlines. *)
Definition row_instant r l : Z := duration_sat_sub (next_deadline l) (start r).

(** What holds of every tick the callback is given. *)
Definition may_run r l (ctx : TickContext) : Prop :=
  ctx_tick ctx = tick l /\ ctx_elapsed ctx = emission_instant r l /\
  ctx_wall_clock ctx = wall_at (wall r) (start r) (emission_instant r l) /\
  past_total (schedule r) (ctx_elapsed ctx) = false /\
  match gap_window (schedule r) with Some g => is_in_gap (ctx_elapsed ctx) g = false | None => True end /\
  is_in_gap_window (row_instant r l) (gap_windows (schedule r)) = false.

(** The interval to the next deadline. *)
Definition interval_at (sch : ParsedSchedule) (base elapsed : Z) : option Z :=
  match (let! burst := burst_window sch in is_in_burst elapsed burst) with
  | Some m => from_secs_f64 (f64_div (as_secs_f64 base) m)
  | None => Some base
  end.

(** The schedules that never drop a tick they owe: those with recorded rows,
    and those without a recurring gap. *)
Definition keeps_rows (sch : ParsedSchedule) : bool :=
  has_recorded_rows sch || negb (is_some (gap_window sch)).

(** An iteration that runs nothing: woken by a cancel, or moved to another
    slot. *)
Inductive skipped r l l' : Prop :=
| woken_up n :
    cancel_wins env n = true -> (n < reads (io l'))%nat ->
    tick l' = tick l -> next_deadline l' = next_deadline l -> skipped r l l'
| re_anchored k t :
    slot r k = Some t -> tick l' = initial_tick r + k -> next_deadline l' = start r + t ->
    (keeps_rows (schedule r) = true -> tick l - initial_tick r <= k /\
       forall i, tick l - initial_tick r <= i < k ->
         exists u, slot r i = Some u /\ silent_slot (schedule r) u = true) ->
    (keeps_rows (schedule r) = false -> emission_instant r l <= t) ->
    (gap_windows (schedule r) = [] -> is_some (gap_window (schedule r)) = true) ->
    skipped r l l'.
Lemma resume_spec r l w slots silent k0 :
  match resume r l w (walk slots silent walk_fuel k0) with
  | Continue l' => exists k t, walk slots silent walk_fuel k0 = Some (Some k) /\
      slot r k = Some t /\ l' = re_anchor r l w k t
  | Panicked | OutOfFuel => True
  | _ => False
  end.
Proof.
  unfold resume. destruct (walk _ _ _ _) as [[k|]|]; try done.
  destruct (slot r k) as [t|] eqn:E; [|done]. by exists k, t.
Qed.

Lemma no_windows_unrecorded sch :
  keeps_rows sch = false -> gap_windows sch = [].
Proof.
  unfold keeps_rows, has_recorded_rows. destruct (gap_windows sch); [done|]. by rewrite orb_true_r.
Qed.

Lemma row_gap_spec r l w :
  is_in_gap_window (row_instant r l) (gap_windows (schedule r)) = true ->
  match row_gap walk_fuel r l w with
  | Continue l' => skipped r l l' /\ io l' = w /\ callback l' = callback l
  | Panicked | OutOfFuel => True
  | _ => False
  end.
Proof.
  intros Hin. unfold row_gap.
  pose proof (resume_spec r l w (slot r)
    (fun t => is_in_gap_window t (gap_windows (schedule r))) (tick l - initial_tick r)) as Hr.
  destruct (resume _ _ _ _) as [l'| | | | |]; try done.
  destruct Hr as (k & t & (Hk & Hs & _)%walk_spec & Ht & ->). split; [|done].
  apply (re_anchored r l _ k t Ht); [done|done| | |intros E; by rewrite E in Hin].
  - intros _. split; [done|]. intros i Hi. destruct (Hs i Hi) as (u & Hu & Hw).
    exists u. split; [done|]. unfold silent_slot. by rewrite Hw, orb_true_r.
  - intros Hf%no_windows_unrecorded. by rewrite Hf in Hin.
Qed.

Lemma sleep_nonneg elapsed windows d : time_until_gap_window_end elapsed windows = Some d -> 0 <= d.
Proof.
  unfold time_until_gap_window_end. destruct (chase _ _ _) as [c|]; [|done].
  intros [= <-]. unfold duration_sat_sub. lia.
Qed.

(** The walk out of a recurring gap that ends at [resumed_at]. *)
Lemma wall_resume_spec r l w g resumed_at k0 :
  gap_window (schedule r) = Some g ->
  emission_instant r l <= resumed_at ->
  (has_recorded_rows (schedule r) = true -> k0 = tick l - initial_tick r) ->
  match resume r l w (walk (slot r) (fun t => (negb (has_recorded_rows (schedule r)) &&
          (t <? resumed_at)) || silent_slot (schedule r) t) walk_fuel k0) with
  | Continue l' => skipped r l l' /\ io l' = w /\ callback l' = callback l
  | Panicked | OutOfFuel => True
  | _ => False
  end.
Proof.
  intros Hg He Hk0. set (silent := fun t => _).
  assert (Hkeep : keeps_rows (schedule r) = has_recorded_rows (schedule r))
    by (unfold keeps_rows; rewrite Hg; apply orb_false_r).
  pose proof (resume_spec r l w (slot r) silent k0) as Hr.
  destruct (resume _ _ _ _) as [l'| | | | |]; try done.
  destruct Hr as (k & t & (Hk & Hs & u & Hu & Hn)%walk_spec & Ht & ->). split; [|done].
  assert (u = t) as -> by congruence. unfold silent in Hs, Hn.
  apply (re_anchored r l _ k t Ht); [done|done| | |by rewrite Hg].
  - rewrite Hkeep. intros Hf. rewrite Hf in *. rewrite <- (Hk0 eq_refl). split; [done|].
    intros i Hi. destruct (Hs i Hi) as (v & Hv & Hw). by exists v.
  - rewrite Hkeep. intros Hf. rewrite Hf in *. cbn in Hn. apply orb_false_iff in Hn as [Hn _].
    apply Z.ltb_ge in Hn. lia.
Qed.

Lemma wall_gap_spec r l w g :
  gap_window (schedule r) = Some g ->
  match wall_gap env walk_fuel r l w (emission_instant r l) g with
  | Continue l' => skipped r l l' /\ (reads w <= reads (io l'))%nat /\
      callback l' = callback l /\ io_stats (io l') = io_stats w
  | Panicked | OutOfFuel => True
  | _ => False
  end.
Proof.
  intros Hg. unfold wall_gap. destruct (time_until_gap_end _ _) as [ps|]; [|done].
  destruct (time_until_gap_window_end _ _) as [os|] eqn:Eo; [|done]. apply sleep_nonneg in Eo.
  cbn [now fst snd]. unfold select_cancel.
  match goal with |- context [let (_, _) := ?c in _] =>
    assert (exists b n, c = (b, Nat.iter n advance w) /\
      (b = true -> n = 2%nat /\ cancel_wins env (Datatypes.S (reads w)) = true))
      as (b & n & -> & Hb) end.
  { destruct (_ <? _); [eexists _, 2%nat|eexists _, 1%nat]; split; done. }
  destruct (iter_advance n w) as [Hn _].
  assert (Hi : io_stats (Nat.iter n advance w) = io_stats w) by (clear; induction n as [|n IH]; [done|exact IH]).
  destruct b; [destruct (Hb eq_refl) as [-> Hc]; split; [by eapply woken_up; [exact Hc|cbn; lia|..]|
    cbn; split_and!; [lia|done|done]]|].
  match goal with |- context [walk _ _ _ ?k] => set (k0 := k) end.
  pose proof (wall_resume_spec r l (Nat.iter n advance w) g (emission_instant r l + Z.max ps os) k0
    Hg ltac:(lia) ltac:(unfold k0; by intros ->)) as Hw.
  destruct (resume _ _ _ _); try done. destruct Hw as (? & -> & ?).
  rewrite Hi, Hn. split_and!; [done|lia|done|done].
Qed.

(** The readings of the accounting only add up. *)
Lemma record_reads (lim : SinkErrorRateLimiter) w a b c :
  (reads w <= reads (record env lim w a b c).2)%nat /\
  io_stats (record env lim w a b c).2 = io_stats w /\ sink (record env lim w a b c).2 = sink w.
Proof.
  unfold record, elapsed_since, now. destruct (last_emit lim); cbn;
    [destruct (SINK_WARN_INTERVAL <=? _)|]; cbn; split_and!; lia || done.
Qed.

Lemma drain_reads o w :
  reads (drain_writes o w).2 = reads w /\ io_stats (drain_writes o w).2 = io_stats w.
Proof. unfold drain_writes. by destruct (drain_loop _ _ _ _) as [[? ?] ?]. Qed.

Lemma run_tick_reads l w ctx :
  reads (run_tick tick_fn l w ctx).2 = reads w /\
  io_stats (run_tick tick_fn l w ctx).2 = io_stats w.
Proof.
  unfold run_tick. destruct (tick_fn _ _ _) as [[[[res|e] o] evs] t]; [|done].
  pose proof (drain_reads o w) as Hd. by destruct (drain_writes o w) as [[[[d|]|e] o'] w'].
Qed.

Lemma account_reads l w res evs flags :
  (reads w <= reads (account_success env l w res evs flags).2)%nat.
Proof.
  unfold account_success, elapsed_since, now, system_now. destruct (io_stats w); [|done].
  destruct (NANOS_PER_SEC <=? _), (delivered res); cbn; lia.
Qed.

(** What a tick leaves: the next tick one interval later, or the error. *)
Lemma settle_spec r l ctx d b outcome :
  match settle env r l ctx d b outcome with
  | Emitted ctx' l' => ctx' = ctx /\ tick l' = tick l + 1 /\
      next_deadline l' = next_deadline l + d /\ (reads outcome.2 <= reads (io l'))%nat
  | Return ctx' _ l' => ctx' = ctx /\ tick l' = tick l
  | _ => False
  end.
Proof.
  unfold settle. destruct outcome as [[[[[res fs] evs] o] t] w]. cbn [snd].
  destruct res as [res|[e|[]| | | |]]; try done.
  - pose proof (account_reads l w res evs (fun st => set_flags st false b
      (existsb (is_in_spike (ctx_elapsed ctx)) (spike_windows (schedule r))))) as Ha.
    by destruct (account_success _ _ _ _ _ _) as [[? ?] ?].
  - by destruct fs.
  - unfold record_rejected_event, observe_rejected.
    pose proof (record_reads (reject_warn l) w (sch_name (schedule r))
      "events rejected by the encoder" reason) as [? _].
    by destruct (record _ _ _ _ _ _) as [? ?].
  - destruct (on_sink_error (schedule r)); [|done]. unfold observe.
    pose proof (record_reads (sink_warn l) w (sch_name (schedule r)) "sink errors" io_err) as [? _].
    by destruct (record _ _ _ _ _ _) as [? ?].
Qed.

(** Why an iteration leaves the loop. *)
Definition stops r l : Prop :=
  cancel_flag env (reads (io l)) = true \/ token (callback l) = true \/
  past_total (schedule r) (emission_instant r l) = true.

Lemma emit_spec r l w ctx :
  (reads (io l) < reads w)%nat ->
  ctx = mk_ctx (tick l) (spike_windows (schedule r)) (dynamic_labels (schedule r))
          (emission_instant r l) (wall_at (wall r) (start r) (emission_instant r l)) ->
  match emit env tick_fn r l w (Z.max (next_deadline l) (instant env (Datatypes.S (reads (io l)))))
          (emission_instant r l) with
  | Continue l' => skipped r l l' /\ (reads (io l) < reads (io l'))%nat
  | Emitted ctx' l' => ctx' = ctx /\ tick l' = tick l + 1 /\ (reads (io l) < reads (io l'))%nat /\
      exists d, interval_at (schedule r) (base_interval r) (emission_instant r l) = Some d /\
        next_deadline l' = next_deadline l + d
  | Return ctx' _ l' => ctx' = ctx /\ tick l' = tick l
  | Panicked => True
  | _ => False
  end.
Proof.
  intros Hr ->. unfold emit. fold (interval_at (schedule r) (base_interval r) (emission_instant r l)).
  destruct (interval_at _ _ _) as [d|]; [|done]. cbn [now fst snd]. unfold select_cancel.
  match goal with |- context [let (_, _) := ?c in _] =>
    assert (exists b n, c = (b, Nat.iter n advance w) /\
      (b = true -> n = 2%nat /\ cancel_wins env (Datatypes.S (reads w)) = true))
      as (b & n & -> & Hb) end.
  { destruct (_ <? _); [eexists _, 2%nat|eexists _, 1%nat]; split; done. }
  destruct (iter_advance n w) as [Hn _].
  destruct b; [destruct (Hb eq_refl) as [-> Hc]; split; [by eapply woken_up; [exact Hc|cbn; lia|..]|
    cbn; lia]|].
  match goal with |- context [settle _ _ _ ?c ?d ?b ?o] =>
    pose proof (settle_spec r l c d b o) as Hs; pose proof (run_tick_reads l (Nat.iter n advance w) c) as [Ht _] end.
  rewrite Ht, Hn in Hs. destruct (settle _ _ _ _ _ _ _); try done.
  destruct Hs as (-> & ? & ? & ?). split_and!; [done|done|lia|]. by exists d.
Qed.

Lemma iteration_spec r l :
  match iteration env tick_fn token walk_fuel r l with
  | Continue l' => skipped r l l' /\ (reads (io l) < reads (io l'))%nat
  | Emitted ctx l' => may_run r l ctx /\ tick l' = tick l + 1 /\ (reads (io l) < reads (io l'))%nat /\
      exists d, interval_at (schedule r) (base_interval r) (emission_instant r l) = Some d /\
        next_deadline l' = next_deadline l + d
  | Break l' => stops r l /\ tick l' = tick l
  | Return ctx _ l' => may_run r l ctx /\ tick l' = tick l
  | Panicked | OutOfFuel => True
  end.
Proof.
  unfold iteration, stops. cbn [cancelled now fst snd advance reads].
  fold (emission_instant r l). fold (row_instant r l).
  destruct (cancel_flag env (reads (io l)) || token (callback l)) eqn:Ec.
  { apply orb_true_iff in Ec. split; [tauto|done]. }
  destruct (past_total (schedule r) (emission_instant r l)) eqn:Ep; [by auto|].
  set (w := advance (advance (io l))). assert (Hw : (reads (io l) < reads w)%nat) by (cbn; lia).
  destruct (let! gap := gap_window (schedule r) in
            if is_in_gap (emission_instant r l) gap then Some gap else None) as [gap|] eqn:Eg.
  { assert (gap_window (schedule r) = Some gap) as Hgw
      by (destruct (gap_window (schedule r)); [cbn in Eg; by destruct (is_in_gap _ _)|done]).
    pose proof (wall_gap_spec r l (with_stats w
      (fun st => set_flags st true false (in_cardinality_spike st))) gap Hgw) as Hg.
    destruct (wall_gap _ _ _ _ _ _ _); try done. destruct Hg as (? & Hg & _). split; [done|].
    cbn in Hg. lia. }
  destruct (is_in_gap_window _ _) eqn:Eo.
  { pose proof (row_gap_spec r l (with_stats w
      (fun st => set_flags st true false (in_cardinality_spike st))) Eo) as Hg.
    destruct (row_gap _ _ _ _); try done. destruct Hg as (? & -> & _). split; [done|]. cbn. lia. }
  pose proof (emit_spec r l w _ Hw eq_refl) as He.
  assert (Hm : may_run r l (mk_ctx (tick l) (spike_windows (schedule r)) (dynamic_labels (schedule r))
          (emission_instant r l) (wall_at (wall r) (start r) (emission_instant r l)))).
  { split_and!; try done. cbn. destruct (gap_window (schedule r)) as [g|]; [|done].
    cbn in Eg. by destruct (is_in_gap _ g). }
  destruct (emit _ _ _ _ _ _ _); try done; by destruct He as (-> & ?).
Qed.

(** ** Recorded rows *)

(** The state a run that did not panic was left in. *)
Definition left_at (out : @Outcome S T) : option (@LoopState S T) :=
  match out with Ended l | Failed _ l | Unfinished l => Some l | Crashed => None end.

(** The row of tick [k] is one the schedule declares silent. *)
Definition silent_row r (k : Z) : Prop :=
  exists t, slot r (k - initial_tick r) = Some t /\ silent_slot (schedule r) t = true.

(** From the tick of [l] to that of [l'], every row ran in order or is silent. *)
Definition rows_kept r l (cs : list TickContext) l' : Prop :=
  tick l <= tick l' /\ StronglySorted Z.lt (ctx_tick <$> cs) /\
  (forall c, c ∈ cs -> tick l <= ctx_tick c <= tick l') /\
  (forall k, tick l <= k < tick l' -> k ∈ (ctx_tick <$> cs) \/ silent_row r k).

Lemma rows_kept_skip r l l1 cs l' :
  keeps_rows (schedule r) = true -> skipped r l l1 ->
  rows_kept r l1 cs l' -> rows_kept r l cs l'.
Proof.
  intros Hrec Hs (H1 & H2 & H3 & H4). destruct Hs as [n _ _ Ht _|k t Hk Ht _ Hrows _ _].
  - unfold rows_kept. rewrite <- Ht. done.
  - destruct (Hrows Hrec) as [Hle Hrow]. rewrite Ht in *. split_and!; [lia|done| |].
    + intros c Hc. specialize (H3 c Hc). lia.
    + intros i Hi. destruct (decide (initial_tick r + k <= i)); [apply H4; lia|].
      right. apply (Hrow (i - initial_tick r)). lia.
Qed.

Lemma rows_kept_run r l l1 ctx cs l' :
  ctx_tick ctx = tick l -> tick l1 = tick l + 1 ->
  rows_kept r l1 cs l' -> rows_kept r l (ctx :: cs) l'.
Proof.
  intros Hc Ht (H1 & H2 & H3 & H4). rewrite Ht in *. split_and!; [lia| | |].
  - rewrite fmap_cons. constructor; [done|]. apply list.Forall_forall.
    intros x (c & -> & Hin)%list_elem_of_fmap. specialize (H3 c Hin). lia.
  - intros c [->|Hin]%elem_of_cons; [lia|]. specialize (H3 c Hin). lia.
  - intros k Hk. rewrite fmap_cons, elem_of_cons.
    destruct (decide (k = tick l)) as [->|]; [auto|].
    destruct (H4 k ltac:(lia)); auto.
Qed.

Lemma rows_kept_here r l l' : tick l' = tick l -> rows_kept r l [] l'.
Proof. intros Ht. unfold rows_kept. rewrite Ht. split_and!; [lia|constructor|set_solver|lia]. Qed.

Lemma iterate_rows fuel r l cs out l' :
  keeps_rows (schedule r) = true ->
  iterate env tick_fn token walk_fuel fuel r l = (cs, out) -> left_at out = Some l' ->
  rows_kept r l cs l'.
Proof.
  intros Hrec. revert l cs. induction fuel as [|fuel IH]; intros l cs; cbn [iterate].
  { intros [= <- <-] [= ->]. by apply rows_kept_here. }
  pose proof (iteration_spec r l) as Hi. destruct (iteration _ _ _ _ _ _) as [l1|ctx l1|l1|ctx e l1| |].
  - intros Hr Hl. destruct Hi as [Hs _]. eapply rows_kept_skip; [done|done|by eapply IH].
  - destruct (iterate _ _ _ _ fuel r l1) as [cs1 out1] eqn:E. intros [= <- ->] Hl.
    destruct Hi as (Hm & Ht & _). eapply rows_kept_run; [by destruct Hm|done|by eapply IH].
  - intros [= <- <-] [= ->]. apply rows_kept_here. by destruct Hi.
  - intros [= <- <-] [= ->]. destruct Hi as [(Hc & _) Ht].
    unfold rows_kept. rewrite Ht. split_and!; [lia| | |lia].
    + repeat constructor.
    + intros c [->|?%elem_of_nil]%elem_of_cons; [lia|done].
  - by intros [= <- <-].
  - intros [= <- <-] [= ->]. by apply rows_kept_here.
Qed.

(** The row of tick [k] of a run that starts at [first] with ticks of
    [interval] is one its schedule declares silent. *)
Definition declared_silent (sch : ParsedSchedule) (interval first k : Z) : Prop :=
  exists t, mul_f64 interval (f64_of_u64 (k - first)) = Some t /\ silent_slot sch t = true.

(** C4: a recorded row is never lost. On a schedule that replays recorded rows
    or declares their absence (or has no recurring gap), whatever the clock does (a sink that stalls for
    any time, a recurring gap that is slept through, bursts), the ticks run in
    order and at most once, and a tick the run has gone past ran unless the
    schedule declares its own slot silent. *)
Theorem recorded_rows_kept fuel sch rate first anchor o t w cs out l'
  (Hrec : keeps_rows sch = true)
  (Hrun : run_schedule_loop_with_initial_tick env tick_fn token walk_fuel fuel sch rate first anchor
            o t w = (cs, out))
  (Hl : left_at out = Some l') :
  exists interval, from_secs_f64 (f64_div (f64_of_u64 1) rate) = Some interval /\
    first <= tick l' /\ StronglySorted Z.lt (ctx_tick <$> cs) /\
    (forall c, c ∈ cs -> first <= ctx_tick c <= tick l') /\
    forall k, first <= k < tick l' ->
      k ∈ (ctx_tick <$> cs) \/ declared_silent sch interval first k.
Proof.
  unfold run_schedule_loop_with_initial_tick, enter in Hrun.
  destruct (from_secs_f64 _) as [interval|] eqn:Ei; [|by simplify_eq/=]. exists interval.
  split; [done|]. cbn in Hrun. destruct (match anchor with Some a => _ | None => _ end) as [a w1].
  apply iterate_rows with (l' := l') in Hrun; [|done|done]. apply Hrun.
Qed.

(** ** A run that keeps up *)

(** The clock reads no later than the deadline at every iteration. *)
Fixpoint on_time (fuel : nat) r l : bool :=
  match fuel with
  | O => true
  | Datatypes.S fuel =>
      (instant env (Datatypes.S (reads (io l))) <=? next_deadline l) &&
      match iteration env tick_fn token walk_fuel r l with
      | Continue l | Emitted _ l => on_time fuel r l
      | _ => true
      end
  end.

(** The first slots of the grid are exact multiples of the interval. *)
Definition exact_grid r (n : Z) : Prop :=
  forall k, 0 <= k <= n -> slot r k = Some (k * base_interval r).

(** The state is on the grid. *)
Definition on_grid r l : Prop :=
  initial_tick r <= tick l /\
  next_deadline l = start r + (tick l - initial_tick r) * base_interval r.

(** The slots from [k] on, for [n] of them, that are not silent. *)
Definition loud_slots r (k n : Z) : list Z :=
  filter (fun i => silent_slot (schedule r) (i * base_interval r) = false) (seqZ k n).

(** A tick and its instant, as the grid has it. *)
Definition on_slot r (i : Z) : Z * Z := (initial_tick r + i, i * base_interval r).

Lemma loud_slots_skip r k n m :
  0 <= n -> 0 <= m ->
  (forall i, k <= i < k + n -> silent_slot (schedule r) (i * base_interval r) = true) ->
  loud_slots r k (n + m) = loud_slots r (k + n) m.
Proof.
  intros Hn Hm Hs. unfold loud_slots. rewrite seqZ_app by lia. rewrite list.filter_app.
  match goal with |- ?a ++ _ = _ => assert (a = []) as ->; [|done] end.
  apply elem_of_nil_inv.
  intros i [Hi Hin%elem_of_seqZ]%list_elem_of_filter. rewrite Hs in Hi by lia. done.
Qed.

Lemma loud_slots_cons r k n :
  0 < n -> silent_slot (schedule r) (k * base_interval r) = false ->
  loud_slots r k n = k :: loud_slots r (k + 1) (n - 1).
Proof.
  intros Hn Hs. unfold loud_slots. rewrite (seqZ_cons k) by lia.
  rewrite list.filter_cons, decide_True by done. by rewrite Z.add_1_r, Z.sub_1_r.
Qed.

Section on_time_runs.
Context (r : Run) (K : Z).
Context (Hrec : keeps_rows (schedule r) = true).
Context (Hburst : burst_window (schedule r) = None).
Context (Hint : 0 < base_interval r) (Hgrid : exact_grid r K).

Lemma on_time_instant l :
  on_grid r l -> instant env (Datatypes.S (reads (io l))) <= next_deadline l ->
  emission_instant r l = (tick l - initial_tick r) * base_interval r /\
  row_instant r l = (tick l - initial_tick r) * base_interval r.
Proof.
  intros [H1 H2] H3. unfold emission_instant, row_instant, duration_sat_sub.
  rewrite (Z.max_l (next_deadline l)) by lia. rewrite H2. nia.
Qed.

(** A skip stays on the grid and passes over silent slots only. *)
Lemma skip_on_grid l l' :
  on_grid r l -> skipped r l l' -> tick l' - initial_tick r <= K ->
  on_grid r l' /\ tick l <= tick l' /\
  (forall i, tick l - initial_tick r <= i < tick l' - initial_tick r ->
     silent_slot (schedule r) (i * base_interval r) = true).
Proof.
  intros [H1 H2] Hs HK. destruct Hs as [n _ _ Ht Hd|k t Hk Ht Hd Hrows _ _].
  - split; [split; rewrite Ht; [done|by rewrite Hd]|]. split; [lia|]. intros; lia.
  - destruct (Hrows Hrec) as [Hle Hrow]. rewrite Ht in *.
    replace (initial_tick r + k - initial_tick r) with k in * by lia.
    assert (Some (k * base_interval r) = Some t) as [= <-] by (rewrite <- Hgrid, <- Hk; [done|lia]).
    split; [split; [lia|rewrite Hd; f_equal; nia]|]. split; [lia|].
    intros i Hi. destruct (Hrow i ltac:(lia)) as (u & Hu & Hsil).
    rewrite Hgrid in Hu by lia. by injection Hu as <-.
Qed.

Lemma run_is_loud l ctx :
  on_grid r l -> instant env (Datatypes.S (reads (io l))) <= next_deadline l -> may_run r l ctx ->
  (ctx_tick ctx, ctx_elapsed ctx) = on_slot r (tick l - initial_tick r) /\
  silent_slot (schedule r) ((tick l - initial_tick r) * base_interval r) = false.
Proof.
  intros Hg Ht (E1 & E2 & _ & _ & E3 & E4). destruct (on_time_instant l Hg Ht) as [H1 H2].
  unfold on_slot, silent_slot. rewrite E1, E2, H1. rewrite E2, H1 in E3. rewrite H2 in E4.
  split; [f_equal; lia|]. destruct (gap_window (schedule r)); [by rewrite E3, E4|by rewrite E4].
Qed.

(** The ticks a run on time has run, when it ends or is cut short: the grid,
    without the silent slots. *)
Lemma iterate_on_time fuel l cs out l' :
  on_grid r l -> on_time fuel r l = true ->
  iterate env tick_fn token walk_fuel fuel r l = (cs, out) ->
  (out = Ended l' \/ out = Unfinished l') -> tick l' - initial_tick r <= K ->
  (fun c => (ctx_tick c, ctx_elapsed c)) <$> cs
    = on_slot r <$> loud_slots r (tick l - initial_tick r) (tick l' - tick l).
Proof.
  revert l cs. induction fuel as [|fuel IH]; intros l cs Hg Hot; cbn [iterate].
  { intros [= <- <-] [[=]|[= ->]] _. by rewrite Z.sub_diag. }
  intros Hit Hout HK.
  assert (Hmid : forall l1 cs1, iterate env tick_fn token walk_fuel fuel r l1 = (cs1, out) ->
            tick l1 <= tick l').
  { intros l1 cs1 E1. apply (iterate_rows _ _ _ _ _ _ Hrec E1). by destruct Hout as [-> | ->]. }
  cbn [on_time] in Hot. apply andb_true_iff in Hot as [Hnow Hot]. apply Z.leb_le in Hnow.
  pose proof (iteration_spec r l) as Hi.
  destruct (iteration _ _ _ _ _ _) as [l1|ctx l1|l1|ctx e l1| |].
  - specialize (Hmid l1 cs Hit). destruct Hi as [Hs _].
    destruct (skip_on_grid l l1 Hg Hs ltac:(lia)) as (Hg1 & Hle & Hsil).
    rewrite (IH l1 cs Hg1 Hot Hit Hout HK).
    replace (tick l' - tick l) with ((tick l1 - tick l) + (tick l' - tick l1)) by lia.
    rewrite loud_slots_skip by (lia || (intros i Hi; apply Hsil; lia)). do 2 f_equal. lia.
  - destruct (iterate _ _ _ _ fuel r l1) as [cs1 out1] eqn:E. injection Hit as <- ->.
    specialize (Hmid l1 cs1 E). destruct Hi as (Hm & Ht & _ & d & Hd & Hdl).
    destruct (run_is_loud l ctx Hg Hnow Hm) as [Hc Hs].
    unfold interval_at in Hd. rewrite Hburst in Hd. injection Hd as <-.
    assert (Hg1 : on_grid r l1) by (destruct Hg; split; [lia|rewrite Hdl, Ht; nia]).
    rewrite loud_slots_cons by (done || lia). rewrite !fmap_cons, Hc. f_equal.
    rewrite (IH l1 cs1 Hg1 Hot E Hout HK). do 2 f_equal; lia.
  - destruct Hi as [_ Ht]. destruct Hout as [-> | ->]; simplify_eq.
    by rewrite Ht, Z.sub_diag.
  - by destruct Hout as [-> | ->].
  - by destruct Hout as [-> | ->].
  - destruct Hout as [-> | ->]; simplify_eq. by rewrite Z.sub_diag.
Qed.
End on_time_runs.

(** The slots of the grid below [total] are the first [n]. *)
Lemma loud_slots_end r total n m :
  0 < base_interval r -> total <= n * base_interval r -> 0 <= n -> n <= m ->
  (forall i, i ∈ loud_slots r 0 m -> i * base_interval r < total) ->
  loud_slots r 0 m = loud_slots r 0 n.
Proof.
  intros Hi Hn H0 Hm Hlt. unfold loud_slots in *. replace m with (n + (m - n)) in * by lia.
  rewrite seqZ_app, list.filter_app in * by lia.
  match goal with |- _ ++ ?b = _ => assert (b = []) as ->; [|apply app_nil_r] end.
  apply elem_of_nil_inv. intros i Hin. specialize (Hlt i ltac:(set_solver)).
  apply list_elem_of_filter in Hin as [_ Hin%elem_of_seqZ]. nia.
Qed.

Lemma iterate_below_total fuel r l cs out :
  iterate env tick_fn token walk_fuel fuel r l = (cs, out) ->
  Forall (fun c => past_total (schedule r) (ctx_elapsed c) = false) cs.
Proof.
  revert l cs out. induction fuel as [|fuel IH]; intros l cs out; cbn [iterate]; [by intros [= <- <-]|].
  pose proof (iteration_spec r l) as Hi. destruct (iteration _ _ _ _ _ _) as [l1|ctx l1|l1|ctx e l1| |].
  - apply IH.
  - destruct (iterate _ _ _ _ fuel r l1) as [cs1 out1] eqn:E. intros [= <- ->].
    constructor; [apply Hi|by eapply IH].
  - by intros [= <- <-].
  - intros [= <- <-]. repeat constructor. apply Hi.
  - by intros [= <- <-].
  - by intros [= <- <-].
Qed.

(** A run on time that nobody cancels ends at the first slot past the end. *)
Lemma iterate_ended r K fuel l cs l' :
  keeps_rows (schedule r) = true -> burst_window (schedule r) = None ->
  0 < base_interval r -> exact_grid r K ->
  (forall n, cancel_flag env n = false) -> (forall t, token t = false) ->
  on_grid r l -> on_time fuel r l = true ->
  iterate env tick_fn token walk_fuel fuel r l = (cs, Ended l') -> tick l' - initial_tick r <= K ->
  past_total (schedule r) ((tick l' - initial_tick r) * base_interval r) = true.
Proof.
  intros Hrec Hburst Hint Hgrid Hcan Htok. revert l cs.
  induction fuel as [|fuel IH]; intros l cs Hg Hot Hit HK; [done|].
  assert (Hmid : forall l1 cs1, iterate env tick_fn token walk_fuel fuel r l1 = (cs1, Ended l') ->
            tick l1 <= tick l') by (intros l1 cs1 E1; by apply (iterate_rows _ _ _ _ _ _ Hrec E1)).
  cbn [on_time iterate] in *. apply andb_true_iff in Hot as [Hnow Hot]. apply Z.leb_le in Hnow.
  pose proof (iteration_spec r l) as Hi.
  destruct (iteration _ _ _ _ _ _) as [l1|ctx l1|l1|ctx e l1| |]; try done.
  - specialize (Hmid l1 cs Hit). destruct Hi as [Hs _].
    destruct (skip_on_grid r K Hrec Hint Hgrid l l1 Hg Hs ltac:(lia)) as (Hg1 & _). by eapply IH.
  - destruct (iterate _ _ _ _ fuel r l1) as [cs1 out1] eqn:E. injection Hit as <- ->.
    destruct Hi as (_ & Ht & _ & d & Hd & Hdl).
    unfold interval_at in Hd. rewrite Hburst in Hd. injection Hd as <-.
    eapply IH; [|done|done|done]. destruct Hg; split; [lia|rewrite Hdl, Ht; nia].
  - injection Hit as <- ->. destruct Hi as [[Hs|[Hs|Hs]] Ht]; [by rewrite Hcan in Hs|by rewrite Htok in Hs|].
    rewrite Ht. by rewrite (proj1 (on_time_instant r Hint l Hg Hnow)) in Hs.
Qed.

(** C32: a run that keeps up plays its grid exactly. It is a run of [total] that
    is not cancelled, on a schedule without bursts whose silences keep rows
    ([keeps_rows]: it replays recorded rows, or has no recurring gap), whose
    slots, computed through binary64, are whole multiples of the interval as far
    as it gets ([exact_grid]). If the clock is never past a deadline it emits at
    the slots [0, 1, .., n - 1] of the grid below [total] that no silence
    covers, each once, in order, tick [first + k] exactly [k] intervals after
    the start, and nothing else. *)
Theorem on_time_run_is_grid fuel sch rate first anchor o t w r l cs l' total n
  (He : enter env sch rate first anchor o t w = Some (r, l))
  (Hrec : keeps_rows sch = true) (Hburst : burst_window sch = None)
  (Hint : 0 < base_interval r) (Htot : total_duration sch = Some total)
  (Hn : 0 <= n) (Hend : (n - 1) * base_interval r < total <= n * base_interval r)
  (Hcan : forall k, cancel_flag env k = false) (Htok : forall t, token t = false)
  (Hot : on_time fuel r l = true)
  (Hit : iterate env tick_fn token walk_fuel fuel r l = (cs, Ended l'))
  (Hgrid : exact_grid r (tick l' - first)) :
  (fun c => (ctx_tick c, ctx_elapsed c)) <$> cs = on_slot r <$> loud_slots r 0 n.
Proof.
  unfold enter in He. destruct (from_secs_f64 _) as [I|]; [|done]. cbn in He.
  destruct (match anchor with Some a => _ | None => _ end) as [a w1].
  injection He as <- <-. set (r := mk_run _ _ _ _ _) in *. set (l := mk_loop _ _ _ _ _ _ _ _ _) in *.
  assert (Hg : on_grid r l) by (split; cbn; lia).
  pose proof (iterate_on_time r (tick l' - first) Hrec Hburst Hint Hgrid fuel l cs _ l' Hg Hot Hit
    (or_introl eq_refl) ltac:(cbn; lia)) as Hcs.
  pose proof (iterate_ended r (tick l' - first) fuel l cs l' Hrec Hburst Hint Hgrid Hcan Htok Hg Hot
    Hit ltac:(cbn; lia)) as Hp.
  pose proof (iterate_below_total _ _ _ _ _ Hit) as Hb.
  unfold past_total in Hp, Hb. cbn [schedule r initial_tick] in Hp, Hb. rewrite Htot in Hp, Hb.
  apply Z.leb_le in Hp. rewrite Hcs. f_equal. cbn [tick l initial_tick r]. rewrite Z.sub_diag.
  apply (loud_slots_end r total); [done|lia|done| |].
  { assert (n - 1 < tick l' - first); [|lia].
    apply (Z.mul_lt_mono_pos_r (base_interval r)); [done|lia]. }
  intros i Hin. apply (list_elem_of_fmap_2 (on_slot r)) in Hin.
  cbn [tick l initial_tick r] in Hcs. rewrite Z.sub_diag in Hcs. rewrite <- Hcs in Hin.
  apply list_elem_of_fmap in Hin as (c & E & Hc). rewrite list.Forall_forall in Hb.
  specialize (Hb c Hc). apply Z.leb_gt in Hb.
  apply (f_equal snd) in E. cbn [snd on_slot] in E. lia.
Qed.

(** ** Accounting *)

(** Events, rejected events, sink failures and errors. *)
Definition tally (st : ScenarioStats) : Z * Z * Z * Z :=
  (total_events st, rejected_events st, total_sink_failures st, errors st).

(** One tick more: emitted, rejected by the encoder, or failed at the sink. *)
Definition one_more (a b : Z * Z * Z * Z) : Prop :=
  let '(t, r, f, e) := a in
  b = (t + 1, r, f, e) \/ b = (t, u64_sat_add r 1, f, u64_sat_add e 1) \/
  b = (t, r, u64_sat_add f 1, u64_sat_add e 1).

Lemma push_tally evs st : tally (fold_left push_metric evs st) = tally st.
Proof.
  revert st. induction evs as [|ev evs IH]; intros st; cbn [fold_left]; [done|]. rewrite IH.
  unfold push_metric. by destruct (track_close_series st).
Qed.

Lemma account_tally l w res evs flags st :
  (forall s, tally (flags s) = tally s) -> io_stats w = Some st ->
  exists st', io_stats (account_success env l w res evs flags).2 = Some st' /\
    one_more (tally st) (tally st').
Proof.
  intros Hf Hw. unfold account_success, elapsed_since, now, system_now. rewrite Hw.
  destruct (NANOS_PER_SEC <=? _), (delivered res); cbn; eexists; (split; [done|]);
    rewrite push_tally, Hf; by left.
Qed.

Lemma settle_tally r l ctx d b outcome st :
  io_stats outcome.2 = Some st ->
  match settle env r l ctx d b outcome with
  | Emitted _ l' => exists st', io_stats (io l') = Some st' /\ one_more (tally st) (tally st')
  | _ => True
  end.
Proof.
  intros Hw. unfold settle. destruct outcome as [[[[[res fs] evs] o] t] w]. cbn [snd] in Hw.
  destruct res as [res|[e|[]| | | |]]; try done.
  - destruct (account_tally l w res evs (fun st => set_flags st false b
      (existsb (is_in_spike (ctx_elapsed ctx)) (spike_windows (schedule r)))) st) as (st' & E & Ho);
      [done|done|].
    destruct (account_success _ _ _ _ _ _) as [[? ?] ?]. by exists st'.
  - by destruct fs.
  - unfold record_rejected_event, observe_rejected.
    pose proof (record_reads (reject_warn l) w (sch_name (schedule r))
      "events rejected by the encoder" reason) as (_ & Hs & _).
    destruct (record _ _ _ _ _ _) as [? w']. cbn in Hs. cbn. rewrite Hs, Hw. cbn.
    eexists. split; [done|]. unfold one_more, tally. cbn. auto.
  - destruct (on_sink_error (schedule r)); [|done]. unfold observe.
    pose proof (record_reads (sink_warn l) w (sch_name (schedule r)) "sink errors" io_err) as (_ & Hs & _).
    destruct (record _ _ _ _ _ _) as [? w']. cbn in Hs. cbn. rewrite Hs, Hw. cbn.
    eexists. split; [done|]. unfold one_more, tally. cbn. auto.
Qed.

(** Where the statistics of an iteration come from. *)
Lemma iteration_stats r l :
  match iteration env tick_fn token walk_fuel r l with
  | Continue l' => io_stats (io l') = io_stats (io l) \/
      io_stats (io l') = (fun st => set_flags st true false (in_cardinality_spike st)) <$> io_stats (io l)
  | Break l' => io_stats (io l') = io_stats (io l)
  | Panicked | OutOfFuel => True
  | settled => exists ctx d b outcome,
      io_stats outcome.2 = io_stats (io l) /\ settle env r l ctx d b outcome = settled
  end.
Proof.
  unfold iteration. cbn [cancelled now fst snd advance reads].
  fold (emission_instant r l). fold (row_instant r l).
  destruct (_ || token (callback l)); [done|]. destruct (past_total _ _); [done|].
  set (w := advance (advance (io l))). set (w' := with_stats w _).
  destruct (let! gap := gap_window (schedule r) in _) as [gap|] eqn:Eg.
  { assert (gap_window (schedule r) = Some gap) as Hgw
      by (destruct (gap_window (schedule r)); [cbn in Eg; by destruct (is_in_gap _ _)|done]).
    pose proof (wall_gap_spec r l w' gap Hgw) as Hg.
    destruct (wall_gap _ _ _ _ _ _ _); try done. right. by destruct Hg as (_ & _ & _ & ->). }
  destruct (is_in_gap_window _ _) eqn:Eo.
  { pose proof (row_gap_spec r l w' Eo) as Hg.
    destruct (row_gap _ _ _ _); try done. right. by destruct Hg as (_ & -> & _). }
  unfold emit. destruct (match _ with Some m => _ | None => Some _ end) as [d|]; [|done].
  cbn [now fst snd]. unfold select_cancel.
  match goal with |- context [let (_, _) := ?c in _] =>
    assert (exists b n, c = (b, Nat.iter n advance w)) as (b & n & ->) end.
  { destruct (_ <? _); [eexists _, 2%nat|eexists _, 1%nat]; done. }
  assert (Hn : io_stats (Nat.iter n advance w) = io_stats (io l))
    by (clear; induction n as [|n IH]; [done|exact IH]).
  destruct b; [by left|].
  match goal with |- context [settle _ _ _ ?c ?d ?b ?o] =>
    pose proof (settle_spec r l c d b o) as Hs;
    pose proof (run_tick_reads l (Nat.iter n advance w) c) as [_ Ht];
    set (out := o) in *; set (ctx := c) in *; set (bb := b) in * end.
  destruct (settle env r l ctx d bb out) eqn:Es; try done;
    exists ctx, d, bb, out; (split; [by rewrite Ht|exact Es]).
Qed.

Lemma iteration_tally r l st :
  io_stats (io l) = Some st ->
  match iteration env tick_fn token walk_fuel r l with
  | Continue l' | Break l' => tally <$> io_stats (io l') = Some (tally st)
  | Emitted _ l' => exists st', io_stats (io l') = Some st' /\ one_more (tally st) (tally st')
  | _ => True
  end.
Proof.
  intros Hst. pose proof (iteration_stats r l) as Hi.
  destruct (iteration _ _ _ _ _ _) as [l1|ctx l1|l1|ctx e l1| |]; try done.
  - destruct Hi as [-> | ->]; by rewrite Hst.
  - destruct Hi as (c & d & b & out & Ho & Hs). rewrite Hst in Ho.
    pose proof (settle_tally r l c d b out st Ho) as Ht. by rewrite Hs in Ht.
  - by rewrite Hi, Hst.
Qed.

(** Every tick is accounted for, once. Over a run that has not failed, the
    events emitted, the events the encoder rejected and the failures of the
    sink add up to the ticks the callback was given, and the error counter
    moves by the last two, as long as the counters do not saturate. *)
Theorem every_tick_counted fuel r l cs out l' st
  (Hst : io_stats (io l) = Some st)
  (Hit : iterate env tick_fn token walk_fuel fuel r l = (cs, out))
  (Hout : out = Ended l' \/ out = Unfinished l')
  (Hsat : Z.max (rejected_events st) (Z.max (total_sink_failures st) (errors st))
            + Z.of_nat (length cs) <= u64_max) :
  exists st', io_stats (io l') = Some st' /\
    total_events st' + rejected_events st' + total_sink_failures st'
      = total_events st + rejected_events st + total_sink_failures st + Z.of_nat (length cs) /\
    errors st' - errors st = (rejected_events st' - rejected_events st)
      + (total_sink_failures st' - total_sink_failures st).
Proof.
  revert l cs st Hst Hit Hsat. induction fuel as [|fuel IH]; intros l cs st Hst; cbn [iterate].
  { intros [= <- <-] _. destruct Hout as [[=]|[= ->]]. exists st. cbn. split; [done|lia]. }
  pose proof (iteration_tally r l st Hst) as Hi.
  destruct (iteration _ _ _ _ _ _) as [l1|ctx l1|l1|ctx e l1| |].
  - intros Hit Hsat. destruct (io_stats (io l1)) as [st1|] eqn:E1; [|done].
    cbn in Hi. injection Hi as Ht Hr Hf He.
    destruct (IH l1 cs st1 E1 Hit ltac:(lia)) as (st' & E' & H1 & H2).
    exists st'. split; [done|]. lia.
  - destruct (iterate _ _ _ _ fuel r l1) as [cs1 out1] eqn:E. intros [= <- ->] Hsat.
    destruct Hi as (st1 & E1 & Hm). cbn [length] in *.
    unfold one_more, tally, u64_sat_add in Hm.
    destruct (IH l1 cs1 st1 E1 E) as (st' & E' & H1 & H2).
    { destruct Hm as [[= Ea Eb Ec Ed]|[[= Ea Eb Ec Ed]|[= Ea Eb Ec Ed]]]; lia. }
    exists st'. split; [done|].
    destruct Hm as [[= Ea Eb Ec Ed]|[[= Ea Eb Ec Ed]|[= Ea Eb Ec Ed]]]; lia.
  - intros [= <- <-] _. destruct Hout as [[= ->]|[=]].
    destruct (io_stats (io l')) as [st1|]; [|done].
    cbn in Hi. injection Hi as Ht Hr Hf He. exists st1. cbn. split; [done|]. lia.
  - intros [= <- <-] _. by destruct Hout.
  - intros [= <- <-] _. by destruct Hout.
  - intros [= <- <-] _. destruct Hout as [[=]|[= ->]]. exists st. cbn. split; [done|lia].
Qed.

(** ** What the loop leaves alone *)

(** A part of the statistics that counting, failing and pushing do not touch. *)
Class Untouched {A : Type} (part : ScenarioStats -> A) : Prop := {
  untouched_flags st a b c : part (set_flags st a b c) = part st;
  untouched_failures st a b c d e : part (set_failures st a b c d e) = part st;
  untouched_tick st b rt at_ : part (count_tick st b rt at_) = part st;
  untouched_push st ev : part (push_metric st ev) = part st;
}.

Section untouched.
Context {A : Type} (part : ScenarioStats -> A) `{!Untouched part}.

Lemma settle_untouched r l ctx d b outcome :
  match settle env r l ctx d b outcome with
  | Emitted _ l' | Return _ _ l' => part <$> io_stats (io l') = part <$> io_stats outcome.2
  | _ => True
  end.
Proof.
  unfold settle. destruct outcome as [[[[[res fs] evs] o] t] w]. cbn [snd].
  assert (Hfail : forall st e, part (record_sink_failure st e) = part st)
    by (intros; apply untouched_failures).
  assert (Hrec : forall lim a c e, io_stats (record env lim w a c e).2 = io_stats w)
    by (intros; apply record_reads).
  assert (Hfl : forall o : option ScenarioStats, part <$> ((fun st => set_flags st false b
    (existsb (is_in_spike (ctx_elapsed ctx)) (spike_windows (schedule r)))) <$> o) = part <$> o)
    by (intros []; cbn; [f_equal; apply untouched_flags|done]).
  destruct res as [res|[e|[]| | | |]]; try done.
  - unfold account_success, elapsed_since, now, system_now.
    destruct (io_stats w) as [st|] eqn:Ew; cbn; [|by rewrite Ew].
    assert (Hpush : forall evs st, part (fold_left push_metric evs st) = part st).
    { clear - Untouched0. induction evs as [|ev evs IH]; intros st; cbn; [done|].
      by rewrite IH, untouched_push. }
    destruct (NANOS_PER_SEC <=? _), (delivered res); cbn; f_equal;
      by rewrite Hpush, untouched_flags, untouched_tick.
  - destruct fs; cbn; [|done]. destruct (io_stats w); cbn; [|done]. f_equal.
    by rewrite untouched_flags, Hfail.
  - unfold record_rejected_event, observe_rejected.
    specialize (Hrec (reject_warn l) (sch_name (schedule r)) "events rejected by the encoder" reason)%string.
    destruct (record _ _ _ _ _ _) as [? w']. cbn in Hrec |- *. rewrite Hfl, Hrec.
    destruct (io_stats w); cbn; [f_equal; apply untouched_failures|done].
  - destruct (on_sink_error (schedule r)); cbn.
    + unfold observe.
      specialize (Hrec (sink_warn l) (sch_name (schedule r)) "sink errors" io_err)%string.
      destruct (record _ _ _ _ _ _) as [? w']. cbn in Hrec |- *. rewrite Hrec.
      destruct (io_stats w); cbn; [f_equal; by rewrite untouched_flags, Hfail|done].
    + destruct (io_stats w); cbn; [f_equal; apply Hfail|done].
Qed.

Lemma iterate_untouched fuel r l cs out l' :
  iterate env tick_fn token walk_fuel fuel r l = (cs, out) -> left_at out = Some l' ->
  part <$> io_stats (io l') = part <$> io_stats (io l).
Proof.
  revert l cs. induction fuel as [|fuel IH]; intros l cs; cbn [iterate].
  { by intros [= <- <-] [= ->]. }
  pose proof (iteration_stats r l) as Hi. destruct (iteration _ _ _ _ _ _) as [l1|ctx l1|l1|ctx e l1| |].
  - intros Hr Hl. rewrite (IH l1 cs Hr Hl). destruct Hi as [-> | ->]; [done|].
    destruct (io_stats (io l)); cbn; [f_equal; apply untouched_flags|done].
  - destruct (iterate _ _ _ _ fuel r l1) as [cs1 out1] eqn:E. intros [= <- ->] Hl.
    rewrite (IH l1 cs1 E Hl). destruct Hi as (c & d & b & o & Ho & Hs).
    pose proof (settle_untouched r l c d b o) as Ht. rewrite Hs, Ho in Ht. done.
  - intros [= <- <-] [= ->]. by rewrite Hi.
  - intros [= <- <-] [= ->]. destruct Hi as (c & d & b & o & Ho & Hs).
    pose proof (settle_untouched r l c d b o) as Ht. rewrite Hs, Ho in Ht. done.
  - by intros [= <- <-].
  - by intros [= <- <-] [= ->].
Qed.
End untouched.

(** ** Timestamps *)

Lemma round_half_even_nonneg n d : 0 <= n -> 0 < d -> 0 <= round_half_even n d.
Proof.
  intros Hn Hd. unfold round_half_even. pose proof (Z.div_pos n d Hn Hd).
  repeat case_match; lia.
Qed.

Lemma from_secs_nonneg x d : from_secs_f64 x = Some d -> 0 <= d.
Proof.
  unfold from_secs_f64. destruct (to_sf x) as [s| | |[] m e]; try done; [by intros [= <-]|].
  match goal with |- context [DURATION_MAX <? ?n] => assert (0 <= n) end.
  { destruct (Z.leb_spec 0 e).
    - pose proof (Z.pow_nonneg 2 e). lia.
    - apply round_half_even_nonneg; [lia|]. apply Z.pow_pos_nonneg; lia. }
  destruct (DURATION_MAX <? _); [done|]. by intros [= <-].
Qed.

Lemma later_instant r l l' :
  monotonic env -> next_deadline l <= next_deadline l' -> (reads (io l) < reads (io l'))%nat ->
  emission_instant r l <= emission_instant r l'.
Proof.
  intros Hm Hd Hr. unfold emission_instant, duration_sat_sub.
  pose proof (Hm (Datatypes.S (reads (io l))) (Datatypes.S (reads (io l'))) ltac:(lia)). lia.
Qed.

(** The emissions of [cs] come in order, from [from] on, stamped by the anchor. *)
Definition ordered r (from : Z) (cs : list TickContext) : Prop :=
  StronglySorted Z.le (ctx_elapsed <$> cs) /\
  Forall (fun c => from <= ctx_elapsed c /\
    ctx_wall_clock c = wall_at (wall r) (start r) (ctx_elapsed c)) cs.

Lemma ordered_mono r a b cs : a <= b -> ordered r b cs -> ordered r a cs.
Proof.
  intros Hab [H1 H2]. split; [done|]. eapply Forall_impl; [exact H2|].
  intros c [? ?]. split; [lia|done].
Qed.

Lemma ordered_cons r l ctx cs :
  may_run r l ctx -> ordered r (emission_instant r l) cs ->
  ordered r (emission_instant r l) (ctx :: cs).
Proof.
  intros (_ & He & Hw & _) [H1 H2]. split.
  - rewrite fmap_cons. constructor; [done|]. apply list.Forall_forall.
    intros x (c & -> & Hin)%list_elem_of_fmap. rewrite list.Forall_forall in H2.
    specialize (H2 c Hin). lia.
  - constructor; [rewrite He; split; [lia|done]|done].
Qed.

Lemma ordered_stamps r from cs : ordered r from cs -> StronglySorted Z.le (ctx_wall_clock <$> cs).
Proof.
  intros [Hs Hf]. induction cs as [|c cs IH]; [constructor|]. rewrite fmap_cons in *.
  inversion Hs as [|? ? Hs' Hle]; subst. inversion Hf as [|? ? [_ Hc] Hf']; subst.
  constructor; [by apply IH|]. rewrite list.Forall_forall in Hle. rewrite list.Forall_forall in Hf'.
  apply list.Forall_forall.
  intros x (c' & -> & Hin)%list_elem_of_fmap. destruct (Hf' c' Hin) as [_ ->]. rewrite Hc.
  specialize (Hle (ctx_elapsed c') (list_elem_of_fmap_2 _ _ _ Hin)). unfold wall_at. lia.
Qed.

Lemma skip_later r l l' :
  monotonic env -> has_recorded_rows (schedule r) = false ->
  skipped r l l' -> (reads (io l) < reads (io l'))%nat ->
  emission_instant r l <= emission_instant r l'.
Proof.
  intros Hm Hsyn Hs Hr.
  destruct Hs as [n _ _ _ Hd|k u Hk _ Hd _ Hlate Hsome]; [apply later_instant; [done|lia|done]|].
  assert (gap_windows (schedule r) = []) as Hgw.
  { unfold has_recorded_rows in Hsyn. destruct (gap_windows (schedule r)); [done|].
    by rewrite orb_true_r in Hsyn. }
  assert (keeps_rows (schedule r) = false) as Hkr.
  { unfold keeps_rows. rewrite (Hsome Hgw). cbn. by rewrite Hsyn. }
  specialize (Hlate Hkr). unfold emission_instant at 2, duration_sat_sub. lia.
Qed.

Lemma interval_nonneg sch base e d : 0 <= base -> interval_at sch base e = Some d -> 0 <= d.
Proof.
  intros Hb. unfold interval_at.
  destruct (let! burst := _ in _); [apply from_secs_nonneg|by intros [= <-]].
Qed.

Lemma iterate_ordered fuel r l cs out :
  monotonic env -> has_recorded_rows (schedule r) = false -> 0 <= base_interval r ->
  iterate env tick_fn token walk_fuel fuel r l = (cs, out) ->
  ordered r (emission_instant r l) cs.
Proof.
  intros Hm Hsyn Hb. revert l cs.
  assert (Hnil : forall a, ordered r a []) by (intros a; split; constructor).
  induction fuel as [|fuel IH]; intros l cs; cbn [iterate]; [by intros [= <- <-]|].
  pose proof (iteration_spec r l) as Hi.
  destruct (iteration _ _ _ _ _ _) as [l1|ctx l1|l1|ctx e l1| |]; try by intros [= <- <-].
  - intros Hr. destruct Hi as [Hs Hrd]. apply (ordered_mono r _ (emission_instant r l1)); [|by apply IH].
    by apply skip_later.
  - destruct (iterate _ _ _ _ fuel r l1) as [cs1 out1] eqn:E. intros [= <- ->].
    destruct Hi as (Hmr & _ & Hrd & d & Hd & Hdl). apply ordered_cons; [done|].
    apply (ordered_mono r _ (emission_instant r l1)); [|by apply IH].
    apply later_instant; [done| |done]. apply interval_nonneg in Hd; [lia|done].
  - intros [= <- <-]. destruct Hi as [Hmr _]. apply ordered_cons; [done|apply Hnil].
Qed.

(** A synthetic scenario's clock never goes back. Without recorded rows,
    whatever its gaps, bursts and delays, the instants a run emits at are
    non-decreasing, and with them the timestamps of its events. *)
Theorem instants_ordered fuel sch rate first anchor o t w cs out
  (Hm : monotonic env) (Hsyn : has_recorded_rows sch = false)
  (Hrun : run_schedule_loop_with_initial_tick env tick_fn token walk_fuel fuel sch rate first anchor
            o t w = (cs, out)) :
  StronglySorted Z.le (ctx_elapsed <$> cs) /\ StronglySorted Z.le (ctx_wall_clock <$> cs).
Proof.
  unfold run_schedule_loop_with_initial_tick, enter in Hrun.
  destruct (from_secs_f64 _) as [I|] eqn:EI; [|simplify_eq/=; split; constructor].
  apply from_secs_nonneg in EI. cbn in Hrun.
  destruct (match anchor with Some a => _ | None => _ end) as [a w1].
  apply iterate_ordered in Hrun; [|done|done|done].
  split; [apply Hrun|by eapply ordered_stamps].
Qed.

(** ** Termination *)

(** Without silences and bursts an iteration computes no duration that could
    panic, and walks nowhere. *)
Lemma plain_iteration r l :
  gap_window (schedule r) = None -> gap_windows (schedule r) = [] ->
  burst_window (schedule r) = None ->
  match iteration env tick_fn token walk_fuel r l with Panicked | OutOfFuel => False | _ => True end.
Proof.
  intros Hg Hw Hb. unfold iteration. rewrite Hg, Hw. cbn [cancelled now fst snd is_in_gap_window existsb].
  destruct (_ || _); [done|]. destruct (past_total _ _); [done|].
  unfold emit. rewrite Hb. cbn [now fst snd]. unfold select_cancel.
  destruct (if _ <? _ then _ else _) as [[] w]; [done|].
  match goal with |- context [settle _ _ _ ?c ?d ?b ?o] => pose proof (settle_spec r l c d b o) as Hs end.
  by destruct (settle _ _ _ _ _ _ _).
Qed.

Lemma cancelled_iteration r l :
  cancel_flag env (reads (io l)) = true ->
  iteration env tick_fn token walk_fuel r l = Break (set_io l (advance (io l))).
Proof. intros Hc. unfold iteration, cancelled. by rewrite Hc. Qed.

(** A scenario with a duration ends. With no silences and no bursts, and a
    cancel that stays (a wait it ends finds the token cancelled), a run whose
    [total] is at most [k] intervals away leaves its loop within [k + 2]
    iterations, whatever the clock, the sink and the callback do. *)
Theorem run_ends k fuel r l total
  (Hg : gap_window (schedule r) = None) (Hw : gap_windows (schedule r) = [])
  (Hb : burst_window (schedule r) = None) (Ht : total_duration (schedule r) = Some total)
  (Hi : 0 < base_interval r)
  (Hc : forall n m, (n < m)%nat -> cancel_wins env n = true -> cancel_flag env m = true)
  (Hk : total - (next_deadline l - start r) <= Z.of_nat k * base_interval r)
  (Hf : (k + 2 <= fuel)%nat) :
  exists cs l', iterate env tick_fn token walk_fuel fuel r l = (cs, Ended l') \/
    exists e, iterate env tick_fn token walk_fuel fuel r l = (cs, Failed e l').
Proof.
  revert k l Hk Hf. induction fuel as [|fuel IH]; intros k l Hk Hf; [lia|]. cbn [iterate].
  pose proof (plain_iteration r l Hg Hw Hb) as Hp. pose proof (iteration_spec r l) as Hs.
  destruct (iteration _ _ _ _ _ _) as [l1|ctx l1|l1|ctx e l1| |]; try done; try by eauto.
  - destruct Hs as [[n Hn Hlt _ _|j t _ _ _ _ _ Hsome] _];
      [|specialize (Hsome Hw); by rewrite Hg in Hsome].
    destruct fuel as [|fuel]; [lia|]. cbn [iterate].
    rewrite cancelled_iteration by (by eapply Hc). by eauto.
  - destruct Hs as ((_ & He & _ & Hpast & _) & _ & _ & d & Hd & Hdl).
    unfold interval_at in Hd. rewrite Hb in Hd. injection Hd as <-.
    unfold past_total in Hpast. rewrite Ht in Hpast. apply Z.leb_gt in Hpast.
    rewrite He in Hpast. unfold emission_instant, duration_sat_sub in Hpast.
    destruct k as [|k]; [lia|].
    destruct (IH k l1 ltac:(lia) ltac:(lia)) as (cs & l' & [E|[e E]]); rewrite E; eauto 6.
Qed.
End facts.

(** ** Concrete runs *)

(** A sink that keeps the bytes it is given and fails on an empty write. *)
#[local] Instance log_sink : Sink (list Z) :=
  default_sink (fun s b => match b with [] => (Err (SinkFailed "refused"), s) | _ => (Ok tt, s ++ b) end)
    (fun s => (Ok tt, s)).

(** A callback that writes its tick number, and one whose every third tick is
    rejected by the encoder and every fifth refused by the sink. *)
Definition ex_tick (t : unit) (ctx : TickContext) (o : TickOutput)
  : result TickResult SondaError * TickOutput * list MetricEvent * unit :=
  (Ok (mk_tick_result 1 true), mk_output [Bytes [ctx_tick ctx]] (spare o) [], [], t).

Definition ex_faulty_tick (t : unit) (ctx : TickContext) (o : TickOutput)
  : result TickResult SondaError * TickOutput * list MetricEvent * unit :=
  if ctx_tick ctx mod 3 =? 2 then (Err (Encoder (EventRejected "no label")), o, [], t)
  else (Ok (mk_tick_result 1 true),
        mk_output [Bytes (if ctx_tick ctx mod 5 =? 4 then [] else [ctx_tick ctx])] (spare o) [], [], t).

Definition never (_ : unit) : bool := false.

(** A clock that is never late: a nanosecond a reading. *)
Definition prompt_env : Env :=
  mk_env (fun n => Z.of_nat n) (fun n => Z.of_nat n) (fun _ => false) (fun _ => false).

(** The clock of a sink that blocks for 650 ms after the second tick, then 40 ms
    a reading. *)
Definition stalled_env : Env :=
  mk_env (fun n => if (n <? 10)%nat then Z.of_nat n else 850000000 + (Z.of_nat n - 10) * 40000000)
    (fun n => Z.of_nat n) (fun _ => false) (fun _ => false).

(** The clock of a loop that keeps up: 200 ms every four readings. *)
Definition steady_env : Env :=
  mk_env (fun n => Z.of_nat n / 4 * 200000000) (fun n => Z.of_nat n) (fun _ => false) (fun _ => false).

Lemma prompt_env_monotonic : monotonic prompt_env.
Proof. intros n m Hnm. cbn. lia. Qed.

(** [5.0] and [1.0]. *)
Definition rate_5 : f64 := 4617315517961601024.
Definition rate_1 : f64 := 4607182418800017408.

Definition ms : Z := 1000000.

Definition ex_schedule (total : Z) (gap : option GapWindow) (windows : list OneShotGap)
  (burst : option BurstWindow) (replay : bool) : ParsedSchedule :=
  mk_schedule replay (Some total) gap windows burst [] [] Warn "s" Now.

Definition ex_io (st : option ScenarioStats) : Io (list Z) := mk_io 0 st [] [].

Definition ex_run (env : Env) (sch : ParsedSchedule) (rate : f64) (first : Z)
  (tick_fn : unit -> TickContext -> TickOutput ->
     result TickResult SondaError * TickOutput * list MetricEvent * unit)
  (st : option ScenarioStats) : list TickContext * Outcome :=
  run_schedule_loop_with_initial_tick env tick_fn never 100 100 sch rate first None
    for_schedule_loop tt (ex_io st).


(** The ticks a run gave its callback, with their instants. *)
Definition played {S T : Type} (c : list TickContext * @Outcome S T) : list (Z * Z) :=
  (fun x => (ctx_tick x, ctx_elapsed x)) <$> c.1.

Lemma recorded_rows_kept_witness :
  let sch := ex_schedule (2000 * ms) (Some (mk_gap_window (1000 * ms) (200 * ms))) [] None true in
  let c := ex_run stalled_env sch rate_5 0 ex_tick None in
  ctx_tick <$> c.1 = [0; 1; 2; 3; 4; 5; 6; 7; 8] /\
  exists interval l', left_at c.2 = Some l' /\
    forall k, 0 <= k < tick l' -> k ∈ (ctx_tick <$> c.1) \/ declared_silent sch interval 0 k.
Proof.
  intros sch c. split; [vm_compute; reflexivity|].
  destruct (left_at c.2) as [l'|] eqn:El; [|vm_compute in El; discriminate].
  destruct (recorded_rows_kept stalled_env ex_tick never 100 100 sch rate_5 0 None for_schedule_loop tt
    (ex_io None) c.1 c.2 l') as (interval & _ & _ & _ & _ & Hk);
    [vm_compute; reflexivity|unfold c, ex_run; by destruct (run_schedule_loop_with_initial_tick _ _ _ _ _ _ _ _ _ _ _ _)|done|].
  exists interval, l'. split; [reflexivity|exact Hk].
Defined.

Definition ex_grid_schedule : ParsedSchedule :=
  ex_schedule (2000 * ms) (Some (mk_gap_window (1000 * ms) (200 * ms))) [mk_gap (500 * ms) (200 * ms)]
    None false.

(** The run of [ex_grid_schedule] at 5 ticks a second, after [enter]. *)
Definition ex_grid_start : Run * @LoopState (list Z) unit :=
  (mk_run ex_grid_schedule (200 * ms) 0 0 (mk_wall 1 0),
   mk_loop (mk_io 2 None [] []) tt for_schedule_loop 0 0 0 0 new_limiter new_limiter).

Lemma exact_grid_check r n :
  forallb (fun k => bool_decide (slot r k = Some (k * base_interval r))) (seqZ 0 (n + 1)) = true ->
  exact_grid r n.
Proof.
  intros Hf k Hk. rewrite forallb_forall in Hf.
  eapply bool_decide_eq_true_1, Hf. apply list_elem_of_In, elem_of_seqZ. lia.
Qed.

Lemma on_time_run_is_grid_witness :
  let c := iterate steady_env ex_tick never 100 100 ex_grid_start.1 ex_grid_start.2 in
  played c = on_slot ex_grid_start.1 <$> loud_slots ex_grid_start.1 0 10 /\
  ctx_tick <$> c.1 = [0; 1; 2; 5; 6; 7; 8].
Proof.
  intros c. split; [|vm_compute; reflexivity].
  destruct (iterate steady_env ex_tick never 100 100 ex_grid_start.1 ex_grid_start.2)
    as [cs out] eqn:Ec.
  destruct out as [l'| | |] eqn:Eo; try (exfalso; vm_compute in Ec; discriminate).
  assert (Htick : tick l' = 10) by (vm_compute in Ec; injection Ec as _ <-; reflexivity).
  unfold c, played. cbn [fst].
  assert (He : enter steady_env ex_grid_schedule rate_5 0 None for_schedule_loop tt (ex_io None)
    = Some (ex_grid_start.1, ex_grid_start.2)) by (vm_compute; reflexivity).
  assert (Hend : (10 - 1) * base_interval ex_grid_start.1 < 2000 * ms <=
    10 * base_interval ex_grid_start.1) by (vm_compute; split; [reflexivity|discriminate]).
  assert (Hot : on_time steady_env ex_tick never 100 100 ex_grid_start.1 ex_grid_start.2 = true)
    by (vm_compute; reflexivity).
  assert (Hgrid : exact_grid ex_grid_start.1 (tick l' - 0))
    by (rewrite Htick; apply exact_grid_check; vm_compute; reflexivity).
  clear Eo. revert He Hend Hot Ec Hgrid. generalize ex_grid_start.2 as l.
  intros l He Hend Hot Ec Hgrid.
  exact (on_time_run_is_grid steady_env ex_tick never 100 100 ex_grid_schedule rate_5 0 None
    for_schedule_loop tt (ex_io None) ex_grid_start.1 l cs l' (2000 * ms) 10 He eq_refl eq_refl
    (eq_refl : 0 < 200 * ms) eq_refl ltac:(lia) Hend (fun _ => eq_refl) (fun _ => eq_refl) Hot Ec Hgrid).
Defined.

Lemma every_tick_counted_witness :
  let c := ex_run prompt_env (ex_schedule (2000 * ms) None [] None false) rate_5 0 ex_faulty_tick
             (Some default_stats) in
  exists l', c.2 = Ended l' /\ tally <$> io_stats (io l') = Some (5, 3, 2, 5) /\
  exists st', io_stats (io l') = Some st' /\
    total_events st' + rejected_events st' + total_sink_failures st' = 0 + Z.of_nat (length c.1).
Proof.
  unfold ex_run, run_schedule_loop_with_initial_tick.
  destruct (enter _ _ _ _ _ _ _ _) as [[r l]|] eqn:Ee; [|vm_compute in Ee; discriminate].
  assert (Hst : io_stats (io l) = Some default_stats) by (vm_compute in Ee; injection Ee as <- <-; reflexivity).
  destruct (iterate prompt_env ex_faulty_tick never 100 100 r l) as [cs out] eqn:Ei. cbn [fst snd].
  assert (Hcs : length cs = 10%nat /\ exists l', out = Ended l' /\
    tally <$> io_stats (io l') = Some (5, 3, 2, 5)).
  { vm_compute in Ee. injection Ee as <- <-. vm_compute in Ei. injection Ei as <- <-.
    split; [reflexivity|]. eexists. split; [reflexivity|]. vm_compute. reflexivity. }
  destruct Hcs as (Hlen & l' & -> & Ht). exists l'. split; [done|]. split; [exact Ht|].
  destruct (every_tick_counted prompt_env ex_faulty_tick never 100 100 r l cs (Ended l') l'
    default_stats Hst Ei (or_introl eq_refl)) as (st' & E & H1 & _); [rewrite Hlen; vm_compute; discriminate|].
  exists st'. split; [exact E|]. exact H1.
Defined.

Lemma instants_ordered_witness :
  let sch := ex_schedule (4000 * ms) (Some (mk_gap_window (1000 * ms) (400 * ms))) []
               (Some (mk_burst_window (1000 * ms) (200 * ms) rate_5)) false in
  let c := ex_run prompt_env sch rate_5 0 ex_tick None in
  StronglySorted Z.le (ctx_elapsed <$> c.1) /\ length c.1 = 29%nat.
Proof.
  intros sch c. split; [|vm_compute; reflexivity].
  refine (proj1 (instants_ordered prompt_env ex_tick never 100 100 sch rate_5 0 None for_schedule_loop tt
    (ex_io None) c.1 c.2 prompt_env_monotonic eq_refl _)).
  unfold c, ex_run. by destruct (run_schedule_loop_with_initial_tick _ _ _ _ _ _ _ _ _ _ _ _).
Defined.

Lemma run_ends_witness :
  let r := mk_run (ex_schedule (2000 * ms) None [] None false) (200 * ms) 0 0 (mk_wall 0 0) in
  let l := mk_loop (ex_io None) tt for_schedule_loop 0 0 0 0 new_limiter new_limiter in
  exists cs l', iterate stalled_env ex_tick never 100 12 r l = (cs, Ended l') \/
    exists e, iterate stalled_env ex_tick never 100 12 r l = (cs, Failed e l').
Proof.
  intros r l. refine (run_ends stalled_env ex_tick never 100 10 12 r l (2000 * ms)
    eq_refl eq_refl eq_refl eq_refl _ _ _ _); [reflexivity|done|vm_compute; discriminate|lia].
Defined.

(** ** What the loop does not do *)

(** Recurring gaps of 2 s and bursts of 5 times the rate for 2 s, every 10 s,
    at a tick a second. *)
Definition ex_burst_gap (replay : bool) : ParsedSchedule :=
  ex_schedule (12000 * ms) (Some (mk_gap_window (10000 * ms) (2000 * ms))) []
    (Some (mk_burst_window (10000 * ms) (2000 * ms) rate_5)) replay.

(** The tick counter of a synthetic run is not monotonic: after a burst and a
    gap the loop recomputes it from the clock at the base rate, and ticks that
    already ran run again. *)
Lemma ticks_repeat_after_burst_and_gap :
  let c := played (ex_run prompt_env (ex_burst_gap false) rate_1 0 ex_tick None) in
  drop 10 c = [(10, 2000 * ms); (11, 3000 * ms); (12, 4000 * ms); (13, 5000 * ms); (14, 6000 * ms);
     (15, 7000 * ms); (10, 10000 * ms); (11, 10200 * ms); (12, 10400 * ms); (13, 10600 * ms);
     (14, 10800 * ms); (15, 11000 * ms); (16, 11200 * ms); (17, 11400 * ms); (18, 11600 * ms);
     (19, 11800 * ms)].
Proof. vm_compute. reflexivity. Qed.

(** A replay run that bursts is put back on the base grid by a gap: the row
    owed at 8 s waits for 16 intervals from the start, 6 s after the gap's end
    at 10 s, and here the run is over before. *)
Lemma replay_stalls_after_burst_and_gap :
  let c := ex_run prompt_env (ex_burst_gap true) rate_1 0 ex_tick None in
  drop 10 (played c) = [(10, 2000 * ms); (11, 3000 * ms); (12, 4000 * ms); (13, 5000 * ms);
     (14, 6000 * ms); (15, 7000 * ms)] /\
  (fun l => (tick l, next_deadline l)) <$> left_at c.2 = Some (16, 16000 * ms).
Proof. vm_compute. split; reflexivity. Qed.

(** A row whose own slot a recurring gap covers is not suppressed when the loop
    reaches it late: the row at 800 ms, inside the gap from 800 ms to 1 s, runs
    at 1250 ms. *)
Lemma late_row_runs_in_spite_of_gap :
  let sch := ex_schedule (2000 * ms) (Some (mk_gap_window (1000 * ms) (200 * ms))) [] None true in
  (4, 1250 * ms) ∈ played (ex_run stalled_env sch rate_5 0 ex_tick None) /\
  silent_slot sch (800 * ms) = true.
Proof. vm_compute. split; [|reflexivity]. do 4 apply list_elem_of_further. apply list_elem_of_here. Qed.

(** The rate of a resumed segment is overstated for its first window: a segment
    that starts at tick 1000 and emits 5 ticks a second reports more than a
    thousand a second, the window's tick count starting at 0. *)
Lemma resumed_rate_overstated :
  let env := mk_env (fun n => Z.of_nat n / 6 * 200000000) (fun n => Z.of_nat n)
               (fun _ => false) (fun _ => false) in
  let c := ex_run env (ex_schedule (1200 * ms) None [] None false) rate_5 1000 ex_tick
             (Some default_stats) in
  played c = [(1000, 0); (1001, 200 * ms); (1002, 400 * ms); (1003, 600 * ms); (1004, 800 * ms);
              (1005, 1000 * ms)] /\
  option_map (fun st => u64_of_f64 (current_rate st)) (let! l := left_at c.2 in io_stats (io l))
    = Some 1005.
Proof. vm_compute. split; reflexivity. Qed.
