(* ===== verification/GatedLoop.v ===== *)
(** * GatedLoop: the lifecycle of a gated scenario (schedule/core_loop.rs)

    [gated_loop] wraps the schedule loop in the state machine of a scenario
    whose emission depends on an upstream gate: pending, running, paused, held,
    unresolved. [body_iteration] is one turn of its loop, with the running
    segment of [run_running_segment] inside it. What the gate delivers is part
    of the environment: the edge a wait receives, and the edges a tick drains. *)

From Stdlib Require Import ZArith Lia.
From stdpp Require Import prelude strings list gmap.
From S2P Require Import Prelude Text Metric F64 Stats.
From S2P Require Import GateBus GateRegistry Windows Durations SinkIo ScheduleLoop.

(** What the gate delivers: to a wait of at most [wait] made at a reading, and
    to the drain after a tick. *)
Record GateEnv := mk_gate_env {
  received : nat -> Z -> option GateEdge;
  drained : nat -> list GateEdge;
}.

(** [PAUSED_POLL_INTERVAL]: 100 ms. *)
Definition PAUSED_POLL_INTERVAL : Z := 100 * 1000000.

(** [SegmentExit] and its codes. *)
Inductive SegmentExit := SegWhileClose | SegUpstreamGone | SegWhileOpen | ShutdownOrDuration.

Definition SEGMENT_EXIT_NONE : Z := 0.
Definition SEGMENT_EXIT_WHILE_CLOSE : Z := 1.
Definition SEGMENT_EXIT_UPSTREAM_GONE : Z := 2.
Definition SEGMENT_EXIT_WHILE_OPEN : Z := 3.

(** [decode_segment_exit]. *)
Definition decode_segment_exit (code : Z) : SegmentExit :=
  if code =? SEGMENT_EXIT_UPSTREAM_GONE then SegUpstreamGone
  else if code =? SEGMENT_EXIT_WHILE_CLOSE then SegWhileClose
  else if code =? SEGMENT_EXIT_WHILE_OPEN then SegWhileOpen
  else ShutdownOrDuration.

(** [LoopExit]. *)
Inductive LoopExit := Shutdown | DurationExpired | UpstreamFinished.

(** ** Debounce timers *)

Record DebounceState := mk_debounce {
  delay_open : Z;
  delay_close : Z;
  pending_open_at : option Z;
  pending_close_at : option Z;
}.

(** [DebounceState::from_clause]. *)
Definition from_clause (clause : option DelayClause) : DebounceState :=
  match clause with
  | Some c => mk_debounce (default 0 (delay_open_ c)) (default 0 (delay_close_ c)) None None
  | None => mk_debounce 0 0 None None
  end.

(** [DebounceState::observe]. *)
Definition debounce_observe (d : DebounceState) (edge : GateEdge) (now : Z) : DebounceState :=
  match edge with
  | WhileOpen =>
      mk_debounce (delay_open d) (delay_close d)
        (Some (if delay_open d =? 0 then now else now + delay_open d)) None
  | WhileClose =>
      mk_debounce (delay_open d) (delay_close d) None
        (Some (if delay_close d =? 0 then now else now + delay_close d))
  | AfterFired | UpstreamGone => d
  end.

(** [DebounceState::next_wakeup]. *)
Definition next_wakeup (d : DebounceState) (now : Z) : option Z :=
  fold_left (fun soonest pending =>
      match pending with
      | None => soonest
      | Some t =>
          let left := duration_sat_sub t now in
          Some (match soonest with Some s => Z.min s left | None => left end)
      end) [pending_open_at d; pending_close_at d] None.

(** [DebounceState::fire_if_due]. *)
Definition fire_if_due (d : DebounceState) (now : Z) : option GateEdge * DebounceState :=
  let due p := match p with Some t => t <=? now | None => false end in
  if due (pending_open_at d) then
    (Some WhileOpen, mk_debounce (delay_open d) (delay_close d) None (pending_close_at d))
  else if due (pending_close_at d) then
    (Some WhileClose, mk_debounce (delay_open d) (delay_close d) (pending_open_at d) None)
  else (None, d).

(** [DebounceState::reset]. *)
Definition reset (d : DebounceState) : DebounceState :=
  mk_debounce (delay_open d) (delay_close d) None None.

Section Gated.
Context {S T : Type} `{Sink S} (env : Env) (genv : GateEnv).
Context (tick_fn : T -> TickContext -> TickOutput ->
  result TickResult SondaError * TickOutput * list MetricEvent * T).

(** Iterations of a segment, slots of a walk, turns of a close debounce. *)
Context (segment_fuel walk_fuel debounce_fuel : nat).

(** [GateContext], less its receiver. *)
Record GateContext := mk_gate_context {
  initial : InitialState;
  delay : option DelayClause;
  has_after : bool;
  has_while : bool;
  close_emit : option (@CloseEmitFn S);
  if_unresolved : option UnresolvedBehavior;
  start_unresolved : bool;
  holds_on_close : bool;
}.

(** The constants of the body. *)
Record Scenario := mk_scenario {
  g_schedule : ParsedSchedule;
  g_rate : f64;
  gate_ctx : GateContext;
  started_at : Z;
  g_wall : WallClock;
}.

(** Its mutable locals, with what it shares. *)
Record Body := mk_body {
  b_io : Io S;
  b_callback : T;
  b_drains : nat;
  b_output : TickOutput;
  b_limiters : CloseLimiters;
  b_state : ScenarioState;
  after_satisfied : bool;
  while_open : bool;
  debounce : DebounceState;
  b_next_tick : Z;
}.

Definition set_b_io (b : Body) (w : Io S) : Body :=
  mk_body w (b_callback b) (b_drains b) (b_output b) (b_limiters b) (b_state b)
    (after_satisfied b) (while_open b) (debounce b) (b_next_tick b).

(** The locals the state machine is about. *)
Definition set_machine (b : Body) (w : Io S) (s : ScenarioState) (after open : bool)
  (d : DebounceState) : Body :=
  mk_body w (b_callback b) (b_drains b) (b_output b) (b_limiters b) s after open d (b_next_tick b).

(** [close_target_state]. *)
Definition close_target_state (holds_on_close : bool) (w : Io S) : ScenarioState :=
  if negb holds_on_close then Paused
  else
    match io_stats w with
    | Some st => if bool_decide (current_values st = ∅) then Paused else Held
    | None => Paused
    end.

(** [duration_expired]. *)
Definition duration_expired (c : Scenario) (w : Io S) : bool * Io S :=
  match total_duration (g_schedule c) with
  | Some total => let (e, w) := elapsed_since env w (started_at c) in (total <=? e, w)
  | None => (false, w)
  end.

(** [remaining_duration]. *)
Definition remaining_duration (c : Scenario) (w : Io S) : option Z * Io S :=
  match total_duration (g_schedule c) with
  | Some total =>
      let (e, w) := elapsed_since env w (started_at c) in
      (Some (if total <=? e then 0 else total - e), w)
  | None => (None, w)
  end.

(** [remaining_until]. *)
Definition remaining_until (c : Scenario) (w : Io S) (default : Z) : Z * Io S :=
  let (r, w) := remaining_duration c w in
  (match r with Some r => Z.min r default | None => default end, w).

Definition zero_rate (st : ScenarioStats) : ScenarioStats :=
  mk_stats (total_events st) (bytes_emitted st) 0 (errors st) (rejected_events st)
    (in_gap st) (in_burst st) (in_cardinality_spike st) (consecutive_failures st)
    (total_sink_failures st) (last_sink_error st) (last_successful_write_at st) (current_values st)
    (state st) (close_emit_series st) (last_emit_ts st) (track_close_series st)
    (last_state_transition_at st) (cumulative_resolution_attempts st).

(** [write_state]. *)
Definition write_state (w : Io S) (s : ScenarioState) (paused_zero_rate : bool) : Io S :=
  match io_stats w with
  | None => w
  | Some st =>
      let (st, w) :=
        if decide (state st = s) then (st, w)
        else let (n, w) := now env w in (transition_state st s n, w) in
      set_stats w (Some (if paused_zero_rate then zero_rate st else st))
  end.

(** [finish]. *)
Definition finish (w : Io S) : result unit SondaError * Io S :=
  (Ok tt, write_state w Finished false).

(** A biased [select!] of the cancel and [recv_edge_timeout(wait)]: [None] when
    the cancel won. *)
Definition recv_or_cancel (w : Io S) (wait : Z) : option (option GateEdge) * Io S :=
  (if cancel_wins env (reads w) then None else Some (received genv (reads w) wait), advance w).

(** The loop of [debounce_close_to_paused]; [None] when [fuel] turns were not
    enough. *)
Fixpoint debounce_loop (fuel : nat) (c : Scenario) (deadline : Z) (w : Io S) : option (bool * Io S) :=
  match fuel with
  | O => None
  | Datatypes.S fuel =>
      let (x, w) := cancelled env w in
      let (x, w) := if x then (true, w) else duration_expired c w in
      if x then Some (true, w)
      else
        let (n, w) := now env w in
        if deadline <=? n then Some (true, w)
        else
          let wait := Z.min (deadline - n) PAUSED_POLL_INTERVAL in
          let (remaining, w) := remaining_duration c w in
          let wait := match remaining with Some r => Z.min wait r | None => wait end in
          let (recv, w) := recv_or_cancel w wait in
          match recv with
          | None => Some (true, w)
          | Some (Some WhileOpen) => Some (false, w)
          | Some (Some UpstreamGone) => Some (true, w)
          | Some (Some WhileClose) | Some (Some AfterFired) | Some None =>
              debounce_loop fuel c deadline w
          end
  end.

(** [debounce_close_to_paused]. *)
Definition debounce_close_to_paused (c : Scenario) (d : DebounceState) (w : Io S)
  : option (bool * Io S) :=
  if delay_close d =? 0 then Some (true, w)
  else let (n, w) := now env w in debounce_loop debounce_fuel c (n + delay_close d) w.

(** ** A running segment *)

(** The state of the wrapped callback: the scenario's own, the drains made, the
    exit observed and whether the segment's token is cancelled. *)
Record Wrapped := mk_wrapped {
  inner_callback : T;
  drains : nat;
  observed : Z;
  segment_cancelled : bool;
}.

(** One edge of the drain. *)
Definition drain_edge (exit_on_while_open : bool) (g : Wrapped) (edge : GateEdge) : Wrapped :=
  let exit code := mk_wrapped (inner_callback g) (drains g) code true in
  match edge with
  | WhileClose => exit SEGMENT_EXIT_WHILE_CLOSE
  | WhileOpen => if exit_on_while_open then exit SEGMENT_EXIT_WHILE_OPEN else g
  | AfterFired => g
  | UpstreamGone => exit SEGMENT_EXIT_UPSTREAM_GONE
  end.

(** The wrapped callback: the scenario's tick, then the drain. *)
Definition wrapped (exit_on_while_open : bool) (g : Wrapped) (ctx : TickContext) (o : TickOutput)
  : result TickResult SondaError * TickOutput * list MetricEvent * Wrapped :=
  let '(outcome, o, events, t) := tick_fn (inner_callback g) ctx o in
  let g := mk_wrapped t (Datatypes.S (drains g)) (observed g) (segment_cancelled g) in
  (outcome, o, events, fold_left (drain_edge exit_on_while_open) (drained genv (pred (drains g))) g).

(** [run_running_segment]: its exit or its error, and the body with the ticks
    the segment ran and the tick it would run next; [None] for a segment that
    panics or whose fuel was not enough. *)
Definition run_running_segment (c : Scenario) (b : Body) (w : Io S) (exit_on_while_open : bool)
  : option (result SegmentExit SondaError * Body * list TickContext) :=
  let g := mk_wrapped (b_callback b) (b_drains b) SEGMENT_EXIT_NONE false in
  let (ctxs, out) :=
    run_schedule_loop_with_initial_tick env (wrapped exit_on_while_open) segment_cancelled walk_fuel
      segment_fuel (g_schedule c) (g_rate c) (b_next_tick b) (Some (g_wall c)) (b_output b) g w in
  let back l next_tick :=
    mk_body (io l) (inner_callback (callback l)) (drains (callback l)) (output l) (b_limiters b)
      (b_state b) (after_satisfied b) (while_open b) (debounce b) next_tick in
  match out with
  | Ended l => Some (Ok (decode_segment_exit (observed (callback l))), back l (tick l), ctxs)
  | Failed e l => Some (Err e, back l (b_next_tick b), ctxs)
  | Crashed | Unfinished _ => None
  end.

(** [invoke_close_emit] on the body. *)
Definition close_markers_now (c : Scenario) (b : Body) : result unit SondaError * Body :=
  let '(r, lim, o, w) :=
    invoke_close_emit env (sch_name (g_schedule c)) (on_sink_error (g_schedule c)) (b_limiters b)
      (close_emit (gate_ctx c)) (b_output b) (b_io b) in
  (r, mk_body w (b_callback b) (b_drains b) o lim (b_state b) (after_satisfied b) (while_open b)
        (debounce b) (b_next_tick b)).

(** ** The body *)

(** How a turn of the body's loop ends. A turn that ran a segment carries the
    ticks it emitted, and one that wrote close markers says so. *)
Inductive Turn :=
| Next (b : Body) (ticks : list TickContext) (marked : bool)
| Exit (e : LoopExit) (b : Body) (ticks : list TickContext)
| Error (e : SondaError) (b : Body) (ticks : list TickContext)
| Lost.

(** [state = s; while_open = open; write_state(s, zero_rate); debounce.reset()]. *)
Definition settle_in (b : Body) (s : ScenarioState) (open zero : bool) : Body :=
  set_machine b (write_state (b_io b) s zero) s (after_satisfied b) open (reset (debounce b)).

(** [state = s; write_state(s, zero_rate)]. *)
Definition move_to (b : Body) (w : Io S) (s : ScenarioState) (zero : bool) : Body :=
  set_machine b (write_state w s zero) s (after_satisfied b) (while_open b) (debounce b).

(** The [Pending] arm. *)
Definition pending_turn (c : Scenario) (b : Body) (w : Io S) : Turn :=
  let ctx := gate_ctx c in
  let next after open w := Next (set_machine b w Pending after open (debounce b)) [] false in
  if negb (after_satisfied b) then
    let (wait, w) := remaining_until c w PAUSED_POLL_INTERVAL in
    let (recv, w) := recv_or_cancel w wait in
    match recv with
    | None => Exit Shutdown (set_b_io b w) []
    | Some (Some AfterFired) => next true (while_open b) w
    | Some (Some WhileOpen) => next (after_satisfied b) true w
    | Some (Some WhileClose) => next (after_satisfied b) false w
    | Some (Some UpstreamGone) =>
        match if_unresolved ctx with
        | None => Exit UpstreamFinished (set_b_io b w) []
        | Some _ => Next (settle_in (set_b_io b w) Unresolved false true) [] false
        end
    | Some None => next (after_satisfied b) (while_open b) w
    end
  else if negb (has_while ctx) then Next (move_to b w Running false) [] false
  else if while_open b then Next (move_to b w Running false) [] false
  else
    let close_state := close_target_state (holds_on_close ctx) w in
    Next (move_to b w close_state true) [] false.

(** The gate has closed: the markers, then [Paused] or [Held]. *)
Definition commit_close (c : Scenario) (b : Body) (ticks : list TickContext) : Turn :=
  let (r, b) := close_markers_now c b in
  match r with
  | Err e => Error e b ticks
  | Ok _ =>
      let close_state := close_target_state (holds_on_close (gate_ctx c)) (b_io b) in
      Next (settle_in b close_state false true) ticks true
  end.

(** The checks both arms that run a segment make after it. *)
Definition after_segment (c : Scenario) (b : Body) (ticks : list TickContext) (k : Body -> Turn)
  : Turn :=
  let (x, w) := cancelled env (b_io b) in
  if x then Exit Shutdown (set_b_io b w) ticks
  else
    let (x, w) := duration_expired c w in
    if x then Exit DurationExpired (set_b_io b w) ticks else k (set_b_io b w).

(** The [Running] arm. *)
Definition running_turn (c : Scenario) (b : Body) (w : Io S) : Turn :=
  match run_running_segment c b w false with
  | None => Lost
  | Some (Err e, b, ticks) => Error e b ticks
  | Some (Ok exit, b, ticks) =>
      after_segment c b ticks (fun b =>
        match exit with
        | SegUpstreamGone =>
            match if_unresolved (gate_ctx c) with
            | None => Exit UpstreamFinished b ticks
            | Some _ =>
                let (r, b) := close_markers_now c b in
                match r with
                | Err e => Error e b ticks
                | Ok _ => Next (settle_in b Unresolved false true) ticks true
                end
            end
        | SegWhileClose =>
            match debounce_close_to_paused c (debounce b) (b_io b) with
            | None => Lost
            | Some (false, w) =>
                Next (set_machine b w Running (after_satisfied b) true (debounce b)) ticks false
            | Some (true, w) => commit_close c (set_b_io b w) ticks
            end
        | SegWhileOpen | ShutdownOrDuration =>
            let close_state := close_target_state (holds_on_close (gate_ctx c)) (b_io b) in
            Next (settle_in b close_state false true) ticks false
        end)
  end.

(** The wait of the [Paused | Held] arm, as long as the debounce timers, the
    duration and the poll interval allow. *)
Definition paused_wait (c : Scenario) (b : Body) (w : Io S) : option (option GateEdge) * Io S :=
  let (n, w) := now env w in
  let wakeup := match next_wakeup (debounce b) n with
                | Some d => Z.min PAUSED_POLL_INTERVAL d | None => PAUSED_POLL_INTERVAL end in
  let (remaining, w) := remaining_duration c w in
  let wakeup := match remaining with Some r => Z.min wakeup r | None => wakeup end in
  recv_or_cancel w wakeup.

(** The [Paused | Held] arm. *)
Definition paused_turn (c : Scenario) (b : Body) (w : Io S) : Turn :=
  let (recv, w) := paused_wait c b w in
  match recv with
  | None => Exit Shutdown (set_b_io b w) []
  | Some recv =>
      let (n, w) := now env w in
      let fire after open d :=
        let (due, d) := fire_if_due d n in
        let stay s w := Next (set_machine b w s after open d) [] false in
        match due with
        | Some WhileOpen =>
            if open then stay Running (write_state w Running false) else stay (b_state b) w
        | _ => stay (b_state b) w
        end in
      match recv with
      | Some WhileOpen => fire (after_satisfied b) true (debounce_observe (debounce b) WhileOpen n)
      | Some WhileClose => fire (after_satisfied b) false (debounce_observe (debounce b) WhileClose n)
      | Some AfterFired => fire true (while_open b) (debounce b)
      | Some UpstreamGone =>
          match if_unresolved (gate_ctx c) with
          | None => Exit UpstreamFinished (set_b_io b w) []
          | Some _ => Next (settle_in (set_b_io b w) Unresolved false true) [] false
          end
      | None => fire (after_satisfied b) (while_open b) (debounce b)
      end
  end.

(** The [Unresolved] arm. *)
Definition unresolved_turn (c : Scenario) (b : Body) (w : Io S) : Turn :=
  match default UPending (if_unresolved (gate_ctx c)) with
  | UOpen =>
      match run_running_segment c b w true with
      | None => Lost
      | Some (Err e, b, ticks) => Error e b ticks
      | Some (Ok exit, b, ticks) =>
          after_segment c b ticks (fun b =>
            match exit with
            | SegWhileClose => commit_close c b ticks
            | SegUpstreamGone | ShutdownOrDuration => Next b ticks false
            | SegWhileOpen => Next (settle_in b Running true false) ticks false
            end)
      end
  | UClosed | UPending =>
      let (wakeup, w) := remaining_until c w PAUSED_POLL_INTERVAL in
      let (recv, w) := recv_or_cancel w wakeup in
      let b := set_b_io b w in
      match recv with
      | None => Exit Shutdown b []
      | Some (Some WhileOpen) => Next (settle_in b Pending true false) [] false
      | Some (Some WhileClose) =>
          let close_state := close_target_state (holds_on_close (gate_ctx c)) w in
          Next (settle_in b close_state false true) [] false
      | Some (Some AfterFired) =>
          Next (set_machine b w Unresolved true (while_open b) (debounce b)) [] false
      | Some (Some UpstreamGone) | Some None => Next b [] false
      end
  end.

(** One turn of the loop of [gated_loop_body]. *)
Definition body_iteration (c : Scenario) (b : Body) : Turn :=
  let (x, w) := cancelled env (b_io b) in
  if x then Exit Shutdown (set_b_io b w) []
  else
    let (x, w) := duration_expired c w in
    if x then Exit DurationExpired (set_b_io b w) []
    else
      match b_state b with
      | Pending => pending_turn c b w
      | Running => running_turn c b w
      | Paused | Held => paused_turn c b w
      | Unresolved => unresolved_turn c b w
      | Finished => Exit Shutdown (set_b_io b w) []
      end.

(** The locals of [gated_loop_body] before its loop. *)
Definition body_start (sch : ParsedSchedule) (rate : f64) (ctx : GateContext) (t : T)
  (o : TickOutput) (lim : CloseLimiters) (w : Io S) : Scenario * Body :=
  let (started, w) := now env w in
  let (anchor, w) := resolve env sch started w in
  let s := if start_unresolved ctx then Unresolved else Pending in
  let after := if has_after ctx then after_already_fired (initial ctx) else true in
  let open := if has_while ctx then default false (while_gate_open (initial ctx)) else true in
  let zero := match s with Unresolved => true | _ => false end in
  let w := write_state w s zero in
  (mk_scenario sch rate ctx started anchor,
   mk_body w t 0 o lim s after open (from_clause (delay ctx)) 0).

(** The loop of [gated_loop_body] for at most [fuel] turns; [None] when they
    were not enough or a segment panicked. *)
Fixpoint body_loop (fuel : nat) (c : Scenario) (b : Body)
  : option (result LoopExit SondaError * Body) * list TickContext :=
  match fuel with
  | O => (None, [])
  | Datatypes.S fuel =>
      match body_iteration c b with
      | Next b ticks _ => let (r, more) := body_loop fuel c b in (r, ticks ++ more)
      | Exit e b ticks => (Some (Ok e, b), ticks)
      | Error e b ticks => (Some (Err e, b), ticks)
      | Lost => (None, [])
      end
  end.

(** [gated_loop]: its result with what it shared, and the ticks it ran. *)
Definition gated_loop (fuel : nat) (sch : ParsedSchedule) (rate : f64) (ctx : GateContext) (t : T)
  (w : Io S) : option (result unit SondaError * Io S) * list TickContext :=
  let (c, b) := body_start sch rate ctx t for_schedule_loop new_close_limiters w in
  let (body_result, ticks) := body_loop fuel c b in
  match body_result with
  | None => (None, ticks)
  | Some (Ok _, b) =>
      let (r, b) := close_markers_now c b in
      let (r, w) := match r with Ok _ => finish (b_io b) | Err e => (Err e, b_io b) end in
      (Some (finalize_sink (sch_name sch) (on_sink_error sch) w r), ticks)
  | Some (Err e, b) =>
      (Some (finalize_sink (sch_name sch) (on_sink_error sch) (b_io b) (Err e)), ticks)
  end.
End Gated.
