(* ===== verification/GatedProofs.v ===== *)
(** * GatedProofs: what the gated loop guarantees

    The lifecycle as a transition system, [lifecycle], and the lemma that every
    turn of [gated_loop_body] is one of its steps ([turn_lifecycle]); by
    induction on it, when a scenario may emit; the debounce of the gate; the tick counter across
    pauses; the state the statistics show; and runs that show what the loop
    does not do. *)

From Stdlib Require Import ZArith Lia Sorted.
From stdpp Require Import prelude strings list gmap.
From S2P Require Import Prelude Text Metric F64 Stats GateBus.
From S2P Require Import GateRegistry Windows Durations SinkIo ScheduleLoop ScheduleProofs GatedLoop.

(** ** The lifecycle *)

(** What the state machine keeps. *)
Record Machine := mk_machine {
  m_state : ScenarioState;
  m_after : bool;
  m_open : bool;
  m_debounce : DebounceState;
}.

(** The states a closed gate leaves a scenario in. *)
Definition closed_state (holds : bool) (s : ScenarioState) : Prop :=
  s = Paused \/ (holds = true /\ s = Held).

(** What a wait in [Paused] or [Held] makes of the edge it received at [n]. *)
Definition observe_edge (recv : option GateEdge) (n : Z) (m : Machine) : Machine :=
  match recv with
  | Some WhileOpen => mk_machine (m_state m) (m_after m) true (debounce_observe (m_debounce m) WhileOpen n)
  | Some WhileClose => mk_machine (m_state m) (m_after m) false (debounce_observe (m_debounce m) WhileClose n)
  | Some AfterFired => mk_machine (m_state m) true (m_open m) (m_debounce m)
  | _ => m
  end.

Section lifecycle.
Context (unresolved_mode : option UnresolvedBehavior) (gated holds : bool).

(** The steps of the lifecycle, with whether the scenario may emit in them. *)
Inductive lifecycle : Machine -> bool -> Machine -> Prop :=
| wait_after open d after' open' :
    lifecycle (mk_machine Pending false open d) false (mk_machine Pending after' open' d)
| pending_gone open d u :
    unresolved_mode = Some u ->
    lifecycle (mk_machine Pending false open d) false (mk_machine Unresolved false false (reset d))
| start_running open d :
    (gated = true -> open = true) ->
    lifecycle (mk_machine Pending true open d) false (mk_machine Running true open d)
| start_closed d s :
    gated = true -> closed_state holds s ->
    lifecycle (mk_machine Pending true false d) false (mk_machine s true false d)
| close_gate after open d s :
    closed_state holds s ->
    lifecycle (mk_machine Running after open d) true (mk_machine s after false (reset d))
| keep_running after open d :
    lifecycle (mk_machine Running after open d) true (mk_machine Running after true d)
| running_gone after open d u :
    unresolved_mode = Some u ->
    lifecycle (mk_machine Running after open d) true (mk_machine Unresolved after false (reset d))
| stay_closed m recv n :
    m_state m = Paused \/ m_state m = Held ->
    lifecycle m false
      (mk_machine (m_state m) (m_after (observe_edge recv n m)) (m_open (observe_edge recv n m))
         (fire_if_due (m_debounce (observe_edge recv n m)) n).2)
| reopen m recv n t :
    m_state m = Paused \/ m_state m = Held ->
    m_open (observe_edge recv n m) = true ->
    pending_open_at (m_debounce (observe_edge recv n m)) = Some t -> t <= n ->
    lifecycle m false
      (mk_machine Running (m_after (observe_edge recv n m)) true
         (fire_if_due (m_debounce (observe_edge recv n m)) n).2)
| closed_gone s after open d u :
    s = Paused \/ s = Held -> unresolved_mode = Some u ->
    lifecycle (mk_machine s after open d) false (mk_machine Unresolved after false (reset d))
| emit_unresolved m : m_state m = Unresolved -> unresolved_mode = Some UOpen -> lifecycle m true m
| resolve_running after open d :
    unresolved_mode = Some UOpen ->
    lifecycle (mk_machine Unresolved after open d) true (mk_machine Running after true (reset d))
| resolve_closed after open d s emits :
    closed_state holds s -> (emits = true -> unresolved_mode = Some UOpen) ->
    lifecycle (mk_machine Unresolved after open d) emits (mk_machine s after false (reset d))
| resolve_pending after open d :
    lifecycle (mk_machine Unresolved after open d) false (mk_machine Pending after true (reset d))
| stay_unresolved after after' open d :
    (after = true -> after' = true) ->
    lifecycle (mk_machine Unresolved after open d) false (mk_machine Unresolved after' open d).
End lifecycle.

Section facts.
Context {S T : Type} `{Sink S} (env : Env) (genv : GateEnv).
Context (tick_fn : T -> TickContext -> TickOutput ->
  result TickResult SondaError * TickOutput * list MetricEvent * T).
Context (segment_fuel walk_fuel debounce_fuel : nat).
Implicit Types (c : @Scenario S) (b : @Body S T) (w : Io S).

(** The machine of a body. *)
Definition machine b : Machine :=
  mk_machine (b_state b) (after_satisfied b) (while_open b) (debounce b).

Lemma segment_machine c b w x res b' ticks :
  run_running_segment env genv tick_fn segment_fuel walk_fuel c b w x = Some (res, b', ticks) ->
  machine b' = machine b.
Proof.
  unfold run_running_segment.
  destruct (run_schedule_loop_with_initial_tick _ _ _ _ _ _ _ _ _ _ _ _) as [cs [l|e l| |l]];
    by intros [= <- <- <-].
Qed.

Lemma close_markers_machine c b : machine (close_markers_now env c b).2 = machine b.
Proof. unfold close_markers_now. by destruct (invoke_close_emit _ _ _ _ _ _ _) as [[[? ?] ?] ?]. Qed.

Lemma close_target_closed holds w : closed_state holds (close_target_state holds w).
Proof.
  unfold close_target_state, closed_state. destruct holds; cbn; [|by left].
  destruct (io_stats w); [destruct (bool_decide _)|]; auto.
Qed.

Lemma machine_set_io b w : machine (set_b_io b w) = machine b.
Proof. done. Qed.

Lemma machine_settle b s open zero :
  machine (settle_in env b s open zero) = mk_machine s (m_after (machine b)) open (reset (m_debounce (machine b))).
Proof. done. Qed.

(** The lifecycle of a scenario's context. *)
Abbreviation steps c :=
  (lifecycle (if_unresolved (gate_ctx c)) (has_while (gate_ctx c)) (holds_on_close (gate_ctx c))).

(** A turn that goes on is a step of the lifecycle, and runs ticks only in a
    step that may emit. *)
Definition turn_ok c b (t : @Turn S T) : Prop :=
  match t with
  | Next b' ticks _ => exists emits, steps c (machine b) emits (machine b') /\
      (ticks <> [] -> emits = true)
  | _ => True
  end.

Lemma pending_ok c b w : b_state b = Pending -> turn_ok c b (pending_turn env genv c b w).
Proof.
  intros Hs. unfold pending_turn, turn_ok, machine. rewrite Hs.
  destruct (after_satisfied b) eqn:Ea; cbn [negb].
  - destruct (has_while (gate_ctx c)) eqn:Eh; cbn [negb].
    + destruct (while_open b) eqn:Eo; cbn; rewrite Ea, Eo;
        exists false; (split; [|done]).
      * by apply start_running.
      * apply start_closed; [done|apply close_target_closed].
    + cbn. rewrite Ea. exists false. split; [|done]. by apply start_running.
  - destruct (remaining_until env c w _) as [wait w1]. unfold recv_or_cancel.
    destruct (cancel_wins env (reads w1)); [done|].
    destruct (received genv (reads w1) wait) as [[]|];
      try (exists false; split; [apply wait_after|done]).
    destruct (if_unresolved (gate_ctx c)) eqn:Eu; [|done].
    exists false. split; [|done]. cbn. rewrite Ea. by eapply pending_gone.
Qed.

Lemma commit_close_ok c b b0 ticks :
  (forall s, closed_state (holds_on_close (gate_ctx c)) s ->
     steps c (machine b0) true (mk_machine s (after_satisfied b) false (reset (debounce b)))) ->
  turn_ok c b0 (commit_close env c b ticks).
Proof.
  intros Hst. unfold commit_close. pose proof (close_markers_machine c b) as Hm.
  destruct (close_markers_now env c b) as [[[]|e] b1]; [|done]. cbn [snd] in Hm.
  exists true. split; [|done]. rewrite machine_settle, Hm. apply Hst, close_target_closed.
Qed.

Lemma after_segment_ok c b b0 ticks (k : Body -> Turn) :
  (forall w, turn_ok c b0 (k (set_b_io b w))) -> turn_ok c b0 (after_segment env c b ticks k).
Proof.
  intros Hk. unfold after_segment, cancelled. destruct (cancel_flag env _); [done|].
  destruct (duration_expired env c _) as [[] w]; [done|]. apply Hk.
Qed.

Lemma machine_inv b s a o d :
  machine b = mk_machine s a o d ->
  b_state b = s /\ after_satisfied b = a /\ while_open b = o /\ debounce b = d.
Proof. by intros [= -> -> -> ->]. Qed.

Lemma running_ok c b w :
  b_state b = Running ->
  turn_ok c b (running_turn env genv tick_fn segment_fuel walk_fuel debounce_fuel c b w).
Proof.
  intros Hs. unfold running_turn.
  destruct (run_running_segment _ _ _ _ _ _ _ _ _) as [[[[exit|e] b1] ticks]|] eqn:Er; [|done|done].
  apply segment_machine in Er. unfold machine in Er at 2. rewrite Hs in Er.
  pose proof (machine_inv _ _ _ _ _ Er) as (Es & Ea & Eo & Ed).
  apply after_segment_ok. intros w1. destruct exit.
  - destruct (debounce_close_to_paused _ _ _ _ _ _) as [[[] w2]|]; [|..|done].
    + apply commit_close_ok. intros s Hc. cbn. unfold machine. rewrite Hs, Ea, Ed. by apply close_gate.
    + exists true. split; [|done]. cbn. unfold machine at 1. rewrite Hs, Ea, Ed. apply keep_running.
  - destruct (if_unresolved (gate_ctx c)) eqn:Eu; [|done].
    pose proof (close_markers_machine c (set_b_io b1 w1)) as Hm.
    destruct (close_markers_now env c _) as [[[]|e] b2]; [|done]. cbn [snd] in Hm.
    exists true. split; [|done]. rewrite machine_settle, Hm, machine_set_io, Er. unfold machine.
    rewrite Hs. by eapply running_gone.
  - exists true. split; [|done]. rewrite machine_settle, machine_set_io, Er. unfold machine. rewrite Hs.
    apply close_gate, close_target_closed.
  - exists true. split; [|done]. rewrite machine_settle, machine_set_io, Er. unfold machine. rewrite Hs.
    apply close_gate, close_target_closed.
Qed.

Lemma fire_open d n : (fire_if_due d n).1 = Some WhileOpen ->
  exists t, pending_open_at d = Some t /\ t <= n.
Proof.
  unfold fire_if_due. destruct (pending_open_at d) as [t|]; cbn;
    [destruct (Z.leb_spec t n); [by exists t|]|];
    (destruct (pending_close_at d) as [u|]; [by destruct (u <=? n)|done]).
Qed.

Lemma paused_ok c b w :
  b_state b = Paused \/ b_state b = Held -> turn_ok c b (paused_turn env genv c b w).
Proof.
  intros Hs. unfold paused_turn. destruct (paused_wait env genv c b w) as [[recv|] w1]; [|done].
  cbn [now fst snd]. set (n := instant env _). set (w2 := advance w1).
  assert (Hfire : forall recv, let m := observe_edge recv n (machine b) in
    turn_ok c b (let (due, d) := fire_if_due (m_debounce m) n in
      let stay s w := Next (set_machine b w s (m_after m) (m_open m) d) [] false in
      match due with
      | Some WhileOpen =>
          if m_open m then stay Running (write_state env w2 Running false) else stay (b_state b) w2
      | _ => stay (b_state b) w2
      end)).
  { intros e m. pose proof (fire_open (m_debounce m) n) as Ho.
    destruct (fire_if_due (m_debounce m) n) as [due d] eqn:Ef. cbn [fst] in Ho.
    assert (Hstay : turn_ok c b (Next (set_machine b w2 (b_state b) (m_after m) (m_open m) d) [] false)).
    { exists false. split; [|done].
      pose proof (stay_closed (if_unresolved (gate_ctx c)) (has_while (gate_ctx c))
        (holds_on_close (gate_ctx c)) (machine b) e n Hs) as Hst.
      fold m in Hst. by rewrite Ef in Hst. }
    destruct due as [[]|]; try exact Hstay. destruct (m_open m) eqn:Em; [|exact Hstay].
    destruct (Ho eq_refl) as (t & Ht & Hn). exists false. split; [|done].
    pose proof (reopen (if_unresolved (gate_ctx c)) (has_while (gate_ctx c))
      (holds_on_close (gate_ctx c)) (machine b) e n t Hs Em Ht Hn) as Hst.
    fold m in Hst. by rewrite Ef in Hst. }
  destruct recv as [[]|].
  - apply (Hfire (Some AfterFired)).
  - apply (Hfire (Some WhileOpen)).
  - apply (Hfire (Some WhileClose)).
  - destruct (if_unresolved (gate_ctx c)) eqn:Eu; [|done].
    exists false. split; [|done]. rewrite machine_settle, machine_set_io. by eapply closed_gone.
  - apply (Hfire None).
Qed.

Lemma unresolved_ok c b w :
  b_state b = Unresolved ->
  turn_ok c b (unresolved_turn env genv tick_fn segment_fuel walk_fuel c b w).
Proof.
  intros Hs. unfold unresolved_turn.
  destruct (default UPending (if_unresolved (gate_ctx c))) eqn:Em.
  1: { assert (Hu : if_unresolved (gate_ctx c) = Some UOpen)
         by (destruct (if_unresolved (gate_ctx c)); [cbn in Em; by subst|done]).
    destruct (run_running_segment _ _ _ _ _ _ _ _ _) as [[[[exit|e] b1] ticks]|] eqn:Er; [|done|done].
    apply segment_machine in Er. unfold machine in Er at 2. rewrite Hs in Er.
    pose proof (machine_inv _ _ _ _ _ Er) as (Es & Ea & Eo & Ed).
    apply after_segment_ok. intros w1. destruct exit.
    - apply commit_close_ok. intros s Hc. cbn. unfold machine. rewrite Hs, Ea, Ed.
      by apply resolve_closed.
    - exists true. split; [|done]. rewrite machine_set_io, Er. unfold machine. rewrite Hs.
      by apply emit_unresolved.
    - exists true. split; [|done]. rewrite machine_settle, machine_set_io, Er. unfold machine. rewrite Hs.
      by apply resolve_running.
    - exists true. split; [|done]. rewrite machine_set_io, Er. unfold machine. rewrite Hs.
      by apply emit_unresolved. }
  all: destruct (remaining_until env c w _) as [wait w1]; unfold recv_or_cancel;
    (destruct (cancel_wins env (reads w1)); [done|]);
    destruct (received genv (reads w1) wait) as [[]|];
    exists false; (split; [|done]); rewrite ?machine_settle, ?machine_set_io;
    unfold machine; cbn; rewrite ?Hs;
    first [by apply stay_unresolved | by apply resolve_pending
          | apply resolve_closed; [apply close_target_closed|done]].
Qed.

Lemma turn_lifecycle c b :
  turn_ok c b (body_iteration env genv tick_fn segment_fuel walk_fuel debounce_fuel c b).
Proof.
  unfold body_iteration, cancelled. destruct (cancel_flag env _); [done|].
  destruct (duration_expired env c _) as [[] w]; [done|].
  destruct (b_state b) eqn:Es; [by apply pending_ok|by apply running_ok|apply paused_ok; by left
    |apply paused_ok; by right|by apply unresolved_ok|done].
Qed.

(** ** When a scenario emits *)

#[local] Abbreviation turn c b :=
  (body_iteration env genv tick_fn segment_fuel walk_fuel debounce_fuel c b).

(** The bodies a loop goes through. *)
Inductive body_reach c b : Body -> Prop :=
| body_here : body_reach c b b
| body_turn b1 b2 ticks marked :
    body_reach c b b1 -> turn c b1 = Next b2 ticks marked -> body_reach c b b2.

(** The ticks a turn ran. *)
Definition ticks_of (t : @Turn S T) : list TickContext :=
  match t with Next _ ticks _ | Exit _ _ ticks | Error _ _ ticks => ticks | Lost => [] end.

(** What holds of the machine between turns. *)
Definition machine_ok (mode : option UnresolvedBehavior) (gated : bool) (m : Machine) : Prop :=
  m_state m <> Finished /\
  (m_state m = Running -> gated = true -> m_open m = true) /\
  (pending_open_at (m_debounce m) <> None ->
     m_open m = true /\ (m_state m = Paused \/ m_state m = Held)) /\
  (mode = None -> m_state m <> Unresolved /\ (m_state m <> Pending -> m_after m = true)).

Lemma fire_pending d n :
  pending_open_at (fire_if_due d n).2 <> None -> pending_open_at d <> None.
Proof.
  unfold fire_if_due. destruct (pending_open_at d) as [t|] eqn:E; [done|]. cbn.
  destruct (pending_close_at d) as [u|]; [destruct (u <=? n)|]; cbn; congruence.
Qed.

Lemma observe_pending recv n m :
  (pending_open_at (m_debounce m) <> None -> m_open m = true) ->
  pending_open_at (m_debounce (observe_edge recv n m)) <> None ->
  m_open (observe_edge recv n m) = true.
Proof. destruct recv as [[]|]; cbn; auto. Qed.

Lemma lifecycle_ok mode gated holds m emits m' :
  machine_ok mode gated m -> lifecycle mode gated holds m emits m' -> machine_ok mode gated m'.
Proof.
  intros (H1 & H2 & H3 & H4) Hst.
  assert (Hnone : m_state m <> Paused -> m_state m <> Held -> pending_open_at (m_debounce m) = None).
  { intros ? ?. destruct (pending_open_at (m_debounce m)); [|done].
    destruct H3 as [_ [?|?]]; done. }
  assert (Hafter : forall recv n, m_after m = true -> m_after (observe_edge recv n m) = true)
    by (by intros [[]|] n).
  unfold machine_ok in *.
  destruct Hst as [| | |d s Hg [->|[_ ->]]|a o d s [->|[_ ->]]| | |m recv n Hs|m recv n t Hs Ho Hp Hn
    |s a o d u Hs Hu| | |a o d s e [->|[_ ->]] _| |]; cbn in *; subst;
    split_and!; try done; try tauto; try (rewrite Hnone by done; done).
  all: try (intros Hm; destruct (H4 Hm) as [? Ha]; split; [done|intros _; by apply Ha]).
  - destruct Hs as [-> | ->]; done.
  - intros Hf%fire_pending. split; [|done]. apply observe_pending; [|done]. tauto.
  - intros Hm. destruct (H4 Hm) as [? Ha]. split; [done|]. intros _. apply Hafter, Ha.
    by destruct Hs as [-> | ->].
  - unfold fire_if_due. rewrite Hp. destruct (Z.leb_spec t n); [done|lia].
  - intros Hm. destruct (H4 Hm) as [? Ha]. split; [done|]. intros _. apply Hafter, Ha.
    by destruct Hs as [-> | ->].
Qed.

Lemma start_ok sch rate ctx t o lim w :
  (start_unresolved ctx = true -> if_unresolved ctx <> None) ->
  machine_ok (if_unresolved ctx) (has_while ctx) (machine (body_start env sch rate ctx t o lim w).2).
Proof.
  intros Hu. unfold body_start. cbn [now]. destruct (resolve env sch _ _) as [a w1].
  unfold machine_ok, machine. cbn.
  assert (pending_open_at (from_clause (delay ctx)) = None) as -> by (by destruct (delay ctx)).
  destruct (start_unresolved ctx); split_and!; try done; tauto.
Qed.

Lemma start_context sch rate ctx (t : T) o lim w :
  gate_ctx (body_start env sch rate ctx t o lim w).1 = ctx.
Proof. unfold body_start. cbn [now]. by destruct (resolve env sch _ _) as [a w1]. Qed.

Lemma reach_ok c b b' :
  machine_ok (if_unresolved (gate_ctx c)) (has_while (gate_ctx c)) (machine b) ->
  body_reach c b b' ->
  machine_ok (if_unresolved (gate_ctx c)) (has_while (gate_ctx c)) (machine b').
Proof.
  intros Hb. induction 1 as [|b1 b2 ticks marked _ IH Ht]; [done|].
  pose proof (turn_lifecycle c b1) as Hl. rewrite Ht in Hl. destruct Hl as (e & Hs & _).
  by eapply lifecycle_ok.
Qed.

Lemma paused_quiet c b w : ticks_of (paused_turn env genv c b w) = [].
Proof.
  unfold paused_turn. destruct (paused_wait env genv c b w) as [[recv|] w1]; [|done]. cbn [now].
  destruct recv as [[]|]; try (by destruct (if_unresolved (gate_ctx c)));
    destruct (fire_if_due _ _) as [[[]|] d]; try done; cbn; by destruct (while_open b).
Qed.

(** Only a segment runs ticks, so only a running scenario or one that is
    unresolved in the open mode. *)
Lemma segment_only c b :
  ticks_of (turn c b) <> [] ->
  b_state b = Running \/ (b_state b = Unresolved /\ if_unresolved (gate_ctx c) = Some UOpen).
Proof.
  unfold body_iteration, cancelled. destruct (cancel_flag env _); [done|].
  destruct (duration_expired env c _) as [[] w]; [done|].
  destruct (b_state b) eqn:Es; [|by left| | | |done].
  - unfold pending_turn. destruct (after_satisfied b); cbn [negb].
    + destruct (has_while _); [destruct (while_open b)|]; done.
    + destruct (remaining_until _ _ _ _) as [wait w1]. unfold recv_or_cancel.
      destruct (cancel_wins env _); [done|]. destruct (received _ _ _) as [[]|]; try done.
      by destruct (if_unresolved _).
  - by rewrite paused_quiet.
  - by rewrite paused_quiet.
  - unfold unresolved_turn. intros Ht. right. split; [done|].
    destruct (if_unresolved (gate_ctx c)) as [[]|] eqn:Eu; cbn [default] in Ht; [done|exfalso..];
      destruct (remaining_until _ _ _ _) as [wait w1]; unfold recv_or_cancel in Ht;
      (destruct (cancel_wins env _); [done|]); by destruct (received _ _ _) as [[]|].
Qed.

(** C1: a gated scenario emits only while its gate allows it. At any point of
    a run, whatever edges the gate delivers and when, a turn that runs ticks
    starts in [Running] with the gate open (for a [while:] scenario) and its
    [after:] satisfied (when it cannot become unresolved), or in [Unresolved]
    with [if_unresolved: open]; in [Pending], [Paused] and [Held] nothing is
    emitted. *)
Theorem emits_only_when_open sch rate ctx t o lim w b
  (Hu : start_unresolved ctx = true -> if_unresolved ctx <> None)
  (Hr : body_reach (body_start env sch rate ctx t o lim w).1 (body_start env sch rate ctx t o lim w).2 b)
  (Ht : ticks_of (turn (body_start env sch rate ctx t o lim w).1 b) <> []) :
  (b_state b = Running /\ (has_while ctx = true -> while_open b = true) /\
     (if_unresolved ctx = None -> after_satisfied b = true)) \/
  (b_state b = Unresolved /\ if_unresolved ctx = Some UOpen).
Proof.
  pose proof (start_ok sch rate ctx t o lim w Hu) as Hm.
  pose proof (start_context sch rate ctx t o lim w) as Hc.
  apply segment_only in Ht. rewrite Hc in Ht. destruct Ht as [Hs|Hs]; [left|by right].
  apply (reach_ok _ _ _) in Hr; [|by rewrite Hc]. rewrite Hc in Hr.
  destruct Hr as (_ & H2 & _ & H4). cbn in H2, H4. split_and!; [done|by apply H2|].
  intros Hn. apply (H4 Hn). by rewrite Hs.
Qed.

(** ** The debounce of an opening gate *)

(** What a paused scenario hears in a turn, and when: [None] when the turn does
    not get as far. *)
Definition heard c b : option (option GateEdge * Z) :=
  let (x, w) := cancelled env (b_io b) in
  if x then None
  else
    let (x, w) := duration_expired env c w in
    if x then None
    else
      match paused_wait env genv c b w with
      | (Some recv, w) => Some (recv, instant env (reads w))
      | (None, _) => None
      end.

(** Turns that stay closed, with what was heard in them. *)
Inductive stays_closed c b : list (option GateEdge * Z) -> Body -> Prop :=
| closed_here : stays_closed c b [] b
| closed_turn obs b1 b2 ticks marked h :
    stays_closed c b obs b1 -> b_state b1 = Paused \/ b_state b1 = Held ->
    turn c b1 = Next b2 ticks marked -> heard c b1 = Some h ->
    b_state b2 = Paused \/ b_state b2 = Held ->
    stays_closed c b (obs ++ [h]) b2.

(** The last gate edge of what was heard: the opening and its instant, if it is
    one. *)
Fixpoint open_since (obs : list (option GateEdge * Z)) (acc : option Z) : option Z :=
  match obs with
  | [] => acc
  | (Some WhileOpen, n) :: obs => open_since obs (Some n)
  | (Some WhileClose, _) :: obs => open_since obs None
  | _ :: obs => open_since obs acc
  end.

Lemma open_since_app obs obs' acc :
  open_since (obs ++ obs') acc = open_since obs' (open_since obs acc).
Proof. revert acc. induction obs as [|[[[]|] n] obs IH]; intros acc; cbn; auto. Qed.

Lemma closed_turn_spec c b b' ticks marked recv n :
  b_state b = Paused \/ b_state b = Held ->
  turn c b = Next b' ticks marked -> heard c b = Some (recv, n) -> b_state b' <> Unresolved ->
  let m := observe_edge recv n (machine b) in
  debounce b' = (fire_if_due (m_debounce m) n).2 /\ while_open b' = m_open m /\
  (b_state b' = Running <-> (fire_if_due (m_debounce m) n).1 = Some WhileOpen /\ m_open m = true).
Proof.
  intros Hs Ht Hh Hn. unfold body_iteration in Ht. unfold heard in Hh.
  destruct (cancelled env (b_io b)) as [[] w]; [done|].
  destruct (duration_expired env c w) as [[] w1]; [done|].
  assert (Hp : paused_turn env genv c b w1 = Next b' ticks marked)
    by (by destruct Hs as [E|E]; rewrite E in Ht). clear Ht.
  unfold paused_turn in Hp. destruct (paused_wait env genv c b w1) as [[e|] w2]; [|done].
  injection Hh as -> <-. cbn [now] in Hp.
  assert (Hr : b_state b <> Running) by (by destruct Hs as [E|E]; rewrite E).
  destruct recv as [[]|]; cbn zeta in *;
    try (destruct (if_unresolved (gate_ctx c)); [injection Hp as <- _ _; done|done]);
    destruct (fire_if_due _ _) as [[[]|] d] eqn:Ef; cbn in Ef |- *; rewrite ?Ef;
    try (destruct (while_open b) eqn:Eo); injection Hp as <- _ _; cbn; rewrite ?Eo;
    (split; [done|]; split; [done|]; split; [done || (intros; done)|intros [? ?]; done || congruence]).
Qed.

(** The opening timer is that of the opening heard last, and stands only while
    the gate is open. *)
Definition timer_ok (D : Z) (since : option Z) (m : Machine) : Prop :=
  pending_open_at (m_debounce m) = (fun t => t + D) <$> since /\ delay_open (m_debounce m) = D /\
  (since <> None -> m_open m = true).

Lemma observe_timer D since recv n m :
  timer_ok D since m -> timer_ok D (open_since [(recv, n)] since) (observe_edge recv n m).
Proof.
  intros (H1 & H2 & H3). destruct recv as [[]|]; try (split; [exact H1|split; [exact H2|exact H3]]).
  - split; [|split; [exact H2|done]]. cbn. rewrite H2. f_equal. destruct (Z.eqb_spec D 0); lia.
  - split; [done|]. split; [exact H2|done].
Qed.

Lemma fire_timer d n :
  (fire_if_due d n).1 <> Some WhileOpen ->
  pending_open_at (fire_if_due d n).2 = pending_open_at d.
Proof.
  unfold fire_if_due. destruct (pending_open_at d) as [t|] eqn:E; cbn; [destruct (t <=? n); [done|]|];
    destruct (pending_close_at d) as [u|]; cbn; try (destruct (u <=? n)); by rewrite ?E.
Qed.

Lemma fire_delay d n : delay_open (fire_if_due d n).2 = delay_open d.
Proof.
  unfold fire_if_due. destruct (match pending_open_at d with Some t => t <=? n | None => false end); [done|].
  by destruct (match pending_close_at d with Some t => t <=? n | None => false end).
Qed.

Lemma stays_closed_timer c b obs b1 :
  pending_open_at (debounce b) = None -> stays_closed c b obs b1 ->
  timer_ok (delay_open (debounce b)) (open_since obs None) (machine b1).
Proof.
  intros Hd. induction 1 as [|obs b1 b2 ticks marked [recv n] _ IH Hs Ht Hh Hs2].
  { split; [exact Hd|]. by split. }
  destruct (closed_turn_spec c b1 b2 ticks marked recv n Hs Ht Hh) as (E1 & E2 & E3);
    [by destruct Hs2 as [-> | ->]|].
  apply (observe_timer _ _ recv n) in IH. rewrite open_since_app.
  set (m := observe_edge recv n (machine b1)) in *. set (since := open_since [(recv, n)] _) in *.
  destruct IH as (H1 & H2 & H3). unfold machine, timer_ok. cbn [m_debounce m_open].
  rewrite E1, E2, fire_delay. split_and!; [|done|done].
  rewrite fire_timer; [done|]. intros Hf. pose proof (fire_open _ _ Hf) as (t & Hp & _).
  assert (b_state b2 = Running) as Hrun; [apply E3|by destruct Hs2 as [E|E]; rewrite E in Hrun].
  split; [done|]. apply H3. intros Hn. by rewrite H1, Hn in Hp.
Qed.

(** C34: a paused scenario resumes only after its gate has stood open for the
    delay. If it was paused with no opening pending and resumes in a turn at
    [n], the last gate edge it heard since is an opening, at some [t0] with
    [t0 + delay.open <= n], and no closing came after it. *)
Theorem reopens_after_delay c b obs b1 b2 ticks marked recv n
  (Hd : pending_open_at (debounce b) = None)
  (Hc : stays_closed c b obs b1) (Hs : b_state b1 = Paused \/ b_state b1 = Held)
  (Ht : turn c b1 = Next b2 ticks marked) (Hh : heard c b1 = Some (recv, n))
  (Hr : b_state b2 = Running) :
  exists t0, open_since (obs ++ [(recv, n)]) None = Some t0 /\ t0 + delay_open (debounce b) <= n.
Proof.
  pose proof (stays_closed_timer _ _ _ _ Hd Hc) as Htm.
  destruct (closed_turn_spec c b1 b2 ticks marked recv n Hs Ht Hh) as (_ & _ & E3); [by rewrite Hr|].
  apply E3 in Hr as [Hf _]. apply (observe_timer _ _ recv n) in Htm. rewrite open_since_app.
  destruct (fire_open _ _ Hf) as (t & Hp & Hle). destruct Htm as (H1 & _). rewrite H1 in Hp.
  destruct (open_since [(recv, n)] _) as [t0|]; [|done]. injection Hp as <-. by exists t0.
Qed.

(** ** The statistics of a close *)

(** A part of the statistics that the accounting of failures does not touch. *)
Class FailureBlind {A : Type} (part : ScenarioStats -> A) : Prop :=
  failure_blind : forall st e1 e2 e3 e4 e5, part (set_failures st e1 e2 e3 e4 e5) = part st.

Section policies.
Context {A : Type} (part : ScenarioStats -> A) `{!FailureBlind part}.

Lemma with_failures_blind w (f : ScenarioStats -> ScenarioStats) :
  (forall st, part (f st) = part st) -> part <$> io_stats (with_stats w f) = part <$> io_stats w.
Proof. intros Hf. cbn. destruct (io_stats w); cbn; [by rewrite Hf|done]. Qed.

Lemma close_policy_blind name policy lim w e :
  part <$> io_stats (apply_close_emit_policy env name policy lim w e).2 = part <$> io_stats w.
Proof.
  unfold apply_close_emit_policy. destruct e as [|[]|io_err| | |]; try done.
  - unfold record_rejected_event, observe_rejected.
    pose proof (record_reads env (limit_rejected lim) w name "events rejected by the encoder" reason)
      as (_ & Hr & _).
    destruct (record _ _ _ _ _ _) as [l1 w1]. cbn [snd] in Hr |- *.
    rewrite with_failures_blind by (intros; apply failure_blind). by rewrite Hr.
  - destruct policy; [|done]. unfold observe.
    pose proof (record_reads env (limit_sink lim) w name "sink errors" io_err) as (_ & Hr & _).
    destruct (record _ _ _ _ _ _) as [l1 w1]. cbn [snd] in Hr |- *.
    rewrite with_failures_blind by (intros; apply failure_blind). by rewrite Hr.
Qed.

Lemma reject_markers_blind name policy reasons lim w :
  part <$> io_stats (reject_markers env name policy reasons lim w).2 = part <$> io_stats w.
Proof.
  revert lim w. induction reasons as [|reason reasons IH]; intros lim w; cbn [reject_markers]; [done|].
  pose proof (close_policy_blind name policy lim w (Encoder (EventRejected reason))) as Hp.
  destruct (apply_close_emit_policy _ _ _ _ _ _) as [[[[]|e] l1] w1]; cbn [snd] in Hp; [|done].
  by rewrite IH.
Qed.

(** What [invoke_close_emit] leaves is what its emitter left. *)
Lemma invoke_blind name policy lim emit o w :
  part <$> io_stats (invoke_close_emit env name policy lim (Some emit) o w).2
    = part <$> io_stats (emit (clear o) w).2.
Proof.
  unfold invoke_close_emit. destruct (emit (clear o) w) as [[em o1] w1] eqn:Ee. cbn [snd].
  assert (Hd : forall (out : result unit SondaError) o2 w2,
    match em with
    | Ok _ => let '(r, o, w) := drain_writes o1 w1 in
              (match r with Ok _ => Ok tt | Err e => Err e end, o, w)
    | Err e => (Err e, o1, w1)
    end = (out, o2, w2) -> io_stats w2 = io_stats w1).
  { intros out o2 w2. destruct em; [|by intros [= _ _ <-]].
    pose proof (drain_reads o1 w1) as [_ Hs]. destruct (drain_writes o1 w1) as [[r o3] w3].
    by intros [= _ _ <-]. }
  destruct (match em with Ok _ => _ | Err e => _ end) as [[out o2] w2]. specialize (Hd _ _ _ eq_refl).
  pose proof (reject_markers_blind name policy (rejected o2) lim w2) as Hr.
  destruct (reject_markers _ _ _ _ _ _) as [[[[]|e] l3] w3]; cbn [snd] in Hr;
    [|cbn; by rewrite Hr, Hd].
  destruct out as [[]|e].
  - destruct (flush (sink w3)) as [fr s]. unfold apply_close_emit_policy_flush.
    destruct fr as [[]|e]; [cbn; by rewrite Hr, Hd|].
    pose proof (close_policy_blind name policy l3 (set_sink w3 s) e) as Hp.
    destruct (apply_close_emit_policy _ _ _ _ _ _) as [[? ?] w4]. cbn [snd] in Hp |- *.
    rewrite Hp. cbn. by rewrite Hr, Hd.
  - pose proof (close_policy_blind name policy l3 w3 e) as Hp.
    destruct (apply_close_emit_policy _ _ _ _ _ _) as [[? ?] w4]. cbn [snd] in Hp |- *.
    by rewrite Hp, Hr, Hd.
Qed.
End policies.

(** ** The state the statistics show *)

#[local] Instance state_untouched : Untouched state.
Proof. split; try done. intros st ev. unfold push_metric. by destruct (track_close_series st). Qed.

(** The statistics of [w], if the scenario keeps any, show the state [s]. *)
Definition shows (s : ScenarioState) w : Prop := forall st, io_stats w = Some st -> state st = s.

Lemma shows_same s w w' : state <$> io_stats w' = state <$> io_stats w -> shows s w -> shows s w'.
Proof.
  intros E Hs st Hst. rewrite Hst in E. cbn in E. destruct (io_stats w) as [st0|] eqn:E0; [|done].
  cbn in E. injection E as ->. by apply Hs.
Qed.

Lemma write_state_shows w s zero : shows s (write_state env w s zero).
Proof.
  unfold write_state, shows. destruct (io_stats w) as [st|] eqn:Es; [|intros st; by rewrite Es].
  intros st'. destruct (decide (state st = s)); cbn; intros [= <-]; by destruct zero.
Qed.

Lemma expired_stats c w : io_stats (duration_expired env c w).2 = io_stats w.
Proof. unfold duration_expired, elapsed_since. by destruct (total_duration _). Qed.

Lemma remaining_stats c w : io_stats (remaining_duration env c w).2 = io_stats w.
Proof. unfold remaining_duration, elapsed_since. by destruct (total_duration _). Qed.

Lemma until_stats c w d : io_stats (remaining_until env c w d).2 = io_stats w.
Proof.
  unfold remaining_until. pose proof (remaining_stats c w) as Hr.
  by destruct (remaining_duration env c w).
Qed.

Lemma paused_wait_stats c b w : io_stats (paused_wait env genv c b w).2 = io_stats w.
Proof.
  unfold paused_wait. cbn [now]. pose proof (remaining_stats c (advance w)) as Hr.
  destruct (remaining_duration env c (advance w)) as [r w1]. exact Hr.
Qed.

Lemma debounce_loop_stats fuel c deadline w x w' :
  debounce_loop env genv fuel c deadline w = Some (x, w') -> io_stats w' = io_stats w.
Proof.
  revert w. induction fuel as [|fuel IH]; intros w; cbn [debounce_loop]; [done|].
  unfold cancelled. destruct (cancel_flag env (reads w)); [by intros [= _ <-]|].
  pose proof (expired_stats c (advance w)) as He.
  destruct (duration_expired env c (advance w)) as [[] w1]; cbn [snd] in He; [by intros [= _ <-]|].
  cbn [now]. destruct (deadline <=? _); [by intros [= _ <-]|].
  pose proof (remaining_stats c (advance w1)) as Hr.
  destruct (remaining_duration env c (advance w1)) as [r w2]. cbn [snd] in Hr.
  unfold recv_or_cancel. destruct (cancel_wins env _).
  { intros [= _ <-]. cbn. by rewrite Hr. }
  destruct (received _ _ _) as [[]|]; try (intros [= _ <-]; cbn; by rewrite Hr);
    (intros E%IH; rewrite E; cbn; by rewrite Hr).
Qed.

Lemma segment_shows c b w x res b' ticks s :
  run_running_segment env genv tick_fn segment_fuel walk_fuel c b w x = Some (res, b', ticks) ->
  shows s w -> shows s (b_io b').
Proof.
  intros E Hs. eapply shows_same; [|exact Hs]. revert E.
  unfold run_running_segment, run_schedule_loop_with_initial_tick, enter.
  destruct (from_secs_f64 _) as [i|]; [|done]. cbn [now].
  match goal with |- context [iterate _ _ _ _ _ ?r ?l] => set (r0 := r); set (l0 := l) end.
  destruct (iterate _ _ _ _ _ r0 l0) as [cs out] eqn:Ei.
  assert (Hu : forall l, left_at out = Some l -> state <$> io_stats (io l) = state <$> io_stats w)
    by (intros l El; exact (iterate_untouched _ _ _ _ state _ _ _ _ _ _ Ei El)).
  destruct out as [l|e l| |l]; try done; intros [= _ <- _]; apply (Hu l eq_refl).
Qed.

(** A turn that goes on shows its state. *)
Definition turn_shows (t : @Turn S T) : Prop :=
  match t with Next b' _ _ => shows (b_state b') (b_io b') | _ => True end.

Lemma settle_shows b s open zero : shows (b_state (settle_in env b s open zero)) (b_io (settle_in env b s open zero)).
Proof. apply write_state_shows. Qed.

Lemma move_shows b w s zero : shows (b_state (move_to env b w s zero)) (b_io (move_to env b w s zero)).
Proof. apply write_state_shows. Qed.

Lemma commit_shows c b ticks : turn_shows (commit_close env c b ticks).
Proof.
  unfold commit_close. destruct (close_markers_now env c b) as [[[]|e] b1]; [|done]. apply settle_shows.
Qed.

Lemma after_segment_shows c b ticks (k : Body -> Turn) :
  (forall w, io_stats w = io_stats (b_io b) -> turn_shows (k (set_b_io b w))) ->
  turn_shows (after_segment env c b ticks k).
Proof.
  intros Hk. unfold after_segment, cancelled. destruct (cancel_flag env _); [done|].
  pose proof (expired_stats c (advance (b_io b))) as He.
  destruct (duration_expired env c _) as [[] w]; [done|]. by apply Hk.
Qed.

Lemma pending_shows c b w :
  b_state b = Pending -> shows Pending w -> turn_shows (pending_turn env genv c b w).
Proof.
  intros Hs Hw. unfold pending_turn. destruct (after_satisfied b); cbn [negb].
  - destruct (has_while (gate_ctx c)); cbn [negb]; [destruct (while_open b)|]; apply move_shows.
  - pose proof (until_stats c w PAUSED_POLL_INTERVAL) as Hu.
    destruct (remaining_until env c w _) as [wait w1]. cbn [snd] in Hu.
    unfold recv_or_cancel. destruct (cancel_wins env _); [done|].
    assert (shows Pending (advance w1)) by (apply (shows_same _ w); [cbn; by rewrite Hu|done]).
    destruct (received _ _ _) as [[]|]; try done.
    destruct (if_unresolved _); [apply settle_shows|done].
Qed.

Lemma running_shows c b w :
  b_state b = Running -> shows Running w ->
  turn_shows (running_turn env genv tick_fn segment_fuel walk_fuel debounce_fuel c b w).
Proof.
  intros Hs Hw. unfold running_turn.
  destruct (run_running_segment _ _ _ _ _ _ _ _ _) as [[[[exit|e] b1] ticks]|] eqn:Er; [|done|done].
  pose proof (segment_shows _ _ _ _ _ _ _ _ Er Hw) as Hb.
  apply after_segment_shows. intros w1 Hw1. destruct exit.
  - unfold debounce_close_to_paused. destruct (_ =? 0); [apply commit_shows|]. cbn [now].
    destruct (debounce_loop _ _ _ _ _ _) as [[[] w2]|] eqn:Ed; [apply commit_shows| |done].
    apply debounce_loop_stats in Ed. cbn. apply (shows_same _ (b_io b1)); [|done].
    rewrite Ed. cbn. by rewrite Hw1.
  - destruct (if_unresolved _); [|done].
    destruct (close_markers_now env c _) as [[[]|e] b2]; [apply settle_shows|done].
  - apply settle_shows.
  - apply settle_shows.
Qed.

Lemma paused_shows c b w :
  b_state b = Paused \/ b_state b = Held -> shows (b_state b) w ->
  turn_shows (paused_turn env genv c b w).
Proof.
  intros Hs Hw. unfold paused_turn. pose proof (paused_wait_stats c b w) as Hp.
  destruct (paused_wait env genv c b w) as [[recv|] w1]; [|done]. cbn [now snd] in *.
  assert (Hstay : shows (b_state b) (advance w1)) by (apply (shows_same _ w); [cbn; by rewrite Hp|done]).
  destruct recv as [[]|];
    try (destruct (if_unresolved (gate_ctx c)); [apply settle_shows|done]);
    destruct (fire_if_due _ _) as [[[]|] d]; try (destruct (while_open b));
    first [exact Hstay | apply write_state_shows].
Qed.

Lemma unresolved_shows c b w :
  b_state b = Unresolved -> shows Unresolved w ->
  turn_shows (unresolved_turn env genv tick_fn segment_fuel walk_fuel c b w).
Proof.
  intros Hs Hw. unfold unresolved_turn. destruct (default UPending _).
  1: { destruct (run_running_segment _ _ _ _ _ _ _ _ _) as [[[[exit|e] b1] ticks]|] eqn:Er; [|done|done].
    pose proof (segment_shows _ _ _ _ _ _ _ _ Er Hw) as Hb.
    apply segment_machine in Er. injection Er as Es _ _ _. rewrite Hs in Es.
    apply after_segment_shows. intros w1 Hw1.
    assert (shows (b_state b1) w1) by (rewrite Es; apply (shows_same _ (b_io b1)); [by rewrite Hw1|done]).
    destruct exit; [apply commit_shows|done|apply settle_shows|done]. }
  all: pose proof (until_stats c w PAUSED_POLL_INTERVAL) as Hu;
    destruct (remaining_until env c w _) as [wait w1]; cbn [snd] in Hu;
    unfold recv_or_cancel; (destruct (cancel_wins env _); [done|]);
    assert (shows (b_state b) (advance w1)) by (rewrite Hs; apply (shows_same _ w); [cbn; by rewrite Hu|done]);
    destruct (received _ _ _) as [[]|]; try done; try apply settle_shows; cbn; by rewrite <- Hs.
Qed.

Lemma turn_in_sync c b : shows (b_state b) (b_io b) -> turn_shows (turn c b).
Proof.
  intros Hs. unfold body_iteration, cancelled. destruct (cancel_flag env _); [done|].
  pose proof (expired_stats c (advance (b_io b))) as He.
  destruct (duration_expired env c _) as [[] w]; [done|]. cbn [snd] in He.
  assert (Hw : shows (b_state b) w) by (apply (shows_same _ (b_io b)); [by rewrite He|done]).
  destruct (b_state b) eqn:Es; [by apply pending_shows|by apply running_shows| | |by apply unresolved_shows|done];
    apply paused_shows; rewrite Es; auto.
Qed.

(** The state a scenario reports is the state it is in. Between the turns of
    its loop, from the first on, the statistics other threads read show the
    state of the machine. *)
Theorem state_in_sync sch rate ctx t o lim w b
  (Hr : body_reach (body_start env sch rate ctx t o lim w).1 (body_start env sch rate ctx t o lim w).2 b) :
  shows (b_state b) (b_io b).
Proof.
  induction Hr as [|b1 b2 ticks marked _ IH Ht].
  - unfold body_start. cbn [now]. destruct (resolve env sch _ _) as [a w1]. apply write_state_shows.
  - pose proof (turn_in_sync (body_start env sch rate ctx t o lim w).1 b1 IH) as Hs. by rewrite Ht in Hs.
Qed.

(** ** The tick counter across pauses *)

(** A schedule without silences. *)
Definition unbroken (sch : ParsedSchedule) : Prop := gap_window sch = None /\ gap_windows sch = [].

Lemma iterate_consecutive (tk : @Wrapped T -> TickContext -> TickOutput ->
    result TickResult SondaError * TickOutput * list MetricEvent * @Wrapped T) tok fuel r
  (l : @LoopState S (@Wrapped T)) cs out :
  unbroken (schedule r) -> iterate env tk tok walk_fuel fuel r l = (cs, out) ->
  ctx_tick <$> cs = seqZ (tick l) (Z.of_nat (length cs)) /\
  (forall l', out = Ended l' -> tick l' = tick l + Z.of_nat (length cs)).
Proof.
  intros [Hg Hw]. revert l cs. induction fuel as [|fuel IH]; intros l cs; cbn [iterate].
  { intros [= <- <-]. by split. }
  pose proof (iteration_spec env tk tok walk_fuel r l) as Hi.
  destruct (iteration _ _ _ _ _ _) as [l1|ctx l1|l1|ctx e l1| |].
  - intros Hr. destruct Hi as [[n _ _ Ht _|k t _ _ _ _ _ Hsome] _];
      [|specialize (Hsome Hw); by rewrite Hg in Hsome].
    rewrite <- Ht. by apply IH.
  - destruct (iterate _ _ _ _ fuel r l1) as [cs1 out1] eqn:E. intros [= <- ->].
    destruct Hi as ((Hc & _) & Ht & _). destruct (IH l1 cs1 E) as [H1 H2]. cbn [length].
    rewrite fmap_cons, Hc, H1, Ht, (seqZ_cons (tick l)) by lia. split.
    + f_equal. f_equal; lia.
    + intros l' E'. rewrite (H2 l' E'). lia.
  - intros [= <- <-]. destruct Hi as [_ Ht]. split; [done|]. intros l' [= ->]. cbn. lia.
  - intros [= <- <-]. destruct Hi as [(Hc & _) _]. split; [|done]. cbn. by rewrite Hc.
  - intros [= <- <-]. by split.
  - intros [= <- <-]. by split.
Qed.

Lemma segment_consecutive c b w x res b' ticks :
  unbroken (g_schedule c) ->
  run_running_segment env genv tick_fn segment_fuel walk_fuel c b w x = Some (res, b', ticks) ->
  ctx_tick <$> ticks = seqZ (b_next_tick b) (Z.of_nat (length ticks)) /\
  (forall e, res = Ok e -> b_next_tick b' = b_next_tick b + Z.of_nat (length ticks)).
Proof.
  intros Hu. unfold run_running_segment, run_schedule_loop_with_initial_tick, enter.
  destruct (from_secs_f64 _) as [i|]; [|done]. cbn [now].
  match goal with |- context [iterate _ _ _ _ _ ?r ?l] => set (r0 := r); set (l0 := l) end.
  destruct (iterate _ _ _ _ _ r0 l0) as [cs out] eqn:Ei.
  apply iterate_consecutive in Ei as [H1 H2]; [|done].
  destruct out as [l|e l| |l]; try done; intros [= <- <- <-]; (split; [exact H1|]); [|done].
  intros e _. by rewrite (H2 l eq_refl).
Qed.

(** A turn runs the next ticks and, if it goes on, leaves the one after them. *)
Definition turn_consecutive b (t : @Turn S T) : Prop :=
  ctx_tick <$> ticks_of t = seqZ (b_next_tick b) (Z.of_nat (length (ticks_of t))) /\
  match t with
  | Next b' ticks _ => b_next_tick b' = b_next_tick b + Z.of_nat (length ticks)
  | _ => True
  end.

Lemma consecutive_quiet b (t : @Turn S T) :
  ticks_of t = [] ->
  match t with Next b' _ _ => b_next_tick b' = b_next_tick b | _ => True end ->
  turn_consecutive b t.
Proof.
  intros Ht Hn. unfold turn_consecutive. rewrite Ht. split; [done|].
  destruct t; try done. cbn in Ht. subst. cbn. lia.
Qed.

Lemma consecutive_after c b b1 ticks (k : @Body S T -> Turn) :
  ctx_tick <$> ticks = seqZ (b_next_tick b) (Z.of_nat (length ticks)) ->
  b_next_tick b1 = b_next_tick b + Z.of_nat (length ticks) ->
  (forall w, match k (set_b_io b1 w) with
     | Next b' tks _ => tks = ticks /\ b_next_tick b' = b_next_tick b1
     | Exit _ _ tks | Error _ _ tks => tks = ticks
     | Lost => True end) ->
  turn_consecutive b (after_segment env c b1 ticks k).
Proof.
  intros H1 H2 Hk. unfold after_segment, cancelled. destruct (cancel_flag env _); [by split|].
  destruct (duration_expired env c _) as [[] w]; [by split|].
  specialize (Hk w). unfold turn_consecutive.
  destruct (k (set_b_io b1 w)) as [b' tks m|e b' tks|e b' tks|]; cbn; try (subst; by split).
  destruct Hk as [-> ->]. by split.
Qed.

Lemma commit_ticks c b ticks :
  match commit_close env c b ticks with
  | Next b' tks _ => tks = ticks /\ b_next_tick b' = b_next_tick b
  | Exit _ _ tks | Error _ _ tks => tks = ticks
  | Lost => True
  end.
Proof.
  unfold commit_close, close_markers_now.
  destruct (invoke_close_emit _ _ _ _ _ _ _) as [[[[[]|e] ?] ?] ?]; done.
Qed.

Lemma paused_consecutive c b w : turn_consecutive b (paused_turn env genv c b w).
Proof.
  apply consecutive_quiet; [apply paused_quiet|]. unfold paused_turn.
  destruct (paused_wait env genv c b w) as [[recv|] w1]; [|done]. cbn [now].
  destruct recv as [[]|]; try (by destruct (if_unresolved (gate_ctx c)));
    destruct (fire_if_due _ _) as [[[]|] d]; try done; cbn; by destruct (while_open b).
Qed.

Lemma pending_consecutive c b w : turn_consecutive b (pending_turn env genv c b w).
Proof.
  unfold pending_turn. destruct (after_satisfied b); cbn [negb].
  - destruct (has_while _); cbn [negb]; [destruct (while_open b)|]; by apply consecutive_quiet.
  - destruct (remaining_until _ _ _ _) as [wait w1]. unfold recv_or_cancel.
    destruct (cancel_wins env _); [by apply consecutive_quiet|].
    destruct (received _ _ _) as [[]|]; try (by apply consecutive_quiet).
    destruct (if_unresolved _); by apply consecutive_quiet.
Qed.

Lemma turn_ticks c b : unbroken (g_schedule c) -> turn_consecutive b (turn c b).
Proof.
  intros Hu. unfold body_iteration, cancelled.
  destruct (cancel_flag env _); [by apply consecutive_quiet|].
  destruct (duration_expired env c _) as [[] w]; [by apply consecutive_quiet|].
  destruct (b_state b) eqn:Es; [apply pending_consecutive| |apply paused_consecutive..| |
    by apply consecutive_quiet].
  - unfold running_turn.
    destruct (run_running_segment _ _ _ _ _ _ _ _ _) as [[[[exit|e] b1] ticks]|] eqn:Er;
      [|by apply segment_consecutive in Er as [? _]; [split|]|by apply consecutive_quiet].
    apply segment_consecutive in Er as [H1 H2]; [|done]. specialize (H2 _ eq_refl).
    apply consecutive_after; [done|done|]. intros w1. destruct exit; [| |done|done].
    + destruct (debounce_close_to_paused _ _ _ _ _ _) as [[[] w2]|]; [|done|done].
      apply (commit_ticks c (set_b_io (set_b_io b1 w1) w2)).
    + destruct (if_unresolved _); [|done]. unfold close_markers_now.
      destruct (invoke_close_emit _ _ _ _ _ _ _) as [[[[[]|e] ?] ?] ?]; done.
  - unfold unresolved_turn. destruct (default UPending _).
    1: { destruct (run_running_segment _ _ _ _ _ _ _ _ _) as [[[[exit|e] b1] ticks]|] eqn:Er;
        [|by apply segment_consecutive in Er as [? _]; [split|]|by apply consecutive_quiet].
      apply segment_consecutive in Er as [H1 H2]; [|done]. specialize (H2 _ eq_refl).
      apply consecutive_after; [done|done|]. intros w1. destruct exit; [|done..].
      apply (commit_ticks c (set_b_io b1 w1)). }
    all: destruct (remaining_until _ _ _ _) as [wait w1]; unfold recv_or_cancel;
      (destruct (cancel_wins env _); [by apply consecutive_quiet|]);
      destruct (received _ _ _) as [[]|]; by apply consecutive_quiet.
Qed.

(** A pause costs no tick. On a schedule without silences, over a whole
    gated run and however often the gate opens and closes, the ticks given to
    the generator are 0, 1, 2, ..: a segment goes on with the tick after the
    last one of the segment before it. *)
Theorem ticks_continue_across_pauses fuel sch rate ctx t w res ticks
  (Hu : unbroken sch)
  (Hr : gated_loop env genv tick_fn segment_fuel walk_fuel debounce_fuel fuel sch rate ctx t w
          = (res, ticks)) :
  ctx_tick <$> ticks = seqZ 0 (Z.of_nat (length ticks)).
Proof.
  revert Hr. unfold gated_loop, body_start. cbn [now]. destruct (resolve env sch _ _) as [a w1].
  match goal with |- context [body_loop _ _ _ _ _ _ _ ?c ?b] => set (c0 := c); set (b0 := b) end.
  assert (Hloop : forall b, ctx_tick <$> (body_loop env genv tick_fn segment_fuel walk_fuel debounce_fuel
      fuel c0 b).2 = seqZ (b_next_tick b) (Z.of_nat (length (body_loop env genv tick_fn segment_fuel
      walk_fuel debounce_fuel fuel c0 b).2))).
  { induction fuel as [|fuel IH]; intros b; cbn [body_loop]; [done|].
    pose proof (turn_ticks c0 b Hu) as [H1 H2].
    destruct (turn c0 b) as [b' tks m|e b' tks|e b' tks|]; cbn [ticks_of] in H1; try exact H1.
    specialize (IH b'). destruct (body_loop _ _ _ _ _ _ fuel c0 b') as [r more]. cbn [snd] in IH |- *.
    rewrite fmap_app, H1, IH, H2, length_app, Nat2Z.inj_add, seqZ_app by lia. done. }
  specialize (Hloop b0). destruct (body_loop _ _ _ _ _ _ _ c0 b0) as [[[[e|e] b]|] tks]; cbn [snd] in Hloop.
  - destruct (close_markers_now env c0 b) as [r b']. destruct (match r with Ok _ => _ | Err _ => _ end).
    by intros [= _ <-].
  - by intros [= _ <-].
  - by intros [= _ <-].
Qed.

(** ** The end of a run *)

#[local] Instance state_failure_blind : FailureBlind state.
Proof. done. Qed.

#[local] Instance series_failure_blind : FailureBlind close_emit_series.
Proof. done. Qed.

Lemma emitter_drains encode order signal wants o w :
  forall st, io_stats (make_close_emitter env encode order signal wants o w).2 = Some st ->
  close_emit_series st = ∅.
Proof.
  unfold make_close_emitter, drain_close_emit_series, system_now. destruct (io_stats w) as [st0|] eqn:E.
  - destruct (last_emit_ts st0); destruct (close_markers _ _ _ _ _ _); cbn; by intros st [= <-].
  - intros st. cbn. by rewrite E.
Qed.

Lemma finalize_keeps {A : Type} (part : ScenarioStats -> A) `{!FailureBlind part} name policy w r w' r' :
  finalize_sink name policy w r = (r', w') -> part <$> io_stats w' = part <$> io_stats w.
Proof.
  unfold finalize_sink, apply_flush_policy, apply_shutdown_flush_policy. destruct r as [[]|e]; [|by intros [= _ <-]].
  destruct (flush (sink w)) as [[[]|[]] s]; try (by intros [= _ <-]).
  destruct policy; intros [= _ <-]; [|done]. cbn. destruct (io_stats w); [|done]. cbn. f_equal. apply failure_blind.
Qed.

Lemma finish_keeps_series w :
  close_emit_series <$> io_stats (write_state env w Finished false)
    = close_emit_series <$> io_stats w.
Proof.
  unfold write_state. destruct (io_stats w) as [st|] eqn:E; [|by rewrite E].
  by destruct (decide (state st = Finished)).
Qed.

(** A scenario that ends well leaves nothing to recover. When [gated_loop]
    returns [Ok] (cancelled, at the end of its duration, or with its upstream
    gone), its state is [Finished] and no series is left waiting for its
    close marker. *)
Theorem gated_run_recovers fuel sch rate ctx t w w' ticks encode order signal wants st
  (Hc : close_emit ctx = Some (make_close_emitter env encode order signal wants))
  (Hr : gated_loop env genv tick_fn segment_fuel walk_fuel debounce_fuel fuel sch rate ctx t w
          = (Some (Ok tt, w'), ticks))
  (Hst : io_stats w' = Some st) :
  state st = Finished /\ close_emit_series st = ∅.
Proof.
  revert Hr. unfold gated_loop, body_start. cbn [now]. destruct (resolve env sch _ _) as [a w1].
  match goal with |- context [body_loop _ _ _ _ _ _ _ ?c ?b] => set (c0 := c); set (b0 := b) end.
  destruct (body_loop _ _ _ _ _ _ _ c0 b0) as [[[[e|e] b]|] tks]; [|done|done].
  unfold close_markers_now. cbn [gate_ctx c0]. rewrite Hc.
  match goal with |- context [invoke_close_emit ?a ?b ?c ?d (Some ?e) ?f ?g] =>
    pose proof (invoke_blind close_emit_series b c d e f g) as Hi;
    pose proof (emitter_drains encode order signal wants (clear f) g) as Hd;
    destruct (invoke_close_emit a b c d (Some e) f g) as [[[r lim] o] w2] end.
  cbn [snd b_io] in *. destruct r as [[]|e1].
  - cbn [finish]. destruct (finalize_sink _ _ _ _) as [r' w3] eqn:Ef. intros [= -> -> _].
    pose proof (finalize_keeps state _ _ _ _ _ _ Ef) as H1.
    pose proof (finalize_keeps close_emit_series _ _ _ _ _ _ Ef) as H2.
    rewrite finish_keeps_series, Hi, Hst in H2. cbn [snd] in H2. rewrite Hst in H1. cbn in H1, H2.
    split.
    + destruct (io_stats (write_state env w2 Finished false)) as [st1|] eqn:E1; [|done].
      cbn in H1. injection H1 as ->. by apply (write_state_shows w2 Finished false).
    + destruct (io_stats (make_close_emitter _ _ _ _ _ _ _).2) as [st1|] eqn:E1; [|done].
      cbn in H2. injection H2 as ->. by apply Hd.
  - by intros [= ].
Qed.
End facts.

(** ** Concrete runs *)

#[local] Existing Instance log_sink.

(** 50 ms a reading: four readings, an iteration of the segment's loop, are one
    interval at 5 ticks a second. *)
Definition gate_clock : Env :=
  mk_env (fun n => Z.of_nat n * (50 * ms)) (fun _ => 0) (fun _ => false) (fun _ => false).

(** A gate that delivers one edge to the wait made between two readings, and
    [after_first] to the drain of the first tick. *)
Definition one_edge (k : nat) (width : nat) (e : GateEdge) (after_first : list GateEdge) : GateEnv :=
  mk_gate_env (fun n _ => if (k <=? n)%nat && (n <? k + width)%nat then Some e else None)
    (fun n => if (n =? 0)%nat then after_first else []).

Definition ex_context (open : bool) (delay : option DelayClause) (mode : option UnresolvedBehavior)
  (emit : option (@CloseEmitFn (list Z))) (unresolved : bool) : @GateContext (list Z) :=
  mk_gate_context (mk_initial false (Some open) 0) delay false true emit mode unresolved false.

(** A callback that writes and pushes an event of one series. *)
Definition ex_event_tick (t : unit) (ctx : TickContext) (o : TickOutput)
  : result TickResult SondaError * TickOutput * list MetricEvent * unit :=
  (Ok (mk_tick_result 1 true), mk_output [Bytes [ctx_tick ctx]] (spare o) [],
   [mk_event "up" 1 (mk_labels []) (ctx_wall_clock ctx)], t).

Definition ex_encode (e : MetricEvent) : result (list Z) SondaError := Ok [ev_value e].

#[local] Abbreviation ex_gated genv total ctx st :=
  (gated_loop gate_clock genv ex_event_tick 100 100 100 200 (ex_schedule total None [] None false)
     rate_5 ctx tt (ex_io st)).

(** The body after [k] turns. *)
Fixpoint turns {S T : Type} `{Sink S} (env : Env) (genv : GateEnv)
  (tk : T -> TickContext -> TickOutput -> result TickResult SondaError * TickOutput * list MetricEvent * T)
  (k : nat) (c : @Scenario S) (b : @Body S T) : option (@Body S T) :=
  match k with
  | O => Some b
  | Datatypes.S k =>
      match body_iteration env genv tk 100 100 100 c b with
      | Next b _ _ => turns env genv tk k c b
      | _ => None
      end
  end.

Lemma turns_reach {S T : Type} `{Sink S} env genv tk k (c : @Scenario S) (b0 b b' : @Body S T) :
  body_reach env genv tk 100 100 100 c b0 b -> turns env genv tk k c b = Some b' ->
  body_reach env genv tk 100 100 100 c b0 b'.
Proof.
  revert b. induction k as [|k IH]; intros b Hb; cbn [turns]; [by intros [= <-]|].
  destruct (body_iteration _ _ _ _ _ _ c b) as [b1 tks m| | |] eqn:E; try done.
  apply IH. by eapply body_turn.
Qed.

(** A scenario that closes after its first tick, with [delay.open] of 500 ms,
    and whose gate reopens at about 1.5 s. *)
Definition ex_reopen_env : GateEnv := one_edge 30 8 WhileOpen [WhileClose].

Definition ex_reopen_start : @Scenario (list Z) * @Body (list Z) unit :=
  body_start gate_clock (ex_schedule (4000 * ms) None [] None false) rate_5
    (ex_context true (Some (mk_delay (Some (500 * ms)) None None None)) None
       (Some (make_close_emitter gate_clock ex_encode elements (SnapTo 7) false)) false) tt
    for_schedule_loop new_close_limiters (ex_io (Some (enable_close_series_tracking default_stats))).

Definition ex_turns (k : nat) : option (@Body (list Z) unit) :=
  turns gate_clock ex_reopen_env ex_event_tick k ex_reopen_start.1 ex_reopen_start.2.

(** The turns from [b] that stay closed, with what was heard. *)
Definition is_closed (s : ScenarioState) : bool := bool_decide (s = Paused) || bool_decide (s = Held).

Fixpoint closed_turns {S T : Type} `{Sink S} (env : Env) (genv : GateEnv)
  (tk : T -> TickContext -> TickOutput -> result TickResult SondaError * TickOutput * list MetricEvent * T)
  (k : nat) (c : @Scenario S) (b : @Body S T) (obs : list (option GateEdge * Z))
  : option (list (option GateEdge * Z) * @Body S T) :=
  match k with
  | O => Some (obs, b)
  | Datatypes.S k =>
      match is_closed (b_state b), body_iteration env genv tk 100 100 100 c b, heard env genv c b with
      | true, Next b1 _ _, Some h =>
          if is_closed (b_state b1) then closed_turns env genv tk k c b1 (obs ++ [h]) else None
      | _, _, _ => None
      end
  end.

Lemma is_closed_spec s : is_closed s = true -> s = Paused \/ s = Held.
Proof. unfold is_closed. rewrite orb_true_iff, !bool_decide_eq_true. done. Qed.

Lemma closed_turns_stay {S T : Type} `{Sink S} env genv tk k (c : @Scenario S) (b0 b b' : @Body S T) obs obs' :
  stays_closed env genv tk 100 100 100 c b0 obs b ->
  closed_turns env genv tk k c b obs = Some (obs', b') ->
  stays_closed env genv tk 100 100 100 c b0 obs' b'.
Proof.
  revert b obs. induction k as [|k IH]; intros b obs Hb; cbn [closed_turns]; [by intros [= <- <-]|].
  destruct (is_closed (b_state b)) eqn:E1; [|done].
  destruct (body_iteration _ _ _ _ _ _ c b) as [b1 tks m| | |] eqn:E2; try done.
  destruct (heard env genv c b) as [h|] eqn:E3; [|done].
  destruct (is_closed (b_state b1)) eqn:E4; [|done]. apply IH.
  eapply closed_turn; [exact Hb|by apply is_closed_spec|exact E2|exact E3|by apply is_closed_spec].
Qed.

(** A computation that gives something, as the thing it gives. *)
Lemma is_some_default {A : Type} (o : option A) d : is_some o = true -> o = Some (default d o).
Proof. by destruct o. Qed.

(** The body after [k] turns, and the turns 3 to 6, paused. *)
Definition ex_body (k : nat) : @Body (list Z) unit := default ex_reopen_start.2 (ex_turns k).

Definition ex_closed : list (option GateEdge * Z) * @Body (list Z) unit :=
  default ([], ex_body 2)
    (closed_turns gate_clock ex_reopen_env ex_event_tick 4 ex_reopen_start.1 (ex_body 2) []).

#[local] Abbreviation ex_turn b :=
  (body_iteration gate_clock ex_reopen_env ex_event_tick 100 100 100 ex_reopen_start.1 b).

Definition next_state (t : @Turn (list Z) unit) : option ScenarioState :=
  match t with Next b _ _ => Some (b_state b) | _ => None end.

Lemma ex_reach k : is_some (ex_turns k) = true ->
  body_reach gate_clock ex_reopen_env ex_event_tick 100 100 100 ex_reopen_start.1 ex_reopen_start.2
    (ex_body k).
Proof.
  intros Hk. eapply turns_reach; [apply body_here|]. by apply (is_some_default (ex_turns k)).
Qed.

Lemma ex_stays :
  stays_closed gate_clock ex_reopen_env ex_event_tick 100 100 100 ex_reopen_start.1 (ex_body 2)
    ex_closed.1 ex_closed.2.
Proof.
  eapply closed_turns_stay; [apply closed_here|].
  rewrite (is_some_default (closed_turns gate_clock ex_reopen_env ex_event_tick 4 ex_reopen_start.1
    (ex_body 2) []) ([], ex_body 2)); [|vm_compute; reflexivity].
  unfold ex_closed. by destruct (default _ _).
Qed.

(** The parts of a turn that goes on. *)
Definition next_parts (b : @Body (list Z) unit) (t : @Turn (list Z) unit)
  : @Body (list Z) unit * list TickContext * bool :=
  match t with Next b ticks marked => (b, ticks, marked) | _ => (b, [], false) end.

Lemma next_parts_spec b t :
  is_some (next_state t) = true ->
  t = Next (next_parts b t).1.1 (next_parts b t).1.2 (next_parts b t).2.
Proof. by destruct t. Qed.

(** The turn that resumes. *)
Definition ex_resumed : @Body (list Z) unit * list TickContext * bool :=
  next_parts (ex_body 2) (ex_turn ex_closed.2).

Lemma ex_resumes : ex_turn ex_closed.2 = Next ex_resumed.1.1 ex_resumed.1.2 ex_resumed.2.
Proof.
  assert (Hn : is_some (next_state (ex_turn ex_closed.2)) = true) by (vm_compute; reflexivity).
  unfold ex_resumed. exact (next_parts_spec (ex_body 2) _ Hn).
Qed.

Lemma ex_closed_facts :
  pending_open_at (debounce (ex_body 2)) = None /\
  (b_state ex_closed.2 = Paused \/ b_state ex_closed.2 = Held) /\
  heard gate_clock ex_reopen_env ex_reopen_start.1 ex_closed.2 = Some (None, 2300 * ms) /\
  b_state ex_resumed.1.1 = Running.
Proof.
  split; [vm_compute; reflexivity|]. split; [left; vm_compute; reflexivity|].
  split; vm_compute; reflexivity.
Qed.

Lemma reopens_after_delay_witness :
  b_state ex_resumed.1.1 = Running /\
  exists t0, open_since (ex_closed.1 ++ [(None, 2300 * ms)]) None = Some t0 /\
    t0 + delay_open (debounce (ex_body 2)) <= 2300 * ms.
Proof.
  split; [apply ex_closed_facts|]. destruct ex_closed_facts as (H1 & H2 & H3 & H4).
  exact (reopens_after_delay gate_clock ex_reopen_env ex_event_tick 100 100 100 ex_reopen_start.1
    (ex_body 2) ex_closed.1 ex_closed.2 ex_resumed.1.1 ex_resumed.1.2 ex_resumed.2 None (2300 * ms)
    H1 ex_stays H2 ex_resumes H3 H4).
Defined.

Lemma emits_only_when_open_witness :
  ctx_tick <$> ticks_of (ex_turn (ex_body 7)) = seqZ 1 15 /\
  b_state (ex_body 7) = Running /\ while_open (ex_body 7) = true.
Proof.
  assert (Ht : ctx_tick <$> ticks_of (ex_turn (ex_body 7)) = seqZ 1 15) by (vm_compute; reflexivity).
  split; [exact Ht|].
  destruct (emits_only_when_open gate_clock ex_reopen_env ex_event_tick 100 100 100
    (ex_schedule (4000 * ms) None [] None false) rate_5
    (ex_context true (Some (mk_delay (Some (500 * ms)) None None None)) None
       (Some (make_close_emitter gate_clock ex_encode elements (SnapTo 7) false)) false) tt
    for_schedule_loop new_close_limiters (ex_io (Some (enable_close_series_tracking default_stats)))
    (ex_body 7)) as [(H1 & H2 & _)|(_ & H2)].
  - discriminate.
  - apply (ex_reach 7). vm_compute. reflexivity.
  - unfold ex_reopen_start in Ht. intros E. rewrite E in Ht. discriminate Ht.
  - split; [exact H1|]. by apply H2.
  - discriminate.
Defined.

Lemma state_in_sync_witness :
  shows (b_state (ex_body 6)) (b_io (ex_body 6)) /\ b_state (ex_body 6) = Paused /\
  is_some (io_stats (b_io (ex_body 6))) = true.
Proof.
  split; [|vm_compute; split; reflexivity].
  refine (state_in_sync gate_clock ex_reopen_env ex_event_tick 100 100 100 _ _ _ _ _ _ _ (ex_body 6)
    (ex_reach 6 _)). vm_compute. reflexivity.
Defined.

Lemma ticks_continue_across_pauses_witness :
  let c := ex_gated ex_reopen_env (4000 * ms) (ex_context true None None None false) None in
  ctx_tick <$> c.2 = seqZ 0 (Z.of_nat (length c.2)) /\ length c.2 = 21%nat.
Proof.
  intros c. split; [|vm_compute; reflexivity].
  apply (ticks_continue_across_pauses gate_clock ex_reopen_env ex_event_tick 100 100 100 200
    (ex_schedule (4000 * ms) None [] None false) rate_5 (ex_context true None None None false) tt
    (ex_io None) c.1 c.2); [done|].
  unfold c. by destruct (gated_loop _ _ _ _ _ _ _ _ _ _ _ _).
Defined.

Lemma gated_run_recovers_witness :
  let ctx := ex_context true None None
    (Some (make_close_emitter gate_clock ex_encode elements (SnapTo 7) false)) false in
  exists w' st ticks,
    ex_gated ex_reopen_env (4000 * ms) ctx (Some (enable_close_series_tracking default_stats))
      = (Some (Ok tt, w'), ticks) /\ io_stats w' = Some st /\
    sink w' = [0; 7; 1; 2; 3; 4; 5; 6; 7; 8; 9; 10; 11; 12; 13; 14; 15; 7] /\
    state st = Finished /\ close_emit_series st = ∅.
Proof.
  intros ctx.
  destruct (ex_gated ex_reopen_env (4000 * ms) ctx (Some (enable_close_series_tracking default_stats)))
    as [[[[[]|e] w']|] ticks] eqn:Eg; try (exfalso; vm_compute in Eg; discriminate).
  assert (Hw : sink w' = [0; 7; 1; 2; 3; 4; 5; 6; 7; 8; 9; 10; 11; 12; 13; 14; 15; 7] /\
    is_some (io_stats w') = true)
    by (vm_compute in Eg; injection Eg as <- _; split; reflexivity).
  destruct Hw as [Hw Hst]. destruct (io_stats w') as [st|] eqn:Es; [|discriminate].
  exists w', st, ticks. split; [reflexivity|]. split; [exact Es|]. split; [exact Hw|].
  exact (gated_run_recovers gate_clock ex_reopen_env ex_event_tick 100 100 100 200
    (ex_schedule (4000 * ms) None [] None false) rate_5 ctx tt
    (ex_io (Some (enable_close_series_tracking default_stats))) w' ticks ex_encode elements (SnapTo 7) false st
    eq_refl Eg Es).
Defined.

(** ** What the loop does not do *)

(** A resumed segment runs past the scenario's duration: with a duration of
    10 s and a gate that opens at 8.3 s, the segment measures the 10 s from its
    own start, and ticks run until 18.2 s. *)
Lemma duration_restarts_on_resume :
  let c := ex_gated (one_edge 160 6 WhileOpen []) (10000 * ms) (ex_context false None None None false) None in
  length c.2 = 50%nat /\ ctx_wall_clock <$> list.last c.2 = Some (18200 * ms).
Proof. vm_compute. split; reflexivity. Qed.

(** An upstream that goes away while a close is being debounced is forgotten:
    with [if_unresolved: open] the scenario pauses instead of emitting on, and
    emits nothing more; without the debounce it goes on. *)
Lemma upstream_gone_lost_in_debounce :
  let debounced := Some (mk_delay None (Some (1000 * ms)) None None) in
  ctx_tick <$> (ex_gated (one_edge 0 20 UpstreamGone [WhileClose]) (10000 * ms)
    (ex_context true debounced (Some UOpen) None false) None).2 = [0] /\
  ctx_tick <$> (ex_gated (one_edge 0 0 UpstreamGone [UpstreamGone]) (10000 * ms)
    (ex_context true debounced (Some UOpen) None false) None).2 = seqZ 0 51.
Proof. vm_compute. split; reflexivity. Qed.

(** A gate that closes and reopens while one tick's edges are drained leaves the
    scenario paused though the gate is open: the reopening is discarded. *)
Lemma reopening_lost_in_drain :
  ctx_tick <$> (ex_gated (one_edge 0 0 WhileOpen [WhileClose; WhileOpen]) (10000 * ms)
    (ex_context true None None None false) None).2 = [0].
Proof. vm_compute. reflexivity. Qed.

(** With [if_unresolved: closed] the state shown is [Unresolved], never
    [Paused], for as long as the upstream is missing. *)
Lemma closed_mode_shows_unresolved :
  let start := body_start gate_clock (ex_schedule (4000 * ms) None [] None false) rate_5
    (ex_context false None (Some UClosed) None true) tt for_schedule_loop new_close_limiters
    (ex_io (Some default_stats)) in
  (fun k => (fun b => (b_state b, state <$> io_stats (b_io b))) <$>
     turns gate_clock (one_edge 0 0 WhileOpen []) ex_event_tick k start.1 start.2) <$> seq 0 12
  = replicate 12 (Some (Unresolved, Some Unresolved)).
Proof. vm_compute. reflexivity. Qed.
