(* ===== verification/GatedSpec.v ===== *)
(** * GatedSpec: the life of a gated scenario (schedule/core_loop.rs)

    What the gated loop of [GatedLoop] promises, as a machine without timers,
    counters or I/O: [life_step] says from what a scenario hears, and from the
    instant its gate was heard to open, what it becomes. The theorem: the loop
    is that machine. Whatever the environment delivers, the bodies it goes
    through are those of [life_run] over what its waits received and its
    segments drained, read off the environment by their place in it. *)

From Stdlib Require Import ZArith Lia.
From stdpp Require Import prelude strings list gmap.
From S2P Require Import Prelude Text Metric F64 Stats GateBus.
From S2P Require Import GateRegistry Windows Durations SinkIo ScheduleLoop ScheduleProofs GatedLoop GatedProofs.

(** ** The machine *)

(** What a turn of the loop meets: a wait that received an edge or nothing, and
    ended at [n]; a segment, with the edges drained after its last tick and
    whether a close it ended with was taken back while it was debounced; or
    neither, when a pending scenario has nothing to wait for. *)
Inductive Happening :=
| Heard (recv : option GateEdge) (n : Z)
| Ran (last : list GateEdge) (reopened : bool)
| Passed.

(** The state of a scenario, with the instant its gate was heard to open, if it
    has been since it closed. *)
Record Life := mk_life {
  l_state : ScenarioState;
  l_after : bool;
  l_open : bool;
  l_since : option Z;
}.

(** The edges that end a segment, and the last of some edges. *)
Definition ends_segment (on_open : bool) (e : GateEdge) : bool :=
  match e with
  | WhileClose | UpstreamGone => true
  | WhileOpen => on_open
  | AfterFired => false
  end.

Fixpoint last_end (on_open : bool) (edges : list GateEdge) : option GateEdge :=
  match edges with
  | [] => None
  | e :: edges =>
      match last_end on_open edges with
      | Some e' => Some e'
      | None => if ends_segment on_open e then Some e else None
      end
  end.

Section life.
Context (mode : option UnresolvedBehavior) (gated holds : bool) (D : Z).

(** A scenario whose gate closes holds its last values if it is to, and has
    some. *)
Definition closed (valued : bool) : ScenarioState := if holds && valued then Held else Paused.

(** One turn; [None] when there is no next. *)
Definition life_step (valued : bool) (l : Life) (h : Happening) : option Life :=
  let gone := match mode with
              | Some _ => Some (mk_life Unresolved (l_after l) false None)
              | None => None
              end in
  let close := Some (mk_life (closed valued) (l_after l) false None) in
  match l_state l, h with
  | Pending, Heard recv _ =>
      if l_after l then None
      else match recv with
      | Some AfterFired => Some (mk_life Pending true (l_open l) None)
      | Some WhileOpen => Some (mk_life Pending false true None)
      | Some WhileClose => Some (mk_life Pending false false None)
      | Some UpstreamGone => gone
      | None => Some l
      end
  | Pending, Passed =>
      if negb (l_after l) then None
      else if gated && negb (l_open l) then close
      else Some (mk_life Running true (l_open l) None)
  | Running, Ran last reopened =>
      match last_end false last with
      | Some UpstreamGone => gone
      | Some WhileClose =>
          if reopened then Some (mk_life Running (l_after l) true None) else close
      | _ => close
      end
  | (Paused | Held) as s, Heard recv n =>
      let wait after open since :=
        match since with
        | Some t0 => if t0 + D <=? n then Some (mk_life Running after true None)
                     else Some (mk_life s after open since)
        | None => Some (mk_life s after open None)
        end in
      match recv with
      | Some WhileOpen => wait (l_after l) true (Some n)
      | Some WhileClose => wait (l_after l) false None
      | Some AfterFired => wait true (l_open l) (l_since l)
      | Some UpstreamGone => gone
      | None => wait (l_after l) (l_open l) (l_since l)
      end
  | Unresolved, Ran last _ =>
      match mode with
      | Some UOpen =>
          match last_end true last with
          | Some WhileClose => close
          | Some WhileOpen => Some (mk_life Running (l_after l) true None)
          | _ => Some l
          end
      | _ => None
      end
  | Unresolved, Heard recv _ =>
      match mode, recv with
      | Some UOpen, _ => None
      | _, Some WhileOpen => Some (mk_life Pending (l_after l) true None)
      | _, Some WhileClose => close
      | _, Some AfterFired => Some (mk_life Unresolved true (l_open l) None)
      | _, Some UpstreamGone | _, None => Some l
      end
  | _, _ => None
  end.

(** The turns of a run, each with whether there are values to hold after it. *)
Fixpoint life_run (l : Life) (hs : list (Happening * bool)) : option Life :=
  match hs with
  | [] => Some l
  | (h, valued) :: hs => let! l := life_step valued l h in life_run l hs
  end.

Lemma life_run_snoc l hs h valued l1 l2 :
  life_run l hs = Some l1 -> life_step valued l1 h = Some l2 ->
  life_run l (hs ++ [(h, valued)]) = Some l2.
Proof.
  revert l. induction hs as [|[h0 v0] hs IH]; intros l; cbn [app life_run].
  - intros [= ->] ->. done.
  - destruct (life_step v0 l h0) as [l0|]; [|done]. cbn. apply IH.
Qed.
End life.

(** ** What the environment delivers *)

(** A loop that calls its callback only while its token is not cancelled, from
    a state with [P], ends in one. *)
Section callbacks.
Context {S T : Type} `{Sink S} (env : Env).
Context (tick_fn : T -> TickContext -> TickOutput ->
  result TickResult SondaError * TickOutput * list MetricEvent * T).
Context (token : T -> bool) (walk_fuel : nat).
Context (P : T -> Prop).
Context (HP : forall t ctx o, token t = false -> P t -> P (tick_fn t ctx o).2).

Lemma settle_callback r (l : LoopState) ctx interval burst w :
  P (tick_fn (callback l) ctx (clear (output l))).2 ->
  match settle env r l ctx interval burst (run_tick tick_fn l w ctx) with
  | Emitted _ l' | Return _ _ l' => P (callback l')
  | _ => False
  end.
Proof using Type.
  unfold run_tick. destruct (tick_fn _ _ _) as [[[res o] events] t]. cbn [snd]. intros Ht.
  assert (Hs : forall out from o' w', match settle env r l ctx interval burst ((out, from), events, o', t, w') with
    | Emitted _ l' | Return _ _ l' => P (callback l') | _ => False end).
  { intros out from o' w'. unfold settle. destruct out as [result|e].
    - by destruct (account_success _ _ _ _ _ _) as [[? ?] ?].
    - destruct e as [e|[]|e| | |]; try done; try (by destruct from).
      + by destruct (record_rejected_event _ _ _ _ _).
      + destruct (on_sink_error _); [by destruct (observe _ _ _ _ _)|done]. }
  destruct res as [result|e]; [|apply Hs].
  destruct (drain_writes o w) as [[[[d|]|e] o'] w']; apply Hs.
Qed.

Lemma iteration_callback r (l : LoopState) :
  P (callback l) ->
  match iteration env tick_fn token walk_fuel r l with
  | Continue l' | Break l' | Emitted _ l' | Return _ _ l' => P (callback l')
  | _ => True
  end.
Proof using HP.
  intros Hl. unfold iteration. cbn [cancelled now fst snd].
  destruct (cancel_flag env _ || token (callback l)) eqn:Ec; [done|].
  apply orb_false_iff in Ec as [_ Ht]. destruct (past_total _ _); [done|].
  assert (Hres : forall w found, match resume r l w found with
    | Continue l' | Break l' | Emitted _ l' | Return _ _ l' => P (callback l') | _ => True end).
  { intros w found. unfold resume. destruct found as [[k|]|]; [|done|done]. by destruct (slot r k). }
  destruct (let! gap := gap_window (schedule r) in _) as [gap|].
  { unfold wall_gap. destruct (time_until_gap_end _ _); [|done].
    destruct (time_until_gap_window_end _ _); [|done]. cbn [now].
    destruct (if _ <? _ then select_cancel env _ else _) as [[] w]; [done|]. apply Hres. }
  destruct (is_in_gap_window _ _); [apply Hres|]. unfold emit.
  destruct (match (let! burst := burst_window (schedule r) in _) with Some _ => _ | None => _ end) as [i|]; [|done].
  cbn [now]. destruct (if _ <? _ then select_cancel env _ else _) as [[] w]; [done|].
  match goal with |- match settle _ _ _ ?ctx ?i ?b (run_tick _ _ ?w _) with _ => _ end =>
    pose proof (settle_callback r l ctx i b w (HP _ _ _ Ht Hl)) as Hs end.
  by destruct (settle _ _ _ _ _ _ _).
Qed.

Lemma iterate_callback fuel r : forall (l : LoopState) cs out l',
  P (callback l) -> iterate env tick_fn token walk_fuel fuel r l = (cs, out) -> left_at out = Some l' ->
  P (callback l').
Proof using HP.
  induction fuel as [|fuel IH]; intros l cs out l' Hl; cbn [iterate]; [by intros [= _ <-] [= <-]|].
  pose proof (iteration_callback r l Hl) as Hi.
  destruct (iteration _ _ _ _ _ _) as [l1|ctx l1|l1|ctx e l1| |].
  - by apply IH.
  - destruct (iterate _ _ _ _ fuel r l1) as [cs1 out1] eqn:E. intros [= _ <-]. by eapply IH.
  - by intros [= _ <-] [= <-].
  - by intros [= _ <-] [= <-].
  - by intros [= _ <-].
  - intros [= _ <-] [= <-]. done.
Qed.
End callbacks.

Section spec.
Context {S T : Type} `{Sink S} (env : Env) (genv : GateEnv).
Context (tick_fn : T -> TickContext -> TickOutput ->
  result TickResult SondaError * TickOutput * list MetricEvent * T).
Context (segment_fuel walk_fuel debounce_fuel : nat).
Implicit Types (c : @Scenario S) (b : @Body S T) (w : Io S).

#[local] Abbreviation turn c b :=
  (body_iteration env genv tick_fn segment_fuel walk_fuel debounce_fuel c b).

(** The drains from the [d0]th to before the [d1]th, one per tick: none but the
    last has an edge that ends the segment. *)
Definition drained_to (on_open : bool) (d0 d1 : nat) (last : list GateEdge) : Prop :=
  d1 = d0 /\ last = [] \/
  (d0 < d1)%nat /\ last = drained genv (pred d1) /\
    forall k, (d0 <= k < pred d1)%nat -> last_end on_open (drained genv k) = None.

(** Whether a scenario has a duration, so that its waits read the clock for it. *)
Definition timed c : nat := if is_some (total_duration (g_schedule c)) then 1 else 0.

Definition expired_at c (k : nat) : Prop :=
  exists total, total_duration (g_schedule c) = Some total /\
    total <= duration_sat_sub (instant env k) (started_at c).

(** The [i]th wait of a debounce that began at the reading [k0] of the clock:
    where it begins, and what it receives if it gets that far. *)
Definition debounce_at c (k0 i : nat) : nat := Datatypes.S (k0 + i * (3 + 2 * timed c))%nat.

Definition debounce_hears c (close : Z) (k0 i : nat) (recv : option GateEdge) : Prop :=
  cancel_flag env (debounce_at c k0 i) = false /\
  instant env (debounce_at c k0 i + timed c + 1)%nat < instant env k0 + close /\
  exists wait, wait <= PAUSED_POLL_INTERVAL /\
    recv = received genv (debounce_at c k0 i + 2 * timed c + 2)%nat wait.

(** A close that is debounced: it is taken back by the first opening heard within
    the delay, with nothing in between that settles it. *)
Definition debounced c (close : Z) (k0 : nat) (reopened : bool) : Prop :=
  if close =? 0 then reopened = false
  else exists j,
    (forall i, (i < j)%nat -> exists recv, debounce_hears c close k0 i recv /\
       recv <> Some WhileOpen /\ recv <> Some UpstreamGone) /\
    if reopened then debounce_hears c close k0 j (Some WhileOpen)
    else cancel_flag env (debounce_at c k0 j) = true \/ expired_at c (debounce_at c k0 j + 1)%nat \/
         instant env k0 + close <= instant env (debounce_at c k0 j + timed c + 1)%nat \/
         cancel_wins env (debounce_at c k0 j + 2 * timed c + 2)%nat = true \/
         debounce_hears c close k0 j (Some UpstreamGone).

(** The reading at which a turn from [b] waits, when it does. *)
Definition waits_at c b : nat :=
  (reads (b_io b) + 2 * timed c +
   match b_state b with Paused | Held => 2 | _ => 1 end)%nat.

(** What a turn from [b] to [b'] met. *)
Inductive met c b b' : Happening -> Prop :=
| met_wait wait :
    b_state b <> Running -> wait <= PAUSED_POLL_INTERVAL ->
    met c b b' (Heard (received genv (waits_at c b) wait) (instant env (Datatypes.S (waits_at c b))))
| met_segment on_open last reopened :
    on_open = bool_decide (b_state b = Unresolved) ->
    drained_to on_open (b_drains b) (b_drains b') last ->
    (b_state b = Running -> last_end false last = Some WhileClose ->
       exists k0, (reads (b_io b) < k0)%nat /\ debounced c (delay_close (debounce b)) k0 reopened) ->
    met c b b' (Ran last reopened)
| met_nothing : met c b b' Passed.

(** Whether the statistics have values to hold. *)
Definition valued w : bool :=
  match io_stats w with Some st => negb (bool_decide (current_values st = ∅)) | None => false end.

(** A run of the loop, turn by turn, with what each met; only a segment runs
    ticks. *)
Inductive history c b : list (Happening * bool) -> Body -> Prop :=
| history_start : history c b [] b
| history_turn hs b1 b2 h ticks marked :
    history c b hs b1 -> turn c b1 = Next b2 ticks marked -> met c b1 b2 h ->
    (ticks <> [] -> exists last reopened, h = Ran last reopened) ->
    history c b (hs ++ [(h, valued (b_io b2))]) b2.

(** The life a scenario starts with. *)
Definition life_start (ctx : @GateContext S) : Life :=
  mk_life (if start_unresolved ctx then Unresolved else Pending)
    (negb (has_after ctx) || after_already_fired (initial ctx))
    (negb (has_while ctx) || default false (while_gate_open (initial ctx))) None.

(** ** The loop reads its environment in order *)

Lemma expired_reads c w :
  reads (duration_expired env c w).2 = (reads w + timed c)%nat /\
  ((duration_expired env c w).1 = true -> expired_at c (reads w)).
Proof using Type.
  unfold duration_expired, timed, expired_at, elapsed_since.
  destruct (total_duration _) as [total|] eqn:Et; cbn; [|split; [lia|done]].
  split; [lia|]. intros Hle%Z.leb_le. by exists total.
Qed.

Lemma remaining_reads c w : reads (remaining_duration env c w).2 = (reads w + timed c)%nat.
Proof using Type.
  unfold remaining_duration, timed, elapsed_since. destruct (total_duration _); cbn; lia.
Qed.

Lemma until_reads c w d :
  reads (remaining_until env c w d).2 = (reads w + timed c)%nat /\ (remaining_until env c w d).1 <= d.
Proof using Type.
  unfold remaining_until. pose proof (remaining_reads c w) as Hr.
  destruct (remaining_duration env c w) as [[r|] w1]; cbn in *; split; try done; lia.
Qed.

(** The values do not change when a state is written. *)
Lemma write_state_valued w s zero : valued (write_state env w s zero) = valued w.
Proof using Type.
  unfold valued, write_state. destruct (io_stats w) as [st|] eqn:Es; [|by rewrite Es].
  destruct (decide (state st = s)); cbn; by destruct zero.
Qed.

Lemma close_target_valued holds w : close_target_state holds w = closed holds (valued w).
Proof using Type.
  unfold close_target_state, closed, valued. destruct holds; cbn; [|done].
  destruct (io_stats w) as [st|]; [|done]. by destruct (bool_decide _).
Qed.

(** ** Segments *)

Lemma last_end_app on_open l1 l2 :
  last_end on_open (l1 ++ l2)
  = match last_end on_open l2 with Some e => Some e | None => last_end on_open l1 end.
Proof using Type.
  induction l1 as [|e l1 IH]; cbn [app last_end]; [by destruct (last_end _ l2)|]. rewrite IH.
  by destruct (last_end on_open l2).
Qed.

(** The exit an edge stands for. *)
Definition exit_of (last : option GateEdge) : SegmentExit :=
  match last with
  | Some WhileClose => SegWhileClose
  | Some UpstreamGone => SegUpstreamGone
  | Some WhileOpen => SegWhileOpen
  | _ => ShutdownOrDuration
  end.

(** What one drain makes of the callback's state. *)
Lemma drain_spec on_open edges : forall g : Wrapped,
  let g' := fold_left (drain_edge on_open) edges g in
  drains g' = drains (T := T) g /\
  match last_end on_open edges with
  | Some e => segment_cancelled g' = true /\ decode_segment_exit (observed g') = exit_of (Some e)
  | None => segment_cancelled g' = segment_cancelled g /\ observed g' = observed g
  end.
Proof using Type.
  induction edges as [|e edges IH] using rev_ind; intros g; cbn [fold_left]; [done|].
  rewrite fold_left_app, last_end_app. cbn [fold_left last_end]. destruct (IH g) as [H1 H2].
  set (g1 := fold_left (drain_edge on_open) edges g) in *. unfold drain_edge.
  destruct e; cbn [ends_segment]; try (split; [done|by split]).
  - split; [done|exact H2].
  - destruct on_open; cbn; [split; [done|by split]|split; [done|exact H2]].
Qed.

(** What a segment's callback has seen since [d0]. *)
Definition seen (on_open : bool) (d0 : nat) (g : @Wrapped T) : Prop :=
  exists last, drained_to on_open d0 (drains g) last /\
    decode_segment_exit (observed g) = exit_of (last_end on_open last) /\
    (segment_cancelled g = false -> observed g = SEGMENT_EXIT_NONE /\ last_end on_open last = None).

Lemma seen_tick on_open d0 (g : @Wrapped T) ctx o :
  segment_cancelled g = false -> seen on_open d0 g ->
  seen on_open d0 (wrapped genv tick_fn on_open g ctx o).2.
Proof using Type.
  intros Hc (last & Hd & _ & Hn). destruct (Hn Hc) as [Ho Hl]. unfold wrapped.
  destruct (tick_fn _ _ _) as [[[outcome o'] events] t]. cbn [snd].
  set (g0 := mk_wrapped t _ _ _). destruct (drain_spec on_open (drained genv (pred (drains g0))) g0) as [H1 H2].
  set (g' := fold_left _ _ g0) in *. exists (drained genv (pred (drains g0))).
  assert (Hd0 : drains g0 = Datatypes.S (drains g)) by done.
  split; [|split].
  - rewrite H1. right. rewrite Hd0. cbn [pred]. destruct Hd as [[Hd _]|(Hd & Hlast & Hb)].
    + split; [lia|]. split; [done|]. lia.
    + split; [lia|]. split; [done|]. intros k Hk. destruct (decide (k = pred (drains g))) as [->|].
      * by rewrite <- Hlast.
      * apply Hb. lia.
  - destruct (last_end on_open (drained genv (pred (drains g0)))) as [e|]; [apply H2|].
    destruct H2 as [_ H2]. rewrite H2. cbn. by rewrite Ho.
  - intros Hc'. destruct (last_end on_open (drained genv (pred (drains g0)))) as [e|];
      [destruct H2; congruence|].
    destruct H2 as [_ H2]. split; [|done]. rewrite H2. exact Ho.
Qed.

Lemma segment_spec c b w on_open res b' ticks :
  run_running_segment env genv tick_fn segment_fuel walk_fuel c b w on_open = Some (Ok res, b', ticks) ->
  exists last, drained_to on_open (b_drains b) (b_drains b') last /\ res = exit_of (last_end on_open last).
Proof using Type.
  unfold run_running_segment, run_schedule_loop_with_initial_tick.
  destruct (enter _ _ _ _ _ _ _ _) as [[r l]|] eqn:Ee; [|done].
  assert (Hl : callback l = mk_wrapped (b_callback b) (b_drains b) SEGMENT_EXIT_NONE false).
  { unfold enter in Ee. destruct (from_secs_f64 _); [|done]. cbn in Ee. by injection Ee as _ <-. }
  destruct (iterate _ _ _ _ _ r l) as [cs out] eqn:Ei.
  destruct out as [l'|e l'| |l']; try done. intros [= <- <- _]. cbn [b_drains].
  assert (Hs : seen on_open (b_drains b) (callback l')).
  { eapply iterate_callback; [|rewrite Hl|exact Ei|done].
    - intros g ctx o Hc Hg. by apply seen_tick.
    - exists []. split; [by left|]. done. }
  destruct Hs as (last & Hd & Hx & _). by exists last.
Qed.

(** A segment reads the environment onwards. *)
Section reads.
Context {T' : Type} (tk : T' -> TickContext -> TickOutput ->
  result TickResult SondaError * TickOutput * list MetricEvent * T') (token : T' -> bool).

Lemma break_reads r (l l' : @LoopState S T') :
  iteration env tk token walk_fuel r l = Break l' -> (reads (io l) <= reads (io l'))%nat.
Proof using Type.
  unfold iteration. cbn [cancelled now fst snd].
  destruct (cancel_flag env _ || _); [intros [= <-]; cbn; lia|].
  destruct (past_total _ _); [intros [= <-]; cbn; lia|].
  assert (Hres : forall w found, resume r l w found <> Break l').
  { intros w [[k|]|]; unfold resume; try done. by destruct (slot r k). }
  destruct (let! gap := gap_window (schedule r) in _) as [gap|].
  { unfold wall_gap. destruct (time_until_gap_end _ _); [|done].
    destruct (time_until_gap_window_end _ _); [|done]. cbn [now].
    destruct (if _ <? _ then select_cancel env _ else _) as [[] w]; [done|].
    intros E. by apply Hres in E. }
  destruct (is_in_gap_window _ _); [intros E; by apply Hres in E|]. unfold emit.
  destruct (match (let! burst := burst_window (schedule r) in _) with Some _ => _ | None => _ end) as [i|]; [|done].
  cbn [now]. destruct (if _ <? _ then select_cancel env _ else _) as [[] w]; [done|].
  match goal with |- settle _ _ _ ?ctx ?i ?b (run_tick _ _ ?w _) = _ -> _ =>
    pose proof (settle_callback env tk (fun _ => True) r l ctx i b w I) as Hs;
    destruct (settle env r l ctx i b (run_tick tk l w ctx)) end; done.
Qed.

Lemma iterate_reads fuel r : forall (l : @LoopState S T') cs l',
  iterate env tk token walk_fuel fuel r l = (cs, Ended l') -> (reads (io l) <= reads (io l'))%nat.
Proof using Type.
  induction fuel as [|fuel IH]; intros l cs l'; cbn [iterate]; [done|].
  pose proof (iteration_spec env tk token walk_fuel r l) as Hi. pose proof (break_reads r l) as Hb.
  destruct (iteration _ _ _ _ _ _) as [l1|ctx l1|l1|ctx e l1| |]; try done.
  - intros Hr%IH. destruct Hi as [_ Hi]. lia.
  - destruct (iterate _ _ _ _ fuel r l1) as [cs1 out1] eqn:E. intros [= _ ->]. apply IH in E.
    destruct Hi as (_ & _ & Hi & _). lia.
  - intros [= _ <-]. by apply Hb.
Qed.
End reads.

Lemma segment_reads c b w on_open res b' ticks :
  run_running_segment env genv tick_fn segment_fuel walk_fuel c b w on_open = Some (Ok res, b', ticks) ->
  (reads w <= reads (b_io b'))%nat.
Proof using Type.
  unfold run_running_segment, run_schedule_loop_with_initial_tick.
  destruct (enter _ _ _ _ _ _ _ _) as [[r l]|] eqn:Ee; [|done].
  assert (Hl : reads (io l) = Datatypes.S (reads w)).
  { unfold enter in Ee. destruct (from_secs_f64 _); [|done]. cbn in Ee. by injection Ee as _ <-. }
  destruct (iterate _ _ _ _ _ r l) as [cs out] eqn:Ei.
  destruct out as [l'|e l'| |l']; try done. intros [= _ <- _]. apply iterate_reads in Ei. cbn. lia.
Qed.

(** ** The debounce of a close *)

Lemma debounce_loop_spec c close k0 fuel : forall i w x w',
  reads w = debounce_at c k0 i ->
  (forall i', (i' < i)%nat -> exists recv, debounce_hears c close k0 i' recv /\
     recv <> Some WhileOpen /\ recv <> Some UpstreamGone) ->
  close <> 0 -> debounce_loop env genv fuel c (instant env k0 + close) w = Some (x, w') ->
  debounced c close k0 (negb x).
Proof using Type.
  induction fuel as [|fuel IH]; intros i w x w' Hw Hi Hz; cbn [debounce_loop]; [done|].
  unfold debounced. rewrite (proj2 (Z.eqb_neq close 0)) by done.
  unfold cancelled. rewrite Hw. destruct (cancel_flag env (debounce_at c k0 i)) eqn:Ec.
  { intros [= <- _]. exists i. split; [done|by left]. }
  pose proof (expired_reads c (advance w)) as [Hr He].
  destruct (duration_expired env c (advance w)) as [e w1]. cbn [fst snd] in Hr, He.
  destruct e.
  { intros [= <- _]. exists i. split; [done|right; left]. specialize (He eq_refl). cbn in He.
    rewrite Hw in He. by rewrite Nat.add_1_r. }
  cbn [now]. assert (Hr1 : reads w1 = (debounce_at c k0 i + timed c + 1)%nat) by (rewrite Hr; cbn [reads advance]; lia).
  rewrite Hr1. destruct (Z.leb_spec (instant env k0 + close) (instant env (debounce_at c k0 i + timed c + 1)%nat)) as [Hle|Hlt].
  { intros [= <- _]. exists i. split; [done|]. right. right. by left. }
  pose proof (remaining_reads c (advance w1)) as Hrr.
  destruct (remaining_duration env c (advance w1)) as [remaining w2]. cbn [snd] in Hrr.
  assert (Hr2 : reads w2 = (debounce_at c k0 i + 2 * timed c + 2)%nat) by (rewrite Hrr; cbn [reads advance]; lia).
  set (wait := match remaining with Some r => _ | None => _ end).
  assert (Hwait : wait <= PAUSED_POLL_INTERVAL) by (subst wait; destruct remaining; lia).
  clearbody wait. unfold recv_or_cancel. rewrite Hr2.
  destruct (cancel_wins env _) eqn:Ew.
  { intros [= <- _]. exists i. split; [done|]. do 3 right. by left. }
  assert (Hh : debounce_hears c close k0 i (received genv (debounce_at c k0 i + 2 * timed c + 2)%nat wait)).
  { split; [done|]. split; [done|]. by exists wait. }
  assert (Hnext : forall x w', received genv (debounce_at c k0 i + 2 * timed c + 2)%nat wait <> Some WhileOpen ->
    received genv (debounce_at c k0 i + 2 * timed c + 2)%nat wait <> Some UpstreamGone ->
    debounce_loop env genv fuel c (instant env k0 + close) (advance w2) = Some (x, w') ->
    debounced c close k0 (negb x)).
  { intros x0 w0 H1 H2. apply (IH (Datatypes.S i)); [cbn [reads advance]; rewrite Hr2; unfold debounce_at; lia| |done].
    intros i' Hi'. destruct (decide (i' = i)) as [->|]; [by eexists|apply Hi; lia]. }
  unfold debounced in Hnext. rewrite (proj2 (Z.eqb_neq close 0)) in Hnext by done.
  destruct (received genv _ wait) as [[]|] eqn:Er.
  - intros Hd. by eapply Hnext.
  - intros [= <- _]. by exists i.
  - intros Hd. by eapply Hnext.
  - intros [= <- _]. exists i. split; [done|]. by do 4 right.
  - intros Hd. by eapply Hnext.
Qed.

Lemma debounce_spec c d w x w' :
  debounce_close_to_paused env genv debounce_fuel c d w = Some (x, w') ->
  debounced c (delay_close d) (reads w) (negb x).
Proof using Type.
  unfold debounce_close_to_paused. destruct (Z.eqb_spec (delay_close d) 0) as [E|E].
  - intros [= <- _]. unfold debounced. by rewrite E.
  - cbn [now]. intros Hd. eapply (debounce_loop_spec c _ _ _ 0); [|lia|done|exact Hd].
    cbn. unfold debounce_at. lia.
Qed.

(** ** One turn *)

Section turns.
Context c (D : Z).

Abbreviation step := (life_step (if_unresolved (gate_ctx c)) (has_while (gate_ctx c))
                        (holds_on_close (gate_ctx c)) D).

(** The body is the life: the opening timer is that of the opening heard last. *)
Definition lives b (l : Life) : Prop :=
  b_state b = l_state l /\ after_satisfied b = l_after l /\ while_open b = l_open l /\
  timer_ok D (l_since l) (machine b) /\ (l_since l <> None -> b_state b = Paused \/ b_state b = Held).

(** A turn that goes on is a turn of the life, on what it met. *)
Definition turn_lives b (l : Life) (t : @Turn S T) : Prop :=
  match t with
  | Next b' ticks _ => exists h l', met c b b' h /\ step (valued (b_io b')) l h = Some l' /\ lives b' l' /\
      (ticks <> [] -> exists last reopened, h = Ran last reopened)
  | _ => True
  end.

(** Without an opening heard, all that counts of the timers is the delay. *)
Lemma lives_plain b s a o :
  b_state b = s -> after_satisfied b = a -> while_open b = o ->
  delay_open (debounce b) = D -> pending_open_at (debounce b) = None -> lives b (mk_life s a o None).
Proof using Type. intros <- <- <- Hd Hp. split_and!; [done..| |done]. by split_and!. Qed.

Lemma lives_delay b l : lives b l -> delay_open (debounce b) = D.
Proof using Type. by intros (_ & _ & _ & (_ & Hx & _) & _). Qed.

Lemma lives_unarmed b l :
  lives b l -> b_state b <> Paused -> b_state b <> Held -> l_since l = None /\ pending_open_at (debounce b) = None.
Proof using Type.
  intros (_ & _ & _ & (Hp & _ & _) & Hs) H1 H2. destruct (l_since l) as [t|].
  - by destruct Hs.
  - done.
Qed.

(** A turn that met [h] and settles in a state. *)
Lemma settled_lives b l h b1 s open zero ticks marked :
  (forall b', b_drains b' = b_drains b1 -> met c b b' h) ->
  (forall v, v = valued (b_io b1) -> step v l h = Some (mk_life s (after_satisfied b1) open None)) ->
  delay_open (debounce b1) = D -> (ticks <> [] -> exists last reopened, h = Ran last reopened) ->
  turn_lives b l (Next (settle_in env b1 s open zero) ticks marked).
Proof using Type.
  intros Hm Hs Hd Ht. exists h. eexists. split; [by apply Hm|]. split; [|split; [|exact Ht]].
  - apply Hs. apply write_state_valued.
  - by apply lives_plain.
Qed.

Lemma pending_lives b l w :
  b_state b = Pending -> reads w = (reads (b_io b) + timed c + 1)%nat -> lives b l ->
  turn_lives b l (pending_turn env genv c b w).
Proof using Type.
  intros Hs Hw Hl. destruct (lives_unarmed b l Hl) as [Hn Hp]; [by rewrite Hs..|].
  pose proof (lives_delay b l Hl) as Hd. pose proof Hl as (El & Ea & Eo & _). rewrite Hs in El.
  unfold pending_turn. destruct (after_satisfied b) eqn:Eab; cbn [negb].
  - assert (Hmove : forall s zero, step (valued w) l Passed = Some (mk_life s true (while_open b) None) ->
              turn_lives b l (Next (move_to env b w s zero) [] false)).
    { intros s zero Hst. exists Passed. eexists. split; [constructor|].
      split; [cbn [move_to set_machine b_io]; rewrite write_state_valued; exact Hst|]. split; [|done].
      by apply lives_plain. }
    assert (Hst : step (valued w) l Passed
      = if has_while (gate_ctx c) && negb (while_open b)
        then Some (mk_life (closed (holds_on_close (gate_ctx c)) (valued w)) true false None)
        else Some (mk_life Running true (while_open b) None)).
    { unfold life_step. rewrite <- El, <- Ea, <- Eo. done. }
    destruct (has_while (gate_ctx c)); cbn [negb andb] in *; [|by apply Hmove].
    destruct (while_open b) eqn:Ewo; cbn [negb] in *; [by apply Hmove|]. apply Hmove.
    by rewrite close_target_valued.
  - pose proof (until_reads c w PAUSED_POLL_INTERVAL) as [Hr Hwt].
    destruct (remaining_until env c w _) as [wait w1]. cbn [fst snd] in Hr, Hwt.
    assert (Hr1 : reads w1 = waits_at c b) by (unfold waits_at; rewrite Hr, Hw, Hs; lia).
    unfold recv_or_cancel. rewrite Hr1. destruct (cancel_wins env _); [done|].
    assert (Hm : forall b', met c b b' (Heard (received genv (waits_at c b) wait)
                                         (instant env (Datatypes.S (waits_at c b))))).
    { intros b'. apply met_wait; [by rewrite Hs|done]. }
    set (n := instant env _) in Hm.
    assert (Hnext : forall recv after open, received genv (waits_at c b) wait = recv ->
              (forall v, step v l (Heard recv n) = Some (mk_life Pending after open None)) ->
              turn_lives b l (Next (set_machine b (advance w1) Pending after open (debounce b)) [] false)).
    { intros recv after open E Hst. rewrite E in Hm. exists (Heard recv n). eexists.
      split; [apply Hm|]. split; [apply Hst|]. split; [by apply lives_plain|done]. }
    assert (Hst : forall v recv, step v l (Heard recv n) = match recv with
      | Some AfterFired => Some (mk_life Pending true (while_open b) None)
      | Some WhileOpen => Some (mk_life Pending false true None)
      | Some WhileClose => Some (mk_life Pending false false None)
      | Some UpstreamGone => match if_unresolved (gate_ctx c) with
                             | Some _ => Some (mk_life Unresolved false false None) | None => None end
      | None => Some (mk_life Pending false (while_open b) None)
      end).
    { intros v recv. unfold life_step. rewrite <- El, <- Ea. destruct recv as [[]|]; try done.
      - by rewrite Eo.
      - destruct l; cbn in *. congruence. }
    destruct (received genv _ wait) as [[]|] eqn:Er.
    1: { eapply Hnext; [reflexivity|]. intros v. by rewrite Hst. }
    1: { eapply Hnext; [reflexivity|]. intros v. by rewrite Hst. }
    1: { eapply Hnext; [reflexivity|]. intros v. by rewrite Hst. }
    2: { eapply Hnext; [reflexivity|]. intros v. by rewrite Hst. }
    destruct (if_unresolved (gate_ctx c)) eqn:Eu; [|done].
    eapply settled_lives; [intros b' _; apply Hm|intros v _; rewrite Eu, Hst; cbn; by rewrite Eab|done|done].
Qed.

Lemma after_segment_lives b l b1 ticks (k : Body -> Turn) :
  (forall w, (reads (b_io b1) < reads w)%nat -> turn_lives b l (k (set_b_io b1 w))) ->
  turn_lives b l (after_segment env c b1 ticks k).
Proof using Type.
  intros Hk. unfold after_segment, cancelled. destruct (cancel_flag env _); [done|].
  pose proof (expired_reads c (advance (b_io b1))) as [He _].
  destruct (duration_expired env c _) as [[] w]; [done|]. apply Hk. cbn in He. lia.
Qed.

Lemma close_markers_drains b : b_drains (close_markers_now env c b).2 = b_drains b.
Proof using Type. unfold close_markers_now. by destruct (invoke_close_emit _ _ _ _ _ _ _) as [[[? ?] ?] ?]. Qed.

(** The gate has closed. *)
Lemma commit_lives b l h b1 ticks :
  (forall b', b_drains b' = b_drains b1 -> met c b b' h) ->
  (forall v, step v l h = Some (mk_life (closed (holds_on_close (gate_ctx c)) v) (after_satisfied b1) false None)) ->
  delay_open (debounce b1) = D -> (ticks <> [] -> exists last reopened, h = Ran last reopened) ->
  turn_lives b l (commit_close env c b1 ticks).
Proof using Type.
  intros Hm Hs Hd Ht. unfold commit_close. pose proof (close_markers_machine env c b1) as Hc.
  pose proof (close_markers_drains b1) as Hcd.
  destruct (close_markers_now env c b1) as [[[]|e] b2]; [|done]. cbn [snd] in Hc, Hcd.
  injection Hc as _ Ha _ Hdb. apply settled_lives with (h := h).
  - intros b' Hb'. apply Hm. congruence.
  - intros v ->. by rewrite Hs, close_target_valued, Ha.
  - by rewrite Hdb.
  - done.
Qed.

Lemma running_lives b l w :
  b_state b = Running -> (reads (b_io b) <= reads w)%nat -> lives b l ->
  turn_lives b l (running_turn env genv tick_fn segment_fuel walk_fuel debounce_fuel c b w).
Proof using Type.
  intros Hs Hw Hl. pose proof (lives_delay b l Hl) as Hd. pose proof Hl as (El & Ea & _). rewrite Hs in El.
  unfold running_turn.
  destruct (run_running_segment _ _ _ _ _ _ _ _ _) as [[[[exit|e] b1] ticks]|] eqn:Er; [|done|done].
  pose proof (segment_reads _ _ _ _ _ _ _ Er) as Hb1.
  pose proof (segment_spec _ _ _ _ _ _ _ Er) as (last & Hdr & ->).
  apply segment_machine in Er. injection Er as Es1 Ea1 Eo1 Ed1.
  assert (Hm : forall b' reopened, b_drains b' = b_drains b1 ->
    (last_end false last = Some WhileClose ->
       exists k0, (reads (b_io b) < k0)%nat /\ debounced c (delay_close (debounce b)) k0 reopened) ->
    met c b b' (Ran last reopened)).
  { intros b' reopened E Hdb. apply (met_segment _ _ _ false); [by rewrite Hs|by rewrite E|by intros _]. }
  apply after_segment_lives. intros w1 Hw1.
  assert (Hran : forall reopened, ticks <> [] -> exists last' reopened', Ran last reopened = Ran last' reopened')
    by (intros; by eexists _, _).
  assert (Hst : forall v reopened, step v l (Ran last reopened) = match last_end false last with
    | Some UpstreamGone => match if_unresolved (gate_ctx c) with
                           | Some _ => Some (mk_life Unresolved (after_satisfied b) false None) | None => None end
    | Some WhileClose => if reopened then Some (mk_life Running (after_satisfied b) true None)
                         else Some (mk_life (closed (holds_on_close (gate_ctx c)) v) (after_satisfied b) false None)
    | _ => Some (mk_life (closed (holds_on_close (gate_ctx c)) v) (after_satisfied b) false None)
    end) by (intros v reopened; unfold life_step; by rewrite <- El, <- Ea).
  assert (Hquiet : exit_of (last_end false last) <> SegWhileClose -> forall b' r,
    b_drains b' = b_drains b1 -> met c b b' (Ran last r)).
  { intros Hne b' r E. apply Hm; [done|]. intros E'. by rewrite E' in Hne. }
  assert (Hclose : exit_of (last_end false last) <> SegWhileClose ->
    (forall v, step v l (Ran last false)
       = Some (mk_life (closed (holds_on_close (gate_ctx c)) v) (after_satisfied b) false None)) ->
    turn_lives b l (Next (settle_in env (set_b_io b1 w1)
      (close_target_state (holds_on_close (gate_ctx c)) w1) false true) ticks false)).
  { intros Hne Hs1. apply settled_lives with (h := Ran last false).
    - intros b' E. by apply Hquiet.
    - intros v ->. rewrite Hs1, close_target_valued. cbn. by rewrite Ea1.
    - cbn. by rewrite Ed1.
    - apply Hran. }
  destruct (last_end false last) as [[]|] eqn:El'; cbn [exit_of] in *.
  - by apply Hclose.
  - by apply Hclose.
  - destruct (debounce_close_to_paused _ _ _ _ _ _) as [[[] w2]|] eqn:Edb; [|..|done];
      apply debounce_spec in Edb; cbn [set_b_io debounce b_io negb] in Edb; rewrite Ed1 in Edb.
    + apply commit_lives with (h := Ran last false).
      * intros b' E. apply Hm; [done|]. intros _. exists (reads w1). split; [lia|done].
      * intros v. by rewrite Hst, <- Ea1.
      * cbn. by rewrite Ed1.
      * apply Hran.
    + exists (Ran last true). eexists. split; [|split; [by rewrite Hst|split; [|by apply Hran]]].
      * apply Hm; [done|]. intros _. exists (reads w1). split; [lia|done].
      * destruct (lives_unarmed b l Hl) as [_ Hp]; [by rewrite Hs..|].
        apply lives_plain; cbn; rewrite ?Ed1; done.
  - destruct (if_unresolved (gate_ctx c)) eqn:Eu; [|done].
    pose proof (close_markers_machine env c (set_b_io b1 w1)) as Hc.
    pose proof (close_markers_drains (set_b_io b1 w1)) as Hcd.
    destruct (close_markers_now env c _) as [[[]|e] b2]; [|done]. cbn [snd] in Hc, Hcd.
    injection Hc as _ Ha2 _ Hdb2. cbn in Hdb2. apply settled_lives with (h := Ran last false).
    + intros b' E. apply Hquiet; [done|]. rewrite E. exact Hcd.
    + intros v _. rewrite Eu, Hst. cbn in Ha2. by rewrite Ha2, Ea1.
    + by rewrite Hdb2, Ed1.
    + apply Hran.
  - by apply Hclose.
Qed.

(** The wait of a closed scenario. *)
Lemma paused_wait_spec b w recv w' :
  (b_state b = Paused \/ b_state b = Held) -> reads w = (reads (b_io b) + timed c + 1)%nat ->
  paused_wait env genv c b w = (recv, w') ->
  reads w' = Datatypes.S (waits_at c b) /\
  match recv with
  | Some r => exists wait, wait <= PAUSED_POLL_INTERVAL /\ r = received genv (waits_at c b) wait
  | None => True
  end.
Proof using Type.
  intros Hs Hw. unfold paused_wait. cbn [now]. pose proof (remaining_reads c (advance w)) as Hr.
  destruct (remaining_duration env c (advance w)) as [r w1]. cbn [snd reads advance] in Hr.
  assert (Hr1 : reads w1 = waits_at c b) by (unfold waits_at; rewrite Hr, Hw; destruct Hs as [-> | ->]; lia).
  set (wait := match r with Some _ => _ | None => _ end).
  assert (Hwait : wait <= PAUSED_POLL_INTERVAL)
    by (subst wait; destruct (next_wakeup _ _); destruct r; lia).
  clearbody wait. unfold recv_or_cancel. rewrite Hr1. intros [= <- <-]. cbn [reads advance].
  split; [by rewrite Hr1|]. destruct (cancel_wins env _); [done|]. by exists wait.
Qed.

Lemma closed_step b l v recv n :
  b_state b = Paused \/ b_state b = Held -> lives b l -> recv <> Some UpstreamGone ->
  let m := observe_edge recv n (machine b) in
  step v l (Heard recv n)
  = match open_since [(recv, n)] (l_since l) with
    | Some t0 => if t0 + D <=? n then Some (mk_life Running (m_after m) true None)
                 else Some (mk_life (b_state b) (m_after m) (m_open m) (Some t0))
    | None => Some (mk_life (b_state b) (m_after m) (m_open m) None)
    end.
Proof using Type.
  intros Hs (El & Ea & Eo & _) Hg. unfold life_step.
  destruct recv as [[]|]; try done; cbn; rewrite ?Ea, ?Eo;
    (destruct Hs as [Hs|Hs]; rewrite Hs in El |- *; rewrite <- El; try done;
     by destruct (l_since l)).
Qed.

Lemma paused_lives b l w :
  b_state b = Paused \/ b_state b = Held -> reads w = (reads (b_io b) + timed c + 1)%nat -> lives b l ->
  turn_lives b l (paused_turn env genv c b w).
Proof using Type.
  intros Hs Hw Hl. pose proof (lives_delay b l Hl) as Hd. unfold paused_turn.
  destruct (paused_wait env genv c b w) as [recv w1] eqn:Ew.
  destruct (paused_wait_spec b w recv w1 Hs Hw Ew) as [Hr Hrecv].
  destruct recv as [recv|]; [|done]. destruct Hrecv as (wait & Hwait & ->). cbn [now]. rewrite Hr.
  assert (Hm : forall b', met c b b' (Heard (received genv (waits_at c b) wait)
                                       (instant env (Datatypes.S (waits_at c b))))).
  { intros b'. apply met_wait; [by destruct Hs as [-> | ->]|done]. }
  set (n := instant env _) in *. set (w2 := advance w1). clear Ew.
  generalize dependent (received genv (waits_at c b) wait). intros recv Hm.
  assert (Hfire : recv <> Some UpstreamGone -> let m := observe_edge recv n (machine b) in
    turn_lives b l (let (due, d) := fire_if_due (m_debounce m) n in
      let stay s w := Next (set_machine b w s (m_after m) (m_open m) d) [] false in
      match due with
      | Some WhileOpen =>
          if m_open m then stay Running (write_state env w2 Running false) else stay (b_state b) w2
      | _ => stay (b_state b) w2
      end)).
  { intros Hg m. pose proof (fun v => closed_step b l v recv n Hs Hl Hg) as Hst.
    destruct Hl as (El & Ea & Eo & Htm & Hsn). apply (observe_timer _ _ recv n) in Htm.
    fold m in Htm, Hst. cbv zeta in Hst. set (since := open_since _ _) in *. clearbody since.
    pose proof (fire_timer (m_debounce m) n) as Hft. pose proof (fire_delay (m_debounce m) n) as Hfd.
    destruct Htm as (H1 & H2 & H3).
    assert (Hstay : forall d, delay_open d = D -> pending_open_at d = (fun t => t + D) <$> since ->
      (forall v, step v l (Heard recv n) = Some (mk_life (b_state b) (m_after m) (m_open m) since)) ->
      turn_lives b l (Next (set_machine b w2 (b_state b) (m_after m) (m_open m) d) [] false)).
    { intros d Hd1 Hd2 Hd3. exists (Heard recv n). eexists. split; [apply Hm|]. split; [apply Hd3|].
      split; [|done]. split_and!; [done..| |done]. by split_and!. }
    destruct since as [t0|].
    - destruct (Z.leb_spec (t0 + D) n) as [Hle|Hlt].
      + unfold fire_if_due. rewrite H1. cbn. rewrite (proj2 (Z.leb_le _ _)) by done. rewrite (H3 ltac:(done)).
        exists (Heard recv n). eexists. split; [apply Hm|]. split; [apply Hst|]. split; [|done].
        by apply lives_plain.
      + destruct (fire_if_due (m_debounce m) n) as [due d] eqn:Ef. cbn [fst snd] in *.
        assert (Hdue : due <> Some WhileOpen).
        { intros ->. pose proof (fire_open (m_debounce m) n) as Ho. rewrite Ef in Ho.
          destruct (Ho eq_refl) as (t & Ht & Hle). rewrite H1 in Ht. injection Ht as <-. lia. }
        assert (Hs1 := Hstay d ltac:(congruence) ltac:(rewrite Hft; done) Hst).
        destruct due as [[]|]; done.
    - destruct (fire_if_due (m_debounce m) n) as [due d] eqn:Ef. cbn [fst snd] in *.
      assert (Hdue : due <> Some WhileOpen).
      { intros ->. pose proof (fire_open (m_debounce m) n) as Ho. rewrite Ef in Ho.
        destruct (Ho eq_refl) as (t & Ht & Hle). by rewrite H1 in Ht. }
      assert (Hs1 := Hstay d ltac:(congruence) ltac:(rewrite Hft; done) Hst).
      destruct due as [[]|]; done. }
  destruct recv as [[]|]; try (by apply Hfire).
  destruct (if_unresolved (gate_ctx c)) eqn:Eu; [|done].
  apply settled_lives with (h := Heard (Some UpstreamGone) n); [done| |done|done].
  intros v _. destruct Hl as (El & Ea & _). unfold life_step. rewrite Eu. cbn. rewrite Ea.
  destruct Hs as [Hs|Hs]; rewrite Hs in El; by rewrite <- El.
Qed.

Lemma unresolved_lives b l w :
  b_state b = Unresolved -> reads w = (reads (b_io b) + timed c + 1)%nat -> lives b l ->
  turn_lives b l (unresolved_turn env genv tick_fn segment_fuel walk_fuel c b w).
Proof using Type.
  intros Hs Hw Hl. destruct (lives_unarmed b l Hl) as [Hn Hp]; [by rewrite Hs..|].
  pose proof (lives_delay b l Hl) as Hd. pose proof Hl as (El & Ea & Eo & _). rewrite Hs in El.
  assert (Hsame : l = mk_life Unresolved (after_satisfied b) (while_open b) None)
    by (destruct l; cbn in *; congruence).
  unfold unresolved_turn. destruct (default UPending (if_unresolved (gate_ctx c))) eqn:Em.
  1: { assert (Hu : if_unresolved (gate_ctx c) = Some UOpen)
         by (destruct (if_unresolved (gate_ctx c)); [cbn in Em; by subst|done]).
    destruct (run_running_segment _ _ _ _ _ _ _ _ _) as [[[[exit|e] b1] ticks]|] eqn:Er; [|done|done].
    pose proof (segment_spec _ _ _ _ _ _ _ Er) as (last & Hdr & ->).
    apply segment_machine in Er. injection Er as Es1 Ea1 Eo1 Ed1.
    assert (Hm : forall b', b_drains b' = b_drains b1 -> met c b b' (Ran last false)).
    { intros b' E. apply (met_segment _ _ _ true); [by rewrite Hs|by rewrite E|by rewrite Hs]. }
    assert (Hran : ticks <> [] -> exists last' reopened', Ran last false = Ran last' reopened')
      by (intros; by eexists _, _).
    apply after_segment_lives. intros w1 _.
    assert (Hst : forall v, step v l (Ran last false) = match last_end true last with
      | Some WhileClose => Some (mk_life (closed (holds_on_close (gate_ctx c)) v) (after_satisfied b) false None)
      | Some WhileOpen => Some (mk_life Running (after_satisfied b) true None)
      | _ => Some l
      end) by (intros v; unfold life_step; by rewrite <- El, Hu, <- Ea).
    assert (Hkeep : (forall v, step v l (Ran last false) = Some l) ->
              turn_lives b l (Next (set_b_io b1 w1) ticks false)).
    { intros Hs1. exists (Ran last false), l. split; [by apply Hm|]. split; [apply Hs1|]. split; [|done].
      rewrite Hsame. apply lives_plain; cbn; congruence. }
    destruct (last_end true last) as [[]|]; cbn [exit_of].
    - by apply Hkeep.
    - apply settled_lives with (h := Ran last false); [done|intros v _; rewrite Hst; cbn; by rewrite Ea1
        |cbn; by rewrite Ed1|done].
    - apply commit_lives with (h := Ran last false); [done|intros v; rewrite Hst; cbn; by rewrite Ea1
        |cbn; by rewrite Ed1|done].
    - by apply Hkeep.
    - by apply Hkeep. }
  all: assert (Hu : forall v recv n, step v l (Heard recv n) = match recv with
    | Some WhileOpen => Some (mk_life Pending (after_satisfied b) true None)
    | Some WhileClose => Some (mk_life (closed (holds_on_close (gate_ctx c)) v) (after_satisfied b) false None)
    | Some AfterFired => Some (mk_life Unresolved true (while_open b) None)
    | Some UpstreamGone | None => Some l
    end) by (intros v recv n; unfold life_step; rewrite <- El, <- Ea, <- Eo;
             destruct (if_unresolved (gate_ctx c)) as [[]|]; try done; by destruct recv as [[]|]).
  all: pose proof (until_reads c w PAUSED_POLL_INTERVAL) as [Hr Hwt];
    destruct (remaining_until env c w _) as [wait w1]; cbn [fst snd] in Hr, Hwt;
    assert (Hr1 : reads w1 = waits_at c b) by (unfold waits_at; rewrite Hr, Hw, Hs; lia);
    unfold recv_or_cancel; rewrite Hr1; destruct (cancel_wins env _); [done|];
    assert (Hm : forall b', met c b b' (Heard (received genv (waits_at c b) wait)
                                         (instant env (Datatypes.S (waits_at c b)))))
      by (intros b'; apply met_wait; [by rewrite Hs|done]);
    set (n := instant env _) in *;
    destruct (received genv (waits_at c b) wait) as [[]|].
  all: lazymatch goal with
    | |- turn_lives _ _ (Next (set_b_io _ _) _ _) =>
        eexists _, l; split; [apply Hm|]; split; [rewrite Hu; reflexivity|]; split; [|done];
        rewrite Hsame; by apply lives_plain
    | |- turn_lives _ _ (Next (set_machine _ _ _ _ _ _) _ _) =>
        eexists _, _; split; [apply Hm|]; split; [rewrite Hu; reflexivity|]; split; [by apply lives_plain|done]
    | |- turn_lives _ _ (Next (settle_in _ _ _ _ _) _ _) =>
        eapply settled_lives; [intros b' _; apply Hm
          |intros v ->; rewrite Hu; cbn; by rewrite ?close_target_valued|done|done]
    end.
Qed.

Lemma turn_lives_spec b l : lives b l -> turn_lives b l (turn c b).
Proof using Type.
  intros Hl. unfold body_iteration, cancelled. destruct (cancel_flag env _); [done|].
  pose proof (expired_reads c (advance (b_io b))) as [He _].
  destruct (duration_expired env c _) as [[] w]; [done|]. cbn [snd reads advance] in He.
  assert (Hw : reads w = (reads (b_io b) + timed c + 1)%nat) by lia.
  destruct (b_state b) eqn:Es; [by apply pending_lives|apply running_lives; [done|lia|done]
    |apply paused_lives; [by left|done..]|apply paused_lives; [by right|done..]
    |by apply unresolved_lives|done].
Qed.
End turns.

(** C33: the gated loop is the machine [life_step]. Every body it goes through has
    a history: for each turn, what its wait received at its place in the
    environment and the instant it ended, or what its segment drained last and
    whether a close was taken back while debounced. The state, [after:] and gate
    of the body are those [life_run] gives on that history, and nothing else;
    in particular a paused scenario runs again exactly in the turn in which its
    gate, heard open and not closed since, has stood open for the delay. Ticks
    are run only in a turn that ran a segment. *)
Theorem body_lives sch rate ctx (t : T) o lim w b
  (Hr : body_reach env genv tick_fn segment_fuel walk_fuel debounce_fuel
          (body_start env sch rate ctx t o lim w).1 (body_start env sch rate ctx t o lim w).2 b) :
  exists hs since,
    history (body_start env sch rate ctx t o lim w).1 (body_start env sch rate ctx t o lim w).2 hs b /\
    life_run (if_unresolved ctx) (has_while ctx) (holds_on_close ctx)
      (delay_open (from_clause (delay ctx))) (life_start ctx) hs
    = Some (mk_life (b_state b) (after_satisfied b) (while_open b) since).
Proof using Type.
  pose proof (start_context env sch rate ctx t o lim w) as Hc.
  set (c := (body_start env sch rate ctx t o lim w).1) in *.
  set (b0 := (body_start env sch rate ctx t o lim w).2) in *.
  set (D := delay_open (from_clause (delay ctx))).
  assert (H0 : lives D b0 (life_start ctx)).
  { subst b0. unfold body_start. cbn [now]. destruct (resolve env sch _ _) as [a w1]. cbn [snd].
    apply lives_plain; cbn; try done; [by destruct (has_after ctx)|by destruct (has_while ctx)
      |by destruct (delay ctx)]. }
  assert (Hall : exists hs l, history c b0 hs b /\ lives D b l /\
    life_run (if_unresolved ctx) (has_while ctx) (holds_on_close ctx) D (life_start ctx) hs = Some l).
  { induction Hr as [|b1 b2 ticks marked _ (hs & l & Hh & Hl & Hrun) Ht].
    - exists [], (life_start ctx). split; [constructor|]. by split.
    - pose proof (turn_lives_spec c D b1 l Hl) as Htl. rewrite Ht in Htl.
      destruct Htl as (h & l' & Hm & Hst & Hl' & Hq). rewrite Hc in Hst.
      exists (hs ++ [(h, valued (b_io b2))]), l'. split; [by eapply history_turn|]. split; [done|].
      by eapply life_run_snoc. }
  destruct Hall as (hs & l & Hh & (E1 & E2 & E3 & _) & Hrun). exists hs, (l_since l). split; [done|].
  rewrite Hrun, E1, E2, E3. by destruct l.
Qed.
End spec.

(** ** A concrete run *)

#[local] Existing Instance log_sink.

Definition ex_reopen_context : @GateContext (list Z) :=
  ex_context true (Some (mk_delay (Some (500 * ms)) None None None)) None
    (Some (make_close_emitter gate_clock ex_encode elements (SnapTo 7) false)) false.

(** A segment whose one tick drains a closing, waits in which the gate opens at
    1.8 s, and the turn that resumes, at 2.3 s. *)
Lemma body_lives_witness :
  b_state (ex_body 7) = Running /\
  exists hs since,
    history gate_clock ex_reopen_env ex_event_tick 100 100 100 ex_reopen_start.1 ex_reopen_start.2 hs
      (ex_body 7) /\
    life_run None true false (500 * ms) (life_start ex_reopen_context) hs
    = Some (mk_life (b_state (ex_body 7)) (after_satisfied (ex_body 7)) (while_open (ex_body 7)) since).
Proof.
  split; [vm_compute; reflexivity|].
  refine (body_lives gate_clock ex_reopen_env ex_event_tick 100 100 100
    (ex_schedule (4000 * ms) None [] None false) rate_5 ex_reopen_context tt
    for_schedule_loop new_close_limiters (ex_io (Some (enable_close_series_tracking default_stats)))
    (ex_body 7) (ex_reach 7 _)). vm_compute. reflexivity.
Defined.

(** The life of such a run. *)
Example ex_life :
  life_run None true false (500 * ms) (life_start ex_reopen_context)
    [(Passed, false); (Ran [WhileClose] false, true); (Heard None (800 * ms), true);
     (Heard (Some WhileOpen) (1700 * ms), true); (Heard None (2100 * ms), true);
     (Heard None (2300 * ms), true)]
  = Some (mk_life Running true true None).
Proof. reflexivity. Qed.
